(* ===== verification/_CoqProject ===== *)
-Q . S2P
Prelude.v
Encoder.v
ObjReader.v
Resolver.v
Isolation.v
Linker.v
LinkOutput.v
Emit.v
WasmModel.v
WasmOps.v
TypeLayout.v
WasmEncode.v
WasmCheck.v
BinaryWriter.v
BinaryTotal.v
ObjWriter.v
ObjTotal.v
ObjReloc.v
FuncTypes.v
FuncSpace.v
IndexShift.v
Scc.v
SccOk.v
SccGraph.v
InstrGraph.v
InstrWalk.v
FuncSweep.v
DeadElim.v
DeadElimOk.v
DeadElimSpec.v
DeadElimModule.v
DeadElimMain.v
DeadElimSafe.v
FuncSweepOk.v
FuncSweepMain.v
WasmSem.v
PeepRules.v
Peephole.v
PeepholeOk.v
PeepholeMain.v
InterpCode.v
SourceMap.v
PositionMap.v
ReBytecode.v
ReLinear.v
ReVm.v
ReCaseFold.v
ReUnicode.v
ReCompile.v
ReStringSet.v
ReParse.v
ReParseOk.v
RePrint.v
ReSpec.v
ReExact.v
RePike.v
ReImpl.v
ReEmit.v
ReQueue.v
ReCorrect.v
ReMain.v
RePattern.v
IrCfg.v
IrDominance.v
IrDomGraph.v
IrDomOk.v
IrDomTree.v
IrDomMain.v
IrDomNaive.v
IrNodes.v
IrEffects.v
IrSchedule.v
IrSem.v
IrSimOk.v
AllocRegistry.v
IrDead.v
IrDeadOk.v
IrDeadMain.v
ConstFold.v
ConstFoldOk.v
