(* ===== verification/Prelude.v ===== *)
(** * js2: the Wasm writers, the function index space, dead imports and
    functions, the peephole pass, the linker, the regular-expression engine, bytecode,
    source positions and maps, graph algorithms, and constant folding and dead-code
    elimination on the IR

    This library models parts of a compiler from JavaScript to WebAssembly: the
    parts that carry algorithms of their own.  File names below are relative to
    src/ of the repository; the file that models them is named in brackets.

    ** How the parts interact

    - Writing modules.  The module that code generation builds (wasm/model/ and the
      WasmModule of ir/types.ts) is [WasmModel]; emit/opcodes.ts and the cases of the
      writers that only write opcodes are tables [WasmOps].  wasm/physical/type-layout.ts
      plans the type section [TypeLayout].  emit/binary.ts writes a whole module with
      every index checked: instructions and types [WasmEncode], sections [BinaryWriter].
      emit/object.ts writes a relocatable object with the unchecked encoders of
      emit/binary.ts and relocations of its own [ObjWriter].  Both write through the byte
      encoder; [Emit] composes such steps.
    - The function index space.  While code is generated a function is named by a
      handle: wasm/physical/function-types.ts interns signatures [FuncTypes];
      wasm/physical/function-handles.ts and codegen/func-space.ts mint, push and
      resolve handles [FuncSpace]; codegen/expressions/late-imports.ts,
      codegen/async-scheduler.ts and codegen/registry/physical-imports.ts add imports
      late and shift the live handles of instructions and tables [IndexShift].
    - Dead code.  wasm/model/instruction-walk.ts walks instruction arrays, which can
      share objects: [InstrGraph] is the object store, the reading of a body as a tree
      and the walks.  codegen/dead-elimination.ts drops unused imports and types and
      renumbers the module in place [DeadElim], after codegen/
      function-reachability-sweep.ts has stubbed the functions that cannot run
      [FuncSweep].
    - Peephole optimisation.  codegen/peephole.ts rewrites the bodies of a module in
      place; the sharing analysis of codegen/call-arg-producers.ts tells it which
      instruction arrays have one reference [Peephole].
    - Components of call graphs.  codegen/analysis/strongly-connected-components.ts
      [Scc].
    - Linking.  emit/encoder.ts writes Wasm bytes [Encoder]; link/reader.ts reads
      relocatable objects [ObjReader]; link/resolver.ts maps undefined symbols to
      definitions [Resolver]; link/isolation.ts reports on the resolved modules
      [Isolation]; link/linker.ts runs the reader, the resolver, the validation and
      the emission of one merged module [Linker], and [LinkOutput] relates what it
      writes to what the reader reads.
    - Regular expressions (codegen/regex/).  parse.ts turns a pattern into a tree
      [ReParse], asking unicode.ts for code-point classes [ReUnicode] and
      unicode-string-properties.ts for sets of strings [ReStringSet]; compile.ts
      turns the tree into bytecode [ReCompile] with the case folding of casefold.ts
      [ReCaseFold]; bytecode.ts and match-units.ts are the instruction set and its
      unit predicates [ReBytecode]; vm.ts runs the bytecode by backtracking [ReVm]
      and falls back, on programs that allow it, to the PikeVM of linear.ts
      [ReLinear].
    - The bytecode interpreter (interp/).  opcodes.ts, encoder.ts, types.ts and
      disasm.ts: the instruction encoding, the encoder class and the disassembler
      [InterpCode].
    - Source maps.  emit/sourcemap.ts: VLQ, generation and decoding [SourceMap].
      position-map.ts: the line starts of a text and the stages of edits through
      which a generated offset is traced back to the input [PositionMap].
    - The block graph of the IR.  The blocks of ir/core/nodes.ts and the merging of
      ir/passes/simplify-cfg.ts [IrCfg]; ir/analysis/dominance.ts [IrDominance].
      Instructions are a type argument of both.
    - The middle-end IR.  Its instructions and the walks over their nested buffers,
      ir/core/nodes.ts and ir/core/dialect/js.ts [IrNodes]; what each instruction reads
      and writes and the check of an emission schedule, ir/analysis/effects.ts
      [IrEffects, IrSchedule]; the registry of allocation sites, ir/analysis/
      alloc-registry.ts and ir/passes/alloc-discipline.ts [AllocRegistry]; constant
      folding, ir/passes/constant-fold.ts [ConstFold], and dead-code elimination,
      ir/passes/dead-code.ts [IrDead].  The passes run in turn on a function.

    ** Conventions [Prelude]

    - A number that the code uses as an integer is a [Z]; the bit operators of
      [js_scope] apply ToInt32 or ToUint32 first.  A string is a list of UTF-16
      code units, a byte list a list of [Z].  A [Map] is an association list in
      insertion order ([jsmap]), which is what iteration over it sees.
    - A function that can throw returns [result A]: a value, or a fault, which is
      [Throw kind message], [OutOfFuel] (a loop bound of the model was reached) or
      [NotModelled] (a case outside the model).  [terminates] and [settles] say that
      the last two do not happen, [yields P] that a value satisfies [P] and that a
      fault is an exception of the program.
    - Loops without a structural measure take fuel, and each has a theorem that its
      fuel suffices: the reader's loops take the length of the file, the parser's
      one more than the length of the pattern, the trie and the queue of
      sub-programs of the compiler one more than the longest literal and the number
      of pending lookarounds, the PikeVM two steps per program state, the search of
      the block graph three steps per block, the walk of the dominator tree two, and
      the rounds of the idom loop one for each unit that the sum of the idoms'
      numbers can lose.  The planner of the type section takes one step per type and
      one more, for its groups and for the scan of a group.  The walk over instruction
      arrays takes one level per array and one more ([array_fuel]), the walk over a graph of
      shared objects one step per object of each array and one per array end
      ([dag_fuel]), the queue of the reachability sweep one step per function and one
      more, the closure of the used types one per mention in the type section and one
      more ([close_fuel]), the scan of a body by the peephole pass its length, its descent
      the nesting depth of the body, the sharing analysis one step per reference to
      a nested array and one more ([sharing_fuel]), the search for components the
      number of edges and nodes behind its roots (an argument, which the theorem
      bounds).  The search for reachable blocks takes the entry and two steps per block
      ([reach_fuel]), liveness one round per use and one more ([live_fuel]), the search of
      an emission tree one step for the root and one per operand ([tree_fuel]), a chain of
      aliases one step per site and one more ([alias_fuel]).  The step budget of the backtracking VM is the program's
      own, and exhausting it is its RangeError.  The fuels of [WasmSem] and [IrSem] are part of
      what they mean: they bound calls and loop iterations, and a bound that is reached
      shows in the result.
    - Code that is not under src/ or depends on the host is a class or an argument:
      [toUpperCase], [TextCodec] (UTF-8 of names), [HostRegExp] (the engine that
      enumerates a class at compile time), [StringPropertyData] (the generated
      table), the printing of doubles, the carrier of an IR type.  Classes with the
      suffix Ok state the documented behaviour that theorems use: [HostRegExpOk], [RangeEnumeratorOk]
      (what parse.ts needs of unicode.ts, derived from the former by
      [host_enumerator_ok]), [StringPropertyDataOk].  Each has instances in the
      witnesses.

    ** What the theorems show

    - Writers.  [WasmCheck] lists the indices that an instruction, a type or an export
      uses and when a check passes; [BinaryWriter] has that emission with the checks is
      emission without them on modules whose references resolve ([emitBinary_validated])
      and what the checks give to a reader of the module ([emitBinary_frames]);
      [BinaryTotal] and [ObjTotal] that both writers return bytes or throw.  The plan of the type
      section is the finest valid one ([planPhysicalTypeSection_finest]).  [ObjTotal]
      compares the instruction switches of the two writers.  [ObjReloc] proves that the
      relocations of an object are enough to link it: objects of the same code with
      other indices differ in relocated operands only, which are the references of the
      instructions, each with a symbol of its entity ([emitObject_relocations]); the
      places that get no relocation are excluded there and listed as findings.
    - Function index space: signatures are interned without confusion
      ([internFunctionType_correct]); registration is a state machine whose handles stay
      with their functions ([stable_handles_identify], [definedFuncHandleOf_inverse]);
      a flush shifts every handle once ([flush_shifts_once]), so along any run of
      registrations, requests and flushes an instruction keeps its function
      ([late_imports_keep_references]).
    - Dead code: [InstrWalk] proves that a body that reads as a tree is read alike by
      every walk, and that the walks visit each instruction in order
      ([walkInstructions_preorder]) and each shared object once
      ([walkInstructionDag_exact]).  The sweep marks exactly what can run
      ([reachableFunctionPositions_correct]) and its stubs change nothing that can
      ([stubUnreachableFunctions_correct]; [FuncSweepOk], [FuncSweepMain]).  The
      in-place renumbering is the renumbering of the tree the body reads as
      ([DeadElimOk]); [DeadElimSpec] says when two modules are the same up to unused
      imports and types, [DeadElimModule] reads a whole module out of the store, and
      [DeadElimMain] composes them ([eliminateDeadImports_correct]); [DeadElimSafe] has
      that every reference of the result names the entity it named
      ([eliminateDeadImports_same_entities]) and that all of them resolve
      ([eliminateDeadImports_well_referenced]).
    - Peephole: [WasmSem] is a semantics of instruction trees, for any machine that
      meets [MachineOk]; [PeepRules] proves each rewrite of the pass on its window
      of instructions and extends it to modules; [PeepholeOk] has that the sharing
      analysis is exact ([instrArraySharing_shared]) and that the pass
      rewrites the tree that a body reads as, and [PeepholeMain] composes them
      ([peepholeOptimize_correct]).
    - Positions: an offset is traced to the input through every stage
      ([toInputOffset_pipeline]), and a stage that a transform records maps text that
      it kept back to itself ([captureSourceMapStage_correct]).
    - Components: [SccOk] is the stack invariant of Tarjan's search, [SccGraph] has that the
      search keeps it and ends, and that the result is the quotient graph
      ([condenseDirectedGraph_correct]).
    - Linker: the emitted module reads back as exactly the merged object
      ([emitLinked_roundtrip]); bodies are re-indexed instruction by instruction
      ([rewriteCode_relocates]); merged indices are right ([merged_index_correct]),
      except after imports ([function_index_shift]); [link] never throws and its
      success flag is exact ([link_total]); the reader ends on every byte list.
    - Resolver and isolation: resolution is sound, complete and prefers strong
      definitions; its error list is exact; the isolation report is stated by what
      modules offer and bind, apart from the code's own lookups: its flags tell exactly
      whether references to other modules are bound to exported definitions, whether two
      modules name a mutable global alike, whether a module has several memories, and
      whether a table is reached through another module; no reference is bound to a
      private symbol of another module ([validateIsolation_correct]).
    - Matching: [ReSpec] gives a tree its meaning, a matcher in continuation-passing
      style with the RepeatMatcher of the standard, [Ecma].  A second reading, [Lowered], takes
      bounded quantifiers as the copies the compiler makes; it is a step of the proof, and
      [ReExact] has on which trees it is the first ([exact]).  [ReImpl] defines when a
      piece of bytecode implements a matcher, [ReEmit] and [ReQueue] what the
      emitter leaves alone and that its queue drains, [ReCorrect] that the code of
      every node implements its matcher, [RePike] that the PikeVM finds what
      backtracking finds, and [ReMain] composes them: [regex_correct],
      [search_correct], [linear_search_exact] and [bounded_quantifiers_deviate] (where
      the readings part, with the engine on the side of the copies).
    - Parsing: the parser ends on every pattern and returns well-shaped trees with
      consistently numbered groups ([ReParseOk]); it inverts a printer of trees
      without u/v mode ([RePrint]); string sets are an exact set algebra and their
      evaluation ends ([ReStringSet]); enumeration is what the host matches and its
      cache does not show ([ReUnicode]).
    - [RePattern] composes parser, compiler and machine: from the text of a pattern
      to its matches ([compilePattern_correct]), those of the standard.
    - Bytecode interpreter: the disassembler lists what was emitted, operands that
      do not fit are refused, jumps and markers are patched right, constants are
      interned.  Source maps: VLQ and whole maps round-trip, with a source table that
      holds each file of the entries once.
    - Block graph: merging keeps every behaviour, for any meaning of instructions
      ([simplifyCFG_correct]).  Dominance is told by paths [IrDomGraph]; [IrDomOk]
      proves that the rounds of the idom loop keep a tree that holds all dominators
      and end in the least one, [IrDomTree] does the tree's numbers and the
      frontiers, [IrDomMain] composes them ([computeDominance_correct]) and
      [IrDomNaive] relates the naive reference ([crossCheckDominance_agrees]).
    - Middle-end IR: [IrEffects] has the two effect tables, examples where they
      disagree ([droppable_if], [droppable_read]) and the conflict relation; the schedule check is exact
      ([verifyEmissionSchedule_exact]).  [IrSem] is a semantics of instructions and their
      buffers over any machine for the kinds without buffers, with the simulations that
      such a machine admits; [IrSimOk] lifts a simulation of instructions to
      buffers, blocks and whole calls.  [IrDeadOk] has that the pass finds the
      reachable blocks and the least set of needed values and that dropping the others
      simulates, and [IrDeadMain] composes them ([deadCode_correct]) on functions
      where the two effect tables agree, and has a machine that allocates as an instance.
      [ConstFold] compares the folding tables with the Wasm operations
      ([foldBinary_exact], [foldUnary_exact]), and [ConstFoldOk] has that what the pass
      knows of a value is what the value holds where dominance puts it in scope
      ([constantFold_correct]).  The operations keep one NaN, so folds that give or
      negate one are outside the exact part of the tables ([exact_fold], [exact_unary]).

    ** What is not modelled, and why

    - Meaning of backreferences: [regex_correct] covers trees without them; their
      execution in the VM is modelled, and their parsing is in [parse_print].
    - The semantic exactness of the lowering of string sets to tries; the parse of
      u/v-mode patterns and of named groups in the printer's grammar.
    - The Wasm copy of the regex VM (codegen/regexp-standalone.ts), and all code
      generation from TypeScript trees, the checker, the driver and the host
      runtime: they call the TypeScript compiler API, binaryen or the host's
      objects, or emit Wasm through those.
    - The cache of dominanceOf, which is keyed by the identity of a function object.
    - In emit/binary.ts: the cache that writes a shared instruction array once (its
      bytes are those of the plain traversal), the recording of source positions, the
      dumps that environment variables switch on, and handles that are undefined or NaN.
    - In the function index space: the native providers that some import names are
      routed to and the allowlist of host imports are arguments, the queue of compile
      errors and the traces are left out, and so are the shifters of addUnionImports and
      addStringImports in codegen/index.ts.
    - In codegen/call-arg-producers.ts: the stack model behind locateOperandProducers;
      only the sharing analysis is used by the peephole pass.
    - In the reachability sweep: the environment switches (functionSweepEnabled,
      sweepAfterInline, verifyFunctionSweep) and the profile counters.  In the
      elimination: the handles that the pass resolves through the context are those of
      [FuncSpace], and applyTypeLayoutRemap is an argument.
    - In the registry of allocation sites: snapshots and the graph copy of preparation
      data, which inspect arbitrary objects.  The cache of effectsOf, keyed by the
      identity of an instruction.  The types of the IR, class and constructor shapes and
      source sites, which the modelled passes only copy ([IrTypes]).
    - The rest of ir/ (its front end, selection, lowering, value numbering, inlining,
      monomorphisation), interp/emitter.ts and interp/loop.ts, and codegen-linear/,
      which generate code from trees of other parts. *)

From Stdlib Require Export ZArith Lia.
From stdpp Require Export strings pretty numbers.
From stdpp Require Export base tactics gmap list.
From stdpp Require Import sorting.

#[global] Open Scope Z_scope.

(** * JavaScript integers

    A JavaScript number that the code uses as an integer is a [Z]; the bitwise
    operators first apply ToInt32 or ToUint32 and count shifts modulo 32. *)

Definition to_uint32 (z : Z) : Z := z mod 2 ^ 32.
Definition to_int32 (z : Z) : Z := (z + 2 ^ 31) mod 2 ^ 32 - 2 ^ 31.

Definition js_and (a b : Z) : Z := Z.land (to_int32 a) (to_int32 b).
Definition js_or (a b : Z) : Z := Z.lor (to_int32 a) (to_int32 b).
Definition js_shl (a s : Z) : Z := to_int32 (Z.shiftl (to_int32 a) (s mod 32)).
Definition js_shr (a s : Z) : Z := Z.shiftr (to_int32 a) (s mod 32).
Definition js_shru (a s : Z) : Z := Z.shiftr (to_uint32 a) (s mod 32).

Declare Scope js_scope.
Delimit Scope js_scope with js.
Notation "a .& b" := (js_and a b) (at level 40, left associativity) : js_scope.
Notation "a .| b" := (js_or a b) (at level 50, left associativity) : js_scope.
Notation "a .<< b" := (js_shl a b) (at level 38, left associativity) : js_scope.
Notation "a .>> b" := (js_shr a b) (at level 38, left associativity) : js_scope.
Notation "a .>>> b" := (js_shru a b) (at level 38, left associativity) : js_scope.
#[global] Open Scope js_scope.

(** * Errors: a JavaScript [throw], a model loop that ran out of fuel, or a path
    on which the code would compute with NaN, which the model does not follow *)

Inductive errkind := EError | ERangeError | ETypeError | EUnsupported | ETooLarge.

(** A JavaScript string is the list of its UTF-16 code units. *)
Abbreviation jsstr := (list Z).

Definition js (s : string) : jsstr :=
  (λ a, Z.of_N (Ascii.N_of_ascii a)) <$> String.list_ascii_of_string s.

(** The decimal text of an integer, as a template literal prints it. *)
Definition js_num (z : Z) : jsstr := js (pretty z).

#[global] Arguments js : simpl never.
#[global] Arguments js_num : simpl never.

Inductive fault :=
  | Throw (k : errkind) (msg : jsstr)
  | OutOfFuel
  | NotModelled.

Inductive result (A : Type) :=
  | Ok (a : A)
  | Err (e : fault).
Arguments Ok {A} a.
Arguments Err {A} e.

(** A result that the code can produce: a value or an exception. *)
Definition thrown (f : fault) : Prop := match f with Throw _ _ => True | _ => False end.

Definition settles {A} (r : result A) : Prop :=
  match r with Ok _ => True | Err f => thrown f end.

#[global] Instance errkind_eq_dec : EqDecision errkind.
Proof. solve_decision. Defined.
#[global] Instance fault_eq_dec : EqDecision fault.
Proof. solve_decision. Defined.
#[global] Instance result_eq_dec `{EqDecision A} : EqDecision (result A).
Proof. solve_decision. Defined.

#[global] Instance result_ret : MRet result := λ A a, Ok a.
#[global] Instance result_bind : MBind result := λ A B f m,
  match m with Ok a => f a | Err e => Err e end.
#[global] Instance result_fmap : FMap result := λ A B f m,
  match m with Ok a => Ok (f a) | Err e => Err e end.

Definition throw {A} (k : errkind) (msg : jsstr) : result A := Err (Throw k msg).

(** [m] comes to an end: the model's loops had enough fuel. *)
Definition terminates {A} (m : result A) : Prop := m ≠ Err OutOfFuel.

(** A [for (const x of l)] loop over a state that the body threads. *)
Fixpoint for_each {A S} (l : list A) (body : A → S → result S) (s : S) : result S :=
  match l with
  | [] => Ok s
  | x :: l' => s' ← body x s; for_each l' body s'
  end.

(** The same loop with the body outside of the recursion, so that a function over
    trees can call itself in it. *)
Section each.
Context {A S : Type} (body : A → S → result S).

Fixpoint each (l : list A) (s : S) : result S :=
  match l with
  | [] => Ok s
  | x :: l' => s' ← body x s; each l' s'
  end.
End each.

(** A [for (let i = 0; i < n; i++)] loop. *)
Fixpoint for_n {S} (n : nat) (i : Z) (body : Z → S → result S) (s : S) : result S :=
  match n with
  | O => Ok s
  | S n' => s' ← body i s; for_n n' (i + 1) body s'
  end.

(** * JavaScript arrays and typed arrays *)

(** [l[i]], where [None] is [undefined]. *)
Definition js_at {A} (l : list A) (i : Z) : option A :=
  if i <? 0 then None else l !! Z.to_nat i.

(** [l[i] = v] on a typed array, which ignores a write out of range. *)
Definition ta_set {A} (l : list A) (i : Z) (v : A) : list A :=
  if i <? 0 then l else <[Z.to_nat i := v]> l.

Lemma js_at_Some {A} (l : list A) i x :
  js_at l i = Some x ↔ 0 ≤ i ∧ l !! Z.to_nat i = Some x.
Proof. unfold js_at. destruct (Z.ltb_spec i 0); naive_solver lia. Qed.

Lemma js_at_nat {A} (l : list A) (i : nat) : js_at l (Z.of_nat i) = l !! i.
Proof. unfold js_at. destruct (Z.ltb_spec (Z.of_nat i) 0); [lia|]. by rewrite Nat2Z.id. Qed.

Lemma js_at_lt {A} (l : list A) i x : js_at l i = Some x → 0 ≤ i < Z.of_nat (length l).
Proof. rewrite js_at_Some. intros [? ?%lookup_lt_Some]. lia. Qed.

Lemma js_at_is_Some {A} (l : list A) i : is_Some (js_at l i) ↔ 0 ≤ i < Z.of_nat (length l).
Proof.
  split; [intros [x Hx]; by eapply js_at_lt|].
  intros Hi. unfold js_at. destruct (Z.ltb_spec i 0); [lia|]. apply lookup_lt_is_Some. lia.
Qed.

Lemma js_at_app_l {A} (l k : list A) i :
  i < Z.of_nat (length l) → js_at (l ++ k) i = js_at l i.
Proof.
  intros. unfold js_at. destruct (Z.ltb_spec i 0); [done|]. apply lookup_app_l. lia.
Qed.

Lemma js_at_app_r {A} (l k : list A) i :
  0 ≤ i → js_at (l ++ k) (Z.of_nat (length l) + i) = js_at k i.
Proof.
  intros. unfold js_at. destruct (Z.ltb_spec i 0), (Z.ltb_spec (Z.of_nat (length l) + i) 0); try lia.
  rewrite lookup_app_r by lia. f_equal. lia.
Qed.

Lemma length_ta_set {A} (l : list A) i v : length (ta_set l i v) = length l.
Proof. unfold ta_set. destruct (i <? 0); [done|]. apply length_insert. Qed.

Lemma js_at_ta_set {A} (l : list A) i j v :
  js_at (ta_set l i v) j =
  if decide (i = j ∧ 0 ≤ i < Z.of_nat (length l)) then Some v else js_at l j.
Proof.
  unfold js_at, ta_set. destruct (Z.ltb_spec i 0), (Z.ltb_spec j 0);
    case_decide as Hd; try done; try lia.
  - destruct Hd as [-> Hi]. apply list_lookup_insert_eq. lia.
  - destruct (decide (i = j)) as [->|Hne]; [|apply list_lookup_insert_ne; lia].
    rewrite list_insert_ge; [done|]. destruct (decide (Z.to_nat j < length l)%nat); lia.
Qed.

(** * JavaScript [Map]: an association list in insertion order *)

Abbreviation jsmap K V := (list (K * V)).

Section jsmap.
Context {K V : Type} `{EqDecision K}.

Fixpoint jm_get (m : jsmap K V) (k : K) : option V :=
  match m with
  | [] => None
  | (k', v) :: m' => if decide (k = k') then Some v else jm_get m' k
  end.

Definition jm_has (m : jsmap K V) (k : K) : bool :=
  match jm_get m k with Some _ => true | None => false end.

(** Setting a present key keeps its position; a new key goes last. *)
Fixpoint jm_set (m : jsmap K V) (k : K) (v : V) : jsmap K V :=
  match m with
  | [] => [(k, v)]
  | (k', v') :: m' =>
      if decide (k = k') then (k', v) :: m' else (k', v') :: jm_set m' k v
  end.

Lemma jm_get_set_eq m k v : jm_get (jm_set m k v) k = Some v.
Proof.
  induction m as [|[k' v'] m IH]; simpl; [by rewrite decide_True by done|].
  case_decide; simpl; [by rewrite decide_True by done|by rewrite decide_False by done].
Qed.

Lemma jm_get_set_ne m k k' v : k ≠ k' → jm_get (jm_set m k v) k' = jm_get m k'.
Proof.
  intros Hne. induction m as [|[k'' v''] m IH]; simpl.
  - by rewrite decide_False by done.
  - case_decide; simpl; case_decide; congruence.
Qed.

Lemma jm_get_set m k k' v :
  jm_get (jm_set m k v) k' = if decide (k = k') then Some v else jm_get m k'.
Proof.
  case_decide; [subst; apply jm_get_set_eq | by apply jm_get_set_ne].
Qed.

Lemma jm_get_elem m k v : jm_get m k = Some v → (k, v) ∈ m.
Proof.
  induction m as [|[k' v'] m IH]; simpl; [done|]. case_decide; intros; simplify_eq.
  - left.
  - right. auto.
Qed.

Lemma jm_get_None m k : jm_get m k = None ↔ k ∉ m.*1.
Proof.
  induction m as [|[k' v'] m IH]; csimpl; [split; [intros _; apply not_elem_of_nil|done]|].
  rewrite not_elem_of_cons. case_decide; naive_solver.
Qed.

Lemma jm_set_keys m k v :
  (jm_set m k v).*1 = match jm_get m k with Some _ => m.*1 | None => m.*1 ++ [k] end.
Proof.
  induction m as [|[k' v'] m IH]; csimpl; [done|].
  case_decide; simplify_eq; csimpl; [done|]. rewrite IH. by destruct (jm_get m k).
Qed.

Lemma jm_set_nodup m k v : NoDup m.*1 → NoDup (jm_set m k v).*1.
Proof.
  intros Hnd. rewrite jm_set_keys. destruct (jm_get m k) eqn:E; [done|].
  apply jm_get_None in E. apply list.NoDup_app. split_and!; [done| |apply NoDup_singleton].
  intros x Hx Hx'. apply list_elem_of_singleton in Hx'. by subst.
Qed.

Lemma jm_set_Forall (P : K * V → Prop) m k v : Forall P m → P (k, v) → Forall P (jm_set m k v).
Proof.
  intros Hm Hkv. induction Hm as [|[k' v'] m Hx Hm IH]; simpl; [by constructor|].
  case_decide; subst; by constructor.
Qed.

Lemma jm_elem_get m k v : NoDup m.*1 → (k, v) ∈ m → jm_get m k = Some v.
Proof.
  induction m as [|[k' v'] m IH]; csimpl; intros Hnd Hin; [set_solver|].
  apply NoDup_cons in Hnd as [Hk Hnd]. apply elem_of_cons in Hin as [Heq|Hin].
  - simplify_eq. by case_decide.
  - case_decide; [subst|auto]. exfalso. apply Hk. apply list_elem_of_fmap. by exists (k', v).
Qed.
End jsmap.

(** A map from keys to lists, filled by a loop: [get(k)], or a fresh list when
    [k] is absent, then [push]. *)
Section multimap.
Context {K V E : Type} `{EqDecision K}.

Definition jm_list (m : jsmap K (list V)) (k : K) : list V :=
  match jm_get m k with Some l => l | None => [] end.

Definition jm_push (m : jsmap K (list V)) (k : K) (v : V) : jsmap K (list V) :=
  jm_set m k (jm_list m k ++ [v]).

Definition jm_collect (f : E → option (K * V)) (es : list E) (m : jsmap K (list V))
  : jsmap K (list V) :=
  foldl (λ m e, match f e with Some (k, v) => jm_push m k v | None => m end) m es.

(** The values that a loop pushes under a key. *)
Definition jm_matches (f : E → option (K * V)) (es : list E) (k : K) : list V :=
  omap (λ e, match f e with
             | Some (k', v) => if decide (k' = k) then Some v else None
             | None => None
             end) es.

Lemma jm_collect_list f es m k :
  jm_list (jm_collect f es m) k = jm_list m k ++ jm_matches f es k.
Proof.
  revert m. induction es as [|e es IH]; intros m; [by rewrite app_nil_r|].
  unfold jm_collect, jm_matches in *. cbn [foldl omap list_omap]. rewrite IH.
  destruct (f e) as [[k' v]|]; [|done]. unfold jm_list, jm_push at 1.
  rewrite jm_get_set. case_decide as Hk; [|done].
  subst. unfold jm_list. by rewrite <- app_assoc.
Qed.

Lemma jm_collect_keys f es m : NoDup m.*1 → NoDup (jm_collect f es m).*1.
Proof.
  revert m. induction es as [|e es IH]; intros m Hnd; [done|].
  unfold jm_collect in *. cbn [foldl]. apply IH.
  destruct (f e) as [[k' v]|]; [|done]. by apply jm_set_nodup.
Qed.

Lemma jm_collect_entry f es k l :
  (k, l) ∈ jm_collect f es [] → l = jm_matches f es k.
Proof.
  intros Hin. change (jm_matches f es k) with (jm_list [] k ++ jm_matches f es k).
  rewrite <- jm_collect_list. unfold jm_list.
  erewrite jm_elem_get; [done| |exact Hin]. apply jm_collect_keys. constructor.
Qed.

Lemma jm_collect_entry_ex f es k :
  jm_matches f es k ≠ [] → (k, jm_matches f es k) ∈ jm_collect f es [].
Proof.
  change (jm_matches f es k) with (jm_list [] k ++ jm_matches f es k).
  rewrite <- jm_collect_list. unfold jm_list.
  destruct (jm_get (jm_collect f es []) k) eqn:E'; [|done]. intros _. by apply jm_get_elem.
Qed.

Lemma jm_elem_matches f es k v : v ∈ jm_matches f es k ↔ ∃ e, e ∈ es ∧ f e = Some (k, v).
Proof.
  unfold jm_matches. rewrite list_elem_of_omap. split.
  - intros (e & Hin & He). exists e. split; [done|].
    destruct (f e) as [[k' v']|]; [|done]. case_decide; by simplify_eq.
  - intros (e & Hin & He). exists e. split; [done|]. rewrite He. by rewrite decide_True.
Qed.
End multimap.

(** * Facts on 32-bit integers *)

Lemma to_uint32_range z : 0 ≤ to_uint32 z < 2 ^ 32.
Proof. apply Z.mod_pos_bound. lia. Qed.

Lemma to_int32_range z : - 2 ^ 31 ≤ to_int32 z < 2 ^ 31.
Proof. unfold to_int32. pose proof (Z.mod_pos_bound (z + 2 ^ 31) (2 ^ 32)). lia. Qed.

Lemma to_uint32_small z : 0 ≤ z < 2 ^ 32 → to_uint32 z = z.
Proof. apply Z.mod_small. Qed.

Lemma to_int32_small z : - 2 ^ 31 ≤ z < 2 ^ 31 → to_int32 z = z.
Proof. intros. unfold to_int32. rewrite Z.mod_small; lia. Qed.

Lemma to_int32_eq_mod a b : a mod 2 ^ 32 = b mod 2 ^ 32 → to_int32 a = to_int32 b.
Proof.
  intros H. unfold to_int32. f_equal.
  rewrite (Z.add_mod a), (Z.add_mod b), H by lia. done.
Qed.

Lemma to_int32_mod z : to_int32 z mod 2 ^ 32 = z mod 2 ^ 32.
Proof.
  unfold to_int32. rewrite Zminus_mod_idemp_l. f_equal. lia.
Qed.

Lemma to_uint32_int32 z : to_uint32 (to_int32 z) = to_uint32 z.
Proof. apply to_int32_mod. Qed.

Lemma to_int32_uint32 z : to_int32 (to_uint32 z) = to_int32 z.
Proof. apply to_int32_eq_mod. unfold to_uint32. by rewrite Z.mod_mod. Qed.

Lemma to_int32_idemp z : to_int32 (to_int32 z) = to_int32 z.
Proof. apply to_int32_small. apply to_int32_range. Qed.

Lemma testbit_to_int32 z i :
  0 ≤ i → Z.testbit (to_int32 z) i = Z.testbit z (Z.min i 31).
Proof.
  intros Hi.
  assert (Hlow : ∀ j, 0 ≤ j < 32 → Z.testbit (to_int32 z) j = Z.testbit z j).
  { intros j Hj. rewrite <- (Z.mod_pow2_bits_low (to_int32 z) 32 j) by lia.
    rewrite to_int32_mod. apply Z.mod_pow2_bits_low. lia. }
  destruct (decide (i ≤ 31)) as [Hle|Hgt]; [rewrite Z.min_l by lia; apply Hlow; lia|].
  rewrite Z.min_r, <- (Hlow 31) by lia.
  pose proof (to_int32_range z) as Hr. remember (to_int32 z) as t eqn:Et. clear Et Hlow.
  rewrite !Z.testbit_eqb by lia.
  destruct (decide (0 ≤ t)) as [Hp|Hn].
  - rewrite (Z.div_small t (2 ^ i)), (Z.div_small t (2 ^ 31)); [done|lia|].
    split; [lia|]. pose proof (Z.pow_lt_mono_r 2 31 i). lia.
  - assert (∀ j, 31 ≤ j → t / 2 ^ j = -1) as Hd.
    { intros j Hj. symmetry. apply (Z.div_unique _ _ (-1) (t + 2 ^ j)); [|lia].
      left. pose proof (Z.pow_le_mono_r 2 31 j). lia. }
    by rewrite !Hd by lia.
Qed.

Lemma to_int32_lor a b : Z.lor (to_int32 a) (to_int32 b) = to_int32 (Z.lor a b).
Proof.
  apply Z.bits_inj'. intros i Hi. by rewrite Z.lor_spec, !testbit_to_int32, Z.lor_spec.
Qed.

Lemma to_int32_land a b : Z.land (to_int32 a) (to_int32 b) = to_int32 (Z.land a b).
Proof.
  apply Z.bits_inj'. intros i Hi. by rewrite Z.land_spec, !testbit_to_int32, Z.land_spec.
Qed.

Lemma lor_disjoint a b n : 0 ≤ n → 0 ≤ a < 2 ^ n → Z.lor a (b * 2 ^ n) = a + b * 2 ^ n.
Proof.
  intros Hn Ha. rewrite <- Z.shiftl_mul_pow2 by done.
  rewrite <- Z.lxor_lor, Z.add_nocarry_lxor; [done|..];
    apply Z.bits_inj'; intros i Hi; rewrite Z.land_spec, Z.bits_0, Z.shiftl_spec by done;
    (destruct (decide (i < n));
     [rewrite (Z.testbit_neg_r b) by lia; apply andb_false_r
     |replace a with (a mod 2 ^ n) by (by apply Z.mod_small);
      rewrite Z.mod_pow2_bits_high by lia; done]).
Qed.

Lemma js_and_mask v k : 0 ≤ k ≤ 31 → v .& (2 ^ k - 1) = v mod 2 ^ k.
Proof.
  intros Hk. unfold js_and. rewrite to_int32_land.
  replace (2 ^ k - 1) with (Z.ones k) by (rewrite Z.ones_equiv; lia).
  rewrite Z.land_ones by lia. apply to_int32_small.
  pose proof (Z.mod_pos_bound v (2 ^ k)). pose proof (Z.pow_le_mono_r 2 k 31).
  pose proof (Z.pow_pos_nonneg 2 k). lia.
Qed.

Lemma js_and_7f v : v .& 0x7f = v mod 128.
Proof. apply (js_and_mask v 7). lia. Qed.
Lemma js_and_ff v : v .& 0xff = v mod 256.
Proof. apply (js_and_mask v 8). lia. Qed.

Lemma js_and_range v k : 0 ≤ k ≤ 31 → 0 ≤ v .& (2 ^ k - 1) < 2 ^ k.
Proof.
  intros. rewrite js_and_mask by done. apply Z.mod_pos_bound. by apply Z.pow_pos_nonneg; lia.
Qed.

Lemma js_shru_spec v s : 0 ≤ v < 2 ^ 32 → 0 ≤ s < 32 → v .>>> s = v / 2 ^ s.
Proof.
  intros. unfold js_shru. rewrite to_uint32_small by done.
  rewrite (Z.mod_small s) by lia. apply Z.shiftr_div_pow2. lia.
Qed.

Lemma js_shr_spec v s : - 2 ^ 31 ≤ v < 2 ^ 31 → 0 ≤ s < 32 → v .>> s = v / 2 ^ s.
Proof.
  intros. unfold js_shr. rewrite to_int32_small by done.
  rewrite (Z.mod_small s) by lia. apply Z.shiftr_div_pow2. lia.
Qed.

Lemma js_shl_spec v s : 0 ≤ s < 32 → v .<< s = to_int32 (v * 2 ^ s).
Proof.
  intros. unfold js_shl. rewrite (Z.mod_small s) by lia.
  rewrite Z.shiftl_mul_pow2 by lia. apply to_int32_eq_mod.
  rewrite Z.mul_mod, to_int32_mod, <- Z.mul_mod by lia. done.
Qed.

(** Accumulating a group of bits above the bits already read. *)
Lemma js_or_shl r c s :
  0 ≤ s < 32 → 0 ≤ r < 2 ^ s → to_int32 r .| (c .<< s) = to_int32 (r + c * 2 ^ s).
Proof.
  intros. unfold js_or. rewrite js_shl_spec, !to_int32_idemp, to_int32_lor by lia.
  by rewrite lor_disjoint by lia.
Qed.

(** Setting the continuation bit [2 ^ k] of a group below it. *)
Lemma js_or_bit b k :
  0 ≤ k ≤ 30 → 0 ≤ b < 2 ^ k → b .| (2 ^ k) = b + 2 ^ k.
Proof.
  intros Hk Hb. unfold js_or.
  assert (2 ^ k ≤ 2 ^ 30) by (apply Z.pow_le_mono_r; lia).
  rewrite !to_int32_small by lia.
  replace (2 ^ k) with (1 * 2 ^ k) at 1 by lia. rewrite lor_disjoint; lia.
Qed.

Lemma js_or_80 b : 0 ≤ b < 128 → b .| 0x80 = b + 128.
Proof. apply (js_or_bit b 7). lia. Qed.
Lemma js_or_20 b : 0 ≤ b < 32 → b .| 0x20 = b + 32.
Proof. apply (js_or_bit b 5). lia. Qed.

(** Testing the bit [2 ^ k]. *)
Lemma js_and_bit b k : 0 ≤ k ≤ 30 → (b .& (2 ^ k) =? 0) = negb (Z.testbit b k).
Proof.
  intros Hk. unfold js_and. rewrite to_int32_land.
  assert (Z.land b (2 ^ k) = if Z.testbit b k then 2 ^ k else 0) as ->.
  { apply Z.bits_inj'. intros i Hi. rewrite Z.land_spec, Z.pow2_bits_eqb by lia.
    destruct (Z.eqb_spec k i) as [->|Hne].
    - rewrite andb_true_r. destruct (Z.testbit b i) eqn:E; [|by rewrite Z.bits_0].
      by rewrite Z.pow2_bits_true by lia.
    - rewrite andb_false_r. destruct (Z.testbit b k); [|by rewrite Z.bits_0].
      by rewrite Z.pow2_bits_false by lia. }
  assert (0 < 2 ^ k ≤ 2 ^ 30) by (split; [apply Z.pow_pos_nonneg|apply Z.pow_le_mono_r]; lia).
  destruct (Z.testbit b k); simpl; [|done].
  rewrite to_int32_small by lia. apply Z.eqb_neq. lia.
Qed.

(** * Facts on strings *)

Lemma js_app s1 s2 : js (s1 +:+ s2) = js s1 ++ js s2.
Proof. unfold js. induction s1 as [|a s1 IH]; [done|]. simpl in *. by f_equal. Qed.

#[global] Instance js_inj : Inj (=) (=) js.
Proof.
  intros s1. induction s1 as [|a s1 IH]; intros [|b s2] H; try done.
  injection H as H1 H2. f_equal; [|by apply IH].
  apply N2Z.inj in H1. rewrite <- (Ascii.ascii_N_embedding a), H1.
  apply Ascii.ascii_N_embedding.
Qed.

#[global] Instance js_num_inj : Inj (=) (=) js_num.
Proof. intros x y H. apply js_inj in H. by apply (inj pretty) in H. Qed.

(** [s.split(c)]: the parts between the occurrences of one code unit. *)
Fixpoint split_on (c : Z) (s : jsstr) : list jsstr :=
  match s with
  | [] => [[]]
  | x :: s' =>
      if x =? c then [] :: split_on c s'
      else match split_on c s' with
           | [] => [[x]]
           | p :: ps => (x :: p) :: ps
           end
  end.

(** [parts.join(sep)] *)
Fixpoint join_with (sep : jsstr) (parts : list jsstr) : jsstr :=
  match parts with
  | [] => []
  | p :: ps => match ps with [] => p | _ => p ++ sep ++ join_with sep ps end
  end.

Lemma split_on_ne c s : split_on c s ≠ [].
Proof. destruct s as [|x s]; simpl; [done|]. case_match; [done|]. by case_match. Qed.

Lemma join_split c s : join_with [c] (split_on c s) = s.
Proof.
  induction s as [|x s IH]; [done|]. simpl. pose proof (split_on_ne c s) as Hne.
  destruct (Z.eqb_spec x c) as [->|Hx].
  - simpl. destruct (split_on c s) eqn:E; [done|]. by rewrite <- IH.
  - destruct (split_on c s) as [|p ps] eqn:E; [done|]. simpl in *.
    destruct ps; simpl in *; by rewrite <- IH.
Qed.

Lemma split_on_app c u s : c ∉ u → split_on c (u ++ c :: s) = u :: split_on c s.
Proof.
  induction u as [|x u IH]; intros Hc; simpl; [by rewrite Z.eqb_refl|].
  apply not_elem_of_cons in Hc as [Hx Hc].
  destruct (Z.eqb_spec x c); [done|]. by rewrite IH.
Qed.

Lemma split_join c parts :
  parts ≠ [] → Forall (λ p, c ∉ p) parts → split_on c (join_with [c] parts) = parts.
Proof.
  intros Hne Hc. induction Hc as [|p parts Hp Hc IH]; [done|].
  destruct parts as [|q parts].
  - simpl. clear Hne IH Hc. induction p as [|x p IHp]; [done|].
    apply not_elem_of_cons in Hp as [Hx Hp]. simpl.
    destruct (Z.eqb_spec x c); [congruence|]. by rewrite IHp.
  - change (join_with [c] (p :: q :: parts)) with (p ++ c :: join_with [c] (q :: parts)).
    rewrite split_on_app by done. by rewrite IH.
Qed.

(** The code units of a decimal number: digits and the minus sign. *)
Definition num_unit (c : Z) : Prop := 48 ≤ c ≤ 57 ∨ c = 45.

Lemma pretty_N_char_unit x : num_unit (Z.of_N (Ascii.N_of_ascii (pretty_N_char x))).
Proof. unfold num_unit, pretty_N_char. repeat case_match; vm_compute; intuition congruence. Qed.

Lemma pretty_N_go_units x s : Forall num_unit (js s) → Forall num_unit (js (pretty_N_go x s)).
Proof.
  revert s. induction (N.lt_wf_0 x) as [x _ IH]; intros s Hs.
  destruct (decide (x = 0%N)) as [->|Hx]; [by rewrite pretty_N_go_0|].
  rewrite pretty_N_go_step by lia. apply IH; [apply N.div_lt; lia|].
  constructor; [apply pretty_N_char_unit|done].
Qed.

Lemma js_num_units z : Forall num_unit (js_num z).
Proof.
  assert (∀ n : N, Forall num_unit (js (pretty n))) as HN.
  { intros n. unfold pretty, pretty_N. case_decide; [|by apply pretty_N_go_units; constructor].
    constructor; [left; vm_compute; intuition congruence|constructor]. }
  unfold js_num. destruct z as [|p|p]; [apply (HN 0%N)|apply (HN (Npos p))|].
  change (pretty (Z.neg p)) with ("-" +:+ pretty (Npos p)). rewrite js_app.
  apply Forall_app. split; [|apply HN]. constructor; [by right|constructor].
Qed.

Lemma pretty_N_go_ne x s : s ≠ EmptyString → pretty_N_go x s ≠ EmptyString.
Proof.
  revert s. induction (N.lt_wf_0 x) as [x _ IH]; intros s Hs.
  destruct (decide (x = 0%N)) as [->|Hx]; [by rewrite pretty_N_go_0|].
  rewrite pretty_N_go_step by lia. apply IH; [apply N.div_lt; lia|done].
Qed.

Lemma pretty_N_ne (n : N) : pretty n ≠ EmptyString.
Proof.
  unfold pretty, pretty_N. case_decide; [done|]. rewrite pretty_N_go_step by lia.
  by apply pretty_N_go_ne.
Qed.

Lemma js_num_ne z : js_num z ≠ [].
Proof.
  intros H. apply (inj js _ EmptyString) in H.
  destruct z as [|p|p]; [done|by apply (pretty_N_ne (Npos p))|done].
Qed.

(** * Loops and results *)

Lemma each_for_each {A S} (body : A → S → result S) l s : each body l s = for_each l body s.
Proof. revert s. induction l as [|x l IH]; intros s; [done|]. cbn. destruct (body x s); [apply IH|done]. Qed.

Lemma for_each_app {A S} (l1 l2 : list A) body (s : S) :
  for_each (l1 ++ l2) body s = (s' ← for_each l1 body s; for_each l2 body s').
Proof.
  revert s. induction l1 as [|x l1 IH]; intros s; simpl; [done|].
  destruct (body x s) as [s'|e]; simpl; [apply IH|done].
Qed.

(** A loop whose body only appends to its state. *)
Lemma for_each_collect {A B} (l : list A) (body : A → list B → result (list B)) f vs :
  (∀ x acc, x ∈ l → body x acc = Ok (acc ++ f x)) →
  for_each l body vs = Ok (vs ++ concat (f <$> l)).
Proof.
  revert vs. induction l as [|x l IH]; intros vs Hf; csimpl; [by rewrite app_nil_r|].
  rewrite Hf by left. csimpl. rewrite IH by (intros; apply Hf; by right).
  by rewrite <- app_assoc.
Qed.

Lemma two_elems {A} (l : list A) x y : x ∈ l → y ∈ l → x ≠ y → (1 < length l)%nat.
Proof.
  destruct l as [|a [|b l]]; simpl; [|rewrite !list_elem_of_singleton; congruence|lia].
  intros H. by apply not_elem_of_nil in H.
Qed.

(** Two different elements of a list, in one order or the other. *)
Lemma two_split {A} (l : list A) x y :
  x ∈ l → y ∈ l → x ≠ y →
  ∃ l1 l2 l3, l = l1 ++ x :: l2 ++ y :: l3 ∨ l = l1 ++ y :: l2 ++ x :: l3.
Proof.
  intros (l1 & l2 & ->)%list_elem_of_split Hy Hne.
  apply elem_of_app in Hy as [(k1 & k2 & ->)%list_elem_of_split|Hy].
  - exists k1, k2, l2. right. by rewrite <- app_assoc.
  - apply elem_of_cons in Hy as [->|(k1 & k2 & ->)%list_elem_of_split]; [done|].
    exists l1, k1, k2. by left.
Qed.

Lemma omap_two {A B} (f : A → option B) l :
  (1 < length (omap f l))%nat ↔
  ∃ l1 x l2 y l3, l = l1 ++ x :: l2 ++ y :: l3 ∧ is_Some (f x) ∧ is_Some (f y).
Proof.
  split.
  - induction l as [|e l IH]; cbn [omap list_omap]; [simpl; lia|].
    destruct (f e) as [b|] eqn:Ee.
    + intros Hl. simpl in Hl. destruct (omap f l) as [|c k] eqn:Ek; [simpl in Hl; lia|].
      assert (c ∈ omap f l) as (y & Hy & Hfy)%list_elem_of_omap by (rewrite Ek; left).
      apply list_elem_of_split in Hy as (l2 & l3 & ->).
      exists [], e, l2, y, l3. split_and!; eauto.
    + intros (l1 & x & l2 & y & l3 & -> & Hx & Hy)%IH. by exists (e :: l1), x, l2, y, l3.
  - intros (l1 & x & l2 & y & l3 & -> & [a Hx] & [b Hy]).
    rewrite omap_app. cbn [omap list_omap]. rewrite Hx, omap_app. cbn [omap list_omap].
    rewrite Hy, length_app. cbn [length]. rewrite length_app. cbn [length]. lia.
Qed.

Lemma foldl_snoc {A} (l acc : list A) : foldl (λ t x, t ++ [x]) acc l = acc ++ l.
Proof.
  revert acc. induction l as [|x l IH]; intros acc; cbn [foldl]; [by rewrite app_nil_r|].
  by rewrite IH, <- app_assoc.
Qed.

Lemma bind_singleton {A} (l : list A) : l ≫= (λ x, [x]) = l.
Proof. induction l as [|x l IH]; [done|]. rewrite bind_cons, IH. done. Qed.

(** [r] is a value that satisfies [P], or an exception the code throws. *)
Definition yields {A} (P : A → Prop) (r : result A) : Prop :=
  match r with Ok a => P a | Err f => thrown f end.

Lemma yields_bind {A B} (P : A → Prop) (Q : B → Prop) m (f : A → result B) :
  yields P m → (∀ a, P a → yields Q (f a)) → yields Q (m ≫= f).
Proof. destruct m as [a|e]; [intros HP Hf; by apply Hf|done]. Qed.

Lemma yields_mono {A} (P Q : A → Prop) m : yields P m → (∀ a, P a → Q a) → yields Q m.
Proof. destruct m as [a|e]; [intros HP HQ; by apply HQ|done]. Qed.

Lemma yields_settles {A} (P : A → Prop) m : yields P m → settles m.
Proof. by destruct m. Qed.

Lemma yields_ok {A} (P : A → Prop) m a : yields P m → m = Ok a → P a.
Proof. by intros H ->. Qed.

Lemma yields_throw {A} (P : A → Prop) k msg : yields P (throw k msg).
Proof. done. Qed.

Lemma for_each_yields {A S} (P : S → Prop) (l : list A) body (s : S) :
  P s → (∀ x s, x ∈ l → P s → yields P (body x s)) → yields P (for_each l body s).
Proof.
  revert s. induction l as [|x l IH]; intros s Hs Hb; [done|]. cbn [for_each].
  eapply yields_bind; [apply Hb; [left|done]|]. intros s' Hs'. apply IH; [done|].
  intros y t Hy. apply Hb. by right.
Qed.

(** A sum of which one term falls by [d] and none rises. *)
Lemma sum_list_drop {A} (f g : A → nat) l x d :
  x ∈ l → f x = (g x + d)%nat → (∀ y, (g y ≤ f y)%nat) → (sum_list_with g l + d ≤ sum_list_with f l)%nat.
Proof.
  intros Hx Hd Hle. assert (∀ k, sum_list_with g k ≤ sum_list_with f k)%nat as Hall.
  { intros k. induction k as [|y k IH]; [done|]. cbn [sum_list_with]. specialize (Hle y). lia. }
  apply list_elem_of_split in Hx as (l1 & l2 & ->). rewrite !sum_list_with_app. cbn [sum_list_with].
  pose proof (Hall l1). pose proof (Hall l2). lia.
Qed.

Lemma existsb_elem {A} (f : A → bool) l : existsb f l = true ↔ ∃ x, x ∈ l ∧ f x = true.
Proof. rewrite existsb_exists. by setoid_rewrite list_elem_of_In. Qed.

Lemma existsb_none {A} (f : A → bool) l : existsb f l = false ↔ ∀ x, x ∈ l → f x = false.
Proof.
  rewrite <- not_true_iff_false, existsb_elem. setoid_rewrite <- not_true_iff_false. naive_solver.
Qed.

(** [r] is [a] exactly when [P] holds, and an exception the code throws otherwise. *)
Definition answers {A} (P : Prop) (a : A) (r : result A) : Prop :=
  match r with Ok x => P ∧ x = a | Err f => thrown f ∧ ¬ P end.

Lemma answers_bind {A B} (P Q : Prop) (a : A) (b : B) r k :
  answers P a r → (P → answers Q b (k a)) → answers (P ∧ Q) b (r ≫= k).
Proof.
  destruct r as [x|f]; simpl; [|tauto]. intros [HP ->] Hk. specialize (Hk HP).
  destruct (k a) as [y|f]; simpl in *; tauto.
Qed.

Lemma answers_iff {A} (P Q : Prop) (a : A) r : P ↔ Q → answers P a r → answers Q a r.
Proof. intros HPQ. destruct r; simpl; tauto. Qed.

Lemma answers_ok {A} (a : A) : answers True a (Ok a).
Proof. done. Qed.

Lemma answers_for_each {A S} (P : A → Prop) (g : S → A → S) l body s :
  (∀ x s, x ∈ l → answers (P x) (g s x) (body x s)) →
  answers (Forall P l) (foldl g s l) (for_each l body s).
Proof.
  revert s. induction l as [|x l IH]; intros s Hb; [by split|]. cbn [for_each foldl].
  apply (answers_iff (P x ∧ Forall P l)); [by rewrite Forall_cons|].
  apply (answers_bind _ _ (g s x)); [apply Hb; left|]. intros _. apply IH. intros y t Hy. apply Hb. by right.
Qed.

Lemma answers_eq {A} (P : Prop) (a : A) r x : answers P a r → r = Ok x → P ∧ x = a.
Proof. intros H ->. done. Qed.

Lemma answers_holds {A} (P : Prop) (a : A) r : answers P a r → P → r = Ok a.
Proof. destruct r; simpl; [|tauto]. by intros [_ ->]. Qed.

Lemma settles_yields {A} (P : A → Prop) m : settles m → (∀ a, m = Ok a → P a) → yields P m.
Proof. destruct m as [a|e]; [intros _ H; by apply H|done]. Qed.

(** * A stable sort: [l.sort(compare)], where [le x y] is [compare(x, y) <= 0] *)

Section stable_sort.
Context {A : Type} (le : A → A → bool).

Fixpoint insert_before (x : A) (l : list A) : list A :=
  match l with
  | [] => [x]
  | y :: l' => if le x y then x :: l else y :: insert_before x l'
  end.

Definition stable_sort (l : list A) : list A := foldr insert_before [] l.

Lemma insert_before_perm x l : insert_before x l ≡ₚ x :: l.
Proof.
  induction l as [|y l IH]; [done|]. simpl. destruct (le x y); [done|].
  rewrite IH. apply Permutation_swap.
Qed.

Lemma stable_sort_perm l : stable_sort l ≡ₚ l.
Proof. induction l as [|x l IH]; [done|]. simpl. by rewrite insert_before_perm, IH. Qed.

Lemma stable_sort_sorted l :
  (∀ x y, le x y = false → le y x = true) →
  (∀ x y z, le x y = true → le y z = true → le x z = true) →
  StronglySorted (λ x y, le x y = true) (stable_sort l).
Proof.
  intros Htot Htrans. induction l as [|x l IH]; simpl; [constructor|].
  induction IH as [|y k Hk IHk Hy]; simpl; [by repeat constructor|].
  destruct (le x y) eqn:E.
  - constructor; [by constructor|]. constructor; [done|]. eapply Forall_impl; [exact Hy|]. eauto.
  - constructor; [exact IHk|]. rewrite insert_before_perm. constructor; [by apply Htot|done].
Qed.
End stable_sort.

Create HintDb js32.
#[export] Hint Resolve to_uint32_range to_int32_range : js32.
Create Rewrite HintDb js32.
#[export] Hint Rewrite js_and_7f js_and_ff : js32.
#[export] Hint Rewrite to_uint32_int32 to_int32_uint32 to_int32_idemp : js32.

(** Case analysis on the boolean comparisons of the goal. *)
Ltac bool_cases :=
  repeat match goal with
  | |- context [Z.eqb ?a ?b] => destruct (Z.eqb_spec a b); simpl
  | |- context [Z.ltb ?a ?b] => destruct (Z.ltb_spec a b); simpl
  | |- context [Z.leb ?a ?b] => destruct (Z.leb_spec a b); simpl
  end.

(** Case analysis on a [result] bind in a hypothesis that says [Ok]. *)
Ltac inv_bind H :=
  match type of H with
  | mbind _ ?m = Ok _ => let E := fresh "E" in destruct m eqn:E; simpl in H; [|discriminate H]
  end.

(** The first computation of a bind yields what [t] proves; the goal becomes the
    continuation. *)
Tactic Notation "ybind" tactic3(t) := eapply yields_bind; [solve [t]|]; cbn beta.
