(* ===== verification/Encoder.v ===== *)
(** The Wasm byte writer, [src/emit/encoder.ts].

    [WasmEncoder] is the growable [Uint8Array] with its logical length; each
    method of the class is a function on it.  [written] is the abstract view,
    the bytes written so far, and the lemmas [*_written] say that each method
    appends a fixed byte list to that view whatever the capacity of the buffer.

    [TextCodec] is the platform's [TextEncoder]/[TextDecoder] pair, which is
    not code of the repository. *)

From S2P Require Import Prelude.

(** The UTF-8 codec of the platform; [codec_roundtrip] is its documented
    behaviour on the strings [codec_ok] accepts (no lone surrogate, no leading
    byte order mark). *)
Class TextCodec := {
  utf8_encode : jsstr → list Z;
  utf8_decode : list Z → jsstr;
}.

Definition is_byte (b : Z) : Prop := 0 ≤ b < 256.

Class TextCodecLaws (C : TextCodec) (codec_ok : jsstr → Prop) := {
  codec_bytes s : Forall is_byte (utf8_encode s);
  codec_roundtrip s : codec_ok s → utf8_decode (utf8_encode s) = s;
}.

(** * LEB128 byte sequences, the reference definitions *)

(** Unsigned LEB128 of [v] in at most [n] bytes. *)
Fixpoint uleb (n : nat) (v : Z) : list Z :=
  match n with
  | O => []
  | S n' => if v <? 128 then [v] else (v mod 128 + 128) :: uleb n' (v / 128)
  end.

(** Signed LEB128 of [v] in at most [n] bytes. *)
Fixpoint sleb (n : nat) (v : Z) : list Z :=
  match n with
  | O => []
  | S n' =>
      if (-64 <=? v) && (v <? 64) then [v mod 128]
      else (v mod 128 + 128) :: sleb n' (v / 128)
  end.

(** A 32-bit value takes at most five groups of seven bits, a 64-bit one ten. *)
Definition uleb32 (v : Z) : list Z := uleb 5 v.
Definition sleb32 (v : Z) : list Z := sleb 5 v.
Definition sleb64 (v : Z) : list Z := sleb 10 v.

(** Both are a list of seven-bit groups, the continuation bit on all but the
    last; [gval] is the number the groups spell. *)
Fixpoint cont (gs : list Z) : list Z :=
  match gs with
  | [] => []
  | g :: gs' => match gs' with [] => [g] | _ => (g + 128) :: cont gs' end
  end.

Fixpoint gval (gs : list Z) : Z :=
  match gs with [] => 0 | g :: gs' => g + 128 * gval gs' end.

Definition is_group (g : Z) : Prop := 0 ≤ g < 128.

Lemma cont_cons g gs : gs ≠ [] → cont (g :: gs) = (g + 128) :: cont gs.
Proof. by destruct gs. Qed.

Lemma length_cont gs : length (cont gs) = length gs.
Proof.
  induction gs as [|g gs IH]; [done|]. destruct gs; [done|].
  rewrite cont_cons by done. cbn [length] in *. by rewrite IH.
Qed.

Lemma gval_range gs : Forall is_group gs → 0 ≤ gval gs < 2 ^ (7 * Z.of_nat (length gs)).
Proof.
  unfold is_group. induction 1 as [|g gs Hg Hgs IH]; [simpl; lia|]. cbn [gval length].
  replace (7 * Z.of_nat (S (length gs))) with (7 + 7 * Z.of_nat (length gs)) by lia.
  rewrite Z.pow_add_r by lia. lia.
Qed.

Lemma uleb_groups n v : 0 ≤ v < 2 ^ (7 * Z.of_nat n) → (0 < n)%nat →
  ∃ gs, uleb n v = cont gs ∧ gs ≠ [] ∧ (length gs ≤ n)%nat ∧ Forall is_group gs ∧ gval gs = v.
Proof.
  revert v. induction n as [|n IH]; intros v Hv Hn; [lia|]. simpl uleb.
  destruct (Z.ltb_spec v 128) as [Hlt|Hge].
  { exists [v]. split_and!; [done..|simpl; lia| |simpl; lia].
    constructor; [|constructor]. split; lia. }
  replace (7 * Z.of_nat (S n)) with (7 + 7 * Z.of_nat n) in Hv by lia.
  rewrite Z.pow_add_r in Hv by lia. change (2 ^ 7) with 128 in Hv.
  destruct n as [|n]; [simpl in Hv; lia|].
  destruct (IH (v / 128)) as (gs & -> & Hne & Hl & Hg & Hval); [|lia|].
  { split; [apply Z.div_pos; lia|apply Z.div_lt_upper_bound; lia]. }
  exists (v mod 128 :: gs). rewrite cont_cons by done. split_and!; [done..|simpl; lia| |].
  - constructor; [|done]. apply Z.mod_pos_bound. lia.
  - simpl. rewrite Hval. pose proof (Z.div_mod v 128). lia.
Qed.

Lemma sleb_groups n v :
  - 2 ^ (7 * Z.of_nat n - 1) ≤ v < 2 ^ (7 * Z.of_nat n - 1) → (0 < n)%nat →
  ∃ gs g, sleb n v = cont (gs ++ [g]) ∧ (length (gs ++ [g]) ≤ n)%nat
    ∧ Forall is_group (gs ++ [g])
    ∧ v = gval (gs ++ [g]) - (if g <? 64 then 0 else 2 ^ (7 * Z.of_nat (length (gs ++ [g])))).
Proof.
  revert v. induction n as [|n IH]; intros v Hv Hn; [lia|]. simpl sleb.
  pose proof (Z.div_mod v 128 ltac:(lia)) as Hdm.
  pose proof (Z.mod_pos_bound v 128 ltac:(lia)) as Hmb.
  destruct ((-64 <=? v) && (v <? 64)) eqn:E.
  { apply andb_true_iff in E as [E1%Z.leb_le E2%Z.ltb_lt].
    exists [], (v mod 128). split_and!; [done|simpl; lia|by repeat constructor; lia|].
    simpl. destruct (Z.ltb_spec (v mod 128) 64); lia. }
  destruct n as [|n].
  { simpl in Hv. apply andb_false_iff in E as [E%Z.leb_gt|E%Z.ltb_ge]; lia. }
  destruct (IH (v / 128)) as (gs & g & -> & Hl & Hg & Hval); [|lia|].
  { replace (7 * Z.of_nat (S (S n)) - 1) with (7 + (7 * Z.of_nat (S n) - 1)) in Hv by lia.
    rewrite Z.pow_add_r in Hv by lia. change (2 ^ 7) with 128 in Hv.
    split; [apply Z.div_le_lower_bound|apply Z.div_lt_upper_bound]; lia. }
  exists (v mod 128 :: gs), g. cbn [app]. rewrite cont_cons by (by destruct gs).
  split_and!; [done|cbn [length]; lia|by constructor|].
  cbn [gval length]. rewrite Hdm at 1. rewrite Hval at 1.
  replace (7 * Z.of_nat (S (length (gs ++ [g])))) with (7 + 7 * Z.of_nat (length (gs ++ [g]))) by lia.
  rewrite Z.pow_add_r by lia. change (2 ^ 7) with 128. destruct (g <? 64); lia.
Qed.

(** The [n] little-endian bytes of a word. *)
Fixpoint le_bytes (n : nat) (w : Z) : list Z :=
  match n with
  | O => []
  | S n' => w mod 256 :: le_bytes n' (w / 256)
  end.

Module WasmEncoder.

Record WasmEncoder := mk { buf : list Z; len : nat }.

Definition new : WasmEncoder := mk (replicate 1024 0) 0.

(** [while (cap < need) cap *= 2] *)
Fixpoint grow_cap (fuel cap need : nat) : option nat :=
  if decide (cap < need)%nat then
    match fuel with O => None | S f => grow_cap f (cap * 2) need end
  else Some cap.

Definition ensure (e : WasmEncoder) (extra : nat) : result WasmEncoder :=
  let need := (len e + extra)%nat in
  if decide (need ≤ length (buf e))%nat then Ok e
  else match grow_cap need (length (buf e) * 2) need with
       | None => Err OutOfFuel
       | Some cap =>
           Ok (mk (take (len e) (buf e) ++ replicate (cap - len e) 0) (len e))
       end.

(** A store past the end of a [Uint8Array] is ignored, as stdpp's list
    insert is. *)
Definition push (e : WasmEncoder) (b : Z) : WasmEncoder :=
  mk (<[len e := b .& 0xff]> (buf e)) (S (len e)).

Definition byte (b : Z) (e : WasmEncoder) : result WasmEncoder :=
  e' ← (if decide (len e = length (buf e)) then ensure e 1 else Ok e);
  Ok (push e' b).

(** [bytes] on a [Uint8Array]: one bulk [set]. *)
Definition bytes (bs : list Z) (e : WasmEncoder) : result WasmEncoder :=
  e' ← ensure e (length bs);
  Ok (mk (take (len e') (buf e') ++ bs ++ drop (len e' + length bs) (buf e'))
         (len e' + length bs)).

(** [bytes] on a [number[]]: one store per element. *)
Definition bytes_array (bs : list Z) (e : WasmEncoder) : result WasmEncoder :=
  e' ← ensure e (length bs); Ok (foldl push e' bs).

Fixpoint u32_loop (fuel : nat) (value : Z) (e : WasmEncoder) : result WasmEncoder :=
  match fuel with
  | O => Err OutOfFuel
  | S f =>
      let b := value .& 0x7f in
      let value := value .>>> 7 in
      let b := if negb (value =? 0) then b .| 0x80 else b in
      e ← byte b e;
      if value =? 0 then Ok e else u32_loop f value e
  end.

Definition u32 (value : Z) (e : WasmEncoder) : result WasmEncoder :=
  if (value <? 0) || (0xffffffff <? value)
  then throw ERangeError (js "u32 out of range: " ++ js_num value)
  else u32_loop 5 value e.

Fixpoint i32_loop (fuel : nat) (value : Z) (e : WasmEncoder) : result WasmEncoder :=
  match fuel with
  | O => Err OutOfFuel
  | S f =>
      let b := value .& 0x7f in
      let value := value .>> 7 in
      let last := ((value =? 0) && (b .& 0x40 =? 0)) ||
                  ((value =? -1) && negb (b .& 0x40 =? 0)) in
      let b := if last then b else b .| 0x80 in
      e ← byte b e;
      if last then Ok e else i32_loop f value e
  end.

Definition i32 (value : Z) (e : WasmEncoder) : result WasmEncoder :=
  i32_loop 5 value e.

(** [BigInt.asIntN(64, value)] *)
Definition as_int64 (v : Z) : Z := (v + 2 ^ 63) mod 2 ^ 64 - 2 ^ 63.

Fixpoint i64_loop (fuel : nat) (value : Z) (e : WasmEncoder) : result WasmEncoder :=
  match fuel with
  | O => Err OutOfFuel
  | S f =>
      let b := Z.land value 0x7f in
      let value := Z.shiftr value 7 in
      let last := ((value =? 0) && (b .& 0x40 =? 0)) ||
                  ((value =? -1) && negb (b .& 0x40 =? 0)) in
      let b := if last then b else b .| 0x80 in
      e ← byte b e;
      if last then Ok e else i64_loop f value e
  end.

Definition i64 (value : Z) (e : WasmEncoder) : result WasmEncoder :=
  i64_loop 10 (as_int64 value) e.

(** The argument is the IEEE 754 bit pattern of the number. *)
Definition f64 (bits : Z) (e : WasmEncoder) : result WasmEncoder := bytes (le_bytes 8 bits) e.
Definition f32 (bits : Z) (e : WasmEncoder) : result WasmEncoder := bytes (le_bytes 4 bits) e.

Definition v128 (bs : list Z) (e : WasmEncoder) : result WasmEncoder :=
  if negb (Z.of_nat (length bs) =? 16)
  then throw EError (js "v128 must be exactly 16 bytes")
  else bytes bs e.

Definition name `{TextCodec} (s : jsstr) (e : WasmEncoder) : result WasmEncoder :=
  let encoded := utf8_encode s in
  e ← u32 (Z.of_nat (length encoded)) e;
  bytes encoded e.

Definition finish (e : WasmEncoder) : list Z := take (len e) (buf e).

Definition section (id : Z) (content : WasmEncoder → result WasmEncoder)
    (e : WasmEncoder) : result WasmEncoder :=
  sub ← content new;
  let data := finish sub in
  e ← byte id e;
  e ← u32 (Z.of_nat (length data)) e;
  bytes data e.

Definition vector {A} (items : list A) (encode : A → WasmEncoder → result WasmEncoder)
    (e : WasmEncoder) : result WasmEncoder :=
  e ← u32 (Z.of_nat (length items)) e;
  for_each items encode e.

Definition position (e : WasmEncoder) : nat := len e.

End WasmEncoder.

(** * The abstract view *)

Section spec.
Import WasmEncoder.

Definition wf (e : WasmEncoder) : Prop := (len e ≤ length (buf e) ∧ 0 < length (buf e))%nat.

(** The operation [m] never fails and appends exactly [bs]. *)
Definition emits (m : WasmEncoder → result WasmEncoder) (bs : list Z) : Prop :=
  ∀ e, wf e → ∃ e', m e = Ok e' ∧ wf e' ∧ finish e' = finish e ++ bs.

Lemma wf_new : wf new.
Proof. split; simpl; lia. Qed.

Lemma grow_cap_enough fuel cap need :
  (0 < cap)%nat → (need ≤ cap + fuel)%nat →
  ∃ cap', grow_cap fuel cap need = Some cap' ∧ (need ≤ cap' ∧ cap ≤ cap')%nat.
Proof.
  revert cap. induction fuel as [|f IH]; intros cap Hc Hf; simpl; case_decide.
  - lia.
  - exists cap. split; [done|lia].
  - destruct (IH (cap * 2)%nat) as (cap' & -> & ?); [lia..|]. exists cap'. split; [done|lia].
  - exists cap. split; [done|lia].
Qed.

Lemma ensure_ok e n : wf e →
  ∃ e', ensure e n = Ok e' ∧ wf e' ∧ len e' = len e ∧ finish e' = finish e
        ∧ (len e + n ≤ length (buf e'))%nat.
Proof.
  intros [Hl Hp]. unfold ensure. case_decide; [by exists e|].
  destruct (grow_cap_enough (len e + n) (length (buf e) * 2) (len e + n))
    as (cap & -> & Hc); [lia..|].
  assert (Hlen : length (take (len e) (buf e) ++ replicate (cap - len e) 0) = cap).
  { rewrite length_app, length_take, length_replicate. lia. }
  eexists. split_and!; [done| | | |]; unfold wf, finish; simpl; rewrite ?Hlen; try lia.
  rewrite take_app_le by (rewrite length_take; lia). by rewrite take_take, Nat.min_id.
Qed.

Lemma push_ok e b : wf e → (len e < length (buf e))%nat →
  wf (push e b) ∧ finish (push e b) = finish e ++ [b mod 256]
  ∧ length (buf (push e b)) = length (buf e).
Proof.
  intros [Hl Hp] Hlt. unfold push, finish, wf; simpl. rewrite js_and_ff, length_insert.
  split_and!; [lia..| |done].
  rewrite (take_S_r _ _ (b mod 256)) by (by apply list_lookup_insert_eq).
  by rewrite take_insert_ge by lia.
Qed.

Lemma emits_byte b : emits (byte b) [b mod 256].
Proof.
  intros e He. unfold byte.
  assert (∃ e', (if decide (len e = length (buf e)) then ensure e 1 else Ok e) = Ok e'
    ∧ wf e' ∧ finish e' = finish e ∧ (len e' < length (buf e'))%nat) as (e' & -> & He' & Hf & Hl).
  { case_decide.
    - destruct (ensure_ok e 1 He) as (e' & ? & ? & Hlen & ? & ?). exists e'.
      split_and!; [done..|lia].
    - exists e. destruct He. split_and!; [done..|lia]. }
  destruct (push_ok e' b He' Hl) as (? & Hp & _).
  simpl. eexists. split_and!; [done..|]. by rewrite Hp, Hf.
Qed.

Lemma emits_bytes bs : emits (bytes bs) bs.
Proof.
  intros e He. unfold bytes.
  destruct (ensure_ok e (length bs) He) as (e' & -> & [He' Hp] & Hl & Hf & Hc); simpl.
  eexists. split_and!; [done| |].
  - split; simpl; rewrite !length_app, length_take, length_drop; lia.
  - rewrite <- Hf. unfold finish; simpl. rewrite app_assoc.
    rewrite take_app_length'; [done|]. rewrite length_app, length_take. lia.
Qed.

Lemma emits_push_all bs e : wf e → (len e + length bs ≤ length (buf e))%nat →
  wf (foldl push e bs) ∧ finish (foldl push e bs) = finish e ++ ((λ b, b mod 256) <$> bs).
Proof.
  revert e. induction bs as [|b bs IH]; intros e He Hl; csimpl in *.
  { by rewrite app_nil_r. }
  destruct (push_ok e b He) as (He' & Hf & Hlb); [lia|].
  destruct (IH (push e b)) as [? Hf']; [done| |].
  { rewrite Hlb. unfold push; simpl. lia. }
  split; [done|]. by rewrite Hf', Hf, <- app_assoc.
Qed.

Lemma emits_bytes_array bs : emits (bytes_array bs) ((λ b, b mod 256) <$> bs).
Proof.
  intros e He. unfold bytes_array.
  destruct (ensure_ok e (length bs) He) as (e' & -> & He' & Hl & Hf & Hc); simpl.
  destruct (emits_push_all bs e' He') as [? Hf']; [lia|].
  eexists. split_and!; [done..|]. by rewrite Hf', Hf.
Qed.

Lemma emits_seq m1 m2 b1 b2 :
  emits m1 b1 → emits m2 b2 → emits (λ e, e ← m1 e; m2 e) (b1 ++ b2).
Proof.
  intros H1 H2 e He. destruct (H1 e He) as (e1 & -> & He1 & Hf1); simpl.
  destruct (H2 e1 He1) as (e2 & -> & He2 & Hf2).
  eexists. split_and!; [done..|]. by rewrite Hf2, Hf1, app_assoc.
Qed.

Lemma emits_skip : emits Ok [].
Proof. intros e He. exists e. by rewrite app_nil_r. Qed.

Lemma emits_then_ok m bs : emits m bs → emits (λ e, e ← m e; Ok e) bs.
Proof. intros H e He. destruct (H e He) as (e' & -> & ?). by exists e'. Qed.

Lemma emits_ext m m' bs : (∀ e, m e = m' e) → emits m bs → emits m' bs.
Proof. intros Hm H e He. rewrite <- Hm. by apply H. Qed.

Lemma u32_loop_emits fuel v : (0 < fuel)%nat → 0 ≤ v < 2 ^ 32 → v < 2 ^ (7 * Z.of_nat fuel) →
  emits (u32_loop fuel v) (uleb fuel v).
Proof.
  revert v. induction fuel as [|f IH]; intros v Hp Hv Hf; [lia|]. cbn [u32_loop uleb].
  rewrite js_and_7f, js_shru_spec by lia. change (2 ^ 7) with 128.
  destruct (Z.ltb_spec v 128) as [Hlt|Hge].
  - rewrite Z.div_small, (Z.mod_small v 128) by lia. simpl.
    apply emits_then_ok. replace v with (v mod 256) at 2; [apply emits_byte|].
    apply Z.mod_small. lia.
  - assert (1 ≤ v / 128) by (apply Z.div_le_lower_bound; lia).
    destruct (Z.eqb_spec (v / 128) 0) as [?|_]; [lia|]. cbn [negb].
    pose proof (Z.mod_pos_bound v 128).
    rewrite js_or_80 by lia.
    change (?x :: ?y) with ([x] ++ y). apply emits_seq.
    + replace (v mod 128 + 128) with ((v mod 128 + 128) mod 256) at 2
        by (apply Z.mod_small; lia). apply emits_byte.
    + assert (v / 128 < 2 ^ (7 * Z.of_nat f)) as Hb.
      { apply Z.div_lt_upper_bound; [lia|].
        replace (7 * Z.of_nat (S f)) with (7 + 7 * Z.of_nat f) in Hf by lia.
        rewrite Z.pow_add_r in Hf by lia. lia. }
      destruct f; [simpl in Hb; lia|].
      apply IH; [lia| |done]. split; [lia|]. apply Z.div_lt_upper_bound; lia.
Qed.

Lemma emits_u32 v : 0 ≤ v < 2 ^ 32 → emits (u32 v) (uleb32 v).
Proof.
  intros Hv. apply (emits_ext (u32_loop 5 v));
    [|apply u32_loop_emits; [lia|done|change (7 * Z.of_nat 5) with 35; lia]].
  intros e. unfold u32. destruct (Z.ltb_spec v 0); [lia|].
  destruct (Z.ltb_spec 0xffffffff v); [lia|done].
Qed.

(** The sign bit of a group of seven bits. *)
Lemma js_and_40 v : (v mod 128 .& 0x40 =? 0) = (v mod 128 <? 64).
Proof.
  pose proof (Z.mod_pos_bound v 128 ltac:(lia)) as Hb. remember (v mod 128) as b.
  change 0x40 with (2 ^ 6). rewrite (js_and_bit b 6), Z.testbit_eqb by lia.
  change (2 ^ 6) with 64. destruct (Z.ltb_spec b 64).
  - by rewrite Z.div_small by lia.
  - by replace (b / 64) with 1 by (apply (Z.div_unique _ _ _ (b - 64)); lia).
Qed.

(** The loop's exit test holds exactly on the values one signed group holds. *)
Lemma sleb_last v :
  (((v / 128 =? 0) && (v mod 128 .& 0x40 =? 0)) ||
   ((v / 128 =? -1) && negb (v mod 128 .& 0x40 =? 0)))
  = (-64 <=? v) && (v <? 64).
Proof.
  rewrite js_and_40.
  pose proof (Z.div_mod v 128). pose proof (Z.mod_pos_bound v 128).
  destruct (Z.eqb_spec (v / 128) 0), (Z.eqb_spec (v / 128) (-1)),
    (Z.ltb_spec (v mod 128) 64), (Z.leb_spec (-64) v), (Z.ltb_spec v 64); simpl; lia.
Qed.

Lemma sleb_group_range v : 0 ≤ v mod 128 < 128.
Proof. apply Z.mod_pos_bound. lia. Qed.

Lemma emits_group_last v : emits (byte (v mod 128)) [v mod 128].
Proof.
  pose proof (sleb_group_range v).
  replace [v mod 128] with [v mod 128 mod 256] by (f_equal; apply Z.mod_small; lia).
  apply emits_byte.
Qed.

Lemma emits_group_more v : emits (byte (v mod 128 .| 0x80)) [v mod 128 + 128].
Proof.
  pose proof (sleb_group_range v). rewrite js_or_80 by lia.
  replace [v mod 128 + 128] with [(v mod 128 + 128) mod 256]
    by (f_equal; apply Z.mod_small; lia).
  apply emits_byte.
Qed.

(** Seven bits fewer: the quotient of a signed range. *)
Lemma signed_shift v n : 7 ≤ n → - 2 ^ n ≤ v < 2 ^ n → - 2 ^ (n - 7) ≤ v / 128 < 2 ^ (n - 7).
Proof.
  intros Hn Hv. assert (2 ^ n = 2 ^ (n - 7) * 128) as E.
  { replace n with ((n - 7) + 7) at 1 by lia. rewrite Z.pow_add_r by lia. done. }
  split; [apply Z.div_le_lower_bound|apply Z.div_lt_upper_bound]; lia.
Qed.

Lemma i32_loop_emits fuel v : (0 < fuel)%nat → - 2 ^ 31 ≤ v < 2 ^ 31 →
  - 2 ^ (7 * Z.of_nat fuel - 1) ≤ v < 2 ^ (7 * Z.of_nat fuel - 1) →
  emits (i32_loop fuel v) (sleb fuel v).
Proof.
  revert v. induction fuel as [|f IH]; intros v Hp Hv Hf; [lia|]. cbn [i32_loop sleb].
  rewrite js_and_7f, js_shr_spec by lia. change (2 ^ 7) with 128.
  rewrite sleb_last. destruct ((-64 <=? v) && (v <? 64)) eqn:E.
  - apply emits_then_ok, emits_group_last.
  - change (?x :: ?y) with ([x] ++ y). apply emits_seq; [apply emits_group_more|].
    destruct f as [|f].
    { simpl in Hf. apply andb_false_iff in E as [E|E];
        [apply Z.leb_gt in E|apply Z.ltb_ge in E]; lia. }
    apply IH; [lia| |].
    + pose proof (signed_shift v 31). lia.
    + apply (signed_shift v) in Hf; [|lia].
      replace (7 * Z.of_nat (S (S f)) - 1 - 7) with (7 * Z.of_nat (S f) - 1) in Hf by lia. done.
Qed.

Lemma i64_loop_emits fuel v : (0 < fuel)%nat →
  - 2 ^ (7 * Z.of_nat fuel - 1) ≤ v < 2 ^ (7 * Z.of_nat fuel - 1) →
  emits (i64_loop fuel v) (sleb fuel v).
Proof.
  revert v. induction fuel as [|f IH]; intros v Hp Hf; [lia|]. cbn [i64_loop sleb].
  change 0x7f with (Z.ones 7).
  rewrite Z.land_ones, Z.shiftr_div_pow2 by lia. change (2 ^ 7) with 128.
  rewrite sleb_last. destruct ((-64 <=? v) && (v <? 64)) eqn:E.
  - apply emits_then_ok, emits_group_last.
  - change (?x :: ?y) with ([x] ++ y). apply emits_seq; [apply emits_group_more|].
    destruct f as [|f].
    { simpl in Hf. apply andb_false_iff in E as [E|E];
        [apply Z.leb_gt in E|apply Z.ltb_ge in E]; lia. }
    apply IH; [lia|].
    apply (signed_shift v) in Hf; [|lia].
    replace (7 * Z.of_nat (S (S f)) - 1 - 7) with (7 * Z.of_nat (S f) - 1) in Hf by lia. done.
Qed.

Lemma emits_i32 v : - 2 ^ 31 ≤ v < 2 ^ 31 → emits (i32 v) (sleb32 v).
Proof.
  intros Hv. apply i32_loop_emits; [lia|done|]. change (7 * Z.of_nat 5 - 1) with 34. lia.
Qed.

Lemma as_int64_range v : - 2 ^ 63 ≤ as_int64 v < 2 ^ 63.
Proof. unfold as_int64. pose proof (Z.mod_pos_bound (v + 2 ^ 63) (2 ^ 64)). lia. Qed.

Lemma emits_i64 v : emits (i64 v) (sleb64 (as_int64 v)).
Proof.
  pose proof (as_int64_range v). apply i64_loop_emits; [lia|].
  change (7 * Z.of_nat 10 - 1) with 69. lia.
Qed.

Lemma emits_name `{TextCodec} s : Z.of_nat (length (utf8_encode s)) < 2 ^ 32 →
  emits (name s) (uleb32 (Z.of_nat (length (utf8_encode s))) ++ utf8_encode s).
Proof. intros Hl. apply emits_seq; [apply emits_u32; lia|apply emits_bytes]. Qed.

Lemma emits_section id content bs :
  emits content bs → Z.of_nat (length bs) < 2 ^ 32 →
  emits (section id content) ([id mod 256] ++ uleb32 (Z.of_nat (length bs)) ++ bs).
Proof.
  intros Hc Hl. destruct (Hc new wf_new) as (sub & Hs & _ & Hf).
  assert (finish sub = bs) as Hd by (rewrite Hf; done).
  apply (emits_ext (λ e, e1 ← byte id e; e2 ← u32 (Z.of_nat (length bs)) e1; bytes bs e2)).
  { intros e. unfold section. rewrite Hs; simpl. by rewrite Hd. }
  apply emits_seq; [apply emits_byte|].
  apply emits_seq; [apply emits_u32; lia|apply emits_bytes].
Qed.

Lemma emits_for_each {A} (l : list A) f (out : A → list Z) :
  (∀ x, x ∈ l → emits (f x) (out x)) → emits (for_each l f) (l ≫= out).
Proof.
  induction l as [|x l IH]; intros Hf; simpl; [apply emits_skip|].
  apply emits_seq; [apply Hf; left|]. apply IH. intros y Hy. apply Hf. by right.
Qed.

Lemma emits_vector {A} (l : list A) f (out : A → list Z) :
  (∀ x, x ∈ l → emits (f x) (out x)) → Z.of_nat (length l) < 2 ^ 32 →
  emits (vector l f) (uleb32 (Z.of_nat (length l)) ++ (l ≫= out)).
Proof. intros. apply emits_seq; [apply emits_u32; lia|by apply emits_for_each]. Qed.

Lemma u32_out_of_range v e : v < 0 ∨ 2 ^ 32 ≤ v →
  u32 v e = throw ERangeError (js "u32 out of range: " ++ js_num v).
Proof.
  intros Hv. unfold u32. destruct (Z.ltb_spec v 0); [reflexivity|].
  destruct (Z.ltb_spec 0xffffffff v); [reflexivity|lia].
Qed.
End spec.
