(* ===== verification/ObjReader.v ===== *)
(** The relocatable object reader, [src/link/reader.ts].

    [ByteReader] is the cursor over the file's bytes: a parser is a function of
    the bytes and the position that returns a value and the new position, or
    the exception the code throws.  [parseObject] and the section parsers
    follow the source function by function; the fields of the records are those
    of the interfaces of the file.

    [reads p bs a] is the contract the round-trip theorems are stated with:
    wherever [bs] lies in the file, [p] started at its first byte returns [a]
    and stops right after its last byte. *)

From S2P Require Import Prelude Encoder.

(** * Data *)

Record TypeSection := mkType { ts_params : list Z; ts_results : list Z }.

Record ImportEntry := mkImport {
  imp_module : jsstr;
  imp_name : jsstr;
  imp_kind : Z;
  imp_typeIdx : option Z;
  imp_globalType : option Z;
  imp_globalMutable : option bool;
  imp_tableElementType : option Z;
  imp_tableMin : option Z;
  imp_tableMax : option Z;
  imp_memoryMin : option Z;
  imp_memoryMax : option Z;
}.

Record FunctionEntry := mkFunction { fn_typeIdx : Z }.
Record TableEntry := mkTable { tbl_elementType : Z; tbl_min : Z; tbl_max : option Z }.
Record MemoryEntry := mkMemory { mem_min : Z; mem_max : option Z }.
Record GlobalEntry := mkGlobal { glb_type : Z; glb_mutable : bool; glb_init : list Z }.
Record ExportEntry := mkExport { exp_name : jsstr; exp_kind : Z; exp_index : Z }.

Record ElementEntry := mkElement {
  el_flags : Z;
  el_tableIdx : Z;
  el_offsetExpr : option (list Z);
  el_funcIndices : list Z;
  el_elemCount : Z;
  el_kindByte : option Z;
  el_elemExprs : option (list Z);
}.

Record TagEntry := mkTag { tag_attribute : Z; tag_typeIdx : Z }.
Record CodeEntry := mkCode { cd_locals : list (Z * Z); cd_body : list Z }.
Record SymbolInfo := mkSymbol { sym_kind : Z; sym_name : jsstr; sym_index : Z; sym_flags : Z }.

Record RelocEntry := mkReloc {
  rel_type : Z; rel_offset : Z; rel_symbolIndex : Z; rel_addend : option Z }.

Record ParsedObject := mkObject {
  po_name : jsstr;
  po_types : list TypeSection;
  po_imports : list ImportEntry;
  po_functions : list FunctionEntry;
  po_tables : list TableEntry;
  po_memories : list MemoryEntry;
  po_globals : list GlobalEntry;
  po_exports : list ExportEntry;
  po_elements : list ElementEntry;
  po_tags : list TagEntry;
  po_code : list CodeEntry;
  po_symbols : list SymbolInfo;
  po_relocations : jsmap jsstr (list RelocEntry);
}.

Definition empty_object (name : jsstr) : ParsedObject :=
  mkObject name [] [] [] [] [] [] [] [] [] [] [] [].

(** [obj.<field>.push(x)] *)
Definition push_type t o := mkObject (po_name o) (po_types o ++ [t]) (po_imports o) (po_functions o) (po_tables o) (po_memories o) (po_globals o) (po_exports o) (po_elements o) (po_tags o) (po_code o) (po_symbols o) (po_relocations o).
Definition push_import i o := mkObject (po_name o) (po_types o) (po_imports o ++ [i]) (po_functions o) (po_tables o) (po_memories o) (po_globals o) (po_exports o) (po_elements o) (po_tags o) (po_code o) (po_symbols o) (po_relocations o).
Definition push_function f o := mkObject (po_name o) (po_types o) (po_imports o) (po_functions o ++ [f]) (po_tables o) (po_memories o) (po_globals o) (po_exports o) (po_elements o) (po_tags o) (po_code o) (po_symbols o) (po_relocations o).
Definition push_table t o := mkObject (po_name o) (po_types o) (po_imports o) (po_functions o) (po_tables o ++ [t]) (po_memories o) (po_globals o) (po_exports o) (po_elements o) (po_tags o) (po_code o) (po_symbols o) (po_relocations o).
Definition push_memory m o := mkObject (po_name o) (po_types o) (po_imports o) (po_functions o) (po_tables o) (po_memories o ++ [m]) (po_globals o) (po_exports o) (po_elements o) (po_tags o) (po_code o) (po_symbols o) (po_relocations o).
Definition push_global g o := mkObject (po_name o) (po_types o) (po_imports o) (po_functions o) (po_tables o) (po_memories o) (po_globals o ++ [g]) (po_exports o) (po_elements o) (po_tags o) (po_code o) (po_symbols o) (po_relocations o).
Definition push_export e o := mkObject (po_name o) (po_types o) (po_imports o) (po_functions o) (po_tables o) (po_memories o) (po_globals o) (po_exports o ++ [e]) (po_elements o) (po_tags o) (po_code o) (po_symbols o) (po_relocations o).
Definition push_element e o := mkObject (po_name o) (po_types o) (po_imports o) (po_functions o) (po_tables o) (po_memories o) (po_globals o) (po_exports o) (po_elements o ++ [e]) (po_tags o) (po_code o) (po_symbols o) (po_relocations o).
Definition push_tag t o := mkObject (po_name o) (po_types o) (po_imports o) (po_functions o) (po_tables o) (po_memories o) (po_globals o) (po_exports o) (po_elements o) (po_tags o ++ [t]) (po_code o) (po_symbols o) (po_relocations o).
Definition push_code c o := mkObject (po_name o) (po_types o) (po_imports o) (po_functions o) (po_tables o) (po_memories o) (po_globals o) (po_exports o) (po_elements o) (po_tags o) (po_code o ++ [c]) (po_symbols o) (po_relocations o).
Definition push_symbol s o := mkObject (po_name o) (po_types o) (po_imports o) (po_functions o) (po_tables o) (po_memories o) (po_globals o) (po_exports o) (po_elements o) (po_tags o) (po_code o) (po_symbols o ++ [s]) (po_relocations o).
Definition set_relocs n rs o := mkObject (po_name o) (po_types o) (po_imports o) (po_functions o) (po_tables o) (po_memories o) (po_globals o) (po_exports o) (po_elements o) (po_tags o) (po_code o) (po_symbols o) (jm_set (po_relocations o) n rs).

(** ** Constants *)

Definition SYMBOL_BINDING_WEAK : Z := 0x01.
Definition SYMBOL_BINDING_LOCAL : Z := 0x02.
Definition SYMBOL_VISIBILITY_HIDDEN : Z := 0x04.
Definition SYMBOL_UNDEFINED : Z := 0x10.
Definition SYMBOL_EXPORTED : Z := 0x20.
Definition SYMBOL_EXPLICIT_NAME : Z := 0x40.

Definition SYMTAB_FUNCTION : Z := 0.
Definition SYMTAB_DATA : Z := 1.
Definition SYMTAB_GLOBAL : Z := 2.
Definition SYMTAB_SECTION : Z := 3.
Definition SYMTAB_EVENT : Z := 4.
Definition SYMTAB_TABLE : Z := 5.

Definition R_WASM_TABLE_INDEX_SLEB : Z := 1.
Definition R_WASM_TABLE_INDEX_I32 : Z := 2.
Definition R_WASM_MEMORY_ADDR_LEB : Z := 3.
Definition R_WASM_MEMORY_ADDR_SLEB : Z := 4.
Definition R_WASM_MEMORY_ADDR_I32 : Z := 5.
Definition R_WASM_FUNCTION_OFFSET_I32 : Z := 8.
Definition R_WASM_SECTION_OFFSET_I32 : Z := 9.
Definition R_WASM_TABLE_INDEX_LEB : Z := 15.
Definition R_WASM_TABLE_NUMBER_LEB : Z := 20.

Definition RELOC_HAS_ADDEND : list Z :=
  [R_WASM_MEMORY_ADDR_LEB; R_WASM_MEMORY_ADDR_SLEB; R_WASM_MEMORY_ADDR_I32;
   R_WASM_FUNCTION_OFFSET_I32; R_WASM_SECTION_OFFSET_I32].

Definition WASM_SYMBOL_TABLE : Z := 8.

(** [(flags & bit) !== 0] *)
Definition has_flag (flags bit : Z) : bool := negb (flags .& bit =? 0).

(** [byte.toString(16)] *)
Definition hex_digit (d : Z) : Z := if d <? 10 then 48 + d else 87 + d.
Definition js_hex (b : Z) : jsstr :=
  if b <? 16 then [hex_digit b] else [hex_digit (b / 16); hex_digit (b mod 16)].

(** * The cursor *)

Definition parser (A : Type) : Type := list Z → Z → result (A * Z).

#[global] Instance parser_ret : MRet parser := λ A a data pos, Ok (a, pos).
#[global] Instance parser_bind : MBind parser := λ A B f m data pos,
  match m data pos with Ok (a, pos') => f a data pos' | Err e => Err e end.

Definition pfail {A} (k : errkind) (msg : jsstr) : parser A := λ _ _, throw k msg.
Definition get_pos : parser Z := λ _ pos, Ok (pos, pos).
Definition set_pos (p : Z) : parser () := λ _ _, Ok (tt, p).
Definition get_data : parser (list Z) := λ data pos, Ok (data, pos).

Definition slice (data : list Z) (a b : Z) : list Z :=
  take (Z.to_nat (b - a)) (drop (Z.to_nat a) data).

(** [for (let i = 0; i < n; i++)] over a value the body extends. *)
Fixpoint ploop {S} (n : nat) (body : S → parser S) (s : S) : parser S :=
  match n with
  | O => mret s
  | S n' => s' ← body s; ploop n' body s'
  end.

Module ByteReader.

Definition remaining : parser Z := λ data pos, Ok (Z.of_nat (length data) - pos, pos).

Definition byte : parser Z := λ data pos,
  if Z.of_nat (length data) <=? pos
  then throw EError (js "Unexpected end of data at offset " ++ js_num pos)
  else match data !! Z.to_nat pos with
       | Some b => Ok (b, pos + 1)
       | None => throw EError []
       end.

Definition bytes (n : Z) : parser (list Z) := λ data pos,
  if Z.of_nat (length data) <? pos + n
  then throw EError (js "Unexpected end of data: need " ++ js_num n
                     ++ js " bytes at offset " ++ js_num pos)
  else Ok (slice data pos (pos + n), pos + n).

(** The shared [do ... while (b & 0x80)] loop; it returns the accumulated
    bits, the final shift and the last byte. *)
Fixpoint leb_loop (fuel : nat) (res shift : Z) : parser (Z * Z * Z) :=
  match fuel with
  | O => λ _ _, Err OutOfFuel
  | S f =>
      b ← byte;
      let res := res .| ((b .& 0x7f) .<< shift) in
      let shift := shift + 7 in
      if has_flag b 0x80 then leb_loop f res shift else mret (res, shift, b)
  end.

(** Every turn of the loop consumes a byte of the file. *)
Definition leb : parser (Z * Z * Z) := λ data pos,
  leb_loop (S (length data)) 0 0 data pos.

Definition u32 : parser Z := r ← leb; mret (r.1.1 .>>> 0).

Definition i32 : parser Z :=
  r ← leb;
  let '(res, shift, b) := r in
  mret (if (shift <? 32) && has_flag b 0x40 then res .| (- (1 .<< shift)) else res).

Definition name `{TextCodec} : parser jsstr :=
  len ← u32; bs ← bytes len; mret (utf8_decode bs).

(** [while (r.byte() !== 0x0b)] *)
Fixpoint scan_end (fuel : nat) : parser () :=
  match fuel with
  | O => λ _ _, Err OutOfFuel
  | S f => b ← byte; if b =? 0x0b then mret tt else scan_end f
  end.

(** The bytes up to and including the next [0x0b]. *)
Definition const_expr : parser (list Z) :=
  start ← get_pos;
  data ← get_data;
  _ ← scan_end (S (length data));
  stop ← get_pos;
  mret (slice data start stop).

End ByteReader.

(** * Section parsers *)

Section sections.
Context `{TextCodec}.
Import ByteReader.

Definition SECTION_CUSTOM : Z := 0.
Definition SECTION_TYPE : Z := 1.
Definition SECTION_IMPORT : Z := 2.
Definition SECTION_FUNCTION : Z := 3.
Definition SECTION_TABLE : Z := 4.
Definition SECTION_MEMORY : Z := 5.
Definition SECTION_GLOBAL : Z := 6.
Definition SECTION_EXPORT : Z := 7.
Definition SECTION_START : Z := 8.
Definition SECTION_ELEMENT : Z := 9.
Definition SECTION_CODE : Z := 10.
Definition SECTION_DATA : Z := 11.
Definition SECTION_TAG : Z := 13.

(** A [u32] count followed by that many items. *)
Definition counted (body : ParsedObject → parser ParsedObject) (obj : ParsedObject)
  : parser ParsedObject :=
  count ← u32; ploop (Z.to_nat count) body obj.

Definition byte_vec : parser (list Z) :=
  n ← u32; ploop (Z.to_nat n) (λ l, b ← byte; mret (l ++ [b])) [].

Definition parseTypeSection : ParsedObject → parser ParsedObject :=
  counted (λ obj,
    form ← byte;
    if negb (form =? 0x60)
    then pfail EError (js "Unsupported type form 0x" ++ js_hex form)
    else
      params ← byte_vec;
      results ← byte_vec;
      mret (push_type (mkType params results) obj)).

Definition import_func (md nm : jsstr) (ti : Z) : ImportEntry :=
  mkImport md nm 0 (Some ti) None None None None None None None.
Definition import_table (md nm : jsstr) (et mn : Z) (mx : option Z) : ImportEntry :=
  mkImport md nm 1 None None None (Some et) (Some mn) mx None None.
Definition import_memory (md nm : jsstr) (mn : Z) (mx : option Z) : ImportEntry :=
  mkImport md nm 2 None None None None None None (Some mn) mx.
Definition import_global (md nm : jsstr) (ty : Z) (mu : bool) : ImportEntry :=
  mkImport md nm 3 None (Some ty) (Some mu) None None None None None.
Definition import_tag (md nm : jsstr) (ti : Z) : ImportEntry :=
  mkImport md nm 4 (Some ti) None None None None None None None.

(** [hasMax = r.byte(); min = r.u32(); max = hasMax ? r.u32() : undefined] *)
Definition limits : parser (Z * option Z) :=
  hasMax ← byte;
  mn ← u32;
  if negb (hasMax =? 0) then mx ← u32; mret (mn, Some mx) else mret (mn, None).

Definition parseImportSection : ParsedObject → parser ParsedObject :=
  counted (λ obj,
    md ← name;
    nm ← name;
    kind ← byte;
    entry ← (if kind =? 0 then ti ← u32; mret (import_func md nm ti)
             else if kind =? 1 then
               et ← byte; l ← limits; mret (import_table md nm et l.1 l.2)
             else if kind =? 2 then l ← limits; mret (import_memory md nm l.1 l.2)
             else if kind =? 3 then
               ty ← byte; mu ← byte; mret (import_global md nm ty (negb (mu =? 0)))
             else if kind =? 4 then
               _ ← byte; ti ← u32; mret (import_tag md nm ti)
             else pfail EError (js "Unknown import kind: " ++ js_num kind));
    mret (push_import entry obj)).

Definition parseFunctionSection : ParsedObject → parser ParsedObject :=
  counted (λ obj, ti ← u32; mret (push_function (mkFunction ti) obj)).

Definition parseTableSection : ParsedObject → parser ParsedObject :=
  counted (λ obj,
    et ← byte; l ← limits; mret (push_table (mkTable et l.1 l.2) obj)).

Definition parseMemorySection : ParsedObject → parser ParsedObject :=
  counted (λ obj, l ← limits; mret (push_memory (mkMemory l.1 l.2) obj)).

Definition parseGlobalSection : ParsedObject → parser ParsedObject :=
  counted (λ obj,
    ty ← byte;
    mu ← byte;
    init ← const_expr;
    mret (push_global (mkGlobal ty (negb (mu =? 0)) init) obj)).

Definition parseExportSection : ParsedObject → parser ParsedObject :=
  counted (λ obj,
    nm ← name; kind ← byte; index ← u32;
    mret (push_export (mkExport nm kind index) obj)).

Definition hasExplicitTable (flags : Z) : bool := has_flag flags 2 && negb (has_flag flags 1).
Definition isActive (flags : Z) : bool := negb (has_flag flags 1).
Definition usesExprs (flags : Z) : bool := has_flag flags 4.
Definition hasKindByte (flags : Z) : bool := negb (flags =? 0) && negb (flags =? 4).

Definition parseElementEntry : parser ElementEntry :=
  flags ← u32;
  tableIdx ← (if hasExplicitTable flags then u32 else mret 0);
  offsetExpr ← (if isActive flags then e ← const_expr; mret (Some e) else mret None);
  kindByte ← (if hasKindByte flags then b ← byte; mret (Some b) else mret None);
  elemCount ← u32;
  if usesExprs flags then
    start ← get_pos;
    data ← get_data;
    _ ← ploop (Z.to_nat elemCount) (λ _, scan_end (S (length data))) tt;
    stop ← get_pos;
    mret (mkElement flags tableIdx offsetExpr [] elemCount kindByte (Some (slice data start stop)))
  else
    idx ← ploop (Z.to_nat elemCount) (λ l, i ← u32; mret (l ++ [i])) [];
    mret (mkElement flags tableIdx offsetExpr idx elemCount kindByte None).

Definition parseElementSection : ParsedObject → parser ParsedObject :=
  counted (λ obj, e ← parseElementEntry; mret (push_element e obj)).

(** [parseElementSegmentsForTest]: the segments and the final position. *)
Definition parseElementSegmentsForTest (bs : list Z) : result (list ElementEntry * Z) :=
  r ← parseElementSection (empty_object []) bs 0;
  Ok (po_elements r.1, r.2).

Definition parseCodeSection : ParsedObject → parser ParsedObject :=
  counted (λ obj,
    bodySize ← u32;
    p ← get_pos;
    let bodyEnd := p + bodySize in
    n ← u32;
    locals ← ploop (Z.to_nat n)
      (λ l, lcount ← u32; ltype ← byte; mret (l ++ [(lcount, ltype)])) [];
    p' ← get_pos;
    data ← get_data;
    let body := slice data p' bodyEnd in
    _ ← set_pos bodyEnd;
    mret (push_code (mkCode locals body) obj)).

Definition parseTagSection : ParsedObject → parser ParsedObject :=
  counted (λ obj,
    attribute ← byte; ti ← u32; mret (push_tag (mkTag attribute ti) obj)).

Definition parseSymbol : parser SymbolInfo :=
  kind ← byte;
  flags ← u32;
  if (kind =? SYMTAB_FUNCTION) || (kind =? SYMTAB_GLOBAL) || (kind =? SYMTAB_EVENT)
     || (kind =? SYMTAB_TABLE) then
    index ← u32;
    nm ← (if negb (has_flag flags SYMBOL_UNDEFINED) || has_flag flags SYMBOL_EXPLICIT_NAME
          then name else mret []);
    mret (mkSymbol kind nm index flags)
  else if kind =? SYMTAB_DATA then
    nm ← name;
    index ← (if negb (has_flag flags SYMBOL_UNDEFINED)
             then i ← u32; _ ← u32; _ ← u32; mret i else mret 0);
    mret (mkSymbol kind nm index flags)
  else if kind =? SYMTAB_SECTION then
    index ← u32; mret (mkSymbol kind [] index flags)
  else pfail EError (js "Unknown symbol kind: " ++ js_num kind).

Definition parseSymbolTable : ParsedObject → parser ParsedObject :=
  counted (λ obj, s ← parseSymbol; mret (push_symbol s obj)).

(** [while (r.pos < end)] *)
Fixpoint linking_loop (fuel : nat) (stop : Z) (obj : ParsedObject) : parser ParsedObject :=
  match fuel with
  | O => λ _ _, Err OutOfFuel
  | S f =>
      p ← get_pos;
      if p <? stop then
        subsectionType ← byte;
        subsectionSize ← u32;
        q ← get_pos;
        let subsectionEnd := q + subsectionSize in
        obj ← (if subsectionType =? WASM_SYMBOL_TABLE then parseSymbolTable obj
               else _ ← set_pos subsectionEnd; mret obj);
        linking_loop f stop obj
      else mret obj
  end.

Definition parseLinkingSection (stop : Z) (obj : ParsedObject) : parser ParsedObject :=
  version ← u32;
  if negb (version =? 2)
  then pfail EError (js "Unsupported linking section version: " ++ js_num version)
  else data ← get_data; linking_loop (S (length data)) stop obj.

Definition parseReloc : parser RelocEntry :=
  ty ← byte;
  offset ← u32;
  symbolIndex ← u32;
  addend ← (if decide (ty ∈ RELOC_HAS_ADDEND) then a ← i32; mret (Some a) else mret None);
  mret (mkReloc ty offset symbolIndex addend).

Definition parseRelocSection (sectionName : jsstr) (obj : ParsedObject) : parser ParsedObject :=
  _ ← u32;
  count ← u32;
  entries ← ploop (Z.to_nat count) (λ l, e ← parseReloc; mret (l ++ [e])) [];
  mret (set_relocs sectionName entries obj).

Definition parseCustomSection (stop : Z) (obj : ParsedObject) : parser ParsedObject :=
  sectionName ← name;
  if decide (sectionName = js "linking") then parseLinkingSection stop obj
  else if decide (js "reloc." `prefix_of` sectionName)
  then parseRelocSection sectionName obj
  else _ ← set_pos stop; mret obj.

Definition parseSection (id sectionEnd : Z) (obj : ParsedObject) : parser ParsedObject :=
  if id =? SECTION_CUSTOM then parseCustomSection sectionEnd obj
  else if id =? SECTION_TYPE then parseTypeSection obj
  else if id =? SECTION_IMPORT then parseImportSection obj
  else if id =? SECTION_FUNCTION then parseFunctionSection obj
  else if id =? SECTION_TABLE then parseTableSection obj
  else if id =? SECTION_MEMORY then parseMemorySection obj
  else if id =? SECTION_GLOBAL then parseGlobalSection obj
  else if id =? SECTION_EXPORT then parseExportSection obj
  else if id =? SECTION_START then _ ← set_pos sectionEnd; mret obj
  else if id =? SECTION_ELEMENT then parseElementSection obj
  else if id =? SECTION_CODE then parseCodeSection obj
  else if id =? SECTION_DATA then _ ← set_pos sectionEnd; mret obj
  else if id =? SECTION_TAG then parseTagSection obj
  else _ ← set_pos sectionEnd; mret obj.

(** [while (r.remaining > 0)] *)
Fixpoint sections_loop (fuel : nat) (obj : ParsedObject) : parser ParsedObject :=
  match fuel with
  | O => λ _ _, Err OutOfFuel
  | S f =>
      rem ← remaining;
      if 0 <? rem then
        sectionId ← byte;
        sectionSize ← u32;
        p ← get_pos;
        let sectionEnd := p + sectionSize in
        obj ← parseSection sectionId sectionEnd obj;
        q ← get_pos;
        _ ← (if negb (q =? sectionEnd) then set_pos sectionEnd else mret tt);
        sections_loop f obj
      else mret obj
  end.

Definition WASM_MAGIC : list Z := [0x00; 0x61; 0x73; 0x6d].
Definition WASM_VERSION : list Z := [0x01; 0x00; 0x00; 0x00].

Definition quoted (s : jsstr) : jsstr := [34] ++ s ++ [34].

Definition parse_object (nm : jsstr) : parser ParsedObject :=
  magic ← bytes 4;
  if negb (bool_decide (magic = WASM_MAGIC))
  then pfail EError (js "Invalid wasm magic in " ++ quoted nm)
  else
    version ← bytes 4;
    if negb (bool_decide (version = WASM_VERSION))
    then pfail EError (js "Unsupported wasm version in " ++ quoted nm)
    else data ← get_data; sections_loop (S (length data)) (empty_object nm).

Definition parseObject (nm : jsstr) (bs : list Z) : result ParsedObject :=
  fst <$> parse_object nm bs 0.
End sections.

(** * The parser contract *)

Definition reads {A} (p : parser A) (bs : list Z) (a : A) : Prop :=
  ∀ pre suf, p (pre ++ bs ++ suf) (Z.of_nat (length pre))
             = Ok (a, Z.of_nat (length pre) + Z.of_nat (length bs)).

Section reads.
Import ByteReader.

Lemma reads_ret {A} (a : A) : reads (mret a) [] a.
Proof. intros pre suf. simpl. by rewrite Z.add_0_r. Qed.

Lemma reads_bind {A B} (p : parser A) (f : A → parser B) b1 b2 a b :
  reads p b1 a → reads (f a) b2 b → reads (p ≫= f) (b1 ++ b2) b.
Proof.
  intros H1 H2 pre suf. unfold mbind, parser_bind.
  rewrite <- (app_assoc b1), H1. specialize (H2 (pre ++ b1) suf).
  rewrite length_app, <- !app_assoc, Nat2Z.inj_add in H2. rewrite H2.
  rewrite length_app, Nat2Z.inj_add. do 2 f_equal. lia.
Qed.

Lemma reads_eq {A} (p : parser A) b1 b2 a a' : reads p b1 a → b1 = b2 → a = a' → reads p b2 a'.
Proof. by intros ? -> ->. Qed.

Lemma byte_at data pos b :
  data !! Z.to_nat pos = Some b → 0 ≤ pos → byte data pos = Ok (b, pos + 1).
Proof.
  intros Hb Hp. unfold byte. pose proof (lookup_lt_Some _ _ _ Hb).
  destruct (Z.leb_spec (Z.of_nat (length data)) pos); [lia|]. by rewrite Hb.
Qed.

Lemma reads_byte b : reads byte [b] b.
Proof.
  intros pre suf. erewrite byte_at; [done| |lia].
  rewrite Nat2Z.id. by apply list_lookup_middle.
Qed.

Lemma reads_bytes bs n : n = Z.of_nat (length bs) → reads (bytes n) bs bs.
Proof.
  intros -> pre suf. unfold bytes. rewrite !length_app.
  destruct (Z.ltb_spec (Z.of_nat (length pre + (length bs + length suf)))
              (Z.of_nat (length pre) + Z.of_nat (length bs))); [lia|].
  do 2 f_equal. unfold slice.
  replace (Z.to_nat _) with (length bs) by lia. rewrite Nat2Z.id, drop_app_length.
  by rewrite take_app_length.
Qed.

Lemma has_flag_80 b : 0 ≤ b < 256 → has_flag b 0x80 = (128 <=? b).
Proof.
  intros Hb. unfold has_flag. change 0x80 with (2 ^ 7).
  rewrite js_and_bit, Z.testbit_eqb by lia.
  change (2 ^ 7) with 128. rewrite negb_involutive.
  destruct (Z.leb_spec 128 b).
  - by replace (b / 128) with 1 by (apply (Z.div_unique _ _ _ (b - 128)); lia).
  - by rewrite Z.div_small by lia.
Qed.

Lemma has_flag_40 g : is_group g → has_flag g 0x40 = negb (g <? 64).
Proof.
  intros Hg. unfold has_flag, is_group in *. f_equal.
  pose proof (js_and_40 g) as E. by rewrite Z.mod_small in E.
Qed.

(** The accumulation loop over the groups of a LEB128 number. *)
Lemma leb_loop_cont gs g fuel r shift pre suf :
  Forall is_group (gs ++ [g]) → 0 ≤ shift → shift + 7 * Z.of_nat (length gs) < 32 →
  0 ≤ r < 2 ^ shift → (length (gs ++ [g]) ≤ fuel)%nat →
  leb_loop fuel (to_int32 r) shift (pre ++ cont (gs ++ [g]) ++ suf) (Z.of_nat (length pre))
  = Ok ((to_int32 (r + gval (gs ++ [g]) * 2 ^ shift),
         shift + 7 * Z.of_nat (length (gs ++ [g])), g),
        Z.of_nat (length pre) + Z.of_nat (length (gs ++ [g]))).
Proof.
  revert fuel r shift pre. induction gs as [|h gs IH];
    intros fuel r shift pre Hg Hs Hb Hr Hf; (destruct fuel; [simpl in Hf; lia|]);
    cbn [leb_loop]; unfold mbind, parser_bind.
  - apply Forall_cons in Hg as [Hg _]. unfold is_group in Hg. cbn [app cont].
    pose proof (reads_byte g pre suf) as Hrd. cbn [app] in Hrd. rewrite Hrd.
    rewrite has_flag_80 by lia. destruct (Z.leb_spec 128 g); [lia|].
    cbn -[Z.add Z.mul Z.pow]. rewrite js_and_7f, (Z.mod_small g) by lia.
    cbn [length] in Hb. rewrite js_or_shl by lia.
    replace (g + 128 * 0) with g by lia. done.
  - apply Forall_cons in Hg as [Hh Hg]. unfold is_group in Hh.
    cbn [app length] in *. rewrite cont_cons by (by destruct gs). cbn [app].
    pose proof (reads_byte (h + 128) pre (cont (gs ++ [g]) ++ suf)) as Hrd.
    cbn [app] in Hrd. rewrite Hrd.
    rewrite has_flag_80 by lia. destruct (Z.leb_spec 128 (h + 128)); [|lia].
    cbn -[Z.add Z.mul Z.pow]. rewrite js_and_7f.
    replace ((h + 128) mod 128) with h
      by (apply (Z.mod_unique _ _ 1); lia).
    rewrite js_or_shl by lia.
    specialize (IH fuel (r + h * 2 ^ shift) (shift + 7) (pre ++ [h + 128])).
    replace (Z.of_nat (length (pre ++ [h + 128]))) with (Z.of_nat (length pre) + 1) in IH
      by (rewrite length_app; simpl; lia).
    rewrite <- app_assoc in IH. cbn [app length] in IH.
    assert (2 ^ (shift + 7) = 2 ^ shift * 128) as Hp by (rewrite Z.pow_add_r by lia; done).
    change (Z.of_nat 1) with 1. rewrite IH; [|done|lia|lia| |lia].
    + replace (r + h * 2 ^ shift + gval (gs ++ [g]) * 2 ^ (shift + 7))
        with (r + (h + 128 * gval (gs ++ [g])) * 2 ^ shift) by (rewrite Hp; ring).
      rewrite !Nat2Z.inj_succ.
      match goal with |- Ok (_, ?b, _, ?d) = Ok (_, ?b', _, ?d') =>
        replace b' with b by lia; by replace d' with d by lia end.
    + rewrite Hp. nia.
Qed.

Lemma reads_leb gs g :
  Forall is_group (gs ++ [g]) → (length (gs ++ [g]) ≤ 5)%nat →
  reads leb (cont (gs ++ [g]))
    (to_int32 (gval (gs ++ [g])), 7 * Z.of_nat (length (gs ++ [g])), g).
Proof.
  intros Hg Hl pre suf. unfold leb. rewrite length_app in Hl. simpl in Hl.
  pose proof (leb_loop_cont gs g (S (length (pre ++ cont (gs ++ [g]) ++ suf))) 0 0 pre suf) as H.
  change (to_int32 0) with 0 in H. rewrite H; [|done|lia|lia|simpl; lia|].
  - rewrite length_cont. do 3 f_equal. f_equal. f_equal. change (2 ^ 0) with 1. lia.
  - rewrite !length_app, length_cont, length_app. simpl. lia.
Qed.

Lemma reads_u32 v : 0 ≤ v < 2 ^ 32 → reads u32 (uleb32 v) v.
Proof.
  intros Hv. unfold uleb32.
  destruct (uleb_groups 5 v) as (gs & -> & Hne & Hl & Hg & Hval);
    [change (7 * Z.of_nat 5) with 35; lia|lia|].
  destruct (exists_last Hne) as (gs' & g & ->).
  eapply reads_eq; [eapply reads_bind; [by apply reads_leb|apply reads_ret]|by rewrite app_nil_r|].
  simpl. rewrite Hval. unfold js_shru. rewrite Z.mod_0_l, Z.shiftr_0_r by lia.
  rewrite to_uint32_int32. by apply to_uint32_small.
Qed.

(** The sign extension after the loop. *)
Lemma sign_extend_groups v g n gv :
  - 2 ^ 31 ≤ v < 2 ^ 31 → (n ≤ 5)%nat → is_group g → 0 ≤ gv < 2 ^ (7 * Z.of_nat n) →
  v = gv - (if g <? 64 then 0 else 2 ^ (7 * Z.of_nat n)) →
  (if (7 * Z.of_nat n <? 32) && negb (g <? 64)
   then to_int32 gv .| - (1 .<< (7 * Z.of_nat n)) else to_int32 gv) = v.
Proof.
  intros Hv Hn Hg Hgv Hval. destruct (g <? 64); simpl.
  { rewrite andb_false_r, to_int32_small; lia. }
  rewrite andb_true_r. destruct (Z.ltb_spec (7 * Z.of_nat n) 32) as [Hlt|Hge].
  - assert (2 ^ (7 * Z.of_nat n) ≤ 2 ^ 28) by (apply Z.pow_le_mono_r; lia).
    rewrite js_shl_spec, Z.mul_1_l by lia. unfold js_or.
    rewrite !(to_int32_small (2 ^ _)), !(to_int32_small gv), to_int32_small by lia.
    replace (- 2 ^ (7 * Z.of_nat n)) with ((-1) * 2 ^ (7 * Z.of_nat n)) by lia.
    rewrite lor_disjoint by lia. lia.
  - assert (n = 5%nat) as -> by lia. change (2 ^ (7 * Z.of_nat 5)) with (2 ^ 32 * 8) in *.
    rewrite <- (to_int32_small v Hv). apply to_int32_eq_mod. rewrite Hval.
    rewrite <- (Z_mod_plus_full gv (-8) (2 ^ 32)). f_equal.
Qed.

Lemma reads_i32 v : - 2 ^ 31 ≤ v < 2 ^ 31 → reads i32 (sleb32 v) v.
Proof.
  intros Hv. unfold sleb32.
  destruct (sleb_groups 5 v) as (gs & g & -> & Hl & Hg & Hval);
    [change (7 * Z.of_nat 5 - 1) with 34; lia|lia|].
  eapply reads_eq; [eapply reads_bind; [by apply reads_leb|apply reads_ret]|by rewrite app_nil_r|].
  pose proof (gval_range _ Hg) as Hr.
  cbn -[Z.mul Z.add Z.of_nat]. apply Forall_app in Hg as [_ Hg].
  apply Forall_cons in Hg as [Hg _]. unfold is_group in Hg.
  rewrite has_flag_40 by done. remember (gs ++ [g]) as l eqn:El. clear El.
  by apply sign_extend_groups.
Qed.


Lemma reads_name {C : TextCodec} {ok} `{!TextCodecLaws C ok} s : ok s → Z.of_nat (length (utf8_encode s)) < 2 ^ 32 →
  reads name (uleb32 (Z.of_nat (length (utf8_encode s))) ++ utf8_encode s) s.
Proof.
  intros Hs Hl. apply (reads_bind _ _ _ _ (Z.of_nat (length (utf8_encode s)))).
  { apply reads_u32. lia. }
  eapply reads_eq; [eapply reads_bind; [by apply reads_bytes|apply reads_ret]
                   |by rewrite app_nil_r|by apply codec_roundtrip].
Qed.

Lemma reads_ploop {A S} (l : list A) (body : S → parser S) (out : A → list Z)
    (step : S → A → S) s :
  (∀ x t, x ∈ l → reads (body t) (out x) (step t x)) →
  reads (ploop (length l) body s) (l ≫= out) (foldl step s l).
Proof.
  revert s. induction l as [|x l IH]; intros s Hb; [apply reads_ret|].
  simpl. apply (reads_bind _ _ _ _ (step s x)); [apply Hb; left|].
  apply IH. intros y t Hy. apply Hb. by right.
Qed.

(** A loop that collects its items. *)
Lemma reads_collect {A} (l : list A) (item : list A → parser (list A)) (out : A → list Z) :
  (∀ x acc, x ∈ l → reads (item acc) (out x) (acc ++ [x])) →
  reads (ploop (length l) item []) (l ≫= out) l.
Proof.
  intros Hi. eapply reads_eq; [by apply (reads_ploop l item out (λ t x, t ++ [x]))|done|].
  by rewrite foldl_snoc.
Qed.

Lemma reads_counted {A} (l : list A) body (out : A → list Z) (step : ParsedObject → A → ParsedObject) o :
  Z.of_nat (length l) < 2 ^ 32 →
  (∀ x t, x ∈ l → reads (body t) (out x) (step t x)) →
  reads (counted body o) (uleb32 (Z.of_nat (length l)) ++ (l ≫= out)) (foldl step o l).
Proof.
  intros Hl Hb. apply (reads_bind _ _ _ _ (Z.of_nat (length l))); [apply reads_u32; lia|].
  rewrite Nat2Z.id. by apply reads_ploop.
Qed.

Lemma reads_byte_vec l : Z.of_nat (length l) < 2 ^ 32 →
  reads byte_vec (uleb32 (Z.of_nat (length l)) ++ l) l.
Proof.
  intros Hl. apply (reads_bind _ _ _ _ (Z.of_nat (length l))); [apply reads_u32; lia|].
  rewrite Nat2Z.id. eapply reads_eq; [apply (reads_collect l _ (λ b, [b]))| |done].
  - intros b acc _. eapply reads_eq; [eapply reads_bind; [apply reads_byte|apply reads_ret]
      |done|done].
  - by rewrite bind_singleton.
Qed.
End reads.

(** * Termination: no loop of the reader runs out of fuel *)

(** [p] moves the cursor forward, or throws. *)
Definition advances {A} (p : parser A) : Prop :=
  ∀ data pos, 0 ≤ pos →
    match p data pos with Ok (_, pos') => pos ≤ pos' | Err e => e ≠ OutOfFuel end.

(** [p] moves the cursor forward by at least one byte of the file, or throws. *)
Definition consumes {A} (p : parser A) : Prop :=
  ∀ data pos, 0 ≤ pos →
    match p data pos with
    | Ok (_, pos') => pos < pos' ∧ pos < Z.of_nat (length data)
    | Err e => e ≠ OutOfFuel end.

Section termination.
Context `{TextCodec}.
Import ByteReader.

Lemma consumes_advances {A} (p : parser A) : consumes p → advances p.
Proof. intros Hc data pos Hp. specialize (Hc data pos Hp). destruct (p data pos) as [[? ?]|]; [lia|done]. Qed.

Lemma advances_ret {A} (a : A) : advances (mret a).
Proof. intros data pos Hp. simpl. lia. Qed.

Lemma advances_fail {A} k msg : advances (@pfail A k msg).
Proof. intros data pos Hp. done. Qed.

Lemma advances_get_pos : advances get_pos.
Proof. intros data pos Hp. simpl. lia. Qed.

Lemma advances_get_data : advances get_data.
Proof. intros data pos Hp. simpl. lia. Qed.

Lemma advances_bind {A B} (p : parser A) (f : A → parser B) :
  advances p → (∀ a, advances (f a)) → advances (p ≫= f).
Proof.
  intros Hp Hf data pos Hpos. unfold mbind, parser_bind. specialize (Hp data pos Hpos).
  destruct (p data pos) as [[a pos']|e]; [|done].
  specialize (Hf a data pos' ltac:(lia)). destruct (f a data pos') as [[? ?]|]; [lia|done].
Qed.

Lemma consumes_bind {A B} (p : parser A) (f : A → parser B) :
  consumes p → (∀ a, advances (f a)) → consumes (p ≫= f).
Proof.
  intros Hp Hf data pos Hpos. unfold mbind, parser_bind. specialize (Hp data pos Hpos).
  destruct (p data pos) as [[a pos']|e]; [|done].
  specialize (Hf a data pos' ltac:(lia)). destruct (f a data pos') as [[? ?]|]; [lia|done].
Qed.

Lemma consumes_byte : consumes byte.
Proof.
  intros data pos Hp. unfold byte. destruct (Z.leb_spec (Z.of_nat (length data)) pos); [done|].
  destruct (data !! Z.to_nat pos); [lia|done].
Qed.

(** The general shape of the fuelled loops: each turn consumes a byte. *)
Lemma leb_loop_consumes fuel : ∀ res shift data pos, 0 ≤ pos →
  Z.max 0 (Z.of_nat (length data) - pos) < Z.of_nat fuel →
  match leb_loop fuel res shift data pos with
  | Ok (_, pos') => pos < pos' ∧ pos < Z.of_nat (length data)
  | Err e => e ≠ OutOfFuel end.
Proof.
  induction fuel as [|f IH]; intros res shift data pos Hp Hf; simpl leb_loop.
  { lia. }
  unfold mbind, parser_bind. pose proof (consumes_byte data pos Hp) as Hb.
  destruct (byte data pos) as [[b pos']|e]; [|done].
  destruct (has_flag b 128); [|simpl; lia].
  specialize (IH (res .| ((b .& 127) .<< shift)) (shift + 7) data pos' ltac:(lia) ltac:(lia)).
  destruct (leb_loop f _ _ _ _) as [[? ?]|]; [lia|done].
Qed.

Lemma consumes_leb : consumes leb.
Proof. intros data pos Hp. unfold leb. apply leb_loop_consumes; [done|lia]. Qed.

Lemma consumes_map {A B} (p : parser A) (f : A → B) : consumes p → consumes (a ← p; mret (f a)).
Proof. intros Hp. apply consumes_bind; [done|]. intros a. apply advances_ret. Qed.

Lemma consumes_u32 : consumes u32.
Proof. apply consumes_map, consumes_leb. Qed.

Lemma consumes_i32 : consumes i32.
Proof.
  apply consumes_bind; [apply consumes_leb|]. intros [[res shift] b]. apply advances_ret.
Qed.

Lemma u32_nonneg data pos v pos' : u32 data pos = Ok (v, pos') → 0 ≤ v.
Proof.
  unfold u32, mbind, parser_bind. destruct (leb data pos) as [[a p]|]; [|done].
  simpl. intros [= <- _]. unfold js_shru. apply Z.shiftr_nonneg, to_uint32_range.
Qed.

Lemma advances_bytes n : 0 ≤ n → advances (bytes n).
Proof. intros Hn data pos Hp. unfold bytes. destruct (_ <? _); [done|lia]. Qed.

Lemma consumes_name : consumes name.
Proof.
  intros data pos Hp. unfold name, mbind, parser_bind at 1.
  pose proof (consumes_u32 data pos Hp) as Hc. pose proof (u32_nonneg data pos) as Hn.
  destruct (u32 data pos) as [[v p]|e]; [|done]. specialize (Hn v p eq_refl).
  unfold parser_bind. pose proof (advances_bytes v Hn data p ltac:(lia)) as Hb.
  destruct (bytes v data p) as [[? ?]|]; [simpl; lia|done].
Qed.

Lemma scan_end_consumes fuel : ∀ data pos, 0 ≤ pos →
  Z.max 0 (Z.of_nat (length data) - pos) < Z.of_nat fuel →
  match scan_end fuel data pos with
  | Ok (_, pos') => pos < pos' ∧ pos < Z.of_nat (length data)
  | Err e => e ≠ OutOfFuel end.
Proof.
  induction fuel as [|f IH]; intros data pos Hp Hf; simpl scan_end.
  { lia. }
  unfold mbind, parser_bind. pose proof (consumes_byte data pos Hp) as Hb.
  destruct (byte data pos) as [[b pos']|e]; [|done].
  destruct (b =? 11); [simpl; lia|].
  specialize (IH data pos' ltac:(lia) ltac:(lia)).
  destruct (scan_end f _ _) as [[? ?]|]; [lia|done].
Qed.

Lemma advances_ploop {S} n (body : S → parser S) s :
  (∀ t, advances (body t)) → advances (ploop n body s).
Proof.
  intros Hb. revert s. induction n as [|n IH]; intros s; [apply advances_ret|].
  by apply advances_bind.
Qed.

Create HintDb adv.
Hint Resolve advances_ret advances_fail advances_get_pos advances_get_data
  consumes_advances consumes_byte consumes_u32 consumes_i32 consumes_name
  : adv.

Lemma advances_const_expr : advances const_expr.
Proof.
  intros data pos Hp. unfold const_expr. cbn -[scan_end slice].
  pose proof (scan_end_consumes (S (length data)) data pos Hp ltac:(lia)) as Hc.
  unfold mbind, parser_bind, get_pos, get_data.
  destruct (scan_end _ data pos) as [[? p]|]; [simpl; lia|done].
Qed.
Hint Resolve advances_const_expr : adv.

(** Case analysis on the tests of a parser body, then the library's rules. *)
Ltac adv :=
  repeat (intros || solve [eauto 3 with adv]
          || match goal with
             | |- advances (if ?b then _ else _) => destruct b
             | |- advances (match ?p with pair _ _ => _ end) => destruct p
             | |- advances (ploop _ _ _) => apply advances_ploop
             | |- advances (mbind _ _) => apply advances_bind
             end).

Lemma advances_counted body obj : (∀ o, advances (body o)) → advances (counted body obj).
Proof. intros. unfold counted. adv. Qed.

Lemma advances_byte_vec : advances byte_vec.
Proof. unfold byte_vec. adv. Qed.

Lemma advances_limits : advances limits.
Proof. unfold limits. adv. Qed.
Hint Resolve advances_counted advances_byte_vec advances_limits : adv.

Lemma advances_type_section o : advances (parseTypeSection o).
Proof. apply advances_counted. adv. Qed.
Lemma advances_import_section o : advances (parseImportSection o).
Proof. apply advances_counted. adv. Qed.
Lemma advances_function_section o : advances (parseFunctionSection o).
Proof. apply advances_counted. adv. Qed.
Lemma advances_table_section o : advances (parseTableSection o).
Proof. apply advances_counted. adv. Qed.
Lemma advances_memory_section o : advances (parseMemorySection o).
Proof. apply advances_counted. adv. Qed.
Lemma advances_global_section o : advances (parseGlobalSection o).
Proof. apply advances_counted. adv. Qed.
Lemma advances_export_section o : advances (parseExportSection o).
Proof. apply advances_counted. adv. Qed.
Lemma advances_tag_section o : advances (parseTagSection o).
Proof. apply advances_counted. adv. Qed.

(** The expression payload scans to [elemCount] end opcodes. *)
Lemma advances_exprs n (k : list Z → parser ElementEntry) :
  (∀ bs, advances (k bs)) →
  advances (start ← get_pos; data ← get_data;
            _ ← ploop n (λ _, scan_end (S (length data))) tt;
            stop ← get_pos; k (slice data start stop)).
Proof.
  intros Hk data pos Hp. unfold mbind, parser_bind, get_pos, get_data.
  assert (∀ q, 0 ≤ q → match ploop n (λ _ : (), scan_end (S (length data))) tt data q with
    | Ok (_, q') => q ≤ q' | Err e => e ≠ OutOfFuel end) as Hl.
  { induction n as [|n IH]; intros q Hq; cbn [ploop]; [simpl; lia|].
    unfold mbind, parser_bind.
    pose proof (scan_end_consumes (S (length data)) data q Hq ltac:(lia)) as Hc.
    destruct (scan_end _ data q) as [[[] q']|]; [|done].
    specialize (IH q' ltac:(lia)). destruct (ploop n _ tt data q') as [[? ?]|]; [lia|done]. }
  specialize (Hl pos Hp). destruct (ploop n _ tt data pos) as [[? q]|]; [|done].
  specialize (Hk (slice data pos q) data q ltac:(lia)).
  destruct (k _ data q) as [[? ?]|]; [lia|done].
Qed.

Lemma advances_element_section o : advances (parseElementSection o).
Proof.
  apply advances_counted. intros o'. apply advances_bind; [|adv]. unfold parseElementEntry.
  do 5 (apply advances_bind; [adv|intros]).
  destruct (usesExprs _); [|adv].
  apply (advances_exprs _ (λ bs, mret (mkElement _ _ _ [] _ _ (Some bs)))). adv.
Qed.

Lemma advances_code_section o : advances (parseCodeSection o).
Proof.
  apply advances_counted. intros o' data pos Hp. unfold mbind, parser_bind, get_pos, get_data, set_pos.
  pose proof (consumes_u32 data pos Hp) as Hu. pose proof (u32_nonneg data pos) as Hn.
  destruct (u32 data pos) as [[size p]|]; [|done]. specialize (Hn _ _ eq_refl).
  pose proof (consumes_u32 data p ltac:(lia)) as Hu2.
  destruct (u32 data p) as [[n p2]|]; [|done].
  assert (advances (ploop (Z.to_nat n) (λ l : list (Z * Z),
    lcount ← u32; ltype ← byte; mret (l ++ [(lcount, ltype)])) [])) as Hl by adv.
  specialize (Hl data p2 ltac:(lia)). unfold mbind, parser_bind in Hl.
  destruct (ploop _ _ _ data p2) as [[l p3]|]; [simpl; lia|done].
Qed.

Lemma consumes_symbol : consumes parseSymbol.
Proof. unfold parseSymbol. apply consumes_bind; [apply consumes_byte|]. adv. Qed.

Lemma advances_symbol_table o : advances (parseSymbolTable o).
Proof.
  apply advances_counted. intros. apply advances_bind; [|adv].
  apply consumes_advances, consumes_symbol.
Qed.

Lemma advances_reloc_section n o : advances (parseRelocSection n o).
Proof. unfold parseRelocSection, parseReloc. adv. Qed.

Lemma linking_loop_terminates fuel : ∀ stop obj data pos, 0 ≤ pos →
  Z.max 0 (Z.of_nat (length data) - pos) < Z.of_nat fuel →
  linking_loop fuel stop obj data pos ≠ Err OutOfFuel.
Proof.
  induction fuel as [|f IH]; intros stop obj data pos Hp Hf; [lia|]. cbn [linking_loop].
  unfold mbind, parser_bind, get_pos. destruct (pos <? stop); [|done].
  pose proof (consumes_byte data pos Hp) as Hb.
  destruct (byte data pos) as [[ty p1]|]; [|congruence].
  pose proof (consumes_u32 data p1 ltac:(lia)) as Hu. pose proof (u32_nonneg data p1) as Hn.
  destruct (u32 data p1) as [[size p2]|]; [|congruence]. specialize (Hn _ _ eq_refl).
  destruct (ty =? _).
  - pose proof (advances_symbol_table obj data p2 ltac:(lia)) as Ha.
    destruct (parseSymbolTable obj data p2) as [[o p3]|]; [|congruence]. apply IH; lia.
  - simpl. apply IH; lia.
Qed.

Lemma parseSection_terminates id stop obj data pos :
  0 ≤ pos → parseSection id stop obj data pos ≠ Err OutOfFuel.
Proof.
  intros Hp.
  assert (∀ p : parser ParsedObject, advances p → p data pos ≠ Err OutOfFuel) as Hadv.
  { intros p Ha. specialize (Ha data pos Hp). destruct (p data pos) as [|e]; congruence. }
  unfold parseSection.
  repeat match goal with |- (if ?b then _ else _) _ _ ≠ _ => destruct b end; try done;
    try solve [apply Hadv; auto using advances_type_section, advances_import_section,
      advances_function_section, advances_table_section, advances_memory_section,
      advances_global_section, advances_export_section, advances_tag_section,
      advances_element_section, advances_code_section].
  unfold parseCustomSection, mbind, parser_bind. cbn beta.
  pose proof (consumes_name data pos Hp) as Hn.
  destruct (name data pos) as [[s p]|]; [|congruence].
  repeat case_decide; [|pose proof (advances_reloc_section s obj data p ltac:(lia)) as Hr;
    by destruct (parseRelocSection s obj data p) as [|e]; [|congruence]|done].
  unfold parseLinkingSection, mbind, parser_bind.
  pose proof (consumes_u32 data p ltac:(lia)) as Hu.
  destruct (u32 data p) as [[v q]|]; [|congruence]. destruct (negb _); [done|].
  unfold get_data. apply linking_loop_terminates; lia.
Qed.

Lemma sections_loop_terminates fuel : ∀ obj data pos, 0 ≤ pos →
  Z.max 0 (Z.of_nat (length data) - pos) < Z.of_nat fuel →
  sections_loop fuel obj data pos ≠ Err OutOfFuel.
Proof.
  induction fuel as [|f IH]; intros obj data pos Hp Hf; [lia|]. cbn [sections_loop].
  unfold mbind, parser_bind, remaining, get_pos. destruct (_ <? _); [|done].
  pose proof (consumes_byte data pos Hp) as Hb.
  destruct (byte data pos) as [[id p1]|]; [|congruence].
  pose proof (consumes_u32 data p1 ltac:(lia)) as Hu. pose proof (u32_nonneg data p1) as Hn.
  destruct (u32 data p1) as [[size p2]|]; [|congruence]. specialize (Hn _ _ eq_refl).
  pose proof (parseSection_terminates id (p2 + size) obj data p2 ltac:(lia)) as Hs.
  destruct (parseSection _ _ _ data p2) as [[o p3]|]; [|congruence].
  destruct (Z.eqb_spec p3 (p2 + size)); simpl; apply IH; lia.
Qed.
End termination.

(** * Properties of the reader *)

(** Reading back what [WasmEncoder.u32] wrote gives the value and leaves
    the cursor right after it, for every 32-bit value and wherever the encoder
    stood. *)
Theorem u32_roundtrip v e :
  0 ≤ v < 2 ^ 32 → wf e →
  ∃ e', WasmEncoder.u32 v e = Ok e' ∧ wf e' ∧
    ByteReader.u32 (WasmEncoder.finish e') (Z.of_nat (length (WasmEncoder.finish e)))
    = Ok (v, Z.of_nat (length (WasmEncoder.finish e'))).
Proof.
  intros Hv He. destruct (emits_u32 v Hv e He) as (e' & Hok & He' & Hf).
  exists e'. split_and!; [done..|]. rewrite Hf.
  pose proof (reads_u32 v Hv (WasmEncoder.finish e) []) as Hr. rewrite app_nil_r in Hr.
  by rewrite Hr, length_app, Nat2Z.inj_add.
Qed.

Lemma u32_roundtrip_witness :
  ∃ e', WasmEncoder.u32 624485 WasmEncoder.new = Ok e' ∧ wf e' ∧
    ByteReader.u32 (WasmEncoder.finish e') 0 = Ok (624485, 3).
Proof.
  destruct (u32_roundtrip 624485 WasmEncoder.new) as (e' & H & Hw & Hr); [lia|apply wf_new|].
  exists e'. split; [exact H|]. split; [exact Hw|].
  vm_compute in H. injection H as <-. reflexivity.
Defined.

(** The same for signed LEB128 and every 32-bit signed value. *)
Theorem i32_roundtrip v e :
  - 2 ^ 31 ≤ v < 2 ^ 31 → wf e →
  ∃ e', WasmEncoder.i32 v e = Ok e' ∧ wf e' ∧
    ByteReader.i32 (WasmEncoder.finish e') (Z.of_nat (length (WasmEncoder.finish e)))
    = Ok (v, Z.of_nat (length (WasmEncoder.finish e'))).
Proof.
  intros Hv He. destruct (emits_i32 v Hv e He) as (e' & Hok & He' & Hf).
  exists e'. split_and!; [done..|]. rewrite Hf.
  pose proof (reads_i32 v Hv (WasmEncoder.finish e) []) as Hr. rewrite app_nil_r in Hr.
  by rewrite Hr, length_app, Nat2Z.inj_add.
Qed.

Lemma i32_roundtrip_witness :
  ∃ e', WasmEncoder.i32 (-123456) WasmEncoder.new = Ok e' ∧ wf e' ∧
    ByteReader.i32 (WasmEncoder.finish e') 0 = Ok (-123456, 3).
Proof.
  destruct (i32_roundtrip (-123456) WasmEncoder.new) as (e' & H & Hw & Hr); [lia|apply wf_new|].
  exists e'. split; [exact H|]. split; [exact Hw|].
  vm_compute in H. injection H as <-. reflexivity.
Defined.

(** On every input the reader comes to an end: it returns an object or
    throws, and none of its [while] loops spins. *)
Theorem parseObject_terminates `{TextCodec} nm bs : terminates (parseObject nm bs).
Proof.
  unfold terminates, parseObject, parse_object. unfold fmap, result_fmap, mbind, parser_bind.
  pose proof (advances_bytes 4 ltac:(lia) bs 0 ltac:(lia)) as H1.
  destruct (ByteReader.bytes 4 bs 0) as [[m p]|]; [|congruence]. destruct (negb _); [done|].
  pose proof (advances_bytes 4 ltac:(lia) bs p ltac:(lia)) as H2.
  destruct (ByteReader.bytes 4 bs p) as [[v q]|]; [|congruence]. destruct (negb _); [done|].
  unfold get_data.
  pose proof (sections_loop_terminates (S (length bs)) (empty_object nm) bs q ltac:(lia) ltac:(lia)).
  destruct (sections_loop _ _ bs q) as [[? ?]|]; congruence.
Qed.
