(* ===== verification/Resolver.v ===== *)
(** Cross-module symbol resolution, [src/link/resolver.ts].

    [resolveSymbols] builds the table of visible definitions, reports the names
    with more than one strong definition, and maps every named undefined symbol
    to a definition.  The [Map]s are association lists in insertion order, with
    the string keys the code builds. *)

From S2P Require Import Prelude Encoder ObjReader.

Record ResolvedSymbol := mkResolved {
  rs_targetModule : Z; rs_targetIndex : Z; rs_name : jsstr }.

Record Resolution := mkResolution {
  resolved : jsmap jsstr ResolvedSymbol;
  res_errors : list jsstr;
}.

Record DefinedSymbol := mkDefined {
  def_moduleIdx : Z; def_symbolIdx : Z; def_symbol : SymbolInfo }.

Definition colon : Z := 58.

(** [`${sym.kind}:${sym.name}`] *)
Definition symbol_key (s : SymbolInfo) : jsstr := js_num (sym_kind s) ++ [colon] ++ sym_name s.

(** [`${modIdx}:${symIdx}`] *)
Definition ref_key (modIdx symIdx : Z) : jsstr := js_num modIdx ++ [colon] ++ js_num symIdx.

Definition is_undefined (s : SymbolInfo) : bool := has_flag (sym_flags s) SYMBOL_UNDEFINED.
Definition is_local (s : SymbolInfo) : bool := has_flag (sym_flags s) SYMBOL_BINDING_LOCAL.
Definition is_weak (s : SymbolInfo) : bool := has_flag (sym_flags s) SYMBOL_BINDING_WEAK.
Definition is_named (s : SymbolInfo) : bool := negb (bool_decide (sym_name s = [])).

(** The symbols the other modules see. *)
Definition visible (s : SymbolInfo) : bool :=
  negb (is_undefined s) && negb (is_local s) && is_named s.

(** The symbols of all the modules with their indices, in the order of the
    two nested loops. *)
Definition all_symbols (objects : list ParsedObject) : list (Z * Z * SymbolInfo) :=
  concat (imap (λ m o, imap (λ i s, (Z.of_nat m, Z.of_nat i, s)) (po_symbols o)) objects).

Definition add_definition (m : jsmap jsstr (list DefinedSymbol)) (e : Z * Z * SymbolInfo)
  : jsmap jsstr (list DefinedSymbol) :=
  let '(modIdx, symIdx, sym) := e in
  if is_undefined sym then m
  else if is_local sym then m
  else if negb (is_named sym) then m
  else
    let key := symbol_key sym in
    let l := match jm_get m key with Some l => l | None => [] end in
    jm_set m key (l ++ [mkDefined modIdx symIdx sym]).

Definition definedSymbols (objects : list ParsedObject) : jsmap jsstr (list DefinedSymbol) :=
  foldl add_definition [] (all_symbols objects).

Definition strong (defs : list DefinedSymbol) : list DefinedSymbol :=
  filter (λ d, is_weak (def_symbol d) = false) defs.

(** [objects[i]!.name]; the indices are those of the loops, always in range. *)
Definition module_name (objects : list ParsedObject) (i : Z) : jsstr :=
  match objects !! Z.to_nat i with Some o => po_name o | None => [] end.

Definition duplicate_error (objects : list ParsedObject) (e : jsstr * list DefinedSymbol)
  : option jsstr :=
  let '(key, defs) := e in
  let strongDefs := strong defs in
  if bool_decide (1 < length strongDefs)%nat then
    let parts := split_on colon key in
    let kindStr := match parts with p :: _ => p | [] => [] end in
    let symbolName := join_with [colon] (tail parts) in
    let moduleNames := (λ d, module_name objects (def_moduleIdx d)) <$> strongDefs in
    Some (js "Duplicate symbol " ++ quoted symbolName ++ js " (kind " ++ kindStr
          ++ js ") defined in: " ++ join_with (js ", ") moduleNames)
  else None.

Definition unresolved_error (objects : list ParsedObject) (modIdx : Z) (s : SymbolInfo) : jsstr :=
  js "Unresolved symbol " ++ quoted (sym_name s) ++ js " (kind " ++ js_num (sym_kind s)
  ++ js ") in module " ++ quoted (module_name objects modIdx).

Definition choose (defs : list DefinedSymbol) : option DefinedSymbol :=
  match strong defs with d :: _ => Some d | [] => head defs end.

(** One turn of the resolution loop. *)
Definition resolve_one (objects : list ParsedObject) (table : jsmap jsstr (list DefinedSymbol))
    (r : Resolution) (e : Z * Z * SymbolInfo) : Resolution :=
  let '(modIdx, symIdx, sym) := e in
  if negb (is_undefined sym) then r
  else if negb (is_named sym) then r
  else
    let defs := match jm_get table (symbol_key sym) with Some l => l | None => [] end in
    match choose defs with
    | None => mkResolution (resolved r) (res_errors r ++ [unresolved_error objects modIdx sym])
    | Some d =>
        mkResolution
          (jm_set (resolved r) (ref_key modIdx symIdx)
             (mkResolved (def_moduleIdx d) (sym_index (def_symbol d)) (sym_name sym)))
          (res_errors r)
    end.

Definition resolveSymbols (objects : list ParsedObject) : Resolution :=
  let table := definedSymbols objects in
  let errors := omap (duplicate_error objects) table in
  foldl (resolve_one objects table) (mkResolution [] errors) (all_symbols objects).

(** * The keys determine what they were built from *)

Lemma js_num_no_colon z : colon ∉ js_num z.
Proof.
  intros Hc. pose proof (js_num_units z) as H. rewrite Forall_forall in H.
  specialize (H _ Hc). unfold num_unit, colon in H. lia.
Qed.

Lemma split_key z s : split_on colon (js_num z ++ [colon] ++ s) = js_num z :: split_on colon s.
Proof. apply split_on_app, js_num_no_colon. Qed.

Lemma key_inj z1 z2 s1 s2 :
  js_num z1 ++ [colon] ++ s1 = js_num z2 ++ [colon] ++ s2 → z1 = z2 ∧ s1 = s2.
Proof.
  intros H. apply (f_equal (split_on colon)) in H. rewrite !split_key in H.
  injection H as Hz Hs. split; [by apply (inj js_num)|].
  by rewrite <- (join_split colon s1), Hs, join_split.
Qed.

Lemma symbol_key_inj s1 s2 :
  symbol_key s1 = symbol_key s2 ↔ sym_kind s1 = sym_kind s2 ∧ sym_name s1 = sym_name s2.
Proof. unfold symbol_key. split; [apply key_inj|intros [-> ->]; done]. Qed.

Lemma ref_key_inj m1 i1 m2 i2 : ref_key m1 i1 = ref_key m2 i2 → m1 = m2 ∧ i1 = i2.
Proof. intros H. apply key_inj in H as [-> Hi]. split; [done|by apply (inj js_num)]. Qed.

(** * The table of definitions *)

(** The definitions a key stands for: the visible symbols with that key, in
    module and symbol order. *)
Definition defs_of (es : list (Z * Z * SymbolInfo)) (key : jsstr) : list DefinedSymbol :=
  omap (λ e, let '(m, i, s) := e in
             if visible s && bool_decide (symbol_key s = key)
             then Some (mkDefined m i s) else None) es.

(** What one symbol adds to the table. *)
Definition table_item (e : Z * Z * SymbolInfo) : option (jsstr * DefinedSymbol) :=
  let '(m, i, s) := e in
  if visible s then Some (symbol_key s, mkDefined m i s) else None.

Lemma definedSymbols_collect objs :
  definedSymbols objs = jm_collect table_item (all_symbols objs) [].
Proof.
  unfold definedSymbols. generalize (@nil (jsstr * list DefinedSymbol)) as t.
  induction (all_symbols objs) as [|[[m i] s] es IH]; intros t; [done|].
  unfold jm_collect. cbn [foldl]. rewrite IH. unfold jm_collect. f_equal.
  unfold add_definition, table_item, visible.
  by destruct (is_undefined s), (is_local s), (is_named s).
Qed.

Lemma defs_of_matches es key : defs_of es key = jm_matches table_item es key.
Proof.
  induction es as [|[[m i] s] es IH]; [done|].
  unfold defs_of, jm_matches in *. cbn [omap list_omap]. rewrite IH.
  unfold table_item. destruct (visible s); [|done]. simpl.
  case_decide; [by rewrite bool_decide_true|by rewrite bool_decide_false].
Qed.

Lemma definedSymbols_get objs key :
  jm_list (definedSymbols objs) key = defs_of (all_symbols objs) key.
Proof. by rewrite definedSymbols_collect, jm_collect_list, defs_of_matches. Qed.

Lemma elem_defs_of es key d :
  d ∈ defs_of es key ↔
  (def_moduleIdx d, def_symbolIdx d, def_symbol d) ∈ es ∧ visible (def_symbol d) = true
  ∧ symbol_key (def_symbol d) = key.
Proof.
  unfold defs_of. rewrite list_elem_of_omap. split.
  - intros ([[m i] s] & Hin & H). case_match eqn:E; [|done]. simplify_eq; simpl.
    apply andb_true_iff in E as [? ?%bool_decide_eq_true]. done.
  - intros (Hin & Hv & Hk). eexists. split; [exact Hin|]. simpl.
    rewrite Hv, bool_decide_true by done. by destruct d.
Qed.

Lemma elem_strong d defs : d ∈ strong defs ↔ d ∈ defs ∧ is_weak (def_symbol d) = false.
Proof. unfold strong. rewrite list_elem_of_filter. tauto. Qed.

Lemma choose_elem defs d : choose defs = Some d → d ∈ defs.
Proof.
  unfold choose. destruct (strong defs) as [|d' l] eqn:E; intros H.
  - destruct defs; simplify_eq/=. left.
  - simplify_eq. apply (elem_strong d). rewrite E. left.
Qed.

Lemma choose_strong defs d d' :
  choose defs = Some d → d' ∈ defs → is_weak (def_symbol d') = false →
  is_weak (def_symbol d) = false.
Proof.
  unfold choose. destruct (strong defs) as [|s l] eqn:E; intros H Hin Hw.
  - assert (d' ∈ strong defs) as Hs by (by apply elem_strong). rewrite E in Hs. set_solver.
  - simplify_eq. apply (elem_strong d defs). rewrite E. left.
Qed.

Lemma choose_None defs : choose defs = None ↔ defs = [].
Proof.
  unfold choose. destruct (strong defs) as [|s l] eqn:E.
  - destruct defs; done.
  - split; [done|]. intros ->. done.
Qed.

(** * The resolution loop *)

Definition wanted (s : SymbolInfo) : bool := is_undefined s && is_named s.

Definition target_of (objs : list ParsedObject) (s : SymbolInfo) : option DefinedSymbol :=
  choose (defs_of (all_symbols objs) (symbol_key s)).

Definition resolution_of (s : SymbolInfo) (d : DefinedSymbol) : ResolvedSymbol :=
  mkResolved (def_moduleIdx d) (sym_index (def_symbol d)) (sym_name s).

Lemma resolve_one_cases objs r m i s :
  resolve_one objs (definedSymbols objs) r (m, i, s) =
  if wanted s then
    match target_of objs s with
    | None => mkResolution (resolved r) (res_errors r ++ [unresolved_error objs m s])
    | Some d => mkResolution (jm_set (resolved r) (ref_key m i) (resolution_of s d)) (res_errors r)
    end
  else r.
Proof.
  unfold resolve_one, wanted, target_of. rewrite <- definedSymbols_get. unfold jm_list.
  by destruct (is_undefined s), (is_named s).
Qed.

Lemma resolve_fold objs es r m i :
  NoDup (fst <$> es) →
  jm_get (resolved (foldl (resolve_one objs (definedSymbols objs)) r es)) (ref_key m i)
  = match list_find (λ e, fst e = (m, i)) es with
    | Some (_, (_, s)) =>
        if wanted s then match target_of objs s with
                         | Some d => Some (resolution_of s d)
                         | None => jm_get (resolved r) (ref_key m i) end
        else jm_get (resolved r) (ref_key m i)
    | None => jm_get (resolved r) (ref_key m i)
    end.
Proof.
  revert r. induction es as [|[[m' i'] s] es IH]; intros r Hnd; [done|].
  apply NoDup_cons in Hnd as [Hni Hnd]. cbn [foldl]. rewrite IH by done. clear IH.
  rewrite resolve_one_cases. cbn [list_find].
  destruct (decide ((m', i', s).1 = (m, i))) as [Heq|Hne]; simpl in *.
  - simplify_eq.
    assert (list_find (λ e : Z * Z * SymbolInfo, e.1 = (m, i)) es = None) as ->.
    { apply list_find_None, Forall_forall. intros e He Heq. apply Hni.
      rewrite <- Heq. by apply list_elem_of_fmap_2. }
    destruct (wanted s); [|done]. destruct (target_of objs s); simpl; [apply jm_get_set_eq|done].
  - assert (jm_get (resolved (if wanted s then
        match target_of objs s with
        | Some d => mkResolution (jm_set (resolved r) (ref_key m' i') (resolution_of s d)) (res_errors r)
        | None => mkResolution (resolved r) (res_errors r ++ [unresolved_error objs m' s])
        end else r)) (ref_key m i) = jm_get (resolved r) (ref_key m i)) as ->.
    { destruct (wanted s); [|done]. destruct (target_of objs s); simpl; [|done].
      apply jm_get_set_ne. intros [-> ->]%ref_key_inj. done. }
    by destruct (list_find _ es) as [[? [? ?]]|].
Qed.

Lemma all_symbols_indices_aux (objs : list ParsedObject) k :
  NoDup (fst <$> concat (imap (λ m o, imap (λ i s, (Z.of_nat (k + m), Z.of_nat i, s)) (po_symbols o)) objs)).
Proof.
  revert k. induction objs as [|o objs IH]; intros k; [constructor|]. csimpl.
  rewrite fmap_app. apply list.NoDup_app. split_and!.
  - rewrite fmap_imap. apply NoDup_fmap_1 with (f := snd). rewrite fmap_imap.
    generalize (po_symbols o) as l. intros l. apply NoDup_alt.
    intros i j x Hi Hj. rewrite list_lookup_imap in Hi, Hj. simpl in *.
    destruct (l !! i), (l !! j); simplify_eq/=. lia.
  - intros x (e & -> & He)%list_elem_of_fmap (e' & Heq & He')%list_elem_of_fmap.
    apply elem_of_lookup_imap in He as (i & s & -> & _).
    apply list_elem_of_In, in_concat in He' as (l & Hl & He').
    apply list_elem_of_In, elem_of_lookup_imap in Hl as (m & o' & -> & _).
    apply list_elem_of_In, elem_of_lookup_imap in He' as (i' & s' & -> & _).
    simpl in Heq. injection Heq. lia.
  - erewrite (imap_ext _ (λ m o, imap (λ i s, (Z.of_nat (S k + m), Z.of_nat i, s)) (po_symbols o)));
      [apply (IH (S k))|].
    intros m o' _. simpl. apply imap_ext. intros. do 3 f_equal. lia.
Qed.

Lemma all_symbols_indices objs : NoDup (fst <$> all_symbols objs).
Proof. apply (all_symbols_indices_aux objs 0). Qed.

Lemma elem_all_symbols objs m i s :
  (m, i, s) ∈ all_symbols objs ↔
  ∃ m' i' o, m = Z.of_nat m' ∧ i = Z.of_nat i' ∧ objs !! m' = Some o ∧ po_symbols o !! i' = Some s.
Proof.
  unfold all_symbols. rewrite list_elem_of_In, in_concat. split.
  - intros (l & Hl & He). apply list_elem_of_In, elem_of_lookup_imap in Hl as (m' & o & -> & Ho).
    apply list_elem_of_In, elem_of_lookup_imap in He as (i' & s' & Heq & Hs). simplify_eq.
    by exists m', i', o.
  - intros (m' & i' & o & -> & -> & Ho & Hs).
    exists (imap (λ i s, (Z.of_nat m', Z.of_nat i, s)) (po_symbols o)).
    split; apply list_elem_of_In, elem_of_lookup_imap; eauto.
Qed.

Lemma find_symbol objs m i s :
  (m, i, s) ∈ all_symbols objs →
  ∃ k, list_find (λ e, fst e = (m, i)) (all_symbols objs) = Some (k, (m, i, s)).
Proof.
  intros Hin. pose proof (all_symbols_indices objs) as Hnd.
  destruct (list_find (λ e, fst e = (m, i)) (all_symbols objs)) as [[k e]|] eqn:E.
  - apply list_find_Some in E as (Hk & He & _). exists k.
    apply list_elem_of_lookup in Hin as [k' Hk'].
    assert (k = k') as ->.
    { eapply (NoDup_lookup _ k k' (m, i) Hnd); rewrite list_lookup_fmap.
      - rewrite Hk. simpl. by rewrite He.
      - by rewrite Hk'. }
    by simplify_eq.
  - apply list_find_None in E. rewrite Forall_forall in E. by destruct (E _ Hin).
Qed.

Lemma resolved_spec objs m i s :
  (m, i, s) ∈ all_symbols objs →
  jm_get (resolved (resolveSymbols objs)) (ref_key m i)
  = if wanted s then resolution_of s <$> target_of objs s else None.
Proof.
  intros Hin. unfold resolveSymbols. rewrite resolve_fold by apply all_symbols_indices.
  destruct (find_symbol objs m i s Hin) as [k ->]. simpl.
  destruct (wanted s); [|done]. by destruct (target_of objs s).
Qed.

Lemma errors_fold objs es r :
  res_errors (foldl (resolve_one objs (definedSymbols objs)) r es)
  = res_errors r ++ omap (λ e, let '(m, i, s) := e in
      if wanted s && bool_decide (target_of objs s = None)
      then Some (unresolved_error objs m s) else None) es.
Proof.
  revert r. induction es as [|[[m i] s] es IH]; intros r; [by rewrite app_nil_r|].
  cbn [foldl]. rewrite IH, resolve_one_cases. simpl.
  destruct (wanted s); simpl; [|done].
  destruct (target_of objs s); simpl; [done|]. by rewrite <- app_assoc.
Qed.

(** * The duplicate check *)

Definition def_ref (d : DefinedSymbol) : Z * Z := (def_moduleIdx d, def_symbolIdx d).

Lemma defs_of_refs es key : def_ref <$> defs_of es key `sublist_of` fst <$> es.
Proof.
  induction es as [|[[m i] s] es IH]; [done|]. unfold defs_of in *. cbn [omap list_omap].
  destruct (visible s && _); csimpl; [by apply sublist_skip|by apply sublist_cons].
Qed.

Lemma strong_refs es key :
  NoDup (fst <$> es) → NoDup (def_ref <$> strong (defs_of es key)).
Proof.
  intros Hnd. eapply sublist_NoDup; [exact Hnd|].
  etrans; [|apply (defs_of_refs es key)]. apply fmap_sublist, sublist_filter.
Qed.

Lemma table_entry objs key defs :
  (key, defs) ∈ definedSymbols objs → defs = defs_of (all_symbols objs) key.
Proof. rewrite definedSymbols_collect, defs_of_matches. apply jm_collect_entry. Qed.

Lemma table_entry_ex objs key :
  defs_of (all_symbols objs) key ≠ [] →
  (key, defs_of (all_symbols objs) key) ∈ definedSymbols objs.
Proof. rewrite definedSymbols_collect, defs_of_matches. apply jm_collect_entry_ex. Qed.

Lemma duplicate_error_spec objs s defs :
  duplicate_error objs (symbol_key s, defs)
  = if bool_decide (1 < length (strong defs))%nat
    then Some (js "Duplicate symbol " ++ quoted (sym_name s) ++ js " (kind "
               ++ js_num (sym_kind s) ++ js ") defined in: "
               ++ join_with (js ", ")
                    ((λ d, module_name objs (def_moduleIdx d)) <$> strong defs))
    else None.
Proof.
  unfold duplicate_error, symbol_key. rewrite split_key. cbn [tail].
  by rewrite join_split.
Qed.

(** Two different modules' symbols that both claim the same name. *)
Definition clash (e1 e2 : Z * Z * SymbolInfo) : Prop :=
  fst e1 ≠ fst e2 ∧
  (visible (snd e1) = true ∧ is_weak (snd e1) = false) ∧
  (visible (snd e2) = true ∧ is_weak (snd e2) = false) ∧
  symbol_key (snd e1) = symbol_key (snd e2).

Lemma duplicate_errors_nil objs :
  omap (duplicate_error objs) (definedSymbols objs) = [] ↔
  ∀ e1 e2, e1 ∈ all_symbols objs → e2 ∈ all_symbols objs → ¬ clash e1 e2.
Proof.
  split.
  - intros Hnil [[m1 i1] s1] [[m2 i2] s2] H1 H2 (Hne & (Hv1 & Hw1) & (Hv2 & Hw2) & Hk). simpl in *.
    set (defs := defs_of (all_symbols objs) (symbol_key s1)).
    assert (mkDefined m1 i1 s1 ∈ strong defs) as Hd1
      by (by apply elem_strong; split; [apply elem_defs_of|]).
    assert (mkDefined m2 i2 s2 ∈ strong defs) as Hd2
      by (by apply elem_strong; split; [apply elem_defs_of|]).
    assert (1 < length (strong defs))%nat as Hlen.
    { eapply two_elems; [exact Hd1|exact Hd2|]. intros Heq. by simplify_eq. }
    pose proof (duplicate_error_spec objs s1 defs) as Hspec.
    rewrite bool_decide_true in Hspec by done.
    eassert (_ ∈ omap (duplicate_error objs) (definedSymbols objs)) as Hin.
    { apply list_elem_of_omap. eexists. split; [|exact Hspec]. apply table_entry_ex.
      apply elem_strong in Hd1 as [Hd1 _]. fold defs. intros Heq. rewrite Heq in Hd1. by apply not_elem_of_nil in Hd1. }
    rewrite Hnil in Hin. by apply not_elem_of_nil in Hin.
  - intros Hno. destruct (omap _ _) as [|err l] eqn:E; [done|exfalso].
    assert (err ∈ omap (duplicate_error objs) (definedSymbols objs)) as Hin by (rewrite E; left).
    apply list_elem_of_omap in Hin as ([key defs] & Hin & Herr).
    pose proof (table_entry _ _ _ Hin) as ->. unfold duplicate_error in Herr. cbn zeta in Herr.
    case_bool_decide as Hlen; [|done].
    pose proof (strong_refs _ key (all_symbols_indices objs)) as Hnd.
    destruct (strong (defs_of (all_symbols objs) key)) as [|d1 [|d2 ds]] eqn:Es; simpl in Hlen; [lia|lia|].
    assert (d1 ∈ strong (defs_of (all_symbols objs) key)) as H1 by (rewrite Es; left).
    assert (d2 ∈ strong (defs_of (all_symbols objs) key)) as H2 by (rewrite Es; right; left).
    apply elem_strong in H1 as [(H1 & Hv1 & Hk1)%elem_defs_of Hw1].
    apply elem_strong in H2 as [(H2 & Hv2 & Hk2)%elem_defs_of Hw2].
    apply (Hno _ _ H1 H2). split; simpl; [|split_and!; congruence].
    apply NoDup_cons in Hnd as [Hnd _]. intros Heq. apply Hnd. csimpl.
    unfold def_ref. rewrite Heq. left.
Qed.

Lemma target_of_None objs s :
  target_of objs s = None ↔
  ¬ ∃ e, e ∈ all_symbols objs ∧ visible (snd e) = true ∧ symbol_key (snd e) = symbol_key s.
Proof.
  unfold target_of. rewrite choose_None. split.
  - intros Hnil ([[m i] d] & Hin & Hv & Hk).
    assert (mkDefined m i d ∈ defs_of (all_symbols objs) (symbol_key s)) as H
      by (by apply elem_defs_of).
    rewrite Hnil in H. set_solver.
  - intros Hno. destruct (defs_of _ _) as [|d l] eqn:E; [done|]. exfalso. apply Hno.
    assert (d ∈ defs_of (all_symbols objs) (symbol_key s)) as (Hin & Hv & Hk)%elem_defs_of
      by (rewrite E; left).
    by eexists.
Qed.

(** * Properties *)

(** C6: resolution is sound, complete and prefers strong definitions.  For the
    symbol [i] of module [m], [resolveSymbols] has an entry only when the symbol
    is a named undefined one; the entry then points to a visible definition of
    the same kind and the same name, which is weak only when every visible
    definition of that name is weak; and when it has no entry although the symbol
    is a named undefined one, no visible definition exists in any module and the
    error list has the message for it. *)
Theorem resolveSymbols_correct objs m i s :
  (m, i, s) ∈ all_symbols objs →
  match jm_get (resolved (resolveSymbols objs)) (ref_key m i) with
  | Some r =>
      wanted s = true ∧ rs_name r = sym_name s ∧
      ∃ i' d, (rs_targetModule r, i', d) ∈ all_symbols objs ∧ visible d = true
        ∧ rs_targetIndex r = sym_index d
        ∧ sym_kind d = sym_kind s ∧ sym_name d = sym_name s
        ∧ (is_weak d = true → ∀ e, e ∈ all_symbols objs → visible (snd e) = true →
             symbol_key (snd e) = symbol_key s → is_weak (snd e) = true)
  | None =>
      wanted s = true →
      (¬ ∃ e, e ∈ all_symbols objs ∧ visible (snd e) = true ∧ symbol_key (snd e) = symbol_key s)
      ∧ unresolved_error objs m s ∈ res_errors (resolveSymbols objs)
  end.
Proof.
  intros Hin. rewrite (resolved_spec objs m i s) by done.
  destruct (wanted s) eqn:Hw; [|done].
  destruct (target_of objs s) as [d|] eqn:Ht; simpl.
  - pose proof (choose_elem _ _ Ht) as (Hd & Hv & Hk)%elem_defs_of.
    split_and!; [done..|]. exists (def_symbolIdx d), (def_symbol d).
    pose proof Hk as [Hkind Hname]%symbol_key_inj.
    split_and!; try done. intros Hweak [[m' i'] s'] Hin' Hv' Hk'. simpl in *.
    destruct (is_weak s') eqn:Hs'; [done|]. exfalso.
    assert (is_weak (def_symbol d) = false) as H; [|congruence].
    apply (choose_strong _ _ (mkDefined m' i' s') Ht); [|done]. by apply elem_defs_of.
  - intros _. split; [by apply target_of_None|].
    unfold resolveSymbols. rewrite errors_fold. apply elem_of_app. right.
    apply list_elem_of_omap. exists (m, i, s). split; [done|].
    by rewrite Hw, Ht, bool_decide_true.
Qed.

(** The error list is exact.  [resolveSymbols] reports no error exactly when
    no two different visible strong symbols share kind and name and every named
    undefined symbol has a visible definition. *)
Theorem resolveSymbols_no_errors objs :
  res_errors (resolveSymbols objs) = [] ↔
  (∀ e1 e2, e1 ∈ all_symbols objs → e2 ∈ all_symbols objs → ¬ clash e1 e2) ∧
  (∀ e, e ∈ all_symbols objs → wanted (snd e) = true →
     ∃ d, d ∈ all_symbols objs ∧ visible (snd d) = true ∧ symbol_key (snd d) = symbol_key (snd e)).
Proof.
  unfold resolveSymbols. rewrite errors_fold. simpl. rewrite app_nil.
  rewrite duplicate_errors_nil. apply and_iff_compat_l. split.
  - intros Hnil [[m i] s] Hin Hw. simpl in *.
    destruct (target_of objs s) as [d|] eqn:Ht.
    + apply choose_elem, elem_defs_of in Ht as (Hd & Hv & Hk). by eexists.
    + exfalso. apply (not_elem_of_nil (unresolved_error objs m s)). rewrite <- Hnil.
      apply list_elem_of_omap. exists (m, i, s). split; [done|].
      by rewrite Hw, Ht, bool_decide_true.
  - intros Hall. destruct (omap _ _) as [|err l] eqn:E; [done|exfalso].
    pose proof (list_elem_of_here err l) as H. rewrite <- E in H.
    apply list_elem_of_omap in H as ([[m i] s] & Hin & Herr).
    destruct (wanted s) eqn:Hw; simpl in Herr; [|done].
    case_bool_decide as Ht; [|done]. apply target_of_None in Ht. by apply Ht, (Hall (m, i, s)).
Qed.

(** A module that defines [x] weakly, one that defines it strongly and one that
    needs it. *)
Definition sample_object (name : string) (syms : list SymbolInfo) : ParsedObject :=
  mkObject (js name) [] [] [] [] [] [] [] [] [] [] syms [].

Definition sample_objects : list ParsedObject :=
  [sample_object "a" [mkSymbol 0 (js "x") 3 SYMBOL_BINDING_WEAK];
   sample_object "b" [mkSymbol 0 (js "x") 5 0];
   sample_object "c" [mkSymbol 0 (js "x") 0 SYMBOL_UNDEFINED]].

Lemma resolveSymbols_correct_witness :
  jm_get (resolved (resolveSymbols sample_objects)) (ref_key 2 0)
    = Some (mkResolved 1 5 (js "x"))
  ∧ ∃ i' d, (1, i', d) ∈ all_symbols sample_objects ∧ is_weak d = false.
Proof.
  assert ((2, 0, mkSymbol 0 (js "x") 0 SYMBOL_UNDEFINED) ∈ all_symbols sample_objects) as Hin
    by (right; right; left).
  pose proof (resolveSymbols_correct _ _ _ _ Hin) as H.
  assert (jm_get (resolved (resolveSymbols sample_objects)) (ref_key 2 0)
    = Some (mkResolved 1 5 (js "x"))) as E by reflexivity.
  split; [exact E|]. rewrite E in H. destruct H as (_ & _ & i' & d & Hd & _ & _ & _ & _ & Hw).
  exists i', d. split; [exact Hd|]. destruct (is_weak d); [|reflexivity].
  discriminate (Hw eq_refl (1, 0, mkSymbol 0 (js "x") 5 0)
    (list_elem_of_further _ _ _ (list_elem_of_here _ _)) eq_refl eq_refl).
Defined.
