(* ===== verification/Isolation.v ===== *)
(** Isolation validation of linked modules, [src/link/isolation.ts].

    The five checks push violations on one list; [validateIsolation] runs them
    in order and turns the list into five flags.  An index outside [objects] is
    [undefined] there, and the use of its fields throws a TypeError. *)

From S2P Require Import Prelude Encoder ObjReader Resolver.

Record IsolationViolation := mkViolation {
  iv_property : jsstr; iv_module : jsstr; iv_targetModule : jsstr;
  iv_symbol : jsstr; iv_message : jsstr }.

Record IsolationReport := mkReport {
  ir_modules : list jsstr;
  ir_importExportOnly : bool;
  ir_noSharedGlobals : bool;
  ir_memoryIsolation : bool;
  ir_noPrivateFunctionAccess : bool;
  ir_tableIsolation : bool;
  ir_violations : list IsolationViolation;
}.

(** [objects[i]], whose fields the caller reads. *)
Definition object_at (objects : list ParsedObject) (i : Z) : result ParsedObject :=
  match (if i <? 0 then None else objects !! Z.to_nat i) with
  | Some o => Ok o
  | None => throw ETypeError (js "Cannot read properties of undefined")
  end.

Definition findDefinedSymbol (obj : ParsedObject) (name : jsstr) (kind : Z) : option SymbolInfo :=
  snd <$> list_find (λ s, sym_name s = name ∧ sym_kind s = kind
                          ∧ has_flag (sym_flags s) SYMBOL_UNDEFINED = false) (po_symbols obj).

Definition importExportOnly_message (name target sym : jsstr) : jsstr :=
  js "Module " ++ quoted name ++ js " references symbol " ++ quoted sym ++ js " in "
  ++ quoted target ++ js " which is not marked as exported".

(** The shape that checks 1 and 4 share is the source's: skip defined symbols,
    unresolved ones and those of the same module, then look at the target. *)
Definition checkImportExportOnly (objects : list ParsedObject) (resolution : Resolution)
    (violations : list IsolationViolation) : result (list IsolationViolation) :=
  for_each (all_symbols objects) (λ e vs,
    let '(modIdx, symIdx, sym) := e in
    if negb (has_flag (sym_flags sym) SYMBOL_UNDEFINED) then Ok vs
    else match jm_get (resolved resolution) (ref_key modIdx symIdx) with
    | None => Ok vs
    | Some target =>
      if rs_targetModule target =? modIdx then Ok vs
      else
        targetObj ← object_at objects (rs_targetModule target);
        match findDefinedSymbol targetObj (sym_name sym) (sym_kind sym) with
        | Some targetSym =>
            if negb (has_flag (sym_flags targetSym) SYMBOL_EXPORTED) then
              Ok (vs ++ [mkViolation (js "importExportOnly") (module_name objects modIdx)
                   (po_name targetObj) (sym_name sym)
                   (importExportOnly_message (module_name objects modIdx)
                      (po_name targetObj) (sym_name sym))])
            else Ok vs
        | None => Ok vs
        end
    end) violations.

(** The mutable global that a symbol of [obj] names, if it names one. *)
Definition exposed_mutable_global (obj : ParsedObject) (sym : SymbolInfo) : bool :=
  if negb (sym_kind sym =? SYMTAB_GLOBAL) then false
  else if has_flag (sym_flags sym) SYMBOL_UNDEFINED then false
  else if has_flag (sym_flags sym) SYMBOL_BINDING_LOCAL then false
  else if negb (is_named sym) then false
  else
    let numImportGlobals :=
      Z.of_nat (length (filter (λ imp, imp_kind imp = 3) (po_imports obj))) in
    let localGlobalIdx := sym_index sym - numImportGlobals in
    if (0 <=? localGlobalIdx) && (localGlobalIdx <? Z.of_nat (length (po_globals obj))) then
      match po_globals obj !! Z.to_nat localGlobalIdx with
      | Some globalDef => glb_mutable globalDef
      | None => false
      end
    else false.

Definition add_global_def (objects : list ParsedObject)
    (m : jsmap jsstr (list (Z * jsstr))) (e : Z * Z * SymbolInfo)
  : jsmap jsstr (list (Z * jsstr)) :=
  let '(modIdx, _, sym) := e in
  match objects !! Z.to_nat modIdx with
  | Some obj =>
      if exposed_mutable_global obj sym
      then jm_push m (sym_name sym) (modIdx, po_name obj) else m
  | None => m
  end.

Definition sharedGlobals_message (name m1 m2 : jsstr) : jsstr :=
  js "Mutable global " ++ quoted name ++ js " defined in both " ++ quoted m1
  ++ js " and " ++ quoted m2.

(** The pairs [i < j] of a list, in the order of the nested loops. *)
Fixpoint pairs {A} (l : list A) : list (A * A) :=
  match l with [] => [] | x :: l' => ((λ y, (x, y)) <$> l') ++ pairs l' end.

Definition shared_violations (e : jsstr * list (Z * jsstr)) : list IsolationViolation :=
  let '(name, defs) := e in
  if bool_decide (1 < length defs)%nat then
    (λ p, let '((_, m1), (_, m2)) := p in
          mkViolation (js "noSharedGlobals") m1 m2 name (sharedGlobals_message name m1 m2))
    <$> pairs defs
  else [].

Definition globalDefs (objects : list ParsedObject) : jsmap jsstr (list (Z * jsstr)) :=
  foldl (add_global_def objects) [] (all_symbols objects).

Definition checkNoSharedGlobals (objects : list ParsedObject)
    (violations : list IsolationViolation) : result (list IsolationViolation) :=
  for_each (globalDefs objects) (λ e vs, Ok (vs ++ shared_violations e)) violations.

Definition memory_message (name : jsstr) (n : Z) : jsstr :=
  js "Module " ++ quoted name ++ js " defines " ++ js_num n
  ++ js " memories; expected at most 1".

Definition checkMemoryIsolation (objects : list ParsedObject)
    (violations : list IsolationViolation) : result (list IsolationViolation) :=
  for_each objects (λ obj vs,
    let n := Z.of_nat (length (po_memories obj)) in
    if 1 <? n then
      Ok (vs ++ [mkViolation (js "memoryIsolation") (po_name obj) (po_name obj) (js "<memory>")
                   (memory_message (po_name obj) n)])
    else Ok vs) violations.

Definition private_message (name target sym : jsstr) : jsstr :=
  js "Module " ++ quoted name ++ js " accesses private (local-binding) symbol " ++ quoted sym
  ++ js " in " ++ quoted target.

Definition checkNoPrivateFunctionAccess (objects : list ParsedObject) (resolution : Resolution)
    (violations : list IsolationViolation) : result (list IsolationViolation) :=
  for_each (all_symbols objects) (λ e vs,
    let '(modIdx, symIdx, sym) := e in
    if negb (has_flag (sym_flags sym) SYMBOL_UNDEFINED) then Ok vs
    else match jm_get (resolved resolution) (ref_key modIdx symIdx) with
    | None => Ok vs
    | Some target =>
      if rs_targetModule target =? modIdx then Ok vs
      else
        targetObj ← object_at objects (rs_targetModule target);
        match findDefinedSymbol targetObj (sym_name sym) (sym_kind sym) with
        | Some targetSym =>
            if has_flag (sym_flags targetSym) SYMBOL_BINDING_LOCAL then
              Ok (vs ++ [mkViolation (js "noPrivateFunctionAccess") (module_name objects modIdx)
                   (po_name targetObj) (sym_name sym)
                   (private_message (module_name objects modIdx)
                      (po_name targetObj) (sym_name sym))])
            else Ok vs
        | None => Ok vs
        end
    end) violations.

Definition is_table_reloc (t : Z) : bool :=
  (t =? R_WASM_TABLE_NUMBER_LEB) || (t =? R_WASM_TABLE_INDEX_SLEB)
  || (t =? R_WASM_TABLE_INDEX_I32) || (t =? R_WASM_TABLE_INDEX_LEB).

(** The relocations of all the modules, in the order of the three loops. *)
Definition all_relocs (objects : list ParsedObject) : list (Z * ParsedObject * RelocEntry) :=
  concat (imap (λ m o, concat ((λ e : jsstr * list RelocEntry,
                                  (λ r, (Z.of_nat m, o, r)) <$> snd e) <$> po_relocations o))
            objects).

Definition table_message (name target : jsstr) : jsstr :=
  js "Module " ++ quoted name ++ js " references table in " ++ quoted target.

Definition table_symbol (sym : SymbolInfo) : jsstr :=
  if is_named sym then sym_name sym else js "<table:" ++ js_num (sym_index sym) ++ js ">".

(** [obj.symbols[i]] for an index below the length; relocation indices come
    from a u32, so they are not negative. *)
Definition reloc_symbol (obj : ParsedObject) (i : Z) : option SymbolInfo :=
  if i <? Z.of_nat (length (po_symbols obj)) then po_symbols obj !! Z.to_nat i else None.

Definition checkTableIsolation (objects : list ParsedObject) (resolution : Resolution)
    (violations : list IsolationViolation) : result (list IsolationViolation) :=
  for_each (all_relocs objects) (λ e vs,
    let '(modIdx, obj, reloc) := e in
    if is_table_reloc (rel_type reloc) then
      match reloc_symbol obj (rel_symbolIndex reloc) with
      | Some sym =>
        if has_flag (sym_flags sym) SYMBOL_UNDEFINED then
          match jm_get (resolved resolution) (ref_key modIdx (rel_symbolIndex reloc)) with
          | Some target =>
            if negb (rs_targetModule target =? modIdx) then
              targetObj ← object_at objects (rs_targetModule target);
              Ok (vs ++ [mkViolation (js "tableIsolation") (po_name obj) (po_name targetObj)
                           (table_symbol sym) (table_message (po_name obj) (po_name targetObj))])
            else Ok vs
          | None => Ok vs
          end
        else Ok vs
      | None => Ok vs
      end
    else Ok vs) violations.

(** [!violations.some((v) => v.property === p)] *)
Definition holds (p : string) (violations : list IsolationViolation) : bool :=
  negb (existsb (λ v, bool_decide (iv_property v = js p)) violations).

Definition validateIsolation (objects : list ParsedObject) (resolution : Resolution)
  : result IsolationReport :=
  let modules := po_name <$> objects in
  violations ← checkImportExportOnly objects resolution [];
  violations ← checkNoSharedGlobals objects violations;
  violations ← checkMemoryIsolation objects violations;
  violations ← checkNoPrivateFunctionAccess objects resolution violations;
  violations ← checkTableIsolation objects resolution violations;
  Ok (mkReport modules
        (holds "importExportOnly" violations)
        (holds "noSharedGlobals" violations)
        (holds "memoryIsolation" violations)
        (holds "noPrivateFunctionAccess" violations)
        (holds "tableIsolation" violations)
        violations).

(** * What each check pushes *)

(** The symbol in another module that a reference resolves to. *)
Definition cross_target (objs : list ParsedObject) (res : Resolution) (e : Z * Z * SymbolInfo)
  : option (ParsedObject * SymbolInfo) :=
  let '(m, i, s) := e in
  if has_flag (sym_flags s) SYMBOL_UNDEFINED then
    t ← jm_get (resolved res) (ref_key m i);
    if rs_targetModule t =? m then None
    else o ← objs !! Z.to_nat (rs_targetModule t);
         ts ← findDefinedSymbol o (sym_name s) (sym_kind s);
         Some (o, ts)
  else None.

Definition import_violations objs res (e : Z * Z * SymbolInfo) : list IsolationViolation :=
  match cross_target objs res e with
  | Some (o, ts) =>
      if negb (has_flag (sym_flags ts) SYMBOL_EXPORTED) then
        [mkViolation (js "importExportOnly") (module_name objs e.1.1) (po_name o) (sym_name e.2)
           (importExportOnly_message (module_name objs e.1.1) (po_name o) (sym_name e.2))]
      else []
  | None => []
  end.

Definition private_violations objs res (e : Z * Z * SymbolInfo) : list IsolationViolation :=
  match cross_target objs res e with
  | Some (o, ts) =>
      if has_flag (sym_flags ts) SYMBOL_BINDING_LOCAL then
        [mkViolation (js "noPrivateFunctionAccess") (module_name objs e.1.1) (po_name o)
           (sym_name e.2) (private_message (module_name objs e.1.1) (po_name o) (sym_name e.2))]
      else []
  | None => []
  end.

Definition memory_violations (o : ParsedObject) : list IsolationViolation :=
  let n := Z.of_nat (length (po_memories o)) in
  if 1 <? n then [mkViolation (js "memoryIsolation") (po_name o) (po_name o) (js "<memory>")
                    (memory_message (po_name o) n)]
  else [].

(** The module, other than its own, whose table a relocation refers to. *)
Definition cross_table (objs : list ParsedObject) (res : Resolution)
    (e : Z * ParsedObject * RelocEntry) : option (ParsedObject * SymbolInfo) :=
  let '(m, o, r) := e in
  if is_table_reloc (rel_type r) then
    s ← reloc_symbol o (rel_symbolIndex r);
    if has_flag (sym_flags s) SYMBOL_UNDEFINED then
      t ← jm_get (resolved res) (ref_key m (rel_symbolIndex r));
      if negb (rs_targetModule t =? m)
      then to ← objs !! Z.to_nat (rs_targetModule t); Some (to, s)
      else None
    else None
  else None.

Definition table_violations objs res (e : Z * ParsedObject * RelocEntry)
  : list IsolationViolation :=
  match cross_table objs res e with
  | Some (to, s) =>
      [mkViolation (js "tableIsolation") (po_name e.1.2) (po_name to) (table_symbol s)
         (table_message (po_name e.1.2) (po_name to))]
  | None => []
  end.

Section checks.
Context (objs : list ParsedObject) (res : Resolution).

(** Every target is one of the modules: what [resolveSymbols] guarantees. *)
Context (Hrange : ∀ m i t, jm_get (resolved res) (ref_key m i) = Some t →
  0 ≤ rs_targetModule t < Z.of_nat (length objs)).

Lemma target_object m i t :
  jm_get (resolved res) (ref_key m i) = Some t →
  ∃ o, objs !! Z.to_nat (rs_targetModule t) = Some o ∧ object_at objs (rs_targetModule t) = Ok o.
Proof.
  intros Ht. apply Hrange in Ht as [Hlo Hhi].
  destruct (lookup_lt_is_Some_2 objs (Z.to_nat (rs_targetModule t))) as [o Ho]; [lia|].
  exists o. split; [done|]. unfold object_at.
  destruct (Z.ltb_spec (rs_targetModule t) 0); [lia|]. by rewrite Ho.
Qed.

(** The shape of checks 1 and 4, once the lookups are resolved. *)
Local Ltac check_ref :=
  intros [[m i] s] acc _; unfold import_violations, private_violations, cross_target;
  destruct (has_flag (sym_flags s) SYMBOL_UNDEFINED); simpl; [|by rewrite app_nil_r];
  destruct (jm_get (resolved res) (ref_key m i)) as [t|] eqn:Et; simpl; [|by rewrite app_nil_r];
  destruct (rs_targetModule t =? m); simpl; [by rewrite app_nil_r|];
  destruct (target_object m i t Et) as (o & -> & ->); simpl;
  destruct (findDefinedSymbol o (sym_name s) (sym_kind s)); simpl; [|by rewrite app_nil_r];
  destruct (has_flag _ _); simpl; by rewrite ?app_nil_r.

Lemma checkImportExportOnly_eq vs :
  checkImportExportOnly objs res vs
  = Ok (vs ++ concat (import_violations objs res <$> all_symbols objs)).
Proof. apply for_each_collect. check_ref. Qed.

Lemma checkNoPrivateFunctionAccess_eq vs :
  checkNoPrivateFunctionAccess objs res vs
  = Ok (vs ++ concat (private_violations objs res <$> all_symbols objs)).
Proof. apply for_each_collect. check_ref. Qed.

Lemma checkNoSharedGlobals_eq vs :
  checkNoSharedGlobals objs vs = Ok (vs ++ concat (shared_violations <$> globalDefs objs)).
Proof. by apply for_each_collect. Qed.

Lemma checkMemoryIsolation_eq vs :
  checkMemoryIsolation objs vs = Ok (vs ++ concat (memory_violations <$> objs)).
Proof.
  apply for_each_collect. intros o acc _. unfold memory_violations. cbn zeta.
  destruct (_ <? _); by rewrite ?app_nil_r.
Qed.

Lemma checkTableIsolation_eq vs :
  checkTableIsolation objs res vs
  = Ok (vs ++ concat (table_violations objs res <$> all_relocs objs)).
Proof.
  apply for_each_collect. intros [[m o] r] acc _. unfold table_violations, cross_table.
  destruct (is_table_reloc _); simpl; [|by rewrite app_nil_r].
  destruct (reloc_symbol o _) as [s|]; simpl; [|by rewrite app_nil_r].
  destruct (has_flag _ _); simpl; [|by rewrite app_nil_r].
  destruct (jm_get (resolved res) _) as [t|] eqn:Et; simpl; [|by rewrite app_nil_r].
  destruct (rs_targetModule t =? m); simpl; [by rewrite app_nil_r|].
  by destruct (target_object _ _ _ Et) as (o' & -> & ->).
Qed.
End checks.

(** * The flags *)

Definition labelled (p : string) (vs : list IsolationViolation) : Prop :=
  ∀ v, v ∈ vs → iv_property v = js p.

Lemma holds_app p vs1 vs2 : holds p (vs1 ++ vs2) = holds p vs1 && holds p vs2.
Proof. unfold holds. by rewrite existsb_app, negb_orb. Qed.

Lemma holds_same p vs : labelled p vs → holds p vs = bool_decide (vs = []).
Proof.
  intros Hl. destruct vs as [|v vs]; [done|]. unfold holds. simpl.
  rewrite (bool_decide_true (_ = js p)) by (apply Hl; left). done.
Qed.

Lemma holds_other p q vs : labelled q vs → p ≠ q → holds p vs = true.
Proof.
  intros Hl Hpq. unfold holds. apply negb_true_iff. apply not_true_iff_false.
  intros (v & Hin & Hv)%existsb_exists. apply bool_decide_eq_true in Hv.
  apply list_elem_of_In in Hin. apply Hl in Hin. rewrite Hin in Hv.
  apply (inj js) in Hv. congruence.
Qed.

Lemma labelled_concat {A} p (f : A → list IsolationViolation) l :
  (∀ x, labelled p (f x)) → labelled p (concat (f <$> l)).
Proof.
  intros Hf v Hv. apply list_elem_of_In, in_concat in Hv as (l' & Hl' & Hv).
  apply list_elem_of_In, list_elem_of_fmap in Hl' as (x & -> & _).
  by apply (Hf x), list_elem_of_In.
Qed.

Lemma concat_fmap_nil {A B} (f : A → list B) l :
  concat (f <$> l) = [] ↔ ∀ x, x ∈ l → f x = [].
Proof.
  split.
  - intros H x Hx. apply list_elem_of_split in Hx as (l1 & l2 & ->).
    rewrite fmap_app, concat_app in H. csimpl in H. by apply app_nil in H as [_ [? _]%app_nil].
  - intros H. induction l as [|x l IH]; csimpl; [done|].
    rewrite H by left. apply IH. intros y Hy. apply H. by right.
Qed.

Lemma resolved_in_range objs m i t :
  jm_get (resolved (resolveSymbols objs)) (ref_key m i) = Some t →
  ∃ s i' d, (m, i, s) ∈ all_symbols objs ∧ (rs_targetModule t, i', d) ∈ all_symbols objs
    ∧ visible d = true ∧ symbol_key d = symbol_key s.
Proof.
  intros Ht. unfold resolveSymbols in Ht. rewrite resolve_fold in Ht by apply all_symbols_indices.
  destruct (list_find _ _) as [[k [mi s]]|] eqn:E; [|done].
  apply list_find_Some in E as (Hk & He & _). simpl in He. subst mi.
  apply list_elem_of_lookup_2 in Hk.
  destruct (wanted s); [|done]. destruct (target_of objs s) as [d|] eqn:Et; [|done].
  simplify_eq. apply choose_elem, elem_defs_of in Et as (Hd & Hv & Hkey).
  exists s, (def_symbolIdx d), (def_symbol d). done.
Qed.

Lemma resolver_range objs m i t :
  jm_get (resolved (resolveSymbols objs)) (ref_key m i) = Some t →
  0 ≤ rs_targetModule t < Z.of_nat (length objs).
Proof.
  intros (s & i' & d & _ & Hd & _)%resolved_in_range.
  apply elem_all_symbols in Hd as (m' & j & o & -> & _ & Ho & _).
  apply lookup_lt_Some in Ho. lia.
Qed.

(** * Shared globals *)

Definition global_item (objs : list ParsedObject) (e : Z * Z * SymbolInfo)
  : option (jsstr * (Z * jsstr)) :=
  obj ← objs !! Z.to_nat e.1.1;
  if exposed_mutable_global obj e.2 then Some (sym_name e.2, (e.1.1, po_name obj)) else None.

Lemma globalDefs_collect objs : globalDefs objs = jm_collect (global_item objs) (all_symbols objs) [].
Proof.
  unfold globalDefs. generalize (@nil (jsstr * list (Z * jsstr))) as t.
  induction (all_symbols objs) as [|[[m i] s] es IH]; intros t; [done|].
  unfold jm_collect. cbn [foldl]. rewrite IH. unfold jm_collect. f_equal.
  unfold add_global_def, global_item. simpl. destruct (objs !! _) as [o|]; simpl; [|done].
  by destruct (exposed_mutable_global o s).
Qed.

Lemma shared_violations_nil e : shared_violations e = [] ↔ (length e.2 ≤ 1)%nat.
Proof.
  destruct e as [name defs]. unfold shared_violations. simpl. case_bool_decide as Hl.
  - destruct defs as [|[m1 n1] [|[m2 n2] defs]]; simpl in *; [lia..|]. split; [done|lia].
  - split; [lia|done].
Qed.

Lemma shared_matches objs name :
  (1 < length (jm_matches (global_item objs) (all_symbols objs) name))%nat ↔
  ∃ e1 e2 o1 o2, e1 ∈ all_symbols objs ∧ e2 ∈ all_symbols objs ∧ e1.1 ≠ e2.1
    ∧ objs !! Z.to_nat e1.1.1 = Some o1 ∧ objs !! Z.to_nat e2.1.1 = Some o2
    ∧ exposed_mutable_global o1 e1.2 = true ∧ exposed_mutable_global o2 e2.2 = true
    ∧ sym_name e1.2 = name ∧ sym_name e2.2 = name.
Proof.
  assert (∀ e, is_Some (match global_item objs e with
      | Some (k', v) => if decide (k' = name) then Some v else None | None => None end) ↔
    ∃ o, objs !! Z.to_nat e.1.1 = Some o ∧ exposed_mutable_global o e.2 = true
         ∧ sym_name e.2 = name) as Hsome.
  { intros e. unfold global_item. destruct (objs !! _) as [o|]; simpl.
    - destruct (exposed_mutable_global o e.2) eqn:Ee; simpl; [case_decide as Hn|]; split.
      + intros _. by exists o.
      + intros _. by eexists.
      + by intros [? ?].
      + intros (o' & ? & _ & ?). congruence.
      + by intros [? ?].
      + intros (o' & ? & ? & _). congruence.
    - split; [by intros [? ?]|]. by intros (o' & ? & _). }
  unfold jm_matches. rewrite omap_two. split.
  - intros (l1 & x & l2 & y & l3 & Hl & Hx & Hy). apply Hsome in Hx as (o1 & Ho1 & Hx1 & Hn1).
    apply Hsome in Hy as (o2 & Ho2 & Hx2 & Hn2).
    exists x, y, o1, o2. rewrite Hl. split_and!; try done; try set_solver.
    pose proof (all_symbols_indices objs) as Hnd. rewrite Hl, fmap_app in Hnd. csimpl in Hnd.
    apply list.NoDup_app in Hnd as (_ & _ & [Hni _]%NoDup_cons). intros Heq. apply Hni.
    rewrite fmap_app, Heq. csimpl. set_solver.
  - intros (x & y & o1 & o2 & Hin1 & Hin2 & Hne & Ho1 & Ho2 & Hx1 & Hx2 & Hn1 & Hn2).
    assert (x ≠ y) as Hxy by congruence.
    destruct (two_split _ x y Hin1 Hin2 Hxy) as (l1 & l2 & l3 & [Hl|Hl]);
      [exists l1, x, l2, y, l3|exists l1, y, l2, x, l3]; rewrite !Hsome; eauto 10.
Qed.

Lemma no_shared_iff objs :
  concat (shared_violations <$> globalDefs objs) = [] ↔
  ∀ name, (length (jm_matches (global_item objs) (all_symbols objs) name) ≤ 1)%nat.
Proof.
  rewrite concat_fmap_nil, globalDefs_collect. split.
  - intros Hall name.
    destruct (decide (jm_matches (global_item objs) (all_symbols objs) name = [])) as [->|Hne];
      [simpl; lia|].
    apply jm_collect_entry_ex in Hne. apply Hall, shared_violations_nil in Hne. done.
  - intros Hall [name defs] Hin. apply shared_violations_nil. simpl.
    apply jm_collect_entry in Hin as ->. apply Hall.
Qed.

(** A list of at most one violation. *)
Local Ltac one_violation :=
  let Hv := fresh in
  intros Hv; first [by apply not_elem_of_nil in Hv | by apply list_elem_of_singleton in Hv as ->].

Lemma labels objs res :
  labelled "importExportOnly" (concat (import_violations objs res <$> all_symbols objs)) ∧
  labelled "noSharedGlobals" (concat (shared_violations <$> globalDefs objs)) ∧
  labelled "memoryIsolation" (concat (memory_violations <$> objs)) ∧
  labelled "noPrivateFunctionAccess" (concat (private_violations objs res <$> all_symbols objs)) ∧
  labelled "tableIsolation" (concat (table_violations objs res <$> all_relocs objs)).
Proof.
  split_and!; apply labelled_concat; intros x v.
  - unfold import_violations. repeat case_match; one_violation.
  - destruct x as [name defs]. unfold shared_violations. case_bool_decide; [|one_violation].
    intros ([[? ?] [? ?]] & -> & _)%list_elem_of_fmap. done.
  - unfold memory_violations. cbn zeta. case_match; one_violation.
  - unfold private_violations. repeat case_match; one_violation.
  - unfold table_violations. repeat case_match; one_violation.
Qed.

(** The report of the five checks, with each flag reduced to its own list. *)
Lemma validateIsolation_eq objs res :
  (∀ m i t, jm_get (resolved res) (ref_key m i) = Some t →
    0 ≤ rs_targetModule t < Z.of_nat (length objs)) →
  ∃ vs, validateIsolation objs res = Ok (mkReport (po_name <$> objs)
    (bool_decide (concat (import_violations objs res <$> all_symbols objs) = []))
    (bool_decide (concat (shared_violations <$> globalDefs objs) = []))
    (bool_decide (concat (memory_violations <$> objs) = []))
    (bool_decide (concat (private_violations objs res <$> all_symbols objs) = []))
    (bool_decide (concat (table_violations objs res <$> all_relocs objs) = [])) vs).
Proof.
  intros Hr. unfold validateIsolation.
  rewrite checkImportExportOnly_eq by done. csimpl.
  rewrite checkNoSharedGlobals_eq. csimpl. rewrite checkMemoryIsolation_eq. csimpl.
  rewrite checkNoPrivateFunctionAccess_eq by done. csimpl.
  rewrite checkTableIsolation_eq by done. csimpl.
  destruct (labels objs res) as (L1 & L2 & L3 & L4 & L5).
  eexists. f_equal. f_equal; rewrite !holds_app;
    repeat match goal with
    | L : labelled ?p ?l |- context [holds ?p ?l] => rewrite (holds_same p l L)
    | L : labelled ?q ?l |- context [holds ?p ?l] => rewrite (holds_other p q l L) by done
    end; by rewrite ?andb_true_r.
Qed.

(** What the flag of a check that looks at every cross-module reference means. *)
Lemma ref_flag objs res (f : Z * Z * SymbolInfo → list IsolationViolation)
    (bad : SymbolInfo → bool) :
  (∀ e, f e = [] ↔ match cross_target objs res e with Some (_, ts) => bad ts = false | None => True end) →
  bool_decide (concat (f <$> all_symbols objs) = []) = true ↔
  ∀ e o ts, e ∈ all_symbols objs → cross_target objs res e = Some (o, ts) → bad ts = false.
Proof.
  intros Hf. rewrite bool_decide_eq_true, concat_fmap_nil. split.
  - intros Hall e o ts Hin He. specialize (Hall e Hin). apply Hf in Hall. by rewrite He in Hall.
  - intros Hall e Hin. apply Hf. destruct (cross_target objs res e) as [[o ts]|] eqn:E; eauto.
Qed.

Lemma cross_target_spec objs m i s o ts :
  cross_target objs (resolveSymbols objs) (m, i, s) = Some (o, ts) →
  o ∈ objs ∧ ts ∈ po_symbols o ∧ sym_name ts = sym_name s ∧ sym_kind ts = sym_kind s
  ∧ is_undefined ts = false
  ∧ ∃ t, jm_get (resolved (resolveSymbols objs)) (ref_key m i) = Some t
         ∧ objs !! Z.to_nat (rs_targetModule t) = Some o.
Proof.
  unfold cross_target. destruct (has_flag _ _); [|done].
  destruct (jm_get _ _) as [t|] eqn:Et; simpl; [|done]. destruct (_ =? _); [done|].
  destruct (objs !! _) as [o'|] eqn:Eo; simpl; [|done]. unfold findDefinedSymbol.
  destruct (list_find _ _) as [[k ts']|] eqn:Ef; simpl; [|done]. intros [= <- <-].
  apply list_find_Some in Ef as (Hk & (Hn & Hkd & Hu) & _).
  split_and!; try done; [by eapply list_elem_of_lookup_2..|]. by exists t.
Qed.

(** * Properties *)

(** Each flag in terms of the list that its check collects, without conditions on the
    modules. *)
Lemma validateIsolation_flags objs :
  let res := resolveSymbols objs in
  ∃ rep, validateIsolation objs res = Ok rep
  ∧ ir_modules rep = po_name <$> objs
  ∧ (ir_importExportOnly rep = true ↔
      ∀ e o ts, e ∈ all_symbols objs → cross_target objs res e = Some (o, ts) →
        has_flag (sym_flags ts) SYMBOL_EXPORTED = true)
  ∧ (ir_noSharedGlobals rep = true ↔
      ∀ e1 e2 o1 o2, e1 ∈ all_symbols objs → e2 ∈ all_symbols objs → e1.1 ≠ e2.1 →
        objs !! Z.to_nat e1.1.1 = Some o1 → objs !! Z.to_nat e2.1.1 = Some o2 →
        exposed_mutable_global o1 e1.2 = true → exposed_mutable_global o2 e2.2 = true →
        sym_name e1.2 ≠ sym_name e2.2)
  ∧ (ir_memoryIsolation rep = true ↔ ∀ o, o ∈ objs → (length (po_memories o) ≤ 1)%nat)
  ∧ (ir_noPrivateFunctionAccess rep = true ↔
      ∀ e o ts, e ∈ all_symbols objs → cross_target objs res e = Some (o, ts) →
        has_flag (sym_flags ts) SYMBOL_BINDING_LOCAL = false)
  ∧ (ir_tableIsolation rep = true ↔
      ∀ e, e ∈ all_relocs objs → cross_table objs res e = None).
Proof.
  intros res. destruct (validateIsolation_eq objs res) as [vs Hvs]; [apply resolver_range|].
  eexists. split; [exact Hvs|]. cbn [ir_modules ir_importExportOnly ir_noSharedGlobals
    ir_memoryIsolation ir_noPrivateFunctionAccess ir_tableIsolation]. split_and!.
  - done.
  - rewrite (ref_flag objs res _ (λ ts, negb (has_flag (sym_flags ts) SYMBOL_EXPORTED))).
    + by setoid_rewrite negb_false_iff.
    + intros e. unfold import_violations. destruct (cross_target _ _ _) as [[o ts]|]; [|done].
      by destruct (has_flag _ _).
  - rewrite bool_decide_eq_true, no_shared_iff. split.
    + intros Hall e1 e2 o1 o2 ? ? ? ? ? ? ? Hn.
      assert (1 < length (jm_matches (global_item objs) (all_symbols objs) (sym_name e2.2)))%nat;
        [apply shared_matches; by exists e1, e2, o1, o2|].
      specialize (Hall (sym_name e2.2)). lia.
    + intros Hall name. apply Nat.nlt_ge. intros Hlt. apply shared_matches in Hlt.
      destruct Hlt as (e1 & e2 & o1 & o2 & ? & ? & ? & ? & ? & ? & ? & ? & ?).
      apply (Hall e1 e2 o1 o2); congruence.
  - rewrite bool_decide_eq_true, concat_fmap_nil. apply forall_proper. intros o.
    unfold memory_violations. cbn zeta. destruct (Z.ltb_spec 1 (Z.of_nat (length (po_memories o)))).
    + split; intros Ho Hin; specialize (Ho Hin); [done|lia].
    + split; intros ? ?; [lia|done].
  - apply (ref_flag objs res _ (λ ts, has_flag (sym_flags ts) SYMBOL_BINDING_LOCAL)). intros e. unfold private_violations.
    destruct (cross_target _ _ _) as [[o ts]|]; [|done]. by destruct (has_flag _ _).
  - rewrite bool_decide_eq_true, concat_fmap_nil. apply forall_proper. intros e.
    unfold table_violations. destruct (cross_table _ _ _) as [[o s]|]; naive_solver.
Qed.

(** The relocations of all the modules. *)
Lemma elem_all_relocs objs m o r :
  (m, o, r) ∈ all_relocs objs ↔
  ∃ n relocs, m = Z.of_nat n ∧ objs !! n = Some o ∧ relocs ∈ snd <$> po_relocations o ∧ r ∈ relocs.
Proof.
  unfold all_relocs. rewrite list_elem_of_In, in_concat. setoid_rewrite <- list_elem_of_In.
  setoid_rewrite elem_of_lookup_imap. split.
  - intros (l & (n & o' & -> & Ho) & Hr). apply list_elem_of_In, in_concat in Hr as (l & Hl & Hr).
    apply list_elem_of_In, list_elem_of_fmap in Hl as (e & -> & He). apply list_elem_of_In, list_elem_of_fmap in Hr as (r' & [= -> -> ->] & Hr).
    exists n, e.2. split_and!; [done|done|by apply list_elem_of_fmap_2|done].
  - intros (n & relocs & -> & Ho & (e & -> & He)%list_elem_of_fmap & Hr). eexists. split; [by exists n, o|].
    apply list_elem_of_In, in_concat. eexists. split; apply list_elem_of_In; [by apply list_elem_of_fmap_2|].
    by apply (list_elem_of_fmap_2 (λ r, (Z.of_nat n, o, r))).
Qed.

(** * Isolation, told without the tables of the linker *)

(** A definition that a reference of that kind and name can bind to. *)
Definition offers (s d : SymbolInfo) : Prop :=
  visible d = true ∧ sym_kind d = sym_kind s ∧ sym_name d = sym_name s.

#[global] Instance offers_dec s d : Decision (offers s d).
Proof. unfold offers. apply _. Defined.

(** What a reference is bound to: the first strong definition on offer, in the order of
    the modules and of their symbols, or the first one where all are weak. *)
Definition provider (objs : list ParsedObject) (s : SymbolInfo) : option (Z * Z * SymbolInfo) :=
  match list_find (λ e, offers s e.2 ∧ is_weak e.2 = false) (all_symbols objs) with
  | Some (_, e) => Some e
  | None => snd <$> list_find (λ e, offers s e.2) (all_symbols objs)
  end.

(** The symbol [i] of module [m] is bound to the symbol [d] of module [m']. *)
Definition binds (objs : list ParsedObject) (m i : Z) (s : SymbolInfo) (m' : Z) (d : SymbolInfo) : Prop :=
  (m, i, s) ∈ all_symbols objs ∧ wanted s = true ∧ ∃ j, provider objs s = Some (m', j, d).

(** A name that a module offers is defined there once. *)
Definition unambiguous (o : ParsedObject) : Prop :=
  ∀ i j s1 s2, po_symbols o !! i = Some s1 → po_symbols o !! j = Some s2 →
    visible s1 = true → is_undefined s2 = false → symbol_key s1 = symbol_key s2 → i = j.

(** The symbol [s] of the module [o] gives its name to a mutable global that the module
    defines; imported globals come first in the index space. *)
Definition names_mutable_global (o : ParsedObject) (s : SymbolInfo) : Prop :=
  sym_kind s = SYMTAB_GLOBAL ∧ visible s = true ∧
  let imported := Z.of_nat (length (filter (λ imp, imp_kind imp = 3) (po_imports o))) in
  ∃ g, js_at (po_globals o) (sym_index s - imported) = Some g ∧ glb_mutable g = true.

Lemma exposed_names o s : exposed_mutable_global o s = true ↔ names_mutable_global o s.
Proof.
  unfold exposed_mutable_global, names_mutable_global, visible, is_undefined, is_local.
  cbv zeta. generalize (sym_index s - Z.of_nat (length (filter (λ imp, imp_kind imp = 3) (po_imports o)))). intros k.
  destruct (Z.eqb_spec (sym_kind s) SYMTAB_GLOBAL) as [Hk|Hk]; simpl; [|naive_solver].
  destruct (has_flag _ SYMBOL_UNDEFINED), (has_flag _ SYMBOL_BINDING_LOCAL), (is_named s); simpl; try naive_solver.
  unfold js_at. destruct (Z.ltb_spec k 0), (Z.leb_spec 0 k); try lia; simpl; [naive_solver|].
  destruct (Z.ltb_spec k (Z.of_nat (length (po_globals o)))) as [Hl|Hl].
  - destruct (po_globals o !! _) as [g|] eqn:E; naive_solver.
  - split; [done|]. intros (_ & _ & g & E & _). apply lookup_lt_Some in E. lia.
Qed.

Section binding.
Context (objs : list ParsedObject).
Abbreviation mk := (λ e : Z * Z * SymbolInfo, mkDefined e.1.1 e.1.2 e.2).

Lemma offers_key s d : offers s d ↔ visible d = true ∧ symbol_key d = symbol_key s.
Proof. unfold offers. by rewrite symbol_key_inj. Qed.

Lemma head_defs s es :
  head (defs_of es (symbol_key s)) = mk <$> (snd <$> list_find (λ e, offers s e.2) es) ∧
  head (strong (defs_of es (symbol_key s))) = mk <$> (snd <$> list_find (λ e, offers s e.2 ∧ is_weak e.2 = false) es).
Proof.
  induction es as [|[[m i] d] es [IH1 IH2]]; [done|].
  assert (∀ {A} (o : option (nat * A)), snd <$> (prod_map S id <$> o) = snd <$> o) as Hs by (by intros ? [[]|]).
  cbn [list_find]. unfold defs_of in *. cbn [omap list_omap].
  destruct (decide (offers s d)) as [Ho|Ho].
  - pose proof Ho as [Hv Hk]%offers_key. rewrite Hv, bool_decide_true by done. cbn [andb head].
    rewrite decide_True by done. split; [done|]. unfold strong. rewrite filter_cons. cbn [def_symbol].
    destruct (is_weak d) eqn:Ew.
    + rewrite decide_False by done. rewrite decide_False by (cbn; intros [_ ?]; congruence). by rewrite Hs, <- IH2.
    + rewrite decide_True by done. by rewrite decide_True by done.
  - assert (visible d && bool_decide (symbol_key d = symbol_key s) = false) as ->.
    { apply andb_false_iff. rewrite offers_key in Ho. destruct (visible d); [right|by left].
      apply bool_decide_eq_false. tauto. }
    rewrite decide_False by done. rewrite decide_False by (cbn; tauto). by rewrite !Hs.
Qed.

Lemma target_provider s : target_of objs s = mk <$> provider objs s.
Proof.
  unfold target_of, provider, choose. destruct (head_defs s (all_symbols objs)) as [Hh Hs].
  destruct (strong _) as [|d l]; cbn [head] in Hs.
  - destruct (list_find (λ e, _ ∧ _) _) as [[k e]|]; [done|exact Hh].
  - destruct (list_find (λ e, _ ∧ _) _) as [[k e]|]; [exact Hs|done].
Qed.

Lemma binds_resolved m i s : (m, i, s) ∈ all_symbols objs →
  ∀ t, jm_get (resolved (resolveSymbols objs)) (ref_key m i) = Some t ↔
  ∃ d, binds objs m i s (rs_targetModule t) d ∧ t = mkResolved (rs_targetModule t) (sym_index d) (sym_name s).
Proof.
  intros Hin t. rewrite (resolved_spec objs m i s Hin), target_provider. unfold binds. split.
  - destruct (wanted s); [|done]. destruct (provider objs s) as [[[m' j] d]|]; [|done]. intros [= <-].
    exists d. cbn. eauto 10.
  - intros (d & (_ & -> & j & ->) & ->). done.
Qed.

Lemma provider_spec s m' j d : provider objs s = Some (m', j, d) → (m', j, d) ∈ all_symbols objs ∧ offers s d.
Proof.
  unfold provider. destruct (list_find (λ e, _ ∧ _) _) as [[k e]|] eqn:E.
  - intros [= ->]. apply list_find_Some in E as (Hk & [Ho _] & _). split; [by eapply list_elem_of_lookup_2|done].
  - destruct (list_find (λ e, offers s e.2) _) as [[k e]|] eqn:E'; cbn; [|done]. intros [= ->].
    apply list_find_Some in E' as (Hk & Ho & _). split; [by eapply list_elem_of_lookup_2|done].
Qed.

Context (Hun : Forall unambiguous objs).

(** In a module that defines its names once, the definition that the checks look at is
    the one that the reference is bound to. *)
Lemma cross_target_binds m i s o d : (m, i, s) ∈ all_symbols objs →
  cross_target objs (resolveSymbols objs) (m, i, s) = Some (o, d) ↔
  ∃ m', binds objs m i s m' d ∧ m' ≠ m ∧ objs !! Z.to_nat m' = Some o.
Proof.
  intros Hin. assert (∀ m' d' o', binds objs m i s m' d' → objs !! Z.to_nat m' = Some o' →
    findDefinedSymbol o' (sym_name s) (sym_kind s) = Some d') as Hfind.
  { intros m' d' o' (_ & _ & j & [Hd (Hv & Hk & Hn)]%provider_spec) Ho.
    apply elem_all_symbols in Hd as (m1 & j1 & o1 & -> & -> & Ho1 & Hj). rewrite Nat2Z.id, Ho1 in Ho. injection Ho as <-.
    pose proof (proj1 (Forall_forall _ _) Hun o1 ltac:(by eapply list_elem_of_lookup_2)) as Ho.
    unfold findDefinedSymbol. destruct (list_find _ _) as [[k d2]|] eqn:E.
    - apply list_find_Some in E as (Hk2 & (Hn2 & Hkd2 & Hu2) & _). cbn. f_equal.
      assert (j1 = k) as -> by (eapply (Ho j1 k d' d2); [done..|]; apply symbol_key_inj; split; congruence). congruence.
    - apply list_find_None in E. rewrite Forall_forall in E. exfalso. apply (E d'); [by eapply list_elem_of_lookup_2|].
      split_and!; [done|done|]. unfold visible, is_undefined in Hv. by destruct (has_flag _ SYMBOL_UNDEFINED). }
  unfold cross_target. split.
  - destruct (has_flag _ _); [|done]. destruct (jm_get _ _) as [t|] eqn:Et; cbn; [|done].
    apply (binds_resolved m i s Hin) in Et as (d' & Hb & Ht). destruct (Z.eqb_spec (rs_targetModule t) m); [done|].
    destruct (objs !! _) as [o'|] eqn:Eo; cbn; [|done]. rewrite (Hfind _ _ _ Hb Eo). cbn. intros [= -> ->]. eauto.
  - intros (m' & Hb & Hne & Ho). assert (has_flag (sym_flags s) SYMBOL_UNDEFINED = true) as ->
      by (destruct Hb as (_ & [Hw _]%andb_true_iff & _); exact Hw).
    rewrite (proj2 (binds_resolved m i s Hin (mkResolved m' (sym_index d) (sym_name s)))) by (by exists d).
    cbn. rewrite (proj2 (Z.eqb_neq m' m)) by done. rewrite Ho. cbn. by rewrite (Hfind _ _ _ Hb Ho).
Qed.

Lemma bound_exists m i s m' d : binds objs m i s m' d → ∃ o, objs !! Z.to_nat m' = Some o.
Proof.
  intros (_ & _ & j & [Hd _]%provider_spec). apply elem_all_symbols in Hd as (m1 & j1 & o & -> & _ & Ho & _).
  exists o. by rewrite Nat2Z.id.
Qed.

(** A flag about the definitions that references cross to. *)
Lemma crossing_flag (P : SymbolInfo → Prop) :
  (∀ e o d, e ∈ all_symbols objs → cross_target objs (resolveSymbols objs) e = Some (o, d) → P d) ↔
  ∀ m i s m' d, binds objs m i s m' d → m' ≠ m → P d.
Proof.
  split.
  - intros Hall m i s m' d Hb Hne. destruct (bound_exists _ _ _ _ _ Hb) as [o Ho].
    apply (Hall (m, i, s) o d); [apply Hb|]. apply cross_target_binds; [apply Hb|]. by exists m'.
  - intros Hall [[m i] s] o d Hin (m' & Hb & Hne & _)%cross_target_binds; [|done]. by eapply Hall.
Qed.

Lemma shared_flag :
  (∀ e1 e2 o1 o2, e1 ∈ all_symbols objs → e2 ∈ all_symbols objs → e1.1 ≠ e2.1 →
     objs !! Z.to_nat e1.1.1 = Some o1 → objs !! Z.to_nat e2.1.1 = Some o2 →
     exposed_mutable_global o1 e1.2 = true → exposed_mutable_global o2 e2.2 = true → sym_name e1.2 ≠ sym_name e2.2) ↔
  ∀ m1 m2 o1 o2 s1 s2, objs !! m1 = Some o1 → objs !! m2 = Some o2 → m1 ≠ m2 →
    s1 ∈ po_symbols o1 → s2 ∈ po_symbols o2 → names_mutable_global o1 s1 → names_mutable_global o2 s2 →
    sym_name s1 ≠ sym_name s2.
Proof.
  split.
  - intros Hall m1 m2 o1 o2 s1 s2 Ho1 Ho2 Hne [i1 Hi1]%list_elem_of_lookup [i2 Hi2]%list_elem_of_lookup H1 H2.
    apply (Hall (Z.of_nat m1, Z.of_nat i1, s1) (Z.of_nat m2, Z.of_nat i2, s2) o1 o2); cbn; rewrite ?Nat2Z.id; try done.
    + apply elem_all_symbols. by exists m1, i1, o1.
    + apply elem_all_symbols. by exists m2, i2, o2.
    + intros [=]. lia.
    + by apply exposed_names.
    + by apply exposed_names.
  - intros Hall [[m1 i1] s1] [[m2 i2] s2] o1 o2 He1 He2 Hne Ho1 Ho2 H1%exposed_names H2%exposed_names. cbn in *.
    apply elem_all_symbols in He1 as (n1 & j1 & p1 & -> & -> & Hp1 & Hj1).
    apply elem_all_symbols in He2 as (n2 & j2 & p2 & -> & -> & Hp2 & Hj2). rewrite !Nat2Z.id in *. simplify_eq.
    destruct (decide (n1 = n2)) as [->|Hn]; [|eapply Hall; [exact Hp1|exact Hp2|done|by eapply list_elem_of_lookup_2|by eapply list_elem_of_lookup_2|done|done]].
    simplify_eq. intros Hname. apply Hne. do 2 f_equal.
    assert (unambiguous p1) as Hp by (rewrite Forall_forall in Hun; by eapply Hun, list_elem_of_lookup_2).
    eapply (Hp j1 j2 s1 s2); [done|done|apply H1| |].
    + destruct H2 as (_ & Hv & _). unfold visible in Hv. by destruct (is_undefined s2).
    + apply symbol_key_inj. split; [|done]. destruct H1 as [-> _], H2 as [-> _]. done.
Qed.

Lemma table_flag :
  (∀ e, e ∈ all_relocs objs → cross_table objs (resolveSymbols objs) e = None) ↔
  ∀ m o relocs r s m' d, objs !! m = Some o → relocs ∈ snd <$> po_relocations o → r ∈ relocs → is_table_reloc (rel_type r) = true →
    binds objs (Z.of_nat m) (rel_symbolIndex r) s m' d → m' = Z.of_nat m.
Proof.
  assert (∀ m o r, (m, o, r) ∈ all_relocs objs ↔ ∃ n relocs, m = Z.of_nat n ∧ objs !! n = Some o ∧
    relocs ∈ snd <$> po_relocations o ∧ r ∈ relocs) as Hin by apply elem_all_relocs.
  assert (∀ (o : ParsedObject) n i s, objs !! n = Some o → (Z.of_nat n, i, s) ∈ all_symbols objs ↔ 0 ≤ i ∧ reloc_symbol o i = Some s) as Hsym.
  { intros o n i s Ho. rewrite elem_all_symbols. unfold reloc_symbol. split.
    - intros (m' & i' & o' & Hm & -> & Ho' & Hi). apply (inj Z.of_nat) in Hm as <-. simplify_eq. split; [lia|].
      pose proof (lookup_lt_Some _ _ _ Hi). rewrite (proj2 (Z.ltb_lt _ _)) by lia. by rewrite Nat2Z.id.
    - intros [Hi Hs]. destruct (_ <? _); [|done]. exists n, (Z.to_nat i), o. split_and!; [done|lia|done..]. }
  split.
  - intros Hall m o relocs r s m' d Ho Hl Hr Ht Hb. pose proof Hb as (Hs & Hw & _).
    specialize (Hall (Z.of_nat m, o, r) (proj2 (Hin _ _ _) ltac:(by exists m, relocs))).
    apply (Hsym o m _ s Ho) in Hs as Hs'. unfold cross_table in Hall. rewrite Ht, (proj2 Hs') in Hall. cbn in Hall.
    unfold wanted in Hw. apply andb_true_iff in Hw as [Hu _]. unfold is_undefined in Hu. rewrite Hu in Hall.
    rewrite (proj2 (binds_resolved (Z.of_nat m) (rel_symbolIndex r) s Hs (mkResolved m' (sym_index d) (sym_name s)))) in Hall by (by exists d).
    cbn in Hall. destruct (Z.eqb_spec m' (Z.of_nat m)); [done|]. cbn in Hall.
    destruct (bound_exists _ _ _ _ _ Hb) as [o' Ho']. by rewrite Ho' in Hall.
  - intros Hall [[m o] r] (n & relocs & -> & Ho & Hl & Hr)%Hin. unfold cross_table.
    destruct (is_table_reloc _) eqn:Ht; [|done]. destruct (reloc_symbol o _) as [s|] eqn:Hs; cbn; [|done].
    destruct (has_flag _ _); [|done]. destruct (jm_get _ _) as [t|] eqn:Et; cbn; [|done].
    destruct (resolved_in_range objs _ _ _ Et) as (s' & _ & _ & Hs' & _).
    pose proof (proj1 (Hsym o n _ s' Ho) Hs') as [_ Es]. rewrite Hs in Es. injection Es as <-.
    apply (binds_resolved _ _ _ Hs') in Et as (d & Hb & _).
    rewrite (Hall n o relocs r s _ d Ho Hl Hr Ht Hb). by rewrite Z.eqb_refl.
Qed.
End binding.

(** C36: isolation.  Of modules that define each name they offer once,
    [validateIsolation] gives a report, and each of its flags says what the comment of its
    check promises: every reference bound to another module is bound to an exported
    definition; no two modules give one name to mutable globals that they define; no
    module defines more than one memory; no reference is bound to a local definition of
    another module, which holds of every such report; and no table relocation goes
    through a symbol that is bound to another module. *)
Theorem validateIsolation_correct objs :
  Forall unambiguous objs →
  ∃ rep, validateIsolation objs (resolveSymbols objs) = Ok rep
  ∧ ir_modules rep = po_name <$> objs
  ∧ (ir_importExportOnly rep = true ↔
      ∀ m i s m' d, binds objs m i s m' d → m' ≠ m → has_flag (sym_flags d) SYMBOL_EXPORTED = true)
  ∧ (ir_noSharedGlobals rep = true ↔
      ∀ m1 m2 o1 o2 s1 s2, objs !! m1 = Some o1 → objs !! m2 = Some o2 → m1 ≠ m2 →
        s1 ∈ po_symbols o1 → s2 ∈ po_symbols o2 → names_mutable_global o1 s1 → names_mutable_global o2 s2 →
        sym_name s1 ≠ sym_name s2)
  ∧ (ir_memoryIsolation rep = true ↔ ∀ o, o ∈ objs → (length (po_memories o) ≤ 1)%nat)
  ∧ ir_noPrivateFunctionAccess rep = true
  ∧ (∀ m i s m' d, binds objs m i s m' d → is_local d = false)
  ∧ (ir_tableIsolation rep = true ↔
      ∀ m o relocs r s m' d, objs !! m = Some o → relocs ∈ snd <$> po_relocations o → r ∈ relocs →
        is_table_reloc (rel_type r) = true → binds objs (Z.of_nat m) (rel_symbolIndex r) s m' d → m' = Z.of_nat m).
Proof.
  intros Hun. destruct (validateIsolation_flags objs) as (rep & Hrep & Hmod & Hexp & Hglob & Hmem & Hpriv & Htab).
  assert (∀ m i s m' d, binds objs m i s m' d → is_local d = false) as Hlocal.
  { intros m i s m' d (_ & _ & j & [_ [Hv _]]%provider_spec). unfold visible in Hv.
    by destruct (is_local d), (is_undefined d). }
  exists rep. split_and!; [done|done| | |done| |done|].
  - rewrite Hexp. by apply crossing_flag.
  - rewrite Hglob. by apply shared_flag.
  - apply Hpriv, crossing_flag; [done|]. intros m i s m' d Hb _. by eapply Hlocal.
  - rewrite Htab. by apply table_flag.
Qed.

Lemma sample_unambiguous : Forall unambiguous sample_objects.
Proof.
  unfold sample_objects, sample_object.
  repeat constructor; intros i j s1 s2 Hi Hj _ _ _; apply lookup_lt_Some in Hi, Hj; cbn in *; lia.
Defined.

Lemma validateIsolation_correct_witness :
  ∃ rep, validateIsolation sample_objects (resolveSymbols sample_objects) = Ok rep
    ∧ ir_importExportOnly rep = false ∧ ir_noPrivateFunctionAccess rep = true.
Proof.
  destruct (validateIsolation_correct sample_objects sample_unambiguous) as (rep & Hrep & _ & _ & _ & _ & Hpriv & _).
  exists rep. split; [exact Hrep|]. split; [|exact Hpriv]. vm_compute in Hrep. by injection Hrep as <-.
Defined.

(** Outside of that condition the second check says more than its comment: it takes two
    symbols of one module that name mutable globals alike for a global that is shared. *)
Definition twice_named : ParsedObject :=
  let s := mkSymbol SYMTAB_GLOBAL (js "g") 0 0 in
  mkObject (js "a") [] [] [] [] [] [mkGlobal 127 true []] [] [] [] [] [s; s] [].

Example shared_within_module :
  match validateIsolation [twice_named] (resolveSymbols [twice_named]) with
  | Ok rep => ir_noSharedGlobals rep = false ∧
      iv_message <$> ir_violations rep = [sharedGlobals_message (js "g") (js "a") (js "a")]
  | Err _ => False
  end.
Proof. by vm_compute. Qed.
