(* ===== verification/Linker.v ===== *)
(** The multi-memory linker, [src/link/linker.ts].

    [link] parses the object files, resolves their symbols, validates isolation
    and emits one merged module; [emitLinked] writes it section by section with
    [WasmEncoder], and [rewriteCode] re-indexes the function bodies.  The
    environment variable that turns the statement trace on is the argument
    [trace].  Parameters that the source passes along without using them
    ([codeRelocs], [fnIdx], [allParsed]) are left out. *)

From S2P Require Import Prelude Encoder ObjReader Resolver Isolation.

Record LinkOptions := mkOptions {
  opt_entry : option jsstr; opt_validateIsolation : option bool }.

Record LinkError := mkLinkError {
  le_message : jsstr; le_module : option jsstr; le_is_error : bool }.

Record LinkResult := mkLinkResult {
  lr_binary : list Z;
  lr_wat : jsstr;
  lr_success : bool;
  lr_errors : list LinkError;
  lr_isolationReport : IsolationReport;
}.

Record ModuleOffsets := mkOffsets {
  typeOffset : Z; funcOffset : Z; globalOffset : Z;
  memoryOffset : Z; tableOffset : Z; tagOffset : Z }.

(** * Offsets *)

Definition count_imports (obj : ParsedObject) (kind : Z) : Z :=
  Z.of_nat (length (filter (λ i, imp_kind i = kind) (po_imports obj))).

Definition next_offsets (o : ModuleOffsets) (obj : ParsedObject) : ModuleOffsets :=
  mkOffsets
    (typeOffset o + Z.of_nat (length (po_types obj)))
    (funcOffset o + (count_imports obj 0 + Z.of_nat (length (po_functions obj))))
    (globalOffset o + (count_imports obj 3 + Z.of_nat (length (po_globals obj))))
    (memoryOffset o + (count_imports obj 2 + Z.of_nat (length (po_memories obj))))
    (tableOffset o + (count_imports obj 1 + Z.of_nat (length (po_tables obj))))
    (tagOffset o + (count_imports obj 4 + Z.of_nat (length (po_tags obj)))).

Fixpoint offsets_from (o : ModuleOffsets) (parsed : list ParsedObject) : list ModuleOffsets :=
  match parsed with
  | [] => []
  | obj :: rest => o :: offsets_from (next_offsets o obj) rest
  end.

Definition computeOffsets (parsed : list ParsedObject) : list ModuleOffsets :=
  offsets_from (mkOffsets 0 0 0 0 0 0) parsed.

(** * Rewriting function bodies *)

(** [data[i]] under a bitwise operator, where [undefined] counts as 0. *)
Definition byte_or_0 (data : list Z) (i : Z) : Z :=
  match data !! Z.to_nat i with Some b => b | None => 0 end.

Fixpoint readLEB_loop (fuel : nat) (data : list Z) (pos res shift size : Z) : result (Z * Z) :=
  match fuel with
  | O => Err OutOfFuel
  | S f =>
      let b := byte_or_0 data (pos + size) in
      let res := res .| ((b .& 0x7f) .<< shift) in
      let shift := shift + 7 in
      let size := size + 1 in
      if has_flag b 0x80 then readLEB_loop f data pos res shift size
      else Ok (res .>>> 0, size)
  end.

(** The value and the size; one turn per byte of [data] and one past its end
    are enough. *)
Definition readLEB128 (data : list Z) (pos : Z) : result (Z * Z) :=
  readLEB_loop (S (length data)) data pos 0 0 0.

Fixpoint appendLEB_loop (fuel : nat) (out : list Z) (v : Z) : result (list Z) :=
  match fuel with
  | O => Err OutOfFuel
  | S f =>
      let b := v .& 0x7f in
      let v := v .>>> 7 in
      let b := if negb (v =? 0) then b .| 0x80 else b in
      let out := out ++ [b] in
      if negb (v =? 0) then appendLEB_loop f out v else Ok out
  end.

Definition appendLEB128 (out : list Z) (value : Z) : result (list Z) :=
  appendLEB_loop 5 out (value .>>> 0).

(** [allOffsets[i]], whose fields the caller reads. *)
Definition offsets_at (allOffsets : list ModuleOffsets) (i : Z) : result ModuleOffsets :=
  match (if i <? 0 then None else allOffsets !! Z.to_nat i) with
  | Some o => Ok o
  | None => throw ETypeError (js "Cannot read properties of undefined")
  end.

(** The loop over the symbols, from index [symIdx] on. *)
Fixpoint resolve_in (symbols : list SymbolInfo) (symIdx origIdx kind modIdx baseOffset : Z)
    (allOffsets : list ModuleOffsets) (resolution : Resolution) : result Z :=
  match symbols with
  | [] => Ok (origIdx + baseOffset)
  | sym :: rest =>
      if negb (sym_kind sym =? kind)
      then resolve_in rest (symIdx + 1) origIdx kind modIdx baseOffset allOffsets resolution
      else if negb (sym_index sym =? origIdx)
      then resolve_in rest (symIdx + 1) origIdx kind modIdx baseOffset allOffsets resolution
      else if has_flag (sym_flags sym) SYMBOL_UNDEFINED then
        match jm_get (resolved resolution) (ref_key modIdx symIdx) with
        | Some r =>
            targetOff ← offsets_at allOffsets (rs_targetModule r);
            if kind =? SYMTAB_FUNCTION then Ok (rs_targetIndex r + funcOffset targetOff)
            else if kind =? SYMTAB_GLOBAL then Ok (rs_targetIndex r + globalOffset targetOff)
            else if kind =? SYMTAB_TABLE then Ok (rs_targetIndex r + tableOffset targetOff)
            else Ok (origIdx + baseOffset)
        | None => Ok (origIdx + baseOffset)
        end
      else Ok (origIdx + baseOffset)
  end.

Definition resolveIndex (origIdx kind : Z) (obj : ParsedObject) (modIdx baseOffset : Z)
    (allOffsets : list ModuleOffsets) (resolution : Resolution) : result Z :=
  resolve_in (po_symbols obj) 0 origIdx kind modIdx baseOffset allOffsets resolution.

Section rewrite.
Context (obj : ParsedObject) (modIdx : Z) (off : ModuleOffsets)
  (allOffsets : list ModuleOffsets) (resolution : Resolution).

(** One turn of the opcode loop: the new output and the new position. *)
Definition rewrite_step (body : list Z) (opcode : Z) (out : list Z) (pos : Z)
  : result (list Z * Z) :=
  let index (kind base : Z) (out : list Z) (pos : Z) : result (list Z * Z) :=
    r ← readLEB128 body pos;
    newIdx ← resolveIndex r.1 kind obj modIdx base allOffsets resolution;
    out ← appendLEB128 out newIdx;
    Ok (out, pos + r.2) in
  if opcode =? 0x10 then
    index SYMTAB_FUNCTION (funcOffset off) (out ++ [opcode]) (pos + 1)
  else if (opcode =? 0x23) || (opcode =? 0x24) then
    index SYMTAB_GLOBAL (globalOffset off) (out ++ [opcode]) (pos + 1)
  else if (opcode =? 0x3f) || (opcode =? 0x40) then
    r ← readLEB128 body (pos + 1);
    out ← appendLEB128 (out ++ [opcode]) (r.1 + memoryOffset off);
    Ok (out, pos + 1 + r.2)
  else if opcode =? 0x11 then
    r ← readLEB128 body (pos + 1);
    out ← appendLEB128 (out ++ [opcode]) (r.1 + typeOffset off);
    index SYMTAB_TABLE (tableOffset off) out (pos + 1 + r.2)
  else Ok (out ++ [opcode], pos + 1).

(** [while (pos < body.length)]; every turn moves [pos] on. *)
Fixpoint rewrite_loop (fuel : nat) (body : list Z) (pos : Z) (out : list Z) : result (list Z) :=
  match fuel with
  | O => Err OutOfFuel
  | S f =>
      if pos <? Z.of_nat (length body) then
        match body !! Z.to_nat pos with
        | Some opcode =>
            r ← rewrite_step body opcode out pos;
            rewrite_loop f body r.2 r.1
        | None => Err OutOfFuel
        end
      else Ok out
  end.

(** [new Uint8Array(out)] reduces the numbers modulo 256. *)
Definition rewriteCode (body : list Z) : result (list Z) :=
  out ← rewrite_loop (S (length body)) body 0 [];
  Ok (map (λ b, b mod 256) out).
End rewrite.

Definition rewriteCodeForTest (body : list Z) (off : ModuleOffsets) : result (list Z) :=
  rewriteCode (empty_object []) 0 off [off] (mkResolution [] []) body.

(** * Emission *)

Definition SECTION_type : Z := 1.
Definition SECTION_function : Z := 3.
Definition SECTION_table : Z := 4.
Definition SECTION_memory : Z := 5.
Definition SECTION_global : Z := 6.
Definition SECTION_export : Z := 7.
Definition SECTION_element : Z := 9.
Definition SECTION_code : Z := 10.
Definition SECTION_tag : Z := 13.

Section emission.
Context `{TextCodec}.
Import WasmEncoder.

(** [if (items.length > 0) enc.section(id, (s) => { s.u32(items.length); ... })] *)
Definition emit_items {A} (id : Z) (items : list A)
    (item : A → WasmEncoder → result WasmEncoder) (enc : WasmEncoder) : result WasmEncoder :=
  if bool_decide (0 < length items)%nat then
    section id (λ s, s ← u32 (Z.of_nat (length items)) s; for_each items item s) enc
  else Ok enc.

Definition emit_type (t : TypeSection) (s : WasmEncoder) : result WasmEncoder :=
  s ← byte 0x60 s;
  s ← u32 (Z.of_nat (length (ts_params t))) s;
  s ← for_each (ts_params t) byte s;
  s ← u32 (Z.of_nat (length (ts_results t))) s;
  for_each (ts_results t) byte s.

Definition emit_function (f : FunctionEntry) (s : WasmEncoder) : result WasmEncoder :=
  u32 (fn_typeIdx f) s.

(** The limits of a table or memory. *)
Definition emit_limits (mn : Z) (mx : option Z) (s : WasmEncoder) : result WasmEncoder :=
  match mx with
  | Some m => s ← byte 0x01 s; s ← u32 mn s; u32 m s
  | None => s ← byte 0x00 s; u32 mn s
  end.

Definition emit_table (t : TableEntry) (s : WasmEncoder) : result WasmEncoder :=
  s ← byte (tbl_elementType t) s; emit_limits (tbl_min t) (tbl_max t) s.

Definition emit_memory (m : MemoryEntry) (s : WasmEncoder) : result WasmEncoder :=
  emit_limits (mem_min m) (mem_max m) s.

Definition emit_tag (t : TagEntry) (s : WasmEncoder) : result WasmEncoder :=
  s ← byte (tag_attribute t) s; u32 (tag_typeIdx t) s.

Definition emit_global (g : GlobalEntry) (s : WasmEncoder) : result WasmEncoder :=
  s ← byte (glb_type g) s;
  s ← byte (if glb_mutable g then 0x01 else 0x00) s;
  bytes (glb_init g) s.

Definition emit_export (e : ExportEntry) (s : WasmEncoder) : result WasmEncoder :=
  s ← name (exp_name e) s;
  s ← byte (exp_kind e) s;
  u32 (exp_index e) s.

Definition emit_element (el : ElementEntry) (s : WasmEncoder) : result WasmEncoder :=
  let flags := el_flags el in
  s ← u32 flags s;
  s ← (if hasExplicitTable flags then u32 (el_tableIdx el) s else Ok s);
  s ← (match el_offsetExpr el with
       | Some e => if isActive flags then bytes e s else Ok s
       | None => Ok s
       end);
  s ← (match el_kindByte el with
       | Some b => if hasKindByte flags then byte b s else Ok s
       | None => Ok s
       end);
  match (if usesExprs flags then el_elemExprs el else None) with
  | Some exprs => s ← u32 (el_elemCount el) s; bytes exprs s
  | None =>
      s ← u32 (Z.of_nat (length (el_funcIndices el))) s;
      for_each (el_funcIndices el) u32 s
  end.

Definition emit_local (l : Z * Z) (s : WasmEncoder) : result WasmEncoder :=
  s ← u32 l.1 s; byte l.2 s.

(** One function body of module [modIdx]. *)
Definition emit_code (offsets : list ModuleOffsets) (resolution : Resolution)
    (c : Z * ParsedObject * ModuleOffsets * CodeEntry) (s : WasmEncoder) : result WasmEncoder :=
  let '(modIdx, obj, off, code) := c in
  bodyEnc ← u32 (Z.of_nat (length (cd_locals code))) new;
  bodyEnc ← for_each (cd_locals code) emit_local bodyEnc;
  rewrittenBody ← rewriteCode obj modIdx off offsets resolution (cd_body code);
  bodyEnc ← bytes rewrittenBody bodyEnc;
  let bodyBytes := finish bodyEnc in
  s ← u32 (Z.of_nat (length bodyBytes)) s;
  bytes bodyBytes s.

(** The modules with their index and offsets; [computeOffsets] gives every
    module its entry. *)
Definition modules_of (parsed : list ParsedObject) (offsets : list ModuleOffsets)
  : list (Z * ParsedObject * ModuleOffsets) :=
  imap (λ i p, (Z.of_nat i, p.1, p.2)) (zip parsed offsets).

Definition allTypes (parsed : list ParsedObject) : list TypeSection := parsed ≫= po_types.
Definition allTables (parsed : list ParsedObject) : list TableEntry := parsed ≫= po_tables.
Definition allMemories (parsed : list ParsedObject) : list MemoryEntry := parsed ≫= po_memories.
Definition allGlobals (parsed : list ParsedObject) : list GlobalEntry := parsed ≫= po_globals.

Definition allFunctions (mods : list (Z * ParsedObject * ModuleOffsets)) : list FunctionEntry :=
  mods ≫= λ m, (λ fn, mkFunction (fn_typeIdx fn + typeOffset m.2)) <$> po_functions m.1.2.

Definition allTags (mods : list (Z * ParsedObject * ModuleOffsets)) : list TagEntry :=
  mods ≫= λ m,
    (λ t, mkTag (tag_attribute t) (tag_typeIdx t + typeOffset m.2)) <$> po_tags m.1.2.

Definition relocate_export (off : ModuleOffsets) (e : ExportEntry) : ExportEntry :=
  mkExport (exp_name e) (exp_kind e)
    (exp_index e +
     (if exp_kind e =? 0 then funcOffset off
      else if exp_kind e =? 1 then tableOffset off
      else if exp_kind e =? 2 then memoryOffset off
      else if exp_kind e =? 3 then globalOffset off
      else 0)).

(** The exports of a module that is not the entry: with the trace variable
    set, its statement-trace globals under a qualified name. *)
Definition trace_exports (obj : ParsedObject) (off : ModuleOffsets) : list ExportEntry :=
  omap (λ e,
    if (exp_kind e =? 3) && bool_decide (js "__trace_last_stmt_" `prefix_of` exp_name e)
    then Some (mkExport (exp_name e ++ js "@" ++ po_name obj) 3 (exp_index e + globalOffset off))
    else None) (po_exports obj).

Definition exportEntries (trace : bool) (entry : option jsstr)
    (mods : list (Z * ParsedObject * ModuleOffsets)) : list ExportEntry :=
  mods ≫= λ m,
    let skipped := match entry with
      | Some en => negb (bool_decide (en = [])) && negb (bool_decide (po_name m.1.2 = en))
      | None => false end in
    if skipped then (if trace then trace_exports m.1.2 m.2 else [])
    else relocate_export m.2 <$> po_exports m.1.2.

Definition relocate_element (off : ModuleOffsets) (el : ElementEntry) : ElementEntry :=
  mkElement (el_flags el) (el_tableIdx el + tableOffset off) (el_offsetExpr el)
    ((λ i, i + funcOffset off) <$> el_funcIndices el)
    (el_elemCount el) (el_kindByte el) (el_elemExprs el).

Definition allElements (mods : list (Z * ParsedObject * ModuleOffsets)) : list ElementEntry :=
  mods ≫= λ m, relocate_element m.2 <$> po_elements m.1.2.

Definition allCode (mods : list (Z * ParsedObject * ModuleOffsets))
  : list (Z * ParsedObject * ModuleOffsets * CodeEntry) :=
  mods ≫= λ m, (λ c, (m, c)) <$> po_code m.1.2.

Definition emit_code_section (parsed : list ParsedObject) (resolution : Resolution)
    (offsets : list ModuleOffsets) (enc : WasmEncoder) : result WasmEncoder :=
  let mods := modules_of parsed offsets in
  if bool_decide (0 < length (allFunctions mods))%nat then
    section SECTION_code (λ s,
      s ← u32 (Z.of_nat (length (allFunctions mods))) s;
      for_each (allCode mods) (emit_code offsets resolution) s) enc
  else Ok enc.

Definition emit_sections (trace : bool) (parsed : list ParsedObject) (resolution : Resolution)
    (offsets : list ModuleOffsets) (entry : option jsstr) (enc : WasmEncoder)
  : result WasmEncoder :=
  let mods := modules_of parsed offsets in
  enc ← emit_items SECTION_type (allTypes parsed) emit_type enc;
  enc ← emit_items SECTION_function (allFunctions mods) emit_function enc;
  enc ← emit_items SECTION_table (allTables parsed) emit_table enc;
  enc ← emit_items SECTION_memory (allMemories parsed) emit_memory enc;
  enc ← emit_items SECTION_tag (allTags mods) emit_tag enc;
  enc ← emit_items SECTION_global (allGlobals parsed) emit_global enc;
  enc ← emit_items SECTION_export (exportEntries trace entry mods) emit_export enc;
  enc ← emit_items SECTION_element (allElements mods) emit_element enc;
  emit_code_section parsed resolution offsets enc.

Definition emitLinked (trace : bool) (parsed : list ParsedObject) (resolution : Resolution)
    (offsets : list ModuleOffsets) (entry : option jsstr) : result (list Z) :=
  enc ← bytes_array [0x00; 0x61; 0x73; 0x6d] new;
  enc ← bytes_array [0x01; 0x00; 0x00; 0x00] enc;
  enc ← emit_sections trace parsed resolution offsets entry enc;
  Ok (finish enc).
End emission.

(** * The WAT stub *)

Definition find_export (obj : ParsedObject) (i : Z) : option ExportEntry :=
  snd <$> list_find (λ e, exp_kind e = 0 ∧ exp_index e = i) (po_exports obj).

Definition wat_function (obj : ParsedObject) (off : ModuleOffsets) (i : nat) (f : FunctionEntry)
  : jsstr :=
  let globalIdx := Z.of_nat i + funcOffset off in
  let exportClause := match find_export obj (Z.of_nat i) with
    | Some e => js " (export " ++ quoted (exp_name e) ++ js ")"
    | None => [] end in
  js "  (func $f" ++ js_num globalIdx ++ exportClause ++ js " (type "
  ++ js_num (fn_typeIdx f + typeOffset off) ++ js "))".

Definition wat_memory (off : ModuleOffsets) (i : nat) (m : MemoryEntry) : jsstr :=
  let globalIdx := Z.of_nat i + memoryOffset off in
  let maxStr := match mem_max m with Some x => js " " ++ js_num x | None => [] end in
  js "  (memory $mem" ++ js_num globalIdx ++ js " " ++ js_num (mem_min m) ++ maxStr ++ js ")".

Definition wat_module (obj : ParsedObject) (off : ModuleOffsets) : list jsstr :=
  [js "  ;; from " ++ po_name obj]
  ++ imap (wat_function obj off) (po_functions obj)
  ++ imap (wat_memory off) (po_memories obj).

Definition newline : Z := 10.

Definition generateWatStub (parsed : list ParsedObject) (offsets : list ModuleOffsets) : jsstr :=
  join_with [newline]
    ([js "(module"] ++ (zip parsed offsets ≫= λ p, wat_module p.1 p.2) ++ [js ")"]).

Definition emptyIsolationReport (parsed : list ParsedObject) : IsolationReport :=
  mkReport (po_name <$> parsed) true true true true true [].

(** * The driver *)

(** The message of a caught exception. *)
Definition fault_message (f : fault) : jsstr :=
  match f with Throw _ msg => msg | OutOfFuel | NotModelled => [] end.

Section driver.
Context `{TextCodec}.

(** The parse loop: the objects that parse, and an error for each other. *)
Definition parse_one (st : list ParsedObject * list LinkError) (e : jsstr * list Z)
  : list ParsedObject * list LinkError :=
  let '(parsed, errors) := st in
  let '(nm, bs) := e in
  match parseObject nm bs with
  | Ok o => (parsed ++ [o], errors)
  | Err f =>
      (parsed, errors ++ [mkLinkError (js "Failed to parse " ++ quoted nm ++ js ": "
                                       ++ fault_message f) (Some nm) true])
  end.

Definition parse_all (objects : jsmap jsstr (list Z)) : list ParsedObject * list LinkError :=
  foldl parse_one ([], []) objects.

Definition has_errors (errors : list LinkError) : bool := existsb le_is_error errors.

Definition link (trace : bool) (objects : jsmap jsstr (list Z)) (options : option LinkOptions)
  : result LinkResult :=
  let doIsolation := match options with
    | Some o => negb (bool_decide (opt_validateIsolation o = Some false)) | None => true end in
  let '(parsed, errors) := parse_all objects in
  if has_errors errors then
    Ok (mkLinkResult [] [] false errors (emptyIsolationReport parsed))
  else
    let resolution := resolveSymbols parsed in
    let errors := errors ++ ((λ m, mkLinkError m None true) <$> res_errors resolution) in
    rep ← (if doIsolation then
             isolationReport ← validateIsolation parsed resolution;
             Ok (isolationReport,
                 errors ++ ((λ v, mkLinkError (iv_message v) (Some (iv_module v)) false)
                            <$> ir_violations isolationReport))
           else Ok (emptyIsolationReport parsed, errors));
    let '(isolationReport, errors) := rep in
    if has_errors errors then Ok (mkLinkResult [] [] false errors isolationReport)
    else
      let offsets := computeOffsets parsed in
      match emitLinked trace parsed resolution offsets
              (match options with Some o => opt_entry o | None => None end) with
      | Ok binary =>
          Ok (mkLinkResult binary (generateWatStub parsed offsets) true errors isolationReport)
      | Err f =>
          Ok (mkLinkResult [] [] false
                (errors ++ [mkLinkError (js "Link error: " ++ fault_message f) None true])
                isolationReport)
      end.
End driver.

(** * LEB128 in the linker *)

Lemma appendLEB_loop_spec fuel out v :
  (0 < fuel)%nat → 0 ≤ v < 2 ^ 32 → v < 2 ^ (7 * Z.of_nat fuel) →
  appendLEB_loop fuel out v = Ok (out ++ uleb fuel v).
Proof.
  revert out v. induction fuel as [|f IH]; intros out v Hp Hv Hf; [lia|].
  cbn [appendLEB_loop uleb]. rewrite js_and_7f, js_shru_spec by lia. change (2 ^ 7) with 128.
  destruct (Z.ltb_spec v 128) as [Hlt|Hge].
  - by rewrite Z.div_small, (Z.mod_small v 128) by lia.
  - assert (1 ≤ v / 128) by (apply Z.div_le_lower_bound; lia).
    destruct (Z.eqb_spec (v / 128) 0) as [?|_]; [lia|]. cbn [negb].
    pose proof (Z.mod_pos_bound v 128). rewrite js_or_80 by lia.
    assert (v / 128 < 2 ^ (7 * Z.of_nat f)) as Hb.
    { apply Z.div_lt_upper_bound; [lia|].
      replace (7 * Z.of_nat (S f)) with (7 + 7 * Z.of_nat f) in Hf by lia.
      rewrite Z.pow_add_r in Hf by lia. lia. }
    destruct f; [simpl in Hb; lia|]. rewrite IH; [|lia| |done].
    + by rewrite <- app_assoc.
    + split; [lia|]. apply Z.div_lt_upper_bound; lia.
Qed.

Lemma appendLEB128_eq out v : appendLEB128 out v = Ok (out ++ uleb32 (to_uint32 v)).
Proof.
  unfold appendLEB128, js_shru. rewrite Z.mod_0_l, Z.shiftr_0_r by lia.
  pose proof (to_uint32_range v). apply appendLEB_loop_spec; [lia|done|].
  change (7 * Z.of_nat 5) with 35. lia.
Qed.

(** The linker's reader agrees with the object reader's where the latter does
    not hit the end of the file. *)
Lemma readLEB_loop_reader fuel data pos res shift size r p :
  0 ≤ pos + size →
  ByteReader.leb_loop fuel res shift data (pos + size) = Ok (r, p) →
  readLEB_loop fuel data pos res shift size = Ok (r.1.1 .>>> 0, p - pos).
Proof.
  revert res shift size. induction fuel as [|f IH]; intros res shift size Hs H; [done|].
  cbn [ByteReader.leb_loop readLEB_loop] in *. unfold mbind, parser_bind, ByteReader.byte in H.
  destruct (_ <=? _); [done|]. unfold byte_or_0.
  destruct (data !! Z.to_nat (pos + size)) as [b|]; [|done].
  destruct (has_flag b 0x80).
  - apply IH; [lia|]. by replace (pos + (size + 1)) with (pos + size + 1) by lia.
  - unfold mret, parser_ret in H. injection H as <- <-. simpl. f_equal. f_equal. lia.
Qed.

Lemma length_uleb32_pos v : 0 ≤ v < 2 ^ 32 → (0 < length (uleb32 v))%nat.
Proof. intros. unfold uleb32. cbn [uleb]. destruct (v <? 128); simpl; lia. Qed.

Lemma readLEB128_uleb pre v suf :
  0 ≤ v < 2 ^ 32 →
  readLEB128 (pre ++ uleb32 v ++ suf) (Z.of_nat (length pre)) = Ok (v, Z.of_nat (length (uleb32 v))).
Proof.
  intros Hv. pose proof (reads_u32 v Hv pre suf) as H.
  unfold ByteReader.u32, mbind, parser_bind, ByteReader.leb in H. unfold readLEB128.
  destruct (ByteReader.leb_loop _ 0 0 _ _) as [[r p]|] eqn:E; [|done].
  unfold mret, parser_ret in H. injection H as Hv' ->.
  erewrite readLEB_loop_reader; [|lia|rewrite Z.add_0_r; exact E].
  rewrite Hv'. f_equal. f_equal. lia.
Qed.

Lemma uleb32_bytes v : 0 ≤ v < 2 ^ 32 → Forall is_byte (uleb32 v).
Proof.
  intros Hv. unfold uleb32.
  destruct (uleb_groups 5 v) as (gs & -> & _ & _ & Hg & _);
    [change (7 * Z.of_nat 5) with 35; lia|lia|].
  clear Hv. induction Hg as [|g gs Hg Hgs IH]; [constructor|]. unfold is_group, is_byte in *.
  destruct gs as [|g' gs]; [by repeat constructor; lia|].
  rewrite cont_cons by done. constructor; [lia|done].
Qed.

(** * Bodies as instruction lists *)

(** The instructions the rewriter knows, and the runs of bytes between them. *)
Inductive instr :=
  | IOther (b : Z)
  | ICall (f : Z)
  | IGlobalGet (g : Z)
  | IGlobalSet (g : Z)
  | IMemorySize (m : Z)
  | IMemoryGrow (m : Z)
  | ICallIndirect (t tbl : Z).

Definition enc_instr (i : instr) : list Z :=
  match i with
  | IOther b => [b]
  | ICall f => 0x10 :: uleb32 f
  | IGlobalGet g => 0x23 :: uleb32 g
  | IGlobalSet g => 0x24 :: uleb32 g
  | IMemorySize m => 0x3f :: uleb32 m
  | IMemoryGrow m => 0x40 :: uleb32 m
  | ICallIndirect t tbl => 0x11 :: uleb32 t ++ uleb32 tbl
  end.

Definition rewritten_opcodes : list Z := [0x10; 0x11; 0x23; 0x24; 0x3f; 0x40].

Definition u32_ok (v : Z) : Prop := 0 ≤ v < 2 ^ 32.

Section relocation.
Context (obj : ParsedObject) (modIdx : Z) (off : ModuleOffsets)
  (allOffsets : list ModuleOffsets) (resolution : Resolution).

Definition resolves (kind base n n' : Z) : Prop :=
  u32_ok n ∧ u32_ok n' ∧ resolveIndex n kind obj modIdx base allOffsets resolution = Ok n'.

(** What re-indexing means for one instruction. *)
Inductive relocates : instr → instr → Prop :=
  | reloc_other b : is_byte b → b ∉ rewritten_opcodes → relocates (IOther b) (IOther b)
  | reloc_call f f' : resolves SYMTAB_FUNCTION (funcOffset off) f f' →
      relocates (ICall f) (ICall f')
  | reloc_get g g' : resolves SYMTAB_GLOBAL (globalOffset off) g g' →
      relocates (IGlobalGet g) (IGlobalGet g')
  | reloc_set g g' : resolves SYMTAB_GLOBAL (globalOffset off) g g' →
      relocates (IGlobalSet g) (IGlobalSet g')
  | reloc_size m : u32_ok m → u32_ok (m + memoryOffset off) →
      relocates (IMemorySize m) (IMemorySize (m + memoryOffset off))
  | reloc_grow m : u32_ok m → u32_ok (m + memoryOffset off) →
      relocates (IMemoryGrow m) (IMemoryGrow (m + memoryOffset off))
  | reloc_indirect t tbl tbl' : u32_ok t → u32_ok (t + typeOffset off) →
      resolves SYMTAB_TABLE (tableOffset off) tbl tbl' →
      relocates (ICallIndirect t tbl) (ICallIndirect (t + typeOffset off) tbl').

Lemma enc_instr_bytes i i' : relocates i i' → Forall is_byte (enc_instr i').
Proof.
  destruct 1; unfold resolves, u32_ok in *; cbn [enc_instr];
    (apply Forall_cons; split; [first [done | unfold is_byte; lia]|]);
    rewrite ?Forall_app; try split; first [apply uleb32_bytes; tauto | constructor].
Qed.

Lemma appendLEB128_small out v : u32_ok v → appendLEB128 out v = Ok (out ++ uleb32 v).
Proof. intros Hv. by rewrite appendLEB128_eq, to_uint32_small. Qed.

(** Reading the number that follows [pre ++ [op]]. *)
Lemma readLEB128_after pre op v suf :
  u32_ok v →
  readLEB128 (pre ++ (op :: uleb32 v) ++ suf) (Z.of_nat (length pre) + 1)
  = Ok (v, Z.of_nat (length (uleb32 v))).
Proof.
  intros Hv. replace (pre ++ (op :: uleb32 v) ++ suf) with ((pre ++ [op]) ++ uleb32 v ++ suf)
    by (by rewrite <- !app_assoc).
  rewrite <- (readLEB128_uleb (pre ++ [op]) v suf Hv). f_equal. rewrite length_app. simpl. lia.
Qed.

(** The turns for one re-indexed number: through [resolveIndex], or by the
    memory offset. *)
Local Ltac relocated_index op H :=
  exists op; split; [by apply list_lookup_middle|]; destruct H as (? & ? & Hres);
  unfold rewrite_step; simpl Z.eqb; cbv iota zeta; rewrite readLEB128_after by done; csimpl;
  rewrite Hres; csimpl; rewrite appendLEB128_small by done; csimpl;
  rewrite <- app_assoc; do 2 f_equal; lia.

Local Ltac relocated_memory op :=
  exists op; split; [by apply list_lookup_middle|];
  unfold rewrite_step; simpl Z.eqb; cbv iota zeta; rewrite readLEB128_after by done; csimpl;
  rewrite appendLEB128_small by done; csimpl; rewrite <- app_assoc; do 2 f_equal; lia.

Lemma rewrite_step_spec i i' pre suf out :
  relocates i i' →
  let body := pre ++ enc_instr i ++ suf in
  ∃ op, body !! length pre = Some op ∧
  rewrite_step obj modIdx off allOffsets resolution body op out (Z.of_nat (length pre))
  = Ok (out ++ enc_instr i', Z.of_nat (length (pre ++ enc_instr i))).
Proof.
  intros Hr body. rewrite length_app, Nat2Z.inj_add. destruct Hr; subst body; cbn [enc_instr].
  - exists b. split; [by apply list_lookup_middle|]. unfold rewrite_step.
    assert (∀ k, k ∈ rewritten_opcodes → (b =? k) = false) as Hb
      by (intros k Hk; apply Z.eqb_neq; congruence).
    by rewrite !Hb by (unfold rewritten_opcodes; set_solver).
  - relocated_index 0x10 H.
  - relocated_index 0x23 H.
  - relocated_index 0x24 H.
  - relocated_memory 0x3f.
  - relocated_memory 0x40.
  - exists 0x11. split; [by apply list_lookup_middle|]. destruct H1 as (Hf & Hf' & Hres).
    unfold rewrite_step. simpl Z.eqb. cbv iota zeta.
    rewrite app_comm_cons, <- (app_assoc (_ :: _)).
    rewrite readLEB128_after by done. csimpl. rewrite appendLEB128_small by done. csimpl.
    replace (pre ++ 0x11 :: uleb32 t ++ uleb32 tbl ++ suf)
      with ((pre ++ 0x11 :: uleb32 t) ++ uleb32 tbl ++ suf) by (by rewrite <- app_assoc).
    replace (Z.of_nat (length pre) + 1 + Z.of_nat (length (uleb32 t)))
      with (Z.of_nat (length (pre ++ 0x11 :: uleb32 t))) by (rewrite length_app; simpl; lia).
    rewrite readLEB128_uleb by done. csimpl. rewrite Hres. csimpl.
    rewrite appendLEB128_small by done. csimpl. rewrite !length_app, <- !app_assoc.
    do 2 f_equal. simpl. lia.
Qed.

Lemma rewrite_loop_spec il il' pre out fuel :
  Forall2 relocates il il' → (length (il ≫= enc_instr) < fuel)%nat →
  rewrite_loop obj modIdx off allOffsets resolution fuel (pre ++ (il ≫= enc_instr))
    (Z.of_nat (length pre)) out
  = Ok (out ++ (il' ≫= enc_instr)).
Proof.
  intros Hr. revert pre out fuel.
  induction Hr as [|i i' il il' Hi Hr IH]; intros pre out fuel Hf;
    (destruct fuel as [|fuel]; [lia|]); cbn [rewrite_loop].
  - cbn [mbind list_bind]. rewrite !app_nil_r, Z.ltb_irrefl. done.
  - rewrite !bind_cons in *. rewrite length_app in Hf.
    destruct (rewrite_step_spec i i' pre (il ≫= enc_instr) out Hi) as (op & Hop & Hstep).
    pose proof (lookup_lt_Some _ _ _ Hop).
    destruct (Z.ltb_spec (Z.of_nat (length pre))
      (Z.of_nat (length (pre ++ enc_instr i ++ (il ≫= enc_instr))))); [|lia].
    rewrite Nat2Z.id, Hop, Hstep. csimpl. rewrite app_assoc, IH.
    + by rewrite <- app_assoc.
    + destruct Hi; simpl in Hf; lia.
Qed.

Lemma rewriteCode_eq il il' :
  Forall2 relocates il il' →
  rewriteCode obj modIdx off allOffsets resolution (il ≫= enc_instr) = Ok (il' ≫= enc_instr).
Proof.
  intros Hr. unfold rewriteCode.
  rewrite (rewrite_loop_spec il il' [] [] _ Hr) by lia. csimpl. f_equal.
  assert (Forall is_byte (il' ≫= enc_instr)) as Hb.
  { induction Hr as [|i i' il il' Hi Hr IH]; [constructor|]. rewrite bind_cons.
    apply Forall_app. split; [by eapply enc_instr_bytes|done]. }
  clear Hr. induction Hb as [|b l Hb Hl IH]; [done|]. simpl. rewrite IH.
  unfold is_byte in Hb. by rewrite Z.mod_small by lia.
Qed.
End relocation.

(** * Termination of the emission *)

Lemma readLEB_loop_terminates fuel data pos res shift size :
  0 ≤ pos → 0 ≤ size → Z.max 0 (Z.of_nat (length data) - (pos + size)) < Z.of_nat fuel →
  ∃ v n, readLEB_loop fuel data pos res shift size = Ok (v, n) ∧ size < n.
Proof.
  revert res shift size. induction fuel as [|f IH]; intros res shift size Hp Hs Hf; [lia|].
  cbn [readLEB_loop]. unfold byte_or_0.
  destruct (data !! Z.to_nat (pos + size)) as [b|] eqn:Hb.
  - apply lookup_lt_Some in Hb. destruct (has_flag b 0x80).
    + destruct (IH (res .| ((b .& 0x7f) .<< shift)) (shift + 7) (size + 1)) as (v & n & -> & Hn);
        [lia..|]. exists v, n. split; [done|lia].
    + do 2 eexists. split; [done|lia].
  - replace (has_flag 0 0x80) with false by reflexivity. do 2 eexists. split; [done|lia].
Qed.

Lemma readLEB128_terminates data pos : 0 ≤ pos → ∃ v n, readLEB128 data pos = Ok (v, n) ∧ 0 < n.
Proof. intros Hp. apply readLEB_loop_terminates; lia. Qed.

Lemma resolve_in_terminates syms i n k m b offs res :
  settles (resolve_in syms i n k m b offs res).
Proof.
  revert i. induction syms as [|s syms IH]; intros i; [done|]. cbn [resolve_in].
  destruct (negb _); [apply IH|]. destruct (negb _); [apply IH|].
  destruct (has_flag _ _); [|done]. destruct (jm_get _ _); [|done].
  unfold offsets_at. destruct (if _ <? _ then _ else _); [|done]. csimpl. by repeat case_match.
Qed.

Section rewrite_termination.
Context (obj : ParsedObject) (modIdx : Z) (off : ModuleOffsets)
  (allOffsets : list ModuleOffsets) (resolution : Resolution).

(** A turn moves the position on, or throws. *)
Definition moves (pos : Z) (r : result (list Z * Z)) : Prop :=
  match r with Ok (_, pos') => pos < pos' | Err e => thrown e end.

Lemma index_moves body kind base out pos :
  0 ≤ pos →
  moves pos (r ← readLEB128 body pos;
             newIdx ← resolveIndex r.1 kind obj modIdx base allOffsets resolution;
             out ← appendLEB128 out newIdx;
             Ok (out, pos + r.2)).
Proof.
  intros Hp. destruct (readLEB128_terminates body pos Hp) as (v & n & -> & Hn). csimpl.
  pose proof (resolve_in_terminates (po_symbols obj) 0 v kind modIdx base allOffsets resolution).
  unfold resolveIndex. destruct (resolve_in _ _ _ _ _ _ _ _) as [i|e]; csimpl; [|done].
  rewrite appendLEB128_eq. csimpl. lia.
Qed.

Lemma moves_weaken pos pos' r : pos ≤ pos' → moves pos' r → moves pos r.
Proof. destruct r as [[? ?]|]; simpl; [lia|done]. Qed.

Lemma rewrite_step_moves body op out pos :
  0 ≤ pos → moves pos (rewrite_step obj modIdx off allOffsets resolution body op out pos).
Proof.
  intros Hp. unfold rewrite_step. cbv zeta.
  destruct (op =? 0x10); [eapply moves_weaken; [|apply index_moves]; lia|].
  destruct (_ || _); [eapply moves_weaken; [|apply index_moves]; lia|].
  destruct (_ || _).
  { destruct (readLEB128_terminates body (pos + 1)) as (v & n & -> & Hn); [lia|]. csimpl.
    rewrite appendLEB128_eq. csimpl. lia. }
  destruct (op =? 0x11); [|simpl; lia].
  destruct (readLEB128_terminates body (pos + 1)) as (v & n & -> & Hn); [lia|]. csimpl.
  rewrite appendLEB128_eq. cbn [mbind result_bind].
  eapply moves_weaken; [|apply index_moves]; lia.
Qed.

Lemma rewrite_loop_terminates fuel body pos out :
  0 ≤ pos → Z.max 0 (Z.of_nat (length body) - pos) < Z.of_nat fuel →
  settles (rewrite_loop obj modIdx off allOffsets resolution fuel body pos out).
Proof.
  revert pos out. induction fuel as [|f IH]; intros pos out Hp Hf; [lia|]. cbn [rewrite_loop].
  destruct (Z.ltb_spec pos (Z.of_nat (length body))); [|done].
  destruct (lookup_lt_is_Some_2 body (Z.to_nat pos)) as [op ->]; [lia|].
  pose proof (rewrite_step_moves body op out pos Hp) as Hm.
  destruct (rewrite_step _ _ _ _ _ _ _ _ _) as [[out' pos']|e]; csimpl in *; [|done].
  apply IH; lia.
Qed.

Lemma rewriteCode_terminates body :
  settles (rewriteCode obj modIdx off allOffsets resolution body).
Proof.
  unfold rewriteCode.
  pose proof (rewrite_loop_terminates (S (length body)) body 0 [] ltac:(lia) ltac:(lia)).
  by destruct (rewrite_loop _ _ _ _ _ _ _ _ _).
Qed.
End rewrite_termination.

Section emission_termination.
Context `{TextCodec}.
Import WasmEncoder.

(** [m] ends with a value or an exception on a well-formed encoder. *)
Definition safe (m : WasmEncoder → result WasmEncoder) : Prop :=
  ∀ e, wf e → match m e with Ok e' => wf e' | Err f => thrown f end.

Lemma emits_safe m bs : emits m bs → safe m.
Proof. intros Hm e He. by destruct (Hm e He) as (e' & -> & ? & _). Qed.

Lemma safe_ok : safe Ok.
Proof. by intros e He. Qed.

Lemma safe_bind m k : safe m → safe k → safe (λ e, e' ← m e; k e').
Proof.
  intros Hm Hk e He. specialize (Hm e He). destruct (m e) as [e'|]; csimpl; [by apply Hk|done].
Qed.

Lemma safe_byte b : safe (byte b).
Proof. eapply emits_safe, emits_byte. Qed.

Lemma safe_bytes bs : safe (bytes bs).
Proof. eapply emits_safe, emits_bytes. Qed.

Lemma safe_bytes_array bs : safe (bytes_array bs).
Proof. eapply emits_safe, emits_bytes_array. Qed.

Lemma safe_u32 v : safe (u32 v).
Proof.
  destruct (decide (0 ≤ v < 2 ^ 32)) as [Hv|Hv]; [by eapply emits_safe, emits_u32|].
  intros e He. rewrite u32_out_of_range; [done|]. lia.
Qed.

Lemma safe_name s : safe (name s).
Proof. apply (safe_bind (u32 _)); [apply safe_u32|apply safe_bytes]. Qed.

Lemma safe_for_each {A} (l : list A) f : (∀ x, safe (f x)) → safe (for_each l f).
Proof.
  intros Hf. induction l as [|x l IH]; [apply safe_ok|].
  apply (safe_bind (f x) (for_each l f)); done.
Qed.

Lemma safe_section id content : safe content → safe (section id content).
Proof.
  intros Hc e He. unfold section. specialize (Hc new wf_new).
  destruct (content new) as [sub|]; csimpl; [|done].
  apply (safe_bind (byte id) (λ e, e ← u32 (Z.of_nat (length (finish sub))) e; bytes (finish sub) e));
    [apply safe_byte| |done].
  apply safe_bind; [apply safe_u32|apply safe_bytes].
Qed.

Lemma safe_items {A} id (l : list A) item : (∀ x, safe (item x)) → safe (emit_items id l item).
Proof.
  intros Hi. unfold emit_items. case_bool_decide; [|apply safe_ok].
  apply safe_section, safe_bind; [apply safe_u32|by apply safe_for_each].
Qed.
End emission_termination.

(** Splits an encoder operation into the methods it calls. *)
Ltac safe :=
  repeat first
    [ apply safe_byte | apply safe_bytes | apply safe_u32 | apply safe_name | apply safe_ok
    | apply safe_for_each; intros ?
    | match goal with
      | |- safe (λ s, if ?b then _ else _) => destruct b
      | |- safe (λ s, match ?o with Some _ => _ | None => _ end) => destruct o
      | |- safe (match ?o with Some _ => _ | None => _ end) => destruct o
      end
    | apply safe_bind ].

Section emitLinked_termination.
Context `{TextCodec}.
Import WasmEncoder.

Lemma safe_limits mn mx : safe (emit_limits mn mx).
Proof. destruct mx; unfold emit_limits; safe. Qed.

Lemma safe_element el : safe (emit_element el).
Proof.
  unfold emit_element. cbv zeta. safe.
Qed.

Lemma safe_code offsets res c : safe (emit_code offsets res c).
Proof.
  destruct c as [[[m obj] off] code]. intros e He. unfold emit_code.
  assert (safe (λ b, b ← u32 (Z.of_nat (length (cd_locals code))) b;
                     for_each (cd_locals code) emit_local b)) as Hl by (unfold emit_local; safe).
  specialize (Hl new wf_new). cbv beta in Hl.
  destruct (u32 _ new) as [b1|]; csimpl in *; [|done].
  destruct (for_each _ _ b1) as [b2|]; csimpl in *; [|done].
  pose proof (rewriteCode_terminates obj m off offsets res (cd_body code)).
  destruct (rewriteCode _ _ _ _ _ _) as [body|f]; csimpl; [|done].
  pose proof (safe_bytes body b2 Hl). destruct (bytes body b2) as [b3|]; csimpl; [|done].
  apply (safe_bind (u32 (Z.of_nat (length (finish b3)))) (bytes (finish b3))); [safe|safe|done].
Qed.

Lemma safe_sections trace parsed res offsets entry :
  safe (emit_sections trace parsed res offsets entry).
Proof.
  unfold emit_sections. cbv zeta.
  apply safe_bind; [apply safe_items; intros ?; unfold emit_type; safe|].
  apply safe_bind; [apply safe_items; intros ?; unfold emit_function; safe|].
  apply safe_bind; [apply safe_items; intros ?; unfold emit_table, emit_limits; safe|].
  apply safe_bind; [apply safe_items; intros ?; unfold emit_memory; apply safe_limits|].
  apply safe_bind; [apply safe_items; intros ?; unfold emit_tag; safe|].
  apply safe_bind; [apply safe_items; intros ?; unfold emit_global; safe|].
  apply safe_bind; [apply safe_items; intros ?; unfold emit_export; safe|].
  apply safe_bind; [apply safe_items, safe_element|].
  unfold emit_code_section. cbv zeta. case_bool_decide; [|apply safe_ok].
  apply safe_section, safe_bind; [apply safe_u32|apply safe_for_each, safe_code].
Qed.

Lemma emitLinked_fuel trace parsed res offsets entry :
  settles (emitLinked trace parsed res offsets entry).
Proof.
  unfold emitLinked.
  pose proof (safe_bytes_array [0x00; 0x61; 0x73; 0x6d] new wf_new) as H1.
  destruct (bytes_array _ new) as [e1|]; csimpl; [|done].
  pose proof (safe_bytes_array [0x01; 0x00; 0x00; 0x00] e1 H1) as H2.
  destruct (bytes_array _ e1) as [e2|]; csimpl; [|done].
  pose proof (safe_sections trace parsed res offsets entry e2 H2) as H3.
  destruct (emit_sections _ _ _ _ _ e2) as [e3|]; csimpl; done.
Qed.
End emitLinked_termination.

(** * The merged index spaces *)

Lemma bind_lookup {A B} (f : A → list B) l m x k :
  l !! m = Some x → (k < length (f x))%nat →
  (l ≫= f) !! (sum_list_with (length ∘ f) (take m l) + k)%nat = f x !! k.
Proof.
  revert m. induction l as [|y l IH]; intros m Hm Hk; [done|]. rewrite bind_cons.
  destruct m as [|m]; simpl in *.
  - simplify_eq. by rewrite lookup_app_l.
  - rewrite lookup_app_r by lia.
    replace (length (f y) + sum_list_with (length ∘ f) (take m l) + k - length (f y))%nat
      with (sum_list_with (length ∘ f) (take m l) + k)%nat by lia. by apply IH.
Qed.

Lemma length_offsets_from o parsed : length (offsets_from o parsed) = length parsed.
Proof. revert o. induction parsed as [|obj l IH]; intros o; simpl; [done|]. by rewrite IH. Qed.

Lemma length_computeOffsets parsed : length (computeOffsets parsed) = length parsed.
Proof. apply length_offsets_from. Qed.

(** The offset of a module in one index space: the sizes of the modules before
    it, their imports included. *)
Definition sizes (n : ParsedObject → nat) (kind : Z) (l : list ParsedObject) : Z :=
  Z.of_nat (sum_list_with n l) + Z.of_nat (sum_list_with (λ o, Z.to_nat (count_imports o kind)) l).

Lemma offsets_from_lookup o parsed m off :
  offsets_from o parsed !! m = Some off →
  let before := take m parsed in
  typeOffset off = typeOffset o + Z.of_nat (sum_list_with (length ∘ po_types) before) ∧
  funcOffset off = funcOffset o + sizes (length ∘ po_functions) 0 before ∧
  globalOffset off = globalOffset o + sizes (length ∘ po_globals) 3 before ∧
  memoryOffset off = memoryOffset o + sizes (length ∘ po_memories) 2 before ∧
  tableOffset off = tableOffset o + sizes (length ∘ po_tables) 1 before ∧
  tagOffset off = tagOffset o + sizes (length ∘ po_tags) 4 before.
Proof.
  revert o m. induction parsed as [|obj l IH]; intros o m Hm; [done|].
  destruct m as [|m]; simpl in Hm.
  - simplify_eq. unfold sizes. simpl. lia.
  - apply IH in Hm. unfold sizes, next_offsets in *. simpl in *.
    assert (∀ k, 0 ≤ count_imports obj k) as Hc by (unfold count_imports; lia).
    pose proof (Hc 0). pose proof (Hc 1). pose proof (Hc 2). pose proof (Hc 3). pose proof (Hc 4).
    lia.
Qed.

Lemma modules_of_lookup parsed m obj off :
  parsed !! m = Some obj → computeOffsets parsed !! m = Some off →
  modules_of parsed (computeOffsets parsed) !! m = Some (Z.of_nat m, obj, off).
Proof.
  intros Ho Hoff. unfold modules_of. rewrite list_lookup_imap, lookup_zip_with, Ho. simpl.
  by rewrite Hoff.
Qed.

Lemma modules_of_objects parsed offsets :
  length offsets = length parsed → (λ m, m.1.2) <$> modules_of parsed offsets = parsed.
Proof.
  intros Hl. apply list_eq. intros i. unfold modules_of.
  rewrite list_lookup_fmap, list_lookup_imap, lookup_zip_with.
  destruct (parsed !! i) as [o|] eqn:Ho; csimpl; [|done].
  destruct (lookup_lt_is_Some_2 offsets i) as [off ->]; [|done].
  rewrite Hl. by eapply lookup_lt_Some.
Qed.

(** A property of the modules' objects, summed over the first modules. *)
Lemma sum_modules parsed m (n : ParsedObject → nat) :
  sum_list_with (λ x, n x.1.2) (take m (modules_of parsed (computeOffsets parsed)))
  = sum_list_with n (take m parsed).
Proof.
  pose proof (modules_of_objects parsed (computeOffsets parsed) (length_computeOffsets _)) as E.
  revert E. generalize (modules_of parsed (computeOffsets parsed)) as mods. intros mods <-.
  rewrite <- fmap_take. generalize (take m mods) as l.
  intros l. induction l as [|x l IH]; csimpl; [done|]. by rewrite IH.
Qed.

(** No module up to [m] imports an item of this kind. *)
Definition no_imports (parsed : list ParsedObject) (m : nat) (kind : Z) : Prop :=
  ∀ i o, (i ≤ m)%nat → parsed !! i = Some o → count_imports o kind = 0.

Lemma sum_list_with_zero {A} (f : A → nat) l : (∀ x, x ∈ l → f x = 0%nat) → sum_list_with f l = 0%nat.
Proof.
  intros Hz. induction l as [|x l IH]; simpl; [done|].
  rewrite Hz by left. apply IH. intros y Hy. apply Hz. by right.
Qed.

Lemma sizes_no_imports n kind parsed m :
  no_imports parsed m kind → sizes n kind (take m parsed) = Z.of_nat (sum_list_with n (take m parsed)).
Proof.
  intros Hno. unfold sizes.
  rewrite (sum_list_with_zero (λ o, Z.to_nat (count_imports o kind))); [lia|].
  intros o [i [Ho Hi]%lookup_take_Some]%list_elem_of_lookup. by rewrite (Hno i o) by (done || lia).
Qed.

Section merged.
Context (parsed : list ParsedObject) (m : nat) (obj : ParsedObject) (off : ModuleOffsets).
Context (Hobj : parsed !! m = Some obj) (Hoff : computeOffsets parsed !! m = Some off).

(** An item of module [m] in a merged list that concatenates the modules' own. *)
Lemma merged_item {A} (f : ParsedObject → list A) base kind k :
  base = sizes (length ∘ f) kind (take m parsed) → no_imports parsed m kind →
  (k < length (f obj))%nat → (parsed ≫= f) !! Z.to_nat (base + Z.of_nat k) = f obj !! k.
Proof.
  intros -> Hno Hk. rewrite sizes_no_imports by done.
  replace (Z.to_nat _) with (sum_list_with (length ∘ f) (take m parsed) + k)%nat by lia.
  by apply bind_lookup.
Qed.

(** The same for the lists that depend on the module's offsets. *)
Lemma module_item_at {A} (g : Z * ParsedObject * ModuleOffsets → list A)
    (n : ParsedObject → nat) k :
  (∀ x, length (g x) = n x.1.2) → (k < n obj)%nat →
  (modules_of parsed (computeOffsets parsed) ≫= g) !! (sum_list_with n (take m parsed) + k)%nat
  = g (Z.of_nat m, obj, off) !! k.
Proof.
  intros Hg Hk. rewrite <- sum_modules.
  erewrite <- (bind_lookup g _ m) by (try (by apply modules_of_lookup); by rewrite Hg).
  do 2 f_equal. generalize (take m (modules_of parsed (computeOffsets parsed))) as l. intros l.
  induction l as [|x l IH]; simpl; [done|]. by rewrite Hg, IH.
Qed.

Lemma merged_function j fn :
  po_functions obj !! j = Some fn →
  allFunctions (modules_of parsed (computeOffsets parsed))
    !! (sum_list_with (length ∘ po_functions) (take m parsed) + j)%nat
  = Some (mkFunction (fn_typeIdx fn + typeOffset off)).
Proof.
  intros Hfn. unfold allFunctions. rewrite (module_item_at _ (length ∘ po_functions)).
  - by rewrite list_lookup_fmap; simpl; rewrite Hfn.
  - intros x. by rewrite length_fmap.
  - by eapply lookup_lt_Some.
Qed.
End merged.

(** * The driver *)

Section driver_spec.
Context `{TextCodec}.

Definition ok_object (e : jsstr * list Z) : option ParsedObject :=
  match parseObject e.1 e.2 with Ok o => Some o | Err _ => None end.

Definition parses (e : jsstr * list Z) : bool :=
  match parseObject e.1 e.2 with Ok _ => true | Err _ => false end.

Lemma has_errors_app l1 l2 : has_errors (l1 ++ l2) = has_errors l1 || has_errors l2.
Proof. apply existsb_app. Qed.

Lemma parse_fold objects parsed errors :
  (foldl parse_one (parsed, errors) objects).1 = parsed ++ omap ok_object objects ∧
  has_errors (foldl parse_one (parsed, errors) objects).2
  = has_errors errors || negb (forallb parses objects).
Proof.
  revert parsed errors. induction objects as [|[nm bs] l IH]; intros parsed errors.
  { simpl. by rewrite app_nil_r, orb_false_r. }
  cbn [foldl omap list_omap forallb]. unfold parse_one at 2 4, ok_object at 1, parses at 1. simpl.
  destruct (parseObject nm bs) as [o|f].
  - destruct (IH (parsed ++ [o]) errors) as [-> ->]. by rewrite <- app_assoc.
  - match goal with |- context [foldl parse_one (?p, ?e) l] => destruct (IH p e) as [-> ->] end.
    split; [done|]. rewrite has_errors_app. cbn [has_errors existsb le_is_error negb andb].
    by rewrite !orb_true_r.
Qed.

Lemma parse_all_spec objects :
  (parse_all objects).1 = omap ok_object objects ∧
  has_errors (parse_all objects).2 = negb (forallb parses objects).
Proof. apply (parse_fold objects [] []). Qed.

Lemma has_errors_resolution l :
  has_errors ((λ m, mkLinkError m None true) <$> l) = negb (bool_decide (l = [])).
Proof. by destruct l. Qed.

Lemma has_errors_warnings l :
  has_errors ((λ v, mkLinkError (iv_message v) (Some (iv_module v)) false) <$> l) = false.
Proof. induction l as [|v l IH]; [done|]. csimpl. done. Qed.

(** * Properties *)

(** C37: the driver never throws and its success flag is exact.  [link] returns a
    result on every input; it reports success exactly when every object parses,
    every symbol resolves without an error and the merged module is emitted, and
    the binary is then the emitted one; otherwise the binary and the text are
    empty and the error list holds at least one error (not only warnings). *)
Theorem link_total trace objects options :
  let parsed := omap ok_object objects in
  let entry := match options with Some o => opt_entry o | None => None end in
  ∃ r, link trace objects options = Ok r ∧
  ((lr_success r = true ∧ forallb parses objects = true
     ∧ res_errors (resolveSymbols parsed) = []
     ∧ emitLinked trace parsed (resolveSymbols parsed) (computeOffsets parsed) entry
       = Ok (lr_binary r)
     ∧ has_errors (lr_errors r) = false)
   ∨ (lr_success r = false ∧ lr_binary r = [] ∧ lr_wat r = []
      ∧ has_errors (lr_errors r) = true
      ∧ (forallb parses objects = false
         ∨ res_errors (resolveSymbols parsed) ≠ []
         ∨ ∃ k msg, emitLinked trace parsed (resolveSymbols parsed) (computeOffsets parsed) entry
                    = throw k msg))).
Proof.
  intros parsed entry. unfold link. destruct (parse_all_spec objects) as [Hp He].
  destruct (parse_all objects) as [parsed' errors]. simpl in Hp, He. subst parsed'.
  fold parsed. rewrite He. destruct (forallb parses objects) eqn:Hall; cbn [negb].
  2:{ eexists. split; [done|]. right. cbn [lr_success lr_binary lr_wat lr_errors].
      split_and!; [done..|by left]. }
  destruct (validateIsolation_eq parsed (resolveSymbols parsed)) as [vs Hvs];
    [apply resolver_range|].
  set (rep := if _ : bool then _ else _).
  assert (∃ ir ws, rep = Ok (ir, errors ++ ((λ m, mkLinkError m None true)
      <$> res_errors (resolveSymbols parsed)) ++ ws) ∧ has_errors ws = false) as (ir & ws & -> & Hws).
  { unfold rep. clear rep. match goal with |- context [if ?b then _ else _] => destruct b end.
    - rewrite Hvs. cbn [mbind result_bind ir_violations]. do 2 eexists.
      split; [by rewrite <- app_assoc|]. apply has_errors_warnings.
    - exists (emptyIsolationReport parsed), []. by rewrite app_nil_r. }
  cbn [mbind result_bind]. rewrite !has_errors_app, has_errors_resolution, Hws, He. cbn [negb].
  destruct (decide (res_errors (resolveSymbols parsed) = [])) as [Hres|Hres].
  2:{ rewrite bool_decide_false by done. eexists. split; [done|]. right.
      cbn [lr_success lr_binary lr_wat lr_errors].
      rewrite !has_errors_app, has_errors_resolution, bool_decide_false by done.
      cbn [negb]. rewrite orb_true_r. split_and!; [done..|by right; left]. }
  rewrite bool_decide_true by done. cbn [negb orb].
  pose proof (emitLinked_fuel trace parsed (resolveSymbols parsed) (computeOffsets parsed) entry).
  fold entry. destruct (emitLinked _ _ _ _ _) as [bs|[k msg| |]] eqn:Hem; [| |done..].
  - eexists. split; [done|]. left. cbn [lr_success lr_binary lr_errors].
    rewrite !has_errors_app, has_errors_resolution, Hws, He, bool_decide_true by done. done.
  - eexists. split; [done|]. right. cbn. rewrite !has_errors_app.
    split_and!; [done..|cbn; by rewrite !orb_true_r|]. right. right. by exists k, msg.
Qed.
End driver_spec.

(** C23: rewriting a body re-indexes it instruction by instruction.  When a body is
    the encoding of known instructions and of bytes that are none of their opcodes,
    [rewriteCode] succeeds and returns the encoding of the re-indexed instructions,
    each number at its natural LEB128 width and every other byte unchanged. *)
Theorem rewriteCode_relocates obj modIdx off allOffsets resolution il il' :
  Forall2 (relocates obj modIdx off allOffsets resolution) il il' →
  rewriteCode obj modIdx off allOffsets resolution (il ≫= enc_instr) = Ok (il' ≫= enc_instr).
Proof. apply rewriteCode_eq. Qed.

(** [call 100; global.get 1; end] at function offset 50: the index grows to two
    bytes. *)
Lemma rewriteCode_relocates_witness :
  rewriteCode (empty_object []) 0 (mkOffsets 0 50 7 0 0 0) [] (mkResolution [] [])
    [0x10; 100; 0x23; 1; 0x0b] = Ok [0x10; 0x96; 0x01; 0x23; 8; 0x0b].
Proof.
  apply (rewriteCode_relocates _ _ _ _ _ [ICall 100; IGlobalGet 1; IOther 0x0b]
    [ICall 150; IGlobalGet 8; IOther 0x0b]).
  repeat constructor; unfold is_byte, u32_ok; try lia.
  all: cbn; unfold SYMTAB_FUNCTION; try done.
  intros H. repeat (apply elem_of_cons in H as [H|H]; [discriminate H|]). by apply not_elem_of_nil in H.
Defined.

(** rewriting does not look at instruction boundaries.  In the body
    [i32.const 16; end] the constant's byte 0x10 is taken for a call and the [end]
    that follows for its function index, which the function offset then changes. *)
Theorem rewriteCode_misreads_constants :
  rewriteCodeForTest [0x41; 0x10; 0x0b] (mkOffsets 0 5 0 0 0 0) = Ok [0x41; 0x10; 0x10].
Proof. reflexivity. Qed.

(** the merged index of a type is right, and so are those of functions,
    globals, memories and tables as long as no module up to their own imports an
    item of that kind: at its offset plus the item's index, the merged list holds
    the module's item (functions with their type index re-based). *)
Theorem merged_index_correct parsed m obj off :
  parsed !! m = Some obj → computeOffsets parsed !! m = Some off →
  (∀ k, (k < length (po_types obj))%nat →
     allTypes parsed !! Z.to_nat (typeOffset off + Z.of_nat k) = po_types obj !! k) ∧
  (no_imports parsed m 0 → ∀ k fn, po_functions obj !! k = Some fn →
     allFunctions (modules_of parsed (computeOffsets parsed))
       !! Z.to_nat (funcOffset off + Z.of_nat k)
     = Some (mkFunction (fn_typeIdx fn + typeOffset off))) ∧
  (no_imports parsed m 3 → ∀ k, (k < length (po_globals obj))%nat →
     allGlobals parsed !! Z.to_nat (globalOffset off + Z.of_nat k) = po_globals obj !! k) ∧
  (no_imports parsed m 2 → ∀ k, (k < length (po_memories obj))%nat →
     allMemories parsed !! Z.to_nat (memoryOffset off + Z.of_nat k) = po_memories obj !! k) ∧
  (no_imports parsed m 1 → ∀ k, (k < length (po_tables obj))%nat →
     allTables parsed !! Z.to_nat (tableOffset off + Z.of_nat k) = po_tables obj !! k).
Proof.
  intros Hobj Hoff. destruct (offsets_from_lookup _ _ _ _ Hoff) as (Ht & Hf & Hg & Hm & Htb & _).
  simpl in *. split_and!.
  - intros k Hk. rewrite Ht.
    replace (Z.to_nat _) with (sum_list_with (length ∘ po_types) (take m parsed) + k)%nat by lia.
    by apply (bind_lookup po_types).
  - intros Hno k fn Hfn. rewrite Hf, sizes_no_imports by done.
    rewrite <- (merged_function parsed m obj off Hobj Hoff k fn Hfn). f_equal. lia.
  - intros Hno k Hk. by eapply (merged_item parsed m obj Hobj po_globals _ 3).
  - intros Hno k Hk. by eapply (merged_item parsed m obj Hobj po_memories _ 2).
  - intros Hno k Hk. by eapply (merged_item parsed m obj Hobj po_tables _ 1).
Qed.

(** Two modules of one type and one function each; the second one imports the
    function of the first. *)
Definition sample_lib : ParsedObject :=
  push_export (mkExport (js "f") 0 0) (push_function (mkFunction 0)
    (push_type (mkType [] []) (empty_object (js "lib")))).

Definition sample_main : ParsedObject :=
  push_export (mkExport (js "g") 0 1) (push_function (mkFunction 0)
    (push_import (import_func (js "lib") (js "f") 0)
      (push_type (mkType [] []) (empty_object (js "main"))))).

Lemma merged_index_correct_witness :
  allFunctions (modules_of [sample_lib; sample_lib] (computeOffsets [sample_lib; sample_lib]))
    !! 1%nat = Some (mkFunction 1).
Proof.
  apply (proj1 (proj2 (merged_index_correct [sample_lib; sample_lib] 1 sample_lib
    (mkOffsets 1 1 0 0 0 0) eq_refl eq_refl)) ltac:(intros [|[|i]] o Hi Ho; [..|lia];
      injection Ho as <-; reflexivity) 0%nat (mkFunction 0) eq_refl).
Defined.

(** How far the function indices are off.  The index that the linker writes for
    a module's local function (its own index, imports counted, plus the module's
    offset) exceeds the position of that function in the merged module by the number
    of functions imported by the modules up to its own; so it is right exactly when
    none of them imports a function. *)
Theorem function_index_shift parsed m obj off j fn :
  parsed !! m = Some obj → computeOffsets parsed !! m = Some off →
  po_functions obj !! j = Some fn →
  ∃ p shift,
    allFunctions (modules_of parsed (computeOffsets parsed)) !! p
      = Some (mkFunction (fn_typeIdx fn + typeOffset off)) ∧
    funcOffset off + (count_imports obj 0 + Z.of_nat j) = Z.of_nat p + shift ∧
    0 ≤ shift ∧ (shift = 0 ↔ no_imports parsed m 0).
Proof.
  intros Hobj Hoff Hfn. destruct (offsets_from_lookup _ _ _ _ Hoff) as (_ & Hf & _). simpl in Hf.
  pose (imports := λ o, Z.to_nat (count_imports o 0)).
  exists (sum_list_with (length ∘ po_functions) (take m parsed) + j)%nat,
    (Z.of_nat (sum_list_with imports (take (S m) parsed))).
  assert (take (S m) parsed = take m parsed ++ [obj]) as Htake by (by apply take_S_r).
  assert (∀ o, 0 ≤ count_imports o 0) as Hc by (intros o; unfold count_imports; lia).
  split_and!.
  - by apply merged_function with obj.
  - rewrite Hf. unfold sizes. rewrite Htake, sum_list_with_app. fold imports.
    replace (sum_list_with imports [obj]) with (Z.to_nat (count_imports obj 0))
      by (simpl; unfold imports; lia).
    change (sum_list_with (λ o, Z.to_nat (count_imports o 0))) with (sum_list_with imports).
    specialize (Hc obj). lia.
  - lia.
  - split.
    + intros Hz i o Hi Ho. specialize (Hc o).
      assert (imports o ≤ sum_list_with imports (take (S m) parsed))%nat as Hle.
      { apply sum_list_with_in. apply list_elem_of_lookup. exists i.
        apply lookup_take_Some. split; [done|lia]. }
      unfold imports at 1 in Hle. lia.
    + intros Hno. rewrite (sum_list_with_zero imports); [done|].
      intros o [i [Ho Hi]%lookup_take_Some]%list_elem_of_lookup.
      unfold imports. rewrite (Hno i o); [done|lia|done].
Qed.

(** Two modules; the second one's function is written at index 2 of two. *)
Lemma function_index_shift_witness :
  ∃ p shift,
    allFunctions (modules_of [sample_lib; sample_main] (computeOffsets [sample_lib; sample_main]))
      !! p = Some (mkFunction 1) ∧
    2 = Z.of_nat p + shift ∧ 0 ≤ shift ∧ (shift = 0 ↔ no_imports [sample_lib; sample_main] 1 0).
Proof.
  apply (function_index_shift [sample_lib; sample_main] 1 sample_main (mkOffsets 1 1 0 0 0 0) 0
    (mkFunction 0)); reflexivity.
Defined.
