(* ===== verification/LinkOutput.v ===== *)
(** What the linker writes is what the reader reads back.

    [writes m p a]: whenever the encoder operation [m] succeeds, the bytes it
    appends are read by the parser [p] as [a].  The contract needs no bound on
    sizes or indices, since the encoder's [u32] throws on those that do not fit.
    It is composed over the sections of [emitLinked] (src/link/linker.ts) and
    the section parsers of [parseObject] (src/link/reader.ts). *)

From S2P Require Import Prelude Encoder ObjReader Resolver Isolation Linker.

(** * The contract *)

Definition writes {A} (m : WasmEncoder.WasmEncoder → result WasmEncoder.WasmEncoder)
    (p : parser A) (a : A) : Prop :=
  ∀ e e', wf e → m e = Ok e' →
    wf e' ∧ ∃ bs, WasmEncoder.finish e' = WasmEncoder.finish e ++ bs ∧ reads p bs a.

Section writes.
Import WasmEncoder.

Lemma writes_emits {A} m bs (p : parser A) a : emits m bs → reads p bs a → writes m p a.
Proof.
  intros Hm Hr e e' He H. destruct (Hm e He) as (e'' & H' & Hw & Hf).
  rewrite H in H'. injection H' as <-. split; [done|]. by exists bs.
Qed.

Lemma writes_byte b : is_byte b → writes (byte b) ByteReader.byte b.
Proof.
  intros Hb. eapply writes_emits; [apply emits_byte|]. unfold is_byte in Hb.
  rewrite Z.mod_small by lia. apply reads_byte.
Qed.

Lemma writes_u32 v : writes (u32 v) ByteReader.u32 v.
Proof.
  destruct (decide (0 ≤ v < 2 ^ 32)) as [Hv|Hv].
  - by eapply writes_emits; [apply emits_u32|apply reads_u32].
  - intros e e' He H. rewrite u32_out_of_range in H by lia. done.
Qed.

Lemma writes_bytes {A} bs (p : parser A) a : reads p bs a → writes (bytes bs) p a.
Proof. apply writes_emits, emits_bytes. Qed.

Lemma writes_ret {A} (a : A) : writes Ok (mret a) a.
Proof. eapply writes_emits; [apply emits_skip|apply reads_ret]. Qed.

Lemma writes_bind {A B} m k (p : parser A) (f : A → parser B) a b :
  writes m p a → writes k (f a) b → writes (λ e, e' ← m e; k e') (p ≫= f) b.
Proof.
  intros Hm Hk e e'' He H. destruct (m e) as [e'|] eqn:E; [|done]. csimpl in H.
  destruct (Hm e e' He E) as (He' & b1 & Hf1 & H1).
  destruct (Hk e' e'' He' H) as (He'' & b2 & Hf2 & H2).
  split; [done|]. exists (b1 ++ b2). split; [by rewrite Hf2, Hf1, app_assoc|].
  by eapply reads_bind.
Qed.

Lemma writes_map {A B} m (p : parser A) (f : A → B) a :
  writes m p a → writes m (x ← p; mret (f x)) (f a).
Proof.
  intros Hm e e' He H. destruct (Hm e e' He H) as (He' & bs & Hf & Hr).
  split; [done|]. exists bs. split; [done|]. rewrite <- (app_nil_r bs).
  by eapply reads_bind; [|apply reads_ret].
Qed.

Lemma writes_name {C : TextCodec} {ok} `{!TextCodecLaws C ok} s :
  ok s → writes (name s) ByteReader.name s.
Proof.
  intros Hs. apply (writes_bind (u32 (Z.of_nat (length (utf8_encode s)))) (bytes (utf8_encode s))
    _ _ (Z.of_nat (length (utf8_encode s)))); [apply writes_u32|].
  apply writes_bytes.
  eapply reads_eq; [eapply reads_bind; [by apply reads_bytes|apply reads_ret]
                   |by rewrite app_nil_r|by apply codec_roundtrip].
Qed.

Lemma writes_ploop {A S} (l : list A) (item : A → WasmEncoder → result WasmEncoder)
    (body : S → parser S) (step : S → A → S) s :
  (∀ x t, x ∈ l → writes (item x) (body t) (step t x)) →
  writes (for_each l item) (ploop (length l) body s) (foldl step s l).
Proof.
  revert s. induction l as [|x l IH]; intros s Hb; [apply writes_ret|].
  apply (writes_bind (item x) (for_each l item) _ _ (step s x)); [apply Hb; left|].
  apply IH. intros y t Hy. apply Hb. by right.
Qed.

(** A count and that many items. *)
Lemma writes_items {A S} (l : list A) (item : A → WasmEncoder → result WasmEncoder)
    (body : S → parser S) (step : S → A → S) s :
  (∀ x t, x ∈ l → writes (item x) (body t) (step t x)) →
  writes (λ e, e ← u32 (Z.of_nat (length l)) e; for_each l item e)
    (count ← ByteReader.u32; ploop (Z.to_nat count) body s) (foldl step s l).
Proof.
  intros Hb. eapply writes_bind; [apply writes_u32|]. rewrite Nat2Z.id. by apply writes_ploop.
Qed.

Lemma writes_collect {A} (l : list A) (item : A → WasmEncoder → result WasmEncoder)
    (p : parser A) :
  (∀ x, x ∈ l → writes (item x) p x) →
  writes (for_each l item) (ploop (length l) (λ acc, x ← p; mret (acc ++ [x])) []) l.
Proof.
  intros Hi.
  assert (∀ s, writes (for_each l item)
    (ploop (length l) (λ acc, x ← p; mret (acc ++ [x])) s) (s ++ l)) as H; [|apply (H [])].
  intros s. rewrite <- foldl_snoc. apply writes_ploop. intros x t Hx.
  by apply (writes_map _ p (λ x, t ++ [x])), Hi.
Qed.

Lemma writes_byte_vec l : Forall is_byte l →
  writes (λ e, e ← u32 (Z.of_nat (length l)) e; for_each l byte e) byte_vec l.
Proof.
  intros Hl. eapply writes_bind; [apply writes_u32|]. rewrite Nat2Z.id.
  apply writes_collect. intros b Hb. apply writes_byte. by rewrite Forall_forall in Hl; apply Hl.
Qed.
End writes.

(** * Constant expressions *)

Definition terminated (e : list Z) : Prop := ∃ b, e = b ++ [0x0b] ∧ 0x0b ∉ b.

Section exprs.
Import ByteReader.

Lemma scan_end_spec b pre suf fuel :
  0x0b ∉ b → (length b < fuel)%nat →
  scan_end fuel (pre ++ (b ++ [0x0b]) ++ suf) (Z.of_nat (length pre))
  = Ok (tt, Z.of_nat (length pre) + Z.of_nat (length (b ++ [0x0b]))).
Proof.
  revert pre fuel. induction b as [|x b IH]; intros pre fuel Hb Hf;
    (destruct fuel as [|fuel]; [simpl in Hf; lia|]); cbn [scan_end]; unfold mbind, parser_bind.
  - erewrite byte_at; [|rewrite Nat2Z.id; by apply list_lookup_middle|lia].
    rewrite Z.eqb_refl. done.
  - erewrite byte_at; [|rewrite Nat2Z.id; by apply list_lookup_middle|lia].
    apply not_elem_of_cons in Hb as [Hx Hb].
    destruct (Z.eqb_spec x 0x0b); [congruence|].
    specialize (IH (pre ++ [x]) fuel Hb). simpl in Hf.
    replace (Z.of_nat (length (pre ++ [x]))) with (Z.of_nat (length pre) + 1) in IH
      by (rewrite length_app; simpl; lia).
    rewrite <- app_assoc in IH. cbn [app] in *. rewrite IH by lia.
    do 2 f_equal. simpl. lia.
Qed.

Lemma slice_middle (pre mid suf : list Z) :
  slice (pre ++ mid ++ suf) (Z.of_nat (length pre))
    (Z.of_nat (length pre) + Z.of_nat (length mid)) = mid.
Proof.
  unfold slice. replace (Z.to_nat (_ - _)) with (length mid) by lia.
  by rewrite Nat2Z.id, drop_app_length, take_app_length.
Qed.

Lemma reads_const_expr e : terminated e → reads const_expr e e.
Proof.
  intros (b & -> & Hb) pre suf. unfold const_expr, get_pos, get_data, mbind, parser_bind.
  cbv beta iota. rewrite scan_end_spec by (done || (rewrite !length_app; simpl; lia)).
  unfold mret, parser_ret. by rewrite slice_middle.
Qed.

(** [n] expressions in a row, as one slice. *)
Lemma scan_exprs_spec es pre suf fuel :
  Forall terminated es → (length (concat es) < fuel)%nat →
  ploop (length es) (λ _, scan_end fuel) tt (pre ++ concat es ++ suf) (Z.of_nat (length pre))
  = Ok (tt, Z.of_nat (length pre) + Z.of_nat (length (concat es))).
Proof.
  intros He. revert pre. induction He as [|e es (b & -> & Hb) He IH]; intros pre Hf.
  - simpl. unfold mret, parser_ret. by rewrite Z.add_0_r.
  - cbn [length ploop concat] in *. unfold mbind, parser_bind. rewrite length_app in Hf.
    rewrite <- (app_assoc (b ++ _)), scan_end_spec by (done || (rewrite length_app in Hf; lia)).
    specialize (IH (pre ++ b ++ [0x0b]) ltac:(lia)).
    rewrite length_app, <- (app_assoc pre), Nat2Z.inj_add in IH. rewrite IH.
    rewrite !length_app. do 2 f_equal. lia.
Qed.
End exprs.

(** * Items *)

Section items.
Context {C : TextCodec} {ok : jsstr → Prop} `{!TextCodecLaws C ok}.
Import WasmEncoder.

Definition type_ok (t : TypeSection) : Prop :=
  Forall is_byte (ts_params t) ∧ Forall is_byte (ts_results t).
Definition table_ok (t : TableEntry) : Prop := is_byte (tbl_elementType t).
Definition tag_ok (t : TagEntry) : Prop := is_byte (tag_attribute t).
Definition global_ok (g : GlobalEntry) : Prop := is_byte (glb_type g) ∧ terminated (glb_init g).
Definition export_ok (e : ExportEntry) : Prop := ok (exp_name e) ∧ is_byte (exp_kind e).

(** The fields an element segment has are those its flags call for: what
    [parseElementEntry] returns. *)
Record element_ok (el : ElementEntry) : Prop := {
  element_offset :
    if isActive (el_flags el) then ∃ e, el_offsetExpr el = Some e ∧ terminated e
    else el_offsetExpr el = None;
  element_kind :
    if hasKindByte (el_flags el) then ∃ b, el_kindByte el = Some b ∧ is_byte b
    else el_kindByte el = None;
  element_payload :
    if usesExprs (el_flags el) then
      el_funcIndices el = [] ∧ ∃ es, el_elemExprs el = Some (concat es)
        ∧ Forall terminated es ∧ el_elemCount el = Z.of_nat (length es)
    else el_elemExprs el = None ∧ el_elemCount el = Z.of_nat (length (el_funcIndices el));
}.

(** The table index is written only for the flags that have one. *)
Definition written_element (el : ElementEntry) : ElementEntry :=
  mkElement (el_flags el) (if hasExplicitTable (el_flags el) then el_tableIdx el else 0)
    (el_offsetExpr el) (el_funcIndices el) (el_elemCount el) (el_kindByte el) (el_elemExprs el).

Lemma writes_vec_then {B} l k (f : list Z → parser B) b :
  Forall is_byte l → writes k (f l) b →
  writes (λ e, e ← u32 (Z.of_nat (length l)) e; e ← for_each l byte e; k e) (byte_vec ≫= f) b.
Proof.
  intros Hl Hk. pose proof (writes_bind _ _ _ _ _ _ (writes_byte_vec l Hl) Hk) as H.
  intros e e' He H'. apply (H e e' He). by destruct (u32 (Z.of_nat (length l)) e).
Qed.

Lemma writes_type t o : type_ok t →
  writes (emit_type t)
    (form ← ByteReader.byte;
     if negb (form =? 0x60)
     then pfail EError (js "Unsupported type form 0x" ++ js_hex form)
     else params ← byte_vec; results ← byte_vec; mret (push_type (mkType params results) o))
    (push_type t o).
Proof.
  intros [Hp Hr]. destruct t as [ps rs]. unfold emit_type. simpl in *.
  eapply writes_bind; [apply writes_byte; unfold is_byte; lia|]. cbn [negb Z.eqb Pos.eqb].
  apply writes_vec_then; [done|].
  by apply (writes_map _ byte_vec (λ rs, push_type (mkType ps rs) o)), writes_byte_vec.
Qed.

Lemma writes_function f o :
  writes (emit_function f) (ti ← ByteReader.u32; mret (push_function (mkFunction ti) o))
    (push_function f o).
Proof.
  destruct f as [ti]. apply (writes_map _ _ (λ ti, push_function (mkFunction ti) o)), writes_u32.
Qed.

Lemma writes_limits mn mx : writes (emit_limits mn mx) limits (mn, mx).
Proof.
  unfold limits, emit_limits. destruct mx as [m|];
    (eapply writes_bind; [apply writes_byte; unfold is_byte; lia|]).
  - cbn [negb Z.eqb]. eapply writes_bind; [apply writes_u32|].
    apply (writes_map _ _ (λ mx, (mn, Some mx))), writes_u32.
  - cbn [negb Z.eqb]. apply (writes_map _ _ (λ mn, (mn, None))), writes_u32.
Qed.

Lemma writes_table t o : table_ok t →
  writes (emit_table t)
    (et ← ByteReader.byte; l ← limits; mret (push_table (mkTable et l.1 l.2) o)) (push_table t o).
Proof.
  intros Ht. destruct t as [et mn mx]. eapply writes_bind; [by apply writes_byte|].
  apply (writes_map _ limits (λ l, push_table (mkTable et l.1 l.2) o) (mn, mx)), writes_limits.
Qed.

Lemma writes_memory m o :
  writes (emit_memory m) (l ← limits; mret (push_memory (mkMemory l.1 l.2) o)) (push_memory m o).
Proof.
  destruct m as [mn mx]. apply (writes_map _ limits (λ l, push_memory (mkMemory l.1 l.2) o) (mn, mx)), writes_limits.
Qed.

Lemma writes_tag t o : tag_ok t →
  writes (emit_tag t)
    (attribute ← ByteReader.byte; ti ← ByteReader.u32; mret (push_tag (mkTag attribute ti) o))
    (push_tag t o).
Proof.
  intros Ht. destruct t as [a ti]. eapply writes_bind; [by apply writes_byte|].
  apply (writes_map _ _ (λ ti, push_tag (mkTag a ti) o)), writes_u32.
Qed.

Lemma writes_global g o : global_ok g →
  writes (emit_global g)
    (ty ← ByteReader.byte; mu ← ByteReader.byte; init ← ByteReader.const_expr;
     mret (push_global (mkGlobal ty (negb (mu =? 0)) init) o)) (push_global g o).
Proof.
  intros [Ht Hi]. destruct g as [ty mu init]. simpl in *.
  eapply writes_bind; [by apply writes_byte|].
  eapply writes_bind; [apply writes_byte; unfold is_byte; by destruct mu|].
  replace (push_global (mkGlobal ty mu init) o)
    with (push_global (mkGlobal ty (negb ((if mu then 1 else 0) =? 0)) init) o) by (by destruct mu).
  by apply (writes_map _ _ (λ init, push_global (mkGlobal ty _ init) o)), writes_bytes,
    reads_const_expr.
Qed.

Lemma writes_export x o : export_ok x →
  writes (emit_export x)
    (nm ← ByteReader.name; kind ← ByteReader.byte; index ← ByteReader.u32;
     mret (push_export (mkExport nm kind index) o)) (push_export x o).
Proof.
  intros [Hn Hk]. destruct x as [nm kind index]. simpl in *.
  eapply writes_bind; [by apply writes_name|]. eapply writes_bind; [by apply writes_byte|].
  apply (writes_map _ _ (λ index, push_export (mkExport nm kind index) o)), writes_u32.
Qed.

(** The expression payload of an element segment, read as one slice. *)
Lemma reads_exprs {B} es (k : list Z → parser B) b :
  Forall terminated es →
  (∀ pre suf, k (concat es) (pre ++ concat es ++ suf)
                (Z.of_nat (length pre) + Z.of_nat (length (concat es)))
              = Ok (b, Z.of_nat (length pre) + Z.of_nat (length (concat es)))) →
  reads (start ← get_pos; data ← get_data;
         _ ← ploop (length es) (λ _, ByteReader.scan_end (S (length data))) tt;
         stop ← get_pos; k (slice data start stop)) (concat es) b.
Proof.
  intros He Hk pre suf. unfold get_pos, get_data, mbind, parser_bind. cbv beta iota.
  rewrite scan_exprs_spec by (done || (rewrite !length_app; lia)).
  cbv beta iota. by rewrite slice_middle.
Qed.

Lemma writes_element el : element_ok el →
  writes (emit_element el) parseElementEntry (written_element el).
Proof.
  intros [Ho Hk Hp]. destruct el as [fl tb oe fi ec kb ee]. simpl in *.
  unfold emit_element, parseElementEntry, written_element. cbv zeta.
  cbn [el_flags el_tableIdx el_offsetExpr el_funcIndices el_elemCount el_kindByte el_elemExprs].
  eapply writes_bind; [apply writes_u32|].
  eapply (writes_bind _ _ _ _ (if hasExplicitTable fl then tb else 0)).
  { destruct (hasExplicitTable fl); [apply writes_u32|apply writes_ret]. }
  eapply (writes_bind _ _ _ _ oe).
  { destruct (isActive fl); [|subst; apply writes_ret]. destruct Ho as (e & -> & He).
    by apply (writes_map _ _ Some), writes_bytes, reads_const_expr. }
  eapply (writes_bind _ _ _ _ kb).
  { destruct (hasKindByte fl); [|subst; apply writes_ret]. destruct Hk as (b & -> & Hb).
    by apply (writes_map _ _ Some), writes_byte. }
  destruct (usesExprs fl).
  - destruct Hp as (-> & es & -> & Hes & ->). eapply writes_bind; [apply writes_u32|].
    apply writes_bytes. rewrite Nat2Z.id.
    apply (reads_exprs es (λ sl, mret (mkElement fl _ oe [] _ kb (Some sl)))); [done|].
    done.
  - destruct Hp as (-> & ->). eapply writes_bind; [apply writes_u32|]. rewrite Nat2Z.id.
    apply (writes_map _ _ (λ idx, mkElement fl _ oe idx _ kb None)).
    apply writes_collect. intros x _. apply writes_u32.
Qed.
End items.

(** * Function bodies *)

Section code.
Context `{TextCodec}.
Import WasmEncoder.

Definition linked_code (offsets : list ModuleOffsets) (res : Resolution)
    (c : Z * ParsedObject * ModuleOffsets * CodeEntry) : CodeEntry :=
  let '(modIdx, obj, off, code) := c in
  mkCode (cd_locals code)
    match rewriteCode obj modIdx off offsets res (cd_body code) with Ok b => b | Err _ => [] end.

Definition code_ok (code : CodeEntry) : Prop := Forall (λ l, is_byte l.2) (cd_locals code).

Definition parse_locals : parser (list (Z * Z)) :=
  n ← ByteReader.u32;
  ploop (Z.to_nat n)
    (λ l, lcount ← ByteReader.u32; ltype ← ByteReader.byte; mret (l ++ [(lcount, ltype)])) [].

Lemma writes_locals l : Forall (λ x, is_byte x.2) l →
  writes (λ e, e ← u32 (Z.of_nat (length l)) e; for_each l emit_local e) parse_locals l.
Proof.
  intros Hl. enough (writes (λ e, e ← u32 (Z.of_nat (length l)) e; for_each l emit_local e)
    parse_locals (foldl (λ t x, t ++ [x]) [] l)) as H' by (by rewrite foldl_snoc in H').
  apply (writes_items l emit_local _ (λ t x, t ++ [x])). intros [n ty] t Hx. eapply writes_bind; [apply writes_u32|].
  rewrite Forall_forall in Hl. apply (writes_map _ _ (λ ty, t ++ [(n, ty)])), writes_byte.
  apply (Hl _ Hx).
Qed.

(** A function body is its size, the locals and the rest of its bytes. *)
Lemma reads_code lb locals body o :
  reads parse_locals lb locals → Z.of_nat (length (lb ++ body)) < 2 ^ 32 →
  reads (bodySize ← ByteReader.u32;
         p ← get_pos;
         n ← ByteReader.u32;
         locals ← ploop (Z.to_nat n)
           (λ l, lcount ← ByteReader.u32; ltype ← ByteReader.byte; mret (l ++ [(lcount, ltype)])) [];
         p' ← get_pos;
         data ← get_data;
         _ ← set_pos (p + bodySize);
         mret (push_code (mkCode locals (slice data p' (p + bodySize))) o))
    (uleb32 (Z.of_nat (length (lb ++ body))) ++ lb ++ body) (push_code (mkCode locals body) o).
Proof.
  intros Hl Hn pre suf. unfold mbind, parser_bind at 1.
  pose proof (reads_u32 _ (conj (Nat2Z.is_nonneg (length (lb ++ body))) Hn) pre
    ((lb ++ body) ++ suf)) as Hu. rewrite <- app_assoc, Hu. clear Hu.
  set (h := uleb32 (Z.of_nat (length (lb ++ body)))).
  unfold get_pos, get_data, set_pos, parser_bind. cbv beta iota.
  specialize (Hl (pre ++ h) (body ++ suf)).
  rewrite <- !app_assoc in *. rewrite length_app, Nat2Z.inj_add in Hl.
  unfold parse_locals, mbind, parser_bind in Hl.
  destruct (ByteReader.u32 _ _) as [[n q]|]; [|done]. rewrite Hl.
  unfold mret, parser_ret. f_equal. f_equal; [f_equal; f_equal|].
  - pose proof (slice_middle (pre ++ h ++ lb) body suf) as Hs. rewrite <- !app_assoc in Hs.
    etrans; [|exact Hs]. f_equal; rewrite !length_app; [lia|]. lia.
  - rewrite !length_app. lia.
Qed.

Lemma writes_code offsets res c o :
  code_ok c.2 →
  writes (emit_code offsets res c)
    (bodySize ← ByteReader.u32;
     p ← get_pos;
     n ← ByteReader.u32;
     locals ← ploop (Z.to_nat n)
       (λ l, lcount ← ByteReader.u32; ltype ← ByteReader.byte; mret (l ++ [(lcount, ltype)])) [];
     p' ← get_pos;
     data ← get_data;
     _ ← set_pos (p + bodySize);
     mret (push_code (mkCode locals (slice data p' (p + bodySize))) o))
    (push_code (linked_code offsets res c) o).
Proof.
  intros Hc e e' He Hm. destruct c as [[[m obj] off] code]. unfold emit_code in Hm.
  unfold linked_code. simpl in Hc.
  destruct (u32 (Z.of_nat (length (cd_locals code))) new) as [b1|] eqn:E1; [|done]. csimpl in Hm.
  destruct (for_each (cd_locals code) emit_local b1) as [b2|] eqn:E2; [|done]. csimpl in Hm.
  destruct (rewriteCode obj m off offsets res (cd_body code)) as [body|]; [|done]. csimpl in Hm.
  destruct (writes_locals (cd_locals code) Hc new b2 wf_new) as (Hw2 & lb & Hf2 & Hl).
  { rewrite E1. exact E2. }
  destruct (emits_bytes body b2 Hw2) as (b3 & E3 & Hw3 & Hf3). rewrite E3 in Hm. csimpl in Hm.
  assert (finish b3 = lb ++ body) as Hb3 by (by rewrite Hf3, Hf2). rewrite Hb3 in Hm.
  destruct (decide (Z.of_nat (length (lb ++ body)) < 2 ^ 32)) as [Hlt|Hge].
  - destruct (emits_seq _ _ _ _ (emits_u32 _ (conj (Nat2Z.is_nonneg _) Hlt))
      (emits_bytes (lb ++ body)) e He) as (e'' & Hm' & Hw & Hf).
    rewrite Hm in Hm'. injection Hm' as <-. split; [done|].
    eexists. split; [exact Hf|]. by apply reads_code.
  - rewrite u32_out_of_range in Hm by lia. done.
Qed.
End code.

(** * Sections *)

Section file.
Context {C : TextCodec} {ok : jsstr → Prop} `{!TextCodecLaws C ok}.
Import WasmEncoder.

(** The bytes [bs] take the section loop from the object [o] to [o'], in at most
    one turn per byte. *)
Definition steps (o : ParsedObject) (bs : list Z) (o' : ParsedObject) : Prop :=
  ∃ k, (k ≤ length bs)%nat ∧ ∀ pre suf fuel, (k ≤ fuel)%nat →
    sections_loop fuel o (pre ++ bs ++ suf) (Z.of_nat (length pre))
    = sections_loop (fuel - k) o' (pre ++ bs ++ suf)
        (Z.of_nat (length pre) + Z.of_nat (length bs)).

Definition writes_sections (m : WasmEncoder → result WasmEncoder) (o o' : ParsedObject) : Prop :=
  ∀ e e', wf e → m e = Ok e' →
    wf e' ∧ ∃ bs, finish e' = finish e ++ bs ∧ steps o bs o'.

Lemma steps_nil o : steps o [] o.
Proof. exists 0%nat. split; [done|]. intros pre suf fuel _. by rewrite Nat.sub_0_r, Z.add_0_r. Qed.

Lemma steps_app o1 b1 o2 b2 o3 : steps o1 b1 o2 → steps o2 b2 o3 → steps o1 (b1 ++ b2) o3.
Proof.
  intros (k1 & Hk1 & H1) (k2 & Hk2 & H2). exists (k1 + k2)%nat. rewrite length_app.
  split; [lia|]. intros pre suf fuel Hf. rewrite <- app_assoc, H1 by lia.
  specialize (H2 (pre ++ b1) suf (fuel - k1)%nat ltac:(lia)).
  rewrite length_app, <- app_assoc, Nat2Z.inj_add in H2. rewrite H2.
  replace (fuel - (k1 + k2))%nat with (fuel - k1 - k2)%nat by lia. f_equal. lia.
Qed.

Lemma steps_section id payload p o o' :
  is_byte id → (∀ stop, parseSection id stop o = p) → reads p payload o' →
  Z.of_nat (length payload) < 2 ^ 32 →
  steps o ([id mod 256] ++ uleb32 (Z.of_nat (length payload)) ++ payload) o'.
Proof.
  intros Hid Hp Hr Hl. exists 1%nat. rewrite !length_app. split; [simpl; lia|].
  intros pre suf fuel Hf. destruct fuel as [|fuel]; [lia|].
  rewrite (Nat.sub_succ fuel 0), Nat.sub_0_r. cbn [sections_loop].
  unfold is_byte in Hid. rewrite Z.mod_small by lia.
  set (h := uleb32 (Z.of_nat (length payload))).
  unfold mbind, parser_bind. unfold ByteReader.remaining at 1. cbv beta iota.
  rewrite !length_app.
  destruct (Z.ltb_spec 0 (Z.of_nat (length pre + (length [id] + (length h + length payload)
    + length suf)) - Z.of_nat (length pre))); [|simpl in *; lia].
  pose proof (reads_byte id pre ((h ++ payload) ++ suf)) as Hb. rewrite <- !app_assoc in *.
  rewrite Hb. clear Hb. cbv beta iota.
  pose proof (reads_u32 _ (conj (Nat2Z.is_nonneg (length payload)) Hl) (pre ++ [id])
    (payload ++ suf)) as Hu. fold h in Hu. rewrite <- !app_assoc, length_app, Nat2Z.inj_add in Hu.
  rewrite Hu. clear Hu. unfold get_pos. cbv beta iota. rewrite Hp.
  specialize (Hr (pre ++ [id] ++ h) suf). rewrite <- !app_assoc, !length_app in Hr.
  rewrite !Nat2Z.inj_add, Z.add_assoc in Hr. rewrite Hr. cbv beta iota.
  rewrite Z.eqb_refl. cbn [negb]. unfold mret, parser_ret. f_equal. lia.
Qed.

Lemma writes_section id content p o o' :
  is_byte id → (∀ stop, parseSection id stop o = p) → writes content p o' →
  writes_sections (section id content) o o'.
Proof.
  intros Hid Hp Hc e e' He Hm. unfold section in Hm.
  destruct (content new) as [sub|] eqn:Es; [|done]. csimpl in Hm.
  destruct (Hc new sub wf_new Es) as (_ & bs & Hf & Hr). simpl in Hf.
  assert (finish sub = bs) as Hsub by done. rewrite Hsub in Hm.
  destruct (decide (Z.of_nat (length bs) < 2 ^ 32)) as [Hlt|Hge].
  - destruct (emits_seq _ _ _ _ (emits_byte id) (emits_seq _ _ _ _
      (emits_u32 _ (conj (Nat2Z.is_nonneg _) Hlt)) (emits_bytes bs)) e He) as (e'' & Hm' & Hw & Hf').
    rewrite Hm in Hm'. injection Hm' as <-. split; [done|]. eexists. split; [exact Hf'|].
    by eapply steps_section.
  - destruct (byte id e) as [e1|]; [|done]. csimpl in Hm.
    rewrite u32_out_of_range in Hm by lia. done.
Qed.

Lemma writes_sections_bind m k o1 o2 o3 :
  writes_sections m o1 o2 → writes_sections k o2 o3 →
  writes_sections (λ e, e' ← m e; k e') o1 o3.
Proof.
  intros Hm Hk e e'' He H. destruct (m e) as [e'|] eqn:E; [|done]. csimpl in H.
  destruct (Hm e e' He E) as (He' & b1 & Hf1 & H1).
  destruct (Hk e' e'' He' H) as (He'' & b2 & Hf2 & H2).
  split; [done|]. exists (b1 ++ b2). split; [by rewrite Hf2, Hf1, app_assoc|].
  by eapply steps_app.
Qed.

Lemma writes_sections_skip o : writes_sections Ok o o.
Proof.
  intros e e' He [= <-]. split; [done|]. exists []. split; [by rewrite app_nil_r|]. apply steps_nil.
Qed.

(** A section that is written when it has items. *)
Lemma writes_item_section {A} id (l : list A) item body step o o' :
  is_byte id → (∀ stop, parseSection id stop o = counted body o) →
  (∀ x t, x ∈ l → writes (item x) (body t) (step t x)) → foldl step o l = o' →
  writes_sections (emit_items id l item) o o'.
Proof.
  intros Hid Hp Hi <-. unfold emit_items. case_bool_decide as Hl.
  - eapply writes_section; [done|exact Hp|]. by apply writes_items.
  - destruct l; [apply writes_sections_skip|simpl in Hl; lia].
Qed.

(** Sections that push onto one field of the object. *)
Local Ltac pushes l :=
  induction l as [|x l IH] using rev_ind; [by rewrite app_nil_r|];
  rewrite foldl_app, IH, app_assoc; done.

Variables (n : jsstr) (ty : list TypeSection) (im : list ImportEntry) (fn : list FunctionEntry)
  (tb : list TableEntry) (me : list MemoryEntry) (gl : list GlobalEntry) (ex : list ExportEntry)
  (el : list ElementEntry) (tg : list TagEntry) (cd : list CodeEntry) (sy : list SymbolInfo)
  (rl : jsmap jsstr (list RelocEntry)).
Let o := mkObject n ty im fn tb me gl ex el tg cd sy rl.

Lemma push_types l : foldl (λ t x, push_type x t) o l
  = mkObject n (ty ++ l) im fn tb me gl ex el tg cd sy rl.
Proof. pushes l. Qed.
Lemma push_functions l : foldl (λ t x, push_function x t) o l
  = mkObject n ty im (fn ++ l) tb me gl ex el tg cd sy rl.
Proof. pushes l. Qed.
Lemma push_tables l : foldl (λ t x, push_table x t) o l
  = mkObject n ty im fn (tb ++ l) me gl ex el tg cd sy rl.
Proof. pushes l. Qed.
Lemma push_memories l : foldl (λ t x, push_memory x t) o l
  = mkObject n ty im fn tb (me ++ l) gl ex el tg cd sy rl.
Proof. pushes l. Qed.
Lemma push_globals l : foldl (λ t x, push_global x t) o l
  = mkObject n ty im fn tb me (gl ++ l) ex el tg cd sy rl.
Proof. pushes l. Qed.
Lemma push_exports l : foldl (λ t x, push_export x t) o l
  = mkObject n ty im fn tb me gl (ex ++ l) el tg cd sy rl.
Proof. pushes l. Qed.
Lemma push_tags l : foldl (λ t x, push_tag x t) o l
  = mkObject n ty im fn tb me gl ex el (tg ++ l) cd sy rl.
Proof. pushes l. Qed.
Lemma push_elements {A} (f : A → ElementEntry) l : foldl (λ t x, push_element (f x) t) o l
  = mkObject n ty im fn tb me gl ex (el ++ (f <$> l)) tg cd sy rl.
Proof.
  induction l as [|x l IH] using rev_ind; [csimpl; by rewrite app_nil_r|].
  rewrite foldl_app, IH, fmap_app, app_assoc. done.
Qed.
Lemma push_codes {A} (f : A → CodeEntry) l : foldl (λ t x, push_code (f x) t) o l
  = mkObject n ty im fn tb me gl ex el tg (cd ++ (f <$> l)) sy rl.
Proof.
  induction l as [|x l IH] using rev_ind; [csimpl; by rewrite app_nil_r|].
  rewrite foldl_app, IH, fmap_app, app_assoc. done.
Qed.
End file.

(** * The whole file *)

Section output.
Context {C : TextCodec} {ok : jsstr → Prop} `{!TextCodecLaws C ok}.
Context (trace : bool) (parsed : list ParsedObject) (res : Resolution)
  (offsets : list ModuleOffsets) (entry : option jsstr).
Let mods := modules_of parsed offsets.

(** What the merged module holds. *)
Definition linked_object (nm : jsstr) : ParsedObject :=
  mkObject nm (allTypes parsed) [] (allFunctions mods) (allTables parsed) (allMemories parsed)
    (allGlobals parsed) (exportEntries trace entry mods)
    (written_element <$> allElements mods) (allTags mods)
    (linked_code offsets res <$> allCode mods) [] [].

(** The fields of the objects are in the ranges the format gives them. *)
Record emittable : Prop := {
  emit_types : Forall type_ok (allTypes parsed);
  emit_tables : Forall table_ok (allTables parsed);
  emit_tags : Forall tag_ok (allTags mods);
  emit_globals : Forall global_ok (allGlobals parsed);
  emit_exports : Forall (export_ok (ok := ok)) (exportEntries trace entry mods);
  emit_elements : Forall element_ok (allElements mods);
  emit_codes : Forall (λ c, code_ok c.2) (allCode mods);
  emit_bodies : length (allCode mods) = length (allFunctions mods);
}.

Lemma writes_code_section (H : emittable) n o :
  o = mkObject n (allTypes parsed) [] (allFunctions mods) (allTables parsed) (allMemories parsed)
    (allGlobals parsed) (exportEntries trace entry mods)
    (written_element <$> allElements mods) (allTags mods) [] [] [] →
  writes_sections (emit_code_section parsed res offsets) o (linked_object n).
Proof.
  intros ->. unfold emit_code_section. cbv zeta. fold mods. case_bool_decide as Hl.
  - eapply (writes_section SECTION_code _ (parseCodeSection _)); [done|done|].
    rewrite <- (emit_bodies H). unfold linked_object. rewrite <- (app_nil_l (_ <$> allCode mods)).
    rewrite <- push_codes. apply writes_items. intros c t Hc. apply writes_code.
    pose proof (emit_codes H) as Hok. rewrite Forall_forall in Hok. by apply Hok.
  - unfold linked_object. rewrite <- (emit_bodies H) in Hl.
    destruct (allCode mods); [apply writes_sections_skip|simpl in Hl; lia].
Qed.

Local Ltac item_section H lem :=
  let x := fresh in let t := fresh in let Hx := fresh in
  eapply writes_item_section; [done|done|
    intros x t Hx; rewrite Forall_forall in H; apply lem, H, Hx|].

Lemma writes_all_sections (H : emittable) n :
  writes_sections (emit_sections trace parsed res offsets entry) (empty_object n) (linked_object n).
Proof.
  unfold emit_sections. cbv zeta. fold mods. pose proof H as [Hty Htb Htg Hgl Hex Hel _ _].
  eapply writes_sections_bind; [item_section Hty writes_type; apply push_types|].
  eapply writes_sections_bind.
  { eapply writes_item_section; [done|done|intros x t _; apply writes_function|apply push_functions]. }
  eapply writes_sections_bind; [item_section Htb writes_table; apply push_tables|].
  eapply writes_sections_bind.
  { eapply writes_item_section; [done|done|intros x t _; apply writes_memory|apply push_memories]. }
  eapply writes_sections_bind; [item_section Htg writes_tag; apply push_tags|].
  eapply writes_sections_bind; [item_section Hgl writes_global; apply push_globals|].
  eapply writes_sections_bind; [item_section Hex writes_export; apply push_exports|].
  eapply writes_sections_bind.
  { eapply writes_item_section; [done|done| |apply push_elements].
    intros x t Hx. rewrite Forall_forall in Hel. 
    apply (writes_map _ parseElementEntry (λ e, push_element e t)). by apply writes_element, Hel. }
  by apply writes_code_section.
Qed.

Lemma parse_sections nm bs o :
  steps (empty_object nm) bs o →
  parseObject nm (WASM_MAGIC ++ WASM_VERSION ++ bs) = Ok o.
Proof.
  intros (k & Hk & Hs). unfold parseObject, parse_object.
  unfold mbind, parser_bind.
  pose proof (reads_bytes WASM_MAGIC 4 eq_refl [] (WASM_VERSION ++ bs)) as Hm.
  cbn [app] in Hm. change (Z.of_nat (length [])) with 0 in Hm. rewrite Hm. clear Hm.
  rewrite bool_decide_true by done. cbn [negb].
  pose proof (reads_bytes WASM_VERSION 4 eq_refl WASM_MAGIC bs) as Hv.
  change (0 + Z.of_nat (length WASM_MAGIC)) with (Z.of_nat (length WASM_MAGIC)).
  rewrite Hv. clear Hv. rewrite bool_decide_true by done. cbn [negb].
  unfold get_data. cbv beta iota.
  specialize (Hs (WASM_MAGIC ++ WASM_VERSION) [] (S (length (WASM_MAGIC ++ WASM_VERSION ++ bs)))).
  rewrite app_nil_r, <- app_assoc in Hs.
  change (Z.of_nat (length WASM_MAGIC) + Z.of_nat (length WASM_VERSION))
    with (Z.of_nat (length (WASM_MAGIC ++ WASM_VERSION))).
  rewrite Hs by (rewrite !length_app; lia). clear Hs.
  destruct (S (length (WASM_MAGIC ++ WASM_VERSION ++ bs)) - k)%nat as [|fuel] eqn:Ef;
    [rewrite !length_app in Ef; lia|].
  cbn [sections_loop]. unfold mbind, parser_bind. unfold ByteReader.remaining at 1. cbv beta iota.
  destruct (Z.ltb_spec 0 (Z.of_nat (length (WASM_MAGIC ++ WASM_VERSION ++ bs))
    - (Z.of_nat (length (WASM_MAGIC ++ WASM_VERSION)) + Z.of_nat (length bs))));
    [rewrite !length_app in *; lia|done].
Qed.

Lemma emitLinked_bytes (H : emittable) nm bs :
  emitLinked trace parsed res offsets entry = Ok bs →
  ∃ rest, bs = WASM_MAGIC ++ WASM_VERSION ++ rest ∧ steps (empty_object nm) rest (linked_object nm).
Proof.
  intros Hem. unfold emitLinked in Hem.
  destruct (emits_bytes_array [0x00; 0x61; 0x73; 0x6d] WasmEncoder.new wf_new) as (e1 & E1 & Hw1 & Hf1).
  rewrite E1 in Hem. csimpl in Hem.
  destruct (emits_bytes_array [0x01; 0x00; 0x00; 0x00] e1 Hw1) as (e2 & E2 & Hw2 & Hf2).
  rewrite E2 in Hem. csimpl in Hem.
  destruct (emit_sections trace parsed res offsets entry e2) as [e3|] eqn:E3; [|done].
  csimpl in Hem. injection Hem as <-.
  destruct (writes_all_sections H nm e2 e3 Hw2 E3) as (_ & rest & Hf3 & Hs).
  exists rest. split; [|done]. by rewrite Hf3, Hf2, Hf1.
Qed.

(** * Properties *)

(** C1: the linker's output is a module that the reader reads back.  When the
    emission succeeds, parsing the emitted bytes gives exactly the merged object:
    the modules' types, tables, memories and globals in order, the functions and
    tags with re-based type indices, the relocated exports and element segments,
    and the rewritten bodies, for input fields in the ranges of the format. *)
Theorem emitLinked_roundtrip nm bs :
  emittable → emitLinked trace parsed res offsets entry = Ok bs →
  parseObject nm bs = Ok (linked_object nm).
Proof.
  intros H Hem. destruct (emitLinked_bytes H nm bs Hem) as (rest & -> & Hs).
  by apply parse_sections.
Qed.
End output.

(** The codec of the strings whose code units are all ASCII. *)
#[local] Instance ascii_codec : TextCodec := { utf8_encode := map (λ c, c mod 256); utf8_decode := id }.

Definition ascii (s : jsstr) : Prop := Forall (λ c, 0 ≤ c < 128) s.

#[local] Instance ascii_codec_laws : TextCodecLaws ascii_codec ascii.
Proof.
  split.
  - intros s. apply Forall_map, Forall_true. intros c. unfold is_byte, compose.
    apply Z.mod_pos_bound. lia.
  - intros s Hs. simpl. induction Hs as [|c s Hc Hs IH]; [done|]. simpl. unfold id in *.
    rewrite IH, Z.mod_small by lia. done.
Qed.

(** A module with a function, a memory, an export, a global and an element
    segment; the linked file of two copies reads back. *)
Definition sample_module : ParsedObject :=
  mkObject (js "m") [mkType [0x7f] []] [] [mkFunction 0] [mkTable 0x70 1 None] [mkMemory 1 (Some 2)]
    [mkGlobal 0x7f true [0x41; 7; 0x0b]] [mkExport (js "f") 0 0]
    [mkElement 0 0 (Some [0x41; 0; 0x0b]) [0] 1 None None] []
    [mkCode [(1, 0x7f)] [0x10; 0; 0x0b]] [] [].

Lemma emitLinked_roundtrip_witness :
  ∃ bs, emitLinked false [sample_module; sample_module] (mkResolution [] [])
          (computeOffsets [sample_module; sample_module]) None = Ok bs ∧
    parseObject (js "out") bs
    = Ok (linked_object false [sample_module; sample_module] (mkResolution [] [])
            (computeOffsets [sample_module; sample_module]) None (js "out")).
Proof.
  eexists. split; [vm_compute; reflexivity|].
  apply (emitLinked_roundtrip (ok := ascii) false [sample_module; sample_module] (mkResolution [] [])
    (computeOffsets [sample_module; sample_module]) None); [|vm_compute; reflexivity].
  assert (terminated [0x41; 7; 0x0b]) as H1
    by (exists [0x41; 7]; split; [done|vm_compute; intros H; repeat (apply elem_of_cons in H as [H|H]; [discriminate H|]); by apply not_elem_of_nil in H]).
  assert (terminated [0x41; 0; 0x0b]) as H2
    by (exists [0x41; 0]; split; [done|vm_compute; intros H; repeat (apply elem_of_cons in H as [H|H]; [discriminate H|]); by apply not_elem_of_nil in H]).
  split; cbn; repeat constructor; try done; cbn; unfold is_byte; try lia.
  all: try (eexists; split; [reflexivity|done]).
Defined.

(** active segments without an explicit table index are not relocated.  In the
    merged module every such segment, whichever module it comes from, refers to
    table 0, while the tables of the later modules come after it. *)
Theorem implicit_table_segments `{TextCodec} trace parsed res offsets entry nm el :
  el ∈ po_elements (linked_object trace parsed res offsets entry nm) →
  hasExplicitTable (el_flags el) = false → el_tableIdx el = 0.
Proof.
  intros (el' & -> & _)%list_elem_of_fmap. simpl. by intros ->.
Qed.

Lemma implicit_table_segments_witness :
  tableOffset <$> computeOffsets [sample_module; sample_module] = [0; 1] ∧
  ∃ el, last (po_elements (linked_object false [sample_module; sample_module] (mkResolution [] [])
          (computeOffsets [sample_module; sample_module]) None (js "out"))) = Some el ∧
        el_funcIndices el = [1] ∧ el_tableIdx el = 0.
Proof.
  split; [reflexivity|]. eexists. split; [reflexivity|]. split; [reflexivity|].
  apply (implicit_table_segments false [sample_module; sample_module] (mkResolution [] [])
    (computeOffsets [sample_module; sample_module]) None (js "out")); [|reflexivity].
  cbn. right. left.
Defined.
