(* ===== verification/Emit.v ===== *)
(** Writing as composition.

    An [emitter] is a step on the encoder of src/emit/encoder.ts; [m ⟫ k] is the
    statement sequence.  [outputs m r] says what an emitter does whatever was written
    before: it appends the bytes of [r], or throws the exception of [r].  [guards P m k]
    says that [m] is [k] behind checks that pass exactly when [P] holds. *)

From S2P Require Import Prelude Encoder.
Import WasmEncoder.

Declare Scope emit_scope.
Delimit Scope emit_scope with emit.

Abbreviation emitter := (WasmEncoder → result WasmEncoder).

Definition then_ {S} (m k : S → result S) : S → result S := λ s, s' ← m s; k s'.
Notation "m ⟫ k" := (then_ m k) (at level 60, right associativity) : emit_scope.
#[global] Open Scope emit_scope.

(** A step that needs a value which may not be computed. *)
Definition with_value {A} (r : result A) (k : A → emitter) : emitter := λ e, a ← r; k a e.

(** A check that writes nothing. *)
Definition check (r : result ()) : emitter := λ e, _ ← r; Ok e.

Definition fails (f : fault) : emitter := λ _, Err f.

(** * What an emitter writes *)

Definition outputs (m : emitter) (r : result (list Z)) : Prop :=
  ∀ e, wf e →
    match r with
    | Ok bs => ∃ e', m e = Ok e' ∧ wf e' ∧ finish e' = finish e ++ bs
    | Err f => m e = Err f
    end.

(** [r1], then [r2]. *)
Definition out_app (r1 r2 : result (list Z)) : result (list Z) :=
  b1 ← r1; b2 ← r2; Ok (b1 ++ b2).

(** What an emitter writes into a fresh encoder. *)
Definition bytes_of (m : emitter) : result (list Z) := finish <$> m new.

Lemma outputs_emits m bs : emits m bs → outputs m (Ok bs).
Proof. done. Qed.

Lemma outputs_bytes_of m r : outputs m r → bytes_of m = r.
Proof.
  intros H. specialize (H new wf_new). unfold bytes_of. destruct r as [bs|f].
  - by destruct H as (e' & -> & _ & Hf); csimpl; rewrite Hf.
  - by rewrite H.
Qed.

Lemma outputs_ext m m' r : (∀ e, m e = m' e) → outputs m r → outputs m' r.
Proof. intros Hm H e He. rewrite <- Hm. by apply H. Qed.

Lemma outputs_then m k r1 r2 : outputs m r1 → outputs k r2 → outputs (m ⟫ k) (out_app r1 r2).
Proof.
  intros Hm Hk e He. specialize (Hm e He). unfold then_. destruct r1 as [b1|f]; csimpl.
  - destruct Hm as (e1 & -> & H1 & F1). specialize (Hk e1 H1). csimpl. destruct r2 as [b2|f]; csimpl.
    + destruct Hk as (e2 & -> & H2 & F2). exists e2. by rewrite F2, F1, app_assoc.
    + done.
  - by rewrite Hm.
Qed.

Lemma outputs_fails f : outputs (fails f) (Err f).
Proof. done. Qed.

Lemma outputs_skip : outputs Ok (Ok []).
Proof. apply emits_skip. Qed.

Lemma outputs_check r : outputs (check r) ((λ _, []) <$> r).
Proof. intros e He. unfold check. destruct r; csimpl; [|done]. exists e. by rewrite app_nil_r. Qed.

Lemma outputs_with_value {A} (r : result A) k o :
  (∀ a, r = Ok a → outputs (k a) (o a)) → outputs (with_value r k) (a ← r; o a).
Proof. intros H e He. unfold with_value. destruct r as [a|f]; csimpl; [by apply H|done]. Qed.

Lemma outputs_u32 v : outputs (u32 v)
  (if decide (0 ≤ v < 2 ^ 32) then Ok (uleb32 v)
   else throw ERangeError (js "u32 out of range: " ++ js_num v)).
Proof.
  case_decide; [by apply emits_u32|]. intros e _. apply u32_out_of_range. lia.
Qed.

(** [enc.i32] sees its argument through ToInt32 only. *)
Lemma i32_to_int32 v e : i32 (to_int32 v) e = i32 v e.
Proof.
  unfold i32. cbn [i32_loop]. unfold js_and, js_shr. by rewrite !to_int32_idemp.
Qed.

Lemma outputs_i32 v : outputs (i32 v) (Ok (sleb32 (to_int32 v))).
Proof. apply (outputs_ext (i32 (to_int32 v))); [apply i32_to_int32|]. apply emits_i32, to_int32_range. Qed.

Fixpoint out_each {A} (f : A → result (list Z)) (l : list A) : result (list Z) :=
  match l with [] => Ok [] | x :: l' => out_app (f x) (out_each f l') end.

Lemma outputs_each {A} (m : A → emitter) o (l : list A) :
  Forall (λ x, outputs (m x) (o x)) l → outputs (each m l) (out_each o l).
Proof.
  induction 1 as [|x l Hx Hl IH]; [apply outputs_skip|]. simpl.
  apply (outputs_ext (m x ⟫ each m l)); [done|]. by apply outputs_then.
Qed.

(** * Checks *)

Definition guards (P : Prop) (m k : emitter) : Prop := ∀ e e', m e = Ok e' ↔ P ∧ k e = Ok e'.

Lemma guards_refl m : guards True m m.
Proof. intros e e'. tauto. Qed.

Lemma guards_iff P Q m k : P ↔ Q → guards P m k → guards Q m k.
Proof. intros HPQ H e e'. rewrite <- HPQ. apply H. Qed.

Lemma guards_then P Q m m' k k' :
  guards P m m' → guards Q k k' → guards (P ∧ Q) (m ⟫ k) (m' ⟫ k').
Proof.
  intros Hm Hk e e'. unfold then_. split.
  - destruct (m e) as [e1|] eqn:E; [|done]. csimpl. intros H.
    apply Hm in E as [HP ->]. apply Hk in H as [HQ H]. done.
  - intros [[HP HQ] H]. destruct (m' e) as [e1|] eqn:E; [|done]. csimpl in H.
    rewrite (proj2 (Hm e e1)) by done. csimpl. by apply Hk.
Qed.

(** A check in front. *)
Lemma guards_check P r k k' Q :
  (r = Ok tt ↔ P) → guards Q k k' → guards (P ∧ Q) (check r ⟫ k) k'.
Proof.
  intros Hr Hk e e'. rewrite <- Hr. unfold then_, check.
  destruct r as [[]|f]; csimpl; [|naive_solver]. rewrite (Hk e e'). tauto.
Qed.

Lemma guards_with_value {A} (P : A → Prop) (r : result A) k k' :
  (∀ a, guards (P a) (k a) (k' a)) →
  guards (∃ a, r = Ok a ∧ P a) (with_value r k) (with_value r k').
Proof.
  intros H e e'. unfold with_value. destruct r as [a|f]; csimpl; [|naive_solver].
  rewrite (H a e e'). naive_solver.
Qed.

Lemma guards_each {A} (P : A → Prop) m m' (l : list A) :
  Forall (λ x, guards (P x) (m x) (m' x)) l → guards (Forall P l) (each m l) (each m' l).
Proof.
  induction 1 as [|x l Hx Hl IH].
  - intros e e'. rewrite Forall_nil. simpl. tauto.
  - apply (guards_iff (P x ∧ Forall P l)); [by rewrite Forall_cons|]. by apply guards_then.
Qed.

Lemma guards_for_each {A} (P : A → Prop) m m' (l : list A) :
  (∀ x, x ∈ l → guards (P x) (m x) (m' x)) → guards (Forall P l) (for_each l m) (for_each l m').
Proof.
  intros H e e'. rewrite <- !each_for_each. apply guards_each. by apply Forall_forall.
Qed.

Lemma guards_vector {A} (P : A → Prop) m m' (l : list A) :
  (∀ x, x ∈ l → guards (P x) (m x) (m' x)) → guards (Forall P l) (vector l m) (vector l m').
Proof.
  intros H. apply (guards_iff (True ∧ Forall P l)); [tauto|].
  apply (guards_then True (Forall P l) (u32 _) (u32 _)); [apply guards_refl|by apply guards_for_each].
Qed.

Lemma guards_section P id m m' : guards P m m' → guards P (section id m) (section id m').
Proof.
  intros H e e'. unfold section. destruct (m' new) as [s|f] eqn:E.
  - destruct (m new) as [s'|f'] eqn:E'.
    + apply H in E' as [HP E']. rewrite E' in E. injection E as ->. csimpl. tauto.
    + csimpl. split; [done|]. intros [HP _]. by rewrite (proj2 (H new s)) in E'.
  - destruct (m new) as [s'|f'] eqn:E'; csimpl; [|naive_solver].
    apply H in E' as [_ E']. congruence.
Qed.

(** * Emitters that end: they append to the encoder, or throw. *)

(** [e'] is [e] with more bytes. *)
Definition extends (e e' : WasmEncoder) : Prop := wf e' ∧ ∃ bs, finish e' = finish e ++ bs.

Definition steady (m : emitter) : Prop := ∀ e, wf e → yields (extends e) (m e).

Lemma extends_self e : wf e → extends e e.
Proof. intros He. split; [done|]. exists []. by rewrite app_nil_r. Qed.

Lemma extends_trans e1 e2 e3 : extends e1 e2 → extends e2 e3 → extends e1 e3.
Proof. intros [_ [b1 H1]] [Hw [b2 H2]]. split; [done|]. exists (b1 ++ b2). by rewrite H2, H1, app_assoc. Qed.

Lemma steady_outputs m r : outputs m r → settles r → steady m.
Proof.
  intros Hm Hr e He. specialize (Hm e He). destruct r as [bs|f].
  - destruct Hm as (e' & -> & Hw & Hf). split; [done|]. by exists bs.
  - rewrite Hm. exact Hr.
Qed.

Lemma steady_emits m bs : emits m bs → steady m.
Proof. intros Hm. by apply (steady_outputs m (Ok bs)). Qed.

Lemma steady_then m k : steady m → steady k → steady (m ⟫ k).
Proof.
  intros Hm Hk e He. eapply yields_bind; [by apply Hm|]. intros e1 H1. eapply yields_mono; [apply Hk, H1|].
  intros e2. by apply extends_trans.
Qed.

Lemma steady_skip : steady Ok.
Proof. intros e He. by apply extends_self. Qed.

Lemma steady_fails k msg : steady (fails (Throw k msg)).
Proof. by intros e He. Qed.

Lemma steady_check r : settles r → steady (check r).
Proof. intros Hr e He. unfold check. destruct r; [by apply extends_self|done]. Qed.

Lemma steady_with_value {A} (r : result A) k : settles r → (∀ a, r = Ok a → steady (k a)) → steady (with_value r k).
Proof. intros Hr Hk e He. unfold with_value. destruct r as [a|f]; csimpl; [by apply Hk|done]. Qed.

Lemma steady_each {A} (l : list A) m : Forall (λ x, steady (m x)) l → steady (each m l).
Proof. induction 1 as [|x l Hx Hl IH]; [apply steady_skip|]. by apply (steady_then (m x) (each m l)). Qed.

Lemma steady_for_each {A} (l : list A) m : (∀ x, x ∈ l → steady (m x)) → steady (for_each l m).
Proof. intros Hm e He. rewrite <- each_for_each. apply steady_each; [|done]. by apply Forall_forall. Qed.

Lemma steady_for_n n a m : (∀ i, steady (m i)) → steady (for_n n a m).
Proof.
  intros Hm. revert a. induction n as [|n IH]; intros a; [apply steady_skip|].
  by apply (steady_then (m a) (for_n n (a + 1) m)).
Qed.

Lemma steady_byte b : steady (byte b).
Proof. eapply steady_emits, emits_byte. Qed.
Lemma steady_bytes bs : steady (bytes bs).
Proof. eapply steady_emits, emits_bytes. Qed.
Lemma steady_u32 v : steady (u32 v).
Proof. eapply steady_outputs; [apply outputs_u32|]. by case_decide. Qed.
Lemma steady_i32 v : steady (i32 v).
Proof. eapply steady_outputs; [apply outputs_i32|done]. Qed.
Lemma steady_i64 v : steady (i64 v).
Proof. eapply steady_emits, emits_i64. Qed.
Lemma steady_v128 bs : steady (v128 bs).
Proof. intros e He. unfold v128. case_match; [done|]. by apply steady_bytes. Qed.

Lemma steady_name `{TextCodec} s : steady (name s).
Proof. apply steady_then; [apply steady_u32|apply steady_bytes]. Qed.

Lemma steady_vector {A} (l : list A) m : (∀ x, x ∈ l → steady (m x)) → steady (vector l m).
Proof. intros Hm. apply (steady_then (u32 _)); [apply steady_u32|by apply steady_for_each]. Qed.

Lemma steady_section id m : steady m → steady (section id m).
Proof.
  intros Hm e He. unfold section. eapply yields_bind; [apply Hm, wf_new|]. intros s _. cbv zeta.
  assert (steady (byte id ⟫ u32 (Z.of_nat (length (finish s))) ⟫ bytes (finish s))) as Hs
    by (apply steady_then; [apply steady_byte|apply steady_then; [apply steady_u32|apply steady_bytes]]).
  by apply Hs.
Qed.

Create HintDb steady.
#[export] Hint Resolve steady_skip steady_fails steady_byte steady_bytes steady_u32 steady_i32 steady_i64
  steady_v128 @steady_name : steady.

(** An emitter, statement by statement. *)
Ltac steady_step :=
  lazymatch goal with
  | |- steady (_ ⟫ _) => apply steady_then
  | |- steady (vector _ _) => apply steady_vector; intros ? ?
  | |- steady (for_each _ _) => apply steady_for_each; intros ? ?
  | |- steady (each _ _) => apply steady_each; try assumption
  | |- steady (section _ _) => apply steady_section
  | |- steady (match ?x with _ => _ end) => destruct x
  | |- steady _ => solve [auto with steady]
  end.
Ltac steady := repeat steady_step.
