(* ===== verification/WasmModel.v ===== *)
(** The Wasm module that code generation builds: src/wasm/model/instructions.ts,
    src/wasm/model/module-records.ts and the fields of WasmModule (src/ir/types.ts)
    that the writers read.

    An instruction is an object tagged by its [op] string.  Instructions without
    fields, memory accesses and lane accesses keep that string ([Plain] with the op
    of a constructor below stands for no instruction); the others are constructors
    of their own.  The brands on value types, the names and flags that
    no writer reads and the source positions are left out.  The numbers of f32.const
    and f64.const are their IEEE 754 bits. *)

From S2P Require Import Prelude.

(** * Types *)

Inductive ValType :=
  | VI32 | VI64 | VF32 | VF64 | VV128 | VI8 | VI16
  | VRef (typeIdx : Z) | VRefNull (typeIdx : Z)
  | VFuncref | VExternref | VRefExtern | VEqref | VAnyref.

#[global] Instance ValType_eq_dec : EqDecision ValType.
Proof. solve_decision. Defined.

Inductive BlockType := BEmpty | BVal (type : ValType) | BType (typeIdx : Z).

Record FieldDef := mkField { fd_type : ValType; fd_mutable : bool }.

Inductive TypeDef :=
  | TFunc (params results : list ValType)
  | TStruct (fields : list FieldDef) (superTypeIdx : option Z) (final : bool)
  | TArray (element : ValType) (mutable : bool)
  | TRec (types : list TypeDef)
  | TSub (superType : option Z) (final : bool) (type : TypeDef).

(** * Instructions *)

(** A clause of [try_table]; [tagIdx] is optional in the source. *)
Inductive CatchKind := Catch | CatchRef | CatchAll | CatchAllRef.

Record TryTableCatch := mkCatch { tc_kind : CatchKind; tc_tagIdx : option Z; tc_depth : Z }.

Inductive Instr :=
  | Plain (op : string)
  | Memarg (op : string) (align offset : Z)
  | Lane (op : string) (lane : Z)
  | LocalGet (index : Z) | LocalSet (index : Z) | LocalTee (index : Z)
  | GlobalGet (index : Z) | GlobalSet (index : Z)
  | I32Const (value : Z) | I64Const (value : Z) | F64Const (bits : Z) | F32Const (bits : Z)
  | V128Const (bytes : list Z) | I8x16Shuffle (lanes : list Z)
  | Block (blockType : BlockType) (body : list Instr)
  | Loop (blockType : BlockType) (body : list Instr)
  | If (blockType : BlockType) (then_ : list Instr) (else_ : option (list Instr))
  | Br (depth : Z) | BrIf (depth : Z) | BrTable (targets : list Z) (defaultDepth : Z)
  | Call (funcIdx : Z) | ReturnCall (funcIdx : Z) | CallIndirect (typeIdx tableIdx : Z)
  | StructNew (typeIdx : Z) | StructGet (typeIdx fieldIdx : Z) | StructSet (typeIdx fieldIdx : Z)
  | ArrayNew (typeIdx : Z) | ArrayNewFixed (typeIdx length : Z) | ArrayNewDefault (typeIdx : Z)
  | ArrayGet (typeIdx : Z) | ArrayGetS (typeIdx : Z) | ArrayGetU (typeIdx : Z) | ArraySet (typeIdx : Z)
  | ArrayCopy (dstTypeIdx srcTypeIdx : Z) | ArrayFill (typeIdx : Z)
  | RefNull (typeIdx : Z) | RefCast (typeIdx : Z) | RefCastNull (typeIdx : Z) | RefTest (typeIdx : Z)
  | RefFunc (funcIdx : Z) | CallRef (typeIdx : Z) | ReturnCallRef (typeIdx : Z)
  | MemoryInit (dataIdx : Z) | DataDrop (dataIdx : Z)
  | Try (blockType : BlockType) (body : list Instr) (catches : list (Z * list Instr)) (catchAll : option (list Instr))
  | TryTable (blockType : BlockType) (body : list Instr) (catches : list TryTableCatch)
  | Throw_ (tagIdx : Z) | Rethrow (depth : Z).

(** * Modules *)

Inductive ImportDesc :=
  | IFunc (typeIdx : Z)
  | ITable (elementType : string) (min : Z) (max : option Z)
  | IGlobal (type : ValType) (mutable : bool)
  | IMemory (min : Z) (max : option Z)
  | ITag (typeIdx : Z).

Record Import_ := mkImport_ { im_module : jsstr; im_name : jsstr; im_desc : ImportDesc }.

Inductive ExportKind := XFunc | XTable | XMemory | XGlobal | XTag.

Record WasmExport := mkWasmExport { ex_name : jsstr; ex_kind : ExportKind; ex_index : Z }.

Record WasmFunction := mkWasmFunction { wf_name : jsstr; wf_typeIdx : Z; wf_locals : list ValType; wf_body : list Instr }.
Record TagDef := mkTagDef { td_name : jsstr; td_typeIdx : Z }.
Record Table := mkTable_ { tb_elementType : string; tb_min : Z; tb_max : option Z }.
Record Element := mkElement_ { em_tableIdx : Z; em_offset : list Instr; em_funcIndices : list Z }.
Record GlobalDef := mkGlobalDef { gd_name : jsstr; gd_type : ValType; gd_mutable : bool; gd_init : list Instr }.

Record Memory_ := mkMemory_ { mm_min : Z; mm_max : option Z }.
Record DataSegment := mkData { ds_offset : Z; ds_bytes : list Z; ds_passive : bool }.

(** [funcOrdinalToPosition] holds [NaN], here [None], for a handle that was minted
    and not pushed. *)
Record WasmModule := mkModule {
  m_types : list TypeDef;
  m_canonicalRuntimeRecGroup : option (Z * Z);
  m_imports : list Import_;
  m_functions : list WasmFunction;
  m_exports : list WasmExport;
  m_tables : list Table;
  m_elements : list Element;
  m_globals : list GlobalDef;
  m_tags : list TagDef;
  m_declaredFuncRefs : list Z;
  m_funcOrdinalToPosition : list (option Z);
  m_memories : list Memory_;
  m_dataSegments : list DataSegment;
  m_startFuncIdx : option Z }.

(** * Induction *)

Section instr_ind.
Context (P : Instr → Prop).
Context (Hleaf : ∀ i, match i with
                      | Block _ _ | Loop _ _ | If _ _ _ | Try _ _ _ _ | TryTable _ _ _ => True
                      | _ => P i end).
Context (Hblock : ∀ t body, Forall P body → P (Block t body)) (Hloop : ∀ t body, Forall P body → P (Loop t body)).
Context (Hif : ∀ t th el, Forall P th → (∀ l, el = Some l → Forall P l) → P (If t th el)).
Context (Htry : ∀ t body cs ca, Forall P body → Forall (λ c, Forall P c.2) cs → (∀ l, ca = Some l → Forall P l) →
                  P (Try t body cs ca)).
Context (Htable : ∀ t body cs, Forall P body → P (TryTable t body cs)).

Fixpoint instr_tree_ind (i : Instr) : P i :=
  let all := fix all (l : list Instr) : Forall P l :=
    match l with [] => Forall_nil_2 P | x :: l' => Forall_cons_2 P x l' (instr_tree_ind x) (all l') end in
  let opt (o : option (list Instr)) : ∀ l, o = Some l → Forall P l :=
    match o with
    | Some l0 => λ l (E : Some l0 = Some l), eq_ind l0 (Forall P) (all l0) l (inj Some l0 l E)
    | None => λ l (E : None = Some l), False_ind _ (eq_ind None (λ o, match o with None => True | Some _ => False end) I _ E)
    end in
  match i with
  | Block t body => Hblock t body (all body)
  | Loop t body => Hloop t body (all body)
  | If t th el => Hif t th el (all th) (opt el)
  | Try t body cs ca =>
      Htry t body cs ca (all body)
        ((fix clauses (l : list (Z * list Instr)) : Forall (λ c, Forall P c.2) l :=
            match l with
            | [] => Forall_nil_2 _
            | c :: l' => Forall_cons_2 (λ c, Forall P c.2) c l' (all c.2) (clauses l')
            end) cs)
        (opt ca)
  | TryTable t body cs => Htable t body cs (all body)
  | i => Hleaf i
  end.
End instr_ind.

Section typedef_ind.
Context (P : TypeDef → Prop).
Context (Hfunc : ∀ ps rs, P (TFunc ps rs)) (Hstruct : ∀ fs s fin, P (TStruct fs s fin)) (Harray : ∀ t m, P (TArray t m)).
Context (Hrec : ∀ ts, Forall P ts → P (TRec ts)) (Hsub : ∀ s fin t, P t → P (TSub s fin t)).

Fixpoint typedef_tree_ind (t : TypeDef) : P t :=
  match t with
  | TFunc ps rs => Hfunc ps rs
  | TStruct fs s fin => Hstruct fs s fin
  | TArray t m => Harray t m
  | TRec ts =>
      Hrec ts ((fix all (l : list TypeDef) : Forall P l :=
        match l with [] => Forall_nil_2 P | x :: l' => Forall_cons_2 P x l' (typedef_tree_ind x) (all l') end) ts)
  | TSub s fin t => Hsub s fin t (typedef_tree_ind t)
  end.
End typedef_ind.
