(* ===== verification/WasmOps.v ===== *)
(** The opcodes of src/emit/opcodes.ts and the cases without an index of the two
    instruction encoders: for each [op] string of src/emit/binary.ts (encodeInstr)
    and of src/emit/object.ts (encodeInstrWithReloc), what the case writes before
    the immediates. *)

From S2P Require Import Prelude.

#[local] Open Scope string_scope.
#[local] Open Scope Z_scope.

(** * The objects of opcodes.ts *)

(** [obj.key]; every key used below is one of the object's. *)
Definition field (fields : list (string * Z)) (key : string) : Z :=
  match list_find (λ f, f.1 = key) fields with Some (_, f) => f.2 | None => -1 end.

Definition OP_fields : list (string * Z) :=
  [
   ("unreachable", 0x0); ("nop", 0x1); ("block", 0x2); ("loop", 0x3); ("if", 0x4); ("else", 0x5);
   ("try", 0x6); ("catch", 0x7); ("throw", 0x8); ("rethrow", 0x9); ("end", 0xb); ("br", 0xc); ("br_if", 0xd);
   ("br_table", 0xe); ("return", 0xf); ("call", 0x10); ("call_indirect", 0x11); ("return_call", 0x12);
   ("return_call_indirect", 0x13); ("delegate", 0x18); ("catch_all", 0x19); ("drop", 0x1a); ("select", 0x1b);
   ("try_table", 0x1f); ("local_get", 0x20); ("local_set", 0x21); ("local_tee", 0x22); ("global_get", 0x23);
   ("global_set", 0x24); ("table_get", 0x25); ("table_set", 0x26); ("i32_load", 0x28); ("i32_load8_s", 0x2c);
   ("i32_load8_u", 0x2d); ("i32_load16_u", 0x2f); ("i32_store", 0x36); ("i64_store", 0x37);
   ("i32_store8", 0x3a); ("i32_store16", 0x3b); ("f32_load", 0x2a); ("f64_load", 0x2b); ("f32_store", 0x38);
   ("f64_store", 0x39); ("i32_const", 0x41); ("i64_const", 0x42); ("f32_const", 0x43); ("f64_const", 0x44);
   ("i32_eqz", 0x45); ("i32_eq", 0x46); ("i32_ne", 0x47); ("i32_lt_s", 0x48); ("i32_lt_u", 0x49);
   ("i32_gt_s", 0x4a); ("i32_gt_u", 0x4b); ("i32_le_s", 0x4c); ("i32_le_u", 0x4d); ("i32_ge_s", 0x4e);
   ("i32_ge_u", 0x4f); ("i32_add", 0x6a); ("i32_sub", 0x6b); ("i32_mul", 0x6c); ("i32_div_s", 0x6d);
   ("i32_div_u", 0x6e); ("i32_rem_s", 0x6f); ("i32_rem_u", 0x70); ("i32_and", 0x71); ("i32_or", 0x72);
   ("i32_xor", 0x73); ("i32_shl", 0x74); ("i32_shr_s", 0x75); ("i32_shr_u", 0x76); ("i32_clz", 0x67);
   ("f64_eq", 0x61); ("f64_ne", 0x62); ("f64_lt", 0x63); ("f64_gt", 0x64); ("f64_le", 0x65); ("f64_ge", 0x66);
   ("f64_abs", 0x99); ("f64_neg", 0x9a); ("f64_ceil", 0x9b); ("f64_floor", 0x9c); ("f64_trunc", 0x9d);
   ("f64_nearest", 0x9e); ("f64_sqrt", 0x9f); ("f64_add", 0xa0); ("f64_sub", 0xa1); ("f64_mul", 0xa2);
   ("f64_div", 0xa3); ("f64_min", 0xa4); ("f64_max", 0xa5); ("f64_copysign", 0xa6); ("i32_wrap_i64", 0xa7);
   ("i32_trunc_f64_s", 0xaa); ("i32_trunc_f64_u", 0xab); ("f32_demote_f64", 0xb6); ("f64_promote_f32", 0xbb);
   ("i64_eqz", 0x50); ("i64_eq", 0x51); ("i64_ne", 0x52); ("i64_lt_s", 0x53); ("i64_lt_u", 0x54);
   ("i64_gt_s", 0x55); ("i64_gt_u", 0x56); ("i64_le_s", 0x57); ("i64_le_u", 0x58); ("i64_ge_s", 0x59);
   ("i64_ge_u", 0x5a); ("i64_add", 0x7c); ("i64_sub", 0x7d); ("i64_mul", 0x7e); ("i64_div_s", 0x7f);
   ("i64_div_u", 0x80); ("i64_rem_s", 0x81); ("i64_rem_u", 0x82); ("i64_and", 0x83); ("i64_or", 0x84);
   ("i64_xor", 0x85); ("i64_shl", 0x86); ("i64_shr_s", 0x87); ("i64_shr_u", 0x88); ("i64_extend_i32_s", 0xac);
   ("i64_extend_i32_u", 0xad); ("i64_trunc_f64_s", 0xb0); ("f64_convert_i64_s", 0xb9);
   ("f64_convert_i64_u", 0xba); ("f64_convert_i32_s", 0xb7); ("f64_convert_i32_u", 0xb8);
   ("i32_reinterpret_f32", 0xbc); ("i64_reinterpret_f64", 0xbd); ("f32_reinterpret_i32", 0xbe);
   ("f64_reinterpret_i64", 0xbf); ("ref_null", 0xd0); ("ref_is_null", 0xd1); ("ref_eq", 0xd3);
   ("ref_as_non_null", 0xd4); ("ref_func", 0xd2); ("call_ref", 0x14); ("return_call_ref", 0x15);
   ("memory_size", 0x3f); ("memory_grow", 0x40); ("misc_prefix", 0xfc); ("i32_trunc_sat_f64_s", 0x2);
   ("i32_trunc_sat_f64_u", 0x3); ("i64_trunc_sat_f64_s", 0x6); ("i64_trunc_sat_f64_u", 0x7);
   ("simd_prefix", 0xfd)
  ].

Definition SIMD_fields : list (string * Z) :=
  [
   ("v128_load", 0x0); ("v128_load8x8_s", 0x1); ("v128_load8x8_u", 0x2); ("v128_load16x4_s", 0x3);
   ("v128_load16x4_u", 0x4); ("v128_load32x2_s", 0x5); ("v128_load32x2_u", 0x6); ("v128_load8_splat", 0x7);
   ("v128_load16_splat", 0x8); ("v128_load32_splat", 0x9); ("v128_load64_splat", 0xa); ("v128_store", 0xb);
   ("v128_const", 0xc); ("i8x16_shuffle", 0xd); ("i8x16_swizzle", 0xe); ("i8x16_splat", 0xf);
   ("i16x8_splat", 0x10); ("i32x4_splat", 0x11); ("i64x2_splat", 0x12); ("f32x4_splat", 0x13);
   ("f64x2_splat", 0x14); ("i8x16_extract_lane_s", 0x15); ("i8x16_extract_lane_u", 0x16);
   ("i8x16_replace_lane", 0x17); ("i16x8_extract_lane_s", 0x18); ("i16x8_extract_lane_u", 0x19);
   ("i16x8_replace_lane", 0x1a); ("i32x4_extract_lane", 0x1b); ("i32x4_replace_lane", 0x1c);
   ("i64x2_extract_lane", 0x1d); ("i64x2_replace_lane", 0x1e); ("f32x4_extract_lane", 0x1f);
   ("f32x4_replace_lane", 0x20); ("f64x2_extract_lane", 0x21); ("f64x2_replace_lane", 0x22);
   ("i8x16_eq", 0x23); ("i8x16_ne", 0x24); ("i8x16_lt_s", 0x25); ("i8x16_lt_u", 0x26); ("i8x16_gt_s", 0x27);
   ("i8x16_gt_u", 0x28); ("i8x16_le_s", 0x29); ("i8x16_le_u", 0x2a); ("i8x16_ge_s", 0x2b);
   ("i8x16_ge_u", 0x2c); ("i16x8_eq", 0x2d); ("i16x8_ne", 0x2e); ("i16x8_lt_s", 0x2f); ("i16x8_lt_u", 0x30);
   ("i16x8_gt_s", 0x31); ("i16x8_gt_u", 0x32); ("i16x8_le_s", 0x33); ("i16x8_le_u", 0x34);
   ("i16x8_ge_s", 0x35); ("i16x8_ge_u", 0x36); ("i32x4_eq", 0x37); ("i32x4_ne", 0x38); ("i32x4_lt_s", 0x39);
   ("i32x4_lt_u", 0x3a); ("i32x4_gt_s", 0x3b); ("i32x4_gt_u", 0x3c); ("i32x4_le_s", 0x3d);
   ("i32x4_le_u", 0x3e); ("i32x4_ge_s", 0x3f); ("i32x4_ge_u", 0x40); ("f32x4_eq", 0x41); ("f32x4_ne", 0x42);
   ("f32x4_lt", 0x43); ("f32x4_gt", 0x44); ("f32x4_le", 0x45); ("f32x4_ge", 0x46); ("f64x2_eq", 0x47);
   ("f64x2_ne", 0x48); ("f64x2_lt", 0x49); ("f64x2_gt", 0x4a); ("f64x2_le", 0x4b); ("f64x2_ge", 0x4c);
   ("v128_not", 0x4d); ("v128_and", 0x4e); ("v128_andnot", 0x4f); ("v128_or", 0x50); ("v128_xor", 0x51);
   ("v128_bitselect", 0x52); ("v128_any_true", 0x53); ("i8x16_abs", 0x60); ("i8x16_neg", 0x61);
   ("i8x16_popcnt", 0x62); ("i8x16_all_true", 0x63); ("i8x16_bitmask", 0x64); ("i8x16_narrow_i16x8_s", 0x65);
   ("i8x16_narrow_i16x8_u", 0x66); ("i8x16_shl", 0x6b); ("i8x16_shr_s", 0x6c); ("i8x16_shr_u", 0x6d);
   ("i8x16_add", 0x6e); ("i8x16_add_sat_s", 0x6f); ("i8x16_add_sat_u", 0x70); ("i8x16_sub", 0x71);
   ("i8x16_sub_sat_s", 0x72); ("i8x16_sub_sat_u", 0x73); ("i8x16_min_s", 0x76); ("i8x16_min_u", 0x77);
   ("i8x16_max_s", 0x78); ("i8x16_max_u", 0x79); ("i16x8_abs", 0x80); ("i16x8_neg", 0x81);
   ("i16x8_all_true", 0x83); ("i16x8_bitmask", 0x84); ("i16x8_narrow_i32x4_s", 0x85);
   ("i16x8_narrow_i32x4_u", 0x86); ("i16x8_extend_low_i8x16_s", 0x87); ("i16x8_extend_high_i8x16_s", 0x88);
   ("i16x8_extend_low_i8x16_u", 0x89); ("i16x8_extend_high_i8x16_u", 0x8a); ("i16x8_shl", 0x8b);
   ("i16x8_shr_s", 0x8c); ("i16x8_shr_u", 0x8d); ("i16x8_add", 0x8e); ("i16x8_add_sat_s", 0x8f);
   ("i16x8_add_sat_u", 0x90); ("i16x8_sub", 0x91); ("i16x8_sub_sat_s", 0x92); ("i16x8_sub_sat_u", 0x93);
   ("i16x8_mul", 0x95); ("i16x8_min_s", 0x96); ("i16x8_min_u", 0x97); ("i16x8_max_s", 0x98);
   ("i16x8_max_u", 0x99); ("i32x4_abs", 0xa0); ("i32x4_neg", 0xa1); ("i32x4_all_true", 0xa3);
   ("i32x4_bitmask", 0xa4); ("i32x4_extend_low_i16x8_s", 0xa7); ("i32x4_extend_high_i16x8_s", 0xa8);
   ("i32x4_extend_low_i16x8_u", 0xa9); ("i32x4_extend_high_i16x8_u", 0xaa); ("i32x4_shl", 0xab);
   ("i32x4_shr_s", 0xac); ("i32x4_shr_u", 0xad); ("i32x4_add", 0xae); ("i32x4_sub", 0xb1);
   ("i32x4_mul", 0xb5); ("i32x4_min_s", 0xb6); ("i32x4_min_u", 0xb7); ("i32x4_max_s", 0xb8);
   ("i32x4_max_u", 0xb9); ("i64x2_abs", 0xc0); ("i64x2_neg", 0xc1); ("i64x2_all_true", 0xc3);
   ("i64x2_bitmask", 0xc4); ("i64x2_shl", 0xcb); ("i64x2_shr_s", 0xcc); ("i64x2_shr_u", 0xcd);
   ("i64x2_add", 0xce); ("i64x2_sub", 0xd1); ("i64x2_mul", 0xd5); ("i64x2_eq", 0xd6); ("i64x2_ne", 0xd7);
   ("i64x2_lt_s", 0xd8); ("i64x2_gt_s", 0xd9); ("i64x2_le_s", 0xda); ("i64x2_ge_s", 0xdb);
   ("f32x4_abs", 0xe0); ("f32x4_neg", 0xe1); ("f32x4_sqrt", 0xe3); ("f32x4_add", 0xe4); ("f32x4_sub", 0xe5);
   ("f32x4_mul", 0xe6); ("f32x4_div", 0xe7); ("f32x4_min", 0xe8); ("f32x4_max", 0xe9); ("f32x4_pmin", 0xea);
   ("f32x4_pmax", 0xeb); ("f64x2_abs", 0xec); ("f64x2_neg", 0xed); ("f64x2_sqrt", 0xef); ("f64x2_add", 0xf0);
   ("f64x2_sub", 0xf1); ("f64x2_mul", 0xf2); ("f64x2_div", 0xf3); ("f64x2_min", 0xf4); ("f64x2_max", 0xf5);
   ("f64x2_pmin", 0xf6); ("f64x2_pmax", 0xf7); ("i32x4_trunc_sat_f32x4_s", 0xf8);
   ("i32x4_trunc_sat_f32x4_u", 0xf9); ("f32x4_convert_i32x4_s", 0xfa); ("f32x4_convert_i32x4_u", 0xfb);
   ("i32x4_trunc_sat_f64x2_s_zero", 0xfc); ("i32x4_trunc_sat_f64x2_u_zero", 0xfd);
   ("f64x2_convert_low_i32x4_s", 0xfe); ("f64x2_convert_low_i32x4_u", 0xff); ("v128_load8_lane", 0x54);
   ("v128_load16_lane", 0x55); ("v128_load32_lane", 0x56); ("v128_load64_lane", 0x57);
   ("v128_store8_lane", 0x58); ("v128_store16_lane", 0x59); ("v128_store32_lane", 0x5a);
   ("v128_store64_lane", 0x5b); ("v128_load32_zero", 0x5c); ("v128_load64_zero", 0x5d)
  ].

Definition GC_fields : list (string * Z) :=
  [
   ("prefix", 0xfb); ("struct_new", 0x0); ("struct_new_default", 0x1); ("struct_get", 0x2);
   ("struct_get_s", 0x3); ("struct_get_u", 0x4); ("struct_set", 0x5); ("array_new", 0x6);
   ("array_new_default", 0x7); ("array_new_fixed", 0x8); ("array_get", 0xb); ("array_get_s", 0xc);
   ("array_get_u", 0xd); ("array_set", 0xe); ("array_len", 0xf); ("array_fill", 0x10); ("array_copy", 0x11);
   ("ref_test", 0x14); ("ref_test_null", 0x15); ("ref_cast", 0x16); ("ref_cast_null", 0x17);
   ("any_convert_extern", 0x1a); ("extern_convert_any", 0x1b); ("ref_i31", 0x1c); ("i31_get_s", 0x1d)
  ].

Definition TYPE_fields : list (string * Z) :=
  [
   ("i32", 0x7f); ("i64", 0x7e); ("f32", 0x7d); ("f64", 0x7c); ("funcref", 0x70); ("externref", 0x6f);
   ("struct", 0x5f); ("array", 0x5e); ("func", 0x60); ("rec", 0x4e); ("sub", 0x50); ("sub_final", 0x4f);
   ("ref", 0x64); ("ref_null", 0x63); ("any", 0x6e); ("eq", 0x6d); ("i31", 0x6c); ("struct_ht", 0x6b);
   ("array_ht", 0x6a); ("none", 0x71); ("noextern", 0x72); ("nofunc", 0x73); ("v128", 0x7b); ("i8", 0x78);
   ("i16", 0x77); ("const_field", 0x0); ("mut_field", 0x1)
  ].

Definition SECTION_fields : list (string * Z) :=
  [
   ("custom", 0x0); ("type", 0x1); ("import", 0x2); ("function", 0x3); ("table", 0x4); ("memory", 0x5);
   ("global", 0x6); ("export", 0x7); ("start", 0x8); ("element", 0x9); ("code", 0xa); ("data", 0xb);
   ("dataCount", 0xc); ("tag", 0xd)
  ].

Definition RELOC_fields : list (string * Z) :=
  [
   ("R_WASM_FUNCTION_INDEX_LEB", 0x0); ("R_WASM_TABLE_INDEX_SLEB", 0x1); ("R_WASM_TABLE_INDEX_I32", 0x2);
   ("R_WASM_MEMORY_ADDR_LEB", 0x3); ("R_WASM_MEMORY_ADDR_SLEB", 0x4); ("R_WASM_MEMORY_ADDR_I32", 0x5);
   ("R_WASM_TYPE_INDEX_LEB", 0x6); ("R_WASM_GLOBAL_INDEX_LEB", 0x7); ("R_WASM_FUNCTION_OFFSET_I32", 0x8);
   ("R_WASM_SECTION_OFFSET_I32", 0x9); ("R_WASM_TAG_INDEX_LEB", 0xa)
  ].

Definition SYM_FLAGS_fields : list (string * Z) :=
  [
   ("WASM_SYM_BINDING_WEAK", 0x1); ("WASM_SYM_BINDING_LOCAL", 0x2); ("WASM_SYM_VISIBILITY_HIDDEN", 0x4);
   ("WASM_SYM_UNDEFINED", 0x10); ("WASM_SYM_EXPORTED", 0x20); ("WASM_SYM_EXPLICIT_NAME", 0x40);
   ("WASM_SYM_NO_STRIP", 0x80)
  ].

Definition SYMTAB_fields : list (string * Z) :=
  [
   ("SYMTAB_FUNCTION", 0x0); ("SYMTAB_DATA", 0x1); ("SYMTAB_GLOBAL", 0x2); ("SYMTAB_SECTION", 0x3);
   ("SYMTAB_EVENT", 0x4); ("SYMTAB_TABLE", 0x5)
  ].

Definition LINKING_SUBSECTION_fields : list (string * Z) :=
  [
   ("WASM_SEGMENT_INFO", 0x5); ("WASM_INIT_FUNCS", 0x6); ("WASM_COMDAT_INFO", 0x7); ("WASM_SYMBOL_TABLE", 0x8)
  ].

Definition OP : string → Z := field OP_fields.
Definition SIMD : string → Z := field SIMD_fields.
Definition GC : string → Z := field GC_fields.
Definition TYPE : string → Z := field TYPE_fields.
Definition SECTION : string → Z := field SECTION_fields.
Definition RELOC : string → Z := field RELOC_fields.
Definition SYM_FLAGS : string → Z := field SYM_FLAGS_fields.
Definition SYMTAB : string → Z := field SYMTAB_fields.
Definition LINKING_SUBSECTION : string → Z := field LINKING_SUBSECTION_fields.

(** * What a case writes *)

(** [enc.byte(b)] or [enc.u32(v)]. *)
Inductive piece := PByte (b : Z) | PU32 (v : Z).

Definition find_op (ops : list (string * list piece)) (op : string) : option (list piece) :=
  match list_find (λ f, f.1 = op) ops with Some (_, f) => Some f.2 | None => None end.

(** ** encodeInstr *)

Definition control_ops : list (string * list piece) :=
  [
   ("unreachable", [PByte (OP "unreachable")]); ("nop", [PByte (OP "nop")])
  ].

Definition return_ops : list (string * list piece) :=
  [
   ("return", [PByte (OP "return")])
  ].

Definition drop_ops : list (string * list piece) :=
  [
   ("drop", [PByte (OP "drop")]); ("select", [PByte (OP "select")])
  ].

Definition i64_ops : list (string * list piece) :=
  [
   ("i64.add", [PByte (OP "i64_add")]); ("i64.sub", [PByte (OP "i64_sub")]);
   ("i64.mul", [PByte (OP "i64_mul")]); ("i64.div_s", [PByte (OP "i64_div_s")]);
   ("i64.div_u", [PByte (OP "i64_div_u")]); ("i64.rem_s", [PByte (OP "i64_rem_s")]);
   ("i64.rem_u", [PByte (OP "i64_rem_u")]); ("i64.eq", [PByte (OP "i64_eq")]);
   ("i64.ne", [PByte (OP "i64_ne")]); ("i64.lt_s", [PByte (OP "i64_lt_s")]);
   ("i64.lt_u", [PByte (OP "i64_lt_u")]); ("i64.le_s", [PByte (OP "i64_le_s")]);
   ("i64.le_u", [PByte (OP "i64_le_u")]); ("i64.gt_s", [PByte (OP "i64_gt_s")]);
   ("i64.gt_u", [PByte (OP "i64_gt_u")]); ("i64.ge_s", [PByte (OP "i64_ge_s")]);
   ("i64.ge_u", [PByte (OP "i64_ge_u")]); ("i64.eqz", [PByte (OP "i64_eqz")]);
   ("i64.and", [PByte (OP "i64_and")]); ("i64.or", [PByte (OP "i64_or")]);
   ("i64.xor", [PByte (OP "i64_xor")]); ("i64.shl", [PByte (OP "i64_shl")]);
   ("i64.shr_s", [PByte (OP "i64_shr_s")]); ("i64.shr_u", [PByte (OP "i64_shr_u")]);
   ("i64.extend_i32_s", [PByte (OP "i64_extend_i32_s")]);
   ("i64.extend_i32_u", [PByte (OP "i64_extend_i32_u")]); ("i64.trunc_f64_s", [PByte (OP "i64_trunc_f64_s")]);
   ("f64.convert_i64_s", [PByte (OP "f64_convert_i64_s")]);
   ("f64.convert_i64_u", [PByte (OP "f64_convert_i64_u")]);
   ("i64.reinterpret_f64", [PByte (OP "i64_reinterpret_f64")]);
   ("f64.reinterpret_i64", [PByte (OP "f64_reinterpret_i64")]);
   ("i32.reinterpret_f32", [PByte (OP "i32_reinterpret_f32")]);
   ("f32.reinterpret_i32", [PByte (OP "f32_reinterpret_i32")])
  ].

Definition number_ops : list (string * list piece) :=
  [
   ("i32.eqz", [PByte (OP "i32_eqz")]); ("i32.eq", [PByte (OP "i32_eq")]); ("i32.ne", [PByte (OP "i32_ne")]);
   ("i32.lt_s", [PByte (OP "i32_lt_s")]); ("i32.le_s", [PByte (OP "i32_le_s")]);
   ("i32.gt_s", [PByte (OP "i32_gt_s")]); ("i32.ge_s", [PByte (OP "i32_ge_s")]);
   ("i32.ge_u", [PByte (OP "i32_ge_u")]); ("i32.add", [PByte (OP "i32_add")]);
   ("i32.sub", [PByte (OP "i32_sub")]); ("i32.mul", [PByte (OP "i32_mul")]);
   ("i32.and", [PByte (OP "i32_and")]); ("i32.or", [PByte (OP "i32_or")]);
   ("i32.xor", [PByte (OP "i32_xor")]); ("i32.shl", [PByte (OP "i32_shl")]);
   ("i32.shr_s", [PByte (OP "i32_shr_s")]); ("i32.shr_u", [PByte (OP "i32_shr_u")]);
   ("i32.clz", [PByte (OP "i32_clz")]);
   ("i32.trunc_sat_f64_s", [PByte (OP "misc_prefix"); PByte (OP "i32_trunc_sat_f64_s")]);
   ("i32.trunc_sat_f64_u", [PByte (OP "misc_prefix"); PByte (OP "i32_trunc_sat_f64_u")]);
   ("i64.trunc_sat_f64_s", [PByte (OP "misc_prefix"); PByte (OP "i64_trunc_sat_f64_s")]);
   ("f64.eq", [PByte (OP "f64_eq")]); ("f64.ne", [PByte (OP "f64_ne")]); ("f64.lt", [PByte (OP "f64_lt")]);
   ("f64.le", [PByte (OP "f64_le")]); ("f64.gt", [PByte (OP "f64_gt")]); ("f64.ge", [PByte (OP "f64_ge")]);
   ("f64.abs", [PByte (OP "f64_abs")]); ("f64.neg", [PByte (OP "f64_neg")]);
   ("f64.ceil", [PByte (OP "f64_ceil")]); ("f64.floor", [PByte (OP "f64_floor")]);
   ("f64.trunc", [PByte (OP "f64_trunc")]); ("f64.nearest", [PByte (OP "f64_nearest")]);
   ("f64.sqrt", [PByte (OP "f64_sqrt")]); ("f64.add", [PByte (OP "f64_add")]);
   ("f64.sub", [PByte (OP "f64_sub")]); ("f64.mul", [PByte (OP "f64_mul")]);
   ("f64.div", [PByte (OP "f64_div")]); ("f64.min", [PByte (OP "f64_min")]);
   ("f64.max", [PByte (OP "f64_max")]); ("f64.copysign", [PByte (OP "f64_copysign")]);
   ("i32.wrap_i64", [PByte (OP "i32_wrap_i64")]); ("i32.trunc_f64_s", [PByte (OP "i32_trunc_f64_s")]);
   ("i32.trunc_f64_u", [PByte (OP "i32_trunc_f64_u")]);
   ("f64.convert_i32_s", [PByte (OP "f64_convert_i32_s")]);
   ("f64.convert_i32_u", [PByte (OP "f64_convert_i32_u")])
  ].

Definition ref_ops : list (string * list piece) :=
  [
   ("ref.null.extern", [PByte (OP "ref_null"); PByte (TYPE "externref")]);
   ("ref.null.eq", [PByte (OP "ref_null"); PByte (TYPE "eq")]);
   ("ref.null.func", [PByte (OP "ref_null"); PByte (TYPE "funcref")]);
   ("ref.is_null", [PByte (OP "ref_is_null")]); ("ref.as_non_null", [PByte (OP "ref_as_non_null")]);
   ("ref.eq", [PByte (OP "ref_eq")])
  ].

Definition convert_ops : list (string * list piece) :=
  [
   ("any.convert_extern", [PByte (GC "prefix"); PByte (GC "any_convert_extern")]);
   ("ref.i31", [PByte (GC "prefix"); PByte (GC "ref_i31")]);
   ("i31.get_s", [PByte (GC "prefix"); PByte (GC "i31_get_s")]);
   ("extern.convert_any", [PByte (GC "prefix"); PByte (GC "extern_convert_any")])
  ].

Definition array_len_ops : list (string * list piece) :=
  [
   ("array.len", [PByte (GC "prefix"); PByte (GC "array_len")])
  ].

Definition memory_ops : list (string * list piece) :=
  [
   ("memory.size", [PByte (OP "memory_size"); PByte 0x00]);
   ("memory.grow", [PByte (OP "memory_grow"); PByte 0x00])
  ].

Definition memory_copy_ops : list (string * list piece) :=
  [
   ("memory.copy", [PByte (OP "misc_prefix"); PU32 0x0a; PByte 0x00; PByte 0x00]);
   ("memory.fill", [PByte (OP "misc_prefix"); PU32 0x0b; PByte 0x00])
  ].

Definition load_ops : list (string * list piece) :=
  [
   ("i32.load", [PByte (OP "i32_load")]); ("i32.load8_u", [PByte (OP "i32_load8_u")]);
   ("i32.load8_s", [PByte (OP "i32_load8_s")]); ("i32.load16_u", [PByte (OP "i32_load16_u")]);
   ("i32.store", [PByte (OP "i32_store")]); ("i64.store", [PByte (OP "i64_store")]);
   ("i32.store8", [PByte (OP "i32_store8")]); ("i32.store16", [PByte (OP "i32_store16")])
  ].

Definition division_ops : list (string * list piece) :=
  [
   ("i32.div_s", [PByte (OP "i32_div_s")]); ("i32.div_u", [PByte (OP "i32_div_u")]);
   ("i32.rem_s", [PByte (OP "i32_rem_s")]); ("i32.rem_u", [PByte (OP "i32_rem_u")]);
   ("i32.lt_u", [PByte (OP "i32_lt_u")]); ("i32.le_u", [PByte (OP "i32_le_u")]);
   ("i32.gt_u", [PByte (OP "i32_gt_u")])
  ].

Definition float_load_ops : list (string * list piece) :=
  [
   ("f64.load", [PByte (OP "f64_load")]); ("f64.store", [PByte (OP "f64_store")]);
   ("f32.load", [PByte (OP "f32_load")]); ("f32.store", [PByte (OP "f32_store")])
  ].

Definition float_convert_ops : list (string * list piece) :=
  [
   ("f32.demote_f64", [PByte (OP "f32_demote_f64")]); ("f64.promote_f32", [PByte (OP "f64_promote_f32")])
  ].

Definition v128_load_ops : list (string * list piece) :=
  [
   ("v128.load", [PByte (OP "simd_prefix"); PU32 (SIMD "v128_load")]);
   ("v128.store", [PByte (OP "simd_prefix"); PU32 (SIMD "v128_store")])
  ].

Definition v128_ops : list (string * list piece) :=
  [
   ("v128.not", [PByte (OP "simd_prefix"); PU32 (SIMD "v128_not")]);
   ("v128.and", [PByte (OP "simd_prefix"); PU32 (SIMD "v128_and")]);
   ("v128.andnot", [PByte (OP "simd_prefix"); PU32 (SIMD "v128_andnot")]);
   ("v128.or", [PByte (OP "simd_prefix"); PU32 (SIMD "v128_or")]);
   ("v128.xor", [PByte (OP "simd_prefix"); PU32 (SIMD "v128_xor")]);
   ("v128.bitselect", [PByte (OP "simd_prefix"); PU32 (SIMD "v128_bitselect")]);
   ("v128.any_true", [PByte (OP "simd_prefix"); PU32 (SIMD "v128_any_true")]);
   ("i8x16.splat", [PByte (OP "simd_prefix"); PU32 (SIMD "i8x16_splat")])
  ].

Definition i8x16_lane_ops : list (string * list piece) :=
  [
   ("i8x16.extract_lane_s", [PByte (OP "simd_prefix"); PU32 (SIMD "i8x16_extract_lane_s")]);
   ("i8x16.extract_lane_u", [PByte (OP "simd_prefix"); PU32 (SIMD "i8x16_extract_lane_u")]);
   ("i8x16.replace_lane", [PByte (OP "simd_prefix"); PU32 (SIMD "i8x16_replace_lane")])
  ].

Definition i8x16_ops : list (string * list piece) :=
  [
   ("i8x16.eq", [PByte (OP "simd_prefix"); PU32 (SIMD "i8x16_eq")]);
   ("i8x16.ne", [PByte (OP "simd_prefix"); PU32 (SIMD "i8x16_ne")]);
   ("i8x16.all_true", [PByte (OP "simd_prefix"); PU32 (SIMD "i8x16_all_true")]);
   ("i8x16.bitmask", [PByte (OP "simd_prefix"); PU32 (SIMD "i8x16_bitmask")]);
   ("i8x16.swizzle", [PByte (OP "simd_prefix"); PU32 (SIMD "i8x16_swizzle")])
  ].

Definition i8x16_arith_ops : list (string * list piece) :=
  [
   ("i8x16.add", [PByte (OP "simd_prefix"); PU32 (SIMD "i8x16_add")]);
   ("i8x16.sub", [PByte (OP "simd_prefix"); PU32 (SIMD "i8x16_sub")]);
   ("i8x16.min_u", [PByte (OP "simd_prefix"); PU32 (SIMD "i8x16_min_u")]);
   ("i8x16.max_u", [PByte (OP "simd_prefix"); PU32 (SIMD "i8x16_max_u")]);
   ("i16x8.splat", [PByte (OP "simd_prefix"); PU32 (SIMD "i16x8_splat")])
  ].

Definition i16x8_lane_ops : list (string * list piece) :=
  [
   ("i16x8.extract_lane_s", [PByte (OP "simd_prefix"); PU32 (SIMD "i16x8_extract_lane_s")]);
   ("i16x8.extract_lane_u", [PByte (OP "simd_prefix"); PU32 (SIMD "i16x8_extract_lane_u")]);
   ("i16x8.replace_lane", [PByte (OP "simd_prefix"); PU32 (SIMD "i16x8_replace_lane")])
  ].

Definition i16x8_ops : list (string * list piece) :=
  [
   ("i16x8.eq", [PByte (OP "simd_prefix"); PU32 (SIMD "i16x8_eq")]);
   ("i16x8.ne", [PByte (OP "simd_prefix"); PU32 (SIMD "i16x8_ne")]);
   ("i16x8.lt_s", [PByte (OP "simd_prefix"); PU32 (SIMD "i16x8_lt_s")]);
   ("i16x8.gt_s", [PByte (OP "simd_prefix"); PU32 (SIMD "i16x8_gt_s")]);
   ("i16x8.all_true", [PByte (OP "simd_prefix"); PU32 (SIMD "i16x8_all_true")]);
   ("i16x8.bitmask", [PByte (OP "simd_prefix"); PU32 (SIMD "i16x8_bitmask")]);
   ("i16x8.add", [PByte (OP "simd_prefix"); PU32 (SIMD "i16x8_add")]);
   ("i16x8.sub", [PByte (OP "simd_prefix"); PU32 (SIMD "i16x8_sub")]);
   ("i16x8.mul", [PByte (OP "simd_prefix"); PU32 (SIMD "i16x8_mul")]);
   ("i16x8.shl", [PByte (OP "simd_prefix"); PU32 (SIMD "i16x8_shl")]);
   ("i16x8.shr_u", [PByte (OP "simd_prefix"); PU32 (SIMD "i16x8_shr_u")]);
   ("i32x4.splat", [PByte (OP "simd_prefix"); PU32 (SIMD "i32x4_splat")])
  ].

Definition i32x4_lane_ops : list (string * list piece) :=
  [
   ("i32x4.extract_lane", [PByte (OP "simd_prefix"); PU32 (SIMD "i32x4_extract_lane")]);
   ("i32x4.replace_lane", [PByte (OP "simd_prefix"); PU32 (SIMD "i32x4_replace_lane")])
  ].

Definition i32x4_ops : list (string * list piece) :=
  [
   ("i32x4.eq", [PByte (OP "simd_prefix"); PU32 (SIMD "i32x4_eq")]);
   ("i32x4.ne", [PByte (OP "simd_prefix"); PU32 (SIMD "i32x4_ne")]);
   ("i32x4.all_true", [PByte (OP "simd_prefix"); PU32 (SIMD "i32x4_all_true")]);
   ("i32x4.bitmask", [PByte (OP "simd_prefix"); PU32 (SIMD "i32x4_bitmask")]);
   ("i32x4.add", [PByte (OP "simd_prefix"); PU32 (SIMD "i32x4_add")]);
   ("i32x4.sub", [PByte (OP "simd_prefix"); PU32 (SIMD "i32x4_sub")]);
   ("i32x4.mul", [PByte (OP "simd_prefix"); PU32 (SIMD "i32x4_mul")]);
   ("i32x4.shl", [PByte (OP "simd_prefix"); PU32 (SIMD "i32x4_shl")]);
   ("i32x4.shr_s", [PByte (OP "simd_prefix"); PU32 (SIMD "i32x4_shr_s")]);
   ("i32x4.shr_u", [PByte (OP "simd_prefix"); PU32 (SIMD "i32x4_shr_u")]);
   ("i64x2.splat", [PByte (OP "simd_prefix"); PU32 (SIMD "i64x2_splat")])
  ].

Definition i64x2_lane_ops : list (string * list piece) :=
  [
   ("i64x2.extract_lane", [PByte (OP "simd_prefix"); PU32 (SIMD "i64x2_extract_lane")]);
   ("i64x2.replace_lane", [PByte (OP "simd_prefix"); PU32 (SIMD "i64x2_replace_lane")])
  ].

Definition i64x2_ops : list (string * list piece) :=
  [
   ("i64x2.add", [PByte (OP "simd_prefix"); PU32 (SIMD "i64x2_add")]);
   ("i64x2.sub", [PByte (OP "simd_prefix"); PU32 (SIMD "i64x2_sub")]);
   ("i64x2.mul", [PByte (OP "simd_prefix"); PU32 (SIMD "i64x2_mul")]);
   ("i64x2.eq", [PByte (OP "simd_prefix"); PU32 (SIMD "i64x2_eq")]);
   ("i64x2.ne", [PByte (OP "simd_prefix"); PU32 (SIMD "i64x2_ne")]);
   ("f32x4.splat", [PByte (OP "simd_prefix"); PU32 (SIMD "f32x4_splat")])
  ].

Definition f32x4_lane_ops : list (string * list piece) :=
  [
   ("f32x4.extract_lane", [PByte (OP "simd_prefix"); PU32 (SIMD "f32x4_extract_lane")]);
   ("f32x4.replace_lane", [PByte (OP "simd_prefix"); PU32 (SIMD "f32x4_replace_lane")])
  ].

Definition f32x4_ops : list (string * list piece) :=
  [
   ("f32x4.eq", [PByte (OP "simd_prefix"); PU32 (SIMD "f32x4_eq")]);
   ("f32x4.add", [PByte (OP "simd_prefix"); PU32 (SIMD "f32x4_add")]);
   ("f32x4.sub", [PByte (OP "simd_prefix"); PU32 (SIMD "f32x4_sub")]);
   ("f32x4.mul", [PByte (OP "simd_prefix"); PU32 (SIMD "f32x4_mul")]);
   ("f32x4.div", [PByte (OP "simd_prefix"); PU32 (SIMD "f32x4_div")]);
   ("f64x2.splat", [PByte (OP "simd_prefix"); PU32 (SIMD "f64x2_splat")])
  ].

Definition f64x2_lane_ops : list (string * list piece) :=
  [
   ("f64x2.extract_lane", [PByte (OP "simd_prefix"); PU32 (SIMD "f64x2_extract_lane")]);
   ("f64x2.replace_lane", [PByte (OP "simd_prefix"); PU32 (SIMD "f64x2_replace_lane")])
  ].

Definition f64x2_ops : list (string * list piece) :=
  [
   ("f64x2.eq", [PByte (OP "simd_prefix"); PU32 (SIMD "f64x2_eq")]);
   ("f64x2.ne", [PByte (OP "simd_prefix"); PU32 (SIMD "f64x2_ne")]);
   ("f64x2.add", [PByte (OP "simd_prefix"); PU32 (SIMD "f64x2_add")]);
   ("f64x2.sub", [PByte (OP "simd_prefix"); PU32 (SIMD "f64x2_sub")]);
   ("f64x2.mul", [PByte (OP "simd_prefix"); PU32 (SIMD "f64x2_mul")]);
   ("f64x2.div", [PByte (OP "simd_prefix"); PU32 (SIMD "f64x2_div")])
  ].

Definition v128_splat_ops : list (string * list piece) :=
  [
   ("v128.load8_splat", [PByte (OP "simd_prefix"); PU32 (SIMD "v128_load8_splat")]);
   ("v128.load16_splat", [PByte (OP "simd_prefix"); PU32 (SIMD "v128_load16_splat")]);
   ("v128.load32_splat", [PByte (OP "simd_prefix"); PU32 (SIMD "v128_load32_splat")]);
   ("v128.load64_splat", [PByte (OP "simd_prefix"); PU32 (SIMD "v128_load64_splat")]);
   ("v128.load32_zero", [PByte (OP "simd_prefix"); PU32 (SIMD "v128_load32_zero")]);
   ("v128.load64_zero", [PByte (OP "simd_prefix"); PU32 (SIMD "v128_load64_zero")])
  ].

Definition end_ops : list (string * list piece) :=
  [
   ("end", [PByte (OP "end")])
  ].

Definition plain_ops : list (string * list piece) :=
   control_ops ++ return_ops ++ drop_ops ++ i64_ops ++ number_ops ++ ref_ops ++ convert_ops ++ array_len_ops ++ memory_ops ++
   memory_copy_ops ++ division_ops ++ float_convert_ops ++ v128_ops ++ i8x16_ops ++ i8x16_arith_ops ++ i16x8_ops ++
   i32x4_ops ++ i64x2_ops ++ f32x4_ops ++ f64x2_ops ++ end_ops.

Definition memarg_ops : list (string * list piece) :=
   load_ops ++ float_load_ops ++ v128_load_ops ++ v128_splat_ops.

Definition lane_ops : list (string * list piece) :=
   i8x16_lane_ops ++ i16x8_lane_ops ++ i32x4_lane_ops ++ i64x2_lane_ops ++ f32x4_lane_ops ++ f64x2_lane_ops.

(** ** encodeInstrWithReloc *)

Definition obj_control_ops : list (string * list piece) :=
  [
   ("unreachable", [PByte (OP "unreachable")]); ("nop", [PByte (OP "nop")])
  ].

Definition obj_return_ops : list (string * list piece) :=
  [
   ("return", [PByte (OP "return")])
  ].

Definition obj_drop_ops : list (string * list piece) :=
  [
   ("drop", [PByte (OP "drop")]); ("select", [PByte (OP "select")])
  ].

Definition obj_number_ops : list (string * list piece) :=
  [
   ("i32.eqz", [PByte (OP "i32_eqz")]); ("i32.eq", [PByte (OP "i32_eq")]); ("i32.ne", [PByte (OP "i32_ne")]);
   ("i32.lt_s", [PByte (OP "i32_lt_s")]); ("i32.le_s", [PByte (OP "i32_le_s")]);
   ("i32.gt_s", [PByte (OP "i32_gt_s")]); ("i32.ge_s", [PByte (OP "i32_ge_s")]);
   ("i32.ge_u", [PByte (OP "i32_ge_u")]); ("i32.add", [PByte (OP "i32_add")]);
   ("i32.sub", [PByte (OP "i32_sub")]); ("i32.mul", [PByte (OP "i32_mul")]);
   ("i32.and", [PByte (OP "i32_and")]); ("i32.or", [PByte (OP "i32_or")]);
   ("i32.xor", [PByte (OP "i32_xor")]); ("i32.shl", [PByte (OP "i32_shl")]);
   ("i32.shr_s", [PByte (OP "i32_shr_s")]); ("i32.shr_u", [PByte (OP "i32_shr_u")]);
   ("i32.clz", [PByte (OP "i32_clz")]);
   ("i32.trunc_sat_f64_s", [PByte (OP "misc_prefix"); PByte (OP "i32_trunc_sat_f64_s")]);
   ("i32.trunc_sat_f64_u", [PByte (OP "misc_prefix"); PByte (OP "i32_trunc_sat_f64_u")]);
   ("i64.trunc_sat_f64_s", [PByte (OP "misc_prefix"); PByte (OP "i64_trunc_sat_f64_s")]);
   ("f64.eq", [PByte (OP "f64_eq")]); ("f64.ne", [PByte (OP "f64_ne")]); ("f64.lt", [PByte (OP "f64_lt")]);
   ("f64.le", [PByte (OP "f64_le")]); ("f64.gt", [PByte (OP "f64_gt")]); ("f64.ge", [PByte (OP "f64_ge")]);
   ("f64.abs", [PByte (OP "f64_abs")]); ("f64.neg", [PByte (OP "f64_neg")]);
   ("f64.ceil", [PByte (OP "f64_ceil")]); ("f64.floor", [PByte (OP "f64_floor")]);
   ("f64.trunc", [PByte (OP "f64_trunc")]); ("f64.nearest", [PByte (OP "f64_nearest")]);
   ("f64.sqrt", [PByte (OP "f64_sqrt")]); ("f64.add", [PByte (OP "f64_add")]);
   ("f64.sub", [PByte (OP "f64_sub")]); ("f64.mul", [PByte (OP "f64_mul")]);
   ("f64.div", [PByte (OP "f64_div")]); ("f64.copysign", [PByte (OP "f64_copysign")]);
   ("i32.wrap_i64", [PByte (OP "i32_wrap_i64")]); ("i32.trunc_f64_s", [PByte (OP "i32_trunc_f64_s")]);
   ("f64.convert_i32_s", [PByte (OP "f64_convert_i32_s")]);
   ("f64.convert_i32_u", [PByte (OP "f64_convert_i32_u")]);
   ("i64.reinterpret_f64", [PByte (OP "i64_reinterpret_f64")]);
   ("f64.reinterpret_i64", [PByte (OP "f64_reinterpret_i64")]);
   ("i32.reinterpret_f32", [PByte (OP "i32_reinterpret_f32")]);
   ("f32.reinterpret_i32", [PByte (OP "f32_reinterpret_i32")])
  ].

Definition obj_ref_ops : list (string * list piece) :=
  [
   ("ref.null.extern", [PByte (OP "ref_null"); PByte (TYPE "externref")]);
   ("ref.is_null", [PByte (OP "ref_is_null")]); ("ref.as_non_null", [PByte (OP "ref_as_non_null")]);
   ("ref.eq", [PByte (OP "ref_eq")])
  ].

Definition obj_convert_ops : list (string * list piece) :=
  [
   ("any.convert_extern", [PByte (GC "prefix"); PByte (GC "any_convert_extern")]);
   ("extern.convert_any", [PByte (GC "prefix"); PByte (GC "extern_convert_any")])
  ].

Definition obj_array_len_ops : list (string * list piece) :=
  [
   ("array.len", [PByte (GC "prefix"); PByte (GC "array_len")])
  ].

Definition obj_memory_ops : list (string * list piece) :=
  [
   ("memory.size", [PByte (OP "memory_size"); PByte 0x00]);
   ("memory.grow", [PByte (OP "memory_grow"); PByte 0x00])
  ].

Definition obj_plain_ops : list (string * list piece) :=
   obj_control_ops ++ obj_return_ops ++ obj_drop_ops ++ obj_number_ops ++ obj_ref_ops ++ obj_convert_ops ++
   obj_array_len_ops ++ obj_memory_ops.
