(* ===== verification/TypeLayout.v ===== *)
(** The type section's recursion groups: src/wasm/physical/type-layout.ts.

    [indexPhysicalTypes] flattens the module's type records into the index space of
    Wasm types; [planPhysicalTypeSection] cuts that space into consecutive recursion
    groups.  A plan is valid when every reference stays in its group or points to an
    earlier one and the explicit and forced groups are groups of their own; the theorem
    is that the planner finds the finest valid plan, and throws only when there is none. *)

From S2P Require Import Prelude WasmModel.

(** * Data *)

Record PhysicalTypeEntry := mkEntry {
  pe_typeIndex : Z; pe_recordIndex : Z; pe_memberIndex : option Z; pe_definition : TypeDef }.

Record PhysicalTypeRange := mkRange { pr_start : Z; pr_end : Z; pr_recordIndex : Z }.

Record PhysicalTypeTable := mkTypeTable {
  pt_entries : list PhysicalTypeEntry;
  pt_recordRanges : list PhysicalTypeRange;
  pt_explicitGroups : list PhysicalTypeRange }.

Record TypeGroup := mkGroup {
  tg_start : Z; tg_end : Z; tg_recursive : bool; tg_explicitRecordIndex : option Z }.

(** * indexPhysicalTypes *)

Definition is_rec (t : TypeDef) : bool := match t with TRec _ => true | _ => false end.

Definition check_member (definition : TypeDef) : result () :=
  match definition with
  | TRec _ => throw EError (js "nested rec wrappers are not Wasm subtype members")
  | TSub _ _ (TRec _) | TSub _ _ (TSub _ _ _) =>
      throw EError (js "nested rec/sub wrappers are not Wasm subtype members")
  | TSub _ _ (TStruct _ (Some _) _) =>
      throw EError (js "double subtype wrappers are not Wasm subtype members")
  | _ => Ok tt
  end.

Fixpoint index_members (record : TypeDef) (recordIndex memberIndex : Z) (members : list TypeDef)
    (entries : list PhysicalTypeEntry) : result (list PhysicalTypeEntry) :=
  match members with
  | [] => Ok entries
  | definition :: members' =>
      _ ← check_member definition;
      index_members record recordIndex (memberIndex + 1) members'
        (entries ++ [mkEntry (Z.of_nat (length entries)) recordIndex
           (if is_rec record then Some memberIndex else None) definition])
  end.

Definition index_record (record : TypeDef) (t : Z * PhysicalTypeTable) : result (Z * PhysicalTypeTable) :=
  let '(recordIndex, mkTypeTable entries ranges explicit) := t in
  let members := match record with TRec types => types | _ => [record] end in
  match members with
  | [] => throw EError (js "empty recursive type reservation has no physical member")
  | _ =>
      let start := Z.of_nat (length entries) in
      entries ← index_members record recordIndex 0 members entries;
      let range := mkRange start (Z.of_nat (length entries) - 1) recordIndex in
      Ok (recordIndex + 1, mkTypeTable entries (ranges ++ [range])
            (if is_rec record then explicit ++ [range] else explicit))
  end.

Definition indexPhysicalTypes (types : list TypeDef) : result PhysicalTypeTable :=
  snd <$> for_each types index_record (0, mkTypeTable [] [] []).

(** * planPhysicalTypeSection *)

(** [definition.kind === 'sub' ? definition.type : definition] *)
Definition unwrap (t : TypeDef) : TypeDef := match t with TSub _ _ t => t | t => t end.

Section plan.
Context (table : PhysicalTypeTable) (forcedGroups : list (Z * Z)).
Let count : Z := Z.of_nat (length (pt_entries table)).
Let explicitGroups := pt_explicitGroups table.

Definition checkIndex (index : Z) : result () :=
  if (index <? 0) || (count <=? index)
  then throw ERangeError (js "type index out of range: " ++ js_num index ++ js " (count " ++ js_num count ++ js ")")
  else Ok tt.

Definition ref_value (v : ValType) (refs : list Z) : result (list Z) :=
  match v with
  | VRef typeIdx | VRefNull typeIdx => _ ← checkIndex typeIdx; Ok (refs ++ [typeIdx])
  | _ => Ok refs
  end.

Definition ref_parent (typeIndex index : Z) : result () :=
  _ ← checkIndex index;
  if typeIndex <=? index
  then throw EError (js "supertype " ++ js_num index ++ js " must precede subtype " ++ js_num typeIndex)
  else Ok tt.

Definition entry_references (entry : PhysicalTypeEntry) : result (list Z) :=
  let definition := pe_definition entry in
  _ ← match definition with TSub (Some p) _ _ => ref_parent (pe_typeIndex entry) p | _ => Ok tt end;
  match unwrap definition with
  | TFunc params results => refs ← for_each params ref_value []; for_each results ref_value refs
  | TStruct fields superTypeIdx _ =>
      _ ← match superTypeIdx with
          | Some p => if p =? -1 then Ok tt else ref_parent (pe_typeIndex entry) p
          | None => Ok tt
          end;
      for_each fields (λ field, ref_value (fd_type field)) []
  | TArray element _ => ref_value element []
  | _ => throw EError (js "nested rec/sub wrappers are not Wasm subtype members")
  end.

Definition references : result (list (list Z)) :=
  for_each (pt_entries table) (λ entry l, refs ← entry_references entry; Ok (l ++ [refs])) [].

Definition overlaps (start end_ : Z) (explicit : PhysicalTypeRange) : bool :=
  (start <=? pr_end explicit) && (pr_start explicit <=? end_).

Definition check_forced (g : Z * Z) (_ : ()) : result () :=
  let '(start, end_) := g in
  _ ← checkIndex start;
  _ ← checkIndex end_;
  if end_ <? start then throw EError (js "invalid forced type group interval")
  else if existsb (λ explicit, overlaps start end_ explicit &&
         (negb (start =? pr_start explicit) || negb (end_ =? pr_end explicit))) explicitGroups
  then throw EError (js "forced group would split or merge an explicit rec group")
  else Ok tt.

Definition widen (start end_ : Z) (forced : Z * Z) : Z :=
  if (forced.1 <=? end_) && (start <=? forced.2) then Z.max end_ forced.2 else end_.

(** [for (let scan = start; scan <= end; scan++)] *)
Fixpoint scan_group (fuel : nat) (refs : list (list Z)) (explicit : option PhysicalTypeRange)
    (start scan end_ : Z) : result Z :=
  match fuel with
  | O => Err OutOfFuel
  | S f =>
      if end_ <? scan then Ok end_
      else match js_at refs scan with
           | None => throw ETypeError (js "undefined is not iterable")
           | Some targets =>
               let end_ := foldl Z.max end_ targets in
               let end_ := foldl (widen start) end_ forcedGroups in
               if match explicit with
                  | Some ex => negb (end_ =? pr_end ex)
                  | None => existsb (overlaps start end_) explicitGroups
                  end
               then throw EError (js "reference would merge an explicit rec group")
               else scan_group f refs explicit start (scan + 1) end_
           end
  end.

(** [for (let start = 0; start < entries.length; )] *)
Fixpoint plan_groups (fuel : nat) (refs : list (list Z)) (start : Z) (groups : list TypeGroup)
    : result (list TypeGroup) :=
  match fuel with
  | O => Err OutOfFuel
  | S f =>
      if count <=? start then Ok groups
      else
        let explicit := List.find (λ g, pr_start g =? start) explicitGroups in
        end_ ← scan_group (S (length (pt_entries table))) refs explicit start start
                 (match explicit with Some ex => pr_end ex | None => start end);
        plan_groups f refs (end_ + 1)
          (groups ++ [mkGroup start end_
             (match explicit with Some _ => true | None => start <? end_ end)
             (pr_recordIndex <$> explicit)])
  end.

Definition check_kept (groups : list TypeGroup) (g : Z * Z) (_ : ()) : result () :=
  if existsb (λ group, (tg_start group =? g.1) && (tg_end group =? g.2)) groups then Ok tt
  else throw EError (js "canonical runtime rec-group merged with an adjacent type").

Definition planPhysicalTypeSection : result (list TypeGroup) :=
  refs ← references;
  _ ← for_each forcedGroups check_forced tt;
  groups ← plan_groups (S (length (pt_entries table))) refs 0 [];
  _ ← for_each forcedGroups (check_kept groups) tt;
  Ok groups.
End plan.

(** * The specification *)

(** The types a value type mentions. *)
Definition targets (v : ValType) : list Z :=
  match v with VRef i | VRefNull i => [i] | _ => [] end.

Definition type_refs (t : TypeDef) : list Z :=
  match unwrap t with
  | TFunc params results => (params ++ results) ≫= targets
  | TStruct fields _ _ => fields ≫= (λ f, targets (fd_type f))
  | TArray element _ => targets element
  | _ => []
  end.

Definition supertypes (t : TypeDef) : list Z :=
  match t with TSub (Some p) _ _ => [p] | _ => [] end ++
  match unwrap t with TStruct _ (Some p) _ => if p =? -1 then [] else [p] | _ => [] end.

(** Consecutive intervals from [s] up to [n]. *)
Fixpoint tiles (s n : Z) (gs : list (Z * Z)) : Prop :=
  match gs with
  | [] => s = n
  | g :: gs' => g.1 = s ∧ g.1 ≤ g.2 ∧ tiles (g.2 + 1) n gs'
  end.

Definition span (g : TypeGroup) : Z * Z := (tg_start g, tg_end g).
Definition range_span (r : PhysicalTypeRange) : Z * Z := (pr_start r, pr_end r).

Section spec.
Context (table : PhysicalTypeTable) (forced : list (Z * Z)).
Let n : Z := Z.of_nat (length (pt_entries table)).

(** The references are to types of the module, the supertypes to earlier ones. *)
Definition entry_ok (e : PhysicalTypeEntry) : Prop :=
  Forall (λ t, 0 ≤ t < n) (type_refs (pe_definition e)) ∧
  Forall (λ p, 0 ≤ p < n ∧ p < pe_typeIndex e) (supertypes (pe_definition e)).

Record valid_plan (gs : list (Z * Z)) : Prop := {
  plan_tiles : tiles 0 n gs;
  plan_closed : ∀ g i e t, g ∈ gs → g.1 ≤ i ≤ g.2 → js_at (pt_entries table) i = Some e →
    t ∈ type_refs (pe_definition e) → t ≤ g.2;
  plan_explicit : ∀ ex, ex ∈ pt_explicitGroups table → range_span ex ∈ gs;
  plan_forced : ∀ f, f ∈ forced → f ∈ gs;
}.
End spec.

(** Every group of [gs] lies in one of [gs']. *)
Definition refines (gs gs' : list (Z * Z)) : Prop :=
  ∀ g, g ∈ gs → ∃ g', g' ∈ gs' ∧ g'.1 ≤ g.1 ∧ g.2 ≤ g'.2.

Definition sample_types : list TypeDef :=
  [TFunc [VI32] [VRef 2]; TStruct [mkField (VRef 3) true] None false; TArray VI8 true; TStruct [mkField (VRefNull 1) true] None false;
   TRec [TFunc [VRef 5] []; TSub (Some 3) false (TStruct [mkField (VRef 4) false] None false)]].

Example plan_sample :
  (t ← indexPhysicalTypes sample_types; planPhysicalTypeSection t [])
  = Ok [mkGroup 0 3 true None; mkGroup 4 5 true (Some 4)].
Proof. reflexivity. Qed.

(** * Indexing *)

(** What [check_member] lets through. *)
Definition member_ok (t : TypeDef) : Prop :=
  match t with
  | TRec _ | TSub _ _ (TRec _) | TSub _ _ (TSub _ _ _) | TSub _ _ (TStruct _ (Some _) _) => False
  | _ => True
  end.

Lemma check_member_answers t : answers (member_ok t) tt (check_member t).
Proof. destruct t as [| | | |? ? t]; [..|destruct t as [|? [] ?| | |]]; simpl; tauto. Qed.

Lemma tiles_app s m n gs gs' : tiles s m gs → tiles m n gs' → tiles s n (gs ++ gs').
Proof.
  revert s. induction gs as [|g gs IH]; intros s; [by intros ->|]. simpl.
  intros (? & ? & ?) ?. split_and!; eauto.
Qed.

Lemma tiles_le s n gs : tiles s n gs → s ≤ n.
Proof.
  revert s. induction gs as [|g gs IH]; intros s; simpl; [lia|]. intros (? & ? & ?%IH). lia.
Qed.

Lemma tiles_elem s n gs g : tiles s n gs → g ∈ gs → s ≤ g.1 ∧ g.1 ≤ g.2 ∧ g.2 < n.
Proof.
  revert s. induction gs as [|h gs IH]; intros s; [intros _ H; by apply not_elem_of_nil in H|].
  simpl. intros (Hs & Hh & Ht) [->|Hg]%elem_of_cons.
  - pose proof (tiles_le _ _ _ Ht). lia.
  - destruct (IH _ Ht Hg). lia.
Qed.

Lemma tiles_overlap s n gs g h :
  tiles s n gs → g ∈ gs → h ∈ gs → g.1 ≤ h.2 → h.1 ≤ g.2 → g = h.
Proof.
  revert s. induction gs as [|k gs IH]; intros s; [intros _ H; by apply not_elem_of_nil in H|].
  simpl. intros (Hs & Hk & Ht) [->|Hg]%elem_of_cons [->|Hh]%elem_of_cons; intros; [done| | |eauto].
  - destruct (tiles_elem _ _ _ _ Ht Hh). lia.
  - destruct (tiles_elem _ _ _ _ Ht Hg). lia.
Qed.

(** The invariant of [indexPhysicalTypes]: entry [i] has index [i] and passed
    [check_member], the ranges tile the index space, the explicit groups are some of
    the ranges. *)
Record table_ok (t : PhysicalTypeTable) : Prop := {
  table_entries : ∀ i e, pt_entries t !! i = Some e → pe_typeIndex e = Z.of_nat i ∧ member_ok (pe_definition e);
  table_ranges : tiles 0 (Z.of_nat (length (pt_entries t))) (range_span <$> pt_recordRanges t);
  table_explicit : ∀ r, r ∈ pt_explicitGroups t → r ∈ pt_recordRanges t;
}.

Definition entries_ok (l : list PhysicalTypeEntry) : Prop :=
  ∀ i e, l !! i = Some e → pe_typeIndex e = Z.of_nat i ∧ member_ok (pe_definition e).

Lemma entries_ok_snoc l e :
  entries_ok l → pe_typeIndex e = Z.of_nat (length l) → member_ok (pe_definition e) → entries_ok (l ++ [e]).
Proof.
  intros Hl Hi Hm i e' [He|[Hle He]]%lookup_app_Some; [by apply Hl|].
  apply list_lookup_singleton_Some in He as [Hi0 <-]. split; [|done]. rewrite Hi. lia.
Qed.

Lemma index_members_yields record ri mi members entries :
  entries_ok entries →
  yields (λ l, entries_ok l ∧ pe_definition <$> l = (pe_definition <$> entries) ++ members)
    (index_members record ri mi members entries).
Proof.
  revert mi entries. induction members as [|d ms IH]; intros mi entries He; simpl.
  { by rewrite app_nil_r. }
  eapply yields_bind; [|intros a Ha; eapply yields_mono; [apply IH|]].
  - pose proof (check_member_answers d) as H. revert H. instantiate (1 := λ _, member_ok d).
    destruct (check_member d); simpl; tauto.
  - by apply entries_ok_snoc.
  - simpl. intros l [Hl Hd]. split; [done|]. by rewrite Hd, fmap_app, <- app_assoc.
Qed.

(** The members of a record. *)
Definition members_of (record : TypeDef) : list TypeDef :=
  match record with TRec types => types | _ => [record] end.

Lemma index_record_yields record ri t :
  table_ok t →
  yields (λ r, table_ok r.2 ∧ pe_definition <$> pt_entries r.2 = (pe_definition <$> pt_entries t) ++ members_of record)
    (index_record record (ri, t)).
Proof.
  destruct t as [entries ranges explicit]. intros [He Hr Hx]. unfold index_record. fold (members_of record).
  destruct (members_of record) as [|d ms] eqn:Em; [done|]. rewrite <- Em.
  eapply yields_bind; [by apply index_members_yields|]. intros l [Hl Hd]. simpl.
  assert (length l = (length entries + length (members_of record))%nat) as Hlen.
  { apply (f_equal length) in Hd. by rewrite length_app, !length_fmap in Hd. }
  assert (1 ≤ length (members_of record))%nat by (rewrite Em; simpl; lia).
  split; [|done]. split; simpl; [done| |].
  - rewrite fmap_app. eapply tiles_app; [exact Hr|]. simpl. lia.
  - intros r. destruct (is_rec record); rewrite ?elem_of_app; naive_solver.
Qed.

(** The table holds the members of the records, in order, and is consistent. *)
Lemma indexPhysicalTypes_yields types :
  yields (λ t, table_ok t ∧ pe_definition <$> pt_entries t = types ≫= members_of) (indexPhysicalTypes types).
Proof.
  assert (∀ s done_, table_ok s.2 → pe_definition <$> pt_entries s.2 = done_ →
    yields (λ r, table_ok r.2 ∧ pe_definition <$> pt_entries r.2 = done_ ++ (types ≫= members_of))
      (for_each types index_record s)) as H.
  { induction types as [|t types IH]; intros [ri s] dn Hs Hd; [csimpl; by rewrite app_nil_r|].
    cbn [for_each]. eapply yields_bind; [by apply index_record_yields|]. intros r [Hr Hm].
    eapply yields_mono; [by apply IH|]. intros r' [? ->]. split; [done|].
    simpl in Hd. by rewrite Hd, bind_cons, app_assoc. }
  specialize (H (0, mkTypeTable [] [] []) []). unfold indexPhysicalTypes.
  destruct (for_each types index_record _); csimpl; (apply H; [|done]); by split.
Qed.

Lemma table_disjoint t g h :
  table_ok t → g ∈ pt_explicitGroups t → h ∈ pt_explicitGroups t →
  pr_start g ≤ pr_end h → pr_start h ≤ pr_end g → range_span g = range_span h.
Proof.
  intros [_ Hr Hx] Hg Hh H1 H2. eapply tiles_overlap; [exact Hr|..|done|done];
    apply list_elem_of_fmap; eauto.
Qed.

Lemma table_explicit_range t g :
  table_ok t → g ∈ pt_explicitGroups t →
  0 ≤ pr_start g ∧ pr_start g ≤ pr_end g ∧ pr_end g < Z.of_nat (length (pt_entries t)).
Proof.
  intros [_ Hr Hx] Hg. apply (tiles_elem _ _ _ (range_span g) Hr). apply list_elem_of_fmap. eauto.
Qed.

(** * The references *)

Section references.
Context (table : PhysicalTypeTable) (Htable : table_ok table).
Let n : Z := Z.of_nat (length (pt_entries table)).

Lemma checkIndex_answers i : answers (0 ≤ i < n) tt (checkIndex table i).
Proof. unfold checkIndex. bool_cases; try done; lia. Qed.

Lemma ref_value_answers v refs :
  answers (Forall (λ t, 0 ≤ t < n) (targets v)) (refs ++ targets v) (ref_value table v refs).
Proof.
  destruct v; simpl; try (by rewrite app_nil_r);
    (eapply answers_iff; [|eapply answers_bind; [apply checkIndex_answers|intros _; apply answers_ok]];
     rewrite Forall_cons, Forall_nil; tauto).
Qed.

Lemma ref_parent_answers ti i : answers (0 ≤ i < n ∧ i < ti) tt (ref_parent table ti i).
Proof.
  unfold ref_parent. eapply answers_bind; [apply checkIndex_answers|]. intros _.
  bool_cases; try done; lia.
Qed.

(** A loop over the value types of a payload. *)
Lemma refs_answers {A} (f : A → ValType) (l : list A) refs :
  answers (Forall (λ t, 0 ≤ t < n) (l ≫= (λ x, targets (f x)))) (refs ++ (l ≫= (λ x, targets (f x))))
    (for_each l (λ x, ref_value table (f x)) refs).
Proof.
  revert refs. induction l as [|x l IH]; intros refs; [by rewrite app_nil_r|].
  rewrite bind_cons, app_assoc. eapply answers_iff; [symmetry; apply Forall_app|].
  eapply answers_bind; [apply ref_value_answers|]. intros _. apply IH.
Qed.

Lemma entry_references_answers e :
  member_ok (pe_definition e) →
  answers (entry_ok table e) (type_refs (pe_definition e)) (entry_references table e).
Proof.
  intros Hm. unfold entry_references, entry_ok, type_refs, supertypes. fold n.
  apply answers_iff with
    (Forall (λ p, 0 ≤ p < n ∧ p < pe_typeIndex e) (match pe_definition e with TSub (Some p) _ _ => [p] | _ => [] end) ∧
     Forall (λ p, 0 ≤ p < n ∧ p < pe_typeIndex e)
       (match unwrap (pe_definition e) with TStruct _ (Some p) _ => if p =? -1 then [] else [p] | _ => [] end) ∧
     Forall (λ t, 0 ≤ t < n) (type_refs (pe_definition e))); [rewrite Forall_app; tauto|].
  eapply answers_bind.
  { destruct (pe_definition e) as [| | | |[p|] ? ?]; try (by split; [constructor|]).
    eapply answers_iff; [|apply ref_parent_answers]. by rewrite Forall_singleton. }
  intros _.
  unfold type_refs. destruct (unwrap (pe_definition e)) as [ps rs|fs p fin|el m|l|p' fin t'] eqn:Eu.
  - apply answers_iff with (Forall (λ t, 0 ≤ t < n) (ps ≫= targets) ∧ Forall (λ t, 0 ≤ t < n) (rs ≫= targets)).
    { rewrite bind_app, Forall_app, Forall_nil. tauto. }
    rewrite bind_app. eapply answers_bind; [apply (refs_answers id ps [])|]. intros _.
    apply (refs_answers id rs).
  - eapply answers_bind; [|intros _; apply (refs_answers fd_type fs [])].
    destruct p as [p|]; [|by split; [constructor|]]. destruct (p =? -1); [by split; [constructor|]|].
    eapply answers_iff; [|apply ref_parent_answers]. by rewrite Forall_singleton.
  - eapply answers_iff; [|apply (ref_value_answers el [])]. rewrite Forall_nil. tauto.
  - destruct (pe_definition e) as [| | | |? ? []]; naive_solver.
  - destruct (pe_definition e) as [| | | |? ? []]; naive_solver.
Qed.

Lemma references_answers :
  answers (Forall (entry_ok table) (pt_entries table))
    ((λ e, type_refs (pe_definition e)) <$> pt_entries table) (references table).
Proof.
  unfold references.
  replace ((λ e, type_refs (pe_definition e)) <$> pt_entries table)
    with (foldl (λ l e, l ++ [type_refs (pe_definition e)]) [] (pt_entries table)).
  - apply answers_for_each. intros e l He. apply list_elem_of_lookup in He as [i Hi].
    apply (answers_iff (entry_ok table e ∧ True)); [tauto|].
    eapply answers_bind; [apply entry_references_answers; by eapply table_entries|].
    intros _. apply answers_ok.
  - generalize (pt_entries table). induction l as [|e l IH] using rev_ind; [done|].
    by rewrite foldl_app, IH, fmap_app.
Qed.
End references.

(** * One group *)

(** Loops that only raise a number. *)
Section raise.
Context {A : Type} (f : Z → A → Z) (Hf : ∀ e x, e ≤ f e x).

Lemma foldl_raises l e : e ≤ foldl f e l.
Proof. revert e. induction l as [|x l IH]; intros e; simpl; [lia|]. pose proof (Hf e x). pose proof (IH (f e x)). lia. Qed.

Lemma foldl_fixed l e x : foldl f e l = e → x ∈ l → f e x = e.
Proof.
  induction l as [|y l IH]; simpl; [intros _ H; by apply not_elem_of_nil in H|].
  intros He. pose proof (Hf e y). pose proof (foldl_raises l (f e y)).
  assert (f e y = e) as Hy by lia. rewrite Hy in He. intros [->|Hx]%elem_of_cons; auto.
Qed.

(** The bound that every step keeps. *)
Lemma foldl_bounded l e B : e ≤ B → (∀ e x, x ∈ l → e ≤ B → f e x ≤ B) → foldl f e l ≤ B.
Proof.
  revert e. induction l as [|x l IH]; intros e He HB; simpl; [done|]. apply IH; [apply HB; [left|done]|].
  intros e' y Hy. apply HB. by right.
Qed.
End raise.

Lemma foldl_max_ge l e x : x ∈ l → x ≤ foldl Z.max e l.
Proof.
  revert e. induction l as [|y l IH]; intros e; simpl; [intros H; by apply not_elem_of_nil in H|].
  intros [->|Hx]%elem_of_cons; [|by apply IH].
  pose proof (foldl_raises Z.max Z.le_max_l l (Z.max e y)). lia.
Qed.

Section scan.
Context (table : PhysicalTypeTable) (forced : list (Z * Z)) (refs : list (list Z)).
Let n : Z := Z.of_nat (length (pt_entries table)).
Context (Hlen : length refs = length (pt_entries table)).
Context (Hrefs : ∀ i l t, js_at refs i = Some l → t ∈ l → 0 ≤ t < n).
Context (Hforced : ∀ f, f ∈ forced → 0 ≤ f.1 ∧ f.1 ≤ f.2 ∧ f.2 < n).

(** A group may end at [e]: nothing of it points or reaches beyond. *)
Definition closed (start e : Z) : Prop :=
  ∀ i l t, start ≤ i ≤ e → js_at refs i = Some l → t ∈ l → t ≤ e.
Definition forced_closed (start e : Z) : Prop :=
  ∀ f, f ∈ forced → f.1 ≤ e → start ≤ f.2 → f.2 ≤ e.
Definition explicit_fine (explicit : option PhysicalTypeRange) (start e : Z) : Prop :=
  match explicit with
  | Some ex => e = pr_end ex
  | None => ∀ g, g ∈ pt_explicitGroups table → overlaps start e g = false
  end.

Lemma widen_raises start e f : e ≤ widen start e f.
Proof. unfold widen. bool_cases; lia. Qed.

Definition raised (start e : Z) (ts : list Z) : Z := foldl (widen start) (foldl Z.max e ts) forced.

Lemma raised_ge start e ts : e ≤ raised start e ts.
Proof.
  unfold raised. pose proof (foldl_raises (widen start) (widen_raises start) forced (foldl Z.max e ts)).
  pose proof (foldl_raises Z.max Z.le_max_l ts e). lia.
Qed.

Lemma raised_targets start e ts t : t ∈ ts → t ≤ raised start e ts.
Proof.
  intros Ht. pose proof (foldl_max_ge ts e t Ht). unfold raised.
  pose proof (foldl_raises (widen start) (widen_raises start) forced (foldl Z.max e ts)). lia.
Qed.

Lemma raised_bounded start e ts B i :
  start ≤ i ≤ e → e ≤ B → js_at refs i = Some ts → closed start B → forced_closed start B → raised start e ts ≤ B.
Proof.
  intros Hi He Hts Hc Hf. unfold raised. apply foldl_bounded.
  - apply foldl_bounded; [done|]. intros e' t Ht He'. pose proof (Hc i ts t ltac:(lia) Hts Ht). lia.
  - intros e' f Hfe He'. unfold widen. destruct (Z.leb_spec f.1 e'), (Z.leb_spec start f.2); simpl; try done.
    pose proof (Hf f Hfe ltac:(lia) ltac:(lia)). lia.
Qed.

(** Nothing was raised: the forced groups are respected. *)
Lemma raised_fixed start e ts : raised start e ts = e → forced_closed start e.
Proof.
  intros He f Hf H1 H2. unfold raised in He.
  pose proof (foldl_raises (widen start) (widen_raises start) forced (foldl Z.max e ts)).
  pose proof (foldl_raises Z.max Z.le_max_l ts e).
  assert (foldl Z.max e ts = e) as Hm by lia. rewrite Hm in He.
  pose proof (foldl_fixed _ (widen_raises start) forced e f He Hf) as Hw. revert Hw.
  unfold widen. destruct (Z.leb_spec f.1 e), (Z.leb_spec start f.2); simpl; lia.
Qed.

Lemma raised_lt start e ts i : e < n → js_at refs i = Some ts → raised start e ts < n.
Proof.
  intros He Hts. enough (raised start e ts ≤ n - 1) by lia. unfold raised. apply foldl_bounded.
  - apply foldl_bounded; [lia|]. intros e' t Ht He'. pose proof (Hrefs i ts t Hts Ht). lia.
  - intros e' f Hf He'. pose proof (Hforced f Hf). unfold widen. bool_cases; lia.
Qed.

(** What the scan has established before it looks at type [scan]. *)
Record scanned (explicit : option PhysicalTypeRange) (start lo scan e : Z) : Prop := {
  scanned_range : 0 ≤ start ∧ start ≤ scan ∧ start ≤ lo ∧ lo ≤ e ∧ e < n;
  scanned_closed : ∀ i l t, start ≤ i < scan → js_at refs i = Some l → t ∈ l → t ≤ e;
  scanned_least : ∀ B, lo ≤ B → closed start B → forced_closed start B → e ≤ B;
  scanned_last : e < scan → forced_closed start e ∧ explicit_fine explicit start e;
}.

Definition clashes (explicit : option PhysicalTypeRange) (start e : Z) : bool :=
  match explicit with
  | Some ex => negb (e =? pr_end ex)
  | None => existsb (overlaps start e) (pt_explicitGroups table)
  end.

Lemma clashes_false explicit start e : clashes explicit start e = false → explicit_fine explicit start e.
Proof.
  destruct explicit as [ex|]; simpl.
  - intros H%negb_false_iff%Z.eqb_eq. done.
  - apply existsb_none.
Qed.

(** A clash stays one when the end moves on. *)
Lemma clashes_true explicit start lo e B :
  clashes explicit start e = true → lo = (match explicit with Some ex => pr_end ex | None => start end) →
  lo ≤ e → e ≤ B → ¬ explicit_fine explicit start B.
Proof.
  destruct explicit as [ex|]; simpl.
  - intros H%negb_true_iff%Z.eqb_neq -> ? ? ?. lia.
  - intros (g & Hg & Ho)%existsb_elem -> ? ? Hf. specialize (Hf g Hg).
    revert Ho Hf. unfold overlaps. bool_cases; try done; lia.
Qed.
Lemma scan_group_spec fuel explicit start lo scan e :
  lo = (match explicit with Some ex => pr_end ex | None => start end) →
  scanned explicit start lo scan e → n - scan < Z.of_nat fuel → scan ≤ e + 1 →
  match scan_group table forced fuel refs explicit start scan e with
  | Ok e' => lo ≤ e' < n ∧ closed start e' ∧ forced_closed start e' ∧ explicit_fine explicit start e' ∧
      ∀ B, lo ≤ B → closed start B → forced_closed start B → e' ≤ B
  | Err f => thrown f ∧ ∀ B, lo ≤ B → closed start B → forced_closed start B → ¬ explicit_fine explicit start B
  end.
Proof.
  intros Hlo. revert scan e. induction fuel as [|fuel IH]; intros scan e [Hr Hc Hl Hx] Hf Hse; [lia|].
  cbn [scan_group]. destruct (Z.ltb_spec e scan) as [Hes|Hes].
  { destruct (Hx Hes) as [Hfc He]. split_and!; [lia|lia| |done|done|done].
    intros i l t Hi. apply (Hc i l t). lia. }
  destruct (js_at refs scan) as [ts|] eqn:Ets.
  2:{ exfalso. assert (is_Some (js_at refs scan)) as [? ?] by (apply js_at_is_Some; rewrite Hlen; fold n; lia). congruence. }
  fold (raised start e ts). fold (clashes explicit start (raised start e ts)).
  set (e' := raised start e ts). assert (e ≤ e') as Hee by apply raised_ge.
  assert (e' < n) by (by eapply raised_lt; [lia|]).
  assert (∀ B, lo ≤ B → closed start B → forced_closed start B → e' ≤ B) as Hleast.
  { intros B HB HcB HfB. apply (raised_bounded _ _ _ _ scan); [lia|by apply Hl|done..]. }
  destruct (clashes explicit start e') eqn:Ec.
  - split; [done|]. intros B HB HcB HfB. eapply clashes_true; [exact Ec|exact Hlo|lia|by apply Hleast].
  - apply clashes_false in Ec. apply IH; [|lia|lia]. split; [lia| |done|].
    + intros i l t Hi Hil Ht. destruct (decide (i = scan)) as [->|].
      * rewrite Ets in Hil. injection Hil as <-. by apply raised_targets.
      * pose proof (Hc i l t ltac:(lia) Hil Ht). lia.
    + intros Hlt. assert (e' = e) as He by lia. split; [|done]. rewrite He. by apply (raised_fixed _ _ ts).
Qed.

(** From the start of a group. *)
Lemma scan_from_start explicit start :
  0 ≤ start < n → (∀ ex, explicit = Some ex → start ≤ pr_end ex < n) →
  let lo := match explicit with Some ex => pr_end ex | None => start end in
  match scan_group table forced (S (length (pt_entries table))) refs explicit start start lo with
  | Ok e' => lo ≤ e' < n ∧ closed start e' ∧ forced_closed start e' ∧ explicit_fine explicit start e' ∧
      ∀ B, lo ≤ B → closed start B → forced_closed start B → e' ≤ B
  | Err f => thrown f ∧ ∀ B, lo ≤ B → closed start B → forced_closed start B → ¬ explicit_fine explicit start B
  end.
Proof.
  intros Hs Hex lo. assert (start ≤ lo < n) by (subst lo; destruct explicit; [by apply Hex|lia]).
  apply scan_group_spec; [done| |lia|lia]. split; [lia| |lia|lia]. intros i l t Hi. lia.
Qed.
End scan.

(** * All groups *)

Lemma find_explicit {A} (f : A → bool) l :
  match List.find f l with
  | Some x => x ∈ l ∧ f x = true
  | None => ∀ x, x ∈ l → f x = false
  end.
Proof.
  destruct (List.find f l) as [x|] eqn:E.
  - apply List.find_some in E as [? ?]. by rewrite list_elem_of_In.
  - intros x Hx. eapply List.find_none; [exact E|]. by apply list_elem_of_In.
Qed.

Section groups.
Context (table : PhysicalTypeTable) (forced : list (Z * Z)) (refs : list (list Z)).
Let n : Z := Z.of_nat (length (pt_entries table)).
Context (Htable : table_ok table) (Hlen : length refs = length (pt_entries table)).
Context (Hrefs : ∀ i l t, js_at refs i = Some l → t ∈ l → 0 ≤ t < n).
Context (Hforced : ∀ f, f ∈ forced → 0 ≤ f.1 ∧ f.1 ≤ f.2 ∧ f.2 < n).

Abbreviation find_at start := (List.find (λ g, pr_start g =? start) (pt_explicitGroups table)).

(** A group as the planner makes it. *)
Record group_ok (g : TypeGroup) : Prop := {
  group_closed : closed refs (tg_start g) (tg_end g);
  group_forced : forced_closed forced (tg_start g) (tg_end g);
  group_fine : explicit_fine table (find_at (tg_start g)) (tg_start g) (tg_end g);
  group_recursive : tg_recursive g =
    bool_decide (tg_explicitRecordIndex g ≠ None ∨ tg_start g < tg_end g);
  group_record : tg_explicitRecordIndex g = pr_recordIndex <$> find_at (tg_start g);
}.

Lemma find_at_range start ex :
  find_at start = Some ex → ex ∈ pt_explicitGroups table ∧ pr_start ex = start ∧ start ≤ pr_end ex < n.
Proof.
  intros H. pose proof (find_explicit (λ g, pr_start g =? start) (pt_explicitGroups table)) as Hx.
  rewrite H in Hx. destruct Hx as [Hin Hs%Z.eqb_eq].
  pose proof (table_explicit_range _ _ Htable Hin) as Hr. fold n in Hr. split_and!; [done..|lia|lia].
Qed.

Lemma planned_group start e :
  0 ≤ start < n →
  scan_group table forced (S (length (pt_entries table))) refs (find_at start) start start
    (match find_at start with Some ex => pr_end ex | None => start end) = Ok e →
  start ≤ e < n ∧ group_ok (mkGroup start e
    (match find_at start with Some _ => true | None => start <? e end) (pr_recordIndex <$> find_at start)) ∧
  ∀ B, (match find_at start with Some ex => pr_end ex | None => start end) ≤ B →
       closed refs start B → forced_closed forced start B → e ≤ B.
Proof.
  intros Hs He. pose proof (scan_from_start table forced refs Hlen Hrefs Hforced (find_at start) start Hs
    (λ ex H, proj2 (proj2 (find_at_range start ex H)))) as H. cbv zeta in H. rewrite He in H.
  destruct H as (Hr & Hc & Hf & Hx & Hl). split_and!; [|lia| |done].
  - destruct (find_at start) as [ex|] eqn:Ef; [pose proof (find_at_range start ex Ef)|]; lia.
  - split; simpl; [done|done|done| |done]. destruct (find_at start) as [ex|]; csimpl.
    + done.
    + destruct (Z.ltb_spec start e); symmetry; [apply bool_decide_eq_true; by right|].
      apply bool_decide_eq_false. intros [?|?]; [done|lia].
Qed.

(** The planner ends, and its groups tile what was left. *)
Lemma plan_groups_yields fuel start acc :
  0 ≤ start ≤ n → n - start < Z.of_nat fuel →
  yields (λ r, ∃ new, r = acc ++ new ∧ tiles start n (span <$> new) ∧ Forall group_ok new)
    (plan_groups table forced fuel refs start acc).
Proof.
  revert start acc. induction fuel as [|fuel IH]; intros start acc Hs Hf; [lia|]. cbn [plan_groups]. fold n.
  destruct (Z.leb_spec n start) as [Hge|Hlt].
  { exists []. split_and!; [by rewrite app_nil_r|simpl; lia|done]. }
  destruct (scan_group _ _ _ _ _ _ _ _) as [e|f] eqn:E.
  2:{ pose proof (scan_from_start table forced refs Hlen Hrefs Hforced (find_at start) start ltac:(lia)
        (λ ex H, proj2 (proj2 (find_at_range start ex H)))) as H. cbv zeta in H. rewrite E in H. tauto. }
  csimpl. apply planned_group in E as (He & Hg & _); [|lia].
  eapply yields_mono; [apply IH; lia|]. intros r (new & -> & Ht & Hn).
  eexists (_ :: new). split_and!; [by rewrite <- app_assoc|simpl; split_and!; [done|lia|done]|by constructor].
Qed.
(** Against another plan, the planner never leaves one of its groups. *)
Section finest.
Context (gs : list (Z * Z)) (Htiles : tiles 0 n gs).
Context (Hclosed : ∀ g, g ∈ gs → closed refs g.1 g.2).
Context (Hexplicit : ∀ ex, ex ∈ pt_explicitGroups table → range_span ex ∈ gs).
Context (Hin : ∀ f, f ∈ forced → f ∈ gs).

Lemma within_group g s :
  g ∈ gs → g.1 ≤ s ≤ g.2 → s = g.1 ∨ (∀ ex, ex ∈ pt_explicitGroups table → range_span ex ≠ g) →
  (match find_at s with Some ex => pr_end ex | None => s end) ≤ g.2 ∧
  closed refs s g.2 ∧ forced_closed forced s g.2 ∧ explicit_fine table (find_at s) s g.2 ∧
  (find_at s = None → ∀ ex, ex ∈ pt_explicitGroups table → range_span ex ≠ g).
Proof.
  intros Hg Hs Hor.
  assert (∀ ex, ex ∈ pt_explicitGroups table → pr_start ex ≤ g.2 → s ≤ pr_end ex → range_span ex = g) as Hsame.
  { intros ex Hex H1 H2. apply (tiles_overlap _ _ _ _ _ Htiles (Hexplicit ex Hex) Hg); simpl; lia. }
  assert (closed refs s g.2) as Hc by (intros i l t Hi; apply (Hclosed g Hg); lia).
  assert (forced_closed forced s g.2) as Hfc.
  { intros f Hf H1 H2. rewrite (tiles_overlap _ _ _ f g Htiles (Hin f Hf) Hg); lia. }
  pose proof (find_explicit (λ ex, pr_start ex =? s) (pt_explicitGroups table)) as Hfind.
  destruct (find_at s) as [ex|] eqn:Ef.
  - destruct Hfind as [Hex Hst%Z.eqb_eq]. destruct (find_at_range s ex Ef) as (_ & _ & Hr).
    specialize (Hsame ex Hex ltac:(lia) ltac:(lia)). apply (f_equal snd) in Hsame. simpl in Hsame.
    split_and!; [lia|done..].
  - assert (∀ ex, ex ∈ pt_explicitGroups table → range_span ex ≠ g) as Hne.
    { intros ex Hex Hr. destruct Hor as [->|Hor]; [|by apply (Hor ex Hex)].
      specialize (Hfind ex Hex). apply Z.eqb_neq in Hfind. apply Hfind. by rewrite <- Hr. }
    split_and!; [lia|done|done| |done]. intros ex Hex. unfold overlaps.
    destruct (Z.leb_spec s (pr_end ex)), (Z.leb_spec (pr_start ex) g.2); simpl; try done.
    by destruct (Hne ex Hex (Hsame ex Hex ltac:(lia) ltac:(lia))).
Qed.

Lemma plan_one_group fuel g s acc :
  g ∈ gs → g.1 ≤ s ≤ g.2 → s = g.1 ∨ (∀ ex, ex ∈ pt_explicitGroups table → range_span ex ≠ g) →
  n - s < Z.of_nat fuel →
  ∃ fuel' new, plan_groups table forced fuel refs s acc = plan_groups table forced fuel' refs (g.2 + 1) (acc ++ new) ∧
    n - (g.2 + 1) < Z.of_nat fuel' ∧ Forall (λ h, g.1 ≤ tg_start h ∧ tg_end h ≤ g.2) new.
Proof.
  intros Hg. destruct (tiles_elem _ _ _ _ Htiles Hg) as (H0 & _ & Hn).
  revert s acc. induction fuel as [|fuel IH]; intros s acc Hs Hor Hf; [lia|].
  destruct (within_group g s Hg Hs Hor) as (Hlo & Hc & Hfc & Hfine & Hne).
  cbn [plan_groups]. fold n. destruct (Z.leb_spec n s) as [?|_]; [lia|].
  pose proof (scan_from_start table forced refs Hlen Hrefs Hforced (find_at s) s ltac:(lia)
    (λ ex H, proj2 (proj2 (find_at_range s ex H)))) as Hscan. cbv zeta in Hscan.
  destruct (scan_group _ _ _ _ _ _ _ _) as [e|f] eqn:E;
    [|by destruct Hscan as [_ Hno]; destruct (Hno g.2 Hlo Hc Hfc)].
  csimpl. destruct Hscan as (He & _ & _ & _ & Hleast). specialize (Hleast g.2 Hlo Hc Hfc).
  assert (s ≤ e) as Hse by (destruct (find_at s) as [ex|] eqn:Ef; [pose proof (find_at_range s ex Ef)|]; lia).
  destruct (decide (e = g.2)) as [->|Hlt].
  { eexists fuel, [_]. split_and!; [done|lia|]. constructor; [simpl; lia|constructor]. }
  destruct (IH (e + 1) (acc ++ [mkGroup s e (match find_at s with Some _ => true | None => s <? e end)
    (pr_recordIndex <$> find_at s)])) as (fuel' & new & -> & Hf' & Hnew); [lia| |lia|].
  { right. apply Hne. destruct (find_at s) as [ex|] eqn:Ef; [|done]. simpl in Hfine. lia. }
  eexists fuel', (_ :: new). split_and!; [by rewrite <- app_assoc|done|]. constructor; [simpl; lia|done].
Qed.

Lemma plan_finer fuel s acc gs' :
  (∀ g, g ∈ gs' → g ∈ gs) → tiles s n gs' → n - s < Z.of_nat fuel →
  ∃ new, plan_groups table forced fuel refs s acc = Ok (acc ++ new) ∧ refines (span <$> new) gs'.
Proof.
  revert fuel s acc. induction gs' as [|g gs' IH]; intros fuel s acc Hsub Ht Hf; simpl in Ht.
  { exists []. subst s. destruct fuel; [lia|]. cbn [plan_groups]. fold n. rewrite Z.leb_refl, app_nil_r.
    split; [done|]. intros h Hh. by apply not_elem_of_nil in Hh. }
  destruct Ht as (Hs & Hg & Ht).
  destruct (plan_one_group fuel g s acc) as (fuel' & new & -> & Hf' & Hnew);
    [apply Hsub; left|lia|by left|done|].
  destruct (IH fuel' (g.2 + 1) (acc ++ new)) as (new' & -> & Href); [intros; apply Hsub; by right|done|done|].
  exists (new ++ new'). split; [by rewrite app_assoc|]. intros h Hh. rewrite fmap_app in Hh.
  apply elem_of_app in Hh as [(h' & -> & Hh)%list_elem_of_fmap|Hh].
  - rewrite Forall_forall in Hnew. destruct (Hnew h' Hh). exists g. split_and!; [left|done|done].
  - destruct (Href h Hh) as (g' & ? & ? & ?). exists g'. split_and!; [by right|done|done].
Qed.
End finest.
End groups.

(** * The plan *)

Lemma tiles_cover s n gs i : tiles s n gs → s ≤ i < n → ∃ g, g ∈ gs ∧ g.1 ≤ i ≤ g.2.
Proof.
  revert s. induction gs as [|g gs IH]; intros s; simpl; [lia|]. intros (Hs & Hg & Ht) Hi.
  destruct (decide (i ≤ g.2)); [exists g; split; [left|lia]|].
  destruct (IH _ Ht) as (h & ? & ?); [lia|]. exists h. split; [by right|done].
Qed.

Section main.
Context (table : PhysicalTypeTable) (forced : list (Z * Z)) (Htable : table_ok table).
Let n : Z := Z.of_nat (length (pt_entries table)).
Let refs : list (list Z) := (λ e, type_refs (pe_definition e)) <$> pt_entries table.

Definition forced_ok (f : Z * Z) : Prop :=
  (0 ≤ f.1 < n ∧ 0 ≤ f.2 < n ∧ f.1 ≤ f.2) ∧
  ∀ ex, ex ∈ pt_explicitGroups table → overlaps f.1 f.2 ex = true → f = range_span ex.

Lemma check_forced_answers f u : answers (forced_ok f) tt (check_forced table f u).
Proof.
  destruct f as [a b]. unfold check_forced, forced_ok. simpl.
  apply answers_iff with ((0 ≤ a < n) ∧ (0 ≤ b < n) ∧ a ≤ b ∧
    ∀ ex, ex ∈ pt_explicitGroups table → overlaps a b ex = true → (a, b) = range_span ex); [tauto|].
  eapply answers_bind; [by apply checkIndex_answers|]. intros _.
  eapply answers_bind; [by apply checkIndex_answers|]. intros _.
  destruct (Z.ltb_spec b a); [split; [done|lia]|]. destruct (existsb _ _) eqn:E; simpl.
  - split; [done|]. intros [_ Hx]. apply existsb_elem in E as (ex & Hex & (Ho & Hne)%andb_true_iff).
    specialize (Hx ex Hex Ho). unfold range_span in Hx. simplify_eq. by rewrite !Z.eqb_refl in Hne.
  - split; [|done]. split; [done|]. intros ex Hex Ho.
    pose proof (proj1 (existsb_none _ _) E ex Hex) as Hn. simpl in Hn. rewrite Ho in Hn.
    apply orb_false_iff in Hn as [->%negb_false_iff%Z.eqb_eq ->%negb_false_iff%Z.eqb_eq]. done.
Qed.

Lemma check_kept_answers groups f u : answers (f ∈ span <$> groups) tt (check_kept groups f u).
Proof.
  unfold check_kept. destruct (existsb _ _) eqn:E; simpl.
  - split; [|done]. apply existsb_elem in E as (g & Hg & [H1%Z.eqb_eq H2%Z.eqb_eq]%andb_true_iff).
    apply list_elem_of_fmap. exists g. split; [|done]. destruct f; unfold span; simpl in *; congruence.
  - split; [done|]. intros (g & -> & Hg)%list_elem_of_fmap. apply (existsb_none _ _) with (x := g) in E; [|done].
    simpl in E. by rewrite !Z.eqb_refl in E.
Qed.

Lemma refs_at i : js_at refs i = (λ e, type_refs (pe_definition e)) <$> js_at (pt_entries table) i.
Proof. unfold js_at, refs. destruct (i <? 0); [done|]. apply list_lookup_fmap. Qed.

(** The closure condition of a plan, by the references of the entries. *)
Lemma closed_entries a b :
  closed refs a b ↔ ∀ i e t, a ≤ i ≤ b → js_at (pt_entries table) i = Some e → t ∈ type_refs (pe_definition e) → t ≤ b.
Proof.
  unfold closed. setoid_rewrite refs_at. split.
  - intros H i e t Hi He. apply (H i (type_refs (pe_definition e)) t Hi). by rewrite He.
  - intros H i l t Hi Hl. destruct (js_at (pt_entries table) i) as [e|] eqn:He; [|done]. simplify_eq/=. by apply (H i e).
Qed.

(** Groups that the planner made keep every explicit group. *)
Lemma explicit_kept groups ex :
  tiles 0 n (span <$> groups) → Forall (group_ok table forced refs) groups →
  ex ∈ pt_explicitGroups table → range_span ex ∈ span <$> groups.
Proof.
  intros Ht Hg Hex. pose proof (table_explicit_range _ _ Htable Hex) as Hr. fold n in Hr.
  destruct (tiles_cover _ _ _ (pr_start ex) Ht) as (h & Hh & Hin); [lia|].
  apply list_elem_of_fmap in Hh as (g & -> & Hgin). simpl in Hin.
  rewrite Forall_forall in Hg. destruct (Hg g Hgin) as [_ _ Hfine _ _].
  pose proof (find_explicit (λ g0, pr_start g0 =? tg_start g) (pt_explicitGroups table)) as Hfind.
  destruct (List.find _ _) as [ex'|]; simpl in Hfine.
  - destruct Hfind as [Hex' Hs%Z.eqb_eq]. apply list_elem_of_fmap. exists g. split; [|done].
    rewrite (table_disjoint _ ex ex' Htable Hex Hex') by lia. unfold range_span, span. by f_equal.
  - specialize (Hfine ex Hex). revert Hfine. unfold overlaps. bool_cases; try done; lia.
Qed.

(** When a valid plan exists, the forced intervals pass their check. *)
Lemma valid_forced gs f : valid_plan table forced gs → f ∈ forced → forced_ok f.
Proof.
  intros [Ht _ Hx Hf] Hin. pose proof (tiles_elem _ _ _ _ Ht (Hf f Hin)) as Hr. fold n in Hr.
  split; [lia|]. intros ex Hex Ho. apply (tiles_overlap _ _ _ _ _ Ht (Hf f Hin) (Hx ex Hex)); revert Ho;
    unfold overlaps; bool_cases; try done; simpl; lia.
Qed.

Lemma plan_sound_complete :
  match planPhysicalTypeSection table forced with
  | Ok groups => Forall (entry_ok table) (pt_entries table) ∧ valid_plan table forced (span <$> groups) ∧
      Forall (group_ok table forced refs) groups ∧
      ∀ gs, valid_plan table forced gs → refines (span <$> groups) gs
  | Err f => thrown f ∧ ¬ (Forall (entry_ok table) (pt_entries table) ∧ ∃ gs, valid_plan table forced gs)
  end.
Proof.
  unfold planPhysicalTypeSection.
  assert (n - 0 < Z.of_nat (S (length (pt_entries table)))) as Hfuel by lia. revert Hfuel.
  generalize (S (length (pt_entries table))) as fuel. intros fuel Hfuel.
  pose proof (references_answers table Htable) as Hr. fold refs in Hr.
  destruct (references table) as [rs|f]; csimpl in *; [|tauto]. destruct Hr as [Hent ->].
  assert (∀ i l t, js_at refs i = Some l → t ∈ l → 0 ≤ t < n) as Hrefs.
  { intros i l t. rewrite refs_at. destruct (js_at (pt_entries table) i) as [e|] eqn:He; [|done].
    csimpl. intros [= <-] Ht. apply js_at_Some in He as [_ He%list_elem_of_lookup_2].
    rewrite Forall_forall in Hent. destruct (Hent e He) as [Hl _]. rewrite Forall_forall in Hl. by apply Hl. }
  pose proof (answers_for_each forced_ok (λ _ _, tt) forced (check_forced table) tt
    (λ x s _, check_forced_answers x s)) as Hcf.
  destruct (for_each forced (check_forced table) tt) as [u|f]; csimpl in *.
  2:{ split; [tauto|]. intros [_ [gs Hgs]]. apply (proj2 Hcf), Forall_forall. intros x. by eapply valid_forced. }
  destruct Hcf as [Hcf _]. rewrite Forall_forall in Hcf.
  assert (∀ f, f ∈ forced → 0 ≤ f.1 ∧ f.1 ≤ f.2 ∧ f.2 < n) as Hforced.
  { intros f Hf. destruct (Hcf f Hf) as [? _]. lia. }
  assert (length refs = length (pt_entries table)) as Hlen by apply length_fmap.
  pose proof (plan_groups_yields table forced refs Htable Hlen Hrefs Hforced fuel 0 []
    ltac:(lia) Hfuel) as Hy. fold n in Hy.
  assert (∀ gs, valid_plan table forced gs → ∃ groups,
    plan_groups table forced fuel refs 0 [] = Ok groups ∧ refines (span <$> groups) gs) as Hfin.
  { intros gs [Ht Hc Hx Hf]. apply (plan_finer table forced refs Htable Hlen Hrefs Hforced gs Ht); [|done..].
    intros g Hg. apply closed_entries. by intros i e t; apply Hc. }
  destruct (plan_groups _ _ _ _ _ _) as [groups|f]; csimpl in *.
  2:{ split; [done|]. intros [_ [gs Hgs]]. by destruct (Hfin gs Hgs) as (? & ? & ?). }
  destruct Hy as (new & -> & Ht & Hg). csimpl in *.
  pose proof (answers_for_each (λ f, f ∈ span <$> new) (λ _ _, tt) forced (check_kept new) tt
    (λ x s _, check_kept_answers new x s)) as Hk.
  destruct (for_each forced (check_kept new) tt) as [u'|f]; csimpl in *.
  - destruct Hk as [Hk _]. rewrite Forall_forall in Hk. split_and!; [done| |done|].
    + split; [done| |by intros; apply explicit_kept|done]. intros g i e t (h & -> & Hh)%list_elem_of_fmap.
      rewrite Forall_forall in Hg. destruct (Hg h Hh) as [Hc _ _ _ _]. exact (proj1 (closed_entries _ _) Hc i e t).
    + intros gs Hgs. by destruct (Hfin gs Hgs) as (? & [= <-] & ?).
  - split; [tauto|]. intros [_ [gs Hgs]]. apply (proj2 Hk), Forall_forall. intros x Hx.
    destruct (Hfin gs Hgs) as (? & [= <-] & Href). destruct Hgs as [Hgt _ _ Hgf].
    pose proof (tiles_elem _ _ _ _ Hgt (Hgf x Hx)) as Hxr.
    destruct (tiles_cover _ _ _ x.1 Ht) as (h & Hh & Hin); [fold n in Hxr; lia|].
    destruct (Href h Hh) as (g' & Hg' & H1 & H2).
    assert (g' = x) as -> by (apply (tiles_overlap _ _ _ _ _ Hgt Hg' (Hgf x Hx)); lia).
    assert (h = x) as <-; [|done]. apply list_elem_of_fmap in Hh as (k & -> & Hkn).
    rewrite Forall_forall in Hg. destruct (Hg k Hkn) as [_ Hkf _ _ _]. specialize (Hkf x Hx). simpl in *.
    destruct x; unfold span in *; simpl in *; f_equal; lia.
Qed.
End main.

(** The flag of a group, by the explicit groups. *)
Lemma group_recursive_spec table forced refs g :
  table_ok table → group_ok table forced refs g →
  (tg_recursive g = true ↔ (∃ ex, ex ∈ pt_explicitGroups table ∧ range_span ex = span g) ∨ tg_start g < tg_end g).
Proof.
  intros Ht [_ _ Hf -> ->]. rewrite bool_decide_eq_true.
  pose proof (find_explicit (λ ex, pr_start ex =? tg_start g) (pt_explicitGroups table)) as Hfind.
  destruct (List.find _ _) as [ex|] eqn:E; simpl in *.
  - destruct Hfind as [Hex Hs%Z.eqb_eq]. split; [|naive_solver]. intros _. left. exists ex. split; [done|].
    unfold range_span, span. congruence.
  - split; [naive_solver|]. intros [(ex & Hex & Hsp)|]; [|by right]. specialize (Hfind ex Hex).
    apply Z.eqb_neq in Hfind. unfold range_span, span in Hsp. congruence.
Qed.

(** * Properties *)

(** C9: recursion groups.  On the indexed types of a module the planner throws exactly
    when a reference or a supertype is out of place or no valid plan exists; otherwise
    its groups are a valid plan (they tile the index space, references stay inside or
    point back, explicit and forced groups are kept as they are), the finest one, and a
    group is marked recursive exactly when it is explicit or has several members. *)
Theorem planPhysicalTypeSection_finest types table forced :
  indexPhysicalTypes types = Ok table →
  match planPhysicalTypeSection table forced with
  | Ok groups => Forall (entry_ok table) (pt_entries table) ∧ valid_plan table forced (span <$> groups) ∧
      (∀ gs, valid_plan table forced gs → refines (span <$> groups) gs) ∧
      Forall (λ g, tg_recursive g = true ↔
        (∃ ex, ex ∈ pt_explicitGroups table ∧ range_span ex = span g) ∨ tg_start g < tg_end g) groups
  | Err f => thrown f ∧ ¬ (Forall (entry_ok table) (pt_entries table) ∧ ∃ gs, valid_plan table forced gs)
  end.
Proof.
  intros Ht. destruct (yields_ok _ _ _ (indexPhysicalTypes_yields types) Ht) as [Hok _].
  pose proof (plan_sound_complete table forced Hok) as H.
  destruct (planPhysicalTypeSection table forced) as [groups|f]; [|done].
  destruct H as (He & Hv & Hg & Hr). split_and!; [done..|]. eapply Forall_impl; [exact Hg|].
  intros g. by apply group_recursive_spec.
Qed.

Lemma planPhysicalTypeSection_finest_witness :
  ∃ table, indexPhysicalTypes sample_types = Ok table ∧
    planPhysicalTypeSection table [(0, 3)] = Ok [mkGroup 0 3 true None; mkGroup 4 5 true (Some 4)] ∧
    valid_plan table [(0, 3)] [(0, 3); (4, 5)].
Proof.
  eexists. split; [reflexivity|]. split; [reflexivity|].
  pose proof (planPhysicalTypeSection_finest sample_types _ [(0, 3)] eq_refl) as H.
  apply (proj1 (proj2 H)).
Defined.
