(* ===== verification/WasmEncode.v ===== *)
(** The Wasm instruction encoder, src/emit/binary.ts: types, imports, exports and
    instructions as bytes, with the index checks that are armed during a whole-module
    emit, and the resolution of function handles (src/emit/resolve-layout.ts).

    [valCtx] and [layout] are module variables that emitBinary sets and clears; here
    they are arguments, [None] where the code runs unarmed.  The instruction-array cache
    and the recording of source positions, which are keyed by the identity of arrays, are
    not modelled: bodies are trees, and every array is written where it occurs. *)

From S2P Require Import Prelude Encoder Emit WasmModel WasmOps.
Import WasmEncoder.

(** * Function handles *)

Definition STABLE_FUNC_BASE : Z := 1 .<< 21.

Definition is_func_import (i : Import_) : bool := match im_desc i with IFunc _ => true | _ => false end.

Definition count_if {A} (f : A → bool) (l : list A) : Z :=
  Z.of_nat (length (filter (λ x, f x = true) l)).

(** Handles are integers here; the messages for [undefined] and [NaN] are not modelled. *)
Definition absoluteFuncIndexCached (md : WasmModule) (numImportFuncs h : Z) : result Z :=
  if h <? STABLE_FUNC_BASE then Ok h
  else match js_at (m_funcOrdinalToPosition md) (h - STABLE_FUNC_BASE) with
       | Some (Some pos) => Ok (numImportFuncs + pos)
       | _ => throw EError (js "absoluteFuncIndex: stable handle " ++ js_num h ++ js " (ordinal "
                ++ js_num (h - STABLE_FUNC_BASE) ++ js ") has no recorded position")
       end.

Definition absoluteFuncIndex (md : WasmModule) (h : Z) : result Z :=
  if h <? STABLE_FUNC_BASE then Ok h
  else absoluteFuncIndexCached md (count_if is_func_import (m_imports md)) h.

Record ModuleLayout := mkLayout { layout_func : Z → result Z; layout_global : Z → Z; layout_type : Z → Z }.

Definition resolveLayout (md : WasmModule) : ModuleLayout :=
  mkLayout (absoluteFuncIndexCached md (count_if is_func_import (m_imports md))) (λ h, h) (λ h, h).

(** * The validation context *)

Record EmitValidationCtx := mkValCtx {
  numFuncs : Z;
  numTypes : Z;
  numGlobals : Z;
  numTags : Z;
  numTables : Z;
  numMemories : Z;
  flatTypes : list TypeDef;
  where_ : jsstr;
  maxLocals : Z;
}.

Definition set_where (w : jsstr) (c : EmitValidationCtx) : EmitValidationCtx :=
  mkValCtx (numFuncs c) (numTypes c) (numGlobals c) (numTags c) (numTables c) (numMemories c) (flatTypes c) w (maxLocals c).

(** The dash and the quotation mark of the messages. *)
Definition dash : jsstr := [0x2014].
Definition quote : jsstr := [34].

Definition failIndex {A} (ctx : EmitValidationCtx) (space : jsstr) (value max : Z) : result A :=
  throw ERangeError (js "Codegen error: " ++ space ++ js " index out of range " ++ dash ++ js " " ++ js_num value
    ++ js " (valid: [0, " ++ js_num max ++ js ")) at " ++ where_ ctx
    ++ js ". This is the late-import index-shift class (#2043): a captured index went stale across a deferred "
    ++ js "flushLateImportShifts/addUnionImports/addStringImports shift, or a map lookup failed and baked "
    ++ js "-1/undefined. Re-resolve the index by name AFTER the last shift, or make the producer refuse loudly.").

Definition vIdx (ctx : EmitValidationCtx) (space : jsstr) (value max : Z) : result () :=
  if (value <? 0) || (max <=? value) then failIndex ctx space value max else Ok tt.

(** Heap-type positions: type indices, or the codes of abstract heap types. *)
Definition vHeapType (ctx : EmitValidationCtx) (value : Z) : result () :=
  let max := numTypes ctx in
  if (max <=? value) || (value <? -64) || (value =? -1)
  then failIndex ctx (js "heap type") value max else Ok tt.

Fixpoint strip_sub (t : TypeDef) : TypeDef := match t with TSub _ _ t => strip_sub t | _ => t end.

Definition resolveTypeDefAt (ctx : EmitValidationCtx) (typeIdx : Z) : option TypeDef :=
  strip_sub <$> js_at (flatTypes ctx) typeIdx.

Definition resolveParamCount (ctx : EmitValidationCtx) (typeIdx : Z) : Z :=
  match resolveTypeDefAt ctx typeIdx with
  | Some (TFunc params _) => Z.of_nat (length params)
  | _ => -1
  end.

Definition vSignature (ctx : EmitValidationCtx) (typeIdx : Z) : result () :=
  _ ← vIdx ctx (js "type") typeIdx (numTypes ctx);
  match resolveTypeDefAt ctx typeIdx with
  | Some (TFunc _ _) => Ok tt
  | _ => throw EError (js "type " ++ js_num typeIdx ++ js " is not a function signature")
  end.

Definition vStructField (ctx : EmitValidationCtx) (typeIdx fieldIdx : Z) (op : jsstr) : result () :=
  _ ← vIdx ctx (js "type") typeIdx (numTypes ctx);
  match resolveTypeDefAt ctx typeIdx with
  | Some (TStruct fields _ _) =>
      let count := Z.of_nat (length fields) in
      if (fieldIdx <? 0) || (count <=? fieldIdx)
      then failIndex (set_where (where_ ctx ++ js " (" ++ op ++ js " on type " ++ js_num typeIdx ++ js ")") ctx)
             (js "struct field") fieldIdx count
      else Ok tt
  | _ => Ok tt
  end.

(** * Types *)

Section encode.
Context `{TextCodec} (valCtx : option EmitValidationCtx) (layout : option ModuleLayout).

(** [if (valCtx) check(valCtx)] *)
Definition if_armed (f : EmitValidationCtx → result ()) : emitter :=
  check (match valCtx with Some ctx => f ctx | None => Ok tt end).

Definition fIdx (h : Z) : result Z := match layout with Some l => layout_func l h | None => Ok h end.
Definition gIdx (h : Z) : Z := match layout with Some l => layout_global l h | None => h end.

Definition packed_value (kind : string) : fault :=
  Throw EError (js "encodeValType: packed storage type " ++ quote ++ js kind ++ quote
    ++ js " is not valid in a value position (only struct fields / array elements) " ++ dash
    ++ js " a packed type leaked into a param/result/local/global").

Definition encodeValType (t : ValType) : emitter :=
  match t with
  | VI32 => byte (TYPE "i32")
  | VI64 => byte (TYPE "i64")
  | VF32 => byte (TYPE "f32")
  | VF64 => byte (TYPE "f64")
  | VV128 => byte (TYPE "v128")
  | VFuncref => byte (TYPE "funcref")
  | VExternref => byte (TYPE "externref")
  | VRefExtern => byte (TYPE "ref") ⟫ byte (TYPE "externref")
  | VRef typeIdx => if_armed (λ c, vHeapType c typeIdx) ⟫ byte (TYPE "ref") ⟫ i32 typeIdx
  | VRefNull typeIdx => if_armed (λ c, vHeapType c typeIdx) ⟫ byte (TYPE "ref_null") ⟫ i32 typeIdx
  | VEqref => byte (TYPE "ref_null") ⟫ byte (TYPE "eq")
  | VAnyref => byte (TYPE "ref_null") ⟫ byte (TYPE "any")
  | VI8 => fails (packed_value "i8")
  | VI16 => fails (packed_value "i16")
  end.

Definition encodeStorageType (t : ValType) : emitter :=
  match t with
  | VI8 => byte (TYPE "i8")
  | VI16 => byte (TYPE "i16")
  | t => encodeValType t
  end.

Definition mut_byte (mutable : bool) : Z := if mutable then TYPE "mut_field" else TYPE "const_field".

Definition encodeFieldDef (f : FieldDef) : emitter :=
  encodeStorageType (fd_type f) ⟫ byte (mut_byte (fd_mutable f)).

Fixpoint encodeTypeDef (t : TypeDef) : emitter :=
  match t with
  | TFunc params results =>
      byte (TYPE "func") ⟫ vector params encodeValType ⟫ vector results encodeValType
  | TStruct fields superTypeIdx final =>
      match superTypeIdx with
      | Some s =>
          byte (if final then TYPE "sub_final" else TYPE "sub") ⟫
          (if 0 <=? s then if_armed (λ c, vIdx c (js "supertype") s (numTypes c)) ⟫ u32 1 ⟫ u32 s else u32 0) ⟫
          byte (TYPE "struct") ⟫ vector fields encodeFieldDef
      | None => byte (TYPE "struct") ⟫ vector fields encodeFieldDef
      end
  | TArray element mutable =>
      byte (TYPE "array") ⟫ encodeStorageType element ⟫ byte (mut_byte mutable)
  | TRec types => byte (TYPE "rec") ⟫ u32 (Z.of_nat (length types)) ⟫ each encodeTypeDef types
  | TSub superType final type =>
      match superType with
      | Some s =>
          if_armed (λ c, vIdx c (js "supertype") s (numTypes c)) ⟫
          byte (if final then TYPE "sub_final" else TYPE "sub") ⟫ u32 1 ⟫ u32 s
      | None => if negb final then byte (TYPE "sub") ⟫ u32 0 else Ok
      end ⟫ encodeTypeDef type
  end.

Definition encodeBlockType (bt : BlockType) : emitter :=
  match bt with
  | BEmpty => byte 0x40
  | BVal type => encodeValType type
  | BType typeIdx =>
      if_armed (λ c, _ ← vIdx c (js "block type") typeIdx (numTypes c); vSignature c typeIdx) ⟫ i32 typeIdx
  end.

(** * Imports, exports, globals *)

(** A flag byte, the minimum, and the maximum when there is one. *)
Definition encode_limits (min : Z) (max : option Z) : emitter :=
  match max with
  | Some max => byte 0x01 ⟫ u32 min ⟫ u32 max
  | None => byte 0x00 ⟫ u32 min
  end.

Definition element_type_byte (elementType : string) : Z :=
  if decide (elementType = "funcref"%string) then TYPE "funcref" else TYPE "externref".

Definition encodeImport (imp : Import_) : emitter :=
  name (im_module imp) ⟫ name (im_name imp) ⟫
  match im_desc imp with
  | IFunc typeIdx => if_armed (λ c, vSignature c typeIdx) ⟫ byte 0x00 ⟫ u32 typeIdx
  | ITable elementType min max => byte 0x01 ⟫ byte (element_type_byte elementType) ⟫ encode_limits min max
  | IMemory min max => byte 0x02 ⟫ encode_limits min max
  | IGlobal type mutable => byte 0x03 ⟫ encodeValType type ⟫ byte (if mutable then 0x01 else 0x00)
  | ITag typeIdx => if_armed (λ c, vSignature c typeIdx) ⟫ byte 0x04 ⟫ byte 0x00 ⟫ u32 typeIdx
  end.

Definition export_kind_byte (k : ExportKind) : Z :=
  match k with XFunc => 0x00 | XTable => 0x01 | XMemory => 0x02 | XTag => 0x04 | XGlobal => 0x03 end.

Definition export_check (k : ExportKind) (resolved : Z) (c : EmitValidationCtx) : result () :=
  match k with
  | XFunc => vIdx c (js "function") resolved (numFuncs c)
  | XGlobal => vIdx c (js "global") resolved (numGlobals c)
  | XTable => vIdx c (js "table") resolved (numTables c)
  | XTag => vIdx c (js "exception tag") resolved (numTags c)
  | XMemory => vIdx c (js "memory") resolved (numMemories c)
  end.

Definition export_index (x : WasmExport) : result Z :=
  match ex_kind x with
  | XFunc => fIdx (ex_index x)
  | XGlobal => Ok (gIdx (ex_index x))
  | _ => Ok (ex_index x)
  end.

Definition encodeExport (x : WasmExport) : emitter :=
  with_value (export_index x) (λ resolved,
    if_armed (export_check (ex_kind x) resolved) ⟫
    name (ex_name x) ⟫ byte (export_kind_byte (ex_kind x)) ⟫ u32 resolved).

(** The kinds agree, and the type indices of [ref] and [ref_null]. *)
Definition valTypeEq (a b : ValType) : bool := bool_decide (a = b).

Record LocalGroup := mkLocalGroup { lg_count : Z; lg_type : ValType }.

(** One turn of the loop; the groups are kept last first. *)
Definition group_local (groups : list LocalGroup) (type : ValType) : list LocalGroup :=
  match groups with
  | last :: rest =>
      if valTypeEq (lg_type last) type then mkLocalGroup (lg_count last + 1) (lg_type last) :: rest
      else mkLocalGroup 1 type :: groups
  | [] => [mkLocalGroup 1 type]
  end.

Definition groupLocals (locals : list ValType) : list LocalGroup := reverse (foldl group_local [] locals).

(** The local groups in front of a function body. *)
Definition encode_locals (locals : list ValType) : emitter :=
  vector (groupLocals locals) (λ group, u32 (lg_count group) ⟫ encodeValType (lg_type group)).

(** * Instructions *)

Definition write_piece (p : piece) : emitter := match p with PByte b => byte b | PU32 v => u32 v end.
Definition write_pieces (ps : list piece) : emitter := for_each ps write_piece.

(** The cases without a nested body: what is written before the immediates comes
    from a table. *)
Definition unknown_op (op : string) : emitter :=
  fails (Throw EError (js "encodeInstr: unknown op " ++ quote ++ js op ++ quote)).

Definition from_table (table : list (string * list piece)) (op : string) (k : emitter) : emitter :=
  match find_op table op with Some ps => write_pieces ps ⟫ k | None => unknown_op op end.

Definition encode_plain (op : string) : emitter := from_table plain_ops op Ok.
Definition encode_memarg (op : string) (align offset : Z) : emitter :=
  from_table memarg_ops op (u32 align ⟫ u32 offset).
Definition encode_lane (op : string) (lane : Z) : emitter := from_table lane_ops op (byte lane).

Definition encode_local (op : string) (code index : Z) : emitter :=
  if_armed (λ c, if 0 <=? maxLocals c then vIdx c (js "local (" ++ js op ++ js ")") index (maxLocals c) else Ok tt) ⟫
  byte code ⟫ u32 index.

Definition encode_global (code index : Z) : emitter :=
  let g := gIdx index in
  if_armed (λ c, vIdx c (js "global") g (numGlobals c)) ⟫ byte code ⟫ u32 g.

(** call, return_call and ref.func *)
Definition encode_call (code funcIdx : Z) : emitter :=
  with_value (fIdx funcIdx) (λ target,
    if_armed (λ c, vIdx c (js "function") target (numFuncs c)) ⟫ byte code ⟫ u32 target).

Definition encode_call_indirect (typeIdx tableIdx : Z) : emitter :=
  if_armed (λ c, _ ← vSignature c typeIdx; vIdx c (js "table") tableIdx (numTables c)) ⟫
  byte (OP "call_indirect") ⟫ u32 typeIdx ⟫ u32 tableIdx.

Definition encode_call_ref (code typeIdx : Z) : emitter :=
  if_armed (λ c, vSignature c typeIdx) ⟫ byte code ⟫ u32 typeIdx.

(** ref.cast, ref.cast_null and ref.test *)
Definition encode_heap_type (code typeIdx : Z) : emitter :=
  if_armed (λ c, vHeapType c typeIdx) ⟫ byte (GC "prefix") ⟫ byte code ⟫ i32 typeIdx.

Definition encode_ref_null (typeIdx : Z) : emitter :=
  if_armed (λ c, vHeapType c typeIdx) ⟫ byte (OP "ref_null") ⟫ i32 typeIdx.

(** struct.new and the array instructions with one type index *)
Definition encode_gc (code typeIdx : Z) : emitter :=
  if_armed (λ c, vIdx c (js "type") typeIdx (numTypes c)) ⟫ byte (GC "prefix") ⟫ byte code ⟫ u32 typeIdx.

Definition encode_struct_field (op : string) (code typeIdx fieldIdx : Z) : emitter :=
  if_armed (λ c, vStructField c typeIdx fieldIdx (js op)) ⟫
  byte (GC "prefix") ⟫ byte code ⟫ u32 typeIdx ⟫ u32 fieldIdx.

Definition encode_array_copy (dst src : Z) : emitter :=
  if_armed (λ c, _ ← vIdx c (js "type") dst (numTypes c); vIdx c (js "type") src (numTypes c)) ⟫
  byte (GC "prefix") ⟫ byte (GC "array_copy") ⟫ u32 dst ⟫ u32 src.

Definition encode_tag (code tagIdx : Z) : emitter :=
  if_armed (λ c, vIdx c (js "exception tag") tagIdx (numTags c)) ⟫ byte code ⟫ u32 tagIdx.

Definition catch_code (k : CatchKind) : Z :=
  match k with Catch => 0x00 | CatchRef => 0x01 | CatchAll => 0x02 | CatchAllRef => 0x03 end.
Definition catch_name (k : CatchKind) : string :=
  match k with Catch => "catch" | CatchRef => "catch_ref" | CatchAll => "catch_all" | CatchAllRef => "catch_all_ref" end.

(** A clause of try_table. *)
Definition encode_catch (clause : TryTableCatch) : emitter :=
  byte (catch_code (tc_kind clause)) ⟫
  match tc_kind clause with
  | Catch | CatchRef =>
      match tc_tagIdx clause with
      | None => fails (Throw EError (js "try_table " ++ js (catch_name (tc_kind clause)) ++ js " is missing a tag index"))
      | Some tagIdx =>
          if_armed (λ c, vIdx c (js "exception tag") tagIdx (numTags c)) ⟫ u32 tagIdx ⟫ u32 (tc_depth clause)
      end
  | CatchAll | CatchAllRef => u32 (tc_depth clause)
  end.

Definition encode_br_table (targets : list Z) (defaultDepth : Z) : emitter :=
  byte (OP "br_table") ⟫ u32 (Z.of_nat (length targets)) ⟫ for_each targets u32 ⟫ u32 defaultDepth.

(** An [if] with a value has an [else], if only an unreachable one. *)
Definition else_part (bt : BlockType) (else_ : option (list Instr)) (encode_all : list Instr → emitter) : emitter :=
  match else_ with
  | Some (i :: l) => byte (OP "else") ⟫ encode_all (i :: l)
  | _ => match bt with BVal _ => byte (OP "else") ⟫ byte (OP "unreachable") | _ => Ok end
  end.

Fixpoint encodeInstr (instr : Instr) : emitter :=
  match instr with
  | Plain op => encode_plain op
  | Memarg op align offset => encode_memarg op align offset
  | Lane op lane => encode_lane op lane
  | LocalGet index => encode_local "local.get" (OP "local_get") index
  | LocalSet index => encode_local "local.set" (OP "local_set") index
  | LocalTee index => encode_local "local.tee" (OP "local_tee") index
  | GlobalGet index => encode_global (OP "global_get") index
  | GlobalSet index => encode_global (OP "global_set") index
  | I32Const value => byte (OP "i32_const") ⟫ i32 value
  | I64Const value => byte (OP "i64_const") ⟫ i64 value
  | F64Const bits => byte (OP "f64_const") ⟫ f64 bits
  | F32Const bits => byte (OP "f32_const") ⟫ f32 bits
  | V128Const bs => byte (OP "simd_prefix") ⟫ u32 (SIMD "v128_const") ⟫ v128 bs
  | I8x16Shuffle lanes => byte (OP "simd_prefix") ⟫ u32 (SIMD "i8x16_shuffle") ⟫ for_each lanes byte
  | Block blockType body =>
      byte (OP "block") ⟫ encodeBlockType blockType ⟫ each encodeInstr body ⟫ byte (OP "end")
  | Loop blockType body =>
      byte (OP "loop") ⟫ encodeBlockType blockType ⟫ each encodeInstr body ⟫ byte (OP "end")
  | If blockType then_ else_ =>
      byte (OP "if") ⟫ encodeBlockType blockType ⟫ each encodeInstr then_ ⟫
      else_part blockType else_ (each encodeInstr) ⟫ byte (OP "end")
  | Br depth => byte (OP "br") ⟫ u32 depth
  | BrIf depth => byte (OP "br_if") ⟫ u32 depth
  | BrTable targets defaultDepth => encode_br_table targets defaultDepth
  | Call funcIdx => encode_call (OP "call") funcIdx
  | ReturnCall funcIdx => encode_call (OP "return_call") funcIdx
  | CallIndirect typeIdx tableIdx => encode_call_indirect typeIdx tableIdx
  | StructNew typeIdx => encode_gc (GC "struct_new") typeIdx
  | StructGet typeIdx fieldIdx => encode_struct_field "struct.get" (GC "struct_get") typeIdx fieldIdx
  | StructSet typeIdx fieldIdx => encode_struct_field "struct.set" (GC "struct_set") typeIdx fieldIdx
  | ArrayNew typeIdx => encode_gc (GC "array_new") typeIdx
  | ArrayNewFixed typeIdx length => encode_gc (GC "array_new_fixed") typeIdx ⟫ u32 length
  | ArrayNewDefault typeIdx => encode_gc (GC "array_new_default") typeIdx
  | ArrayGet typeIdx => encode_gc (GC "array_get") typeIdx
  | ArrayGetS typeIdx => encode_gc (GC "array_get_s") typeIdx
  | ArrayGetU typeIdx => encode_gc (GC "array_get_u") typeIdx
  | ArraySet typeIdx => encode_gc (GC "array_set") typeIdx
  | ArrayCopy dst src => encode_array_copy dst src
  | ArrayFill typeIdx => encode_gc (GC "array_fill") typeIdx
  | RefNull typeIdx => encode_ref_null typeIdx
  | RefCast typeIdx => encode_heap_type (GC "ref_cast") typeIdx
  | RefCastNull typeIdx => encode_heap_type (GC "ref_cast_null") typeIdx
  | RefTest typeIdx => encode_heap_type (GC "ref_test") typeIdx
  | RefFunc funcIdx => encode_call (OP "ref_func") funcIdx
  | CallRef typeIdx => encode_call_ref (OP "call_ref") typeIdx
  | ReturnCallRef typeIdx => encode_call_ref (OP "return_call_ref") typeIdx
  | MemoryInit dataIdx => byte (OP "misc_prefix") ⟫ u32 0x08 ⟫ u32 dataIdx ⟫ byte 0x00
  | DataDrop dataIdx => byte (OP "misc_prefix") ⟫ u32 0x09 ⟫ u32 dataIdx
  | Throw_ tagIdx => encode_tag (OP "throw") tagIdx
  | Rethrow depth => byte (OP "rethrow") ⟫ u32 depth
  | TryTable blockType body catches =>
      byte (OP "try_table") ⟫ encodeBlockType blockType ⟫ u32 (Z.of_nat (length catches)) ⟫
      for_each catches encode_catch ⟫ each encodeInstr body ⟫ byte (OP "end")
  | Try blockType body catches catchAll =>
      byte (OP "try") ⟫ encodeBlockType blockType ⟫ each encodeInstr body ⟫
      each (λ c, encode_tag (OP "catch") c.1 ⟫ each encodeInstr c.2) catches ⟫
      match catchAll with Some l => byte (OP "catch_all") ⟫ each encodeInstr l | None => Ok end ⟫
      byte (OP "end")
  end.

(** [for (const instr of body) encodeInstr(instr, enc)] *)
Definition encodeInstrs (body : list Instr) : emitter := each encodeInstr body.

Definition encodeGlobal (g : GlobalDef) : emitter :=
  encodeValType (gd_type g) ⟫ byte (if gd_mutable g then 0x01 else 0x00) ⟫
  encodeInstrs (gd_init g) ⟫ byte (OP "end").
End encode.
