(* ===== verification/WasmCheck.v ===== *)
(** What the emit-time index checks of src/emit/binary.ts guarantee.

    [uses] lists the references of a piece of the module (functions, globals, types,
    tags, tables, locals, struct fields); [use_ok] says that a reference resolves.  For
    every encoder, the armed run succeeds exactly when the unarmed run does and every
    reference resolves, and then both leave the same encoder: the checks change nothing
    in the bytes, they refuse no reference that resolves, and none that does not slips
    through. *)

From S2P Require Import Prelude Encoder Emit WasmModel WasmOps WasmEncode.
Import WasmEncoder.

(** * References *)

Inductive use :=
  | UFunc (h : Z) | UGlobal (h : Z) | UType (t : Z) | USignature (t : Z) | UHeapType (t : Z)
  | UTag (t : Z) | UTable (t : Z) | UMemory (m : Z) | ULocal (index : Z) | UField (t field : Z).

Section uses.

Definition valtype_uses (t : ValType) : list use :=
  match t with VRef i | VRefNull i => [UHeapType i] | _ => [] end.

Definition super_uses (superType : option Z) : list use :=
  match superType with Some s => [UType s] | None => [] end.

Fixpoint typedef_uses (t : TypeDef) : list use :=
  match t with
  | TFunc params results => (params ++ results) ≫= valtype_uses
  | TStruct fields s _ =>
      match s with Some s => if 0 <=? s then [UType s] else [] | None => [] end ++
      (fields ≫= λ f, valtype_uses (fd_type f))
  | TArray element _ => valtype_uses element
  | TRec types => types ≫= typedef_uses
  | TSub s _ type => super_uses s ++ typedef_uses type
  end.

Definition blocktype_uses (bt : BlockType) : list use :=
  match bt with BEmpty => [] | BVal t => valtype_uses t | BType t => [USignature t] end.

Definition import_uses (i : Import_) : list use :=
  match im_desc i with
  | IFunc t | ITag t => [USignature t]
  | IGlobal t _ => valtype_uses t
  | ITable _ _ _ | IMemory _ _ => []
  end.

Definition export_uses (x : WasmExport) : list use :=
  match ex_kind x with
  | XFunc => [UFunc (ex_index x)]
  | XGlobal => [UGlobal (ex_index x)]
  | XTable => [UTable (ex_index x)]
  | XTag => [UTag (ex_index x)]
  | XMemory => [UMemory (ex_index x)]
  end.

Definition catch_uses (c : TryTableCatch) : list use :=
  match tc_kind c, tc_tagIdx c with
  | (Catch | CatchRef), Some tag => [UTag tag]
  | _, _ => []
  end.

Fixpoint instr_uses (i : Instr) : list use :=
  match i with
  | LocalGet i | LocalSet i | LocalTee i => [ULocal i]
  | GlobalGet g | GlobalSet g => [UGlobal g]
  | Block bt body | Loop bt body => blocktype_uses bt ++ (body ≫= instr_uses)
  | If bt th el =>
      blocktype_uses bt ++ (th ≫= instr_uses) ++ match el with Some l => l ≫= instr_uses | None => [] end
  | Call f | ReturnCall f | RefFunc f => [UFunc f]
  | CallIndirect t table => [USignature t; UTable table]
  | StructNew t | ArrayNew t | ArrayNewFixed t _ | ArrayNewDefault t | ArrayGet t | ArrayGetS t | ArrayGetU t
  | ArraySet t | ArrayFill t => [UType t]
  | ArrayCopy dst src => [UType dst; UType src]
  | StructGet t f | StructSet t f => [UField t f]
  | RefNull t | RefCast t | RefCastNull t | RefTest t => [UHeapType t]
  | CallRef t | ReturnCallRef t => [USignature t]
  | Throw_ tag => [UTag tag]
  | TryTable bt body cs => blocktype_uses bt ++ (cs ≫= catch_uses) ++ (body ≫= instr_uses)
  | Try bt body cs ca =>
      blocktype_uses bt ++ (body ≫= instr_uses) ++ (cs ≫= λ c, UTag c.1 :: (c.2 ≫= instr_uses)) ++
      match ca with Some l => l ≫= instr_uses | None => [] end
  | _ => []
  end.

Definition global_uses (g : GlobalDef) : list use := valtype_uses (gd_type g) ++ (gd_init g ≫= instr_uses).

End uses.

(** A reference resolves in a context; a heap type may also be the code of an abstract
    one, and a local is unchecked where the frame is unknown. *)
Definition use_ok (c : EmitValidationCtx) (layout : option ModuleLayout) (u : use) : Prop :=
  match u with
  | UFunc h => ∃ f, fIdx layout h = Ok f ∧ 0 ≤ f < numFuncs c
  | UGlobal h => 0 ≤ gIdx layout h < numGlobals c
  | UType t => 0 ≤ t < numTypes c
  | USignature t => 0 ≤ t < numTypes c ∧ ∃ ps rs, resolveTypeDefAt c t = Some (TFunc ps rs)
  | UHeapType t => -64 ≤ t < numTypes c ∧ t ≠ -1
  | UTag t => 0 ≤ t < numTags c
  | UTable t => 0 ≤ t < numTables c
  | UMemory m => 0 ≤ m < numMemories c
  | ULocal i => 0 ≤ maxLocals c → 0 ≤ i < maxLocals c
  | UField t f => 0 ≤ t < numTypes c ∧
      ∀ fs s fin, resolveTypeDefAt c t = Some (TStruct fs s fin) → 0 ≤ f < Z.of_nat (length fs)
  end.

(** * The checks decide *)

Section checks.
Context (c : EmitValidationCtx).

Lemma vIdx_ok space v max : vIdx c space v max = Ok tt ↔ 0 ≤ v < max.
Proof. unfold vIdx. bool_cases; split; try done; lia. Qed.

Lemma vHeapType_ok t : vHeapType c t = Ok tt ↔ -64 ≤ t < numTypes c ∧ t ≠ -1.
Proof. unfold vHeapType. bool_cases; split; try done; lia. Qed.

Lemma bind_ok_unit (r k : result ()) : (_ ← r; k) = Ok tt ↔ r = Ok tt ∧ k = Ok tt.
Proof. destruct r as [[]|]; csimpl; naive_solver. Qed.

Lemma vSignature_ok t :
  vSignature c t = Ok tt ↔ 0 ≤ t < numTypes c ∧ ∃ ps rs, resolveTypeDefAt c t = Some (TFunc ps rs).
Proof.
  unfold vSignature. rewrite bind_ok_unit, vIdx_ok. apply and_iff_compat_l.
  destruct (resolveTypeDefAt c t) as [[]|]; naive_solver.
Qed.

Lemma vStructField_ok t f op :
  vStructField c t f op = Ok tt ↔ 0 ≤ t < numTypes c ∧
    ∀ fs s fin, resolveTypeDefAt c t = Some (TStruct fs s fin) → 0 ≤ f < Z.of_nat (length fs).
Proof.
  unfold vStructField. rewrite bind_ok_unit, vIdx_ok. apply and_iff_compat_l.
  destruct (resolveTypeDefAt c t) as [[|fields ? ?| | |]|]; try naive_solver.
  transitivity (0 ≤ f < Z.of_nat (length fields)); [bool_cases; split; try done; lia|].
  split; [by intros H ? ? ? [= <- <- <-]|]. intros H. by eapply H.
Qed.

Context `{TextCodec} (layout : option ModuleLayout).
Abbreviation ok := (use_ok c layout).

(** An armed check in front of a write. *)
Lemma guards_armed P f k k' Q :
  (f c = Ok tt ↔ P) → guards Q k k' → guards (P ∧ Q) (if_armed (Some c) f ⟫ k) (if_armed None f ⟫ k').
Proof.
  intros Hf Hk. assert (guards True (check (Ok tt) ⟫ k') k') as Hn by (intros e e'; unfold then_, check; csimpl; tauto).
  intros e e'. rewrite (guards_check P (f c) k k' Q Hf Hk e e'). unfold if_armed. rewrite (Hn e e'). tauto.
Qed.

Lemma guards_armed_end P f :
  (f c = Ok tt ↔ P) → guards P (if_armed (Some c) f) (if_armed None f).
Proof.
  intros Hf e e'. unfold if_armed, check. rewrite <- Hf. destruct (f c) as [[]|]; csimpl; naive_solver.
Qed.

Lemma Forall_bind_fmap {A B} (P : B → Prop) (f : A → list B) l :
  Forall (λ x, Forall P (f x)) l ↔ Forall P (l ≫= f).
Proof. induction l as [|x l IH]; [by rewrite !Forall_nil|]. by rewrite bind_cons, Forall_app, Forall_cons, IH. Qed.

Lemma vector_guards {A} (l : list A) m m' us :
  (∀ x, guards (Forall ok (us x)) (m x) (m' x)) → guards (Forall ok (l ≫= us)) (vector l m) (vector l m').
Proof. intros Hm. eapply guards_iff; [apply Forall_bind_fmap|]. by apply guards_vector. Qed.

Lemma each_guards {A} (l : list A) m m' us :
  Forall (λ x, guards (Forall ok (us x)) (m x) (m' x)) l → guards (Forall ok (l ≫= us)) (each m l) (each m' l).
Proof. intros Hm. eapply guards_iff; [apply Forall_bind_fmap|]. by apply guards_each. Qed.

Lemma for_each_guards {A} (l : list A) m m' us :
  (∀ x, guards (Forall ok (us x)) (m x) (m' x)) → guards (Forall ok (l ≫= us)) (for_each l m) (for_each l m').
Proof. intros Hm. eapply guards_iff; [apply Forall_bind_fmap|]. by apply guards_for_each. Qed.

End checks.

(** One statement of an encoder after the other; what is left relates the conditions. *)
Ltac guard_leaf := fail.
Ltac guard_check :=
  first [ apply vIdx_ok | apply vHeapType_ok | apply vSignature_ok | apply vStructField_ok
        | rewrite bind_ok_unit, ?vIdx_ok, ?vSignature_ok; reflexivity ].
Ltac guard_step :=
  lazymatch goal with
  | |- guards _ ?m ?m => apply guards_refl
  | |- guards _ (if_armed _ _ ⟫ _) _ => apply guards_armed; [try guard_check|]
  | |- guards _ (_ ⟫ _) (_ ⟫ _) => apply guards_then
  | |- guards _ (vector _ _) _ => first [eassumption|eapply vector_guards; intros ?; try guard_leaf]
  | |- guards _ (for_each _ _) _ => first [eassumption|eapply for_each_guards; intros ?; try guard_leaf]
  | |- guards _ (each _ _) _ => first [eassumption|eapply each_guards; try eassumption]
  | |- guards _ _ _ => guard_leaf
  end.
Ltac guard_by :=
  eapply guards_iff; [|repeat guard_step]; simpl; rewrite ?bind_app, ?Forall_app, ?Forall_cons, ?Forall_nil; simpl.

Section encoders.
Context (c : EmitValidationCtx) `{TextCodec} (layout : option ModuleLayout).
Abbreviation ok := (use_ok c layout).

Lemma encodeValType_guards t :
  guards (Forall ok (valtype_uses t)) (encodeValType (Some c) t) (encodeValType None t).
Proof. destruct t; cbn [encodeValType]; guard_by; tauto. Qed.
Ltac guard_leaf ::= apply encodeValType_guards.

Lemma encodeStorageType_guards t :
  guards (Forall ok (valtype_uses t)) (encodeStorageType (Some c) t) (encodeStorageType None t).
Proof. destruct t; try apply encodeValType_guards; cbn [encodeStorageType]; guard_by; tauto. Qed.
Ltac guard_leaf ::= first [apply encodeValType_guards|apply encodeStorageType_guards].

Lemma encodeBlockType_guards bt :
  guards (Forall ok (blocktype_uses bt)) (encodeBlockType (Some c) bt) (encodeBlockType None bt).
Proof.
  destruct bt as [|t|t]; cbn [encodeBlockType]; [guard_by; tauto|apply encodeValType_guards|]. simpl.
  eapply guards_iff; [|apply guards_armed; [rewrite bind_ok_unit, vIdx_ok, vSignature_ok; done|apply guards_refl]].
  rewrite Forall_singleton. simpl. tauto.
Qed.

Lemma encodeFieldDef_guards f :
  guards (Forall ok (valtype_uses (fd_type f))) (encodeFieldDef (Some c) f) (encodeFieldDef None f).
Proof. unfold encodeFieldDef. guard_by. tauto. Qed.

Ltac guard_leaf ::=
  first [ apply encodeValType_guards | apply encodeStorageType_guards | apply encodeFieldDef_guards
        | apply encodeBlockType_guards ].

Lemma encodeTypeDef_guards t :
  guards (Forall ok (typedef_uses t)) (encodeTypeDef (Some c) t) (encodeTypeDef None t).
Proof.
  revert t. fix IH 1. intros [ps rs|fs s fin|el m|types|s fin type]; cbn [encodeTypeDef typedef_uses].
  - guard_by. tauto.
  - destruct s as [s|]; [destruct (0 <=? s)|]; guard_by; tauto.
  - guard_by. tauto.
  - guard_by; [|instantiate (1 := typedef_uses); induction types as [|t types IHt]; constructor; [apply IH|apply IHt]].
    tauto.
  - specialize (IH type). destruct s as [s|]; [|destruct fin]; guard_by; try apply IH; tauto.
Qed.

Lemma vLocal_ok op i :
  (if 0 <=? maxLocals c then vIdx c (js "local (" ++ js op ++ js ")") i (maxLocals c) else Ok tt) = Ok tt ↔
  (0 ≤ maxLocals c → 0 ≤ i < maxLocals c).
Proof. destruct (Z.leb_spec 0 (maxLocals c)); [rewrite vIdx_ok; tauto|]. split; [lia|done]. Qed.

Lemma encodeImport_guards i :
  guards (Forall ok (import_uses i)) (encodeImport (Some c) i) (encodeImport None i).
Proof. unfold encodeImport, import_uses. destruct (im_desc i); guard_by; tauto. Qed.

Lemma export_check_ok x r : export_index layout x = Ok r →
  (export_check (ex_kind x) r c = Ok tt ↔ Forall ok (export_uses x)).
Proof.
  unfold export_index, export_uses. intros Hr.
  destruct (ex_kind x); simpl in *; rewrite vIdx_ok, Forall_singleton; simpl; [|naive_solver..].
  rewrite Hr. naive_solver.
Qed.

Lemma encodeExport_guards x :
  guards (Forall ok (export_uses x)) (encodeExport (Some c) layout x) (encodeExport None layout x).
Proof.
  unfold encodeExport. destruct (export_index layout x) as [r|f] eqn:Er.
  - eapply guards_iff; [|apply (guards_with_value (λ r, export_check (ex_kind x) r c = Ok tt ∧ True)); intros r';
      apply guards_armed; [done|apply guards_refl]].
    rewrite <- (export_check_ok x r Er). naive_solver.
  - intros e e'. unfold with_value. csimpl. split; [done|]. by intros [_ ?].
Qed.

Lemma encode_locals_guards l :
  guards (Forall ok (groupLocals l ≫= λ g, valtype_uses (lg_type g))) (encode_locals (Some c) l) (encode_locals None l).
Proof.
  unfold encode_locals. apply vector_guards. intros g. guard_by. tauto.
Qed.

Lemma encode_local_guards op code i :
  guards (Forall ok [ULocal i]) (encode_local (Some c) op code i) (encode_local None op code i).
Proof. unfold encode_local. guard_by; [|apply vLocal_ok]. tauto. Qed.

Lemma encode_call_guards code f :
  guards (Forall ok [UFunc f]) (encode_call (Some c) layout code f) (encode_call None layout code f).
Proof.
  unfold encode_call. eapply guards_iff; [|apply guards_with_value; intros t; apply guards_armed; [apply vIdx_ok|apply guards_refl]].
  rewrite Forall_singleton. simpl. naive_solver.
Qed.

Lemma encode_catch_guards cl :
  guards (Forall ok (catch_uses cl)) (encode_catch (Some c) cl) (encode_catch None cl).
Proof.
  unfold encode_catch, catch_uses. destruct (tc_kind cl), (tc_tagIdx cl); guard_by; tauto.
Qed.

Ltac guard_leaf ::= first [ apply encodeBlockType_guards | apply encode_catch_guards | apply encodeValType_guards | eassumption ].

Lemma else_part_guards bt el enc enc' :
  (∀ l, el = Some l → guards (Forall ok (l ≫= instr_uses)) (enc l) (enc' l)) →
  guards (Forall ok (match el with Some l => l ≫= instr_uses | None => [] end)) (else_part bt el enc) (else_part bt el enc').
Proof.
  intros He. destruct el as [[|i l]|]; simpl.
  - eapply guards_iff; [|destruct bt; apply guards_refl]. rewrite Forall_nil. tauto.
  - specialize (He _ eq_refl). eapply guards_iff; [|apply guards_then; [apply guards_refl|exact He]]. simpl. tauto.
  - eapply guards_iff; [|destruct bt; apply guards_refl]. rewrite Forall_nil. tauto.
Qed.

(** The armed encoder is the unarmed one behind the check of every reference. *)
Lemma encodeInstr_guards i :
  guards (Forall ok (instr_uses i)) (encodeInstr (Some c) layout i) (encodeInstr None layout i).
Proof.
  revert i. apply instr_tree_ind.
  - intros i. destruct i; try done; cbn [encodeInstr instr_uses];
      try apply encode_local_guards; try apply encode_call_guards; try (eapply guards_iff; [|apply guards_refl]; by rewrite Forall_nil).
    all: unfold encode_global, encode_call_indirect, encode_gc, encode_struct_field, encode_array_copy,
      encode_ref_null, encode_heap_type, encode_call_ref, encode_tag; guard_by; tauto.
  - intros bt body IH. cbn [encodeInstr instr_uses]. guard_by. tauto.
  - intros bt body IH. cbn [encodeInstr instr_uses]. guard_by. tauto.
  - intros bt th el IHt IHe. cbn [encodeInstr instr_uses].
    pose proof (else_part_guards bt el _ _ (λ l Hl, each_guards c layout l _ _ _ (IHe l Hl))). guard_by. tauto.
  - intros bt body cs ca IHb IHc IHa. cbn [encodeInstr instr_uses].
    assert (Forall (λ cl : Z * list Instr, guards (Forall ok (UTag cl.1 :: (cl.2 ≫= instr_uses)))
      (encode_tag (Some c) (OP "catch") cl.1 ⟫ each (encodeInstr (Some c) layout) cl.2)
      (encode_tag None (OP "catch") cl.1 ⟫ each (encodeInstr None layout) cl.2)) cs) as Hcs.
    { eapply Forall_impl; [exact IHc|]. intros cl Hcl. cbv beta in Hcl. unfold encode_tag. guard_by. tauto. }
    apply (each_guards c layout cs _ _ (λ cl, UTag cl.1 :: (cl.2 ≫= instr_uses))) in Hcs.
    destruct ca as [l|]; [specialize (IHa l eq_refl)|]; guard_by; tauto.
  - intros bt body cs IH. cbn [encodeInstr instr_uses]. guard_by. tauto.
Qed.

Lemma encodeInstrs_guards l :
  guards (Forall ok (l ≫= instr_uses)) (encodeInstrs (Some c) layout l) (encodeInstrs None layout l).
Proof. apply each_guards, Forall_true, encodeInstr_guards. Qed.

Lemma encodeGlobal_guards g :
  guards (Forall ok (global_uses g)) (encodeGlobal (Some c) layout g) (encodeGlobal None layout g).
Proof.
  unfold encodeGlobal, global_uses. pose proof (encodeInstrs_guards (gd_init g)). guard_by. tauto.
Qed.
End encoders.

Ltac guard_leaf ::=
  first [ eassumption | apply encodeValType_guards | apply encodeBlockType_guards | apply encodeTypeDef_guards ].
