(* ===== verification/BinaryWriter.v ===== *)
(** The emission of a whole module: emitBinary of src/emit/binary.ts.

    [emitBinary skip md] is the run without a source map; [skip] is the environment
    variable that leaves the index checks out.  The dumps that other variables switch on
    write no byte of the module and are not modelled. *)

From S2P Require Import Prelude Encoder Emit WasmModel WasmOps TypeLayout WasmEncode WasmCheck.
Import WasmEncoder.

(** * Arming the checks *)

Definition count_imports_of (f : ImportDesc → bool) (md : WasmModule) : Z :=
  count_if (λ i, f (im_desc i)) (m_imports md).

Definition size {A} (l : list A) : Z := Z.of_nat (length l).

Definition makeValidationCtx (md : WasmModule) : result EmitValidationCtx :=
  let imported f := count_imports_of f md in
  table ← indexPhysicalTypes (m_types md);
  let flat := pe_definition <$> pt_entries table in
  Ok (mkValCtx
    (imported (λ d, match d with IFunc _ => true | _ => false end) + size (m_functions md))
    (size flat)
    (imported (λ d, match d with IGlobal _ _ => true | _ => false end) + size (m_globals md))
    (imported (λ d, match d with ITag _ => true | _ => false end) + size (m_tags md))
    (imported (λ d, match d with ITable _ _ _ => true | _ => false end) + size (m_tables md))
    (imported (λ d, match d with IMemory _ _ => true | _ => false end) + size (m_memories md))
    flat (js "module") (-1)).

Definition set_maxLocals (n : Z) (c : EmitValidationCtx) : EmitValidationCtx :=
  mkValCtx (numFuncs c) (numTypes c) (numGlobals c) (numTags c) (numTables c) (numMemories c) (flatTypes c) (where_ c) n.

(** * The sections *)

Section sections.
Context `{TextCodec} (valCtx : option EmitValidationCtx) (layout : option ModuleLayout) (md : WasmModule).

(** [if (valCtx) valCtx.where = w] for what follows, in a place without locals. *)
Definition at_ (w : jsstr) : option EmitValidationCtx := (λ c, set_maxLocals (-1) (set_where w c)) <$> valCtx.

Definition or_question (name : jsstr) : jsstr := match name with [] => js "?" | _ => name end.
Definition named (before name after : jsstr) : jsstr := before ++ js "'" ++ name ++ js "'" ++ after.

(** A section that is left out when it has no items. *)
Definition items_section {A} (id : Z) (l : list A) (item : A → emitter) : emitter :=
  match l with [] => Ok | _ => section id (vector l item) end.

Definition emit_group (table : PhysicalTypeTable) (g : TypeGroup) : emitter :=
  (if tg_recursive g then byte (TYPE "rec") ⟫ u32 (tg_end g - tg_start g + 1) else Ok) ⟫
  for_n (Z.to_nat (tg_end g - tg_start g + 1)) (tg_start g) (λ i,
    match js_at (pt_entries table) i with
    | Some entry => encodeTypeDef (at_ (js "type definition #" ++ js_num i)) (pe_definition entry)
    | None => fails (Throw ETypeError (js "Cannot read properties of undefined"))
    end).

Definition forced_groups : list (Z * Z) := match m_canonicalRuntimeRecGroup md with Some g => [g] | None => [] end.

Definition emit_types : emitter :=
  match m_types md with
  | [] => Ok
  | types =>
      with_value (indexPhysicalTypes types) (λ table,
      with_value (planPhysicalTypeSection table forced_groups) (λ groups,
        section (SECTION "type") (vector groups (emit_group table))))
  end.

Definition emit_import (i : Import_) : emitter :=
  encodeImport (at_ (named (js "import ") (im_module i ++ js "." ++ im_name i) [])) i.

Definition emit_signature (f : WasmFunction) : emitter :=
  if_armed (at_ (named (js "function ") (or_question (wf_name f)) (js " signature"))) (λ c, vSignature c (wf_typeIdx f)) ⟫
  u32 (wf_typeIdx f).

Definition emit_table (t : Table) : emitter :=
  byte (element_type_byte (tb_elementType t)) ⟫ encode_limits (tb_min t) (tb_max t).

Definition emit_memory (m : Memory_) : emitter := encode_limits (mm_min m) (mm_max m).

Definition emit_tag (t : TagDef) : emitter :=
  if_armed (at_ (named (js "tag ") (td_name t) [])) (λ c, vSignature c (td_typeIdx t)) ⟫ byte 0x00 ⟫ u32 (td_typeIdx t).

Definition emit_global (g : GlobalDef) : emitter :=
  encodeGlobal (at_ (named (js "global ") (or_question (gd_name g)) (js " init"))) layout g.

Definition emit_export (x : WasmExport) : emitter :=
  encodeExport (at_ (named (js "export ") (ex_name x) [])) layout x.

Definition emit_start : emitter :=
  match m_startFuncIdx md with
  | None => Ok
  | Some h =>
      section (SECTION "start") (with_value (fIdx layout h) (λ start,
        if_armed (at_ (js "start function")) (λ c, vIdx c (js "function") start (numFuncs c)) ⟫ u32 start))
  end.

(** A function of an element segment, by its resolved index. *)
Definition emit_func_index (w : jsstr) (resolved : Z) : emitter :=
  if_armed (at_ w) (λ c, vIdx c (js "function") resolved (numFuncs c)) ⟫ u32 resolved.

Definition emit_element (elem : Element) : emitter :=
  let explicitTable := negb (em_tableIdx elem =? 0) in
  byte (if explicitTable then 0x02 else 0x00) ⟫
  (if explicitTable
   then if_armed (at_ (js "element-segment table")) (λ c, vIdx c (js "table") (em_tableIdx elem) (numTables c)) ⟫
        u32 (em_tableIdx elem)
   else Ok) ⟫
  encodeInstrs (at_ (js "element-segment offset")) layout (em_offset elem) ⟫ byte (OP "end") ⟫
  (if explicitTable then byte 0x00 else Ok) ⟫
  vector (em_funcIndices elem) (λ h,
    with_value (fIdx layout h) (emit_func_index (js "element-segment function list"))).

(** [refs.map(fIdx).sort((a, b) => a - b)] *)
Fixpoint resolve_all (hs : list Z) : result (list Z) :=
  match hs with
  | [] => Ok []
  | h :: hs' => f ← fIdx layout h; fs ← resolve_all hs'; Ok (f :: fs)
  end.

Definition emit_declared_refs (refs : list Z) : emitter :=
  byte 0x03 ⟫ byte 0x00 ⟫ u32 (size refs) ⟫
  with_value (resolve_all refs) (λ resolved, for_each (stable_sort Z.leb resolved) (emit_func_index (js "declared func ref"))).

Definition emit_elements : emitter :=
  match m_elements md, m_declaredFuncRefs md with
  | [], [] => Ok
  | elems, refs =>
      section (SECTION "element")
        (u32 (size elems + match refs with [] => 0 | _ => 1 end) ⟫ for_each elems emit_element ⟫
         match refs with [] => Ok | _ => emit_declared_refs refs end)
  end.

Definition emit_data_count : emitter :=
  if existsb ds_passive (m_dataSegments md)
  then section (SECTION "dataCount") (u32 (size (m_dataSegments md))) else Ok.

(** [enc.u32(content.length); enc.bytes(content)] *)
Definition sized (content : emitter) : emitter := λ e,
  sub ← content new;
  let data := finish sub in
  (u32 (size data) ⟫ bytes data) e.

Definition encodeFunction (ctx : option EmitValidationCtx) (f : WasmFunction) : emitter :=
  sized (encode_locals ctx (wf_locals f) ⟫ encodeInstrs ctx layout (wf_body f) ⟫ byte (OP "end")).

(** The label and the frame size of a function's checks. *)
Definition function_where (position : Z) (f : WasmFunction) : jsstr :=
  let declared := size (wf_locals f) in
  let sharing := count_if (λ g, bool_decide (wf_name g = wf_name f)) (m_functions md) in
  named (js "function ") (or_question (wf_name f))
    (js " (position " ++ js_num position ++ js ", " ++ js_num declared
     ++ js (if declared =? 1 then " declared local" else " declared locals")
     ++ (if 1 <? sharing then js ", NAME SHARED BY " ++ js_num sharing ++ js " DEFINED FUNCTIONS" else [])
     ++ js ")").

Definition frame_size (c : EmitValidationCtx) (f : WasmFunction) : Z :=
  let params := resolveParamCount c (wf_typeIdx f) in
  if 0 <=? params then params + size (wf_locals f) else -1.

Definition emit_function (p : Z * WasmFunction) : emitter :=
  encodeFunction ((λ c, set_maxLocals (frame_size c p.2) (set_where (function_where p.1 p.2) c)) <$> valCtx) p.2.

(** [array.entries()] *)
Definition entries_of {A} (l : list A) : list (Z * A) := zip (seqZ 0 (size l)) l.

Definition emit_code : emitter := items_section (SECTION "code") (entries_of (m_functions md)) emit_function.

Definition emit_data (seg : DataSegment) : emitter :=
  (if ds_passive seg then byte 0x01
   else byte 0x00 ⟫ byte (OP "i32_const") ⟫ i32 (ds_offset seg) ⟫ byte (OP "end")) ⟫
  u32 (size (ds_bytes seg)) ⟫ bytes (ds_bytes seg).

(** [name.replace(/_import$/, '')] *)
Definition strip_import (name : jsstr) : jsstr :=
  if decide (js "_import" `suffix_of` name) then take (length name - 7) name else name.

Definition name_entries : list (Z * jsstr) :=
  let imported := omap (λ i, if is_func_import i then Some (strip_import (im_name i)) else None) (m_imports md) in
  entries_of imported ++
  omap (λ p, match wf_name p.2 with [] => None | nm => Some (size imported + p.1, nm) end) (entries_of (m_functions md)).

Definition emit_names : emitter :=
  match name_entries with
  | [] => Ok
  | entries =>
      section (SECTION "custom")
        (name (js "name") ⟫ byte 1 ⟫ sized (vector entries (λ p, u32 p.1 ⟫ name p.2)))
  end.

(** * The module *)

Definition emit_sections : emitter :=
  emit_types ⟫
  items_section (SECTION "import") (m_imports md) emit_import ⟫
  items_section (SECTION "function") (m_functions md) emit_signature ⟫
  items_section (SECTION "table") (m_tables md) emit_table ⟫
  items_section (SECTION "memory") (m_memories md) emit_memory ⟫
  items_section (SECTION "tag") (m_tags md) emit_tag ⟫
  items_section (SECTION "global") (m_globals md) emit_global ⟫
  items_section (SECTION "export") (m_exports md) emit_export ⟫
  emit_start ⟫ emit_elements ⟫ emit_data_count ⟫ emit_code ⟫
  items_section (SECTION "data") (m_dataSegments md) emit_data ⟫
  emit_names.

Definition emit_module : emitter :=
  bytes_array [0x00; 0x61; 0x73; 0x6d] ⟫ bytes_array [0x01; 0x00; 0x00; 0x00] ⟫ emit_sections.
End sections.

Definition emitBinary `{TextCodec} (skip : bool) (md : WasmModule) : result (list Z) :=
  valCtx ← (if skip then Ok None else Some <$> makeValidationCtx md);
  finish <$> emit_module valCtx (Some (resolveLayout md)) md new.

(** * What a module refers to *)

Definition element_uses (e : Element) : list use :=
  (if negb (em_tableIdx e =? 0) then [UTable (em_tableIdx e)] else []) ++
  (em_offset e ≫= instr_uses) ++ (UFunc <$> em_funcIndices e).

Definition function_uses (f : WasmFunction) : list use :=
  (wf_locals f ≫= valtype_uses) ++ (wf_body f ≫= instr_uses).

(** Every reference of the module resolves; the locals of a body are those of its
    function, the parameters of its signature included. *)
Record well_referenced (c : EmitValidationCtx) (layout : option ModuleLayout) (md : WasmModule) : Prop := {
  ref_types : Forall (use_ok (set_maxLocals (-1) c) layout) (flatTypes c ≫= typedef_uses);
  ref_imports : Forall (use_ok (set_maxLocals (-1) c) layout) (m_imports md ≫= import_uses);
  ref_signatures : Forall (use_ok (set_maxLocals (-1) c) layout)
    (m_functions md ≫= λ f, [USignature (wf_typeIdx f)]);
  ref_tags : Forall (use_ok (set_maxLocals (-1) c) layout) (m_tags md ≫= λ t, [USignature (td_typeIdx t)]);
  ref_globals : Forall (use_ok (set_maxLocals (-1) c) layout) (m_globals md ≫= global_uses);
  ref_exports : Forall (use_ok (set_maxLocals (-1) c) layout) (m_exports md ≫= export_uses);
  ref_start : ∀ h, m_startFuncIdx md = Some h → use_ok (set_maxLocals (-1) c) layout (UFunc h);
  ref_elements : Forall (use_ok (set_maxLocals (-1) c) layout) (m_elements md ≫= element_uses);
  ref_declared : Forall (use_ok (set_maxLocals (-1) c) layout) (UFunc <$> m_declaredFuncRefs md);
  ref_bodies : Forall (λ f, Forall (use_ok (set_maxLocals (frame_size c f) c) layout) (function_uses f)) (m_functions md);
}.

(** * The armed sections *)

Section armed.
Context `{TextCodec} (c : EmitValidationCtx) (layout : option ModuleLayout) (md : WasmModule).
Abbreviation ok := (use_ok (set_maxLocals (-1) c) layout).

(** The label of a check is not part of what it checks. *)
Lemma use_ok_where n w : use_ok (set_maxLocals n (set_where w c)) layout = use_ok (set_maxLocals n c) layout.
Proof. done. Qed.

Lemma guards_at us (m : option EmitValidationCtx → emitter) w :
  (∀ c', guards (Forall (use_ok c' layout) us) (m (Some c')) (m None)) →
  guards (Forall ok us) (m (at_ (Some c) w)) (m (at_ None w)).
Proof. intros Hm. exact (Hm (set_maxLocals (-1) (set_where w c))). Qed.

Lemma guards_for_n P n a m m' :
  (∀ i, a ≤ i < a + Z.of_nat n → guards (P i) (m i) (m' i)) →
  guards (∀ i, a ≤ i < a + Z.of_nat n → P i) (for_n n a m) (for_n n a m').
Proof.
  revert a. induction n as [|n IH]; intros a Hm.
  - eapply guards_iff; [|apply guards_refl]. split; [lia|done].
  - eapply guards_iff; [|apply (guards_then (P a) (∀ i, a + 1 ≤ i < a + 1 + Z.of_nat n → P i) (m a) (m' a)
      (for_n n (a + 1) m) (for_n n (a + 1) m')); [apply Hm; lia|apply IH; intros; apply Hm; lia]].
    split; [|intros Hp; split; [apply Hp; lia|intros; apply Hp; lia]].
    intros [Ha Hp] i Hi. destruct (decide (i = a)) as [->|]; [done|]. apply Hp. lia.
Qed.

Lemma guards_items {A} id (l : list A) m m' us :
  (∀ x, guards (Forall ok (us x)) (m x) (m' x)) →
  guards (Forall ok (l ≫= us)) (items_section id l m) (items_section id l m').
Proof.
  intros Hm. unfold items_section. destruct l as [|x l].
  - eapply guards_iff; [|apply guards_refl]. by rewrite Forall_nil.
  - apply guards_section. by apply vector_guards.
Qed.

Lemma emit_group_guards table g :
  guards (∀ i e, tg_start g ≤ i ≤ tg_end g → js_at (pt_entries table) i = Some e → Forall ok (typedef_uses (pe_definition e)))
    (emit_group (Some c) table g) (emit_group None table g).
Proof.
  unfold emit_group. eapply guards_iff; [|apply guards_then; [apply guards_refl|apply (guards_for_n
    (λ i, ∀ e, js_at (pt_entries table) i = Some e → Forall ok (typedef_uses (pe_definition e))))]].
  - split; [intros [_ Hp] i e Hi; apply Hp; lia|]. intros Hp. split; [done|]. intros i Hi e. apply Hp. lia.
  - intros i _. destruct (js_at (pt_entries table) i) as [e|].
    + eapply guards_iff; [|apply encodeTypeDef_guards]. split; [by intros ? ? [= <-]|]. intros Hp. by apply Hp.
    + eapply guards_iff; [|apply guards_refl]. naive_solver.
Qed.

Lemma emit_types_guards table :
  indexPhysicalTypes (m_types md) = Ok table → flatTypes c = pe_definition <$> pt_entries table →
  guards (Forall ok (flatTypes c ≫= typedef_uses)) (emit_types (Some c) md) (emit_types None md).
Proof.
  intros Ht Hflat. destruct (yields_ok _ _ _ (indexPhysicalTypes_yields _) Ht) as [Hok Hd].
  unfold emit_types. destruct (m_types md) as [|t ts] eqn:Em.
  { eapply guards_iff; [|apply guards_refl]. rewrite Hflat, Hd. by rewrite Forall_nil. }
  rewrite Ht. intros e e'. unfold with_value at 1 3. csimpl.
  pose proof (plan_sound_complete table (forced_groups md) Hok) as Hplan.
  destruct (planPhysicalTypeSection table (forced_groups md)) as [groups|f]; [|unfold with_value; csimpl; naive_solver].
  unfold with_value. csimpl. destruct Hplan as (_ & [Htiles _ _ _] & _).
  assert (guards (Forall ok (flatTypes c ≫= typedef_uses))
    (section (SECTION "type") (vector groups (emit_group (Some c) table)))
    (section (SECTION "type") (vector groups (emit_group None table)))) as Hg; [|apply Hg].
  apply guards_section. eapply guards_iff; [|apply guards_vector; intros g _; apply emit_group_guards].
  rewrite Hflat, <- Forall_bind_fmap, !Forall_forall. setoid_rewrite list_elem_of_fmap. split.
  - intros Hp d (e0 & -> & He0). apply list_elem_of_lookup in He0 as [i Hi].
    destruct (tiles_cover _ _ _ (Z.of_nat i) Htiles) as (s & Hs & Hin); [apply lookup_lt_Some in Hi; lia|].
    apply list_elem_of_fmap in Hs as (g & -> & Hg). apply (Hp g Hg (Z.of_nat i)); [done|]. by rewrite js_at_nat.
  - intros Hp g Hg i e0 Hi He0. apply Hp. exists e0. split; [done|].
    apply js_at_Some in He0 as [_ He0]. by apply list_elem_of_lookup_2 in He0.
Qed.

Lemma emit_func_index_guards w t :
  guards (0 ≤ t < numFuncs c) (emit_func_index (Some c) w t) (emit_func_index None w t).
Proof. unfold emit_func_index. guard_by. tauto. Qed.

(** A function handle that is resolved and then written. *)
Lemma handle_guards h k k' :
  (∀ t, guards (0 ≤ t < numFuncs c) (k t) (k' t)) →
  guards (Forall ok [UFunc h]) (with_value (fIdx layout h) k) (with_value (fIdx layout h) k').
Proof.
  intros Hk. eapply guards_iff; [|apply guards_with_value, Hk]. rewrite Forall_singleton. simpl. naive_solver.
Qed.

Lemma emit_element_guards e :
  guards (Forall ok (element_uses e)) (emit_element (Some c) layout e) (emit_element None layout e).
Proof.
  unfold emit_element, element_uses.
  set (w1 := js "element-segment offset"). set (w2 := js "element-segment function list").
  pose proof (encodeInstrs_guards (set_maxLocals (-1) (set_where w1 c)) layout (em_offset e)) as Ho.
  assert (guards (Forall ok (em_funcIndices e ≫= λ h, [UFunc h]))
    (vector (em_funcIndices e) (λ h, with_value (fIdx layout h) (emit_func_index (Some c) w2)))
    (vector (em_funcIndices e) (λ h, with_value (fIdx layout h) (emit_func_index None w2)))) as Hf.
  { apply (vector_guards (set_maxLocals (-1) c) layout). intros h. apply handle_guards, emit_func_index_guards. }
  assert (em_funcIndices e ≫= (λ h, [UFunc h]) = UFunc <$> em_funcIndices e) as Hb.
  { generalize (em_funcIndices e). induction l as [|h l IH]; [done|]. by rewrite bind_cons, IH. }
  rewrite Hb in Hf. unfold at_; csimpl. destruct (negb (em_tableIdx e =? 0)).
  - eapply guards_iff; [|repeat guard_step].
    rewrite use_ok_where, Forall_app, Forall_app, Forall_singleton. simpl. tauto.
  - eapply guards_iff; [|repeat guard_step].
    rewrite use_ok_where, Forall_app, Forall_app, Forall_nil. tauto.
Qed.

Lemma emit_declared_refs_guards refs :
  guards (Forall ok (UFunc <$> refs)) (emit_declared_refs (Some c) layout refs) (emit_declared_refs None layout refs).
Proof.
  unfold emit_declared_refs. set (w := js "declared func ref").
  eapply guards_iff; [|do 3 (apply guards_then; [apply guards_refl|]); apply guards_with_value; intros fs;
    apply guards_for_each; intros t _; apply emit_func_index_guards].
  split.
  - intros (_ & _ & _ & fs & Hfs & Hall). rewrite stable_sort_perm in Hall. revert fs Hfs Hall.
    induction refs as [|h refs IH]; intros fs Hfs Hall; [constructor|]. simpl in Hfs.
    destruct (fIdx layout h) as [t|] eqn:Et; [|done]. csimpl in Hfs.
    destruct (resolve_all layout refs) as [ts|] eqn:Ers; [|done]. csimpl in Hfs. injection Hfs as <-.
    apply Forall_cons in Hall as [Ht Hts]. constructor; [by exists t|by eapply IH].
  - intros Hall. split_and!; [done..|].
    enough (∃ fs, resolve_all layout refs = Ok fs ∧ Forall (λ t, 0 ≤ t < numFuncs c) fs) as (fs & Hfs & Hf).
    { exists fs. by rewrite stable_sort_perm. }
    induction refs as [|h refs IH]; [by exists []|]. apply Forall_cons in Hall as [(t & Ht & Hr) Hall].
    destruct (IH Hall) as (fs & Hfs & Hf). exists (t :: fs). simpl. rewrite Ht. csimpl. rewrite Hfs. csimpl.
    split; [done|by constructor].
Qed.

Lemma emit_elements_guards :
  guards (Forall ok (m_elements md ≫= element_uses) ∧ Forall ok (UFunc <$> m_declaredFuncRefs md))
    (emit_elements (Some c) layout md) (emit_elements None layout md).
Proof.
  unfold emit_elements. destruct (m_elements md) as [|e es] eqn:Ee, (m_declaredFuncRefs md) as [|h hs] eqn:Eh.
  { eapply guards_iff; [|apply guards_refl]. by rewrite !Forall_nil. }
  all: rewrite <- ?Ee, <- ?Eh; apply guards_section.
  all: eapply guards_iff; [|apply guards_then; [apply guards_refl|apply guards_then;
    [apply (for_each_guards (set_maxLocals (-1) c) layout); apply emit_element_guards|
     first [apply guards_refl|apply emit_declared_refs_guards]]]].
  all: rewrite ?Eh, ?Forall_nil; tauto.
Qed.

Lemma emit_start_guards :
  guards (∀ h, m_startFuncIdx md = Some h → ok (UFunc h)) (emit_start (Some c) layout md) (emit_start None layout md).
Proof.
  unfold emit_start. destruct (m_startFuncIdx md) as [h|].
  - apply guards_section. eapply guards_iff; [|apply (handle_guards h); intros t; guard_by; tauto].
    rewrite Forall_singleton. naive_solver.
  - eapply guards_iff; [|apply guards_refl]. naive_solver.
Qed.

Lemma guards_sized P m m' : guards P m m' → guards P (sized m) (sized m').
Proof.
  intros Hm e e'. unfold sized. destruct (m' new) as [s|f] eqn:E, (m new) as [s'|f'] eqn:E'; csimpl.
  - apply Hm in E' as [HP E']. rewrite E' in E. injection E as ->. tauto.
  - split; [done|]. intros [HP _]. by rewrite (proj2 (Hm new s)) in E'.
  - apply Hm in E' as [_ E']. congruence.
  - naive_solver.
Qed.

(** The groups have the types of the locals. *)
Lemma group_locals_types (P : ValType → Prop) l gs :
  Forall (λ g, P (lg_type g)) (foldl group_local gs l) ↔ Forall (λ g, P (lg_type g)) gs ∧ Forall P l.
Proof.
  revert gs. induction l as [|t l IH]; intros gs; simpl; [by rewrite Forall_nil; tauto|].
  rewrite IH, Forall_cons. destruct gs as [|g gs]; simpl; [rewrite Forall_singleton, Forall_nil; simpl; tauto|].
  unfold valTypeEq. case_bool_decide as He; rewrite !Forall_cons; simpl; [subst t|]; tauto.
Qed.

Lemma groupLocals_types (P : ValType → Prop) l : Forall (λ g, P (lg_type g)) (groupLocals l) ↔ Forall P l.
Proof. unfold groupLocals. rewrite Forall_reverse, group_locals_types, Forall_nil. tauto. Qed.

Lemma emit_function_guards p :
  guards (Forall (use_ok (set_maxLocals (frame_size c p.2) c) layout) (function_uses p.2))
    (emit_function (Some c) layout md p) (emit_function None layout md p).
Proof.
  unfold emit_function, encodeFunction. csimpl. apply guards_sized.
  set (c' := set_maxLocals (frame_size c p.2) (set_where (function_where md p.1 p.2) c)).
  eapply guards_iff; [|apply guards_then; [apply (encode_locals_guards c' layout)|apply guards_then;
    [apply (encodeInstrs_guards c' layout)|apply guards_refl]]].
  unfold c', function_uses. rewrite use_ok_where, Forall_app, <- !(Forall_bind_fmap _ (λ g, valtype_uses (lg_type g))).
  rewrite (groupLocals_types (λ t, Forall (use_ok (set_maxLocals (frame_size c p.2) c) layout) (valtype_uses t))).
  rewrite Forall_bind_fmap. tauto.
Qed.

Lemma entries_of_snd {A} (P : A → Prop) (l : list A) : Forall (λ p, P p.2) (entries_of l) ↔ Forall P l.
Proof.
  change (Forall (P ∘ snd) (entries_of l) ↔ Forall P l). rewrite <- Forall_fmap. unfold entries_of. rewrite snd_zip; [done|]. rewrite length_seqZ. unfold size. lia.
Qed.

Lemma emit_code_guards :
  guards (Forall (λ f, Forall (use_ok (set_maxLocals (frame_size c f) c) layout) (function_uses f)) (m_functions md))
    (emit_code (Some c) layout md) (emit_code None layout md).
Proof.
  eapply guards_iff; [apply (entries_of_snd
    (λ f, Forall (use_ok (set_maxLocals (frame_size c f) c) layout) (function_uses f)))|].
  unfold emit_code, items_section. destruct (entries_of (m_functions md)) as [|p ps].
  - eapply guards_iff; [|apply guards_refl]. by rewrite Forall_nil.
  - apply guards_section, guards_vector. intros q _. apply emit_function_guards.
Qed.

Lemma emit_module_guards table :
  indexPhysicalTypes (m_types md) = Ok table → flatTypes c = pe_definition <$> pt_entries table →
  guards (well_referenced c layout md) (emit_module (Some c) layout md) (emit_module None layout md).
Proof.
  intros Ht Hflat. unfold emit_module, emit_sections.
  pose proof (emit_types_guards table Ht Hflat) as Hty.
  pose proof emit_elements_guards as Hel. pose proof emit_start_guards as Hst. pose proof emit_code_guards as Hco.
  assert (guards (Forall ok (m_imports md ≫= import_uses))
    (items_section (SECTION "import") (m_imports md) (emit_import (Some c)))
    (items_section (SECTION "import") (m_imports md) (emit_import None))) as Him
    by (apply guards_items; intros i; apply (guards_at _ (λ v, encodeImport v i)); intros c'; apply encodeImport_guards).
  assert (guards (Forall ok (m_functions md ≫= λ f, [USignature (wf_typeIdx f)]))
    (items_section (SECTION "function") (m_functions md) (emit_signature (Some c)))
    (items_section (SECTION "function") (m_functions md) (emit_signature None))) as Hfn
    by (apply guards_items; intros f; unfold emit_signature; guard_by; tauto).
  assert (guards (Forall ok (m_tags md ≫= λ t, [USignature (td_typeIdx t)]))
    (items_section (SECTION "tag") (m_tags md) (emit_tag (Some c)))
    (items_section (SECTION "tag") (m_tags md) (emit_tag None))) as Htg
    by (apply guards_items; intros t; unfold emit_tag; guard_by; tauto).
  assert (guards (Forall ok (m_globals md ≫= global_uses))
    (items_section (SECTION "global") (m_globals md) (emit_global (Some c) layout))
    (items_section (SECTION "global") (m_globals md) (emit_global None layout))) as Hgl
    by (apply guards_items; intros g; apply (guards_at _ (λ v, encodeGlobal v layout g)); intros c'; apply encodeGlobal_guards).
  assert (guards (Forall ok (m_exports md ≫= export_uses))
    (items_section (SECTION "export") (m_exports md) (emit_export (Some c) layout))
    (items_section (SECTION "export") (m_exports md) (emit_export None layout))) as Hex
    by (apply guards_items; intros x; apply (guards_at _ (λ v, encodeExport v layout x)); intros c'; apply encodeExport_guards).
  eapply guards_iff; [|repeat first [eassumption|apply guards_refl|apply guards_then]].
  split; [|intros []; tauto]. intros Hall. decompose [and] Hall. by split.
Qed.
End armed.

Lemma makeValidationCtx_types md c :
  makeValidationCtx md = Ok c →
  ∃ table, indexPhysicalTypes (m_types md) = Ok table ∧ flatTypes c = pe_definition <$> pt_entries table.
Proof.
  intros Ec. unfold makeValidationCtx in Ec. cbv zeta in Ec.
  destruct (indexPhysicalTypes (m_types md)) as [table|]; [|done]. csimpl in Ec. injection Ec as <-. by exists table.
Qed.

Lemma makeValidationCtx_funcs md c :
  makeValidationCtx md = Ok c → numFuncs c = count_if is_func_import (m_imports md) + size (m_functions md).
Proof.
  intros Ec. unfold makeValidationCtx in Ec. cbv zeta in Ec.
  destruct (indexPhysicalTypes (m_types md)) as [table|]; [|done]. csimpl in Ec. by injection Ec as <-.
Qed.

(** A function with calls by index, by a stable handle and through a table, a tag, a
    global and a local of a reference type. *)
Definition sample_function : WasmFunction :=
  mkWasmFunction (js "f") 0 [VI32; VI32; VRefNull 1]
    [LocalGet 2; Call 0; If BEmpty [Block (BVal VI32) [I32Const (-5); Throw_ 0]; Plain "drop"] None;
     LocalGet 0; GlobalGet 0; CallIndirect 0 0; Call (STABLE_FUNC_BASE + 0)].

Definition sample_wasm : WasmModule :=
  mkModule [TFunc [VI32] [VI32]; TStruct [mkField (VRef 0) true] None false; TFunc [VI32] []] None
    [mkImport_ (js "env") (js "log") (IFunc 2)]
    [sample_function]
    [mkWasmExport (js "f") XFunc STABLE_FUNC_BASE]
    [mkTable_ "funcref" 1 None] [mkElement_ 0 [I32Const 0] [1]] [mkGlobalDef (js "g") VI32 true [I32Const 7]]
    [mkTagDef (js "e") 2] [STABLE_FUNC_BASE] [Some 0] [mkMemory_ 1 (Some 2)] [mkData 0 [1; 2] false] (Some STABLE_FUNC_BASE).

(** * Properties *)

(** C7: the emit-time index validation.  Emission with the checks succeeds exactly when
    emission without them does and every reference of the module resolves (functions
    through their handles, signatures to function types, locals to the frame of their
    function, fields to their struct, and so on for types, globals, tables and tags),
    and the bytes are the same. *)
Theorem emitBinary_validated `{TextCodec} md bs :
  emitBinary false md = Ok bs ↔
  (∃ c, makeValidationCtx md = Ok c ∧ well_referenced c (Some (resolveLayout md)) md) ∧ emitBinary true md = Ok bs.
Proof.
  unfold emitBinary. csimpl. destruct (makeValidationCtx md) as [c|f] eqn:Ec; csimpl; [|naive_solver].
  destruct (makeValidationCtx_types md c Ec) as (table & Ht & Hflat).
  pose proof (emit_module_guards c (Some (resolveLayout md)) md table Ht Hflat new) as Hg.
  destruct (emit_module (Some c) _ md new) as [e|f] eqn:Ea; csimpl.
  - destruct (proj1 (Hg e) eq_refl) as [Hw He]. rewrite He. csimpl. naive_solver.
  - split; [done|]. intros [(c' & [= <-] & Hw) Hu]. destruct (emit_module None _ md new) as [e|] eqn:Eu; [|done].
    by pose proof (proj2 (Hg e) (conj Hw eq_refl)).
Qed.

#[local] Instance plain_codec : TextCodec := { utf8_encode := id; utf8_decode := id }.

(** The checks as the emitter of a whole module runs them. *)
Lemma emitBinary_checked `{TextCodec} md bs :
  emitBinary false md = Ok bs →
  ∃ c, makeValidationCtx md = Ok c ∧ well_referenced c (Some (resolveLayout md)) md.
Proof.
  unfold emitBinary. csimpl. destruct (makeValidationCtx md) as [c|f] eqn:Ec; csimpl; [|done].
  assert (∃ table, indexPhysicalTypes (m_types md) = Ok table ∧ flatTypes c = pe_definition <$> pt_entries table)
    as (table & Ht & Hflat) by (by apply makeValidationCtx_types).
  intros He. destruct (emit_module (Some c) _ md new) as [e|f] eqn:Ea; [|done].
  apply (emit_module_guards c _ md table Ht Hflat) in Ea as [Hw _]. by exists c.
Qed.

(** The handle resolution that the layout uses is the one of the other passes. *)
Lemma layout_absolute md h : fIdx (Some (resolveLayout md)) h = absoluteFuncIndex md h.
Proof. simpl. unfold absoluteFuncIndex, absoluteFuncIndexCached. by destruct (h <? STABLE_FUNC_BASE). Qed.

(** C32: what an emitted module can rely on.  When emission succeeds, every function has
    a signature in the type section that is a function type, its body reads and writes
    only parameters and locals of its frame, and every function handle in it, live or
    stable, resolves to an imported or defined function. *)
Theorem emitBinary_frames `{TextCodec} md bs f :
  emitBinary false md = Ok bs → f ∈ m_functions md →
  ∃ table ps rs, indexPhysicalTypes (m_types md) = Ok table ∧
    strip_sub <$> (js_at (pe_definition <$> pt_entries table) (wf_typeIdx f)) = Some (TFunc ps rs) ∧
    (∀ i, ULocal i ∈ function_uses f → 0 ≤ i < size ps + size (wf_locals f)) ∧
    (∀ h, UFunc h ∈ function_uses f → ∃ t, absoluteFuncIndex md h = Ok t ∧
       0 ≤ t < count_if is_func_import (m_imports md) + size (m_functions md)).
Proof.
  intros (c & Hc & Hw)%emitBinary_checked Hf. pose proof (makeValidationCtx_types _ _ Hc) as (table & Ht & Hflat).
  pose proof (ref_signatures _ _ _ Hw) as Hs. rewrite <- Forall_bind_fmap, Forall_forall in Hs.
  specialize (Hs f Hf). rewrite Forall_singleton in Hs. destruct Hs as [_ (ps & rs & Hsig)].
  pose proof (ref_bodies _ _ _ Hw) as Hb. rewrite Forall_forall in Hb. specialize (Hb f Hf). rewrite Forall_forall in Hb.
  change (resolveTypeDefAt c (wf_typeIdx f) = Some (TFunc ps rs)) in Hsig.
  assert (frame_size c f = size ps + size (wf_locals f)) as Hfr.
  { unfold frame_size, resolveParamCount. rewrite Hsig. destruct (Z.leb_spec 0 (Z.of_nat (length ps))); [done|lia]. }
  exists table, ps, rs. split_and!; [done| | |].
  - rewrite <- Hflat. exact Hsig.
  - intros i Hi. specialize (Hb _ Hi). simpl in Hb. rewrite Hfr in Hb. apply Hb. unfold size. lia.
  - intros h Hh. destruct (Hb _ Hh) as (t & Hres & Hr). exists t. rewrite <- layout_absolute. split; [done|].
    simpl in Hr. by rewrite (makeValidationCtx_funcs _ _ Hc) in Hr.
Qed.

Lemma emitBinary_frames_witness :
  ∃ bs, emitBinary false sample_wasm = Ok bs ∧
  ∃ table ps rs, indexPhysicalTypes (m_types sample_wasm) = Ok table ∧
    strip_sub <$> (js_at (pe_definition <$> pt_entries table) (wf_typeIdx sample_function)) = Some (TFunc ps rs) ∧
    (∀ i, ULocal i ∈ function_uses sample_function → 0 ≤ i < size ps + size (wf_locals sample_function)) ∧
    (∀ h, UFunc h ∈ function_uses sample_function → ∃ t, absoluteFuncIndex sample_wasm h = Ok t ∧
       0 ≤ t < count_if is_func_import (m_imports sample_wasm) + size (m_functions sample_wasm)).
Proof.
  eexists. split; [vm_compute; reflexivity|].
  eapply (emitBinary_frames sample_wasm); [vm_compute; reflexivity|left].
Defined.
