(* ===== verification/BinaryTotal.v ===== *)
(** Emission ends: on every module emitBinary of src/emit/binary.ts returns bytes or
    throws. *)

From S2P Require Import Prelude Encoder Emit WasmModel WasmOps TypeLayout WasmEncode WasmCheck BinaryWriter.
Import WasmEncoder.

(** * Checks *)

Lemma settles_bind {A B} (r : result A) (k : A → result B) : settles r → (∀ a, settles (k a)) → settles (r ≫= k).
Proof. destruct r; simpl; auto. Qed.

Lemma settles_vIdx c s v m : settles (vIdx c s v m).
Proof. unfold vIdx. by case_match. Qed.
Lemma settles_vHeapType c t : settles (vHeapType c t).
Proof. unfold vHeapType. by case_match. Qed.
Lemma settles_vSignature c t : settles (vSignature c t).
Proof. apply settles_bind; [apply settles_vIdx|]. intros _. by repeat case_match. Qed.
Lemma settles_vStructField c t f op : settles (vStructField c t f op).
Proof. apply settles_bind; [apply settles_vIdx|]. intros _. by repeat (case_match; cbv zeta). Qed.

Section total.
Context `{TextCodec} (v : option EmitValidationCtx) (layout : option ModuleLayout).
Context (Hlayout : ∀ h, settles (fIdx layout h)).

Lemma steady_armed f : (∀ c, settles (f c)) → steady (if_armed v f).
Proof. intros Hf. apply steady_check. destruct v; [apply Hf|done]. Qed.

Local Ltac armed :=
  apply steady_armed; intros ?;
  repeat first [apply settles_vIdx|apply settles_vHeapType|apply settles_vSignature|apply settles_vStructField
               |apply settles_bind; [|intros _]|done|case_match].
Local Ltac steady_all := repeat first [progress steady|armed].

Lemma steady_valType t : steady (encodeValType v t).
Proof. destruct t; cbn [encodeValType]; unfold packed_value; steady_all. Qed.
Hint Resolve steady_valType : steady.

Lemma steady_storageType t : steady (encodeStorageType v t).
Proof. destruct t; cbn [encodeStorageType]; steady_all. Qed.
Hint Resolve steady_storageType : steady.

Lemma steady_field f : steady (encodeFieldDef v f).
Proof. unfold encodeFieldDef. steady_all. Qed.
Hint Resolve steady_field : steady.

Lemma steady_typeDef t : steady (encodeTypeDef v t).
Proof.
  induction t as [ps rs|fs s fin|el m|types IH|s fin type IH] using typedef_tree_ind; cbn [encodeTypeDef]; steady_all.
Qed.
Hint Resolve steady_typeDef : steady.

Lemma steady_blockType bt : steady (encodeBlockType v bt).
Proof. destruct bt; cbn [encodeBlockType]; steady_all. Qed.
Hint Resolve steady_blockType : steady.

Lemma steady_limits mn mx : steady (encode_limits mn mx).
Proof. unfold encode_limits. steady_all. Qed.
Hint Resolve steady_limits : steady.

Lemma steady_import i : steady (encodeImport v i).
Proof. unfold encodeImport. steady_all. Qed.

Lemma steady_export x : steady (encodeExport v layout x).
Proof.
  unfold encodeExport. apply steady_with_value.
  - unfold export_index. destruct (ex_kind x); [apply Hlayout|done..].
  - intros r _. unfold export_check. steady_all.
Qed.

Lemma steady_locals l : steady (encode_locals v l).
Proof. unfold encode_locals. steady_all. Qed.

(** ** Instructions *)

Lemma steady_pieces ps : steady (write_pieces ps).
Proof. unfold write_pieces, write_piece. steady_all. Qed.
Hint Resolve steady_pieces : steady.

Lemma steady_table ops op k : steady k → steady (from_table ops op k).
Proof. intros Hk. unfold from_table, unknown_op. steady_all. Qed.

Lemma steady_call code f : steady (encode_call v layout code f).
Proof. apply steady_with_value; [apply Hlayout|]. intros t _. steady_all. Qed.

Lemma steady_leaf i :
  match i with
  | Block _ _ | Loop _ _ | If _ _ _ | Try _ _ _ _ | TryTable _ _ _ => True
  | _ => steady (encodeInstr v layout i)
  end.
Proof.
  destruct i; try done; cbn [encodeInstr];
    unfold encode_plain, encode_memarg, encode_lane, encode_local, encode_global, encode_call_indirect, encode_call_ref,
      encode_heap_type, encode_ref_null, encode_gc, encode_struct_field, encode_array_copy, encode_tag, encode_br_table;
    try apply steady_call; try (apply steady_table; steady_all);
    try apply steady_bytes; steady_all; apply steady_bytes.
Qed.

Lemma steady_instr i : steady (encodeInstr v layout i).
Proof.
  revert i. apply instr_tree_ind; [apply steady_leaf|..].
  - intros bt body IH. cbn [encodeInstr]. steady_all.
  - intros bt body IH. cbn [encodeInstr]. steady_all.
  - intros bt th el IHt IHe. cbn [encodeInstr]. unfold else_part.
    destruct el as [[|i l]|]; [| specialize (IHe _ eq_refl)|]; steady_all.
  - intros bt body cs ca IHb IHc IHa. cbn [encodeInstr].
    assert (Forall (λ cl : Z * list Instr, steady (encode_tag v (OP "catch") cl.1 ⟫ each (encodeInstr v layout) cl.2)) cs) as Hcs.
    { eapply Forall_impl; [exact IHc|]. intros cl Hcl. cbv beta in Hcl. unfold encode_tag. steady_all. }
    destruct ca as [l|]; [specialize (IHa l eq_refl)|]; steady_all.
  - intros bt body cs IH. cbn [encodeInstr]. unfold encode_catch. steady_all.
Qed.

Lemma steady_instrs l : steady (encodeInstrs v layout l).
Proof. apply steady_each, Forall_true, steady_instr. Qed.
Hint Resolve steady_instrs : steady.

Lemma steady_global g : steady (encodeGlobal v layout g).
Proof. unfold encodeGlobal. steady_all. Qed.

Lemma steady_sized m : steady m → steady (sized m).
Proof.
  intros Hm e He. unfold sized. eapply yields_bind; [apply Hm, wf_new|]. intros s _. cbv zeta.
  assert (steady (u32 (size (finish s)) ⟫ bytes (finish s))) as Hs by steady_all. by apply Hs.
Qed.

Lemma steady_items {A} id (l : list A) m : (∀ x, steady (m x)) → steady (items_section id l m).
Proof. intros Hm. unfold items_section. destruct l; [apply steady_skip|]. apply steady_section, steady_vector. auto. Qed.
End total.

(** * The module *)

Section module.
Context `{TextCodec} (v : option EmitValidationCtx) (md : WasmModule).
Abbreviation layout := (Some (resolveLayout md)).

Lemma settles_layout h : settles (fIdx layout h).
Proof.
  simpl. unfold absoluteFuncIndexCached. destruct (h <? STABLE_FUNC_BASE); [done|]. by destruct (js_at _ _) as [[]|].
Qed.
Hint Resolve settles_layout : steady.

Local Ltac armed :=
  apply steady_armed; intros ?;
  repeat first [apply settles_vIdx|apply settles_vSignature|apply settles_bind; [|intros _]|done].
Local Ltac steady_all := repeat first [progress steady|armed].

Lemma steady_types : steady (emit_types v md).
Proof.
  unfold emit_types. destruct (m_types md) as [|t ts] eqn:Em; [apply steady_skip|].
  apply steady_with_value; [eapply yields_settles, indexPhysicalTypes_yields|]. intros table Ht.
  destruct (yields_ok _ _ _ (indexPhysicalTypes_yields _) Ht) as [Hok _].
  apply steady_with_value.
  { pose proof (plan_sound_complete table (forced_groups md) Hok) as Hp. revert Hp.
    destruct (planPhysicalTypeSection _ _); simpl; tauto. }
  intros groups _. apply steady_section, steady_vector. intros g _. unfold emit_group.
  apply steady_then; [steady_all|]. apply steady_for_n. intros i.
  destruct (js_at _ i); [apply steady_typeDef|apply steady_fails].
Qed.

Lemma steady_func_index w t : steady (emit_func_index v w t).
Proof. unfold emit_func_index. steady_all. Qed.

Lemma settles_resolve_all hs : settles (resolve_all layout hs).
Proof.
  induction hs as [|h hs IH]; [done|]. apply settles_bind; [apply settles_layout|]. intros t. by apply settles_bind.
Qed.

Lemma steady_element e : steady (emit_element v layout e).
Proof.
  unfold emit_element. pose proof (steady_instrs (at_ v (js "element-segment offset")) layout settles_layout (em_offset e)).
  steady_all. apply steady_with_value; [apply settles_layout|]. intros t _. apply steady_func_index.
Qed.

Lemma steady_elements : steady (emit_elements v layout md).
Proof.
  unfold emit_elements. destruct (m_elements md) as [|e es], (m_declaredFuncRefs md) as [|h hs]; try apply steady_skip;
    apply steady_section; steady_all; try apply steady_element; unfold emit_declared_refs; steady_all;
    (apply steady_with_value; [apply settles_resolve_all|]; intros ts _; apply steady_for_each; intros; apply steady_func_index).
Qed.

Lemma steady_module : steady (emit_module v layout md).
Proof.
  unfold emit_module, emit_sections.
  repeat match goal with
  | |- steady (_ ⟫ _) => apply steady_then
  | |- steady (bytes_array _) => eapply steady_emits, emits_bytes_array
  | |- steady (items_section _ _ _) => apply steady_items; intros x
  end.
  - apply steady_types.
  - apply steady_import.
  - unfold emit_signature. steady_all.
  - unfold emit_table. steady_all. apply steady_limits.
  - apply steady_limits.
  - unfold emit_tag. steady_all.
  - apply steady_global, settles_layout.
  - apply steady_export, settles_layout.
  - unfold emit_start. steady_all. apply steady_with_value; [apply settles_layout|]. intros t _. steady_all.
  - apply steady_elements.
  - unfold emit_data_count. steady_all.
  - apply steady_items. intros p. apply steady_sized.
    apply steady_then; [apply steady_locals|]. apply steady_then; [apply steady_instrs, settles_layout|apply steady_byte].
  - unfold emit_data. steady_all.
  - unfold emit_names. steady_all. apply steady_sized. steady_all.
Qed.
End module.

(** Emission comes to an end. *)
Lemma emitBinary_settles `{TextCodec} skip md : settles (emitBinary skip md).
Proof.
  unfold emitBinary. apply settles_bind.
  - destruct skip; [done|]. unfold makeValidationCtx. cbv zeta.
    pose proof (indexPhysicalTypes_yields (m_types md)) as Hi. by destruct (indexPhysicalTypes (m_types md)).
  - intros v. pose proof (steady_module v md new wf_new) as Hs. by destruct (emit_module v _ md new).
Qed.
