(* ===== verification/ObjWriter.v ===== *)
(** The relocatable object writer, src/emit/object.ts.

    The writer threads the section's encoder and the relocations collected so far
    ([ostate]); a relocation records the position of the encoder before its operand is
    written.  Its switch over instructions has no default case: an instruction it does
    not know writes nothing. *)

From S2P Require Import Prelude Encoder Emit WasmModel WasmOps WasmEncode.
Import WasmEncoder.

(** * Data *)

(** [RelocEntry] and [SymbolInfo] of this file. *)
Record ObjReloc := mkObjReloc { or_type : Z; or_offset : Z; or_symbolIndex : Z }.
Record ObjSymbol := mkObjSymbol { os_kind : Z; os_name : jsstr; os_index : Z; os_flags : Z }.

Record SymbolMaps := mkMaps {
  funcIdxToSymIdx : jsmap Z Z;
  globalIdxToSymIdx : jsmap Z Z;
  tagIdxToSymIdx : jsmap Z Z;
}.

Record ostate := mkOState { o_enc : WasmEncoder; o_relocs : list ObjReloc }.
Abbreviation oemitter := (ostate → result ostate).

(** * Instructions *)

Section instr.
Context `{TextCodec} (maps : SymbolMaps).

(** A step of the encoder alone. *)
Definition put (m : emitter) : oemitter := λ s, e ← m (o_enc s); Ok (mkOState e (o_relocs s)).

(** [relocs.push({ type, offset: enc.position, symbolIndex })] *)
Definition push_reloc (type symbolIndex : Z) : oemitter := λ s,
  Ok (mkOState (o_enc s) (o_relocs s ++ [mkObjReloc type (Z.of_nat (position (o_enc s))) symbolIndex])).

(** The symbol of an index, where the map has one. *)
Definition reloc_index (type : Z) (map : jsmap Z Z) (index : Z) : oemitter :=
  match jm_get map index with
  | Some symIdx => push_reloc type symIdx
  | None => Ok
  end.

(** call and ref.func *)
Definition obj_call (code funcIdx : Z) : oemitter :=
  put (byte code) ⟫ reloc_index (RELOC "R_WASM_FUNCTION_INDEX_LEB") (funcIdxToSymIdx maps) funcIdx ⟫ put (u32 funcIdx).

Definition obj_global (code index : Z) : oemitter :=
  put (byte code) ⟫ reloc_index (RELOC "R_WASM_GLOBAL_INDEX_LEB") (globalIdxToSymIdx maps) index ⟫ put (u32 index).

Definition obj_tag (tagIdx : Z) : oemitter :=
  reloc_index (RELOC "R_WASM_TAG_INDEX_LEB") (tagIdxToSymIdx maps) tagIdx ⟫ put (u32 tagIdx).

(** A type operand: the relocation holds the type index itself. *)
Definition obj_type (typeIdx : Z) : oemitter :=
  push_reloc (RELOC "R_WASM_TYPE_INDEX_LEB") typeIdx ⟫ put (u32 typeIdx).

Definition obj_gc (code typeIdx : Z) : oemitter :=
  put (byte (GC "prefix")) ⟫ put (byte code) ⟫ obj_type typeIdx.

Definition obj_struct_field (code typeIdx fieldIdx : Z) : oemitter :=
  put (byte (GC "prefix")) ⟫ put (byte code) ⟫ obj_type typeIdx ⟫ put (u32 fieldIdx).

(** Only concrete types are relocated. *)
Definition obj_heap_type (code typeIdx : Z) : oemitter :=
  put (byte (GC "prefix")) ⟫ put (byte code) ⟫
  (if 0 <=? typeIdx then push_reloc (RELOC "R_WASM_TYPE_INDEX_LEB") typeIdx else Ok) ⟫ put (i32 typeIdx).

Definition obj_catch (clause : TryTableCatch) : oemitter :=
  put (byte (catch_code (tc_kind clause))) ⟫
  match tc_kind clause with
  | Catch | CatchRef =>
      match tc_tagIdx clause with
      | None => put (fails (Throw EError (js "try_table " ++ js (catch_name (tc_kind clause)) ++ js " is missing a tag index")))
      | Some tagIdx => obj_tag tagIdx ⟫ put (u32 (tc_depth clause))
      end
  | CatchAll | CatchAllRef => put (u32 (tc_depth clause))
  end.

Definition obj_plain (op : string) : oemitter :=
  match find_op obj_plain_ops op with Some ps => put (write_pieces ps) | None => Ok end.

Definition obj_else_part (bt : BlockType) (else_ : option (list Instr)) (encode_all : list Instr → oemitter) : oemitter :=
  match else_ with
  | Some (i :: l) => put (byte (OP "else")) ⟫ encode_all (i :: l)
  | _ => match bt with BVal _ => put (byte (OP "else")) ⟫ put (byte (OP "unreachable")) | _ => Ok end
  end.

Abbreviation blockType bt := (put (encodeBlockType None bt)).

Fixpoint encodeInstrWithReloc (instr : Instr) : oemitter :=
  match instr with
  | Plain op => obj_plain op
  | LocalGet index => put (byte (OP "local_get")) ⟫ put (u32 index)
  | LocalSet index => put (byte (OP "local_set")) ⟫ put (u32 index)
  | LocalTee index => put (byte (OP "local_tee")) ⟫ put (u32 index)
  | GlobalGet index => obj_global (OP "global_get") index
  | GlobalSet index => obj_global (OP "global_set") index
  | I32Const value => put (byte (OP "i32_const")) ⟫ put (i32 value)
  | I64Const value => put (byte (OP "i64_const")) ⟫ put (i64 value)
  | F64Const bits => put (byte (OP "f64_const")) ⟫ put (f64 bits)
  | F32Const bits => put (byte (OP "f32_const")) ⟫ put (f32 bits)
  | Block bt body => put (byte (OP "block")) ⟫ blockType bt ⟫ each encodeInstrWithReloc body ⟫ put (byte (OP "end"))
  | Loop bt body => put (byte (OP "loop")) ⟫ blockType bt ⟫ each encodeInstrWithReloc body ⟫ put (byte (OP "end"))
  | If bt then_ else_ =>
      put (byte (OP "if")) ⟫ blockType bt ⟫ each encodeInstrWithReloc then_ ⟫
      obj_else_part bt else_ (each encodeInstrWithReloc) ⟫ put (byte (OP "end"))
  | Br depth => put (byte (OP "br")) ⟫ put (u32 depth)
  | BrIf depth => put (byte (OP "br_if")) ⟫ put (u32 depth)
  | Call funcIdx => obj_call (OP "call") funcIdx
  | CallIndirect typeIdx tableIdx => put (byte (OP "call_indirect")) ⟫ obj_type typeIdx ⟫ put (u32 tableIdx)
  | RefNull typeIdx => put (byte (OP "ref_null")) ⟫ put (i32 typeIdx)
  | RefCast typeIdx => obj_heap_type (GC "ref_cast") typeIdx
  | RefCastNull typeIdx => obj_heap_type (GC "ref_cast_null") typeIdx
  | RefTest typeIdx => obj_heap_type (GC "ref_test") typeIdx
  | StructNew typeIdx => obj_gc (GC "struct_new") typeIdx
  | StructGet typeIdx fieldIdx => obj_struct_field (GC "struct_get") typeIdx fieldIdx
  | StructSet typeIdx fieldIdx => obj_struct_field (GC "struct_set") typeIdx fieldIdx
  | ArrayNew typeIdx => obj_gc (GC "array_new") typeIdx
  | ArrayNewFixed typeIdx length => obj_gc (GC "array_new_fixed") typeIdx ⟫ put (u32 length)
  | ArrayNewDefault typeIdx => obj_gc (GC "array_new_default") typeIdx
  | ArrayGet typeIdx => obj_gc (GC "array_get") typeIdx
  | ArrayGetS typeIdx => obj_gc (GC "array_get_s") typeIdx
  | ArraySet typeIdx => obj_gc (GC "array_set") typeIdx
  | RefFunc funcIdx => obj_call (OP "ref_func") funcIdx
  | CallRef typeIdx => put (byte (OP "call_ref")) ⟫ obj_type typeIdx
  | Throw_ tagIdx => put (byte (OP "throw")) ⟫ obj_tag tagIdx
  | Rethrow depth => put (byte (OP "rethrow")) ⟫ put (u32 depth)
  | TryTable bt body catches =>
      put (byte (OP "try_table")) ⟫ blockType bt ⟫ put (u32 (Z.of_nat (length catches))) ⟫
      for_each catches obj_catch ⟫ each encodeInstrWithReloc body ⟫ put (byte (OP "end"))
  | Try bt body catches catchAll =>
      put (byte (OP "try")) ⟫ blockType bt ⟫ each encodeInstrWithReloc body ⟫
      each (λ c, put (byte (OP "catch")) ⟫ put (u32 c.1) ⟫ each encodeInstrWithReloc c.2) catches ⟫
      match catchAll with Some l => put (byte (OP "catch_all")) ⟫ each encodeInstrWithReloc l | None => Ok end ⟫
      put (byte (OP "end"))
  | _ => Ok
  end.

(** * A function body *)

(** Its relocations are collected relative to the body, then moved by the position of
    the section and the length of the size in front of the body. *)
Definition encodeFunctionWithReloc (f : WasmFunction) : oemitter := λ s,
  body ← encode_locals None (wf_locals f) new;
  s' ← each encodeInstrWithReloc (wf_body f) (mkOState body []);
  body ← byte (OP "end") (o_enc s');
  let bodyBytes := finish body in
  sizePrefix ← u32 (Z.of_nat (length bodyBytes)) new;
  let sizePrefixLen := Z.of_nat (length (finish sizePrefix)) in
  let funcBaseOffset := Z.of_nat (position (o_enc s)) in
  let moved := (λ r, mkObjReloc (or_type r) (funcBaseOffset + sizePrefixLen + or_offset r) (or_symbolIndex r)) <$> o_relocs s' in
  e ← (u32 (Z.of_nat (length bodyBytes)) ⟫ bytes bodyBytes) (o_enc s);
  Ok (mkOState e (o_relocs s ++ moved)).
End instr.

(** * The symbol table *)

(** The table under construction, the map of the index space at hand and its next
    index. *)
Record sstate := mkSState { s_symbols : list ObjSymbol; s_map : jsmap Z Z; s_next : Z }.

Definition add_symbol (kind : Z) (name : Z → jsstr) (flags : Z → Z) (s : sstate) : sstate :=
  let symIdx := Z.of_nat (length (s_symbols s)) in
  mkSState (s_symbols s ++ [mkObjSymbol kind (name (s_next s)) (s_next s) (flags (s_next s))])
    (jm_set (s_map s) (s_next s) symIdx) (s_next s + 1).

(** One loop over the imports of a kind, one over the definitions. *)
Definition import_symbols (kind : Z) (is_kind : ImportDesc → bool) (imports : list Import_) (s : sstate) : sstate :=
  foldl (λ s i, if is_kind (im_desc i)
                then add_symbol kind (λ _, im_name i) (λ _, SYM_FLAGS "WASM_SYM_UNDEFINED") s else s) s imports.

(** [name || prefix + index] *)
Definition name_or (name prefix : jsstr) (index : Z) : jsstr :=
  match name with [] => prefix ++ js_num index | _ => name end.

Definition defined_symbols (kind : Z) (prefix : jsstr) (flags : Z → Z) (names : list jsstr) (s : sstate) : sstate :=
  foldl (λ s name, add_symbol kind (name_or name prefix) flags s) s names.

Definition exported_flags (exported : list Z) (index : Z) : Z :=
  if decide (index ∈ exported) then SYM_FLAGS "WASM_SYM_EXPORTED" else SYM_FLAGS "WASM_SYM_BINDING_LOCAL".

Definition exported_of (is_kind : ExportKind → bool) (md : WasmModule) : list Z :=
  omap (λ x, if is_kind (ex_kind x) then Some (ex_index x) else None) (m_exports md).

Definition is_ifunc (d : ImportDesc) : bool := match d with IFunc _ => true | _ => false end.
Definition is_iglobal (d : ImportDesc) : bool := match d with IGlobal _ _ => true | _ => false end.
Definition is_itag (d : ImportDesc) : bool := match d with ITag _ => true | _ => false end.
Definition is_xfunc (k : ExportKind) : bool := match k with XFunc => true | _ => false end.
Definition is_xglobal (k : ExportKind) : bool := match k with XGlobal => true | _ => false end.

Definition function_symbols (md : WasmModule) : sstate :=
  defined_symbols (SYMTAB "SYMTAB_FUNCTION") (js "__func_") (exported_flags (exported_of is_xfunc md)) (wf_name <$> m_functions md)
    (import_symbols (SYMTAB "SYMTAB_FUNCTION") is_ifunc (m_imports md) (mkSState [] [] 0)).

(** Stable handles stand for the symbols of their functions; [ordinal] counts up. *)
Fixpoint alias_symbols (numImportFuncs ordinal : Z) (positions : list (option Z)) (map : jsmap Z Z) : jsmap Z Z :=
  match positions with
  | [] => map
  | pos :: positions' =>
      alias_symbols numImportFuncs (ordinal + 1) positions'
        (match pos with
         | None => map
         | Some pos =>
             match jm_get map (numImportFuncs + pos) with
             | Some symIdx => jm_set map (STABLE_FUNC_BASE + ordinal) symIdx
             | None => map
             end
         end)
  end.

Definition global_symbols (md : WasmModule) (symbols : list ObjSymbol) : sstate :=
  defined_symbols (SYMTAB "SYMTAB_GLOBAL") (js "__global_") (exported_flags (exported_of is_xglobal md)) (gd_name <$> m_globals md)
    (import_symbols (SYMTAB "SYMTAB_GLOBAL") is_iglobal (m_imports md) (mkSState symbols [] 0)).

Definition tag_symbols (md : WasmModule) (symbols : list ObjSymbol) : sstate :=
  defined_symbols (SYMTAB "SYMTAB_EVENT") (js "__tag_") (λ _, SYM_FLAGS "WASM_SYM_BINDING_LOCAL") (td_name <$> m_tags md)
    (import_symbols (SYMTAB "SYMTAB_EVENT") is_itag (m_imports md) (mkSState symbols [] 0)).

Definition symbol_table (md : WasmModule) : list ObjSymbol * SymbolMaps :=
  let funcs := function_symbols md in
  let funcMap := alias_symbols (count_if is_func_import (m_imports md)) 0 (m_funcOrdinalToPosition md) (s_map funcs) in
  let globals := global_symbols md (s_symbols funcs) in
  let tags := tag_symbols md (s_symbols globals) in
  (s_symbols tags, mkMaps funcMap (s_map globals) (s_map tags)).

(** * The sections *)

Section sections.
Context `{TextCodec} (md : WasmModule) (maps : SymbolMaps).

Definition obj_section {A} (id : Z) (l : list A) (item : A → emitter) : emitter :=
  match l with [] => Ok | _ => section id (vector l item) end.

Definition obj_table (t : Table) : emitter :=
  byte (element_type_byte (tb_elementType t)) ⟫ encode_limits (tb_min t) (tb_max t).

Definition obj_tag_entry (t : TagDef) : emitter := byte 0x00 ⟫ u32 (td_typeIdx t).

(** The relocations of an element segment's offset go to a list of their own, which is
    dropped. *)
Definition obj_offset (offset : list Instr) : emitter := λ e,
  s ← each (encodeInstrWithReloc maps) offset (mkOState e []);
  Ok (o_enc s).

Definition obj_element (elem : Element) : emitter :=
  let explicitTable := negb (em_tableIdx elem =? 0) in
  byte (if explicitTable then 0x02 else 0x00) ⟫
  (if explicitTable then u32 (em_tableIdx elem) else Ok) ⟫
  obj_offset (em_offset elem) ⟫ byte (OP "end") ⟫
  (if explicitTable then byte 0x00 else Ok) ⟫
  vector (em_funcIndices elem) u32.

(** The sections in front of the code section. *)
Definition obj_sections : emitter :=
  obj_section (SECTION "type") (m_types md) (encodeTypeDef None) ⟫
  obj_section (SECTION "import") (m_imports md) (encodeImport None) ⟫
  obj_section (SECTION "function") (m_functions md) (λ f, u32 (wf_typeIdx f)) ⟫
  obj_section (SECTION "table") (m_tables md) obj_table ⟫
  obj_section (SECTION "tag") (m_tags md) obj_tag_entry ⟫
  obj_section (SECTION "global") (m_globals md) (encodeGlobal None None) ⟫
  obj_section (SECTION "export") (m_exports md) (encodeExport None None) ⟫
  obj_section (SECTION "element") (m_elements md) obj_element.

(** [sectionCount], when the code section is reached. *)
Definition present {A} (l : list A) : Z := match l with [] => 0 | _ => 1 end.
Definition codeSectionIndex : Z :=
  present (m_types md) + present (m_imports md) + present (m_functions md) + present (m_tables md) +
  present (m_tags md) + present (m_globals md) + present (m_exports md) + present (m_elements md).

(** The payload of the code section and its relocations. *)
Definition obj_code_payload : result (list Z * list ObjReloc) :=
  e ← u32 (Z.of_nat (length (m_functions md))) new;
  s ← for_each (m_functions md) (encodeFunctionWithReloc maps) (mkOState e []);
  Ok (finish (o_enc s), o_relocs s).

Definition obj_code (codeBytes : list Z) : emitter :=
  byte (SECTION "code") ⟫ u32 (Z.of_nat (length codeBytes)) ⟫ bytes codeBytes.

Definition obj_relocs (relocs : list ObjReloc) : emitter :=
  match relocs with
  | [] => Ok
  | _ =>
      section (SECTION "custom")
        (name (js "reloc.CODE") ⟫ u32 codeSectionIndex ⟫ u32 (Z.of_nat (length relocs)) ⟫
         for_each relocs (λ r, byte (or_type r) ⟫ u32 (or_offset r) ⟫ u32 (or_symbolIndex r)))
  end.

(** The code section and its relocations; without functions there is neither. *)
Definition obj_code_and_relocs : emitter :=
  match m_functions md with
  | [] => Ok
  | _ => with_value obj_code_payload (λ p, obj_code p.1 ⟫ obj_relocs p.2)
  end.

Definition obj_symbol (sym : ObjSymbol) : emitter :=
  byte (os_kind sym) ⟫ u32 (os_flags sym) ⟫ u32 (os_index sym) ⟫
  if os_flags sym .& SYM_FLAGS "WASM_SYM_UNDEFINED" =? 0 then name (os_name sym) else Ok.

Definition obj_linking (symbols : list ObjSymbol) : emitter :=
  section (SECTION "custom")
    (name (js "linking") ⟫ u32 2 ⟫
     λ s, symSub ← (u32 (Z.of_nat (length symbols)) ⟫ for_each symbols obj_symbol) new;
          let symData := finish symSub in
          (byte (LINKING_SUBSECTION "WASM_SYMBOL_TABLE") ⟫ u32 (Z.of_nat (length symData)) ⟫ bytes symData) s).
End sections.

(** * The object file *)

Definition emitObject `{TextCodec} (md : WasmModule) : result (list Z) :=
  let '(symbols, maps) := symbol_table md in
  finish <$> (bytes_array [0x00; 0x61; 0x73; 0x6d] ⟫ bytes_array [0x01; 0x00; 0x00; 0x00] ⟫
    obj_sections md maps ⟫ obj_code_and_relocs md maps ⟫ obj_linking symbols) new.
