(* ===== verification/ObjTotal.v ===== *)
(** The object writer against the binary writer.

    Instruction by instruction, src/emit/object.ts (encodeInstrWithReloc) writes the
    bytes that the unarmed encoder of src/emit/binary.ts writes, for the instructions
    its switch knows ([supported]); the others it drops.

    Emission of an object file ends: on every module emitObject of src/emit/object.ts
    returns bytes or throws, and the bytes of a step are behind those of the steps
    before it. *)

From S2P Require Import Prelude Encoder Emit WasmModel WasmOps WasmEncode BinaryTotal ObjWriter.

Import WasmEncoder.

(** The instructions with a case, all the way down. *)
Fixpoint supported (i : Instr) : bool :=
  match i with
  | Plain op => match find_op obj_plain_ops op with Some _ => true | None => false end
  | Block _ body | Loop _ body | TryTable _ body _ => forallb supported body
  | If _ th el => forallb supported th && match el with Some l => forallb supported l | None => true end
  | Try _ body cs ca =>
      forallb supported body && forallb (λ c, forallb supported c.2) cs &&
      match ca with Some l => forallb supported l | None => true end
  | Memarg _ _ _ | Lane _ _ | V128Const _ | I8x16Shuffle _ | BrTable _ _ | ReturnCall _ | ArrayGetU _ | ArrayCopy _ _
  | ArrayFill _ | ReturnCallRef _ | MemoryInit _ | DataDrop _ => false
  | _ => true
  end.

(** The ops without fields that the binary writer knows and the object writer drops. *)
Definition dropped_ops : list string :=
  filter (λ op, find_op obj_plain_ops op = None) plain_ops.*1.

(** * One writer follows the other *)

Definition tracks (m : oemitter) (k : emitter) : Prop := ∀ s, o_enc <$> m s = k (o_enc s).

Lemma tracks_put m : tracks (put m) m.
Proof. intros s. unfold put. by destruct (m (o_enc s)). Qed.

Lemma tracks_then m m' k k' : tracks m m' → tracks k k' → tracks (m ⟫ k) (m' ⟫ k').
Proof.
  intros Hm Hk s. unfold then_. rewrite <- (Hm s). destruct (m s) as [s1|]; csimpl; [apply Hk|done].
Qed.

Lemma tracks_silent m k k' : tracks m Ok → tracks k k' → tracks (m ⟫ k) k'.
Proof.
  intros Hm Hk s. specialize (Hm s). unfold then_. destruct (m s) as [s1|]; csimpl in *; [|done].
  injection Hm as <-. apply Hk.
Qed.

Lemma tracks_ext m k k' : (∀ e, k e = k' e) → tracks m k → tracks m k'.
Proof. intros Hk Hm s. rewrite <- Hk. apply Hm. Qed.

Lemma tracks_each {A} (l : list A) m k : Forall (λ x, tracks (m x) (k x)) l → tracks (each m l) (each k l).
Proof.
  induction 1 as [|x l Hx Hl IH]; [done|]. by apply (tracks_then (m x) (k x) (each m l) (each k l)).
Qed.

Lemma tracks_for_each {A} (l : list A) m k : (∀ x, tracks (m x) (k x)) → tracks (for_each l m) (for_each l k).
Proof. intros Hm s. rewrite <- !each_for_each. by apply tracks_each, Forall_true. Qed.

Lemma tracks_push_reloc t i : tracks (push_reloc t i) Ok.
Proof. done. Qed.

Lemma tracks_reloc_index t m i : tracks (reloc_index t m i) Ok.
Proof. unfold reloc_index. by destruct (jm_get m i). Qed.

(** A disarmed check writes nothing. *)
Lemma tracks_armed m f k : tracks m k → tracks m (if_armed None f ⟫ k).
Proof. done. Qed.

Lemma obj_plain_ops_agree op ps : find_op obj_plain_ops op = Some ps → find_op plain_ops op = Some ps.
Proof.
  assert (Forall (λ f, find_op plain_ops f.1 = Some f.2) obj_plain_ops) as H
    by (repeat (constructor; [vm_compute; reflexivity|]); constructor).
  unfold find_op at 1. destruct (list_find _ _) as [[i f]|] eqn:E; [|done]. intros [= <-].
  apply list_find_Some in E as (Hl & <- & _). rewrite Forall_forall in H. apply H. by eapply list_elem_of_lookup_2.
Qed.

Section tracks.
Context `{TextCodec} (maps : SymbolMaps).

Local Ltac track :=
  repeat first
    [ assumption
    | apply tracks_armed
    | apply tracks_put
    | lazymatch goal with
      | |- tracks (push_reloc _ _ ⟫ _) _ => apply tracks_silent; [apply tracks_push_reloc|]
      | |- tracks (reloc_index _ _ _ ⟫ _) _ => apply tracks_silent; [apply tracks_reloc_index|]
      | |- tracks (_ ⟫ _) (_ ⟫ _) => apply tracks_then
      end ].

Lemma tracks_call code f : tracks (obj_call maps code f) (encode_call None None code f).
Proof.
  apply (tracks_ext _ (byte code ⟫ u32 f)); [done|]. unfold obj_call. track.
Qed.

Lemma tracks_plain op : supported (Plain op) = true → tracks (obj_plain op) (encode_plain op).
Proof.
  simpl. unfold obj_plain, encode_plain, from_table. destruct (find_op obj_plain_ops op) as [ps|] eqn:E; [|done].
  intros _. rewrite (obj_plain_ops_agree _ _ E). apply (tracks_ext _ (write_pieces ps)); [|apply tracks_put].
  intros e. unfold then_. by destruct (write_pieces ps e).
Qed.

Lemma tracks_catch c : tracks (obj_catch maps c) (encode_catch None c).
Proof.
  unfold obj_catch, encode_catch, obj_tag. destruct (tc_kind c), (tc_tagIdx c); track.
Qed.

Lemma tracks_heap_type code t : tracks (obj_heap_type code t) (encode_heap_type None code t).
Proof.
  unfold obj_heap_type, encode_heap_type. track. destruct (0 <=? t); [track|].
  apply (tracks_silent Ok); [done|]. track.
Qed.

Lemma tracks_leaf i :
  match i with
  | Block _ _ | Loop _ _ | If _ _ _ | Try _ _ _ _ | TryTable _ _ _ => True
  | _ => supported i = true → tracks (encodeInstrWithReloc maps i) (encodeInstr None None i)
  end.
Proof.
  destruct i; try done; cbn [encodeInstr encodeInstrWithReloc]; try apply tracks_plain;
    intros _; try apply tracks_call; try apply tracks_heap_type;
    unfold obj_global, encode_global, encode_local, encode_call_indirect, encode_ref_null, obj_gc, encode_gc,
      obj_struct_field, encode_struct_field, encode_call_ref, obj_tag, encode_tag, obj_type; track.
Qed.

Abbreviation follows := (λ i, supported i = true → tracks (encodeInstrWithReloc maps i) (encodeInstr None None i)).

Lemma tracks_body l :
  Forall follows l → forallb supported l = true →
  tracks (each (encodeInstrWithReloc maps) l) (each (encodeInstr None None) l).
Proof.
  intros Hl Hs. apply tracks_each. rewrite Forall_forall in Hl |- *. intros i Hi. apply Hl; [done|].
  rewrite forallb_forall in Hs. by apply Hs, list_elem_of_In.
Qed.

Lemma tracks_else bt el :
  (∀ l, el = Some l → Forall follows l) → match el with Some l => forallb supported l | None => true end = true →
  tracks (obj_else_part bt el (each (encodeInstrWithReloc maps))) (else_part bt el (each (encodeInstr None None))).
Proof.
  intros Hel Hs. unfold obj_else_part, else_part. destruct el as [[|i l]|]; [destruct bt; track; done| |destruct bt; track; done].
  pose proof (tracks_body _ (Hel _ eq_refl) Hs). track.
Qed.

Lemma tracks_instr i : supported i = true → tracks (encodeInstrWithReloc maps i) (encodeInstr None None i).
Proof.
  revert i. apply (instr_tree_ind follows); [exact tracks_leaf|..].
  - intros bt body IH Hs. cbn [encodeInstr encodeInstrWithReloc]. apply (tracks_body body IH) in Hs. track.
  - intros bt body IH Hs. cbn [encodeInstr encodeInstrWithReloc]. apply (tracks_body body IH) in Hs. track.
  - intros bt th el IHt IHe [Ht He]%andb_true_iff. cbn [encodeInstr encodeInstrWithReloc].
    apply (tracks_body th IHt) in Ht. pose proof (tracks_else bt el IHe He). track.
  - intros bt body cs ca IHb IHc IHa [[Hb Hc]%andb_true_iff Ha]%andb_true_iff. cbn [encodeInstr encodeInstrWithReloc].
    apply (tracks_body body IHb) in Hb.
    assert (tracks (each (λ c, put (byte (OP "catch")) ⟫ put (u32 c.1) ⟫ each (encodeInstrWithReloc maps) c.2) cs)
      (each (λ c, encode_tag None (OP "catch") c.1 ⟫ each (encodeInstr None None) c.2) cs)) as Hcs.
    { apply tracks_each. rewrite Forall_forall in IHc |- *. intros cl Hcl. apply forallb_forall with (x := cl) in Hc; [|by apply list_elem_of_In].
      pose proof (tracks_body cl.2 (IHc cl Hcl) Hc) as Hb'. unfold encode_tag.
      apply (tracks_ext _ (byte (OP "catch") ⟫ u32 cl.1 ⟫ each (encodeInstr None None) cl.2)); [|track].
      intros e. unfold then_, if_armed, check. csimpl. by destruct (byte _ e). }
    destruct ca as [l|]; [apply (tracks_body l (IHa l eq_refl)) in Ha|]; track; done.
  - intros bt body cs IH Hs. cbn [encodeInstr encodeInstrWithReloc]. apply (tracks_body body IH) in Hs.
    pose proof (tracks_for_each cs _ _ tracks_catch). track.
Qed.

Lemma tracks_instrs l : forallb supported l = true → tracks (each (encodeInstrWithReloc maps) l) (encodeInstrs None None l).
Proof. apply tracks_body, Forall_true. intros i. apply tracks_instr. Qed.
End tracks.

(** * Properties *)

(** the object writer agrees with the binary writer.  On a body whose instructions
    all have a case in the object writer, whatever the symbols, it appends the bytes
    that the unchecked binary writer appends, and throws what it throws; an instruction
    without fields that only the binary writer knows is dropped: nothing is written and
    nothing is thrown. *)
Theorem encodeInstrWithReloc_bytes `{TextCodec} maps :
  (∀ body s, forallb supported body = true →
     o_enc <$> each (encodeInstrWithReloc maps) body s = encodeInstrs None None body (o_enc s)) ∧
  (∀ op s, op ∈ dropped_ops → encodeInstrWithReloc maps (Plain op) s = Ok s ∧ ∃ ps, find_op plain_ops op = Some ps).
Proof.
  split; [intros body s Hb; by apply tracks_instrs|].
  intros op s. unfold dropped_ops. rewrite list_elem_of_filter. intros [Hop Hin].
  cbn [encodeInstrWithReloc]. unfold obj_plain. rewrite Hop. split; [done|].
  apply list_elem_of_fmap in Hin as ([op' ps] & -> & Hin). unfold find_op.
  destruct (list_find _ _) as [[i f]|] eqn:E; [by exists f.2|]. exfalso.
  apply list_find_None in E. rewrite Forall_forall in E. by apply (E _ Hin).
Qed.

(** Integer arithmetic is among the dropped ones. *)
Lemma integer_ops_dropped :
  Forall (λ op, op ∈ dropped_ops) ["i64.add"; "i64.eqz"; "i32.div_s"; "i32.lt_u"; "memory.copy"]%string.
Proof. repeat constructor; (apply bool_decide_unpack; vm_compute; exact I). Qed.

Import WasmEncoder.

(** * Steps with relocations *)

Definition osteady (m : oemitter) : Prop :=
  ∀ s, wf (o_enc s) → yields (λ s', extends (o_enc s) (o_enc s')) (m s).

Lemma osteady_then m k : osteady m → osteady k → osteady (m ⟫ k).
Proof.
  intros Hm Hk s Hs. eapply yields_bind; [by apply Hm|]. intros s1 H1. eapply yields_mono; [apply Hk, H1|].
  intros s2. by apply extends_trans.
Qed.

Lemma osteady_skip : osteady Ok.
Proof. intros s Hs. by apply extends_self. Qed.

Lemma osteady_put m : steady m → osteady (put m).
Proof. intros Hm s Hs. unfold put. eapply yields_bind; [by apply Hm|]. by intros e. Qed.

Lemma osteady_push_reloc t i : osteady (push_reloc t i).
Proof. intros s Hs. by apply extends_self. Qed.

Lemma osteady_reloc_index t m i : osteady (reloc_index t m i).
Proof. unfold reloc_index. destruct (jm_get m i); [apply osteady_push_reloc|apply osteady_skip]. Qed.

Lemma osteady_each {A} (l : list A) m : Forall (λ x, osteady (m x)) l → osteady (each m l).
Proof. induction 1 as [|x l Hx Hl IH]; [apply osteady_skip|]. by apply (osteady_then (m x) (each m l)). Qed.

Lemma osteady_for_each {A} (l : list A) m : (∀ x, osteady (m x)) → osteady (for_each l m).
Proof. intros Hm s Hs. rewrite <- each_for_each. apply osteady_each; [|done]. by apply Forall_true. Qed.

Section total.
Context `{TextCodec} (maps : SymbolMaps).

Local Ltac osteady :=
  repeat lazymatch goal with
  | |- osteady (_ ⟫ _) => apply osteady_then
  | |- osteady (put _) => apply osteady_put; solve [auto with steady | apply steady_bytes | apply steady_blockType | apply steady_pieces]
  | |- osteady Ok => apply osteady_skip
  | |- osteady (push_reloc _ _) => apply osteady_push_reloc
  | |- osteady (reloc_index _ _ _) => apply osteady_reloc_index
  | |- osteady (each _ _) => apply osteady_each; try assumption
  | |- osteady (match ?x with _ => _ end) => destruct x
  end.

Lemma osteady_catch c : osteady (obj_catch maps c).
Proof. unfold obj_catch, obj_tag. osteady. Qed.

Lemma osteady_leaf i :
  match i with
  | Block _ _ | Loop _ _ | If _ _ _ | Try _ _ _ _ | TryTable _ _ _ => True
  | _ => osteady (encodeInstrWithReloc maps i)
  end.
Proof.
  destruct i; try done; cbn [encodeInstrWithReloc];
    unfold obj_plain, obj_call, obj_global, obj_tag, obj_heap_type, obj_struct_field, obj_gc, obj_type; osteady.
Qed.

Lemma osteady_instr i : osteady (encodeInstrWithReloc maps i).
Proof.
  revert i. apply (instr_tree_ind (λ i, osteady (encodeInstrWithReloc maps i))); [apply osteady_leaf|..]; cbn [encodeInstrWithReloc].
  - intros bt body IH. osteady.
  - intros bt body IH. osteady.
  - intros bt th el IHt IHe. unfold obj_else_part. destruct el as [[|i l]|]; [| specialize (IHe _ eq_refl)|]; osteady.
  - intros bt body cs ca IHb IHc IHa.
    assert (Forall (λ cl : Z * list Instr, osteady (put (byte (OP "catch")) ⟫ put (u32 cl.1) ⟫
      each (encodeInstrWithReloc maps) cl.2)) cs) as Hcs.
    { eapply Forall_impl; [exact IHc|]. intros cl Hcl. cbv beta in Hcl. osteady. }
    destruct ca as [l|]; [specialize (IHa l eq_refl)|]; osteady.
  - intros bt body cs IH. osteady. apply osteady_for_each, osteady_catch.
Qed.

Lemma osteady_function f : osteady (encodeFunctionWithReloc maps f).
Proof.
  intros s Hs. unfold encodeFunctionWithReloc.
  eapply yields_bind; [apply steady_locals, wf_new|]. intros b [Hb _].
  eapply yields_bind; [apply (osteady_each _ _ (Forall_true _ _ osteady_instr) (mkOState b []) Hb)|]. intros s1 [H1 _].
  eapply yields_bind; [by apply steady_byte|]. intros b2 _. cbv zeta.
  eapply yields_bind; [apply steady_u32, wf_new|]. intros sz _.
  eapply yields_bind; [apply (steady_then (u32 (Z.of_nat (length (finish b2)))) (bytes (finish b2)));
    auto with steady|]. intros e He. exact He.
Qed.

Section file.
Context (md : WasmModule).

Lemma steady_obj_section {A} id (l : list A) m : (∀ x, steady (m x)) → steady (obj_section id l m).
Proof. intros Hm. unfold obj_section. destruct l; [apply steady_skip|]. apply steady_section, steady_vector. auto. Qed.

Lemma steady_obj_element elem : steady (obj_element maps elem).
Proof.
  unfold obj_element. assert (steady (obj_offset maps (em_offset elem))) as Ho; [|steady].
  intros e He. unfold obj_offset.
  eapply yields_bind; [apply (osteady_each _ _ (Forall_true _ _ osteady_instr) (mkOState e []) He)|]. by intros s1 Hs.
Qed.

Lemma steady_obj_sections : steady (obj_sections md maps).
Proof.
  unfold obj_sections.
  repeat match goal with
  | |- steady (_ ⟫ _) => apply steady_then
  | |- steady (obj_section _ _ _) => apply steady_obj_section; intros x
  end.
  - apply steady_typeDef.
  - apply steady_import.
  - apply steady_u32.
  - unfold obj_table. steady. apply steady_limits.
  - unfold obj_tag_entry. steady.
  - by apply steady_global.
  - by apply steady_export.
  - apply steady_obj_element.
Qed.

Lemma settles_code_payload : settles (obj_code_payload md maps).
Proof.
  unfold obj_code_payload. eapply yields_settles, (yields_bind (extends new) (λ _, True)); [apply steady_u32, wf_new|].
  intros e [He _]. eapply yields_bind; [apply (osteady_for_each _ _ osteady_function (mkOState e []) He)|]. done.
Qed.

Lemma steady_obj_code bs : steady (obj_code bs).
Proof. unfold obj_code. steady. Qed.

Lemma steady_obj_relocs relocs : steady (obj_relocs md relocs).
Proof. unfold obj_relocs. steady. Qed.

Lemma steady_obj_linking symbols : steady (obj_linking symbols).
Proof.
  unfold obj_linking. apply steady_section. apply steady_then; [auto with steady|]. apply steady_then; [auto with steady|].
  intros e He. eapply yields_bind.
  - apply (steady_then (u32 (Z.of_nat (length symbols))) (for_each symbols obj_symbol)); [auto with steady| |apply wf_new].
    apply steady_for_each. intros y _. unfold obj_symbol. steady.
  - intros sub _. cbv zeta. revert e He. change (steady (byte (LINKING_SUBSECTION "WASM_SYMBOL_TABLE") ⟫
      u32 (Z.of_nat (length (finish sub))) ⟫ bytes (finish sub))). steady.
Qed.
End file.
End total.

(** Emission comes to an end. *)
Lemma emitObject_settles `{TextCodec} md : settles (emitObject md).
Proof.
  unfold emitObject. destruct (symbol_table md) as [symbols maps].
  match goal with |- settles (finish <$> ?m new) => assert (steady m) as Hs; [|specialize (Hs new wf_new); by destruct (m new)] end.
  repeat match goal with
  | |- steady (_ ⟫ _) => apply steady_then
  | |- steady (bytes_array _) => eapply steady_emits, emits_bytes_array
  end; [apply steady_obj_sections| |apply steady_obj_linking].
  unfold obj_code_and_relocs. destruct (m_functions md); [apply steady_skip|].
  apply steady_with_value; [apply settles_code_payload|]. intros p _. apply steady_then; [apply steady_obj_code|apply steady_obj_relocs].
Qed.
