(* ===== verification/ObjReloc.v ===== *)
(** The relocations of an object file (src/emit/object.ts) are enough to link it.

    Code is cut into [span]s: bytes that stay, and operands that a relocation marks.
    Writing the code of a module and the same code with other indices ([reindexing])
    gives the same spans up to the operands ([paired], [alike]), so no other byte holds
    an index; the operands are the references of the instructions ([instr_uses]), and
    the symbols of their relocations are read through the symbol table ([truthful]).
    [relocatable] says which places are left out, since nothing relocates them. *)

From S2P Require Import Prelude Encoder ObjReader Emit WasmModel WasmOps WasmEncode WasmCheck BinaryWriter BinaryTotal ObjWriter ObjTotal.
Import WasmEncoder.

(** * LEB128 numbers of both signs *)

(** A signed number that is not negative reads back unsigned. *)
Lemma reads_u32_sleb v : 0 ≤ v < 2 ^ 31 → reads ByteReader.u32 (sleb32 v) v.
Proof.
  intros Hv. unfold sleb32.
  destruct (sleb_groups 5 v) as (gs & g & -> & Hl & Hg & Hval); [change (7 * Z.of_nat 5 - 1) with 34; lia|lia|].
  pose proof (gval_range _ Hg) as Hr.
  assert (gval (gs ++ [g]) = v) as Hgv by (destruct (g <? 64); lia).
  eapply reads_eq; [eapply reads_bind; [by apply reads_leb|apply reads_ret]|by rewrite app_nil_r|].
  simpl. rewrite Hgv. unfold js_shru. rewrite Z.mod_0_l, Z.shiftr_0_r by lia.
  rewrite to_uint32_int32. apply to_uint32_small. lia.
Qed.

(** * Code in spans *)

(** An operand with a relocation: the type and the symbol of the relocation, and the
    index that is written. *)
Record ObjRef := mkObjRef { ref_type : Z; ref_symbol : Z; ref_value : Z }.

(** Code is bytes that stay and operands that a relocation marks. *)
Inductive span := Code (bs : list Z) | Spot (x : ObjRef) (bs : list Z).

Definition span_bytes (p : span) : list Z := match p with Code bs | Spot _ bs => bs end.
Definition text (ps : list span) : list Z := ps ≫= span_bytes.
Definition refs (ps : list span) : list ObjRef := omap (λ p, match p with Spot x _ => Some x | Code _ => None end) ps.

(** An operand reads as the index. *)
Definition readable (p : span) : Prop :=
  match p with Spot x bs => reads ByteReader.u32 bs (ref_value x) | Code _ => True end.

(** The relocations of the operands, where the code starts at the position [at_]. *)
Fixpoint spots (at_ : Z) (ps : list span) : list ObjReloc :=
  match ps with
  | [] => []
  | p :: ps' =>
      match p with Spot x _ => [mkObjReloc (ref_type x) at_ (ref_symbol x)] | Code _ => [] end ++
      spots (at_ + Z.of_nat (length (span_bytes p))) ps'
  end.

(** The same code up to the operands. *)
Inductive alike : span → span → Prop :=
  | alike_code bs : alike (Code bs) (Code bs)
  | alike_spot x y bs bs' : ref_type x = ref_type y → alike (Spot x bs) (Spot y bs').

Lemma text_app ps qs : text (ps ++ qs) = text ps ++ text qs.
Proof. apply bind_app. Qed.

Lemma refs_app ps qs : refs (ps ++ qs) = refs ps ++ refs qs.
Proof. apply omap_app. Qed.

Lemma spots_app at_ ps qs : spots at_ (ps ++ qs) = spots at_ ps ++ spots (at_ + Z.of_nat (length (text ps))) qs.
Proof.
  revert at_. induction ps as [|p ps IH]; intros at_; cbn [spots app]; [by rewrite Z.add_0_r|].
  rewrite IH, app_assoc. unfold text. rewrite bind_cons, length_app. do 2 f_equal. lia.
Qed.

(** Moving the code moves its relocations. *)
Lemma spots_move d at_ ps :
  (λ r, mkObjReloc (or_type r) (d + or_offset r) (or_symbolIndex r)) <$> spots at_ ps = spots (d + at_) ps.
Proof.
  revert at_. induction ps as [|p ps IH]; intros at_; [done|]. cbn [spots]. rewrite fmap_app, IH, Z.add_assoc.
  by destruct p.
Qed.

(** * Two writers at once *)

(** What a step adds to the section and to the relocations. *)
Definition adds (s s' : ostate) (ps : list span) : Prop :=
  wf (o_enc s') ∧ finish (o_enc s') = finish (o_enc s) ++ text ps ∧
  o_relocs s' = o_relocs s ++ spots (Z.of_nat (length (finish (o_enc s)))) ps ∧ Forall readable ps.

Lemma spans_nil s : wf (o_enc s) → adds s s [].
Proof. intros Hs. split_and!; [done|by rewrite app_nil_r|by rewrite app_nil_r|done]. Qed.

Lemma spans_app s1 s2 s3 ps qs : adds s1 s2 ps → adds s2 s3 qs → adds s1 s3 (ps ++ qs).
Proof.
  intros (_ & F1 & R1 & P1) (W & F2 & R2 & P2). split_and!; [done| | |by apply Forall_app].
  - by rewrite F2, F1, text_app, app_assoc.
  - rewrite R2, R1, F1, spots_app, length_app, Nat2Z.inj_add. by rewrite app_assoc.
Qed.

(** The steps write the same code up to the operands with relocations, which are [xs]
    in the one and [ys] in the other. *)
Definition paired (m m' : oemitter) (xs ys : list ObjRef) : Prop := ∀ s s1 t t1,
  wf (o_enc s) → wf (o_enc t) → m s = Ok s1 → m' t = Ok t1 →
  ∃ ps qs, adds s s1 ps ∧ adds t t1 qs ∧ Forall2 alike ps qs ∧ refs ps = xs ∧ refs qs = ys.

Lemma paired_then m m' k k' xs ys xs' ys' :
  paired m m' xs ys → paired k k' xs' ys' → paired (m ⟫ k) (m' ⟫ k') (xs ++ xs') (ys ++ ys').
Proof.
  intros Hm Hk s s2 t t2 Hs Ht H H'. unfold then_ in H, H'.
  destruct (m s) as [s1|] eqn:E; [|done]. destruct (m' t) as [t1|] eqn:E'; [|done]. csimpl in H. csimpl in H'.
  destruct (Hm s s1 t t1 Hs Ht E E') as (ps & qs & Hp & Hq & Ha & <- & <-).
  destruct (Hk s1 s2 t1 t2 (proj1 Hp) (proj1 Hq) H H') as (ps' & qs' & Hp' & Hq' & Ha' & <- & <-).
  exists (ps ++ ps'), (qs ++ qs'). rewrite !refs_app. split_and!; [by eapply spans_app|by eapply spans_app|by apply Forall2_app|done|done].
Qed.

Lemma paired_skip : paired Ok Ok [] [].
Proof. intros s s1 t t1 Hs Ht [= <-] [= <-]. exists [], []. split_and!; [by apply spans_nil|by apply spans_nil|done|done|done]. Qed.

Lemma paired_each {A B} (l : list A) (l' : list B) m m' f g :
  Forall2 (λ x y, paired (m x) (m' y) (f x) (g y)) l l' → paired (each m l) (each m' l') (l ≫= f) (l' ≫= g).
Proof. induction 1 as [|x y l l' Hx Hl IH]; [apply paired_skip|]. by apply (paired_then (m x) (m' y) (each m l) (each m' l')). Qed.

Lemma position_finish e : wf e → position e = length (finish e).
Proof. intros [Hl _]. unfold position, finish. rewrite length_take. lia. Qed.

(** Steps of the encoder whose output does not depend on what is written already. *)
Definition fixed (m : emitter) : Prop := ∃ r, outputs m r.

Lemma fixed_then m k : fixed m → fixed k → fixed (m ⟫ k).
Proof. intros [r Hm] [r' Hk]. eexists. by apply outputs_then. Qed.

Lemma fixed_emits m bs : emits m bs → fixed m.
Proof. intros Hm. by exists (Ok bs). Qed.

Lemma fixed_byte b : fixed (byte b).
Proof. eapply fixed_emits, emits_byte. Qed.
Lemma fixed_bytes bs : fixed (bytes bs).
Proof. eapply fixed_emits, emits_bytes. Qed.
Lemma fixed_u32 v : fixed (u32 v).
Proof. eexists. apply outputs_u32. Qed.
Lemma fixed_i32 v : fixed (i32 v).
Proof. eexists. apply outputs_i32. Qed.
Lemma fixed_i64 v : fixed (i64 v).
Proof. eapply fixed_emits, emits_i64. Qed.
Lemma fixed_fails f : fixed (fails f).
Proof. eexists. apply outputs_fails. Qed.

Lemma fixed_each {A} (m : A → emitter) l : (∀ x, fixed (m x)) → fixed (each m l).
Proof.
  intros Hm. induction l as [|x l IH]; [eexists; apply outputs_skip|]. by apply (fixed_then (m x) (each m l)).
Qed.

Lemma fixed_for_each {A} (m : A → emitter) l : (∀ x, fixed (m x)) → fixed (for_each l m).
Proof. intros Hm. destruct (fixed_each m l Hm) as [r Hr]. exists r. eapply outputs_ext; [apply each_for_each|done]. Qed.

Lemma fixed_pieces ps : fixed (write_pieces ps).
Proof. apply fixed_for_each. intros []; [apply fixed_byte|apply fixed_u32]. Qed.

Lemma fixed_armed f : fixed (if_armed None f).
Proof. eexists. apply outputs_skip. Qed.

Create HintDb fixed.
#[local] Hint Resolve fixed_byte fixed_u32 fixed_i32 fixed_i64 fixed_fails fixed_bytes fixed_armed fixed_pieces : fixed.

Local Ltac fix_all := repeat lazymatch goal with |- fixed (_ ⟫ _) => apply fixed_then | |- fixed _ => progress auto with fixed end.

Lemma fixed_valType t : fixed (encodeValType None t).
Proof. destruct t; cbn [encodeValType]; fix_all. Qed.

Lemma fixed_blockType bt : fixed (encodeBlockType None bt).
Proof. destruct bt; [apply fixed_byte|apply fixed_valType|]. cbn [encodeBlockType]. fix_all. Qed.

Lemma fixed_locals l : fixed (encode_locals None l).
Proof. apply (fixed_then (u32 _)); [apply fixed_u32|]. apply fixed_for_each. intros x. apply fixed_then; [apply fixed_u32|apply fixed_valType]. Qed.

Lemma paired_put m : fixed m → paired (put m) (put m) [] [].
Proof.
  intros [r Hm] s s1 t t1 Hs Ht H H'. unfold put in H, H'. pose proof (Hm _ Hs) as Es. pose proof (Hm _ Ht) as Et.
  destruct r as [bs|f]; [|by rewrite Es in H]. destruct Es as (e & Es & We & Fe). destruct Et as (e' & Et & We' & Fe').
  rewrite Es in H. rewrite Et in H'. csimpl in H. csimpl in H'. injection H as <-. injection H' as <-.
  exists [Code bs], [Code bs]. unfold adds, text. csimpl. rewrite !app_nil_r.
  split_and!; try done; repeat constructor.
Qed.

Lemma paired_before m k k' xs ys : fixed m → paired k k' xs ys → paired (put m ⟫ k) (put m ⟫ k') xs ys.
Proof. intros Hm Hk. by apply (paired_then _ _ _ _ [] []); [apply paired_put|]. Qed.

Lemma paired_after m k k' xs ys : fixed m → paired k k' xs ys → paired (k ⟫ put m) (k' ⟫ put m) xs ys.
Proof. intros Hm Hk. rewrite <- (app_nil_r xs), <- (app_nil_r ys). by apply paired_then; [|apply paired_put]. Qed.

(** A relocation and its operand. *)
Lemma adds_operand t sym m r v s s1 :
  outputs m r → (∀ bs, r = Ok bs → reads ByteReader.u32 bs v) → wf (o_enc s) →
  (push_reloc t sym ⟫ put m) s = Ok s1 → ∃ bs, adds s s1 [Spot (mkObjRef t sym v) bs].
Proof.
  intros Hm Hr Hs H. unfold then_, push_reloc, put in H. csimpl in H. specialize (Hm _ Hs).
  destruct r as [bs|f]; [|by rewrite Hm in H]. destruct Hm as (e & E & W & F). rewrite E in H. csimpl in H. injection H as <-.
  exists bs. unfold adds, text. csimpl. rewrite !app_nil_r. rewrite position_finish by done.
  split_and!; [done|done|done|]. constructor; [by apply Hr|done].
Qed.

Lemma paired_operand t sym sym' m m' r r' v v' :
  outputs m r → (∀ bs, r = Ok bs → reads ByteReader.u32 bs v) →
  outputs m' r' → (∀ bs, r' = Ok bs → reads ByteReader.u32 bs v') →
  paired (push_reloc t sym ⟫ put m) (push_reloc t sym' ⟫ put m') [mkObjRef t sym v] [mkObjRef t sym' v'].
Proof.
  intros Hm Hr Hm' Hr' s s1 u u1 Hs Hu H H'.
  destruct (adds_operand _ _ _ _ _ _ _ Hm Hr Hs H) as [bs Hb]. destruct (adds_operand _ _ _ _ _ _ _ Hm' Hr' Hu H') as [bs' Hb'].
  eexists _, _. split_and!; [exact Hb|exact Hb'| |done|done]. by repeat constructor.
Qed.

Lemma u32_reads v bs :
  (if decide (0 ≤ v < 2 ^ 32) then Ok (uleb32 v) else throw ERangeError (js "u32 out of range: " ++ js_num v)) = Ok bs →
  reads ByteReader.u32 bs v.
Proof. case_decide; [|done]. intros [= <-]. by apply reads_u32. Qed.

Lemma paired_u32 t sym sym' v v' :
  paired (push_reloc t sym ⟫ put (u32 v)) (push_reloc t sym' ⟫ put (u32 v')) [mkObjRef t sym v] [mkObjRef t sym' v'].
Proof. eapply paired_operand; [apply outputs_u32|apply u32_reads|apply outputs_u32|apply u32_reads]. Qed.

(** * Re-indexing *)

(** What linking does to the indices of functions, globals, tags and types. *)
Record reindexing := mkReindexing { rx_func : Z → Z; rx_global : Z → Z; rx_tag : Z → Z; rx_type : Z → Z }.

Section reindex.
Context (ρ : reindexing).

(** Codes of abstract heap types are negative, and stay. *)
Definition rx_heap (t : Z) : Z := if 0 <=? t then rx_type ρ t else t.

Definition reindex_valtype (t : ValType) : ValType :=
  match t with VRef i => VRef (rx_heap i) | VRefNull i => VRefNull (rx_heap i) | _ => t end.

Definition reindex_block (bt : BlockType) : BlockType :=
  match bt with BEmpty => BEmpty | BVal t => BVal (reindex_valtype t) | BType t => BType (rx_type ρ t) end.

Definition reindex_catch (c : TryTableCatch) : TryTableCatch :=
  mkCatch (tc_kind c) (rx_tag ρ <$> tc_tagIdx c) (tc_depth c).

(** Every index of an instruction. *)
Fixpoint reindex_instr (i : Instr) : Instr :=
  match i with
  | GlobalGet g => GlobalGet (rx_global ρ g)
  | GlobalSet g => GlobalSet (rx_global ρ g)
  | Block bt body => Block (reindex_block bt) (reindex_instr <$> body)
  | Loop bt body => Loop (reindex_block bt) (reindex_instr <$> body)
  | If bt th el => If (reindex_block bt) (reindex_instr <$> th) (fmap (M := list) reindex_instr <$> el)
  | Call f => Call (rx_func ρ f)
  | ReturnCall f => ReturnCall (rx_func ρ f)
  | RefFunc f => RefFunc (rx_func ρ f)
  | CallIndirect t table => CallIndirect (rx_type ρ t) table
  | CallRef t => CallRef (rx_type ρ t)
  | ReturnCallRef t => ReturnCallRef (rx_type ρ t)
  | StructNew t => StructNew (rx_type ρ t)
  | StructGet t f => StructGet (rx_type ρ t) f
  | StructSet t f => StructSet (rx_type ρ t) f
  | ArrayNew t => ArrayNew (rx_type ρ t)
  | ArrayNewFixed t n => ArrayNewFixed (rx_type ρ t) n
  | ArrayNewDefault t => ArrayNewDefault (rx_type ρ t)
  | ArrayGet t => ArrayGet (rx_type ρ t)
  | ArrayGetS t => ArrayGetS (rx_type ρ t)
  | ArrayGetU t => ArrayGetU (rx_type ρ t)
  | ArraySet t => ArraySet (rx_type ρ t)
  | ArrayCopy d s => ArrayCopy (rx_type ρ d) (rx_type ρ s)
  | ArrayFill t => ArrayFill (rx_type ρ t)
  | RefNull t => RefNull (rx_heap t)
  | RefCast t => RefCast (rx_heap t)
  | RefCastNull t => RefCastNull (rx_heap t)
  | RefTest t => RefTest (rx_heap t)
  | Throw_ t => Throw_ (rx_tag ρ t)
  | TryTable bt body cs => TryTable (reindex_block bt) (reindex_instr <$> body) (reindex_catch <$> cs)
  | Try bt body cs ca =>
      Try (reindex_block bt) (reindex_instr <$> body)
        (fmap (M := list) (λ c, (rx_tag ρ c.1, reindex_instr <$> c.2)) cs) (fmap (M := list) reindex_instr <$> ca)
  | _ => i
  end.

Definition reindex_function (f : WasmFunction) : WasmFunction :=
  mkWasmFunction (wf_name f) (rx_type ρ (wf_typeIdx f)) (reindex_valtype <$> wf_locals f) (reindex_instr <$> wf_body f).
End reindex.

(** * What the writer covers *)

Definition abstract_block (bt : BlockType) : bool :=
  match bt with BVal (VRef t | VRefNull t) => t <? 0 | BType _ => false | _ => true end.

(** The places that hold an index and get no relocation are left out: concrete block
    types, ref.null of a concrete type, and the catch clauses of the legacy try. *)
Fixpoint relocatable (i : Instr) : bool :=
  match i with
  | RefNull t => t <? 0
  | Block bt body | Loop bt body | TryTable bt body _ => abstract_block bt && forallb relocatable body
  | If bt th el => abstract_block bt && forallb relocatable th && match el with Some l => forallb relocatable l | None => true end
  | Try bt body cs ca =>
      abstract_block bt && forallb relocatable body && bool_decide (cs = []) &&
      match ca with Some l => forallb relocatable l | None => true end
  | _ => true
  end.

Definition abstract_local (t : ValType) : bool := match t with VRef t | VRefNull t => t <? 0 | _ => true end.

Section refs.
Context (maps : SymbolMaps).

Definition index_ref (type : Z) (map : jsmap Z Z) (index : Z) : list ObjRef :=
  match jm_get map index with Some sym => [mkObjRef type sym index] | None => [] end.
Definition type_ref (t : Z) : list ObjRef := [mkObjRef (RELOC "R_WASM_TYPE_INDEX_LEB") t t].

(** The relocation that a reference to an entity calls for. *)
Definition use_refs (u : use) : list ObjRef :=
  match u with
  | UFunc f => index_ref (RELOC "R_WASM_FUNCTION_INDEX_LEB") (funcIdxToSymIdx maps) f
  | UGlobal g => index_ref (RELOC "R_WASM_GLOBAL_INDEX_LEB") (globalIdxToSymIdx maps) g
  | UTag t => index_ref (RELOC "R_WASM_TAG_INDEX_LEB") (tagIdxToSymIdx maps) t
  | UType t | USignature t | UField t _ => type_ref t
  | UHeapType t => if 0 <=? t then type_ref t else []
  | UTable _ | UMemory _ | ULocal _ => []
  end.

(** The index has a symbol; a heap type fits the 32 bits it is written in. *)
Definition known (u : use) : Prop :=
  match u with
  | UFunc f => is_Some (jm_get (funcIdxToSymIdx maps) f)
  | UGlobal g => is_Some (jm_get (globalIdxToSymIdx maps) g)
  | UTag t => is_Some (jm_get (tagIdxToSymIdx maps) t)
  | UHeapType t => t < 2 ^ 31
  | _ => True
  end.
End refs.

(** * Instructions *)

Section instr.
Context `{TextCodec} (ρ : reindexing) (Hρ : ∀ t, 0 ≤ t → 0 ≤ rx_type ρ t) (maps maps' : SymbolMaps).
Abbreviation refs_of := (λ i, instr_uses i ≫= use_refs maps).
Abbreviation refs_of' := (λ i, instr_uses (reindex_instr ρ i) ≫= use_refs maps').

Lemma rx_heap_sign t : (0 <=? rx_heap ρ t) = (0 <=? t).
Proof.
  unfold rx_heap. destruct (Z.leb_spec 0 t) as [Ht|Ht]; apply Z.leb_le || apply Z.leb_gt; [by apply Hρ|lia].
Qed.

Lemma abstract_valtype t : abstract_local t = true → reindex_valtype ρ t = t ∧ valtype_uses t ≫= use_refs maps = [].
Proof.
  destruct t; try done; intros Ht%Z.ltb_lt; cbn; unfold rx_heap; by rewrite (proj2 (Z.leb_gt 0 _)) by done.
Qed.

Lemma abstract_blocktype bt : abstract_block bt = true → reindex_block ρ bt = bt ∧
  blocktype_uses bt ≫= use_refs maps = [] ∧ blocktype_uses bt ≫= use_refs maps' = [].
Proof.
  destruct bt as [|t|]; try done; intros Hb.
  assert (abstract_local t = true) as Ht by (by destruct t). destruct (abstract_valtype t Ht) as [E _]. cbn. rewrite E.
  destruct t; try done; apply Z.ltb_lt in Ht; cbn; by rewrite (proj2 (Z.leb_gt 0 _)) by done.
Qed.

Lemma paired_index t map map' v v' : is_Some (jm_get map v) → is_Some (jm_get map' v') →
  paired (reloc_index t map v ⟫ put (u32 v)) (reloc_index t map' v' ⟫ put (u32 v')) (index_ref t map v) (index_ref t map' v').
Proof. unfold reloc_index, index_ref. intros [sym ->] [sym' ->]. apply paired_u32. Qed.

Lemma i32_reads t bs : 0 ≤ t < 2 ^ 31 → Ok (sleb32 (to_int32 t)) = Ok bs → reads ByteReader.u32 bs t.
Proof. intros Ht [= <-]. rewrite to_int32_small by lia. by apply reads_u32_sleb. Qed.

Lemma paired_heap_type code t : known maps (UHeapType t) → known maps' (UHeapType (rx_heap ρ t)) →
  paired (obj_heap_type code t) (obj_heap_type code (rx_heap ρ t))
    (use_refs maps (UHeapType t)) (use_refs maps' (UHeapType (rx_heap ρ t))).
Proof.
  intros Ht Ht'. unfold obj_heap_type. cbn [use_refs known] in *. rewrite rx_heap_sign. do 2 (apply paired_before; [apply fixed_byte|]).
  unfold rx_heap in *. destruct (Z.leb_spec 0 t) as [H0|H0].
  - pose proof (Hρ t H0). eapply paired_operand; try apply outputs_i32; intros bs; apply i32_reads; lia.
  - apply (paired_then Ok Ok _ _ [] []); [apply paired_skip|apply paired_put, fixed_i32].
Qed.

Local Ltac ready := solve [auto with fixed | apply fixed_blockType].
Local Ltac pair :=
  repeat lazymatch goal with
  | |- paired (reloc_index _ _ _ ⟫ put (u32 _)) _ _ _ => apply paired_index
  | |- paired (push_reloc _ _ ⟫ put (u32 _)) _ _ _ => apply paired_u32
  | |- paired (obj_heap_type _ _) _ _ _ => apply paired_heap_type
  | |- paired (put _ ⟫ _) _ _ _ => apply paired_before; [ready|]
  | |- paired (_ ⟫ put _) _ _ _ => apply paired_after; [ready|]
  | |- paired (put _) _ _ _ => apply paired_put; ready
  | |- paired Ok _ _ _ => apply paired_skip
  | |- paired (obj_call _ _ _) _ _ _ => unfold obj_call
  | |- paired (obj_global _ _ _) _ _ _ => unfold obj_global
  | |- paired (obj_tag _ _) _ _ _ => unfold obj_tag
  | |- paired (obj_type _) _ _ _ => unfold obj_type
  | |- paired (obj_gc _ _) _ _ _ => unfold obj_gc
  | |- paired (obj_struct_field _ _ _) _ _ _ => unfold obj_struct_field
  end.

Abbreviation knows := (λ i, Forall (known maps) (instr_uses i) ∧ Forall (known maps') (instr_uses (reindex_instr ρ i))).
Abbreviation follows := (λ i, supported i = true → relocatable i = true → knows i →
  paired (encodeInstrWithReloc maps i) (encodeInstrWithReloc maps' (reindex_instr ρ i)) (refs_of i) (refs_of' i)).

Lemma paired_leaf i :
  match i with
  | Block _ _ | Loop _ _ | If _ _ _ | Try _ _ _ _ | TryTable _ _ _ => True
  | _ => follows i
  end.
Proof.
  destruct i; try done; intros Hs Hr [Hk Hk']; try done; cbn [encodeInstrWithReloc reindex_instr instr_uses] in *;
    try (apply Forall_inv in Hk, Hk'); cbn [mbind list_bind known relocatable] in *; rewrite ?app_nil_r; pair; try done.
  - unfold obj_plain. destruct (find_op _ _); [apply paired_put, fixed_pieces|apply paired_skip].
  - apply paired_put, fixed_bytes.
  - apply paired_put, fixed_bytes.
  - apply Z.ltb_lt in Hr. unfold rx_heap, use_refs. rewrite (proj2 (Z.leb_gt 0 _)) by done.
    rewrite (proj2 (Z.leb_gt 0 _)) by done. pair.
Qed.

Lemma bind_assoc {A B C} (l : list A) (f : A → list B) (g : B → list C) : (l ≫= f) ≫= g = l ≫= λ x, f x ≫= g.
Proof. induction l as [|x l IH]; [done|]. by rewrite !bind_cons, bind_app, IH. Qed.

Abbreviation covered l := (Forall (λ i, supported i = true ∧ relocatable i = true) l).
Abbreviation knows_all l := (Forall (known maps) (l ≫= instr_uses) ∧ Forall (known maps') ((reindex_instr ρ <$> l) ≫= instr_uses)).

Lemma paired_body l : Forall follows l → covered l → knows_all l →
  paired (each (encodeInstrWithReloc maps) l) (each (encodeInstrWithReloc maps') (reindex_instr ρ <$> l))
    ((l ≫= instr_uses) ≫= use_refs maps) (((reindex_instr ρ <$> l) ≫= instr_uses) ≫= use_refs maps').
Proof.
  intros Hl Hc [Hk Hk']. rewrite !bind_assoc. apply paired_each. rewrite Forall2_fmap_r.
  induction Hl as [|i l Hi Hl IH]; [done|]. apply Forall_cons in Hc as [[Hs Hr] Hc].
  rewrite fmap_cons, !bind_cons in Hk'. rewrite bind_cons in Hk. apply Forall_app in Hk as [Hki Hk], Hk' as [Hki' Hk'].
  constructor; [by apply Hi|by apply IH].
Qed.

Lemma covered_list l : forallb supported l = true → forallb relocatable l = true → covered l.
Proof.
  rewrite !forallb_forall. intros Hs Hr. apply Forall_forall. intros i Hi%list_elem_of_In. auto.
Qed.

Lemma paired_else bt el :
  match el with
  | Some l => paired (each (encodeInstrWithReloc maps) l) (each (encodeInstrWithReloc maps') (reindex_instr ρ <$> l))
      ((l ≫= instr_uses) ≫= use_refs maps) (((reindex_instr ρ <$> l) ≫= instr_uses) ≫= use_refs maps')
  | None => True
  end →
  paired (obj_else_part bt el (each (encodeInstrWithReloc maps)))
    (obj_else_part bt (fmap (M := list) (reindex_instr ρ) <$> el) (each (encodeInstrWithReloc maps')))
    (match el with Some l => l ≫= instr_uses | None => [] end ≫= use_refs maps)
    (match fmap (M := list) (reindex_instr ρ) <$> el with Some l => l ≫= instr_uses | None => [] end ≫= use_refs maps').
Proof.
  intros Hel. unfold obj_else_part. destruct el as [[|i l]|]; csimpl; [destruct bt; pair| |destruct bt; pair].
  apply paired_before; [ready|]. exact Hel.
Qed.

Lemma paired_catch c : Forall (known maps) (catch_uses c) → Forall (known maps') (catch_uses (reindex_catch ρ c)) →
  paired (obj_catch maps c) (obj_catch maps' (reindex_catch ρ c)) (catch_uses c ≫= use_refs maps) (catch_uses (reindex_catch ρ c) ≫= use_refs maps').
Proof.
  intros Hk Hk'. unfold obj_catch, catch_uses in *. cbn [reindex_catch tc_kind tc_tagIdx tc_depth] in *.
  destruct (tc_kind c), (tc_tagIdx c); csimpl; pair; try done; try (by apply Forall_inv in Hk, Hk'); rewrite ?app_nil_r; pair;
    by apply Forall_inv in Hk, Hk'.
Qed.

Lemma paired_instr i : follows i.
Proof.
  revert i. refine (instr_tree_ind follows paired_leaf _ _ _ _ _); cbn [encodeInstrWithReloc reindex_instr instr_uses supported relocatable].
  - intros bt body IH Hs [Hb Hr]%andb_true_iff [Hk Hk']. apply Forall_app in Hk as [_ Hk], Hk' as [_ Hk'].
    destruct (abstract_blocktype bt Hb) as (Eb & E & E'). rewrite Eb, !bind_app, E, E', !app_nil_l.
    pose proof (paired_body body IH (covered_list _ Hs Hr) (conj Hk Hk')) as Hbody. pair. exact Hbody.
  - intros bt body IH Hs [Hb Hr]%andb_true_iff [Hk Hk']. apply Forall_app in Hk as [_ Hk], Hk' as [_ Hk'].
    destruct (abstract_blocktype bt Hb) as (Eb & E & E'). rewrite Eb, !bind_app, E, E', !app_nil_l.
    pose proof (paired_body body IH (covered_list _ Hs Hr) (conj Hk Hk')) as Hbody. pair. exact Hbody.
  - intros bt th el IHt IHe [Hst Hse]%andb_true_iff [[Hb Hrt]%andb_true_iff Hre]%andb_true_iff [Hk Hk'].
    apply Forall_app in Hk as [_ [Hkt Hke]%Forall_app], Hk' as [_ [Hkt' Hke']%Forall_app].
    destruct (abstract_blocktype bt Hb) as (Eb & E & E'). rewrite Eb, !bind_app, E, E', !app_nil_l.
    pose proof (paired_body th IHt (covered_list _ Hst Hrt) (conj Hkt Hkt')) as Hth. pair.
    apply paired_then; [exact Hth|]. pair. apply paired_else. destruct el as [l|]; [|done].
    exact (paired_body l (IHe l eq_refl) (covered_list _ Hse Hre) (conj Hke Hke')).
  - intros bt body cs ca IHb _ IHa [[Hsb _]%andb_true_iff Hsa]%andb_true_iff [[[Hb Hrb]%andb_true_iff ->%bool_decide_eq_true]%andb_true_iff Hra]%andb_true_iff [Hk Hk'].
    apply Forall_app in Hk as [_ [Hkb Hka]%Forall_app], Hk' as [_ [Hkb' Hka']%Forall_app].
    destruct (abstract_blocktype bt Hb) as (Eb & E & E'). rewrite Eb, !bind_app, E, E', !app_nil_l.
    pose proof (paired_body body IHb (covered_list _ Hsb Hrb) (conj Hkb Hkb')) as Hbody. pair.
    apply paired_then; [exact Hbody|]. csimpl. apply (paired_then Ok Ok _ _ [] []); [apply paired_skip|].
    apply paired_after; [ready|]. destruct ca as [l|]; csimpl; [|pair]. pair.
    exact (paired_body l (IHa l eq_refl) (covered_list _ Hsa Hra) (conj Hka Hka')).
  - intros bt body cs IH Hs [Hb Hr]%andb_true_iff [Hk Hk']. apply Forall_app in Hk as [_ [Hkc Hk]%Forall_app], Hk' as [_ [Hkc' Hk']%Forall_app].
    destruct (abstract_blocktype bt Hb) as (Eb & E & E'). rewrite Eb, !bind_app, E, E', !app_nil_l.
    pose proof (paired_body body IH (covered_list _ Hs Hr) (conj Hk Hk')) as Hbody. rewrite length_fmap. pair.
    apply paired_then; [|pair; exact Hbody]. intros s s1 t t1 Hws Hwt. rewrite <- !each_for_each. revert s s1 t t1 Hws Hwt. 
    rewrite !bind_assoc. apply paired_each. rewrite Forall2_fmap_r. apply Forall_Forall2_diag.
    rewrite <- Forall_bind_fmap in Hkc, Hkc'. rewrite Forall_fmap in *. 
    apply Forall_forall. intros c Hc. rewrite list.Forall_forall in Hkc, Hkc'. apply paired_catch; [by apply Hkc|by apply Hkc'].
Qed.

(** ** Functions and the code section *)

Definition sized_spans (ps : list span) : list span := Code (uleb32 (Z.of_nat (length (text ps)))) :: ps.

Lemma u32_size {A} (l : list A) e e' :
  u32 (Z.of_nat (length l)) e = Ok e' → Z.of_nat (length l) < 2 ^ 32.
Proof.
  intros He. destruct (decide (Z.of_nat (length l) < 2 ^ 32)); [done|].
  rewrite u32_out_of_range in He by lia. done.
Qed.

Definition function_code (m : SymbolMaps) (f : WasmFunction) : oemitter :=
  put (encode_locals None (wf_locals f)) ⟫ each (encodeInstrWithReloc m) (wf_body f) ⟫ put (byte (OP "end")).

(** The code of a function is written apart and then behind its size. *)
Lemma function_run m f s s1 : wf (o_enc s) → encodeFunctionWithReloc m f s = Ok s1 →
  ∃ b, function_code m f (mkOState new []) = Ok b ∧ ∀ ps, adds (mkOState new []) b ps → adds s s1 (sized_spans ps).
Proof.
  intros Hs Hm. unfold encodeFunctionWithReloc in Hm. unfold function_code, then_, put. cbn [o_enc o_relocs].
  destruct (encode_locals None (wf_locals f) new) as [b0|] eqn:E0; [|done]. csimpl in Hm. csimpl.
  destruct (each _ (wf_body f) (mkOState b0 [])) as [b1|] eqn:E1; [|done]. csimpl in Hm. csimpl.
  destruct (byte (OP "end") (o_enc b1)) as [b2|] eqn:E2; [|done]. csimpl in Hm. csimpl.
  eexists. split; [done|]. intros ps (Wb & Fb & Rb & Pb). cbn [o_enc o_relocs finish new app length] in Fb, Rb.
  rewrite Fb in Hm. change (finish new) with (@nil Z) in Hm. cbn [app] in Hm.
  destruct (u32 _ new) as [pre|] eqn:Ep; [|done]. csimpl in Hm. pose proof (u32_size _ _ _ Ep) as Hn.
  set (sz := uleb32 (Z.of_nat (length (text ps)))).
  destruct (emits_u32 _ (conj (Nat2Z.is_nonneg _) Hn) new wf_new) as (pre' & Ep' & _ & Hpre).
  rewrite Ep' in Ep. injection Ep as ->. change (finish new) with (@nil Z) in Hpre. cbn [app] in Hpre. rewrite Hpre in Hm.
  assert (emits (u32 (Z.of_nat (length (text ps))) ⟫ bytes (text ps)) (sz ++ text ps)) as Hem
    by (apply emits_seq; [apply emits_u32; lia|apply emits_bytes]).
  destruct (Hem (o_enc s) Hs) as (e & E & We & Fe). rewrite E in Hm. csimpl in Hm. injection Hm as <-.
  unfold adds, sized_spans. cbn [o_enc o_relocs]. split_and!; [done|done| |by constructor].
  cbn [spots span_bytes app]. fold sz. rewrite position_finish, Rb by done. f_equal.
  change (length (finish new)) with 0%nat. cbn [app].
  pose proof (spots_move (Z.of_nat (length (finish (o_enc s))) + Z.of_nat (length sz)) 0 ps) as Hmove.
  rewrite Z.add_0_r in Hmove. exact Hmove.
Qed.

Lemma reindex_locals l : forallb abstract_local l = true → reindex_valtype ρ <$> l = l.
Proof.
  rewrite forallb_forall. intros Hl. rewrite <- (list_fmap_id l) at 2. apply list_fmap_ext. intros i t Ht.
  apply (abstract_valtype t), Hl, list_elem_of_In. by eapply list_elem_of_lookup_2.
Qed.

(** A function whose indices have symbols in both tables. *)
Definition linkable (f : WasmFunction) : Prop :=
  forallb abstract_local (wf_locals f) = true ∧ forallb supported (wf_body f) = true ∧ forallb relocatable (wf_body f) = true.

Abbreviation known_function f := (Forall (known maps) (wf_body f ≫= instr_uses) ∧
  Forall (known maps') (wf_body (reindex_function ρ f) ≫= instr_uses)).

Lemma paired_function f s s1 t t1 :
  linkable f → known_function f → wf (o_enc s) → wf (o_enc t) →
  encodeFunctionWithReloc maps f s = Ok s1 → encodeFunctionWithReloc maps' (reindex_function ρ f) t = Ok t1 →
  ∃ ps qs, adds s s1 (sized_spans ps) ∧ adds t t1 (sized_spans qs) ∧ Forall2 alike ps qs ∧
    refs ps = (wf_body f ≫= instr_uses) ≫= use_refs maps ∧
    refs qs = (wf_body (reindex_function ρ f) ≫= instr_uses) ≫= use_refs maps'.
Proof.
  intros (Hl & Hs & Hr) Hk Ws Wt E E'. destruct (function_run _ _ _ _ Ws E) as (b & Eb & Hb).
  destruct (function_run _ _ _ _ Wt E') as (c & Ec & Hc).
  assert (paired (function_code maps f) (function_code maps' (reindex_function ρ f))
    ((wf_body f ≫= instr_uses) ≫= use_refs maps) ((wf_body (reindex_function ρ f) ≫= instr_uses) ≫= use_refs maps')) as Hp.
  { unfold function_code. cbn [reindex_function wf_locals wf_body]. rewrite reindex_locals by done.
    apply paired_before; [apply fixed_locals|]. apply paired_after; [apply fixed_byte|].
    apply paired_body; [by apply Forall_true, paired_instr|by apply covered_list|done]. }
  destruct (Hp (mkOState new []) b (mkOState new []) c wf_new wf_new Eb Ec) as (ps & qs & Hps & Hqs & Ha & Rp & Rq).
  exists ps, qs. split_and!; [by apply Hb|by apply Hc|done..].
Qed.
End instr.

(** The code section: the number of functions, and the size and the code of each. *)
Definition section_spans (bodies : list (list span)) : list span :=
  Code (uleb32 (Z.of_nat (length bodies))) :: (bodies ≫= sized_spans).

Section code.
Context `{TextCodec} (ρ : reindexing) (Hρ : ∀ t, 0 ≤ t → 0 ≤ rx_type ρ t) (maps maps' : SymbolMaps).

Lemma paired_functions fs s s1 t t1 :
  Forall linkable fs → Forall (λ f, Forall (known maps) (wf_body f ≫= instr_uses)) fs →
  Forall (λ f, Forall (known maps') (wf_body f ≫= instr_uses)) (reindex_function ρ <$> fs) →
  wf (o_enc s) → wf (o_enc t) →
  each (encodeFunctionWithReloc maps) fs s = Ok s1 → each (encodeFunctionWithReloc maps') (reindex_function ρ <$> fs) t = Ok t1 →
  ∃ bodies bodies', adds s s1 (bodies ≫= sized_spans) ∧ adds t t1 (bodies' ≫= sized_spans) ∧
    Forall2 (Forall2 alike) bodies bodies' ∧
    Forall2 (λ f ps, refs ps = (wf_body f ≫= instr_uses) ≫= use_refs maps) fs bodies ∧
    Forall2 (λ f ps, refs ps = (wf_body f ≫= instr_uses) ≫= use_refs maps') (reindex_function ρ <$> fs) bodies'.
Proof.
  intros Hl Hk Hk'. revert s t. induction Hl as [|f fs Hf Hl IH]; intros s t Ws Wt H1 H2.
  { injection H1 as <-. injection H2 as <-. exists [], []. split_and!; [by apply spans_nil|by apply spans_nil|done..]. }
  rewrite fmap_cons in Hk', H2. apply Forall_cons in Hk as [Kf Hk], Hk' as [Kf' Hk'].
  change (each ?m (?x :: ?l)) with (m x ⟫ each m l) in H1, H2. unfold then_ in H1, H2.
  destruct (encodeFunctionWithReloc maps f s) as [s2|] eqn:E; [|done]. csimpl in H1.
  destruct (encodeFunctionWithReloc maps' _ t) as [t2|] eqn:E'; [|done]. csimpl in H2.
  destruct (paired_function ρ Hρ maps maps' f s s2 t t2 Hf (conj Kf Kf') Ws Wt E E') as (ps & qs & Hp & Hq & Ha & Rp & Rq).
  destruct (IH Hk Hk' s2 t2 (proj1 Hp) (proj1 Hq) H1 H2) as (bs & bs' & Hbs & Hbs' & Hal & Rb & Rb').
  exists (ps :: bs), (qs :: bs'). rewrite !bind_cons. split_and!; [by eapply spans_app|by eapply spans_app|by constructor..].
Qed.

Lemma code_run m md payload relocs : obj_code_payload md m = Ok (payload, relocs) →
  ∃ e s, emits (u32 (Z.of_nat (length (m_functions md)))) (uleb32 (Z.of_nat (length (m_functions md)))) ∧
    wf e ∧ finish e = uleb32 (Z.of_nat (length (m_functions md))) ∧
    each (encodeFunctionWithReloc m) (m_functions md) (mkOState e []) = Ok s ∧ payload = finish (o_enc s) ∧ relocs = o_relocs s.
Proof.
  unfold obj_code_payload. intros Hp. destruct (u32 _ new) as [e|] eqn:E; [|done]. csimpl in Hp.
  pose proof (u32_size _ _ _ E) as Hn. pose proof (emits_u32 _ (conj (Nat2Z.is_nonneg _) Hn)) as Hem.
  destruct (Hem new wf_new) as (e' & E' & We & Fe). rewrite E' in E. injection E as ->.
  destruct (for_each _ _ _) as [s|] eqn:Es; [|done]. csimpl in Hp. injection Hp as <- <-. rewrite <- each_for_each in Es.
  exists e, s. by split_and!.
Qed.

(** What [adds] says of a whole section. *)
Lemma adds_section e s n bodies :
  n = Z.of_nat (length bodies) → wf e → finish e = uleb32 n → adds (mkOState e []) s (bodies ≫= sized_spans) →
  finish (o_enc s) = text (section_spans bodies) ∧ o_relocs s = spots 0 (section_spans bodies) ∧
  Forall (Forall readable) bodies.
Proof.
  intros -> We Fe (_ & F & R & P). cbn [o_enc o_relocs app] in *. unfold section_spans. split_and!.
  - by rewrite F, Fe.
  - rewrite R, Fe. cbn [spots span_bytes app]. by rewrite Z.add_0_l.
  - rewrite <- Forall_bind_fmap in P. eapply Forall_impl; [exact P|]. intros ps Hp. cbv beta in Hp. unfold sized_spans in Hp.
    by apply Forall_cons in Hp as [_ Hp].
Qed.

Lemma paired_code md md' payload payload' relocs relocs' :
  m_functions md' = reindex_function ρ <$> m_functions md → Forall linkable (m_functions md) →
  Forall (λ f, Forall (known maps) (wf_body f ≫= instr_uses)) (m_functions md) →
  Forall (λ f, Forall (known maps') (wf_body f ≫= instr_uses)) (m_functions md') →
  obj_code_payload md maps = Ok (payload, relocs) → obj_code_payload md' maps' = Ok (payload', relocs') →
  ∃ bodies bodies', Forall2 (Forall2 alike) bodies bodies' ∧
    (payload = text (section_spans bodies) ∧ relocs = spots 0 (section_spans bodies) ∧ Forall (Forall readable) bodies ∧
     Forall2 (λ f ps, refs ps = (wf_body f ≫= instr_uses) ≫= use_refs maps) (m_functions md) bodies) ∧
    (payload' = text (section_spans bodies') ∧ relocs' = spots 0 (section_spans bodies') ∧ Forall (Forall readable) bodies' ∧
     Forall2 (λ f ps, refs ps = (wf_body f ≫= instr_uses) ≫= use_refs maps') (m_functions md') bodies').
Proof.
  intros Hmd Hl Hk Hk' Hp Hp'. destruct (code_run _ _ _ _ Hp) as (e & s & _ & We & Fe & Es & -> & ->).
  destruct (code_run _ _ _ _ Hp') as (e' & t & _ & We' & Fe' & Et & -> & ->). rewrite Hmd in *.
  destruct (paired_functions (m_functions md) (mkOState e []) s (mkOState e' []) t Hl Hk Hk' We We' Es Et) as (bs & bs' & Hb & Hb' & Ha & R & R').
  pose proof (Forall2_length _ _ _ R) as L. pose proof (Forall2_length _ _ _ R') as L'. rewrite L in Fe. rewrite L' in Fe'.
  destruct (adds_section _ _ _ _ eq_refl We Fe Hb) as (F & S & P). destruct (adds_section _ _ _ _ eq_refl We' Fe' Hb') as (F' & S' & P').
  exists bs, bs'. by split_and!.
Qed.
End code.

(** * The symbol table *)

(** The symbol at the position [sym]: its kind and the index it stands for. *)
Definition symbol_at (symbols : list ObjSymbol) (sym kind index : Z) : Prop :=
  ∃ y, js_at symbols sym = Some y ∧ os_kind y = kind ∧ os_index y = index.

Lemma symbol_at_extend symbols symbols' sym kind index :
  symbols `prefix_of` symbols' → symbol_at symbols sym kind index → symbol_at symbols' sym kind index.
Proof.
  intros [k ->] (y & Hy & H). exists y. split; [|done]. apply js_at_Some in Hy as [Hs Hy].
  apply js_at_Some. split; [done|]. by apply lookup_app_l_Some.
Qed.

(** The table grows; the map at hand holds the indices below the next one, each with
    the symbol that stands for it. *)
Definition tabled (kind : Z) (s : sstate) : Prop :=
  0 ≤ s_next s ∧
  (∀ k sym, jm_get (s_map s) k = Some sym → symbol_at (s_symbols s) sym kind k) ∧
  (∀ k, 0 ≤ k < s_next s ↔ is_Some (jm_get (s_map s) k)).

Definition grows (kind n : Z) (s s' : sstate) : Prop :=
  tabled kind s → tabled kind s' ∧ s_symbols s `prefix_of` s_symbols s' ∧ s_next s' = s_next s + n.

Lemma grows_refl kind s : grows kind 0 s s.
Proof. intros Hs. split; [exact Hs|]. split; [done|lia]. Qed.

Lemma grows_trans kind n n' s s' s'' : grows kind n s s' → grows kind n' s' s'' → grows kind (n + n') s s''.
Proof.
  intros H H' Hs. destruct (H Hs) as (Hs' & Hp & Hn). destruct (H' Hs') as (Hs'' & Hp' & Hn').
  split; [done|]. split; [by etrans|lia].
Qed.

Lemma add_symbol_grows kind name flags s : grows kind 1 s (add_symbol kind name flags s).
Proof.
  intros (H0 & Hm & Hd). unfold add_symbol, tabled. cbn [s_symbols s_map s_next]. split_and!; [lia| | |by eexists|done].
  - intros k sym. rewrite jm_get_set. case_decide as Hk.
    + intros [= <-]. subst k. exists (mkObjSymbol kind (name (s_next s)) (s_next s) (flags (s_next s))).
      split; [|done].
      apply js_at_Some. split; [lia|]. rewrite Nat2Z.id. by apply list_lookup_middle.
    + intros Hs. eapply symbol_at_extend; [|by apply Hm]. by eexists.
  - intros k. rewrite jm_get_set. case_decide as Hk.
    + subst k. split; [by eexists|lia].
    + rewrite <- Hd. lia.
Qed.

Lemma import_symbols_grow kind is_kind imports s :
  grows kind (count_if (λ i, is_kind (im_desc i)) imports) s (import_symbols kind is_kind imports s).
Proof.
  revert s. unfold import_symbols. induction imports as [|i l IH]; intros s; [apply grows_refl|].
  unfold count_if. rewrite filter_cons. simpl. case_decide as Hi.
  - rewrite Hi. simpl. rewrite Nat2Z.inj_succ, <- Z.add_1_l. eapply grows_trans; [apply add_symbol_grows|apply IH].
  - destruct (is_kind (im_desc i)); [done|]. apply IH.
Qed.

Lemma defined_symbols_grow kind prefix flags names s :
  grows kind (size names) s (defined_symbols kind prefix flags names s).
Proof.
  revert s. unfold defined_symbols, size. induction names as [|x l IH]; intros s; [apply grows_refl|].
  simpl. rewrite Nat2Z.inj_succ, <- Z.add_1_l. eapply grows_trans; [apply add_symbol_grows|apply IH].
Qed.

Lemma tabled_start kind symbols : tabled kind (mkSState symbols [] 0).
Proof. split_and!; [done|done|]. intros k. simpl. split; [lia|]. by intros [? ?]. Qed.

(** The two loops of a kind. *)
Lemma symbols_grow kind is_kind prefix flags imports names symbols :
  let s := defined_symbols kind prefix flags names (import_symbols kind is_kind imports (mkSState symbols [] 0)) in
  tabled kind s ∧ symbols `prefix_of` s_symbols s ∧
  s_next s = count_if (λ i, is_kind (im_desc i)) imports + size names.
Proof.
  apply (grows_trans _ _ _ (mkSState symbols [] 0) _ _ (import_symbols_grow _ _ _ _) (defined_symbols_grow _ _ _ _ _)).
  apply tabled_start.
Qed.

Lemma drop_cons_inv {A} (l : list A) n x k : drop n l = x :: k → l !! n = Some x ∧ drop (S n) l = k.
Proof.
  intros Hd. split; [by rewrite <- (Nat.add_0_r n), <- lookup_drop, Hd|].
  by rewrite <- Nat.add_1_r, <- drop_drop, Hd.
Qed.

(** A minted handle stands for a defined function, below the handles. *)
Definition handles_ok (md : WasmModule) : Prop :=
  count_if is_func_import (m_imports md) + size (m_functions md) ≤ STABLE_FUNC_BASE ∧
  Forall (λ o, ∀ pos, o = Some pos → 0 ≤ pos < size (m_functions md)) (m_funcOrdinalToPosition md).

Section aliases.
Context (md : WasmModule) (symbols : list ObjSymbol) (Hok : handles_ok md).
Let numImports := count_if is_func_import (m_imports md).

(** What the map of function symbols holds. *)
Definition stands (map : jsmap Z Z) : Prop :=
  (∀ h sym, jm_get map h = Some sym →
     ∃ t, absoluteFuncIndex md h = Ok t ∧ symbol_at symbols sym (SYMTAB "SYMTAB_FUNCTION") t) ∧
  (∀ t, 0 ≤ t < numImports + size (m_functions md) → is_Some (jm_get map t)).

Lemma absolute_low h : h < STABLE_FUNC_BASE → absoluteFuncIndex md h = Ok h.
Proof. intros. unfold absoluteFuncIndex. by destruct (Z.ltb_spec h STABLE_FUNC_BASE); [|lia]. Qed.

Lemma absolute_stable ordinal pos :
  m_funcOrdinalToPosition md !! ordinal = Some (Some pos) →
  absoluteFuncIndex md (STABLE_FUNC_BASE + Z.of_nat ordinal) = Ok (numImports + pos).
Proof.
  intros Ho. unfold absoluteFuncIndex, absoluteFuncIndexCached. destruct (Z.ltb_spec (STABLE_FUNC_BASE + Z.of_nat ordinal) STABLE_FUNC_BASE); [lia|].
  replace (_ - _) with (Z.of_nat ordinal) by lia. by rewrite js_at_nat, Ho.
Qed.

Lemma position_range ordinal pos :
  m_funcOrdinalToPosition md !! ordinal = Some (Some pos) →
  0 ≤ numImports + pos < numImports + size (m_functions md) ∧ numImports + pos < STABLE_FUNC_BASE.
Proof.
  intros Ho. destruct Hok as [Hn Hp]. rewrite Forall_lookup in Hp. specialize (Hp _ _ Ho pos eq_refl).
  subst numImports. unfold count_if in *. lia.
Qed.

Lemma stands_alias ordinal pos map sym :
  stands map → m_funcOrdinalToPosition md !! ordinal = Some (Some pos) → jm_get map (numImports + pos) = Some sym →
  stands (jm_set map (STABLE_FUNC_BASE + Z.of_nat ordinal) sym).
Proof.
  intros [Hs Hd] Ho Hsym. pose proof (position_range _ _ Ho) as [Hr Hb]. split.
  - intros h sym'. rewrite jm_get_set. case_decide as Hh; [|apply Hs]. intros [= <-]. subst h.
    exists (numImports + pos). split; [by apply absolute_stable|]. destruct (Hs _ _ Hsym) as (t & Ht & Hat).
    rewrite absolute_low in Ht by done. by injection Ht as <-.
  - intros t Ht. rewrite jm_get_set. case_decide; [by eexists|]. by apply Hd.
Qed.

(** Every handle from [ordinal] on that was pushed has a symbol at the end. *)
Lemma alias_symbols_stand ordinal positions map :
  stands map → drop ordinal (m_funcOrdinalToPosition md) = positions →
  let map' := alias_symbols numImports (Z.of_nat ordinal) positions map in
  stands map' ∧ (∀ h, is_Some (jm_get map h) → is_Some (jm_get map' h)) ∧
  (∀ i pos, (ordinal ≤ i)%nat → m_funcOrdinalToPosition md !! i = Some (Some pos) →
     is_Some (jm_get map' (STABLE_FUNC_BASE + Z.of_nat i))).
Proof.
  revert ordinal map. induction positions as [|o positions IH]; intros ordinal map Hs Hd; cbn [alias_symbols].
  { split_and!; [done|done|]. intros i pos Hi Hl. apply (f_equal length) in Hd. rewrite length_drop in Hd. simpl in Hd.
    apply lookup_lt_Some in Hl. lia. }
  pose proof (drop_cons_inv _ _ _ _ Hd) as [Ho Hd'].
  set (map1 := match o with Some pos => _ | None => map end).
  assert (stands map1 ∧ (∀ h, is_Some (jm_get map h) → is_Some (jm_get map1 h)) ∧
    (∀ pos, o = Some pos → is_Some (jm_get map1 (STABLE_FUNC_BASE + Z.of_nat ordinal)))) as (Hs1 & Hk1 & Ho1).
  { subst map1. destruct o as [pos|]; [|by split_and!]. pose proof (position_range _ _ Ho) as [Hr _].
    destruct (proj2 Hs _ Hr) as [sym Hsym]. rewrite Hsym. split_and!; [by eapply stands_alias| |].
    - intros h Hh. rewrite jm_get_set. by case_decide.
    - intros _ _. rewrite jm_get_set_eq. by eexists. }
  replace (Z.of_nat ordinal + 1) with (Z.of_nat (S ordinal)) by lia.
  destruct (IH (S ordinal) map1 Hs1 Hd') as (Hs' & Hk & Hall). split_and!; [done|auto|].
  intros i pos Hi Hl. destruct (decide (i = ordinal)) as [->|]; [|by eapply Hall; [lia|]].
  apply Hk, (Ho1 pos). rewrite Hl in Ho. by injection Ho.
Qed.
End aliases.

(** * The object file *)

(** What the symbol of a relocated operand stands for: the function, global or tag of
    the index that is written, handles resolved; a type operand has no symbol and the
    relocation repeats the index. *)
Inductive names (md : WasmModule) (symbols : list ObjSymbol) : ObjRef → Prop :=
  | names_function h sym t : absoluteFuncIndex md h = Ok t → symbol_at symbols sym (SYMTAB "SYMTAB_FUNCTION") t →
      names md symbols (mkObjRef (RELOC "R_WASM_FUNCTION_INDEX_LEB") sym h)
  | names_global g sym : symbol_at symbols sym (SYMTAB "SYMTAB_GLOBAL") g →
      names md symbols (mkObjRef (RELOC "R_WASM_GLOBAL_INDEX_LEB") sym g)
  | names_tag t sym : symbol_at symbols sym (SYMTAB "SYMTAB_EVENT") t →
      names md symbols (mkObjRef (RELOC "R_WASM_TAG_INDEX_LEB") sym t)
  | names_type t : names md symbols (mkObjRef (RELOC "R_WASM_TYPE_INDEX_LEB") t t).

(** The maps of a symbol table that is complete and truthful. *)
Record truthful (md : WasmModule) (symbols : list ObjSymbol) (maps : SymbolMaps) : Prop := {
  true_functions : stands md symbols (funcIdxToSymIdx maps);
  all_handles h t : 0 ≤ t < count_if is_func_import (m_imports md) + size (m_functions md) →
    absoluteFuncIndex md h = Ok t → is_Some (jm_get (funcIdxToSymIdx maps) h);
  true_globals g sym : jm_get (globalIdxToSymIdx maps) g = Some sym → symbol_at symbols sym (SYMTAB "SYMTAB_GLOBAL") g;
  true_tags t sym : jm_get (tagIdxToSymIdx maps) t = Some sym → symbol_at symbols sym (SYMTAB "SYMTAB_EVENT") t;
  all_globals g : 0 ≤ g < count_if (λ i, is_iglobal (im_desc i)) (m_imports md) + size (m_globals md) → is_Some (jm_get (globalIdxToSymIdx maps) g);
  all_tags t : 0 ≤ t < count_if (λ i, is_itag (im_desc i)) (m_imports md) + size (m_tags md) → is_Some (jm_get (tagIdxToSymIdx maps) t);
}.

Lemma stands_functions md symbols :
  handles_ok md → s_symbols (function_symbols md) `prefix_of` symbols → stands md symbols (s_map (function_symbols md)).
Proof.
  intros [Hn _] Hp. destruct (symbols_grow (SYMTAB "SYMTAB_FUNCTION") is_ifunc (js "__func_")
    (exported_flags (exported_of is_xfunc md)) (m_imports md) (wf_name <$> m_functions md) []) as ((_ & Hm & Hd) & _ & Hnext).
  fold (function_symbols md) in Hm, Hd, Hnext. unfold size in Hnext. rewrite length_fmap in Hnext.
  change (count_if _ (m_imports md)) with (count_if is_func_import (m_imports md)) in Hnext.
  fold (size (m_functions md)) in Hnext. rewrite Hnext in Hd. split; [|apply Hd].
  intros h sym Hs. pose proof (proj2 (Hd h) (ex_intro _ _ Hs)) as Hr. exists h.
  split; [apply absolute_low; lia|]. eapply symbol_at_extend; [exact Hp|by apply Hm].
Qed.

Lemma symbol_table_truthful md :
  handles_ok md → truthful md (symbol_table md).1 (symbol_table md).2.
Proof.
  intros Hok. set (f := function_symbols md). set (g := global_symbols md (s_symbols f)). set (t := tag_symbols md (s_symbols g)).
  pose proof (symbols_grow (SYMTAB "SYMTAB_GLOBAL") is_iglobal (js "__global_")
    (exported_flags (exported_of is_xglobal md)) (m_imports md) (gd_name <$> m_globals md) (s_symbols f)) as ((_ & Hg & Hgd) & Hpg & Hgn). fold g in Hg, Hgd, Hgn.
  pose proof (symbols_grow (SYMTAB "SYMTAB_EVENT") is_itag (js "__tag_")
    (λ _, SYM_FLAGS "WASM_SYM_BINDING_LOCAL") (m_imports md) (td_name <$> m_tags md) (s_symbols g)) as ((_ & Ht & Htd) & Hpt & Htn). fold t in Ht, Htd, Htn.
  unfold size in Hgn, Htn. rewrite !length_fmap in Hgn. rewrite !length_fmap in Htn.
  change (s_symbols f `prefix_of` s_symbols g) in Hpg. change (s_symbols g `prefix_of` s_symbols t) in Hpt.
  assert (stands md (s_symbols t) (s_map f)) as Hs by (apply stands_functions; [done|by etrans]).
  destruct (alias_symbols_stand md (s_symbols t) Hok 0 _ (s_map f) Hs eq_refl) as (Hst & Hk & Hall).
  split.
  - exact Hst.
  - intros h i Hi Ha. change (is_Some (jm_get (alias_symbols (count_if is_func_import (m_imports md)) (Z.of_nat 0)
      (m_funcOrdinalToPosition md) (s_map f)) h)).
    unfold absoluteFuncIndex, absoluteFuncIndexCached in Ha. destruct (Z.ltb_spec h STABLE_FUNC_BASE).
    + injection Ha as ->. apply Hk, Hs, Hi.
    + destruct (js_at _ _) as [[pos|]|] eqn:Ej; [|done..]. apply js_at_Some in Ej as [Hj Ej].
      pose proof (Hall _ _ (Nat.le_0_l _) Ej) as Hx.
      by replace (STABLE_FUNC_BASE + Z.of_nat (Z.to_nat (h - STABLE_FUNC_BASE))) with h in Hx by lia.
  - intros i sym Hi. eapply symbol_at_extend; [exact Hpt|]. by apply Hg.
  - exact Ht.
  - intros i Hi. apply Hgd. rewrite Hgn. exact Hi.
  - intros i Hi. apply Htd. rewrite Htn. exact Hi.
Qed.

(** What a reference names: the type of the relocation and the index. *)
Definition entity (u : use) : option (Z * Z) :=
  match u with
  | UFunc f => Some (RELOC "R_WASM_FUNCTION_INDEX_LEB", f)
  | UGlobal g => Some (RELOC "R_WASM_GLOBAL_INDEX_LEB", g)
  | UTag t => Some (RELOC "R_WASM_TAG_INDEX_LEB", t)
  | UType t | USignature t | UField t _ => Some (RELOC "R_WASM_TYPE_INDEX_LEB", t)
  | UHeapType t => if 0 <=? t then Some (RELOC "R_WASM_TYPE_INDEX_LEB", t) else None
  | UTable _ | UMemory _ | ULocal _ => None
  end.

(** The index is in its space, handles resolved. *)
Definition in_space (md : WasmModule) (u : use) : Prop :=
  match u with
  | UFunc h => ∃ t, absoluteFuncIndex md h = Ok t ∧ 0 ≤ t < count_if is_func_import (m_imports md) + size (m_functions md)
  | UGlobal g => 0 ≤ g < count_if (λ i, is_iglobal (im_desc i)) (m_imports md) + size (m_globals md)
  | UTag t => 0 ≤ t < count_if (λ i, is_itag (im_desc i)) (m_imports md) + size (m_tags md)
  | UHeapType t => t < 2 ^ 31
  | _ => True
  end.

Lemma in_space_known md u : handles_ok md → in_space md u → known (symbol_table md).2 u.
Proof.
  intros Hok. pose proof (symbol_table_truthful md Hok) as Ht. destruct u; cbn [in_space known]; try done.
  - intros (t & Ha & Hr). by eapply all_handles.
  - by eapply all_globals.
  - by eapply all_tags.
Qed.

(** The operand stands for the reference: it is the index, relocated by a symbol of the
    entity. *)
Definition stands_for (md : WasmModule) (u : Z * Z) (x : ObjRef) : Prop :=
  (ref_type x, ref_value x) = u ∧ names md (symbol_table md).1 x.

Lemma use_refs_stand md u : handles_ok md → in_space md u →
  Forall2 (stands_for md) (option_list (entity u)) (use_refs (symbol_table md).2 u).
Proof.
  intros Hok Hu. pose proof (in_space_known md u Hok Hu) as Hk. pose proof (symbol_table_truthful md Hok) as Ht.
  destruct u; cbn [entity use_refs known] in *; unfold index_ref, type_ref; try done; repeat case_match;
    try (by repeat constructor); destruct Hk as [sym Hs]; simplify_eq; repeat constructor; rewrite ?Hs.
  - destruct (proj1 (true_functions _ _ _ Ht) _ _ H) as (i & Hi & Hat). by econstructor.
  - by eapply true_globals.
  - by eapply true_tags.
Qed.


Lemma steady_ok m e e' : steady m → wf e → m e = Ok e' → extends e e'.
Proof. intros Hm He E. specialize (Hm e He). by rewrite E in Hm. Qed.

Lemma then_ok {S} (m k : S → result S) s s' : (m ⟫ k) s = Ok s' → ∃ s1, m s = Ok s1 ∧ k s1 = Ok s'.
Proof. intros H. unfold then_ in H. destruct (m s) as [s1|]; [by exists s1|done]. Qed.

Lemma then_inv m k e e' : steady m → wf e → (m ⟫ k) e = Ok e' → ∃ e1, extends e e1 ∧ k e1 = Ok e'.
Proof. intros Hm He (e1 & E & Hk)%then_ok. exists e1. split; [by eapply steady_ok|done]. Qed.

(** The payload of the code section is a piece of the file. *)
Lemma emitObject_code `{TextCodec} md bs :
  emitObject md = Ok bs → m_functions md ≠ [] →
  ∃ payload relocs pre post, obj_code_payload md (symbol_table md).2 = Ok (payload, relocs) ∧ bs = pre ++ payload ++ post.
Proof.
  unfold emitObject. destruct (symbol_table md) as [symbols maps]. cbn [snd]. intros He Hf.
  destruct ((_ ⟫ _) new) as [e|] eqn:E; [|done]. csimpl in He. injection He as <-.
  apply then_inv in E as (e1 & [H1 _] & E); [|eapply steady_emits, emits_bytes_array|apply wf_new].
  apply then_inv in E as (e2 & [H2 _] & E); [|eapply steady_emits, emits_bytes_array|done].
  apply then_inv in E as (e3 & [H3 _] & E); [|apply steady_obj_sections|done].
  apply then_ok in E as (e4 & E4 & E). unfold obj_code_and_relocs, with_value in E4. destruct (m_functions md) eqn:Em; [done|].
  destruct (obj_code_payload md maps) as [[payload relocs]|]; [|done]. csimpl in E4.
  apply then_ok in E4 as (e5 & E5 & E4). unfold obj_code in E5.
  apply then_inv in E5 as (e6 & [H6 _] & E5); [|apply steady_byte|done].
  apply then_inv in E5 as (e7 & [H7 _] & E5); [|apply steady_u32|done].
  destruct (emits_bytes payload e7 H7) as (e5' & E5' & H5 & Hb). rewrite E5' in E5. injection E5 as ->.
  destruct (steady_ok _ _ _ (steady_obj_relocs _ _) H5 E4) as [H4 [b4 F4]].
  destruct (steady_ok _ _ _ (steady_obj_linking _) H4 E) as [_ [b F]].
  exists payload, relocs, (finish e7), (b4 ++ b). by rewrite F, F4, Hb, <- !app_assoc.
Qed.


(** * The emitted file *)

(** A module all of whose indices an object file can relocate: they are in their spaces,
    and none is at a place that gets no relocation. *)
Record relocatable_module (md : WasmModule) : Prop := {
  module_handles : handles_ok md;
  module_code : m_functions md ≠ [];
  module_linkable : Forall linkable (m_functions md);
  module_in_space : Forall (λ f, Forall (in_space md) (wf_body f ≫= instr_uses)) (m_functions md);
}.

(** How an object lays its code out: the payload of the code section, with the
    relocations of the section at the operands that stand for the references of the
    instructions, in order. *)
Definition laid_out `{TextCodec} (md : WasmModule) (bs : list Z) (bodies : list (list span)) : Prop :=
  obj_code_payload md (symbol_table md).2 = Ok (text (section_spans bodies), spots 0 (section_spans bodies)) ∧
  (∃ pre post, bs = pre ++ text (section_spans bodies) ++ post) ∧
  Forall2 (λ f ps, Forall readable ps ∧
    Forall2 (stands_for md) (omap entity (wf_body f ≫= instr_uses)) (refs ps)) (m_functions md) bodies.

Lemma uses_stand md l : handles_ok md → Forall (in_space md) l →
  Forall2 (stands_for md) (omap entity l) (l ≫= use_refs (symbol_table md).2).
Proof.
  intros Hok. induction 1 as [|u l Hu Hl IH]; [constructor|]. rewrite bind_cons.
  replace (omap entity (u :: l)) with (option_list (entity u) ++ omap entity l) by (csimpl; by destruct (entity u)).
  apply Forall2_app; [by apply use_refs_stand|done].
Qed.

Lemma lays_out `{TextCodec} md bs bodies payload relocs :
  relocatable_module md → emitObject md = Ok bs → obj_code_payload md (symbol_table md).2 = Ok (payload, relocs) →
  payload = text (section_spans bodies) → relocs = spots 0 (section_spans bodies) → Forall (Forall readable) bodies →
  Forall2 (λ f ps, refs ps = (wf_body f ≫= instr_uses) ≫= use_refs (symbol_table md).2) (m_functions md) bodies →
  laid_out md bs bodies.
Proof.
  intros [Hok Hf _ Hin] He Hp -> -> Hr Hrefs. destruct (emitObject_code md bs He Hf) as (payload & relocs & pre & post & Hp' & Hbs).
  rewrite Hp in Hp'. injection Hp' as <- <-. split_and!; [done|by exists pre, post|].
  revert Hin Hr. clear -Hrefs Hok. induction Hrefs as [|f ps fs bodies Hps Hrefs IH]; intros Hin Hr; [constructor|].
  apply Forall_cons in Hin as [Hf Hin], Hr as [Hr1 Hr]. constructor; [|by apply IH].
  split; [done|]. rewrite Hps. by apply uses_stand.
Qed.

Lemma functions_known md : relocatable_module md →
  Forall (λ f, Forall (known (symbol_table md).2) (wf_body f ≫= instr_uses)) (m_functions md).
Proof.
  intros [Hok _ _ Hin]. eapply Forall_impl; [exact Hin|]. intros f Hf. cbv beta in Hf.
  eapply Forall_impl; [exact Hf|]. intros u. by apply in_space_known.
Qed.

(** C8: the relocations of an object file are enough to link it.  Take a module and the
    same module with other indices of functions, globals, tags and types in its code.
    Then the code sections of the two objects consist of the same bytes, but for the
    operands that the relocations mark: each relocation's offset is the place of such
    an operand, the operand reads back as the index, and its symbol stands for the
    entity of that index, stable handles resolved.  The operands are the references of
    the functions' instructions, in order and no other.  So a place that holds an index
    and has no relocation would show as a difference of the two codes.  This asks that
    the code has none of the places for which no relocation is written: block types and
    locals of concrete types, ref.null of a concrete type, catch clauses of the legacy
    try, and the instructions the writer's switch does not know. *)
Theorem emitObject_relocations `{TextCodec} (ρ : reindexing) md md' bs bs' :
  relocatable_module md → relocatable_module md' →
  (∀ t, 0 ≤ t → 0 ≤ rx_type ρ t) → m_functions md' = reindex_function ρ <$> m_functions md →
  emitObject md = Ok bs → emitObject md' = Ok bs' →
  ∃ bodies bodies', laid_out md bs bodies ∧ laid_out md' bs' bodies' ∧ Forall2 (Forall2 alike) bodies bodies'.
Proof.
  intros Hm Hm' Hρ Hf He He'.
  destruct (emitObject_code md bs He (module_code _ Hm)) as (payload & relocs & _ & _ & Hp & _).
  destruct (emitObject_code md' bs' He' (module_code _ Hm')) as (payload' & relocs' & _ & _ & Hp' & _).
  destruct (paired_code ρ Hρ _ _ md md' _ _ _ _ Hf (module_linkable _ Hm) (functions_known _ Hm) (functions_known _ Hm') Hp Hp')
    as (bodies & bodies' & Ha & (F & S & P & R) & (F' & S' & P' & R')).
  exists bodies, bodies'. split_and!; [by eapply lays_out|by eapply lays_out|done].
Qed.

(** An object with one function, and the object of the same code behind one more import
    of each kind, where every index is one higher and the stable handle stays. *)
Definition sample_code : WasmFunction :=
  mkWasmFunction (js "f") 0 [VI32; VRef (-16)]
    [Call 0; GlobalGet 0; If BEmpty [Throw_ 0] None; RefFunc STABLE_FUNC_BASE; StructNew 1; RefCast 1; Plain "drop";
     TryTable BEmpty [Call STABLE_FUNC_BASE] [mkCatch Catch (Some 0) 0]].

Definition sample_object (imports : list Import_) (ρ : reindexing) : WasmModule :=
  mkModule [TFunc [] [VI32]; TStruct [mkField VI32 true] None false; TFunc [] []; TFunc [VI32] []; TStruct [mkField VI32 true] None false] None
    (mkImport_ (js "env") (js "log") (IFunc 0) :: imports)
    [reindex_function ρ sample_code] [mkWasmExport (js "f") XFunc STABLE_FUNC_BASE] [] [] [mkGlobalDef (js "g") VI32 true [I32Const 7]]
    [mkTagDef (js "e") 2] [STABLE_FUNC_BASE] [Some 0] [] [] None.

Definition more_imports : list Import_ :=
  [mkImport_ (js "env") (js "k") (IFunc 0); mkImport_ (js "env") (js "h") (IGlobal VI32 true); mkImport_ (js "env") (js "t") (ITag 2)].
Definition same : reindexing := mkReindexing id id id id.
Definition one_higher : reindexing :=
  mkReindexing (λ f, if f <? STABLE_FUNC_BASE then f + 1 else f) (Z.add 1) (Z.add 1) (λ t, if t =? 1 then 4 else t).

#[local] Existing Instance plain_codec.

Lemma sample_relocatable imports ρ : (imports, ρ) = ([], same) ∨ (imports, ρ) = (more_imports, one_higher) →
  relocatable_module (sample_object imports ρ).
Proof.
  intros Hs. constructor.
  - destruct Hs; simplify_eq; (split; [vm_compute; intros [=]|]; constructor; [|constructor]; intros pos [= <-]; vm_compute; by split; [intros [=]|]).
  - done.
  - destruct Hs; simplify_eq; by repeat constructor.
  - assert (∀ h t, absoluteFuncIndex (sample_object imports ρ) h = Ok t → 0 ≤ t < (if decide (imports = []) then 2 else 3) → in_space (sample_object imports ρ) (UFunc h)) as Hf.
    { intros h t Ht Hr. exists t. split; [done|]. destruct Hs; simplify_eq; exact Hr. }
    constructor; [|constructor]. destruct Hs; simplify_eq; repeat constructor; try (by eapply Hf; [reflexivity|]); try done.
Qed.

Lemma emitObject_relocations_witness :
  ∃ bs bs' bodies bodies', laid_out (sample_object [] same) bs bodies ∧ laid_out (sample_object more_imports one_higher) bs' bodies' ∧
    Forall2 (Forall2 alike) bodies bodies'.
Proof.
  eexists _, _. apply (emitObject_relocations one_higher (sample_object [] same) (sample_object more_imports one_higher)).
  - apply sample_relocatable. by left.
  - apply sample_relocatable. by right.
  - intros t Ht. cbn. case_match; lia.
  - reflexivity.
  - vm_compute. reflexivity.
  - vm_compute. reflexivity.
Defined.
