(* ===== verification/FuncTypes.v ===== *)
(** The interning of function types, src/wasm/physical/function-types.ts.

    A value type carries brands that a Wasm type has not (an i32 that is a boolean, an
    i64 that is a bigint); the cache key tells them apart, so a signature gets one type
    index and signatures that box differently get different ones. *)

From S2P Require Import Prelude WasmModel.

(** * Data *)

(** ValType of src/wasm/model/instructions.ts with its brands. *)
Inductive BrandedType :=
  | BI32 (boolean symbol int32 : bool)
  | BI64 (bigint : option bool)
  | BF64 (undefSentinel : bool)
  | BOther (kind : string)
  | BRef (typeIdx : Z)
  | BRefNull (typeIdx : Z).

#[global] Instance BrandedType_eq_dec : EqDecision BrandedType.
Proof. solve_decision. Defined.

(** The kinds without brands and indices. *)
Definition other_kinds : list string :=
  ["f32"; "v128"; "i8"; "i16"; "funcref"; "externref"; "ref_extern"; "eqref"; "anyref"]%string.

Definition branded_ok (v : BrandedType) : Prop := match v with BOther k => k ∈ other_kinds | _ => True end.

(** The records of [mod.types]: function types keep their branded signature. *)
Inductive TypeRecord :=
  | FuncRecord (name : jsstr) (params results : list BrandedType)
  | OtherRecord (type : TypeDef).

(** * funcTypeKey *)

Definition part (v : BrandedType) : jsstr :=
  match v with
  | BRef typeIdx => js "ref" ++ js ":" ++ js_num typeIdx
  | BRefNull typeIdx => js "ref_null" ++ js ":" ++ js_num typeIdx
  | BI32 boolean symbol int32 =>
      js "i32" ++ (if boolean then js ":bool" else if symbol then js ":sym" else if int32 then js ":int32" else [])
  | BI64 bigint => js "i64" ++ (match bigint with Some true => js ":big" | _ => [] end)
  | BF64 undefSentinel => js "f64" ++ (if undefSentinel then js ":undef" else [])
  | BOther kind => js kind
  end.

Definition funcTypeKey (params results : list BrandedType) : jsstr :=
  join_with (js ",") (part <$> params) ++ js "|" ++ join_with (js ",") (part <$> results).

(** * internFunctionType *)

Definition internFunctionType (types : list TypeRecord) (cache : jsmap jsstr Z) (params results : list BrandedType)
    (name : option jsstr) (cacheOnly : bool) : result (Z * list TypeRecord * jsmap jsstr Z) :=
  let key := funcTypeKey params results in
  match jm_get cache key with
  | Some cached => Ok (cached, types, cache)
  | None =>
      if cacheOnly then throw EError (js "function type was not reserved: " ++ key)
      else
        let idx := Z.of_nat (length types) in
        Ok (idx, types ++ [FuncRecord (default (js "type" ++ js_num idx) name) params results], jm_set cache key idx)
  end.

(** * sameValTypes *)

Definition same_value (value other : BrandedType) : bool :=
  match value, other with
  | BRef i, BRef j | BRefNull i, BRefNull j => i =? j
  | BI32 b s i, BI32 b' s' i' => bool_decide (b = b') && bool_decide (s = s') && bool_decide (i = i')
  | BI64 b, BI64 b' => bool_decide (b = b')
  | BF64 u, BF64 u' => bool_decide (u = u')
  | BOther k, BOther k' => bool_decide (k = k')
  | _, _ => false
  end.

Fixpoint sameValTypes (left right : list BrandedType) : bool :=
  match left, right with
  | [], [] => true
  | value :: left', other :: right' => same_value value other && sameValTypes left' right'
  | _, _ => false
  end.

Lemma sameValTypes_spec left right : sameValTypes left right = true ↔ left = right.
Proof.
  revert right. induction left as [|v l IH]; intros [|w r]; try done. simpl. rewrite andb_true_iff, IH.
  assert (same_value v w = true ↔ v = w) as ->; [|naive_solver].
  destruct v, w; simpl; rewrite ?andb_true_iff, ?bool_decide_eq_true, ?Z.eqb_eq; naive_solver.
Qed.

(** * What the key tells apart *)

(** A value type up to the brands that a stronger brand hides. *)
Definition carrier (v : BrandedType) : BrandedType :=
  match v with
  | BI32 true _ _ => BI32 true false false
  | BI32 false true _ => BI32 false true false
  | BI64 b => BI64 (match b with Some true => Some true | _ => None end)
  | v => v
  end.

Definition comma : Z := 44.
Definition bar : Z := 124.

(** The value types without an index, up to hidden brands. *)
Definition plain_carriers : list BrandedType :=
  [BI32 false false false; BI32 true false false; BI32 false true false; BI32 false false true;
   BI64 None; BI64 (Some true); BF64 false; BF64 true] ++ (BOther <$> other_kinds).

Lemma part_carrier v : part (carrier v) = part v.
Proof. by destruct v as [[] [] []|[[]|]|u|k|t|t]. Qed.

Lemma carrier_cases v :
  branded_ok v → carrier v ∈ plain_carriers ∨ (∃ t, v = BRef t) ∨ ∃ t, v = BRefNull t.
Proof.
  intros Hv. destruct v as [b s i|b|u|k|t|t]; [left..|right; left; by exists t|right; right; by exists t].
  - destruct b, s, i; refine (bool_decide_unpack _ _); vm_compute; exact I.
  - destruct b as [[]|]; refine (bool_decide_unpack _ _); vm_compute; exact I.
  - destruct u; refine (bool_decide_unpack _ _); vm_compute; exact I.
  - unfold plain_carriers. apply elem_of_app. right. change (BOther k ∈ BOther <$> other_kinds). by apply list_elem_of_fmap_2.
Qed.

Lemma carrier_ref_null v t : carrier v = BRefNull t ↔ v = BRefNull t.
Proof. by destruct v as [[] [] []|[[]|]|u|k|t'|t']. Qed.

(** No name without an index begins as those with one. *)
Lemma plain_parts :
  Forall (λ v, take 4 (part v) ≠ js "ref:" ∧ take 9 (part v) ≠ js "ref_null:" ∧
    Forall (λ w, part v = part w → v = w) plain_carriers ∧
    Forall (λ u, u ≠ comma ∧ u ≠ bar) (part v) ∧ part v ≠ []) plain_carriers.
Proof. refine (bool_decide_unpack _ _). vm_compute. exact I. Qed.

Lemma part_ref t : part (BRef t) = js "ref:" ++ js_num t.
Proof. done. Qed.
Lemma part_ref_null t : part (BRefNull t) = js "ref_null:" ++ js_num t.
Proof. done. Qed.

Lemma plain_not_indexed v t :
  v ∈ plain_carriers → part v ≠ part (BRef t) ∧ part v ≠ part (BRefNull t).
Proof.
  intros Hv. pose proof plain_parts as Hp. rewrite Forall_forall in Hp. destruct (Hp v Hv) as (H4 & H9 & _).
  rewrite part_ref, part_ref_null. split; intros E; [apply H4|apply H9]; by rewrite E.
Qed.

(** The text determines the value type up to hidden brands. *)
Lemma part_inj v w : branded_ok v → branded_ok w → part v = part w ↔ carrier v = carrier w.
Proof.
  intros Hv Hw. split; [|intros H; by rewrite <- (part_carrier v), H, part_carrier].
  intros H. rewrite <- (part_carrier v), <- (part_carrier w) in H.
  pose proof plain_parts as Hp. rewrite Forall_forall in Hp.
  destruct (carrier_cases v Hv) as [Hcv|[[t ->]|[t ->]]], (carrier_cases w Hw) as [Hcw|[[t' ->]|[t' ->]]].
  - destruct (Hp _ Hcv) as (_ & _ & Hall & _). rewrite Forall_forall in Hall. by apply Hall.
  - by destruct (plain_not_indexed _ t' Hcv) as [? _].
  - by destruct (plain_not_indexed _ t' Hcv) as [_ ?].
  - destruct (plain_not_indexed _ t Hcw) as [Hn _]. by destruct Hn.
  - cbn [carrier] in *. rewrite !part_ref in H. apply app_inv_head in H. by apply (inj js_num) in H as ->.
  - cbn [carrier] in *. rewrite part_ref, part_ref_null in H. done.
  - destruct (plain_not_indexed _ t Hcw) as [_ Hn]. by destruct Hn.
  - cbn [carrier] in *. rewrite part_ref, part_ref_null in H. done.
  - cbn [carrier] in *. rewrite !part_ref_null in H. apply app_inv_head in H. by apply (inj js_num) in H as ->.
Qed.

Lemma part_units v : branded_ok v → Forall (λ u, u ≠ comma ∧ u ≠ bar) (part v) ∧ part v ≠ [].
Proof.
  intros Hv. rewrite <- part_carrier. pose proof plain_parts as Hp. rewrite Forall_forall in Hp.
  assert (∀ s z, bool_decide (Forall (λ u, u ≠ comma ∧ u ≠ bar) (js s)) = true → Forall (λ u, u ≠ comma ∧ u ≠ bar) (js s ++ js_num z)) as Hn.
  { intros s z Hs%bool_decide_eq_true. apply Forall_app. split; [done|]. eapply Forall_impl; [apply js_num_units|].
    intros u Hu. cbv beta in Hu. unfold num_unit, comma, bar in *. lia. }
  destruct (carrier_cases v Hv) as [Hc|[[t ->]|[t ->]]]; [by destruct (Hp _ Hc) as (_ & _ & _ & H)|..]; cbn [carrier].
  - rewrite part_ref. split; [by apply Hn|done].
  - rewrite part_ref_null. split; [by apply Hn|done].
Qed.

(** ** Signatures *)

Lemma parts_units vs : Forall branded_ok vs → Forall (λ u, u ≠ bar) (join_with (js ",") (part <$> vs)).
Proof.
  induction 1 as [|v vs Hv Hvs IH]; [constructor|]. csimpl.
  assert (Forall (λ u, u ≠ bar) (part v)) as Hp by (eapply Forall_impl; [by apply part_units|]; intros u Hu; apply Hu).
  destruct vs as [|w vs]; [done|]. apply Forall_app. split; [done|]. by constructor.
Qed.

Lemma join_parts_inj vs ws :
  Forall branded_ok vs → Forall branded_ok ws →
  join_with (js ",") (part <$> vs) = join_with (js ",") (part <$> ws) → carrier <$> vs = carrier <$> ws.
Proof.
  assert (∀ us, Forall branded_ok us → us ≠ [] → split_on comma (join_with (js ",") (part <$> us)) = part <$> us) as Hsplit.
  { intros us Hus Hne. apply split_join; [by destruct us|]. apply Forall_fmap. eapply Forall_impl; [exact Hus|].
    intros v Hv Hc. cbv beta in Hv. destruct (part_units v Hv) as [Hu _]. rewrite Forall_forall in Hu. by destruct (Hu _ Hc). }
  assert (∀ us, Forall branded_ok us → us ≠ [] → join_with (js ",") (part <$> us) ≠ []) as Hne.
  { intros us Hus Hn H. pose proof (Hsplit us Hus Hn) as Hs. rewrite H in Hs. destruct us as [|u us]; [done|].
    inv Hus. injection Hs as Hs _. by destruct (part_units u). }
  intros Hv Hw H. destruct (decide (vs = [])) as [->|Hnv], (decide (ws = [])) as [->|Hnw]; [done|..].
  - symmetry in H. by apply Hne in H.
  - by apply Hne in H.
  - assert (part <$> vs = part <$> ws) as Hp by (rewrite <- (Hsplit vs), <- (Hsplit ws), H by done; done).
    clear -Hv Hw Hp. revert ws Hw Hp. induction Hv as [|v vs Hv Hvs IH]; intros [|w ws] Hw Hp; try done.
    apply Forall_cons in Hw as [Hw Hws]. csimpl in Hp. injection Hp as Hp Hps.
    csimpl. f_equal; [by apply part_inj|by apply IH].
Qed.

Lemma funcTypeKey_inj ps rs ps' rs' :
  Forall branded_ok (ps ++ rs) → Forall branded_ok (ps' ++ rs') →
  funcTypeKey ps rs = funcTypeKey ps' rs' ↔ carrier <$> ps = carrier <$> ps' ∧ carrier <$> rs = carrier <$> rs'.
Proof.
  intros [Hp Hr]%Forall_app [Hp' Hr']%Forall_app. split.
  - unfold funcTypeKey. intros H. apply (f_equal (split_on bar)) in H.
    assert (∀ us s, Forall branded_ok us → split_on bar (join_with (js ",") (part <$> us) ++ js "|" ++ s) =
      join_with (js ",") (part <$> us) :: split_on bar s) as Hs.
    { intros us s Hus. apply split_on_app. intros Hb. pose proof (parts_units us Hus) as Hu. rewrite Forall_forall in Hu. by destruct (Hu _ Hb). }
    rewrite !Hs in H by done. injection H as H1 H2. split; [by apply join_parts_inj|]. apply join_parts_inj; [done..|].
    by rewrite <- (join_split bar (join_with _ (part <$> rs))), H2, join_split.
  - assert (∀ us us' : list BrandedType, carrier <$> us = carrier <$> us' → part <$> us = part <$> us') as Hc.
    { intros us us' H. apply (f_equal (fmap part)) in H. rewrite <- !list_fmap_compose in H.
      rewrite (list_fmap_ext (part ∘ carrier) part us) in H by (intros; apply part_carrier).
      by rewrite (list_fmap_ext (part ∘ carrier) part us') in H by (intros; apply part_carrier). }
    intros [H1%Hc H2%Hc]. unfold funcTypeKey. by rewrite H1, H2.
Qed.

(** * The cache *)

(** Each entry is the index of a function type with the signature of its key. *)
Definition cache_ok (types : list TypeRecord) (cache : jsmap jsstr Z) : Prop :=
  ∀ key idx, jm_get cache key = Some idx →
    ∃ name ps rs, js_at types idx = Some (FuncRecord name ps rs) ∧ funcTypeKey ps rs = key ∧ Forall branded_ok (ps ++ rs).

(** The type at an index has a signature, up to hidden brands. *)
Definition has_signature (types : list TypeRecord) (idx : Z) (ps rs : list BrandedType) : Prop :=
  ∃ name ps' rs', js_at types idx = Some (FuncRecord name ps' rs') ∧
    carrier <$> ps' = carrier <$> ps ∧ carrier <$> rs' = carrier <$> rs.

Lemma js_at_prefix {A} (l l' : list A) i x : l `prefix_of` l' → js_at l i = Some x → js_at l' i = Some x.
Proof. intros [k ->] [Hi Hx]%js_at_Some. apply js_at_Some. split; [done|]. by apply lookup_app_l_Some. Qed.

Lemma has_signature_inj types i ps rs ps' rs' :
  has_signature types i ps rs → has_signature types i ps' rs' →
  carrier <$> ps = carrier <$> ps' ∧ carrier <$> rs = carrier <$> rs'.
Proof. intros (n & p & r & Ha & Hp & Hr) (n' & p' & r' & Ha' & Hp' & Hr'). simplify_eq. split; congruence. Qed.

Lemma cache_hit types cache ps rs idx :
  cache_ok types cache → Forall branded_ok (ps ++ rs) → jm_get cache (funcTypeKey ps rs) = Some idx →
  has_signature types idx ps rs.
Proof.
  intros Hc Hb Hg. destruct (Hc _ _ Hg) as (n & ps' & rs' & Ha & Hk & Hb'). exists n, ps', rs'. split; [done|].
  by apply funcTypeKey_inj.
Qed.

Lemma js_at_last {A} (l : list A) x : js_at (l ++ [x]) (Z.of_nat (length l)) = Some x.
Proof. rewrite js_at_nat. by apply list_lookup_middle. Qed.

Lemma cache_add types cache ps rs name :
  cache_ok types cache → Forall branded_ok (ps ++ rs) →
  cache_ok (types ++ [FuncRecord name ps rs]) (jm_set cache (funcTypeKey ps rs) (Z.of_nat (length types))).
Proof.
  intros Hc Hb key idx. rewrite jm_get_set. case_decide as Hk.
  - intros [= <-]. exists name, ps, rs. split; [apply js_at_last|done].
  - intros Hg. destruct (Hc _ _ Hg) as (n & ps' & rs' & Ha & Hk' & Hb'). exists n, ps', rs'. split; [|done].
    eapply js_at_prefix; [by eexists|done].
Qed.

(** What an interned signature gets, now and later: an answer that stays in the cache. *)
Definition interned (types : list TypeRecord) (cache : jsmap jsstr Z) (ps rs : list BrandedType) (idx : Z) : Prop :=
  jm_get cache (funcTypeKey ps rs) = Some idx.

(** C39: the interning of function types.  With a cache that is right, a request gives
    the index of a function type with the requested signature, up to brands that a
    stronger brand hides; the types before it stay where they are and the cache stays
    right and remembers its earlier answers, so that the same signature gets the same
    index ever after, and two signatures share an index only when their visible brands
    agree.  A request that may not reserve throws exactly for a new signature. *)
Theorem internFunctionType_correct types cache ps rs name :
  cache_ok types cache → Forall branded_ok (ps ++ rs) →
  (∃ idx types' cache',
    internFunctionType types cache ps rs name false = Ok (idx, types', cache') ∧
    has_signature types' idx ps rs ∧ types `prefix_of` types' ∧ cache_ok types' cache' ∧
    interned types' cache' ps rs idx ∧
    (∀ ps' rs' idx', interned types cache ps' rs' idx' → interned types' cache' ps' rs' idx') ∧
    (∀ ps' rs', Forall branded_ok (ps' ++ rs') → interned types' cache' ps' rs' idx →
       carrier <$> ps' = carrier <$> ps ∧ carrier <$> rs' = carrier <$> rs)) ∧
  (match internFunctionType types cache ps rs name true with
   | Ok (idx, types', cache') => interned types cache ps rs idx ∧ types' = types ∧ cache' = cache
   | Err f => f = Throw EError (js "function type was not reserved: " ++ funcTypeKey ps rs) ∧ ∀ idx, ¬ interned types cache ps rs idx
   end).
Proof.
  intros Hc Hb. unfold internFunctionType, interned. split.
  - destruct (jm_get cache (funcTypeKey ps rs)) as [idx|] eqn:Eg.
    + pose proof (cache_hit _ _ _ _ _ Hc Hb Eg) as Hs. exists idx, types, cache. split_and!; try done.
      intros ps' rs' Hb' Hg. by eapply has_signature_inj; [eapply cache_hit|].
    + eexists _, _, _. split; [done|]. pose proof (cache_add types cache ps rs) as Ha.
      set (nm := default _ name). specialize (Ha nm Hc Hb).
      assert (has_signature (types ++ [FuncRecord nm ps rs]) (Z.of_nat (length types)) ps rs) as Hs
        by (exists nm, ps, rs; split; [apply js_at_last|done]).
      split_and!; try done; [by eexists|apply jm_get_set_eq| |].
      * intros ps' rs' idx' Hg. rewrite jm_get_set_ne; [done|]. intros Hk. by rewrite Hk, Hg in Eg.
      * intros ps' rs' Hb' Hg. by eapply has_signature_inj; [eapply cache_hit|].
  - destruct (jm_get cache (funcTypeKey ps rs)) as [idx|] eqn:Eg; [done|]. done.
Qed.

Lemma internFunctionType_correct_witness :
  let ps := [BI32 true false false; BRefNull 3] in
  let types := [FuncRecord (js "type0") [BI32 false false false] []] in
  let cache := [(funcTypeKey [BI32 false false false] [], 0)] in
  ∃ idx types' cache', internFunctionType types cache ps [] None false = Ok (idx, types', cache') ∧ has_signature types' idx ps [].
Proof.
  edestruct (internFunctionType_correct [FuncRecord (js "type0") [BI32 false false false] []]
    [(funcTypeKey [BI32 false false false] [], 0)] [BI32 true false false; BRefNull 3] [] None)
    as [(idx & types' & cache' & Hi & Hs & _) _].
  - intros key idx. simpl. case_decide as Hk; [|done]. intros [= <-]. eexists _, _, _. split; [reflexivity|]. split; [by symmetry|]. by repeat constructor.
  - by repeat constructor.
  - by exists idx, types', cache'.
Defined.
