(* ===== verification/FuncSpace.v ===== *)
(** The function index space: src/codegen/func-space.ts and
    src/wasm/physical/function-handles.ts.

    A function handle is either live, the index that the function has at the moment, or
    stable: [STABLE_FUNC_BASE] and an ordinal whose position in the module's functions is
    recorded when the function is pushed.  Functions are objects with an identity
    ([fo_id]); their bodies are arrays of the instruction store of [IndexShift]. *)

From S2P Require Import Prelude WasmModel WasmEncode FuncTypes.

(** * The compilation context *)

Record FuncObj := mkFunc { fo_id : Z; fo_name : jsstr; fo_typeIdx : Z; fo_body : Z }.

#[global] Instance FuncObj_eq_dec : EqDecision FuncObj.
Proof. solve_decision. Defined.

(** The fields of [ctx.mod] that hold or resolve function handles. *)
Record Module_ := mkMod {
  mod_types : list TypeRecord;
  mod_imports : list Import_;
  mod_functions : list FuncObj;
  mod_funcOrdinalToPosition : list (option Z);
  mod_exports : list WasmExport;
  mod_elements : list (list Z);
  mod_declaredFuncRefs : list Z;
  mod_startFuncIdx : option Z;
}.

Record FunctionContext := mkFctx { fc_body : Z; fc_savedBodies : list Z }.

(** The bodies under construction. *)
Record Bodies := mkBodies {
  currentFunc : option FunctionContext;
  funcStack : list FunctionContext;
  parentBodiesStack : list Z;
  liveBodies : list Z;
  pendingInitBody : option Z;
}.

(** The tables that keep handles outside of instructions. *)
Record SideTables := mkSide {
  nativeStrHelpers : jsmap jsstr Z;
  nativeRegexHelpers : jsmap jsstr Z;
  mapHelpers : jsmap jsstr Z;
  pendingMethodTrampolines : list (Z * Z);
  nativeGenerators : option (list (option Z));
  asyncScheduler : option (jsmap string Z);
  promiseCombinators : option (jsmap string Z);
}.

Record CodegenContext := mkCtx {
  c_mod : Module_;
  c_numImportFuncs : Z;
  c_funcMap : jsmap jsstr Z;
  c_funcTypeCache : jsmap jsstr Z;
  c_side : SideTables;
  c_bodies : Bodies;
  c_nativeStrHelperImportBase : Z;
  c_pendingLateImportShift : option Z;
  c_indexSpaceFrozen : bool;
  c_ownedHelpers : jsmap jsstr FuncObj;
}.

(** ** Assignments to a field *)

Definition set_functions (functions : list FuncObj) (positions : list (option Z)) (m : Module_) : Module_ :=
  mkMod (mod_types m) (mod_imports m) functions positions (mod_exports m) (mod_elements m) (mod_declaredFuncRefs m) (mod_startFuncIdx m).

Definition with_mod (m : Module_) (c : CodegenContext) : CodegenContext :=
  mkCtx m (c_numImportFuncs c) (c_funcMap c) (c_funcTypeCache c) (c_side c) (c_bodies c) (c_nativeStrHelperImportBase c)
    (c_pendingLateImportShift c) (c_indexSpaceFrozen c) (c_ownedHelpers c).

Definition with_owned (owned : jsmap jsstr FuncObj) (c : CodegenContext) : CodegenContext :=
  mkCtx (c_mod c) (c_numImportFuncs c) (c_funcMap c) (c_funcTypeCache c) (c_side c) (c_bodies c) (c_nativeStrHelperImportBase c)
    (c_pendingLateImportShift c) (c_indexSpaceFrozen c) owned.

(** * function-handles.ts *)

Definition inLiveShiftRange (idx importsBefore : Z) : bool := (importsBefore <=? idx) && (idx <? STABLE_FUNC_BASE).

(** [DefinedFunctionStorage]: the functions and the table of positions. *)
Definition storage : Type := list FuncObj * list (option Z).

Definition mintDefinedFunc (s : storage) : Z * storage :=
  (STABLE_FUNC_BASE + Z.of_nat (length s.2), (s.1, s.2 ++ [None])).

Definition commitDefinedFuncOrdinal (funcIdx : Z) (s : storage) : result storage :=
  if funcIdx <? STABLE_FUNC_BASE
  then throw EError (js "pushDefinedFunc: " ++ js_num funcIdx ++ js " is not a stable-regime handle")
  else
    let ordinal := funcIdx - STABLE_FUNC_BASE in
    match js_at s.2 ordinal with
    | None => throw EError (js "pushDefinedFunc: handle " ++ js_num funcIdx ++ js " was never minted")
    | Some (Some existing) =>
        throw EError (js "pushDefinedFunc: handle " ++ js_num funcIdx ++ js " already pushed at position " ++ js_num existing)
    | Some None => Ok (s.1, <[Z.to_nat ordinal := Some (Z.of_nat (length s.1))]> s.2)
    end.

Definition appendDefinedFunc (fn : FuncObj) (s : storage) : storage := (s.1 ++ [fn], s.2).

(** * func-space.ts *)

Definition storage_of (c : CodegenContext) : storage := (mod_functions (c_mod c), mod_funcOrdinalToPosition (c_mod c)).
Definition with_storage (s : storage) (c : CodegenContext) : CodegenContext := with_mod (set_functions s.1 s.2 (c_mod c)) c.

Definition definedPositionOf (c : CodegenContext) (funcIdx : Z) : Z :=
  if STABLE_FUNC_BASE <=? funcIdx then
    match js_at (mod_funcOrdinalToPosition (c_mod c)) (funcIdx - STABLE_FUNC_BASE) with
    | Some (Some pos) => pos
    | _ => -1
    end
  else funcIdx - c_numImportFuncs c.

Definition isImportFuncIdx (c : CodegenContext) (funcIdx : Z) : bool := funcIdx <? c_numImportFuncs c.

Definition definedFuncAt (c : CodegenContext) (funcIdx : Z) : option FuncObj :=
  let pos := definedPositionOf c funcIdx in
  if 0 <=? pos then js_at (mod_functions (c_mod c)) pos else None.

(** [list.indexOf(x)], by the identity of objects for functions. *)
Definition indexOf {A} (P : A → bool) (l : list A) : Z :=
  match list_find (λ x, P x = true) l with Some (i, _) => Z.of_nat i | None => -1 end.

Definition same_object (f g : FuncObj) : bool := fo_id f =? fo_id g.

Definition definedFuncHandleOf (c : CodegenContext) (func : FuncObj) : option Z :=
  let position := indexOf (same_object func) (mod_functions (c_mod c)) in
  if position <? 0 then None
  else
    let stableOrdinal := indexOf (λ o, bool_decide (o = Some position)) (mod_funcOrdinalToPosition (c_mod c)) in
    Some (if stableOrdinal <? 0 then c_numImportFuncs c + position else STABLE_FUNC_BASE + stableOrdinal).

Definition nativeStrHelperHandle (c : CodegenContext) (helperName : jsstr) : option Z :=
  let stable := jm_get (nativeStrHelpers (c_side c)) helperName in
  if match stable with Some h => STABLE_FUNC_BASE <=? h | None => false end then stable
  else match list_find (λ f, fo_name f = helperName) (mod_functions (c_mod c)) with
       | Some (i, _) => Some (c_numImportFuncs c + Z.of_nat i)
       | None => stable
       end.

Definition replaceDefinedFuncAt (funcIdx : Z) (fn : FuncObj) (c : CodegenContext) : result CodegenContext :=
  let pos := definedPositionOf c funcIdx in
  if (pos <? 0) || (Z.of_nat (length (mod_functions (c_mod c))) <=? pos)
  then throw EError (js "replaceDefinedFuncAt: funcIdx " ++ js_num funcIdx ++ js " is not a defined function")
  else Ok (with_storage (<[Z.to_nat pos := fn]> (mod_functions (c_mod c)), mod_funcOrdinalToPosition (c_mod c)) c).

Definition mint (c : CodegenContext) : Z * CodegenContext :=
  let (h, s) := mintDefinedFunc (storage_of c) in (h, with_storage s c).

Definition pushDefinedFunc (funcIdx : Z) (fn : FuncObj) (c : CodegenContext) : result CodegenContext :=
  s ← commitDefinedFuncOrdinal funcIdx (storage_of c);
  Ok (with_storage (appendDefinedFunc fn s) c).

Definition ownedHelperHandle (c : CodegenContext) (name : jsstr) : option Z :=
  fn ← jm_get (c_ownedHelpers c) name; definedFuncHandleOf c fn.

Definition pushOwnedHelperFunc (funcIdx : Z) (fn : FuncObj) (c : CodegenContext) : result CodegenContext :=
  c ← pushDefinedFunc funcIdx fn c;
  Ok (with_owned (jm_set (c_ownedHelpers c) (fo_name fn) fn) c).

(** [typeIdx] and [build] are callbacks of the caller: they may change the context.
    [build] gives the new function object, identity and body. *)
Definition ensureNamedHelperFunc (name : jsstr) (typeIdx : CodegenContext → result (Z * CodegenContext))
    (build : CodegenContext → result (Z * Z * CodegenContext)) (c : CodegenContext) : result (Z * CodegenContext) :=
  match ownedHelperHandle c name with
  | Some existing => Ok (existing, c)
  | None =>
      '(type, c) ← typeIdx c;
      let (funcIdx, c) := mint c in
      '(id, body, c) ← build c;
      c ← pushOwnedHelperFunc funcIdx (mkFunc id name type body) c;
      Ok (funcIdx, c)
  end.

(** The type of the [n]-th function import. *)
Fixpoint import_type (imports : list Import_) (n : Z) : option Z :=
  match imports with
  | [] => None
  | i :: imports' =>
      match im_desc i with
      | IFunc typeIdx => if n =? 0 then Some typeIdx else import_type imports' (n - 1)
      | _ => import_type imports' n
      end
  end.

Definition func_record (types : list TypeRecord) (typeIdx : Z) : option TypeRecord :=
  match js_at types typeIdx with Some (FuncRecord n ps rs) => Some (FuncRecord n ps rs) | _ => None end.

Definition funcSignatureOf (c : CodegenContext) (funcIdx : Z) : option TypeRecord :=
  if funcIdx <? 0 then None
  else if isImportFuncIdx c funcIdx then
    typeIdx ← import_type (mod_imports (c_mod c)) funcIdx; func_record (mod_types (c_mod c)) typeIdx
  else
    func ← definedFuncAt c funcIdx; func_record (mod_types (c_mod c)) (fo_typeIdx func).

(** * Registration as a state machine *)

Definition fresh (fn : FuncObj) (s : storage) : Prop := fo_id fn ∉ fo_id <$> s.1.

(** A handle is minted, a minted handle gets its function, or a producer that works
    with live indices appends a function. *)
Inductive registration : storage → storage → Prop :=
  | reg_mint s : registration s (mintDefinedFunc s).2
  | reg_push s s' h fn : commitDefinedFuncOrdinal h s = Ok s' → fresh fn s → registration s (appendDefinedFunc fn s')
  | reg_append s fn : fresh fn s → registration s (appendDefinedFunc fn s).

(** The ordinal stands for the position. *)
Definition recorded (s : storage) (ordinal : nat) (pos : Z) : Prop := s.2 !! ordinal = Some (Some pos).

Record registry_ok (s : storage) : Prop := {
  recorded_range o p : recorded s o p → 0 ≤ p < Z.of_nat (length s.1);
  recorded_inj o o' p : recorded s o p → recorded s o' p → o = o';
  objects_once : NoDup (fo_id <$> s.1);
}.

Lemma commit_ok h s s' :
  commitDefinedFuncOrdinal h s = Ok s' ↔
  ∃ o, h = STABLE_FUNC_BASE + Z.of_nat o ∧ s.2 !! o = Some None ∧
       s' = (s.1, <[o := Some (Z.of_nat (length s.1))]> s.2).
Proof.
  unfold commitDefinedFuncOrdinal. split.
  - destruct (Z.ltb_spec h STABLE_FUNC_BASE); [done|].
    destruct (js_at s.2 (h - STABLE_FUNC_BASE)) as [[p|]|] eqn:E; [done| |done]. intros [= <-].
    apply js_at_Some in E as [H0 E]. exists (Z.to_nat (h - STABLE_FUNC_BASE)). split_and!; [lia|done|done].
  - intros (o & -> & Ho & ->). destruct (Z.ltb_spec (STABLE_FUNC_BASE + Z.of_nat o) STABLE_FUNC_BASE); [lia|].
    replace (_ - _) with (Z.of_nat o) by lia. rewrite js_at_nat, Ho. by rewrite Nat2Z.id.
Qed.

Lemma registry_append fn s : registry_ok s → fresh fn s → registry_ok (appendDefinedFunc fn s).
Proof.
  intros [Hr Hi Hn] Hf. split; cbn [appendDefinedFunc fst snd].
  - intros o p Hp. specialize (Hr o p Hp). rewrite length_app. simpl. lia.
  - intros o o' p Hp Hp'. by apply (Hi o o' p).
  - rewrite fmap_app. apply list.NoDup_app. split_and!; [done| |apply NoDup_singleton].
    intros i Hx ->%list_elem_of_singleton. by apply Hf.
Qed.

Lemma registry_commit h s s' fn :
  registry_ok s → fresh fn s → commitDefinedFuncOrdinal h s = Ok s' → registry_ok (appendDefinedFunc fn s').
Proof.
  intros Hok Hf (o & -> & Ho & ->)%commit_ok. pose proof Hok as [Hr Hi Hn].
  assert (∀ i p, <[o := Some (Z.of_nat (length s.1))]> s.2 !! i = Some (Some p) →
    (i = o ∧ p = Z.of_nat (length s.1)) ∨ (i ≠ o ∧ recorded s i p)) as Hcases.
  { intros i p Hp. destruct (decide (i = o)) as [->|Hne].
    - rewrite list_lookup_insert_eq in Hp by (by eapply lookup_lt_Some). injection Hp as <-. by left.
    - rewrite list_lookup_insert_ne in Hp by done. by right. }
  split; cbn [appendDefinedFunc fst snd].
  - intros i p [[-> ->]|[_ Hp]]%Hcases; rewrite length_app; simpl; [lia|]. specialize (Hr _ _ Hp). lia.
  - intros i j p [[-> ->]|[Hi1 Hp]]%Hcases [[-> Hl]|[Hj Hp']]%Hcases; [done|..].
    + specialize (Hr _ _ Hp'). lia.
    + specialize (Hr _ _ Hp). lia.
    + by eapply Hi.
  - apply (objects_once _ (registry_append fn s Hok Hf)).
Qed.

Lemma registry_mint s : registry_ok s → registry_ok (mintDefinedFunc s).2.
Proof.
  intros [Hr Hi Hn].
  assert (∀ i p, (s.2 ++ [None]) !! i = Some (Some p) → recorded s i p) as Hold.
  { intros i p [Hp|[_ Hp]]%lookup_app_Some; [done|]. destruct (i - _)%nat as [|[]]; done. }
  split; cbn [mintDefinedFunc fst snd]; [|intros i j p Hp%Hold Hp'%Hold; by eapply Hi|done].
  intros i p Hp%Hold. by eapply Hr.
Qed.

Lemma registration_ok s s' : registration s s' → registry_ok s → registry_ok s'.
Proof.
  destruct 1; intros Hok; [by apply registry_mint|by eapply registry_commit|by apply registry_append].
Qed.

Lemma registrations_ok s : rtc registration ([], []) s → registry_ok s.
Proof.
  intros Hs. assert (registry_ok ([], [])) as H0.
  { split; [intros o p Hp; by destruct o|intros o o' p Hp; by destruct o|constructor]. }
  remember ([], []) as s0. clear Heqs0. induction Hs; [done|]. apply IHHs. by eapply registration_ok.
Qed.

(** Positions and functions stay. *)
Lemma registration_keeps s s' o p fn :
  registration s s' → recorded s o p → s.1 !! Z.to_nat p = Some fn → recorded s' o p ∧ s'.1 !! Z.to_nat p = Some fn.
Proof.
  unfold recorded. destruct 1 as [s|s s' h fn' (o' & -> & Ho' & ->)%commit_ok Hf|s fn' Hf]; intros Ho Hp; cbn [mintDefinedFunc appendDefinedFunc fst snd].
  - split; [by apply lookup_app_l_Some|done].
  - split; [|by apply lookup_app_l_Some]. rewrite list_lookup_insert_ne; [done|]. intros ->. congruence.
  - split; [done|by apply lookup_app_l_Some].
Qed.

Lemma registrations_keep s s' o p fn :
  rtc registration s s' → recorded s o p → s.1 !! Z.to_nat p = Some fn → recorded s' o p ∧ s'.1 !! Z.to_nat p = Some fn.
Proof.
  induction 1 as [|s1 s2 s3 Hs _ IH]; [done|]. intros Ho Hp. destruct (registration_keeps _ _ _ _ _ Hs Ho Hp). by apply IH.
Qed.

(** * Looking functions up *)

Section lookup.
Context (c : CodegenContext) (Hok : registry_ok (storage_of c)).

Lemma definedFuncAt_stable o p :
  recorded (storage_of c) o p →
  definedFuncAt c (STABLE_FUNC_BASE + Z.of_nat o) = mod_functions (c_mod c) !! Z.to_nat p.
Proof.
  intros Ho. pose proof (recorded_range _ Hok _ _ Ho) as Hr. unfold definedFuncAt, definedPositionOf.
  destruct (Z.leb_spec STABLE_FUNC_BASE (STABLE_FUNC_BASE + Z.of_nat o)); [|lia].
  replace (_ - _) with (Z.of_nat o) by lia. rewrite js_at_nat. unfold recorded in Ho. cbn in Ho. rewrite Ho.
  destruct (Z.leb_spec 0 p); [|lia]. unfold js_at. by destruct (Z.ltb_spec p 0); [lia|].
Qed.

Lemma definedFuncAt_live p fn :
  c_numImportFuncs c + Z.of_nat p < STABLE_FUNC_BASE → mod_functions (c_mod c) !! p = Some fn →
  definedFuncAt c (c_numImportFuncs c + Z.of_nat p) = Some fn.
Proof.
  intros Hb Hp. unfold definedFuncAt, definedPositionOf. destruct (Z.leb_spec STABLE_FUNC_BASE (c_numImportFuncs c + Z.of_nat p)); [lia|].
  replace (_ - _) with (Z.of_nat p) by lia. destruct (Z.leb_spec 0 (Z.of_nat p)); [|lia]. by rewrite js_at_nat.
Qed.

Lemma indexOf_spec {A} (P : A → bool) (l : list A) i x :
  l !! i = Some x → P x = true → (∀ j y, l !! j = Some y → P y = true → j = i) → indexOf P l = Z.of_nat i.
Proof.
  intros Hi Hx Hu. unfold indexOf. destruct (list_find _ l) as [[j y]|] eqn:E.
  - apply list_find_Some in E as (Hj & Hy & _). by rewrite (Hu j y Hj Hy).
  - apply list_find_None in E. rewrite Forall_forall in E. destruct (E x); [by eapply list_elem_of_lookup_2|done].
Qed.

Lemma indexOf_none {A} (P : A → bool) (l : list A) : (∀ x, x ∈ l → P x = false) → indexOf P l = -1.
Proof.
  intros Hn. unfold indexOf. destruct (list_find _ l) as [[j y]|] eqn:E; [|done].
  apply list_find_Some in E as (Hj & Hy & _). rewrite Hn in Hy; [done|by eapply list_elem_of_lookup_2].
Qed.

Lemma position_of p fn : mod_functions (c_mod c) !! p = Some fn → indexOf (same_object fn) (mod_functions (c_mod c)) = Z.of_nat p.
Proof.
  intros Hp. apply (indexOf_spec _ _ _ _ Hp); [apply Z.eqb_refl|]. intros j y Hj He%Z.eqb_eq.
  apply (NoDup_lookup (fo_id <$> mod_functions (c_mod c)) _ _ (fo_id fn)); [apply (objects_once _ Hok)|by rewrite list_lookup_fmap, Hj, He|by rewrite list_lookup_fmap, Hp].
Qed.

(** The handle of an object: its stable handle if it has one, else its live index. *)
Lemma handle_of p fn :
  mod_functions (c_mod c) !! p = Some fn →
  (∃ o, recorded (storage_of c) o (Z.of_nat p) ∧ definedFuncHandleOf c fn = Some (STABLE_FUNC_BASE + Z.of_nat o)) ∨
  ((∀ o, ¬ recorded (storage_of c) o (Z.of_nat p)) ∧ definedFuncHandleOf c fn = Some (c_numImportFuncs c + Z.of_nat p)).
Proof.
  intros Hp. unfold definedFuncHandleOf. rewrite (position_of p fn Hp). destruct (Z.ltb_spec (Z.of_nat p) 0); [lia|].
  destruct (list_find (λ o, o = Some (Z.of_nat p)) (mod_funcOrdinalToPosition (c_mod c))) as [[o y]|] eqn:E.
  - apply list_find_Some in E as (Ho & -> & _). left. exists o. split; [done|].
    rewrite (indexOf_spec _ _ o (Some (Z.of_nat p))); [|done|by apply bool_decide_eq_true|].
    + destruct (Z.ltb_spec (Z.of_nat o) 0); [lia|done].
    + intros j y Hj Hy%bool_decide_eq_true. subst y. by apply (recorded_inj _ Hok j o (Z.of_nat p)).
  - apply list_find_None in E. rewrite Forall_forall in E. right. split.
    + intros o Ho. by eapply E; [by eapply list_elem_of_lookup_2|].
    + rewrite indexOf_none; [done|]. intros x Hx. apply bool_decide_eq_false. by apply E.
Qed.
End lookup.

Lemma pushed_recorded s o fn :
  let s' := (s.1 ++ [fn], <[o := Some (Z.of_nat (length s.1))]> s.2) in
  s.2 !! o = Some None → recorded s' o (Z.of_nat (length s.1)) ∧ s'.1 !! Z.to_nat (Z.of_nat (length s.1)) = Some fn.
Proof.
  intros s' Ho. split.
  - unfold recorded. simpl. apply list_lookup_insert_eq. by eapply lookup_lt_Some.
  - rewrite Nat2Z.id. by apply list_lookup_middle.
Qed.

(** The module that is emitted from a context. *)
Definition emitted_from (c : CodegenContext) (md : WasmModule) : Prop :=
  count_if is_func_import (m_imports md) = c_numImportFuncs c ∧
  m_funcOrdinalToPosition md = mod_funcOrdinalToPosition (c_mod c).

Lemma absolute_recorded c md o p :
  emitted_from c md → recorded (storage_of c) o p →
  absoluteFuncIndex md (STABLE_FUNC_BASE + Z.of_nat o) = Ok (c_numImportFuncs c + p).
Proof.
  intros [Hn Hp] Ho. unfold absoluteFuncIndex, absoluteFuncIndexCached.
  destruct (Z.ltb_spec (STABLE_FUNC_BASE + Z.of_nat o) STABLE_FUNC_BASE); [lia|].
  replace (_ - _) with (Z.of_nat o) by lia. rewrite Hp, js_at_nat. unfold recorded in Ho. cbn in Ho. by rewrite Ho, Hn.
Qed.

(** * Properties *)

(** C28: stable handles.  A handle that was minted and pushed once stands for that function
    object ever after, whatever is registered in between and after and however many
    imports are added: the context finds the object under the handle and the handle of
    the object, no other handle of the stable range leads to it, pushing again is
    refused, and the emitted module resolves the handle to the index of that object. *)
Theorem stable_handles_identify s h fn s1 c md :
  rtc registration ([], []) s → commitDefinedFuncOrdinal h s = Ok s1 → fresh fn s →
  rtc registration (appendDefinedFunc fn s1) (storage_of c) → emitted_from c md →
  definedFuncAt c h = Some fn ∧ definedFuncHandleOf c fn = Some h ∧
  (∀ h', STABLE_FUNC_BASE ≤ h' → definedFuncAt c h' = Some fn → h' = h) ∧
  (∀ fn' c', pushDefinedFunc h fn' c ≠ Ok c') ∧
  ∃ p, absoluteFuncIndex md h = Ok (c_numImportFuncs c + Z.of_nat p) ∧ mod_functions (c_mod c) !! p = Some fn.
Proof.
  intros Hs Hc Hf Hrest Hmd.
  assert (registry_ok (storage_of c)) as Hok.
  { apply registrations_ok. etrans; [exact Hs|]. eapply rtc_l; [by eapply reg_push|done]. }
  apply commit_ok in Hc as (o & -> & Ho & ->). destruct (pushed_recorded s o fn Ho) as [Hrec Hfn].
  destruct (registrations_keep _ _ _ _ _ Hrest Hrec Hfn) as [Hrec' Hfn']. rewrite Nat2Z.id in Hfn'.
  set (p := length s.1) in *. cbn in Hfn'. split_and!.
  - rewrite (definedFuncAt_stable c Hok o _ Hrec'). by rewrite Nat2Z.id.
  - destruct (handle_of c Hok p fn Hfn') as [(o' & Ho' & ->)|[Hno _]].
    + by rewrite (recorded_inj _ Hok o' o _ Ho' Hrec').
    + by destruct (Hno o).
  - intros h' Hh' Hat. unfold definedFuncAt, definedPositionOf in Hat. destruct (Z.leb_spec STABLE_FUNC_BASE h'); [|lia].
    destruct (js_at _ (h' - STABLE_FUNC_BASE)) as [[p'|]|] eqn:Ej; try done.
    apply js_at_Some in Ej as [H0 Ej]. destruct (Z.leb_spec 0 p'); [|done].
    apply js_at_Some in Hat as [_ Hat].
    assert (Z.to_nat p' = p) as Hp.
    { apply (NoDup_lookup (fo_id <$> mod_functions (c_mod c)) _ _ (fo_id fn)); [apply (objects_once _ Hok)|..].
      - by rewrite list_lookup_fmap, Hat.
      - by rewrite list_lookup_fmap, Hfn'. }
    assert (Z.to_nat (h' - STABLE_FUNC_BASE) = o); [|lia]. apply (recorded_inj _ Hok _ _ (Z.of_nat p)); [|done].
    unfold recorded. cbn. rewrite Ej. do 2 f_equal. lia.
  - intros fn' c' Hpush. unfold pushDefinedFunc in Hpush.
    destruct (commitDefinedFuncOrdinal _ (storage_of c)) as [s'|] eqn:E; [|done].
    apply commit_ok in E as (o' & Ho' & Hn & _). assert (o' = o) as -> by lia. unfold recorded in Hrec'. congruence.
  - exists p. split; [by apply absolute_recorded|done].
Qed.

(** A function pushed under a stable handle, with another one registered in between and
    an import added later. *)
Definition sample_context : CodegenContext :=
  mkCtx (mkMod [] [] [mkFunc 1 (js "a") 0 10; mkFunc 2 (js "b") 0 20] [Some 1] [] [] [] None) 3 [] []
    (mkSide [] [] [] [] None None None) (mkBodies None [] [] [] None) (-1) None false [].

Definition sample_emitted : WasmModule :=
  mkModule [TFunc [] []] None (replicate 3 (mkImport_ (js "env") (js "f") (IFunc 0))) [] [] [] [] [] [] [] [Some 1] [] [] None.

Lemma stable_handles_identify_witness :
  definedFuncAt sample_context STABLE_FUNC_BASE = Some (mkFunc 2 (js "b") 0 20) ∧
  definedFuncHandleOf sample_context (mkFunc 2 (js "b") 0 20) = Some STABLE_FUNC_BASE ∧
  (∀ h', STABLE_FUNC_BASE ≤ h' → definedFuncAt sample_context h' = Some (mkFunc 2 (js "b") 0 20) → h' = STABLE_FUNC_BASE) ∧
  (∀ fn' c', pushDefinedFunc STABLE_FUNC_BASE fn' sample_context ≠ Ok c') ∧
  ∃ p, absoluteFuncIndex sample_emitted STABLE_FUNC_BASE = Ok (c_numImportFuncs sample_context + Z.of_nat p) ∧
       mod_functions (c_mod sample_context) !! p = Some (mkFunc 2 (js "b") 0 20).
Proof.
  apply (stable_handles_identify ([mkFunc 1 (js "a") 0 10], [None]) STABLE_FUNC_BASE (mkFunc 2 (js "b") 0 20)
    ([mkFunc 1 (js "a") 0 10], [Some 1]) sample_context sample_emitted).
  - eapply rtc_l; [apply reg_mint|]. eapply rtc_l; [apply (reg_append _ (mkFunc 1 (js "a") 0 10))|apply rtc_refl].
    unfold fresh. vm_compute. set_solver.
  - reflexivity.
  - unfold fresh. apply not_elem_of_cons. split; [done|apply not_elem_of_nil].
  - apply rtc_refl.
  - split; reflexivity.
Defined.

(** registration never loses or confuses functions.  After any sequence of
    registrations with fewer than [STABLE_FUNC_BASE] functions, every function object of
    the module has exactly one handle that the context gives for it, and that handle
    leads back to the object; a minted handle whose function was not pushed yet leads
    nowhere, and emission refuses it. *)
Theorem definedFuncHandleOf_inverse c md :
  rtc registration ([], []) (storage_of c) → emitted_from c md →
  0 ≤ c_numImportFuncs c → c_numImportFuncs c + Z.of_nat (length (mod_functions (c_mod c))) ≤ STABLE_FUNC_BASE →
  (∀ fn, fn ∈ mod_functions (c_mod c) →
     ∃ h, definedFuncHandleOf c fn = Some h ∧ definedFuncAt c h = Some fn ∧ isImportFuncIdx c h = false ∧
       ∃ p, absoluteFuncIndex md h = Ok (c_numImportFuncs c + Z.of_nat p) ∧ mod_functions (c_mod c) !! p = Some fn) ∧
  (∀ o, mod_funcOrdinalToPosition (c_mod c) !! o = Some None →
     definedFuncAt c (STABLE_FUNC_BASE + Z.of_nat o) = None ∧
     ∃ msg, absoluteFuncIndex md (STABLE_FUNC_BASE + Z.of_nat o) = throw EError msg).
Proof.
  intros Hreg Hmd H0 Hb. pose proof (registrations_ok _ Hreg) as Hok. split.
  - intros fn Hin. apply list_elem_of_lookup in Hin as [p Hp]. pose proof (lookup_lt_Some _ _ _ Hp) as Hlt.
    destruct (handle_of c Hok p fn Hp) as [(o & Ho & Hh)|[_ Hh]]; eexists; (split; [exact Hh|]).
    + split_and!; [by rewrite (definedFuncAt_stable c Hok o _ Ho), Nat2Z.id| |exists p; split; [by apply absolute_recorded|done]].
      unfold isImportFuncIdx. apply Z.ltb_ge. lia.
    + split_and!; [apply definedFuncAt_live; [lia|done]| |exists p; split; [|done]].
      * unfold isImportFuncIdx. apply Z.ltb_ge. lia.
      * unfold absoluteFuncIndex. destruct (Z.ltb_spec (c_numImportFuncs c + Z.of_nat p) STABLE_FUNC_BASE); [done|lia].
  - intros o Ho. unfold definedFuncAt, definedPositionOf, absoluteFuncIndex, absoluteFuncIndexCached.
    destruct (Z.leb_spec STABLE_FUNC_BASE (STABLE_FUNC_BASE + Z.of_nat o)); [|lia].
    destruct (Z.ltb_spec (STABLE_FUNC_BASE + Z.of_nat o) STABLE_FUNC_BASE); [lia|].
    replace (_ - _) with (Z.of_nat o) by lia. rewrite (proj2 Hmd), js_at_nat, Ho. split; [done|]. by eexists.
Qed.

(** The same module with a second handle that is minted and not pushed. *)
Definition open_context : CodegenContext := with_mod (set_functions (mod_functions (c_mod sample_context)) [Some 1; None] (c_mod sample_context)) sample_context.

Definition open_emitted : WasmModule :=
  mkModule [TFunc [] []] None (replicate 3 (mkImport_ (js "env") (js "f") (IFunc 0))) [] [] [] [] [] [] [] [Some 1; None] [] [] None.

Lemma definedFuncHandleOf_inverse_witness :
  (∀ fn, fn ∈ mod_functions (c_mod open_context) →
     ∃ h, definedFuncHandleOf open_context fn = Some h ∧ definedFuncAt open_context h = Some fn ∧ isImportFuncIdx open_context h = false ∧
       ∃ p, absoluteFuncIndex open_emitted h = Ok (c_numImportFuncs open_context + Z.of_nat p) ∧ mod_functions (c_mod open_context) !! p = Some fn) ∧
  (∀ o, mod_funcOrdinalToPosition (c_mod open_context) !! o = Some None →
     definedFuncAt open_context (STABLE_FUNC_BASE + Z.of_nat o) = None ∧
     ∃ msg, absoluteFuncIndex open_emitted (STABLE_FUNC_BASE + Z.of_nat o) = throw EError msg).
Proof.
  apply definedFuncHandleOf_inverse; [|split; reflexivity|vm_compute; congruence|vm_compute; congruence].
  eapply rtc_l; [apply reg_mint|]. eapply rtc_l; [apply (reg_append _ (mkFunc 1 (js "a") 0 10))|].
  { apply not_elem_of_nil. }
  eapply rtc_l; [apply (reg_push _ ([mkFunc 1 (js "a") 0 10], [Some 1]) STABLE_FUNC_BASE (mkFunc 2 (js "b") 0 20))|].
  { reflexivity. }
  { unfold fresh. apply not_elem_of_cons. split; [done|apply not_elem_of_nil]. }
  eapply rtc_l; [apply reg_mint|]. apply rtc_refl.
Defined.
