(* ===== verification/IndexShift.v ===== *)
(** Late imports: src/codegen/expressions/late-imports.ts,
    shiftAsyncSideChannelFuncIdxs of src/codegen/async-scheduler.ts and addImport of
    src/codegen/registry/physical-imports.ts.

    An import that is added while bodies are being compiled moves every defined function
    up by one, so the live handles that were written down before are shifted.  Bodies are
    arrays of instruction objects; arrays are shared between places and objects between
    arrays, which the store models: an array is a list of objects, an object has its
    [funcIdx] and the arrays nested in it (body, then, else, the bodies of its catch
    clauses, catchAll, in this order). *)

From S2P Require Import Prelude WasmModel WasmEncode FuncTypes FuncSpace.

(** * The instruction store *)

Record InstrObj := mkInstr { io_op : string; io_funcIdx : option Z; io_arrays : list Z }.

(** [arrays] are only read here. *)
Abbreviation array_store := (gmap Z (list Z)).
Abbreviation instr_store := (gmap Z InstrObj).

Definition set_funcIdx (funcIdx : Z) (o : InstrObj) : InstrObj := mkInstr (io_op o) (Some funcIdx) (io_arrays o).

(** * shiftLateImportIndices: the walk *)

(** [shifted], [shiftedInstrObjects] and the objects. *)
Record shifting := mkShifting { sh_shifted : gset Z; sh_objects : gset Z; sh_store : instr_store }.

Section walk.
Context (arrays : array_store) (importsBefore added : Z).

Definition shift_idx (idx : Z) : Z := if inLiveShiftRange idx importsBefore then idx + added else idx.

(** [accepts op] is the test on the operation that the second walker below makes;
    [once] says that the walker keeps [shiftedInstrObjects]. *)
Context (accepts : string → bool) (once : bool).

Definition shift_object (id : Z) (st : shifting) : shifting :=
  match sh_store st !! id with
  | Some o =>
      match io_funcIdx o with
      | Some funcIdx =>
          if accepts (io_op o) && inLiveShiftRange funcIdx importsBefore && negb (once && bool_decide (id ∈ sh_objects st))
          then mkShifting (sh_shifted st) ({[id]} ∪ sh_objects st) (<[id := set_funcIdx (funcIdx + added) o]> (sh_store st))
          else st
      | None => st
      end
  | None => st
  end.

Definition nested (id : Z) (st : shifting) : list Z :=
  match sh_store st !! id with Some o => io_arrays o | None => [] end.

Definition enter (a : Z) (st : shifting) : shifting := mkShifting ({[a]} ∪ sh_shifted st) (sh_objects st) (sh_store st).

(** The recursion is as deep as there are arrays that it has not entered. *)
Fixpoint shiftInstrs (fuel : nat) (a : Z) (st : shifting) : result shifting :=
  if decide (a ∈ sh_shifted st) then Ok st
  else match fuel with
       | O => Err OutOfFuel
       | S f =>
           for_each (default [] (arrays !! a)) (λ id st,
             let st := shift_object id st in
             for_each (nested id st) (shiftInstrs f) st) (enter a st)
       end.

Definition walk_fuel : nat := S (size (dom arrays)).

Definition walk_all (roots : list Z) (objs : instr_store) : result shifting :=
  for_each roots (shiftInstrs walk_fuel) (mkShifting ∅ ∅ objs).
End walk.

(** * What the walk does *)

Section walk_spec.
Context (arrays : array_store) (importsBefore added : Z) (accepts : string → bool) (objs : instr_store).

(** Every object and every array that is mentioned exists. *)
Definition store_ok : Prop :=
  ∀ a l id, arrays !! a = Some l → id ∈ l → ∃ o, objs !! id = Some o ∧ Forall (λ b, is_Some (arrays !! b)) (io_arrays o).

Context (Hstore : store_ok).

(** The arrays that are reachable from an array. *)
Inductive reaches (a : Z) : Z → Prop :=
  | reaches_refl : reaches a a
  | reaches_step b l id o c : reaches a b → arrays !! b = Some l → id ∈ l → objs !! id = Some o → c ∈ io_arrays o → reaches a c.

Definition in_range (o : InstrObj) : bool :=
  match io_funcIdx o with Some f => accepts (io_op o) && inLiveShiftRange f importsBefore | None => false end.

Definition bump (o : InstrObj) : InstrObj :=
  match io_funcIdx o with Some f => set_funcIdx (f + added) o | None => o end.

(** The objects at hand are the original ones, those in [sh_objects] shifted once. *)
Definition consistent (st : shifting) : Prop :=
  (∀ id, sh_store st !! id = (λ o, if decide (id ∈ sh_objects st) then bump o else o) <$> objs !! id) ∧
  (∀ id o, id ∈ sh_objects st → objs !! id = Some o → in_range o = true).

Definition processed (st : shifting) (id : Z) : Prop :=
  ∀ o, objs !! id = Some o → in_range o = true → id ∈ sh_objects st.

Definition complete (st : shifting) (a : Z) : Prop :=
  ∀ l id o, arrays !! a = Some l → id ∈ l → objs !! id = Some o →
    processed st id ∧ ∀ b, b ∈ io_arrays o → b ∈ sh_shifted st.

(** From [st] to [st'] on the way from [root]: nothing is forgotten, what is new was
    reachable, and every array entered on the way is complete. *)
Record walked (root : Z) (st st' : shifting) : Prop := {
  w_shifted : sh_shifted st ⊆ sh_shifted st';
  w_objects : sh_objects st ⊆ sh_objects st';
  w_consistent : consistent st';
  w_arrays a : a ∈ sh_shifted st' → a ∈ sh_shifted st ∨ (complete st' a ∧ reaches root a ∧ is_Some (arrays !! a));
  w_sources id : id ∈ sh_objects st' → id ∈ sh_objects st ∨ ∃ a l, reaches root a ∧ arrays !! a = Some l ∧ id ∈ l;
}.

Lemma complete_mono st st' a :
  sh_shifted st ⊆ sh_shifted st' → sh_objects st ⊆ sh_objects st' → complete st a → complete st' a.
Proof.
  intros Hs Ho Hc l id o Hl Hid Hobj. destruct (Hc l id o Hl Hid Hobj) as [Hp Hn]. split.
  - intros o' Ho' Hr. by apply Ho, (Hp o').
  - intros b Hb. by apply Hs, Hn.
Qed.

Lemma walked_refl root st : consistent st → walked root st st.
Proof. intros Hc. by split; try done; auto. Qed.

Lemma walked_trans root st st' st'' : walked root st st' → walked root st' st'' → walked root st st''.
Proof.
  intros [S1 O1 C1 A1 I1] [S2 O2 C2 A2 I2]. split; [by etrans|by etrans|done| |].
  - intros a [Ha|Ha]%A2; [|by right]. apply A1 in Ha as [Ha|(Hc & Hr)]; [by left|]. right. split; [by eapply complete_mono|done].
  - intros id [Hi|Hi]%I2; [|by right]. by apply I1.
Qed.

(** A walk from an array that the walk from [root] reaches. *)
Lemma walked_from root a st st' : reaches root a → walked a st st' → walked root st st'.
Proof.
  intros Hr [S O C A I].
  assert (∀ b, reaches a b → reaches root b) as Htr by (induction 1; [done|by eapply reaches_step]).
  split; [done..| |].
  - intros b [Hb|(Hc & Hb & Hd)]%A; [by left|]. right. auto.
  - intros id [Hi|(b & l & Hb & Hl)]%I; [by left|]. right. exists b, l. auto.
Qed.

(** A loop over steps that each establish [Q] for their element. *)
Lemma walked_each root l st m (Q : Z → shifting → Prop) :
  (∀ x st st', sh_shifted st ⊆ sh_shifted st' → sh_objects st ⊆ sh_objects st' → Q x st → Q x st') →
  consistent st →
  (∀ x st1, x ∈ l → sh_shifted st ⊆ sh_shifted st1 → consistent st1 →
     ∃ st2, m x st1 = Ok st2 ∧ walked root st1 st2 ∧ Q x st2) →
  ∃ st', for_each l m st = Ok st' ∧ walked root st st' ∧ ∀ x, x ∈ l → Q x st'.
Proof.
  intros HQ. revert st. induction l as [|x l IH]; intros st Hc Hm.
  { exists st. split_and!; [done|by apply walked_refl|by intros x Hx%elem_of_nil]. }
  destruct (Hm x st (list_elem_of_here _ _) (reflexivity _) Hc) as (st1 & E1 & W1 & Q1). simpl. rewrite E1. csimpl.
  destruct (IH st1) as (st2 & E2 & W2 & Hall); [apply W1| |].
  { intros y st' Hy Hs. apply Hm; [by right|]. etrans; [apply W1|done]. }
  exists st2. split_and!; [done|by eapply walked_trans|].
  intros y [->|Hy]%elem_of_cons; [|by apply Hall]. eapply HQ; [apply W2..|done].
Qed.

(** One object: it is processed, and nothing else changes. *)
Lemma shift_object_spec root a l id st :
  consistent st → reaches root a → arrays !! a = Some l → id ∈ l →
  let st' := shift_object importsBefore added accepts true id st in
  walked root st st' ∧ sh_shifted st' = sh_shifted st ∧ processed st' id ∧
  nested id st' = match objs !! id with Some o => io_arrays o | None => [] end.
Proof.
  intros Hc Hr Hl Hid. destruct (Hstore a l id Hl Hid) as (o & Ho & _). unfold shift_object.
  destruct Hc as [Hst Hin]. pose proof (Hst id) as Hcur. rewrite Ho in Hcur. csimpl in Hcur. rewrite Hcur, Ho.
  destruct (decide (id ∈ sh_objects st)) as [Hdone|Hnew].
  - assert (∃ f, io_funcIdx (bump o) = Some f) as [f Hf].
    { pose proof (Hin id o Hdone Ho) as Hi. unfold in_range in Hi. unfold bump. destruct (io_funcIdx o); [by eexists|done]. }
    rewrite Hf, bool_decide_true, andb_false_r by done. split_and!; [by apply walked_refl|done|by intros ? _ _|].
    unfold nested. rewrite Hcur. unfold bump. by destruct (io_funcIdx o).
  - unfold nested, processed. rewrite bool_decide_false by done. cbn [negb andb].
    assert (walked root st st ∧ sh_shifted st = sh_shifted st) as [Hw _] by (split; [by apply walked_refl|done]).
    destruct (io_funcIdx o) as [f|] eqn:Ef.
    + rewrite andb_true_r. destruct (accepts (io_op o) && inLiveShiftRange f importsBefore) eqn:Er.
      * split_and!; [|done| |cbn [sh_store]; by rewrite lookup_insert_eq].
        2:{ intros o' _ _. simpl. set_solver. }
        split; cbn [sh_shifted sh_objects sh_store]; [done|set_solver| |auto|].
        -- split.
           ++ intros i. cbn [sh_store sh_objects]. destruct (decide (i = id)) as [->|Hne].
              ** rewrite lookup_insert_eq, Ho. csimpl. rewrite decide_True by set_solver. unfold bump. by rewrite Ef.
              ** rewrite lookup_insert_ne by done. rewrite Hst. destruct (objs !! i); [|done]. csimpl. f_equal.
                 destruct (decide (i ∈ sh_objects st)); [by rewrite decide_True by set_solver|by rewrite decide_False by set_solver].
           ++ intros i o' [->%elem_of_singleton|Hi]%elem_of_union Ho'; [|by eapply Hin].
              rewrite Ho in Ho'. injection Ho' as <-. unfold in_range. by rewrite Ef.
        -- intros i [->%elem_of_singleton|Hi]%elem_of_union; [|by left]. right. by exists a, l.
      * split_and!; [done|done| |by rewrite Hcur]. intros o' Ho' Hi. rewrite Ho in Ho'. injection Ho' as <-.
        unfold in_range in Hi. rewrite Ef in Hi. congruence.
    + split_and!; [done|done| |by rewrite Hcur]. intros o' Ho' Hi. rewrite Ho in Ho'. injection Ho' as <-.
      unfold in_range in Hi. by rewrite Ef in Hi.
Qed.
Lemma processed_mono st st' id : sh_objects st ⊆ sh_objects st' → processed st id → processed st' id.
Proof. intros Ho Hp o Hobj Hr. by apply Ho, (Hp o). Qed.

Lemma enter_smaller a st :
  a ∉ sh_shifted st → is_Some (arrays !! a) →
  (size (dom arrays ∖ ({[a]} ∪ sh_shifted st)) < size (dom arrays ∖ sh_shifted st))%nat.
Proof. intros Ha Hd. apply elem_of_dom in Hd. apply subset_size. set_solver. Qed.

Abbreviation walk f := (shiftInstrs arrays importsBefore added accepts true f).

Lemma shiftInstrs_spec fuel root a st :
  consistent st → reaches root a → is_Some (arrays !! a) →
  (size (dom arrays ∖ sh_shifted st) < fuel)%nat →
  ∃ st', walk fuel a st = Ok st' ∧ walked root st st' ∧ a ∈ sh_shifted st'.
Proof.
  revert a st. induction fuel as [|f IH]; intros a st Hc Hr Hd Hf; [lia|]. cbn [shiftInstrs].
  case_decide as Ha; [exists st; split_and!; [done|by apply walked_refl|done]|].
  pose proof (enter_smaller a st Ha Hd) as Hsm. destruct Hd as [l Hl]. rewrite Hl. cbn [default].
  set (Q := λ id st, processed st id ∧ ∀ o, objs !! id = Some o → ∀ b, b ∈ io_arrays o → b ∈ sh_shifted st).
  assert (consistent (enter a st)) as Hce by exact Hc.
  destruct (walked_each root l (enter a st) (λ id st,
    let st := shift_object importsBefore added accepts true id st in for_each (nested id st) (walk f) st) Q) as (st' & E & W & Hall).
  - intros id s1 s2 Hs Ho [Hp Hn]. split; [by eapply processed_mono|]. intros o Hobj b Hb. by eapply Hs, Hn.
  - done.
  - intros id s1 Hid Hs1 Hc1. destruct (shift_object_spec root a l id s1 Hc1 Hr Hl Hid) as (W2 & Hs2 & Hp2 & Hn2).
    cbv zeta. set (s2 := shift_object _ _ _ _ id s1) in *. destruct (Hstore a l id Hl Hid) as (o & Ho & Hno). rewrite Hn2, Ho.
    destruct (walked_each root (io_arrays o) s2 (walk f) (λ b st, b ∈ sh_shifted st)) as (s3 & E3 & W3 & Hall3).
    + intros b t t' Ht _ Hb. by apply Ht.
    + apply W2.
    + intros b s3 Hb Hs3 Hc3. apply IH; [done|by eapply reaches_step| |].
      * rewrite Forall_forall in Hno. by apply Hno.
      * eapply Nat.le_lt_trans; [|eapply Nat.lt_le_trans; [exact Hsm|lia]]. apply subseteq_size.
        rewrite Hs2 in Hs3. cbn [enter sh_shifted] in Hs1. set_solver.
    + exists s3. split_and!; [done|by eapply walked_trans|]. split; [by eapply processed_mono; [apply W3|]|].
      intros o' Ho' b Hb. rewrite Ho in Ho'. injection Ho' as <-. by apply Hall3.
  - exists st'. split_and!; [done| |apply (w_shifted _ _ _ W); set_solver]. destruct W as [S O C A I]. cbn [enter sh_shifted sh_objects] in *.
    split; [set_solver|done|done| |done]. intros x Hx. destruct (A x Hx) as [[->%elem_of_singleton|Hx']%elem_of_union|Hx']; [|by left|by right].
    right. split_and!; [|done|by eexists]. intros l' id o Hl' Hid Ho. rewrite Hl in Hl'. injection Hl' as <-.
    destruct (Hall id Hid) as [Hp Hn]. split; [done|]. by apply Hn.
Qed.

(** Everything that is reachable from the roots. *)
Definition live_array (roots : list Z) (a : Z) : Prop := ∃ r, r ∈ roots ∧ reaches r a.
Definition live_object (roots : list Z) (id : Z) : Prop :=
  ∃ a l, live_array roots a ∧ arrays !! a = Some l ∧ id ∈ l.

Lemma walk_all_spec roots :
  Forall (λ r, is_Some (arrays !! r)) roots →
  ∃ st, walk_all arrays importsBefore added accepts true roots objs = Ok st ∧
    (∀ a, a ∈ sh_shifted st → live_array roots a) ∧
    (∀ id o, live_object roots id → objs !! id = Some o →
       sh_store st !! id = Some (if in_range o then bump o else o)) ∧
    (∀ id, ¬ live_object roots id → sh_store st !! id = objs !! id).
Proof.
  intros Hroots. set (st0 := mkShifting ∅ ∅ objs).
  assert (consistent st0) as Hc0.
  { split; [|by intros id o Hid%elem_of_empty]. intros id. cbn [st0 sh_store sh_objects]. destruct (objs !! id); [|done]. csimpl.
    by rewrite decide_False by set_solver. }
  assert (∃ st, walk_all arrays importsBefore added accepts true roots objs = Ok st ∧ consistent st ∧
    (∀ a, a ∈ sh_shifted st → complete st a ∧ live_array roots a) ∧
    (∀ id, id ∈ sh_objects st → live_object roots id) ∧ ∀ r, r ∈ roots → r ∈ sh_shifted st) as (st & E & Hc & Hs & Ho & Hr).
  { unfold walk_all. fold st0. rewrite Forall_forall in Hroots.
    assert (size (dom arrays) < walk_fuel arrays)%nat as Hfuel by (unfold walk_fuel; lia).
    generalize dependent (walk_fuel arrays). intros fuel Hfuel.
    assert (∀ l st, (∀ r, r ∈ l → r ∈ roots) → consistent st →
      (∀ a, a ∈ sh_shifted st → complete st a ∧ live_array roots a) →
      (∀ id, id ∈ sh_objects st → live_object roots id) →
      ∃ st', for_each l (walk fuel) st = Ok st' ∧ consistent st' ∧
        (∀ a, a ∈ sh_shifted st' → complete st' a ∧ live_array roots a) ∧
        (∀ id, id ∈ sh_objects st' → live_object roots id) ∧
        sh_shifted st ⊆ sh_shifted st' ∧ ∀ r, r ∈ l → r ∈ sh_shifted st') as Hgen.
    { induction l as [|r l IH]; intros st Hl Hc Hs Ho.
      { exists st. split_and!; try done. by intros r Hr%elem_of_nil. }
      destruct (shiftInstrs_spec fuel r r st Hc) as (st1 & E1 & [S1 O1 C1 A1 I1] & Hr1);
        [constructor|by apply Hroots, Hl; left| |].
      { eapply Nat.le_lt_trans; [|exact Hfuel]. apply subseteq_size. set_solver. }
      simpl. rewrite E1. csimpl.
      destruct (IH st1) as (st2 & E2 & C2 & A2 & O2 & S2 & R2); [intros x Hx; apply Hl; by right|done| | |].
      - intros a Ha. destruct (A1 a Ha) as [Ha'|(Hca & Hra & _)].
        + destruct (Hs a Ha') as [Hca Hla]. split; [by eapply complete_mono|done].
        + split; [done|]. exists r. split; [apply Hl; by left|done].
      - intros id [Hi|(a & l' & Hra & Hl' & Hid)]%I1; [by apply Ho|]. exists a, l'. split; [|done]. exists r. split; [apply Hl; by left|done].
      - exists st2. split_and!; try done; [by etrans|]. intros x [->|Hx]%elem_of_cons; [by apply S2|by apply R2]. }
    destruct (Hgen roots st0) as (st & E & Hc & Hs & Ho & _ & Hr); [done|done|by intros a Ha%elem_of_empty|by intros a Ha%elem_of_empty|].
    by exists st. }
  assert (∀ r a, r ∈ roots → reaches r a → a ∈ sh_shifted st) as Hclosed.
  { intros r a Hin Hra. induction Hra as [|b l id o c Hrb IH Hl Hid Hobj Hc']; [by apply Hr|].
    destruct (Hs b IH) as [Hcb _]. destruct (Hcb l id o Hl Hid Hobj) as [_ Hn]. by apply Hn. }
  exists st. split_and!; [done|by intros a Ha; apply Hs| |].
  - intros id o (a & l & (r & Hin & Hra) & Hl & Hid) Hobj. rewrite (proj1 Hc), Hobj. csimpl. f_equal.
    destruct (Hs a (Hclosed r a Hin Hra)) as [Hca _]. destruct (Hca l id o Hl Hid Hobj) as [Hp _].
    case_decide as Hd; [by rewrite (proj2 Hc id o Hd Hobj)|]. destruct (in_range o) eqn:Er; [|done]. exfalso. by apply Hd, (Hp o).
  - intros id Hn. rewrite (proj1 Hc). destruct (objs !! id); [|done]. csimpl. rewrite decide_False; [done|]. intros Hi. by apply Hn, Ho.
Qed.
End walk_spec.

(** * The context *)

Definition ASYNC_SCHEDULER_FUNC_IDX_KEYS : list string :=
  ["enqueueFuncIdx"; "drainFuncIdx"; "growFuncIdx"; "promiseFulfillFuncIdx"; "promiseRejectFuncIdx";
   "identityFulfillWrapperFuncIdx"; "identityRejectWrapperFuncIdx"; "promiseResolveValueFuncIdx";
   "finallyRestoreSettleFuncIdx"; "finallyRestoreRejectFuncIdx"; "finallyAfterFuncIdx";
   "timerAddFuncIdx"; "timerCancelFuncIdx"; "timerPeekDeadlineFuncIdx"; "timerFireDueFuncIdx"; "runLoopFuncIdx";
   "runLoopNowFuncIdx"; "stdinDrainFuncIdx"; "pollFd0OrClockFuncIdx"]%string.

Definition COMBINATOR_FUNC_IDX_KEYS : list string :=
  ["subscribeFuncIdx"; "allFulfillFuncIdx"; "raceFulfillFuncIdx"; "rejectFuncIdx"; "allSettledFulfillFuncIdx";
   "allSettledRejectFuncIdx"; "anyRejectFuncIdx"; "aggErrNewFuncIdx"]%string.

Section tables.
Context (importsBefore added : Z).
Let shift := shift_idx importsBefore added.

(** A Map whose values are reassigned while it is iterated. *)
Definition shift_map {K} (keep : K → bool) (m : jsmap K Z) : jsmap K Z :=
  (λ e, (e.1, if keep e.1 then e.2 else shift e.2)) <$> m.

Definition shift_all {K} : jsmap K Z → jsmap K Z := shift_map (λ _, false).

Definition shiftAsyncSideChannelFuncIdxs (s : SideTables) : SideTables :=
  if added <=? 0 then s
  else
    mkSide (nativeStrHelpers s) (nativeRegexHelpers s) (mapHelpers s) (pendingMethodTrampolines s) (nativeGenerators s)
      (shift_map (λ k, negb (bool_decide (k ∈ ASYNC_SCHEDULER_FUNC_IDX_KEYS))) <$> asyncScheduler s)
      (shift_map (λ k, negb (bool_decide (k ∈ COMBINATOR_FUNC_IDX_KEYS))) <$> promiseCombinators s).

Definition shift_tables (s : SideTables) : SideTables :=
  shiftAsyncSideChannelFuncIdxs
    (mkSide (shift_all (nativeStrHelpers s)) (shift_all (nativeRegexHelpers s)) (shift_all (mapHelpers s))
       ((λ t, (shift t.1, shift t.2)) <$> pendingMethodTrampolines s)
       ((λ l : list (option Z), (λ r : option Z, shift <$> r) <$> l) <$> nativeGenerators s) (asyncScheduler s) (promiseCombinators s)).

Definition is_func_export (k : ExportKind) : bool := match k with XFunc => true | _ => false end.

Definition shift_export (x : WasmExport) : WasmExport :=
  mkWasmExport (ex_name x) (ex_kind x) (if is_func_export (ex_kind x) then shift (ex_index x) else ex_index x).

Definition shift_module (m : Module_) : Module_ :=
  mkMod (mod_types m) (mod_imports m) (mod_functions m) (mod_funcOrdinalToPosition m) (shift_export <$> mod_exports m)
    ((λ l : list Z, shift <$> l) <$> mod_elements m) (shift <$> mod_declaredFuncRefs m) (shift <$> mod_startFuncIdx m).

Definition importNames (m : Module_) : list jsstr :=
  omap (λ i, if is_func_import i then Some (im_name i) else None) (mod_imports m).

Definition fctx_bodies (f : FunctionContext) : list Z := fc_body f :: fc_savedBodies f.

(** The arrays that the walk starts from. *)
Definition shift_roots (c : CodegenContext) (fctx : option FunctionContext) : list Z :=
  let b := c_bodies c in
  (fo_body <$> mod_functions (c_mod c)) ++
  match fctx with Some f => fctx_bodies f | None => [] end ++
  match currentFunc b with Some f => fctx_bodies f | None => [] end ++
  (funcStack b ≫= fctx_bodies) ++ parentBodiesStack b ++ liveBodies b ++
  match pendingInitBody b with Some a => [a] | None => [] end.

Definition shift_context (c : CodegenContext) : CodegenContext :=
  mkCtx (shift_module (c_mod c)) (c_numImportFuncs c)
    (shift_map (λ name, bool_decide (name ∈ importNames (c_mod c))) (c_funcMap c)) (c_funcTypeCache c)
    (shift_tables (c_side c)) (c_bodies c)
    (if 0 <=? c_nativeStrHelperImportBase c then c_numImportFuncs c else c_nativeStrHelperImportBase c)
    (c_pendingLateImportShift c) (c_indexSpaceFrozen c) (c_ownedHelpers c).
End tables.

(** The state: the context and the objects; nobody changes an array here. *)
Abbreviation state := (CodegenContext * instr_store)%type.

Section late_imports.
Context (arrays : array_store).

Definition shiftLateImportIndices (fctx : option FunctionContext) (importsBefore added : Z) (s : state) : result state :=
  if added <=? 0 then Ok s
  else
    let (c, objs) := s in
    st ← walk_all arrays importsBefore added (λ _, true) true (shift_roots c fctx) objs;
    Ok (shift_context importsBefore added c, sh_store st).

Definition with_base (base : Z) (c : CodegenContext) : CodegenContext :=
  mkCtx (c_mod c) (c_numImportFuncs c) (c_funcMap c) (c_funcTypeCache c) (c_side c) (c_bodies c) base
    (c_pendingLateImportShift c) (c_indexSpaceFrozen c) (c_ownedHelpers c).

Definition with_pending (pending : option Z) (c : CodegenContext) : CodegenContext :=
  mkCtx (c_mod c) (c_numImportFuncs c) (c_funcMap c) (c_funcTypeCache c) (c_side c) (c_bodies c)
    (c_nativeStrHelperImportBase c) pending (c_indexSpaceFrozen c) (c_ownedHelpers c).

Definition is_call (op : string) : bool :=
  bool_decide (op = "call"%string) || bool_decide (op = "return_call"%string) || bool_decide (op = "ref.func"%string).

(** The repair of imports that were added without a shift.  This walker keeps no set of
    objects. *)
Definition reconcileNativeStrFinalizeShift (s : state) : result state :=
  let (c, objs) := s in
  let base := c_nativeStrHelperImportBase c in
  if base <? 0 then Ok s
  else
    let added := c_numImportFuncs c - base in
    let c := with_base (c_numImportFuncs c) c in
    if added <=? 0 then Ok (c, objs)
    else
      st ← walk_all arrays base added is_call false (fo_body <$> mod_functions (c_mod c)) objs;
      let m := c_mod c in
      let definedNames := fo_name <$> mod_functions m in
      let side := c_side c in
      Ok (mkCtx
        (mkMod (mod_types m) (mod_imports m) (mod_functions m) (mod_funcOrdinalToPosition m)
           (shift_export base added <$> mod_exports m) (mod_elements m) (mod_declaredFuncRefs m) (mod_startFuncIdx m))
        (c_numImportFuncs c)
        (shift_map base added (λ name, bool_decide (name = []) || negb (bool_decide (name ∈ definedNames))) (c_funcMap c))
        (c_funcTypeCache c)
        (mkSide (shift_all base added (nativeStrHelpers side)) (shift_all base added (nativeRegexHelpers side)) (mapHelpers side)
           (pendingMethodTrampolines side) (nativeGenerators side) (asyncScheduler side) (promiseCombinators side))
        (c_bodies c) (c_nativeStrHelperImportBase c) (c_pendingLateImportShift c) (c_indexSpaceFrozen c) (c_ownedHelpers c),
      sh_store st).

Definition flushLateImportShifts (fctx : option FunctionContext) (s : state) : result state :=
  let (c, objs) := s in
  match c_pendingLateImportShift c with
  | None => Ok s
  | Some importsBefore =>
      let added := c_numImportFuncs c - importsBefore in
      let c := with_pending None c in
      if added <=? 0 then Ok (c, objs)
      else
        '(c, objs) ← shiftLateImportIndices fctx importsBefore added (c, objs);
        Ok ((if 0 <=? c_nativeStrHelperImportBase c then with_base (c_numImportFuncs c) c else c), objs)
  end.

(** ** Adding an import *)

(** Whether the import may be satisfied by a host ([isHostImportAllowed] under
    [strictNoHostImports]); a refused import is reported and not added. *)
Context (host_import_allowed : jsstr → jsstr → bool).

(** The native implementations that some names are routed to ([addUnionImports],
    [ensureObjectRuntime] and the others): steps of code generation. *)
Context (provider : jsstr → option (state → result state)).

Definition frozen_advice : jsstr :=
  dash ++ js " this producer must register its import before the freeze point or refuse loudly".

Definition addImport (module name : jsstr) (desc : ImportDesc) (c : CodegenContext) : result CodegenContext :=
  if c_indexSpaceFrozen c
  then throw EError (js "import space frozen (#1984): '" ++ module ++ js "." ++ name
         ++ js "' added after finalize " ++ frozen_advice)
  else if negb (host_import_allowed module name) then Ok c
  else
    let m := c_mod c in
    let m := mkMod (mod_types m) (mod_imports m ++ [mkImport_ module name desc]) (mod_functions m) (mod_funcOrdinalToPosition m)
               (mod_exports m) (mod_elements m) (mod_declaredFuncRefs m) (mod_startFuncIdx m) in
    let is_func := is_func_import (mkImport_ module name desc) in
    Ok (mkCtx m (if is_func then c_numImportFuncs c + 1 else c_numImportFuncs c)
          (if is_func then jm_set (c_funcMap c) name (c_numImportFuncs c) else c_funcMap c) (c_funcTypeCache c) (c_side c) (c_bodies c)
          (c_nativeStrHelperImportBase c) (c_pendingLateImportShift c) (c_indexSpaceFrozen c) (c_ownedHelpers c)).

Definition addFuncType (params results : list BrandedType) (c : CodegenContext) : result (Z * CodegenContext) :=
  let m := c_mod c in
  '(idx, types, cache) ← internFunctionType (mod_types m) (c_funcTypeCache c) params results None false;
  Ok (idx, mkCtx (mkMod types (mod_imports m) (mod_functions m) (mod_funcOrdinalToPosition m)
                    (mod_exports m) (mod_elements m) (mod_declaredFuncRefs m) (mod_startFuncIdx m))
             (c_numImportFuncs c) (c_funcMap c) cache (c_side c) (c_bodies c)
             (c_nativeStrHelperImportBase c) (c_pendingLateImportShift c) (c_indexSpaceFrozen c) (c_ownedHelpers c)).

(** The errors that the refusals of a standalone target queue are not part of the state. *)
Definition ensureLateImport (name : jsstr) (params results : list BrandedType) (module : jsstr) (s : state) :
    result (option Z * state) :=
  match jm_get (c_funcMap s.1) name with
  | Some existing => Ok (Some existing, s)
  | None =>
      if c_indexSpaceFrozen s.1
      then throw EError (js "import space frozen (#1984): late import '" ++ name
             ++ js "' requested after finalize " ++ frozen_advice)
      else match provider name with
           | Some provide => s ← provide s; Ok (jm_get (c_funcMap s.1) name, s)
           | None =>
               s ← match c_pendingLateImportShift s.1 with
                   | Some _ => Ok s
                   | None =>
                       s ← reconcileNativeStrFinalizeShift s;
                       Ok (with_pending (Some (c_numImportFuncs s.1)) s.1, s.2)
                   end;
               '(typeIdx, c) ← addFuncType params results s.1;
               c ← addImport module name (IFunc typeIdx) c;
               Ok (jm_get (c_funcMap c) name, (c, s.2))
           end
  end.
End late_imports.

(** * What a handle stands for *)

Inductive entity := Imported (index : Z) | Defined (position : Z) | Stable (handle : Z).

(** The number of imports that live handles count with: those of before the pending
    batch, whose shift has not been made yet. *)
Definition regime_base (c : CodegenContext) : Z := default (c_numImportFuncs c) (c_pendingLateImportShift c).

Definition entity_in (base h : Z) : entity :=
  if STABLE_FUNC_BASE <=? h then Stable h else if h <? base then Imported h else Defined (h - base).

Definition entity_of (c : CodegenContext) (h : Z) : entity := entity_in (regime_base c) h.

Definition function_count (c : CodegenContext) : Z := Z.of_nat (length (mod_functions (c_mod c))).

(** A stable handle, or an index of the index space. *)
Definition valid_handle (c : CodegenContext) (h : Z) : Prop :=
  STABLE_FUNC_BASE ≤ h ∨ h < regime_base c + function_count c.

Lemma shift_idx_entity base added n h :
  0 ≤ added → 0 ≤ n → base + added + n ≤ STABLE_FUNC_BASE → STABLE_FUNC_BASE ≤ h ∨ h < base + n →
  entity_in (base + added) (shift_idx base added h) = entity_in base h.
Proof.
  intros Ha Hn Hb Hh. unfold shift_idx, inLiveShiftRange, entity_in.
  destruct (Z.leb_spec base h), (Z.ltb_spec h STABLE_FUNC_BASE); cbn [andb].
  - destruct (Z.leb_spec STABLE_FUNC_BASE (h + added)), (Z.leb_spec STABLE_FUNC_BASE h); try lia.
    destruct (Z.ltb_spec (h + added) (base + added)), (Z.ltb_spec h base); try lia. f_equal. lia.
  - by destruct (Z.leb_spec STABLE_FUNC_BASE h); [|lia].
  - destruct (Z.leb_spec STABLE_FUNC_BASE h); [lia|].
    by destruct (Z.ltb_spec h (base + added)), (Z.ltb_spec h base); try lia.
  - lia.
Qed.

(** ** The handles outside of instructions *)

Definition known_handles (keys : list string) (t : option (jsmap string Z)) : list Z :=
  snd <$> filter (λ e, e.1 ∈ keys) (default [] t).

Definition side_handles (s : SideTables) : list Z :=
  (nativeStrHelpers s).*2 ++ (nativeRegexHelpers s).*2 ++ (mapHelpers s).*2 ++
  (pendingMethodTrampolines s).*1 ++ (pendingMethodTrampolines s).*2 ++
  omap (λ r : option Z, r) (default [] (nativeGenerators s)) ++
  known_handles ASYNC_SCHEDULER_FUNC_IDX_KEYS (asyncScheduler s) ++ known_handles COMBINATOR_FUNC_IDX_KEYS (promiseCombinators s).

Definition module_handles (m : Module_) : list Z :=
  omap (λ x, if is_func_export (ex_kind x) then Some (ex_index x) else None) (mod_exports m) ++
  concat (mod_elements m) ++ mod_declaredFuncRefs m ++ option_list (mod_startFuncIdx m).

Definition handles (c : CodegenContext) : list Z := side_handles (c_side c) ++ module_handles (c_mod c).

Section shifted_tables.
Context (importsBefore added : Z) (Hadded : 0 < added).
Abbreviation shift := (shift_idx importsBefore added).

Lemma shift_all_values {K} (m : jsmap K Z) : (shift_all importsBefore added m).*2 = shift <$> m.*2.
Proof. unfold shift_all, shift_map. rewrite <- !list_fmap_compose. by apply list_fmap_ext. Qed.

Lemma shift_known keys t :
  known_handles keys (shift_map importsBefore added (λ k, negb (bool_decide (k ∈ keys))) <$> t) = shift <$> known_handles keys t.
Proof.
  unfold known_handles. destruct t as [m|]; [|done]. cbn [default fmap option_fmap option_map from_option]. unfold id.
  induction m as [|[k h] m IH]; [done|]. unfold shift_map in *. rewrite fmap_cons, !filter_cons. cbn [fst].
  case_decide as Hk; [|done]. rewrite bool_decide_true by done. csimpl. by rewrite IH.
Qed.

Lemma shift_some (l : list (option Z)) :
  omap (λ r : option Z, r) ((λ r : option Z, shift <$> r) <$> l) = shift <$> omap (λ r : option Z, r) l.
Proof. induction l as [|[r|] l IH]; [done|..]; csimpl; [by rewrite IH|done]. Qed.

Lemma side_handles_shift s : side_handles (shift_tables importsBefore added s) = shift <$> side_handles s.
Proof.
  unfold shift_tables, shiftAsyncSideChannelFuncIdxs. destruct (Z.leb_spec added 0); [lia|]. unfold side_handles. cbn [nativeStrHelpers
    nativeRegexHelpers mapHelpers pendingMethodTrampolines nativeGenerators asyncScheduler promiseCombinators].
  rewrite !fmap_app, !shift_all_values, !shift_known, <- !list_fmap_compose.
  destruct (nativeGenerators s) as [l|]; [|done]. cbn [default fmap option_fmap option_map from_option]. unfold id.
  by rewrite (shift_some l).
Qed.

Lemma module_handles_shift m : module_handles (shift_module importsBefore added m) = shift <$> module_handles m.
Proof.
  unfold module_handles, shift_module. cbn [mod_exports mod_elements mod_declaredFuncRefs mod_startFuncIdx]. rewrite !fmap_app.
  f_equal; [|f_equal; [|f_equal]].
  - induction (mod_exports m) as [|x l IH]; [done|]. csimpl. destruct (ex_kind x); csimpl; by rewrite <- IH.
  - induction (mod_elements m) as [|x l IH]; [done|]. csimpl. by rewrite fmap_app, IH.
  - by destruct (mod_startFuncIdx m).
Qed.

Lemma shift_map_get {K} `{EqDecision K} keep (m : jsmap K Z) k :
  jm_get (shift_map importsBefore added keep m) k = (λ h, if keep k then h else shift h) <$> jm_get m k.
Proof.
  induction m as [|[k' h] m IH]; [done|]. unfold shift_map in *. csimpl. case_decide as Hk; [by subst|done].
Qed.
End shifted_tables.

(** * The flush *)

Section flush.
Context (arrays : array_store) (fctx : option FunctionContext) (c : CodegenContext) (objs : instr_store).
Abbreviation roots := (shift_roots c fctx).

(** The preconditions of a flush: the counts fit, and the store is whole. *)
Record flushable (b : Z) : Prop := {
  pending_base : c_pendingLateImportShift c = Some b;
  base_range : 0 ≤ b ≤ c_numImportFuncs c;
  live_range : c_numImportFuncs c + function_count c ≤ STABLE_FUNC_BASE;
  store_whole : store_ok arrays objs;
  roots_exist : Forall (λ r, is_Some (arrays !! r)) roots;
}.

Definition flushed (b : Z) (c' : CodegenContext) (objs' : instr_store) : Prop :=
  let shift := shift_idx b (c_numImportFuncs c - b) in
  (∀ id o, live_object arrays objs roots id → objs !! id = Some o →
     objs' !! id = Some (mkInstr (io_op o) (shift <$> io_funcIdx o) (io_arrays o))) ∧
  (∀ id, ¬ live_object arrays objs roots id → objs' !! id = objs !! id) ∧
  handles c' = shift <$> handles c ∧
  (∀ name, jm_get (c_funcMap c') name =
     (λ h, if decide (name ∈ importNames (c_mod c)) then h else shift h) <$> jm_get (c_funcMap c) name) ∧
  mod_functions (c_mod c') = mod_functions (c_mod c) ∧
  mod_funcOrdinalToPosition (c_mod c') = mod_funcOrdinalToPosition (c_mod c) ∧
  mod_imports (c_mod c') = mod_imports (c_mod c) ∧
  c_numImportFuncs c' = c_numImportFuncs c ∧ c_pendingLateImportShift c' = None ∧
  ((c_nativeStrHelperImportBase c < 0 ∨ c_numImportFuncs c = b) ∧ c_nativeStrHelperImportBase c' = c_nativeStrHelperImportBase c ∨
   c_nativeStrHelperImportBase c' = c_numImportFuncs c).

Lemma shift_idx_zero b h : shift_idx b 0 h = h.
Proof. unfold shift_idx. destruct (inLiveShiftRange h b); lia. Qed.

Lemma bump_shifted b added o :
  (if in_range b (λ _, true) o then bump added o else o) = mkInstr (io_op o) (shift_idx b added <$> io_funcIdx o) (io_arrays o).
Proof.
  unfold in_range, bump, shift_idx. destruct o as [op [f|] ars]; [|done]. cbn. by destruct (inLiveShiftRange f b).
Qed.

Lemma rebased (t : bool) n x :
  let y := if t then with_base n x else x in
  c_side y = c_side x ∧ c_mod y = c_mod x ∧ c_funcMap y = c_funcMap x ∧ c_numImportFuncs y = c_numImportFuncs x ∧
  c_pendingLateImportShift y = c_pendingLateImportShift x ∧
  (c_nativeStrHelperImportBase y = n ∨ c_nativeStrHelperImportBase y = c_nativeStrHelperImportBase x).
Proof. destruct t; cbn; auto 10. Qed.

Lemma flush_spec b :
  flushable b → ∃ c' objs', flushLateImportShifts arrays fctx (c, objs) = Ok (c', objs') ∧ flushed b c' objs'.
Proof.
  intros [Hp Hb Hl Hs Hr]. unfold flushLateImportShifts. rewrite Hp. cbv zeta.
  destruct (Z.leb_spec (c_numImportFuncs c - b) 0) as [H0|Hadd].
  - exists (with_pending None c), objs. split; [done|]. unfold flushed. assert (c_numImportFuncs c - b = 0) as -> by lia.
    split_and!; try done; [| | |left; split; [right; lia|done]].
    + intros id o _ Ho. rewrite Ho. destruct o as [op [f|] ars]; [|done]. csimpl. by rewrite shift_idx_zero.
    + unfold handles. cbn [with_pending c_side c_mod]. rewrite (list_fmap_ext _ id), list_fmap_id; [done|]. intros; apply shift_idx_zero.
    + intros name. cbn [with_pending c_funcMap]. destruct (jm_get (c_funcMap c) name) as [h|]; [|done]. csimpl.
      rewrite shift_idx_zero. by destruct (decide _).
  - unfold shiftLateImportIndices. destruct (Z.leb_spec (c_numImportFuncs c - b) 0); [lia|].
    destruct (walk_all_spec arrays b (c_numImportFuncs c - b) (λ _, true) objs Hs roots Hr) as (st & E & _ & Hlive & Hdead).
    change (shift_roots (with_pending None c) fctx) with roots. rewrite E. csimpl. cbn [shift_context with_pending c_numImportFuncs c_nativeStrHelperImportBase].
    eexists _, _. split; [done|].
    match goal with |- context [if ?t then with_base ?n ?x else ?x] => pose proof (rebased t n x) as Hre; set (c' := if t then _ else _) in * end.
    destruct Hre as (H1 & H2 & H3 & H4 & H5 & H6). unfold flushed, handles. rewrite H1, H2, H3, H4, H5. split_and!; try done.
    + intros id o Hid Ho. rewrite (Hlive id o Hid Ho). f_equal. apply bump_shifted.
    + unfold shift_context. cbn [c_side c_mod with_pending]. by rewrite side_handles_shift, module_handles_shift, <- fmap_app by lia.
    + intros name. unfold shift_context. cbn [c_funcMap c_mod with_pending]. rewrite shift_map_get. destruct (jm_get (c_funcMap c) name); [|done]. csimpl. by repeat case_match; simplify_eq; repeat case_decide.
    + unfold shift_context in H6. cbn [c_nativeStrHelperImportBase c_numImportFuncs with_pending] in H6. destruct (Z.leb_spec 0 (c_nativeStrHelperImportBase c)); destruct H6 as [->| ->]; auto.
Qed.

(** What the shift preserves. *)
Lemma flushed_entity b c' objs' h :
  flushable b → flushed b c' objs' → valid_handle c h → entity_of c' (shift_idx b (c_numImportFuncs c - b) h) = entity_of c h.
Proof.
  intros [Hp Hb Hl _ _] (_ & _ & _ & _ & Hf & _ & _ & Hn & Hnone & _) Hv. unfold entity_of, valid_handle, regime_base in *.
  rewrite Hnone, Hn, Hp in *. cbn [default from_option] in *. unfold id in *.
  pose proof (shift_idx_entity b (c_numImportFuncs c - b) (function_count c) h) as He.
  replace (b + (c_numImportFuncs c - b)) with (c_numImportFuncs c) in He by lia. apply He; [lia|unfold function_count; lia|lia|done].
Qed.
End flush.

(** * Compilation as a state machine *)

(** [wd_meaning] records what each instruction with a handle was written for. *)
Record world := mkWorld {
  wd_ctx : CodegenContext; wd_objs : instr_store; wd_arrays : array_store; wd_meaning : gmap Z entity }.

Definition with_bodies (bodies : Bodies) (c : CodegenContext) : CodegenContext :=
  mkCtx (c_mod c) (c_numImportFuncs c) (c_funcMap c) (c_funcTypeCache c) (c_side c) bodies (c_nativeStrHelperImportBase c)
    (c_pendingLateImportShift c) (c_indexSpaceFrozen c) (c_ownedHelpers c).

Definition within_limit (c : CodegenContext) : Prop := c_numImportFuncs c + function_count c ≤ STABLE_FUNC_BASE.

Section machine.
Context (host_import_allowed : jsstr → jsstr → bool) (provider : jsstr → option (state → result state)).

(** Functions are registered; an instruction is written, with a live handle only while no
    shift is pending; arrays and the bodies under construction change hands; a late import
    that has no native provider is requested; the batch is flushed when every instruction
    that was written is in a body that the flush walks. *)
Inductive step : world → world → Prop :=
  | step_register c objs ars ms s' :
      registration (storage_of c) s' → within_limit (with_storage s' c) →
      step (mkWorld c objs ars ms) (mkWorld (with_storage s' c) objs ars ms)
  | step_write c objs ars ms ars' id o h :
      objs !! id = None → ms !! id = None → io_funcIdx o = Some h → valid_handle c h →
      c_pendingLateImportShift c = None ∨ STABLE_FUNC_BASE ≤ h →
      step (mkWorld c objs ars ms) (mkWorld c (<[id := o]> objs) ars' (<[id := entity_of c h]> ms))
  | step_arrange c objs ars ms ars' bodies :
      step (mkWorld c objs ars ms) (mkWorld (with_bodies bodies c) objs ars' ms)
  | step_import c objs ars ms name params results module r c' objs' :
      provider name = None →
      ensureLateImport ars host_import_allowed provider name params results module (c, objs) = Ok (r, (c', objs')) →
      within_limit c' →
      step (mkWorld c objs ars ms) (mkWorld c' objs' ars ms)
  | step_flush c objs ars ms fctx c' objs' :
      store_ok ars objs → Forall (λ a, is_Some (ars !! a)) (shift_roots c fctx) →
      (∀ id, id ∈ dom ms → live_object ars objs (shift_roots c fctx) id) →
      flushLateImportShifts ars fctx (c, objs) = Ok (c', objs') →
      step (mkWorld c objs ars ms) (mkWorld c' objs' ars ms).

(** The counts fit and no import was added behind the back of the batches. *)
Record settled (c : CodegenContext) : Prop := {
  settled_base : 0 ≤ regime_base c ≤ c_numImportFuncs c;
  settled_limit : within_limit c;
  settled_strings : c_nativeStrHelperImportBase c < 0 ∨ c_nativeStrHelperImportBase c = regime_base c;
}.

(** Every reference still stands for what it was written for. *)
Definition means (c : CodegenContext) (objs : instr_store) (id : Z) (e : entity) : Prop :=
  ∃ o h, objs !! id = Some o ∧ io_funcIdx o = Some h ∧ valid_handle c h ∧ entity_of c h = e.

Definition sound (w : world) : Prop :=
  settled (wd_ctx w) ∧ ∀ id e, wd_meaning w !! id = Some e → means (wd_ctx w) (wd_objs w) id e.

Lemma means_ctx c c' objs id e :
  regime_base c' = regime_base c → function_count c ≤ function_count c' → means c objs id e → means c' objs id e.
Proof.
  intros Hb Hf (o & h & Ho & Hh & Hv & He). exists o, h. unfold valid_handle, entity_of in *. rewrite Hb.
  split_and!; [done|done|lia|done].
Qed.

Lemma registration_grows s s' : registration s s' → (length s.1 ≤ length s'.1)%nat.
Proof.
  destruct 1 as [s|s s' h fn (o & _ & _ & ->)%commit_ok _|s fn _]; cbn [mintDefinedFunc appendDefinedFunc fst snd]; rewrite ?length_app; lia.
Qed.

(** A settled context has nothing to reconcile. *)
Lemma reconcile_settled ars c objs :
  settled c → c_pendingLateImportShift c = None →
  ∃ base, reconcileNativeStrFinalizeShift ars (c, objs) = Ok (with_base base c, objs) ∧
    (base < 0 ∨ base = c_numImportFuncs c).
Proof.
  intros Hs Hn. unfold reconcileNativeStrFinalizeShift. pose proof (settled_strings _ Hs) as Hstr.
  unfold regime_base in Hstr. rewrite Hn in Hstr. cbn in Hstr. unfold id in Hstr. destruct Hstr as [H|H].
  - destruct (Z.ltb_spec (c_nativeStrHelperImportBase c) 0); [|lia]. exists (c_nativeStrHelperImportBase c). split; [by destruct c|auto].
  - destruct (Z.ltb_spec (c_nativeStrHelperImportBase c) 0); [exists (c_nativeStrHelperImportBase c); split; [by destruct c|auto]|].
    cbv zeta. destruct (Z.leb_spec (c_numImportFuncs c - c_nativeStrHelperImportBase c) 0); [|lia]. exists (c_numImportFuncs c). auto.
Qed.

(** What a request changes. *)
Definition imported (c c' : CodegenContext) : Prop :=
  regime_base c' = regime_base c ∧ c_numImportFuncs c ≤ c_numImportFuncs c' ∧
  mod_functions (c_mod c') = mod_functions (c_mod c) ∧
  (c_nativeStrHelperImportBase c' < 0 ∨ c_nativeStrHelperImportBase c' = regime_base c).

Lemma addImport_spec module name t c c' :
  addImport host_import_allowed module name (IFunc t) c = Ok c' →
  c_pendingLateImportShift c' = c_pendingLateImportShift c ∧ c_numImportFuncs c ≤ c_numImportFuncs c' ∧
  mod_functions (c_mod c') = mod_functions (c_mod c) ∧ c_nativeStrHelperImportBase c' = c_nativeStrHelperImportBase c.
Proof.
  unfold addImport. destruct (c_indexSpaceFrozen c); [done|]. destruct (host_import_allowed module name); intros [= <-]; cbn; [|done].
  split_and!; [done|lia|done|done].
Qed.

Lemma addFuncType_spec ps rs c t c' :
  addFuncType ps rs c = Ok (t, c') →
  c_pendingLateImportShift c' = c_pendingLateImportShift c ∧ c_numImportFuncs c' = c_numImportFuncs c ∧
  mod_functions (c_mod c') = mod_functions (c_mod c) ∧ c_nativeStrHelperImportBase c' = c_nativeStrHelperImportBase c.
Proof.
  unfold addFuncType. destruct (internFunctionType _ _ _ _ _ _) as [[[i ts] ca]|]; [|done]. by intros [= <- <-].
Qed.

Lemma ensureLateImport_spec ars name ps rs module c objs r c' objs' :
  settled c → provider name = None →
  ensureLateImport ars host_import_allowed provider name ps rs module (c, objs) = Ok (r, (c', objs')) →
  imported c c' ∧ objs' = objs.
Proof.
  intros Hs Hp He. unfold ensureLateImport in He. cbn [fst snd] in He. destruct (jm_get (c_funcMap c) name).
  { injection He as <- <- <-. unfold imported. pose proof (settled_strings _ Hs). split_and!; auto; lia. }
  destruct (c_indexSpaceFrozen c); [done|]. rewrite Hp in He.
  assert (∃ c1, (match c_pendingLateImportShift c with
    | Some _ => Ok (c, objs)
    | None => s ← reconcileNativeStrFinalizeShift ars (c, objs); Ok (with_pending (Some (c_numImportFuncs s.1)) s.1, s.2)
    end) = Ok (c1, objs) ∧ c_pendingLateImportShift c1 = Some (regime_base c) ∧ c_numImportFuncs c1 = c_numImportFuncs c ∧
    mod_functions (c_mod c1) = mod_functions (c_mod c) ∧
    (c_nativeStrHelperImportBase c1 < 0 ∨ c_nativeStrHelperImportBase c1 = regime_base c)) as (c1 & E1 & Hp1 & Hn1 & Hf1 & Hs1).
  { pose proof (settled_strings _ Hs) as Hstr. unfold regime_base in *. destruct (c_pendingLateImportShift c) as [b|] eqn:Ep; [by exists c|].
    destruct (reconcile_settled ars c objs Hs Ep) as (base & -> & Hbase). csimpl. eexists. split; [done|]. done. }
  rewrite E1 in He. csimpl in He. destruct (addFuncType ps rs c1) as [[t c2]|] eqn:E2; [|done]. csimpl in He.
  apply addFuncType_spec in E2 as (Hp2 & Hn2 & Hf2 & Hs2). destruct (addImport _ module name (IFunc t) c2) as [c3|] eqn:E3; [|done]. csimpl in He.
  injection He as <- <- <-. apply addImport_spec in E3 as (Hp3 & Hn3 & Hf3 & Hs3). split; [|done]. unfold imported, regime_base in *.
  rewrite Hp3, Hp2, Hp1, Hs3, Hs2. split_and!; [done|lia|congruence|done].
Qed.

Lemma flush_sound ars fctx c objs c' objs' (ms : gmap Z entity) :
  store_ok ars objs → Forall (λ a, is_Some (ars !! a)) (shift_roots c fctx) →
  (∀ id, id ∈ dom ms → live_object ars objs (shift_roots c fctx) id) →
  flushLateImportShifts ars fctx (c, objs) = Ok (c', objs') →
  settled c → (∀ id e, ms !! id = Some e → means c objs id e) →
  settled c' ∧ c_pendingLateImportShift c' = None ∧ ∀ id e, ms !! id = Some e → means c' objs' id e.
Proof.
  intros Hst Hroots Hlive Hf Hs Hm. destruct (c_pendingLateImportShift c) as [b|] eqn:Ep.
  2:{ unfold flushLateImportShifts in Hf. rewrite Ep in Hf. by injection Hf as <- <-. }
  pose proof Hs as [Hb Hlim Hstr]. assert (regime_base c = b) as Hrc by (unfold regime_base; by rewrite Ep). rewrite Hrc in Hb, Hstr.
  assert (flushable ars fctx c objs b) as Hfl by (by split).
  destruct (flush_spec ars fctx c objs b Hfl) as (c1 & objs1 & E & Hfd). rewrite Hf in E. injection E as <- <-.
  pose proof Hfd as (Hlv & _ & _ & _ & Hfn & _ & _ & Hn & Hnone & Hbase).
  assert (function_count c' = function_count c) as Hfc by (unfold function_count; by rewrite Hfn).
  assert (regime_base c' = c_numImportFuncs c) as Hrb by (unfold regime_base; by rewrite Hnone, Hn).
  split_and!; [|done|].
  - split; [rewrite Hrb; lia|unfold within_limit in *; lia|]. rewrite Hrb. destruct Hbase as [[[H|H] ->]| ->]; [by left| |by right].
    destruct Hstr as [H'|H']; [by left|right; lia].
  - intros id e He. destruct (Hm id e He) as (o & h & Ho & Hh & Hv & Hent).
    assert (id ∈ dom ms) as Hid by (by apply elem_of_dom_2 in He).
    exists (mkInstr (io_op o) (shift_idx b (c_numImportFuncs c - b) <$> io_funcIdx o) (io_arrays o)), (shift_idx b (c_numImportFuncs c - b) h).
    split_and!; [by apply Hlv; [apply Hlive|]|by simpl; rewrite Hh| |by rewrite (flushed_entity ars fctx c objs b c' objs' h Hfl Hfd Hv)].
    unfold valid_handle in *. rewrite Hrb, Hfc. rewrite Hrc in Hv.
    unfold shift_idx, inLiveShiftRange. destruct (Z.leb_spec b h), (Z.ltb_spec h STABLE_FUNC_BASE); cbn [andb]; try lia.
Qed.

Lemma step_sound w w' : step w w' → sound w → sound w'.
Proof.
  destruct 1 as [c objs ars ms s' Hreg Hlim|c objs ars ms ars' id o h Hid Hms Hh Hv Hp|c objs ars ms ars' bodies
    |c objs ars ms name ps rs module r c' objs' Hp He Hlim|c objs ars ms fctx c' objs' Hst Hroots Hlive Hf];
    intros [Hs Hm]; unfold sound; cbn [wd_ctx wd_objs wd_meaning] in *.
  - split; [by destruct Hs; split|]. intros id e He. apply (means_ctx c); [done| |by apply Hm].
    apply registration_grows in Hreg. unfold function_count. cbn in *. lia.
  - split; [done|]. intros id' e. destruct (decide (id' = id)) as [->|Hne].
    + rewrite lookup_insert_eq. intros [= <-]. exists o, h. by rewrite lookup_insert_eq.
    + rewrite lookup_insert_ne by done. intros He. destruct (Hm id' e He) as (o' & h' & Ho' & Hrest).
      exists o', h'. by rewrite lookup_insert_ne.
  - split; [by destruct Hs|]. intros id e He. apply (means_ctx c); [done| |by apply Hm]. unfold function_count. cbn. lia.
  - apply ensureLateImport_spec in He as [(Hb & Hn & Hfn & Hc) ->]; [|done|done].
    assert (function_count c' = function_count c) as Hfc by (unfold function_count; by rewrite Hfn).
    split; [|intros id e He; apply (means_ctx c); [done|lia|by apply Hm]].
    destruct Hs as [[H0 H1] _ _]. split; [rewrite Hb; lia|done|by rewrite Hb].
  - by destruct (flush_sound ars fctx c objs c' objs' ms) as (H1 & _ & H2).
Qed.
End machine.

(** * Properties *)

(** What an emitted module makes of a handle that was written for an entity. *)
Definition resolves_to (md : WasmModule) (numImportFuncs h : Z) (e : entity) : Prop :=
  match e with
  | Imported i => absoluteFuncIndex md h = Ok i
  | Defined pos => absoluteFuncIndex md h = Ok (numImportFuncs + pos)
  | Stable h' => h = h'
  end.

Lemma entity_resolves c md h :
  c_pendingLateImportShift c = None → emitted_from c md → resolves_to md (c_numImportFuncs c) h (entity_of c h).
Proof.
  intros Hp _. unfold entity_of, entity_in, regime_base. rewrite Hp. cbn [default from_option]. unfold id.
  destruct (Z.leb_spec STABLE_FUNC_BASE h); [done|]. unfold resolves_to, absoluteFuncIndex.
  destruct (Z.ltb_spec h STABLE_FUNC_BASE); [|lia]. destruct (Z.ltb_spec h (c_numImportFuncs c)); [done|]. f_equal. lia.
Qed.

(** C10: late imports do not change what an instruction calls.  Along any run of
    registrations, writes of instructions, moves of arrays, requests for late imports and
    flushes, every instruction that was written for an imported or a defined function or
    with a stable handle still stands for it; when no shift is pending, the module emitted
    at that point resolves its index to that function. *)
Theorem late_imports_keep_references allowed provider w0 w id e md :
  sound w0 → rtc (step allowed provider) w0 w →
  wd_meaning w !! id = Some e →
  ∃ o h, wd_objs w !! id = Some o ∧ io_funcIdx o = Some h ∧ entity_of (wd_ctx w) h = e ∧
    (c_pendingLateImportShift (wd_ctx w) = None → emitted_from (wd_ctx w) md →
     resolves_to md (c_numImportFuncs (wd_ctx w)) h e).
Proof.
  intros H0 Hrun He. assert (sound w) as [_ Hm].
  { clear He. induction Hrun as [|w1 w2 w3 Hs _ IH]; [done|]. by apply IH, (step_sound allowed provider w1 w2). }
  destruct (Hm id e He) as (o & h & Ho & Hh & _ & Hent). exists o, h. split_and!; [done..|].
  intros Hp Hmd. rewrite <- Hent. by apply entity_resolves.
Qed.

(** One function whose body calls itself and an import; then an import is requested and the
    batch is flushed. *)
Definition call_of (h : Z) : InstrObj := mkInstr "call" (Some h) [].

Definition recursive_context : CodegenContext :=
  mkCtx (mkMod [] [mkImport_ (js "env") (js "log") (IFunc 0)] [mkFunc 1 (js "f") 0 10] [] [] [] [] None) 1 [] []
    (mkSide [] [] [] [] None None None) (mkBodies None [] [] [] None) (-1) None false [].

Definition recursive_objs : instr_store := <[1 := call_of 1]> (<[2 := call_of 0]> ∅).
Definition recursive_arrays : array_store := <[10 := [1; 2]]> ∅.
Definition recursive_meaning : gmap Z entity := <[1 := Defined 0]> (<[2 := Imported 0]> ∅).

Definition requested : result (option Z * state) :=
  ensureLateImport recursive_arrays (λ _ _, true) (λ _, None) (js "warn") [] [] (js "env") (recursive_context, recursive_objs).
Definition requested_state : state := match requested with Ok r => r.2 | Err _ => (recursive_context, recursive_objs) end.
Definition flushed_state : state :=
  match flushLateImportShifts recursive_arrays None requested_state with Ok s => s | Err _ => requested_state end.

Lemma recursive_live c : mod_functions (c_mod c) = mod_functions (c_mod recursive_context) →
  ∀ id, id ∈ dom recursive_meaning → live_object recursive_arrays recursive_objs (shift_roots c None) id.
Proof.
  intros Hf id Hid. exists 10, [1; 2]. split_and!; [|reflexivity|].
  - exists 10. split; [|constructor]. unfold shift_roots. rewrite Hf. apply elem_of_app. left. vm_compute. by left.
  - apply elem_of_dom in Hid as [e He]. unfold recursive_meaning in He.
    apply lookup_insert_Some in He as [[<- _]|[_ He]]; [by left|]. apply lookup_insert_Some in He as [[<- _]|[_ He]]; [right; by left|done].
Qed.

Lemma late_imports_keep_references_witness :
  wd_objs (mkWorld flushed_state.1 flushed_state.2 recursive_arrays recursive_meaning) !! 1 = Some (call_of 2) ∧
  ∃ o h, flushed_state.2 !! 1 = Some o ∧ io_funcIdx o = Some h ∧ entity_of flushed_state.1 h = Defined 0 ∧
    (c_pendingLateImportShift flushed_state.1 = None → emitted_from flushed_state.1 sample_emitted →
     resolves_to sample_emitted (c_numImportFuncs flushed_state.1) h (Defined 0)).
Proof.
  split; [vm_compute; reflexivity|].
  apply (late_imports_keep_references (λ _ _, true) (λ _, None)
    (mkWorld recursive_context recursive_objs recursive_arrays recursive_meaning)
    (mkWorld flushed_state.1 flushed_state.2 recursive_arrays recursive_meaning)).
  - split.
    + split; [vm_compute; intuition congruence|vm_compute; congruence|by left].
    + intros id e He. unfold wd_meaning, recursive_meaning in He.
      apply lookup_insert_Some in He as [[<- <-]|[_ He]]; [|apply lookup_insert_Some in He as [[<- <-]|[_ He]]; [|done]].
      * exists (call_of 1), 1. split_and!; [reflexivity|reflexivity|right; reflexivity|reflexivity].
      * exists (call_of 0), 0. split_and!; [reflexivity|reflexivity|right; reflexivity|reflexivity].
  - eapply rtc_l; [|eapply rtc_l; [|apply rtc_refl]].
    + apply (step_import (λ _ _, true) (λ _, None) recursive_context recursive_objs recursive_arrays recursive_meaning
        (js "warn") [] [] (js "env") (Some 1) requested_state.1 requested_state.2); [reflexivity|vm_compute; reflexivity|vm_compute; congruence].
    + apply (step_flush (λ _ _, true) (λ _, None) requested_state.1 requested_state.2 recursive_arrays recursive_meaning None).
      * change requested_state.2 with recursive_objs.
        intros a l id Ha Hid. unfold recursive_arrays in Ha. apply lookup_insert_Some in Ha as [[<- <-]|[_ Ha]]; [|done].
        apply elem_of_cons in Hid as [->|Hid]; [by exists (call_of 1)|]. apply list_elem_of_singleton in Hid as ->. by exists (call_of 0).
      * vm_compute. repeat constructor. by eexists.
      * change requested_state.2 with recursive_objs. by apply recursive_live.
      * vm_compute. reflexivity.
  - reflexivity.
Defined.

(** C31: a flush.  When its batch opened with [b] imports and the counts fit, a flush ends,
    also on bodies that contain themselves; it moves the handle of every instruction that
    the context leads to, exactly once however many arrays share the instruction, changes
    no other instruction, moves every handle that the context keeps in its tables, exports,
    segments, declared references and start function, and in the name table those of the
    names that no import has; and each of these handles stands for what it stood for. *)
Theorem flush_shifts_once arrays fctx c objs b :
  flushable arrays fctx c objs b →
  ∃ c' objs', flushLateImportShifts arrays fctx (c, objs) = Ok (c', objs') ∧ flushed arrays fctx c objs b c' objs' ∧
    ∀ h, valid_handle c h → entity_of c' (shift_idx b (c_numImportFuncs c - b) h) = entity_of c h.
Proof.
  intros Hf. destruct (flush_spec _ _ _ _ _ Hf) as (c' & objs' & E & Hfd). exists c', objs'. split_and!; [done..|].
  intros h Hv. by eapply flushed_entity.
Qed.

(** A body that is nested in itself, with a call shared by two bodies. *)
Definition cyclic_context : CodegenContext := with_pending (Some 0) recursive_context.
Definition cyclic_objs : instr_store := <[1 := call_of 0]> (<[2 := mkInstr "block" None [10; 20]]> ∅).
Definition cyclic_arrays : array_store := <[10 := [1; 2]]> (<[20 := [1]]> ∅).

Lemma cyclic_flushable : flushable cyclic_arrays None cyclic_context cyclic_objs 0.
Proof.
  split; [reflexivity|vm_compute; intuition congruence|vm_compute; congruence| |vm_compute; repeat constructor; by eexists].
  intros a l id Ha Hid. unfold cyclic_arrays in Ha.
  apply lookup_insert_Some in Ha as [[<- <-]|[_ Ha]]; [|apply lookup_insert_Some in Ha as [[<- <-]|[_ Ha]]; [|done]].
  - apply elem_of_cons in Hid as [->|Hid]; [by exists (call_of 0)|]. apply list_elem_of_singleton in Hid as ->.
    exists (mkInstr "block" None [10; 20]). split; [done|]. repeat constructor; by eexists.
  - apply list_elem_of_singleton in Hid as ->. by exists (call_of 0).
Qed.

Lemma flush_shifts_once_witness :
  ∃ c' objs', flushLateImportShifts cyclic_arrays None (cyclic_context, cyclic_objs) = Ok (c', objs') ∧
    flushed cyclic_arrays None cyclic_context cyclic_objs 0 c' objs' ∧
    ∀ h, valid_handle cyclic_context h → entity_of c' (shift_idx 0 (c_numImportFuncs cyclic_context - 0) h) = entity_of cyclic_context h.
Proof. apply flush_shifts_once, cyclic_flushable. Defined.

(** The same call in the bodies of two helpers, after an import was added without a shift. *)
Definition shared_context : CodegenContext :=
  mkCtx (mkMod [] (replicate 2 (mkImport_ (js "env") (js "log") (IFunc 0))) [mkFunc 1 (js "f") 0 10; mkFunc 2 (js "g") 0 20] [] [] [] [] None)
    2 [] [] (mkSide [] [] [] [] None None None) (mkBodies None [] [] [] None) 1 None false [].
Definition shared_objs : instr_store := <[1 := call_of 1]> ∅.
Definition shared_arrays : array_store := <[10 := [1]]> (<[20 := [1]]> ∅).

(** the second walker shifts shared instructions once per body.  An instruction object
    that is in two bodies is moved twice by the repair of imports that were added without a
    shift, and then calls the next function, where the walker of the flush moves it once. *)
Theorem reconcile_shifts_twice :
  (snd <$> reconcileNativeStrFinalizeShift shared_arrays (shared_context, shared_objs)) = Ok (<[1 := call_of 3]> ∅) ∧
  (snd <$> shiftLateImportIndices shared_arrays None 1 1 (shared_context, shared_objs)) = Ok (<[1 := call_of 2]> ∅) ∧
  entity_in 1 1 = Defined 0 ∧ entity_in 2 2 = Defined 0 ∧ entity_in 2 3 = Defined 1.
Proof. vm_compute. done. Qed.
