(* ===== verification/Scc.v ===== *)
(** Strongly connected components, src/codegen/analysis/strongly-connected-components.ts.

    [condenseDirectedGraph] is the algorithm of Tarjan with an explicit search stack; the
    graph is given by roots and a callback.  The stacks are lists with their top first. *)

From S2P Require Import Prelude.

Section condense.
Context {T : Type} `{EqDecision T} (successorsOf : T → list T).

(** * Data *)

Record DirectedGraphCondensation := mkCondensation {
  components : list (list T);
  componentByNode : jsmap T Z;
  successorsByComponent : list (list Z);
  predecessorsByComponent : list (list Z);
}.

Record SearchFrame := mkFrame { fr_node : T; fr_successors : list T; fr_nextSuccessor : nat }.

Record search := mkSearch {
  indexByNode : jsmap T Z;
  lowLinkByNode : jsmap T Z;
  adjacencyByNode : jsmap T (list T);
  componentStack : list T;
  onComponentStack : list T;
  found : list (list T);
  nextIndex : Z;
  searchStack : list SearchFrame;
}.

(** * The search *)

Definition discover (node : T) (s : search) : search :=
  let index := nextIndex s in
  let successors := successorsOf node in
  mkSearch (jm_set (indexByNode s) node index) (jm_set (lowLinkByNode s) node index)
    (jm_set (adjacencyByNode s) node successors) (node :: componentStack s) (node :: onComponentStack s) (found s) (index + 1)
    (mkFrame node successors 0 :: searchStack s).

(** [lowLink(node) = Math.min(lowLink(node), value)]; an undefined operand would give NaN. *)
Definition lower (node : T) (value : option Z) (s : search) : result search :=
  match jm_get (lowLinkByNode s) node, value with
  | Some low, Some v =>
      Ok (mkSearch (indexByNode s) (jm_set (lowLinkByNode s) node (Z.min low v)) (adjacencyByNode s) (componentStack s)
            (onComponentStack s) (found s) (nextIndex s) (searchStack s))
  | _, _ => Err NotModelled
  end.

Definition set_frames (frames : list SearchFrame) (s : search) : search :=
  mkSearch (indexByNode s) (lowLinkByNode s) (adjacencyByNode s) (componentStack s) (onComponentStack s) (found s) (nextIndex s) frames.

(** The members popped down to the node with the index of [node], and what is left of the
    two stacks. *)
Fixpoint pop_component (index : jsmap T Z) (node : T) (stack on component : list T) : list T * list T * list T :=
  match stack with
  | [] => (component, [], on)
  | member :: stack' =>
      let on := filter (λ x, x ≠ member) on in
      let component := component ++ [member] in
      if decide (jm_get index member = jm_get index node) then (component, stack', on)
      else pop_component index node stack' on component
  end.

Definition close_component (node : T) (s : search) : search :=
  if decide (jm_get (lowLinkByNode s) node = jm_get (indexByNode s) node) then
    let '(component, stack, on) := pop_component (indexByNode s) node (componentStack s) (onComponentStack s) [] in
    mkSearch (indexByNode s) (lowLinkByNode s) (adjacencyByNode s) stack on (found s ++ [component]) (nextIndex s) (searchStack s)
  else s.

(** One round of the inner loop, with [frame] on top of [frames]. *)
Definition search_step (frame : SearchFrame) (frames : list SearchFrame) (s : search) : result search :=
  match fr_successors frame !! fr_nextSuccessor frame with
  | Some successor =>
      let s := set_frames (mkFrame (fr_node frame) (fr_successors frame) (S (fr_nextSuccessor frame)) :: frames) s in
      match jm_get (indexByNode s) successor with
      | None => Ok (discover successor s)
      | Some index =>
          if decide (successor ∈ onComponentStack s) then lower (fr_node frame) (Some index) s else Ok s
      end
  | None =>
      let s := close_component (fr_node frame) (set_frames frames s) in
      match frames with
      | [] => Ok s
      | parent :: _ => lower (fr_node parent) (jm_get (lowLinkByNode s) (fr_node frame)) s
      end
  end.

Fixpoint search_loop (fuel : nat) (s : search) : result search :=
  match searchStack s with
  | [] => Ok s
  | frame :: frames =>
      match fuel with
      | O => Err OutOfFuel
      | S f => s ← search_step frame frames s; search_loop f s
      end
  end.

Definition search_root (fuel : nat) (root : T) (s : search) : result search :=
  if jm_has (indexByNode s) root then Ok s else search_loop fuel (discover root s).

(** * The condensed graph *)

Definition number_component (component : list T) (st : Z * jsmap T Z) : Z * jsmap T Z :=
  (st.1 + 1, foldl (λ m node, jm_set m node st.1) st.2 component).

Definition number_components (components : list (list T)) : jsmap T Z :=
  (foldl (λ st component, number_component component st) (0, []) components).2.

(** [sets[i].add(x)] on an array of Sets. *)
Definition add_at (i x : Z) (sets : list (list Z)) : list (list Z) := alter (λ l, l ++ [x]) (Z.to_nat i) sets.

Definition condense_edge (byNode : jsmap T Z) (from : Z) (successor : T) (st : list (list Z) * list (list Z)) :
    result (list (list Z) * list (list Z)) :=
  match jm_get byNode successor with
  | None => Err NotModelled
  | Some to =>
      if (from =? to) || bool_decide (to ∈ default [] (js_at st.1 from)) then Ok st
      else Ok (add_at from to st.1, add_at to from st.2)
  end.

Definition condense_node (byNode : jsmap T Z) (entry : T * list T) (st : list (list Z) * list (list Z)) :
    result (list (list Z) * list (list Z)) :=
  match jm_get byNode entry.1 with
  | None => Err NotModelled
  | Some from => for_each entry.2 (condense_edge byNode from) st
  end.

Definition empty_search : search := mkSearch [] [] [] [] [] [] 0 [].

Definition condenseDirectedGraph (fuel : nat) (roots : list T) : result DirectedGraphCondensation :=
  s ← for_each roots (search_root fuel) empty_search;
  let byNode := number_components (found s) in
  let sets := (λ _, []) <$> found s in
  '(succs, preds) ← for_each (adjacencyByNode s) (condense_node byNode) (sets, sets);
  Ok (mkCondensation (found s) byNode succs preds).
End condense.

Arguments mkCondensation {T}.
Arguments mkFrame {T}.
Arguments mkSearch {T}.

Example condense_sample :
  condenseDirectedGraph (λ n : Z, if n =? 1 then [2; 3] else if n =? 2 then [1] else if n =? 3 then [4] else if n =? 4 then [3] else []) 20 [1; 5]
  = Ok (mkCondensation [[4; 3]; [2; 1]; [5]] [(4, 0); (3, 0); (2, 1); (1, 1); (5, 2)] [[]; [0]; []] [[1]; []; []]).
Proof. reflexivity. Qed.
