(* ===== verification/SccOk.v ===== *)
(** The search of src/codegen/analysis/strongly-connected-components.ts: the stack
    invariant of Tarjan's algorithm, and that the search keeps it and ends. *)

From stdpp Require Import sorting.
From S2P Require Import Prelude Scc.

Definition put {T A} `{EqDecision T} (f : T → A) (k : T) (v : A) : T → A := λ x, if decide (x = k) then v else f x.

Lemma put_same {T A} `{EqDecision T} (f : T → A) k v : put f k v k = v.
Proof. unfold put. by rewrite decide_True. Qed.

Lemma put_other {T A} `{EqDecision T} (f : T → A) k v x : x ≠ k → put f k v x = f x.
Proof. intros Hx. unfold put. by rewrite decide_False. Qed.

Section tarjan.
Context {T : Type} `{EqDecision T} (succ : T → list T).

Definition edge (v w : T) : Prop := w ∈ succ v.

Definition mutual (v w : T) : Prop := rtc edge v w ∧ rtc edge w v.

(** * The maps of the search as functions on the nodes it has visited *)

Definition holds {A} (m : jsmap T A) (vis : list T) (f : T → A) : Prop :=
  ∀ v, jm_get m v = if decide (v ∈ vis) then Some (f v) else None.

Lemma holds_get {A} (m : jsmap T A) vis f v : holds m vis f → v ∈ vis → jm_get m v = Some (f v).
Proof. intros Hm Hv. by rewrite Hm, decide_True. Qed.

Lemma holds_none {A} (m : jsmap T A) vis f v : holds m vis f → v ∉ vis → jm_get m v = None.
Proof. intros Hm Hv. by rewrite Hm, decide_False. Qed.

Lemma holds_set {A} (m : jsmap T A) vis f v a : holds m vis f → v ∈ vis → holds (jm_set m v a) vis (put f v a).
Proof.
  intros Hm Hv w. rewrite jm_get_set. unfold put. case_decide as E; [subst; by rewrite !decide_True|].
  rewrite Hm. by rewrite (decide_False (P := w = v)) by congruence.
Qed.

Lemma holds_new {A} (m : jsmap T A) vis f v a : holds m vis f → holds (jm_set m v a) (vis ++ [v]) (put f v a).
Proof.
  intros Hm w. rewrite jm_get_set. unfold put. case_decide as E.
  - subst. rewrite !decide_True; [done|done|set_solver].
  - rewrite Hm, (decide_False (P := w = v)) by congruence.
    case_decide; case_decide; [done|set_solver..|done].
Qed.

Lemma holds_ext {A} (m : jsmap T A) vis f g : holds m vis f → (∀ v, v ∈ vis → f v = g v) → holds m vis g.
Proof. intros Hm Hfg v. rewrite Hm. case_decide; [by rewrite Hfg|done]. Qed.

(** * The invariant *)

(** [I] and [L] are the indices and low links, [C] the component stack. *)
Section state.
Context (vis : list T) (I L : T → Z) (C : list T).

(** What the search knows of a successor that it has looked at. *)
Definition settled (v x : T) : Prop := x ∈ vis ∧ (x ∈ C → L v ≤ I x).

(** A node of the component stack that the search has finished under the frame of [u]. *)
Record owned (u v : T) : Prop := {
  ow_reach : rtc edge u v;
  ow_done x : edge v x → settled v x;
  ow_lower : L v < I v;
  ow_above : L u ≤ L v }.

Record frame_ok (f : SearchFrame (T := T)) : Prop := {
  fo_succ : fr_successors f = succ (fr_node f);
  fo_seen x : x ∈ take (fr_nextSuccessor f) (succ (fr_node f)) → settled (fr_node f) x }.

(** The component stack, cut at the nodes of the frames. *)
Inductive stacked : list (SearchFrame (T := T)) → list T → Prop :=
  | stacked_nil : stacked [] []
  | stacked_cons f F seg S :
      frame_ok f → Forall (owned (fr_node f)) seg → from_option (λ p, edge (fr_node p) (fr_node f)) True (head F) →
      stacked F S → stacked (f :: F) (seg ++ fr_node f :: S).
End state.

(** A component that is closed after the nodes [D]. *)
Record closed (D c : list T) : Prop := {
  cl_ne : c ≠ [];
  cl_mutual v w : v ∈ c → w ∈ c → rtc edge v w;
  cl_below v x : v ∈ c → edge v x → x ∈ D ++ c }.

Definition all_closed (fs : list (list T)) : Prop :=
  ∀ fs1 c fs2, fs = fs1 ++ c :: fs2 → closed (concat fs1) c.

Record tarjan (roots vis : list T) (I L : T → Z) (C : list T) (fs : list (list T)) (n : Z) (F : list (SearchFrame (T := T))) : Prop := {
  ta_range v : v ∈ vis → I v < n;
  ta_sorted : StronglySorted (λ a b, I b < I a) C;
  ta_nodes v : v ∈ vis ↔ v ∈ C ∨ v ∈ concat fs;
  ta_once : NoDup (C ++ concat fs);
  ta_low v : v ∈ C → L v ≤ I v ∧ ∃ w, w ∈ C ∧ L v = I w ∧ rtc edge v w;
  ta_stack : stacked vis I L C F C;
  ta_closed : all_closed fs;
  ta_roots v : v ∈ vis → ∃ r, r ∈ roots ∧ rtc edge r v }.

#[local] Arguments ta_range {_ _ _ _ _ _ _ _} _.
#[local] Arguments ta_sorted {_ _ _ _ _ _ _ _} _.
#[local] Arguments ta_nodes {_ _ _ _ _ _ _ _} _.
#[local] Arguments ta_once {_ _ _ _ _ _ _ _} _.
#[local] Arguments ta_low {_ _ _ _ _ _ _ _} _.
#[local] Arguments ta_stack {_ _ _ _ _ _ _ _} _.
#[local] Arguments ta_closed {_ _ _ _ _ _ _ _} _.
#[local] Arguments ta_roots {_ _ _ _ _ _ _ _} _.

(** * Facts of the invariant *)

Lemma stacked_inv vis I L C f F S : stacked vis I L C (f :: F) S →
  ∃ seg S', S = seg ++ fr_node f :: S' ∧ frame_ok vis I L C f ∧ Forall (owned vis I L C (fr_node f)) seg ∧
    stacked vis I L C F S' ∧ from_option (λ p, edge (fr_node p) (fr_node f)) True (head F).
Proof. inversion 1; subst. eauto 10. Qed.

Lemma sorted_split (I : T → Z) l1 x l2 :
  StronglySorted (λ a b, I b < I a) (l1 ++ x :: l2) → (∀ y, y ∈ l1 → I x < I y) ∧ (∀ y, y ∈ l2 → I y < I x).
Proof.
  intros Hs. apply StronglySorted_app in Hs as (Hcross & _ & Hs). apply StronglySorted_inv in Hs as [_ Hall].
  split; intros y Hy; [by apply Hcross; [done|left]|by rewrite Forall_forall in Hall; apply Hall].
Qed.

Lemma concat_snoc {A} (fs : list (list A)) c : concat (fs ++ [c]) = concat fs ++ c.
Proof. rewrite concat_app. cbn [concat]. by rewrite app_nil_r. Qed.

Lemma elem_concat {A} (fs : list (list A)) v : v ∈ concat fs ↔ ∃ c, c ∈ fs ∧ v ∈ c.
Proof. rewrite list_elem_of_In, in_concat. by setoid_rewrite list_elem_of_In. Qed.

Lemma all_closed_snoc fs c : all_closed fs → closed (concat fs) c → all_closed (fs ++ [c]).
Proof.
  intros Hfs Hc fs1 d fs2 E. destruct fs2 as [|e fs2 _] using rev_ind.
  - by apply app_inj_tail in E as [<- <-].
  - rewrite app_comm_cons, app_assoc in E. apply app_inj_tail in E as [E _]. by eapply Hfs.
Qed.

(** Nothing leaves the closed components. *)
Lemma all_closed_reach fs v w : all_closed fs → v ∈ concat fs → rtc edge v w → w ∈ concat fs.
Proof.
  intros Hfs Hv Hr. induction Hr as [|v x w He _ IH]; [done|]. apply IH.
  apply elem_concat in Hv as (c & Hc & Hv).
  apply list_elem_of_split in Hc as (fs1 & fs2 & ->). pose proof (cl_below _ _ (Hfs _ _ _ eq_refl) v x Hv He) as Hx.
  rewrite concat_app. cbn [concat]. set_solver.
Qed.

(** * The steps *)

Lemma settled_mono vis I L C vis' I' L' C' v x :
  settled vis I L C v x → vis ⊆ vis' → (x ∈ vis → x ∈ C' → x ∈ C) → (x ∈ C → L' v ≤ L v) → (x ∈ C → I' x = I x) →
  settled vis' I' L' C' v x.
Proof. intros [Hx Hl] Hv HC HL HI. split; [by apply Hv|]. intros Hc. specialize (HC Hx Hc). rewrite HI by done. specialize (Hl HC). specialize (HL HC). lia. Qed.

Lemma stacked_mono vis I L C vis' I' L' C' F S :
  stacked vis I L C F S → (∀ v, v ∈ S → I' v = I v ∧ L' v = L v) →
  (∀ v x, v ∈ S → settled vis I L C v x → settled vis' I' L' C' v x) → stacked vis' I' L' C' F S.
Proof.
  intros Hs. induction Hs as [|f F seg S [Hf1 Hf2] Hseg Hp Hs IH]; intros HIL Hset; [constructor|].
  assert (fr_node f ∈ seg ++ fr_node f :: S) as Hu by (rewrite elem_of_app; right; left).
  constructor; [split; [done|]| |done|].
  - intros x Hx. by apply Hset, Hf2.
  - rewrite Forall_forall in Hseg |- *. intros v Hv. specialize (Hseg v Hv) as [? Hd ? ?].
    assert (v ∈ seg ++ fr_node f :: S) as Hv' by (rewrite elem_of_app; by left).
    destruct (HIL _ Hu) as [_ HLu], (HIL _ Hv') as [HIv HLv]. split; [done| |lia..].
    intros x Hx. by apply Hset, Hd.
  - apply IH; [intros v Hv; apply HIL|intros v x Hv; apply Hset]; rewrite elem_of_app; right; by right.
Qed.

Definition bump (f : SearchFrame (T := T)) : SearchFrame := mkFrame (fr_node f) (fr_successors f) (S (fr_nextSuccessor f)).

Lemma take_succ_elem {A} (l : list A) n x y : l !! n = Some x → y ∈ take (S n) l → y ∈ take n l ∨ y = x.
Proof. intros Hx. rewrite (take_S_r _ _ _ Hx), elem_of_app, list_elem_of_singleton. done. Qed.

Lemma frame_bump vis I L C f x :
  frame_ok vis I L C f → fr_successors f !! fr_nextSuccessor f = Some x → settled vis I L C (fr_node f) x →
  frame_ok vis I L C (bump f).
Proof.
  intros [Hs Hseen] Hx Hset. split; [done|]. cbn. intros y Hy. rewrite Hs in Hx.
  by destruct (take_succ_elem _ _ _ _ Hx Hy) as [Hy'| ->]; [apply Hseen|].
Qed.

Section steps.
Context (roots vis : list T) (I L : T → Z) (C : list T) (fs : list (list T)) (n : Z).

Lemma component_visited F v : tarjan roots vis I L C fs n F → v ∈ C → v ∈ vis.
Proof. intros Ht Hv. apply (ta_nodes Ht). by left. Qed.

(** The node of the top frame, and what is above it on the component stack. *)
Lemma top_split f F : tarjan roots vis I L C fs n (f :: F) →
  ∃ seg S, C = seg ++ fr_node f :: S ∧ frame_ok vis I L C f ∧ Forall (owned vis I L C (fr_node f)) seg ∧
    stacked vis I L C F S ∧ from_option (λ p, edge (fr_node p) (fr_node f)) True (head F) ∧
    (∀ v, v ∈ seg → I (fr_node f) < I v) ∧ (∀ v, v ∈ S → I v < I (fr_node f)).
Proof.
  intros Ht. destruct (stacked_inv _ _ _ _ _ _ _ (ta_stack Ht)) as (seg & S & EC & ? & ? & ? & ?).
  pose proof (ta_sorted Ht) as Hsort. rewrite EC in Hsort at 1. apply sorted_split in Hsort as [? ?].
  by exists seg, S.
Qed.

Lemma sorted_ext (I' : T → Z) l : (∀ v, v ∈ l → I' v = I v) → StronglySorted (λ a b, I b < I a) l → StronglySorted (λ a b, I' b < I' a) l.
Proof.
  intros He Hs. induction Hs as [|a l Hs IH Ha]; [constructor|]. constructor; [apply IH; intros; apply He; by right|].
  rewrite Forall_forall in Ha |- *. intros b Hb. rewrite !He by (by constructor). by apply Ha.
Qed.

(** A low link is lowered to that of a node which [u] reaches. *)
Lemma low_put F u m w :
  tarjan roots vis I L C fs n F → u ∈ C → m ≤ L u → (m = L u ∨ m = I w ∧ w ∈ C ∧ rtc edge u w) →
  ∀ v, v ∈ C → put L u m v ≤ I v ∧ ∃ w, w ∈ C ∧ put L u m v = I w ∧ rtc edge v w.
Proof.
  intros Ht Hu Hle Hm v Hv. destruct (ta_low Ht v Hv) as [Hl Hw]. destruct (decide (v = u)) as [->|Hne].
  - rewrite put_same. split; [lia|]. destruct Hm as [->|(-> & ? & ?)]; [done|by eauto].
  - by rewrite put_other.
Qed.

Lemma settled_put u m v x : m ≤ L u → settled vis I L C v x → settled vis I (put L u m) C v x.
Proof.
  intros Hm Hs. eapply settled_mono; [exact Hs|done|done| |done]. intros _. unfold put. case_decide; [by subst|lia].
Qed.

(** The top frame steps over a node that is visited. *)
Lemma step_seen f F x m :
  tarjan roots vis I L C fs n (f :: F) → fr_successors f !! fr_nextSuccessor f = Some x → x ∈ vis →
  m ≤ L (fr_node f) → (x ∈ C → m ≤ I x) → m = L (fr_node f) ∨ x ∈ C ∧ m = I x →
  tarjan roots vis I (put L (fr_node f) m) C fs n (bump f :: F).
Proof.
  intros Ht Hx Hvis Hm Hle Hw. destruct (top_split _ _ Ht) as (seg & S & EC & Hf & Hseg & HS & Hp & Hup & Hdown).
  assert (fr_node f ∈ C) as Hu by (rewrite EC, elem_of_app; right; left).
  assert (edge (fr_node f) x) as He.
  { unfold edge. rewrite <- (fo_succ _ _ _ _ _ Hf). by eapply list_elem_of_lookup_2. }
  split; try apply Ht.
  - eapply (low_put _ _ _ x Ht); [done..|]. destruct Hw as [?|[? ?]]; [by left|right]. split_and!; [done..|]. by apply rtc_once.
  - rewrite EC at 2. refine (stacked_cons _ _ _ _ (bump f) F seg S _ _ _ _).
    + eapply frame_bump; [|exact Hx|].
      * destruct Hf as [? Hseen]. split; [done|]. intros y Hy. by apply settled_put, Hseen.
      * split; [done|]. cbn. rewrite put_same. done.
    + rewrite Forall_forall in Hseg |- *. intros v Hv. destruct (Hseg v Hv) as [? Hd ? ?]. cbn.
      assert (v ≠ fr_node f) by (intros ->; specialize (Hup _ Hv); lia).
      split; [done| |rewrite put_other by done; lia|rewrite put_same, put_other by done; lia].
      intros y Hy. by apply settled_put, Hd.
    + done.
    + eapply stacked_mono; [exact HS| |].
      * intros v Hv. split; [done|]. apply put_other. intros ->. specialize (Hdown _ Hv). lia.
      * intros v y _. by apply settled_put.
Qed.

(** ** Discovery *)

Section discovery.
Context (x : T) (Hx : x ∉ vis).

Lemma settled_new F v y : tarjan roots vis I L C fs n F → v ∈ C → settled vis I L C v y →
  settled (vis ++ [x]) (put I x n) (put L x n) (x :: C) v y.
Proof.
  intros Ht Hv Hs. assert (∀ w, w ∈ C → w ≠ x) as Hne by (intros w Hw ->; by apply Hx, (component_visited F)).
  eapply settled_mono; [exact Hs|set_solver| | |].
  - intros Hy Hc. apply elem_of_cons in Hc as [->|?]; done.
  - intros _. rewrite put_other by auto. done.
  - intros Hy. rewrite put_other by auto. done.
Qed.

Lemma discover_keeps F G :
  tarjan roots vis I L C fs n F → (∃ r, r ∈ roots ∧ rtc edge r x) →
  stacked (vis ++ [x]) (put I x n) (put L x n) (x :: C) G C →
  from_option (λ p, edge (fr_node p) x) True (head G) →
  tarjan roots (vis ++ [x]) (put I x n) (put L x n) (x :: C) fs (n + 1) (mkFrame x (succ x) 0 :: G).
Proof.
  intros Ht Hr HG Hp. assert (∀ w, w ∈ vis → w ≠ x) as Hne by (intros w Hw ->; done).
  assert (∀ w, w ∈ C → w ∈ vis ∧ w ≠ x) as HC by (intros w Hw; pose proof (component_visited F w Ht Hw); auto).
  split.
  - intros v Hv. apply elem_of_app in Hv as [Hv| ->%list_elem_of_singleton]; [|rewrite put_same; lia].
    rewrite put_other by auto. pose proof (ta_range Ht v Hv). lia.
  - constructor; [eapply sorted_ext, (ta_sorted Ht); intros v Hv; apply put_other; apply (HC v Hv)|].
    rewrite Forall_forall. intros v Hv. destruct (HC v Hv). rewrite put_same, put_other by done. by apply (ta_range Ht).
  - intros v. rewrite elem_of_app, (ta_nodes Ht), !elem_of_cons, elem_of_nil. tauto.
  - cbn. apply NoDup_cons. split; [|apply (ta_once Ht)]. rewrite elem_of_app, <- (ta_nodes Ht). done.
  - intros v Hv. apply elem_of_cons in Hv as [->|Hv].
    + rewrite !put_same. split; [lia|]. exists x. rewrite put_same. split_and!; [left|done|apply rtc_refl].
    + destruct (HC v Hv). rewrite !put_other by done. destruct (ta_low Ht v Hv) as [? (w & Hw & E & ?)]. split; [done|].
      exists w. destruct (HC w Hw). rewrite put_other by done. split_and!; [by right|done..].
  - refine (stacked_cons _ _ _ _ (mkFrame x (succ x) 0) G [] C _ _ _ HG); [|constructor|done]. split; [done|].
    intros y Hy. by apply not_elem_of_nil in Hy.
  - apply (ta_closed Ht).
  - intros v Hv. apply elem_of_app in Hv as [Hv| ->%list_elem_of_singleton]; [by apply (ta_roots Ht)|done].
Qed.

Lemma step_new f F :
  tarjan roots vis I L C fs n (f :: F) → fr_successors f !! fr_nextSuccessor f = Some x →
  tarjan roots (vis ++ [x]) (put I x n) (put L x n) (x :: C) fs (n + 1) (mkFrame x (succ x) 0 :: bump f :: F).
Proof.
  intros Ht Hl. destruct (top_split _ _ Ht) as (seg & S & EC & Hf & Hseg & HS & Hp & _ & _).
  assert (fr_node f ∈ C) as Hu by (rewrite EC, elem_of_app; right; left).
  assert (∀ v, v ∈ C → v ≠ x) as Hne by (intros v Hv ->; by apply Hx, (component_visited (f :: F))).
  assert (edge (fr_node f) x) as He.
  { unfold edge. rewrite <- (fo_succ _ _ _ _ _ Hf). by eapply list_elem_of_lookup_2. }
  eapply discover_keeps; [exact Ht| | |exact He].
  { destruct (ta_roots Ht (fr_node f)) as (r & ? & ?); [by apply (component_visited (f :: F))|].
    exists r. split; [done|]. by eapply rtc_r. }
  assert (stacked (vis ++ [x]) (put I x n) (put L x n) (x :: C) (f :: F) C) as Hst.
  { eapply stacked_mono; [apply (ta_stack Ht)| |].
    - intros v Hv. by rewrite !put_other by auto.
    - intros v y Hv. by eapply settled_new. }
  apply stacked_inv in Hst as (seg' & S' & EC' & Hf' & Hseg' & HS' & Hp'). rewrite EC' at 2.
  refine (stacked_cons _ _ _ _ (bump f) F seg' S' _ Hseg' Hp' HS'). eapply frame_bump; [exact Hf'|exact Hl|].
  split; [set_solver|]. intros _. rewrite put_same, put_other by auto. destruct (ta_low Ht _ Hu) as [? _].
  pose proof (ta_range Ht (fr_node f) (component_visited _ _ Ht Hu)). lia.
Qed.
End discovery.

(** ** The top frame is done *)

Lemma frame_done f y : frame_ok vis I L C f → fr_successors f !! fr_nextSuccessor f = None →
  edge (fr_node f) y → settled vis I L C (fr_node f) y.
Proof.
  intros [Hs Hseen] Hn Hy. apply Hseen. apply lookup_ge_None in Hn. rewrite Hs in Hn. by rewrite take_ge.
Qed.

Lemma step_finish f F :
  tarjan roots vis I L C fs n (f :: F) → fr_successors f !! fr_nextSuccessor f = None → L (fr_node f) ≠ I (fr_node f) →
  ∃ p F', F = p :: F' ∧ tarjan roots vis I (put L (fr_node p) (Z.min (L (fr_node p)) (L (fr_node f)))) C fs n F.
Proof.
  intros Ht Hn Hne. destruct (top_split _ _ Ht) as (seg & S & EC & Hf & Hseg & HS & Hp & Hup & Hdown).
  assert (fr_node f ∈ C) as Hu by (rewrite EC, elem_of_app; right; left).
  destruct (ta_low Ht _ Hu) as [Hle (w & Hw & Elow & Hreach)].
  destruct F as [|p F].
  { inversion HS; subst S. exfalso. rewrite EC in Hw. apply elem_of_app in Hw as [Hw|Hw%list_elem_of_singleton].
    - specialize (Hup w Hw). lia.
    - congruence. }
  exists p, F. split; [done|]. apply stacked_inv in HS as (segp & S' & -> & Hfp & Hsegp & HS' & Hpp).
  assert (fr_node p ∈ C) as Hpc by (rewrite EC; set_solver).
  cbn in Hp. split; try apply Ht.
  - eapply (low_put _ _ _ w Ht); [done|lia|]. destruct (Z.min_spec (L (fr_node p)) (L (fr_node f))) as [[? ->]|[? ->]]; [by left|right].
    split_and!; [done..|]. by eapply rtc_l.
  - set (m := Z.min _ _). assert (m ≤ L (fr_node p)) as Hm by lia. assert (m ≤ L (fr_node f)) as Hm' by lia.
    assert (C = (seg ++ fr_node f :: segp) ++ fr_node p :: S') as EC' by (by rewrite EC, <- app_assoc).
    pose proof (ta_sorted Ht) as Hsort. rewrite EC' in Hsort at 1. apply sorted_split in Hsort as [Hup' Hdown'].
    assert (∀ v, v ∈ seg ++ fr_node f :: segp → L (fr_node p) ≤ L v ∨ L (fr_node f) ≤ L v) as Habove.
    { intros v Hv. rewrite Forall_forall in Hseg, Hsegp. rewrite elem_of_app, elem_of_cons in Hv.
      destruct Hv as [Hv|[->|Hv]]; [right; apply (Hseg v Hv)|by right|left; apply (Hsegp v Hv)]. }
    rewrite EC' at 2. apply stacked_cons.
    + destruct Hfp as [? Hseen]. split; [done|]. intros y Hy. by apply settled_put, Hseen.
    + rewrite Forall_forall. intros v Hv.
      assert (v ≠ fr_node p) by (intros ->; specialize (Hup' _ Hv); lia).
      assert (rtc edge (fr_node p) v ∧ (∀ y, edge v y → settled vis I L C v y) ∧ L v < I v) as (? & Hd & ?).
      { rewrite Forall_forall in Hseg, Hsegp. rewrite elem_of_app, elem_of_cons in Hv. destruct Hv as [Hv|[->|Hv]].
        - destruct (Hseg v Hv). split_and!; [by eapply rtc_l|done..].
        - split_and!; [by apply rtc_once|intros; by apply frame_done|lia].
        - destruct (Hsegp v Hv). done. }
      split; [done| |by rewrite put_other|rewrite put_same, put_other by done; destruct (Habove v Hv); lia].
      intros y Hy. by apply settled_put, Hd.
    + done.
    + eapply stacked_mono; [exact HS'| |].
      * intros v Hv. split; [done|]. apply put_other. intros ->. specialize (Hdown' _ Hv). lia.
      * intros v y _. by apply settled_put.
Qed.

(** The component of the top frame: the nodes down to its own. *)
Lemma close_closed f seg S F :
  tarjan roots vis I L C fs n (f :: F) → fr_successors f !! fr_nextSuccessor f = None → L (fr_node f) = I (fr_node f) →
  C = seg ++ fr_node f :: S → frame_ok vis I L C f → Forall (owned vis I L C (fr_node f)) seg →
  (∀ v, v ∈ seg → I (fr_node f) < I v) → (∀ v, v ∈ S → I v < I (fr_node f)) → closed (concat fs) (seg ++ [fr_node f]).
Proof.
  intros Ht Hn Hroot EC Hf Hseg Hup Hdown. rewrite Forall_forall in Hseg.
  assert (∀ v, v ∈ seg ++ [fr_node f] → v = fr_node f ∨ v ∈ seg) as Hcases.
  { intros v. rewrite elem_of_app, list_elem_of_singleton. tauto. }
  assert (∀ v, v ∈ seg ++ [fr_node f] → rtc edge (fr_node f) v) as Hfrom.
  { intros v [->|Hv]%Hcases; [done|]. apply (Hseg v Hv). }
  assert (∀ k v, v ∈ seg ++ [fr_node f] → (Z.to_nat (I v - I (fr_node f)) < k)%nat → rtc edge v (fr_node f)) as Hto.
  { intros k. induction k as [|k IH]; [lia|]. intros v Hv Hk. apply Hcases in Hv as [->|Hv]; [done|].
    destruct (Hseg v Hv) as [_ _ Hlow Habove]. pose proof (Hup v Hv).
    destruct (ta_low Ht v) as [_ (w & Hw & Ew & Hvw)]; [rewrite EC; set_solver|].
    rewrite EC, elem_of_app, elem_of_cons in Hw. etrans; [exact Hvw|].
    destruct Hw as [Hw|[->|Hw]]; [|done|specialize (Hdown w Hw); lia]. specialize (Hup w Hw).
    apply IH; [set_solver|lia]. }
  split.
  - intros [_ ?]%app_nil. done.
  - intros v w Hv Hw. etrans; [apply (Hto (1 + Z.to_nat (I v - I (fr_node f)))%nat v Hv); lia|by apply Hfrom].
  - intros v y Hv He. assert (settled vis I L C v y ∧ L (fr_node f) ≤ L v) as [[Hvis Hle] Habove].
    { apply Hcases in Hv as [->|Hv]; [split; [by apply frame_done|lia]|]. destruct (Hseg v Hv); auto. }
    apply (ta_nodes Ht) in Hvis as [Hc|Hd]; [|set_solver]. specialize (Hle Hc). rewrite EC in Hc.
    apply elem_of_app in Hc as [Hc|Hc]; [set_solver|]. apply elem_of_cons in Hc as [->|Hc]; [set_solver|].
    specialize (Hdown y Hc). lia.
Qed.

Lemma step_close f F :
  tarjan roots vis I L C fs n (f :: F) → fr_successors f !! fr_nextSuccessor f = None → L (fr_node f) = I (fr_node f) →
  ∃ seg S, C = seg ++ fr_node f :: S ∧ tarjan roots vis I L S (fs ++ [seg ++ [fr_node f]]) n F ∧
    match F with [] => True | p :: _ => L (fr_node p) ≤ L (fr_node f) end ∧
    ∀ v, v ∈ seg → I v ≠ I (fr_node f).
Proof.
  intros Ht Hn Hroot. destruct (top_split _ _ Ht) as (seg & S & EC & Hf & Hseg & HS & Hp & Hup & Hdown).
  pose proof (close_closed f seg S F Ht Hn Hroot EC Hf Hseg Hup Hdown) as Hcl.
  exists seg, S. split_and!; [done| | |intros v Hv; specialize (Hup v Hv); lia].
  - split; try apply Ht.
    + pose proof (ta_sorted Ht) as Hs. rewrite EC in Hs. apply StronglySorted_app in Hs as (_ & _ & Hs).
      by apply StronglySorted_inv in Hs as [? _].
    + intros v. rewrite (ta_nodes Ht), EC, concat_snoc. set_solver.
    + pose proof (ta_once Ht) as Ho. rewrite EC in Ho. rewrite concat_snoc.
      eapply NoDup_Permutation_proper, Ho. assert (seg ++ fr_node f :: S = (seg ++ [fr_node f]) ++ S) as -> by (by rewrite <- app_assoc).
      generalize (seg ++ [fr_node f]) as c. intros c.
      rewrite <- (app_assoc c S), (Permutation_app_comm c (S ++ _)). by rewrite <- (app_assoc S).
    + intros v Hv. destruct (ta_low Ht v) as [Hl (w & Hw & Ew & Hr)]; [rewrite EC; set_solver|]. split; [done|].
      exists w. split; [|done]. specialize (Hdown v Hv). rewrite EC, elem_of_app, elem_of_cons in Hw.
      destruct Hw as [Hw|[->|Hw]]; [specialize (Hup w Hw)| |done]; lia.
    + eapply stacked_mono; [exact HS|done|]. intros v y _ Hy. eapply settled_mono; [exact Hy|done| |done|done].
      intros _ Hyc. rewrite EC. set_solver.
    + apply all_closed_snoc; [apply Ht|done].
  - destruct F as [|p F]; [done|]. apply stacked_inv in HS as (segp & S' & -> & _).
    destruct (ta_low Ht (fr_node p)) as [? _]; [rewrite EC; set_solver|]. specialize (Hdown (fr_node p) ltac:(set_solver)). lia.
Qed.
End steps.
End tarjan.
