(* ===== verification/SccGraph.v ===== *)
(** The search of src/codegen/analysis/strongly-connected-components.ts as a whole: its
    maps represent the invariant of [SccOk], every step keeps it, and it comes to an end.

    The condensed graph of src/codegen/analysis/strongly-connected-components.ts: the
    numbering of the components and the edges between them. *)

From stdpp Require Import sorting.
From S2P Require Import Prelude Scc SccOk.

Section main.
Context {T : Type} `{EqDecision T} (succ : T → list T).

Abbreviation edge := (edge succ).
Abbreviation tarjan := (tarjan succ).
Abbreviation frame := (SearchFrame (T := T)).

(** * The search state *)

Record rep (s : search) (vis : list T) (I L : T → Z) : Prop := {
  re_index : holds (indexByNode s) vis I;
  re_low : holds (lowLinkByNode s) vis L;
  re_adjacency : adjacencyByNode s = (λ v, (v, succ v)) <$> vis;
  re_stack : onComponentStack s = componentStack s }.

Definition searching (roots vis : list T) (s : search) : Prop :=
  ∃ I L, rep s vis I L ∧ tarjan roots vis I L (componentStack s) (found s) (nextIndex s) (searchStack s).

Lemma jm_set_fresh {V} (m : jsmap T V) k v : k ∉ m.*1 → jm_set m k v = m ++ [(k, v)].
Proof.
  induction m as [|[k' v'] m IH]; csimpl; [done|]. intros Hk. rewrite decide_False by set_solver.
  by rewrite IH by set_solver.
Qed.

Lemma discover_rep s vis I L x : rep s vis I L → x ∉ vis →
  rep (discover succ x s) (vis ++ [x]) (put I x (nextIndex s)) (put L x (nextIndex s)).
Proof.
  intros [Hi Hl Ha Hc] Hx. split; cbn.
  - by apply holds_new.
  - by apply holds_new.
  - rewrite jm_set_fresh, Ha, fmap_app; [done|]. rewrite Ha, <- list_fmap_compose.
    replace (_ <$> vis) with vis; [done|]. clear. induction vis as [|v vis IH]; [done|]. csimpl. by f_equal.
  - by rewrite Hc.
Qed.

Lemma lower_rep s vis I L u m : rep s vis I L → u ∈ vis →
  ∃ s', lower u (Some m) s = Ok s' ∧ rep s' vis I (put L u (Z.min (L u) m)) ∧
    componentStack s' = componentStack s ∧ found s' = found s ∧ nextIndex s' = nextIndex s ∧ searchStack s' = searchStack s.
Proof.
  intros [Hi Hl Ha Hc] Hu. unfold lower. rewrite (holds_get _ _ _ _ Hl Hu). eexists. split; [done|]. cbn. split; [|done].
  split; cbn; [done| |done..]. by apply holds_set.
Qed.

Lemma rep_frames s vis I L F : rep s vis I L → rep (set_frames F s) vis I L.
Proof. by intros []. Qed.

Lemma rep_ext s vis I L L' : rep s vis I L → (∀ v, L v = L' v) → rep s vis I L'.
Proof. intros [? Hl ? ?] He. split; [done| |done..]. eapply holds_ext; [exact Hl|auto]. Qed.

(** ** The component that is popped *)

Lemma pop_component_spec (vis : list T) (I : T → Z) index (u : T) S : holds index vis I → u ∈ vis → ∀ seg acc,
  (∀ v, v ∈ seg → v ∈ vis ∧ I v ≠ I u) → NoDup (seg ++ u :: S) →
  pop_component index u (seg ++ u :: S) (seg ++ u :: S) acc = (acc ++ seg ++ [u], S, S).
Proof.
  intros Hi Hu. assert (∀ (v : T) (l : list T), v ∉ l → filter (λ x, x ≠ v) (v :: l) = l) as Hfilter.
  { intros v l Hv. rewrite filter_cons_False by naive_solver.
    induction l as [|w l IH]; [done|]. apply not_elem_of_cons in Hv as [? ?]. by rewrite filter_cons_True, IH. }
  induction seg as [|v seg IH]; intros acc Hseg Hnd; cbn [app pop_component].
  - apply NoDup_cons in Hnd as [? _]. by rewrite Hfilter, decide_True.
  - apply NoDup_cons in Hnd as [Hv Hnd]. destruct (Hseg v ltac:(left)) as [Hvis Hne].
    rewrite Hfilter, decide_False by (done || rewrite !(holds_get _ _ _ _ Hi) by done; congruence).
    rewrite IH by (try done; intros; apply Hseg; by right). by rewrite <- app_assoc.
Qed.

Lemma close_rep s roots vis I L f F :
  rep s vis I L → searchStack s = f :: F → tarjan roots vis I L (componentStack s) (found s) (nextIndex s) (f :: F) →
  fr_successors f !! fr_nextSuccessor f = None → L (fr_node f) = I (fr_node f) →
  ∃ s', close_component (fr_node f) (set_frames F s) = s' ∧ rep s' vis I L ∧
    tarjan roots vis I L (componentStack s') (found s') (nextIndex s') F ∧ searchStack s' = F ∧
    match F with [] => True | p :: _ => L (fr_node p) ≤ L (fr_node f) end.
Proof.
  intros Hrep EF Ht Hn Hroot. pose proof Hrep as [Hi Hl Ha Hc].
  destruct (step_close _ _ _ _ _ _ _ _ _ _ Ht Hn Hroot) as (seg & S & EC & Ht' & Hp & Hseg).
  assert (∀ v, v ∈ componentStack s → v ∈ vis) as Hvis by (intros v; by eapply component_visited).
  assert (fr_node f ∈ vis) as Hu by (apply Hvis; rewrite EC; set_solver).
  eexists. split; [done|]. unfold close_component. cbn [lowLinkByNode indexByNode set_frames].
  rewrite !(holds_get _ _ _ _ Hi), !(holds_get _ _ _ _ Hl) by done. rewrite decide_True by congruence.
  cbn. rewrite Hc, EC. rewrite (pop_component_spec vis I _ _ _ Hi Hu).
  - cbn. split; [by split|]. split; [done|]. split; [done|]. done.
  - intros v Hv. split; [apply Hvis; rewrite EC; set_solver|by apply Hseg].
  - rewrite <- EC. pose proof (ta_once _ _ _ _ _ _ _ _ _ Ht) as Hnd. by apply list.NoDup_app in Hnd as [? _].
Qed.

(** * Steps and termination *)

Section nodes.
Context (nodes roots : list T).
Context (Hroots : ∀ r, r ∈ roots → r ∈ nodes) (Hclosed : ∀ v w, v ∈ nodes → edge v w → w ∈ nodes).

Definition cost (vis : list T) (v : T) : nat := if decide (v ∈ vis) then 0 else S (length (succ v)).

Definition work (vis : list T) (F : list frame) : nat :=
  sum_list_with (cost vis) nodes + sum_list_with (λ f : frame, S (length (fr_successors f) - fr_nextSuccessor f)) F.

Lemma nodes_reach v w : v ∈ nodes → rtc edge v w → w ∈ nodes.
Proof. intros Hv Hr. induction Hr as [|v x w He _ IH]; [done|]. apply IH. by eapply Hclosed. Qed.

Lemma cost_new vis x : x ∈ nodes → x ∉ vis →
  (sum_list_with (cost (vis ++ [x])) nodes + S (length (succ x)) ≤ sum_list_with (cost vis) nodes)%nat.
Proof.
  intros Hn Hx. apply (sum_list_drop (cost vis) (cost (vis ++ [x])) nodes x).
  - done.
  - unfold cost. rewrite decide_False by done. rewrite decide_True by set_solver. lia.
  - intros v. unfold cost. repeat case_decide; [lia..|set_solver|lia].
Qed.

Definition steps (vis : list T) (f : frame) (F : list frame) (r : result (search (T := T))) : Prop :=
  ∃ s' vis', r = Ok s' ∧ searching roots vis' s' ∧ vis ⊆ vis' ∧ (work vis' (searchStack s') < work vis (f :: F))%nat.

Lemma step_successor s vis f F x :
  searching roots vis s → searchStack s = f :: F → fr_successors f !! fr_nextSuccessor f = Some x →
  steps vis f F (search_step succ f F s).
Proof.
  intros (I & L & Hrep & Ht) EF Hx. rewrite EF in Ht. pose proof (lookup_lt_Some _ _ _ Hx) as Hlt.
  destruct (top_split _ _ _ _ _ _ _ _ _ _ Ht) as (seg & S0 & EC & Hf & _).
  assert (fr_node f ∈ componentStack s) as Hu by (rewrite EC; set_solver).
  assert (fr_node f ∈ vis) as Huv by (by eapply component_visited).
  unfold steps, search_step. rewrite Hx. set (s1 := set_frames _ s). pose proof (rep_frames s vis I L (bump f :: F) Hrep) as Hrep1.
  fold (bump f) in s1. change (set_frames (bump f :: F) s) with s1 in Hrep1.
  rewrite (re_index _ _ _ _ Hrep1). case_decide as Hvis.
  - assert (work vis (bump f :: F) < work vis (f :: F))%nat as Hw by (unfold work; cbn [sum_list_with bump fr_successors fr_nextSuccessor]; lia).
    rewrite (re_stack _ _ _ _ Hrep1). case_decide as Hc.
    + destruct (lower_rep s1 vis I L (fr_node f) (I x) Hrep1 Huv) as (s' & -> & Hrep' & E1 & E2 & E3 & E4).
      exists s', vis. split_and!; [done| |done|by rewrite E4]. exists I. eexists. split; [exact Hrep'|]. rewrite E1, E2, E3, E4.
      eapply step_seen; [done|exact Hx|done|lia|lia|]. destruct (Z.min_spec (L (fr_node f)) (I x)) as [[? ->]|[? ->]]; auto.
    + exists s1, vis. split_and!; [done| |done|done]. exists I, (put L (fr_node f) (L (fr_node f))). split.
      * eapply rep_ext; [done|]. intros v. unfold put. by case_decide as E; [rewrite E|].
      * eapply step_seen; [done|exact Hx|done|lia|done|by left].
  - assert (x ∈ nodes) as Hn.
    { destruct (ta_roots _ _ _ _ _ _ _ _ _ Ht _ Huv) as (r & Hr & Hreach). eapply (Hclosed (fr_node f)).
      - eapply nodes_reach; [by apply Hroots|done].
      - unfold SccOk.edge. rewrite <- (fo_succ _ _ _ _ _ _ Hf). by eapply list_elem_of_lookup_2. }
    eexists _, _. split_and!; [done| |apply list_subseteq_app_l; reflexivity|].
    + eexists _, _. split; [by apply (discover_rep s1)|]. cbn. by apply step_new.
    + cbn. pose proof (cost_new vis x Hn Hvis). unfold work. cbn [sum_list_with bump fr_successors fr_nextSuccessor]. lia.
Qed.

Lemma step_done s vis f F :
  searching roots vis s → searchStack s = f :: F → fr_successors f !! fr_nextSuccessor f = None →
  steps vis f F (search_step succ f F s).
Proof.
  intros (I & L & Hrep & Ht) EF Hn. rewrite EF in Ht.
  assert (∀ v, v ∈ componentStack s → v ∈ vis) as Hvis by (intros v; by eapply component_visited).
  destruct (top_split _ _ _ _ _ _ _ _ _ _ Ht) as (seg & S0 & EC & _ & _ & HS & _).
  assert (fr_node f ∈ vis) as Hu by (apply Hvis; rewrite EC; set_solver).
  assert (∀ p F', F = p :: F' → fr_node p ∈ vis) as Hparent.
  { intros p F' ->. apply Hvis. apply stacked_inv in HS as (segp & S' & -> & _). rewrite EC. set_solver. }
  assert (work vis F < work vis (f :: F))%nat as Hw by (unfold work; cbn [sum_list_with]; lia).
  unfold steps, search_step. rewrite Hn. destruct (decide (L (fr_node f) = I (fr_node f))) as [Hroot|Hroot].
  - destruct (close_rep s roots vis I L f F Hrep EF Ht Hn Hroot) as (s1 & -> & Hrep1 & Ht1 & EF1 & Hp).
    destruct F as [|p F].
    + exists s1, vis. split_and!; [done| |done|by rewrite EF1]. exists I, L. by rewrite EF1.
    + rewrite (holds_get _ _ _ _ (re_low _ _ _ _ Hrep1) Hu).
      destruct (lower_rep s1 vis I L (fr_node p) (L (fr_node f)) Hrep1) as (s' & -> & Hrep' & E1 & E2 & E3 & E4); [by eapply Hparent|].
      exists s', vis. split_and!; [done| |done|by rewrite E4, EF1]. exists I, L. rewrite E1, E2, E3, E4, EF1. split; [|done].
      eapply rep_ext; [exact Hrep'|]. intros v. unfold put. case_decide as E; [rewrite E; lia|done].
  - destruct (step_finish _ _ _ _ _ _ _ _ _ _ Ht Hn Hroot) as (p & F' & -> & Ht').
    assert (close_component (fr_node f) (set_frames (p :: F') s) = set_frames (p :: F') s) as ->.
    { unfold close_component. cbn [lowLinkByNode indexByNode set_frames]. destruct Hrep as [Hi Hl _ _].
      rewrite (holds_get _ _ _ _ Hi Hu), (holds_get _ _ _ _ Hl Hu). apply decide_False. congruence. }
    cbn [lowLinkByNode set_frames]. rewrite (holds_get _ _ _ _ (re_low _ _ _ _ Hrep) Hu).
    destruct (lower_rep (set_frames (p :: F') s) vis I L (fr_node p) (L (fr_node f))) as (s' & -> & Hrep' & E1 & E2 & E3 & E4);
      [by apply rep_frames|by eapply Hparent|].
    exists s', vis. split_and!; [done| |done|by rewrite E4]. eexists I, _. split; [exact Hrep'|]. by rewrite E1, E2, E3, E4.
Qed.

Lemma search_loop_spec fuel s vis :
  searching roots vis s → (work vis (searchStack s) ≤ fuel)%nat →
  ∃ s' vis', search_loop succ fuel s = Ok s' ∧ searching roots vis' s' ∧ vis ⊆ vis' ∧ searchStack s' = [] ∧
    (sum_list_with (cost vis') nodes ≤ fuel)%nat.
Proof.
  revert s vis. induction fuel as [|fuel IH]; intros s vis Hs Hfuel; cbn [search_loop]; destruct (searchStack s) as [|f F] eqn:EF.
  - exists s, vis. split_and!; [done..|]. unfold work in Hfuel. lia.
  - unfold work in Hfuel. cbn [sum_list_with] in Hfuel. lia.
  - exists s, vis. split_and!; [done..|]. unfold work in Hfuel. lia.
  - assert (steps vis f F (search_step succ f F s)) as (s1 & vis1 & -> & Hs1 & Hsub & Hlt).
    { destruct (fr_successors f !! fr_nextSuccessor f) eqn:E; [by eapply step_successor|by apply step_done]. }
    cbn. destruct (IH s1 vis1) as (s' & vis' & -> & ? & ? & ? & ?); [done|lia|].
    exists s', vis'. split_and!; [done|done|by etrans|done|lia].
Qed.

(** ** The roots *)

Definition idle (vis : list T) (s : search) : Prop := searching roots vis s ∧ searchStack s = [].

Lemma search_root_spec fuel s vis r :
  idle vis s → r ∈ roots → (sum_list_with (cost vis) nodes ≤ fuel)%nat →
  ∃ s' vis', search_root succ fuel r s = Ok s' ∧ idle vis' s' ∧ vis ⊆ vis' ∧ r ∈ vis' ∧
    (sum_list_with (cost vis') nodes ≤ fuel)%nat.
Proof.
  intros [(I & L & Hrep & Ht) EF] Hr Hfuel. unfold search_root, jm_has. rewrite (re_index _ _ _ _ Hrep). case_decide as Hvis.
  - exists s, vis. split_and!; try done. split; [by exists I, L|done].
  - rewrite EF in Ht. assert (componentStack s = []) as EC by (pose proof (ta_stack _ _ _ _ _ _ _ _ _ Ht) as Hst; by inversion Hst).
    pose proof (cost_new vis r (Hroots r Hr) Hvis) as Hcost.
    destruct (search_loop_spec fuel (discover succ r s) (vis ++ [r])) as (s' & vis' & -> & ? & Hsub & ? & ?).
    + eexists _, _. split; [by apply (discover_rep s)|]. cbn. rewrite EF. eapply discover_keeps; [done|exact Ht|by exists r| |done].
      rewrite EC. constructor.
    + unfold work. cbn. rewrite EF. cbn. lia.
    + exists s', vis'. split_and!; [done|done| |set_solver|done]. etrans; [|exact Hsub]. set_solver.
Qed.

Lemma search_roots_spec fuel rs s vis :
  idle vis s → rs ⊆ roots → (sum_list_with (cost vis) nodes ≤ fuel)%nat →
  ∃ s' vis', for_each rs (search_root succ fuel) s = Ok s' ∧ idle vis' s' ∧ vis ⊆ vis' ∧ rs ⊆ vis'.
Proof.
  revert s vis. induction rs as [|r rs IH]; intros s vis Hs Hsub Hfuel.
  - exists s, vis. split_and!; try done. set_solver.
  - cbn [for_each]. destruct (search_root_spec fuel s vis r) as (s1 & vis1 & -> & ? & ? & ? & ?); [done|set_solver|done|].
    destruct (IH s1 vis1) as (s' & vis' & ? & ? & ? & ?); [done|set_solver|done|].
    exists s', vis'. split_and!; [done|done|set_solver|set_solver].
Qed.

Lemma idle_start : idle [] empty_search.
Proof.
  clear Hroots Hclosed. split; [|done]. exists (λ _, 0), (λ _, 0). split; [by split|]. split; cbn; [set_solver|constructor|set_solver|constructor|set_solver|constructor| |set_solver].
  intros fs1 c fs2 E. by destruct fs1.
Qed.
End nodes.
End main.

Section graph.
Context {T : Type} `{EqDecision T} (succ : T → list T).

Definition in_component (components : list (list T)) (i : Z) (v : T) : Prop := ∃ c, js_at components i = Some c ∧ v ∈ c.

(** An edge between two components, as an entry of an array of Sets. *)
Definition has (sets : list (list Z)) (i j : Z) : Prop := j ∈ default [] (js_at sets i).

(** * The number of a node *)

Lemma number_component_get c k (m : jsmap T Z) v :
  jm_get (foldl (λ m node, jm_set m node k) m c) v = if decide (v ∈ c) then Some k else jm_get m v.
Proof.
  revert m. induction c as [|w c IH]; intros m; [done|]. cbn [foldl]. rewrite IH, jm_get_set.
  repeat case_decide; set_solver.
Qed.

Lemma number_components_get components k (m : jsmap T Z) v :
  NoDup (concat components) →
  let m' := (foldl (λ st component, number_component component st) (k, m) components).2 in
  (∀ i, in_component components i v → jm_get m' v = Some (k + i)) ∧ (v ∉ concat components → jm_get m' v = jm_get m v).
Proof.
  revert k m. induction components as [|c cs IH]; intros k m Hnd; cbn [foldl concat] in *.
  - split; [intros i (c & Hc & _); by apply js_at_lt in Hc; cbn in Hc; lia|done].
  - apply list.NoDup_app in Hnd as (_ & Hdis & Hnd). unfold number_component at 2 4. cbn [fst snd].
    destruct (IH (k + 1) (foldl (λ m node, jm_set m node k) m c) Hnd) as [Hin Hout]. split.
    + intros i (d & Hd & Hv). apply js_at_Some in Hd as [Hi Hd]. destruct (Z.to_nat i) as [|i'] eqn:Ei; cbn in Hd.
      * simplify_eq. rewrite Hout, number_component_get, decide_True by auto. f_equal. lia.
      * rewrite (Hin (i - 1)); [f_equal; lia|]. exists d. split; [|done]. apply js_at_Some. split; [lia|].
        by replace (Z.to_nat (i - 1)) with i' by lia.
    + intros Hv. apply not_elem_of_app in Hv as [? ?]. by rewrite Hout, number_component_get, decide_False.
Qed.

Lemma in_component_concat components v : v ∈ concat components ↔ ∃ i, in_component components i v.
Proof.
  rewrite elem_concat. split.
  - intros (c & Hc & Hv). apply list_elem_of_lookup in Hc as [i Hi]. exists (Z.of_nat i), c. by rewrite js_at_nat.
  - intros (i & c & Hc & Hv). apply js_at_Some in Hc as [_ Hc]. exists c. split; [by eapply list_elem_of_lookup_2|done].
Qed.

Lemma byNode_spec components v i :
  NoDup (concat components) → jm_get (number_components components) v = Some i ↔ in_component components i v.
Proof.
  intros Hnd. destruct (number_components_get components 0 [] v Hnd) as [Hin Hout]. unfold number_components. split.
  - intros Hg. destruct (in_component_concat components v) as [Hc _]. destruct (decide (v ∈ concat components)) as [Hv|Hv].
    + destruct (Hc Hv) as [j Hj]. rewrite (Hin j Hj) in Hg. replace i with j by (simplify_eq; lia). done.
    + rewrite Hout in Hg; done.
  - intros Hi. by rewrite (Hin i Hi).
Qed.

(** * The edges *)

Section edges.
Context (n : Z).

(** The Sets hold the pairs of [E], each once. *)
Record sets_ok (E : list (Z * Z)) (st : list (list Z) * list (list Z)) : Prop := {
  so_length : Z.of_nat (length st.1) = n ∧ Z.of_nat (length st.2) = n;
  so_succ i j : has st.1 i j ↔ i ≠ j ∧ (i, j) ∈ E;
  so_pred i j : has st.2 j i ↔ i ≠ j ∧ (i, j) ∈ E;
  so_once : Forall NoDup st.1 ∧ Forall NoDup st.2 }.

Lemma length_add_at i x sets : length (add_at i x sets) = length sets.
Proof. apply length_alter. Qed.

Lemma has_add_at i x sets k y : 0 ≤ i < Z.of_nat (length sets) →
  has (add_at i x sets) k y ↔ has sets k y ∨ k = i ∧ y = x.
Proof.
  intros Hi. unfold has, add_at, js_at. destruct (Z.ltb_spec k 0); [cbn; set_solver by lia|].
  destruct (decide (k = i)) as [->|Hne].
  - rewrite list_lookup_alter_eq. destruct (lookup_lt_is_Some_2 sets (Z.to_nat i)) as [l ->]; [lia|]. cbn. set_solver.
  - rewrite list_lookup_alter_ne by lia. naive_solver.
Qed.

Lemma add_at_once i x sets : Forall NoDup sets → ¬ has sets i x → 0 ≤ i → Forall NoDup (add_at i x sets).
Proof.
  intros Hs Hx Hi. apply Forall_alter; [done|]. intros l Hl _ .
  assert (NoDup l) as Hnd by (rewrite Forall_forall in Hs; apply Hs; by eapply list_elem_of_lookup_2).
  apply list.NoDup_app. split_and!; [done| |apply NoDup_singleton]. intros y Hy Hyx. apply list_elem_of_singleton in Hyx as ->.
  apply Hx. unfold has, js_at. destruct (Z.ltb_spec i 0); [lia|]. by rewrite Hl.
Qed.

Lemma condense_edge_spec (byNode : jsmap T Z) from w to E st :
  sets_ok E st → jm_get byNode w = Some to → 0 ≤ from < n → 0 ≤ to < n →
  ∃ st', condense_edge byNode from w st = Ok st' ∧ sets_ok (E ++ [(from, to)]) st'.
Proof.
  intros [[Hl1 Hl2] Hs Hp [Ho1 Ho2]] Hw Hf Ht. unfold condense_edge. rewrite Hw.
  assert (∀ P : Prop, (P ↔ P ∨ False)) as HF by tauto.
  destruct (Z.eqb_spec from to) as [->|Hne]; cbn [orb].
  { exists st. split; [done|]. split; [done| | |done]; intros i j; rewrite elem_of_app, list_elem_of_singleton; [rewrite Hs|rewrite Hp]; naive_solver. }
  case_bool_decide as Hin; change (has st.1 from to) with (to ∈ default [] (js_at st.1 from)) in *.
  { exists st. split; [done|]. assert ((from, to) ∈ E) by (by apply (Hs from to)).
    split; [done| | |done]; intros i j; rewrite elem_of_app, list_elem_of_singleton; [rewrite Hs|rewrite Hp]; naive_solver. }
  eexists. split; [done|]. split; cbn.
  - by rewrite !length_add_at.
  - intros i j. rewrite has_add_at, Hs, elem_of_app, list_elem_of_singleton by lia. naive_solver.
  - intros i j. rewrite has_add_at, Hp, elem_of_app, list_elem_of_singleton by lia. naive_solver.
  - split; apply add_at_once; try done; try lia. intros [_ Hx]%Hp. apply Hin. by apply Hs.
Qed.

Lemma condense_node_spec (byNode : jsmap T Z) (K : T → Z) v ws E st :
  (∀ w, w ∈ v :: ws → jm_get byNode w = Some (K w) ∧ 0 ≤ K w < n) → sets_ok E st →
  ∃ st', condense_node byNode (v, ws) st = Ok st' ∧ sets_ok (E ++ ((λ w, (K v, K w)) <$> ws)) st'.
Proof.
  intros HK Hst. unfold condense_node. cbn [fst snd]. destruct (HK v ltac:(left)) as [-> Hv].
  assert (∀ w, w ∈ ws → jm_get byNode w = Some (K w) ∧ 0 ≤ K w < n) as HK' by (intros w Hw; apply HK; by right). clear HK.
  revert E st Hst. induction ws as [|w ws IH]; intros E st Hst; csimpl; cbn [for_each].
  - exists st. by rewrite app_nil_r.
  - destruct (HK' w ltac:(left)) as [Hw ?]. destruct (condense_edge_spec byNode (K v) w (K w) E st) as (st1 & -> & H1); [done..|].
    cbn. destruct (IH ltac:(intros; apply HK'; by right) _ _ H1) as (st' & -> & Hst'). exists st'. by rewrite <- app_assoc in Hst'.
Qed.

Lemma condense_nodes_spec (byNode : jsmap T Z) (K : T → Z) vs E st :
  (∀ v, v ∈ vs → jm_get byNode v = Some (K v) ∧ 0 ≤ K v < n) → (∀ v w, v ∈ vs → w ∈ succ v → jm_get byNode w = Some (K w) ∧ 0 ≤ K w < n) →
  sets_ok E st →
  ∃ st', for_each ((λ v, (v, succ v)) <$> vs) (condense_node byNode) st = Ok st' ∧
    sets_ok (E ++ (vs ≫= λ v, (λ w, (K v, K w)) <$> succ v)) st'.
Proof.
  intros Hv Hw Hst. revert E st Hst. induction vs as [|v vs IH]; intros E st Hst; csimpl.
  - exists st. cbn. by rewrite app_nil_r.
  - destruct (condense_node_spec byNode K v (succ v) E st) as (st1 & -> & H1); [|done|].
    { intros w [->|?]%elem_of_cons; [apply Hv; left|apply (Hw v); [left|done]]. }
    cbn. destruct (IH ltac:(intros; apply Hv; by right) ltac:(intros x y ? ?; apply (Hw x); [by right|done]) _ _ H1) as (st' & -> & Hst').
    exists st'. by rewrite <- app_assoc in Hst'.
Qed.
End edges.

(** * The contract *)

(** [r] is the graph of the components of the nodes that the roots reach. *)
Record condensation_of (roots : list T) (r : DirectedGraphCondensation (T := T)) : Prop := {
  co_nodes v : v ∈ concat (components r) ↔ ∃ root, root ∈ roots ∧ rtc (edge succ) root v;
  co_once : NoDup (concat (components r));
  co_inhabited c : c ∈ components r → c ≠ [];
  co_classes i v w : in_component (components r) i v → in_component (components r) i w ↔ mutual succ v w;
  co_byNode v i : jm_get (componentByNode r) v = Some i ↔ in_component (components r) i v;
  co_length : length (successorsByComponent r) = length (components r) ∧ length (predecessorsByComponent r) = length (components r);
  co_successors i j : has (successorsByComponent r) i j ↔
    i ≠ j ∧ ∃ v w, in_component (components r) i v ∧ edge succ v w ∧ in_component (components r) j w;
  co_predecessors i j : has (predecessorsByComponent r) j i ↔ has (successorsByComponent r) i j;
  co_sets : Forall NoDup (successorsByComponent r) ∧ Forall NoDup (predecessorsByComponent r);
  co_order i j : has (successorsByComponent r) i j → j < i }.

Lemma in_component_split fs i v : in_component fs i v →
  ∃ fs1 c fs2, fs = fs1 ++ c :: fs2 ∧ v ∈ c ∧ i = Z.of_nat (length fs1).
Proof.
  intros (c & Hc & Hv). apply js_at_Some in Hc as [Hi Hc]. apply list_elem_of_split_length in Hc as (fs1 & fs2 & -> & El).
  exists fs1, c, fs2. split_and!; [done..|]. lia.
Qed.

Lemma in_component_here fs1 c fs2 w : w ∈ c → in_component (fs1 ++ c :: fs2) (Z.of_nat (length fs1)) w.
Proof. intros Hw. exists c. split; [|done]. rewrite js_at_nat. by apply list_lookup_middle. Qed.

Lemma in_component_unique fs i j v : NoDup (concat fs) → in_component fs i v → in_component fs j v → i = j.
Proof. intros Hnd Hi%(byNode_spec _ _ _ Hnd) Hj%(byNode_spec _ _ _ Hnd). congruence. Qed.

Lemma in_component_app fs1 fs2 i v : in_component fs1 i v → in_component (fs1 ++ fs2) i v.
Proof.
  intros (c & Hc & Hv). exists c. split; [|done]. pose proof (js_at_lt _ _ _ Hc). by rewrite js_at_app_l by lia.
Qed.

Section components.
Context (fs : list (list T)) (Hcl : all_closed succ fs) (Hnd : NoDup (concat fs)).

Lemma all_closed_prefix fs1 fs2 : fs = fs1 ++ fs2 → all_closed succ fs1.
Proof. intros -> l1 c l2 ->. apply (Hcl l1 c (l2 ++ fs2)). by rewrite <- app_assoc. Qed.

Lemma components_classes i v w : in_component fs i v → in_component fs i w ↔ mutual succ v w.
Proof.
  intros Hi. destruct (in_component_split _ _ _ Hi) as (fs1 & c & fs2 & E & Hv & ->).
  assert (all_closed succ (fs1 ++ [c])) as Hcl' by (apply (all_closed_prefix _ fs2); by rewrite <- app_assoc).
  pose proof (Hcl _ _ _ E) as Hc. split.
  - intros (d & Hd & Hw). rewrite E, js_at_nat, list_lookup_middle in Hd by done. simplify_eq.
    split; eapply cl_mutual; eauto.
  - intros [Hvw Hwv]. assert (w ∈ concat fs1 ++ c) as Hw.
    { rewrite <- concat_snoc. eapply all_closed_reach; [exact Hcl'| |exact Hvw]. rewrite concat_snoc. set_solver. }
    apply elem_of_app in Hw as [Hw|Hw]; [|rewrite E; by apply in_component_here].
    pose proof (all_closed_reach _ _ _ _ (all_closed_prefix _ _ E) Hw Hwv) as Hv'. rewrite E, concat_app in Hnd.
    apply list.NoDup_app in Hnd as (_ & Hdis & _). destruct (Hdis v Hv'). cbn. set_solver.
Qed.

Lemma components_order i j v w : in_component fs i v → in_component fs j w → edge succ v w → j ≤ i.
Proof.
  intros Hi Hj He. destruct (in_component_split _ _ _ Hi) as (fs1 & c & fs2 & E & Hv & ->).
  pose proof (cl_below _ _ _ (Hcl _ _ _ E) v w Hv He) as Hw. rewrite <- concat_snoc in Hw.
  apply in_component_concat in Hw as [j' Hj']. pose proof (in_component_app _ fs2 _ _ Hj') as Hj''.
  rewrite <- app_assoc in Hj''. cbn in Hj''. rewrite <- E in Hj''. rewrite (in_component_unique _ _ _ _ Hnd Hj Hj'').
  destruct Hj' as (d & Hd & _). apply js_at_lt in Hd. rewrite length_app in Hd. cbn in Hd. lia.
Qed.
End components.

Lemma has_empty (fs : list (list T)) i j : ¬ has ((λ _, []) <$> fs) i j.
Proof.
  unfold has, js_at. destruct (i <? 0); [apply not_elem_of_nil|]. rewrite list_lookup_fmap.
  destruct (fs !! Z.to_nat i); apply not_elem_of_nil.
Qed.

(** The numbers that the condensed edges use. *)
Lemma visited_number (vis : list T) (fs : list (list T)) v :
  (∀ v, v ∈ vis ↔ v ∈ concat fs) → NoDup (concat fs) → v ∈ vis →
  jm_get (number_components fs) v = Some (default 0 (jm_get (number_components fs) v)) ∧
  0 ≤ default 0 (jm_get (number_components fs) v) < Z.of_nat (length fs) ∧
  in_component fs (default 0 (jm_get (number_components fs) v)) v.
Proof.
  intros Hvis Hnd Hv. apply Hvis, in_component_concat in Hv as [i Hi].
  rewrite (proj2 (byNode_spec _ _ _ Hnd) Hi). cbn. split_and!; try done; destruct Hi as (c & Hc & _); apply js_at_lt in Hc; lia.
Qed.

(** What the search leaves, and the graph that is built from it. *)
Lemma condense_found roots vis s :
  idle succ roots vis s → roots ⊆ vis → ∃ st,
  for_each (adjacencyByNode s) (condense_node (number_components (found s))) ((λ _, []) <$> found s, (λ _, []) <$> found s) = Ok st ∧
  condensation_of roots (mkCondensation (found s) (number_components (found s)) st.1 st.2).
Proof.
  intros [(I & L & Hrep & Ht) EF] Hroots. rewrite EF in Ht.
  assert (componentStack s = []) as EC by (pose proof (ta_stack _ _ _ _ _ _ _ _ _ Ht) as Hst; by inversion Hst).
  set (fs := found s) in *. pose proof (ta_once _ _ _ _ _ _ _ _ _ Ht) as Hnd. rewrite EC in Hnd. cbn in Hnd.
  pose proof (ta_closed _ _ _ _ _ _ _ _ _ Ht) as Hcl.
  assert (∀ v, v ∈ vis ↔ v ∈ concat fs) as Hvis.
  { intros v. rewrite (ta_nodes _ _ _ _ _ _ _ _ _ Ht), EC. set_solver. }
  assert (∀ v w, v ∈ vis → rtc (edge succ) v w → w ∈ vis) as Hclosed.
  { intros v w Hv Hr. apply Hvis. by eapply all_closed_reach; [|apply Hvis|]. }
  set (K := λ v, default 0 (jm_get (number_components fs) v)).
  assert (∀ v i, v ∈ vis → K v = i ↔ in_component fs i v) as HK.
  { intros v i Hv. destruct (visited_number vis fs v Hvis Hnd Hv) as (_ & _ & Hin). split; [by intros <-|].
    intros Hi. by eapply in_component_unique. }
  destruct (condense_nodes_spec (Z.of_nat (length fs)) (number_components fs) K vis [] ((λ _, []) <$> fs, (λ _, []) <$> fs))
    as (st & Est & Hok).
  { intros v Hv. by destruct (visited_number vis fs v Hvis Hnd Hv) as (? & ? & _). }
  { intros v w Hv Hw. destruct (visited_number vis fs w Hvis Hnd) as (? & ? & _); [|done]. by eapply Hclosed, rtc_once. }
  { assert (Forall NoDup ((λ _ : list T, [] : list Z) <$> fs)) by (apply Forall_fmap, Forall_true; constructor).
    split; cbn [fst snd]; [by rewrite !length_fmap| | |done]; intros i j;
      (split; [by intros ?%has_empty|intros [_ Hin]; by apply not_elem_of_nil in Hin]). }
  rewrite (re_adjacency _ _ _ _ _ Hrep). exists st. split; [done|]. destruct Hok as [[Hl1 Hl2] Hs Hp [Ho1 Ho2]].
  assert (∀ i j, has st.1 i j ↔ i ≠ j ∧ ∃ v w, in_component fs i v ∧ edge succ v w ∧ in_component fs j w) as Hedges.
  { intros i j. rewrite Hs. apply and_iff_compat_l. cbn. rewrite list_elem_of_bind. split.
    - intros (v & (w & E & Hw)%list_elem_of_fmap & Hv). simplify_eq. exists v, w.
      split_and!; [by apply HK|done|apply HK; [by eapply Hclosed, rtc_once|done]].
    - intros (v & w & Hi & Hw & Hj). assert (v ∈ vis) as Hv by (apply Hvis, in_component_concat; by exists i).
      exists v. split; [|done]. apply list_elem_of_fmap. exists w. split; [|done].
      apply HK in Hi; [|done]. apply HK in Hj; [|by eapply Hclosed, rtc_once]. by rewrite Hi, Hj. }
  split; cbn [components componentByNode successorsByComponent predecessorsByComponent].
  - intros v. rewrite <- Hvis. split; [apply (ta_roots _ _ _ _ _ _ _ _ _ Ht)|]. intros (r & Hr & Hrv). eapply Hclosed; [|done]. by apply Hroots.
  - done.
  - intros c Hc. apply list_elem_of_split in Hc as (fs1 & fs2 & E). apply (cl_ne _ _ _ (Hcl _ _ _ E)).
  - by apply components_classes.
  - intros v i. by apply byNode_spec.
  - lia.
  - done.
  - intros i j. by rewrite Hs, Hp.
  - done.
  - intros i j Hij. apply Hedges in Hij as (Hne & v & w & Hi & He & Hj). pose proof (components_order fs Hcl Hnd i j v w Hi Hj He). lia.
Qed.

(** C15: condenseDirectedGraph.  On a graph with finitely many nodes behind the roots the
    call comes to an end without an exception.  The components are the classes of mutual
    reachability of exactly the nodes that the roots reach, each node in one component;
    the number of a node is the place of its component; the successors and the
    predecessors of a component are exactly the other components that an edge leads to or
    comes from, each once; and every edge leads to a component that stands before. *)
Theorem condenseDirectedGraph_correct fuel nodes roots :
  (∀ r, r ∈ roots → r ∈ nodes) → (∀ v w, v ∈ nodes → edge succ v w → w ∈ nodes) →
  (sum_list_with (λ v, S (length (succ v))) nodes ≤ fuel)%nat →
  ∃ r, condenseDirectedGraph succ fuel roots = Ok r ∧ condensation_of roots r.
Proof.
  intros Hr Hc Hfuel. unfold condenseDirectedGraph.
  destruct (search_roots_spec succ nodes roots Hr Hc fuel roots empty_search []) as (s & vis & -> & Hidle & _ & Hsub).
  { apply idle_start. }
  { done. }
  { etrans; [|exact Hfuel]. apply Nat.eq_le_incl. clear. induction nodes as [|v l IH]; [done|]. cbn [sum_list_with]. by rewrite IH. }
  cbn. destruct (condense_found roots vis s Hidle Hsub) as ([succs preds] & -> & Hok). cbn. by eexists.
Qed.
End graph.

(** Two cycles, the first with an edge to the second, and a node without edges. *)
Definition sample_edges (n : Z) : list Z := if n =? 1 then [2; 3] else if n =? 2 then [1] else if n =? 3 then [4] else if n =? 4 then [3] else [].

Lemma condenseDirectedGraph_correct_witness :
  ∃ r, condenseDirectedGraph sample_edges 20 [1; 5] = Ok r ∧ condensation_of sample_edges [1; 5] r.
Proof.
  apply (condenseDirectedGraph_correct sample_edges 20 [1; 2; 3; 4; 5] [1; 5]).
  - intros r Hr. set_solver.
  - intros v w Hv Hw. unfold edge in Hw. repeat (apply elem_of_cons in Hv as [->|Hv]; [cbn in Hw; set_solver|]). by apply not_elem_of_nil in Hv.
  - cbn. lia.
Defined.
