(* ===== verification/InstrGraph.v ===== *)
(** Instructions as objects that arrays share, and the walks over them:
    src/wasm/model/instruction-walk.ts.

    Passes change instructions in place, and producers put one array in several places
    and one object in several arrays.  Here an object has an identity; an array is a list
    of objects, and the arrays below an object are the ones that walkChildren lists.
    [read_body] is the tree that a body stands for. *)

From S2P Require Import Prelude WasmModel.

(** * The store *)

(** An object: an instruction without nested arrays, or one with the identities of its
    block type and arrays. *)
Inductive InstrNode :=
  | NLeaf (i : Instr)
  | NBlock (blockType body : Z)
  | NLoop (blockType body : Z)
  | NIf (blockType then_ : Z) (else_ : option Z)
  | NTry (blockType body : Z) (catches : list (Z * Z)) (catchAll : option Z)
  | NTryTable (blockType body : Z) (catches : list TryTableCatch).

Record instr_store := mkStore {
  s_objects : gmap Z InstrNode;
  s_arrays : gmap Z (list Z);
  s_blockTypes : gmap Z BlockType;
}.

Definition opt_list {A} (o : option A) : list A := match o with Some x => [x] | None => [] end.

(** The arrays that walkChildren calls back with, in its order. *)
Definition walkChildren (n : InstrNode) : list Z :=
  match n with
  | NLeaf _ => []
  | NBlock _ body | NLoop _ body | NTryTable _ body _ => [body]
  | NIf _ then_ else_ => then_ :: opt_list else_
  | NTry _ body catches catchAll => body :: catches.*2 ++ opt_list catchAll
  end.

Definition node_blockType (n : InstrNode) : option Z :=
  match n with
  | NLeaf _ => None
  | NBlock bt _ | NLoop bt _ | NIf bt _ _ | NTry bt _ _ _ | NTryTable bt _ _ => Some bt
  end.

Definition elements_of (st : instr_store) (a : Z) : list Z := default [] (s_arrays st !! a).

Definition children_of (st : instr_store) (id : Z) : list Z := match s_objects st !! id with Some n => walkChildren n | None => [] end.

(** * Reading a body as a tree *)

Definition is_leaf (i : Instr) : bool :=
  match i with Block _ _ | Loop _ _ | If _ _ _ | Try _ _ _ _ | TryTable _ _ _ => false | _ => true end.

Definition read_node (read : Z → option (list Instr)) (st : instr_store) (id : Z) : option Instr :=
  n ← s_objects st !! id;
  match n with
  | NLeaf i => if is_leaf i then Some i else None
  | NBlock bt body => t ← s_blockTypes st !! bt; l ← read body; Some (Block t l)
  | NLoop bt body => t ← s_blockTypes st !! bt; l ← read body; Some (Loop t l)
  | NIf bt then_ else_ =>
      t ← s_blockTypes st !! bt; l ← read then_;
      match else_ with
      | None => Some (If t l None)
      | Some e => k ← read e; Some (If t l (Some k))
      end
  | NTry bt body catches catchAll =>
      t ← s_blockTypes st !! bt; l ← read body;
      cs ← mapM (λ c : Z * Z, k ← read c.2; Some (c.1, k)) catches;
      match catchAll with
      | None => Some (Try t l cs None)
      | Some e => k ← read e; Some (Try t l cs (Some k))
      end
  | NTryTable bt body catches => t ← s_blockTypes st !! bt; l ← read body; Some (TryTable t l catches)
  end.

(** [depth] bounds the nesting; a body that contains itself has no tree. *)
Fixpoint read_body (depth : nat) (st : instr_store) (a : Z) : option (list Instr) :=
  match depth with
  | O => None
  | S d => ids ← s_arrays st !! a; mapM (read_node (read_body d st) st) ids
  end.

(** * The walks *)

Section walk.
Context {A : Type} (arrays : Z → list Z) (children : A → Z → list Z) (visitor : Z → A → A).

(** [visitedArrays?.has(child)] *)
Definition seen_array (visitedArrays : option (gset Z)) (a : Z) : bool :=
  match visitedArrays with Some v => bool_decide (a ∈ v) | None => false end.

Definition add_array (a : Z) (visitedArrays : option (gset Z)) : option (gset Z) := union {[a]} <$> visitedArrays.

Abbreviation frame := (list Z * nat)%type.

Definition push_child (child : Z) (s : list frame * option (gset Z)) : list frame * option (gset Z) :=
  if seen_array s.2 child then s else ((arrays child, O) :: s.1, add_array child s.2).

(** The children are pushed from the last to the first. *)
Definition push_children (cs : list Z) (s : list frame * option (gset Z)) : list frame * option (gset Z) :=
  foldr push_child s cs.

Fixpoint walk_loop (fuel : nat) (stack : list frame) (visited : option (gset Z)) (a : A) : result (option (gset Z) * A) :=
  match stack with
  | [] => Ok (visited, a)
  | (arr, i) :: rest =>
      match fuel with
      | O => Err OutOfFuel
      | S f =>
          match arr !! i with
          | None => walk_loop f rest visited a
          | Some instr =>
              let a := visitor instr a in
              let (stack, visited) := push_children (children a instr) ((arr, S i) :: rest, visited) in
              walk_loop f stack visited a
          end
      end
  end.

Definition walkInstructionArrays (fuel : nat) (instrs : Z) (visited : option (gset Z)) (a : A) : result (option (gset Z) * A) :=
  walk_loop fuel [(arrays instrs, O)] (add_array instrs visited) a.

Definition walkInstructions (fuel : nat) (instrs : Z) (a : A) : result A := snd <$> walkInstructionArrays fuel instrs None a.

Definition walkInstructionDag (fuel : nat) (instrs : Z) (visited : gset Z) (a : A) : result (gset Z * A) :=
  if bool_decide (instrs ∈ visited) then Ok (visited, a)
  else '(v, a) ← walkInstructionArrays fuel instrs (Some visited) a; Ok (default ∅ v, a).
End walk.

(** ** Fuel *)

(** One more than the arrays there are. *)
Definition array_fuel (st : instr_store) : nat := S (size (dom (s_arrays st))).

(** A step for each object of each array, and one for its end. *)
Definition dag_fuel (st : instr_store) : nat := sum_list_with (λ a, S (length (elements_of st a))) (elements (dom (s_arrays st))).

(** * Recursion over the arrays of a body, each entered once *)

Section recursion.
Context {A : Type} (arrays : Z → list Z) (kids : Z → list Z) (own : Z → A → A).

(** The shape of the recursive passes: they do the work of an object, then enter its
    arrays.  The recursion is as deep as there are arrays that it has not entered. *)
Fixpoint visit_rec (fuel : nat) (a : Z) (st : gset Z * A) : result (gset Z * A) :=
  if bool_decide (a ∈ st.1) then Ok st
  else match fuel with
       | O => Err OutOfFuel
       | S f =>
           for_each (arrays a) (λ id (st : gset Z * A), for_each (kids id) (visit_rec f) (st.1, own id st.2)) ({[a]} ∪ st.1, st.2)
       end.
End recursion.

(** * Arrays inside arrays *)

Section shape.
Context (arrays : Z → list Z) (kids : Z → list Z).

(** [b] is nested directly in [a]. *)
Definition inside (a b : Z) : Prop := ∃ id, id ∈ arrays a ∧ b ∈ kids id.

(** The arrays below what was visited are entered. *)
Definition closed_over (trace : list Z) (v : gset Z) : Prop := ∀ id b, id ∈ trace → b ∈ kids id → b ∈ v.

(** ** The recursion *)

(** What a run below [root] entered and visited, besides the objects [pre]. *)
Record entered (root : Z) (vis : gset Z) (pre news trace : list Z) (vis' : gset Z) : Prop := {
  en_visited b : b ∈ vis' ↔ b ∈ vis ∨ b ∈ news;
  en_once : NoDup news;
  en_new b : b ∈ news → b ∉ vis;
  en_inside b : b ∈ news → rtc inside root b;
  en_trace : trace ≡ₚ pre ++ (news ≫= arrays);
  en_closed : closed_over trace vis' }.

Lemma entered_nil root vis : entered root vis [] [] [] vis.
Proof. split; [set_solver|constructor|set_solver|set_solver|done|]. intros id b Hid. by apply not_elem_of_nil in Hid. Qed.

Lemma entered_app root vis vis1 vis2 pre1 pre2 news1 news2 trace1 trace2 :
  entered root vis pre1 news1 trace1 vis1 → entered root vis1 pre2 news2 trace2 vis2 →
  entered root vis (pre1 ++ pre2) (news1 ++ news2) (trace1 ++ trace2) vis2.
Proof.
  intros [A1 A2 A3 A4 A5 A6] [B1 B2 B3 B4 B5 B6]. split.
  - intros b. rewrite B1, A1, elem_of_app. tauto.
  - apply list.NoDup_app. split_and!; [done| |done]. intros b Hb Hb2. apply (B3 b Hb2), A1. by right.
  - intros b [Hb|Hb]%elem_of_app; [by apply A3|]. intros Hv. apply (B3 b Hb), A1. by left.
  - intros b [Hb|Hb]%elem_of_app; [by apply A4|by apply B4].
  - rewrite A5, B5, bind_app, <- !app_assoc. f_equiv. by rewrite app_assoc, (Permutation_app_comm (news1 ≫= arrays)), <- app_assoc.
  - intros id b [Hid|Hid]%elem_of_app Hb; [|by eapply B6]. apply B1. left. by eapply A6.
Qed.

Lemma entered_up root root' vis pre news trace vis' :
  rtc inside root root' → entered root' vis pre news trace vis' → entered root vis pre news trace vis'.
Proof. intros Hr [A1 A2 A3 A4 A5 A6]. split; try done. intros b Hb. etrans; [exact Hr|by apply A4]. Qed.

Section recursion_spec.
Context {S0 : Type} (own : Z → S0 → S0) (universe : gset Z).

Definition do_all (ids : list Z) (s : S0) : S0 := foldl (λ s id, own id s) s ids.

Definition left_over (vis : gset Z) : nat := size (universe ∖ vis).

(** [req] are arrays that the run leaves entered. *)
Definition rec_ok (root : Z) (pre req : list Z) (vis : gset Z) (s : S0) (r : result (gset Z * S0)) : Prop :=
  ∃ vis' news trace, r = Ok (vis', do_all trace s) ∧ entered root vis pre news trace vis' ∧ ∀ c, c ∈ req → c ∈ vis'.

Lemma left_over_mono vis vis' : vis ⊆ vis' → (left_over vis' ≤ left_over vis)%nat.
Proof. intros Hv. unfold left_over. apply subseteq_size. set_solver. Qed.

Lemma entered_mono root vis pre news trace vis' : entered root vis pre news trace vis' → vis ⊆ vis'.
Proof. intros [A1 _ _ _ _ _] b Hb. apply A1. by left. Qed.

Lemma each_ok {X} root (l : list X) (body : X → gset Z * S0 → result (gset Z * S0)) (pre req : X → list Z) n vis s :
  (∀ x vis s, x ∈ l → (left_over vis < n)%nat → rec_ok root (pre x) (req x) vis s (body x (vis, s))) →
  (left_over vis < n)%nat → rec_ok root (l ≫= pre) (l ≫= req) vis s (for_each l body (vis, s)).
Proof.
  revert vis s. induction l as [|x l IH]; intros vis s Hbody Hn.
  { exists vis, [], []. split_and!; [done|apply entered_nil|set_solver]. }
  cbn [for_each]. destruct (Hbody x vis s ltac:(left) Hn) as (vis1 & news1 & trace1 & -> & H1 & Hr1). cbn.
  pose proof (entered_mono _ _ _ _ _ _ H1) as Hv1. pose proof (left_over_mono _ _ Hv1).
  destruct (IH vis1 (do_all trace1 s)) as (vis2 & news2 & trace2 & -> & H2 & Hr2); [intros; apply Hbody; [by right|done]|lia|].
  pose proof (entered_mono _ _ _ _ _ _ H2) as Hv2.
  exists vis2, (news1 ++ news2), (trace1 ++ trace2). split_and!.
  - unfold do_all. by rewrite foldl_app.
  - by eapply entered_app.
  - intros c [Hc|Hc]%elem_of_app; [by apply Hv2, Hr1|by apply Hr2].
Qed.

(** One object: its work, then its arrays. *)
Lemma object_ok fuel root id vis s :
  (∀ c vis s, c ∈ kids id → (left_over vis < fuel)%nat → rec_ok root [] [c] vis s (visit_rec arrays kids own fuel c (vis, s))) →
  (left_over vis < fuel)%nat →
  rec_ok root [id] [] vis s (for_each (kids id) (visit_rec arrays kids own fuel) (vis, own id s)).
Proof.
  intros Hk Hn. destruct (each_ok root (kids id) (visit_rec arrays kids own fuel) (λ _, []) (λ c, [c]) fuel vis (own id s) Hk Hn)
    as (vis' & news & trace & -> & [A1 A2 A3 A4 A5 A6] & Hr).
  exists vis', news, (id :: trace). split_and!; [done| |set_solver]. split; try done.
  - assert (kids id ≫= (λ _, []) = ([] : list Z)) as E by (clear; induction (kids id) as [|c l IH]; [done|exact IH]). by rewrite A5, E.
  - intros j b [->|Hj]%elem_of_cons Hb; [|by eapply A6]. apply Hr. rewrite bind_singleton. done.
Qed.

Lemma visit_rec_ok fuel : ∀ root vis s,
  (∀ b, rtc inside root b → b ∈ universe) → (left_over vis < fuel)%nat →
  rec_ok root [] [root] vis s (visit_rec arrays kids own fuel root (vis, s)).
Proof.
  induction fuel as [|fuel IH]; intros root vis s Hu Hfuel; [lia|]. cbn [visit_rec fst snd]. case_bool_decide as Hr.
  { exists vis, [], []. split_and!; [done|apply entered_nil|]. by intros c ->%list_elem_of_singleton. }
  assert (left_over ({[root]} ∪ vis) < fuel)%nat as Hfuel0.
  { eapply Nat.lt_le_trans; [|apply Nat.lt_succ_r, Hfuel]. unfold left_over. apply subset_size.
    assert (root ∈ universe) by (apply Hu; constructor). set_solver. }
  destruct (each_ok root (arrays root) (λ id (st : gset Z * S0), for_each (kids id) (visit_rec arrays kids own fuel) (st.1, own id st.2))
    (λ id, [id]) (λ _, []) fuel ({[root]} ∪ vis) s) as (vis' & news & trace & E & [A1 A2 A3 A4 A5 A6] & _); [|done|].
  { intros id vis1 s1 Hid Hn1. cbn [fst snd]. apply object_ok; [|done]. intros c vis2 s2 Hc Hn2.
    assert (inside root c) as Hin by (by exists id).
    destruct (IH c vis2 s2) as (v & nw & tr & Ec & He & Hq); [|done|].
    { intros b Hb. apply Hu. by eapply rtc_l. }
    exists v, nw, tr. split_and!; [done| |done]. eapply entered_up; [by apply rtc_once|done]. }
  exists vis', (root :: news), trace. split_and!; [by rewrite E| |].
  - split.
    + intros b. rewrite A1, elem_of_union, elem_of_singleton, elem_of_cons. tauto.
    + apply NoDup_cons. split; [|done]. intros Hn. apply (A3 root Hn). set_solver.
    + intros b [->|Hb]%elem_of_cons; [done|]. specialize (A3 b Hb). set_solver.
    + intros b [->|Hb]%elem_of_cons; [constructor|by apply A4].
    + rewrite A5, bind_singleton. done.
    + done.
  - intros c ->%list_elem_of_singleton. apply A1. set_solver.
Qed.
End recursion_spec.

(** ** A run that starts with no array entered visits what the root holds. *)

Lemma closed_complete root news trace (v : gset Z) :
  (∀ b, b ∈ v ↔ b ∈ news) → trace ≡ₚ (news ≫= arrays) → closed_over trace v → root ∈ v → (∀ b, b ∈ news → rtc inside root b) →
  ∀ id, id ∈ trace ↔ ∃ b, rtc inside root b ∧ id ∈ arrays b.
Proof.
  intros Hv Htr Hc Hr Hin id. rewrite Htr, list_elem_of_bind.
  assert (∀ b, rtc inside root b → b ∈ news) as Hall.
  { intros b Hb. refine (rtc_ind_r (λ b, b ∈ news) root _ _ b Hb); [by apply Hv|]. intros x y _ (j & Hj & Hk) IH.
    apply Hv. eapply Hc; [|exact Hk]. rewrite Htr, list_elem_of_bind. by exists x. }
  naive_solver.
Qed.
End shape.

(** * What the walks visit *)

Section visits.
Context {A : Type} (arrays : Z → list Z) (children : A → Z → list Z) (visitor : Z → A → A).
(** Visiting changes no array and no nesting. *)
Context (kids : Z → list Z) (P : A → Prop).
Context (Hkids : ∀ a j, P a → children a j = kids j) (Hvisit : ∀ a i, P a → P (visitor i a)).

Abbreviation inside := (inside arrays kids).
Abbreviation closed_over := (closed_over kids).

Definition visit_all (ids : list Z) (a : A) : A := foldl (λ a i, visitor i a) a ids.

Lemma visit_all_keeps ids a : P a → P (visit_all ids a).
Proof. revert a. induction ids as [|i ids IH]; intros a Ha; [done|]. by apply IH, Hvisit. Qed.

(** ** The tree walk *)

Fixpoint preorder (depth : nat) (a : Z) : list Z :=
  match depth with O => [] | S d => arrays a ≫= λ id, id :: (kids id ≫= preorder d) end.

(** The body of [a] nests at most [depth] arrays. *)
Fixpoint nests (depth : nat) (a : Z) : Prop :=
  match depth with O => False | S d => ∀ b, inside a b → nests d b end.

Fixpoint tree_cost (depth : nat) (a : Z) : nat :=
  match depth with O => 0 | S d => S (sum_list_with (λ id, S (sum_list_with (tree_cost d) (kids id))) (arrays a)) end.

Lemma push_children_tree cs stack :
  push_children arrays cs (stack, None) = (((λ c, (arrays c, O)) <$> cs) ++ stack, None).
Proof. unfold push_children. induction cs as [|c cs IH]; [done|]. csimpl. by rewrite IH. Qed.

Lemma tree_loop d :
  ∀ a, nests d a → ∀ fuel rest acc, P acc →
  walk_loop arrays children visitor (tree_cost d a + fuel) ((arrays a, O) :: rest) None acc =
  walk_loop arrays children visitor fuel rest None (visit_all (preorder d a) acc).
Proof.
  induction d as [|d IH]; intros a Hn fuel rest acc Hacc; [done|]. cbn [tree_cost preorder nests] in *.
  assert (∀ cs, (∀ b, b ∈ cs → nests d b) → ∀ fuel rest acc, P acc →
    walk_loop arrays children visitor (sum_list_with (tree_cost d) cs + fuel) (((λ c, (arrays c, O)) <$> cs) ++ rest) None acc =
    walk_loop arrays children visitor fuel rest None (visit_all (cs ≫= preorder d) acc)) as Hcs.
  { intros cs. induction cs as [|c cs IHcs]; intros Hc fuel' rest' acc' Hacc'; [done|]. csimpl. cbn [sum_list_with].
    rewrite <- Nat.add_assoc, IH by (try done; apply Hc; left).
    rewrite IHcs by (try apply visit_all_keeps; try done; intros; apply Hc; by right).
    unfold visit_all. by rewrite foldl_app. }
  assert (∀ i j, (i + j)%nat = length (arrays a) → ∀ acc, P acc →
    walk_loop arrays children visitor (S (sum_list_with (λ id, S (sum_list_with (tree_cost d) (kids id))) (drop i (arrays a))) + fuel)
      ((arrays a, i) :: rest) None acc =
    walk_loop arrays children visitor fuel rest None (visit_all (drop i (arrays a) ≫= λ id, id :: (kids id ≫= preorder d)) acc)) as Hfrom;
    [|by apply (Hfrom O (length (arrays a)))].
  intros i j. revert i. induction j as [|j IHj]; intros i Hij acc' Hacc'.
  - rewrite drop_ge by lia. cbn. by rewrite lookup_ge_None_2 by lia.
  - destruct (lookup_lt_is_Some_2 (arrays a) i) as [id Hid]; [lia|]. rewrite (drop_S _ _ _ Hid). cbn [sum_list_with].
    set (Y := sum_list_with _ (drop (S i) (arrays a))). set (X := sum_list_with _ (kids id)).
    replace (S (S X + Y) + fuel)%nat with (S (X + (S Y + fuel))) by lia. cbn [walk_loop].
    rewrite Hid, Hkids by (by apply Hvisit). rewrite push_children_tree. unfold X.
    rewrite Hcs; [|intros b Hb; apply Hn; exists id; split; [by eapply list_elem_of_lookup_2|done]|by apply Hvisit].
    unfold Y. rewrite IHj by (try lia; apply visit_all_keeps; by apply Hvisit).
    rewrite bind_cons. cbn [app].
    f_equal. unfold visit_all. cbn [foldl]. by rewrite foldl_app.
Qed.

(** ** The graph walk *)

Section dag.
Context (V0 : gset Z) (root : Z).
Abbreviation frame := (list Z * nat)%type.

(** What is left of the arrays on the stack. *)
Definition pending (stack : list frame) : list Z := stack ≫= λ f, drop f.2 f.1.

(** [news] are the arrays that the walk has entered, [trace] the objects it has visited. *)
Record walking (news trace : list Z) (stack : list frame) (v : gset Z) : Prop := {
  wk_visited b : b ∈ v ↔ b ∈ V0 ∨ b ∈ news;
  wk_once : NoDup news;
  wk_new b : b ∈ news → b ∉ V0;
  wk_inside b : b ∈ news → rtc inside root b;
  wk_trace : trace ++ pending stack ≡ₚ (news ≫= arrays);
  wk_frames f : f ∈ stack → ∃ b, b ∈ news ∧ f.1 = arrays b }.

(** Steps that the walk may still take; [universe] lists the arrays under the root. *)
Context (universe : list Z) (Huniverse : ∀ b, rtc inside root b → b ∈ universe).

Definition unvisited_cost (v : gset Z) (b : Z) : nat := if bool_decide (b ∈ v) then 0 else S (length (arrays b)).
Definition stack_cost (stack : list frame) : nat := sum_list_with (λ f : frame, S (length f.1 - f.2)) stack.

Definition dag_cost (stack : list frame) (v : gset Z) : nat := stack_cost stack + sum_list_with (unvisited_cost v) universe.

Lemma enter_cost c stack v : c ∈ universe → c ∉ v → (dag_cost ((arrays c, O) :: stack) ({[c]} ∪ v) ≤ dag_cost stack v)%nat.
Proof.
  intros Hc Hv. unfold dag_cost. pose proof (sum_list_drop (unvisited_cost v) (unvisited_cost ({[c]} ∪ v)) universe c (S (length (arrays c))) Hc) as Hd.
  unfold stack_cost. cbn [sum_list_with fst snd]. rewrite Nat.sub_0_r. enough (sum_list_with (unvisited_cost ({[c]} ∪ v)) universe + S (length (arrays c)) ≤ sum_list_with (unvisited_cost v) universe)%nat by lia.
  apply Hd.
  - unfold unvisited_cost. rewrite bool_decide_false, bool_decide_true by set_solver. lia.
  - intros y. unfold unvisited_cost. repeat case_bool_decide; [lia..|set_solver|lia].
Qed.

Lemma push_children_dag cs news trace stack v :
  walking news trace stack v → (∀ b, b ∈ cs → rtc inside root b) →
  ∃ stack' v' news', push_children arrays cs (stack, Some v) = (stack', Some v') ∧
    walking (news ++ news') trace stack' v' ∧ (∀ b, b ∈ cs → b ∈ v') ∧ v ⊆ v' ∧
    (dag_cost stack' v' ≤ dag_cost stack v)%nat.
Proof.
  intros Hw Hin. induction cs as [|c cs IH].
  - exists stack, v, []. rewrite app_nil_r. split_and!; [done|done|set_solver|done|lia].
  - destruct IH as (stack' & v' & news' & E & Hw' & Hcs & Hv & Es); [set_solver|].
    unfold push_children in *. cbn [foldr]. rewrite E. unfold push_child, seen_array, add_array. cbn [fst snd].
    case_bool_decide as Hc.
    + exists stack', v', news'. split_and!; [done|done|set_solver|done|done].
    + exists ((arrays c, O) :: stack'), ({[c]} ∪ v'), (news' ++ [c]). destruct Hw' as [H1 H2 H3 H4 H5 H6].
      assert ((c ∉ V0) ∧ (c ∉ news ++ news')) as [Hc1 Hc2] by (rewrite H1 in Hc; tauto).
      split_and!; [done| |set_solver|set_solver|etrans; [apply enter_cost; [apply Huniverse, Hin; left|done]|done]].
      rewrite app_assoc. split.
      * intros b. rewrite elem_of_union, H1, !elem_of_app. set_solver.
      * apply list.NoDup_app. split_and!; [done|set_solver|apply NoDup_singleton].
      * intros b [?| ->%list_elem_of_singleton]%elem_of_app; [by apply H3|done].
      * intros b [?| ->%list_elem_of_singleton]%elem_of_app; [by apply H4|]. apply Hin. left.
      * rewrite bind_app, <- H5. assert (pending ((arrays c, O) :: stack') = arrays c ++ pending stack') as -> by done. csimpl. rewrite app_nil_r.
        by rewrite (Permutation_app_comm (arrays c)), app_assoc.
      * intros f [->|Hf]%elem_of_cons; [exists c; split; [set_solver|done]|]. destruct (H6 f Hf) as (b & ? & ?). exists b. split; [set_solver|done].
Qed.


Lemma visit_step news trace arr i rest v id :
  walking news trace ((arr, i) :: rest) v → arr !! i = Some id → walking news (trace ++ [id]) ((arr, S i) :: rest) v.
Proof.
  intros [H1 H2 H3 H4 H5 H6] Hid. split; try done.
  - rewrite <- H5. unfold pending. rewrite !bind_cons. cbn [fst snd]. by rewrite (drop_S _ _ _ Hid), <- !app_assoc.
  - intros f [->|Hf]%elem_of_cons; [|apply H6; by right]. apply (H6 (arr, i)). left.
Qed.

Lemma dag_loop fuel : ∀ news trace stack v acc,
  walking news trace stack v → closed_over trace v → P acc → (dag_cost stack v ≤ fuel)%nat →
  ∃ v' news' trace', walk_loop arrays children visitor fuel stack (Some v) acc = Ok (Some v', visit_all trace' acc) ∧
    walking (news ++ news') (trace ++ trace') [] v' ∧ closed_over (trace ++ trace') v'.
Proof.
  induction fuel as [|fuel IH]; intros news trace stack v acc Hw Hc Hacc Hfuel; destruct stack as [|[arr i] rest]; cbn [walk_loop].
  - exists v, [], []. by rewrite !app_nil_r.
  - unfold dag_cost, stack_cost in Hfuel. cbn in Hfuel. lia.
  - exists v, [], []. by rewrite !app_nil_r.
  - assert (dag_cost ((arr, S i) :: rest) v < dag_cost ((arr, i) :: rest) v ∨ arr !! i = None)%nat as Hdec.
    { destruct (arr !! i) eqn:Hid; [left|by right]. apply lookup_lt_Some in Hid. unfold dag_cost, stack_cost. cbn [sum_list_with fst snd]. lia. }
    destruct (arr !! i) as [id|] eqn:Hid.
    + destruct Hdec as [Hdec|]; [|done]. rewrite Hkids by (by apply Hvisit).
      destruct (push_children_dag (kids id) news (trace ++ [id]) ((arr, S i) :: rest) v) as (stack' & v' & news' & -> & Hw' & Hk & Hv & Hcost).
      { by apply visit_step. }
      { intros b Hb. destruct (wk_frames _ _ _ _ Hw (arr, i)) as (x & Hx & Earr); [left|]. cbn in Earr. subst arr.
        eapply rtc_r; [by apply (wk_inside _ _ _ _ Hw)|]. exists id. split; [by eapply list_elem_of_lookup_2|done]. }
      destruct (IH (news ++ news') (trace ++ [id]) stack' v' (visitor id acc)) as (v2 & news2 & trace2 & E & Hw2 & Hc2).
      { done. }
      { intros j b [Hj| ->%list_elem_of_singleton]%elem_of_app Hb; [apply Hv; by eapply Hc|by apply Hk]. }
      { by apply Hvisit. }
      { lia. }
      rewrite <- !app_assoc in Hw2, Hc2. rewrite <- app_assoc in Hw2. exists v2, (news' ++ news2), (id :: trace2). rewrite E. split_and!; [done|exact Hw2|exact Hc2].
    + destruct (IH news trace rest v acc) as (v2 & news2 & trace2 & E & Hw2 & Hc2); [|done|done| |].
      { destruct Hw as [H1 H2 H3 H4 H5 H6]. split; try done; [|intros f Hf; apply H6; by right].
        rewrite <- H5. unfold pending. rewrite bind_cons. cbn [fst snd]. by rewrite (drop_ge arr) by (by apply lookup_ge_None). }
      { unfold dag_cost, stack_cost in Hfuel |- *. cbn [sum_list_with] in Hfuel. lia. }
      exists v2, news2, trace2. by rewrite E.
Qed.

(** The walk enters every array under the root that was not entered before, once, and
    visits the objects of these arrays, each as often as an array holds it. *)
Lemma walk_dag fuel acc :
  P acc → (sum_list_with (unvisited_cost V0) universe ≤ fuel)%nat →
  ∃ v news trace, walkInstructionDag arrays children visitor fuel root V0 acc = Ok (v, visit_all trace acc) ∧
    walking news trace [] v ∧ closed_over trace v ∧ root ∈ v.
Proof.
  intros Hacc Hfuel. unfold walkInstructionDag. case_bool_decide as Hr.
  - exists V0, [], []. split_and!; [done| |intros id b Hid; by apply not_elem_of_nil in Hid|done].
    split; [set_solver|constructor|set_solver|set_solver|done|set_solver].
  - unfold walkInstructionArrays. cbn [add_array]. csimpl.
    destruct (dag_loop fuel [root] [] [(arrays root, O)] ({[root]} ∪ V0) acc) as (v & news & trace & -> & Hw & Hc).
    + split; [set_solver|apply NoDup_singleton|set_solver| | |].
      * intros b ->%list_elem_of_singleton. constructor.
      * cbn. by rewrite !app_nil_r.
      * intros f ->%list_elem_of_singleton. exists root. split; [left|done].
    + intros id b Hid. by apply not_elem_of_nil in Hid.
    + done.
    + etrans; [|exact Hfuel]. pose proof (enter_cost root [] V0) as He. unfold dag_cost in He. cbn in He. unfold dag_cost. cbn in He |- *.
      etrans; [apply He|]; [apply Huniverse; constructor|done|lia].
    + csimpl. exists v, ([root] ++ news), trace. split_and!; [done..|]. apply (wk_visited _ _ _ _ Hw). right. left.
Qed.
End dag.
End visits.
