(* ===== verification/InstrWalk.v ===== *)
(** Bodies of the instruction store as trees: what is inside a body, and its references
    told by the objects that hold them.

    What the walks of src/wasm/model/instruction-walk.ts visit. *)

From S2P Require Import Prelude WasmModel WasmEncode WasmCheck InstrGraph.

Section store.
Context (st : instr_store).
Abbreviation under := (inside (elements_of st) (children_of st)).

(** [id] is an object of the body [a] or of an array nested in it. *)
Definition holds_object (a id : Z) : Prop := ∃ b, rtc under a b ∧ id ∈ elements_of st b.

Lemma read_body_S d a l : read_body (S d) st a = Some l ↔
  ∃ ids, s_arrays st !! a = Some ids ∧ Forall2 (λ id i, read_node (read_body d st) st id = Some i) ids l.
Proof.
  cbn [read_body]. destruct (s_arrays st !! a) as [ids|]; csimpl; [|naive_solver].
  rewrite mapM_Some. naive_solver.
Qed.

(** What reading an object reads. *)
Definition node_reads (read : Z → option (list Instr)) (n : InstrNode) (i : Instr) : Prop :=
  match n with
  | NLeaf j => i = j ∧ is_leaf j = true
  | NBlock bt body => ∃ t l, s_blockTypes st !! bt = Some t ∧ read body = Some l ∧ i = Block t l
  | NLoop bt body => ∃ t l, s_blockTypes st !! bt = Some t ∧ read body = Some l ∧ i = Loop t l
  | NIf bt th el => ∃ t l k, s_blockTypes st !! bt = Some t ∧ read th = Some l ∧
      match el, k with None, None => True | Some e, Some k => read e = Some k | _, _ => False end ∧ i = If t l k
  | NTry bt body cs ca => ∃ t l ks k, s_blockTypes st !! bt = Some t ∧ read body = Some l ∧
      Forall2 (λ (c : Z * Z) (k : Z * list Instr), k.1 = c.1 ∧ read c.2 = Some k.2) cs ks ∧
      match ca, k with None, None => True | Some e, Some k => read e = Some k | _, _ => False end ∧ i = Try t l ks k
  | NTryTable bt body cs => ∃ t l, s_blockTypes st !! bt = Some t ∧ read body = Some l ∧ i = TryTable t l cs
  end.

Lemma read_node_iff read id i : read_node read st id = Some i ↔ ∃ n, s_objects st !! id = Some n ∧ node_reads read n i.
Proof.
  unfold read_node. destruct (s_objects st !! id) as [n|]; csimpl; [|naive_solver].
  transitivity (node_reads read n i); [|naive_solver]. destruct n as [j|bt b|bt b|bt th el|bt b cs ca|bt b cs]; cbn [node_reads].
  - destruct (is_leaf j); naive_solver.
  - destruct (s_blockTypes st !! bt); csimpl; [|naive_solver]. destruct (read b); csimpl; naive_solver.
  - destruct (s_blockTypes st !! bt); csimpl; [|naive_solver]. destruct (read b); csimpl; naive_solver.
  - destruct (s_blockTypes st !! bt) as [t|]; csimpl; [|naive_solver]. destruct (read th) as [l|]; csimpl; [|naive_solver].
    destruct el as [e|]; [destruct (read e) as [k|]; csimpl|].
    + split; [intros [= <-]; by exists t, l, (Some k)|]. intros (? & ? & [?|] & ? & ? & ? & ->); naive_solver.
    + split; [done|]. intros (? & ? & [?|] & ? & ? & ? & ->); naive_solver.
    + split; [intros [= <-]; by exists t, l, None|]. intros (? & ? & [?|] & ? & ? & ? & ->); naive_solver.
  - destruct (s_blockTypes st !! bt) as [t|]; csimpl; [|naive_solver]. destruct (read b) as [l|]; csimpl; [|naive_solver].
    destruct (mapM _ cs) as [ks|] eqn:Ecs; csimpl.
    + apply mapM_Some in Ecs. assert (Forall2 (λ (c : Z * Z) (k : Z * list Instr), k.1 = c.1 ∧ read c.2 = Some k.2) cs ks) as Hcs.
      { eapply Forall2_impl; [exact Ecs|]. intros [x y] [x' k]. cbn. destruct (read y); csimpl; naive_solver. }
      assert (∀ ks', Forall2 (λ (c : Z * Z) (k : Z * list Instr), k.1 = c.1 ∧ read c.2 = Some k.2) cs ks' → ks' = ks) as Huniq.
      { clear Ecs. revert ks Hcs. induction cs as [|c cs IH]; intros ks Hks ks' Hks'; inversion Hks as [|? k1 ? ks1 [? ?]]; inversion Hks' as [|? k2 ? ks2 [? ?]]; subst; [done|].
        f_equal; [|by apply IH]. destruct k1, k2. simpl in *. congruence. }
      destruct ca as [e|]; [destruct (read e) as [k|]; csimpl|].
      * split; [intros [= <-]; by exists t, l, ks, (Some k)|].
        intros (? & ? & ks' & [?|] & ? & ? & Hks & ? & ->); [|naive_solver]. apply Huniq in Hks. naive_solver.
      * split; [done|]. intros (? & ? & ? & [?|] & ? & ? & ? & ? & ->); naive_solver.
      * split; [intros [= <-]; by exists t, l, ks, None|].
        intros (? & ? & ks' & [?|] & ? & ? & Hks & ? & ->); [naive_solver|]. apply Huniq in Hks. naive_solver.
    + split; [done|]. intros (? & ? & ks & ? & ? & ? & Hks & ? & ?). exfalso.
      apply eq_None_not_Some in Ecs. apply Ecs. exists ks. apply mapM_Some. eapply Forall2_impl; [exact Hks|].
      intros [? y] [? k'] [E Ek]; rewrite Ek. cbn in *. by subst.
  - destruct (s_blockTypes st !! bt); csimpl; [|naive_solver]. destruct (read b); csimpl; naive_solver.
Qed.

(** The nested arrays of an object that reads are read too. *)
Lemma reads_children read n i c : node_reads read n i → c ∈ walkChildren n → ∃ l, read c = Some l.
Proof.
  destruct n as [j|bt b|bt b|bt th el|bt b cs ca|bt b cs]; cbn [node_reads walkChildren]; intros Hr Hc.
  - by apply not_elem_of_nil in Hc.
  - apply list_elem_of_singleton in Hc as ->. naive_solver.
  - apply list_elem_of_singleton in Hc as ->. naive_solver.
  - destruct Hr as (t & l & k & _ & Hl & Hk & _). apply elem_of_cons in Hc as [->|Hc]; [by exists l|].
    destruct el as [e|]; cbn in Hc; [|by apply not_elem_of_nil in Hc]. apply list_elem_of_singleton in Hc as ->. destruct k; naive_solver.
  - destruct Hr as (t & l & ks & k & _ & Hl & Hks & Hk & _). apply elem_of_cons in Hc as [->|Hc]; [by exists l|].
    apply elem_of_app in Hc as [Hc|Hc].
    + apply list_elem_of_fmap in Hc as (x & -> & Hx). apply list_elem_of_lookup in Hx as [j Hj].
      destruct (Forall2_lookup_l _ _ _ _ _ Hks Hj) as (y & _ & _ & Hy). by exists y.2.
    + destruct ca as [e|]; cbn in Hc; [|by apply not_elem_of_nil in Hc]. apply list_elem_of_singleton in Hc as ->. destruct k; naive_solver.
  - apply list_elem_of_singleton in Hc as ->. naive_solver.
Qed.

Lemma read_under d a b l : read_body (S d) st a = Some l → under a b → ∃ k, read_body d st b = Some k.
Proof.
  intros Hr (id & Hid & Hb). apply read_body_S in Hr as (ids & Ha & Hall). unfold elements_of in Hid. rewrite Ha in Hid. cbn in Hid.
  apply list_elem_of_lookup in Hid as [j Hj]. destruct (Forall2_lookup_l _ _ _ _ _ Hall Hj) as (i & _ & Hi).
  apply read_node_iff in Hi as (n & Hn & Hi). unfold children_of in Hb. rewrite Hn in Hb. by eapply reads_children.
Qed.

Lemma read_inside a b : rtc under a b → ∀ d l, read_body d st a = Some l → ∃ d' k, read_body d' st b = Some k.
Proof.
  induction 1 as [a|a c b Hac _ IH]; intros d l Hr; [by exists d, l|]. destruct d as [|d]; [done|].
  destruct (read_under _ _ _ _ Hr Hac) as [k Hk]. by eapply IH.
Qed.

Lemma read_array d a l : read_body d st a = Some l → a ∈ dom (s_arrays st).
Proof. destruct d as [|d]; [done|]. intros (ids & Ha & _)%read_body_S. apply elem_of_dom. by exists ids. Qed.

Lemma read_inside_dom d a b l : read_body d st a = Some l → rtc under a b → b ∈ dom (s_arrays st).
Proof. intros Hr Hb. destruct (read_inside _ _ Hb _ _ Hr) as (d' & k & Hk). by eapply read_array. Qed.

(** What is collected from a tree is collected from the objects of its body. *)
Lemma tree_objects {X} (tree : Instr → list X) (own : InstrNode → list X) :
  (∀ read n i, node_reads read n i → ∀ x, x ∈ tree i ↔ x ∈ own n ∨ ∃ c l, c ∈ walkChildren n ∧ read c = Some l ∧ x ∈ l ≫= tree) →
  ∀ d a l x, read_body d st a = Some l → x ∈ l ≫= tree ↔ ∃ id n, holds_object a id ∧ s_objects st !! id = Some n ∧ x ∈ own n.
Proof.
  intros Hnode d. induction d as [|d IH]; intros a l x Hr; [done|].
  pose proof Hr as (ids & Ha & Hall)%read_body_S. rewrite list_elem_of_bind.
  assert (elements_of st a = ids) as Ea by (unfold elements_of; by rewrite Ha). split.
  - intros (i & Hx & Hi). apply list_elem_of_lookup in Hi as [j Hj].
    destruct (Forall2_lookup_r _ _ _ _ _ Hall Hj) as (id & Hid & Hrd). apply read_node_iff in Hrd as (n & Hn & Hrd).
    assert (id ∈ elements_of st a) as Hin by (rewrite Ea; by eapply list_elem_of_lookup_2).
    apply (Hnode _ _ _ Hrd) in Hx as [Hx|(c & k & Hc & Hk & Hx)].
    + exists id, n. split_and!; [|done..]. exists a. by split.
    + apply (IH c k x Hk) in Hx as (id' & n' & (b & Hb & Hid') & ? & ?). exists id', n'. split_and!; [|done..].
      exists b. split; [|done]. eapply rtc_l; [|exact Hb]. exists id. split; [done|]. unfold children_of. by rewrite Hn.
  - intros (id & n & (b & Hb & Hid) & Hn & Hx). apply rtc_inv in Hb as [<-|(c & (id0 & Hid0 & Hc) & Hcb)].
    + rewrite Ea in Hid. apply list_elem_of_lookup in Hid as [j Hj]. destruct (Forall2_lookup_l _ _ _ _ _ Hall Hj) as (i & Hi & Hrd).
      apply read_node_iff in Hrd as (n' & Hn' & Hrd). rewrite Hn in Hn'. injection Hn' as <-. exists i.
      split; [|by eapply list_elem_of_lookup_2]. apply (Hnode _ _ _ Hrd). by left.
    + rewrite Ea in Hid0. apply list_elem_of_lookup in Hid0 as [j Hj]. destruct (Forall2_lookup_l _ _ _ _ _ Hall Hj) as (i & Hi & Hrd).
      apply read_node_iff in Hrd as (n0 & Hn0 & Hrd). unfold children_of in Hc. rewrite Hn0 in Hc.
      destruct (reads_children _ _ _ _ Hrd Hc) as [k Hk]. exists i. split; [|by eapply list_elem_of_lookup_2].
      apply (Hnode _ _ _ Hrd). right. exists c, k. split_and!; [done..|]. apply (IH c k x Hk). exists id, n. split_and!; [|done..]. by exists b.
Qed.

(** The references of an object itself. *)
Definition node_uses (n : InstrNode) : list use :=
  match n with
  | NLeaf i => instr_uses i
  | NBlock bt _ | NLoop bt _ | NIf bt _ _ => default [] (blocktype_uses <$> s_blockTypes st !! bt)
  | NTry bt _ cs _ => default [] (blocktype_uses <$> s_blockTypes st !! bt) ++ (UTag <$> cs.*1)
  | NTryTable bt _ cs => default [] (blocktype_uses <$> s_blockTypes st !! bt) ++ (cs ≫= catch_uses)
  end.

Lemma node_uses_reads read n i : node_reads read n i → ∀ u,
  u ∈ instr_uses i ↔ u ∈ node_uses n ∨ ∃ c l, c ∈ walkChildren n ∧ read c = Some l ∧ u ∈ l ≫= instr_uses.
Proof.
  assert (∀ b l, read b = Some l → ∀ u, u ∈ l ≫= instr_uses ↔ ∃ c l', c ∈ [b] ∧ read c = Some l' ∧ u ∈ l' ≫= instr_uses) as Hone.
  { intros b l Hb u. split; [intros Hu; exists b, l; split_and!; [left|done..]|].
    intros (c & l' & ->%list_elem_of_singleton & Hl' & Hu). congruence. }
  assert (∀ o k, match o, k with None, None => True | Some e, Some k => read e = Some k | _, _ => False end →
    ∀ u, u ∈ match k with Some l => l ≫= instr_uses | None => [] end ↔
      ∃ c l', c ∈ opt_list o ∧ read c = Some l' ∧ u ∈ l' ≫= instr_uses) as Hopt.
  { intros [e|] [k|] Hok u; try done; [by apply Hone|]. split; [intros Hu; by apply not_elem_of_nil in Hu|].
    intros (c & _ & Hc & _). by apply not_elem_of_nil in Hc. }
  assert (∀ l1 l2 u, (∃ c l', c ∈ l1 ++ l2 ∧ read c = Some l' ∧ u ∈ l' ≫= instr_uses) ↔
    (∃ c l', c ∈ l1 ∧ read c = Some l' ∧ u ∈ l' ≫= instr_uses) ∨ (∃ c l', c ∈ l2 ∧ read c = Some l' ∧ u ∈ l' ≫= instr_uses)) as Happ.
  { intros l1 l2 u. setoid_rewrite elem_of_app. naive_solver. }
  destruct n as [j|bt b|bt b|bt th el|bt b cs ca|bt b cs]; cbn [node_reads node_uses walkChildren]; intros Hr u.
  - destruct Hr as [-> _]. split; [by left|]. intros [?|(c & _ & Hc & _)]; [done|by apply not_elem_of_nil in Hc].
  - destruct Hr as (t & l & -> & Hl & ->). cbn. by rewrite elem_of_app, (Hone b l Hl).
  - destruct Hr as (t & l & -> & Hl & ->). cbn. by rewrite elem_of_app, (Hone b l Hl).
  - destruct Hr as (t & l & k & -> & Hl & Hk & ->). cbn [instr_uses default fmap option_fmap option_map].
    change (th :: opt_list el) with ([th] ++ opt_list el). by rewrite Happ, !elem_of_app, (Hone th l Hl), (Hopt el k Hk).
  - destruct Hr as (t & l & ks & k & -> & Hl & Hks & Hk & ->). cbn [instr_uses default fmap option_fmap option_map].
    change (b :: cs.*2 ++ opt_list ca) with ([b] ++ cs.*2 ++ opt_list ca). rewrite !Happ, !elem_of_app, (Hone b l Hl), (Hopt ca k Hk).
    assert (u ∈ ks ≫= (λ c, UTag c.1 :: c.2 ≫= instr_uses) ↔
      u ∈ UTag <$> cs.*1 ∨ ∃ c l', c ∈ cs.*2 ∧ read c = Some l' ∧ u ∈ l' ≫= instr_uses) as ->; [|tauto].
    clear -Hks. induction Hks as [|c0 k0 cs ks [E Ek] _ IH].
    + split; [intros Hu; by apply not_elem_of_nil in Hu|]. intros [Hu|(c & _ & Hc & _)]; [by apply not_elem_of_nil in Hu|by apply not_elem_of_nil in Hc].
    + destruct c0 as [x a], k0 as [x' k0]. cbn in E, Ek. subst x'. csimpl. rewrite elem_of_cons, elem_of_app, IH. setoid_rewrite elem_of_cons. naive_solver.
  - destruct Hr as (t & l & -> & Hl & ->). cbn. rewrite !elem_of_app, (Hone b l Hl). tauto.
Qed.

Lemma body_uses d a l u : read_body d st a = Some l →
  u ∈ l ≫= instr_uses ↔ ∃ id n, holds_object a id ∧ s_objects st !! id = Some n ∧ u ∈ node_uses n.
Proof. apply tree_objects, node_uses_reads. Qed.
End store.

(** The instructions of a tree in source order, each before the ones nested in it. *)
Fixpoint flatten (i : Instr) : list Instr :=
  i :: match i with
       | Block _ body | Loop _ body | TryTable _ body _ => body ≫= flatten
       | If _ th el => (th ≫= flatten) ++ match el with Some l => l ≫= flatten | None => [] end
       | Try _ body cs ca => (body ≫= flatten) ++ (cs ≫= λ c, c.2 ≫= flatten) ++ match ca with Some l => l ≫= flatten | None => [] end
       | _ => []
       end.

Section walks.
Context (st : instr_store).
Abbreviation arrays := (elements_of st).
Abbreviation kids := (children_of st).
Abbreviation under := (inside arrays kids).

(** [id] is the object of the instruction [i]. *)
Definition object_of (id : Z) (i : Instr) : Prop := ∃ n read, s_objects st !! id = Some n ∧ node_reads st read n i.

Lemma read_nests d : ∀ a l, read_body d st a = Some l → nests arrays kids d a.
Proof.
  induction d as [|d IH]; intros a l Hr; [done|]. cbn [nests]. intros b Hb. destruct (read_under st _ _ _ _ Hr Hb) as [k Hk]. by eapply IH.
Qed.

(** The objects in the order of the walk are those of the flattened tree. *)
Lemma preorder_flatten d : ∀ a l, read_body d st a = Some l → Forall2 object_of (preorder arrays kids d a) (l ≫= flatten).
Proof.
  induction d as [|d IH]; intros a l Hr; [done|]. apply read_body_S in Hr as (ids & Ha & Hall). cbn [preorder].
  assert (arrays a = ids) as -> by (unfold elements_of; by rewrite Ha). clear Ha.
  induction Hall as [|id i ids l Hi _ IHl]; [constructor|]. rewrite !bind_cons. apply Forall2_app; [|exact IHl].
  apply read_node_iff in Hi as (n & Hn & Hi). assert (kids id = walkChildren n) as -> by (unfold children_of; by rewrite Hn).
  assert (flatten i = i :: tail (flatten i)) as -> by (by destruct i). apply Forall2_cons. split; [by exists n, (read_body d st)|].
  assert (∀ o k, match o, k with None, None => True | Some e, Some k => read_body d st e = Some k | _, _ => False end →
    Forall2 object_of (opt_list o ≫= preorder arrays kids d) (match k with Some l => l ≫= flatten | None => [] end)) as Hopt.
  { intros [e|] [k|] Hok; try done. cbn. rewrite app_nil_r. by apply IH. }
  clear Hn IHl. destruct n as [j|bt b|bt b|bt th el|bt b cs ca|bt b cs]; cbn [node_reads walkChildren] in *.
  - destruct Hi as [E Hl]. rewrite E. destruct j; try discriminate Hl; constructor.
  - destruct Hi as (t & k & _ & Hk & ->). cbn. rewrite app_nil_r. by apply IH.
  - destruct Hi as (t & k & _ & Hk & ->). cbn. rewrite app_nil_r. by apply IH.
  - destruct Hi as (t & k & k2 & _ & Hk & Hk2 & ->). cbn [flatten tail]. rewrite bind_cons. apply Forall2_app; [by apply IH|by apply Hopt].
  - destruct Hi as (t & k & ks & k2 & _ & Hk & Hks & Hk2 & ->). cbn [flatten tail]. rewrite bind_cons, bind_app. apply Forall2_app; [by apply IH|].
    apply Forall2_app; [|by apply Hopt]. clear -Hks IH. induction Hks as [|c x cs ks [_ Hx] _ IHk]; [constructor|].
    csimpl. apply Forall2_app; [by apply IH|exact IHk].
  - destruct Hi as (t & k & _ & Hk & ->). cbn. rewrite app_nil_r. by apply IH.
Qed.
End walks.

(** * Properties *)

(** the tree walk is the source order.  On a body that is a tree, whatever it shares,
    walkInstructions ends and calls the visitor on each occurrence of an instruction
    once, in source order, an instruction before the ones nested in it. *)
Theorem walkInstructions_preorder {A} (visitor : Z → A → A) st d body l a :
  read_body d st body = Some l →
  ∃ ids steps, Forall2 (object_of st) ids (l ≫= flatten) ∧
    ∀ fuel, (steps ≤ fuel)%nat →
      walkInstructions (elements_of st) (λ _, children_of st) visitor fuel body a = Ok (foldl (λ a id, visitor id a) a ids).
Proof.
  intros Hr. exists (preorder (elements_of st) (children_of st) d body), (tree_cost (elements_of st) (children_of st) d body).
  split; [by apply preorder_flatten|]. intros fuel Hf. unfold walkInstructions, walkInstructionArrays. cbn [add_array fmap option_fmap option_map].
  replace fuel with (tree_cost (elements_of st) (children_of st) d body + (fuel - tree_cost (elements_of st) (children_of st) d body))%nat by lia.
  rewrite (tree_loop (elements_of st) (λ _ : A, children_of st) visitor (children_of st) (λ _, True)) by (done || by eapply read_nests).
  by destruct (fuel - _)%nat.
Qed.

(** C33: the graph walk enters every array once.  Whatever the sharing, cycles included,
    walkInstructionDag ends within a step for each object of each array and one for its
    end; it enters exactly the arrays under the body, each once, and calls the visitor on
    every object of each of them. *)
Theorem walkInstructionDag_exact {A} (visitor : Z → A → A) st body a :
  (∀ b, rtc (inside (elements_of st) (children_of st)) body b → b ∈ dom (s_arrays st)) →
  ∃ entered trace, walkInstructionDag (elements_of st) (λ _, children_of st) visitor (dag_fuel st) body ∅ a =
      Ok (list_to_set entered, foldl (λ a id, visitor id a) a trace) ∧
    NoDup entered ∧ (∀ b, b ∈ entered ↔ rtc (inside (elements_of st) (children_of st)) body b) ∧
    trace ≡ₚ (entered ≫= elements_of st).
Proof.
  intros Hdom.
  destruct (walk_dag (elements_of st) (λ _ : A, children_of st) visitor (children_of st) (λ _, True) (λ _ _ _, eq_refl) (λ _ _ _, I) (∅ : gset Z) body
    (elements (dom (s_arrays st))) (λ b Hb, proj2 (elem_of_elements _ _) (Hdom b Hb)) (dag_fuel st) a I) as (v & news & trace & E & [W1 W2 W3 W4 W5 W6] & Hcl & Hroot).
  { unfold dag_fuel. apply Nat.eq_le_incl. induction (elements (dom (s_arrays st))) as [|x k IH]; [done|]. cbn [sum_list_with]. rewrite IH.
    unfold unvisited_cost. by rewrite bool_decide_false by set_solver. }
  assert (∀ b, b ∈ v ↔ b ∈ news) as Hv by (intros b; rewrite W1; set_solver).
  exists news, trace. rewrite E. split_and!.
  - f_equal. f_equal. apply set_eq. intros b. rewrite Hv. by rewrite elem_of_list_to_set.
  - done.
  - intros b. split; [apply W4|]. intros Hb. refine (rtc_ind_r (λ b, b ∈ news) body _ _ b Hb); [by apply Hv|].
    intros x y _ (id & Hid & Hk) Hx. apply Hv. eapply Hcl; [|exact Hk]. rewrite <- (app_nil_r trace). change (@nil Z) with (pending []). rewrite W5.
    apply list_elem_of_bind. by exists x.
  - rewrite <- W5. cbn. by rewrite app_nil_r.
Qed.

(** A body with an array in two places, and one that contains itself. *)
Definition shared_store : instr_store :=
  mkStore (list_to_map [(0, NBlock 0 1); (1, NIf 0 1 (Some 2)); (2, NLeaf (Plain "nop")); (3, NLeaf (Plain "drop")); (4, NLoop 0 3)])
    (list_to_map [(0, [0; 1]); (1, [2; 2]); (2, [3]); (3, [3; 4])]) (list_to_map [(0, BEmpty)]).

Lemma walkInstructions_preorder_witness :
  read_body 2 shared_store 0 = Some [Block BEmpty [Plain "nop"; Plain "nop"]; If BEmpty [Plain "nop"; Plain "nop"] (Some [Plain "drop"])] ∧
  ∃ ids steps, length ids = 7%nat ∧ ∀ fuel, (steps ≤ fuel)%nat →
    walkInstructions (elements_of shared_store) (λ _, children_of shared_store) (λ id a, a ++ [id]) fuel 0 [] = Ok (foldl (λ a id, a ++ [id]) [] ids).
Proof.
  assert (read_body 2 shared_store 0 = Some [Block BEmpty [Plain "nop"; Plain "nop"]; If BEmpty [Plain "nop"; Plain "nop"] (Some [Plain "drop"])]) as E by (vm_compute; reflexivity).
  split; [exact E|]. destruct (walkInstructions_preorder (λ id a, a ++ [id]) shared_store 2 0 _ [] E) as (ids & steps & Hids & Hw).
  exists ids, steps. split; [by apply Forall2_length in Hids|exact Hw].
Defined.

(** The last array is its own loop body. *)
Lemma walkInstructionDag_exact_witness :
  ∃ entered trace, walkInstructionDag (elements_of shared_store) (λ _, children_of shared_store) (λ id a, a ++ [id]) (dag_fuel shared_store) 3 ∅ [] =
      Ok (list_to_set entered, foldl (λ a id, a ++ [id]) [] trace) ∧ NoDup entered ∧ 3 ∈ entered ∧ trace ≡ₚ (entered ≫= elements_of shared_store).
Proof.
  assert (∀ b, rtc (inside (elements_of shared_store) (children_of shared_store)) 3 b → b = 3) as Hself.
  { intros b Hb. refine (rtc_ind_r (λ b, b = 3) 3 eq_refl _ b Hb). intros x y _ (id & Hid & Hk) ->.
    apply elem_of_cons in Hid as [->|Hid]; [by apply not_elem_of_nil in Hk|]. apply list_elem_of_singleton in Hid as ->. by apply list_elem_of_singleton in Hk. }
  destruct (walkInstructionDag_exact (λ id a, a ++ [id]) shared_store 3 []) as (entered & trace & E & Hn & He & Ht).
  - intros b ->%Hself. apply elem_of_dom. by eexists.
  - exists entered, trace. split; [exact E|]. split; [exact Hn|]. split; [apply He; constructor|exact Ht].
Defined.
