(* ===== verification/FuncSweep.v ===== *)
(** The reachability sweep over functions: src/codegen/function-reachability-sweep.ts.

    Bodies are arrays of the instruction store of [InstrGraph]; a function has an identity
    for the set of stubbed functions that the code keeps per module. *)

From S2P Require Import Prelude WasmModel WasmEncode InstrGraph.

(** * The module during code generation *)

Record PFunction := mkPFunction { pf_id : Z; pf_name : jsstr; pf_typeIdx : Z; pf_locals : list ValType; pf_body : Z }.
Record PElement := mkPElement { pe_tableIdx : Z; pe_offset : Z; pe_funcIndices : list Z }.
Record PGlobal := mkPGlobal { pg_name : jsstr; pg_type : ValType; pg_mutable : bool; pg_init : Z }.

Record PModule := mkPModule {
  p_types : list TypeDef;
  p_canonicalRuntimeRecGroup : option (Z * Z);
  p_imports : list Import_;
  p_functions : list PFunction;
  p_exports : list WasmExport;
  p_tables : list Table;
  p_elements : list PElement;
  p_globals : list PGlobal;
  p_tags : list TagDef;
  p_declaredFuncRefs : list Z;
  p_funcOrdinalToPosition : list (option Z);
  p_memories : list Memory_;
  p_dataSegments : list DataSegment;
  p_startFuncIdx : option Z;
}.

Definition with_functions (fs : list PFunction) (m : PModule) : PModule :=
  mkPModule (p_types m) (p_canonicalRuntimeRecGroup m) (p_imports m) fs (p_exports m) (p_tables m) (p_elements m) (p_globals m)
    (p_tags m) (p_declaredFuncRefs m) (p_funcOrdinalToPosition m) (p_memories m) (p_dataSegments m) (p_startFuncIdx m).

Definition LATE_PASS_HELPER_ROOTS : list jsstr := [js "__box_number"; js "__unbox_number"].

(** * reachableFunctionPositions *)

Definition definedPosition (m : PModule) (numImportFuncs h : Z) : Z :=
  if STABLE_FUNC_BASE <=? h then
    match js_at (p_funcOrdinalToPosition m) (h - STABLE_FUNC_BASE) with Some (Some pos) => pos | _ => -1 end
  else
    let pos := h - numImportFuncs in
    if (0 <=? pos) && (pos <? Z.of_nat (length (p_functions m))) then pos else -1.

(** The [funcIdx] of an instruction. *)
Definition leaf_funcIdx (i : Instr) : option Z :=
  match i with Call f | ReturnCall f | RefFunc f => Some f | _ => None end.

Definition node_funcIdx (n : InstrNode) : option Z := match n with NLeaf i => leaf_funcIdx i | _ => None end.

(** [live] is the typed array, [queue] a stack. *)
Record sweep := mkSweep { sw_live : list bool; sw_queue : list Z; sw_visited : gset Z }.

(** Writing past the end of a typed array does nothing. *)
Definition mark (pos : Z) (s : sweep) : sweep :=
  if (pos <? 0) || default false (js_at (sw_live s) pos) then s
  else mkSweep (ta_set (sw_live s) pos true) (pos :: sw_queue s) (sw_visited s).

Definition push (a : Z) (p : list Z * sweep) : list Z * sweep :=
  if bool_decide (a ∈ sw_visited p.2) then p
  else (a :: p.1, mkSweep (sw_live p.2) (sw_queue p.2) ({[a]} ∪ sw_visited p.2)).

(** The nested arrays in the order in which the scan pushes them. *)
Definition sweep_children (n : InstrNode) : list Z :=
  match n with
  | NLeaf _ => []
  | NBlock _ body | NLoop _ body | NTryTable _ body _ => [body]
  | NIf _ then_ else_ => then_ :: opt_list else_
  | NTry _ body catches catchAll => body :: opt_list catchAll ++ catches.*2
  end.

Section reachable.
Context (st : instr_store) (m : PModule).

Definition numImportFuncs : Z := count_if is_func_import (p_imports m).

Definition mark_handle (h : Z) (s : sweep) : sweep := mark (definedPosition m numImportFuncs h) s.

Definition scan_object (id : Z) (p : list Z * sweep) : list Z * sweep :=
  match s_objects st !! id with
  | None => p
  | Some n =>
      let p := match node_funcIdx n with Some h => (p.1, mark_handle h p.2) | None => p end in
      foldl (λ p a, push a p) p (sweep_children n)
  end.

Fixpoint scan_loop (fuel : nat) (p : list Z * sweep) : result sweep :=
  match p.1 with
  | [] => Ok p.2
  | arr :: pendingArrays =>
      match fuel with
      | O => Err OutOfFuel
      | S f => scan_loop f (foldl (λ p id, scan_object id p) (pendingArrays, p.2) (elements_of st arr))
      end
  end.

Definition scan (body : Z) (s : sweep) : result sweep := scan_loop (array_fuel st) (push body ([], s)).

Definition mark_all (hs : list Z) (s : sweep) : sweep := foldl (λ s h, mark_handle h s) s hs.

Definition func_exports : list Z := omap (λ x, match ex_kind x with XFunc => Some (ex_index x) | _ => None end) (p_exports m).

Definition scan_element (e : PElement) (s : sweep) : result sweep := scan (pe_offset e) (mark_all (pe_funcIndices e) s).

Definition mark_named (names : list jsstr) (s : sweep) : sweep :=
  foldl (λ s (p : Z * PFunction), if bool_decide (pf_name p.2 ∈ names) then mark p.1 s else s) s
    (zip (seqZ 0 (Z.of_nat (length (p_functions m)))) (p_functions m)).

Fixpoint drain (fuel : nat) (s : sweep) : result sweep :=
  match sw_queue s with
  | [] => Ok s
  | pos :: queue =>
      match fuel with
      | O => Err OutOfFuel
      | S f =>
          match js_at (p_functions m) pos with
          | None => throw ETypeError (js "Cannot read properties of undefined (reading 'body')")
          | Some fn => s ← scan (pf_body fn) (mkSweep (sw_live s) queue (sw_visited s)); drain f s
          end
      end
  end.

Definition reachableFunctionPositions (extraRootNames : list jsstr) : result (list bool) :=
  let s := mkSweep (replicate (length (p_functions m)) false) [] ∅ in
  let s := mark_all func_exports s in
  let s := match p_startFuncIdx m with Some h => mark_handle h s | None => s end in
  s ← for_each (p_elements m) scan_element s;
  s ← for_each (p_globals m) (λ g, scan (pg_init g)) s;
  s ← drain (S (length (p_functions m))) (mark_named extraRootNames s);
  Ok (sw_live s).
End reachable.

(** * stubUnreachableFunctions *)

(** [fn.body = [{ op: "unreachable" }]]: a fresh object in a fresh array. *)
Definition stub_function (fn : PFunction) (st : instr_store) : PFunction * instr_store :=
  let id := fresh (dom (s_objects st)) in
  let a := fresh (dom (s_arrays st)) in
  (mkPFunction (pf_id fn) (pf_name fn) (pf_typeIdx fn) [] a,
   mkStore (<[id := NLeaf (Plain "unreachable")]> (s_objects st)) (<[a := [id]]> (s_arrays st)) (s_blockTypes st)).

Fixpoint stub_functions (live : list bool) (stubbed : gset Z) (fs : list PFunction) (st : instr_store) :
    list PFunction * gset Z * instr_store :=
  match fs with
  | [] => ([], stubbed, st)
  | fn :: fs' =>
      if default false (head live) || bool_decide (pf_id fn ∈ stubbed) then
        let '(fs', stubbed, st) := stub_functions (tail live) stubbed fs' st in (fn :: fs', stubbed, st)
      else
        let (fn', st) := stub_function fn st in
        let '(fs', stubbed, st) := stub_functions (tail live) ({[pf_id fn]} ∪ stubbed) fs' st in (fn' :: fs', stubbed, st)
  end.

Definition stubUnreachableFunctions (live : list bool) (stubbed : gset Z) (m : PModule) (st : instr_store) :
    PModule * gset Z * instr_store :=
  let '(fs, stubbed, st) := stub_functions live stubbed (p_functions m) st in (with_functions fs m, stubbed, st).

(** The names of the stubbed functions that can run. *)
Definition stubsReachedAfterFinalize (st : instr_store) (m : PModule) (stubbed : gset Z) : result (list jsstr) :=
  if decide (stubbed = ∅) then Ok []
  else
    live ← reachableFunctionPositions st m LATE_PASS_HELPER_ROOTS;
    Ok (omap (λ p : bool * PFunction, if p.1 && bool_decide (pf_id p.2 ∈ stubbed) then Some (pf_name p.2) else None)
          (zip live (p_functions m))).
