(* ===== verification/DeadElim.v ===== *)
(** Dead import and type elimination: src/codegen/dead-elimination.ts.

    The pass finds the function imports and types that the module refers to, drops the
    others and rewrites every index in place.  Sets are lists in insertion order.  The
    remapping of ABI sidecars (applyTypeLayoutRemap of the Program-ABI session), which may
    refuse the new layout, is an argument. *)

From S2P Require Import Prelude WasmModel WasmEncode FuncSpace IndexShift InstrGraph FuncSweep.

Abbreviation instr_store := InstrGraph.instr_store.

(** [used.add(x)] *)
Definition set_add (x : Z) (s : list Z) : list Z := if bool_decide (x ∈ s) then s else s ++ [x].

(** * Reference collection *)

Record liveness := mkLive { usedFuncs : list Z; usedTypes : list Z }.

Definition use_func (h : Z) (r : liveness) : liveness := mkLive (set_add h (usedFuncs r)) (usedTypes r).
Definition use_type (t : Z) (r : liveness) : liveness := mkLive (usedFuncs r) (set_add t (usedTypes r)).

Definition collectRefsFromValType (vt : ValType) (used : list Z) : list Z :=
  match vt with VRef t | VRefNull t => set_add t used | _ => used end.

Definition use_valtype (vt : ValType) (r : liveness) : liveness := mkLive (usedFuncs r) (collectRefsFromValType vt (usedTypes r)).

Definition collectBlockTypeRefs (bt : BlockType) (usedTypes : list Z) : list Z :=
  match bt with BEmpty => usedTypes | BType t => set_add t usedTypes | BVal type => collectRefsFromValType type usedTypes end.

Fixpoint collectRefsFromTypeDef (td : TypeDef) (used : list Z) : list Z :=
  match td with
  | TFunc params results => foldl (λ u r, collectRefsFromValType r u) (foldl (λ u p, collectRefsFromValType p u) used params) results
  | TStruct fields superTypeIdx _ =>
      let used := match superTypeIdx with Some s => set_add s used | None => used end in
      foldl (λ u f, collectRefsFromValType (fd_type f) u) used fields
  | TArray element _ => collectRefsFromValType element used
  | TRec types => foldl (λ u t, collectRefsFromTypeDef t u) used types
  | TSub superType _ type => collectRefsFromTypeDef type (match superType with Some s => set_add s used | None => used end)
  end.

(** The fields [typeIdx], [dstTypeIdx] and [srcTypeIdx] of an instruction. *)
Definition leaf_typeIdxs (i : Instr) : list Z :=
  match i with
  | CallIndirect t _ | StructNew t | StructGet t _ | StructSet t _ | ArrayNew t | ArrayNewFixed t _ | ArrayNewDefault t
  | ArrayGet t | ArrayGetS t | ArrayGetU t | ArraySet t | ArrayFill t
  | RefNull t | RefCast t | RefCastNull t | RefTest t | CallRef t | ReturnCallRef t => [t]
  | ArrayCopy dst src => [dst; src]
  | _ => []
  end.

(** One instruction, before the bodies nested in it. *)
Definition collect_object (st : instr_store) (id : Z) (r : liveness) : liveness :=
  match s_objects st !! id with
  | None => r
  | Some (NLeaf i) =>
      foldl (λ r t, use_type t r) (match leaf_funcIdx i with Some h => use_func h r | None => r end) (leaf_typeIdxs i)
  | Some n =>
      match node_blockType n ≫= (s_blockTypes st !!.) with
      | Some bt => mkLive (usedFuncs r) (collectBlockTypeRefs bt (usedTypes r))
      | None => r
      end
  end.

(** Every top-level call has a [visited] set of its own. *)
Definition collectRefsFromBody (st : instr_store) (body : Z) (r : liveness) : result liveness :=
  snd <$> visit_rec (elements_of st) (children_of st) (collect_object st) (array_fuel st) body (∅, r).

(** * Remapping *)

(** [m.has(x) ? m.get(x) : x] *)
Definition remap_index (m : jsmap Z Z) (x : Z) : Z := default x (jm_get m x).

Definition remapVT (vt : ValType) (remap : jsmap Z Z) : ValType :=
  match vt with
  | VRef t => VRef (remap_index remap t)
  | VRefNull t => VRefNull (remap_index remap t)
  | vt => vt
  end.

Definition remap_field (remap : jsmap Z Z) (f : FieldDef) : FieldDef := mkField (remapVT (fd_type f) remap) (fd_mutable f).

Fixpoint remapTD (td : TypeDef) (remap : jsmap Z Z) : TypeDef :=
  match td with
  | TFunc params results => TFunc ((λ p, remapVT p remap) <$> params) ((λ r, remapVT r remap) <$> results)
  | TStruct fields superTypeIdx final => TStruct (remap_field remap <$> fields) (remap_index remap <$> superTypeIdx) final
  | TArray element mutable => TArray (remapVT element remap) mutable
  | TRec types => TRec ((λ t, remapTD t remap) <$> types)
  | TSub superType final type => TSub (remap_index remap <$> superType) final (remapTD type remap)
  end.

(** The index fields of an instruction under two renamings. *)
Definition leaf_map (f t : Z → Z) (i : Instr) : Instr :=
  match i with
  | Call h => Call (f h) | ReturnCall h => ReturnCall (f h) | RefFunc h => RefFunc (f h)
  | CallIndirect x table => CallIndirect (t x) table
  | StructNew x => StructNew (t x) | StructGet x n => StructGet (t x) n | StructSet x n => StructSet (t x) n
  | ArrayNew x => ArrayNew (t x) | ArrayNewFixed x n => ArrayNewFixed (t x) n | ArrayNewDefault x => ArrayNewDefault (t x)
  | ArrayGet x => ArrayGet (t x) | ArrayGetS x => ArrayGetS (t x) | ArrayGetU x => ArrayGetU (t x) | ArraySet x => ArraySet (t x)
  | ArrayCopy dst src => ArrayCopy (t dst) (t src) | ArrayFill x => ArrayFill (t x)
  | RefNull x => RefNull (t x) | RefCast x => RefCast (t x) | RefCastNull x => RefCastNull (t x) | RefTest x => RefTest (t x)
  | CallRef x => CallRef (t x) | ReturnCallRef x => ReturnCallRef (t x)
  | i => i
  end.

Definition remap_blockType (remap : jsmap Z Z) (bt : BlockType) : BlockType :=
  match bt with BEmpty => BEmpty | BType t => BType (remap_index remap t) | BVal type => BVal (remapVT type remap) end.

(** [seen] holds instruction objects and block types. *)
Record remapping := mkRemapping { rm_store : instr_store; rm_seenObjects : gset Z; rm_seenBlockTypes : gset Z }.

Section remap.
Context (funcRemap typeRemap : jsmap Z Z).

Definition leaf_changes (i : Instr) : bool :=
  match leaf_funcIdx i with Some h => jm_has funcRemap h | None => false end || existsb (jm_has typeRemap) (leaf_typeIdxs i).

Definition blockType_changes (bt : BlockType) : bool :=
  match bt with
  | BEmpty => false
  | BType t | BVal (VRef t) | BVal (VRefNull t) => jm_has typeRemap t
  | BVal _ => false
  end.

(** The callback of the walk. *)
Definition remap_object (id : Z) (s : remapping) : remapping :=
  let st := rm_store s in
  if bool_decide (id ∈ rm_seenObjects s) then s
  else match s_objects st !! id with
       | None => s
       | Some (NLeaf i) =>
           if leaf_changes i then
             mkRemapping (mkStore (<[id := NLeaf (leaf_map (remap_index funcRemap) (remap_index typeRemap) i)]> (s_objects st))
                            (s_arrays st) (s_blockTypes st)) ({[id]} ∪ rm_seenObjects s) (rm_seenBlockTypes s)
           else s
       | Some n =>
           match node_blockType n with
           | None => s
           | Some b =>
               if bool_decide (b ∈ rm_seenBlockTypes s) then s
               else match s_blockTypes st !! b with
                    | Some bt =>
                        if blockType_changes bt then
                          mkRemapping (mkStore (s_objects st) (s_arrays st) (<[b := remap_blockType typeRemap bt]> (s_blockTypes st)))
                            (rm_seenObjects s) ({[b]} ∪ rm_seenBlockTypes s)
                        else s
                    | None => s
                    end
           end
       end.

Definition remapLayoutInBodyShared (body : Z) (s : remapping) : result remapping :=
  snd <$> walkInstructionDag (elements_of (rm_store s)) (λ s, children_of (rm_store s)) remap_object
            (dag_fuel (rm_store s)) body ∅ s.
End remap.

(** * eliminateDeadImports *)

Definition func_export_indices (m : PModule) : list Z :=
  omap (λ x, match ex_kind x with XFunc => Some (ex_index x) | _ => None end) (p_exports m).

(** ** Liveness of the module *)

Section liveness.
Context (st : instr_store) (m : PModule).
Let numImpF : Z := count_if is_func_import (p_imports m).

Definition collect_function (f : PFunction) (r : liveness) : result liveness :=
  r ← collectRefsFromBody st (pf_body f) r;
  Ok (foldl (λ r l, use_valtype l r) (use_type (pf_typeIdx f) r) (pf_locals f)).

Definition collect_global (g : PGlobal) (r : liveness) : result liveness :=
  r ← collectRefsFromBody st (pg_init g) r; Ok (use_valtype (pg_type g) r).

Definition collect_element (e : PElement) (r : liveness) : result liveness :=
  collectRefsFromBody st (pe_offset e) (foldl (λ r h, use_func h r) r (pe_funcIndices e)).

Definition collect_import (i : Import_) (r : liveness) : liveness :=
  match im_desc i with ITag t => use_type t r | IGlobal type _ => use_valtype type r | _ => r end.

Definition collect_module : result liveness :=
  let group := match p_canonicalRuntimeRecGroup m with Some (s, e) => seqZ s (e - s + 1) | None => [] end in
  let r := foldl (λ r t, use_type t r) (mkLive [] []) group in
  let r := foldl (λ r i, use_func (numImpF + i) r) r (seqZ 0 (Z.of_nat (length (p_functions m)))) in
  r ← for_each (p_functions m) collect_function r;
  r ← for_each (p_globals m) collect_global r;
  r ← for_each (p_elements m) collect_element r;
  let r := foldl (λ r h, use_func h r) r (func_export_indices m) in
  let r := foldl (λ r h, use_func h r) r (p_declaredFuncRefs m) in
  let r := match p_startFuncIdx m with Some h => use_func h r | None => r end in
  let r := foldl (λ r t, use_type (td_typeIdx t) r) r (p_tags m) in
  Ok (foldl (λ r i, collect_import i r) r (p_imports m)).
End liveness.

(** ** Dead imports *)

(** The imports with their function index, if they are functions ([impFI]). *)
Fixpoint index_imports (n : Z) (imports : list Import_) : list (option Z * Import_) :=
  match imports with
  | [] => []
  | i :: imports' => if is_func_import i then (Some n, i) :: index_imports (n + 1) imports' else (None, i) :: index_imports n imports'
  end.

Definition dead_imports (usedF : list Z) (imports : list Import_) : list Z :=
  omap (λ p : option Z * Import_, match p.1 with Some k => if bool_decide (k ∈ usedF) then None else Some k | None => None end)
    (index_imports 0 imports).

Definition import_survives (deadF : list Z) (p : option Z * Import_) : bool :=
  match p.1 with Some k => negb (bool_decide (k ∈ deadF)) | None => true end.

(** The signatures of the imports that stay. *)
Definition use_signatures (deadF : list Z) (imports : list Import_) (usedT : list Z) : list Z :=
  foldl (λ u (p : option Z * Import_), match im_desc p.2 with IFunc t => if import_survives deadF p then set_add t u else u | _ => u end)
    usedT (index_imports 0 imports).

(** ** The closure over type definitions *)

Definition close_round (types : list TypeDef) (usedT : list Z) : list Z :=
  foldl (λ u ti, match js_at types ti with Some td => collectRefsFromTypeDef td u | None => u end) usedT usedT.

(** [while (chg)]: a round changed something when the set grew. *)
Fixpoint close_types (fuel : nat) (types : list TypeDef) (usedT : list Z) : result (list Z) :=
  match fuel with
  | O => Err OutOfFuel
  | S f =>
      let usedT' := close_round types usedT in
      if (length usedT <? length usedT')%nat then close_types f types usedT' else Ok usedT'
  end.

(** Every index that a type mentions, and one. *)
Definition close_fuel (types : list TypeDef) : nat := S (S (sum_list_with (λ td, length (collectRefsFromTypeDef td [])) types)).

(** ** The remap tables *)

(** [for (o = 0; o < total; o++)]: the survivors get the next index. *)
Definition compact (survives : Z → bool) (total : Z) : jsmap Z Z :=
  (foldl (λ (s : Z * jsmap Z Z) o, if survives o then (s.1 + 1, if o =? s.1 then s.2 else jm_set s.2 o s.1) else s) (0, []) (seqZ 0 total)).2.

(** [targetsByOldIndex] *)
Definition targets (survives : Z → bool) (total : Z) : list (option Z) :=
  (foldl (λ (s : Z * list (option Z)) o, if survives o then (s.1 + 1, s.2 ++ [Some s.1]) else (s.1, s.2 ++ [None])) (0, []) (seqZ 0 total)).2.

(** The elements whose index survives. *)
Definition survivors {A} (survives : Z → bool) (l : list A) : list A :=
  omap (λ p : Z * A, if survives p.1 then Some p.2 else None) (zip (seqZ 0 (Z.of_nat (length l))) l).

(** ** Rewriting the module *)

Section rewrite.
Context (fR tR : jsmap Z Z).

Definition remap_import (i : Import_) : Import_ :=
  mkImport_ (im_module i) (im_name i)
    match im_desc i with
    | IFunc t => IFunc (remap_index tR t)
    | ITag t => ITag (remap_index tR t)
    | IGlobal type mutable => IGlobal (remapVT type tR) mutable
    | d => d
    end.

Definition remap_function (f : PFunction) : PFunction :=
  mkPFunction (pf_id f) (pf_name f) (remap_index tR (pf_typeIdx f)) ((λ t, remapVT t tR) <$> pf_locals f) (pf_body f).

Definition remap_export (x : WasmExport) : WasmExport :=
  mkWasmExport (ex_name x) (ex_kind x) (match ex_kind x with XFunc => remap_index fR (ex_index x) | _ => ex_index x end).

Definition remap_element (e : PElement) : PElement := mkPElement (pe_tableIdx e) (pe_offset e) (remap_index fR <$> pe_funcIndices e).

Definition remap_global (g : PGlobal) : PGlobal := mkPGlobal (pg_name g) (remapVT (pg_type g) tR) (pg_mutable g) (pg_init g).

Definition remap_tag (t : TagDef) : TagDef := mkTagDef (td_name t) (remap_index tR (td_typeIdx t)).

(** The bodies, in the order functions, element offsets, global initialisers; [seen] is
    shared by all of them. *)
Definition body_roots (m : PModule) : list Z := (pf_body <$> p_functions m) ++ (pe_offset <$> p_elements m) ++ (pg_init <$> p_globals m).

Definition remap_bodies (m : PModule) (st : instr_store) : result instr_store :=
  match fR, tR with
  | [], [] => Ok st
  | _, _ => rm_store <$> for_each (body_roots m) (remapLayoutInBodyShared fR tR) (mkRemapping st ∅ ∅)
  end.

Definition remap_module (types : list TypeDef) (group : option (Z * Z)) (imports : list Import_) (m : PModule) : PModule :=
  mkPModule types group (remap_import <$> imports) (remap_function <$> p_functions m) (remap_export <$> p_exports m) (p_tables m)
    (remap_element <$> p_elements m) (remap_global <$> p_globals m) (remap_tag <$> p_tags m) (remap_index fR <$> p_declaredFuncRefs m)
    (p_funcOrdinalToPosition m) (p_memories m) (p_dataSegments m) (remap_index fR <$> p_startFuncIdx m).

(** The tables of the codegen context that hold function indices. *)
Definition remap_map {K} (t : jsmap K Z) : jsmap K Z := (λ e, (e.1, remap_index fR e.2)) <$> t.

Definition remap_side (side : jsmap jsstr Z * SideTables) : jsmap jsstr Z * SideTables :=
  match fR with
  | [] => side
  | _ => (remap_map side.1,
          mkSide (remap_map (nativeStrHelpers side.2)) (remap_map (nativeRegexHelpers side.2)) (remap_map (mapHelpers side.2))
            ((λ t, (remap_index fR t.1, remap_index fR t.2)) <$> pendingMethodTrampolines side.2)
            (nativeGenerators side.2) (asyncScheduler side.2) (promiseCombinators side.2))
  end.
End rewrite.

(** The state of the pass: the module, the objects, the set of stubbed functions, and
    [funcMap] with the side tables when a context is given. *)
Record elim_state := mkElim {
  el_module : PModule; el_store : instr_store; el_stubbed : gset Z; el_side : option (jsmap jsstr Z * SideTables) }.

Section eliminate.
Context (applyTypeLayoutRemap : list TypeDef → list TypeDef → list (option Z) → result ()).

Definition canonical_group (targetsByOldIndex : list (option Z)) (group : option (Z * Z)) : result (option (Z * Z)) :=
  match group with
  | None => Ok None
  | Some (s, e) =>
      match js_at targetsByOldIndex s, js_at targetsByOldIndex e with
      | Some (Some s), Some (Some e) => Ok (Some (s, e))
      | Some None, _ | _, Some None => throw EError (js "canonical runtime rec-group was removed during type compaction (#2527)")
      | _, _ => Err NotModelled
      end
  end.

Definition eliminateDeadImports (sweepUnreachableFunctions : bool) (s : elim_state) : result elim_state :=
  let m := el_module s in
  let numImpF := count_if is_func_import (p_imports m) in
  used ← collect_module (el_store s) m;
  '(m, stubbed, st) ← (if sweepUnreachableFunctions then
      live ← reachableFunctionPositions (el_store s) m LATE_PASS_HELPER_ROOTS;
      Ok (stubUnreachableFunctions live (el_stubbed s) m (el_store s))
    else Ok (m, el_stubbed s, el_store s));
  let deadF := dead_imports (usedFuncs used) (p_imports m) in
  usedT ← close_types (close_fuel (p_types m)) (p_types m) (use_signatures deadF (p_imports m) (usedTypes used));
  let survives_f o := negb (bool_decide (o ∈ deadF)) in
  let survives_t o := bool_decide (o ∈ usedT) in
  let numTypes := Z.of_nat (length (p_types m)) in
  let fR := if decide (deadF = []) then [] else compact survives_f (numImpF + Z.of_nat (length (p_functions m))) in
  let tR := compact survives_t numTypes in
  let targetsByOldIndex := targets survives_t numTypes in
  let rem := Z.of_nat (length (filter (λ o, survives_t o = false) (seqZ 0 numTypes))) in
  if bool_decide (fR = []) && bool_decide (tR = []) && bool_decide (deadF = []) && (rem =? 0) then Ok (mkElim m st stubbed (el_side s))
  else
    let types := if 0 <? rem then (λ td, remapTD td tR) <$> survivors survives_t (p_types m) else p_types m in
    _ ← (if 0 <? rem then match el_side s with Some _ => applyTypeLayoutRemap (p_types m) types targetsByOldIndex | None => Ok tt end else Ok tt);
    let imports := (λ p, p.2) <$> filter (λ p, import_survives deadF p = true) (index_imports 0 (p_imports m)) in
    group ← (if 0 <? rem then canonical_group targetsByOldIndex (p_canonicalRuntimeRecGroup m) else Ok (p_canonicalRuntimeRecGroup m));
    st ← remap_bodies fR tR m st;
    Ok (mkElim (remap_module fR tR types group imports m) st stubbed (remap_side fR <$> el_side s)).
End eliminate.
