(* ===== verification/DeadElimOk.v ===== *)
(** What the collection of references and the remapping in place of
    src/codegen/dead-elimination.ts do to the instruction store. *)

From S2P Require Import Prelude WasmModel WasmEncode WasmCheck InstrGraph InstrWalk FuncSweep DeadElim.

(** * Collection *)

Definition use_funcs (u : use) : list Z := match u with UFunc h => [h] | _ => [] end.
Definition use_types (u : use) : list Z :=
  match u with UType t | USignature t | UHeapType t | UField t _ => [t] | _ => [] end.

(** [r'] has what [r] has and the references [us]. *)
Definition adds (us : list use) (r r' : liveness) : Prop :=
  (∀ h, h ∈ usedFuncs r' ↔ h ∈ usedFuncs r ∨ h ∈ us ≫= use_funcs) ∧
  (∀ t, t ∈ usedTypes r' ↔ t ∈ usedTypes r ∨ t ∈ us ≫= use_types).

Lemma elem_set_add x y s : x ∈ set_add y s ↔ x ∈ s ∨ x = y.
Proof. unfold set_add. case_bool_decide; [naive_solver|]. by rewrite elem_of_app, list_elem_of_singleton. Qed.

Lemma adds_nil r : adds [] r r.
Proof. split; intros x; cbn; rewrite elem_of_nil; tauto. Qed.

Lemma adds_app us1 us2 r1 r2 r3 : adds us1 r1 r2 → adds us2 r2 r3 → adds (us1 ++ us2) r1 r3.
Proof. intros [A1 A2] [B1 B2]. split; intros x; [rewrite B1, A1|rewrite B2, A2]; rewrite bind_app, elem_of_app; tauto. Qed.

Lemma adds_func h r : adds [UFunc h] r (use_func h r).
Proof. split; intros x; cbn; rewrite ?elem_set_add, ?list_elem_of_singleton, ?elem_of_nil; tauto. Qed.

Lemma adds_type u t r : use_funcs u = [] → use_types u = [t] → adds [u] r (use_type t r).
Proof. intros Hf Ht. split; intros x; csimpl; rewrite ?Hf, ?Ht, ?elem_set_add; cbn; rewrite ?list_elem_of_singleton, ?elem_of_nil; tauto. Qed.

Lemma adds_valtype vt r : adds (valtype_uses vt) r (use_valtype vt r).
Proof. destruct r, vt; try apply adds_nil; by apply (adds_type (UHeapType _)). Qed.

Lemma adds_blocktype bt r : adds (blocktype_uses bt) r (mkLive (usedFuncs r) (collectBlockTypeRefs bt (usedTypes r))).
Proof. destruct bt as [|vt|t]; [destruct r; apply adds_nil|apply adds_valtype|by apply (adds_type (USignature t))]. Qed.

Lemma adds_foldl {X} (f : X → list use) (g : liveness → X → liveness) xs r :
  (∀ x r, adds (f x) r (g r x)) → adds (xs ≫= f) r (foldl g r xs).
Proof.
  intros Hf. revert r. induction xs as [|x xs IH]; intros r; [apply adds_nil|]. cbn [foldl]. rewrite bind_cons.
  eapply adds_app; [apply Hf|apply IH].
Qed.

(** References that name neither a function nor a type count for nothing. *)
Lemma adds_ext us us' r r' :
  (∀ h, h ∈ us ≫= use_funcs ↔ h ∈ us' ≫= use_funcs) → (∀ t, t ∈ us ≫= use_types ↔ t ∈ us' ≫= use_types) → adds us r r' → adds us' r r'.
Proof. intros Hf Ht [A1 A2]. split; intros x; [rewrite A1, Hf|rewrite A2, Ht]; done. Qed.

Lemma adds_leaf i r : is_leaf i = true →
  adds (instr_uses i) r
    (foldl (λ r t, use_type t r) (match leaf_funcIdx i with Some h => use_func h r | None => r end) (leaf_typeIdxs i)).
Proof.
  intros Hl. assert (∀ us, (us ≫= use_funcs) = [] → (us ≫= use_types) = [] → adds us r r) as Hnone.
  { intros us Hf Ht. apply (adds_ext []); [by rewrite Hf|by rewrite Ht|apply adds_nil]. }
  destruct i; try done; cbn; first
    [ by apply Hnone | apply adds_func | by apply (adds_type (UType _)) | by apply (adds_type (UHeapType _))
    | by apply (adds_type (USignature _)) | by apply (adds_type (UField _ _)) | idtac ].
  - eapply (adds_app [UType _] [UType _]); by apply adds_type.
Qed.

(** An object adds its own references. *)
Lemma adds_object st id n r read i :
  s_objects st !! id = Some n → node_reads st read n i → adds (node_uses st n) r (collect_object st id r).
Proof.
  intros Hn Hr. unfold collect_object. rewrite Hn.
  assert (∀ bt rest, (rest ≫= use_funcs) = [] → (rest ≫= use_types) = [] →
    adds (blocktype_uses bt ++ rest) r (mkLive (usedFuncs r) (collectBlockTypeRefs bt (usedTypes r)))) as Hbt.
  { intros bt rest Hf Ht. eapply adds_ext; [| |apply adds_blocktype]; intros x; by rewrite bind_app, ?Hf, ?Ht, app_nil_r. }
  assert (∀ cs : list Z, ((UTag <$> cs) ≫= use_funcs) = [] ∧ ((UTag <$> cs) ≫= use_types) = []) as Htags.
  { intros cs. induction cs; [done|]. csimpl. done. }
  assert (∀ cs, ((cs ≫= catch_uses) ≫= use_funcs) = [] ∧ ((cs ≫= catch_uses) ≫= use_types) = []) as Hcatch.
  { intros cs. induction cs as [|[[] [] ?] cs IH]; [done|..]; csimpl; exact IH. }
  destruct n as [j|bt b|bt b|bt th el|bt b cs ca|bt b cs]; cbn [node_reads node_uses node_blockType] in *.
  - apply adds_leaf, Hr.
  - destruct Hr as (t & l & Ht & _). csimpl. rewrite Ht. apply adds_blocktype.
  - destruct Hr as (t & l & Ht & _). csimpl. rewrite Ht. apply adds_blocktype.
  - destruct Hr as (t & l & k & Ht & _). csimpl. rewrite Ht. apply adds_blocktype.
  - destruct Hr as (t & l & ks & k & Ht & _). csimpl. rewrite Ht. apply Hbt; apply Htags.
  - destruct Hr as (t & l & Ht & _). csimpl. rewrite Ht. apply Hbt; apply Hcatch.
Qed.

(** collectRefsFromBody adds the references of the tree. *)
Lemma collect_body st d body l r :
  read_body d st body = Some l → ∃ r', collectRefsFromBody st body r = Ok r' ∧ adds (l ≫= instr_uses) r r'.
Proof.
  intros Hr. unfold collectRefsFromBody.
  destruct (visit_rec_ok (elements_of st) (children_of st) (collect_object st) (dom (s_arrays st)) (array_fuel st) body ∅ r)
    as (vis & news & trace & -> & [A1 A2 A3 A4 A5 A6] & Hroot).
  { intros b Hb. by eapply read_inside_dom. }
  { unfold left_over, array_fuel. apply Nat.lt_succ_r, subseteq_size. set_solver. }
  eexists. split; [done|]. cbn.
  assert (∀ id, id ∈ trace ↔ holds_object st body id) as Htr.
  { intros id. eapply closed_complete; [|exact A5|exact A6|apply Hroot; left|exact A4]. set_solver. }
  assert (∀ id, id ∈ trace → ∃ n read i, s_objects st !! id = Some n ∧ node_reads st read n i) as Hnodes.
  { intros id (b & Hb & Hid)%Htr. destruct (read_inside st _ _ Hb _ _ Hr) as ([|d'] & k & Hk); [done|].
    apply read_body_S in Hk as (ids & Ha & Hall). unfold elements_of in Hid. rewrite Ha in Hid. cbn in Hid.
    apply list_elem_of_lookup in Hid as [j Hj]. destruct (Forall2_lookup_l _ _ _ _ _ Hall Hj) as (i & _ & Hi).
    apply read_node_iff in Hi as (n & ? & ?). by exists n, (read_body d' st), i. }
  assert (adds (trace ≫= λ id, default [] (node_uses st <$> s_objects st !! id)) r (do_all (collect_object st) trace r)) as Hadds.
  { clear -Hnodes. unfold do_all. revert r. induction trace as [|id trace IH]; intros r; [apply adds_nil|]. rewrite bind_cons. cbn [foldl].
    eapply adds_app; [|apply IH; intros; apply Hnodes; by right]. destruct (Hnodes id ltac:(left)) as (n & read & i & Hn & Hi).
    rewrite Hn. cbn. by eapply adds_object. }
  assert (∀ u, u ∈ trace ≫= (λ id, default [] (node_uses st <$> s_objects st !! id)) ↔ u ∈ l ≫= instr_uses) as Hu.
  { intros u. rewrite (body_uses st _ _ _ _ Hr), list_elem_of_bind. split.
    - intros (id & Hu & Hid). apply Htr in Hid. destruct (s_objects st !! id) as [n|] eqn:En; [|by apply not_elem_of_nil in Hu]. by exists id, n.
    - intros (id & n & Hid & Hn & Hu). exists id. rewrite Hn. cbn. split; [done|]. by apply Htr. }
  eapply adds_ext; [| |exact Hadds]; intros x; rewrite !list_elem_of_bind; by setoid_rewrite Hu.
Qed.

(** * Remapping in place *)

Lemma remap_index_none m x : jm_has m x = false → remap_index m x = x.
Proof. unfold jm_has, remap_index. by destruct (jm_get m x). Qed.

Section remap.
Context (fR tR : jsmap Z Z).

(** The tree with its indices renamed. *)
Fixpoint ren_instr (i : Instr) : Instr :=
  match i with
  | Block bt body => Block (remap_blockType tR bt) (ren_instr <$> body)
  | Loop bt body => Loop (remap_blockType tR bt) (ren_instr <$> body)
  | If bt th el => If (remap_blockType tR bt) (ren_instr <$> th) (match el with Some l => Some (ren_instr <$> l) | None => None end)
  | Try bt body cs ca =>
      Try (remap_blockType tR bt) (ren_instr <$> body) ((λ c : Z * list Instr, (c.1, ren_instr <$> c.2)) <$> cs)
        (match ca with Some l => Some (ren_instr <$> l) | None => None end)
  | TryTable bt body cs => TryTable (remap_blockType tR bt) (ren_instr <$> body) cs
  | i => leaf_map (remap_index fR) (remap_index tR) i
  end.

Lemma ren_leaf i : is_leaf i = true → ren_instr i = leaf_map (remap_index fR) (remap_index tR) i.
Proof. by destruct i. Qed.

Definition node_map (n : InstrNode) : InstrNode :=
  match n with NLeaf i => NLeaf (leaf_map (remap_index fR) (remap_index tR) i) | n => n end.

Lemma node_map_children n : walkChildren (node_map n) = walkChildren n.
Proof. by destruct n. Qed.

Lemma leaf_unchanged i : leaf_changes fR tR i = false → leaf_map (remap_index fR) (remap_index tR) i = i.
Proof.
  unfold leaf_changes. intros [Hf Ht]%orb_false_iff. rewrite existsb_none in Ht.
  destruct i; cbn in *; try done; rewrite ?(remap_index_none fR) by done; try done; rewrite ?(remap_index_none tR) by (apply Ht; set_solver); done.
Qed.

Lemma leaf_map_leaf f t i : is_leaf (leaf_map f t i) = is_leaf i.
Proof. by destruct i. Qed.

Lemma blockType_unchanged bt : blockType_changes tR bt = false → remap_blockType tR bt = bt.
Proof. destruct bt as [|[] |t]; cbn; try done; intros Hb; by rewrite remap_index_none. Qed.

(** [st'] is [st] with the objects [V] and their block types renamed. *)
Definition block_types_of (st : instr_store) (V : list Z) : list Z :=
  V ≫= λ id, match s_objects st !! id ≫= node_blockType with Some b => [b] | None => [] end.

Record remapped (st : instr_store) (V : list Z) (s : remapping) : Prop := {
  rp_arrays : s_arrays (rm_store s) = s_arrays st;
  rp_objects id : s_objects (rm_store s) !! id = (λ n, if decide (id ∈ V) then node_map n else n) <$> s_objects st !! id;
  rp_blockTypes b : s_blockTypes (rm_store s) !! b =
    (λ t, if decide (b ∈ block_types_of st V) then remap_blockType tR t else t) <$> s_blockTypes st !! b;
  rp_seen id : id ∈ rm_seenObjects s ↔ id ∈ V ∧ ∃ i, s_objects st !! id = Some (NLeaf i) ∧ leaf_changes fR tR i = true;
  rp_seenTypes b : b ∈ rm_seenBlockTypes s ↔
    b ∈ block_types_of st V ∧ ∃ t, s_blockTypes st !! b = Some t ∧ blockType_changes tR t = true }.

Lemma remapped_start st : remapped st [] (mkRemapping st ∅ ∅).
Proof. split; intros; cbn; try set_solver; by destruct (_ !! _). Qed.

(** What was not renamed yet, or needs no renaming, is as it was. *)
Lemma leaf_now st V s id i : remapped st V s → id ∉ rm_seenObjects s →
  s_objects (rm_store s) !! id = Some (NLeaf i) → s_objects st !! id = Some (NLeaf i).
Proof.
  intros [_ Ho _ Hs _] Hn Hi. rewrite Ho in Hi. destruct (s_objects st !! id) as [n|] eqn:En; [|done]. cbn in Hi.
  case_decide as Hv; [|done]. destruct n as [j| | | | |]; cbn in Hi; try done. injection Hi as <-.
  destruct (leaf_changes fR tR j) eqn:Ec; [|by rewrite leaf_unchanged].
  exfalso. apply Hn, Hs. split; [done|]. by exists j.
Qed.

Lemma blockType_now st V s b t : remapped st V s → b ∉ rm_seenBlockTypes s →
  s_blockTypes (rm_store s) !! b = Some t → s_blockTypes st !! b = Some t.
Proof.
  intros [_ _ Hb _ Hs] Hn Ht. rewrite Hb in Ht. destruct (s_blockTypes st !! b) as [t0|] eqn:Et; [|done]. cbn in Ht.
  case_decide as Hv; [|done]. injection Ht as <-. destruct (blockType_changes tR t0) eqn:Ec; [|by rewrite blockType_unchanged].
  exfalso. apply Hn, Hs. split; [done|]. by exists t0.
Qed.

Lemma block_types_cons st V id b :
  b ∈ block_types_of st (id :: V) ↔ (s_objects st !! id ≫= node_blockType) = Some b ∨ b ∈ block_types_of st V.
Proof.
  unfold block_types_of. rewrite bind_cons, elem_of_app. destruct (s_objects st !! id ≫= node_blockType) as [b'|].
  - rewrite list_elem_of_singleton. naive_solver.
  - rewrite elem_of_nil. naive_solver.
Qed.

(** Visiting an object that has no block type or a known one, without a change to it. *)
Lemma remapped_skip st V s id :
  remapped st V s →
  (∀ n, s_objects st !! id = Some n → id ∈ V ∨ node_map n = n) →
  (∀ n b, s_objects st !! id = Some n → node_blockType n = Some b →
    b ∈ block_types_of st V ∨ ∀ t, s_blockTypes st !! b = Some t → blockType_changes tR t = false) →
  (∀ i, s_objects st !! id = Some (NLeaf i) → id ∈ V ∨ leaf_changes fR tR i = false) → remapped st (id :: V) s.
Proof.
  intros [Ha Ho Hb Hs Ht] Hn Hbt Hl.
  assert (∀ b t, b ∈ block_types_of st (id :: V) → s_blockTypes st !! b = Some t → b ∈ block_types_of st V ∨ blockType_changes tR t = false) as Hnew.
  { intros b t [Hx|Hx]%block_types_cons Et; [|by left]. destruct (s_objects st !! id) as [n|] eqn:En; [|done]. csimpl in Hx.
    destruct (Hbt n b eq_refl Hx) as [?|Hq]; [by left|right; by apply Hq]. }
  split; [done| | | |].
  - intros j. rewrite Ho. destruct (s_objects st !! j) as [n|] eqn:En; [|done]. cbn. f_equal.
    destruct (decide (j ∈ V)); [by rewrite decide_True by (by right)|]. case_decide as Hj; [|done].
    apply elem_of_cons in Hj as [->|?]; [|done]. by destruct (Hn n En) as [?| ->].
  - intros b. rewrite Hb. destruct (s_blockTypes st !! b) as [t|] eqn:Et; [|done]. cbn. f_equal.
    destruct (decide (b ∈ block_types_of st V)); [by rewrite decide_True by (apply block_types_cons; by right)|].
    case_decide as Hx; [|done]. destruct (Hnew b t Hx Et); [done|]. by rewrite blockType_unchanged.
  - intros j. rewrite Hs. split; [intros (? & ?); split; [by right|done]|]. intros (Hj & i & Hi & Hc). split; [|by exists i].
    apply elem_of_cons in Hj as [->|?]; [|done]. destruct (Hl i Hi); [done|congruence].
  - intros b. rewrite Ht. split; [intros (? & ?); split; [apply block_types_cons; by right|done]|]. intros (Hx & t & Et & Hc).
    split; [|by exists t]. destruct (Hnew b t Hx Et); [done|congruence].
Qed.

(** The block type of an object. *)
Lemma remap_blockType_spec st V s id n bt :
  remapped st V s → s_objects st !! id = Some n → node_blockType n = Some bt →
  remapped st (id :: V)
    (if bool_decide (bt ∈ rm_seenBlockTypes s) then s
     else match s_blockTypes (rm_store s) !! bt with
          | Some t => if blockType_changes tR t then
              mkRemapping (mkStore (s_objects (rm_store s)) (s_arrays (rm_store s)) (<[bt := remap_blockType tR t]> (s_blockTypes (rm_store s))))
                (rm_seenObjects s) ({[bt]} ∪ rm_seenBlockTypes s) else s
          | None => s end).
Proof.
  intros Hrp En Ebt. pose proof Hrp as [Ha Ho Hb Hs Ht].
  assert (node_map n = n) as Hmap by (by destruct n).
  assert (∀ i, n ≠ NLeaf i) as Hleaf by (by intros i ->).
  assert (∀ b, b ∈ block_types_of st V ∨ (∀ t, s_blockTypes st !! b = Some t → blockType_changes tR t = false) → Some bt = Some b →
    remapped st (id :: V) s) as Hskip.
  { intros b Hcase [= <-]. apply remapped_skip; [done|..].
    - intros n' Hn'. right. by simplify_eq.
    - intros n' b' Hn' Hb'. by simplify_eq.
    - intros i Hi. rewrite En in Hi. injection Hi as ->. by destruct (Hleaf i). }
  case_bool_decide as Hseen.
  { apply Ht in Hseen as [Hv _]. eapply Hskip; [by left|done]. }
  destruct (s_blockTypes (rm_store s) !! bt) as [t|] eqn:Et.
  2:{ rewrite Hb in Et. apply fmap_None in Et. eapply Hskip; [right|done]. naive_solver. }
  pose proof (blockType_now st V s bt t Hrp Hseen Et) as Et0.
  destruct (blockType_changes tR t) eqn:Ec; [|eapply Hskip; [right|done]; intros t' Et'; by simplify_eq].
  assert (∀ b, b ∈ block_types_of st (id :: V) ↔ b = bt ∨ b ∈ block_types_of st V) as Hcons.
  { intros b. rewrite block_types_cons, En. csimpl. rewrite Ebt. naive_solver. }
  split; cbn [rm_store s_objects s_arrays s_blockTypes rm_seenObjects rm_seenBlockTypes].
  - done.
  - intros j. rewrite Ho. destruct (s_objects st !! j) as [nj|] eqn:Ej; [|done]. cbn. f_equal.
    destruct (decide (j ∈ V)); [by rewrite decide_True by (by right)|]. case_decide as Hj; [|done].
    apply elem_of_cons in Hj as [->|?]; [|done]. congruence.
  - intros b. destruct (decide (b = bt)) as [->|Hne].
    + rewrite lookup_insert_eq, Et0. cbn. by rewrite decide_True by (apply Hcons; by left).
    + rewrite lookup_insert_ne, Hb by done. destruct (s_blockTypes st !! b); [|done]. cbn. pose proof (Hcons b). do 2 case_decide; naive_solver.
  - intros j. rewrite Hs, elem_of_cons. split; [naive_solver|]. intros ([->|?] & i & Hi & ?); [|naive_solver].
    rewrite En in Hi. injection Hi as ->. by destruct (Hleaf i).
  - intros b. rewrite elem_of_union, elem_of_singleton, Ht, Hcons. naive_solver.
Qed.

(** A second visit changes nothing. *)
Lemma remap_object_spec st V s id : remapped st V s → remapped st (id :: V) (remap_object fR tR id s).
Proof.
  intros Hrp. pose proof Hrp as [Ha Ho Hb Hs Ht]. unfold remap_object. case_bool_decide as Hseen.
  { apply Hs in Hseen as (Hv & i & Hi & Hch). apply remapped_skip; [done|by left| |by left]. intros n b Hn. rewrite Hi in Hn. by injection Hn as <-. }
  destruct (s_objects (rm_store s) !! id) as [n|] eqn:En.
  2:{ rewrite Ho in En. apply fmap_None in En. apply remapped_skip; [done|naive_solver..]. }
  assert (s_objects st !! id = Some n) as En0.
  { destruct n as [i| | | | |]; [by eapply leaf_now|..]; rewrite Ho in En; destruct (s_objects st !! id) as [[]|]; cbn in En; try case_decide; done. }
  destruct n as [i|bt b|bt b|bt th el|bt b cs ca|bt b cs].
  { destruct (leaf_changes fR tR i) eqn:Ec.
    - split; cbn [rm_store s_objects s_arrays s_blockTypes rm_seenObjects rm_seenBlockTypes].
      + done.
      + intros j. destruct (decide (j = id)) as [->|Hne].
        * rewrite lookup_insert_eq, En0. cbn. by rewrite decide_True by left.
        * rewrite lookup_insert_ne, Ho by done. destruct (s_objects st !! j); [|done]. cbn. do 2 case_decide; try done; set_solver.
      + intros x. rewrite Hb. destruct (s_blockTypes st !! x); [|done]. cbn. pose proof (block_types_cons st V id x) as Hx. rewrite En0 in Hx. csimpl in Hx.
        do 2 case_decide; naive_solver.
      + intros j. rewrite elem_of_union, elem_of_singleton, Hs, elem_of_cons. naive_solver.
      + intros x. rewrite Ht, block_types_cons, En0. csimpl. naive_solver.
    - apply remapped_skip; [done|..].
      + intros n Hn. rewrite En0 in Hn. injection Hn as <-. right. cbn. by rewrite leaf_unchanged.
      + intros n x Hn. rewrite En0 in Hn. by injection Hn as <-.
      + intros j Hj. rewrite En0 in Hj. injection Hj as <-. by right. }
  all: by eapply remap_blockType_spec.
Qed.

Lemma remapped_store st V s : remapped st V s → elements_of (rm_store s) = elements_of st ∧ ∀ id, children_of (rm_store s) id = children_of st id.
Proof.
  intros [Ha Ho _ _ _]. unfold elements_of, children_of. rewrite Ha. split; [done|]. intros id. rewrite Ho.
  destruct (s_objects st !! id); [|done]. cbn. case_decide; [apply node_map_children|done].
Qed.

Lemma remapped_all st V s trace : remapped st V s → remapped st (reverse trace ++ V) (visit_all (remap_object fR tR) trace s).
Proof.
  revert V s. induction trace as [|id trace IH]; intros V s Hr; [done|]. rewrite reverse_cons, <- app_assoc. cbn.
  apply IH. by apply remap_object_spec.
Qed.

(** One body: its objects are renamed, once. *)
Lemma remap_body st V s root d l :
  remapped st V s → read_body d st root = Some l →
  ∃ s' V', remapLayoutInBodyShared fR tR root s = Ok s' ∧ remapped st V' s' ∧ ∀ id, id ∈ V' ↔ id ∈ V ∨ holds_object st root id.
Proof.
  intros Hrp Hr. destruct (remapped_store _ _ _ Hrp) as [He Hc]. unfold remapLayoutInBodyShared, dag_fuel. rewrite He.
  destruct (walk_dag (elements_of st) (λ s, children_of (rm_store s)) (remap_object fR tR) (children_of st) (λ s, ∃ V, remapped st V s))
    with (V0 := (∅ : gset Z)) (root := root) (universe := elements (dom (s_arrays st))) (acc := s)
         (fuel := sum_list_with (λ a, S (length (elements_of st a))) (elements (dom (s_arrays (rm_store s)))))
    as (v & news & trace & E & [W1 W2 W3 W4 W5 W6] & Hcl & Hroot).
  - intros a j (V' & Hv). by apply remapped_store in Hv as [_ ?].
  - intros a i (V' & Hv). eexists. by apply remap_object_spec.
  - intros b Hb. apply elem_of_elements. by eapply read_inside_dom.
  - by exists V.
  - rewrite (rp_arrays _ _ _ Hrp). apply Nat.eq_le_incl. clear. induction (elements (dom (s_arrays st))) as [|a k IH]; [done|].
    cbn [sum_list_with]. rewrite IH. unfold unvisited_cost. rewrite bool_decide_false by set_solver. done.
  - exists (visit_all (remap_object fR tR) trace s), (reverse trace ++ V). rewrite E. split_and!; [done|by apply remapped_all|].
    intros id. rewrite elem_of_app, elem_of_reverse. rewrite (closed_complete (elements_of st) (children_of st) root news trace v).
    + unfold holds_object. tauto.
    + intros b. rewrite W1. set_solver.
    + rewrite <- W5. cbn. by rewrite app_nil_r.
    + done.
    + done.
    + done.
Qed.

Lemma remap_roots st roots V s :
  remapped st V s → (∀ r, r ∈ roots → ∃ d l, read_body d st r = Some l) →
  ∃ s' V', for_each roots (remapLayoutInBodyShared fR tR) s = Ok s' ∧ remapped st V' s' ∧
    ∀ id, id ∈ V' ↔ id ∈ V ∨ ∃ r, r ∈ roots ∧ holds_object st r id.
Proof.
  revert V s. induction roots as [|r roots IH]; intros V s Hrp Hroots.
  { exists s, V. split_and!; [done..|]. intros id. set_solver. }
  cbn [for_each]. destruct (Hroots r ltac:(left)) as (d & l & Hr). destruct (remap_body st V s r d l Hrp Hr) as (s1 & V1 & -> & H1 & HV1).
  cbn. destruct (IH V1 s1 H1) as (s' & V' & E & H' & HV'); [intros; apply Hroots; by right|].
  exists s', V'. split_and!; [done..|]. intros id. rewrite HV', HV1. setoid_rewrite elem_of_cons. naive_solver.
Qed.

(** ** Reading the renamed store *)

Lemma elem_block_types st V id n b : id ∈ V → s_objects st !! id = Some n → node_blockType n = Some b → b ∈ block_types_of st V.
Proof. intros Hv Hn Hb. unfold block_types_of. apply list_elem_of_bind. exists id. rewrite Hn. csimpl. rewrite Hb. split; [left|done]. Qed.

Lemma read_renamed st V s : remapped st V s → ∀ d a l,
  read_body d st a = Some l → (∀ id, holds_object st a id → id ∈ V) → read_body d (rm_store s) a = Some (ren_instr <$> l).
Proof.
  intros [Ha Ho Hb _ _] d. induction d as [|d IH]; intros a l Hr Hin; [done|].
  pose proof Hr as (ids & Ea & Hall)%read_body_S. apply read_body_S. exists ids. rewrite Ha. split; [done|].
  apply Forall2_fmap_r. apply Forall2_same_length_lookup. split; [by eapply Forall2_length|]. intros j id i Hid Hi.
  pose proof (Forall2_lookup_lr _ _ _ _ _ _ Hall Hid Hi) as Hrd. apply read_node_iff in Hrd as (n & Hn & Hrd). apply read_node_iff.
  assert (id ∈ elements_of st a) as Hel by (unfold elements_of; rewrite Ea; by eapply list_elem_of_lookup_2).
  assert (id ∈ V) as Hv by (apply Hin; by exists a).
  exists (node_map n). rewrite Ho, Hn. cbn. rewrite decide_True by done. split; [done|].
  assert (∀ c k, c ∈ walkChildren n → read_body d st c = Some k → read_body d (rm_store s) c = Some (ren_instr <$> k)) as Hkids.
  { intros c k Hc Hk. apply IH; [done|]. intros id' (b & Hcb & Hid'). apply Hin. exists b. split; [|done]. eapply rtc_l; [|exact Hcb].
    exists id. split; [done|]. unfold children_of. by rewrite Hn. }
  assert (∀ b t, node_blockType n = Some b → s_blockTypes st !! b = Some t → s_blockTypes (rm_store s) !! b = Some (remap_blockType tR t)) as Hbts.
  { intros b t Eb Et. rewrite Hb, Et. cbn. by rewrite decide_True by (by eapply elem_block_types). }
  destruct n as [j'|bt b|bt b|bt th el|bt b cs ca|bt b cs]; cbn [node_reads node_map walkChildren node_blockType] in *.
  - destruct Hrd as [-> Hl]. rewrite leaf_map_leaf. split; [by apply ren_leaf|done].
  - destruct Hrd as (t & k & Et & Ek & ->). exists (remap_blockType tR t), (ren_instr <$> k). split_and!; [by apply Hbts|apply Hkids; [left|done]|done].
  - destruct Hrd as (t & k & Et & Ek & ->). exists (remap_blockType tR t), (ren_instr <$> k). split_and!; [by apply Hbts|apply Hkids; [left|done]|done].
  - destruct Hrd as (t & k & k2 & Et & Ek & Ek2 & ->). exists (remap_blockType tR t), (ren_instr <$> k), ((λ k : list Instr, ren_instr <$> k) <$> k2).
    split_and!; [by apply Hbts|apply Hkids; [left|done]| |by destruct k2].
    destruct el as [e|], k2 as [k2|]; try done. apply Hkids; [right; left|done].
  - destruct Hrd as (t & k & ks & k2 & Et & Ek & Eks & Ek2 & ->).
    exists (remap_blockType tR t), (ren_instr <$> k), ((λ c : Z * list Instr, (c.1, ren_instr <$> c.2)) <$> ks), ((λ k : list Instr, ren_instr <$> k) <$> k2).
    split_and!; [by apply Hbts|apply Hkids; [left|done]| | |by destruct k2].
    + apply Forall2_fmap_r. apply Forall2_same_length_lookup. split; [by eapply Forall2_length|]. intros x c y Hc Hy.
      destruct (Forall2_lookup_lr _ _ _ _ _ _ Eks Hc Hy) as [E1 E2]. split; [done|]. cbn. apply Hkids; [|done].
      right. apply elem_of_app. left. apply list_elem_of_fmap. exists c. split; [done|by eapply list_elem_of_lookup_2].
    + destruct ca as [e|], k2 as [k2|]; try done. apply Hkids; [right; apply elem_of_app; right; left|done].
  - destruct Hrd as (t & k & Et & Ek & ->). exists (remap_blockType tR t), (ren_instr <$> k). split_and!; [by apply Hbts|apply Hkids; [left|done]|done].
Qed.
End remap.
