(* ===== verification/DeadElimSpec.v ===== *)
(** The tables of src/codegen/dead-elimination.ts: compaction of an index space, the dead
    imports, and the closure over type definitions. *)

From S2P Require Import Prelude WasmModel WasmEncode WasmCheck InstrGraph FuncSweep DeadElim DeadElimOk.

(** * Compaction *)

Section compaction.
Context (survives : Z → bool).

(** The survivors below an index. *)
Definition rank (o : Z) : Z := Z.of_nat (length (filter (λ x, survives x = true) (seqZ 0 o))).

Lemma seqZ_snoc n : 0 ≤ n → seqZ 0 (n + 1) = seqZ 0 n ++ [n].
Proof.
  intros Hn. rewrite seqZ_app by lia. by rewrite Z.add_0_l.
Qed.

Lemma rank_0 : rank 0 = 0.
Proof. done. Qed.

Lemma rank_succ o : 0 ≤ o → rank (o + 1) = rank o + (if survives o then 1 else 0).
Proof.
  intros Ho. unfold rank. rewrite seqZ_snoc, filter_app, length_app by done. destruct (survives o) eqn:E.
  - rewrite filter_cons_True by done. cbn. lia.
  - rewrite filter_cons_False by congruence. cbn. lia.
Qed.

Lemma rank_le a b : 0 ≤ a → a ≤ b → rank a ≤ rank b.
Proof.
  intros Ha Hab. replace b with (a + Z.of_nat (Z.to_nat (b - a))) by lia. induction (Z.to_nat (b - a)) as [|n IH].
  - by rewrite Z.add_0_r.
  - replace (a + Z.of_nat (S n)) with (a + Z.of_nat n + 1) by lia. rewrite rank_succ by lia. destruct (survives _); lia.
Qed.

Lemma rank_lt a b : 0 ≤ a → a < b → survives a = true → rank a < rank b.
Proof. intros Ha Hab Hs. pose proof (rank_succ a Ha) as Hr. rewrite Hs in Hr. pose proof (rank_le (a + 1) b). lia. Qed.

Lemma rank_range o : 0 ≤ o → 0 ≤ rank o ≤ o.
Proof.
  intros Ho. unfold rank. pose proof (length_filter (λ x, survives x = true) (seqZ 0 o)) as Hl. rewrite length_seqZ in Hl. lia.
Qed.

Lemma rank_all o : (∀ x, 0 ≤ x < o → survives x = true) → 0 ≤ o → rank o = o.
Proof.
  intros Hall Ho. replace o with (Z.of_nat (Z.to_nat o)) in * by lia. induction (Z.to_nat o) as [|n IH]; [done|].
  replace (Z.of_nat (S n)) with (Z.of_nat n + 1) in * by lia. rewrite rank_succ, IH, Hall by (lia || intros; apply Hall; lia). done.
Qed.

(** After survivors only, ranks go up by one. *)
Lemma rank_above a n : 0 ≤ a → (∀ x, a ≤ x < a + n → survives x = true) → 0 ≤ n → rank (a + n) = rank a + n.
Proof.
  intros Ha Hall Hn. replace n with (Z.of_nat (Z.to_nat n)) in * by lia. induction (Z.to_nat n) as [|k IH]; [by rewrite !Z.add_0_r|].
  replace (a + Z.of_nat (S k)) with (a + Z.of_nat k + 1) by lia. rewrite rank_succ, Hall by lia.
  rewrite IH by (lia || intros; apply Hall; lia). lia.
Qed.

Lemma compact_spec n o :
  jm_get (compact survives (Z.of_nat n)) o =
    if decide (0 ≤ o < Z.of_nat n ∧ survives o = true ∧ o ≠ rank o) then Some (rank o) else None.
Proof.
  unfold compact. set (step := λ (s : Z * jsmap Z Z) o, _).
  assert ((foldl step (0, []) (seqZ 0 (Z.of_nat n))).1 = rank (Z.of_nat n) ∧
    ∀ o, jm_get (foldl step (0, []) (seqZ 0 (Z.of_nat n))).2 o =
      if decide (0 ≤ o < Z.of_nat n ∧ survives o = true ∧ o ≠ rank o) then Some (rank o) else None) as [_ H]; [|apply H].
  induction n as [|n [IH1 IH2]].
  - split; [done|]. intros x. rewrite decide_False by lia. done.
  - replace (Z.of_nat (S n)) with (Z.of_nat n + 1) by lia. rewrite seqZ_snoc, foldl_app by lia. cbn [foldl].
    destruct (foldl step (0, []) (seqZ 0 (Z.of_nat n))) as [k m]. cbn [fst snd] in IH1, IH2. subst k. unfold step. cbn [fst snd].
    rewrite rank_succ by lia. destruct (survives (Z.of_nat n)) eqn:E; cbn [fst snd].
    + split; [done|]. intros x. destruct (Z.eqb_spec (Z.of_nat n) (rank (Z.of_nat n))) as [En|En].
      * rewrite IH2. apply decide_ext. split; [intros (?&?&?); split_and!; [lia..|done|done]|].
        intros (?&?&?). split_and!; try done; try lia. destruct (decide (x = Z.of_nat n)) as [->|]; [done|lia].
      * rewrite jm_get_set. case_decide as Hx; [subst; by rewrite decide_True by (split_and!; [lia..|done|done])|].
        rewrite IH2. apply decide_ext. split; [intros (?&?&?); split_and!; [lia..|done|done]|]. intros (?&?&?). split_and!; [lia..|done|done].
    + split; [lia|]. intros x. rewrite IH2. apply decide_ext. split; [intros (?&?&?); split_and!; [lia..|done|done]|].
      intros (?&?&?). split_and!; try done; [lia|]. destruct (decide (x = Z.of_nat n)) as [->|]; [congruence|lia].
Qed.

Definition renamed (total o : Z) : Z := if decide (0 ≤ o < total ∧ survives o = true) then rank o else o.

Lemma remap_compact total o : 0 ≤ total → remap_index (compact survives total) o = renamed total o.
Proof.
  intros Ht. replace total with (Z.of_nat (Z.to_nat total)) by lia. unfold remap_index. rewrite compact_spec. unfold renamed.
  repeat case_decide; cbn; try done; try tauto. destruct (decide (o = rank o)); [done|]. tauto.
Qed.

(** ** The survivors of a list *)

Lemma survivors_snoc {A} (l : list A) x :
  survivors survives (l ++ [x]) = survivors survives l ++ (if survives (Z.of_nat (length l)) then [x] else []).
Proof.
  unfold survivors. rewrite length_app. cbn [length]. replace (Z.of_nat (length l + 1)) with (Z.of_nat (length l) + 1) by lia.
  rewrite seqZ_snoc by lia. rewrite zip_with_app by (rewrite length_seqZ; lia). rewrite omap_app. f_equal. cbn. by destruct (survives _).
Qed.

Lemma length_survivors {A} (l : list A) : Z.of_nat (length (survivors survives l)) = rank (Z.of_nat (length l)).
Proof.
  induction l as [|x l IH] using rev_ind; [done|]. rewrite survivors_snoc, !length_app. cbn [length].
  replace (Z.of_nat (length l + 1)) with (Z.of_nat (length l) + 1) by lia. rewrite rank_succ by lia. destruct (survives _); cbn; lia.
Qed.

Lemma survivors_lookup {A} (l : list A) o : survives o = true → 0 ≤ o < Z.of_nat (length l) → js_at (survivors survives l) (rank o) = js_at l o.
Proof.
  intros Hs. induction l as [|x l IH] using rev_ind; intros Ho; [cbn in Ho; lia|]. rewrite survivors_snoc. rewrite length_app in Ho. cbn in Ho.
  destruct (decide (o = Z.of_nat (length l))) as [->|Hne].
  - rewrite Hs. rewrite <- length_survivors, !js_at_nat. by rewrite !list_lookup_middle.
  - rewrite !js_at_app_l; [apply IH; lia|lia|]. rewrite length_survivors. apply rank_lt; [lia..|done].
Qed.

Lemma survivors_all {A} (l : list A) : (∀ o, 0 ≤ o < Z.of_nat (length l) → survives o = true) → survivors survives l = l.
Proof.
  induction l as [|x l IH] using rev_ind; intros Hall; [done|]. rewrite length_app in Hall. cbn in Hall.
  rewrite survivors_snoc, Hall by lia. rewrite IH; [done|]. intros o Ho. apply Hall. lia.
Qed.

Lemma targets_spec n o : 0 ≤ o < Z.of_nat n →
  js_at (targets survives (Z.of_nat n)) o = Some (if survives o then Some (rank o) else None).
Proof.
  unfold targets. set (step := λ (s : Z * list (option Z)) o, _).
  enough ((foldl step (0, []) (seqZ 0 (Z.of_nat n))).1 = rank (Z.of_nat n) ∧ length (foldl step (0, []) (seqZ 0 (Z.of_nat n))).2 = n ∧
    ∀ o, 0 ≤ o < Z.of_nat n → js_at (foldl step (0, []) (seqZ 0 (Z.of_nat n))).2 o = Some (if survives o then Some (rank o) else None))
    as (_ & _ & H) by apply H.
  induction n as [|n (IH1 & IH2 & IH3)]; [split_and!; [done|done|lia]|].
  replace (Z.of_nat (S n)) with (Z.of_nat n + 1) by lia. rewrite seqZ_snoc, foldl_app by lia. cbn [foldl].
  destruct (foldl step (0, []) (seqZ 0 (Z.of_nat n))) as [k l]. cbn [fst snd] in IH1, IH2, IH3. subst k.
  assert (step (rank (Z.of_nat n), l) (Z.of_nat n) =
    (rank (Z.of_nat n + 1), l ++ [if survives (Z.of_nat n) then Some (rank (Z.of_nat n)) else None])) as ->.
  { unfold step. cbn [fst snd]. rewrite rank_succ by lia. destruct (survives _); [done|]. by rewrite Z.add_0_r. }
  cbn [fst snd]. split_and!; [done|rewrite length_app, IH2; cbn; lia|]. intros x Hx. destruct (decide (x = Z.of_nat n)) as [->|Hne].
  - rewrite js_at_nat, <- IH2. by rewrite list_lookup_middle.
  - rewrite js_at_app_l by (rewrite IH2; lia). apply IH3. lia.
Qed.
End compaction.

(** * The closure over type definitions *)

Section closure.

Definition vt_refs (vt : ValType) : list Z := match vt with VRef t | VRefNull t => [t] | _ => [] end.

(** The type indices that a type definition mentions. *)
Fixpoint td_refs (td : TypeDef) : list Z :=
  match td with
  | TFunc params results => (params ++ results) ≫= vt_refs
  | TStruct fields superTypeIdx _ => opt_list superTypeIdx ++ (fields ≫= λ f, vt_refs (fd_type f))
  | TArray element _ => vt_refs element
  | TRec types => types ≫= td_refs
  | TSub superType _ type => opt_list superType ++ td_refs type
  end.

(** [used'] is [used] with the elements of [xs] that were not in it. *)
Definition extends (xs used used' : list Z) : Prop :=
  (∃ news, used' = used ++ news ∧ ∀ x, x ∈ news → x ∉ used) ∧ ∀ x, x ∈ used' ↔ x ∈ used ∨ x ∈ xs.

Lemma extends_nil used : extends [] used used.
Proof. split; [exists []; rewrite app_nil_r; split; [done|intros x Hx; by apply not_elem_of_nil in Hx]|]. intros x. rewrite elem_of_nil. tauto. Qed.

Lemma extends_app xs ys u1 u2 u3 : extends xs u1 u2 → extends ys u2 u3 → extends (xs ++ ys) u1 u3.
Proof.
  intros [(n1 & -> & H1) H2] [(n2 & -> & H3) H4]. split; [|intros x; rewrite H4, H2, elem_of_app; tauto].
  exists (n1 ++ n2). rewrite app_assoc. split; [done|]. intros x [Hx|Hx]%elem_of_app; [by apply H1|].
  intros Hu. apply (H3 x Hx), elem_of_app. by left.
Qed.

Lemma extends_add x used : extends [x] used (set_add x used).
Proof.
  split; [|intros y; by rewrite elem_set_add, list_elem_of_singleton]. unfold set_add. case_bool_decide.
  - exists []. rewrite app_nil_r. split; [done|]. intros y Hy. by apply not_elem_of_nil in Hy.
  - exists [x]. split; [done|]. by intros y ->%list_elem_of_singleton.
Qed.

Lemma extends_foldl {X} (f : X → list Z) (g : list Z → X → list Z) xs used :
  (∀ x u, x ∈ xs → extends (f x) u (g u x)) → extends (xs ≫= f) used (foldl g used xs).
Proof.
  revert used. induction xs as [|x xs IH]; intros used Hf; [apply extends_nil|]. rewrite bind_cons. cbn [foldl].
  eapply extends_app; [apply Hf; left|apply IH; intros; apply Hf; by right].
Qed.

Lemma extends_valtype vt used : extends (vt_refs vt) used (collectRefsFromValType vt used).
Proof. destruct vt; try apply extends_nil; apply extends_add. Qed.

Lemma extends_opt o used : extends (opt_list o) used (match o with Some s => set_add s used | None => used end).
Proof. destruct o; [apply extends_add|apply extends_nil]. Qed.

Lemma extends_typedef td : ∀ used, extends (td_refs td) used (collectRefsFromTypeDef td used).
Proof.
  revert td. fix IH 1. intros [ps rs|fs s fin|el m|types|s fin type] used; cbn [td_refs collectRefsFromTypeDef].
  - rewrite bind_app. eapply extends_app; apply extends_foldl; intros; apply extends_valtype.
  - eapply extends_app; [apply extends_opt|]. apply extends_foldl; intros; apply extends_valtype.
  - apply extends_valtype.
  - revert used. induction types as [|t types IHt]; intros used; [apply extends_nil|]. rewrite bind_cons. cbn [foldl].
    eapply extends_app; [apply IH|apply IHt].
  - eapply extends_app; [apply extends_opt|apply IH].
Qed.

Lemma elem_typedef td x : x ∈ collectRefsFromTypeDef td [] ↔ x ∈ td_refs td.
Proof. rewrite (proj2 (extends_typedef td [])), elem_of_nil. tauto. Qed.

Context (types : list TypeDef).

(** What an index leads to in one step. *)
Definition refs_at (t : Z) : list Z := match js_at types t with Some td => td_refs td | None => [] end.

Inductive needs (base : Z → Prop) : Z → Prop :=
  | needs_base t : base t → needs base t
  | needs_ref t x : needs base t → x ∈ refs_at t → needs base x.

Lemma needs_iff base base' x : (∀ t, base t ↔ base' t) → needs base x ↔ needs base' x.
Proof. intros Hb. split; induction 1; (by apply needs_base, Hb) || by eapply needs_ref. Qed.

Lemma close_round_extends used : extends (used ≫= refs_at) used (close_round types used).
Proof. unfold close_round. apply extends_foldl. intros t u _. unfold refs_at. destruct (js_at types t); [apply extends_typedef|apply extends_nil]. Qed.

(** The mentions that are not in the set yet. *)
Definition missing (used : list Z) : nat :=
  length (filter (λ x, x ∉ used) (types ≫= λ td, collectRefsFromTypeDef td [])).

Lemma elem_mentions t x : x ∈ refs_at t → x ∈ types ≫= λ td, collectRefsFromTypeDef td [].
Proof.
  unfold refs_at. destruct (js_at types t) as [td|] eqn:Et; [|intros Hx; by apply not_elem_of_nil in Hx]. intros Hx.
  apply list_elem_of_bind. exists td. rewrite elem_typedef. split; [done|]. apply js_at_Some in Et as [_ Et]. by eapply list_elem_of_lookup_2.
Qed.

Lemma missing_decreases used used' x :
  (∀ y, y ∈ used → y ∈ used') → x ∈ used' → x ∉ used → x ∈ types ≫= (λ td, collectRefsFromTypeDef td []) → (missing used' < missing used)%nat.
Proof.
  intros Hsub Hx Hn. unfold missing. generalize (types ≫= λ td, collectRefsFromTypeDef td []). intros l.
  assert (∀ l, length (filter (λ x, x ∉ used') l) ≤ length (filter (λ x, x ∉ used) l))%nat as Hle.
  { intros k. induction k as [|y k IH]; [done|]. rewrite !filter_cons. do 2 case_decide; cbn; try lia. naive_solver. }
  induction l as [|y l IH]; intros Hl; [by apply not_elem_of_nil in Hl|]. rewrite !filter_cons. apply elem_of_cons in Hl as [<-|Hl].
  - rewrite decide_False, decide_True by tauto. cbn. pose proof (Hle l). lia.
  - specialize (IH Hl). do 2 case_decide; cbn; try lia. naive_solver.
Qed.

Lemma close_types_ends fuel : ∀ used, (missing used < fuel)%nat →
  ∃ used', close_types fuel types used = Ok used' ∧ ∀ x, x ∈ used' ↔ needs (.∈ used) x.
Proof.
  induction fuel as [|fuel IH]; intros used Hf; [lia|]. cbn [close_types].
  destruct (close_round_extends used) as [(news & Eu & Hnew) Hel]. case_match eqn:Hlen.
  - apply Nat.ltb_lt in Hlen. rewrite Eu, length_app in Hlen. destruct news as [|x news]; [cbn in Hlen; lia|].
    assert (x ∈ close_round types used) as Hx by (rewrite Eu; set_solver).
    assert (missing (close_round types used) < missing used)%nat as Hm.
    { apply (missing_decreases _ _ x); [intros y; rewrite Hel; tauto|done|apply Hnew; left|].
      apply Hel in Hx as [Hx|Hx]; [exfalso; apply (Hnew x); [left|done]|]. apply list_elem_of_bind in Hx as (t & Hx & _). by eapply elem_mentions. }
    destruct (IH (close_round types used)) as (used' & E & Hu); [lia|]. exists used'. split; [done|]. intros y. rewrite Hu. split.
    + induction 1 as [t Ht|t z _ IHn Hz]; [|by eapply needs_ref]. apply Hel in Ht as [Ht|Ht]; [by apply needs_base|].
      apply list_elem_of_bind in Ht as (t0 & Ht & Ht0). by eapply needs_ref; [apply needs_base|].
    + induction 1 as [t Ht|t z _ IHn Hz]; [apply needs_base, Hel; by left|by eapply needs_ref].
  - apply Nat.ltb_ge in Hlen. rewrite Eu, length_app in Hlen. destruct news as [|y news]; [|cbn in Hlen; lia]. rewrite app_nil_r in Eu.
    exists used. rewrite Eu in *. split; [done|]. intros x. split; [by intros; apply (needs_base (.∈ used))|]. induction 1 as [t Ht|t z _ IHn Hz]; [done|].
    apply Hel. right. apply list_elem_of_bind. by exists t.
Qed.

Lemma close_types_spec used :
  ∃ used', close_types (close_fuel types) types used = Ok used' ∧ ∀ x, x ∈ used' ↔ needs (.∈ used) x.
Proof.
  apply close_types_ends. unfold close_fuel, missing. eapply Nat.le_lt_trans; [apply length_filter|].
  enough (length (types ≫= λ td, collectRefsFromTypeDef td []) = sum_list_with (λ td, length (collectRefsFromTypeDef td [])) types) by lia.
  induction types as [|td l IH]; [done|]. rewrite bind_cons, length_app, IH. done.
Qed.
End closure.
