(* ===== verification/DeadElimModule.v ===== *)
(** The module that dead import elimination stands for: the tree of a module whose bodies
    are in the store, what it refers to, and the module with its indices renamed. *)

From S2P Require Import Prelude WasmModel WasmEncode WasmCheck BinaryWriter FuncSpace IndexShift InstrGraph InstrWalk FuncSweep DeadElim DeadElimOk DeadElimSpec.

(** * Reading *)

Section reading.
Context (depth : nat) (st : instr_store).

Definition read_function (f : PFunction) : option WasmFunction :=
  body ← read_body depth st (pf_body f); Some (mkWasmFunction (pf_name f) (pf_typeIdx f) (pf_locals f) body).

Definition read_element (e : PElement) : option Element :=
  offset ← read_body depth st (pe_offset e); Some (mkElement_ (pe_tableIdx e) offset (pe_funcIndices e)).

Definition read_global (g : PGlobal) : option GlobalDef :=
  init ← read_body depth st (pg_init g); Some (mkGlobalDef (pg_name g) (pg_type g) (pg_mutable g) init).

Definition read_module (m : PModule) : option WasmModule :=
  fs ← mapM read_function (p_functions m);
  es ← mapM read_element (p_elements m);
  gs ← mapM read_global (p_globals m);
  Some (mkModule (p_types m) (p_canonicalRuntimeRecGroup m) (p_imports m) fs (p_exports m) (p_tables m) es gs (p_tags m)
    (p_declaredFuncRefs m) (p_funcOrdinalToPosition m) (p_memories m) (p_dataSegments m) (p_startFuncIdx m)).

Lemma read_module_parts m md : read_module m = Some md ↔
  ∃ fs es gs, Forall2 (λ f f', read_function f = Some f') (p_functions m) fs ∧
    Forall2 (λ e e', read_element e = Some e') (p_elements m) es ∧ Forall2 (λ g g', read_global g = Some g') (p_globals m) gs ∧
    md = mkModule (p_types m) (p_canonicalRuntimeRecGroup m) (p_imports m) fs (p_exports m) (p_tables m) es gs (p_tags m)
      (p_declaredFuncRefs m) (p_funcOrdinalToPosition m) (p_memories m) (p_dataSegments m) (p_startFuncIdx m).
Proof.
  unfold read_module. setoid_rewrite <- mapM_Some.
  destruct (mapM read_function _) as [fs|]; csimpl; [|naive_solver]. destruct (mapM read_element _) as [es|]; csimpl; [|naive_solver].
  destruct (mapM read_global _) as [gs|]; csimpl; naive_solver.
Qed.

Lemma read_function_Some f f' : read_function f = Some f' ↔
  ∃ l, read_body depth st (pf_body f) = Some l ∧ f' = mkWasmFunction (pf_name f) (pf_typeIdx f) (pf_locals f) l.
Proof. unfold read_function. destruct (read_body _ _ _); csimpl; naive_solver. Qed.

Lemma read_element_Some e e' : read_element e = Some e' ↔
  ∃ l, read_body depth st (pe_offset e) = Some l ∧ e' = mkElement_ (pe_tableIdx e) l (pe_funcIndices e).
Proof. unfold read_element. destruct (read_body _ _ _); csimpl; naive_solver. Qed.

Lemma read_global_Some g g' : read_global g = Some g' ↔
  ∃ l, read_body depth st (pg_init g) = Some l ∧ g' = mkGlobalDef (pg_name g) (pg_type g) (pg_mutable g) l.
Proof. unfold read_global. destruct (read_body _ _ _); csimpl; naive_solver. Qed.

Lemma read_roots m md : read_module m = Some md → ∀ r, r ∈ body_roots m → ∃ d l, read_body d st r = Some l.
Proof.
  intros (fs & es & gs & Hf & He & Hg & _)%read_module_parts r. unfold body_roots.
  rewrite !elem_of_app, !list_elem_of_fmap. intros [(x & -> & Hx)|[(x & -> & Hx)|(x & -> & Hx)]]; apply list_elem_of_lookup in Hx as [i Hi].
  - destruct (Forall2_lookup_l _ _ _ _ _ Hf Hi) as (y & _ & (l & ? & _)%read_function_Some). by exists depth, l.
  - destruct (Forall2_lookup_l _ _ _ _ _ He Hi) as (y & _ & (l & ? & _)%read_element_Some). by exists depth, l.
  - destruct (Forall2_lookup_l _ _ _ _ _ Hg Hi) as (y & _ & (l & ? & _)%read_global_Some). by exists depth, l.
Qed.
End reading.

(** * References *)

Definition func_imports (md : WasmModule) : list Import_ := filter (λ i, is_func_import i = true) (m_imports md).

Definition import_count (md : WasmModule) : Z := count_if is_func_import (m_imports md).

(** The function of an index is an import or one of the module's own. *)
Definition entity_at (md : WasmModule) (i : Z) : option (Import_ + WasmFunction) :=
  if i <? import_count md then inl <$> js_at (func_imports md) i else inr <$> js_at (m_functions md) (i - import_count md).

(** What the module refers to.  Its own functions count as used; so does the whole frozen
    group.  The signature of an imported function is used when the import is. *)
Definition module_refs (md : WasmModule) : list use :=
  (UType <$> match m_canonicalRuntimeRecGroup md with Some (s, e) => seqZ s (e - s + 1) | None => [] end) ++
  (UFunc <$> seqZ (import_count md) (Z.of_nat (length (m_functions md)))) ++
  (m_functions md ≫= λ f, USignature (wf_typeIdx f) :: function_uses f) ++
  (m_globals md ≫= global_uses) ++ (m_elements md ≫= element_uses) ++ (m_exports md ≫= export_uses) ++
  (UFunc <$> m_declaredFuncRefs md) ++ (UFunc <$> opt_list (m_startFuncIdx md)) ++
  (m_tags md ≫= λ t, [USignature (td_typeIdx t)]) ++
  (m_imports md ≫= λ i, if is_func_import i then [] else import_uses i).

Definition live_func (md : WasmModule) (h : Z) : Prop := h ∈ module_refs md ≫= use_funcs.

(** The types that the module uses, that a live import has as its signature, and that a
    live type mentions. *)
Definition live_type (md : WasmModule) : Z → Prop :=
  needs (m_types md) (λ t, t ∈ module_refs md ≫= use_types ∨
    ∃ k i, live_func md k ∧ js_at (func_imports md) k = Some i ∧ im_desc i = IFunc t).

(** * Renaming *)

Section renaming.
Context (f t : Z → Z).

Definition map_vt (vt : ValType) : ValType := match vt with VRef i => VRef (t i) | VRefNull i => VRefNull (t i) | vt => vt end.

Fixpoint map_td (td : TypeDef) : TypeDef :=
  match td with
  | TFunc params results => TFunc (map_vt <$> params) (map_vt <$> results)
  | TStruct fields superTypeIdx final =>
      TStruct ((λ x, mkField (map_vt (fd_type x)) (fd_mutable x)) <$> fields) (t <$> superTypeIdx) final
  | TArray element mutable => TArray (map_vt element) mutable
  | TRec types => TRec (map_td <$> types)
  | TSub superType final type => TSub (t <$> superType) final (map_td type)
  end.

Definition map_bt (bt : BlockType) : BlockType :=
  match bt with BEmpty => BEmpty | BType i => BType (t i) | BVal vt => BVal (map_vt vt) end.

Fixpoint map_instr (i : Instr) : Instr :=
  match i with
  | Block bt body => Block (map_bt bt) (map_instr <$> body)
  | Loop bt body => Loop (map_bt bt) (map_instr <$> body)
  | If bt th el => If (map_bt bt) (map_instr <$> th) (match el with Some l => Some (map_instr <$> l) | None => None end)
  | Try bt body cs ca =>
      Try (map_bt bt) (map_instr <$> body) ((λ c : Z * list Instr, (c.1, map_instr <$> c.2)) <$> cs)
        (match ca with Some l => Some (map_instr <$> l) | None => None end)
  | TryTable bt body cs => TryTable (map_bt bt) (map_instr <$> body) cs
  | i => leaf_map f t i
  end.

Definition map_import (i : Import_) : Import_ :=
  mkImport_ (im_module i) (im_name i)
    match im_desc i with IFunc x => IFunc (t x) | ITag x => ITag (t x) | IGlobal vt m => IGlobal (map_vt vt) m | d => d end.

Definition map_function (x : WasmFunction) : WasmFunction :=
  mkWasmFunction (wf_name x) (t (wf_typeIdx x)) (map_vt <$> wf_locals x) (map_instr <$> wf_body x).

Definition map_export (x : WasmExport) : WasmExport :=
  mkWasmExport (ex_name x) (ex_kind x) (match ex_kind x with XFunc => f (ex_index x) | _ => ex_index x end).

Definition map_element (e : Element) : Element := mkElement_ (em_tableIdx e) (map_instr <$> em_offset e) (f <$> em_funcIndices e).

Definition map_global (g : GlobalDef) : GlobalDef :=
  mkGlobalDef (gd_name g) (map_vt (gd_type g)) (gd_mutable g) (map_instr <$> gd_init g).

Definition map_tag (x : TagDef) : TagDef := mkTagDef (td_name x) (t (td_typeIdx x)).
End renaming.

(** The imports without the functions that are not kept; [n] counts the functions. *)
Fixpoint keep_imports (keep : Z → bool) (n : Z) (imports : list Import_) : list Import_ :=
  match imports with
  | [] => []
  | i :: imports' =>
      if is_func_import i then (if keep n then [i] else []) ++ keep_imports keep (n + 1) imports'
      else i :: keep_imports keep n imports'
  end.

Section eliminated.
Context (keepF keepT : Z → bool) (md : WasmModule).

Definition func_total : Z := import_count md + Z.of_nat (length (m_functions md)).

(** The new index of a function and of a type. *)
Definition new_func : Z → Z := renamed keepF func_total.
Definition new_type : Z → Z := renamed keepT (Z.of_nat (length (m_types md))).

Definition eliminated : WasmModule :=
  mkModule (map_td new_type <$> survivors keepT (m_types md)) (prod_map new_type new_type <$> m_canonicalRuntimeRecGroup md)
    (map_import new_type <$> keep_imports keepF 0 (m_imports md)) (map_function new_func new_type <$> m_functions md)
    (map_export new_func <$> m_exports md) (m_tables md) (map_element new_func new_type <$> m_elements md)
    (map_global new_func new_type <$> m_globals md) (map_tag new_type <$> m_tags md) (new_func <$> m_declaredFuncRefs md)
    (m_funcOrdinalToPosition md) (m_memories md) (m_dataSegments md) (new_func <$> m_startFuncIdx md).

(** The tables of the context that follow. *)
Definition map_side (side : jsmap jsstr Z * SideTables) : jsmap jsstr Z * SideTables :=
  let on_map (m : jsmap jsstr Z) := (λ e, (e.1, new_func e.2)) <$> m in
  (on_map side.1,
   mkSide (on_map (nativeStrHelpers side.2)) (on_map (nativeRegexHelpers side.2)) (on_map (mapHelpers side.2))
     ((λ t, (new_func t.1, new_func t.2)) <$> pendingMethodTrampolines side.2)
     (nativeGenerators side.2) (asyncScheduler side.2) (promiseCombinators side.2)).
End eliminated.
