(* ===== verification/DeadElimMain.v ===== *)
(** Dead import elimination leaves the module without its dead imports and types. *)

From S2P Require Import Prelude WasmModel WasmEncode WasmCheck BinaryWriter FuncSpace IndexShift InstrGraph InstrWalk FuncSweep DeadElim DeadElimOk DeadElimSpec DeadElimModule.

(** * The liveness of a module *)

Lemma adds_each {X Y} (R : X → Y → Prop) (g : X → liveness → result liveness) (us : Y → list use) xs ys :
  (∀ x y r, R x y → ∃ r', g x r = Ok r' ∧ adds (us y) r r') → Forall2 R xs ys →
  ∀ r, ∃ r', for_each xs g r = Ok r' ∧ adds (ys ≫= us) r r'.
Proof.
  intros Hg. induction 1 as [|x y xs ys Hxy _ IH]; intros r; [exists r; split; [done|apply adds_nil]|].
  cbn [for_each]. destruct (Hg x y r Hxy) as (r1 & -> & H1). csimpl. destruct (IH r1) as (r2 & -> & H2).
  exists r2. split; [done|]. by eapply (adds_app (us y) (ys ≫= us)).
Qed.

Lemma adds_perm us us' r r' : us ≡ₚ us' → adds us r r' → adds us' r r'.
Proof. intros Hp. apply adds_ext; intros x; by rewrite Hp. Qed.

(** A loop over one list of references. *)
Lemma adds_list {X} (u : X → use) (g : liveness → X → liveness) xs r :
  (∀ x r, adds [u x] r (g r x)) → adds (u <$> xs) r (foldl g r xs).
Proof.
  intros Hg. assert (u <$> xs = xs ≫= λ x, [u x]) as -> by (induction xs as [|x xs IH]; [done|by rewrite bind_cons, <- IH]).
  by apply adds_foldl.
Qed.

Section collected.
Context (depth : nat) (st : instr_store).

Lemma collect_function_ok f f' r : read_function depth st f = Some f' →
  ∃ r', collect_function st f r = Ok r' ∧ adds (USignature (wf_typeIdx f') :: function_uses f') r r'.
Proof.
  intros (l & Hl & ->)%read_function_Some. unfold collect_function. destruct (collect_body st _ _ _ r Hl) as (r1 & -> & H1). csimpl.
  eexists. split; [done|]. unfold function_uses. cbn [wf_typeIdx wf_locals wf_body].
  eapply (adds_perm ((l ≫= instr_uses) ++ [USignature (pf_typeIdx f)] ++ (pf_locals f ≫= valtype_uses))); [solve_Permutation|].
  eapply adds_app; [exact H1|]. eapply adds_app; [by apply adds_type|]. apply adds_foldl. intros x r'. apply adds_valtype.
Qed.

Lemma collect_global_ok g g' r : read_global depth st g = Some g' → ∃ r', collect_global st g r = Ok r' ∧ adds (global_uses g') r r'.
Proof.
  intros (l & Hl & ->)%read_global_Some. unfold collect_global. destruct (collect_body st _ _ _ r Hl) as (r1 & -> & H1). csimpl.
  eexists. split; [done|]. eapply adds_perm; [|eapply adds_app; [exact H1|apply adds_valtype]]. unfold global_uses. cbn. apply Permutation_app_comm.
Qed.

Lemma collect_element_ok e e' r : read_element depth st e = Some e' → ∃ r', collect_element st e r = Ok r' ∧ adds (element_uses e') r r'.
Proof.
  intros (l & Hl & ->)%read_element_Some. unfold collect_element.
  destruct (collect_body st _ _ _ (foldl (λ r h, use_func h r) r (pe_funcIndices e)) Hl) as (r1 & -> & H1).
  eexists. split; [done|]. assert (adds ((UFunc <$> pe_funcIndices e) ++ (l ≫= instr_uses)) r r1) as Ha.
  { eapply adds_app; [|exact H1]. apply adds_list. intros x r'. apply adds_func. }
  eapply adds_ext; [| |exact Ha]; intros x; unfold element_uses; cbn [em_tableIdx em_offset em_funcIndices];
    rewrite !bind_app, !elem_of_app; destruct (negb _); cbn; rewrite ?elem_of_nil; tauto.
Qed.

Lemma collect_import_ok i r : adds (if is_func_import i then [] else import_uses i) r (collect_import i r).
Proof.
  unfold is_func_import, collect_import, import_uses. destruct (im_desc i); try apply adds_nil; [apply adds_valtype|by apply (adds_type (USignature _))].
Qed.

Lemma export_adds xs r : adds (xs ≫= export_uses) r
  (foldl (λ r h, use_func h r) r (omap (λ x, match ex_kind x with XFunc => Some (ex_index x) | _ => None end) xs)).
Proof.
  revert r. induction xs as [|x xs IH]; intros r; [apply adds_nil|]. rewrite bind_cons. cbn [omap list_omap].
  unfold export_uses at 1. destruct (ex_kind x).
  1: eapply adds_app; [apply adds_func|apply IH].
  all: eapply adds_ext; [| |apply IH]; intros y; by rewrite bind_app.
Qed.

Lemma adds_start o r : adds (UFunc <$> opt_list o) r (match o with Some h => use_func h r | None => r end).
Proof. destruct o; [apply adds_func|apply adds_nil]. Qed.

(** collect_module finds the references of the module. *)
Lemma collect_module_ok m md : read_module depth st m = Some md → ∃ r, collect_module st m = Ok r ∧ adds (module_refs md) (mkLive [] []) r.
Proof.
  intros (fs & es & gs & Hf & He & Hg & ->)%read_module_parts. unfold collect_module.
  set (r0 := foldl _ (mkLive [] []) _). set (r1 := foldl _ r0 _).
  assert (adds (UType <$> match p_canonicalRuntimeRecGroup m with Some (s, e) => seqZ s (e - s + 1) | None => [] end) (mkLive [] []) r0) as H0.
  { apply adds_list. intros x r. by apply adds_type. }
  assert (adds (UFunc <$> seqZ (count_if is_func_import (p_imports m)) (Z.of_nat (length fs))) r0 r1) as H1.
  { rewrite <- (Forall2_length _ _ _ Hf). replace (seqZ (count_if is_func_import (p_imports m)) _) with
      ((λ i, count_if is_func_import (p_imports m) + i) <$> seqZ 0 (Z.of_nat (length (p_functions m)))).
    - rewrite <- list_fmap_compose. apply (adds_list (λ i, UFunc (count_if is_func_import (p_imports m) + i))). intros x r. apply adds_func.
    - rewrite fmap_add_seqZ. f_equal; lia. }
  destruct (adds_each _ (collect_function st) (λ f, USignature (wf_typeIdx f) :: function_uses f) _ _ (λ f f' r, collect_function_ok f f' r) Hf r1) as (r2 & -> & H2).
  csimpl. destruct (adds_each _ (collect_global st) global_uses _ _ (λ g g' r, collect_global_ok g g' r) Hg r2) as (r3 & -> & H3).
  csimpl. destruct (adds_each _ (collect_element st) element_uses _ _ (λ e e' r, collect_element_ok e e' r) He r3) as (r4 & -> & H4).
  csimpl. eexists. split; [done|]. unfold module_refs.
  cbn [m_canonicalRuntimeRecGroup m_imports m_functions m_globals m_elements m_exports m_declaredFuncRefs m_startFuncIdx m_tags import_count].
  eapply adds_app; [exact H0|]. eapply adds_app; [exact H1|]. eapply adds_app; [exact H2|]. eapply adds_app; [exact H3|].
  eapply adds_app; [exact H4|]. eapply adds_app; [apply export_adds|]. eapply adds_app; [apply adds_list; intros; apply adds_func|].
  eapply adds_app; [apply adds_start|].
  eapply adds_app; [apply adds_foldl; intros; by apply adds_type|]. apply adds_foldl. intros x r. apply collect_import_ok.
Qed.
End collected.

(** * Dead imports *)

Section imports.

(** The function imports with their indices. *)
Lemma index_imports_elem imports n k i :
  (Some k, i) ∈ index_imports n imports ↔ n ≤ k ∧ filter (λ i, is_func_import i = true) imports !! Z.to_nat (k - n) = Some i.
Proof.
  revert n. induction imports as [|j imports IH]; intros n; cbn [index_imports].
  - rewrite elem_of_nil. naive_solver.
  - destruct (is_func_import j) eqn:Ej.
    + rewrite filter_cons_True, elem_of_cons, IH by done. split.
      * intros [[= -> ->]|[Hk Hi]]; [split; [lia|by rewrite Z.sub_diag]|]. split; [lia|].
        replace (Z.to_nat (k - n)) with (S (Z.to_nat (k - (n + 1)))) by lia. done.
      * intros [Hk Hi]. destruct (decide (k = n)) as [->|]; [left; rewrite Z.sub_diag in Hi; cbn in Hi; by injection Hi as ->|]. right. split; [lia|].
        replace (Z.to_nat (k - n)) with (S (Z.to_nat (k - (n + 1)))) in Hi by lia. done.
    + rewrite filter_cons_False, elem_of_cons, IH by congruence. naive_solver.
Qed.

Lemma dead_imports_elem usedF imports k :
  k ∈ dead_imports usedF imports ↔ 0 ≤ k < count_if is_func_import imports ∧ k ∉ usedF.
Proof.
  unfold dead_imports. rewrite list_elem_of_omap. unfold count_if. split.
  - intros ([[j|] i] & Hj & Hd); cbn in Hd; [|done]. case_bool_decide; [done|]. injection Hd as ->.
    apply index_imports_elem in Hj as [Hk Hi]. apply lookup_lt_Some in Hi. split; [lia|done].
  - intros [Hk Hn]. destruct (lookup_lt_is_Some_2 (filter (λ i, is_func_import i = true) imports) (Z.to_nat k)) as [i Hi]; [lia|].
    exists (Some k, i). split; [apply index_imports_elem; split; [lia|by rewrite Z.sub_0_r]|]. cbn. by rewrite bool_decide_false.
Qed.

Lemma survives_dead deadF (keep : Z → bool) p :
  (∀ k, keep k = negb (bool_decide (k ∈ deadF))) → import_survives deadF p = match p.1 with Some k => keep k | None => true end.
Proof. intros Hk. unfold import_survives. destruct p as [[k|] i]; cbn; [by rewrite Hk|done]. Qed.

Lemma kept_imports deadF keep n imports :
  (∀ k, keep k = negb (bool_decide (k ∈ deadF))) →
  (λ p, p.2) <$> filter (λ p, import_survives deadF p = true) (index_imports n imports) = keep_imports keep n imports.
Proof.
  intros Hk. revert n. induction imports as [|i imports IH]; intros n; [done|]. cbn [index_imports keep_imports].
  destruct (is_func_import i); rewrite filter_cons, (survives_dead deadF keep) by done; cbn.
  - destruct (keep n); [rewrite decide_True by done|rewrite decide_False by done]; csimpl; by rewrite IH.
  - csimpl. by rewrite IH.
Qed.

Lemma use_signatures_elem deadF keep imports usedT t :
  (∀ k, keep k = negb (bool_decide (k ∈ deadF))) →
  t ∈ use_signatures deadF imports usedT ↔
    t ∈ usedT ∨ ∃ k i, keep k = true ∧ js_at (filter (λ i, is_func_import i = true) imports) k = Some i ∧ im_desc i = IFunc t.
Proof.
  intros Hk. unfold use_signatures.
  assert (∀ ps u, t ∈ foldl (λ u (p : option Z * Import_), match im_desc p.2 with IFunc t => if import_survives deadF p then set_add t u else u | _ => u end) u ps ↔
    t ∈ u ∨ ∃ p, p ∈ ps ∧ import_survives deadF p = true ∧ im_desc p.2 = IFunc t) as Hfold.
  { intros ps. induction ps as [|p ps IH]; intros u; [cbn; setoid_rewrite elem_of_nil; naive_solver|]. cbn [foldl]. rewrite IH.
    assert (∀ Q : option Z * Import_ → Prop, (∃ p', p' ∈ p :: ps ∧ Q p') ↔ Q p ∨ ∃ p', p' ∈ ps ∧ Q p') as ->
      by (intros Q; setoid_rewrite elem_of_cons; clear; naive_solver).
    rewrite (assoc or). apply or_iff_compat_r. destruct (im_desc p.2); try (clear; naive_solver).
    destruct (import_survives deadF p); [rewrite elem_set_add|]; clear; naive_solver. }
  rewrite Hfold. apply or_iff_compat_l. split.
  - intros ([o i] & Hp & Hs & Hd). cbn in Hd. rewrite (survives_dead deadF keep) in Hs by done. cbn in Hs. destruct o as [k|].
    + apply index_imports_elem in Hp as [H0 Hp]. exists k, i. split_and!; [done| |done]. apply js_at_Some. rewrite Z.sub_0_r in Hp. split; [lia|done].
    + exfalso. revert Hp. generalize 0. induction imports as [|j imports IH]; intros n; cbn [index_imports]; [by intros ?%not_elem_of_nil|].
      destruct (is_func_import j) eqn:Ej; intros [[= ->]|Hp]%elem_of_cons; [by apply IH in Hp| |by apply IH in Hp]. unfold is_func_import in Ej. by rewrite Hd in Ej.
  - intros (k & i & Hs & Hi & Hd). apply js_at_Some in Hi as [H0 Hi]. exists (Some k, i).
    rewrite (survives_dead deadF keep) by done. split_and!; [|done..]. apply index_imports_elem. rewrite Z.sub_0_r. split; [lia|done].
Qed.
End imports.

(** * Rewriting *)

Lemma fmap_Forall {A B} (f g : A → B) l : Forall (λ x, f x = g x) l → f <$> l = g <$> l.
Proof. apply Forall_fmap_ext_1. Qed.

Lemma fmap_Forall_id {A} (f : A → A) l : Forall (λ x, f x = x) l → f <$> l = l.
Proof. intros Hl. rewrite <- (list_fmap_id l) at 2. by apply Forall_fmap_ext_1. Qed.

Section names.
Context (f t : Z → Z) (Hf : ∀ x, f x = x) (Ht : ∀ x, t x = x).

Lemma map_vt_id vt : map_vt t vt = vt.
Proof. destruct vt; cbn; by rewrite ?Ht. Qed.

Lemma map_bt_id bt : map_bt t bt = bt.
Proof. destruct bt; cbn; by rewrite ?Ht, ?map_vt_id. Qed.

Lemma map_instr_id i : map_instr f t i = i.
Proof.
  revert i. apply instr_tree_ind.
  - intros i. destruct i; try done; cbn; by rewrite ?Hf, ?Ht.
  - intros bt body IH. cbn [map_instr]. by rewrite map_bt_id, fmap_Forall_id.
  - intros bt body IH. cbn [map_instr]. by rewrite map_bt_id, fmap_Forall_id.
  - intros bt th el IH IHe. cbn [map_instr]. rewrite map_bt_id, fmap_Forall_id by done. destruct el as [l|]; [|done].
    by rewrite fmap_Forall_id by (by apply IHe).
  - intros bt body cs ca IH IHc IHa. cbn [map_instr]. rewrite map_bt_id, fmap_Forall_id by done. f_equal.
    + apply fmap_Forall_id. eapply Forall_impl; [exact IHc|]. intros [x l] Hl. cbn in *. by rewrite fmap_Forall_id.
    + destruct ca as [l|]; [|done]. by rewrite fmap_Forall_id by (by apply IHa).
  - intros bt body cs IH. cbn [map_instr]. by rewrite map_bt_id, fmap_Forall_id.
Qed.

Lemma map_td_id td : map_td t td = td.
Proof.
  induction td using typedef_tree_ind; cbn [map_td].
  - f_equal; apply fmap_Forall_id, Forall_true, map_vt_id.
  - f_equal; [|destruct s; cbn; by rewrite ?Ht]. apply fmap_Forall_id, Forall_true. intros []. cbn. by rewrite map_vt_id.
  - by rewrite map_vt_id.
  - f_equal. by apply fmap_Forall_id.
  - f_equal; [destruct s; cbn; by rewrite ?Ht|done].
Qed.

Lemma map_import_id i : map_import t i = i.
Proof. unfold map_import. destruct i as [x y []]; cbn; by rewrite ?Ht, ?map_vt_id. Qed.

Lemma map_function_id x : map_function f t x = x.
Proof.
  unfold map_function. rewrite Ht, !fmap_Forall_id; [by destruct x|apply Forall_true, map_instr_id|apply Forall_true, map_vt_id].
Qed.

Lemma map_export_id x : map_export f x = x.
Proof. unfold map_export. destruct x as [n [] i]; cbn; by rewrite ?Hf. Qed.

Lemma map_element_id e : map_element f t e = e.
Proof. unfold map_element. rewrite !fmap_Forall_id; [by destruct e|apply Forall_true, Hf|apply Forall_true, map_instr_id]. Qed.

Lemma map_global_id g : map_global f t g = g.
Proof. unfold map_global. rewrite map_vt_id, fmap_Forall_id; [by destruct g|apply Forall_true, map_instr_id]. Qed.

Lemma map_tag_id x : map_tag t x = x.
Proof. unfold map_tag. rewrite Ht. by destruct x. Qed.
End names.

Section rewriting.
Context (fR tR : jsmap Z Z) (f t : Z → Z) (Hf : ∀ x, remap_index fR x = f x) (Ht : ∀ x, remap_index tR x = t x).

Lemma remapVT_map vt : remapVT vt tR = map_vt t vt.
Proof. destruct vt; cbn; by rewrite ?Ht. Qed.

Lemma remapTD_map td : remapTD td tR = map_td t td.
Proof.
  induction td using typedef_tree_ind; cbn [remapTD map_td].
  - f_equal; apply fmap_Forall, Forall_true, remapVT_map.
  - f_equal; [|destruct s; cbn; by rewrite ?Ht]. apply fmap_Forall, Forall_true. intros []. unfold remap_field. cbn. by rewrite remapVT_map.
  - by rewrite remapVT_map.
  - f_equal. by apply fmap_Forall.
  - f_equal; [destruct s; cbn; by rewrite ?Ht|done].
Qed.

Lemma remap_blockType_map bt : remap_blockType tR bt = map_bt t bt.
Proof. destruct bt; cbn; by rewrite ?Ht, ?remapVT_map. Qed.

Lemma ren_map i : ren_instr fR tR i = map_instr f t i.
Proof.
  revert i. apply instr_tree_ind.
  - intros i. destruct i; try done; cbn; by rewrite ?Hf, ?Ht.
  - intros bt body IH. cbn [ren_instr map_instr]. rewrite remap_blockType_map. f_equal. by apply fmap_Forall.
  - intros bt body IH. cbn [ren_instr map_instr]. rewrite remap_blockType_map. f_equal. by apply fmap_Forall.
  - intros bt th el IH IHe. cbn [ren_instr map_instr]. rewrite remap_blockType_map. f_equal; [by apply fmap_Forall|].
    destruct el as [l|]; [|done]. f_equal. by apply fmap_Forall, IHe.
  - intros bt body cs ca IH IHc IHa. cbn [ren_instr map_instr]. rewrite remap_blockType_map. f_equal; [by apply fmap_Forall| |].
    + apply fmap_Forall. eapply Forall_impl; [exact IHc|]. intros [x l] Hl. cbn in *. f_equal. by apply fmap_Forall.
    + destruct ca as [l|]; [|done]. f_equal. by apply fmap_Forall, IHa.
  - intros bt body cs IH. cbn [ren_instr map_instr]. rewrite remap_blockType_map. f_equal. by apply fmap_Forall.
Qed.

Lemma ren_map_list (l : list Instr) : ren_instr fR tR <$> l = map_instr f t <$> l.
Proof. apply list_fmap_ext. intros. apply ren_map. Qed.

(** The store after remap_bodies. *)
Lemma remap_bodies_ok depth st m md : read_module depth st m = Some md →
  ∃ st', remap_bodies fR tR m st = Ok st' ∧
    ∀ r l, r ∈ body_roots m → read_body depth st r = Some l → read_body depth st' r = Some (map_instr f t <$> l).
Proof.
  intros Hm. assert ((fR = [] ∧ tR = []) ∨ remap_bodies fR tR m st =
    rm_store <$> for_each (body_roots m) (remapLayoutInBodyShared fR tR) (mkRemapping st ∅ ∅)) as [[-> ->]|E]
    by (destruct fR, tR; [by left|by right..]).
  - exists st. split; [done|]. intros r l _ Hl. rewrite Hl. f_equal. symmetry. apply fmap_Forall_id, Forall_true, map_instr_id.
    + intros x. by rewrite <- Hf.
    + intros x. by rewrite <- Ht.
  - rewrite E. destruct (remap_roots fR tR st (body_roots m) [] (mkRemapping st ∅ ∅)) as (s' & V & -> & Hs & HV).
    { apply remapped_start. }
    { by eapply read_roots. }
    exists (rm_store s'). split; [done|]. intros r l Hr Hl. rewrite <- ren_map_list. eapply read_renamed; [exact Hs|exact Hl|].
    intros id Hid. apply HV. right. by exists r.
Qed.

Lemma remap_import_map i : remap_import tR i = map_import t i.
Proof. unfold remap_import, map_import. destruct (im_desc i); by rewrite ?Ht, ?remapVT_map. Qed.

Lemma remap_export_map x : remap_export fR x = map_export f x.
Proof. unfold remap_export, map_export. destruct (ex_kind x); by rewrite ?Hf. Qed.

Lemma remap_tag_map x : remap_tag tR x = map_tag t x.
Proof. unfold remap_tag, map_tag. by rewrite Ht. Qed.

Lemma remap_index_list (l : list Z) : remap_index fR <$> l = f <$> l.
Proof. apply list_fmap_ext. intros. apply Hf. Qed.

Lemma remapVT_list (l : list ValType) : (λ x, remapVT x tR) <$> l = map_vt t <$> l.
Proof. apply list_fmap_ext. intros. apply remapVT_map. Qed.

(** The rewritten module reads as the renamed one. *)
Lemma remap_module_reads depth st st' m md types group imports :
  read_module depth st m = Some md →
  (∀ r l, r ∈ body_roots m → read_body depth st r = Some l → read_body depth st' r = Some (map_instr f t <$> l)) →
  read_module depth st' (remap_module fR tR types group imports m) =
    Some (mkModule types group (map_import t <$> imports) (map_function f t <$> m_functions md) (map_export f <$> m_exports md)
      (m_tables md) (map_element f t <$> m_elements md) (map_global f t <$> m_globals md) (map_tag t <$> m_tags md)
      (f <$> m_declaredFuncRefs md) (m_funcOrdinalToPosition md) (m_memories md) (m_dataSegments md) (f <$> m_startFuncIdx md)).
Proof.
  intros (fs & es & gs & Hfs & Hes & Hgs & ->)%read_module_parts Hst. apply read_module_parts.
  cbn [m_functions m_exports m_tables m_elements m_globals m_tags m_declaredFuncRefs m_funcOrdinalToPosition m_memories m_dataSegments m_startFuncIdx].
  exists (map_function f t <$> fs), (map_element f t <$> es), (map_global f t <$> gs). unfold remap_module. cbn. split_and!.
  - apply Forall2_fmap, Forall2_same_length_lookup. split; [by eapply Forall2_length|]. intros i x y Hx Hy.
    pose proof (Forall2_lookup_lr _ _ _ _ _ _ Hfs Hx Hy) as (l & Hl & ->)%read_function_Some. apply read_function_Some.
    exists (map_instr f t <$> l). cbn. split.
    + apply Hst; [|done]. unfold body_roots. apply elem_of_app. left. apply list_elem_of_fmap. exists x. split; [done|by eapply list_elem_of_lookup_2].
    + unfold map_function. cbn. by rewrite Ht, remapVT_list.
  - apply Forall2_fmap, Forall2_same_length_lookup. split; [by eapply Forall2_length|]. intros i x y Hx Hy.
    pose proof (Forall2_lookup_lr _ _ _ _ _ _ Hes Hx Hy) as (l & Hl & ->)%read_element_Some. apply read_element_Some.
    exists (map_instr f t <$> l). cbn. split.
    + apply Hst; [|done]. unfold body_roots. apply elem_of_app. right. apply elem_of_app. left. apply list_elem_of_fmap.
      exists x. split; [done|by eapply list_elem_of_lookup_2].
    + unfold map_element. cbn. by rewrite remap_index_list.
  - apply Forall2_fmap, Forall2_same_length_lookup. split; [by eapply Forall2_length|]. intros i x y Hx Hy.
    pose proof (Forall2_lookup_lr _ _ _ _ _ _ Hgs Hx Hy) as (l & Hl & ->)%read_global_Some. apply read_global_Some.
    exists (map_instr f t <$> l). cbn. split.
    + apply Hst; [|done]. unfold body_roots. rewrite !elem_of_app. right. right. apply list_elem_of_fmap.
      exists x. split; [done|by eapply list_elem_of_lookup_2].
    + unfold map_global. cbn. by rewrite remapVT_map.
  - f_equal.
    + apply list_fmap_ext. intros. symmetry. apply remap_import_map.
    + apply list_fmap_ext. intros. symmetry. apply remap_export_map.
    + apply list_fmap_ext. intros. symmetry. apply remap_tag_map.
    + by rewrite remap_index_list.
    + destruct (p_startFuncIdx m); [cbn; by rewrite Hf|done].
Qed.

Lemma remap_map_map {K} (m : jsmap K Z) : remap_map fR m = (λ e, (e.1, f e.2)) <$> m.
Proof. apply list_fmap_ext. intros i [k x] _. cbn. by rewrite Hf. Qed.
End rewriting.

(** * The pass *)

Lemma keep_imports_all keep n imports : (∀ k, n ≤ k → keep k = true) → keep_imports keep n imports = imports.
Proof.
  revert n. induction imports as [|i imports IH]; intros n Hk; [done|]. cbn [keep_imports].
  destruct (is_func_import i); rewrite ?Hk, IH by (lia || intros; apply Hk; lia); done.
Qed.

(** A module that keeps everything is itself. *)
Lemma eliminated_all keepF keepT md :
  (∀ h, keepF h = true) → (∀ x, 0 ≤ x < Z.of_nat (length (m_types md)) → keepT x = true) → 
  (∀ h, new_func keepF md h = h) → (∀ x, new_type keepT md x = x) → eliminated keepF keepT md = md.
Proof.
  intros HF HT Hf Ht. unfold eliminated. rewrite survivors_all by done. rewrite keep_imports_all by (intros; apply HF).
  rewrite !fmap_Forall_id by (apply Forall_true; auto using map_td_id, map_import_id, map_function_id, map_export_id, map_element_id, map_global_id, map_tag_id).
  destruct md as [ts g imps fs xs tbs es gs tgs ds ps mems data start]; cbn. f_equal; [destruct g as [[]|]|destruct start]; cbn; by rewrite ?Hf, ?Ht.
Qed.

Lemma renamed_all (keep : Z → bool) total x : (∀ o, 0 ≤ o < total → keep o = true) → renamed keep total x = x.
Proof. intros Hk. unfold renamed. case_decide as Hx; [|done]. apply rank_all; [|lia]. intros o Ho. apply Hk. lia. Qed.

Lemma remap_side_map fR keepF md side :
  (∀ x, remap_index fR x = new_func keepF md x) → remap_side fR side = map_side keepF md side.
Proof.
  intros Hf. unfold map_side. rewrite <- !(remap_map_map fR _ Hf).
  assert ((λ t : Z * Z, (new_func keepF md t.1, new_func keepF md t.2)) <$> pendingMethodTrampolines side.2 =
    (λ t, (remap_index fR t.1, remap_index fR t.2)) <$> pendingMethodTrampolines side.2) as -> by (apply list_fmap_ext; intros; by rewrite !Hf).
  destruct fR as [|e fR]; [|done]. unfold remap_side, remap_map.
  assert (∀ (m : jsmap jsstr Z), (λ e, (e.1, remap_index [] e.2)) <$> m = m) as Hid.
  { intros m. apply fmap_Forall_id, Forall_true. by intros []. }
  rewrite !Hid. rewrite (fmap_Forall_id (λ t : Z * Z, _)) by (apply Forall_true; by intros []). destruct side as [m []]. done.
Qed.

Section pass.
Context (applyTypeLayoutRemap : list TypeDef → list TypeDef → list (option Z) → result ()).

(** What the two halves of the pass share: liveness is that of [md], and [md1], which has
    the same imports and types and as many functions, is rewritten. *)
Record same_shape (md md1 : WasmModule) : Prop := {
  ss_types : m_types md1 = m_types md;
  ss_imports : m_imports md1 = m_imports md;
  ss_group : m_canonicalRuntimeRecGroup md1 = m_canonicalRuntimeRecGroup md;
  ss_functions : length (m_functions md1) = length (m_functions md) }.

Lemma own_functions_live md h : import_count md ≤ h < func_total md → live_func md h.
Proof.
  intros Hh. apply list_elem_of_bind. exists (UFunc h). split; [left|]. unfold module_refs. rewrite !elem_of_app. right. left.
  apply list_elem_of_fmap. exists h. split; [done|]. apply elem_of_seqZ. unfold func_total in Hh. lia.
Qed.

Lemma group_live md a b x : m_canonicalRuntimeRecGroup md = Some (a, b) → a ≤ x ≤ b → live_type md x.
Proof.
  intros Hg Hx. apply needs_base. left. apply list_elem_of_bind. exists (UType x). split; [left|]. unfold module_refs. rewrite Hg, !elem_of_app. left.
  apply list_elem_of_fmap. exists x. split; [done|]. apply elem_of_seqZ. lia.
Qed.

Lemma removed_none (keepT : Z → bool) n : Z.of_nat (length (filter (λ o, keepT o = false) (seqZ 0 n))) = 0 → ∀ x, 0 ≤ x < n → keepT x = true.
Proof.
  intros Hr x Hx. destruct (keepT x) eqn:E; [done|]. assert (x ∈ filter (λ o, keepT o = false) (seqZ 0 n)) as Hin.
  { apply list_elem_of_filter. split; [done|]. apply elem_of_seqZ. lia. }
  destruct (filter _ _); [by apply not_elem_of_nil in Hin|done].
Qed.

Lemma canonical_group_ok keepT n group :
  (∀ a b, group = Some (a, b) → 0 ≤ a ≤ b ∧ b < Z.of_nat n ∧ keepT a = true ∧ keepT b = true) →
  canonical_group (targets keepT (Z.of_nat n)) group =
    Ok (prod_map (renamed keepT (Z.of_nat n)) (renamed keepT (Z.of_nat n)) <$> group).
Proof.
  intros Hg. destruct group as [[a b]|]; [|done]. destruct (Hg a b eq_refl) as (Ha & Hb & Ka & Kb). cbn [canonical_group].
  rewrite !targets_spec, Ka, Kb by lia. cbn. unfold renamed. by rewrite !decide_True by (split; [lia|done]).
Qed.

(** The tables are the renaming. *)
Lemma func_table deadF keepF total : 0 ≤ total → (∀ k, keepF k = negb (bool_decide (k ∈ deadF))) →
  ∀ x, remap_index (if decide (deadF = []) then [] else compact keepF total) x = renamed keepF total x.
Proof.
  intros Ht Hk x. destruct (decide (deadF = [])) as [->|]; [|by apply remap_compact]. rewrite renamed_all; [done|]. intros o _. by rewrite Hk.
Qed.

Lemma kept_types keepT types rem tR t :
  rem = Z.of_nat (length (filter (λ o, keepT o = false) (seqZ 0 (Z.of_nat (length types))))) →
  (∀ x, remap_index tR x = t x) → t = renamed keepT (Z.of_nat (length types)) →
  (if 0 <? rem then (λ td, remapTD td tR) <$> survivors keepT types else types) = map_td t <$> survivors keepT types.
Proof.
  intros Hrem Ht Et. destruct (Z.ltb_spec 0 rem).
  - apply list_fmap_ext. intros. by apply remapTD_map.
  - assert (∀ x, 0 ≤ x < Z.of_nat (length types) → keepT x = true) as Hall by (apply removed_none; lia).
    rewrite survivors_all by done. rewrite fmap_Forall_id; [done|]. apply Forall_true, map_td_id. intros x. subst t. by apply renamed_all.
Qed.

(** What the sets of the pass mean. *)
Lemma live_sets md used (usedT deadF : list Z) :
  adds (module_refs md) (mkLive [] []) used → deadF = dead_imports (usedFuncs used) (m_imports md) →
  (∀ x, x ∈ usedT ↔ needs (m_types md) (.∈ use_signatures deadF (m_imports md) (usedTypes used)) x) →
  (∀ h, 0 ≤ h < func_total md → negb (bool_decide (h ∈ deadF)) = true ↔ live_func md h) ∧
  (∀ x, bool_decide (x ∈ usedT) = true ↔ live_type md x).
Proof.
  intros [HuF HuT] -> HuT'.
  assert (∀ h, h ∈ usedFuncs used ↔ live_func md h) as HF by (intros h; rewrite HuF; cbn; rewrite elem_of_nil; unfold live_func; tauto).
  assert (∀ h, h ∉ dead_imports (usedFuncs used) (m_imports md) ↔ ¬ 0 ≤ h < import_count md ∨ live_func md h) as HD.
  { intros h. rewrite dead_imports_elem, HF. unfold import_count. destruct (decide (h ∈ usedFuncs used)) as [Hu|Hu]; rewrite HF in Hu; [tauto|].
    split; [|tauto]. intros Hn. left. tauto. }
  split.
  - intros h Hh. rewrite negb_true_iff, bool_decide_eq_false, HD. split; [|tauto]. intros [Hn|Hl]; [|done].
    apply own_functions_live. lia.
  - intros x. rewrite bool_decide_eq_true, HuT'. unfold live_type. apply needs_iff. intros y.
    rewrite (use_signatures_elem _ (λ k, negb (bool_decide (k ∈ dead_imports (usedFuncs used) (m_imports md))))) by done.
    apply Morphisms_Prop.or_iff_morphism; [rewrite HuT; cbn; rewrite elem_of_nil; tauto|].
    apply exist_proper. intros k. apply exist_proper. intros i. unfold func_imports.
    rewrite negb_true_iff, bool_decide_eq_false, HD. split; [|tauto]. intros ([Hn|Hl] & Hi & Hd); [|done].
    exfalso. apply Hn. apply js_at_lt in Hi. exact Hi.
Qed.

(** The rewriting. *)
Lemma rewrite_ok depth st1 m1 md1 fR tR keepF keepT (deadF : list Z) rem :
  read_module depth st1 m1 = Some md1 →
  (∀ k, keepF k = negb (bool_decide (k ∈ deadF))) →
  (∀ x, remap_index fR x = new_func keepF md1 x) → (∀ x, remap_index tR x = new_type keepT md1 x) →
  rem = Z.of_nat (length (filter (λ o, keepT o = false) (seqZ 0 (Z.of_nat (length (m_types md1)))))) →
  ∃ st, remap_bodies fR tR m1 st1 = Ok st ∧
    read_module depth st (remap_module fR tR
      (if 0 <? rem then (λ td, remapTD td tR) <$> survivors keepT (m_types md1) else m_types md1)
      (prod_map (new_type keepT md1) (new_type keepT md1) <$> m_canonicalRuntimeRecGroup md1)
      ((λ p, p.2) <$> filter (λ p, import_survives deadF p = true) (index_imports 0 (m_imports md1))) m1) =
    Some (eliminated keepF keepT md1).
Proof.
  intros Hmd1 Hk Hf Ht Hrem. destruct (remap_bodies_ok fR tR _ _ Hf Ht _ _ _ _ Hmd1) as (st & E & Hst). exists st. split; [done|].
  rewrite (remap_module_reads fR tR _ _ Hf Ht _ _ _ _ _ _ _ _ Hmd1 Hst).
  by rewrite (kept_types keepT _ rem tR (new_type keepT md1)), (kept_imports _ keepF) by done.
Qed.

(** The pass after its first half. *)
Lemma eliminate_rest depth sweep s md m1 stubbed1 st1 md1 :
  read_module depth (el_store s) (el_module s) = Some md →
  (if sweep : bool then
     live ← reachableFunctionPositions (el_store s) (el_module s) LATE_PASS_HELPER_ROOTS;
     Ok (stubUnreachableFunctions live (el_stubbed s) (el_module s) (el_store s))
   else Ok (el_module s, el_stubbed s, el_store s)) = Ok (m1, stubbed1, st1) →
  read_module depth st1 m1 = Some md1 → same_shape md md1 →
  (∀ previous next targetsByOldIndex, applyTypeLayoutRemap previous next targetsByOldIndex = Ok tt) →
  (∀ a b, m_canonicalRuntimeRecGroup md = Some (a, b) → 0 ≤ a ≤ b ∧ b < Z.of_nat (length (m_types md))) →
  ∃ s' keepF keepT, eliminateDeadImports applyTypeLayoutRemap sweep s = Ok s' ∧
    (∀ h, 0 ≤ h < func_total md → keepF h = true ↔ live_func md h) ∧ (∀ x, keepT x = true ↔ live_type md x) ∧
    read_module depth (el_store s') (el_module s') = Some (eliminated keepF keepT md1) ∧
    el_stubbed s' = stubbed1 ∧ el_side s' = map_side keepF md <$> el_side s.
Proof.
  intros Hmd Hsweep Hmd1 [St Si Sg Sf] Happly Hgroup.
  destruct (collect_module_ok _ _ _ _ Hmd) as (used & Eu & [HuF HuT]).
  pose proof Hmd as (fs & es & gs & Hfs & _ & _ & E)%read_module_parts.
  pose proof Hmd1 as (fs1 & es1 & gs1 & Hfs1 & _ & _ & E1)%read_module_parts.
  assert (p_imports m1 = m_imports md) as Ei1 by (by rewrite <- Si, E1).
  assert (p_imports (el_module s) = m_imports md) as Ei by (by rewrite E).
  assert (p_types m1 = m_types md) as Et1 by (by rewrite <- St, E1).
  assert (p_canonicalRuntimeRecGroup m1 = m_canonicalRuntimeRecGroup md) as Eg1 by (by rewrite <- Sg, E1).
  assert (length (p_functions m1) = length (m_functions md)) as Ef1 by (by rewrite <- Sf, E1, (Forall2_length _ _ _ Hfs1)).
  unfold eliminateDeadImports. rewrite Eu, Hsweep. cbn [mbind result_bind]. rewrite Ei1, Ei, Et1, Ef1, Eg1.
  set (deadF := dead_imports (usedFuncs used) (m_imports md)).
  destruct (close_types_spec (m_types md) (use_signatures deadF (m_imports md) (usedTypes used))) as (usedT & -> & HuT'). cbn [mbind result_bind].
  set (keepF := λ o, negb (bool_decide (o ∈ deadF))). set (keepT := λ o, bool_decide (o ∈ usedT)).
  change (λ o : Z, negb (bool_decide (o ∈ deadF))) with keepF. change (λ o : Z, bool_decide (o ∈ usedT)) with keepT.
  set (fR := if decide (deadF = []) then [] else _). set (tR := compact keepT _). set (rem := Z.of_nat (length (filter _ _))).
  destruct (live_sets md used usedT deadF (conj HuF HuT) eq_refl HuT') as [HF HT].
  assert (∀ x, remap_index fR x = new_func keepF md1 x) as Hf.
  { intros x. unfold fR, new_func, func_total, import_count. rewrite Si, Sf. apply (func_table deadF keepF); [unfold count_if; lia|done]. }
  assert (∀ x, remap_index tR x = new_type keepT md1 x) as Ht.
  { intros x. unfold tR, new_type. rewrite St. apply remap_compact. lia. }
  assert (rem = Z.of_nat (length (filter (λ o, keepT o = false) (seqZ 0 (Z.of_nat (length (m_types md1))))))) as Hrem by (by rewrite St).
  destruct (rewrite_ok depth st1 m1 md1 fR tR keepF keepT deadF rem Hmd1 (λ _, eq_refl) Hf Ht Hrem) as (st & Est & Hread).
  rewrite St, Si, Sg in Hread.
  assert (new_func keepF md1 = new_func keepF md) as Enf by (unfold new_func, func_total, import_count; by rewrite Si, Sf).
  assert (∀ side, remap_side fR side = map_side keepF md side) as Hside by (intros; apply remap_side_map; by rewrite <- Enf).
  destruct (bool_decide (fR = []) && bool_decide (tR = []) && bool_decide (deadF = []) && (rem =? 0)) eqn:Eearly.
  - apply andb_true_iff in Eearly as [[[EfR EtR]%andb_true_iff Edead]%andb_true_iff Erem%Z.eqb_eq].
    apply bool_decide_eq_true in EfR, EtR, Edead. eexists _, keepF, keepT. split; [done|]. cbn [el_store el_module el_stubbed el_side].
    split_and!; [done..| |done|].
    + rewrite Hmd1, eliminated_all; [done|..].
      * intros h. unfold keepF. by rewrite Edead.
      * apply removed_none. by rewrite <- Hrem.
      * intros h. rewrite <- Hf. by rewrite EfR.
      * intros x. rewrite <- Ht. by rewrite EtR.
    + destruct (el_side s) as [side|]; [|done]. cbn. rewrite <- Hside. by rewrite EfR.
  - assert ((if 0 <? rem then match el_side s with Some _ => applyTypeLayoutRemap (m_types md)
      (if 0 <? rem then (λ td, remapTD td tR) <$> survivors keepT (m_types md) else m_types md)
      (targets keepT (Z.of_nat (length (m_types md)))) | None => Ok tt end else Ok tt) = Ok tt) as -> by (destruct (0 <? rem), (el_side s); auto).
    cbn [mbind result_bind].
    assert ((if 0 <? rem then canonical_group (targets keepT (Z.of_nat (length (m_types md)))) (m_canonicalRuntimeRecGroup md)
      else Ok (m_canonicalRuntimeRecGroup md)) = Ok (prod_map (new_type keepT md1) (new_type keepT md1) <$> m_canonicalRuntimeRecGroup md)) as ->.
    { destruct (Z.ltb_spec 0 rem).
      - unfold new_type. rewrite St. apply canonical_group_ok. intros a b Eg. destruct (Hgroup a b Eg).
        split_and!; [lia..|apply HT; eapply group_live; [exact Eg|lia]|apply HT; eapply group_live; [exact Eg|lia]].
      - destruct (m_canonicalRuntimeRecGroup md) as [[a b]|]; [|done]. cbn. unfold new_type. 
        rewrite !renamed_all by (apply removed_none; lia). done. }
    cbn [mbind result_bind]. rewrite Est. cbn [mbind result_bind]. eexists _, keepF, keepT. split; [done|].
    cbn [el_store el_module el_stubbed el_side]. split_and!; [done..|]. destruct (el_side s); [|done]. cbn. by rewrite Hside.
Qed.
End pass.

(** * Properties *)

(** C4: dead import elimination is the module without what is dead.  When the bodies of the
    module are trees, the frozen group lies in the type section and the ABI sidecars accept
    the new layout, the pass ends, and the module it leaves stands for the old one with
    exactly the live function imports and the live types kept, and with every function and
    type index renamed to the place of its entity, in the bodies (each object once, however
    many arrays share it), in the tables of the module and in those of the context. *)
Theorem eliminateDeadImports_correct applyTypeLayoutRemap depth s md :
  read_module depth (el_store s) (el_module s) = Some md →
  (∀ previous next targetsByOldIndex, applyTypeLayoutRemap previous next targetsByOldIndex = Ok tt) →
  (∀ a b, m_canonicalRuntimeRecGroup md = Some (a, b) → 0 ≤ a ≤ b ∧ b < Z.of_nat (length (m_types md))) →
  ∃ s' keepF keepT, eliminateDeadImports applyTypeLayoutRemap false s = Ok s' ∧
    (∀ h, 0 ≤ h < func_total md → keepF h = true ↔ live_func md h) ∧ (∀ x, keepT x = true ↔ live_type md x) ∧
    read_module depth (el_store s') (el_module s') = Some (eliminated keepF keepT md) ∧
    el_stubbed s' = el_stubbed s ∧ el_side s' = map_side keepF md <$> el_side s.
Proof. intros Hmd Happly Hgroup. by eapply eliminate_rest. Qed.

(** Two imports, the first of them dead; four types, of which the first is dead and the last
    two are the frozen group.  The body calls the live import twice, with one object in two
    places, and itself, once by a stable handle. *)
Definition sample_store : instr_store :=
  InstrGraph.mkStore
    (list_to_map [(0, NBlock 0 1); (1, NLeaf (Call 1)); (2, NLeaf (Call 2)); (3, NLeaf (Call STABLE_FUNC_BASE)); (4, NLeaf (RefFunc 2))])
    (list_to_map [(0, [0; 1; 3]); (1, [1; 2]); (2, [4])]) (list_to_map [(0, BType 1)]).

Definition sample_pmodule : PModule :=
  mkPModule [TFunc [] [VI32]; TFunc [VI32] []; TStruct [mkField (VRef 3) true] None false; TFunc [] [VRef 2]] (Some (2, 3))
    [mkImport_ (js "env") (js "dead") (IFunc 0); mkImport_ (js "env") (js "live") (IFunc 1)]
    [mkPFunction 0 (js "main") 3 [VRefNull 3] 0]
    [mkWasmExport (js "main") XFunc 2] [] [] [mkPGlobal (js "g") VFuncref true 2] [] [2] [Some 0] [] [] (Some 2).

Definition sample_elim : elim_state :=
  mkElim sample_pmodule sample_store ∅
    (Some ([(js "live", 1); (js "main", 2)], mkSide [] [] [] [(2, 1)] (Some [Some 2]) None None)).

Example sample_eliminated :
  ∃ s', eliminateDeadImports (λ _ _ _, Ok tt) false sample_elim = Ok s' ∧
    el_side s' = Some ([(js "live", 0); (js "main", 1)], mkSide [] [] [] [(1, 0)] (Some [Some 2]) None None) ∧
    (m_functions <$> read_module 3 (el_store s') (el_module s')) =
      Some [mkWasmFunction (js "main") 2 [VRefNull 2]
              [Block (BType 0) [Call 0; Call 1]; Call 0; Call STABLE_FUNC_BASE]].
Proof. eexists. split; [vm_compute; reflexivity|]. split; vm_compute; reflexivity. Qed.

(** The module of the sample, read. *)
Definition sample_md : WasmModule := Eval vm_compute in
  match read_module 3 sample_store sample_pmodule with
  | Some md => md
  | None => mkModule [] None [] [] [] [] [] [] [] [] [] [] [] None
  end.

Lemma sample_read : read_module 3 (el_store sample_elim) (el_module sample_elim) = Some sample_md.
Proof. vm_compute. reflexivity. Qed.

Lemma eliminateDeadImports_correct_witness :
  ∃ s' keepF keepT, eliminateDeadImports (λ _ _ _, Ok tt) false sample_elim = Ok s' ∧
    read_module 3 (el_store s') (el_module s') = Some (eliminated keepF keepT sample_md).
Proof.
  destruct (eliminateDeadImports_correct (λ _ _ _, Ok tt) 3 sample_elim sample_md sample_read (λ _ _ _, eq_refl)) as (s' & kF & kT & E & _ & _ & Hr & _).
  - intros a b [= <- <-]. split; [lia|done].
  - exists s', kF, kT. split; [exact E|exact Hr].
Defined.
