(* ===== verification/DeadElimSafe.v ===== *)
(** A module that passes the checks of the emitter passes them after dead import
    elimination, and its references lead to what they led to. *)

From S2P Require Import Prelude Encoder Emit WasmModel TypeLayout WasmEncode WasmCheck BinaryWriter FuncSpace IndexShift InstrGraph InstrWalk FuncSweep DeadElim DeadElimOk DeadElimSpec DeadElimModule DeadElimMain.

(** * Plain type sections *)

(** A type section without explicit recursive groups has a physical index iff its members
    are well formed. *)
Lemma index_plain types : Forall (λ t, is_rec t = false) types →
  (∃ table, indexPhysicalTypes types = Ok table) ↔ Forall (λ t, check_member t = Ok tt) types.
Proof.
  intros Hp. unfold indexPhysicalTypes. generalize (0, mkTypeTable [] [] []).
  assert (∀ s, (∃ s', for_each types index_record s = Ok s') ↔ Forall (λ t, check_member t = Ok tt) types) as H.
  { induction Hp as [|t types Ht _ IH]; intros s; [split; [constructor|by exists s]|]. cbn [for_each]. rewrite Forall_cons.
    assert (check_member t = Ok tt ↔ ∃ s', index_record t s = Ok s') as Hrec.
    { destruct s as [ri [es rs ex]]. unfold index_record. destruct t; try done; cbn [index_members]; destruct (check_member _) as [[]|]; csimpl; naive_solver. }
    rewrite Hrec. destruct (index_record t s) as [s1|e]; cbn; [rewrite <- (IH s1); naive_solver|]. naive_solver. }
  intros s. rewrite <- (H s). destruct (for_each types index_record s) as [[n table]|]; csimpl; naive_solver.
Qed.

Lemma plain_members types : Forall (λ t, is_rec t = false) types → types ≫= members_of = types.
Proof. induction 1 as [|t types Ht _ IH]; [done|]. rewrite bind_cons, IH. by destruct t. Qed.

Lemma check_member_map t td : check_member (map_td t td) = check_member td.
Proof. destruct td as [| | | |s fin []]; try done. cbn. by destruct superTypeIdx. Qed.

Lemma is_rec_map t td : is_rec (map_td t td) = is_rec td.
Proof. by destruct td. Qed.

Lemma strip_map t td : strip_sub (map_td t td) = map_td t (strip_sub td).
Proof. by induction td using typedef_tree_ind. Qed.

Lemma survivors_elem {A} (keep : Z → bool) (l : list A) x :
  x ∈ survivors keep l ↔ ∃ o, keep o = true ∧ js_at l o = Some x.
Proof.
  induction l as [|y l IH] using rev_ind.
  - cbn. rewrite elem_of_nil. split; [done|]. intros (o & _ & Ho). by apply js_at_lt in Ho; cbn in Ho; lia.
  - rewrite survivors_snoc, elem_of_app, IH. split.
    + intros [(o & Hk & Ho)|Hx]; [exists o; split; [done|]; pose proof (js_at_lt _ _ _ Ho); by rewrite js_at_app_l by lia|].
      exists (Z.of_nat (length l)). destruct (keep _); [|by apply not_elem_of_nil in Hx]. apply list_elem_of_singleton in Hx as ->. split; [done|].
      rewrite js_at_nat. by rewrite list_lookup_middle.
    + intros (o & Hk & Ho). pose proof (js_at_lt _ _ _ Ho) as Hlt. rewrite length_app in Hlt. cbn in Hlt. destruct (decide (o = Z.of_nat (length l))) as [->|].
      * right. rewrite Hk. rewrite js_at_nat, list_lookup_middle in Ho by done. injection Ho as ->. left.
      * left. exists o. split; [done|]. by rewrite js_at_app_l in Ho by lia.
Qed.

(** * References of the renamed module *)

Section uses.
Context (f t : Z → Z) (Hneg : ∀ x, 0 ≤ t x ↔ 0 ≤ x).

Definition use_map (u : use) : use :=
  match u with
  | UFunc h => UFunc (f h)
  | UType x => UType (t x) | USignature x => USignature (t x) | UHeapType x => UHeapType (t x) | UField x n => UField (t x) n
  | u => u
  end.

Lemma valtype_uses_map vt : valtype_uses (map_vt t vt) = use_map <$> valtype_uses vt.
Proof. by destruct vt. Qed.

Lemma blocktype_uses_map bt : blocktype_uses (map_bt t bt) = use_map <$> blocktype_uses bt.
Proof. destruct bt; [done|apply valtype_uses_map|done]. Qed.

(** References element by element. *)
Lemma uses_map_list {X} (g g' : X → list use) (h : X → X) l :
  Forall (λ x, g' (h x) = use_map <$> g x) l → (h <$> l) ≫= g' = use_map <$> (l ≫= g).
Proof. induction 1 as [|x l Hx _ IH]; [done|]. rewrite fmap_cons, !bind_cons, fmap_app, Hx. by rewrite IH. Qed.

Lemma catch_uses_map cs : cs ≫= catch_uses = use_map <$> (cs ≫= catch_uses).
Proof. induction cs as [|[[] [] ?] cs IH]; [done|..]; csimpl; by rewrite <- IH. Qed.

Lemma instr_uses_map i : instr_uses (map_instr f t i) = use_map <$> instr_uses i.
Proof.
  revert i. apply instr_tree_ind.
  - intros i. by destruct i.
  - intros bt body IH. cbn [map_instr instr_uses]. by rewrite blocktype_uses_map, (uses_map_list instr_uses), fmap_app.
  - intros bt body IH. cbn [map_instr instr_uses]. by rewrite blocktype_uses_map, (uses_map_list instr_uses), fmap_app.
  - intros bt th el IH IHe. cbn [map_instr instr_uses]. rewrite blocktype_uses_map, (uses_map_list instr_uses), !fmap_app by done.
    do 2 f_equal. destruct el as [l|]; [|done]. by apply (uses_map_list instr_uses), IHe.
  - intros bt body cs ca IH IHc IHa. cbn [map_instr instr_uses]. rewrite blocktype_uses_map, (uses_map_list instr_uses), !fmap_app by done.
    do 2 f_equal. f_equal.
    + apply (uses_map_list (λ c : Z * list Instr, UTag c.1 :: c.2 ≫= instr_uses)). eapply Forall_impl; [exact IHc|]. intros [x l] Hl. cbn in *.
      f_equal. by apply (uses_map_list instr_uses).
    + destruct ca as [l|]; [|done]. by apply (uses_map_list instr_uses), IHa.
  - intros bt body cs IH. cbn [map_instr instr_uses]. by rewrite blocktype_uses_map, (uses_map_list instr_uses), !fmap_app, <- catch_uses_map.
Qed.

Lemma body_uses_map l : (map_instr f t <$> l) ≫= instr_uses = use_map <$> (l ≫= instr_uses).
Proof. apply uses_map_list, Forall_true, instr_uses_map. Qed.

Lemma typedef_uses_map td : typedef_uses (map_td t td) = use_map <$> typedef_uses td.
Proof.
  induction td using typedef_tree_ind; cbn [map_td typedef_uses].
  - rewrite <- fmap_app. apply uses_map_list, Forall_true, valtype_uses_map.
  - rewrite fmap_app. f_equal.
    + destruct s as [s|]; [|done]. cbn. pose proof (Hneg s). destruct (Z.leb_spec 0 (t s)), (Z.leb_spec 0 s); (done || lia).
    + apply (uses_map_list (λ x, valtype_uses (fd_type x))), Forall_true. intros []. apply valtype_uses_map.
  - apply valtype_uses_map.
  - by apply uses_map_list.
  - rewrite fmap_app. f_equal; [by destruct s|done].
Qed.

Lemma import_uses_map i : import_uses (map_import t i) = use_map <$> import_uses i.
Proof. unfold import_uses, map_import. destruct i as [x y []]; cbn; try done. apply valtype_uses_map. Qed.

Lemma export_uses_map x : export_uses (map_export f x) = use_map <$> export_uses x.
Proof. by destruct x as [n [] i]. Qed.

Lemma global_uses_map g : global_uses (map_global f t g) = use_map <$> global_uses g.
Proof. unfold global_uses. cbn. by rewrite valtype_uses_map, body_uses_map, fmap_app. Qed.

Lemma element_uses_map e : element_uses (map_element f t e) = use_map <$> element_uses e.
Proof.
  unfold element_uses. cbn. rewrite body_uses_map, !fmap_app, <- !list_fmap_compose. f_equal. by destruct (negb _).
Qed.

Lemma function_uses_map x : function_uses (map_function f t x) = use_map <$> function_uses x.
Proof.
  unfold function_uses. cbn. rewrite body_uses_map, fmap_app. f_equal. apply uses_map_list, Forall_true, valtype_uses_map.
Qed.
End uses.

(** * The spaces of the new module *)

Lemma absolute_own md h i : absoluteFuncIndex md h = Ok i → (h < STABLE_FUNC_BASE ∧ i = h) ∨
  ∃ p, STABLE_FUNC_BASE ≤ h ∧ js_at (m_funcOrdinalToPosition md) (h - STABLE_FUNC_BASE) = Some (Some p) ∧ i = import_count md + p.
Proof.
  unfold absoluteFuncIndex, absoluteFuncIndexCached. destruct (Z.ltb_spec h STABLE_FUNC_BASE); [intros [= ->]; by left|]. intros E.
  right. destruct (js_at _ _) as [[p|]|]; try done. injection E as <-. by exists p.
Qed.

Section spaces.
Context (keepF keepT : Z → bool) (md : WasmModule).
Abbreviation f := (new_func keepF md).
Abbreviation t := (new_type keepT md).
Abbreviation md' := (eliminated keepF keepT md).
Context (HF : ∀ h, 0 ≤ h < func_total md → keepF h = true ↔ live_func md h) (HT : ∀ x, keepT x = true ↔ live_type md x).

Lemma import_count_nonneg : 0 ≤ import_count md.
Proof. unfold import_count, count_if. lia. Qed.

Lemma new_func_live h : live_func md h → 0 ≤ h < func_total md → f h = rank keepF h.
Proof. intros Hl Hh. unfold new_func, renamed. rewrite decide_True; [done|]. split; [done|]. by apply HF. Qed.

Lemma new_type_live x : live_type md x → 0 ≤ x < Z.of_nat (length (m_types md)) → t x = rank keepT x.
Proof. intros Hl Hx. unfold new_type, renamed. rewrite decide_True; [done|]. split; [done|]. by apply HT. Qed.

Lemma new_type_sign x : 0 ≤ t x ↔ 0 ≤ x.
Proof. unfold new_type, renamed. case_decide as Hx; [|done]. pose proof (rank_range keepT x ltac:(lia)). lia. Qed.

(** Imports that are not functions keep their number; functions keep the live ones. *)
Lemma keep_imports_funcs n imports :
  filter (λ i, is_func_import i = true) (keep_imports keepF n imports) =
    omap (λ p : Z * Import_, if keepF p.1 then Some p.2 else None)
      (zip (seqZ n (Z.of_nat (length (filter (λ i, is_func_import i = true) imports)))) (filter (λ i, is_func_import i = true) imports)).
Proof.
  revert n. induction imports as [|i imports IH]; intros n; [done|]. cbn [keep_imports]. destruct (is_func_import i) eqn:Ei.
    rewrite filter_app, IH. rewrite (filter_cons_True _ i) by done. cbn [length]. rewrite (seqZ_cons n) by lia.
    replace (Z.succ n) with (n + 1) by lia. replace (Z.pred (Z.of_nat (S _))) with (Z.of_nat (length (filter (λ i, is_func_import i = true) imports))) by lia.
    cbn. destruct (keepF n); [|done]. by rewrite filter_cons_True.
  - by rewrite !filter_cons_False, IH by congruence.
Qed.

Lemma func_imports_eliminated : func_imports md' = map_import t <$> survivors keepF (func_imports md).
Proof.
  unfold func_imports, survivors. cbn [m_imports eliminated]. rewrite <- keep_imports_funcs. generalize (keep_imports keepF 0 (m_imports md)).
  intros l. induction l as [|i l IH]; [done|]. csimpl. rewrite !filter_cons. rewrite IH.
  assert (is_func_import (map_import t i) = is_func_import i) as -> by (by destruct i as [x y []]). by case_decide.
Qed.

Lemma import_count_eliminated : import_count md' = rank keepF (import_count md).
Proof.
  transitivity (Z.of_nat (length (func_imports md'))); [done|]. rewrite func_imports_eliminated, length_fmap, length_survivors. done.
Qed.

Lemma func_total_eliminated : func_total md' = rank keepF (func_total md).
Proof.
  unfold func_total. rewrite import_count_eliminated. cbn [m_functions eliminated]. rewrite length_fmap. symmetry. apply rank_above.
  - apply import_count_nonneg.
  - intros x Hx. apply HF; [pose proof import_count_nonneg; unfold func_total; lia|]. by apply own_functions_live.
  - lia.
Qed.

(** A defined function keeps its distance to the imports. *)
Lemma new_func_own p : 0 ≤ p < Z.of_nat (length (m_functions md)) → f (import_count md + p) = import_count md' + p.
Proof.
  intros Hp. pose proof import_count_nonneg. rewrite new_func_live by (unfold func_total; first [lia|apply own_functions_live; unfold func_total; lia]).
  rewrite import_count_eliminated. apply rank_above; [done| |lia]. intros x Hx.
  apply HF; [unfold func_total; lia|]. apply own_functions_live. unfold func_total. lia.
Qed.

Lemma types_eliminated x : live_type md x → js_at (m_types md') (t x) = map_td t <$> js_at (m_types md) x.
Proof.
  intros Hl. cbn [m_types eliminated]. destruct (decide (0 ≤ x < Z.of_nat (length (m_types md)))) as [Hx|Hx].
  - rewrite new_type_live by done. unfold js_at at 1. destruct (Z.ltb_spec (rank keepT x) 0); [pose proof (rank_range keepT x ltac:(lia)); lia|].
    rewrite list_lookup_fmap. rewrite <- (survivors_lookup keepT (m_types md) x) by (lia || by apply HT).
    unfold js_at. by destruct (Z.ltb_spec (rank keepT x) 0); [lia|].
  - assert (t x = x) as -> by (unfold new_type, renamed; rewrite decide_False by tauto; done).
    assert (js_at (m_types md) x = None) as -> by (destruct (js_at (m_types md) x) eqn:E; [by apply js_at_lt in E|done]).
    destruct (js_at (map_td t <$> survivors keepT (m_types md)) x) eqn:E; [|done]. apply js_at_lt in E. rewrite length_fmap, length_survivors in E.
    pose proof (rank_range keepT (Z.of_nat (length (m_types md))) ltac:(lia)). lia.
Qed.

Lemma type_range x : live_type md x → 0 ≤ x < Z.of_nat (length (m_types md)) → 0 ≤ t x < Z.of_nat (length (m_types md')).
Proof.
  intros Hl Hx. cbn [m_types eliminated]. rewrite length_fmap, length_survivors, new_type_live by done.
  pose proof (rank_range keepT x ltac:(lia)). split; [lia|]. apply rank_lt; [lia..|by apply HT].
Qed.

Lemma func_range h : live_func md h → 0 ≤ h < func_total md → 0 ≤ f h < func_total md'.
Proof.
  intros Hl Hx. rewrite func_total_eliminated, new_func_live by done. pose proof (rank_range keepF h).
  pose proof (rank_lt keepF h (func_total md)) as Hlt. rewrite HF in Hlt by done. split; [lia|]. apply Hlt; [lia..|done].
Qed.
(** ** Handles *)

Context (Hplain : Forall (λ x, is_rec x = false) (m_types md)) (Hbase : func_total md ≤ STABLE_FUNC_BASE).

(** A live handle of the old module, renamed, is the new index of its function. *)
Lemma absolute_eliminated h i : live_func md h → absoluteFuncIndex md h = Ok i → 0 ≤ i < func_total md →
  (∀ p, js_at (m_funcOrdinalToPosition md) (h - STABLE_FUNC_BASE) = Some (Some p) → 0 ≤ p) →
  absoluteFuncIndex md' (f h) = Ok (rank keepF i) ∧ keepF i = true.
Proof.
  intros Hl Habs Hi Hp. apply absolute_own in Habs as [[Hh ->]|(p & Hh & Ep & ->)].
  - rewrite new_func_live by done. split; [|by apply HF]. unfold absoluteFuncIndex. pose proof (rank_range keepF h ltac:(lia)).
    by destruct (Z.ltb_spec (rank keepF h) STABLE_FUNC_BASE); [|lia].
  - specialize (Hp p Ep). assert (f h = h) as -> by (unfold new_func, renamed; rewrite decide_False by lia; done).
    assert (0 ≤ p < Z.of_nat (length (m_functions md))) as Hp' by (unfold func_total in Hi; lia).
    assert (live_func md (import_count md + p)) as Hlp by (apply own_functions_live; unfold func_total; lia).
    split; [|by apply HF]. unfold absoluteFuncIndex, absoluteFuncIndexCached. destruct (Z.ltb_spec h STABLE_FUNC_BASE); [lia|].
    change (m_funcOrdinalToPosition md') with (m_funcOrdinalToPosition md). rewrite Ep. f_equal.
    rewrite <- new_func_live by done. symmetry. by apply new_func_own.
Qed.

(** The function there is the old one, renamed. *)
Lemma entity_eliminated i : keepF i = true → 0 ≤ i < func_total md →
  entity_at md' (rank keepF i) = sum_map (map_import t) (map_function f t) <$> entity_at md i.
Proof.
  intros Hk Hi. pose proof import_count_nonneg. unfold entity_at. rewrite import_count_eliminated. destruct (Z.ltb_spec i (import_count md)) as [Hlt|Hge].
  - pose proof (rank_lt keepF i (import_count md) ltac:(lia) Hlt Hk). destruct (Z.ltb_spec (rank keepF i) (rank keepF (import_count md))); [|lia].
    rewrite func_imports_eliminated. unfold js_at at 1. destruct (Z.ltb_spec (rank keepF i) 0); [pose proof (rank_range keepF i ltac:(lia)); lia|].
    rewrite list_lookup_fmap. rewrite <- (survivors_lookup keepF (func_imports md) i Hk) by (split; [lia|exact Hlt]).
    unfold js_at. destruct (Z.ltb_spec (rank keepF i) 0); [lia|]. by destruct (survivors _ _ !! _).
  - assert (0 ≤ i - import_count md < Z.of_nat (length (m_functions md))) as Hp by (unfold func_total in Hi; lia).
    pose proof (new_func_own _ Hp) as Hn. replace (import_count md + (i - import_count md)) with i in Hn by lia.
    rewrite new_func_live, import_count_eliminated in Hn by (done || by apply HF). rewrite Hn.
    destruct (Z.ltb_spec (rank keepF (import_count md) + (i - import_count md)) (rank keepF (import_count md))); [lia|].
    replace (rank keepF (import_count md) + (i - import_count md) - rank keepF (import_count md)) with (i - import_count md) by lia.
    cbn [m_functions eliminated]. unfold js_at. destruct (Z.ltb_spec (i - import_count md) 0); [lia|]. rewrite list_lookup_fmap.
    by destruct (m_functions md !! _).
Qed.
End spaces.

(** * The checks of the emitter *)

Lemma plain_ctx md : Forall (λ x, is_rec x = false) (m_types md) → ∀ c, makeValidationCtx md = Ok c ↔
  Forall (λ x, check_member x = Ok tt) (m_types md) ∧
  c = mkValCtx (func_total md) (Z.of_nat (length (m_types md)))
    (count_imports_of (λ d, match d with IGlobal _ _ => true | _ => false end) md + size (m_globals md))
    (count_imports_of (λ d, match d with ITag _ => true | _ => false end) md + size (m_tags md))
    (count_imports_of (λ d, match d with ITable _ _ _ => true | _ => false end) md + size (m_tables md))
    (count_imports_of (λ d, match d with IMemory _ _ => true | _ => false end) md + size (m_memories md))
    (m_types md) (js "module") (-1).
Proof.
  intros Hp c. rewrite <- (index_plain _ Hp). unfold makeValidationCtx. cbv zeta.
  destruct (indexPhysicalTypes (m_types md)) as [table|e] eqn:Et; csimpl; [|naive_solver].
  pose proof (indexPhysicalTypes_yields (m_types md)) as Hy. rewrite Et in Hy. destruct Hy as [_ Hd]. rewrite plain_members in Hd by done.
  rewrite Hd. unfold func_total. split; [intros [= <-]; split; [by exists table|done]|]. by intros [_ ->].
Qed.

Lemma count_kept g keep t imports n :
  (∀ i, g (im_desc (map_import t i)) = g (im_desc i)) → (∀ i, is_func_import i = true → g (im_desc i) = false) →
  count_if (λ i, g (im_desc i)) (map_import t <$> keep_imports keep n imports) = count_if (λ i, g (im_desc i)) imports.
Proof.
  intros Hg Hf. unfold count_if. f_equal. revert n. induction imports as [|i imports IH]; intros n; [done|].
  cbn [keep_imports]. rewrite (filter_cons _ i). destruct (is_func_import i) eqn:Ei.
  - rewrite decide_False by (rewrite Hf by done; done). rewrite <- (IH (n + 1)). destruct (keep n); [|done]. csimpl.
    rewrite filter_cons_False by (rewrite Hg, Hf by done; done). done.
  - csimpl. rewrite filter_cons, Hg. case_decide; cbn; by rewrite (IH n).
Qed.

Section checked.
Context (keepF keepT : Z → bool) (md : WasmModule).
Abbreviation f := (new_func keepF md).
Abbreviation t := (new_type keepT md).
Abbreviation md' := (eliminated keepF keepT md).
Context (HF : ∀ h, 0 ≤ h < func_total md → keepF h = true ↔ live_func md h) (HT : ∀ x, keepT x = true ↔ live_type md x).
Context (Hplain : Forall (λ x, is_rec x = false) (m_types md)) (Hbase : func_total md ≤ STABLE_FUNC_BASE).
Context (Hpos : ∀ o p, js_at (m_funcOrdinalToPosition md) o = Some (Some p) → 0 ≤ p).
Context (c : EmitValidationCtx) (Hc : makeValidationCtx md = Ok c).

Lemma eliminated_plain : Forall (λ x, is_rec x = false) (m_types md').
Proof.
  cbn [m_types eliminated]. apply Forall_fmap, list.Forall_forall. intros x (o & _ & Hx)%survivors_elem. cbn. rewrite is_rec_map.
  rewrite list.Forall_forall in Hplain. apply js_at_Some in Hx as [_ Hx]. by eapply Hplain, list_elem_of_lookup_2.
Qed.

Lemma eliminated_ctx : ∃ c', makeValidationCtx md' = Ok c' ∧
  numFuncs c' = func_total md' ∧ numTypes c' = Z.of_nat (length (m_types md')) ∧ flatTypes c' = m_types md' ∧
  numGlobals c' = numGlobals c ∧ numTags c' = numTags c ∧ numTables c' = numTables c ∧ numMemories c' = numMemories c.
Proof.
  apply (plain_ctx md Hplain) in Hc as [Hm ->]. eexists. split; [apply (plain_ctx md' eliminated_plain)|].
  - split; [|done]. cbn [m_types eliminated]. apply Forall_fmap, list.Forall_forall. intros x (o & _ & Hx)%survivors_elem. cbn.
    rewrite check_member_map. rewrite list.Forall_forall in Hm. apply js_at_Some in Hx as [_ Hx]. by eapply Hm, list_elem_of_lookup_2.
  - cbn [numFuncs numTypes flatTypes numGlobals numTags numTables numMemories]. unfold count_imports_of, size. cbn [m_imports m_globals m_tags m_tables m_memories eliminated].
    rewrite !length_fmap. split_and!; try done; f_equal.
    + apply (count_kept (λ d, match d with IGlobal _ _ => true | _ => false end)); by intros [x y []].
    + apply (count_kept (λ d, match d with ITag _ => true | _ => false end)); by intros [x y []].
    + apply (count_kept (λ d, match d with ITable _ _ _ => true | _ => false end)); by intros [x y []].
    + apply (count_kept (λ d, match d with IMemory _ _ => true | _ => false end)); by intros [x y []].
Qed.
Abbreviation layout := (Some (resolveLayout md)).
Abbreviation layout' := (Some (resolveLayout md')).

Definition live_use (u : use) : Prop := (∀ h, h ∈ use_funcs u → live_func md h) ∧ (∀ x, x ∈ use_types u → live_type md x).

Section new_ctx.
Context (c' : EmitValidationCtx) (Efuncs : numFuncs c' = func_total md') (Etypes : numTypes c' = Z.of_nat (length (m_types md')))
  (Eflat : flatTypes c' = m_types md') (Eglobals : numGlobals c' = numGlobals c) (Etags : numTags c' = numTags c)
  (Etables : numTables c' = numTables c) (Ememories : numMemories c' = numMemories c).

Lemma old_ctx : numFuncs c = func_total md ∧ numTypes c = Z.of_nat (length (m_types md)) ∧ flatTypes c = m_types md.
Proof. by apply (plain_ctx md Hplain) in Hc as [_ ->]. Qed.

Lemma resolve_eliminated n x : live_type md x →
  resolveTypeDefAt (set_maxLocals n c') (t x) = map_td t <$> resolveTypeDefAt (set_maxLocals n c) x.
Proof.
  intros Hl. destruct old_ctx as (_ & _ & Ef). unfold resolveTypeDefAt. cbn [flatTypes set_maxLocals]. rewrite Ef, Eflat.
  rewrite (types_eliminated keepF keepT md HT x Hl). destruct (js_at (m_types md) x); [|done]. cbn. by rewrite strip_map.
Qed.

Lemma use_ok_eliminated n u :
  live_use u → use_ok (set_maxLocals n c) layout u → use_ok (set_maxLocals n c') layout' (use_map f t u).
Proof.
  intros [HlF HlT] Hok. destruct old_ctx as (EF & ET & Efl).
  assert (∀ x, live_type md x → 0 ≤ x < numTypes c → 0 ≤ t x < numTypes c') as Hrange.
  { intros x Hl Hx. rewrite Etypes. apply type_range; [done..|]. by rewrite <- ET. }
  destruct u as [h|g|x|x|x|x|x|x|x|x fi]; cbn [use_ok use_map use_funcs use_types] in *;
    cbn [numFuncs numGlobals numTypes numTags numTables numMemories maxLocals set_maxLocals] in *; try by rewrite ?Eglobals, ?Etags, ?Etables, ?Ememories.
  - destruct Hok as (i & Hi & Hr). rewrite layout_absolute in Hi. rewrite EF in Hr.
    destruct (absolute_eliminated keepF keepT md HF Hbase h i (HlF h ltac:(left)) Hi Hr (λ p, Hpos _ p)) as [Ha Hk].
    exists (rank keepF i). rewrite layout_absolute. split; [done|]. rewrite Efuncs, (func_total_eliminated keepF keepT md HF).
    pose proof (rank_range keepF i ltac:(lia)). split; [lia|]. by apply rank_lt; [lia..|].
  - apply Hrange; [apply HlT; left|done].
  - destruct Hok as (Hx & ps & rs & Hr). split; [apply Hrange; [apply HlT; left|done]|].
    rewrite resolve_eliminated, Hr by (apply HlT; left). by eexists _, _.
  - destruct (decide (0 ≤ x)) as [Hx|Hx].
    + pose proof (Hrange x (HlT x ltac:(left)) ltac:(lia)). lia.
    + assert (t x = x) as -> by (unfold new_type, renamed; rewrite decide_False by tauto; done). rewrite Etypes. lia.
  - destruct Hok as (Hx & Hr). split; [apply Hrange; [apply HlT; left|done]|]. intros fs s fin.
    rewrite resolve_eliminated by (apply HlT; left). destruct (resolveTypeDefAt (set_maxLocals n c) x) as [[|fs0 s0 fin0| | |]|] eqn:E; try done.
    intros [= <- _ _]. rewrite length_fmap. by eapply Hr.
Qed.

Lemma uses_eliminated n us :
  (∀ u, u ∈ us → live_use u) → Forall (use_ok (set_maxLocals n c) layout) us →
  Forall (use_ok (set_maxLocals n c') layout') (use_map f t <$> us).
Proof.
  intros Hl Hok. apply Forall_fmap. rewrite list.Forall_forall in *. intros u Hu. apply use_ok_eliminated; auto.
Qed.

Lemma module_use_live u : u ∈ module_refs md → live_use u.
Proof.
  intros Hu. split; intros x Hx.
  - apply list_elem_of_bind. by exists u.
  - apply needs_base. left. apply list_elem_of_bind. by exists u.
Qed.

Lemma frame_eliminated x : live_type md (wf_typeIdx x) → frame_size c' (map_function f t x) = frame_size c x.
Proof.
  intros Hl. unfold frame_size, resolveParamCount. cbn [wf_typeIdx wf_locals map_function].
  pose proof (resolve_eliminated 0 _ Hl) as Hr. unfold resolveTypeDefAt in Hr |- *. cbn [flatTypes set_maxLocals] in Hr. rewrite Hr.
  unfold size. rewrite length_fmap. destruct (strip_sub <$> js_at (flatTypes c) (wf_typeIdx x)) as [[]|]; cbn; by rewrite ?length_fmap.
Qed.

(** A list of the module: the references of its elements are those of the module. *)
Lemma list_eliminated {X} (g : X → list use) (h : X → X) (l : list X) :
  (∀ x, g (h x) = use_map f t <$> g x) → (∀ u, u ∈ l ≫= g → u ∈ module_refs md) →
  Forall (use_ok (set_maxLocals (-1) c) layout) (l ≫= g) → Forall (use_ok (set_maxLocals (-1) c') layout') ((h <$> l) ≫= g).
Proof.
  intros Hg Hin Hok. rewrite (uses_map_list f t g) by (by apply Forall_true). apply uses_eliminated; [|done].
  intros u Hu. by apply module_use_live, Hin.
Qed.

Lemma typedef_live td x o u : live_type md o → js_at (m_types md) o = Some td → u ∈ typedef_uses td → x ∈ use_types u → live_type md x.
Proof.
  intros Hl Ho Hu Hx. eapply needs_ref; [exact Hl|]. unfold refs_at. rewrite Ho. clear -Hu Hx.
  assert (∀ vt, u ∈ valtype_uses vt → x ∈ vt_refs vt) as Hvt by (intros []; cbn; rewrite ?elem_of_nil, ?list_elem_of_singleton; try done; intros ->; by apply list_elem_of_singleton in Hx).
  revert Hu. induction td using typedef_tree_ind; cbn [typedef_uses td_refs].
  - rewrite !list_elem_of_bind. intros (vt & Hu & ?). exists vt. split; [by apply Hvt|done].
  - rewrite !elem_of_app, !list_elem_of_bind. intros [Hu|(fd & Hu & ?)].
    + left. destruct s as [s|]; [|by apply not_elem_of_nil in Hu]. destruct (0 <=? s); [|by apply not_elem_of_nil in Hu].
      apply list_elem_of_singleton in Hu as ->. exact Hx.
    + right. exists fd. split; [by apply Hvt|done].
  - apply Hvt.
  - rewrite !list_elem_of_bind. intros (td & Hu & Htd). exists td. split; [|done].
    match goal with HP : Forall _ _ |- _ => rewrite list.Forall_forall in HP; by apply HP end.
  - rewrite !elem_of_app. intros [Hu|Hu]; [left|right; auto]. destruct s as [s|]; [|by apply not_elem_of_nil in Hu].
    apply list_elem_of_singleton in Hu as ->. exact Hx.
Qed.

Lemma typedef_funcs td u : u ∈ typedef_uses td → use_funcs u = [].
Proof.
  assert (∀ vt, u ∈ valtype_uses vt → use_funcs u = []) as Hvt.
  { intros []; cbn; rewrite ?elem_of_nil, ?list_elem_of_singleton; try done; by intros ->. }
  induction td using typedef_tree_ind; cbn [typedef_uses].
  - rewrite list_elem_of_bind. intros (vt & Hu & _). by eapply Hvt.
  - rewrite elem_of_app, list_elem_of_bind. intros [Hu|(fd & Hu & _)]; [|by eapply Hvt].
    destruct s as [s|]; [|by apply not_elem_of_nil in Hu]. destruct (0 <=? s); [|by apply not_elem_of_nil in Hu].
    by apply list_elem_of_singleton in Hu as ->.
  - apply Hvt.
  - rewrite list_elem_of_bind. intros (td & Hu & Htd).
    match goal with HP : Forall _ _ |- _ => rewrite list.Forall_forall in HP; by eapply HP end.
  - rewrite elem_of_app. intros [Hu|Hu]; [|auto]. destruct s as [s|]; [|by apply not_elem_of_nil in Hu].
    by apply list_elem_of_singleton in Hu as ->.
Qed.

Lemma types_checked : Forall (use_ok (set_maxLocals (-1) c) layout) (flatTypes c ≫= typedef_uses) →
  Forall (use_ok (set_maxLocals (-1) c') layout') (flatTypes c' ≫= typedef_uses).
Proof.
  destruct old_ctx as (_ & _ & Ef). rewrite Ef, Eflat. cbn [m_types eliminated].
  rewrite (uses_map_list f t typedef_uses) by (apply Forall_true; intros; apply typedef_uses_map, new_type_sign).
  intros Hok. apply uses_eliminated.
  - intros u (td & Hu & (o & Hk & Ho)%survivors_elem)%list_elem_of_bind. apply HT in Hk. split; intros x Hx.
    + rewrite (typedef_funcs td u Hu) in Hx. by apply not_elem_of_nil in Hx.
    + by eapply typedef_live.
  - rewrite list.Forall_forall in Hok |- *. intros u (td & Hu & (o & Hk & Ho)%survivors_elem)%list_elem_of_bind.
    apply Hok, list_elem_of_bind. exists td. split; [done|]. apply js_at_Some in Ho as [_ Ho]. by eapply list_elem_of_lookup_2.
Qed.

(** Kept imports. *)
Lemma kept_elem n imports i : i ∈ keep_imports keepF n imports ↔
  (i ∈ imports ∧ is_func_import i = false) ∨ ∃ k, n ≤ k ∧ keepF k = true ∧ filter (λ i, is_func_import i = true) imports !! Z.to_nat (k - n) = Some i.
Proof.
  split.
  - intros Hi. destruct (is_func_import i) eqn:Ei.
    + right. assert (i ∈ filter (λ i, is_func_import i = true) (keep_imports keepF n imports)) as Hf by (by apply list_elem_of_filter).
      rewrite keep_imports_funcs in Hf. apply list_elem_of_omap in Hf as ([k j] & Hz & Hk). cbn in Hk. destruct (keepF k) eqn:Ek; [|done].
      injection Hk as ->. apply list_elem_of_lookup in Hz as [q Hq]. apply lookup_zip_with_Some in Hq as (k' & j' & [= <- <-] & Hq & Hj).
      apply lookup_seqZ in Hq as [-> Hq]. exists (n + Z.of_nat q). split_and!; [lia|done|]. by replace (Z.to_nat (n + Z.of_nat q - n)) with q by lia.
    + left. split; [|done]. revert n Hi. induction imports as [|j imports IH]; intros n; cbn [keep_imports]; [by rewrite !elem_of_nil|].
      destruct (is_func_import j) eqn:Ej; [|rewrite !elem_of_cons; intros [->|?]; [by left|right; by eapply IH]].
      rewrite elem_of_app. intros [Hi|Hi]; [|right; by eapply IH]. destruct (keepF n); [|by apply not_elem_of_nil in Hi].
      apply list_elem_of_singleton in Hi as ->. congruence.
  - revert n. induction imports as [|j imports IH]; intros n; cbn [keep_imports].
    { intros [[Hi _]|(k & _ & _ & Hi)]; [by apply not_elem_of_nil in Hi|done]. }
    rewrite filter_cons. destruct (is_func_import j) eqn:Ej.
    + rewrite decide_True by done. rewrite elem_of_app. intros [[[->|Hi]%elem_of_cons Hf]|(k & Hk & Hkeep & Hi)]; [congruence|right; apply IH; by left|].
      destruct (decide (k = n)) as [->|].
      * rewrite Hkeep. rewrite Z.sub_diag in Hi. injection Hi as ->. left. left.
      * right. apply IH. right. exists k. split_and!; [lia|done|]. by replace (Z.to_nat (k - n)) with (S (Z.to_nat (k - (n + 1)))) in Hi by lia.
    + rewrite decide_False by congruence. intros [[[->|Hi]%elem_of_cons Hf]|Hi]; apply elem_of_cons; [by left|right; apply IH; by left|right; apply IH; by right].
Qed.

Lemma kept_import_live i : i ∈ keep_imports keepF 0 (m_imports md) → ∀ u, u ∈ import_uses i → live_use u.
Proof.
  intros [[Hi Hn]|(k & H0 & Hk & Hi)]%kept_elem u Hu.
  - apply module_use_live. unfold module_refs. rewrite !elem_of_app. do 9 right. apply list_elem_of_bind. exists i. by rewrite Hn.
  - assert (is_func_import i = true) as Hf by (by apply list_elem_of_lookup_2, list_elem_of_filter in Hi as [? _]).
    unfold is_func_import in Hf. unfold import_uses in Hu. destruct (im_desc i) as [x| | | |] eqn:Ed; try done.
    apply list_elem_of_singleton in Hu as ->. split; [intros h Hh; by apply not_elem_of_nil in Hh|]. intros y ->%list_elem_of_singleton.
    rewrite Z.sub_0_r in Hi. assert (js_at (func_imports md) k = Some i) as Hk' by (by apply js_at_Some).
    apply needs_base. right. exists k, i. split_and!; [|done..]. apply HF; [|done]. apply js_at_lt in Hk'. unfold func_total, import_count, count_if.
    unfold func_imports in Hk'. lia.
Qed.

Lemma imports_checked : Forall (use_ok (set_maxLocals (-1) c) layout) (m_imports md ≫= import_uses) →
  Forall (use_ok (set_maxLocals (-1) c') layout') (m_imports md' ≫= import_uses).
Proof.
  intros Hok. cbn [m_imports eliminated]. rewrite (uses_map_list f t import_uses) by (apply Forall_true, import_uses_map).
  apply uses_eliminated.
  - intros u (i & Hu & Hi)%list_elem_of_bind. by eapply kept_import_live.
  - rewrite list.Forall_forall in Hok |- *. intros u (i & Hu & Hi)%list_elem_of_bind. apply Hok, list_elem_of_bind. exists i. split; [done|].
    apply kept_elem in Hi as [[Hi _]|(k & _ & _ & Hi)]; [done|]. by apply list_elem_of_lookup_2, list_elem_of_filter in Hi as [_ ?].
Qed.

(** The position of a list in the references of the module. *)
Ltac in_module_refs := unfold module_refs; rewrite !elem_of_app; tauto.

Lemma bodies_checked :
  Forall (use_ok (set_maxLocals (-1) c) layout) (m_functions md ≫= λ x, [USignature (wf_typeIdx x)]) →
  Forall (λ x, Forall (use_ok (set_maxLocals (frame_size c x) c) layout) (function_uses x)) (m_functions md) →
  Forall (λ x, Forall (use_ok (set_maxLocals (frame_size c' x) c') layout') (function_uses x)) (m_functions md').
Proof.
  intros Hsig Hok. cbn [m_functions eliminated]. apply Forall_fmap. rewrite list.Forall_forall in Hok |- *. intros x Hx.
  change (Forall (use_ok (set_maxLocals (frame_size c' (map_function f t x)) c') layout') (function_uses (map_function f t x))).
  assert (∀ u, u ∈ USignature (wf_typeIdx x) :: function_uses x → live_use u) as Hl.
  { intros u Hu. apply module_use_live. assert (u ∈ m_functions md ≫= λ x, USignature (wf_typeIdx x) :: function_uses x) by (apply list_elem_of_bind; by exists x).
    in_module_refs. }
  rewrite frame_eliminated by (apply (Hl (USignature (wf_typeIdx x))); left). rewrite function_uses_map.
  apply uses_eliminated; [intros u Hu; apply Hl; by right|]. by apply Hok.
Qed.

Lemma well_referenced_eliminated : well_referenced c layout md → well_referenced c' layout' md'.
Proof.
  intros [Rt Ri Rs Rtag Rg Re Rst Rel Rd Rb]. split.
  - by apply types_checked.
  - by apply imports_checked.
  - apply (list_eliminated (λ x, [USignature (wf_typeIdx x)])); [done| |done]. intros u (x & Hu & Hx)%list_elem_of_bind.
    assert (u ∈ m_functions md ≫= λ x, USignature (wf_typeIdx x) :: function_uses x); [|in_module_refs].
    apply list_elem_of_bind. exists x. split; [|done]. apply list_elem_of_singleton in Hu as ->. left.
  - apply (list_eliminated (λ x, [USignature (td_typeIdx x)])); [done| |done]. intros u Hu. in_module_refs.
  - apply list_eliminated; [apply global_uses_map| |done]. intros u Hu. in_module_refs.
  - apply list_eliminated; [apply export_uses_map| |done]. intros u Hu. in_module_refs.
  - cbn [m_startFuncIdx eliminated]. intros h Hh. destruct (m_startFuncIdx md) as [h0|] eqn:Es; [|done]. injection Hh as <-.
    apply (use_ok_eliminated (-1) (UFunc h0)); [|by apply Rst]. apply module_use_live.
    assert (UFunc h0 ∈ UFunc <$> opt_list (m_startFuncIdx md)) by (rewrite Es; left). in_module_refs.
  - apply list_eliminated; [apply element_uses_map| |done]. intros u Hu. in_module_refs.
  - cbn [m_declaredFuncRefs eliminated]. rewrite <- list_fmap_compose.
    change ((UFunc ∘ f) <$> m_declaredFuncRefs md) with ((use_map f t ∘ UFunc) <$> m_declaredFuncRefs md). rewrite list_fmap_compose.
    apply uses_eliminated; [|done]. intros u Hu. apply module_use_live. in_module_refs.
  - by apply bodies_checked.
Qed.
End new_ctx.

Lemma eliminated_well_referenced : well_referenced c layout md →
  ∃ c', makeValidationCtx md' = Ok c' ∧ well_referenced c' layout' md'.
Proof.
  intros Hw. destruct eliminated_ctx as (c' & Ec & ? & ? & ? & ? & ? & ? & ?). exists c'. split; [done|].
  by apply well_referenced_eliminated.
Qed.
End checked.

(** * Properties *)

(** The function, renamed, and the type, renamed. *)
Definition renames (f t : Z → Z) (md md' : WasmModule) : Prop :=
  m_functions md' = map_function f t <$> m_functions md ∧ m_exports md' = map_export f <$> m_exports md ∧
  m_elements md' = map_element f t <$> m_elements md ∧ m_globals md' = map_global f t <$> m_globals md ∧
  m_tags md' = map_tag t <$> m_tags md ∧ m_declaredFuncRefs md' = f <$> m_declaredFuncRefs md ∧
  m_startFuncIdx md' = f <$> m_startFuncIdx md.

Section properties.
Context (applyTypeLayoutRemap : list TypeDef → list TypeDef → list (option Z) → result ()) (depth : nat) (s : elim_state) (md : WasmModule).

(** What the pass may count on. *)
Record eliminable : Prop := {
  eb_read : read_module depth (el_store s) (el_module s) = Some md;
  eb_layout previous next targetsByOldIndex : applyTypeLayoutRemap previous next targetsByOldIndex = Ok tt;
  eb_group a b : m_canonicalRuntimeRecGroup md = Some (a, b) → 0 ≤ a ≤ b ∧ b < Z.of_nat (length (m_types md));
  eb_base : func_total md ≤ STABLE_FUNC_BASE;
  eb_positions o p : js_at (m_funcOrdinalToPosition md) o = Some (Some p) → 0 ≤ p }.

(** C29: every reference leads where it led.  The pass renames the module by two functions;
    every live handle of a function, the stable ones included, that had an index has one
    afterwards, where the same import or function is, renamed, and every live type is at
    its new index, renamed. *)
Theorem eliminateDeadImports_same_entities : eliminable →
  ∃ s' md' f t, eliminateDeadImports applyTypeLayoutRemap false s = Ok s' ∧ read_module depth (el_store s') (el_module s') = Some md' ∧
    renames f t md md' ∧
    (∀ h i e, live_func md h → absoluteFuncIndex md h = Ok i → 0 ≤ i → entity_at md i = Some e →
       ∃ i', absoluteFuncIndex md' (f h) = Ok i' ∧ entity_at md' i' = Some (sum_map (map_import t) (map_function f t) e)) ∧
    (∀ x td, live_type md x → js_at (m_types md) x = Some td → js_at (m_types md') (t x) = Some (map_td t td)).
Proof.
  intros [Hr Ha Hg Hb Hp]. destruct (eliminate_rest applyTypeLayoutRemap depth false s md _ _ _ md Hr eq_refl Hr) as (s' & kF & kT & E & HF & HT & Hr' & _); [by split|done..|].
  exists s', (eliminated kF kT md), (new_func kF md), (new_type kT md). split_and!; [done|done|by split_and!| |].
  - intros h i e Hl Hi H0 He. assert (0 ≤ i < func_total md) as Hi'.
    { pose proof (import_count_nonneg md). unfold entity_at in He. unfold func_total. destruct (Z.ltb_spec i (import_count md)); [lia|].
      destruct (js_at (m_functions md) (i - import_count md)) eqn:Ej; [|done]. apply js_at_lt in Ej. lia. }
    destruct (absolute_eliminated kF kT md HF Hb h i Hl Hi Hi' (λ p, Hp _ p)) as [Habs Hk]. exists (rank kF i). split; [done|].
    by rewrite (entity_eliminated kF kT md HF i Hk Hi'), He.
  - intros x td Hl Hx. by rewrite (types_eliminated kF kT md HT x Hl), Hx.
Qed.

End properties.

Lemma sample_eliminable : eliminable (λ _ _ _, Ok tt) 3 sample_elim sample_md.
Proof.
  split; [exact sample_read|done| |vm_compute; congruence|].
  - intros a b [= <- <-]. split; [lia|done].
  - intros o p Ho. apply js_at_Some in Ho as [_ Ho]. cbn in Ho. destruct (Z.to_nat o); cbn in Ho; by simplify_eq.
Qed.

Lemma eliminateDeadImports_same_entities_witness :
  eliminable (λ _ _ _, Ok tt) 3 sample_elim sample_md ∧ live_func sample_md 1 ∧ ¬ live_func sample_md 0 ∧
  ∃ s' md' f t, eliminateDeadImports (λ _ _ _, Ok tt) false sample_elim = Ok s' ∧ renames f t sample_md md' ∧
    ∃ i', absoluteFuncIndex md' (f 1) = Ok i' ∧ entity_at md' i' = Some (inl (mkImport_ (js "env") (js "live") (IFunc (t 1)))).
Proof.
  assert (live_func sample_md 1) as H1 by (unfold live_func; vm_compute; repeat (left || right)).
  split; [apply sample_eliminable|]. split; [done|]. split; [unfold live_func; vm_compute; intros Hn; repeat (apply elem_of_cons in Hn as [Hn|Hn]; [done|]); by apply not_elem_of_nil in Hn|].
  destruct (eliminateDeadImports_same_entities (λ _ _ _, Ok tt) 3 sample_elim sample_md sample_eliminable) as (s' & md' & f & t & E & _ & Hren & Hfun & _).
  exists s', md', f, t. split; [done|]. split; [done|]. apply (Hfun 1 1 (inl (mkImport_ (js "env") (js "live") (IFunc 1))) H1 eq_refl); [done|reflexivity].
Defined.

#[local] Instance plain_codec : TextCodec := { utf8_encode := id; utf8_decode := id }.

