(* ===== verification/FuncSweepOk.v ===== *)
(** The sweep marks exactly the functions that can run. *)

From S2P Require Import Prelude WasmModel WasmEncode WasmCheck BinaryWriter InstrGraph InstrWalk FuncSweep DeadElim DeadElimOk DeadElimModule DeadElimMain.

(** * The functions that can run *)

(** A handle stands for the function at a position. *)
Definition stands_for (md : WasmModule) (h p : Z) : Prop :=
  absoluteFuncIndex md h = Ok (import_count md + p) ∧ 0 ≤ p < Z.of_nat (length (m_functions md)).

(** The handles in exports, the start function, tables and initialisers. *)
Definition root_uses (md : WasmModule) : list use :=
  (m_exports md ≫= export_uses) ++ (UFunc <$> opt_list (m_startFuncIdx md)) ++
  (m_elements md ≫= element_uses) ++ (m_globals md ≫= global_uses).

Inductive runs (md : WasmModule) (names : list jsstr) : Z → Prop :=
  | runs_root h p : UFunc h ∈ root_uses md → stands_for md h p → runs md names p
  | runs_named p fn : js_at (m_functions md) p = Some fn → wf_name fn ∈ names → runs md names p
  | runs_call p fn h q : runs md names p → js_at (m_functions md) p = Some fn →
      UFunc h ∈ wf_body fn ≫= instr_uses → stands_for md h q → runs md names q.

(** * The state of the sweep *)

Definition falses (l : list bool) : nat := length (filter (λ b, b = false) l).

Lemma falses_set l p : js_at l p = Some false → S (falses (ta_set l p true)) = falses l.
Proof.
  intros [H0 Hp]%js_at_Some. unfold ta_set. destruct (Z.ltb_spec p 0); [lia|]. apply list_elem_of_split_length in Hp as (l1 & l2 & -> & ->).
  rewrite insert_app_r_alt by lia. rewrite Nat.sub_diag. cbn. unfold falses.
  rewrite !filter_app, !length_app, filter_cons_False, filter_cons_True by done. cbn. lia.
Qed.

Section sweep.
Context (depth : nat) (st : instr_store) (m : PModule) (md : WasmModule) (names : list jsstr).
Context (Hmd : read_module depth st m = Some md).
(** A recorded position is that of a function. *)
Context (Hpos : ∀ o p, js_at (p_funcOrdinalToPosition m) o = Some (Some p) → 0 ≤ p < Z.of_nat (length (p_functions m))).

Abbreviation nfuncs := (Z.of_nat (length (p_functions m))).
Abbreviation under := (inside (elements_of st) (children_of st)).
Abbreviation position h := (definedPosition m (numImportFuncs m) h).

Lemma module_functions : length (m_functions md) = length (p_functions m).
Proof. destruct (proj1 (read_module_parts _ _ _ _) Hmd) as (fs & es & gs & Hf & _ & _ & ->). cbn. symmetry. by eapply Forall2_length. Qed.

Lemma position_iff h p : (position h = p ∧ 0 ≤ p) ↔ stands_for md h p.
Proof.
  unfold stands_for, definedPosition, absoluteFuncIndex, absoluteFuncIndexCached. rewrite module_functions.
  destruct (proj1 (read_module_parts _ _ _ _) Hmd) as (fs & es & gs & _ & _ & _ & ->). unfold import_count, numImportFuncs. cbn [m_imports m_funcOrdinalToPosition].
  destruct (Z.leb_spec STABLE_FUNC_BASE h), (Z.ltb_spec h STABLE_FUNC_BASE); try lia.
  - destruct (js_at _ _) as [[q|]|] eqn:Eq; [|split; [lia|by intros [? _]]..]. pose proof (Hpos _ _ Eq). split.
    + intros [-> _]. split; [done|lia].
    + intros [[= E] _]. lia.
  - destruct (Z.leb_spec 0 (h - count_if is_func_import (p_imports m))), (Z.ltb_spec (h - count_if is_func_import (p_imports m)) nfuncs); cbn [andb];
      split; try lia; (intros [E ?]; split; [injection E as E|]; lia) || (intros [E ?]; injection E as E; lia) || (intros [? ?]; split; [f_equal|]; lia).
Qed.

(** The arrays that the sweep may scan. *)
Definition live_root (r : Z) : Prop :=
  r ∈ pe_offset <$> p_elements m ∨ r ∈ pg_init <$> p_globals m ∨
  ∃ p fn, runs md names p ∧ js_at (p_functions m) p = Some fn ∧ r = pf_body fn.

Definition live_array (b : Z) : Prop := ∃ r, live_root r ∧ rtc under r b.

Lemma root_read r : live_root r → ∃ l, read_body depth st r = Some l.
Proof.
  destruct (proj1 (read_module_parts _ _ _ _) Hmd) as (fs & es & gs & Hf & He & Hg & _).
  intros [(x & -> & Hx)%list_elem_of_fmap|[(x & -> & Hx)%list_elem_of_fmap|(p & fn & _ & Hfn & ->)]].
  - apply list_elem_of_lookup in Hx as [i Hi]. destruct (Forall2_lookup_l _ _ _ _ _ He Hi) as (y & _ & (l & ? & _)%read_element_Some). by exists l.
  - apply list_elem_of_lookup in Hx as [i Hi]. destruct (Forall2_lookup_l _ _ _ _ _ Hg Hi) as (y & _ & (l & ? & _)%read_global_Some). by exists l.
  - apply js_at_Some in Hfn as [_ Hi]. destruct (Forall2_lookup_l _ _ _ _ _ Hf Hi) as (y & _ & (l & ? & _)%read_function_Some). by exists l.
Qed.

Lemma live_array_dom b : live_array b → b ∈ dom (s_arrays st).
Proof. intros (r & Hr & Hb). destruct (root_read r Hr) as [l Hl]. by eapply read_inside_dom. Qed.

Lemma live_array_under a b : live_array a → under a b → live_array b.
Proof. intros (r & Hr & Ha) Hb. exists r. split; [done|]. by eapply rtc_r. Qed.

Lemma sweep_children_elem n c : c ∈ sweep_children n ↔ c ∈ walkChildren n.
Proof. destruct n; cbn [sweep_children walkChildren]; try done. rewrite !elem_of_cons, !elem_of_app. tauto. Qed.

(** ** The invariant *)

Definition marked (s : sweep) (p : Z) : Prop := js_at (sw_live s) p = Some true.

(** The work of an object is done. *)
Definition object_done (s : sweep) (id : Z) : Prop := ∀ n, s_objects st !! id = Some n →
  (∀ h p, node_funcIdx n = Some h → stands_for md h p → marked s p) ∧ ∀ c, c ∈ walkChildren n → c ∈ sw_visited s.

(** [bodies] are those of functions that have left the queue and are not scanned yet. *)
Record sweeping (bodies pending : list Z) (s : sweep) : Prop := {
  sg_length : length (sw_live s) = length (p_functions m);
  sg_runs p : marked s p → runs md names p;
  sg_arrays b : b ∈ sw_visited s → live_array b;
  sg_pending b : b ∈ pending → b ∈ sw_visited s;
  sg_done b id : b ∈ sw_visited s → b ∉ pending → id ∈ elements_of st b → object_done s id;
  sg_bodies p fn : marked s p → js_at (p_functions m) p = Some fn → p ∈ sw_queue s ∨ pf_body fn ∈ sw_visited s ∨ pf_body fn ∈ bodies;
  sg_queue p : p ∈ sw_queue s → marked s p }.

(** What is left to enter, and what is left to scan. *)
Definition unvisited (s : sweep) : nat := base.size (dom (s_arrays st) ∖ sw_visited s).
Definition unscanned (s : sweep) : nat := length (sw_queue s) + falses (sw_live s).

Record forward (s s' : sweep) : Prop := {
  fw_marked p : marked s p → marked s' p;
  fw_visited : sw_visited s ⊆ sw_visited s';
  fw_unscanned : (unscanned s' ≤ unscanned s)%nat }.

#[local] Instance forward_preorder : PreOrder forward.
Proof.
  split; [intros s; split; [auto|done|lia]|]. intros a b c [A1 A2 A3] [B1 B2 B3]. split; [auto|set_solver|lia].
Qed.

Lemma done_forward s s' id : forward s s' → object_done s id → object_done s' id.
Proof. intros [F1 F2 _] Hd n Hn. destruct (Hd n Hn) as [D1 D2]. split; [intros h p Hh Hp; by eapply F1, D1|]. intros c Hc. by apply F2, D2. Qed.

(** ** Its operations *)

Section scanning.
(** [W] are arrays that are being scanned. *)
Context (B W : list Z).

Lemma mark_ok p T s : sweeping B T s → (0 ≤ p → runs md names p ∧ p < nfuncs) →
  sweeping B T (mark p s) ∧ forward s (mark p s) ∧ (0 ≤ p → marked (mark p s) p) ∧ unvisited (mark p s) = unvisited s.
Proof.
  intros Hs Hp. unfold mark. destruct (Z.ltb_spec p 0) as [Hneg|H0]; cbn [orb].
  { split; [done|]. split; [done|]. split; [lia|done]. }
  destruct (Hp H0) as [Hrun Hlt]. destruct (js_at (sw_live s) p) as [[]|] eqn:Ep; cbn [default from_option].
  { unfold id. split; [done|]. split; [done|]. by split. }
  2:{ exfalso. assert (is_Some (js_at (sw_live s) p)) as [? ?] by (apply js_at_is_Some; rewrite (sg_length _ _ _ Hs); lia). congruence. }
  unfold id. assert (∀ q, marked (mkSweep (ta_set (sw_live s) p true) (p :: sw_queue s) (sw_visited s)) q ↔ q = p ∨ marked s q) as Hm.
  { intros q. unfold marked. cbn. rewrite js_at_ta_set. apply js_at_lt in Ep. case_decide; naive_solver. }
  assert (forward s (mkSweep (ta_set (sw_live s) p true) (p :: sw_queue s) (sw_visited s))) as Hfw.
  { split; [intros q Hq; apply Hm; by right|done|]. unfold unscanned. cbn [sw_live sw_queue length]. pose proof (falses_set _ _ Ep). lia. }
  split; [|split; [done|split; [|done]]].
  - destruct Hs as [S1 S2 S3 S4 S5 S6 S7]. split; cbn [sw_live sw_queue sw_visited].
    + by rewrite length_ta_set.
    + intros q [->|Hq]%Hm; [done|by apply S2].
    + done.
    + done.
    + intros b id Hb Hn Hid. eapply done_forward; [exact Hfw|by eapply S5].
    + intros q fn [->|Hq]%Hm Hfn; [left; left|]. destruct (S6 q fn Hq Hfn) as [?|?]; [left; by right|by right].
    + intros q [->|Hq]%elem_of_cons; apply Hm; [by left|right; by apply S7].
  - intros _. apply Hm. by left.
Qed.


Lemma mark_queue_ok a T s : sweeping B (T ++ W) s → live_array a →
  let '(T', s') := push a (T, s) in
  sweeping B (T' ++ W) s' ∧ forward s s' ∧ a ∈ sw_visited s' ∧ (∀ b, b ∈ T → b ∈ T') ∧ (length T' + unvisited s' ≤ length T + unvisited s)%nat.
Proof.
  intros Hs Ha. unfold push. cbn [fst snd]. case_bool_decide as Hv.
  { split; [done|]. split; [done|]. split; [done|]. split; [auto|lia]. }
  assert (forward s (mkSweep (sw_live s) (sw_queue s) ({[a]} ∪ sw_visited s))) as Hfw by (split; [auto|set_solver|done]).
  split; [|split; [done|split; [set_solver|split; [by right|]]]].
  - destruct Hs as [S1 S2 S3 S4 S5 S6 S7]. split; cbn [sw_live sw_queue sw_visited]; try done.
    + intros b [->%elem_of_singleton|Hb]%elem_of_union; [done|by apply S3].
    + intros b [->|Hb]%elem_of_cons; [set_solver|]. apply elem_of_union. right. by apply S4.
    + intros b id [->%elem_of_singleton|Hb]%elem_of_union Hn Hid; [exfalso; apply Hn; left|].
      eapply done_forward; [exact Hfw|]. eapply S5; [done| |done]. intros HT. apply Hn. by right.
    + intros q fn Hq Hfn. destruct (S6 q fn Hq Hfn) as [?|[?|?]]; [by left|right; left; set_solver|by do 2 right].
  - unfold unvisited. cbn. assert (base.size (dom (s_arrays st) ∖ ({[a]} ∪ sw_visited s)) < base.size (dom (s_arrays st) ∖ sw_visited s))%nat; [|lia].
    apply subset_size. pose proof (live_array_dom a Ha). set_solver.
Qed.

(** One step of the machine state of a scan. *)
Definition advances (T : list Z) (s : sweep) (r : list Z * sweep) : Prop :=
  sweeping B (r.1 ++ W) r.2 ∧ forward s r.2 ∧ (∀ b, b ∈ T → b ∈ r.1) ∧ (length r.1 + unvisited r.2 ≤ length T + unvisited s)%nat.

Lemma advances_refl T s : sweeping B (T ++ W) s → advances T s (T, s).
Proof. intros Hs. split; [done|]. split; [done|]. split; [auto|done]. Qed.

Lemma advances_trans T s r r' : advances T s r → advances r.1 r.2 r' → advances T s r'.
Proof. intros (_ & A2 & A3 & A4) (B1 & B2 & B3 & B4). split; [done|]. split; [by etrans|]. split; [auto|lia]. Qed.

Lemma push_all_ok cs T s : sweeping B (T ++ W) s → (∀ c, c ∈ cs → live_array c) →
  advances T s (foldl (λ p a, push a p) (T, s) cs) ∧ ∀ c, c ∈ cs → c ∈ sw_visited (foldl (λ p a, push a p) (T, s) cs).2.
Proof.
  revert T s. induction cs as [|c cs IH]; intros T s Hs Hc; [split; [by apply advances_refl|intros c Hn; by apply not_elem_of_nil in Hn]|].
  cbn [foldl]. pose proof (mark_queue_ok c T s Hs (Hc c ltac:(left))) as Hp. destruct (push c (T, s)) as [T1 s1]. destruct Hp as (P1 & P2 & P3 & P4 & P5).
  destruct (IH T1 s1 P1) as [Ha Hv]; [intros; apply Hc; by right|]. split.
  - eapply (advances_trans _ _ (T1, s1)); [|exact Ha]. by split_and!.
  - intros b [->|Hb]%elem_of_cons; [|by apply Hv]. by apply (fw_visited _ _ (proj1 (proj2 Ha))).
Qed.
(** *** Objects *)

Lemma blocktype_no_func bt h : UFunc h ∉ blocktype_uses bt.
Proof. destruct bt as [|[]|]; cbn; rewrite ?elem_of_nil, ?list_elem_of_singleton; try tauto; congruence. Qed.

Lemma node_funcs n i read h : node_reads st read n i → UFunc h ∈ node_uses st n ↔ node_funcIdx n = Some h.
Proof.
  assert (∀ b, UFunc h ∉ default [] (blocktype_uses <$> s_blockTypes st !! b)) as Hbt.
  { intros b. destruct (s_blockTypes st !! b); cbn; [apply blocktype_no_func|apply not_elem_of_nil]. }
  destruct n as [j|bt b|bt b|bt th el|bt b cs ca|bt b cs]; cbn [node_reads node_uses node_funcIdx].
  - intros [_ Hl]. destruct j; try done; cbn; rewrite ?elem_of_cons, ?elem_of_nil; naive_solver.
  - intros _. specialize (Hbt bt). naive_solver.
  - intros _. specialize (Hbt bt). naive_solver.
  - intros _. specialize (Hbt bt). naive_solver.
  - intros _. specialize (Hbt bt). rewrite elem_of_app, list_elem_of_fmap. naive_solver.
  - intros _. specialize (Hbt bt). rewrite elem_of_app, list_elem_of_bind.
    split; [|done]. intros [?|(c & Hc & _)]; [done|]. destruct c as [[] [] ?]; cbn in Hc; rewrite ?elem_of_nil, ?list_elem_of_singleton in Hc; done.
Qed.

(** The objects of a live array read. *)
Lemma live_object_reads b id : live_array b → id ∈ elements_of st b → ∃ d n i, s_objects st !! id = Some n ∧ node_reads st (read_body d st) n i.
Proof.
  intros (r & Hr & Hb) Hid. destruct (root_read r Hr) as [l Hl]. destruct (read_inside st _ _ Hb _ _ Hl) as ([|d] & k & Hk); [done|].
  apply read_body_S in Hk as (ids & Ha & Hall). unfold elements_of in Hid. rewrite Ha in Hid. cbn in Hid.
  apply list_elem_of_lookup in Hid as [j Hj]. destruct (Forall2_lookup_l _ _ _ _ _ Hall Hj) as (i & _ & Hi).
  apply read_node_iff in Hi as (n & Hn & Hi). by exists d, n, i.
Qed.

(** The uses of a root: they make functions run. *)
Lemma root_uses_run r l h p : live_root r → read_body depth st r = Some l → UFunc h ∈ l ≫= instr_uses → stands_for md h p → runs md names p.
Proof.
  intros Hr Hl Hu Hp. destruct (proj1 (read_module_parts _ _ _ _) Hmd) as (fs & es & gs & Hf & He & Hg & E).
  destruct Hr as [(x & -> & Hx)%list_elem_of_fmap|[(x & -> & Hx)%list_elem_of_fmap|(q & fn & Hrun & Hfn & ->)]].
  - apply (runs_root _ _ h); [|done]. apply list_elem_of_lookup in Hx as [i Hi]. destruct (Forall2_lookup_l _ _ _ _ _ He Hi) as (y & Hy & (l' & Hl' & ->)%read_element_Some).
    rewrite Hl in Hl'. injection Hl' as <-. unfold root_uses. rewrite E. cbn [m_elements]. rewrite !elem_of_app. right. right. left.
    apply list_elem_of_bind. eexists. split; [|by eapply list_elem_of_lookup_2]. unfold element_uses. cbn. rewrite !elem_of_app. by right; left.
  - apply (runs_root _ _ h); [|done]. apply list_elem_of_lookup in Hx as [i Hi]. destruct (Forall2_lookup_l _ _ _ _ _ Hg Hi) as (y & Hy & (l' & Hl' & ->)%read_global_Some).
    rewrite Hl in Hl'. injection Hl' as <-. unfold root_uses. rewrite E. cbn [m_globals]. rewrite !elem_of_app. do 3 right.
    apply list_elem_of_bind. eexists. split; [|by eapply list_elem_of_lookup_2]. unfold global_uses. cbn. rewrite elem_of_app. by right.
  - apply js_at_Some in Hfn as [H0 Hfn]. destruct (Forall2_lookup_l _ _ _ _ _ Hf Hfn) as (y & Hy & (l' & Hl' & ->)%read_function_Some).
    rewrite Hl in Hl'. injection Hl' as <-. apply (runs_call _ _ q (mkWasmFunction (pf_name fn) (pf_typeIdx fn) (pf_locals fn) l) h); [exact Hrun| |exact Hu|exact Hp]. rewrite E. cbn [m_functions]. apply js_at_Some. split; [done|exact Hy].
Qed.

Lemma object_runs b id n h p : live_array b → id ∈ elements_of st b → s_objects st !! id = Some n → node_funcIdx n = Some h →
  stands_for md h p → runs md names p.
Proof.
  intros Hb Hid Hn Hh Hp. destruct (live_object_reads b id Hb Hid) as (d & n' & i & Hn' & Hi). rewrite Hn in Hn'. injection Hn' as <-.
  destruct Hb as (r & Hr & Hrb). destruct (root_read r Hr) as [l Hl]. eapply root_uses_run; [exact Hr|exact Hl| |exact Hp].
  apply (body_uses st depth r l _ Hl). exists id, n. split_and!; [by exists b|done|]. by eapply node_funcs.
Qed.

Lemma scan_object_ok b id T s : sweeping B (T ++ W) s → live_array b → id ∈ elements_of st b →
  advances T s (scan_object st m id (T, s)) ∧ object_done (scan_object st m id (T, s)).2 id.
Proof.
  intros Hs Hb Hid. destruct (live_object_reads b id Hb Hid) as (d & n & i & Hn & Hi). unfold scan_object. rewrite Hn. cbn [fst snd].
  set (s1 := match node_funcIdx n with Some h => _ | None => _ end).
  assert (∃ s', s1 = (T, s') ∧ sweeping B (T ++ W) s' ∧ forward s s' ∧ unvisited s' = unvisited s ∧
    ∀ h p, node_funcIdx n = Some h → stands_for md h p → marked s' p) as (s' & -> & Hs' & Hf & Hun & Hm).
  { unfold s1. destruct (node_funcIdx n) as [h|] eqn:Eh; [|by exists s]. exists (mark_handle m h s). split; [done|]. unfold mark_handle.
    destruct (mark_ok (position h) (T ++ W) s Hs) as (M1 & M2 & M3 & M4).
    { intros H0. pose proof (proj1 (position_iff h (position h)) (conj eq_refl H0)) as Hst. split; [by eapply object_runs|].
      destruct Hst as [_ Hst]. rewrite module_functions in Hst. lia. }
    split_and!; try done. intros h' p [= <-] [Ep H0]%position_iff. rewrite <- Ep. apply M3. lia. }
  assert (∀ c, c ∈ sweep_children n → live_array c) as Hc.
  { intros c Hc%sweep_children_elem. eapply live_array_under; [exact Hb|]. exists id. split; [done|]. unfold children_of. by rewrite Hn. }
  destruct (push_all_ok (sweep_children n) T s' Hs' Hc) as [(A1 & A2 & A3 & A4) Hv]. split.
  - split; [done|]. split; [by etrans|]. split; [done|]. lia.
  - intros n' Hn'. rewrite Hn in Hn'. injection Hn' as <-. split.
    + intros h p Hh Hp. by apply (fw_marked _ _ A2), (Hm h p).
    + intros c Hc'. by apply Hv, sweep_children_elem.
Qed.

Lemma scan_objects_ok b ids T s : sweeping B (T ++ W) s → live_array b → (∀ id, id ∈ ids → id ∈ elements_of st b) →
  let r := foldl (λ p id, scan_object st m id p) (T, s) ids in advances T s r ∧ ∀ id, id ∈ ids → object_done r.2 id.
Proof.
  revert T s. induction ids as [|id ids IH]; intros T s Hs Hb Hin; [split; [by apply advances_refl|intros id Hn; by apply not_elem_of_nil in Hn]|].
  cbn [foldl]. destruct (scan_object_ok b id T s Hs Hb (Hin id ltac:(left))) as [A1 D1].
  destruct (scan_object st m id (T, s)) as [T1 s1]. cbn [fst snd] in *. destruct (IH T1 s1) as [A2 D2]; [apply A1|done|intros; apply Hin; by right|].
  split; [by eapply (advances_trans _ _ (T1, s1))|]. intros j [->|Hj]%elem_of_cons; [|by apply D2]. eapply done_forward; [apply A2|done].
Qed.

End scanning.

(** ** Scans *)

Lemma sweeping_ext B T T' s : (∀ b, b ∈ T ↔ b ∈ T') → sweeping B T s → sweeping B T' s.
Proof. intros HT [S1 S2 S3 S4 S5 S6 S7]. split; try done; [intros b Hb; by apply S4, HT|]. intros b id Hb Hn. apply S5; [done|]. by rewrite HT. Qed.

Lemma sweeping_scanned B T a s : sweeping B (T ++ [a]) s → (∀ id, id ∈ elements_of st a → object_done s id) → sweeping B T s.
Proof.
  intros [S1 S2 S3 S4 S5 S6 S7] Hd. split; try done.
  - intros b Hb. apply S4, elem_of_app. by left.
  - intros b id Hb Hn Hid. destruct (decide (b = a)) as [->|Hne]; [by apply Hd|]. apply (S5 b id Hb); [|done].
    intros [?|?%list_elem_of_singleton]%elem_of_app; done.
Qed.

Lemma scan_loop_ok B fuel : ∀ T s, sweeping B T s → (length T + unvisited s ≤ fuel)%nat →
  ∃ s', scan_loop st m fuel (T, s) = Ok s' ∧ sweeping B [] s' ∧ forward s s'.
Proof.
  induction fuel as [|fuel IH]; intros [|a T] s Hs Hfuel; cbn [scan_loop fst snd]; [by exists s|cbn in Hfuel; lia|by exists s|].
  assert (sweeping B (T ++ [a]) s) as Hs' by (eapply sweeping_ext; [|exact Hs]; intros b; rewrite elem_of_app, list_elem_of_singleton, elem_of_cons; tauto).
  assert (live_array a) as Ha by (apply (sg_arrays _ _ _ Hs), (sg_pending _ _ _ Hs); left).
  destruct (scan_objects_ok B [a] a (elements_of st a) T s Hs' Ha (λ _ Hid, Hid)) as [(A1 & A2 & A3 & A4) Hd].
  destruct (foldl _ (T, s) (elements_of st a)) as [T1 s1]. cbn [fst snd] in *.
  destruct (IH T1 s1) as (s' & E & Hs1 & Hf); [by eapply sweeping_scanned|cbn in Hfuel; lia|]. exists s'. split_and!; [done..|by etrans].
Qed.

Lemma scan_ok B body s : sweeping B [] s → live_root body →
  ∃ s', scan st m body s = Ok s' ∧ sweeping B [] s' ∧ forward s s' ∧ body ∈ sw_visited s'.
Proof.
  intros Hs Hr. unfold scan. pose proof (mark_queue_ok B [] body [] s Hs (ex_intro _ body (conj Hr (rtc_refl _ _)))) as Hp.
  destruct (push body ([], s)) as [T1 s1]. rewrite app_nil_r in Hp. destruct Hp as (P1 & P2 & P3 & _ & P5).
  destruct (scan_loop_ok B (array_fuel st) T1 s1 P1) as (s' & E & Hs' & Hf).
  - etrans; [exact P5|]. unfold array_fuel, unvisited. cbn [length]. apply Nat.le_trans with (base.size (dom (s_arrays st))); [|lia]. apply subseteq_size. set_solver.
  - exists s'. split_and!; [done|done|by etrans|by apply Hf].
Qed.

Lemma forget_bodies B s : sweeping B [] s → (∀ b, b ∈ B → b ∈ sw_visited s) → sweeping [] [] s.
Proof. intros [S1 S2 S3 S4 S5 S6 S7] HB. split; try done. intros p fn Hp Hfn. destruct (S6 p fn Hp Hfn) as [?|[?|?]]; auto. Qed.

Lemma drain_ok fuel : ∀ s, sweeping [] [] s → (unscanned s ≤ fuel)%nat →
  ∃ s', drain st m fuel s = Ok s' ∧ sweeping [] [] s' ∧ sw_queue s' = [] ∧ forward s s'.
Proof.
  induction fuel as [|fuel IH]; intros s Hs Hfuel; cbn [drain]; destruct (sw_queue s) as [|p queue] eqn:Eq.
  - by exists s.
  - unfold unscanned in Hfuel. rewrite Eq in Hfuel. cbn in Hfuel. lia.
  - by exists s.
  - assert (marked s p) as Hp by (apply (sg_queue _ _ _ Hs); rewrite Eq; left).
    destruct (js_at (p_functions m) p) as [fn|] eqn:Efn.
    2:{ exfalso. assert (is_Some (js_at (p_functions m) p)) as [? ?]; [|congruence]. apply js_at_is_Some.
        rewrite <- (sg_length _ _ _ Hs). by apply js_at_lt in Hp. }
    destruct (scan_ok [pf_body fn] (pf_body fn) (mkSweep (sw_live s) queue (sw_visited s))) as (s1 & E1 & Hs1 & Hf1 & Hb1).
    { destruct Hs as [S1 S2 S3 S4 S5 S6 S7]. split; cbn [sw_live sw_queue sw_visited]; try done.
      - intros q f Hq Hf. destruct (S6 q f Hq Hf) as [Hin|[?|Hin]]; [|by right; left|by apply not_elem_of_nil in Hin]. rewrite Eq in Hin.
        apply elem_of_cons in Hin as [->|?]; [|by left]. rewrite Efn in Hf. injection Hf as <-. do 2 right. left.
      - intros q Hq. apply S7. rewrite Eq. by right. }
    { do 2 right. exists p, fn. split_and!; [by apply (sg_runs _ _ _ Hs)|done|done]. }
    cbn [mbind result_bind]. rewrite E1. assert (unscanned s1 < unscanned s)%nat as Hlt.
    { eapply Nat.le_lt_trans; [apply Hf1|]. unfold unscanned. rewrite Eq. cbn [sw_queue sw_live length]. lia. }
    destruct (IH s1) as (s' & E' & Hs' & Hq' & Hf'); [|lia|].
    { eapply forget_bodies; [exact Hs1|]. by intros b ->%list_elem_of_singleton. }
    exists s'. split_and!; [exact E'|done|done|]. etrans; [|exact Hf']. destruct Hf1 as [F1 F2 F3]. split; [exact F1|exact F2|lia].
Qed.
(** ** The roots *)

(** A phase of the sweep that leaves handles marked and arrays scanned. *)
Definition phase (s s' : sweep) (hs roots : list Z) : Prop :=
  sweeping [] [] s' ∧ forward s s' ∧ (∀ h p, h ∈ hs → stands_for md h p → marked s' p) ∧ ∀ r, r ∈ roots → r ∈ sw_visited s'.

Lemma phase_refl s : sweeping [] [] s → phase s s [] [].
Proof. intros Hs. split_and!; [done|done|intros h p Hh; by apply not_elem_of_nil in Hh|intros r Hr; by apply not_elem_of_nil in Hr]. Qed.

Lemma phase_trans s s1 s2 hs hs' rs rs' : phase s s1 hs rs → phase s1 s2 hs' rs' → phase s s2 (hs ++ hs') (rs ++ rs').
Proof.
  intros (A1 & A2 & A3 & A4) (B1 & B2 & B3 & B4). split_and!; [done|by etrans| |].
  - intros h p [Hh|Hh]%elem_of_app Hp; [by eapply B2, A3|by eapply B3].
  - intros r [Hr|Hr]%elem_of_app; [by apply B2, A4|by apply B4].
Qed.

Lemma mark_handle_ok h s : sweeping [] [] s → (∀ p, stands_for md h p → runs md names p) → phase s (mark_handle m h s) [h] [].
Proof.
  intros Hs Hrun. unfold mark_handle. destruct (mark_ok [] (position h) [] s Hs) as (M1 & M2 & M3 & _).
  { intros H0. pose proof (proj1 (position_iff h (position h)) (conj eq_refl H0)) as Hst. split; [by apply Hrun|].
    destruct Hst as [_ Hst]. rewrite module_functions in Hst. lia. }
  split_and!; [done|done| |intros r Hr; by apply not_elem_of_nil in Hr].
  intros h' p ->%list_elem_of_singleton [Ep H0]%position_iff. rewrite <- Ep. apply M3. lia.
Qed.

Lemma mark_all_ok hs s : sweeping [] [] s → (∀ h p, h ∈ hs → stands_for md h p → runs md names p) → phase s (mark_all m hs s) hs [].
Proof.
  unfold mark_all. revert s. induction hs as [|h hs IH]; intros s Hs Hrun; [by apply phase_refl|]. cbn [foldl].
  assert (phase s (mark_handle m h s) [h] []) as H1 by (apply mark_handle_ok; [done|intros p; apply Hrun; left]).
  eapply (phase_trans _ _ _ [h] hs [] []); [exact H1|]. apply IH; [apply H1|]. intros h' p Hh. apply Hrun. by right.
Qed.

Lemma scan_phase r s : sweeping [] [] s → live_root r → ∃ s', scan st m r s = Ok s' ∧ phase s s' [] [r].
Proof.
  intros Hs Hr. destruct (scan_ok [] r s Hs Hr) as (s' & E & Hs' & Hf & Hv). exists s'. split; [done|].
  split_and!; [done|done|intros h p Hh; by apply not_elem_of_nil in Hh|]. by intros b ->%list_elem_of_singleton.
Qed.

Lemma phase_each {X} (body : X → sweep → result sweep) (hs rs : X → list Z) xs s :
  (∀ x s, x ∈ xs → sweeping [] [] s → ∃ s', body x s = Ok s' ∧ phase s s' (hs x) (rs x)) → sweeping [] [] s →
  ∃ s', for_each xs body s = Ok s' ∧ phase s s' (xs ≫= hs) (xs ≫= rs).
Proof.
  intros Hb. revert s. induction xs as [|x xs IH]; intros s Hs; [exists s; split; [done|by apply phase_refl]|].
  cbn [for_each]. destruct (Hb x s ltac:(left) Hs) as (s1 & -> & H1). cbn [mbind result_bind].
  destruct (IH (λ y s Hy, Hb y s ltac:(by right)) s1 (proj1 H1)) as (s2 & E & H2). exists s2. split; [exact E|].
  rewrite !bind_cons. by eapply phase_trans.
Qed.

Lemma mark_named_ok s : sweeping [] [] s →
  phase s (mark_named m names s) [] [] ∧ ∀ p fn, js_at (p_functions m) p = Some fn → pf_name fn ∈ names → marked (mark_named m names s) p.
Proof.
  unfold mark_named. assert (∀ l s, (∀ p fn, (p, fn) ∈ l → js_at (p_functions m) p = Some fn) → sweeping [] [] s →
    let s' := foldl (λ s (p : Z * PFunction), if bool_decide (pf_name p.2 ∈ names) then mark p.1 s else s) s l in
    phase s s' [] [] ∧ ∀ p fn, (p, fn) ∈ l → pf_name fn ∈ names → marked s' p) as Hl.
  { clear s. intros l. induction l as [|[p fn] l IH]; intros s Hl Hs; cbn [foldl fst snd].
    { split; [by apply phase_refl|]. intros p fn Hn. by apply not_elem_of_nil in Hn. }
    set (s1 := if bool_decide _ then _ else _).
    assert (phase s s1 [] [] ∧ (pf_name fn ∈ names → marked s1 p)) as [H1 Hm].
    { unfold s1. pose proof (Hl p fn ltac:(left)) as Hp. case_bool_decide as Hin; [|split; [by apply phase_refl|done]].
      pose proof (js_at_lt _ _ _ Hp). destruct (mark_ok [] p [] s Hs) as (M1 & M2 & M3 & _).
      - intros _. split; [|lia]. destruct (proj1 (read_module_parts _ _ _ _) Hmd) as (fs & es & gs & Hf & _ & _ & E).
        apply js_at_Some in Hp as [H0 Hp]. destruct (Forall2_lookup_l _ _ _ _ _ Hf Hp) as (y & Hy & (k & _ & ->)%read_function_Some).
        eapply runs_named; [rewrite E; apply js_at_Some; split; [exact H0|exact Hy]|done].
      - split; [|intros _; apply M3; lia]. split_and!; [done|done|intros h q Hh; by apply not_elem_of_nil in Hh|intros r Hr; by apply not_elem_of_nil in Hr]. }
    destruct (IH s1) as [H2 Hm2]; [intros; apply Hl; by right|apply H1|]. split; [by eapply (phase_trans _ _ _ [] [] [] [] H1)|].
    intros q f [[= -> ->]|Hq]%elem_of_cons Hn; [by apply H2, Hm|by eapply Hm2]. }
  intros Hs. destruct (Hl (zip (seqZ 0 nfuncs) (p_functions m)) s) as [H1 H2]; [|done|].
  - intros p fn Hin. apply list_elem_of_lookup in Hin as [q Hq]. apply lookup_zip_with_Some in Hq as (x & y & [= -> ->] & Hx & Hy).
    apply lookup_seqZ in Hx as [-> ?]. by rewrite Z.add_0_l, js_at_nat.
  - split; [exact H1|]. intros p fn [H0 Hp]%js_at_Some. apply H2. apply list_elem_of_lookup. exists (Z.to_nat p).
    apply lookup_zip_with_Some. exists p, fn. split_and!; [done| |done]. apply lookup_seqZ. apply lookup_lt_Some in Hp. lia.
Qed.

(** ** The end *)

Lemma visited_closed s r b : sweeping [] [] s → r ∈ sw_visited s → rtc under r b → b ∈ sw_visited s.
Proof.
  intros Hs Hr Hb. refine (rtc_ind_r (λ b, b ∈ sw_visited s) r Hr _ b Hb). intros x y _ (id & Hid & Hk) Hx.
  pose proof (sg_done _ _ _ Hs x id Hx (not_elem_of_nil _) Hid) as Hd. unfold children_of in Hk.
  destruct (s_objects st !! id) as [n|] eqn:En; [|by apply not_elem_of_nil in Hk]. by apply (Hd n En).
Qed.

Lemma visited_marks s r l h p : sweeping [] [] s → r ∈ sw_visited s → read_body depth st r = Some l → UFunc h ∈ l ≫= instr_uses →
  stands_for md h p → marked s p.
Proof.
  intros Hs Hr Hl Hu Hp. apply (body_uses st depth r l _ Hl) in Hu as (id & n & (b & Hb & Hid) & Hn & Hu).
  pose proof (visited_closed s r b Hs Hr Hb) as Hv. destruct (live_object_reads b id (sg_arrays _ _ _ Hs b Hv) Hid) as (d & n' & i & Hn' & Hi).
  rewrite Hn in Hn'. injection Hn' as <-. apply (node_funcs _ _ _ _ Hi) in Hu.
  by eapply (sg_done _ _ _ Hs b id Hv (not_elem_of_nil _) Hid n Hn).
Qed.

Lemma sweep_start : sweeping [] [] (mkSweep (replicate (length (p_functions m)) false) [] ∅).
Proof.
  assert (∀ p, ¬ marked (mkSweep (replicate (length (p_functions m)) false) [] ∅) p) as Hno.
  { intros p [_ Hp]%js_at_Some. apply lookup_replicate in Hp as [? _]. done. }
  split; cbn [sw_live sw_queue sw_visited].
  - apply length_replicate.
  - by intros p ?%Hno.
  - intros b Hb. by apply not_elem_of_empty in Hb.
  - intros b Hb. by apply not_elem_of_nil in Hb.
  - intros b id Hb. by apply not_elem_of_empty in Hb.
  - by intros p fn ?%Hno.
  - intros p Hp. by apply not_elem_of_nil in Hp.
Qed.

(** A root is marked at once or lies in an initialiser that is scanned. *)
Lemma root_use_cases h : UFunc h ∈ root_uses md →
  h ∈ func_exports m ++ opt_list (p_startFuncIdx m) ++ (p_elements m ≫= pe_funcIndices) ∨
  ∃ r l, r ∈ (p_elements m ≫= λ e, [pe_offset e]) ++ (p_globals m ≫= λ g, [pg_init g]) ∧
    read_body depth st r = Some l ∧ UFunc h ∈ l ≫= instr_uses.
Proof.
  destruct (proj1 (read_module_parts _ _ _ _) Hmd) as (fs & es & gs & _ & He & Hg & ->). unfold root_uses.
  cbn [m_exports m_startFuncIdx m_elements m_globals]. rewrite !elem_of_app. intros [Hu|[Hu|[Hu|Hu]]].
  - left. left. apply list_elem_of_bind in Hu as (x & Hu & Hx). apply list_elem_of_omap. exists x. split; [done|]. unfold export_uses in Hu.
    destruct (ex_kind x); apply list_elem_of_singleton in Hu; congruence.
  - left. right. left. apply list_elem_of_fmap in Hu as (y & [= ->] & Hy). done.
  - apply list_elem_of_bind in Hu as (y & Hu & Hy). apply list_elem_of_lookup in Hy as [i Hi].
    destruct (Forall2_lookup_r _ _ _ _ _ He Hi) as (e & He' & (l & Hl & ->)%read_element_Some). apply list_elem_of_lookup_2 in He'.
    unfold element_uses in Hu. cbn [em_tableIdx em_offset em_funcIndices] in Hu. rewrite !elem_of_app in Hu. destruct Hu as [Hu|[Hu|Hu]].
    + destruct (negb _); [by apply list_elem_of_singleton in Hu|by apply not_elem_of_nil in Hu].
    + right. exists (pe_offset e), l. split_and!; [|done..]. apply elem_of_app. left. apply list_elem_of_bind. exists e. split; [left|done].
    + left. right. right. apply list_elem_of_bind. exists e. split; [|done]. by apply list_elem_of_fmap in Hu as (y & [= ->] & Hy).
  - apply list_elem_of_bind in Hu as (y & Hu & Hy). apply list_elem_of_lookup in Hy as [i Hi].
    destruct (Forall2_lookup_r _ _ _ _ _ Hg Hi) as (g & Hg' & (l & Hl & ->)%read_global_Some). apply list_elem_of_lookup_2 in Hg'.
    unfold global_uses in Hu. cbn [gd_type gd_init] in Hu. apply elem_of_app in Hu as [Hu|Hu].
    + exfalso. destruct (pg_type g); cbn in Hu; rewrite ?elem_of_nil, ?list_elem_of_singleton in Hu; done.
    + right. exists (pg_init g), l. split_and!; [|done..]. apply elem_of_app. right. apply list_elem_of_bind. exists g. split; [left|done].
Qed.

(** The functions that run are those that the sweep marks. *)
Lemma reachable_ok : ∃ live, reachableFunctionPositions st m names = Ok live ∧ length live = length (p_functions m) ∧
  ∀ p, js_at live p = Some true ↔ runs md names p.
Proof.
  destruct (proj1 (read_module_parts _ _ _ _) Hmd) as (fs & es & gs & Hf & He & Hg & E).
  unfold reachableFunctionPositions. set (s0 := mkSweep _ _ _). pose proof sweep_start as H0. fold s0 in H0.
  assert (∀ h p, UFunc h ∈ root_uses md → stands_for md h p → runs md names p) as Hroot by (intros; by eapply runs_root).
  assert (∀ h, h ∈ func_exports m → UFunc h ∈ root_uses md) as Hxr.
  { intros h (x & Hx & Hk)%list_elem_of_omap. unfold root_uses. rewrite E. cbn [m_exports]. rewrite !elem_of_app. left. apply list_elem_of_bind. exists x. split; [|done].
    unfold export_uses. destruct (ex_kind x); try done. injection Hk as ->. left. }
  pose proof (mark_all_ok (func_exports m) s0 H0 (λ h p Hh, Hroot h p (Hxr h Hh))) as H1. set (s1 := mark_all m (func_exports m) s0) in *.
  set (s2 := match p_startFuncIdx m with Some h => mark_handle m h s1 | None => s1 end).
  assert (phase s1 s2 (opt_list (p_startFuncIdx m)) []) as H2.
  { unfold s2. destruct (p_startFuncIdx m) as [h|] eqn:Es; [|apply phase_refl, H1]. apply mark_handle_ok; [apply H1|]. intros p. apply Hroot.
    unfold root_uses. rewrite E, !elem_of_app. right. left. left. }
  destruct (phase_each (scan_element st m) pe_funcIndices (λ e, [pe_offset e]) (p_elements m) s2) as (s3 & -> & H3); [|apply H2|].
  { intros e s He' Hs. unfold scan_element. assert (phase s (mark_all m (pe_funcIndices e) s) (pe_funcIndices e) []) as Hm.
    { apply mark_all_ok; [done|]. intros h p Hh. apply Hroot. unfold root_uses. rewrite E. cbn [m_elements]. rewrite !elem_of_app. right. right. left.
      apply list_elem_of_lookup in He' as [i Hi]. destruct (Forall2_lookup_l _ _ _ _ _ He Hi) as (y & Hy & (l & _ & ->)%read_element_Some).
      apply list_elem_of_bind. eexists. split; [|by eapply list_elem_of_lookup_2]. unfold element_uses. cbn. rewrite !elem_of_app. do 2 right. by apply list_elem_of_fmap_2. }
    destruct (scan_phase (pe_offset e) (mark_all m (pe_funcIndices e) s)) as (s' & -> & Hs'); [apply Hm|left; by apply list_elem_of_fmap_2|].
    exists s'. split; [done|]. rewrite <- (app_nil_r (pe_funcIndices e)). by eapply (phase_trans _ _ _ _ _ [] [pe_offset e] Hm). }
  cbn [mbind result_bind].
  destruct (phase_each (λ g, scan st m (pg_init g)) (λ _, []) (λ g, [pg_init g]) (p_globals m) s3) as (s4 & -> & H4); [|apply H3|].
  { intros g s Hg' Hs. apply scan_phase; [done|]. right. left. by apply list_elem_of_fmap_2. }
  cbn [mbind result_bind]. destruct (mark_named_ok s4 (proj1 H4)) as [H5 Hnamed].
  destruct (drain_ok (S (length (p_functions m))) (mark_named m names s4)) as (s6 & -> & H6 & Hq & Hf6); [apply H5| |].
  { pose proof (phase_trans _ _ _ _ _ _ _ (phase_trans _ _ _ _ _ _ _ (phase_trans _ _ _ _ _ _ _ (phase_trans _ _ _ _ _ _ _ H1 H2) H3) H4) H5) as (_ & [_ _ Hun] & _).
    etrans; [exact Hun|]. unfold s0, unscanned, falses. cbn [sw_queue sw_live length]. etrans; [apply Nat.add_le_mono_l, length_filter|]. rewrite length_replicate. lia. }
  exists (sw_live s6). split; [done|]. split; [apply H6|]. intros p. split; [apply (sg_runs _ _ _ H6)|].
  pose proof (phase_trans _ _ _ _ _ _ _ (phase_trans _ _ _ _ _ _ _ (phase_trans _ _ _ _ _ _ _ H1 H2) H3) H4) as (_ & _ & Hall & Hrts).
  assert (forward s4 s6) as Hfw by (etrans; [apply H5|done]).
  induction 1 as [h p Hu Hp|p fn Hfn Hn|p fn h q _ IH Hfn Hu Hp].
  - apply root_use_cases in Hu as [Hin|(r & l & Hr & Hl & Hu)].
    + eapply (fw_marked _ _ Hfw), Hall; [|exact Hp]. rewrite !elem_of_app. rewrite !elem_of_app in Hin. tauto.
    + eapply (visited_marks s6 r l h p H6); [|done..]. apply (fw_visited _ _ Hfw), Hrts. rewrite !elem_of_app. rewrite !elem_of_app in Hr. tauto.
  - eapply (fw_marked _ _ Hf6). rewrite E in Hfn. cbn [m_functions] in Hfn. apply js_at_Some in Hfn as [H0' Hp].
    destruct (Forall2_lookup_r _ _ _ _ _ Hf Hp) as (f & Hf' & (l & _ & ->)%read_function_Some). eapply Hnamed; [by apply js_at_Some|done].
  - rewrite E in Hfn. cbn [m_functions] in Hfn. apply js_at_Some in Hfn as [H0' Hp']. destruct (Forall2_lookup_r _ _ _ _ _ Hf Hp') as (f & Hf' & (l & Hl & ->)%read_function_Some).
    assert (js_at (p_functions m) p = Some f) as Hfp by (by apply js_at_Some).
    destruct (sg_bodies _ _ _ H6 p f IH Hfp) as [Hin|[Hv|Hin]]; [rewrite Hq in Hin; by apply not_elem_of_nil in Hin| |by apply not_elem_of_nil in Hin].
    by eapply visited_marks.
Qed.
End sweep.
