(* ===== verification/FuncSweepMain.v ===== *)
(** Stubbing unreachable functions, on its own and as a part of dead import elimination. *)

From S2P Require Import Prelude WasmModel WasmEncode WasmCheck BinaryWriter InstrGraph InstrWalk FuncSweep DeadElim DeadElimOk DeadElimSpec DeadElimModule DeadElimMain FuncSweepOk.

(** * Growing the store *)

Record store_grows (st st' : instr_store) : Prop := {
  gr_objects : s_objects st ⊆ s_objects st';
  gr_arrays : s_arrays st ⊆ s_arrays st';
  gr_blockTypes : s_blockTypes st = s_blockTypes st' }.

#[local] Instance store_grows_preorder : PreOrder store_grows.
Proof. split; [by intros st; split|]. intros a b c [A1 A2 A3] [B1 B2 B3]. split; [by etrans|by etrans|congruence]. Qed.

Lemma node_reads_mono st st' read read' n i :
  s_blockTypes st = s_blockTypes st' → (∀ b l, read b = Some l → read' b = Some l) → node_reads st read n i → node_reads st' read' n i.
Proof.
  intros Hbt Hr. destruct n as [j|bt b|bt b|bt th el|bt b cs ca|bt b cs]; cbn [node_reads]; rewrite <- ?Hbt.
  - done.
  - intros (t & l & ? & ? & ?). exists t, l. auto.
  - intros (t & l & ? & ? & ?). exists t, l. auto.
  - intros (t & l & k & ? & ? & Hk & ?). exists t, l, k. split_and!; auto. destruct el, k; auto.
  - intros (t & l & ks & k & ? & ? & Hks & Hk & ?). exists t, l, ks, k. split_and!; auto; [|destruct ca, k; auto].
    eapply Forall2_impl; [exact Hks|]. intros c x [? ?]. auto.
  - intros (t & l & ? & ? & ?). exists t, l. auto.
Qed.

Lemma read_grows st st' d : store_grows st st' → ∀ a l, read_body d st a = Some l → read_body d st' a = Some l.
Proof.
  intros [G1 G2 G3]. induction d as [|d IH]; [done|]. intros a l (ids & Ha & Hall)%read_body_S. apply read_body_S. exists ids.
  split; [by eapply lookup_weaken|]. eapply Forall2_impl; [exact Hall|]. intros id i (n & Hn & Hi)%read_node_iff. apply read_node_iff.
  exists n. split; [by eapply lookup_weaken|]. by eapply node_reads_mono.
Qed.

(** * Stubs *)

(** What is left of a function that cannot run. *)
Definition stub_of (fn : WasmFunction) : WasmFunction := mkWasmFunction (wf_name fn) (wf_typeIdx fn) [] [Plain "unreachable"].

Lemma stub_function_ok fn st d : let '(fn', st') := stub_function fn st in
  store_grows st st' ∧ read_function (S d) st' fn' = Some (mkWasmFunction (pf_name fn) (pf_typeIdx fn) [] [Plain "unreachable"]) ∧
  pf_id fn' = pf_id fn ∧ pf_name fn' = pf_name fn.
Proof.
  unfold stub_function. pose proof (is_fresh (dom (s_objects st))) as Ho. pose proof (is_fresh (dom (s_arrays st))) as Ha.
  set (id := fresh (dom (s_objects st))) in *. set (a := fresh (dom (s_arrays st))) in *. split; [|split; [|done]].
  - split; cbn; [apply insert_subseteq; by apply not_elem_of_dom|apply insert_subseteq; by apply not_elem_of_dom|done].
  - apply read_function_Some. exists [Plain "unreachable"]. split; [|done]. apply read_body_S. exists [id]. cbn. split; [apply lookup_insert_eq|].
    apply Forall2_cons. split; [|done]. apply read_node_iff. exists (NLeaf (Plain "unreachable")). cbn. split; [apply lookup_insert_eq|done].
Qed.

(** Whether the function at a position is left alone. *)
Definition left_alone (live : list bool) (stubbed : gset Z) (p : nat) (fn : PFunction) : bool :=
  default false (live !! p) || bool_decide (pf_id fn ∈ stubbed).

Lemma stub_functions_ok d fs : ∀ live stubbed st wfs,
  Forall2 (λ f f', read_function (S d) st f = Some f') fs wfs → NoDup (pf_id <$> fs) →
  let '(fs', stubbed', st') := stub_functions live stubbed fs st in
  store_grows st st' ∧ (pf_id <$> fs') = (pf_id <$> fs) ∧
  (∀ x, x ∈ stubbed' ↔ x ∈ stubbed ∨ ∃ p fn, fs !! p = Some fn ∧ left_alone live stubbed p fn = false ∧ x = pf_id fn) ∧
  length fs' = length fs ∧
  ∀ p fn wfn, fs !! p = Some fn → wfs !! p = Some wfn → ∃ fn', fs' !! p = Some fn' ∧
    read_function (S d) st' fn' = Some (if left_alone live stubbed p fn then wfn else stub_of wfn) ∧
    (left_alone live stubbed p fn = true → fn' = fn).
Proof.
  induction fs as [|fn fs IH]; intros live stubbed st wfs Hall Hnd; cbn [stub_functions].
  { split; [done|]. split_and!; [done| |done|done]. intros x. split; [by left|]. by intros [?|(p & f & Hp & _)]. }
  inversion Hall as [|? wfn ? wfs' Hfn Hfs]; subst. rewrite fmap_cons in Hnd. apply NoDup_cons in Hnd as [Hni Hnd].
  assert (left_alone live stubbed 0 fn = default false (head live) || bool_decide (pf_id fn ∈ stubbed)) as Hhead by (by destruct live).
  assert (∀ p f, left_alone live stubbed (S p) f = left_alone (tail live) stubbed p f) as Htail by (by destruct live).
  rewrite <- Hhead. destruct (left_alone live stubbed 0 fn) eqn:Ek.
  - specialize (IH (tail live) stubbed st wfs' Hfs Hnd). destruct (stub_functions (tail live) stubbed fs st) as [[fs' stubbed'] st'].
    destruct IH as (I1 & I2 & I3 & I4 & I5). split; [done|]. split_and!; [csimpl; by rewrite I2| |cbn; by rewrite I4|].
    + intros x. rewrite I3. apply or_iff_compat_l. split.
      * intros (p & f & ?). exists (S p), f. by rewrite Htail.
      * intros ([|p] & f & Hp & Hf & Hx); [cbn in Hp; injection Hp as <-; congruence|]. exists p, f. by rewrite <- Htail.
    + intros [|p] f w Hp Hw; cbn in Hp, Hw.
      * injection Hp as <-. injection Hw as <-. exists fn. split; [done|]. rewrite Ek. split; [|done].
        apply read_function_Some in Hfn as (l & Hl & ->). apply read_function_Some. exists l. split; [by eapply read_grows|done].
      * rewrite Htail. by apply I5.
  - pose proof (stub_function_ok fn st d) as Hst. destruct (stub_function fn st) as [fn' st1]. destruct Hst as (S1 & S2 & S3 & S4).
    assert (Forall2 (λ f f', read_function (S d) st1 f = Some f') fs wfs') as Hfs1.
    { eapply Forall2_impl; [exact Hfs|]. intros f f' (l & Hl & ->)%read_function_Some. apply read_function_Some. exists l. split; [by eapply read_grows|done]. }
    specialize (IH (tail live) ({[pf_id fn]} ∪ stubbed) st1 wfs' Hfs1 Hnd).
    destruct (stub_functions (tail live) ({[pf_id fn]} ∪ stubbed) fs st1) as [[fs' stubbed'] st']. destruct IH as (I1 & I2 & I3 & I4 & I5).
    assert (∀ p f, fs !! p = Some f → left_alone (tail live) ({[pf_id fn]} ∪ stubbed) p f = left_alone live stubbed (S p) f) as Hsame.
    { intros p f Hp. rewrite Htail. unfold left_alone. f_equal. apply bool_decide_ext. rewrite elem_of_union, elem_of_singleton.
      assert (pf_id f ≠ pf_id fn); [|tauto]. intros Heq. apply Hni. rewrite <- Heq. by eapply list_elem_of_fmap_2, list_elem_of_lookup_2. }
    split; [by etrans|]. split_and!; [csimpl; by rewrite I2, S3| |cbn; by rewrite I4|].
    + intros x. rewrite I3, elem_of_union, elem_of_singleton. split.
      * intros [[->|?]|(p & f & Hp & Hf & ->)]; [right; by exists O, fn|by left|]. right. exists (S p), f. by rewrite <- Hsame.
      * intros [?|([|p] & f & Hp & Hf & ->)]; [by left; right|cbn in Hp; injection Hp as <-; by left; left|]. right. exists p, f. cbn in Hp. by rewrite Hsame.
    + intros [|p] f w Hp Hw; cbn in Hp, Hw.
      * injection Hp as <-. injection Hw as <-. exists fn'. split; [done|]. rewrite Ek. split; [|done].
        apply read_function_Some in Hfn as (l & Hl & ->). apply read_function_Some in S2 as (l' & Hl' & E). apply read_function_Some.
        exists l'. split; [by eapply read_grows|]. exact E.
      * rewrite <- (Hsame p f Hp). by apply I5.
Qed.

(** * The module without what cannot run *)

Definition with_wasm_functions (fs : list WasmFunction) (md : WasmModule) : WasmModule :=
  mkModule (m_types md) (m_canonicalRuntimeRecGroup md) (m_imports md) fs (m_exports md) (m_tables md) (m_elements md) (m_globals md)
    (m_tags md) (m_declaredFuncRefs md) (m_funcOrdinalToPosition md) (m_memories md) (m_dataSegments md) (m_startFuncIdx md).

(** [md'] is [md] with stubs for the functions that cannot run; a function that was stubbed
    before is left alone. *)
Record swept (names : list jsstr) (stubbed : gset Z) (fs : list PFunction) (md md' : WasmModule) : Prop := {
  sp_rest : md' = with_wasm_functions (m_functions md') md;
  sp_length : length (m_functions md') = length (m_functions md);
  sp_kept p f fn : js_at fs p = Some f → js_at (m_functions md) p = Some fn → runs md names p ∨ pf_id f ∈ stubbed →
    js_at (m_functions md') p = Some fn;
  sp_stub p f fn : js_at fs p = Some f → js_at (m_functions md) p = Some fn → ¬ runs md names p → pf_id f ∉ stubbed →
    js_at (m_functions md') p = Some (stub_of fn) }.

Section swept.
Context (d : nat) (st : instr_store) (m : PModule) (md : WasmModule) (names : list jsstr) (stubbed : gset Z) (live : list bool).
Context (Hmd : read_module (S d) st m = Some md) (Hnd : NoDup (pf_id <$> p_functions m)).
Context (Hlen : length live = length (p_functions m)) (Hlive : ∀ p, js_at live p = Some true ↔ runs md names p).

Lemma left_alone_iff p fn : p_functions m !! p = Some fn →
  left_alone live stubbed p fn = true ↔ runs md names (Z.of_nat p) ∨ pf_id fn ∈ stubbed.
Proof.
  intros Hp. unfold left_alone. rewrite orb_true_iff, bool_decide_eq_true, <- Hlive, js_at_nat. apply or_iff_compat_r.
  destruct (live !! p) as [[]|]; cbn; unfold id; naive_solver.
Qed.

Lemma stub_module_ok : let '(m', stubbed', st') := stubUnreachableFunctions live stubbed m st in
  store_grows st st' ∧ (∃ fs', m' = with_functions fs' m) ∧ (pf_id <$> p_functions m') = (pf_id <$> p_functions m) ∧
  (∀ x, x ∈ stubbed' ↔ x ∈ stubbed ∨ ∃ p fn, p_functions m !! p = Some fn ∧ left_alone live stubbed p fn = false ∧ x = pf_id fn) ∧
  ∃ md', read_module (S d) st' m' = Some md' ∧ swept names stubbed (p_functions m) md md'.
Proof.
  destruct (proj1 (read_module_parts _ _ _ _) Hmd) as (fs & es & gs & Hf & He & Hg & E). unfold stubUnreachableFunctions.
  pose proof (stub_functions_ok d (p_functions m) live stubbed st fs Hf Hnd) as Hs.
  destruct (stub_functions live stubbed (p_functions m) st) as [[fs' stubbed'] st']. destruct Hs as (S1 & S2 & S3 & S4 & S5).
  split; [done|]. split; [by exists fs'|]. split; [done|]. split; [done|].
  pose proof (Forall2_length _ _ _ Hf) as Hflen.
  assert (∀ q f w, p_functions m !! q = Some f → fs !! q = Some w →
    ∃ f', fs' !! q = Some f' ∧ read_function (S d) st' f' = Some (if left_alone live stubbed q f then w else stub_of w)) as Hread.
  { intros q f w Hq Hw. destruct (S5 q f w Hq Hw) as (f' & ? & ? & _). by exists f'. }
  assert (∃ wfs, Forall2 (λ f f', read_function (S d) st' f = Some f') fs' wfs) as [wfs Hwfs].
  { destruct (mapM (read_function (S d) st') fs') as [wfs|] eqn:Em; [exists wfs; by apply mapM_Some|]. exfalso.
    apply eq_None_not_Some in Em. apply Em. apply mapM_is_Some. apply list.Forall_forall. intros f' Hf'. apply list_elem_of_lookup in Hf' as [q Hq].
    destruct (lookup_lt_is_Some_2 (p_functions m) q) as [f Hfq]; [apply lookup_lt_Some in Hq; lia|].
    destruct (lookup_lt_is_Some_2 fs q) as [w Hw]; [apply lookup_lt_Some in Hfq; lia|].
    destruct (Hread q f w Hfq Hw) as (f2 & Hf2 & Hr). rewrite Hq in Hf2. injection Hf2 as <-. by eexists. }
  exists (with_wasm_functions wfs md). split.
  - apply read_module_parts. exists wfs, es, gs. rewrite E. split_and!; [exact Hwfs| | |reflexivity].
    + eapply Forall2_impl; [exact He|]. intros x y (l & Hl & ->)%read_element_Some. apply read_element_Some. exists l. split; [by eapply read_grows|done].
    + eapply Forall2_impl; [exact Hg|]. intros x y (l & Hl & ->)%read_global_Some. apply read_global_Some. exists l. split; [by eapply read_grows|done].
  - assert (∀ p f fn, js_at (p_functions m) p = Some f → js_at (m_functions md) p = Some fn →
      js_at wfs p = Some (if left_alone live stubbed (Z.to_nat p) f then fn else stub_of fn)) as Hat.
    { intros p f fn [H0 Hp]%js_at_Some [_ Hw]%js_at_Some. rewrite E in Hw. cbn in Hw. destruct (Hread _ f fn Hp Hw) as (f' & Hf' & Hr).
      destruct (Forall2_lookup_l _ _ _ _ _ Hwfs Hf') as (w' & Hw' & Hr'). rewrite Hr in Hr'. injection Hr' as <-. by apply js_at_Some. }
    split.
    + done.
    + rewrite E. cbn. rewrite <- (Forall2_length _ _ _ Hwfs). lia.
    + intros p f fn Hp Hw Hc. cbn. rewrite (Hat p f fn Hp Hw). apply js_at_Some in Hp as [H0 Hp].
      assert (left_alone live stubbed (Z.to_nat p) f = true) as ->; [|done]. apply (left_alone_iff _ f Hp). by rewrite Z2Nat.id.
    + intros p f fn Hp Hw Hr Hs. cbn. rewrite (Hat p f fn Hp Hw). apply js_at_Some in Hp as [H0 Hp].
      destruct (left_alone live stubbed (Z.to_nat p) f) eqn:El; [|done]. apply (left_alone_iff _ f Hp) in El. rewrite Z2Nat.id in El by done. tauto.
Qed.
End swept.

(** The same functions run afterwards. *)
Lemma swept_runs names stubbed fs md md' : length fs = length (m_functions md) → (∀ p, runs md names p ∨ ¬ runs md names p) →
  swept names stubbed fs md md' → ∀ p, runs md' names p ↔ runs md names p.
Proof.
  intros Hlen Hdec [R L K Sb] p.
  assert (∀ h q, stands_for md' h q ↔ stands_for md h q) as Hst.
  { intros h q. unfold stands_for. rewrite L, R. done. }
  assert (root_uses md' = root_uses md) as Hru by (by rewrite R).
  assert (∀ q fn, js_at (m_functions md) q = Some fn → ∃ f, js_at fs q = Some f) as Hfs.
  { intros q fn Hq. apply js_at_is_Some. rewrite Hlen. by apply js_at_lt in Hq. }
  assert (∀ q fn', js_at (m_functions md') q = Some fn' → ∃ fn, js_at (m_functions md) q = Some fn ∧
    wf_name fn' = wf_name fn ∧ (runs md names q → fn' = fn)) as Hback.
  { intros q fn' Hq. assert (is_Some (js_at (m_functions md) q)) as [fn Hfn] by (apply js_at_is_Some; rewrite <- L; by apply js_at_lt in Hq).
    exists fn. split; [done|]. destruct (Hfs q fn Hfn) as [f Hf]. destruct (Hdec q) as [Hr|Hr].
    - pose proof (K q f fn Hf Hfn (or_introl Hr)) as Hk. rewrite Hq in Hk. by injection Hk as <-.
    - destruct (decide (pf_id f ∈ stubbed)) as [Hin|Hin].
      + pose proof (K q f fn Hf Hfn (or_intror Hin)) as Hk. rewrite Hq in Hk. by injection Hk as <-.
      + pose proof (Sb q f fn Hf Hfn Hr Hin) as Hk. rewrite Hq in Hk. injection Hk as ->. split; [done|]. tauto. }
  split.
  - induction 1 as [h q Hu Hq|q fn' Hq Hn|q fn' h r _ IH Hq Hu Hr].
    + eapply runs_root; [by rewrite <- Hru|by apply Hst].
    + destruct (Hback q fn' Hq) as (fn & Hfn & Hname & _). eapply runs_named; [exact Hfn|by rewrite <- Hname].
    + destruct (Hback q fn' Hq) as (fn & Hfn & _ & Heq). rewrite (Heq IH) in Hu. eapply runs_call; [exact IH|exact Hfn|exact Hu|by apply Hst].
  - assert (∀ q fn, runs md names q → js_at (m_functions md) q = Some fn → js_at (m_functions md') q = Some fn) as Hfwd.
    { intros q fn Hr Hq. destruct (Hfs q fn Hq) as [f Hf]. by apply (K q f fn Hf Hq); left. }
    induction 1 as [h q Hu Hq|q fn Hq Hn|q fn h r Hrun IH Hq Hu Hr].
    + eapply runs_root; [by rewrite Hru|by apply Hst].
    + eapply runs_named; [apply Hfwd; [by eapply runs_named|exact Hq]|done].
    + eapply runs_call; [exact IH|by apply Hfwd|exact Hu|by apply Hst].
Qed.

(** * Properties *)

Section properties.
Context (d : nat) (st : instr_store) (m : PModule) (md : WasmModule).

(** What the sweep may count on: the bodies are trees, every recorded position is that of a
    function, and no function is in the module twice. *)
Record sweepable : Prop := {
  sw_read : read_module (S d) st m = Some md;
  sw_positions o p : js_at (p_funcOrdinalToPosition m) o = Some (Some p) → 0 ≤ p < Z.of_nat (length (p_functions m));
  sw_once : NoDup (pf_id <$> p_functions m) }.

(** C21: the sweep finds what can run.  It ends, and it marks a function exactly when the
    function is exported, is the start function, is named by a table or an initialiser or
    is a late helper, or when a function that can run calls it or takes its reference;
    handles count as the emitter resolves them, the stable ones included. *)
Theorem reachableFunctionPositions_correct names : sweepable →
  ∃ live, reachableFunctionPositions st m names = Ok live ∧ length live = length (p_functions m) ∧
    ∀ p, js_at live p = Some true ↔ runs md names p.
Proof. intros [Hr Hp _]. by apply (reachable_ok (S d) st m md names). Qed.

Lemma sweep_stubs names stubbed : sweepable →
  ∃ live, reachableFunctionPositions st m names = Ok live ∧
    let '(m', stubbed', st') := stubUnreachableFunctions live stubbed m st in
    (∃ fs', m' = with_functions fs' m) ∧ ∃ md', read_module (S d) st' m' = Some md' ∧ swept names stubbed (p_functions m) md md' ∧
    (∀ p, runs md' names p ↔ runs md names p) ∧
    ∃ live', reachableFunctionPositions st' m' names = Ok live' ∧ length live' = length (p_functions m') ∧
      (∀ p, js_at live' p = Some true ↔ runs md names p) ∧ (pf_id <$> p_functions m') = (pf_id <$> p_functions m) ∧
      ∀ x, x ∈ stubbed' ↔ x ∈ stubbed ∨ ∃ p fn, js_at (p_functions m) p = Some fn ∧ ¬ runs md names p ∧ (pf_id fn ∉ stubbed) ∧ x = pf_id fn.
Proof.
  intros [Hr Hp Hn]. destruct (reachable_ok (S d) st m md names Hr Hp) as (live & E & Hlen & Hlive). exists live. split; [done|].
  pose proof (stub_module_ok d st m md names stubbed live Hr Hn Hlen Hlive) as Hs. pose proof (left_alone_iff m md names stubbed live Hlive) as Halone.
  destruct (stubUnreachableFunctions live stubbed m st) as [[m' stubbed'] st']. destruct Hs as (S1 & (fs' & ->) & S3 & S4 & md' & Hr' & Hsw).
  split; [by exists fs'|]. exists md'. split; [done|]. split; [done|].
  assert (length (p_functions (with_functions fs' m)) = length (p_functions m)) as Hl' by (rewrite <- (length_fmap pf_id), S3; apply length_fmap).
  assert (∀ p, runs md' names p ↔ runs md names p) as Hruns.
  { eapply swept_runs; [symmetry; by eapply module_functions| |exact Hsw]. intros p. rewrite <- Hlive. destruct (js_at live p) as [[]|]; [by left|by right..]. }
  split; [done|]. destruct (reachable_ok (S d) st' (with_functions fs' m) md' names Hr') as (live' & E' & Hlen' & Hlive').
  { intros o p Ho. rewrite Hl'. by eapply Hp. }
  exists live'. split; [done|]. split; [done|]. split; [intros p; by rewrite Hlive', Hruns|]. split; [done|]. intros x. rewrite S4. apply or_iff_compat_l. split.
  - intros (p & fn & Hfn & Hal & ->). exists (Z.of_nat p), fn. rewrite js_at_nat. split; [done|].
    assert (¬ (runs md names (Z.of_nat p) ∨ pf_id fn ∈ stubbed)) as Hno by (rewrite <- Halone by done; by rewrite Hal). tauto.
  - intros (p & fn & [H0 Hfn]%js_at_Some & Hno & Hs & ->). exists (Z.to_nat p), fn. split; [done|]. split; [|done].
    destruct (left_alone live stubbed (Z.to_nat p) fn) eqn:El; [|done]. apply (Halone _ _ Hfn) in El. rewrite Z2Nat.id in El by done. tauto.
Qed.

(** C30: stubbing is unobservable.  After the sweep the functions that cannot run, and only
    they, are stubs that trap, with their name and type kept; nothing else of the module
    changes, the same functions can run as before, and the verifier that runs after the
    last pass finds no stub among them. *)
Theorem stubUnreachableFunctions_correct : sweepable →
  ∃ live, reachableFunctionPositions st m LATE_PASS_HELPER_ROOTS = Ok live ∧
    let '(m', stubbed', st') := stubUnreachableFunctions live ∅ m st in
    (∃ md', read_module (S d) st' m' = Some md' ∧ swept LATE_PASS_HELPER_ROOTS ∅ (p_functions m) md md' ∧
      ∀ p, runs md' LATE_PASS_HELPER_ROOTS p ↔ runs md LATE_PASS_HELPER_ROOTS p) ∧
    stubsReachedAfterFinalize st' m' stubbed' = Ok [].
Proof.
  intros Hs. destruct (sweep_stubs LATE_PASS_HELPER_ROOTS ∅ Hs) as (live & E & H). exists live. split; [done|].
  destruct (stubUnreachableFunctions live ∅ m st) as [[m' stubbed'] st'].
  destruct H as (_ & md' & Hr & Hsw & Hruns & live' & E' & Hlen & Hlive & Hids & Hst). split; [by exists md'|].
  unfold stubsReachedAfterFinalize. case_decide; [done|]. rewrite E'. cbn [mbind result_bind]. f_equal.
  apply elem_of_nil_inv. intros x ([b f] & Hb & Hx)%list_elem_of_omap. cbn in Hx. destruct b; [|done]. case_bool_decide as Hin; [|done]. clear Hx.
  apply list_elem_of_lookup in Hb as [q Hq]. apply lookup_zip_with_Some in Hq as (b & f' & [= <- <-] & Hb & Hf).
  apply Hst in Hin as [Hin|(p & fn & [H0 Hp]%js_at_Some & Hno & _ & Heq)]; [set_solver|]. apply Hno.
  assert (Z.to_nat p = q) as <-.
  { eapply (NoDup_lookup (pf_id <$> p_functions m)); [apply Hs|rewrite list_lookup_fmap, Hp; done|].
    rewrite <- Hids, list_lookup_fmap, Hf. cbn. by rewrite Heq. }
  apply Hlive. by apply js_at_Some.
Qed.
End properties.

(** dead import elimination with the sweep.  Liveness of imports and types is that of
    the module as it was; the module that is rewritten is the one with the stubs, so no
    import or type index differs from the run without the sweep. *)
Theorem eliminateDeadImports_sweeps applyTypeLayoutRemap d s md :
  sweepable d (el_store s) (el_module s) md →
  (∀ previous next targetsByOldIndex, applyTypeLayoutRemap previous next targetsByOldIndex = Ok tt) →
  (∀ a b, m_canonicalRuntimeRecGroup md = Some (a, b) → 0 ≤ a ≤ b ∧ b < Z.of_nat (length (m_types md))) →
  ∃ s' md1 keepF keepT, eliminateDeadImports applyTypeLayoutRemap true s = Ok s' ∧
    swept LATE_PASS_HELPER_ROOTS (el_stubbed s) (p_functions (el_module s)) md md1 ∧
    (∀ h, 0 ≤ h < func_total md → keepF h = true ↔ live_func md h) ∧ (∀ x, keepT x = true ↔ live_type md x) ∧
    read_module (S d) (el_store s') (el_module s') = Some (eliminated keepF keepT md1) ∧
    el_side s' = map_side keepF md <$> el_side s.
Proof.
  intros Hs Happly Hgroup. destruct (sweep_stubs d _ _ _ LATE_PASS_HELPER_ROOTS (el_stubbed s) Hs) as (live & E & H).
  destruct (stubUnreachableFunctions live (el_stubbed s) (el_module s) (el_store s)) as [[m1 stubbed1] st1] eqn:Est.
  destruct H as (_ & md1 & Hr & Hsw & _).
  destruct (eliminate_rest applyTypeLayoutRemap (S d) true s md m1 stubbed1 st1 md1 (sw_read _ _ _ _ Hs)) as (s' & kF & kT & E' & HF & HT & Hr' & _ & Hside); try done.
  - rewrite E. cbn [mbind result_bind]. by rewrite Est.
  - pose proof (sp_rest _ _ _ _ _ Hsw) as Hrest. split; [by rewrite Hrest..|apply Hsw].
  - by exists s', md1, kF, kT.
Qed.

(** Three functions: the first is exported and calls the second by a stable handle; nothing
    leads to the third, which calls itself. *)
Definition sweep_store : instr_store :=
  InstrGraph.mkStore (list_to_map [(0, NLeaf (Call STABLE_FUNC_BASE)); (1, NLeaf (Plain "nop")); (2, NLeaf (Call 2))])
    (list_to_map [(0, [0]); (1, [1]); (2, [2])]) ∅.

Definition sweep_pmodule : PModule :=
  mkPModule [TFunc [] []] None []
    [mkPFunction 0 (js "main") 0 [] 0; mkPFunction 1 (js "used") 0 [] 1; mkPFunction 2 (js "dead") 0 [VI32] 2]
    [mkWasmExport (js "main") XFunc 0] [] [] [] [] [] [Some 1] [] [] None.

Definition sweep_md : WasmModule := Eval vm_compute in
  match read_module 1 sweep_store sweep_pmodule with
  | Some md => md
  | None => mkModule [] None [] [] [] [] [] [] [] [] [] [] [] None
  end.

Lemma sweep_sample : sweepable 0 sweep_store sweep_pmodule sweep_md.
Proof.
  split.
  - vm_compute. reflexivity.
  - intros o p Ho. apply js_at_Some in Ho as [_ Ho]. cbn in Ho. destruct (Z.to_nat o) as [|[|]]; cbn in Ho; [|done..]. injection Ho as <-. done.
  - apply (bool_decide_unpack _). vm_compute. exact I.
Qed.

Lemma reachableFunctionPositions_correct_witness :
  sweepable 0 sweep_store sweep_pmodule sweep_md ∧
  reachableFunctionPositions sweep_store sweep_pmodule [] = Ok [true; true; false] ∧ runs sweep_md [] 1 ∧ ¬ runs sweep_md [] 2.
Proof.
  split; [exact sweep_sample|]. assert (reachableFunctionPositions sweep_store sweep_pmodule [] = Ok [true; true; false]) as E by (vm_compute; reflexivity).
  split; [exact E|]. destruct (reachableFunctionPositions_correct 0 sweep_store sweep_pmodule sweep_md [] sweep_sample) as (live & E' & _ & Hl).
  rewrite E in E'. injection E' as <-. split; [by apply Hl|]. intros Hr. by apply Hl in Hr.
Defined.

Lemma stubUnreachableFunctions_correct_witness :
  sweepable 0 sweep_store sweep_pmodule sweep_md ∧
  let '(m', stubbed', st') := stubUnreachableFunctions [true; true; false] ∅ sweep_pmodule sweep_store in
  stubsReachedAfterFinalize st' m' stubbed' = Ok [].
Proof.
  split; [exact sweep_sample|].
  assert (reachableFunctionPositions sweep_store sweep_pmodule LATE_PASS_HELPER_ROOTS = Ok [true; true; false]) as E by (vm_compute; reflexivity).
  destruct (stubUnreachableFunctions_correct 0 sweep_store sweep_pmodule sweep_md sweep_sample) as (live & E' & H).
  rewrite E in E'. injection E' as <-. destruct (stubUnreachableFunctions _ _ _ _) as [[m' stubbed'] st']. exact (proj2 H).
Defined.

Lemma eliminateDeadImports_sweeps_witness :
  ∃ s' md1 keepF keepT, eliminateDeadImports (λ _ _ _, Ok tt) true (mkElim sweep_pmodule sweep_store ∅ None) = Ok s' ∧
    read_module 1 (el_store s') (el_module s') = Some (eliminated keepF keepT md1) ∧
    swept LATE_PASS_HELPER_ROOTS ∅ (p_functions sweep_pmodule) sweep_md md1.
Proof.
  destruct (eliminateDeadImports_sweeps (λ _ _ _, Ok tt) 0 (mkElim sweep_pmodule sweep_store ∅ None) sweep_md sweep_sample (λ _ _ _, eq_refl))
    as (s' & md1 & kF & kT & E & Hsw & _ & _ & Hr & _).
  - intros a b Hg. discriminate Hg.
  - exists s', md1, kF, kT. split; [exact E|]. split; [exact Hr|exact Hsw].
Defined.
