(* ===== verification/WasmSem.v ===== *)
(** What instructions do: a big-step semantics of instruction trees, for the passes that
    rewrite code.

    The instructions that those passes look at, structured control and calls are defined
    here; every other instruction is a function of the machine ([leaf]), as are imported
    functions, the world behind the stack and the locals, and arithmetic on the bits of
    doubles.  Code that validation rules out is [OStuck].  Fuel bounds the calls in
    progress and the iterations of a loop, so that code that runs for ever is [OFuel]
    at every bound. *)

From S2P Require Import Prelude WasmModel.

(** * Values and states *)

Inductive val (R : Type) :=
  | WI32 (n : Z) | WI64 (n : Z) | WF32 (bits : Z) | WF64 (bits : Z) | WV128 (bytes : list Z) | WNull | WRef (r : R).
Arguments WI32 {R} n.
Arguments WI64 {R} n.
Arguments WF32 {R} bits.
Arguments WF64 {R} bits.
Arguments WV128 {R} bytes.
Arguments WNull {R}.
Arguments WRef {R} r.

(** The head of a stack is its top.  A local that has no value yet is [None]. *)
Record state (R W : Type) := mkState { stk : list (val R); locs : list (option (val R)); world : W }.
Arguments mkState {R W} stk locs world.
Arguments stk {R W} s.
Arguments locs {R W} s.
Arguments world {R W} s.

Record exn (R : Type) := mkExn { exc_tag : Z; exc_args : list (val R) }.
Arguments mkExn {R} exc_tag exc_args.
Arguments exc_tag {R} e.
Arguments exc_args {R} e.

(** A defined function by its position, or an import. *)
Inductive callee := Own (p : Z) | Host (h : Z).

Inductive leaf_result (R W : Type) :=
  | LNext (s : list (val R)) (w : W) | LBranch (d : nat) (s : list (val R)) (w : W) | LReturn (s : list (val R)) (w : W)
  | LCall (f : callee) (s : list (val R)) (w : W) | LTail (f : callee) (s : list (val R)) (w : W)
  | LThrow (e : exn R) (w : W) | LRethrow (d : nat) (w : W) | LTrap (w : W) | LStuck.
Arguments LNext {R W} s w.
Arguments LBranch {R W} d s w.
Arguments LReturn {R W} s w.
Arguments LCall {R W} f s w.
Arguments LTail {R W} f s w.
Arguments LThrow {R W} e w.
Arguments LRethrow {R W} d w.
Arguments LTrap {R W} w.
Arguments LStuck {R W}.

Inductive call_result (R W : Type) :=
  | CDone (s : list (val R)) (w : W) | CThrow (e : exn R) (w : W) | CTrap (w : W) | CStuck | CFuel.
Arguments CDone {R W} s w.
Arguments CThrow {R W} e w.
Arguments CTrap {R W} w.
Arguments CStuck {R W}.
Arguments CFuel {R W}.

Inductive outcome (R W : Type) :=
  | ONext (s : state R W) | OBranch (d : nat) (s : state R W) | OReturn (s : state R W)
  | OThrow (e : exn R) (s : state R W) | ORethrow (d : nat) (s : state R W) | OTrap (w : W) | OStuck | OFuel.
Arguments ONext {R W} s.
Arguments OBranch {R W} d s.
Arguments OReturn {R W} s.
Arguments OThrow {R W} e s.
Arguments ORethrow {R W} d s.
Arguments OTrap {R W} w.
Arguments OStuck {R W}.
Arguments OFuel {R W}.

Class Machine (R W : Type) := {
  ref_has : R → Z → bool;
  ref_in : R → ValType → bool;
  null_in : ValType → bool;
  f64_op : string → Z → Z → Z;
  get_global : W → Z → option (val R);
  leaf : Instr → list (val R) → W → leaf_result R W;
  host : Z → list (val R) → W → call_result R W;
  exn_ref : exn R → R }.

Definition NAN_BITS : Z := 0x7ff8000000000000.

(** Both zeros. *)
Definition is_zero_bits (b : Z) : bool := (b =? 0) || (b =? 2 ^ 63).

(** The deterministic profile of Wasm: the quotient of zeros is the canonical NaN. *)
Class MachineOk R W `{Machine R W} := {
  zero_by_zero a b : is_zero_bits a = true → is_zero_bits b = true → f64_op "f64.div" a b = NAN_BITS }.

Section exec.
Context {R W : Type} `{Machine R W}.
Abbreviation st := (state R W).
Implicit Types (s : st) (o : outcome R W) (v : val R).

Definition has_type v (t : ValType) : bool :=
  match v, t with
  | WI32 _, VI32 | WI64 _, VI64 | WF32 _, VF32 | WF64 _, VF64 | WV128 _, VV128 => true
  | WNull, VRefNull _ => true
  | WRef r, (VRef i | VRefNull i) => ref_has r i
  | WNull, VRef _ => false
  | WNull, (VFuncref | VExternref | VRefExtern | VEqref | VAnyref) => null_in t
  | WRef r, (VFuncref | VExternref | VRefExtern | VEqref | VAnyref) => ref_in r t
  | _, _ => false
  end.

(** The initial value of a declared local. *)
Definition zero_of (t : ValType) : option (val R) :=
  match t with
  | VI32 => Some (WI32 0) | VI64 => Some (WI64 0) | VF32 => Some (WF32 0) | VF64 => Some (WF64 0) | VV128 => Some (WV128 (replicate 16 0))
  | VRefNull _ => Some WNull
  | VFuncref | VExternref | VRefExtern | VEqref | VAnyref => if null_in t then Some WNull else None
  | VRef _ | VI8 | VI16 => None
  end.

(** * Instructions without nested code *)

Definition with_stk (k : list (val R)) s : st := mkState k (locs s) (world s).

Definition push_val v s : outcome R W := ONext (with_stk (v :: stk s) s).

Definition binop (op : string) (a b : val R) : option (val R) :=
  match a, b with
  | WI32 x, WI32 y =>
      if String.eqb op "i32.or" then Some (WI32 (Z.lor x y))
      else if String.eqb op "i32.add" then Some (WI32 (to_uint32 (x + y)))
      else if String.eqb op "i32.sub" then Some (WI32 (to_uint32 (x - y)))
      else None
  | WF64 x, WF64 y => if bool_decide (op ∈ ["f64.add"; "f64.sub"; "f64.div"]%string) then Some (WF64 (f64_op op x y)) else None
  | _, _ => None
  end.

Definition binops : list string := ["i32.or"; "i32.add"; "i32.sub"; "f64.add"; "f64.sub"; "f64.div"]%string.

Section frame.
(** [lt] are the types of the locals, [call] the functions. *)
Context (lt : list ValType) (call : callee → list (val R) → W → call_result R W).

Definition set_local (n : Z) v s (k : list (val R)) : outcome R W :=
  match js_at lt n with
  | Some t => if has_type v t then ONext (mkState k (ta_set (locs s) n (Some v)) (world s)) else OStuck
  | None => OStuck
  end.

Definition returned (tail : bool) s (c : call_result R W) : outcome R W :=
  match c with
  | CDone k w => (if tail then OReturn else ONext) (mkState k (locs s) w)
  | CThrow e w => OThrow e (mkState [] (locs s) w)
  | CTrap w => OTrap w
  | CStuck => OStuck
  | CFuel => OFuel
  end.

Definition do_leaf (i : Instr) s : outcome R W :=
  match leaf i (stk s) (world s) with
  | LNext k w => ONext (mkState k (locs s) w)
  | LBranch d k w => OBranch d (mkState k (locs s) w)
  | LReturn k w => OReturn (mkState k (locs s) w)
  | LCall f k w => returned false s (call f k w)
  | LTail f k w => returned true s (call f k w)
  | LThrow e w => OThrow e (mkState [] (locs s) w)
  | LRethrow d w => ORethrow d (mkState [] (locs s) w)
  | LTrap w => OTrap w
  | LStuck => OStuck
  end.

Definition step (i : Instr) s : outcome R W :=
  match i with
  | LocalGet n => match js_at (locs s) n with Some (Some v) => push_val v s | _ => OStuck end
  | LocalSet n => match stk s with v :: k => set_local n v s k | [] => OStuck end
  | LocalTee n => match stk s with v :: k => set_local n v s (v :: k) | [] => OStuck end
  | GlobalGet n => match get_global (world s) n with Some v => push_val v s | None => OStuck end
  | I32Const z => push_val (WI32 (to_uint32 z)) s
  | F64Const b => push_val (WF64 b) s
  | RefCast t =>
      match stk s with
      | WRef r :: _ => if ref_has r t then ONext s else OTrap (world s)
      | WNull :: _ => OTrap (world s)
      | _ => OStuck
      end
  | Plain op =>
      if String.eqb op "drop" then match stk s with _ :: k => ONext (with_stk k s) | [] => OStuck end
      else if String.eqb op "ref.as_non_null" then
        match stk s with WRef _ :: _ => ONext s | WNull :: _ => OTrap (world s) | _ => OStuck end
      else if bool_decide (op ∈ binops) then
        match stk s with
        | b :: a :: k => match binop op a b with Some v => ONext (with_stk (v :: k) s) | None => OStuck end
        | _ => OStuck
        end
      else do_leaf i s
  | i => do_leaf i s
  end.
End frame.

(** * Structured control *)

Definition enter (n : nat) s : option (st * list (val R)) :=
  if (n <=? length (stk s))%nat then Some (with_stk (take n (stk s)) s, drop n (stk s)) else None.

(** The end of a block with [n] results above [rest]. *)
Definition leave (n : nat) (rest : list (val R)) o : outcome R W :=
  match o with
  | ONext s => if (length (stk s) =? n)%nat then ONext (with_stk (stk s ++ rest) s) else OStuck
  | OBranch O s => if (n <=? length (stk s))%nat then ONext (with_stk (take n (stk s) ++ rest) s) else OStuck
  | OBranch (S d) s => OBranch d s
  | ORethrow (S d) s => ORethrow d s
  | ORethrow O _ => OStuck
  | o => o
  end.

(** [rethrow 0] in a handler of [e]. *)
Definition rethrowing (e : exn R) o : outcome R W := match o with ORethrow O s => OThrow e s | o => o end.

Definition reframe (rest : list (val R)) o : outcome R W :=
  match o with ONext s => ONext (with_stk (stk s ++ rest) s) | o => o end.

Definition catches (c : TryTableCatch) (e : exn R) : bool :=
  match tc_kind c with Catch | CatchRef => bool_decide (tc_tagIdx c = Some (exc_tag e)) | CatchAll | CatchAllRef => true end.

Definition payload (c : TryTableCatch) (e : exn R) : list (val R) :=
  match tc_kind c with
  | Catch => exc_args e | CatchRef => WRef (exn_ref e) :: exc_args e | CatchAll => [] | CatchAllRef => [WRef (exn_ref e)]
  end.

(** The end of a round of a loop with [m] parameters. *)
Definition loop_end (m n : nat) (rest : list (val R)) (again : st → outcome R W) o : outcome R W :=
  match o with
  | OBranch O s => if (m <=? length (stk s))%nat then reframe rest (again (with_stk (take m (stk s)) s)) else OStuck
  | o => leave n rest o
  end.

(** The end of the body of [try]: the handler of the tag, or the one of all. *)
Definition try_end (n : nat) (rest : list (val R)) (by_tag : Z → option (st → outcome R W)) (all : option (st → outcome R W)) o : outcome R W :=
  match o with
  | OThrow e s =>
      match by_tag (exc_tag e), all with
      | Some h, _ => leave n rest (rethrowing e (h (with_stk (exc_args e) s)))
      | None, Some h => leave n rest (rethrowing e (h (with_stk [] s)))
      | None, None => OThrow e s
      end
  | o => leave n rest o
  end.

(** The end of [try_table]: a clause branches past its label. *)
Definition table_end (cs : list TryTableCatch) o : outcome R W :=
  match o with
  | OThrow e s =>
      match list_find (λ c, catches c e = true) cs with
      | Some (_, c) => OBranch (Z.to_nat (tc_depth c)) (with_stk (payload c e) s)
      | None => OThrow e s
      end
  | o => o
  end.

Section seq.
Context (f : Instr → st → outcome R W).

Fixpoint exec_seq (l : list Instr) s : outcome R W :=
  match l with
  | [] => ONext s
  | i :: l' => match f i s with ONext s' => exec_seq l' s' | o => o end
  end.

(** The handler of a tag. *)
Fixpoint handler (tag : Z) (cs : list (Z * list Instr)) : option (st → outcome R W) :=
  match cs with
  | [] => None
  | c :: cs' => if c.1 =? tag then Some (exec_seq c.2) else handler tag cs'
  end.
End seq.

Section tree.
Context (types : list TypeDef) (lt : list ValType) (call : callee → list (val R) → W → call_result R W).
Context (again : BlockType → list Instr → st → outcome R W).

Definition signature (typeIdx : Z) : option (list ValType * list ValType) :=
  match js_at types typeIdx with
  | Some (TFunc params results) | Some (TSub _ _ (TFunc params results)) => Some (params, results)
  | _ => None
  end.

Definition arity (bt : BlockType) : option (nat * nat) :=
  match bt with
  | BEmpty => Some (0, 0)%nat
  | BVal _ => Some (0, 1)%nat
  | BType i => (λ p : list ValType * list ValType, (length p.1, length p.2)) <$> signature i
  end.

Definition scoped (bt : BlockType) s (body : nat → nat → list (val R) → st → outcome R W) : outcome R W :=
  match arity bt with
  | Some (m, n) => match enter m s with Some (s', rest) => body m n rest s' | None => OStuck end
  | None => OStuck
  end.

Fixpoint exec_instr (i : Instr) s : outcome R W :=
  let exec := exec_seq exec_instr in
  match i with
  | Block bt body => scoped bt s (λ _ n rest s, leave n rest (exec body s))
  | Loop bt body => scoped bt s (λ m n rest s, loop_end m n rest (again bt body) (exec body s))
  | If bt th el =>
      match stk s with
      | WI32 c :: k =>
          scoped bt (with_stk k s) (λ _ n rest s,
            leave n rest (if c =? 0 then match el with Some l => exec l s | None => ONext s end else exec th s))
      | _ => OStuck
      end
  | Try bt body cs ca =>
      scoped bt s (λ _ n rest s,
        try_end n rest (λ tag, handler exec_instr tag cs) (match ca with Some l => Some (exec l) | None => None end) (exec body s))
  | TryTable bt body cs => scoped bt s (λ _ n rest s, table_end cs (leave n rest (exec body s)))
  | i => step lt call i s
  end.
End tree.

(** * Calls *)

Definition local_types (types : list TypeDef) (fn : WasmFunction) : list ValType :=
  match signature types (wf_typeIdx fn) with Some (params, _) => params | None => [] end ++ wf_locals fn.

(** The end of a body with [n] results. *)
Definition results (n : nat) (rest : list (val R)) o : call_result R W :=
  match o with
  | ONext s | OBranch O s | OReturn s => if (n <=? length (stk s))%nat then CDone (take n (stk s) ++ rest) (world s) else CStuck
  | OThrow e s => CThrow e (world s)
  | OTrap w => CTrap w
  | OFuel => CFuel
  | OBranch (S _) _ | ORethrow _ _ | OStuck => CStuck
  end.

Section calls.
Context (md : WasmModule) (run_body : list ValType → list Instr → st → outcome R W).

(** The arguments are on the stack [k], the last one on top. *)
Definition invoke_with (f : callee) (k : list (val R)) (w : W) : call_result R W :=
  match f with
  | Host h => host h k w
  | Own p =>
      match js_at (m_functions md) p with
      | Some fn =>
          match signature (m_types md) (wf_typeIdx fn) with
          | Some (params, rs) =>
              let args := reverse (take (length params) k) in
              if bool_decide (Forall2 (λ v t, has_type v t = true) args params) then
                results (length rs) (drop (length params) k)
                  (run_body (local_types (m_types md) fn) (wf_body fn)
                     (mkState [] ((Some <$> args) ++ (zero_of <$> wf_locals fn)) w))
              else CStuck
          | None => CStuck
          end
      | None => CStuck
      end
  end.
End calls.

Fixpoint run (md : WasmModule) (fuel : nat) (lt : list ValType) (l : list Instr) s : outcome R W :=
  match fuel with
  | O => OFuel
  | S f => exec_seq (exec_instr (m_types md) lt (invoke_with md (run md f)) (λ bt body, run md f lt [Loop bt body])) l s
  end.

Definition invoke (md : WasmModule) (fuel : nat) : callee → list (val R) → W → call_result R W := invoke_with md (run md fuel).
End exec.
