(* ===== verification/PeepRules.v ===== *)
(** The rewrites of the peephole pass on trees, and that they keep what code does.

    One pair of related trees differs by rewrites at the head of some of its instruction
    lists; the passes make several such steps. *)

From S2P Require Import Prelude WasmModel InstrGraph WasmSem.

(** * Rewrites *)

(** [redex lt l k]: a rewrite at the head of [l], in a function whose locals are [lt]. *)
Inductive redex (lt : list ValType) : list Instr → list Instr → Prop :=
  | redex_non_null t l : redex lt (RefCast t :: Plain "ref.as_non_null" :: l) (RefCast t :: l)
  | redex_local_drop n l : redex lt (LocalGet n :: Plain "drop" :: l) l
  | redex_global_drop n l : redex lt (GlobalGet n :: Plain "drop" :: l) l
  | redex_tee_drop n l : redex lt (LocalTee n :: Plain "drop" :: l) (LocalSet n :: l)
  | redex_postfix n c op l :
      match c with I32Const _ | F64Const _ => True | _ => False end → op ∈ ["i32.add"; "i32.sub"; "f64.add"; "f64.sub"]%string →
      redex lt (LocalGet n :: LocalGet n :: c :: Plain op :: LocalSet n :: Plain "drop" :: l) (LocalGet n :: c :: Plain op :: LocalSet n :: l)
  | redex_or_zero l : redex lt (I32Const 0 :: Plain "i32.or" :: l) l
  | redex_nan a b l : is_zero_bits a = true → is_zero_bits b = true →
      redex lt (F64Const a :: F64Const b :: Plain "f64.div" :: l) (F64Const NAN_BITS :: l)
  | redex_tee n l : redex lt (LocalSet n :: LocalGet n :: l) (LocalTee n :: l)
  | redex_cast n t l : js_at lt n = Some (VRefNull t) →
      redex lt (LocalGet n :: RefCast t :: l) (LocalGet n :: Plain "ref.as_non_null" :: l).

Section related.
Context (lt : list ValType).

Inductive peep_list (R : Instr → Instr → Prop) : list Instr → list Instr → Prop :=
  | peep_nil : peep_list R [] []
  | peep_cons i i' l l' : R i i' → peep_list R l l' → peep_list R (i :: l) (i' :: l')
  | peep_redex l k k' : redex lt l k → peep_list R k k' → peep_list R l k'.

Definition peep_opt (R : list Instr → list Instr → Prop) (o o' : option (list Instr)) : Prop :=
  match o, o' with Some l, Some l' => R l l' | None, None => True | _, _ => False end.

Inductive peep_instr : Instr → Instr → Prop :=
  | peep_leaf i : is_leaf i = true → peep_instr i i
  | peep_block t l l' : peep_list peep_instr l l' → peep_instr (Block t l) (Block t l')
  | peep_loop t l l' : peep_list peep_instr l l' → peep_instr (Loop t l) (Loop t l')
  | peep_if t l l' : peep_list peep_instr l l' → peep_instr (If t l None) (If t l' None)
  | peep_if_else t l l' k k' : peep_list peep_instr l l' → peep_list peep_instr k k' → peep_instr (If t l (Some k)) (If t l' (Some k'))
  | peep_try t l l' cs cs' : peep_list peep_instr l l' → Forall2 (λ c c', c.1 = c'.1 ∧ peep_list peep_instr c.2 c'.2) cs cs' →
      peep_instr (Try t l cs None) (Try t l' cs' None)
  | peep_try_all t l l' cs cs' k k' : peep_list peep_instr l l' → Forall2 (λ c c', c.1 = c'.1 ∧ peep_list peep_instr c.2 c'.2) cs cs' →
      peep_list peep_instr k k' → peep_instr (Try t l cs (Some k)) (Try t l' cs' (Some k'))
  | peep_try_table t l l' cs : peep_list peep_instr l l' → peep_instr (TryTable t l cs) (TryTable t l' cs).

Definition peeps : list Instr → list Instr → Prop := peep_list peep_instr.
End related.

(** A function and a module after one step. *)
Definition peep_function (types : list TypeDef) (f f' : WasmFunction) : Prop :=
  wf_name f' = wf_name f ∧ wf_typeIdx f' = wf_typeIdx f ∧ wf_locals f' = wf_locals f ∧ peeps (local_types types f) (wf_body f) (wf_body f').

Definition with_bodies (md : WasmModule) (fs : list WasmFunction) : WasmModule :=
  mkModule (m_types md) (m_canonicalRuntimeRecGroup md) (m_imports md) fs (m_exports md) (m_tables md) (m_elements md) (m_globals md)
    (m_tags md) (m_declaredFuncRefs md) (m_funcOrdinalToPosition md) (m_memories md) (m_dataSegments md) (m_startFuncIdx md).

Definition peep_module (md md' : WasmModule) : Prop :=
  ∃ fs, md' = with_bodies md fs ∧ Forall2 (peep_function (m_types md)) (m_functions md) fs.

(** * Behaviour *)

Section behaviour.
Context {R W : Type} `{MachineOk R W}.
Implicit Types (s : state R W) (o : outcome R W) (v : val R).

(** Locals have values of their types. *)
Definition typed (lt : list ValType) s : Prop := Forall2 (λ (x : option (val R)) t, ∀ v, x = Some v → has_type v t = true) (locs s) lt.

Definition keeps (lt : list ValType) o : Prop :=
  match o with ONext s | OBranch _ s | OReturn s | OThrow _ s | ORethrow _ s => typed lt s | OTrap _ | OStuck | OFuel => True end.

(** The same outcome, where validation does not rule out the original. *)
Definition agrees o o' : Prop := o = OStuck ∨ o = o'.

Definition call_agrees (c c' : call_result R W) : Prop := c = CStuck ∨ c = c'.

Definition refines (lt : list ValType) (F F' : state R W → outcome R W) : Prop :=
  ∀ s, typed lt s → keeps lt (F s) ∧ agrees (F s) (F' s).

Lemma typed_stk lt k s : typed lt s → typed lt (with_stk k s).
Proof. done. Qed.

Lemma typed_get lt s n v : typed lt s → js_at (locs s) n = Some (Some v) → ∃ t, js_at lt n = Some t ∧ has_type v t = true.
Proof.
  intros Ht (Hn & Hv)%js_at_Some. destruct (Forall2_lookup_l _ _ _ _ _ Ht Hv) as (t & Hlt & Hty). exists t.
  split; [apply js_at_Some; by split|by apply Hty].
Qed.

Lemma set_local_cases lt n v s k : typed lt s →
  set_local lt n v s k = OStuck ∨
  (set_local lt n v s k = ONext (mkState k (ta_set (locs s) n (Some v)) (world s)) ∧
   typed lt (mkState k (ta_set (locs s) n (Some v)) (world s)) ∧ js_at (ta_set (locs s) n (Some v)) n = Some (Some v) ∧
   ∀ k', set_local lt n v s k' = ONext (mkState k' (ta_set (locs s) n (Some v)) (world s))).
Proof.
  intros Ht. unfold set_local. destruct (js_at lt n) as [t|] eqn:E; [|by left]. destruct (has_type v t) eqn:Ev; [|by left]. right.
  pose proof E as (Hn & El)%js_at_Some. pose proof (Forall2_length _ _ _ Ht) as Hlen. apply lookup_lt_Some in El as Hlt.
  split; [done|]. split; [|split; [|done]].
  - unfold typed, ta_set. cbn. destruct (n <? 0); [done|]. rewrite <- (list_insert_id lt _ _ El). apply Forall2_insert; [done|]. by intros ? [= <-].
  - rewrite js_at_ta_set. case_decide; [done|]. lia.
Qed.

Lemma agrees_refl o : agrees o o.
Proof. by right. Qed.

(** ** The rewrites *)

Section rules.
Context (types : list TypeDef) (lt : list ValType) (call : callee → list (val R) → W → call_result R W).
Context (again : BlockType → list Instr → state R W → outcome R W).
Abbreviation exec := (exec_seq (exec_instr types lt call again)).

Lemma redex_ok l k s : redex lt l k → typed lt s → agrees (exec l s) (exec k s).
Proof.
  intros Hr Ht. destruct Hr as [t l|n l|n l|n l|n c op l Hc Hop|l|a b l Ha Hb|n l|n t l Hn]; cbn [exec_seq].
  - cbn [exec_instr step]. destruct (stk s) as [|[] k] eqn:E; try by left. 1: by right. destruct (ref_has r t); [|by right]. cbn. rewrite E. by right.
  - cbn [exec_instr step]. destruct (js_at (locs s) n) as [[v|]|]; try by left. right. by destruct s.
  - cbn [exec_instr step]. destruct (get_global (world s) n); [|by left]. right. by destruct s.
  - cbn [exec_instr step]. destruct (stk s) as [|v k]; [by left|]. destruct (set_local_cases lt n v s (v :: k) Ht) as [->|(-> & _ & _ & E)]; [by left|]. rewrite E. by right.
  - destruct (js_at (locs s) n) as [[v|]|] eqn:En; try (left; cbn; by rewrite En).
    assert (∀ s', locs s' = locs s → exec_instr types lt call again (LocalGet n) s' = push_val v s') as Hget.
    { intros s' E. cbn. by rewrite E, En. }
    rewrite !Hget by done. cbn [push_val]. rewrite Hget by done. cbn [push_val].
    assert (∃ cv, ∀ s', exec_instr types lt call again c s' = push_val cv s') as [cv Hcv] by (destruct c; try done; by eexists).
    assert (∀ s' x y k, stk s' = y :: x :: k → exec_instr types lt call again (Plain op) s' =
      match binop op x y with Some z => ONext (with_stk (z :: k) s') | None => OStuck end) as Hbin.
    { intros s' x y k E. cbn [exec_instr step]. rewrite E.
      repeat (apply elem_of_cons in Hop as [->|Hop]; [done|]). by apply not_elem_of_nil in Hop. }
    rewrite !Hcv. cbn [push_val]. rewrite (Hbin _ v cv (v :: stk s)), (Hbin _ v cv (stk s)) by done.
    destruct (binop op v cv) as [z|]; [|by left]. cbn [exec_instr step with_stk stk].
    match goal with |- context [set_local lt n z ?s' (v :: stk s)] => destruct (set_local_cases lt n z s' (v :: stk s) Ht) as [->|(-> & _ & _ & E)] end; [by left|].
    match goal with |- context [set_local lt n z ?s' (stk s)] => change (set_local lt n z s' (stk s)) with (set_local lt n z (with_stk (z :: v :: stk s) s) (stk s)) end.
    rewrite E. by right.
  - cbn. destruct (stk s) as [|a k] eqn:E; [by left|]. destruct a as [x| | | | | |]; try by left. cbn. right. rewrite Z.lor_0_r.
    destruct s. cbn in *. by subst.
  - cbn. rewrite zero_by_zero by done. by right.
  - cbn [exec_instr step]. destruct (stk s) as [|v k] eqn:Es; [by left|]. destruct (set_local_cases lt n v s k Ht) as [->|(-> & _ & E & Ek)]; [by left|].
    cbn [exec_instr step locs]. rewrite E, Ek. by right.
  - cbn [exec_instr step]. destruct (js_at (locs s) n) as [[v|]|] eqn:En; try by left. destruct (typed_get _ _ _ _ Ht En) as (t' & Hn' & Hv).
    rewrite Hn in Hn'. injection Hn' as <-. cbn. destruct v as [| | | | | |r]; cbn in Hv; try done; [by right|]. rewrite Hv. by right.
Qed.
End rules.

Lemma redex_Forall (Q : Instr → Prop) lt l k : (∀ i, is_leaf i = true → Q i) → redex lt l k → Forall Q l → Forall Q k.
Proof. intros HQ Hr Hl. destruct Hr; repeat (apply Forall_cons in Hl as [? Hl]); repeat (constructor; [by auto|]); done. Qed.

(** ** Outcomes of related code *)

Definition ok (lt : list ValType) o o' : Prop := keeps lt o ∧ agrees o o'.

Lemma ok_refl lt o : keeps lt o → ok lt o o.
Proof. split; [done|apply agrees_refl]. Qed.

Lemma ok_stuck lt o : ok lt OStuck o.
Proof. split; [done|by left]. Qed.

(** What is done with an outcome that is stuck on stuck code. *)
Lemma ok_map lt (f : outcome R W → outcome R W) o o' :
  f OStuck = OStuck → (∀ o, keeps lt o → keeps lt (f o)) → ok lt o o' → ok lt (f o) (f o').
Proof. intros Hf Hk [Ho [->| ->]]; [rewrite Hf; apply ok_stuck|apply ok_refl; auto]. Qed.

Lemma keeps_leave lt n rest o : keeps lt o → keeps lt (leave n rest o).
Proof. destruct o as [s|[|d] s|s|e s|[|d] s| | |]; cbn; intros Ht; repeat case_match; done. Qed.

Lemma ok_leave lt n rest o o' : ok lt o o' → ok lt (leave n rest o) (leave n rest o').
Proof. apply ok_map; [done|]. intros ?. apply keeps_leave. Qed.

Lemma ok_reframe lt rest o o' : ok lt o o' → ok lt (reframe rest o) (reframe rest o').
Proof. apply ok_map; [done|]. by intros []. Qed.

Lemma ok_rethrowing lt e o o' : ok lt o o' → ok lt (rethrowing e o) (rethrowing e o').
Proof. apply ok_map; [done|]. by intros [| | | |[]| | |]. Qed.

Lemma ok_seq lt f f' l s : (∀ i s, i ∈ l → typed lt s → ok lt (f i s) (f' i s)) → typed lt s → ok lt (exec_seq f l s) (exec_seq f' l s).
Proof.
  revert s. induction l as [|i l IH]; intros s Hf Hs; cbn; [by apply ok_refl|].
  destruct (Hf i s ltac:(left) Hs) as [Hk [E|E]]; rewrite E in *; [apply ok_stuck|].
  destruct (f' i s) as [s'| | | | | | |]; try by apply ok_refl. apply IH; [|done]. intros j s1 Hj. apply Hf. by right.
Qed.

Lemma ok_scoped types lt bt (F F' : nat → nat → list (val R) → state R W → outcome R W) s :
  (∀ m n rest s, typed lt s → ok lt (F m n rest s) (F' m n rest s)) → typed lt s → ok lt (scoped types bt s F) (scoped types bt s F').
Proof.
  intros HF Hs. unfold scoped. destruct (arity types bt) as [[m n]|]; [|apply ok_stuck]. unfold enter. destruct (_ <=? _)%nat; [|apply ok_stuck]. by apply HF.
Qed.

Section related_code.
Context (types : list TypeDef) (lt : list ValType) (call call' : callee → list (val R) → W → call_result R W).
Context (again again' : BlockType → list Instr → state R W → outcome R W).
Hypothesis Hcall : ∀ f k w, call_agrees (call f k w) (call' f k w).
Hypothesis Hagain : ∀ bt b b', peeps lt b b' → refines lt (again bt b) (again' bt b').
Abbreviation F := (exec_instr types lt call again).
Abbreviation F' := (exec_instr types lt call' again').

Lemma ok_returned tail s c c' : typed lt s → call_agrees c c' → ok lt (returned tail s c) (returned tail s c').
Proof. intros Hs [->| ->]; [apply ok_stuck|]. apply ok_refl. by destruct c', tail. Qed.

Lemma ok_do_leaf i s : typed lt s → ok lt (do_leaf call i s) (do_leaf call' i s).
Proof. intros Hs. unfold do_leaf. destruct (leaf i (stk s) (world s)); try by apply ok_refl. 1,2: by apply ok_returned. Qed.

Lemma keeps_set_local n v s k : typed lt s → keeps lt (set_local lt n v s k).
Proof. intros Hs. destruct (set_local_cases lt n v s k Hs) as [->|(-> & Ht & _)]; done. Qed.

Lemma ok_step i s : typed lt s → ok lt (step lt call i s) (step lt call' i s).
Proof.
  intros Hs. destruct i; try by apply ok_do_leaf.
  all: cbn [step]; repeat case_match; try (by apply ok_do_leaf); apply ok_refl; done || by apply keeps_set_local.
Qed.

Definition instr_ok (i : Instr) : Prop := ∀ i', peep_instr lt i i' → refines lt (F i) (F' i').

Lemma leaf_ok i : is_leaf i = true → instr_ok i.
Proof. intros Hi i' Hp s Hs. inversion Hp; subst; try done. pose proof (ok_step i' s Hs). by destruct i'. Qed.

Lemma list_ok l l' : Forall instr_ok l → peeps lt l l' → refines lt (exec_seq F l) (exec_seq F' l').
Proof.
  intros Hl Hp. revert Hl. induction Hp as [|i i' l l' Hi Hp IH|l k k' Hr Hp IH]; intros Hl s Hs.
  - by apply ok_refl.
  - apply Forall_cons in Hl as [Hq Hl]. cbn [exec_seq]. destruct (Hq _ Hi s Hs) as [Hk [E|E]]; rewrite E in *; [apply ok_stuck|].
    destruct (F' i' s) as [s'| | | | | | |]; try by apply ok_refl. by apply IH.
  - destruct (IH (redex_Forall _ _ _ _ leaf_ok Hr Hl) s Hs) as [Hk Ha].
    destruct (redex_ok types lt call again l k s Hr Hs) as [E|E]; rewrite E; [apply ok_stuck|by split].
Qed.

Definition handlers_ok (h h' : option (state R W → outcome R W)) : Prop :=
  match h, h' with Some h, Some h' => refines lt h h' | None, None => True | _, _ => False end.

Lemma handler_ok tag cs cs' : Forall (λ c, Forall instr_ok c.2) cs →
  Forall2 (λ c c', c.1 = c'.1 ∧ peep_list lt (peep_instr lt) c.2 c'.2) cs cs' →
  handlers_ok (handler F tag cs) (handler F' tag cs').
Proof.
  intros Hq. induction 1 as [|c c' cs cs' [E Hc] _ IH]; [done|]. apply Forall_cons in Hq as [Hqc Hq]. cbn. rewrite <- E.
  destruct (c.1 =? tag); [by apply list_ok|by apply IH].
Qed.

Lemma ok_loop m n rest (G G' : state R W → outcome R W) o o' : refines lt G G' → ok lt o o' → ok lt (loop_end m n rest G o) (loop_end m n rest G' o').
Proof.
  intros HG [Hk [->| ->]]; [apply ok_stuck|]. destruct o' as [s|[|d] s|s|e s|[|d] s| | |]; try by (apply ok_leave, ok_refl).
  cbn. destruct (_ <=? _)%nat; [|apply ok_stuck]. by apply ok_reframe, HG.
Qed.

Lemma ok_try n rest (h h' : Z → option (state R W → outcome R W)) a a' o o' :
  (∀ tag, handlers_ok (h tag) (h' tag)) → handlers_ok a a' → ok lt o o' → ok lt (try_end n rest h a o) (try_end n rest h' a' o').
Proof.
  intros Hh Ha [Hk [->| ->]]; [apply ok_stuck|]. destruct o' as [s|[|d] s|s|e s|[|d] s| | |]; try by (apply ok_leave, ok_refl).
  specialize (Hh (exc_tag e)). cbn. destruct (h _), (h' _); try done; [by apply ok_leave, ok_rethrowing, Hh|].
  destruct a, a'; try done; [by apply ok_leave, ok_rethrowing, Ha|by apply ok_refl].
Qed.

Lemma keeps_table_end cs o : keeps lt o → keeps lt (table_end cs o).
Proof. destruct o as [ | | | e s| | | | ]; cbn; try done. by destruct (list_find _ cs) as [[j c]|]. Qed.

Lemma instr_refines i : instr_ok i.
Proof.
  apply instr_tree_ind; clear i.
  - intros i. destruct i; try done; by apply leaf_ok.
  - intros t b Hb i' Hp s Hs. inversion Hp; subst; [done|]. cbn [exec_instr]. apply ok_scoped; [|done]. intros m n rest s1 H1. by apply ok_leave, list_ok.
  - intros t b Hb i' Hp s Hs. inversion Hp; subst; [done|]. cbn [exec_instr]. apply ok_scoped; [|done]. intros m n rest s1 H1. apply ok_loop; [by apply Hagain|by apply list_ok].
  - intros t th el Hth Hel i' Hp s Hs. inversion Hp; subst; [done|..]; cbn [exec_instr]; destruct (stk s) as [|[c| | | | | |] rest0]; try apply ok_stuck.
    all: apply ok_scoped; [|done]; intros m n rest s1 H1; apply ok_leave; destruct (c =? 0); try by apply list_ok.
    + by apply ok_refl.
    + apply list_ok; [by apply Hel|done..].
  - intros t b cs ca Hb Hcs Hca i' Hp s Hs. inversion Hp; subst; [done|..]; cbn [exec_instr]; (apply ok_scoped; [|done]); intros m n rest s1 H1.
    all: apply ok_try; [intros tag; by apply handler_ok| |by apply list_ok]; cbn; done || (apply list_ok; [by apply Hca|done]).
  - intros t b cs Hb i' Hp s Hs. inversion Hp; subst; [done|]. cbn [exec_instr]. apply ok_scoped; [|done]. intros m n rest s1 H1.
    apply (ok_map lt (table_end cs)); [done|apply keeps_table_end|]. by apply ok_leave, list_ok.
Qed.

Lemma code_refines l l' : peeps lt l l' → refines lt (exec_seq F l) (exec_seq F' l').
Proof. apply list_ok, list.Forall_forall. intros i _. apply instr_refines. Qed.
End related_code.

(** ** Modules *)

Lemma zero_typed t v : zero_of t = Some v → has_type v t = true.
Proof. destruct t; cbn; repeat case_match; intros [= <-]; cbn; done || congruence. Qed.

Lemma ok_results lt n rest o o' : ok lt o o' → call_agrees (results n rest o) (results n rest o').
Proof. intros [_ [->| ->]]; [by left|by right]. Qed.

Lemma invoke_with_agrees md md' (body body' : list ValType → list Instr → state R W → outcome R W) f k w :
  peep_module md md' → (∀ lt l l', peeps lt l l' → refines lt (body lt l) (body' lt l')) →
  call_agrees (invoke_with md body f k w) (invoke_with md' body' f k w).
Proof.
  intros (fs & -> & Hfs) Hb. destruct f as [p|h]; [|by right]. cbn [invoke_with with_bodies m_functions m_types].
  destruct (js_at (m_functions md) p) as [fn|] eqn:E; [|by left]. apply js_at_Some in E as [Hp E].
  destruct (Forall2_lookup_l _ _ _ _ _ Hfs E) as (fn' & E' & (_ & Ety & Elocs & Hbody)).
  replace (js_at fs p) with (Some fn') by (symmetry; by apply js_at_Some). rewrite Ety, Elocs.
  replace (local_types (m_types md) fn') with (local_types (m_types md) fn) by (unfold local_types; by rewrite Ety, Elocs).
  destruct (signature (m_types md) (wf_typeIdx fn)) as [[params rs]|] eqn:Es; [|by left].
  case_bool_decide as Hargs; [|by left]. eapply ok_results, Hb; [exact Hbody|]. unfold typed, local_types. rewrite Es. cbn [locs].
  apply Forall2_app.
  - apply Forall2_fmap_l. eapply Forall2_impl; [exact Hargs|]. intros v t Hv ? [= <-]. done.
  - apply Forall2_fmap_l, Forall_Forall2_diag, list.Forall_forall. intros t _ v. apply zero_typed.
Qed.

Lemma run_refines md md' fuel : peep_module md md' → ∀ lt l l', peeps lt l l' → refines lt (run md fuel lt l) (run md' fuel lt l').
Proof.
  intros Hm. pose proof Hm as (fs & -> & _). induction fuel as [|fuel IH]; intros lt l l' Hl s Hs; [by apply ok_refl|].
  cbn [run with_bodies m_types]. eapply code_refines; [|intros bt b b' Hb|exact Hl|exact Hs].
  - intros f k w. by apply invoke_with_agrees.
  - apply IH. constructor; [by constructor|constructor].
Qed.

(** Any number of steps keep the result of every call, at every bound. *)
Lemma module_behaves md md' : rtc peep_module md md' → ∀ fuel f k w, call_agrees (invoke md fuel f k w) (invoke md' fuel f k w).
Proof.
  induction 1 as [md|md md1 md' Hm _ IH]; intros fuel f k w; [by right|].
  destruct (invoke_with_agrees md md1 (run md fuel) (run md1 fuel) f k w Hm (run_refines md md1 fuel Hm)) as [E|E]; [by left|].
  destruct (IH fuel f k w) as [E'|E']; unfold invoke in *; [left|right]; congruence.
Qed.
End behaviour.
