(* ===== verification/Peephole.v ===== *)
(** The peephole pass: src/codegen/peephole.ts, and the analysis of shared arrays that it
    asks (InstrArraySharing in src/codegen/call-arg-producers.ts).

    The pass changes arrays of the instruction store in place and puts fresh objects into
    them.  The index [i] of its scan and the lengths are natural numbers. *)

From S2P Require Import Prelude WasmModel InstrGraph FuncSweep.
From S2P Require Import WasmSem.

(** * Which arrays are shared *)

Record InstrArraySharing := mkSharing { sh_shared : gset Z; sh_multiParent : gset Z }.

(** The state of the analysis: the owner of an array is the first function that reached it. *)
Record sharing_walk := mkWalk { sw_owners : gmap Z Z; sw_found : InstrArraySharing; sw_seenForeign : gset Z }.

Section sharing.
Context (st : instr_store).

(** The arrays that pushNestedInstrArrays pushes for the instructions of a body. *)
Definition nested_arrays (body : Z) : list Z :=
  elements_of st body ≫= λ id, match s_objects st !! id with Some n => sweep_children n | None => [] end.

Definition add_multi (a : Z) (s : InstrArraySharing) : InstrArraySharing := mkSharing (sh_shared s) ({[a]} ∪ sh_multiParent s).
Definition add_shared (a : Z) (s : InstrArraySharing) : InstrArraySharing := mkSharing ({[a]} ∪ sh_shared s) (sh_multiParent s).

(** One array of the stack: the state, and whether its nested arrays are pushed. *)
Definition reach_array (func body : Z) (w : sharing_walk) : sharing_walk * bool :=
  match sw_owners w !! body with
  | None => (mkWalk (<[body := func]> (sw_owners w)) (sw_found w) (sw_seenForeign w), true)
  | Some owner =>
      let found := add_multi body (sw_found w) in
      if owner =? func then (mkWalk (sw_owners w) found (sw_seenForeign w), false)
      else if bool_decide (body ∈ sw_seenForeign w) then (mkWalk (sw_owners w) found (sw_seenForeign w), false)
      else (mkWalk (sw_owners w) (add_shared body found) ({[body]} ∪ sw_seenForeign w), true)
  end.

(** The head of [pending] is the end of the array. *)
Fixpoint sharing_loop (fuel : nat) (func : Z) (pending : list Z) (w : sharing_walk) : result sharing_walk :=
  match pending with
  | [] => Ok w
  | body :: pending =>
      match fuel with
      | O => Err OutOfFuel
      | S f =>
          let (w, push) := reach_array func body w in
          sharing_loop f func (if push then reverse (nested_arrays body) ++ pending else pending) w
      end
  end.

(** One step for the body, and one for each array nested in an array. *)
Definition sharing_fuel : nat := S (sum_list_with (λ a, length (nested_arrays a)) (elements (dom (s_arrays st)))).

Definition instrArraySharing (m : PModule) : result InstrArraySharing :=
  w ← for_each (p_functions m)
    (λ fn w, sharing_loop sharing_fuel (pf_id fn) [pf_body fn] (mkWalk (sw_owners w) (sw_found w) ∅))
    (mkWalk ∅ (mkSharing ∅ ∅) ∅);
  Ok (sw_found w).
End sharing.

(** * The pass *)

(** The state: the store, the set of the visited arrays, and the count. *)
Record peephole := mkPeep { pp_store : instr_store; pp_visited : gset Z; pp_removed : Z }.

(** [l.splice(i, n, ...new)] *)
Definition splice {A} (l : list A) (i n : nat) (new : list A) : list A := take i l ++ new ++ drop (i + n) l.

Definition set_array (a : Z) (l : list Z) (st : instr_store) : instr_store :=
  mkStore (s_objects st) (<[a := l]> (s_arrays st)) (s_blockTypes st).

(** A new instruction object. *)
Definition new_object (i : Instr) (st : instr_store) : Z * instr_store :=
  let id := fresh (dom (s_objects st)) in (id, mkStore (<[id := NLeaf i]> (s_objects st)) (s_arrays st) (s_blockTypes st)).

Definition is_plain (op : string) (o : option Instr) : bool := match o with Some (Plain p) => String.eqb p op | _ => false end.
Definition is_cast (o : option Instr) : bool := match o with Some (RefCast _) => true | _ => false end.
Definition is_get (o : option Instr) : bool := match o with Some (LocalGet _) => true | _ => false end.
Definition is_global_get (o : option Instr) : bool := match o with Some (GlobalGet _) => true | _ => false end.
Definition is_const (o : option Instr) : bool := match o with Some (I32Const _ | F64Const _) => true | _ => false end.
Definition gets (n : Z) (o : option Instr) : bool := match o with Some (LocalGet k) => k =? n | _ => false end.
Definition sets (n : Z) (o : option Instr) : bool := match o with Some (LocalSet k) => k =? n | _ => false end.
Definition casts (t : Z) (o : option Instr) : bool := match o with Some (RefCast k) => k =? t | _ => false end.
(** [value === 0], which holds of -0 too. *)
Definition zero_i32 (o : option Instr) : bool := match o with Some (I32Const v) => v =? 0 | _ => false end.
Definition zero_f64 (o : option Instr) : bool := match o with Some (F64Const b) => is_zero_bits b | _ => false end.

Definition steps_local (o : option Instr) : bool := is_plain "i32.add" o || is_plain "i32.sub" o || is_plain "f64.add" o || is_plain "f64.sub" o.

Section body.
Context (sharing : InstrArraySharing) (localTypes : list ValType).

Definition leaf_at (st : instr_store) (a : Z) (i : nat) : option Instr :=
  id ← elements_of st a !! i; n ← s_objects st !! id; match n with NLeaf j => Some j | _ => None end.

Definition edit (body : Z) (l : list Z) (removed : Z) (s : peephole) : peephole :=
  mkPeep (set_array body l (pp_store s)) (pp_visited s) (pp_removed s + removed).

(** The same with one new instruction in the middle. *)
Definition edit_new (body : Z) (i n : nat) (new : Instr) (removed : Z) (s : peephole) : peephole :=
  let l := elements_of (pp_store s) body in
  let (id, st) := new_object new (pp_store s) in
  mkPeep (set_array body (splice l i n [id]) st) (pp_visited s) (pp_removed s + removed).

(** Pattern 5: the array of the [then] arm, when the cast in it is redundant. *)
Definition redundant_cast (st : instr_store) (body : Z) (i : nat) : option Z :=
  match leaf_at st body i, leaf_at st body (i + 1), (id ← elements_of st body !! (i + 2)%nat; s_objects st !! id) with
  | Some (LocalGet n), Some (RefTest t), Some (NIf _ thenBody _) =>
      if negb (bool_decide (body ∈ sh_shared sharing)) && bool_decide (js_at localTypes n = Some (VRefNull t)) &&
         negb (bool_decide (thenBody ∈ sh_shared sharing)) && (2 <=? length (elements_of st thenBody))%nat &&
         gets n (leaf_at st thenBody 0) && casts t (leaf_at st thenBody 1)
      then Some thenBody else None
  | _, _, _ => None
  end.

(** The patterns at index [i], in order: the state after the first that fits, and the
    index that the scan goes on with. *)
Definition peep_at (body : Z) (i : nat) (s : peephole) : option (peephole * nat) :=
  let st := pp_store s in
  let l := elements_of st body in
  let at_ k := leaf_at st body (i + k) in
  if is_cast (at_ 0%nat) && is_plain "ref.as_non_null" (at_ 1%nat) then Some (edit body (splice l (i + 1) 1 []) 1 s, i)
  else if is_get (at_ 0%nat) && is_plain "drop" (at_ 1%nat) then Some (edit body (splice l i 2 []) 2 s, i)
  else if is_global_get (at_ 0%nat) && is_plain "drop" (at_ 1%nat) then Some (edit body (splice l i 2 []) 2 s, i)
  else match at_ 0%nat with
  | Some (LocalTee n) =>
      if is_plain "drop" (at_ 1%nat) then Some (edit_new body i 2 (LocalSet n) 1 s, S i) else None
  | Some (LocalGet n) =>
      if (i + 5 <? length l)%nat && gets n (at_ 1%nat) && is_const (at_ 2%nat) && steps_local (at_ 3%nat) && sets n (at_ 4%nat) && is_plain "drop" (at_ 5%nat)
      then Some (edit body (splice (splice l i 1 []) (i + 4) 1 []) 2 s, i)
      else match redundant_cast st body i with
           | Some thenBody =>
               let (id, st) := new_object (Plain "ref.as_non_null") st in
               Some (mkPeep (set_array thenBody (<[1%nat := id]> (elements_of st thenBody)) st) (pp_visited s) (pp_removed s + 1), S i)
           | None => None
           end
  | Some (I32Const _) => if zero_i32 (at_ 0%nat) && is_plain "i32.or" (at_ 1%nat) then Some (edit body (splice l i 2 []) 2 s, i) else None
  | Some (F64Const _) =>
      if (i + 2 <? length l)%nat && zero_f64 (at_ 0%nat) && zero_f64 (at_ 1%nat) && is_plain "f64.div" (at_ 2%nat)
      then Some (edit_new body i 3 (F64Const NAN_BITS) 2 s, i) else None
  | Some (LocalSet n) => if gets n (at_ 1%nat) then Some (edit_new body i 2 (LocalTee n) 1 s, i) else None
  | _ => None
  end.

(** The scan: each step shortens the array or moves on. *)
Fixpoint scan_patterns (fuel : nat) (body : Z) (i : nat) (s : peephole) : result peephole :=
  if (S i <? length (elements_of (pp_store s) body))%nat then
    match fuel with
    | O => Err OutOfFuel
    | S f => match peep_at body i s with Some (s, i) => scan_patterns f body i s | None => scan_patterns f body (S i) s end
    end
  else Ok s.

(** [visited.add(body)] for the set of visitedFor. *)
Definition visit (body : Z) (s : peephole) : peephole :=
  mkPeep (pp_store s) (if bool_decide (body ∈ sh_multiParent sharing) then {[body]} ∪ pp_visited s else pp_visited s) (pp_removed s).

(** [for (const instr of body) walkChildren(instr, descend)], over the array as it is at
    each step; [n] bounds its length, which never grows. *)
Fixpoint descend (optimize : Z → peephole → result peephole) (body : Z) (n i : nat) (s : peephole) : result peephole :=
  match n with
  | O => Ok s
  | S n =>
      match elements_of (pp_store s) body !! i with
      | None => Ok s
      | Some id => s ← for_each (children_of (pp_store s) id) optimize s; descend optimize body n (S i) s
      end
  end.

(** [depth] bounds the nesting. *)
Fixpoint optimizeBody (depth : nat) (body : Z) (s : peephole) : result peephole :=
  if bool_decide (body ∈ pp_visited s) then Ok s
  else match depth with
       | O => Err OutOfFuel
       | S d =>
           s ← descend (optimizeBody d) body (length (elements_of (pp_store s) body)) 0 (visit body s);
           scan_patterns (length (elements_of (pp_store s) body)) body 0 s
       end.
End body.

Definition getFuncParamTypes (types : list TypeDef) (typeIdx : Z) : list ValType :=
  match js_at types typeIdx with
  | Some (TFunc params _) | Some (TSub _ _ (TFunc params _)) => params
  | _ => []
  end.

(** The number of removed instructions, and the store. *)
Definition peepholeOptimize (depth : nat) (sharing : InstrArraySharing) (m : PModule) (st : instr_store) : result (Z * instr_store) :=
  s ← for_each (p_functions m)
    (λ fn, optimizeBody sharing (getFuncParamTypes (p_types m) (pf_typeIdx fn) ++ pf_locals fn) depth (pf_body fn))
    (mkPeep st ∅ 0);
  Ok (pp_removed s, pp_store s).
