(* ===== verification/PeepholeOk.v ===== *)
(** The analysis of shared arrays finds exactly the arrays that several functions reach.

    The peephole pass on the instruction store keeps what the functions of a module do. *)

From S2P Require Import Prelude WasmModel InstrGraph InstrWalk FuncSweep DeadElim DeadElimModule FuncSweepOk WasmSem PeepRules Peephole.

Section sharing.
Context (st : instr_store).
Abbreviation under := (inside (elements_of st) (children_of st)).

(** A function reaches an array. *)
Definition reaches (fn : PFunction) (a : Z) : Prop := rtc under (pf_body fn) a.

Lemma elem_nested a c : c ∈ nested_arrays st a ↔ under a c.
Proof.
  unfold nested_arrays, inside, children_of. rewrite list_elem_of_bind. split; intros (id & H1 & H2); exists id.
  - split; [done|]. destruct (s_objects st !! id) as [n|]; [by apply sweep_children_elem|by apply not_elem_of_nil in H1].
  - split; [|done]. destruct (s_objects st !! id) as [n|]; [by apply sweep_children_elem|by apply not_elem_of_nil in H2].
Qed.

(** * One function *)

Section function.
Context (func root : Z) (w0 : sharing_walk).
Hypothesis Hnew : ∀ a, sw_owners w0 !! a ≠ Some func.
Hypothesis Hdom : ∀ a, rtc under root a → a ∈ dom (s_arrays st).

(** The arrays that the walk has expanded. *)
Definition expanded (w : sharing_walk) (a : Z) : Prop := sw_owners w !! a = Some func ∨ a ∈ sw_seenForeign w.

Record walking (pending : list Z) (w : sharing_walk) : Prop := {
  wk_reach a : expanded w a ∨ a ∈ pending → rtc under root a;
  wk_closed a c : expanded w a → under a c → expanded w c ∨ c ∈ pending;
  wk_root : expanded w root ∨ root ∈ pending;
  wk_owner a o : o ≠ func → sw_owners w !! a = Some o ↔ sw_owners w0 !! a = Some o;
  wk_foreign a : a ∈ sw_seenForeign w → is_Some (sw_owners w0 !! a);
  wk_shared a : a ∈ sh_shared (sw_found w) ↔ a ∈ sh_shared (sw_found w0) ∨ a ∈ sw_seenForeign w }.

#[local] Instance expanded_dec w a : Decision (expanded w a).
Proof. unfold expanded. apply _. Defined.

Definition unexpanded (w : sharing_walk) (a : Z) : nat := if bool_decide (expanded w a) then 0 else length (nested_arrays st a).

Definition to_do (pending : list Z) (w : sharing_walk) : nat := length pending + sum_list_with (unexpanded w) (elements (dom (s_arrays st))).

Lemma expand_cost w w' a : a ∈ dom (s_arrays st) → ¬ expanded w a → expanded w' a → (∀ b, expanded w b → expanded w' b) →
  (sum_list_with (unexpanded w') (elements (dom (s_arrays st))) + length (nested_arrays st a) ≤ sum_list_with (unexpanded w) (elements (dom (s_arrays st))))%nat.
Proof.
  intros Ha Hn Ha' Hmono. apply sum_list_drop with a; [by apply elem_of_elements| |].
  - unfold unexpanded. rewrite bool_decide_eq_false_2, bool_decide_eq_true_2 by done. lia.
  - intros b. unfold unexpanded. repeat case_bool_decide; try lia. naive_solver.
Qed.

(** The array on top of the stack is expanded. *)
Lemma expand_ok a pending w w' : walking (a :: pending) w → ¬ expanded w a → (∀ b, expanded w' b ↔ expanded w b ∨ b = a) →
  (∀ b o, o ≠ func → sw_owners w' !! b = Some o ↔ sw_owners w !! b = Some o) →
  (∀ b, b ∈ sw_seenForeign w' → is_Some (sw_owners w0 !! b)) →
  (∀ b, b ∈ sh_shared (sw_found w') ↔ b ∈ sh_shared (sw_found w0) ∨ b ∈ sw_seenForeign w') →
  walking (reverse (nested_arrays st a) ++ pending) w' ∧ (to_do (reverse (nested_arrays st a) ++ pending) w' < to_do (a :: pending) w)%nat.
Proof.
  intros [W1 W2 W3 W4 W5 W6] Hn He Ho Hf Hs. assert (rtc under root a) as Hra by (apply W1; right; left).
  split; [split|].
  - intros b. rewrite He, elem_of_app, elem_of_reverse, elem_nested. intros [[Hb| ->]|[Hb|Hb]]; [apply W1; by left|done| |apply W1; right; by right].
    by eapply rtc_r.
  - intros b c. rewrite !He, elem_of_app, elem_of_reverse, elem_nested. intros [Hb| ->] Hc; [|by right; left].
    destruct (W2 b c Hb Hc) as [|[->|]%elem_of_cons]; [by left; left|by left; right|by right; right].
  - rewrite He, elem_of_app. destruct W3 as [|[->|]%elem_of_cons]; [by left; left|by left; right|by right; right].
  - intros b o Hne. rewrite Ho by done. by apply W4.
  - done.
  - done.
  - unfold to_do. rewrite length_app, length_reverse. cbn [length].
    pose proof (expand_cost w w' a (Hdom a Hra) Hn ltac:(apply He; by right) ltac:(intros b Hb; apply He; by left)). lia.
Qed.

Lemma skip_ok a pending w w' : walking (a :: pending) w → expanded w a → sw_owners w' = sw_owners w → sw_seenForeign w' = sw_seenForeign w →
  sh_shared (sw_found w') = sh_shared (sw_found w) → walking pending w' ∧ (to_do pending w' < to_do (a :: pending) w)%nat.
Proof.
  intros [W1 W2 W3 W4 W5 W6] Ha Eo Ef Es. assert (∀ b, expanded w' b ↔ expanded w b) as He by (intros b; unfold expanded; by rewrite Eo, Ef).
  split; [split|].
  - intros b. rewrite He. intros [Hb|Hb]; apply W1; [by left|right; by right].
  - intros b c. rewrite !He. intros Hb Hc. destruct (W2 b c Hb Hc) as [|[->|]%elem_of_cons]; auto.
  - rewrite He. destruct W3 as [|[->|]%elem_of_cons]; auto.
  - intros b o Hne. rewrite Eo. by apply W4.
  - intros b. rewrite Ef. apply W5.
  - intros b. rewrite Es, Ef. apply W6.
  - unfold to_do. cbn [length]. assert (sum_list_with (unexpanded w') (elements (dom (s_arrays st))) = sum_list_with (unexpanded w) (elements (dom (s_arrays st)))) as ->; [|lia].
    induction (elements (dom (s_arrays st))) as [|b l IH]; [done|]. cbn. rewrite IH. unfold unexpanded. by rewrite (bool_decide_ext _ _ (He b)).
Qed.

Lemma reach_array_ok a pending w : walking (a :: pending) w →
  let (w', push) := reach_array func a w in
  let pending' := if push then reverse (nested_arrays st a) ++ pending else pending in
  walking pending' w' ∧ (to_do pending' w' < to_do (a :: pending) w)%nat.
Proof.
  intros Hw. pose proof Hw as [W1 W2 W3 W4 W5 W6]. unfold reach_array. destruct (sw_owners w !! a) as [o|] eqn:Eo.
  - destruct (Z.eqb_spec o func) as [->|Hne]; [apply (skip_ok _ _ w); try done; by left|].
    case_bool_decide as Hs; [apply (skip_ok _ _ w); try done; by right|]. apply (expand_ok _ _ w); cbn; try done.
    + intros [|]; [congruence|done].
    + intros b. unfold expanded. cbn. set_solver.
    + intros b. rewrite elem_of_union, elem_of_singleton. intros [->|]; [|auto]. exists o. by apply W4.
    + intros b. rewrite !elem_of_union, elem_of_singleton, W6. tauto.
  - apply (expand_ok _ _ w); cbn; try done.
    + intros [|Hf]; [congruence|]. destruct (W5 _ Hf) as [o Ho]. assert (o ≠ func) as Hne by (intros ->; by apply (Hnew a)).
      apply W4 in Ho; [congruence|done].
    + intros b. unfold expanded. cbn. destruct (decide (a = b)) as [->|Hne]; [rewrite lookup_insert_eq; naive_solver|rewrite lookup_insert_ne by done; naive_solver].
    + intros b o Hne. destruct (decide (a = b)) as [->|]; [rewrite lookup_insert_eq; naive_solver|by rewrite lookup_insert_ne].
Qed.

Lemma sharing_loop_ok fuel pending w : walking pending w → (to_do pending w ≤ fuel)%nat →
  ∃ w', sharing_loop st fuel func pending w = Ok w' ∧ walking [] w'.
Proof.
  revert pending w. induction fuel as [|fuel IH]; intros [|a pending] w Hw Hf; cbn [sharing_loop]; try by eexists.
  { unfold to_do in Hf. cbn in Hf. lia. }
  pose proof (reach_array_ok a pending w Hw) as Hr. destruct (reach_array func a w) as [w' push]. destruct Hr as [Hw' Hlt]. apply IH; [done|lia].
Qed.

Lemma sharing_start : sw_seenForeign w0 = ∅ → walking [root] w0.
Proof.
  intros Hf. split; unfold expanded; rewrite ?Hf.
  - intros a [[H|H]|H%list_elem_of_singleton]; [by apply Hnew in H|done|by subst].
  - intros a c [H|H]; [by apply Hnew in H|done].
  - right. left.
  - done.
  - done.
  - set_solver.
Qed.

Lemma walking_end w a : walking [] w → expanded w a ↔ rtc under root a.
Proof.
  intros [W1 W2 W3 _ _ _]. split; [intros; apply W1; by left|]. destruct W3 as [Hr|Hr]; [|by apply not_elem_of_nil in Hr].
  intros Ha. revert a Ha. apply rtc_ind_r; [done|]. intros b c _ Hbc Hb. destruct (W2 _ _ Hb Hbc) as [|Hn]; [done|by apply not_elem_of_nil in Hn].
Qed.

Lemma start_cost w : (to_do [root] w ≤ sharing_fuel st)%nat.
Proof.
  unfold to_do, sharing_fuel. cbn [length]. enough (∀ l, sum_list_with (unexpanded w) l ≤ sum_list_with (λ a, length (nested_arrays st a)) l)%nat as H by (pose proof (H (elements (dom (s_arrays st)))); lia).
  induction l as [|a l IH]; [done|]. cbn. unfold unexpanded at 1. case_bool_decide; lia.
Qed.
End function.

(** * All functions *)

(** After the functions [done]: the owners of what they reach, and what two of them reach. *)
Record analysed (done : list PFunction) (w : sharing_walk) : Prop := {
  an_owner a o : sw_owners w !! a = Some o → ∃ fn, fn ∈ done ∧ pf_id fn = o ∧ reaches fn a;
  an_owned a fn : fn ∈ done → reaches fn a → is_Some (sw_owners w !! a);
  an_shared a : a ∈ sh_shared (sw_found w) ↔ ∃ f g, f ∈ done ∧ g ∈ done ∧ pf_id f ≠ pf_id g ∧ reaches f a ∧ reaches g a }.

Lemma function_ok done fn w : analysed done w → (∀ f, f ∈ done → pf_id f ≠ pf_id fn) → (∀ a, reaches fn a → a ∈ dom (s_arrays st)) →
  ∃ w', sharing_loop st (sharing_fuel st) (pf_id fn) [pf_body fn] (mkWalk (sw_owners w) (sw_found w) ∅) = Ok w' ∧ analysed (done ++ [fn]) w'.
Proof.
  intros [A1 A2 A3] Hnew Hdom. set (w0 := mkWalk (sw_owners w) (sw_found w) ∅).
  assert (∀ a, sw_owners w0 !! a ≠ Some (pf_id fn)) as Hn0 by (intros a (f & Hf & Eid & _)%A1; by apply (Hnew f)).
  destruct (sharing_loop_ok (pf_id fn) (pf_body fn) w0 Hn0 Hdom (sharing_fuel st) [pf_body fn] w0) as (w' & E & Hw').
  { by apply sharing_start. } { apply start_cost. }
  exists w'. split; [exact E|]. pose proof (λ a, walking_end _ _ _ _ a Hw') as He. destruct Hw' as [_ _ _ W4 W5 W6].
  assert (∀ a, a ∈ sw_seenForeign w' ↔ reaches fn a ∧ ∃ f, f ∈ done ∧ reaches f a) as Hforeign.
  { intros a. split.
    - intros Ha. split; [apply He; by right|]. destruct (W5 a Ha) as [o (f & Hf & _ & Hr)%A1]. by exists f.
    - intros [Hr (f & Hf & Hrf)]. apply He in Hr as [Ho|]; [|done]. destruct (A2 a f Hf Hrf) as [o Eo]. assert (o ≠ pf_id fn) as Hne by (intros ->; by apply (Hn0 a)).
      apply (W4 a o Hne) in Eo. congruence. }
  split.
  - intros a o Ho. destruct (decide (o = pf_id fn)) as [->|Hne].
    + exists fn. split_and!; [set_solver|done|]. apply He. by left.
    + apply W4 in Ho; [|done]. destruct (A1 a o Ho) as (f & Hf & Eid & Hr). exists f. split_and!; [set_solver|done..].
  - intros a f [Hf| ->%list_elem_of_singleton]%elem_of_app Hr.
    + destruct (A2 a f Hf Hr) as [o Eo]. exists o. apply W4; [|done]. intros ->. by apply (Hn0 a).
    + apply He in Hr as [Ho|Hs]; [by eexists|]. destruct (W5 a Hs) as [o Eo]. exists o. apply W4; [|done]. intros ->. by apply (Hn0 a).
  - intros a. rewrite W6, Hforeign. cbn [sw_found w0]. rewrite A3. split.
    + intros [(f & g & Hf & Hg & ?)|(Hr & f & Hf & Hrf)]; [exists f, g; set_solver|]. exists f, fn. split_and!; try done; [set_solver|set_solver|by apply Hnew].
    + intros (f & g & [Hf| ->%list_elem_of_singleton]%elem_of_app & [Hg| ->%list_elem_of_singleton]%elem_of_app & Hne & Hrf & Hrg); [|right..|done].
      * left. by exists f, g.
      * split; [done|]. by exists f.
      * split; [done|]. by exists g.
Qed.

Lemma instrArraySharing_shared m :
  NoDup (pf_id <$> p_functions m) → (∀ fn a, fn ∈ p_functions m → reaches fn a → a ∈ dom (s_arrays st)) →
  ∃ sh, instrArraySharing st m = Ok sh ∧
    ∀ a, a ∈ sh_shared sh ↔ ∃ f g, f ∈ p_functions m ∧ g ∈ p_functions m ∧ pf_id f ≠ pf_id g ∧ reaches f a ∧ reaches g a.
Proof.
  intros Hnd Hdom. unfold instrArraySharing.
  set (body := λ (fn : PFunction) (w : sharing_walk), sharing_loop st (sharing_fuel st) (pf_id fn) [pf_body fn] (mkWalk (sw_owners w) (sw_found w) ∅)).
  assert (∀ fs done w, analysed done w → NoDup (pf_id <$> (done ++ fs)) → (∀ fn a, fn ∈ fs → reaches fn a → a ∈ dom (s_arrays st)) →
    ∃ w', for_each fs body w = Ok w' ∧ analysed (done ++ fs) w') as Hall.
  { clear. induction fs as [|fn fs IH]; intros done w Hw Hnd Hdom; [exists w; by rewrite app_nil_r|].
    destruct (function_ok done fn w Hw) as (w1 & E & Hw1).
    - intros f Hf Eid. rewrite fmap_app in Hnd. apply list.NoDup_app in Hnd as (_ & Hd & _). apply (Hd (pf_id f)); [by apply list_elem_of_fmap_2|]. rewrite Eid. left.
    - intros a. apply Hdom. left.
    - cbn [for_each]. replace (body fn w) with (Ok w1) by (symmetry; exact E). cbn [mbind result_bind]. destruct (IH (done ++ [fn]) w1 Hw1) as (w' & E' & Hw').
      + by rewrite <- app_assoc.
      + intros f a Hf. apply Hdom. by right.
      + exists w'. rewrite <- app_assoc in Hw'. by split. }
  destruct (Hall (p_functions m) [] (mkWalk ∅ (mkSharing ∅ ∅) ∅)) as (w & E & [_ _ Hs]); [|done|done|].
  - split; cbn; [intros a o H; by rewrite lookup_empty in H|intros a fn H; by apply not_elem_of_nil in H|].
    intros a. split; [set_solver|]. intros (f & g & H & _). by apply not_elem_of_nil in H.
  - rewrite E. cbn [mbind result_bind]. by exists (sw_found w).
Qed.
End sharing.

(** * One change of an array *)

(** Objects that are instructions without nested code. *)
Definition leaf_objects (st : instr_store) (ids : list Z) (l : list Instr) : Prop :=
  Forall2 (λ id i, s_objects st !! id = Some (NLeaf i) ∧ is_leaf i = true) ids l.

(** The array [a] of [st] is rewritten, and objects are added. *)
Record rewrites_array (lt : list ValType) (st st' : instr_store) (a : Z) : Prop := {
  ra_objects : s_objects st ⊆ s_objects st';
  ra_blockTypes : s_blockTypes st' = s_blockTypes st;
  ra_change : ∃ pre r r' post lr lr', s_arrays st !! a = Some (pre ++ r ++ post) ∧ s_arrays st' = <[a := pre ++ r' ++ post]> (s_arrays st) ∧
    leaf_objects st r lr ∧ leaf_objects st' r' lr' ∧ ∀ l, redex lt (lr ++ l) (lr' ++ l) }.

Lemma peep_refl_leaf lt l : Forall (λ i, is_leaf i = true) l → ∀ k k', peeps lt k k' → peeps lt (l ++ k) (l ++ k').
Proof. induction 1 as [|i l Hi _ IH]; intros k k' Hk; [done|]. apply peep_cons; [by constructor|by apply IH]. Qed.

Lemma peeps_app lt l l' k k' : Forall2 (peep_instr lt) l l' → peeps lt k k' → peeps lt (l ++ k) (l' ++ k').
Proof. induction 1 as [|i i' l l' Hi _ IH]; intros Hk; [done|]. apply peep_cons; [done|by apply IH]. Qed.

(** Reading an object after its arrays changed. *)
Lemma node_step lt st st' read read' n i : s_blockTypes st' = s_blockTypes st →
  (∀ b l, read b = Some l → ∃ l', read' b = Some l' ∧ peeps lt l l') → node_reads st read n i → ∃ i', node_reads st' read' n i' ∧ peep_instr lt i i'.
Proof.
  intros Hbt Hr. destruct n as [j|bt b|bt b|bt th el|bt b cs ca|bt b cs]; cbn [node_reads]; rewrite ?Hbt.
  - intros [-> Hj]. exists j. split; [done|by constructor].
  - intros (t & l & Ht & (l' & Hl' & Hp)%Hr & ->). exists (Block t l'). split; [by exists t, l'|by constructor].
  - intros (t & l & Ht & (l' & Hl' & Hp)%Hr & ->). exists (Loop t l'). split; [by exists t, l'|by constructor].
  - intros (t & l & k & Ht & (l' & Hl' & Hp)%Hr & Hk & ->). destruct el as [e|], k as [k|]; try done.
    + destruct (Hr _ _ Hk) as (k' & Hk' & Hpk). exists (If t l' (Some k')). split; [by exists t, l', (Some k')|by constructor].
    + exists (If t l' None). split; [by exists t, l', None|by constructor].
  - intros (t & l & ks & k & Ht & (l' & Hl' & Hp)%Hr & Hks & Hk & ->).
    assert (∃ ks', Forall2 (λ (c : Z * Z) (k : Z * list Instr), k.1 = c.1 ∧ read' c.2 = Some k.2) cs ks' ∧
      Forall2 (λ c c' : Z * list Instr, c.1 = c'.1 ∧ peep_list lt (peep_instr lt) c.2 c'.2) ks ks') as (ks' & Hks' & Hpks).
    { clear -Hr Hks. induction Hks as [|c [x y] cs ks [E Ey] _ (ks' & IH1 & IH2)]; [by exists []|]. destruct (Hr _ _ Ey) as (y' & Hy' & Hp).
      exists ((x, y') :: ks'). split; by constructor. }
    destruct ca as [e|], k as [k|]; try done.
    + destruct (Hr _ _ Hk) as (k' & Hk' & Hpk). exists (Try t l' ks' (Some k')). split; [by exists t, l', ks', (Some k')|by constructor].
    + exists (Try t l' ks' None). split; [by exists t, l', ks', None|by constructor].
  - intros (t & l & Ht & (l' & Hl' & Hp)%Hr & ->). exists (TryTable t l' cs). split; [by exists t, l'|by constructor].
Qed.

Lemma leaf_objects_read lt read read' st st' ids l k : leaf_objects st ids l → s_objects st ⊆ s_objects st' →
  Forall2 (λ id i, read_node read st id = Some i) ids k → k = l ∧ Forall2 (λ id i, read_node read' st' id = Some i) ids l ∧ Forall (λ i, is_leaf i = true) l ∧ peeps lt [] [].
Proof.
  intros Hl Hsub Hk. assert (k = l ∧ Forall2 (λ id i, read_node read' st' id = Some i) ids l ∧ Forall (λ i, is_leaf i = true) l) as (? & ? & ?); [|repeat split; try done; constructor].
  revert k Hk. induction Hl as [|id i ids l [Ho Hi] _ IH]; intros k Hk; inversion Hk as [|? i' ? k' Hi' Hk']; subst; [by repeat split|].
  destruct (IH _ Hk') as (-> & H1 & H2). split_and!.
  - f_equal. apply read_node_iff in Hi' as (n & Hn & Hr). rewrite Ho in Hn. injection Hn as <-. by destruct Hr.
  - constructor; [|done]. apply read_node_iff. exists (NLeaf i). split; [by eapply lookup_weaken|done].
  - by constructor.
Qed.

Lemma read_step lt st st' a : rewrites_array lt st st' a → ∀ d b l, read_body d st b = Some l → ∃ l', read_body d st' b = Some l' ∧ peeps lt l l'.
Proof.
  intros [Hsub Hbt (pre & r & r' & post & lr & lr' & Ha & Ha' & Hr & Hr' & Hredex)] d. induction d as [|d IH]; [done|].
  assert (∀ ids l, Forall2 (λ id i, read_node (read_body d st) st id = Some i) ids l →
    ∃ l', Forall2 (λ id i, read_node (read_body d st') st' id = Some i) ids l' ∧ Forall2 (peep_instr lt) l l') as Hids.
  { induction 1 as [|id i ids l Hi _ (l' & IH1 & IH2)]; [by exists []|]. apply read_node_iff in Hi as (n & Hn & Hi).
    destruct (node_step lt st st' _ (read_body d st') n i Hbt IH Hi) as (i' & Hi' & Hp). exists (i' :: l'). split; constructor; try done.
    apply read_node_iff. exists n. split; [by eapply lookup_weaken|done]. }
  intros b l (ids & Hb & Hall)%read_body_S. destruct (decide (b = a)) as [->|Hne].
  - rewrite Ha in Hb. injection Hb as <-. apply Forall2_app_inv_l in Hall as (l1 & l2 & H1 & H2 & ->). apply Forall2_app_inv_l in H2 as (l3 & l4 & H3 & H4 & ->).
    destruct (Hids _ _ H1) as (l1' & R1 & P1). destruct (Hids _ _ H4) as (l4' & R4 & P4).
    destruct (leaf_objects_read lt _ (read_body d st') _ st' _ _ _ Hr Hsub H3) as (-> & _ & Hleaf & Hnil).
    assert (Forall2 (λ id i, read_node (read_body d st') st' id = Some i) r' lr' ∧ Forall (λ i, is_leaf i = true) lr') as [R3 Hleaf'].
    { clear -Hr'. induction Hr' as [|id i ids l [Ho Hi] _ [IH1 IH2]]; [by split|]. split; constructor; try done. apply read_node_iff. by exists (NLeaf i). }
    exists (l1' ++ lr' ++ l4'). split.
    + apply read_body_S. exists (pre ++ r' ++ post). split; [rewrite Ha'; apply lookup_insert_eq|]. by repeat apply Forall2_app.
    + apply peeps_app; [done|]. eapply peep_redex; [apply Hredex|]. apply peep_refl_leaf; [done|].
      rewrite <- (app_nil_r l4), <- (app_nil_r l4'). by apply peeps_app.
  - destruct (Hids _ _ Hall) as (l' & Rl & Pl). exists l'. split.
    + apply read_body_S. exists ids. split; [by rewrite Ha', lookup_insert_ne|done].
    + rewrite <- (app_nil_r l), <- (app_nil_r l'). apply peeps_app; [done|constructor].
Qed.

(** Bodies without the array are read as before. *)
Lemma read_apart lt st st' a : rewrites_array lt st st' a → ∀ d b l, ¬ rtc (inside (elements_of st) (children_of st)) b a →
  read_body d st b = Some l → read_body d st' b = Some l.
Proof.
  intros [Hsub Hbt (pre & r & r' & post & lr & lr' & Ha & Ha' & _)] d. induction d as [|d IH]; [done|].
  intros b l Hn (ids & Hb & Hall)%read_body_S. apply read_body_S. exists ids.
  split; [rewrite Ha', lookup_insert_ne; [done|intros ->; by apply Hn]|].
  apply Forall2_same_length_lookup_2; [by eapply Forall2_length|]. intros j id i Hid Hi.
  pose proof (Forall2_lookup_lr _ _ _ _ _ _ Hall Hid Hi) as (n & Hno & Hnr)%read_node_iff. apply read_node_iff. exists n. split; [by eapply lookup_weaken|].
  assert (∀ c k, c ∈ walkChildren n → read_body d st c = Some k → read_body d st' c = Some k) as Hc.
  { intros c k Hc. apply IH. intros Hr. apply Hn. eapply rtc_l; [|exact Hr]. exists id. unfold elements_of, children_of. rewrite Hb, Hno.
    split; [by eapply list_elem_of_lookup_2|done]. }
  clear -Hbt Hc Hnr. destruct n as [j|bt b|bt b|bt th el|bt b cs ca|bt b cs]; cbn [node_reads walkChildren] in *; rewrite ?Hbt; [done|..].
  - destruct Hnr as (t & l & ? & ? & ?). exists t, l. split_and!; try done. apply Hc; [left|done].
  - destruct Hnr as (t & l & ? & ? & ?). exists t, l. split_and!; try done. apply Hc; [left|done].
  - destruct Hnr as (t & l & k & ? & ? & Hk & ?). exists t, l, k. split_and!; try done; [apply Hc; [left|done]|]. destruct el, k; try done. apply Hc; [right; left|done].
  - destruct Hnr as (t & l & ks & k & ? & ? & Hks & Hk & ?). exists t, l, ks, k. split_and!; try done; [apply Hc; [left|done]| |].
    + apply Forall2_same_length_lookup_2; [by eapply Forall2_length|]. intros j c x Hj Hx. destruct (Forall2_lookup_lr _ _ _ _ _ _ Hks Hj Hx) as [E Er].
      split; [done|]. apply Hc; [|done]. right. apply elem_of_app. left. apply list_elem_of_fmap. exists c. split; [done|by eapply list_elem_of_lookup_2].
    + destruct ca, k; try done. apply Hc; [|done]. right. apply elem_of_app. right. left.
  - destruct Hnr as (t & l & ? & ? & ?). exists t, l. split_and!; try done. apply Hc; [left|done].
Qed.

(** What is inside a body that reads does not change. *)
Lemma under_step lt st st' a : rewrites_array lt st st' a → ∀ d b l c, read_body d st b = Some l →
  inside (elements_of st') (children_of st') b c ↔ inside (elements_of st) (children_of st) b c.
Proof.
  intros [Hsub Hbt (pre & r & r' & post & lr & lr' & Ha & Ha' & Hr & Hr' & _)] d b l c Hb. destruct d as [|d]; [done|]. apply read_body_S in Hb as (ids & Hb & Hall).
  assert (∀ id, id ∈ ids → children_of st' id = children_of st id) as Hsame.
  { intros id [j Hj]%list_elem_of_lookup. destruct (Forall2_lookup_l _ _ _ _ _ Hall Hj) as (i & _ & (n & Hn & _)%read_node_iff).
    unfold children_of. by rewrite Hn, (lookup_weaken _ _ _ _ Hn Hsub). }
  assert (∀ st ids l id, leaf_objects st ids l → id ∈ ids → children_of st id = []) as Hleaf.
  { clear. intros st ids l id Hl [j Hj]%list_elem_of_lookup. destruct (Forall2_lookup_l _ _ _ _ _ Hl Hj) as (i & _ & Ho & _). unfold children_of. by rewrite Ho. }
  unfold inside. unfold elements_of at 1 2. rewrite Ha', Hb. destruct (decide (b = a)) as [->|Hne].
  - rewrite lookup_insert_eq. rewrite Ha in Hb. injection Hb as <-. cbn. setoid_rewrite elem_of_app. setoid_rewrite elem_of_app. setoid_rewrite elem_of_app in Hsame. setoid_rewrite elem_of_app in Hsame.
    split; intros (id & [Hid|[Hid|Hid]] & Hc).
    + exists id. rewrite Hsame in Hc; auto.
    + rewrite (Hleaf _ _ _ _ Hr' Hid) in Hc. by apply not_elem_of_nil in Hc.
    + exists id. rewrite Hsame in Hc; auto.
    + exists id. rewrite Hsame; auto.
    + rewrite (Hleaf _ _ _ _ Hr Hid) in Hc. by apply not_elem_of_nil in Hc.
    + exists id. rewrite Hsame; auto.
  - rewrite lookup_insert_ne, Hb by done. cbn. split; intros (id & Hid & Hc); exists id; [rewrite <- Hsame|rewrite Hsame]; done.
Qed.

(** * One pattern *)

Lemma is_plain_true op o : is_plain op o = true → o = Some (Plain op).
Proof. destruct o as [[]|]; cbn; try done. by intros ->%String.eqb_eq. Qed.

Lemma gets_true n o : gets n o = true → o = Some (LocalGet n).
Proof. destruct o as [[]|]; cbn; try done. by intros ->%Z.eqb_eq. Qed.

Lemma sets_true n o : sets n o = true → o = Some (LocalSet n).
Proof. destruct o as [[]|]; cbn; try done. by intros ->%Z.eqb_eq. Qed.

Lemma casts_true t o : casts t o = true → o = Some (RefCast t).
Proof. destruct o as [[]|]; cbn; try done. by intros ->%Z.eqb_eq. Qed.

Lemma zero_i32_true o : zero_i32 o = true → o = Some (I32Const 0).
Proof. destruct o as [[]|]; cbn; try done. by intros ->%Z.eqb_eq. Qed.

Lemma zero_f64_true o : zero_f64 o = true → ∃ b, o = Some (F64Const b) ∧ is_zero_bits b = true.
Proof. destruct o as [[]|]; cbn; try done. intros Hb. by eexists. Qed.

Lemma is_cast_true o : is_cast o = true → ∃ t, o = Some (RefCast t).
Proof. destruct o as [[]|]; cbn; try done. by eexists. Qed.

Lemma is_get_true o : is_get o = true → ∃ n, o = Some (LocalGet n).
Proof. destruct o as [[]|]; cbn; try done. by eexists. Qed.

Lemma is_global_get_true o : is_global_get o = true → ∃ n, o = Some (GlobalGet n).
Proof. destruct o as [[]|]; cbn; try done. by eexists. Qed.

Lemma is_const_true o : is_const o = true → (∃ v, o = Some (I32Const v)) ∨ ∃ v, o = Some (F64Const v).
Proof. destruct o as [[]|]; try done; [left|right]; by eexists. Qed.

Lemma steps_local_true o : steps_local o = true → ∃ op, o = Some (Plain op) ∧ op ∈ ["i32.add"; "i32.sub"; "f64.add"; "f64.sub"]%string.
Proof.
  unfold steps_local. rewrite !orb_true_iff. intros [[[H|H]|H]|H]; apply is_plain_true in H as ->; eexists; split; try done; repeat (left || right).
Qed.

(** The objects of the instructions from [i] on. *)
Lemma window st a i js : (∀ k j, js !! k = Some j → leaf_at st a (i + k) = Some j) → Forall (λ j, is_leaf j = true) js →
  ∃ r post, drop i (elements_of st a) = r ++ post ∧ leaf_objects st r js.
Proof.
  revert i. induction js as [|j js IH]; intros i Hat Hleaf; [exists [], (drop i (elements_of st a)); split; [done|constructor]|].
  apply Forall_cons in Hleaf as [Hj Hleaf]. specialize (Hat O j eq_refl) as H0. rewrite Nat.add_0_r in H0. unfold leaf_at in H0.
  destruct (elements_of st a !! i) as [id|] eqn:Ei; [|done]. csimpl in H0. destruct (s_objects st !! id) as [[]|] eqn:Eo; try done. injection H0 as ->.
  destruct (IH (S i)) as (r & post & Ed & Hr); [|done|].
  - intros k j' Hk. rewrite <- (Hat (S k) j' Hk). f_equal. lia.
  - exists (id :: r), post. split; [by rewrite (drop_S _ _ _ Ei), Ed|by constructor].
Qed.

Lemma splice_app {A} (pre l : list A) k n new : splice (pre ++ l) (length pre + k) n new = pre ++ splice l k n new.
Proof.
  unfold splice. rewrite take_app, <- app_assoc. rewrite take_ge by lia. f_equal. f_equal; [f_equal; lia|]. f_equal.
  rewrite drop_app, drop_ge by lia. cbn. f_equal. lia.
Qed.

Lemma elements_array st a : elements_of st a ≠ [] → s_arrays st !! a = Some (elements_of st a).
Proof. unfold elements_of. by destruct (s_arrays st !! a). Qed.

Lemma elements_set_array a l st : elements_of (set_array a l st) a = l.
Proof. unfold elements_of, set_array. cbn. by rewrite lookup_insert_eq. Qed.

Lemma leaf_objects_grow st st' ids l : s_objects st ⊆ s_objects st' → leaf_objects st ids l → leaf_objects st' ids l.
Proof. intros Hs Hl. eapply Forall2_impl; [exact Hl|]. intros id i [Ho Hi]. split; [by eapply lookup_weaken|done]. Qed.

Lemma new_object_grows i st : let (id, st') := new_object i st in
  s_objects st ⊆ s_objects st' ∧ s_blockTypes st' = s_blockTypes st ∧ s_arrays st' = s_arrays st ∧ (s_objects st' !! id = Some (NLeaf i)).
Proof.
  unfold new_object. cbn. split_and!; [|done..|apply lookup_insert_eq]. apply insert_subseteq, not_elem_of_dom, is_fresh.
Qed.

(** A window of an array is replaced. *)
Lemma rewrites_window lt st st1 a pre r r' post lr lr' :
  s_objects st ⊆ s_objects st1 → s_blockTypes st1 = s_blockTypes st → s_arrays st1 = s_arrays st →
  s_arrays st !! a = Some (pre ++ r ++ post) → leaf_objects st r lr → leaf_objects st1 r' lr' → (∀ l, redex lt (lr ++ l) (lr' ++ l)) →
  rewrites_array lt st (set_array a (pre ++ r' ++ post) st1) a.
Proof. intros H1 H2 H3 H4 H5 H6 H7. split; [done|done|]. exists pre, r, r', post, lr, lr'. split_and!; [done|cbn; by rewrite H3|done..]. Qed.

Section patterns.
Context (sharing : InstrArraySharing) (lt : list ValType).

(** What a pattern does: a change that any function may see, or one of an array that only
    the function at hand reaches. *)
Definition changes (body : Z) (st st' : instr_store) : Prop :=
  (∀ lt', rewrites_array lt' st st' body) ∨
  ∃ a, inside (elements_of st) (children_of st) body a ∧ (a ∉ sh_shared sharing) ∧ rewrites_array lt st st' a.

(** The work that is left for the scan. *)
Definition left_to_scan (body : Z) (i : nat) (st : instr_store) : nat := length (elements_of st body) - i.

Definition pattern_ok (body : Z) (i : nat) (s : peephole) (r : peephole * nat) : Prop :=
  changes body (pp_store s) (pp_store r.1) ∧ pp_visited r.1 = pp_visited s ∧ (left_to_scan body r.2 (pp_store r.1) < left_to_scan body i (pp_store s))%nat.

(** Removing and replacing the instructions from [i] on. *)
Lemma edit_ok body i s l' removed js r r' post lr' j :
  (i < length (elements_of (pp_store s) body))%nat → drop i (elements_of (pp_store s) body) = r ++ post → leaf_objects (pp_store s) r js →
  leaf_objects (pp_store s) r' lr' → (∀ lt' l, redex lt' (js ++ l) (lr' ++ l)) → l' = take i (elements_of (pp_store s) body) ++ r' ++ post →
  (length r' + i < length r + j)%nat → pattern_ok body i s (edit body l' removed s, j).
Proof.
  intros Hi Hd Hr Hr' Hx -> Hlen. pose proof (take_drop i (elements_of (pp_store s) body)) as Htd. rewrite Hd in Htd. split; [|split]; cbn.
  - left. intros lt'. apply (rewrites_window lt' _ _ _ _ r _ _ js lr'); try done. rewrite Htd. apply elements_array. by intros E; rewrite E in Hi; cbn in Hi; lia.
  - done.
  - unfold left_to_scan. rewrite elements_set_array. apply (f_equal length) in Hd. rewrite length_drop, length_app in Hd. rewrite !length_app, length_take. lia.
Qed.

Lemma edit_new_ok body i n s new removed js r post j :
  (i < length (elements_of (pp_store s) body))%nat → drop i (elements_of (pp_store s) body) = r ++ post → leaf_objects (pp_store s) r js →
  length r = n → is_leaf new = true → (∀ lt' l, redex lt' (js ++ l) (new :: l)) → (1 + i < length r + j)%nat →
  pattern_ok body i s (edit_new body i n new removed s, j).
Proof.
  intros Hi Hd Hr Hn Hleaf Hx Hlen. pose proof (take_drop i (elements_of (pp_store s) body)) as Htd. rewrite Hd in Htd.
  unfold edit_new. pose proof (new_object_grows new (pp_store s)) as Hnew. destruct (new_object new (pp_store s)) as [id st1]. destruct Hnew as (G1 & G2 & G3 & G4).
  assert (splice (elements_of (pp_store s) body) i n [id] = take i (elements_of (pp_store s) body) ++ [id] ++ post) as Es.
  { unfold splice. do 2 f_equal. rewrite <- drop_drop, Hd. by rewrite drop_app_length'. }
  rewrite Es. split; [|split]; cbn.
  - left. intros lt'. apply (rewrites_window lt' _ _ _ _ r [id] _ js [new]); try done.
    { rewrite Htd; apply elements_array; by intros E; rewrite E in Hi; cbn in Hi; lia. }
    constructor; [by split|constructor].
  - done.
  - unfold left_to_scan. rewrite elements_set_array. apply (f_equal length) in Hd. rewrite length_drop, length_app in Hd. rewrite !length_app, length_take. cbn. lia.
Qed.

(** The instructions [js] at [i]. *)
Definition found (s : peephole) (body : Z) (i : nat) (js : list Instr) : Prop :=
  (∀ k j, js !! k = Some j → leaf_at (pp_store s) body (i + k) = Some j) ∧ Forall (λ j, is_leaf j = true) js.

Lemma splice_middle {A} (pre r post : list A) a n : (a + n ≤ length r)%nat → splice (pre ++ r ++ post) (length pre + a) n [] = pre ++ splice r a n [] ++ post.
Proof.
  intros Hn. rewrite splice_app. f_equal. unfold splice. rewrite take_app_le by lia. rewrite drop_app_le by lia. by rewrite <- !app_assoc.
Qed.

Lemma leaf_objects_splice st r js a n : leaf_objects st r js → leaf_objects st (splice r a n []) (splice js a n []).
Proof. intros Hl. unfold splice. apply Forall2_app; [by apply Forall2_take|]. apply Forall2_app; [constructor|by apply Forall2_drop]. Qed.

Lemma length_splice {A} (l : list A) a n : (a + n ≤ length l)%nat → (length (splice l a n []) + n = length l)%nat.
Proof. intros Hn. unfold splice. rewrite !length_app, length_take, length_drop. cbn. lia. Qed.

Lemma splice_ok body i a n s removed js : found s body i js → (i < length (elements_of (pp_store s) body))%nat → (a + n ≤ length js)%nat → (0 < n)%nat →
  (∀ lt' l, redex lt' (js ++ l) (splice js a n [] ++ l)) → pattern_ok body i s (edit body (splice (elements_of (pp_store s) body) (i + a) n []) removed s, i).
Proof.
  intros [Hat Hleaf] Hi Han Hn Hx. destruct (window _ _ _ _ Hat Hleaf) as (r & post & Hd & Hr). pose proof (Forall2_length _ _ _ Hr) as Hlen.
  apply (edit_ok body i s _ removed js r (splice r a n []) post (splice js a n [])); try done; [by apply leaf_objects_splice| |].
  - rewrite <- (take_drop i (elements_of (pp_store s) body)) at 1. rewrite Hd. rewrite <- (length_take_le (elements_of (pp_store s) body) i) at 2 by lia. apply splice_middle. lia.
  - pose proof (length_splice r a n). lia.
Qed.

Lemma replace_ok body i s new removed js j : found s body i js → (i < length (elements_of (pp_store s) body))%nat → is_leaf new = true →
  (∀ lt' l, redex lt' (js ++ l) (new :: l)) → (1 + i < length js + j)%nat → pattern_ok body i s (edit_new body i (length js) new removed s, j).
Proof.
  intros [Hat Hleaf] Hi Hnew Hx Hj. destruct (window _ _ _ _ Hat Hleaf) as (r & post & Hd & Hr). pose proof (Forall2_length _ _ _ Hr) as Hlen.
  apply (edit_new_ok body i _ s new removed js r post); try done. lia.
Qed.

Lemma redundant_cast_ok body i s thenBody : redundant_cast sharing lt (pp_store s) body i = Some thenBody → (S i < length (elements_of (pp_store s) body))%nat →
  let (id, st) := new_object (Plain "ref.as_non_null") (pp_store s) in
  pattern_ok body i s (mkPeep (set_array thenBody (<[1%nat := id]> (elements_of st thenBody)) st) (pp_visited s) (pp_removed s + 1), S i).
Proof.
  unfold redundant_cast. intros Hr Hi. destruct (leaf_at (pp_store s) body i) as [[]|]; try done. destruct (leaf_at (pp_store s) body (i + 1)) as [[]|]; try done.
  destruct (elements_of (pp_store s) body !! (i + 2)%nat) as [id2|] eqn:E2; [|done]. csimpl in Hr.
  destruct (s_objects (pp_store s) !! id2) as [[| | |bt th el| |]|] eqn:Eo; try done.
  destruct (_ && _) eqn:Ec in Hr; [|done]. injection Hr as ->. rewrite !andb_true_iff, !negb_true_iff in Ec.
  destruct Ec as (((((C1 & C2) & C3) & _) & C5) & C6). apply bool_decide_eq_true in C2. apply bool_decide_eq_false in C3.
  apply gets_true in C5. apply casts_true in C6.
  pose proof (new_object_grows (Plain "ref.as_non_null") (pp_store s)) as Hnew. destruct (new_object _ (pp_store s)) as [id st1].
  destruct Hnew as (G1 & G2 & G3 & G4). assert (elements_of st1 thenBody = elements_of (pp_store s) thenBody) as -> by (unfold elements_of; by rewrite G3).
  split; [|split]; cbn [fst snd pp_store pp_visited]; [|done|].
  - right. exists thenBody. split; [|split; [done|]].
    + exists id2. split; [by eapply list_elem_of_lookup_2|]. unfold children_of. rewrite Eo. left.
    + destruct (window (pp_store s) thenBody 0 [LocalGet index; RefCast typeIdx]) as (r & post & Hd & Hl);
        [intros [|[|k]] j Hk; cbn in Hk; [by injection Hk as <-|by injection Hk as <-|done]|by repeat constructor|].
      unfold leaf_objects in Hl. apply Forall2_cons_inv_r in Hl as (x & r1 & Hx & Hl & ->). apply Forall2_cons_inv_r in Hl as (y & r2 & Hy & Hl & ->).
      apply Forall2_nil_inv_r in Hl as ->. rewrite drop_0 in Hd. rewrite Hd.
      apply (rewrites_window lt (pp_store s) st1 thenBody [] [x; y] [x; id] post [LocalGet index; RefCast typeIdx] [LocalGet index; Plain "ref.as_non_null"]); try done.
      * change (s_arrays (pp_store s) !! thenBody = Some ([x; y] ++ post)). rewrite <- Hd. apply elements_array. by rewrite Hd.
      * constructor; [done|constructor; [done|constructor]].
      * constructor; [|constructor; [by split|constructor]]. destruct Hx as [Hx ?]. split; [by eapply lookup_weaken|done].
      * intros l. by apply redex_cast.
  - unfold left_to_scan, elements_of at 1. cbn. rewrite G3. destruct (decide (thenBody = body)) as [->|Hne].
    + rewrite lookup_insert_eq. cbn. rewrite length_insert. lia.
    + rewrite lookup_insert_ne by done. fold (elements_of (pp_store s) body). lia.
Qed.

Ltac finds := split; [intros [|[|[|[|[|[|?]]]]]] ? Hk; cbn in Hk; (done || (injection Hk as <-; rewrite ?Nat.add_0_r; done))|by repeat (constructor; [done|])].

Lemma postfix_ok body i s n c op : match c with I32Const _ | F64Const _ => True | _ => False end → op ∈ ["i32.add"; "i32.sub"; "f64.add"; "f64.sub"]%string →
  found s body i [LocalGet n; LocalGet n; c; Plain op; LocalSet n; Plain "drop"] → (i < length (elements_of (pp_store s) body))%nat →
  pattern_ok body i s (edit body (splice (splice (elements_of (pp_store s) body) i 1 []) (i + 4) 1 []) 2 s, i).
Proof.
  intros Hc Hop [Hat Hleaf] Hi. destruct (window _ _ _ _ Hat Hleaf) as (r & post & Hd & Hr). pose proof (Forall2_length _ _ _ Hr) as Hlen. cbn in Hlen.
  pose proof (length_splice r 0 1 ltac:(lia)) as L1. pose proof (length_splice (splice r 0 1 []) 4 1 ltac:(lia)) as L2.
  apply (edit_ok body i s _ 2 _ r (splice (splice r 0 1 []) 4 1 []) post _ i Hi Hd Hr (leaf_objects_splice _ _ _ 4 1 (leaf_objects_splice _ _ _ 0 1 Hr))).
  - intros lt' l. by apply redex_postfix.
  - pose proof (take_drop i (elements_of (pp_store s) body)) as Htd. rewrite Hd in Htd. rewrite <- Htd at 1.
    pose proof (length_take_le (elements_of (pp_store s) body) i ltac:(lia)) as Hlt.
    rewrite <- (Nat.add_0_r i) at 2. rewrite <- Hlt at 2 3. rewrite !splice_middle by lia. done.
  - lia.
Qed.

Lemma peep_at_ok body i s r : peep_at sharing lt body i s = Some r → (S i < length (elements_of (pp_store s) body))%nat → pattern_ok body i s r.
Proof.
  unfold peep_at. intros Hp Hi. assert (i < length (elements_of (pp_store s) body))%nat as Hi' by lia. revert Hp. rewrite (Nat.add_0_r i).
  destruct (is_cast _ && _) eqn:C1; [apply andb_true_iff in C1 as [(t & E0)%is_cast_true E1%is_plain_true]; intros [= <-]|clear C1].
  { apply (splice_ok body i 1 1 s 1 [RefCast t; Plain "ref.as_non_null"]); cbn; try (done || lia); [finds|]. intros. apply redex_non_null. }
  destruct (is_get _ && _) eqn:C1; [apply andb_true_iff in C1 as [(n & E0)%is_get_true E1%is_plain_true]; intros [= <-]|clear C1].
  { rewrite <- (Nat.add_0_r i) at 2. apply (splice_ok body i 0 2 s 2 [LocalGet n; Plain "drop"]); cbn; try (done || lia); [finds|]. intros. apply redex_local_drop. }
  destruct (is_global_get _ && _) eqn:C1; [apply andb_true_iff in C1 as [(n & E0)%is_global_get_true E1%is_plain_true]; intros [= <-]|clear C1].
  { rewrite <- (Nat.add_0_r i) at 2. apply (splice_ok body i 0 2 s 2 [GlobalGet n; Plain "drop"]); cbn; try (done || lia); [finds|]. intros. apply redex_global_drop. }
  destruct (leaf_at (pp_store s) body i) as [[]|] eqn:E0; try done.
  - destruct ((i + 5 <? _)%nat && _ && _ && _ && _ && _) eqn:C4.
    + rewrite !andb_true_iff in C4. destruct C4 as (((((_ & E1%gets_true) & Hc%is_const_true) & (op & E3 & Hop)%steps_local_true) & E4%sets_true) & E5%is_plain_true).
      intros [= <-]. destruct Hc as [[v E2]|[v E2]]; [apply (postfix_ok _ _ _ index (I32Const v) op)|apply (postfix_ok _ _ _ index (F64Const v) op)]; done || finds.
    + destruct (redundant_cast _ _ _ _ _) as [thenBody|] eqn:Er; [|done]. pose proof (redundant_cast_ok body i s thenBody Er Hi) as Hok.
      revert Hok. destruct (new_object _ _) as [id st]. intros Hok [= <-]. exact Hok.
  - destruct (gets index _) eqn:C1; [|done]. apply gets_true in C1. intros [= <-]. apply (replace_ok body i s _ _ [LocalSet index; LocalGet index]); cbn; try (done || lia); [finds|].
    intros. apply redex_tee.
  - destruct (is_plain "drop" _) eqn:C1; [|done]. apply is_plain_true in C1. intros [= <-]. apply (replace_ok body i s _ _ [LocalTee index; Plain "drop"]); cbn; try (done || lia); [finds|].
    intros. apply redex_tee_drop.
  - destruct (zero_i32 _ && _) eqn:C1; [|done]. apply andb_true_iff in C1 as [[= ->]%zero_i32_true E1%is_plain_true]. intros [= <-].
    rewrite <- (Nat.add_0_r i) at 2. apply (splice_ok body i 0 2 s 2 [I32Const 0; Plain "i32.or"]); cbn; try (done || lia); [finds|]. intros. apply redex_or_zero.
  - destruct (_ && _ && _ && _) eqn:C1; [|done]. rewrite !andb_true_iff in C1. destruct C1 as (((_ & (a & [= <-] & Ha)%zero_f64_true) & (b & E1 & Hb)%zero_f64_true) & E2%is_plain_true).
    intros [= <-]. apply (replace_ok body i s _ _ [F64Const bits; F64Const b; Plain "f64.div"]); cbn; try (done || lia); [finds|]. intros. by apply redex_nan.
Qed.
End patterns.
