(* ===== verification/PeepholeMain.v ===== *)
(** The peephole pass over a module: it ends, and what it leaves does the same. *)

From S2P Require Import Prelude WasmModel InstrGraph InstrWalk FuncSweep WasmSem DeadElim DeadElimModule PeepRules Peephole PeepholeOk.

(** * Reading before and after *)

Lemma peep_instr_refl lt i : peep_instr lt i i.
Proof.
  assert (∀ l, Forall (λ i, peep_instr lt i i) l → peep_list lt (peep_instr lt) l l) as Hl.
  { induction 1 as [|j l Hj _ IH]; [constructor|]. by apply peep_cons. }
  apply (instr_tree_ind (λ i, peep_instr lt i i)); clear i.
  - intros i. destruct i; try done; by apply peep_leaf.
  - intros t b Hb. apply peep_block. auto.
  - intros t b Hb. apply peep_loop. auto.
  - intros t th [el|] Hth Hel; [apply peep_if_else|apply peep_if]; auto.
  - intros t b cs ca Hb Hcs Hca.
    assert (Forall2 (λ c c' : Z * list Instr, c.1 = c'.1 ∧ peep_list lt (peep_instr lt) c.2 c'.2) cs cs) as Hcs'.
    { induction Hcs as [|c cs Hc _ IH]; constructor; auto. }
    destruct ca as [k|]; [apply peep_try_all|apply peep_try]; auto.
  - intros t b cs Hb. apply peep_try_table. auto.
Qed.

Lemma peeps_refl lt l : peeps lt l l.
Proof. induction l as [|i l IH]; [constructor|]. apply peep_cons; [apply peep_instr_refl|done]. Qed.

(** Bodies that read still read. *)
Definition still_reads (st st' : instr_store) : Prop := ∀ d b l, read_body d st b = Some l → ∃ l', read_body d st' b = Some l'.

#[local] Instance still_reads_preorder : PreOrder still_reads.
Proof.
  split; [intros st d b l H; by exists l|]. intros st1 st2 st3 H1 H2 d b l Hl. destruct (H1 _ _ _ Hl) as [l' Hl']. by eapply H2.
Qed.

Lemma rewrites_still_reads lt st st' a : rewrites_array lt st st' a → still_reads st st'.
Proof. intros Hr d b l Hl. destruct (read_step _ _ _ _ Hr _ _ _ Hl) as (l' & ? & _). by exists l'. Qed.

Lemma reach_step lt st st' a : rewrites_array lt st st' a → ∀ b c, rtc (inside (elements_of st) (children_of st)) b c →
  ∀ d l, read_body d st b = Some l → rtc (inside (elements_of st') (children_of st')) b c.
Proof.
  intros Hr b c. induction 1 as [b|b x c Hbx _ IH]; intros d l Hl; [done|]. destruct d as [|d]; [done|].
  destruct (read_under st _ _ _ _ Hl Hbx) as [k Hk]. eapply rtc_l; [by apply (under_step _ _ _ _ Hr _ _ _ _ Hl)|by eapply IH].
Qed.

Lemma reach_step_back lt st st' a : rewrites_array lt st st' a → ∀ b c, rtc (inside (elements_of st') (children_of st')) b c →
  ∀ d l, read_body d st b = Some l → rtc (inside (elements_of st) (children_of st)) b c.
Proof.
  intros Hr b c. induction 1 as [b|b x c Hbx _ IH]; intros d l Hl; [done|]. destruct d as [|d]; [done|].
  apply (under_step _ _ _ _ Hr _ _ _ _ Hl) in Hbx. destruct (read_under st _ _ _ _ Hl Hbx) as [k Hk]. eapply rtc_l; [done|by eapply IH].
Qed.

Lemma reach_step_iff lt st st' a b c d l : rewrites_array lt st st' a → read_body d st b = Some l →
  rtc (inside (elements_of st') (children_of st')) b c ↔ rtc (inside (elements_of st) (children_of st)) b c.
Proof. intros Hr Hl. split; [intros H; by eapply reach_step_back|intros H; by eapply reach_step]. Qed.

(** * The pass *)

Section pass.
Context (depth : nat) (st0 : instr_store) (m : PModule) (md : WasmModule) (sharing : InstrArraySharing).
Hypothesis Hread : read_module depth st0 m = Some md.
Hypothesis Hnodup : NoDup (pf_id <$> p_functions m).
Hypothesis Hshared : ∀ a, a ∈ sh_shared sharing ↔
  ∃ f g, f ∈ p_functions m ∧ g ∈ p_functions m ∧ pf_id f ≠ pf_id g ∧ reaches st0 f a ∧ reaches st0 g a.
Implicit Types (f g : PFunction) (st : instr_store).

Definition types_of f : list ValType := getFuncParamTypes (p_types m) (pf_typeIdx f) ++ pf_locals f.

Lemma types_of_local f st fn : read_function depth st f = Some fn → types_of f = local_types (m_types md) fn.
Proof.
  intros (l & _ & ->)%read_function_Some. apply read_module_parts in Hread as (? & ? & ? & _ & _ & _ & ->). unfold types_of, getFuncParamTypes, local_types, signature.
  cbn. destruct (js_at (p_types m) (pf_typeIdx f)) as [[| | | |? ? []]|]; done.
Qed.

(** Bodies that no function reaches into. *)
Definition apart (b : Z) : Prop := ∀ f a, f ∈ p_functions m → reaches st0 f a → ¬ rtc (inside (elements_of st0) (children_of st0)) b a.

Definition same_reach st (b : Z) : Prop := ∀ a, rtc (inside (elements_of st) (children_of st)) b a ↔ rtc (inside (elements_of st0) (children_of st0)) b a.

(** The functions of the store are some steps away from the module. *)
Record reads_well st : Prop := {
  rw_functions : ∃ fs, Forall2 (λ f fn, read_function depth st f = Some fn) (p_functions m) fs ∧ rtc peep_module md (with_bodies md fs);
  rw_reach f : f ∈ p_functions m → same_reach st (pf_body f);
  rw_apart d b l : apart b → read_body d st0 b = Some l → read_body d st b = Some l ∧ same_reach st b }.

Lemma function_reads st f : reads_well st → f ∈ p_functions m → ∃ l, read_body depth st (pf_body f) = Some l.
Proof.
  intros [(fs & Hfs & _) _ _] [j Hj]%list_elem_of_lookup. destruct (Forall2_lookup_l _ _ _ _ _ Hfs Hj) as (fn & _ & (l & Hl & _)%read_function_Some). by exists l.
Qed.

Lemma start_well : reads_well st0.
Proof.
  split; [|done|done]. apply read_module_parts in Hread as (fs & es & gs & Hfs & _ & _ & ->). by exists fs.
Qed.

(** One change of an array that a function reaches keeps that. *)
Lemma change_well st st' a lt0 : reads_well st → rewrites_array lt0 st st' a → (∃ f, f ∈ p_functions m ∧ reaches st0 f a) →
  (∀ g, g ∈ p_functions m → rewrites_array (types_of g) st st' a ∨ ¬ reaches st0 g a) → reads_well st'.
Proof.
  intros Hw Hr0 (f & Hf & Hfa) Hr. pose proof Hw as [(fs & Hfs & Hsteps) Hreach Hapart]. split.
  - assert (∃ fs', Forall2 (λ f fn, read_function depth st' f = Some fn) (p_functions m) fs' ∧ Forall2 (peep_function (m_types md)) fs fs') as (fs' & Hfs' & Hpeep).
    { revert Hreach Hr. clear -Hfs Hr0 Hread. induction Hfs as [|g gn gs fs Hg _ IH]; intros Hreach Hr; [by exists []|].
      destruct IH as (fs' & I1 & I2); [intros g' Hg'; apply Hreach; by right|intros g' Hg'; apply Hr; by right|].
      pose proof Hg as (l & Hl & ->)%read_function_Some.
      assert (∃ l', read_body depth st' (pf_body g) = Some l' ∧ peeps (types_of g) l l') as (l' & Hl' & Hp).
      { destruct (Hr g ltac:(left)) as [Hga|Hga]; [by apply (read_step _ _ _ _ Hga _ _ _ Hl)|].
        exists l. split; [|apply peeps_refl]. eapply read_apart; [exact Hr0| |exact Hl]. intros Hc. by apply Hga, (Hreach g ltac:(left)). }
      exists (mkWasmFunction (pf_name g) (pf_typeIdx g) (pf_locals g) l' :: fs'). split; constructor; try done; [by apply read_function_Some; exists l'|].
      repeat split. by rewrite <- (types_of_local g st). }
    exists fs'. split; [done|]. eapply rtc_r; [exact Hsteps|]. by exists fs'.
  - intros g Hg c. destruct (function_reads st g Hw Hg) as [l Hl]. rewrite (reach_step_iff _ _ _ _ _ _ _ _ Hr0 Hl). by apply Hreach.
  - intros d b l Hb Hl. destruct (Hapart _ _ _ Hb Hl) as [Hl' Hsame]. split.
    + eapply read_apart; [exact Hr0| |exact Hl']. intros Hc. apply Hsame in Hc. by eapply Hb.
    + intros c. rewrite (reach_step_iff _ _ _ _ _ _ _ _ Hr0 Hl'). apply Hsame.
Qed.

Lemma same_function f g : f ∈ p_functions m → g ∈ p_functions m → pf_id f = pf_id g → f = g.
Proof.
  intros [i Hi]%list_elem_of_lookup [j Hj]%list_elem_of_lookup E.
  assert (i = j) as <-; [|congruence]. eapply (NoDup_lookup _ _ _ (pf_id f) Hnodup); rewrite list_lookup_fmap; [by rewrite Hi|by rewrite Hj, E].
Qed.

Section function.
Context (f : PFunction).
Hypothesis Hf : f ∈ p_functions m.
Abbreviation reached := (reaches st0 f).

Lemma changes_well body st st' : reads_well st → reached body → changes sharing (types_of f) body st st' → reads_well st' ∧ still_reads st st'.
Proof.
  intros Hw Hbody [Hfree|(a & Ha & Hns & Hr)].
  - split; [|by eapply (rewrites_still_reads [])]. apply (change_well st st' body []); [done|done|by exists f|]. intros g _. by left.
  - assert (reached a) as Hra.
    { apply (rw_reach _ Hw f Hf). eapply rtc_r; [|exact Ha]. by apply (rw_reach _ Hw f Hf). }
    split; [|by eapply rewrites_still_reads]. apply (change_well st st' a (types_of f)); [done|done|by exists f|].
    intros g Hg. destruct (decide (pf_id f = pf_id g)) as [E|Hne]; [left; by rewrite <- (same_function f g Hf Hg E)|].
    right. intros Hga. apply Hns, Hshared. by exists f, g.
Qed.

(** The count says whether something changed. *)
Definition counts (s s' : peephole) : Prop := pp_removed s ≤ pp_removed s' ∧ (pp_removed s' = pp_removed s → pp_store s' = pp_store s).

Lemma counts_trans s1 s2 s3 : counts s1 s2 → counts s2 s3 → counts s1 s3.
Proof. intros [A1 A2] [B1 B2]. split; [lia|]. intros E. rewrite B2, A2 by lia. done. Qed.

Lemma peep_at_counts lt body i s r : peep_at sharing lt body i s = Some r → pp_removed s < pp_removed r.1.
Proof.
  unfold peep_at, edit_new. repeat case_match; intros [= <-]; unfold edit in *; simplify_eq; cbn; lia.
Qed.

(** What a part of the pass does. *)
Definition goes_well (s : peephole) (r : result peephole) : Prop :=
  ∃ s', r = Ok s' ∧ reads_well (pp_store s') ∧ still_reads (pp_store s) (pp_store s') ∧ counts s s'.

Lemma goes_refl s : reads_well (pp_store s) → goes_well s (Ok s).
Proof. intros Hw. exists s. split_and!; done || by split. Qed.

Lemma goes_on s s1 r : still_reads (pp_store s) (pp_store s1) → counts s s1 → goes_well s1 r → goes_well s r.
Proof. intros Hs Hc (s' & E & Hw & Hs' & Hc'). exists s'. split_and!; [done|done|by etrans|by eapply counts_trans]. Qed.

Lemma body_scan_ok fuel body i s : reads_well (pp_store s) → reached body → (left_to_scan body i (pp_store s) ≤ fuel)%nat →
  goes_well s (scan_patterns sharing (types_of f) fuel body i s).
Proof.
  revert i s. induction fuel as [|fuel IH]; intros i s Hw Hb Hfuel; cbn [scan_patterns]; destruct (Nat.ltb_spec (S i) (length (elements_of (pp_store s) body))) as [Hi|];
    try by apply goes_refl.
  { unfold left_to_scan in Hfuel. lia. }
  destruct (peep_at sharing (types_of f) body i s) as [[s1 i1]|] eqn:Ep.
  - destruct (peep_at_ok sharing (types_of f) body i s _ Ep Hi) as (Hc & _ & Hlt). cbn [fst snd] in Hc, Hlt.
    destruct (changes_well _ _ _ Hw Hb Hc) as [Hw1 Hs1]. apply peep_at_counts in Ep. cbn in Ep. eapply goes_on; [exact Hs1|split; lia|]. apply IH; [done|done|lia].
  - apply IH; [done|done|]. unfold left_to_scan in *. lia.
Qed.

(** An array of the function that reads, at most [e] levels deep. *)
Definition ready (e : nat) (s : peephole) (c : Z) : Prop := reached c ∧ ∃ l, read_body e (pp_store s) c = Some l.

Lemma ready_later e s s' c : still_reads (pp_store s) (pp_store s') → ready e s c → ready e s' c.
Proof. intros Hs [Hr [l Hl]]. split; [done|]. by apply (Hs _ _ _ Hl). Qed.

Lemma each_goes e (optimize : Z → peephole → result peephole) cs s :
  (∀ c s, reads_well (pp_store s) → ready e s c → goes_well s (optimize c s)) → reads_well (pp_store s) → (∀ c, c ∈ cs → ready e s c) →
  goes_well s (for_each cs optimize s).
Proof.
  intros Ho. revert s. induction cs as [|c cs IH]; intros s Hw Hc; cbn [for_each]; [by apply goes_refl|].
  destruct (Ho c s Hw (Hc c ltac:(left))) as (s1 & -> & Hw1 & Hs1 & Hc1). cbn [mbind result_bind]. eapply goes_on; [done..|].
  apply IH; [done|]. intros c' Hc'. apply (ready_later e s); [done|apply Hc; by right].
Qed.

Lemma descend_ok e (optimize : Z → peephole → result peephole) body n i s :
  (∀ c s, reads_well (pp_store s) → ready e s c → goes_well s (optimize c s)) → reads_well (pp_store s) → ready (S e) s body →
  goes_well s (descend optimize body n i s).
Proof.
  intros Ho. revert i s. induction n as [|n IH]; intros i s Hw Hb; cbn [descend]; [by apply goes_refl|].
  destruct (elements_of (pp_store s) body !! i) as [id|] eqn:Ei; [|by apply goes_refl].
  destruct (each_goes e optimize (children_of (pp_store s) id) s Ho Hw) as (s1 & -> & Hw1 & Hs1 & Hc1).
  { intros c Hc. destruct Hb as [Hr [l Hl]]. assert (inside (elements_of (pp_store s)) (children_of (pp_store s)) body c) as Hbc.
    { exists id. split; [by eapply list_elem_of_lookup_2|done]. }
    split; [|by eapply read_under]. apply (rw_reach _ Hw f Hf). eapply rtc_r; [|exact Hbc]. by apply (rw_reach _ Hw f Hf). }
  cbn [mbind result_bind]. eapply goes_on; [done..|]. apply IH; [done|by apply (ready_later _ s)].
Qed.

Lemma optimize_ok e body s : reads_well (pp_store s) → ready e s body → goes_well s (optimizeBody sharing (types_of f) e body s).
Proof.
  revert body s. induction e as [|e IH]; intros body s Hw Hb; [by destruct Hb as [_ [? ?]]|]. cbn [optimizeBody]. case_bool_decide; [by apply goes_refl|].
  destruct (descend_ok e (optimizeBody sharing (types_of f) e) body (length (elements_of (pp_store s) body)) 0 (visit sharing body s) IH Hw Hb) as (s1 & -> & Hw1 & Hs1 & Hc1).
  cbn [mbind result_bind]. eapply (goes_on s s1); [done..|]. apply body_scan_ok; [done|by destruct Hb|unfold left_to_scan; lia].
Qed.
End function.

Lemma functions_ok fs s : (∀ f, f ∈ fs → f ∈ p_functions m) → reads_well (pp_store s) →
  goes_well s (for_each fs (λ fn, optimizeBody sharing (types_of fn) depth (pf_body fn)) s).
Proof.
  revert s. induction fs as [|f fs IH]; intros s Hfs Hw; cbn [for_each]; [by apply goes_refl|].
  destruct (optimize_ok f (Hfs f ltac:(left)) depth (pf_body f) s Hw) as (s1 & -> & Hw1 & Hs1 & Hc1).
  { split; [by apply rtc_refl|]. apply function_reads; [done|]. apply Hfs. left. }
  cbn [mbind result_bind]. eapply goes_on; [done..|]. apply IH; [|done]. intros g Hg. apply Hfs. by right.
Qed.

Lemma pass_ok : ∃ n st', peepholeOptimize depth sharing m st0 = Ok (n, st') ∧ reads_well st' ∧ 0 ≤ n ∧ (n = 0 → st' = st0).
Proof.
  unfold peepholeOptimize. destruct (functions_ok (p_functions m) (mkPeep st0 ∅ 0)) as (s' & E & Hw & _ & Hn & H0); [done|apply start_well|].
  unfold types_of in E. rewrite E. cbn [mbind result_bind]. exists (pp_removed s'), (pp_store s'). split_and!; [done|done|done|]. intros En. by apply H0.
Qed.
End pass.

(** * The whole pass *)

(** What the pass relies on: the bodies of the module read as trees, and a function object
    is in the module once. *)
Record optimizable (depth : nat) (st : instr_store) (m : PModule) (md : WasmModule) : Prop := {
  op_read : read_module depth st m = Some md;
  op_once : NoDup (pf_id <$> p_functions m) }.

Lemma optimizable_reached depth st m md : optimizable depth st m md → ∀ fn a, fn ∈ p_functions m → reaches st fn a → a ∈ dom (s_arrays st).
Proof.
  intros [Hr _] fn a Hfn Ha. destruct (read_roots depth st m md Hr (pf_body fn)) as (d & l & Hl); [|by eapply read_inside_dom].
  unfold body_roots. rewrite !elem_of_app. left. by apply list_elem_of_fmap_2.
Qed.

(** C11: the peephole pass keeps behaviour.  On a module whose bodies read as trees the
    analysis of shared arrays and the pass end.  The functions still read as trees, as
    the module after some rewrites, and every call has the result that it had, at every
    bound on its calls and iterations, unless validation rules out the original code.
    Bodies that share no array with a function, as those of globals, are left alone, and
    the count is zero only if nothing changed. *)
Theorem peepholeOptimize_correct depth st m md : optimizable depth st m md →
  ∃ sharing n st' fs, instrArraySharing st m = Ok sharing ∧ peepholeOptimize depth sharing m st = Ok (n, st') ∧
    Forall2 (λ f fn, read_function depth st' f = Some fn) (p_functions m) fs ∧ rtc peep_module md (with_bodies md fs) ∧
    0 ≤ n ∧ (n = 0 → st' = st) ∧ (∀ b d l, apart st m b → read_body d st b = Some l → read_body d st' b = Some l) ∧
    ∀ R W (M : Machine R W) (Ok : MachineOk R W) fuel f k (w : W), invoke md fuel f k w = CStuck ∨ invoke (with_bodies md fs) fuel f k w = invoke md fuel f k w.
Proof.
  intros Hop. pose proof Hop as [Hr Hn]. destruct (instrArraySharing_shared st m Hn (optimizable_reached _ _ _ _ Hop)) as (sharing & Es & Hs).
  destruct (pass_ok depth st m md sharing Hr Hn Hs) as (n & st' & Ep & [(fs & Hfs & Hsteps) _ Hapart] & H0 & Hsame). exists sharing, n, st', fs. split_and!; try done.
  - intros b d l Hb Hl. by destruct (Hapart d b l Hb Hl).
  - intros R W M Ok fuel f k w. destruct (module_behaves md (with_bodies md fs) Hsteps fuel f k w) as [E|E]; [by left|by right].
Qed.

(** * Witnesses *)

(** One object for each instruction; the body, and the arm of its [if]. *)
Definition peep_store : instr_store :=
  mkStore
    (list_to_map [(0, NLeaf (I32Const 5)); (1, NLeaf (LocalSet 1)); (2, NLeaf (LocalGet 1)); (3, NLeaf (Plain "drop"));
                  (4, NLeaf (I32Const 0)); (5, NLeaf (Plain "i32.or")); (6, NLeaf (LocalGet 0)); (7, NLeaf (RefTest 1));
                  (8, NIf 0 11 None); (9, NLeaf (RefCast 1))])
    (list_to_map [(10, [6; 7; 8; 0; 1; 2; 2; 3; 4; 5]); (11, [6; 9; 3])]) (list_to_map [(0, BEmpty)]).

Definition peep_pmodule : PModule :=
  mkPModule [TFunc [VRefNull 1] [VI32]; TStruct [] None true] None [] [mkPFunction 0 (js "f") 0 [VI32] 10] [] [] [] [] [] [] [] [] [] None.

Definition peep_md : WasmModule := default (mkModule [] None [] [] [] [] [] [] [] [] [] [] [] None) (read_module 3 peep_store peep_pmodule).

(** A machine whose references are their types, and that tests them. *)
#[local] Instance testing_machine : Machine Z unit := {
  ref_has r t := r =? t; ref_in _ _ := false; null_in _ := true; f64_op _ _ _ := NAN_BITS; get_global _ _ := None;
  leaf i k w := match i, k with
                | RefTest t, WRef r :: k' => LNext (WI32 (if r =? t then 1 else 0) :: k') w
                | RefTest t, WNull :: k' => LNext (WI32 0 :: k') w
                | _, _ => LStuck
                end;
  host _ _ w := CTrap w; exn_ref e := -1 }.

#[local] Instance testing_machine_ok : MachineOk Z unit.
Proof. by split. Defined.

Lemma peep_sample : optimizable 3 peep_store peep_pmodule peep_md.
Proof. split; [by vm_compute|]. apply NoDup_singleton. Defined.

(** The pass leaves [local.get; ref.test; if (...); i32.const 5; local.tee]. *)
Example peep_result : match instrArraySharing peep_store peep_pmodule with
  | Ok sharing => match peepholeOptimize 3 sharing peep_pmodule peep_store with
                  | Ok (n, st) => n = 6 ∧ read_body 3 st 10 =
                      Some [LocalGet 0; RefTest 1; If BEmpty [LocalGet 0; Plain "ref.as_non_null"; Plain "drop"] None; I32Const 5; LocalTee 1]
                  | Err _ => False
                  end
  | Err _ => False
  end.
Proof. vm_compute. by split. Qed.

Lemma peepholeOptimize_correct_witness :
  ∃ md', invoke md' 1 (Own 0) [WRef 1] tt = CDone [WI32 5] tt ∧ invoke md' 1 (Own 0) [WNull] tt = CDone [WI32 5] tt.
Proof.
  destruct (peepholeOptimize_correct 3 peep_store peep_pmodule peep_md peep_sample) as (sh & n & st' & fs & _ & _ & _ & _ & _ & _ & _ & H).
  exists (with_bodies peep_md fs). split.
  - destruct (H Z unit testing_machine testing_machine_ok 1%nat (Own 0) [WRef 1] tt) as [E|E]; [vm_compute in E; discriminate E|]. rewrite E. by vm_compute.
  - destruct (H Z unit testing_machine testing_machine_ok 1%nat (Own 0) [WNull] tt) as [E|E]; [vm_compute in E; discriminate E|]. rewrite E. by vm_compute.
Defined.
