(* ===== verification/InterpCode.v ===== *)
(** The interpreter's bytecode: opcode set and packed encoding, encoder and
    disassembler, [src/interp/opcodes.ts], [src/interp/encoder.ts],
    [src/interp/disasm.ts] and the [FuncMeta] of [src/interp/types.ts].

    A number of the host language is its IEEE 754 bit pattern; objects are
    compared by their reference.  The text of a number ([String(v)]) is a
    parameter of the disassembler. *)

From S2P Require Import Prelude Encoder ObjReader.

(** * Opcodes *)

Module Op.
Definition LdaConst : Z := 0.
Definition LdaUndef : Z := 1.
Definition LdaNull : Z := 2.
Definition LdaTrue : Z := 3.
Definition LdaFalse : Z := 4.
Definition LdaZero : Z := 5.
Definition Star : Z := 6.
Definition Ldar : Z := 7.
Definition Mov : Z := 8.
Definition Add : Z := 9.
Definition Sub : Z := 10.
Definition Mul : Z := 11.
Definition Div : Z := 12.
Definition Mod : Z := 13.
Definition Neg : Z := 14.
Definition Not : Z := 15.
Definition TypeOf : Z := 16.
Definition Eq : Z := 17.
Definition StrictEq : Z := 18.
Definition Lt : Z := 19.
Definition Le : Z := 20.
Definition GetProp : Z := 21.
Definition GetElem : Z := 22.
Definition SetProp : Z := 23.
Definition SetElem : Z := 24.
Definition LdGlobal : Z := 25.
Definition StGlobal : Z := 26.
Definition LdName : Z := 27.
Definition StName : Z := 28.
Definition Call : Z := 29.
Definition Construct : Z := 30.
Definition CallBuiltin : Z := 31.
Definition Jump : Z := 32.
Definition JumpIfTrue : Z := 33.
Definition JumpIfFalse : Z := 34.
Definition Return : Z := 35.
Definition Throw : Z := 36.
Definition Gt : Z := 37.
Definition Ge : Z := 38.
Definition InitName : Z := 39.
Definition DeleteProp : Z := 40.
Definition DeleteElem : Z := 41.
Definition DeleteName : Z := 42.
Definition Shl : Z := 43.
Definition Shr : Z := 44.
Definition BitOr : Z := 45.
Definition BitAnd : Z := 46.
Definition BitXor : Z := 47.
Definition ShrU : Z := 48.
End Op.

Definition OP_COUNT : Z := 49.

Definition WIDE_FLAG : Z := 0x80.
Definition OP_MASK : Z := 0x7f.
Definition OPERAND_MASK : Z := 0xfff.
Definition A_SHIFT : Z := 8.
Definition B_SHIFT : Z := 20.

Definition packWord (op a b : Z) : Z := (op .| (a .<< A_SHIFT) .| (b .<< B_SHIFT)) .>>> 0.

Definition fitsOperand (v : Z) : bool := (0 <=? v) && (v <=? OPERAND_MASK).

Inductive OperandForm :=
  | FNone | FRegA | FRegAB | FConstA | FConstAregB | FTarget | FRegAcountB | FBuiltin.

#[export] Instance OperandForm_eq_dec : EqDecision OperandForm.
Proof. solve_decision. Defined.

Record OpInfo := mkOp { op_name : string; op_form : OperandForm }.

Definition OP_INFO : list OpInfo :=
  [ mkOp "LdaConst" FConstA;
    mkOp "LdaUndef" FNone;
    mkOp "LdaNull" FNone;
    mkOp "LdaTrue" FNone;
    mkOp "LdaFalse" FNone;
    mkOp "LdaZero" FNone;
    mkOp "Star" FRegA;
    mkOp "Ldar" FRegA;
    mkOp "Mov" FRegAB;
    mkOp "Add" FRegA;
    mkOp "Sub" FRegA;
    mkOp "Mul" FRegA;
    mkOp "Div" FRegA;
    mkOp "Mod" FRegA;
    mkOp "Neg" FNone;
    mkOp "Not" FNone;
    mkOp "TypeOf" FNone;
    mkOp "Eq" FRegA;
    mkOp "StrictEq" FRegA;
    mkOp "Lt" FRegA;
    mkOp "Le" FRegA;
    mkOp "GetProp" FConstA;
    mkOp "GetElem" FRegA;
    mkOp "SetProp" FConstAregB;
    mkOp "SetElem" FRegAB;
    mkOp "LdGlobal" FConstA;
    mkOp "StGlobal" FConstA;
    mkOp "LdName" FConstA;
    mkOp "StName" FConstA;
    mkOp "Call" FRegAcountB;
    mkOp "Construct" FRegAcountB;
    mkOp "CallBuiltin" FBuiltin;
    mkOp "Jump" FTarget;
    mkOp "JumpIfTrue" FTarget;
    mkOp "JumpIfFalse" FTarget;
    mkOp "Return" FNone;
    mkOp "Throw" FNone;
    mkOp "Gt" FRegA;
    mkOp "Ge" FRegA;
    mkOp "InitName" FConstA;
    mkOp "DeleteProp" FConstA;
    mkOp "DeleteElem" FRegA;
    mkOp "DeleteName" FConstA;
    mkOp "Shl" FRegA;
    mkOp "Shr" FRegA;
    mkOp "BitOr" FRegA;
    mkOp "BitAnd" FRegA;
    mkOp "BitXor" FRegA;
    mkOp "ShrU" FRegA ].

Definition BUILTIN_NAMES : list string :=
  [ "ObjectLiteral";
    "ArrayLiteral";
    "MakeClosure";
    "GlobalThis";
    "TypeofName";
    "Error";
    "TypeError";
    "RangeError";
    "SyntaxError";
    "ReferenceError";
    "Number";
    "Math.max";
    "Math.min";
    "Math.abs";
    "Math.floor";
    "Math.ceil";
    "Math.round";
    "PushLexicalEnv";
    "SaveEnv";
    "RestoreEnv";
    "AssignOuterName";
    "DefineClassMethod";
    "FinalizeClass";
    "ObjectDefineProperty";
    "ForInKeys";
    "ForOfValues";
    "DirectEval";
    "PushObjectEnv";
    "RegExpCreate";
    "DynamicImport";
    "PushFunctionEnv" ].

(** [OP_INFO[op]] and [BUILTIN_NAMES[id]]: [undefined] outside the table. *)
Definition op_info (op : Z) : option OpInfo :=
  if op <? 0 then None else OP_INFO !! Z.to_nat op.
Definition builtin_name (id : Z) : option string :=
  if id <? 0 then None else BUILTIN_NAMES !! Z.to_nat id.

(** * Values of the constant pool *)

Inductive JSValue :=
  | JNum (bits : Z)
  | JStr (s : jsstr)
  | JBool (b : bool)
  | JUndefined
  | JNull
  | JMeta (ref : Z) (name : option jsstr)
  | JOther (ref : Z) (ty : string).

#[export] Instance JSValue_eq_dec : EqDecision JSValue.
Proof. solve_decision. Defined.

(** IEEE 754 binary64: the exponent is all ones and the fraction is not zero. *)
Definition is_nan (bits : Z) : bool := 0x7ff0000000000000 <? bits mod 2 ^ 63.
Definition is_zero (bits : Z) : bool := bits mod 2 ^ 63 =? 0.

(** [===] *)
Definition strict_equal (v w : JSValue) : bool :=
  match v, w with
  | JNum x, JNum y =>
      negb (is_nan x) && negb (is_nan y) && ((x =? y) || (is_zero x && is_zero y))
  | JMeta r _, JMeta r' _ => r =? r'
  | JOther r _, JOther r' _ => r =? r'
  | _, _ => bool_decide (v = w)
  end.

(** [Number.isNaN(v)] *)
Definition value_nan (v : JSValue) : bool :=
  match v with JNum x => is_nan x | _ => false end.

(** * Encoder *)

Record Encoder := mkEncoder { code : list Z; consts : list JSValue; exn : list Z }.

Record FuncMeta := mkMeta {
  fm_code : list Z;
  fm_consts : list JSValue;
  fm_regCount : Z;
  fm_paramCount : Z;
  fm_exnTable : option (list Z);
  fm_name : option jsstr;
  fm_flags : Z;
}.

Definition new_encoder : Encoder := mkEncoder [] [] [].

Definition here (e : Encoder) : Z := Z.of_nat (length (code e)).

Definition isDedupablePrimitive (v : JSValue) : bool :=
  match v with JNum _ | JStr _ | JBool _ | JUndefined | JNull => true | _ => false end.

(** The scan of the pool, from index [i] on. *)
Fixpoint scan_pool (pool : list JSValue) (i : Z) (value : JSValue) : option Z :=
  match pool with
  | [] => None
  | existing :: rest =>
      if strict_equal existing value || (value_nan value && value_nan existing)
      then Some i else scan_pool rest (i + 1) value
  end.

Definition internConst (value : JSValue) (e : Encoder) : Z * Encoder :=
  match (if isDedupablePrimitive value then scan_pool (consts e) 0 value else None) with
  | Some i => (i, e)
  | None => (Z.of_nat (length (consts e)), mkEncoder (code e) (consts e ++ [value]) (exn e))
  end.

Definition push_code (w : Z) (e : Encoder) : Encoder := mkEncoder (code e ++ [w]) (consts e) (exn e).

Definition assertOperand (v : Z) (what : string) : result () :=
  if negb ((0 <=? v) && (v <=? OPERAND_MASK))
  then throw EError (js "interp/encoder: " ++ js what ++ js " " ++ js_num v
         ++ js " exceeds the 12-bit packed operand field (0.." ++ js_num OPERAND_MASK ++ js ")")
  else Ok tt.

Definition emit0 (op : Z) (e : Encoder) : result Encoder := Ok (push_code (packWord op 0 0) e).

Definition emitReg (op r : Z) (e : Encoder) : result Encoder :=
  _ ← assertOperand r "register"; Ok (push_code (packWord op r 0) e).

Definition emitRegReg (op a b : Z) (e : Encoder) : result Encoder :=
  _ ← assertOperand a "register";
  _ ← assertOperand b "register";
  Ok (push_code (packWord op a b) e).

Definition emitConst (op cIdx : Z) (e : Encoder) : result Encoder :=
  if fitsOperand cIdx then Ok (push_code (packWord op cIdx 0) e)
  else Ok (push_code cIdx (push_code (packWord (op .| WIDE_FLAG) 0 0) e)).

Definition emitConstReg (op cIdx r : Z) (e : Encoder) : result Encoder :=
  _ ← assertOperand r "register";
  if fitsOperand cIdx then Ok (push_code (packWord op cIdx r) e)
  else Ok (push_code cIdx (push_code (packWord (op .| WIDE_FLAG) 0 r) e)).

Definition emitCall (op rBase argc : Z) (e : Encoder) : result Encoder :=
  _ ← assertOperand rBase "register base";
  _ ← assertOperand argc "argc";
  Ok (push_code (packWord op rBase argc) e).

Definition emitCallBuiltin (builtinId rBase argc : Z) (e : Encoder) : result Encoder :=
  _ ← assertOperand builtinId "builtin id";
  _ ← assertOperand rBase "register base";
  Ok (push_code argc (push_code (packWord Op.CallBuiltin builtinId rBase) e)).

(** The slot of the target word, and the encoder. *)
Definition emitJump (op : Z) (e : Encoder) : Z * Encoder :=
  let e := push_code (packWord (op .| WIDE_FLAG) 0 0) e in
  let slot := here e in
  (slot, push_code 0 e).

Definition emitJumpTo (op target : Z) (e : Encoder) : Encoder :=
  push_code target (push_code (packWord (op .| WIDE_FLAG) 0 0) e).

Definition emitJumpMarker (op marker : Z) (e : Encoder) : Encoder :=
  push_code marker (push_code (packWord (op .| WIDE_FLAG) 0 0) e).

(** [this.code[slot] = target]; a slot is an index of [code]. *)
Definition patch (slot target : Z) (e : Encoder) : Encoder :=
  mkEncoder (<[Z.to_nat slot := target]> (code e)) (consts e) (exn e).

Definition patchTargetMarker (marker target : Z) (e : Encoder) : Encoder :=
  mkEncoder ((λ w, if w =? marker then target else w) <$> code e) (consts e) (exn e).

Definition addExnRow (startPC endPC handlerPC handlerReg : Z) (e : Encoder) : Encoder :=
  mkEncoder (code e) (consts e) (exn e ++ [startPC; endPC; handlerPC; handlerReg]).

Definition finish (regCount paramCount : Z) (name : option jsstr) (flags : Z) (e : Encoder)
  : FuncMeta :=
  mkMeta (code e) (consts e) regCount paramCount
    (if bool_decide (0 < length (exn e))%nat then Some (exn e) else None) name flags.

(** * Disassembler *)

(** An operand read from past the end of the code is [undefined], here [None];
    the form of an unknown opcode (-1 in the source) is [None] too. *)
Record DecodedInstr := mkDecoded {
  di_pc : Z; di_op : Z; di_name : jsstr; di_form : option OperandForm;
  di_a : option Z; di_b : Z; di_argc : option Z; di_next : Z }.

Definition word_at (code : list Z) (pc : Z) : option Z :=
  if pc <? 0 then None else code !! Z.to_nat pc.

Definition decodeInstr (code : list Z) (pc : Z) : DecodedInstr :=
  let word := match word_at code pc with Some w => w | None => 0 end in
  let op := word .& OP_MASK in
  let wide := negb (word .& WIDE_FLAG =? 0) in
  let packedA := (word .>>> 8) .& 0xfff in
  let packedB := (word .>>> 20) .& 0xfff in
  let next := pc + 1 in
  match op_info op with
  | None =>
      mkDecoded pc op (js "?op" ++ js_num op) None (Some packedA) packedB (Some (-1)) (pc + 1)
  | Some info =>
      let mk a b argc next := mkDecoded pc op (js (op_name info)) (Some (op_form info)) a b argc next in
      match op_form info with
      | FNone => mk (Some packedA) (-1) (Some (-1)) next
      | FRegA | FConstA =>
          if wide then mk (word_at code next) (-1) (Some (-1)) (next + 1)
          else mk (Some packedA) (-1) (Some (-1)) next
      | FRegAB => mk (Some packedA) packedB (Some (-1)) next
      | FConstAregB =>
          if wide then mk (word_at code next) packedB (Some (-1)) (next + 1)
          else mk (Some packedA) packedB (Some (-1)) next
      | FTarget => mk (word_at code next) (-1) (Some (-1)) (next + 1)
      | FRegAcountB => mk (Some packedA) packedB (Some (-1)) next
      | FBuiltin => mk (Some packedA) packedB (word_at code next) (next + 1)
      end
  end.

(** The text of an operand that may be [undefined]. *)
Definition js_opt (v : option Z) : jsstr :=
  match v with Some z => js_num z | None => js "undefined" end.

(** [JSON.stringify] of a string: quotes, the short escapes, [\u] escapes for
    the other control characters and for lone surrogates. *)
Definition hex4 (c : Z) : jsstr :=
  hex_digit (c / 4096) :: hex_digit (c / 256 mod 16) :: hex_digit (c / 16 mod 16)
  :: [hex_digit (c mod 16)].

Definition is_high (c : Z) : bool := (0xd800 <=? c) && (c <=? 0xdbff).
Definition is_low (c : Z) : bool := (0xdc00 <=? c) && (c <=? 0xdfff).

Definition json_unit (c : Z) : jsstr :=
  if c =? 34 then js "\" ++ [34]
  else if c =? 92 then js "\\"
  else if c =? 8 then js "\b"
  else if c =? 9 then js "\t"
  else if c =? 10 then js "\n"
  else if c =? 12 then js "\f"
  else if c =? 13 then js "\r"
  else if c <? 32 then js "\u" ++ hex4 c
  else [c].

Fixpoint json_units (s : jsstr) : jsstr :=
  match s with
  | [] => []
  | c :: s' =>
      match s' with
      | d :: s'' =>
          if is_high c && is_low d then c :: d :: json_units s''
          else if is_high c || is_low c then js "\u" ++ hex4 c ++ json_units s'
          else json_unit c ++ json_units s'
      | [] => if is_high c || is_low c then js "\u" ++ hex4 c else json_unit c
      end
  end.

Definition json_string (s : jsstr) : jsstr := [34] ++ json_units s ++ [34].

(** [n.toString(2)] of a non-negative integer. *)
Fixpoint binary_pos (p : positive) : jsstr :=
  match p with
  | xH => [49]
  | xO q => binary_pos q ++ [48]
  | xI q => binary_pos q ++ [49]
  end.

Definition js_binary (n : Z) : jsstr :=
  match n with Z0 => [48] | Zpos p => binary_pos p | Zneg p => 45 :: binary_pos p end.

(** [s.padStart(n, " ")] *)
Definition padStart (n : nat) (s : jsstr) : jsstr := replicate (n - length s) 32 ++ s.

Section rendering.
Context (number_text : Z → jsstr).

Definition meta_name (name : option jsstr) : jsstr :=
  match name with
  | Some n => if bool_decide (0 < length n)%nat then n else js "(anonymous)"
  | None => js "(anonymous)"
  end.

Definition constRepr (pool : list JSValue) (idx : option Z) : jsstr :=
  match idx with
  | None => js "undefined"
  | Some idx =>
      if (idx <? 0) || (Z.of_nat (length pool) <=? idx)
      then js "<const #" ++ js_num idx ++ js " out of range>"
      else match pool !! Z.to_nat idx with
           | Some (JStr s) => json_string s
           | Some (JNum x) => number_text x
           | Some (JBool b) => js (if b then "true" else "false")
           | Some JNull => js "null"
           | Some JUndefined | None => js "undefined"
           | Some (JMeta _ name) => js "<FuncMeta " ++ meta_name name ++ js ">"
           | Some (JOther _ ty) => js "<" ++ js ty ++ js ">"
           end
  end.

(** [BUILTIN_NAMES[d.a] ?? d.a] *)
Definition builtin_text (a : option Z) : jsstr :=
  match a with
  | Some id => match builtin_name id with Some n => js n | None => js_num id end
  | None => js "undefined"
  end.

Definition renderOperands (d : DecodedInstr) (pool : list JSValue) : jsstr :=
  match di_form d with
  | Some FNone => []
  | Some FRegA => js "r" ++ js_opt (di_a d)
  | Some FRegAB => js "r" ++ js_opt (di_a d) ++ js ", r" ++ js_num (di_b d)
  | Some FConstA => js "c" ++ js_opt (di_a d) ++ js "  ;; " ++ constRepr pool (di_a d)
  | Some FConstAregB =>
      js "c" ++ js_opt (di_a d) ++ js ", r" ++ js_num (di_b d) ++ js "  ;; "
      ++ constRepr pool (di_a d)
  | Some FTarget => js "@" ++ js_opt (di_a d)
  | Some FRegAcountB => js "r" ++ js_opt (di_a d) ++ js ", #" ++ js_num (di_b d)
  | Some FBuiltin =>
      js "%" ++ builtin_text (di_a d) ++ js "%  r" ++ js_num (di_b d) ++ js ", #"
      ++ js_opt (di_argc d)
  | None => js "<a=" ++ js_opt (di_a d) ++ js " b=" ++ js_num (di_b d) ++ js ">"
  end.

Definition instr_line (d : DecodedInstr) (pool : list JSValue) : jsstr :=
  let operands := renderOperands d pool in
  let pcCol := padStart 4 (js_num (di_pc d)) in
  if bool_decide (0 < length operands)%nat
  then pcCol ++ js ": " ++ di_name d ++ js " " ++ operands
  else pcCol ++ js ": " ++ di_name d.

(** The message has an em dash, U+2014. *)
Definition abort_text : jsstr :=
  js ": <decode did not advance " ++ [0x2014] ++ js " aborting>".

(** The instruction loop of [disassemble]; the flag says that the defensive
    exit was taken. *)
Fixpoint disassemble_loop (fuel : nat) (code : list Z) (pool : list JSValue) (pc : Z)
    (lines : list jsstr) : result (list jsstr * bool) :=
  match fuel with
  | O => Err OutOfFuel
  | S f =>
      if Z.of_nat (length code) <=? pc then Ok (lines, false)
      else
        let d := decodeInstr code pc in
        let lines := lines ++ [instr_line d pool] in
        if di_next d <=? pc
        then Ok (lines ++ [padStart 4 (js_num pc) ++ abort_text], true)
        else disassemble_loop f code pool (di_next d) lines
  end.

(** One line per complete row of the exception table. *)
Fixpoint exn_lines (t : list Z) : list jsstr :=
  match t with
  | a :: b :: h :: r :: t' =>
      (js ";   [" ++ js_num a ++ js ", " ++ js_num b ++ js ") -> " ++ js_num h ++ js " (r"
       ++ js_num r ++ js ")") :: exn_lines t'
  | _ => []
  end.

Definition exn_section (t : option (list Z)) : list jsstr :=
  match t with
  | Some t => if bool_decide (0 < length t)%nat
              then js "; exn-table [startPC, endPC) -> handlerPC (reg)" :: exn_lines t else []
  | None => []
  end.

Definition disassemble (meta : FuncMeta) : result jsstr :=
  let header := js "; FuncMeta " ++ meta_name (fm_name meta) ++ js "  regCount="
    ++ js_num (fm_regCount meta) ++ js " paramCount=" ++ js_num (fm_paramCount meta)
    ++ js " flags=0b" ++ js_binary (fm_flags meta) in
  r ← disassemble_loop (S (length (fm_code meta))) (fm_code meta) (fm_consts meta) 0 [header];
  Ok (join_with [10] (r.1 ++ exn_section (fm_exnTable meta))).
End rendering.

(** * The instructions the encoder writes *)

Inductive insn :=
  | I0 (op : Z)
  | IReg (op r : Z)
  | IRegReg (op a b : Z)
  | IConst (op c : Z)
  | IConstReg (op c r : Z)
  | ICallOp (op base argc : Z)
  | IBuiltin (id base argc : Z)
  | IJumpTo (op t : Z).

(** The method call that emits it. *)
Definition emit_insn (i : insn) (e : Encoder) : result Encoder :=
  match i with
  | I0 op => emit0 op e
  | IReg op r => emitReg op r e
  | IRegReg op a b => emitRegReg op a b e
  | IConst op c => emitConst op c e
  | IConstReg op c r => emitConstReg op c r e
  | ICallOp op base argc => emitCall op base argc e
  | IBuiltin id base argc => emitCallBuiltin id base argc e
  | IJumpTo op t => Ok (emitJumpTo op t e)
  end.

Definition insn_op (i : insn) : Z :=
  match i with
  | I0 op | IReg op _ | IRegReg op _ _ | IConst op _ | IConstReg op _ _ | ICallOp op _ _
  | IJumpTo op _ => op
  | IBuiltin _ _ _ => Op.CallBuiltin
  end.

Definition insn_form (i : insn) : OperandForm :=
  match i with
  | I0 _ => FNone | IReg _ _ => FRegA | IRegReg _ _ _ => FRegAB | IConst _ _ => FConstA
  | IConstReg _ _ _ => FConstAregB | ICallOp _ _ _ => FRegAcountB | IBuiltin _ _ _ => FBuiltin
  | IJumpTo _ _ => FTarget
  end.

Definition operand_ok (v : Z) : Prop := 0 ≤ v ≤ 0xfff.

(** The packed operands fit their fields. *)
Definition operands_ok (i : insn) : Prop :=
  match i with
  | I0 _ | IConst _ _ | IJumpTo _ _ => True
  | IReg _ r => operand_ok r
  | IRegReg _ a b => operand_ok a ∧ operand_ok b
  | IConstReg _ _ r => operand_ok r
  | ICallOp _ base argc => operand_ok base ∧ operand_ok argc
  | IBuiltin id base _ => operand_ok id ∧ operand_ok base
  end.

(** The opcode exists and has the form the method is for. *)
Definition opcode_ok (i : insn) : Prop :=
  op_form <$> op_info (insn_op i) = Some (insn_form i).

(** The operands that the disassembler shows for it. *)
Definition insn_a (i : insn) : Z :=
  match i with
  | I0 _ => 0
  | IReg _ r => r
  | IRegReg _ a _ => a
  | IConst _ c | IConstReg _ c _ => c
  | ICallOp _ base _ => base
  | IBuiltin id _ _ => id
  | IJumpTo _ t => t
  end.

Definition insn_b (i : insn) : Z :=
  match i with
  | IRegReg _ _ b => b | IConstReg _ _ r => r | ICallOp _ _ argc => argc | IBuiltin _ base _ => base
  | _ => -1
  end.

Definition insn_argc (i : insn) : Z := match i with IBuiltin _ _ argc => argc | _ => -1 end.

(** The words of an instruction. *)
Definition insn_words (i : insn) : list Z :=
  match i with
  | I0 op => [packWord op 0 0]
  | IReg op r => [packWord op r 0]
  | IRegReg op a b => [packWord op a b]
  | IConst op c => if fitsOperand c then [packWord op c 0] else [packWord (op .| WIDE_FLAG) 0 0; c]
  | IConstReg op c r =>
      if fitsOperand c then [packWord op c r] else [packWord (op .| WIDE_FLAG) 0 r; c]
  | ICallOp op base argc => [packWord op base argc]
  | IBuiltin id base argc => [packWord Op.CallBuiltin id base; argc]
  | IJumpTo op t => [packWord (op .| WIDE_FLAG) 0 0; t]
  end.

Definition decoded (i : insn) (pc : Z) : DecodedInstr :=
  mkDecoded pc (insn_op i)
    match op_info (insn_op i) with Some info => js (op_name info) | None => [] end
    (Some (insn_form i)) (Some (insn_a i)) (insn_b i) (Some (insn_argc i))
    (pc + Z.of_nat (length (insn_words i))).

(** * Packing and unpacking *)

Lemma packWord_eq op a b :
  0 ≤ op < 256 → operand_ok a → operand_ok b → packWord op a b = op + a * 2 ^ 8 + b * 2 ^ 20.
Proof.
  unfold operand_ok. intros Hop Ha Hb. unfold packWord, A_SHIFT, B_SHIFT.
  rewrite <- (to_int32_small op) at 1 by lia. rewrite js_or_shl by lia.
  rewrite js_or_shl by lia. unfold js_shru. rewrite Z.mod_0_l, Z.shiftr_0_r by lia.
  rewrite to_uint32_int32, to_uint32_small by lia. lia.
Qed.

Lemma word_fields op (wide : bool) a b :
  0 ≤ op < 128 → operand_ok a → operand_ok b →
  let w := packWord (if wide then op .| WIDE_FLAG else op) a b in
  w .& OP_MASK = op ∧ negb (w .& WIDE_FLAG =? 0) = wide
  ∧ (w .>>> 8) .& 0xfff = a ∧ (w .>>> 20) .& 0xfff = b.
Proof.
  intros Hop Ha Hb w. unfold operand_ok in *.
  set (o := if wide then op + 128 else op).
  assert (w = o + a * 2 ^ 8 + b * 2 ^ 20) as Hw.
  { unfold w, o, WIDE_FLAG. destruct wide; [rewrite js_or_80 by lia|]; apply packWord_eq;
      unfold operand_ok; lia. }
  assert (0 ≤ o < 256) as Ho by (unfold o; destruct wide; lia).
  rewrite Hw. unfold OP_MASK, WIDE_FLAG. rewrite js_and_7f, !js_shru_spec by lia.
  change 0xfff with (2 ^ 12 - 1). rewrite !js_and_mask by lia. split_and!.
  - symmetry. apply (Z.mod_unique _ _ ((if wide then 1 else 0) + a * 2 + b * 2 ^ 13)); [lia|].
    unfold o. destruct wide; lia.
  - change 0x80 with (2 ^ 7). rewrite js_and_bit, negb_involutive, Z.testbit_eqb by lia.
    assert ((o + a * 2 ^ 8 + b * 2 ^ 20) / 2 ^ 7 = (if wide then 1 else 0) + a * 2 + b * 2 ^ 13) as ->.
    { symmetry. apply (Z.div_unique _ _ _ op); [lia|]. unfold o. destruct wide; lia. }
    replace ((if wide then 1 else 0) + a * 2 + b * 2 ^ 13)
      with ((if wide then 1 else 0) + (a + b * 2 ^ 12) * 2) by lia.
    rewrite Z.mod_add by lia. by destruct wide.
  - assert ((o + a * 2 ^ 8 + b * 2 ^ 20) / 2 ^ 8 = a + b * 2 ^ 12) as ->
      by (symmetry; apply (Z.div_unique _ _ _ o); lia).
    rewrite Z.mod_add by lia. apply Z.mod_small. lia.
  - assert ((o + a * 2 ^ 8 + b * 2 ^ 20) / 2 ^ 20 = b) as ->
      by (symmetry; apply (Z.div_unique _ _ _ (o + a * 2 ^ 8)); lia).
    apply Z.mod_small. lia.
Qed.

Lemma op_info_range op info : op_info op = Some info → 0 ≤ op < 49.
Proof.
  unfold op_info. destruct (Z.ltb_spec op 0); [done|]. intros Hi%lookup_lt_Some.
  change (length OP_INFO) with 49%nat in Hi. lia.
Qed.

Lemma opcode_info i : opcode_ok i →
  ∃ info, op_info (insn_op i) = Some info ∧ op_form info = insn_form i ∧ 0 ≤ insn_op i < 128.
Proof.
  unfold opcode_ok. destruct (op_info (insn_op i)) as [info|] eqn:E; [|done].
  intros [= Hf]. exists info. apply op_info_range in E as Hr. split_and!; [done..|lia|lia].
Qed.

Lemma fitsOperand_spec c : fitsOperand c = true ↔ operand_ok c.
Proof. unfold fitsOperand, operand_ok, OPERAND_MASK. rewrite andb_true_iff, !Z.leb_le. lia. Qed.

Lemma operand_0 : operand_ok 0.
Proof. unfold operand_ok. lia. Qed.

Lemma word_at_app pre w suf : word_at (pre ++ w :: suf) (Z.of_nat (length pre)) = Some w.
Proof.
  unfold word_at. destruct (Z.ltb_spec (Z.of_nat (length pre)) 0); [lia|].
  rewrite Nat2Z.id. by apply list_lookup_middle.
Qed.

Lemma word_at_next pre w v suf : word_at (pre ++ w :: v :: suf) (Z.of_nat (length pre) + 1) = Some v.
Proof.
  replace (pre ++ w :: v :: suf) with ((pre ++ [w]) ++ v :: suf) by (by rewrite <- app_assoc).
  rewrite <- (word_at_app (pre ++ [w]) v suf). f_equal. rewrite length_app. simpl. lia.
Qed.

(** Decoding the first word of an instruction whose fields are known. *)
Lemma decode_at pre op (wide : bool) a b suf info :
  op_info op = Some info → operand_ok a → operand_ok b →
  let code := pre ++ packWord (if wide then op .| WIDE_FLAG else op) a b :: suf in
  let pc := Z.of_nat (length pre) in
  decodeInstr code pc =
    let mk a b argc next := mkDecoded pc op (js (op_name info)) (Some (op_form info)) a b argc next in
    match op_form info with
    | FNone => mk (Some a) (-1) (Some (-1)) (pc + 1)
    | FRegA | FConstA =>
        if wide then mk (word_at code (pc + 1)) (-1) (Some (-1)) (pc + 1 + 1)
        else mk (Some a) (-1) (Some (-1)) (pc + 1)
    | FRegAB | FRegAcountB => mk (Some a) b (Some (-1)) (pc + 1)
    | FConstAregB =>
        if wide then mk (word_at code (pc + 1)) b (Some (-1)) (pc + 1 + 1)
        else mk (Some a) b (Some (-1)) (pc + 1)
    | FTarget => mk (word_at code (pc + 1)) (-1) (Some (-1)) (pc + 1 + 1)
    | FBuiltin => mk (Some a) b (word_at code (pc + 1)) (pc + 1 + 1)
    end.
Proof.
  intros Hi Ha Hb code pc. pose proof (op_info_range op info Hi) as Hop.
  destruct (word_fields op wide a b ltac:(lia) Ha Hb) as (H1 & H2 & H3 & H4).
  assert (word_at code pc = Some (packWord (if wide then op .| WIDE_FLAG else op) a b)) as Hw
    by apply word_at_app.
  unfold decodeInstr. rewrite Hw. cbv zeta. rewrite H1, H2, H3, H4, Hi. by destruct (op_form info).
Qed.

Lemma decode_insn i pre suf :
  opcode_ok i → operands_ok i →
  decodeInstr (pre ++ insn_words i ++ suf) (Z.of_nat (length pre))
  = decoded i (Z.of_nat (length pre)).
Proof.
  intros Hop Hops. destruct (opcode_info i Hop) as (info & Hi & Hf & _).
  unfold decoded. rewrite Hi. pose proof operand_0.
  destruct i as [op|op r|op a b|op c|op c r|op base argc|id base argc|op t]; simpl in *.
  - by rewrite (decode_at pre op false 0 0 suf info), Hf by done.
  - by rewrite (decode_at pre op false r 0 suf info), Hf by done.
  - by rewrite (decode_at pre op false a b suf info), Hf by tauto.
  - destruct (fitsOperand c) eqn:Ec; cbn [app length].
    + apply fitsOperand_spec in Ec. by rewrite (decode_at pre op false c 0 suf info), Hf by done.
    + rewrite (decode_at pre op true 0 0 (c :: suf) info), Hf, word_at_next by done.
      cbv zeta. f_equal. lia.
  - destruct (fitsOperand c) eqn:Ec; cbn [app length].
    + apply fitsOperand_spec in Ec. by rewrite (decode_at pre op false c r suf info), Hf by done.
    + rewrite (decode_at pre op true 0 r (c :: suf) info), Hf, word_at_next by done.
      cbv zeta. f_equal. lia.
  - by rewrite (decode_at pre op false base argc suf info), Hf by tauto.
  - rewrite (decode_at pre Op.CallBuiltin false id base (argc :: suf) info), Hf, word_at_next by tauto.
    cbv zeta. f_equal. lia.
  - rewrite (decode_at pre op true 0 0 (t :: suf) info), Hf, word_at_next by done.
    cbv zeta. f_equal. lia.
Qed.

(** * Emitting *)

Lemma assertOperand_ok v what : operand_ok v → assertOperand v what = Ok tt.
Proof.
  unfold operand_ok, assertOperand, OPERAND_MASK. intros Hv.
  destruct (Z.leb_spec 0 v), (Z.leb_spec v 0xfff); simpl; [done|lia..].
Qed.

Lemma assertOperand_bad v what : ¬ operand_ok v → ∃ msg, assertOperand v what = throw EError msg.
Proof.
  unfold operand_ok, assertOperand, OPERAND_MASK. intros Hv.
  destruct (Z.leb_spec 0 v), (Z.leb_spec v 0xfff); simpl; eauto; lia.
Qed.

#[global] Instance operand_ok_dec v : Decision (operand_ok v).
Proof. unfold operand_ok. solve_decision. Defined.

#[global] Instance operands_ok_dec i : Decision (operands_ok i).
Proof. destruct i; simpl; solve_decision. Defined.

Definition append_words (ws : list Z) (e : Encoder) : Encoder :=
  mkEncoder (code e ++ ws) (consts e) (exn e).

Lemma push_push v w e : push_code w (push_code v e) = append_words [v; w] e.
Proof. unfold push_code, append_words. simpl. by rewrite <- app_assoc. Qed.

Lemma emit_insn_ok i e : operands_ok i → emit_insn i e = Ok (append_words (insn_words i) e).
Proof.
  destruct i; cbn [operands_ok emit_insn insn_words]; intros H;
    unfold emit0, emitReg, emitRegReg, emitConst, emitConstReg, emitCall, emitCallBuiltin, emitJumpTo;
    rewrite ?assertOperand_ok by tauto; cbn [mbind result_bind];
    try (destruct (fitsOperand c)); by rewrite ?push_push.
Qed.

Lemma emit_insn_bad i e : ¬ operands_ok i → ∃ msg, emit_insn i e = throw EError msg.
Proof.
  destruct i as [op|op r|op a b|op c|op c r|op base argc|id base argc|op t];
    cbn [operands_ok emit_insn]; intros H; try tauto;
    unfold emitReg, emitRegReg, emitConstReg, emitCall, emitCallBuiltin.
  - destruct (assertOperand_bad r "register" H) as [m ->]. eauto.
  - destruct (decide (operand_ok a)) as [Ha|Ha].
    + rewrite (assertOperand_ok a) by done. csimpl.
      destruct (assertOperand_bad b "register") as [m ->]; [tauto|eauto].
    + destruct (assertOperand_bad a "register" Ha) as [m ->]. eauto.
  - destruct (assertOperand_bad r "register" H) as [m ->]. eauto.
  - destruct (decide (operand_ok base)) as [Ha|Ha].
    + rewrite (assertOperand_ok base) by done. csimpl.
      destruct (assertOperand_bad argc "argc") as [m ->]; [tauto|eauto].
    + destruct (assertOperand_bad base "register base" Ha) as [m ->]. eauto.
  - destruct (decide (operand_ok id)) as [Ha|Ha].
    + rewrite (assertOperand_ok id) by done. csimpl.
      destruct (assertOperand_bad base "register base") as [m ->]; [tauto|eauto].
    + destruct (assertOperand_bad id "builtin id" Ha) as [m ->]. eauto.
Qed.

(** A program, emitted in order. *)
Definition emit_all (il : list insn) (e : Encoder) : result Encoder := for_each il emit_insn e.

Lemma emit_all_ok il e :
  Forall operands_ok il → emit_all il e = Ok (append_words (il ≫= insn_words) e).
Proof.
  intros Hl. revert e. induction Hl as [|i il Hi Hl IH]; intros e.
  - unfold append_words. cbn. rewrite app_nil_r. by destruct e.
  - unfold emit_all in *. cbn [for_each]. rewrite emit_insn_ok by done. cbn [mbind result_bind].
    rewrite IH, bind_cons. unfold append_words. simpl. by rewrite <- app_assoc.
Qed.

Lemma emit_all_inv il e e' : emit_all il e = Ok e' → Forall operands_ok il.
Proof.
  revert e. induction il as [|i il IH]; intros e H; [constructor|].
  unfold emit_all in *. cbn [for_each] in H.
  destruct (decide (operands_ok i)) as [Hi|Hi].
  - rewrite emit_insn_ok in H by done. csimpl in H. constructor; [done|by eapply IH].
  - destruct (emit_insn_bad i e Hi) as [m Hm]. rewrite Hm in H. done.
Qed.

(** The instructions with their positions. *)
Fixpoint listing (pc : Z) (il : list insn) : list DecodedInstr :=
  match il with
  | [] => []
  | i :: il' => decoded i pc :: listing (pc + Z.of_nat (length (insn_words i))) il'
  end.

Lemma insn_words_pos i : (0 < length (insn_words i))%nat.
Proof. destruct i; simpl; try (destruct (fitsOperand _)); simpl; lia. Qed.

Lemma disassemble_listing nt pool il pre fuel lines :
  Forall opcode_ok il → Forall operands_ok il → (length (il ≫= insn_words) < fuel)%nat →
  disassemble_loop nt fuel (pre ++ (il ≫= insn_words)) pool (Z.of_nat (length pre)) lines
  = Ok (lines ++ ((λ d, instr_line nt d pool) <$> listing (Z.of_nat (length pre)) il), false).
Proof.
  intros Hop Hops. revert pre fuel lines.
  induction Hops as [|i il Hi Hops IH]; intros pre fuel lines Hf;
    (destruct fuel as [|fuel]; [lia|]); cbn [disassemble_loop].
  - cbn [mbind list_bind]. rewrite app_nil_r.
    destruct (Z.leb_spec (Z.of_nat (length pre)) (Z.of_nat (length pre))); [|lia].
    csimpl. by rewrite app_nil_r.
  - apply Forall_cons in Hop as [Hopi Hop]. rewrite bind_cons in *. rewrite length_app in Hf.
    pose proof (insn_words_pos i) as Hp.
    destruct (Z.leb_spec (Z.of_nat (length (pre ++ insn_words i ++ (il ≫= insn_words))))
      (Z.of_nat (length pre))); [rewrite !length_app in *; lia|].
    rewrite decode_insn by done. cbv zeta. change (di_next (decoded i (Z.of_nat (length pre))))
      with (Z.of_nat (length pre) + Z.of_nat (length (insn_words i))).
    destruct (Z.leb_spec (Z.of_nat (length pre) + Z.of_nat (length (insn_words i)))
      (Z.of_nat (length pre))); [lia|].
    rewrite <- Nat2Z.inj_add, <- length_app, app_assoc. rewrite IH by (done || lia).
    cbn [listing]. rewrite fmap_cons, <- app_assoc, length_app, Nat2Z.inj_add. done.
Qed.

Lemma decode_advances code pc : pc < di_next (decodeInstr code pc).
Proof.
  unfold decodeInstr. cbv zeta. destruct (op_info _) as [info|]; [|simpl; lia].
  destruct (op_form info); try (destruct (negb _)); simpl; lia.
Qed.

Lemma disassemble_loop_total nt fuel code pool pc lines :
  0 ≤ pc → Z.max 0 (Z.of_nat (length code) - pc) < Z.of_nat fuel →
  ∃ out, disassemble_loop nt fuel code pool pc lines = Ok (out, false).
Proof.
  revert pc lines. induction fuel as [|f IH]; intros pc lines Hp Hf; [lia|].
  cbn [disassemble_loop]. destruct (Z.leb_spec (Z.of_nat (length code)) pc); [eauto|].
  pose proof (decode_advances code pc) as Ha.
  destruct (Z.leb_spec (di_next (decodeInstr code pc)) pc); [lia|]. apply IH; lia.
Qed.

(** * The constant pool *)

(** The test of the pool's scan: [===], or both are NaN. *)
Definition same_slot (existing value : JSValue) : bool :=
  strict_equal existing value || (value_nan value && value_nan existing).

Lemma strict_equal_refl v : isDedupablePrimitive v = true → value_nan v = false → strict_equal v v = true.
Proof.
  destruct v; simpl; try done; intros _ Hn.
  - rewrite Hn, Z.eqb_refl. done.
  - by rewrite bool_decide_true.
  - by rewrite bool_decide_true.
Qed.

Lemma same_slot_refl v : isDedupablePrimitive v = true → same_slot v v = true.
Proof.
  intros Hd. unfold same_slot. destruct (value_nan v) eqn:En; [apply orb_true_r|].
  by rewrite strict_equal_refl.
Qed.

Lemma scan_pool_Some pool i0 v i :
  scan_pool pool i0 v = Some i →
  ∃ j w, i = i0 + Z.of_nat j ∧ pool !! j = Some w ∧ same_slot w v = true
    ∧ ∀ k w', (k < j)%nat → pool !! k = Some w' → same_slot w' v = false.
Proof.
  revert i0. induction pool as [|w pool IH]; intros i0 H; [done|]. cbn [scan_pool] in H.
  change (strict_equal w v || (value_nan v && value_nan w)) with (same_slot w v) in H.
  destruct (same_slot w v) eqn:E.
  - injection H as <-. exists 0%nat, w. split_and!; [lia|done|done|lia].
  - apply IH in H as (j & w' & -> & Hj & Hs & Hmin). exists (S j), w'. split_and!; [lia|done|done|].
    intros [|k] w'' Hk Hw; simpl in Hw; [by simplify_eq|]. apply (Hmin k); [lia|done].
Qed.

Lemma scan_pool_None pool i0 v :
  scan_pool pool i0 v = None → ∀ w, w ∈ pool → same_slot w v = false.
Proof.
  revert i0. induction pool as [|w pool IH]; intros i0 H x Hx; [by apply not_elem_of_nil in Hx|].
  cbn [scan_pool] in H.
  change (strict_equal w v || (value_nan v && value_nan w)) with (same_slot w v) in H.
  destruct (same_slot w v) eqn:E; [done|]. apply elem_of_cons in Hx as [->|Hx]; [done|by eapply IH].
Qed.

(** No two slots hold the same primitive. *)
Definition pool_unique (pool : list JSValue) : Prop :=
  ∀ j k v w, (j < k)%nat → pool !! j = Some v → pool !! k = Some w →
    isDedupablePrimitive w = true → same_slot v w = false.

(** * Properties *)

(** C24: the disassembler decodes exactly what the encoder wrote.  A program that
    the encoder accepts, with opcodes used with the method for their form, is
    listed by [disassemble]'s loop instruction by instruction, each at its position,
    with the operands that were emitted, narrow or wide. *)
Theorem disassemble_emitted nt pool il e :
  Forall opcode_ok il → emit_all il new_encoder = Ok e →
  disassemble_loop nt (S (length (code e))) (code e) pool 0 []
  = Ok ((λ d, instr_line nt d pool) <$> listing 0 il, false).
Proof.
  intros Hop He. pose proof (emit_all_inv _ _ _ He) as Hops.
  rewrite emit_all_ok in He by done. injection He as <-.
  apply (disassemble_listing nt pool il [] _ []); [done|done|simpl; lia].
Qed.

Lemma disassemble_emitted_witness :
  ∃ e, emit_all [IConst Op.LdaConst 5000; IReg Op.Add 3; IJumpTo Op.Jump 0] new_encoder = Ok e ∧
    disassemble_loop js_num (S (length (code e))) (code e) [] 0 []
    = Ok ((λ d, instr_line js_num d []) <$>
          listing 0 [IConst Op.LdaConst 5000; IReg Op.Add 3; IJumpTo Op.Jump 0], false).
Proof.
  eexists. split; [reflexivity|].
  apply (disassemble_emitted js_num [] [IConst Op.LdaConst 5000; IReg Op.Add 3; IJumpTo Op.Jump 0]).
  - repeat constructor.
  - reflexivity.
Defined.

(** An operand that does not fit its packed field is refused.  Emitting an
    instruction throws exactly when one of its packed operands lies outside
    0..4095; otherwise it appends the instruction's words and nothing else. *)
Theorem emit_checks_operands i e :
  (operands_ok i → emit_insn i e = Ok (append_words (insn_words i) e)) ∧
  (¬ operands_ok i → ∃ msg, emit_insn i e = throw EError msg).
Proof. split; [apply emit_insn_ok|apply emit_insn_bad]. Qed.

Lemma emit_checks_operands_witness :
  emit_insn (IReg Op.Star 4095) new_encoder = Ok (append_words [packWord Op.Star 4095 0] new_encoder) ∧
  ∃ msg, emit_insn (IReg Op.Star 4096) new_encoder = throw EError msg.
Proof.
  split.
  - apply (proj1 (emit_checks_operands (IReg Op.Star 4095) new_encoder)). simpl. unfold operand_ok. lia.
  - apply (proj2 (emit_checks_operands (IReg Op.Star 4096) new_encoder)). simpl. unfold operand_ok. lia.
Defined.

(** The disassembler's defensive exit is never taken and its loop ends, on any
    code whatever: every decode moves the program counter on. *)
Theorem disassemble_total nt meta :
  (∀ lines, ∃ out, disassemble_loop nt (S (length (fm_code meta))) (fm_code meta)
                     (fm_consts meta) 0 lines = Ok (out, false)) ∧
  ∃ text, disassemble nt meta = Ok text.
Proof.
  assert (∀ lines, ∃ out, disassemble_loop nt (S (length (fm_code meta))) (fm_code meta)
                     (fm_consts meta) 0 lines = Ok (out, false)) as H
    by (intros lines; apply disassemble_loop_total; lia).
  split; [done|]. unfold disassemble. cbv zeta.
  match goal with |- context [disassemble_loop _ _ _ _ _ ?l] => destruct (H l) as [out ->] end.
  csimpl. eauto.
Qed.

(** Interning returns a slot that holds the value (up to [===], and NaN), keeps
    every slot that is already there, and never adds a primitive twice. *)
Theorem internConst_correct v e :
  let '(i, e') := internConst v e in
  (∃ w, 0 ≤ i ∧ consts e' !! Z.to_nat i = Some w ∧ (w = v ∨ same_slot w v = true)) ∧
  consts e `prefix_of` consts e' ∧ code e' = code e ∧ exn e' = exn e ∧
  (pool_unique (consts e) → pool_unique (consts e')).
Proof.
  unfold internConst.
  destruct (if isDedupablePrimitive v then _ else None) as [i|] eqn:E.
  - destruct (isDedupablePrimitive v); [|done].
    apply scan_pool_Some in E as (j & w & -> & Hj & Hs & _).
    split_and!; try done. exists w. rewrite Z.add_0_l, Nat2Z.id. split_and!; [lia|done|by right].
  - cbn [consts code exn]. split_and!; try done; [|by apply prefix_app_r|].
    + exists v. rewrite Nat2Z.id. split_and!; [lia|by apply list_lookup_middle|by left].
    + intros Hu j k x y Hjk Hj Hk Hd.
      destruct (decide (k < length (consts e))%nat) as [Hlt|Hge].
      * rewrite lookup_app_l in Hj, Hk by lia. by eapply (Hu j k).
      * apply lookup_lt_Some in Hk as Hk'. rewrite length_app in Hk'. simpl in Hk'.
        assert (k = length (consts e)) as -> by lia.
        rewrite list_lookup_middle in Hk by done. injection Hk as <-.
        rewrite lookup_app_l in Hj by lia. rewrite Hd in E.
        eapply scan_pool_None; [exact E|]. by eapply list_elem_of_lookup_2.
Qed.

(** a patched forward jump is the jump to its target.  Emitting a jump with a
    placeholder, then any words, then patching the slot that was returned gives the
    code of the jump with the target known from the start. *)
Theorem emitJump_patch op target ws e :
  let '(slot, e') := emitJump op e in
  patch slot target (append_words ws e') = append_words ws (emitJumpTo op target e).
Proof.
  unfold emitJump, emitJumpTo. rewrite !push_push. unfold patch, append_words, here, push_code.
  cbn [code consts exn]. f_equal. rewrite Nat2Z.id.
  replace ((code e ++ [packWord (op .| WIDE_FLAG) 0 0; 0]) ++ ws)
    with ((code e ++ [packWord (op .| WIDE_FLAG) 0 0]) ++ 0 :: ws) by (by rewrite <- !app_assoc).
  rewrite <- (Nat.add_0_r (length (code e ++ _))), insert_app_r. simpl. by rewrite <- !app_assoc.
Qed.

(** The words of an instruction other than the target of a jump. *)
Definition fixed_words (i : insn) : list Z :=
  match i with IJumpTo op _ => [packWord (op .| WIDE_FLAG) 0 0] | _ => insn_words i end.

Definition retarget (marker target : Z) (i : insn) : insn :=
  match i with IJumpTo op t => IJumpTo op (if t =? marker then target else t) | _ => i end.

(** Patching a marker retargets the jumps that carry it and nothing else, when
    no other word of the code equals the marker. *)
Theorem patchTargetMarker_correct marker target il e :
  emit_all il new_encoder = Ok e → Forall (λ i, marker ∉ fixed_words i) il →
  emit_all (retarget marker target <$> il) new_encoder = Ok (patchTargetMarker marker target e).
Proof.
  intros He Hm. pose proof (emit_all_inv _ _ _ He) as Hops.
  rewrite emit_all_ok in He by done. injection He as <-.
  rewrite emit_all_ok.
  2:{ apply Forall_fmap. eapply Forall_impl; [exact Hops|]. by intros []. }
  unfold append_words, patchTargetMarker. cbn. do 2 f_equal. clear Hops.
  assert (∀ ws : list Z, marker ∉ ws → (λ w, if w =? marker then target else w) <$> ws = ws) as Hid.
  { induction ws as [|w ws IH]; [done|]. intros [Hw Hws]%not_elem_of_cons. csimpl.
    rewrite IH by done. destruct (Z.eqb_spec w marker); [congruence|done]. }
  induction Hm as [|i il Hi Hm IH]; [done|]. csimpl. rewrite fmap_app, <- IH. f_equal.
  destruct i; simpl retarget; try (symmetry; by apply Hid).
  simpl in *. apply not_elem_of_cons in Hi as [Hw _].
  destruct (Z.eqb_spec (packWord (op .| WIDE_FLAG) 0 0) marker); [congruence|done].
Qed.

Lemma patchTargetMarker_correct_witness :
  ∃ e, emit_all [IJumpTo Op.Jump 1700000000; I0 Op.Return] new_encoder = Ok e ∧
    emit_all [IJumpTo Op.Jump 2; I0 Op.Return] new_encoder = Ok (patchTargetMarker 1700000000 2 e).
Proof.
  eexists. split; [reflexivity|].
  apply (patchTargetMarker_correct 1700000000 2 [IJumpTo Op.Jump 1700000000; I0 Op.Return]);
    [reflexivity|].
  repeat constructor; vm_compute; intros H; apply list_elem_of_singleton in H; discriminate H.
Defined.
