(* ===== verification/SourceMap.v ===== *)
(** Source maps, [src/emit/sourcemap.ts]: the Base64 VLQ codec, the decoder of
    the mappings text and [generateSourceMap].

    The sort of the entries is a stable insertion sort, which is what
    [Array.prototype.sort] computes for the comparison of offsets. *)

From Stdlib Require Import Sorting.Sorted.
From S2P Require Import Prelude.

Record SourcePos := mkPos { sp_file : jsstr; sp_line : Z; sp_column : Z }.
Record SourceMapEntry := mkEntry { sm_wasmOffset : Z; sm_sourcePos : SourcePos }.

Record SourceMapV3 := mkMap {
  map_version : Z;
  map_sources : list jsstr;
  map_sourcesContent : list (option jsstr);
  map_names : list jsstr;
  map_mappings : jsstr;
}.

(** * Base64 VLQ *)

Definition BASE64_CHARS : jsstr :=
  js "ABCDEFGHIJKLMNOPQRSTUVWXYZabcdefghijklmnopqrstuvwxyz0123456789+/".

(** [BASE64_CHARS[digit]]; the digits are below 64. *)
Definition base64_char (digit : Z) : Z :=
  match BASE64_CHARS !! Z.to_nat digit with Some c => c | None => 0 end.

(** [BASE64_CHARS.indexOf(char)] *)
Fixpoint index_of (c : Z) (s : jsstr) (i : Z) : Z :=
  match s with
  | [] => -1
  | x :: s' => if x =? c then i else index_of c s' (i + 1)
  end.

Fixpoint encodeVLQ_loop (fuel : nat) (vlq : Z) (encoded : jsstr) : result jsstr :=
  match fuel with
  | O => Err OutOfFuel
  | S f =>
      let digit := vlq .& 0x1f in
      let vlq := vlq .>>> 5 in
      let digit := if 0 <? vlq then digit .| 0x20 else digit in
      let encoded := encoded ++ [base64_char digit] in
      if 0 <? vlq then encodeVLQ_loop f vlq encoded else Ok encoded
  end.

(** Seven digits of five bits hold the 32 bits of [vlq]. *)
Definition encodeVLQ (value : Z) : result jsstr :=
  let vlq := if value <? 0 then (- value .<< 1) .| 1 else value .<< 1 in
  encodeVLQ_loop 7 vlq [].

(** The [while] loop, on the characters that are left; it returns the bits read
    and the rest of the text. *)
Fixpoint decodeVLQ_loop (encoded : jsstr) (vlq shift : Z) (continuation : bool)
  : result (Z * jsstr) :=
  match encoded with
  | c :: rest =>
      if continuation then
        let digit := index_of c BASE64_CHARS 0 in
        if digit =? -1 then throw EError (js "Invalid VLQ character: " ++ [c])
        else decodeVLQ_loop rest (vlq .| ((digit .& 0x1f) .<< shift)) (shift + 5)
               (negb (digit .& 0x20 =? 0))
      else Ok (vlq, encoded)
  | [] => Ok (vlq, [])
  end.

Definition decodeVLQ (encoded : jsstr) : result (Z * jsstr) :=
  r ← decodeVLQ_loop encoded 0 0 true;
  let isNegative := r.1 .& 1 =? 1 in
  let value := r.1 .>>> 1 in
  Ok (if isNegative then - value else value, r.2).

(** * Mappings *)

Definition semicolon : Z := 59.
Definition comma : Z := 44.

(** [while (remaining.length > 0)]; every turn consumes a character. *)
Fixpoint decode_segment (fuel : nat) (remaining : jsstr) (values : list Z) : result (list Z) :=
  match remaining with
  | [] => Ok values
  | _ =>
      match fuel with
      | O => Err OutOfFuel
      | S f =>
          r ← decodeVLQ remaining;
          decode_segment f r.2 (values ++ [r.1])
      end
  end.

Definition decode_part (part : jsstr) (segments : list (list Z)) : result (list (list Z)) :=
  values ← decode_segment (length part) part [];
  Ok (if bool_decide (0 < length values)%nat then segments ++ [values] else segments).

Definition decode_line (line : jsstr) (groups : list (list (list Z)))
  : result (list (list (list Z))) :=
  segments ← (if bool_decide (0 < length line)%nat
              then for_each (split_on comma line) decode_part [] else Ok []);
  Ok (groups ++ [segments]).

Definition decodeMappings (mappings : jsstr) : result (list (list (list Z))) :=
  for_each (split_on semicolon mappings) decode_line [].

(** * Generation *)

Fixpoint insert_entry (e : SourceMapEntry) (l : list SourceMapEntry) : list SourceMapEntry :=
  match l with
  | [] => [e]
  | x :: l' => if sm_wasmOffset e <? sm_wasmOffset x then e :: l else x :: insert_entry e l'
  end.

(** [[...entries].sort((a, b) => a.wasmOffset - b.wasmOffset)] *)
Definition sort_entries (l : list SourceMapEntry) : list SourceMapEntry :=
  foldl (λ acc e, insert_entry e acc) [] l.

(** The sources and their indices, in the order of first use. *)
Definition add_source (st : jsmap jsstr Z * list jsstr) (e : SourceMapEntry)
  : jsmap jsstr Z * list jsstr :=
  let '(sourceIndex, sources) := st in
  let file := sp_file (sm_sourcePos e) in
  if jm_has sourceIndex file then st
  else (jm_set sourceIndex file (Z.of_nat (length sources)), sources ++ [file]).

Definition build_sources (sorted : list SourceMapEntry) : jsmap jsstr Z * list jsstr :=
  foldl add_source ([], []) sorted.

Record deltas := mkDeltas {
  prevWasmOffset : Z; prevSourceIdx : Z; prevSourceLine : Z; prevSourceCol : Z }.

(** One turn of the segment loop.  Every file of the entries has an index, so
    the [None] branch is never taken. *)
Definition add_segment (sourceIndex : jsmap jsstr Z) (e : SourceMapEntry)
    (st : deltas * list jsstr) : result (deltas * list jsstr) :=
  let '(prev, segments) := st in
  match jm_get sourceIndex (sp_file (sm_sourcePos e)) with
  | None => Err OutOfFuel
  | Some srcIdx =>
      let wasmDelta := sm_wasmOffset e - prevWasmOffset prev in
      let srcIdxDelta := srcIdx - prevSourceIdx prev in
      let lineDelta := sp_line (sm_sourcePos e) - prevSourceLine prev in
      let colDelta := sp_column (sm_sourcePos e) - prevSourceCol prev in
      s1 ← encodeVLQ wasmDelta;
      s2 ← encodeVLQ srcIdxDelta;
      s3 ← encodeVLQ lineDelta;
      s4 ← encodeVLQ colDelta;
      Ok (mkDeltas (sm_wasmOffset e) srcIdx (sp_line (sm_sourcePos e)) (sp_column (sm_sourcePos e)),
          segments ++ [s1 ++ s2 ++ s3 ++ s4])
  end.

Definition generateSourceMap (entries : list SourceMapEntry)
    (sourcesContent : option (jsmap jsstr jsstr)) : result SourceMapV3 :=
  if bool_decide (length entries = 0)%nat then Ok (mkMap 3 [] [] [] [])
  else
    let sorted := sort_entries entries in
    let '(sourceIndex, sources) := build_sources sorted in
    let contentArray :=
      (λ s, match sourcesContent with Some m => jm_get m s | None => None end) <$> sources in
    r ← for_each sorted (add_segment sourceIndex) (mkDeltas 0 0 0 0, []);
    Ok (mkMap 3 sources contentArray [] (join_with [comma] r.2)).

(** * The VLQ codec *)

(** The Base64 digits of a number: five bits each, the continuation bit 32 on
    all but the last. *)
Fixpoint vlq_digits (n : nat) (v : Z) : list Z :=
  match n with
  | O => []
  | S n' => if v <? 32 then [v] else (v mod 32 + 32) :: vlq_digits n' (v / 32)
  end.

Lemma index_of_lookup c s i :
  0 ≤ i → index_of c s i = -1 ∨ (∃ j, index_of c s i = i + Z.of_nat j ∧ s !! j = Some c).
Proof.
  revert i. induction s as [|x s IH]; intros i Hi; simpl; [by left|].
  destruct (Z.eqb_spec x c) as [->|Hne].
  - right. exists 0%nat. split; [lia|done].
  - destruct (IH (i + 1)) as [->|(j & -> & Hj)]; [lia|by left|]. right. exists (S j).
    split; [lia|done].
Qed.

Lemma base64_inverse d : 0 ≤ d < 64 → index_of (base64_char d) BASE64_CHARS 0 = d.
Proof.
  intros Hd. assert (∀ n, (n < 64)%nat →
    index_of (base64_char (Z.of_nat n)) BASE64_CHARS 0 = Z.of_nat n) as H.
  { assert (forallb (λ n, index_of (base64_char (Z.of_nat n)) BASE64_CHARS 0 =? Z.of_nat n)
      (seq 0 64) = true) as Hall by (vm_compute; reflexivity).
    intros n Hn. apply Z.eqb_eq. rewrite forallb_forall in Hall. apply Hall.
    apply in_seq. lia. }
  specialize (H (Z.to_nat d)). rewrite Z2Nat.id in H by lia. apply H. lia.
Qed.

(** None of the digits' characters separates segments. *)
Lemma base64_no_separator d : 0 ≤ d < 64 → base64_char d ≠ comma ∧ base64_char d ≠ semicolon.
Proof.
  intros Hd. assert (forallb (λ c, negb (c =? comma) && negb (c =? semicolon)) BASE64_CHARS = true)
    as Hall by (vm_compute; reflexivity).
  unfold base64_char. destruct (lookup_lt_is_Some_2 BASE64_CHARS (Z.to_nat d)) as [c Hc].
  { change (length BASE64_CHARS) with 64%nat. lia. }
  rewrite Hc. rewrite forallb_forall in Hall. apply list_elem_of_lookup_2, list_elem_of_In, Hall in Hc.
  apply andb_true_iff in Hc as [H1%negb_true_iff%Z.eqb_neq H2%negb_true_iff%Z.eqb_neq]. done.
Qed.

Lemma encodeVLQ_loop_spec fuel v out :
  (0 < fuel)%nat → 0 ≤ v < 2 ^ 32 → v < 2 ^ (5 * Z.of_nat fuel) →
  ∀ w, w .& 0x1f = v mod 32 → w .>>> 5 = v / 32 →
  encodeVLQ_loop fuel w out = Ok (out ++ map base64_char (vlq_digits fuel v)).
Proof.
  revert v out. induction fuel as [|f IH]; intros v out Hp Hv Hf w Hw1 Hw2; [lia|].
  cbn [encodeVLQ_loop vlq_digits]. rewrite Hw1, Hw2. pose proof (Z.mod_pos_bound v 32 ltac:(lia)).
  destruct (Z.ltb_spec v 32) as [Hlt|Hge].
  - rewrite Z.div_small, Z.mod_small by lia. done.
  - assert (1 ≤ v / 32) by (apply Z.div_le_lower_bound; lia).
    destruct (Z.ltb_spec 0 (v / 32)); [|lia].
    rewrite js_or_20 by lia. assert (v / 32 < 2 ^ (5 * Z.of_nat f)) as Hb.
    { apply Z.div_lt_upper_bound; [lia|].
      replace (5 * Z.of_nat (S f)) with (5 + 5 * Z.of_nat f) in Hf by lia.
      rewrite Z.pow_add_r in Hf by lia. lia. }
    destruct f as [|f]; [simpl in Hb; lia|].
    assert (v / 32 < 2 ^ 32) by (apply Z.div_lt_upper_bound; lia).
    rewrite (IH (v / 32)); [by rewrite <- app_assoc|lia|lia|done| |].
    + apply (js_and_mask (v / 32) 5). lia.
    + apply (js_shru_spec (v / 32) 5); lia.
Qed.

(** The unsigned number that the text spells: the sign in the lowest bit. *)
Definition vlq_of (v : Z) : Z := if v <? 0 then 2 * - v + 1 else 2 * v.

Definition vlq_range (v : Z) : Prop := - 2 ^ 31 < v < 2 ^ 31.

Lemma vlq_of_range v : vlq_range v → 0 ≤ vlq_of v < 2 ^ 32.
Proof. unfold vlq_range, vlq_of. destruct (Z.ltb_spec v 0); lia. Qed.

(** The word [encodeVLQ] starts from is that number modulo 2^32. *)
Lemma vlq_word v : vlq_range v →
  to_uint32 (if v <? 0 then (- v .<< 1) .| 1 else v .<< 1) = vlq_of v.
Proof.
  intros Hv. pose proof (vlq_of_range v Hv) as Hr. unfold vlq_range, vlq_of in *.
  destruct (Z.ltb_spec v 0) as [Hn|Hp].
  - unfold js_or. rewrite js_shl_spec by lia. rewrite to_int32_idemp, to_int32_lor, to_uint32_int32.
    rewrite Z.lor_comm. rewrite (lor_disjoint 1 (- v) 1) by lia.
    rewrite to_uint32_small; lia.
  - rewrite js_shl_spec, to_uint32_int32, to_uint32_small by lia. lia.
Qed.

Lemma encodeVLQ_eq v : vlq_range v → encodeVLQ v = Ok (map base64_char (vlq_digits 7 (vlq_of v))).
Proof.
  intros Hv. pose proof (vlq_of_range v Hv) as Hr. unfold encodeVLQ.
  pose proof (vlq_word v Hv) as Hw. set (w := if v <? 0 then _ else _) in *.
  apply (encodeVLQ_loop_spec 7 (vlq_of v) []); [lia|done|change (5 * Z.of_nat 7) with 35; lia| |].
  - change 0x1f with (2 ^ 5 - 1). rewrite (js_and_mask w 5) by lia. rewrite <- Hw.
    unfold to_uint32. symmetry. change (2 ^ 5) with 32.
    apply Z.mod_mod_divide. by exists (2 ^ 27).
  - unfold js_shru. rewrite Hw. change (5 mod 32) with 5. by rewrite Z.shiftr_div_pow2.
Qed.

Lemma js_and_1f v : v .& 0x1f = v mod 32.
Proof. apply (js_and_mask v 5). lia. Qed.
Lemma js_and_20 v : (v .& 0x20 =? 0) = negb (Z.testbit v 5).
Proof. apply (js_and_bit v 5). lia. Qed.

(** The value the digits spell, as the decoder accumulates it. *)
Lemma decodeVLQ_loop_spec fuel v r shift rest :
  (0 < fuel)%nat → 0 ≤ v < 2 ^ (5 * Z.of_nat fuel) → 0 ≤ shift →
  shift + 5 * Z.of_nat fuel ≤ 35 → 0 ≤ r < 2 ^ shift →
  ∃ x, decodeVLQ_loop (map base64_char (vlq_digits fuel v) ++ rest) (to_int32 r) shift true
       = Ok (x, rest) ∧ x = to_int32 (r + v * 2 ^ shift).
Proof.
  revert v r shift. induction fuel as [|f IH]; intros v r shift Hp Hv Hs Hb Hr; [lia|].
  cbn [vlq_digits]. pose proof (Z.mod_pos_bound v 32 ltac:(lia)) as Hm.
  destruct (Z.ltb_spec v 32) as [Hlt|Hge]; cbn [map app decodeVLQ_loop].
  - rewrite base64_inverse by lia. destruct (Z.eqb_spec v (-1)); [lia|].
    rewrite js_and_1f, js_and_20, negb_involutive.
    rewrite Z.mod_small by lia. rewrite js_or_shl by lia.
    replace (Z.testbit v 5) with false
      by (rewrite Z.testbit_eqb by lia; by rewrite Z.div_small by lia).
    eexists. split; [|done]. by destruct rest.
  - assert (2 ^ (shift + 5) = 2 ^ shift * 32) as Hpw by (rewrite Z.pow_add_r by lia; done).
    rewrite base64_inverse by lia. destruct (Z.eqb_spec (v mod 32 + 32) (-1)); [lia|].
    rewrite js_and_1f, js_and_20, negb_involutive.
    replace ((v mod 32 + 32) mod 32) with (v mod 32)
      by (apply (Z.mod_unique _ _ 1); lia).
    replace (Z.testbit (v mod 32 + 32) 5) with true
      by (rewrite Z.testbit_eqb by lia; by replace ((v mod 32 + 32) / 2 ^ 5) with 1
            by (apply (Z.div_unique _ _ _ (v mod 32)); lia)).
    assert (v / 32 < 2 ^ (5 * Z.of_nat f)) as Hb'.
    { apply Z.div_lt_upper_bound; [lia|].
      replace (5 * Z.of_nat (S f)) with (5 + 5 * Z.of_nat f) in Hv by lia.
      rewrite Z.pow_add_r in Hv by lia. lia. }
    assert (1 ≤ v / 32) by (apply Z.div_le_lower_bound; lia).
    destruct f as [|f]; [simpl in Hb'; lia|].
    rewrite js_or_shl by lia.
    destruct (IH (v / 32) (r + v mod 32 * 2 ^ shift) (shift + 5)) as (x & -> & ->);
      [lia|lia|lia|lia|rewrite Hpw; nia|].
    eexists. split; [done|]. f_equal. rewrite Hpw. pose proof (Z.div_mod v 32). nia.
Qed.

Lemma decode_encoded v rest : vlq_range v →
  decodeVLQ (map base64_char (vlq_digits 7 (vlq_of v)) ++ rest) = Ok (v, rest).
Proof.
  intros Hv. pose proof (vlq_of_range v Hv) as Hr. unfold decodeVLQ.
  destruct (decodeVLQ_loop_spec 7 (vlq_of v) 0 0 rest) as (x & E & ->);
    [lia|change (5 * Z.of_nat 7) with 35; lia|lia|simpl; lia|simpl; lia|].
  change (to_int32 0) with 0 in E. rewrite E. csimpl. change (2 ^ 0) with 1. rewrite Z.mul_1_r.
  assert (to_int32 (0 + vlq_of v) .& 1 = vlq_of v mod 2) as ->.
  { change 1 with (2 ^ 1 - 1). rewrite js_and_mask by lia. change (2 ^ 1) with 2.
    rewrite <- (Z.mod_mod_divide _ (2 ^ 32) 2) by (by exists (2 ^ 31)).
    rewrite to_int32_mod. apply Z.mod_mod_divide. by exists (2 ^ 31). }
  assert (to_int32 (0 + vlq_of v) .>>> 1 = vlq_of v / 2) as ->.
  { unfold js_shru. rewrite to_uint32_int32, to_uint32_small by lia.
    change (1 mod 32) with 1. by rewrite Z.shiftr_div_pow2. }
  unfold vlq_of in *. destruct (Z.ltb_spec v 0).
  - replace ((2 * - v + 1) mod 2) with 1 by (apply (Z.mod_unique _ _ (- v)); lia).
    replace ((2 * - v + 1) / 2) with (- v) by (apply (Z.div_unique _ _ _ 1); lia).
    simpl. do 2 f_equal. lia.
  - replace ((2 * v) mod 2) with 0 by (apply (Z.mod_unique _ _ v); lia).
    replace ((2 * v) / 2) with v by (apply (Z.div_unique _ _ _ 0); lia). done.
Qed.

(** * Segments *)

Definition vlq_text (v : Z) : jsstr := map base64_char (vlq_digits 7 (vlq_of v)).

Definition segment_text (vs : list Z) : jsstr := vs ≫= vlq_text.

Lemma vlq_digits_range n v : 0 ≤ v → Forall (λ d, 0 ≤ d < 64) (vlq_digits n v).
Proof.
  revert v. induction n as [|n IH]; intros v Hv; simpl; [constructor|].
  pose proof (Z.mod_pos_bound v 32 ltac:(lia)).
  destruct (Z.ltb_spec v 32); constructor; [lia|constructor|lia|]. apply IH, Z.div_pos; lia.
Qed.

Lemma vlq_text_chars v : vlq_range v → Forall (λ c, c ≠ comma ∧ c ≠ semicolon) (vlq_text v).
Proof.
  intros Hv%vlq_of_range. unfold vlq_text. apply Forall_map.
  eapply Forall_impl; [apply vlq_digits_range; lia|]. intros d Hd. by apply base64_no_separator.
Qed.

Lemma vlq_text_cons v : ∃ c l, vlq_text v = c :: l.
Proof. unfold vlq_text. cbn [vlq_digits]. destruct (_ <? 32); simpl; eauto. Qed.

Lemma segment_text_cons v vs : ∃ c l, segment_text (v :: vs) = c :: l.
Proof.
  destruct (vlq_text_cons v) as (c & l & El). exists c, (l ++ segment_text vs).
  unfold segment_text. by rewrite bind_cons, El.
Qed.

Lemma segment_text_chars vs :
  Forall vlq_range vs → Forall (λ c, c ≠ comma ∧ c ≠ semicolon) (segment_text vs).
Proof.
  induction 1 as [|v vs Hv Hvs IH]; [constructor|]. unfold segment_text in *. rewrite bind_cons.
  apply Forall_app. split; [by apply vlq_text_chars|done].
Qed.

Lemma decode_segment_text vs fuel acc :
  Forall vlq_range vs → (length (segment_text vs) ≤ fuel)%nat →
  decode_segment fuel (segment_text vs) acc = Ok (acc ++ vs).
Proof.
  intros Hvs. revert fuel acc. induction Hvs as [|v vs Hv Hvs IH]; intros fuel acc Hf.
  - cbn. destruct fuel; by rewrite app_nil_r.
  - unfold segment_text in *. rewrite bind_cons in *. rewrite length_app in Hf.
    destruct (vlq_text_cons v) as (c & l & El). rewrite El in Hf.
    destruct fuel as [|fuel]; [simpl in Hf; lia|].
    pose proof (decode_encoded v (vs ≫= vlq_text) Hv) as Hd. fold (vlq_text v) in Hd.
    rewrite El in *. cbn [app decode_segment] in *. rewrite Hd. csimpl.
    rewrite IH by (simpl in Hf; lia). by rewrite <- app_assoc.
Qed.

Lemma decode_part_text vs segs :
  Forall vlq_range vs → vs ≠ [] → decode_part (segment_text vs) segs = Ok (segs ++ [vs]).
Proof.
  intros Hvs Hne. unfold decode_part. rewrite decode_segment_text by done. csimpl.
  rewrite bool_decide_true; [done|]. destruct vs; [done|simpl; lia].
Qed.

Lemma Forall_not_elem (c : Z) s : Forall (λ x, x ≠ c) s → c ∉ s.
Proof. rewrite Forall_forall. intros H Hc. by apply (H c). Qed.

Lemma join_chars (P : Z → Prop) parts :
  P comma → Forall (Forall P) parts → Forall P (join_with [comma] parts).
Proof.
  intros Hc. induction 1 as [|p parts Hp Hps IH]; [constructor|]. destruct parts; [done|].
  change (join_with [comma] (p :: l :: parts)) with (p ++ [comma] ++ join_with [comma] (l :: parts)).
  apply Forall_app. split; [done|]. constructor; [done|done].
Qed.

Lemma decodeMappings_text segs :
  segs ≠ [] → Forall (λ vs, Forall vlq_range vs ∧ vs ≠ []) segs →
  decodeMappings (join_with [comma] (segment_text <$> segs)) = Ok [segs].
Proof.
  intros Hne Hs. set (texts := segment_text <$> segs).
  assert (Forall (Forall (λ c, c ≠ comma ∧ c ≠ semicolon)) texts) as Hch.
  { apply Forall_fmap. eapply Forall_impl; [exact Hs|]. intros vs [Hvs _]. by apply segment_text_chars. }
  assert (texts ≠ []) as Htne by (unfold texts; by destruct segs).
  unfold decodeMappings.
  assert (split_on semicolon (join_with [comma] texts) = [join_with [comma] texts]) as ->.
  { apply (split_join semicolon [join_with [comma] texts]); [done|]. constructor; [|constructor].
    apply Forall_not_elem, join_chars; [done|].
    eapply Forall_impl; [exact Hch|]. intros t Ht. eapply Forall_impl; [exact Ht|]. by intros c [_ ?]. }
  cbn [for_each]. unfold decode_line.
  assert (split_on comma (join_with [comma] texts) = texts) as ->.
  { apply split_join; [done|]. eapply Forall_impl; [exact Hch|]. intros t Ht.
    apply Forall_not_elem. eapply Forall_impl; [exact Ht|]. by intros c [? _]. }
  rewrite bool_decide_true.
  2:{ unfold texts. destruct segs as [|vs segs]; [done|]. apply Forall_cons in Hs as [[_ Hvne] _].
      destruct vs as [|v vs]; [done|]. destruct (segment_text_cons v vs) as (c & l & El).
      rewrite fmap_cons, El. destruct (segment_text <$> segs); simpl; lia. }
  assert (∀ acc, for_each texts decode_part acc = Ok (acc ++ segs)) as Hp.
  { unfold texts. clear Hch Htne Hne texts.
    induction Hs as [|vs segs [Hvs Hvne] Hs IH]; intros acc; csimpl; [by rewrite app_nil_r|].
    rewrite decode_part_text by done. csimpl. rewrite IH. by rewrite <- app_assoc. }
  by rewrite Hp.
Qed.

(** * Sources *)

Definition file_of (e : SourceMapEntry) : jsstr := sp_file (sm_sourcePos e).

(** The indices point at the files; every file seen so far has one, and no file is
    listed twice. *)
Record sources_ok (st : jsmap jsstr Z * list jsstr) (seen : list SourceMapEntry) : Prop := {
  sources_index f i : jm_get st.1 f = Some i → 0 ≤ i ∧ st.2 !! Z.to_nat i = Some f;
  sources_seen e : e ∈ seen → is_Some (jm_get st.1 (file_of e));
  sources_length : (length st.2 ≤ length seen)%nat;
  sources_listed f : f ∈ st.2 ↔ ∃ e, e ∈ seen ∧ file_of e = f;
  sources_nodup : NoDup st.2;
}.

Lemma add_source_ok st seen e : sources_ok st seen → sources_ok (add_source st e) (seen ++ [e]).
Proof.
  intros [Hi Hs Hl Hf Hn]. destruct st as [idx srcs]. simpl in *. unfold add_source. fold (file_of e).
  assert (∀ f, (∃ x, x ∈ seen ++ [e] ∧ file_of x = f) ↔ f ∈ srcs ∨ f = file_of e) as Hseen.
  { intros f. rewrite Hf. setoid_rewrite elem_of_app. setoid_rewrite list_elem_of_singleton. naive_solver. }
  unfold jm_has. destruct (jm_get idx (file_of e)) as [i|] eqn:E.
  - assert (file_of e ∈ srcs) as Hin by (apply Hi in E as [_ E]; by eapply list_elem_of_lookup_2).
    split; simpl; [done| |rewrite length_app; simpl; lia| |done].
    + intros x Hx. apply elem_of_app in Hx as [Hx|Hx]; [by apply Hs|].
      apply list_elem_of_singleton in Hx as ->. by rewrite E.
    + intros f. rewrite Hseen. naive_solver.
  - assert (file_of e ∉ srcs) as Hout.
    { intros (x & Hx & Hxe)%Hf. apply Hs in Hx. rewrite Hxe, E in Hx. by destruct Hx. }
    split; simpl.
    + intros f i. rewrite jm_get_set. case_decide as Hd.
      * intros [= <-]. subst. rewrite Nat2Z.id. split; [lia|by apply list_lookup_middle].
      * intros Hg. apply Hi in Hg as [? Hg]. split; [done|]. by apply lookup_app_l_Some.
    + intros x Hx. rewrite jm_get_set. case_decide; [done|].
      apply elem_of_app in Hx as [Hx|Hx]; [by apply Hs|].
      apply list_elem_of_singleton in Hx as ->. done.
    + rewrite !length_app. simpl. lia.
    + intros f. by rewrite elem_of_app, list_elem_of_singleton, Hseen.
    + apply NoDup_app. split_and!; [done| |apply NoDup_singleton].
      intros f Hfs ->%list_elem_of_singleton. done.
Qed.

Lemma build_sources_ok l : sources_ok (build_sources l) l.
Proof.
  unfold build_sources. induction l as [|e l IH] using rev_ind.
  - split; simpl; [done| |lia| |constructor].
    + intros e He. by apply not_elem_of_nil in He.
    + intros f. split; [intros H; by apply not_elem_of_nil in H|]. intros (e & He & _). by apply not_elem_of_nil in He.
  - rewrite foldl_app. by apply add_source_ok.
Qed.

(** * Sorting *)

Definition offset_le (a b : SourceMapEntry) : Prop := sm_wasmOffset a ≤ sm_wasmOffset b.

Lemma insert_entry_perm e l : insert_entry e l ≡ₚ e :: l.
Proof.
  induction l as [|x l IH]; simpl; [done|]. destruct (_ <? _); [done|]. rewrite IH. constructor.
Qed.

Lemma insert_entry_sorted e l : StronglySorted offset_le l → StronglySorted offset_le (insert_entry e l).
Proof.
  unfold offset_le. induction 1 as [|x l Hl IH Hx]; simpl; [repeat constructor|].
  destruct (Z.ltb_spec (sm_wasmOffset e) (sm_wasmOffset x)).
  - constructor; [by constructor|]. constructor; [lia|].
    eapply Forall_impl; [exact Hx|]. simpl. lia.
  - constructor; [done|]. rewrite insert_entry_perm. by constructor.
Qed.

Lemma sort_entries_spec l : sort_entries l ≡ₚ l ∧ StronglySorted offset_le (sort_entries l).
Proof.
  unfold sort_entries. induction l as [|e l [IHp IHs]] using rev_ind; [split; [done|constructor]|].
  rewrite foldl_app. simpl. split; [|by apply insert_entry_sorted].
  rewrite insert_entry_perm, IHp. by rewrite Permutation_app_comm.
Qed.

(** Entries of one offset keep their order. *)
Lemma insert_entry_stable o e l :
  StronglySorted offset_le l →
  filter (λ x, sm_wasmOffset x = o) (insert_entry e l)
  = filter (λ x, sm_wasmOffset x = o) l ++ filter (λ x, sm_wasmOffset x = o) [e].
Proof.
  induction 1 as [|x l Hl IH Hx]; [done|]. cbn [insert_entry].
  destruct (Z.ltb_spec (sm_wasmOffset e) (sm_wasmOffset x)) as [Hlt|Hge].
  - rewrite (filter_cons _ e (x :: l)), (filter_cons _ e []). case_decide as Ho; [|by rewrite app_nil_r].
    assert (filter (λ y, sm_wasmOffset y = o) (x :: l) = []) as ->; [|done].
    apply elem_of_nil_inv. intros y Hy. apply list_elem_of_filter in Hy as [Hy Hin].
    apply elem_of_cons in Hin as [->|Hin]; [lia|]. rewrite list.Forall_forall in Hx.
    specialize (Hx y Hin). unfold offset_le in Hx. lia.
  - rewrite !(filter_cons _ x), IH. by case_decide.
Qed.

Lemma sort_entries_stable o l :
  filter (λ x, sm_wasmOffset x = o) (sort_entries l) = filter (λ x, sm_wasmOffset x = o) l.
Proof.
  induction l as [|e l IH] using rev_ind; [done|].
  assert (sort_entries (l ++ [e]) = insert_entry e (sort_entries l)) as -> by (unfold sort_entries; by rewrite foldl_app).
  by rewrite insert_entry_stable, IH, filter_app by apply sort_entries_spec.
Qed.

(** * The generated map *)

(** The segments of the entries, as numbers. *)
Fixpoint delta_segments (idx : jsmap jsstr Z) (prev : deltas) (l : list SourceMapEntry)
  : list (list Z) :=
  match l with
  | [] => []
  | e :: l' =>
      let i := match jm_get idx (file_of e) with Some i => i | None => 0 end in
      let line := sp_line (sm_sourcePos e) in
      let col := sp_column (sm_sourcePos e) in
      [sm_wasmOffset e - prevWasmOffset prev; i - prevSourceIdx prev;
       line - prevSourceLine prev; col - prevSourceCol prev]
      :: delta_segments idx (mkDeltas (sm_wasmOffset e) i line col) l'
  end.

(** What a consumer of the map computes: the running sums of the segments. *)
Fixpoint positions (prev : deltas) (segs : list (list Z)) : option (list deltas) :=
  match segs with
  | [] => Some []
  | [w; s; l; c] :: segs' =>
      let now := mkDeltas (prevWasmOffset prev + w) (prevSourceIdx prev + s)
                   (prevSourceLine prev + l) (prevSourceCol prev + c) in
      ps ← positions now segs'; Some (now :: ps)
  | _ => None
  end.

(** Positions that fit the 31 bits of the VLQ digits. *)
Definition entry_ok (e : SourceMapEntry) : Prop :=
  0 ≤ sm_wasmOffset e < 2 ^ 31 ∧ 0 ≤ sp_line (sm_sourcePos e) < 2 ^ 31
  ∧ 0 ≤ sp_column (sm_sourcePos e) < 2 ^ 31.

Definition deltas_ok (d : deltas) : Prop :=
  0 ≤ prevWasmOffset d < 2 ^ 31 ∧ 0 ≤ prevSourceIdx d < 2 ^ 31
  ∧ 0 ≤ prevSourceLine d < 2 ^ 31 ∧ 0 ≤ prevSourceCol d < 2 ^ 31.

Section generated.
Context (idx : jsmap jsstr Z) (srcs : list jsstr) (seen : list SourceMapEntry).
Context (Hok : sources_ok (idx, srcs) seen) (Hlen : Z.of_nat (length seen) < 2 ^ 31).

Lemma entry_index e : e ∈ seen → ∃ i, jm_get idx (file_of e) = Some i ∧ 0 ≤ i < 2 ^ 31
  ∧ srcs !! Z.to_nat i = Some (file_of e).
Proof.
  intros He. destruct (sources_seen _ _ Hok e He) as [i Hi]. exists i. split; [done|].
  destruct (sources_index _ _ Hok _ _ Hi) as [Hp Hs]. split; [|done].
  pose proof (sources_length _ _ Hok). apply lookup_lt_Some in Hs. simpl in *. lia.
Qed.

Lemma delta_segments_ok prev l :
  deltas_ok prev → Forall entry_ok l → (∀ e, e ∈ l → e ∈ seen) →
  Forall (λ vs, Forall vlq_range vs ∧ vs ≠ []) (delta_segments idx prev l) ∧
  (∀ segs, ∃ d, for_each l (add_segment idx) (prev, segs)
                = Ok (d, segs ++ (segment_text <$> delta_segments idx prev l))) ∧
  ∃ ps, positions prev (delta_segments idx prev l) = Some ps ∧
    Forall2 (λ e p, prevWasmOffset p = sm_wasmOffset e
                    ∧ srcs !! Z.to_nat (prevSourceIdx p) = Some (file_of e)
                    ∧ prevSourceLine p = sp_line (sm_sourcePos e)
                    ∧ prevSourceCol p = sp_column (sm_sourcePos e)) l ps.
Proof.
  intros Hp Hl. revert prev Hp. induction Hl as [|e l He Hl IH]; intros prev Hp Hsub.
  { split_and!; [constructor|intros segs; exists prev; csimpl; by rewrite app_nil_r|].
    exists []. split; [done|constructor]. }
  destruct (entry_index e) as (i & Hi & Hir & His); [apply Hsub; left|].
  cbn [delta_segments]. rewrite Hi.
  set (now := mkDeltas (sm_wasmOffset e) i (sp_line (sm_sourcePos e)) (sp_column (sm_sourcePos e))).
  unfold entry_ok, deltas_ok in *.
  destruct (IH now) as (IH1 & IH2 & ps & IH3 & IH4);
    [simpl; lia|intros x Hx; apply Hsub; by right|].
  assert (Forall vlq_range [sm_wasmOffset e - prevWasmOffset prev; i - prevSourceIdx prev;
       sp_line (sm_sourcePos e) - prevSourceLine prev;
       sp_column (sm_sourcePos e) - prevSourceCol prev]) as Hr.
  { unfold vlq_range. repeat (apply Forall_cons; split; [lia|]). constructor. }
  split_and!.
  - constructor; [|done]. split; [exact Hr|done].
  - intros segs. cbn [for_each].
    assert (add_segment idx e (prev, segs) = Ok (now, segs ++ [segment_text
      [sm_wasmOffset e - prevWasmOffset prev; i - prevSourceIdx prev;
       sp_line (sm_sourcePos e) - prevSourceLine prev;
       sp_column (sm_sourcePos e) - prevSourceCol prev]])) as ->.
    { unfold add_segment. change (sp_file (sm_sourcePos e)) with (file_of e). rewrite Hi.
      apply Forall_cons in Hr as [H1 Hr]. apply Forall_cons in Hr as [H2 Hr].
      apply Forall_cons in Hr as [H3 Hr]. apply Forall_cons in Hr as [H4 _].
      rewrite !encodeVLQ_eq by done. cbn [mbind result_bind]. do 4 f_equal.
      unfold segment_text. cbn [mbind list_bind]. by rewrite app_nil_r. }
    cbn [mbind result_bind]. edestruct IH2 as [d ->]. exists d.
    by rewrite fmap_cons, <- app_assoc.
  - exists (now :: ps). split.
    + cbn [positions]. replace (mkDeltas _ _ _ _) with now by (unfold now; f_equal; lia).
      by rewrite IH3.
    + constructor; [|done]. unfold now. simpl. done.
Qed.
End generated.

(** * Properties *)

(** The VLQ codec round-trips: for every integer strictly between -2^31 and
    2^31, decoding the encoded text gives the integer back and leaves the text that
    follows it. *)
Theorem vlq_roundtrip v rest s :
  - 2 ^ 31 < v < 2 ^ 31 → encodeVLQ v = Ok s → decodeVLQ (s ++ rest) = Ok (v, rest).
Proof. intros Hv Hs. rewrite encodeVLQ_eq in Hs by done. injection Hs as <-. by apply decode_encoded. Qed.

Lemma vlq_roundtrip_witness :
  encodeVLQ (-1234567) = Ok (js "vorrC") ∧ decodeVLQ (js "vorrC" ++ js "A") = Ok (-1234567, js "A").
Proof.
  assert (encodeVLQ (-1234567) = Ok (js "vorrC")) as E by reflexivity.
  split; [exact E|]. apply (vlq_roundtrip (-1234567) (js "A") (js "vorrC")); [lia|exact E].
Defined.

(** C25: a generated source map locates every entry.  Decoding its mappings gives one
    line of segments (as the comments in the body of generateSourceMap say; its doc
    comment and the header of the file say one line per segment) whose running sums are,
    entry by entry in offset order, the byte offset, an index of the entry's file in
    [sources], the line and the column; the order is the stable sort of the entries by
    offset, and [sources] lists each file of an entry, and no other, once, next to its
    content. *)
Theorem source_map_roundtrip entries content :
  entries ≠ [] → Forall entry_ok entries → Z.of_nat (length entries) < 2 ^ 31 →
  ∃ m segs ps, generateSourceMap entries content = Ok m ∧
    decodeMappings (map_mappings m) = Ok [segs] ∧
    positions (mkDeltas 0 0 0 0) segs = Some ps ∧
    Forall2 (λ e p, prevWasmOffset p = sm_wasmOffset e
                    ∧ map_sources m !! Z.to_nat (prevSourceIdx p) = Some (file_of e)
                    ∧ prevSourceLine p = sp_line (sm_sourcePos e)
                    ∧ prevSourceCol p = sp_column (sm_sourcePos e)) (sort_entries entries) ps ∧
    (sort_entries entries ≡ₚ entries ∧ StronglySorted offset_le (sort_entries entries) ∧
     ∀ o, filter (λ e, sm_wasmOffset e = o) (sort_entries entries) = filter (λ e, sm_wasmOffset e = o) entries) ∧
    (NoDup (map_sources m) ∧ (∀ f, f ∈ map_sources m ↔ ∃ e, e ∈ entries ∧ file_of e = f) ∧
     map_sourcesContent m = (λ f, texts ← content; jm_get texts f) <$> map_sources m).
Proof.
  intros Hne Hok Hlen. destruct (sort_entries_spec entries) as [Hperm Hsort].
  assert (sort_entries entries ≠ []) as Hsne.
  { intros E. rewrite E in Hperm. by apply Permutation_nil_l in Hperm. }
  pose proof (build_sources_ok (sort_entries entries)) as Hsrc.
  destruct (build_sources (sort_entries entries)) as [idx srcs] eqn:Eb.
  destruct (delta_segments_ok idx srcs (sort_entries entries) Hsrc) with
    (prev := mkDeltas 0 0 0 0) (l := sort_entries entries) as (Hvs & Hloop & ps & Hps & Hall).
  { by rewrite Hperm. }
  { unfold deltas_ok. simpl. lia. }
  { by rewrite Hperm. }
  { done. }
  destruct (Hloop []) as [d Hd].
  eexists _, (delta_segments idx (mkDeltas 0 0 0 0) (sort_entries entries)), ps.
  split.
  { unfold generateSourceMap. rewrite bool_decide_false by (by destruct entries).
    rewrite Eb, Hd. cbn [mbind result_bind]. reflexivity. }
  cbn [map_mappings map_sources map_sourcesContent]. split_and!; [|done|exact Hall|done|done|intros o; exact (sort_entries_stable o entries)|..].
  - simpl app. apply decodeMappings_text; [|done]. by destruct (sort_entries entries).
  - exact (sources_nodup _ _ Hsrc).
  - intros f. rewrite (sources_listed _ _ Hsrc). by setoid_rewrite Hperm.
  - apply list_fmap_ext. by destruct content.
Qed.

Lemma source_map_roundtrip_witness :
  ∃ m segs ps, generateSourceMap
      [mkEntry 9 (mkPos (js "b.ts") 4 2); mkEntry 3 (mkPos (js "a.ts") 7 0)] None = Ok m ∧
    decodeMappings (map_mappings m) = Ok [segs] ∧ positions (mkDeltas 0 0 0 0) segs = Some ps ∧
    map_sources m = [js "a.ts"; js "b.ts"].
Proof.
  destruct (source_map_roundtrip
    [mkEntry 9 (mkPos (js "b.ts") 4 2); mkEntry 3 (mkPos (js "a.ts") 7 0)] None)
    as (m & segs & ps & Hm & Hd & Hps & _).
  - discriminate.
  - repeat constructor; simpl; lia.
  - simpl. lia.
  - exists m, segs, ps. split; [exact Hm|]. split; [exact Hd|]. split; [exact Hps|].
    vm_compute in Hm. injection Hm as <-. reflexivity.
Defined.
