(* ===== verification/PositionMap.v ===== *)
(** Positions through text rewrites: src/position-map.ts.

    A stage of the front end replaces spans of its input text; a [PositionMap] holds its
    edits and, behind them, the map of the stages before it.  The map of a pipeline is
    composed from those of its stages, the last one first. *)

From stdpp Require Import sorting.
From S2P Require Import Prelude.

(** * Edits and maps *)

(** [s.slice(i, j)] *)
Definition slice_bound (n i : Z) : Z := if i <? 0 then Z.max 0 (n + i) else Z.min i n.

Definition js_slice (s : jsstr) (i j : Z) : jsstr :=
  let n := Z.of_nat (length s) in
  take (Z.to_nat (slice_bound n j - slice_bound n i)) (drop (Z.to_nat (slice_bound n i)) s).

Section map.
Context {Origin : Type}.

Record OriginSpan := mkSpan { sp_start : Z; sp_end : Z; sp_origin : Origin }.

Record SourceEdit := mkEdit {
  origStart : Z; origEnd : Z; newLength : Z; compilerOrigins : option (list OriginSpan) }.

Inductive PositionMap := PMap (edits : list SourceEdit) (inner : option PositionMap).

Definition pm_edits (m : PositionMap) : list SourceEdit := let 'PMap edits _ := m in edits.
Definition pm_inner (m : PositionMap) : option PositionMap := let 'PMap _ inner := m in inner.

Definition starts_before (a b : SourceEdit) : bool := origStart a - origStart b <=? 0.

Definition newPositionMap (edits : list SourceEdit) (inner : option PositionMap) : PositionMap :=
  PMap (stable_sort starts_before edits) inner.

Definition identity : PositionMap := newPositionMap [] None.

Fixpoint isIdentity (m : PositionMap) : bool :=
  let 'PMap edits inner := m in
  (Z.of_nat (length edits) =? 0) && match inner with Some i => isIdentity i | None => true end.

(** * From output to input *)

(** What an edit adds to the length of the text. *)
Definition growth (e : SourceEdit) : Z := newLength e - (origEnd e - origStart e).

Fixpoint direct_from (edits : list SourceEdit) (delta outOffset : Z) : Z :=
  match edits with
  | [] => Z.max 0 (outOffset - delta)
  | e :: edits' =>
      let outEditStart := origStart e + delta in
      let outEditEnd := outEditStart + newLength e in
      if outOffset <? outEditStart then Z.max 0 (outOffset - delta)
      else if outOffset <? outEditEnd then origStart e
      else direct_from edits' (delta + growth e) outOffset
  end.

Definition toDirectInputOffset (m : PositionMap) (outOffset : Z) : Z := direct_from (pm_edits m) 0 outOffset.

Fixpoint toInputOffset (m : PositionMap) (outOffset : Z) : Z :=
  let direct := toDirectInputOffset m outOffset in
  match m with PMap _ (Some inner) => toInputOffset inner direct | PMap _ None => direct end.

Fixpoint compose (this inner : PositionMap) : PositionMap :=
  if isIdentity inner then this
  else if isIdentity this then inner
  else match this with
       | PMap edits (Some own) => newPositionMap edits (Some (compose own inner))
       | PMap edits None => newPositionMap edits (Some inner)
       end.

(** * Provenance *)

Definition isSafeInteger (z : Z) : bool := (- (2 ^ 53 - 1) <=? z) && (z <=? 2 ^ 53 - 1).

Definition narrower (a b : OriginSpan) : bool := sp_end a - sp_start a - (sp_end b - sp_start b) <=? 0.

(** The narrowest span of an edit that holds an offset of its replacement text. *)
Definition tagged (e : SourceEdit) (relative : Z) : option OriginSpan :=
  spans ← compilerOrigins e;
  head (stable_sort narrower (filter (λ s, sp_start s ≤ relative < sp_end s) spans)).

(** [answer e relative] is the answer for an offset in the replacement text of [e]. *)
Fixpoint provenance_from {A} (answer : SourceEdit → Z → A) (rest : A) (edits : list SourceEdit) (delta outOffset : Z) : A :=
  match edits with
  | [] => rest
  | e :: edits' =>
      let outEditStart := origStart e + delta in
      let outEditEnd := outEditStart + newLength e in
      if outOffset <? outEditStart then rest
      else if outOffset <? outEditEnd then answer e (outOffset - outEditStart)
      else provenance_from answer rest edits' (delta + growth e) outOffset
  end.

Fixpoint compilerOriginAtOutputOffset (m : PositionMap) (outOffset : Z) : option Origin :=
  if negb (isSafeInteger outOffset) || (outOffset <? 0) then None
  else
    let deeper p := match m with PMap _ (Some inner) => compilerOriginAtOutputOffset inner p | PMap _ None => None end in
    provenance_from
      (λ e relative,
         match tagged e relative with
         | Some s => Some (sp_origin s)
         | None => if origStart e =? origEnd e then None else deeper (origStart e)
         end)
      (deeper (toDirectInputOffset m outOffset)) (pm_edits m) 0 outOffset.
End map.
Arguments OriginSpan : clear implicits.
Arguments SourceEdit : clear implicits.
Arguments PositionMap : clear implicits.

(** * Capturing a stage *)

(** The producers that the code accepts at run time. *)
Definition producers : list jsstr :=
  [js "define"; js "stdin-prelude"; js "iterator-prelude"; js "listformat-prelude"; js "cjs-rewrite"; js "eval-super-rewrite";
   js "imports"].

Inductive EditKind := GeneratedInsertion | Replacement.

Record TextEdit := mkTextEdit { te_start : Z; te_end : Z; te_removed : jsstr; te_inserted : jsstr; te_kind : EditKind }.

Record TextStage := mkStage { ts_producer : jsstr; ts_inputText : jsstr; ts_outputText : jsstr; ts_edits : list TextEdit }.

Record capture_state := mkCapture { c_edits : list TextEdit; c_cursor : Z; c_delta : Z; c_replay : jsstr }.

Section capture.
Context {Origin : Type} (inputText outputText : jsstr).

Definition text_length (s : jsstr) : Z := Z.of_nat (length s).

Definition valid_edit (cursor : Z) (e : SourceEdit Origin) : bool :=
  forallb isSafeInteger [origStart e; origEnd e; newLength e] &&
  negb ((origStart e <? cursor) || (origEnd e <? origStart e) || (text_length inputText <? origEnd e) || (newLength e <? 0)).

Definition capture_edit (e : SourceEdit Origin) (s : capture_state) : result capture_state :=
  if negb (valid_edit (c_cursor s) e) then throw EError (js "source map: invalid single-stage edit")
  else
    let outputStart := origStart e + c_delta s in
    if (outputStart <? 0) || (text_length outputText <? outputStart + newLength e)
    then throw EError (js "source map: replacement lies outside actual output")
    else
      let removed := js_slice inputText (origStart e) (origEnd e) in
      let inserted := js_slice outputText outputStart (outputStart + newLength e) in
      Ok {| c_edits := c_edits s ++
              if bool_decide (removed = inserted) then []
              else [mkTextEdit (origStart e) (origEnd e) removed inserted
                      (if origStart e =? origEnd e then GeneratedInsertion else Replacement)];
            c_cursor := origEnd e; c_delta := c_delta s + growth e;
            c_replay := c_replay s ++ js_slice inputText (c_cursor s) (origStart e) ++ inserted |}.

Definition captureSourceMapStage (m : PositionMap Origin) (producer : jsstr) : result TextStage :=
  if match pm_inner m with Some i => negb (isIdentity i) | None => false end
  then throw EError (js "source map: cannot capture a composed position map")
  else if negb (bool_decide (producer ∈ producers)) then throw EError (js "source map: unknown text-stage producer")
  else
    s ← for_each (pm_edits m) capture_edit (mkCapture [] 0 0 []);
    let replay := c_replay s ++ js_slice inputText (c_cursor s) (text_length inputText) in
    if bool_decide (replay = outputText) then Ok (mkStage producer inputText outputText (c_edits s))
    else throw EError (js "source map: single-stage replay differs from actual output").
End capture.

(** * What a stage is *)

Section spec.
Context {Origin : Type}.
Implicit Types (e : SourceEdit Origin) (edits : list (SourceEdit Origin)) (m : PositionMap Origin) (ss : list (list (SourceEdit Origin) * Z)).

(** The edits replace spans of a text of length [n] behind [cursor], from left to right. *)
Fixpoint fits (n cursor : Z) edits : Prop :=
  match edits with
  | [] => cursor ≤ n
  | e :: edits' => cursor ≤ origStart e ≤ origEnd e ∧ origEnd e ≤ n ∧ 0 ≤ newLength e ∧ fits n (origEnd e) edits'
  end.

(** The rest of the output: [ins] are the replacement texts. *)
Fixpoint render (input : jsstr) (cursor : Z) edits (ins : list jsstr) : jsstr :=
  match edits, ins with
  | e :: edits', x :: ins' => js_slice input cursor (origStart e) ++ x ++ render input (origEnd e) edits' ins'
  | _, _ => js_slice input cursor (text_length input)
  end.

Definition rewrites edits (ins : list jsstr) (input output : jsstr) : Prop :=
  fits (text_length input) 0 edits ∧ Forall2 (λ e x, text_length x = newLength e) edits ins ∧ output = render input 0 edits ins.

(** Where a unit of the output comes from: an inserted one is at [k] in its replacement. *)
Inductive source := Kept (q : Z) | Inserted e (k : Z).

Definition anchor (o : source) : Z := match o with Kept q => q | Inserted e _ => origStart e end.

Fixpoint sources (n cursor : Z) edits : list source :=
  match edits with
  | [] => Kept <$> seqZ cursor (n - cursor)
  | e :: edits' => (Kept <$> seqZ cursor (origStart e - cursor)) ++ (Inserted e <$> seqZ 0 (newLength e)) ++ sources n (origEnd e) edits'
  end.

(** A pipeline of rewrites: the edits of each stage and the length of its input, the
    last stage first. *)
Abbreviation stages := (list (list (SourceEdit Origin) * Z)).

(** The position that [p] stands for in the original text, and whether every stage kept
    the unit there.  Positions behind the end of a text stay as far behind it. *)
Fixpoint follow (ss : stages) (p : Z) : Z * bool :=
  match ss with
  | [] => (p, true)
  | (edits, n) :: ss' =>
      let all := sources n 0 edits in
      match js_at all p with
      | Some (Kept q) => follow ss' q
      | Some (Inserted e _) => ((follow ss' (origStart e)).1, false)
      | None => ((follow ss' (n + (p - Z.of_nat (length all)))).1, false)
      end
  end.

(** The tag of an output unit: that of the last stage that inserted it with a tag.
    An untagged insertion has none; an untagged replacement has the tag of the start of
    the span that it replaces. *)
Fixpoint provenance (ss : stages) (p : Z) : option Origin :=
  match ss with
  | [] => None
  | (edits, n) :: ss' =>
      let all := sources n 0 edits in
      match js_at all p with
      | Some (Kept q) => provenance ss' q
      | Some (Inserted e k) =>
          match tagged e k with
          | Some s => Some (sp_origin s)
          | None => if origStart e =? origEnd e then None else provenance ss' (origStart e)
          end
      | None => provenance ss' (n + (p - Z.of_nat (length all)))
      end
  end.

(** The length that a JavaScript string can have. *)
Definition is_text (s : jsstr) : Prop := text_length s < 2 ^ 53.

(** [pipeline ms ss original output]: the stages [ss] with the maps [ms] make [output]. *)
Inductive pipeline : list (PositionMap Origin) → stages → jsstr → jsstr → Prop :=
  | pipeline_nil text : is_text text → pipeline [] [] text text
  | pipeline_stage edits ins ms ss original input output :
      is_text output → rewrites (stable_sort starts_before edits) ins input output → pipeline ms ss original input →
      pipeline (newPositionMap edits None :: ms) ((stable_sort starts_before edits, text_length input) :: ss) original output.

(** Two positions of the output, in order. *)
Definition follows_order (f : Z → Z) : Prop := ∀ p p', 0 ≤ p ≤ p' → f p ≤ f p'.

(** The edits that a capture records, and the text that they make. *)
Fixpoint recorded (input : jsstr) edits (ins : list jsstr) : list TextEdit :=
  match edits, ins with
  | e :: edits', x :: ins' =>
      let removed := js_slice input (origStart e) (origEnd e) in
      (if bool_decide (removed = x) then []
       else [mkTextEdit (origStart e) (origEnd e) removed x (if origStart e =? origEnd e then GeneratedInsertion else Replacement)]) ++
      recorded input edits' ins'
  | _, _ => []
  end.
End spec.

Fixpoint replay_edits (input : jsstr) (cursor : Z) (edits : list TextEdit) : jsstr :=
  match edits with
  | [] => js_slice input cursor (text_length input)
  | e :: edits' => js_slice input cursor (te_start e) ++ te_inserted e ++ replay_edits input (te_end e) edits'
  end.

(** * Slices *)

Lemma js_slice_in s i j : 0 ≤ i ≤ j → j ≤ text_length s → js_slice s i j = take (Z.to_nat (j - i)) (drop (Z.to_nat i) s).
Proof.
  unfold text_length, js_slice, slice_bound. intros Hi Hj.
  destruct (Z.ltb_spec i 0), (Z.ltb_spec j 0); try lia. by rewrite !Z.min_l by lia.
Qed.

Lemma js_slice_length s i j : 0 ≤ i ≤ j → j ≤ text_length s → text_length (js_slice s i j) = j - i.
Proof. intros Hi Hj. rewrite js_slice_in by done. unfold text_length in *. rewrite length_take, length_drop. lia. Qed.

Lemma js_slice_split s i j k : 0 ≤ i ≤ j → j ≤ k → k ≤ text_length s → js_slice s i k = js_slice s i j ++ js_slice s j k.
Proof.
  intros Hi Hj Hk. rewrite !js_slice_in by lia. replace (Z.to_nat (k - i)) with (Z.to_nat (j - i) + Z.to_nat (k - j))%nat by lia.
  rewrite <- take_take_drop, drop_drop. do 3 f_equal. lia.
Qed.

Lemma js_slice_at s i j k : 0 ≤ i ≤ j → j ≤ text_length s → 0 ≤ k < j - i → js_at (js_slice s i j) k = js_at s (i + k).
Proof.
  intros Hi Hj Hk. rewrite js_slice_in by done. unfold js_at. destruct (Z.ltb_spec k 0), (Z.ltb_spec (i + k) 0); try lia.
  rewrite lookup_take_lt by lia. rewrite lookup_drop. f_equal. lia.
Qed.

Lemma js_slice_middle pre x post i j : text_length pre = i → text_length x = j - i → js_slice (pre ++ x ++ post) i j = x.
Proof.
  unfold text_length. intros Hi Hj. rewrite js_slice_in; [|lia|unfold text_length; rewrite !length_app; lia].
  rewrite drop_app_length' by lia. by rewrite take_app_length' by lia.
Qed.

Lemma js_slice_nil s i : js_slice s i i = [].
Proof. unfold js_slice. by rewrite Z.sub_diag. Qed.

Lemma js_slice_all s : js_slice s 0 (text_length s) = s.
Proof.
  rewrite js_slice_in by (unfold text_length; lia). rewrite Z.sub_0_r. unfold text_length. rewrite Nat2Z.id. cbn. by rewrite take_ge.
Qed.

Lemma text_length_app s t : text_length (s ++ t) = text_length s + text_length t.
Proof. unfold text_length. rewrite length_app. lia. Qed.

(** * The reference definition of positions *)

Section positions.
Context {Origin : Type}.
Implicit Types (e : SourceEdit Origin) (edits : list (SourceEdit Origin)) (m : PositionMap Origin) (ss : list (list (SourceEdit Origin) * Z)).

Lemma fits_le n cursor edits : fits n cursor edits → cursor ≤ n.
Proof. revert cursor. induction edits as [|e edits IH]; intros cursor; cbn; [done|]. intros (H1 & H2 & H3 & H4). lia. Qed.

Lemma sources_length n cursor edits : fits n cursor edits →
  Z.of_nat (length (sources n cursor edits)) = n - cursor + foldr (λ e, Z.add (growth e)) 0 edits.
Proof.
  revert cursor. induction edits as [|e edits IH]; intros cursor; cbn [fits sources foldr].
  - intros. rewrite length_fmap, length_seqZ. lia.
  - intros (H1 & H2 & H3 & H4). rewrite !length_app, !length_fmap, !length_seqZ, !Nat2Z.inj_add, (IH _ H4). unfold growth. lia.
Qed.

Lemma seqZ_at a n i : 0 ≤ i < n → js_at (seqZ a n) i = Some (a + i).
Proof. intros Hi. apply js_at_Some. split; [lia|]. rewrite lookup_seqZ_lt by lia. f_equal. lia. Qed.

Lemma fmap_at {A B} (f : A → B) (l : list A) i : js_at (f <$> l) i = f <$> js_at l i.
Proof. unfold js_at. destruct (i <? 0); [done|]. by rewrite list_lookup_fmap. Qed.

Lemma app_at {A} (l k : list A) i : js_at (l ++ k) i = if i <? Z.of_nat (length l) then js_at l i else js_at k (i - Z.of_nat (length l)).
Proof.
  destruct (Z.ltb_spec i (Z.of_nat (length l))); [by apply js_at_app_l|].
  rewrite <- (js_at_app_r l k) by lia. f_equal. lia.
Qed.

(** The three places where a position behind an edit's start can be. *)
Lemma sources_at n cursor e edits i : fits n cursor (e :: edits) → 0 ≤ i →
  js_at (sources n cursor (e :: edits)) i =
  if i <? origStart e - cursor then Some (Kept (cursor + i))
  else if i <? origStart e - cursor + newLength e then Some (Inserted e (i - (origStart e - cursor)))
  else js_at (sources n (origEnd e) edits) (i - (origStart e - cursor + newLength e)).
Proof.
  intros (H1 & H2 & H3 & H4) Hi. cbn [sources]. rewrite !app_at, !length_fmap, !length_seqZ.
  rewrite !Z2Nat.id by lia. destruct (Z.ltb_spec i (origStart e - cursor)).
  { rewrite fmap_at, seqZ_at by lia. done. }
  destruct (Z.ltb_spec (i - (origStart e - cursor)) (newLength e)), (Z.ltb_spec i (origStart e - cursor + newLength e)); try lia.
  - rewrite fmap_at, seqZ_at by lia. done.
  - f_equal. lia.
Qed.

(** The position a source list gives to [i], also behind its end. *)
Definition place (n cursor : Z) edits (i : Z) : Z :=
  match js_at (sources n cursor edits) i with
  | Some o => anchor o
  | None => n + (i - Z.of_nat (length (sources n cursor edits)))
  end.

Lemma place_nil n cursor i : cursor ≤ n → 0 ≤ i → place n cursor [] i = cursor + i.
Proof.
  intros Hc Hi. unfold place. cbn [sources]. rewrite fmap_at, length_fmap, length_seqZ. destruct (decide (i < n - cursor)).
  - rewrite seqZ_at by lia. done.
  - destruct (js_at _ i) as [x|] eqn:E; [|cbn; lia]. apply js_at_lt in E. rewrite length_seqZ in E. lia.
Qed.

Lemma place_cons n cursor e edits i : fits n cursor (e :: edits) → 0 ≤ i →
  place n cursor (e :: edits) i =
  if i <? origStart e - cursor then cursor + i
  else if i <? origStart e - cursor + newLength e then origStart e
  else place n (origEnd e) edits (i - (origStart e - cursor + newLength e)).
Proof.
  intros Hf Hi. pose proof Hf as (H1 & H2 & H3 & H4). unfold place. rewrite sources_at by done. destruct (i <? origStart e - cursor); [done|].
  destruct (i <? origStart e - cursor + newLength e); [done|].
  destruct (js_at _ _); [done|]. rewrite (sources_length n cursor (e :: edits)), (sources_length n (origEnd e) edits) by done.
  cbn [foldr]. unfold growth. lia.
Qed.

Lemma direct_place n cursor edits delta p : fits n cursor edits → 0 ≤ cursor → cursor ≤ p - delta →
  direct_from edits delta p = place n cursor edits (p - delta - cursor).
Proof.
  revert cursor delta. induction edits as [|e edits IH]; intros cursor delta Hf Hc Hp.
  { cbn in Hf |- *. rewrite place_nil by lia. lia. }
  rewrite place_cons by (done || lia). pose proof Hf as (H1 & H2 & H3 & H4). cbn [direct_from].
  destruct (Z.ltb_spec p (origStart e + delta)), (Z.ltb_spec (p - delta - cursor) (origStart e - cursor)); try lia.
  destruct (Z.ltb_spec p (origStart e + delta + newLength e)), (Z.ltb_spec (p - delta - cursor) (origStart e - cursor + newLength e)); try lia.
  unfold growth. rewrite (IH (origEnd e)); [|done|lia..]. f_equal. lia.
Qed.

Lemma place_bounds n cursor edits i : fits n cursor edits → 0 ≤ i → cursor ≤ place n cursor edits i.
Proof.
  revert cursor i. induction edits as [|e edits IH]; intros cursor i Hf Hi.
  { rewrite place_nil by done. lia. }
  rewrite place_cons by done. pose proof Hf as (H1 & H2 & H3 & H4). repeat case_match; try lia.
  apply Z.ltb_ge in H0. specialize (IH (origEnd e) (i - (origStart e - cursor + newLength e)) H4). lia.
Qed.

Lemma place_mono n cursor edits i j : fits n cursor edits → 0 ≤ i ≤ j → place n cursor edits i ≤ place n cursor edits j.
Proof.
  revert cursor i j. induction edits as [|e edits IH]; intros cursor i j Hf Hi.
  { rewrite !place_nil by (done || lia). lia. }
  pose proof Hf as (H1 & H2 & H3 & H4). rewrite !place_cons by (done || lia).
  destruct (Z.ltb_spec j (origStart e - cursor)), (Z.ltb_spec i (origStart e - cursor)); try lia;
    destruct (Z.ltb_spec j (origStart e - cursor + newLength e)), (Z.ltb_spec i (origStart e - cursor + newLength e)); try lia.
  1,2: pose proof (place_bounds n (origEnd e) edits (j - (origStart e - cursor + newLength e)) H4); lia.
  apply IH; [done|lia].
Qed.

(** ** The text *)

Definition lengths_match e (x : jsstr) : Prop := text_length x = newLength e.

Lemma render_length input cursor edits ins : fits (text_length input) cursor edits → 0 ≤ cursor → Forall2 lengths_match edits ins →
  text_length (render input cursor edits ins) = Z.of_nat (length (sources (text_length input) cursor edits)).
Proof.
  intros Hf Hc Hl. rewrite sources_length by done. revert cursor Hf Hc. induction Hl as [|e x edits ins Hx Hl IH]; intros cursor; cbn [fits render foldr].
  - intros. rewrite js_slice_length; lia.
  - intros (H1 & H2 & H3 & H4) Hc. rewrite !text_length_app, js_slice_length, (IH _ H4) by lia. unfold lengths_match, growth in *. lia.
Qed.

(** A unit that the stage kept is the same unit. *)
Lemma render_kept input cursor edits ins i q : fits (text_length input) cursor edits → 0 ≤ cursor → Forall2 lengths_match edits ins → 0 ≤ i →
  js_at (sources (text_length input) cursor edits) i = Some (Kept q) → js_at (render input cursor edits ins) i = js_at input q.
Proof.
  intros Hf Hc Hl. revert cursor i Hf Hc. induction Hl as [|e x edits ins Hx Hl IH]; intros cursor i Hf Hc Hi.
  { cbn [sources render] in *. cbn in Hf. rewrite fmap_at. intros (y & Hy & [= ->])%fmap_Some. pose proof (js_at_lt _ _ _ Hy) as Hlt.
    rewrite length_seqZ in Hlt. rewrite seqZ_at in Hy by lia. injection Hy as <-. apply js_slice_at; lia. }
  rewrite sources_at by done. destruct Hf as (H1 & H2 & H3 & H4). cbn [render]. unfold lengths_match, text_length at 1 in Hx.
  assert (Hs : Z.of_nat (length (js_slice input cursor (origStart e))) = origStart e - cursor) by (apply js_slice_length; lia).
  rewrite !app_at, Hs, Hx. destruct (Z.ltb_spec i (origStart e - cursor)).
  { intros [= <-]. apply js_slice_at; lia. }
  destruct (Z.ltb_spec i (origStart e - cursor + newLength e)), (Z.ltb_spec (i - (origStart e - cursor)) (newLength e)); try (done || lia).
  rewrite Z.sub_add_distr. apply IH; [done|lia..].
Qed.

Lemma kept_range n cursor edits i q : fits n cursor edits → 0 ≤ cursor → 0 ≤ i → js_at (sources n cursor edits) i = Some (Kept q) → 0 ≤ q < n.
Proof.
  revert cursor i. induction edits as [|e edits IH]; intros cursor i Hf Hc Hi.
  { cbn [sources]. rewrite fmap_at. intros (y & Hy & [= ->])%fmap_Some. pose proof (js_at_lt _ _ _ Hy) as Hlt.
    rewrite length_seqZ in Hlt. rewrite seqZ_at in Hy by lia. injection Hy as <-. lia. }
  rewrite sources_at by done. pose proof (fits_le _ _ _ (proj2 (proj2 (proj2 Hf)))) as Hn. destruct Hf as (H1 & H2 & H3 & H4). repeat case_match; intros; simplify_eq.
  - apply Z.ltb_lt in H. lia.
  - apply Z.ltb_ge in H0. eapply IH; [done|lia| |done]. lia.
Qed.

(** ** Composition *)

(** Maps whose edits are sorted, as the constructor leaves them, and start in the text. *)
Definition nonneg edits : Prop := Forall (λ e, 0 ≤ origStart e) edits.

Fixpoint good (m : PositionMap Origin) : Prop :=
  let 'PMap edits inner := m in
  StronglySorted (λ x y, starts_before x y = true) edits ∧ nonneg edits ∧ match inner with Some i => good i | None => True end.

Lemma direct_nonneg edits delta p : nonneg edits → 0 ≤ direct_from edits delta p.
Proof.
  revert delta. induction edits as [|e edits IH]; intros delta Hn; cbn; [lia|]. apply Forall_cons in Hn as [He Hn]. repeat case_match; [lia..|by apply IH].
Qed.

Lemma map_tree_ind (P : PositionMap Origin → Prop) :
  (∀ edits, P (PMap edits None)) → (∀ edits inner, P inner → P (PMap edits (Some inner))) → ∀ m, P m.
Proof. intros H1 H2. fix IH 1. intros [edits [inner|]]; [apply H2, IH|apply H1]. Qed.

Lemma toDirect_nonneg m p : good m → 0 ≤ toDirectInputOffset m p.
Proof. destruct m as [edits inner]. intros (_ & Hn & _). by apply direct_nonneg. Qed.

Lemma toInput_nonneg m p : good m → 0 ≤ toInputOffset m p.
Proof.
  revert p. induction m as [edits|edits inner IH] using map_tree_ind; intros p Hm.
  - by apply (toDirect_nonneg (PMap edits None)).
  - apply IH. exact (proj2 (proj2 Hm)).
Qed.

Lemma identity_offset m p : isIdentity m = true → 0 ≤ p → toInputOffset m p = p.
Proof.
  revert p. induction m as [[|e edits]|[|e edits] inner IH] using map_tree_ind; intros p Hm Hp; cbn in Hm |- *; try done.
  - unfold toDirectInputOffset. cbn. lia.
  - unfold toDirectInputOffset. cbn. rewrite IH by (done || lia). lia.
Qed.

Lemma toInput_unfold edits inner p :
  toInputOffset (PMap edits (Some inner)) p = toInputOffset inner (toDirectInputOffset (PMap edits None) p).
Proof. done. Qed.

Lemma stable_sort_id edits : StronglySorted (λ x y, starts_before x y = true) edits → stable_sort starts_before edits = edits.
Proof.
  induction 1 as [|x l Hs IH Hx]; [done|]. cbn. unfold stable_sort in IH. rewrite IH. destruct l as [|y l]; [done|]. cbn.
  by rewrite (Forall_inv Hx).
Qed.

(** Composing is composition of functions, identities or not. *)
Lemma compose_offset m (n : PositionMap Origin) p : good m → good n → 0 ≤ p → toInputOffset (compose m n) p = toInputOffset n (toInputOffset m p).
Proof.
  revert p. induction m as [edits|edits own IH] using map_tree_ind; intros p Hm Hn Hp; cbn [compose].
  all: destruct (isIdentity n) eqn:En; [rewrite (identity_offset n); [done|done|by apply toInput_nonneg]|].
  all: destruct (isIdentity (PMap edits _)) eqn:Em; [by rewrite (identity_offset (PMap edits _))|].
  all: destruct Hm as (Hs & Hne & Hi); unfold newPositionMap; rewrite stable_sort_id, !toInput_unfold by done.
  - done.
  - apply IH; [done..|]. by apply direct_nonneg.
Qed.

Lemma compose_good m (n : PositionMap Origin) : good m → good n → good (compose m n).
Proof.
  induction m as [edits|edits own IH] using map_tree_ind; intros Hm Hn; cbn [compose].
  all: destruct (isIdentity n); [done|]; destruct (isIdentity (PMap edits _)); [done|].
  all: destruct Hm as (Hs & Hne & Hi); unfold newPositionMap; rewrite stable_sort_id by done; split_and!; try done.
  by apply IH.
Qed.

(** ** Pipelines *)

Lemma starts_sorted edits : StronglySorted (λ x y, starts_before x y = true) (stable_sort starts_before edits).
Proof. apply stable_sort_sorted; unfold starts_before; intros *; rewrite ?Z.leb_le, ?Z.leb_gt; lia. Qed.

Lemma fits_nonneg n cursor edits : fits n cursor edits → 0 ≤ cursor → nonneg edits.
Proof.
  revert cursor. induction edits as [|e edits IH]; intros cursor; cbn; [constructor|]. intros (H1 & H2 & H3 & H4) Hc.
  constructor; [lia|]. apply (IH (origEnd e)); [done|lia].
Qed.

Lemma follow_place edits n ss p : (follow ((edits, n) :: ss) p).1 = (follow ss (place n 0 edits p)).1.
Proof. cbn [follow]. unfold place. by destruct (js_at _ p) as [[]|]. Qed.

Lemma pipeline_good ms ss original output : pipeline ms ss original output → Forall good ms.
Proof.
  induction 1 as [|edits ins ms ss original input output _ (Hf & _) _ IH]; constructor; [|done]. split_and!; [apply starts_sorted| |done].
  eapply fits_nonneg; [done|lia].
Qed.

Lemma place_end input edits ins output p : rewrites edits ins input output → 0 ≤ p ≤ text_length output →
  0 ≤ place (text_length input) 0 edits p ≤ text_length input.
Proof.
  intros (Hf & Hl & ->) Hp. split; [apply place_bounds; [done|lia]|]. rewrite (render_length input 0 edits ins Hf ltac:(lia) Hl) in Hp.
  etrans; [apply (place_mono _ 0 edits p (Z.of_nat (length (sources (text_length input) 0 edits))) Hf); lia|].
  unfold place. destruct (js_at _ _) eqn:E; [apply js_at_lt in E|]; lia.
Qed.

Lemma pipeline_offsets ms ss original output p : pipeline ms ss original output → 0 ≤ p →
  foldl (λ p m, toInputOffset m p) p ms = (follow ss p).1.
Proof.
  intros Hp. revert p. induction Hp as [|edits ins ms ss original input output _ (Hf & _) _ IH]; intros p Hp; [done|].
  cbn [foldl]. rewrite follow_place, <- IH by (by apply place_bounds). f_equal.
  unfold newPositionMap. cbn [toInputOffset]. unfold toDirectInputOffset. cbn [pm_edits]. rewrite (direct_place _ 0) by (done || lia). f_equal. lia.
Qed.

Lemma pipeline_range ms ss original output p : pipeline ms ss original output → 0 ≤ p ≤ text_length output →
  0 ≤ (follow ss p).1 ≤ text_length original.
Proof.
  intros Hp. revert p. induction Hp as [|edits ins ms ss original input output _ Hr _ IH]; intros p Hp; [done|].
  rewrite follow_place. apply IH. by eapply place_end.
Qed.

Lemma pipeline_kept ms ss original output p : pipeline ms ss original output → 0 ≤ p → (follow ss p).2 = true →
  js_at output p = js_at original (follow ss p).1.
Proof.
  intros Hp. revert p. induction Hp as [|edits ins ms ss original input output _ (Hf & Hl & ->) _ IH]; intros p Hp; [done|].
  cbn [follow]. destruct (js_at _ p) as [[q|e k]|] eqn:E; [|done..]. intros Hk. rewrite <- IH; [|by eapply kept_range|done].
  apply render_kept; done || lia.
Qed.

Lemma pipeline_order ms ss original output : pipeline ms ss original output → follows_order (λ p, (follow ss p).1).
Proof.
  induction 1 as [|edits ins ms ss original input output _ (Hf & _) _ IH]; intros p p' Hp; [cbn; lia|].
  rewrite !follow_place. apply IH. split; [apply place_bounds; [done|lia]|by apply place_mono].
Qed.

Lemma fold_compose m ms p : Forall good (m :: ms) → 0 ≤ p → toInputOffset (foldl compose m ms) p = foldl (λ p m, toInputOffset m p) p (m :: ms).
Proof.
  revert m. induction ms as [|n ms IH]; intros m Hg Hp; [done|]. inversion_clear Hg as [|? ? Hm Hms]. inversion_clear Hms.
  cbn [foldl] in IH |- *. rewrite IH; [by rewrite compose_offset|constructor; [by apply compose_good|done]|done].
Qed.

Lemma fold_compose_right ms p : Forall good ms → 0 ≤ p → toInputOffset (foldr compose identity ms) p = foldl (λ p m, toInputOffset m p) p ms.
Proof.
  assert (∀ ms, Forall good ms → good (foldr compose identity ms)) as Hgood.
  { induction 1; [cbn; split_and!; by constructor|]. by apply compose_good. }
  intros Hg. revert p. induction Hg as [|m ms Hm Hms IH]; intros p Hp; [by apply identity_offset|].
  cbn [foldr foldl]. rewrite compose_offset by auto. apply IH. by apply toInput_nonneg.
Qed.

(** ** Provenance *)

(** The provenance of a map with [k] behind it. *)
Fixpoint provenance_with m (k : Z → option Origin) (outOffset : Z) : option Origin :=
  if negb (isSafeInteger outOffset) || (outOffset <? 0) then None
  else
    let deeper p := match m with PMap _ (Some inner) => provenance_with inner k p | PMap _ None => k p end in
    provenance_from
      (λ e relative,
         match tagged e relative with
         | Some s => Some (sp_origin s)
         | None => if origStart e =? origEnd e then None else deeper (origStart e)
         end)
      (deeper (toDirectInputOffset m outOffset)) (pm_edits m) 0 outOffset.

Lemma provenance_from_ext {A} (f f' : SourceEdit Origin → Z → A) rest rest' edits delta p :
  (∀ e i, f e i = f' e i) → rest = rest' → provenance_from f rest edits delta p = provenance_from f' rest' edits delta p.
Proof. intros Hf ->. revert delta. induction edits as [|e edits IH]; intros delta; cbn; [done|]. repeat case_match; done || apply IH || apply Hf. Qed.

Lemma provenance_with_ext m k k' p : (∀ p, k p = k' p) → provenance_with m k p = provenance_with m k' p.
Proof.
  intros Hk. revert p. induction m as [edits|edits inner IH] using map_tree_ind; intros p; cbn [provenance_with]; destruct (_ || _); try done.
  all: apply provenance_from_ext; [intros e i; case_match; [done|]; case_match; [done|]|]; done || apply Hk || apply IH.
Qed.

Lemma provenance_alone m p : compilerOriginAtOutputOffset m p = provenance_with m (λ _, None) p.
Proof.
  revert p. induction m as [edits|edits inner IH] using map_tree_ind; intros p; [done|]. cbn [provenance_with compilerOriginAtOutputOffset].
  destruct (_ || _); [done|]. apply provenance_from_ext; [intros e i; case_match; [done|]; case_match; [done|]|]; apply IH.
Qed.

Lemma provenance_identity m k p : isIdentity m = true → isSafeInteger p = true → 0 ≤ p → provenance_with m k p = k p.
Proof.
  intros Hm Hs Hp. induction m as [[|e edits]|[|e edits] inner IH] using map_tree_ind; cbn in Hm; try done; cbn [provenance_with].
  all: rewrite Hs; destruct (Z.ltb_spec p 0); [lia|]; cbn; unfold toDirectInputOffset; cbn; rewrite Z.sub_0_r, Z.max_r by done; auto.
Qed.

Definition unsafe (p : Z) : bool := negb (isSafeInteger p) || (p <? 0).

Definition guarded (k : Z → option Origin) : Prop := ∀ p, unsafe p = true → k p = None.

Lemma provenance_guard m k : guarded (provenance_with m k).
Proof. intros p H. unfold unsafe in H. destruct m as [edits [inner|]]; cbn [provenance_with]; by rewrite H. Qed.

Lemma identity_guarded m k p : isIdentity m = true → guarded k → provenance_with m k p = k p.
Proof.
  intros Hm Hk. destruct (unsafe p) eqn:E; [by rewrite provenance_guard, Hk|].
  apply orb_false_iff in E as [E1%negb_false_iff E2%Z.ltb_ge]. by rewrite provenance_identity.
Qed.

Lemma compose_provenance m (n : PositionMap Origin) k p : good m → guarded k →
  provenance_with (compose m n) k p = provenance_with m (provenance_with n k) p.
Proof.
  intros Hm Hk. revert p Hm. induction m as [edits|edits own IH] using map_tree_ind; intros p Hm; cbn [compose].
  all: destruct (isIdentity n) eqn:En; [apply provenance_with_ext; intros q; symmetry; by apply identity_guarded|].
  all: destruct (isIdentity (PMap edits _)) eqn:Em; [symmetry; apply identity_guarded; [done|apply provenance_guard]|].
  all: destruct Hm as (Hs & Hne & Hi); unfold newPositionMap; rewrite stable_sort_id by done; cbn [provenance_with].
  { done. }
  destruct (_ || _); [done|]. apply provenance_from_ext; [intros e i; case_match; [done|]; case_match; [done|]|]; by apply IH.
Qed.

Definition nested_provenance (ms : list (PositionMap Origin)) : Z → option Origin := foldr provenance_with (λ _, None) ms.

Lemma fold_provenance m ms p : Forall good (m :: ms) → compilerOriginAtOutputOffset (foldl compose m ms) p = nested_provenance (m :: ms) p.
Proof.
  revert m. induction ms as [|n ms IH]; intros m Hg; [apply provenance_alone|]. inversion_clear Hg as [|? ? Hm Hms]. inversion_clear Hms.
  cbn [foldl]. rewrite IH by (constructor; [by apply compose_good|done]). apply compose_provenance; [done|].
  destruct ms; [done|apply provenance_guard].
Qed.

Lemma from_sources {A} (f : SourceEdit Origin → Z → A) rest n cursor edits delta p : fits n cursor edits → cursor ≤ p - delta →
  provenance_from f rest edits delta p =
  match js_at (sources n cursor edits) (p - delta - cursor) with Some (Inserted e k) => f e k | _ => rest end.
Proof.
  revert cursor delta. induction edits as [|e edits IH]; intros cursor delta Hf Hp.
  { cbn [sources provenance_from]. rewrite fmap_at. by destruct (js_at (seqZ _ _) _). }
  rewrite sources_at by (done || lia). pose proof Hf as (H1 & H2 & H3 & H4). cbn [provenance_from].
  destruct (Z.ltb_spec p (origStart e + delta)), (Z.ltb_spec (p - delta - cursor) (origStart e - cursor)); try (done || lia).
  destruct (Z.ltb_spec p (origStart e + delta + newLength e)), (Z.ltb_spec (p - delta - cursor) (origStart e - cursor + newLength e)); try lia.
  - f_equal. lia.
  - unfold growth. rewrite (IH (origEnd e)) by (done || lia).
    by replace (p - (delta + (newLength e - (origEnd e - origStart e))) - origEnd e) with (p - delta - cursor - (origStart e - cursor + newLength e)) by lia.
Qed.

Lemma pipeline_text ms ss original output : pipeline ms ss original output → is_text output.
Proof. by destruct 1. Qed.

Lemma pipeline_provenance ms ss original output p : pipeline ms ss original output → 0 ≤ p ≤ text_length output →
  nested_provenance ms p = provenance ss p.
Proof.
  intros Hp. revert p. induction Hp as [|edits ins ms ss original input output Ht Hr Hp IH]; intros p Hpp; [done|].
  pose proof (place_end _ _ _ _ p Hr Hpp) as Hplace. destruct Hr as (Hf & Hl & ->). unfold is_text in *. cbn [nested_provenance foldr].
  change (foldr provenance_with (λ _ : Z, None) ms) with (nested_provenance ms). unfold newPositionMap. cbn [provenance_with].
  replace (negb (isSafeInteger p) || (p <? 0)) with false.
  2: { symmetry. unfold isSafeInteger. rewrite orb_false_iff, negb_false_iff, andb_true_iff, !Z.leb_le, Z.ltb_ge. lia. }
  unfold toDirectInputOffset. cbn [pm_edits]. rewrite (from_sources _ _ _ 0 _ _ _ Hf), (direct_place _ 0) by (done || lia).
  rewrite Z.sub_0_r, Z.sub_0_r. cbn [provenance].
  unfold place in *. destruct (js_at _ p) as [[q|e k]|] eqn:E; [by apply IH|..|by apply IH].
  destruct (tagged e k); [done|]. destruct (_ =? _); [done|]. by apply IH.
Qed.

(** C26: positions go back through the pipeline.  The map composed of the stages' maps,
    from either end, sends a position of the output where the stages' edits say it comes
    from: through each stage to the unit that was kept, or to the start of the span that
    an edit replaced.  It stays in the original text and keeps the order of positions, and
    a unit that every stage kept is the unit of the original text at the mapped
    position.  The tag of a position is that of the last stage that inserted it with one. *)
Theorem toInputOffset_pipeline m ms ss original output : pipeline (m :: ms) ss original output →
  let position := toInputOffset (foldl compose m ms) in
  (∀ p, 0 ≤ p ≤ text_length output →
     position p = (follow ss p).1 ∧ toInputOffset (foldr compose identity (m :: ms)) p = position p ∧
     0 ≤ position p ≤ text_length original ∧
     compilerOriginAtOutputOffset (foldl compose m ms) p = provenance ss p ∧
     ((follow ss p).2 = true → js_at output p = js_at original (position p))) ∧
  follows_order position.
Proof.
  intros Hp. pose proof (pipeline_good _ _ _ _ Hp) as Hg.
  assert (∀ p, 0 ≤ p → toInputOffset (foldl compose m ms) p = (follow ss p).1) as Hf.
  { intros p H0. rewrite fold_compose by done. by eapply pipeline_offsets. }
  split; [intros p [H0 H1]|].
  - rewrite fold_compose_right, Hf, <- (pipeline_offsets _ _ _ _ p Hp) by done. split_and!; try done.
    1,2: rewrite (pipeline_offsets _ _ _ _ p Hp) by done; by eapply pipeline_range.
    { rewrite fold_provenance by done. by eapply pipeline_provenance. }
    intros Hk. rewrite (pipeline_offsets _ _ _ _ p Hp) by done. by eapply pipeline_kept.
  - intros p p' Hpp. rewrite !Hf by lia. by eapply pipeline_order.
Qed.

(** ** Capturing *)

Lemma edit_checks input cursor e : 0 ≤ cursor → valid_edit input cursor e = true →
  cursor ≤ origStart e ≤ origEnd e ∧ origEnd e ≤ text_length input ∧ 0 ≤ newLength e.
Proof.
  unfold valid_edit. intros Hc [_ H]%andb_true_iff. rewrite negb_true_iff, !orb_false_iff, !Z.ltb_ge in H. lia.
Qed.

Lemma edit_valid input cursor e : text_length input < 2 ^ 53 → newLength e < 2 ^ 53 → 0 ≤ cursor →
  cursor ≤ origStart e ≤ origEnd e → origEnd e ≤ text_length input → 0 ≤ newLength e → valid_edit input cursor e = true.
Proof.
  intros Hi Hn Hc H1 H2 H3. unfold valid_edit, isSafeInteger. cbn. rewrite !andb_true_iff, negb_true_iff, !orb_false_iff, !Z.ltb_ge, !Z.leb_le.
  lia.
Qed.

Lemma capture_run input output edits s s' : for_each edits (capture_edit input output) s = Ok s' →
  0 ≤ c_cursor s ≤ text_length input →
  ∃ ins, fits (text_length input) (c_cursor s) edits ∧ Forall2 lengths_match edits ins ∧ c_edits s' = c_edits s ++ recorded input edits ins ∧
    c_replay s' ++ js_slice input (c_cursor s') (text_length input) = c_replay s ++ render input (c_cursor s) edits ins.
Proof.
  revert s. induction edits as [|e edits IH]; intros s; cbn [for_each].
  { intros [= ->] Hc. exists []. cbn. rewrite app_nil_r. split_and!; [lia|constructor|done..]. }
  destruct (capture_edit input output e s) as [s1|] eqn:E; [|by cbn]. cbn [mbind result_bind]. intros Hr Hc. unfold capture_edit in E.
  destruct (valid_edit input (c_cursor s) e) eqn:Ev; [cbn [negb] in E|done].
  destruct ((origStart e + c_delta s <? 0) || _) eqn:Eo; [done|]. apply orb_false_iff in Eo as [O1%Z.ltb_ge O2%Z.ltb_ge].
  injection E as <-. destruct (edit_checks _ _ _ (proj1 Hc) Ev) as (V1 & V2 & V3).
  destruct (IH _ Hr) as (ins & I1 & I2 & I3 & I4); [cbn; lia|]. cbn [c_edits c_cursor c_replay c_delta] in *.
  exists (js_slice output (origStart e + c_delta s) (origStart e + c_delta s + newLength e) :: ins). split_and!.
  - cbn. split_and!; done || lia.
  - constructor; [|done]. unfold lengths_match. rewrite js_slice_length; lia.
  - rewrite I3, <- app_assoc. done.
  - rewrite I4. cbn [render]. by rewrite <- !app_assoc.
Qed.

Lemma capture_accepts input output edits ins s : text_length input < 2 ^ 53 → text_length output < 2 ^ 53 →
  0 ≤ c_cursor s → fits (text_length input) (c_cursor s) edits → Forall2 lengths_match edits ins →
  output = c_replay s ++ render input (c_cursor s) edits ins → text_length (c_replay s) = c_cursor s + c_delta s →
  ∃ s', for_each edits (capture_edit input output) s = Ok s' ∧ c_edits s' = c_edits s ++ recorded input edits ins ∧
    c_replay s' ++ js_slice input (c_cursor s') (text_length input) = output.
Proof.
  intros Hi Ho Hc Hf Hl. revert s Hc Hf. induction Hl as [|e x edits ins Hx Hl IH]; intros s Hc Hf Hout Hd; cbn [for_each].
  { exists s. by rewrite app_nil_r. }
  destruct Hf as (H1 & H2 & H3 & H4). cbn [render] in Hout. unfold lengths_match in Hx.
  assert (Ht : text_length output = origStart e + c_delta s + newLength e + text_length (render input (origEnd e) edits ins)).
  { rewrite Hout, !text_length_app, js_slice_length, Hx by lia. lia. }
  assert (Hr : 0 ≤ text_length (render input (origEnd e) edits ins)) by (unfold text_length; lia).
  assert (0 ≤ text_length (c_replay s)) by (unfold text_length; lia).
  assert (Hs : js_slice output (origStart e + c_delta s) (origStart e + c_delta s + newLength e) = x).
  { rewrite Hout, app_assoc. apply js_slice_middle; [rewrite text_length_app, js_slice_length by lia; lia|lia]. }
  destruct (capture_edit input output e s) as [s1|f] eqn:E; unfold capture_edit in E; rewrite edit_valid in E by lia; cbn [negb] in E;
    destruct (Z.ltb_spec (origStart e + c_delta s) 0); [lia| |lia|];
    destruct (Z.ltb_spec (text_length output) (origStart e + c_delta s + newLength e)); [lia| |lia|done].
  rewrite Hs in E. injection E as <-. cbn [mbind result_bind].
  edestruct IH as (s' & S1 & S2 & S3); [| | | |exists s'; split; [exact S1|split; [|exact S3]]].
  - cbn. lia.
  - exact H4.
  - cbn. rewrite Hout. by rewrite <- !app_assoc.
  - cbn. rewrite !text_length_app, js_slice_length, Hx by lia. unfold growth. lia.
  - rewrite S2. cbn. by rewrite <- app_assoc.
Qed.

(** An edit that changes nothing is not recorded; the record still makes the output. *)
Lemma replay_recorded input cursor edits ins : fits (text_length input) cursor edits → 0 ≤ cursor → Forall2 lengths_match edits ins →
  replay_edits input cursor (recorded input edits ins) = render input cursor edits ins.
Proof.
  intros Hf Hc Hl. revert cursor Hf Hc. induction Hl as [|e x edits ins Hx Hl IH]; intros cursor Hf Hc; [done|].
  pose proof (fits_le _ _ _ (proj2 (proj2 (proj2 Hf)))) as Hn. destruct Hf as (H1 & H2 & H3 & H4). cbn [recorded render].
  case_bool_decide as E.
  - cbn [app]. rewrite <- E, app_assoc, <- js_slice_split, <- (IH (origEnd e)) by (done || lia). clear IH E.
    destruct (recorded input edits ins) as [|t ts] eqn:Er; cbn [replay_edits].
    + apply js_slice_split; lia.
    + assert (origEnd e ≤ te_start t ≤ text_length input) as Ht.
      2: { rewrite (js_slice_split _ cursor (origEnd e) (te_start t)), <- app_assoc by lia. done. }
      clear -Er Hl H4 H1 Hc. revert Er H4. generalize (origEnd e). induction Hl as [|e' x' edits ins Hx' Hl IH]; intros c Er; [done|].
      cbn [recorded] in Er. intros (F1 & F2 & F3 & F4). case_bool_decide; cbn in Er.
      * destruct (IH _ Er F4). lia.
      * injection Er as <- _. cbn. lia.
  - cbn [app replay_edits te_start te_end te_inserted]. by rewrite IH by (done || lia).
Qed.

(** C35: a capture is exact.  For a map of one stage, capturing succeeds exactly when the
    output text is the input text with each edit's span replaced by a text of the recorded
    length; then it records the removed and the inserted text of every edit that changes
    something, and replaying the record on the input gives the output.  Otherwise it
    throws. *)
Theorem captureSourceMapStage_correct m producer input output :
  (∀ i, pm_inner m = Some i → isIdentity i = true) → producer ∈ producers → is_text input → is_text output →
  match captureSourceMapStage input output m producer with
  | Ok stage =>
      ∃ ins, rewrites (pm_edits m) ins input output ∧ stage = mkStage producer input output (recorded input (pm_edits m) ins) ∧
        replay_edits input 0 (ts_edits stage) = output
  | Err f => thrown f ∧ ¬ ∃ ins, rewrites (pm_edits m) ins input output
  end.
Proof.
  intros Hm Hp Hi Ho. unfold captureSourceMapStage. replace (match pm_inner m with Some i => _ | None => _ end) with false.
  2: { destruct (pm_inner m) as [i|]; [|done]. by rewrite (Hm i). }
  rewrite (bool_decide_eq_true_2 _ Hp). cbn [negb]. set (s0 := mkCapture [] 0 0 []).
  destruct (for_each (pm_edits m) (capture_edit input output) s0) as [s|f] eqn:E; cbn [mbind result_bind].
  - destruct (capture_run _ _ _ _ _ E) as (ins & R1 & R2 & R3 & R4); [cbn; unfold text_length; lia|]. cbn in R3, R4. rewrite R4.
    case_bool_decide as Ed.
    + exists ins. split_and!; [done|by rewrite R3|]. cbn. rewrite R3. by rewrite replay_recorded by (done || lia).
    + split; [done|]. intros (ins' & Hf & Hl & Hout).
      destruct (capture_accepts input output (pm_edits m) ins' s0 Hi Ho ltac:(done) Hf Hl Hout ltac:(done)) as (s' & E' & _ & Hout').
      rewrite E in E'. injection E' as <-. by rewrite Hout' in R4.
  - split.
    + revert E. generalize s0. clear. induction (pm_edits m) as [|e edits IH]; intros s; cbn [for_each]; [done|].
      destruct (capture_edit input output e s) as [s1|f1] eqn:E1; [apply IH|]. intros [= <-]. unfold capture_edit in E1.
      destruct (negb _); [by injection E1 as <-|]. destruct (_ || _); [by injection E1 as <-|done].
    + intros (ins' & Hf & Hl & Hout).
      destruct (capture_accepts input output (pm_edits m) ins' s0 Hi Ho ltac:(done) Hf Hl Hout ltac:(done)) as (s' & E' & _).
      by rewrite E in E'.
Qed.
End positions.

(** * Witnesses *)

(** Two stages: a prelude in front, then an import replaced by a declaration. *)
Definition sample_original : jsstr := js "import y; y()".
Definition sample_middle : jsstr := js "/*shim*/import y; y()".
Definition sample_output : jsstr := js "/*shim*/declare let y; y()".

Definition sample_shim : list (SourceEdit string) := [mkEdit 0 0 8 (Some [mkSpan 0 8 "timer-shim"%string])].
Definition sample_stub : list (SourceEdit string) := [mkEdit 8 16 13 (Some [mkSpan 0 13 "import-wrapper"%string; mkSpan 8 11 "let"%string])].
Definition sample_stages : list (list (SourceEdit string) * Z) := [(sample_stub, 21); (sample_shim, 13)].

Lemma sample_pipeline : pipeline [newPositionMap sample_stub None; newPositionMap sample_shim None] sample_stages sample_original sample_output.
Proof.
  apply (pipeline_stage sample_stub [js "declare let y"] _ _ _ sample_middle); [done|vm_compute; repeat (done || constructor)|].
  apply (pipeline_stage sample_shim [js "/*shim*/"] _ _ _ sample_original); [done|vm_compute; repeat (done || constructor)|].
  by apply pipeline_nil.
Defined.

Example sample_positions :
  let m := compose (newPositionMap sample_stub None) (newPositionMap sample_shim None) in
  (toInputOffset m <$> [0; 3; 8; 20; 21; 22; 25]) = [0; 0; 0; 0; 8; 9; 12] ∧
  (compilerOriginAtOutputOffset m <$> [0; 9; 17; 22]) = [Some "timer-shim"; Some "import-wrapper"; Some "let"; None]%string.
Proof. vm_compute. done. Qed.

Lemma toInputOffset_pipeline_witness :
  let m := foldl compose (newPositionMap sample_stub None) [newPositionMap sample_shim None] in
  js_at sample_output 23 = js_at sample_original (toInputOffset m 23).
Proof.
  destruct (toInputOffset_pipeline _ _ _ _ _ sample_pipeline) as [H _]. destruct (H 23 ltac:(vm_compute; done)) as (_ & _ & _ & _ & Hk).
  by apply Hk.
Defined.

Lemma captureSourceMapStage_correct_witness :
  replay_edits sample_middle 0 [mkTextEdit 8 16 (js "import y") (js "declare let y") Replacement] = sample_output ∧
  ∃ f, captureSourceMapStage sample_middle sample_middle (newPositionMap sample_stub None) (js "imports") = Err f ∧ thrown f.
Proof.
  split.
  - pose proof (captureSourceMapStage_correct (newPositionMap sample_stub None) (js "imports") sample_middle sample_output
      ltac:(done) ltac:(apply (bool_decide_unpack _); by vm_compute) ltac:(done) ltac:(done)) as H.
    vm_compute in H. vm_compute. by destruct H as (? & _ & _ & ?).
  - exists (Throw EError (js "source map: single-stage replay differs from actual output")). done.
Defined.
