(* ===== verification/ReBytecode.v ===== *)
(** The regular-expression bytecode: src/codegen/regex/bytecode.ts (opcodes,
    the compiled program, the flags) and src/codegen/regex/match-units.ts (the
    predicates of one instruction that both matchers share). *)

From S2P Require Import Prelude.

(** * bytecode.ts *)

Module ReOp.
Definition CHAR := 0.
Definition ANY := 1.
Definition CLASS := 2.
Definition SPLIT := 3.
Definition JMP := 4.
Definition SAVE := 5.
Definition MATCH := 6.
Definition BOL := 7.
Definition EOL := 8.
Definition CHARI := 9.
Definition WBOUND := 10.
Definition BACKREF := 11.
Definition LOOKAROUND := 12.
Definition PROGRESS := 13.
Definition CLEAR := 14.
Definition CPCLASS := 15.
End ReOp.

Definition INSTR_WIDTH := 3.

Record CompiledRegex := {
  prog : list Z;
  classTable : list Z;
  nGroups : Z;
  nScratch : Z;
  flags : Z;
  groupNames : jsmap jsstr Z }.

Definition RE_FLAG_G := 1.
Definition RE_FLAG_I := 2.
Definition RE_FLAG_M := 4.
Definition RE_FLAG_S := 8.
Definition RE_FLAG_U := 16.
Definition RE_FLAG_Y := 32.
Definition RE_FLAG_D := 64.
Definition RE_FLAG_V := 128.

(** * Code points of strings *)

Definition is_lead (u : Z) : bool := (0xd800 <=? u) && (u <=? 0xdbff).
Definition is_trail (u : Z) : bool := (0xdc00 <=? u) && (u <=? 0xdfff).
Definition pair_code (lead trail : Z) : Z :=
  0x10000 + ((lead - 0xd800) .<< 10) + (trail - 0xdc00).

(** The code points that iterating over a string visits: [Array.from(s)]. *)
Fixpoint code_points (s : jsstr) : list Z :=
  match s with
  | [] => []
  | u :: s' =>
      match s' with
      | [] => [u]
      | v :: s'' => if is_lead u && is_trail v then pair_code u v :: code_points s''
                    else u :: code_points s'
      end
  end.

(** [String.fromCodePoint(cp)] *)
Definition from_code_point (cp : Z) : jsstr :=
  if cp <=? 0xffff then [cp]
  else [0xd800 + ((cp - 0x10000) .>> 10); 0xdc00 + ((cp - 0x10000) .& 0x3ff)].

(** * parseFlags *)

(** The [switch] of [parseFlags], on the code point of the flag. *)
Definition flag_bit (ch : Z) : option Z :=
  if ch =? 103 then Some RE_FLAG_G
  else if ch =? 105 then Some RE_FLAG_I
  else if ch =? 109 then Some RE_FLAG_M
  else if ch =? 115 then Some RE_FLAG_S
  else if ch =? 117 then Some RE_FLAG_U
  else if ch =? 121 then Some RE_FLAG_Y
  else if ch =? 100 then Some RE_FLAG_D
  else if ch =? 118 then Some RE_FLAG_V
  else None.

Definition parse_flag (ch : Z) (bits : Z) : result Z :=
  match flag_bit ch with
  | None => throw EUnsupported (js "unknown flag '" ++ from_code_point ch ++ js "'")
  | Some bit =>
      if negb (bits .& bit =? 0) then throw EUnsupported (js "duplicate flag '" ++ from_code_point ch ++ js "'")
      else Ok (bits .| bit)
  end.

Definition parseFlags (flags : jsstr) : result Z := for_each (code_points flags) parse_flag 0.

(** An instruction record of the flat program; [None] past its end. *)
Definition fetch (prog : list Z) (pc : Z) : option (Z * Z * Z) :=
  match js_at prog (pc * 3), js_at prog (pc * 3 + 1), js_at prog (pc * 3 + 2) with
  | Some op, Some a, Some b => Some (op, a, b)
  | _, _, _ => None
  end.

(** Capture slots [a..b] set to -1: [CLEAR]. *)
Definition clear_slots (caps : list Z) (a b : Z) : list Z :=
  foldl (λ c i, ta_set c i (-1)) caps (seqZ a (b - a + 1)).

(** [new Int32Array(n).fill(-1)] *)
Definition fresh_caps (nSlots : Z) : list Z := replicate (Z.to_nat nSlots) (-1).

(** * match-units.ts *)

(** [input.charCodeAt(i)]. Out of range it is NaN, which no comparison of the
    code accepts; here -1, which none accepts either. *)
Definition charCodeAt (input : jsstr) (i : Z) : Z :=
  match js_at input i with Some c => c | None => -1 end.

Definition len (input : jsstr) : Z := Z.of_nat (length input).

(** The binary search of [classMatch]. Comparing with [undefined] is false. *)
Fixpoint class_loop (fuel : nat) (classTable : list Z) (offset c loIndex hiIndex : Z) : bool :=
  match fuel with
  | O => false
  | S fuel' =>
      if loIndex <=? hiIndex then
        let mid := loIndex + ((hiIndex - loIndex) .>> 1) in
        let p := offset + 1 + 2 * mid in
        let below := match js_at classTable p with Some lo => c <? lo | None => false end in
        let above := match js_at classTable (p + 1) with Some hi => hi <? c | None => false end in
        if below then class_loop fuel' classTable offset c loIndex (mid - 1)
        else if above then class_loop fuel' classTable offset c (mid + 1) hiIndex
        else true
      else false
  end.

Definition classMatch (classTable : list Z) (offset c : Z) (negated : bool) : bool :=
  let inside :=
    match js_at classTable offset with
    | Some rangeCount => class_loop (S (Z.to_nat rangeCount)) classTable offset c 0 (rangeCount - 1)
    | None => false
    end in
  if negated then negb inside else inside.

Definition asciiFold (code : Z) : Z :=
  if (0x41 <=? code) && (code <=? 0x5a) then code + 0x20 else code.

Definition isLineTerminator (c : Z) : bool :=
  (c =? 0x0a) || (c =? 0x0d) || (c =? 0x2028) || (c =? 0x2029).

Definition isWordChar (c : Z) : bool :=
  ((0x30 <=? c) && (c <=? 0x39)) || ((0x41 <=? c) && (c <=? 0x5a))
  || (c =? 0x5f) || ((0x61 <=? c) && (c <=? 0x7a)).

Definition unitMatches (op a b : Z) (classTable : list Z) (c : Z) : bool :=
  if op =? ReOp.CHAR then c =? a
  else if op =? ReOp.CHARI then asciiFold c =? a
  else if op =? ReOp.ANY then negb (a =? 0) || negb (isLineTerminator c)
  else classMatch classTable a c (negb (b =? 0)).

Definition assertionHolds (op a : Z) (input : jsstr) (sp : Z) : bool :=
  if op =? ReOp.BOL then
    (sp =? 0) || (negb (a =? 0) && isLineTerminator (charCodeAt input (sp - 1)))
  else if op =? ReOp.EOL then
    (sp =? len input) || (negb (a =? 0) && isLineTerminator (charCodeAt input sp))
  else
    let before := if 0 <? sp then isWordChar (charCodeAt input (sp - 1)) else false in
    let after := if sp <? len input then isWordChar (charCodeAt input sp) else false in
    let boundary := xorb before after in
    if negb (a =? 0) then negb boundary else boundary.

Definition forwardCodePoint (input : jsstr) (sp : Z) : Z :=
  let u := charCodeAt input sp in
  if is_lead u && (sp + 1 <? len input) then
    let trail := charCodeAt input (sp + 1) in
    if is_trail trail then pair_code u trail else u
  else if is_trail u && (0 <? sp) && is_lead (charCodeAt input (sp - 1)) then -1
  else u.

(** * Class tables *)

(** Membership in a list of inclusive ranges, and the table layout. *)
Definition in_range (c : Z) (r : Z * Z) : bool := (r.1 <=? c) && (c <=? r.2).
Definition in_ranges (c : Z) (rs : list (Z * Z)) : bool := existsb (in_range c) rs.

Definition flat_ranges (rs : list (Z * Z)) : list Z := rs ≫= λ r, [r.1; r.2].
Definition class_entry (rs : list (Z * Z)) : list Z :=
  Z.of_nat (length rs) :: flat_ranges rs.

(** [classTable] holds [rs] at [offset]. *)
Definition class_at (ct : list Z) (offset : Z) (rs : list (Z * Z)) : Prop :=
  ∃ l r, ct = l ++ class_entry rs ++ r ∧ offset = Z.of_nat (length l).

(** Sorted, disjoint and not adjacent. *)
Inductive separated : list (Z * Z) → Prop :=
  | sep_nil : separated []
  | sep_cons lo hi rs :
      lo ≤ hi → Forall (λ r, hi + 1 < r.1) rs → separated rs → separated ((lo, hi) :: rs).

(** * Facts *)

Lemma length_clear_slots caps a b : length (clear_slots caps a b) = length caps.
Proof.
  unfold clear_slots. generalize (seqZ a (b - a + 1)). intros l. revert caps.
  induction l as [|i l IH]; intros caps; [done|]. cbn [foldl]. by rewrite IH, length_ta_set.
Qed.

Lemma flat_ranges_lookup rs (i : nat) r :
  rs !! i = Some r →
  flat_ranges rs !! (2 * i)%nat = Some r.1 ∧ flat_ranges rs !! (2 * i + 1)%nat = Some r.2.
Proof.
  unfold flat_ranges. revert i. induction rs as [|q rs IH]; intros i Hi; [done|].
  rewrite bind_cons. destruct i as [|i]; [by injection Hi as ->|].
  replace (2 * S i)%nat with (S (S (2 * i)))%nat by lia. simpl. apply IH. done.
Qed.

Lemma class_at_count ct offset rs :
  class_at ct offset rs → js_at ct offset = Some (Z.of_nat (length rs)).
Proof.
  intros (l & r & -> & ->). rewrite js_at_nat, lookup_app_r by lia.
  by rewrite Nat.sub_diag.
Qed.

Lemma length_flat_ranges rs : length (flat_ranges rs) = (2 * length rs)%nat.
Proof. induction rs as [|q rs IH]; [done|]. simpl in *. rewrite IH. lia. Qed.

Lemma class_at_range ct offset rs (i : nat) r :
  class_at ct offset rs → rs !! i = Some r →
  js_at ct (offset + 1 + 2 * Z.of_nat i) = Some r.1 ∧
  js_at ct (offset + 1 + 2 * Z.of_nat i + 1) = Some r.2.
Proof.
  intros (l & k & -> & ->) Hi. pose proof (lookup_lt_Some _ _ _ Hi) as Hlt.
  apply flat_ranges_lookup in Hi as [H1 H2].
  replace (Z.of_nat (length l) + 1 + 2 * Z.of_nat i)
    with (Z.of_nat (length l) + Z.of_nat (S (2 * i))) by lia.
  replace (Z.of_nat (length l) + Z.of_nat (S (2 * i)) + 1)
    with (Z.of_nat (length l) + Z.of_nat (S (2 * i + 1))) by lia.
  pose proof (length_flat_ranges rs).
  rewrite !js_at_app_r, !js_at_nat, !lookup_app_l by (cbn [class_entry length]; lia). done.
Qed.

Lemma in_ranges_elem c rs : in_ranges c rs = true ↔ ∃ r, r ∈ rs ∧ r.1 ≤ c ≤ r.2.
Proof.
  unfold in_ranges. rewrite existsb_exists. unfold in_range.
  setoid_rewrite andb_true_iff. setoid_rewrite Z.leb_le.
  split; intros (r & Hr & Hc); exists r; (split; [by apply list_elem_of_In|done]).
Qed.

Lemma in_ranges_app c rs1 rs2 : in_ranges c (rs1 ++ rs2) = in_ranges c rs1 || in_ranges c rs2.
Proof. apply existsb_app. Qed.

Lemma in_ranges_permutation c rs1 rs2 : rs1 ≡ₚ rs2 → in_ranges c rs1 = in_ranges c rs2.
Proof.
  intros Hp. apply eq_true_iff_eq. rewrite !in_ranges_elem. by setoid_rewrite Hp.
Qed.

Lemma separated_tail r rs : separated (r :: rs) → separated rs.
Proof. by inversion 1. Qed.

Lemma separated_lookup rs i j r q :
  separated rs → rs !! i = Some r → rs !! j = Some q → (i < j)%nat → r.2 + 1 < q.1.
Proof.
  intros Hs. revert i j. induction Hs as [|lo hi rs Hle Hall Hs IH]; intros i j Hi Hj Hij; [done|].
  destruct i as [|i], j as [|j]; simpl in *; try lia.
  - injection Hi as <-. eapply Forall_lookup_1 in Hall; [|exact Hj]. done.
  - eapply IH; [done..|lia].
Qed.

Lemma separated_le rs i r : separated rs → rs !! i = Some r → r.1 ≤ r.2.
Proof.
  intros Hs. revert i. induction Hs as [|lo hi rs Hle Hall Hs IH]; intros [|i] Hi; simplify_eq/=;
    [done|]. by eapply IH.
Qed.

Lemma halve d : 0 ≤ d < 2 ^ 31 → 0 ≤ d .>> 1 ≤ d.
Proof.
  intros. rewrite js_shr_spec by lia. change (2 ^ 1) with 2.
  split; [apply Z.div_pos; lia|]. apply Z.div_le_upper_bound; lia.
Qed.

(** The search over the entries [lo..hi] finds [c] when one of them holds it. *)
Lemma class_loop_spec ct offset rs c fuel lo hi :
  class_at ct offset rs → separated rs → Z.of_nat (length rs) < 2 ^ 31 →
  0 ≤ lo → hi < Z.of_nat (length rs) → (Z.to_nat (hi - lo + 1) < fuel)%nat →
  class_loop fuel ct offset c lo hi = true ↔
  ∃ (i : nat) r, lo ≤ Z.of_nat i ≤ hi ∧ rs !! i = Some r ∧ r.1 ≤ c ≤ r.2.
Proof.
  intros Hct Hs Hn. revert lo hi. induction fuel as [|fuel IH]; intros lo hi Hlo Hhi Hf; [lia|].
  cbn [class_loop]. destruct (Z.leb_spec lo hi) as [Hle|Hgt].
  2: { split; [done|]. intros (i & r & Hi & _). lia. }
  pose proof (halve (hi - lo)) as Hh. destruct Hh as [Hh1 Hh2]; [lia|].
  remember (lo + ((hi - lo) .>> 1)) as mid eqn:Em.
  destruct (lookup_lt_is_Some_2 rs (Z.to_nat mid)) as [r Hr]; [lia|].
  destruct (class_at_range ct offset rs (Z.to_nat mid) r Hct Hr) as [H1 H2].
  rewrite Z2Nat.id in H1, H2 by lia. rewrite H1, H2.
  pose proof (separated_le _ _ _ Hs Hr) as Hrle.
  destruct (Z.ltb_spec c r.1) as [Hb|Hb]; [|destruct (Z.ltb_spec r.2 c) as [Ha|Ha]].
  - rewrite IH by lia. split; intros (i & q & Hi & Hq & Hc); exists i, q; (split; [|done]).
    + lia.
    + destruct (decide (Z.of_nat i < mid)); [lia|].
      destruct (decide (i = Z.to_nat mid)) as [->|Hne]; [simplify_eq; lia|].
      pose proof (separated_lookup rs (Z.to_nat mid) i r q Hs Hr Hq). lia.
  - rewrite IH by lia. split; intros (i & q & Hi & Hq & Hc); exists i, q; (split; [|done]).
    + lia.
    + destruct (decide (mid < Z.of_nat i)); [lia|].
      destruct (decide (i = Z.to_nat mid)) as [->|Hne]; [simplify_eq; lia|].
      pose proof (separated_lookup rs i (Z.to_nat mid) q r Hs Hq Hr). lia.
  - split; [|done]. intros _. exists (Z.to_nat mid), r. split_and!; [lia..|done|lia|lia].
Qed.

(** Membership by binary search is membership in the ranges. *)
Lemma classMatch_ranges ct offset rs c negated :
  class_at ct offset rs → separated rs → Z.of_nat (length rs) < 2 ^ 31 →
  classMatch ct offset c negated = xorb negated (in_ranges c rs).
Proof.
  intros Hct Hs Hn. unfold classMatch. rewrite (class_at_count _ _ _ Hct).
  assert (class_loop (S (Z.to_nat (Z.of_nat (length rs)))) ct offset c 0 (Z.of_nat (length rs) - 1)
          = in_ranges c rs) as ->; [|by destruct negated].
  apply eq_true_iff_eq. rewrite (class_loop_spec ct offset rs) by (done || lia).
  rewrite in_ranges_elem. split.
  - intros (i & r & _ & Hr & Hc). exists r. split; [by eapply list_elem_of_lookup_2|done].
  - intros (r & [i Hr]%list_elem_of_lookup & Hc).
    pose proof (lookup_lt_Some _ _ _ Hr). exists i, r. split_and!; [lia..|done|lia|lia].
Qed.

Lemma flag_bit_pow ch b : flag_bit ch = Some b → ∃ k, 0 ≤ k < 8 ∧ b = 2 ^ k.
Proof.
  unfold flag_bit. intros H. repeat case_match; simplify_eq;
    [exists 0|exists 1|exists 2|exists 3|exists 4|exists 5|exists 6|exists 7]; done.
Qed.

Lemma flag_bit_inj ch ch' b : flag_bit ch = Some b → flag_bit ch' = Some b → ch = ch'.
Proof.
  unfold flag_bit. intros Hb Hb'. repeat case_match; simplify_eq; try discriminate;
    repeat match goal with H : (_ =? _) = true |- _ => apply Z.eqb_eq in H end; congruence.
Qed.

Lemma flag_test b bits k :
  0 ≤ k < 8 → b = 2 ^ k → negb (bits .& b =? 0) = Z.testbit bits k.
Proof. intros Hk ->. rewrite js_and_bit by lia. apply negb_involutive. Qed.

(** The state of the loop: the bits are those of the flags read so far. *)
Definition flags_read (done : jsstr) (bits : Z) : Prop :=
  NoDup done ∧ Forall (λ ch, is_Some (flag_bit ch)) done ∧ 0 ≤ bits < 256 ∧
  ∀ ch b, flag_bit ch = Some b → (bits .& b ≠ 0 ↔ ch ∈ done).

Lemma or_pow2_bound bits k : 0 ≤ bits < 256 → 0 ≤ k < 8 → 0 ≤ Z.lor bits (2 ^ k) < 256.
Proof.
  intros Hb Hk. assert (0 ≤ 2 ^ k) by (apply Z.pow_nonneg; lia).
  assert (0 ≤ Z.lor bits (2 ^ k)) by (apply Z.lor_nonneg; lia). split; [done|].
  destruct (decide (Z.lor bits (2 ^ k) = 0)) as [->|Hne]; [lia|].
  apply (Z.log2_lt_pow2 _ 8); [lia|]. rewrite Z.log2_lor by lia.
  apply Z.max_lub_lt; [|rewrite Z.log2_pow2; lia].
  destruct (decide (bits = 0)) as [->|]; [done|]. apply Z.log2_lt_pow2; lia.
Qed.

Lemma parse_flag_step read bits ch :
  flags_read read bits →
  match parse_flag ch bits with
  | Ok bits' => flags_read (read ++ [ch]) bits'
  | Err _ => flag_bit ch = None ∨ ch ∈ read
  end.
Proof.
  intros (Hnd & Hall & Hb & Hbits). unfold parse_flag.
  destruct (flag_bit ch) as [b|] eqn:Ech; [|by left].
  destruct (flag_bit_pow _ _ Ech) as (k & Hk & Hbk).
  specialize (Hbits ch b Ech) as Hch.
  destruct (Z.eqb_spec (bits .& b) 0) as [E|E]; simpl; [|right; by apply Hch].
  assert (bits .| b = Z.lor bits (2 ^ k)) as ->.
  { unfold js_or. subst b. assert (0 < 2 ^ k ≤ 2 ^ 7).
    { split; [apply Z.pow_pos_nonneg|apply Z.pow_le_mono_r]; lia. }
    by rewrite !to_int32_small by lia. }
  split; [|split; [|split]].
  - apply list.NoDup_app. split_and!; [done| |apply NoDup_singleton].
    intros x Hx ->%list_elem_of_singleton. by apply Hch in Hx.
  - apply Forall_app. split; [done|]. by constructor; [eexists|].
  - by apply or_pow2_bound.
  - intros ch' b' Ech'. specialize (Hbits ch' b' Ech') as Hch'.
    destruct (flag_bit_pow _ _ Ech') as (k' & Hk' & Hbk').
    rewrite elem_of_app, list_elem_of_singleton, <- Hch'.
    rewrite <- !Z.eqb_neq, <- !negb_true_iff, !(flag_test b' _ k') by done.
    rewrite Z.lor_spec, Z.pow2_bits_eqb by lia.
    destruct (Z.eqb_spec k k') as [->|Hne].
    + rewrite orb_true_r. split; [|done]. intros _. right.
      eapply flag_bit_inj; [done|]. by rewrite Ech, Hbk, Hbk'.
    + rewrite orb_false_r. split; [by left|]. intros [H|Heq]; [done|]. exfalso.
      apply Hne. rewrite Heq, Ech in Ech'. injection Ech' as Hbb. subst.
      apply (Z.pow_inj_r 2); [lia..|done].
Qed.

Lemma parse_flags_from fs read bits :
  flags_read read bits →
  match for_each fs parse_flag bits with
  | Ok bits' => flags_read (read ++ fs) bits'
  | Err _ => ¬ (NoDup (read ++ fs) ∧ Forall (λ ch, is_Some (flag_bit ch)) fs)
  end.
Proof.
  revert read bits. induction fs as [|ch fs IH]; intros read bits Hr; [by rewrite app_nil_r|].
  pose proof (parse_flag_step read bits ch Hr) as Hstep. simpl.
  destruct (parse_flag ch bits) as [bits'|e]; simpl.
  - specialize (IH _ _ Hstep). rewrite <- app_assoc in IH. simpl in IH.
    destruct (for_each fs parse_flag bits'); [done|]. intros [H1 H2]. apply IH.
    split; [done|]. by apply Forall_cons in H2 as [_ ?].
  - intros [H1 H2]. apply Forall_cons in H2 as [[b Hb] _].
    destruct Hstep as [Hn|Hin]; [congruence|].
    apply list.NoDup_app in H1 as (_ & Hd & _). apply (Hd ch Hin). left.
Qed.

Lemma flag_bit_ascii ch : is_Some (flag_bit ch) → 100 ≤ ch ≤ 121.
Proof.
  unfold flag_bit. intros H. revert H.
  repeat (match goal with |- context [ch =? ?k] => destruct (Z.eqb_spec ch k); [lia|] end).
  by intros [? ?].
Qed.

(** Flags are ASCII, so their code points are their code units. *)
Lemma flag_points fs : Forall (λ ch, is_Some (flag_bit ch)) fs → code_points fs = fs.
Proof.
  induction 1 as [|u fs Hu H IH]; [done|]. cbn [code_points].
  destruct fs as [|v fs']; [done|]. apply flag_bit_ascii in Hu. unfold is_lead.
  rewrite (proj2 (Z.leb_gt 0xd800 u)) by lia. simpl. f_equal. exact IH.
Qed.

Lemma pair_code_large u v : is_lead u = true → is_trail v = true → 0x10000 ≤ pair_code u v.
Proof.
  unfold is_lead, is_trail, pair_code. rewrite !andb_true_iff, !Z.leb_le. intros Hu Hv.
  rewrite js_shl_spec, to_int32_small by lia. lia.
Qed.

Lemma flag_code_points fs :
  Forall (λ ch, is_Some (flag_bit ch)) (code_points fs) → code_points fs = fs.
Proof.
  induction fs as [fs IH] using (induction_ltof1 _ (@length Z)); unfold ltof in IH.
  destruct fs as [|u fs]; [done|]. cbn [code_points]. destruct fs as [|v fs]; [done|].
  destruct (is_lead u && is_trail v) eqn:E.
  - apply andb_true_iff in E as [Hu Hv]. intros [Hp _]%Forall_cons.
    apply flag_bit_ascii in Hp. pose proof (pair_code_large u v Hu Hv). lia.
  - intros [_ Hf]%Forall_cons. f_equal. apply IH; [simpl; lia|done].
Qed.

(** [parseFlags] accepts exactly the flag strings of distinct flags among
    g, i, m, s, u, y, d and v, in any order; the bitfield it returns is a byte
    in which the bit of a flag is set exactly when the string has that flag. *)
Theorem parseFlags_correct (fs : jsstr) :
  match parseFlags fs with
  | Ok bits =>
      NoDup fs ∧ Forall (λ ch, is_Some (flag_bit ch)) fs ∧ 0 ≤ bits < 256 ∧
      ∀ ch b, flag_bit ch = Some b → (bits .& b ≠ 0 ↔ ch ∈ fs)
  | Err _ => ¬ (NoDup fs ∧ Forall (λ ch, is_Some (flag_bit ch)) fs)
  end.
Proof.
  unfold parseFlags.
  assert (flags_read [] 0) as H0; [|pose proof (parse_flags_from (code_points fs) [] 0 H0) as H].
  2:{ simpl in H. destruct (for_each _ _ _) as [bits|e].
      - destruct H as (Hnd & Hf & Hb & Hbits). pose proof (flag_code_points fs Hf) as E.
        rewrite E in Hnd, Hf. setoid_rewrite E in Hbits. done.
      - intros [Hnd Hf]. apply H. by rewrite (flag_points fs). }
  split_and!; [constructor|constructor|done|done|].
  intros ch b Hb. destruct (flag_bit_pow _ _ Hb) as (k & Hk & ->).
  rewrite <- Z.eqb_neq, <- negb_true_iff, (flag_test _ _ k), Z.bits_0 by done.
  split; [done|]. by intros ?%not_elem_of_nil.
Qed.
