(* ===== verification/ReLinear.v ===== *)
(** The linear matcher: src/codegen/regex/linear.ts, a PikeVM over the bytecode
    that the backtracking VM runs.  The admission stamps [seen] are one array
    that every thread list shares; the model threads it. *)

From S2P Require Import Prelude ReBytecode.

Definition LINEAR_OPS : list Z :=
  [ReOp.CHAR; ReOp.CHARI; ReOp.ANY; ReOp.CLASS; ReOp.CPCLASS; ReOp.SPLIT; ReOp.JMP;
   ReOp.SAVE; ReOp.CLEAR; ReOp.BOL; ReOp.EOL; ReOp.WBOUND; ReOp.MATCH].

Definition prog_len (prog : list Z) : Z := Z.of_nat (length prog).

(** The number of instructions of a program of whole instructions. *)
Definition n_instrs (prog : list Z) : Z := prog_len prog / INSTR_WIDTH.

Definition isLinearSafe (prog : list Z) : bool :=
  forallb (λ k, match js_at prog (k * INSTR_WIDTH) with
                | Some op => bool_decide (op ∈ LINEAR_OPS)
                | None => false
                end)
          (seqZ 0 ((prog_len prog + 2) / INSTR_WIDTH)).

Record Thread := { t_state : Z; t_caps : list Z }.

Record ThreadList := { threads : list Thread; stamp : Z }.

Definition push_thread (list : ThreadList) (t : Thread) : ThreadList :=
  {| threads := threads list ++ [t]; stamp := stamp list |}.

(** The method of [ThreadList]: whether [state] is admitted, and the new stamps. *)
Definition admit_state (seen : list Z) (list : ThreadList) (state : Z) : bool * Datatypes.list Z :=
  if bool_decide (js_at seen state = Some (stamp list)) then (false, seen)
  else (true, ta_set seen state (stamp list)).

(** What an admitted thread pushes on the work stack (top first), or whether it
    waits in the list. *)
Inductive closure := Push (ts : list Thread) | Wait.

Definition closure_of (prog : list Z) (input : jsstr) (sp : Z) (t : Thread) : closure :=
  if n_instrs prog <=? t_state t then Wait
  else
    let pc := t_state t in
    match fetch prog pc with
    | None => Wait
    | Some (op, a, b) =>
        if op =? ReOp.JMP then Push [{| t_state := a; t_caps := t_caps t |}]
        else if op =? ReOp.SPLIT then
          Push [{| t_state := a; t_caps := t_caps t |}; {| t_state := b; t_caps := t_caps t |}]
        else if (op =? ReOp.SAVE) || (op =? ReOp.CLEAR) then
          let next := if op =? ReOp.SAVE then ta_set (t_caps t) a sp
                      else clear_slots (t_caps t) a b in
          Push [{| t_state := pc + 1; t_caps := next |}]
        else if (op =? ReOp.BOL) || (op =? ReOp.EOL) || (op =? ReOp.WBOUND) then
          Push (if assertionHolds op a input sp
                then [{| t_state := pc + 1; t_caps := t_caps t |}] else [])
        else Wait
    end.

(** The work loop of [addThread]; the head of [stack] is its top. *)
Fixpoint addThread_loop (fuel : nat) (prog : list Z) (input : jsstr) (sp : Z)
    (seen : list Z) (list : ThreadList) (stack : Datatypes.list Thread)
  : result (Datatypes.list Z * ThreadList) :=
  match fuel with
  | O => Err OutOfFuel
  | S fuel' =>
      match stack with
      | [] => Ok (seen, list)
      | t :: stack' =>
          let (ok, seen') := admit_state seen list (t_state t) in
          if negb ok then addThread_loop fuel' prog input sp seen' list stack'
          else match closure_of prog input sp t with
               | Wait => addThread_loop fuel' prog input sp seen' (push_thread list t) stack'
               | Push ts => addThread_loop fuel' prog input sp seen' list (ts ++ stack')
               end
      end
  end.

(** Two steps per stamp, one for the first thread and one to leave the loop. *)
Definition addThread_fuel (seen : list Z) : nat := 2 + 2 * length seen.

Definition addThread (prog : list Z) (input : jsstr) (seen : list Z) (list : ThreadList)
    (state : Z) (caps : Datatypes.list Z) (sp : Z) : result (Datatypes.list Z * ThreadList) :=
  addThread_loop (addThread_fuel seen) prog input sp seen list
    [{| t_state := state; t_caps := caps |}].

(** [step]: whether the thread is at MATCH, the stamps and the next list. *)
Definition step (prog classTable : list Z) (input : jsstr) (t : Thread) (sp : Z)
    (seen : list Z) (next : ThreadList) : result (bool * (list Z * ThreadList)) :=
  let n := n_instrs prog in
  let into state := (r ← addThread prog input seen next state (t_caps t) (sp + 1);
                     Ok (false, r)) in
  let stay := Ok (false, (seen, next)) in
  if n <=? t_state t then into (t_state t - n + 1)
  else match fetch prog (t_state t) with
  | None => stay
  | Some (op, a, b) =>
      if op =? ReOp.MATCH then Ok (true, (seen, next))
      else if len input <=? sp then stay
      else if op =? ReOp.CPCLASS then
        let cp := forwardCodePoint input sp in
        if (cp <? 0) || negb (classMatch classTable a cp (negb (b =? 0))) then stay
        else if 0xffff <? cp then into (n + t_state t)
        else into (t_state t + 1)
      else if unitMatches op a b classTable (charCodeAt input sp) then into (t_state t + 1)
      else stay
  end.

(** The loop over the live threads, with its [break] at the first match. *)
Fixpoint step_all (prog classTable : list Z) (input : jsstr) (ts : list Thread) (sp : Z)
    (seen : list Z) (next : ThreadList) (matched : option (list Z))
  : result (list Z * ThreadList * option (list Z)) :=
  match ts with
  | [] => Ok (seen, next, matched)
  | t :: ts' =>
      r ← step prog classTable input t sp seen next;
      let '(at_match, (seen', next')) := r in
      if (at_match : bool) then Ok (seen', next', Some (t_caps t))
      else step_all prog classTable input ts' sp seen' next' matched
  end.

(** The loop over the positions; [n] is the number of positions left. *)
Fixpoint linear_loop (n : nat) (prog classTable : list Z) (nSlots : Z) (input : jsstr)
    (start : Z) (sticky : bool) (sp : Z) (seen : list Z) (current : ThreadList)
    (matched : option (list Z)) : result (option (list Z)) :=
  match n with
  | O => Ok matched
  | S n' =>
      r ← (if bool_decide (matched = None) && (negb sticky || (sp =? start)) then
             addThread prog input seen current 0 (fresh_caps nSlots) sp
           else Ok (seen, current));
      let '(seen, current) := r in
      if bool_decide (length (threads current) = 0%nat)
         && (bool_decide (matched ≠ None) || sticky) then Ok matched
      else
        r ← step_all prog classTable input (threads current) sp seen
              {| threads := []; stamp := sp + 2 |} matched;
        let '(seen, next, matched) := r in
        linear_loop n' prog classTable nSlots input start sticky (sp + 1) seen next matched
  end.

Definition searchLinear (prog classTable : list Z) (nSlots : Z) (input : jsstr)
    (startIdx : Z) (sticky : bool) : result (option (list Z)) :=
  let start := Z.max 0 startIdx in
  let seen := replicate (Z.to_nat (2 * prog_len prog / INSTR_WIDTH)) 0 in
  linear_loop (Z.to_nat (len input + 1 - start)) prog classTable nSlots input start sticky start
    seen {| threads := []; stamp := start + 1 |} None.

(** * The matcher comes to an end on every program *)

(** Entries that do not hold the stamp of the list being built. *)
Definition unstamped (seen : list Z) (st : Z) : nat := length (filter (λ x, x ≠ st) seen).

Lemma unstamped_le seen st : (unstamped seen st ≤ length seen)%nat.
Proof. apply length_filter. Qed.

Lemma length_admit seen list state : length (admit_state seen list state).2 = length seen.
Proof. unfold admit_state. case_bool_decide; [done|]. apply length_ta_set. Qed.

Lemma unstamped_insert seen (i : nat) x st :
  seen !! i = Some x → x ≠ st → S (unstamped (<[i := st]> seen) st) = unstamped seen st.
Proof.
  unfold unstamped. revert i. induction seen as [|y seen IH]; intros [|i] Hi Hx; simplify_eq/=.
  - rewrite filter_cons_False by (intros H; by apply H). by rewrite filter_cons_True.
  - rewrite !filter_cons. case_decide; simpl; [f_equal|]; by apply IH.
Qed.

(** Admitting a state that the stamps cover uses up one of them. *)
Lemma admit_unstamped seen list state seen' :
  admit_state seen list state = (true, seen') → 0 ≤ state < Z.of_nat (length seen) →
  S (unstamped seen' (stamp list)) = unstamped seen (stamp list).
Proof.
  unfold admit_state. case_bool_decide as Hs; [done|]. intros [= <-] Hr.
  apply js_at_is_Some in Hr as [x Hx]. rewrite Hx in Hs.
  apply js_at_Some in Hx as [Hpos Hx]. unfold ta_set.
  destruct (Z.ltb_spec state 0); [lia|]. eapply unstamped_insert; [done|congruence].
Qed.

Lemma admit_unstamped_le seen list state ok seen' :
  admit_state seen list state = (ok, seen') →
  (unstamped seen' (stamp list) ≤ unstamped seen (stamp list))%nat.
Proof.
  unfold admit_state. case_bool_decide as Hs; intros [= <- <-]; [done|].
  destruct (decide (0 ≤ state < Z.of_nat (length seen))) as [Hr|Hr].
  - pose proof (admit_unstamped seen list state (ta_set seen state (stamp list))) as H.
    unfold admit_state in H. rewrite bool_decide_false in H by done.
    specialize (H eq_refl Hr). lia.
  - unfold ta_set. destruct (Z.ltb_spec state 0); [done|].
    rewrite list_insert_ge by lia. done.
Qed.

Lemma fetch_range prog pc i : fetch prog pc = Some i → 0 ≤ pc < n_instrs prog.
Proof.
  unfold fetch. intros H. destruct (js_at prog (pc * 3)) eqn:E0; [|done].
  destruct (js_at prog (pc * 3 + 1)) eqn:E1; [|done].
  destruct (js_at prog (pc * 3 + 2)) eqn:E2; [|done].
  apply js_at_lt in E0, E2. unfold n_instrs, prog_len, INSTR_WIDTH.
  split; [lia|].
  assert (pc + 1 ≤ Z.of_nat (length prog) / 3); [apply Z.div_le_lower_bound; lia|lia].
Qed.

Lemma closure_push prog input sp t ts :
  closure_of prog input sp t = Push ts →
  (length ts ≤ 2)%nat ∧ 0 ≤ t_state t < n_instrs prog.
Proof.
  unfold closure_of. destruct (n_instrs prog <=? t_state t); [done|].
  destruct (fetch prog (t_state t)) as [[[op a] b]|] eqn:E; [|done].
  apply fetch_range in E. intros H. split; [|done].
  repeat case_match; simplify_eq; simpl; lia.
Qed.

(** Enough fuel: the work left is what is on the stack, and two pushes for each
    state that is not admitted yet. *)
Lemma addThread_loop_total prog input sp fuel seen list stack :
  n_instrs prog ≤ Z.of_nat (length seen) →
  (length stack + 2 * unstamped seen (stamp list) < fuel)%nat →
  ∃ seen' list', addThread_loop fuel prog input sp seen list stack = Ok (seen', list')
    ∧ length seen' = length seen ∧ stamp list' = stamp list.
Proof.
  revert seen list stack. induction fuel as [|fuel IH]; intros seen list stack Hn Hf; [lia|].
  cbn [addThread_loop]. destruct stack as [|t stack]; [by eauto|].
  simpl in Hf. destruct (admit_state seen list (t_state t)) as [ok seen'] eqn:Ea.
  pose proof (length_admit seen list (t_state t)) as Hl. rewrite Ea in Hl. simpl in Hl.
  pose proof (admit_unstamped_le _ _ _ _ _ Ea) as Hle.
  destruct ok; simpl.
  - destruct (closure_of prog input sp t) as [ts|] eqn:Ec.
    + destruct (closure_push _ _ _ _ _ Ec) as [H2 Hr].
      pose proof (admit_unstamped _ _ _ _ Ea) as Hu. rewrite <- Hl. apply IH; [lia|].
      rewrite length_app. lia.
    + rewrite <- Hl. apply (IH seen' (push_thread list t)); [lia|]. simpl. lia.
  - rewrite <- Hl. apply IH; lia.
Qed.

Lemma addThread_total prog input seen list state caps sp :
  n_instrs prog ≤ Z.of_nat (length seen) →
  ∃ seen' list', addThread prog input seen list state caps sp = Ok (seen', list')
    ∧ length seen' = length seen.
Proof.
  intros Hn. unfold addThread. pose proof (unstamped_le seen (stamp list)).
  destruct (addThread_loop_total prog input sp (addThread_fuel seen) seen list
    [{| t_state := state; t_caps := caps |}] Hn) as (s & l & -> & Hl & _); [|by eauto].
  unfold addThread_fuel. simpl. lia.
Qed.

Lemma step_total prog ct input t sp seen next :
  n_instrs prog ≤ Z.of_nat (length seen) →
  ∃ m seen' next', step prog ct input t sp seen next = Ok (m, (seen', next'))
    ∧ length seen' = length seen.
Proof.
  intros Hn. unfold step.
  assert (∀ state, ∃ m seen' next',
    (r ← addThread prog input seen next state (t_caps t) (sp + 1); Ok (false, r))
      = Ok (m, (seen', next')) ∧ length seen' = length seen) as Hinto.
  { intros state. destruct (addThread_total prog input seen next state (t_caps t) (sp + 1) Hn)
      as (s & l & -> & Hl). simpl. by eauto. }
  repeat case_match; eauto.
Qed.

Lemma step_all_total prog ct input ts sp seen next matched :
  n_instrs prog ≤ Z.of_nat (length seen) →
  ∃ seen' next' matched',
    step_all prog ct input ts sp seen next matched = Ok (seen', next', matched')
    ∧ length seen' = length seen.
Proof.
  revert seen next. induction ts as [|t ts IH]; intros seen next Hn; simpl; [by eauto|].
  destruct (step_total prog ct input t sp seen next Hn) as (m & seen' & next' & -> & Hl).
  simpl. destruct m; [by eauto|]. rewrite <- Hl. apply IH. lia.
Qed.

Lemma linear_loop_total n prog ct nSlots input start sticky sp seen current matched :
  n_instrs prog ≤ Z.of_nat (length seen) →
  ∃ r, linear_loop n prog ct nSlots input start sticky sp seen current matched = Ok r.
Proof.
  revert sp seen current matched. induction n as [|n IH]; intros sp seen current matched Hn;
    cbn [linear_loop]; [by eauto|].
  match goal with |- context [if ?c then addThread _ _ _ _ _ _ _ else _] => destruct c end.
  - destruct (addThread_total prog input seen current 0 (fresh_caps nSlots) sp Hn)
      as (s & l & -> & Hl). cbn [mbind result_bind].
    match goal with |- context [if ?c then _ else _] => destruct c end; [by eauto|].
    destruct (step_all_total prog ct input (threads l) sp s
      {| threads := []; stamp := sp + 2 |} matched) as (s' & l' & m' & -> & Hl'); [lia|].
    cbn [mbind result_bind]. apply IH. lia.
  - cbn [mbind result_bind].
    match goal with |- context [if ?c then _ else _] => destruct c end; [by eauto|].
    destruct (step_all_total prog ct input (threads current) sp seen
      {| threads := []; stamp := sp + 2 |} matched) as (s' & l' & m' & -> & Hl'); [lia|].
    cbn [mbind result_bind]. apply IH. lia.
Qed.

(** The linear matcher needs no step cap: on every program, class table,
    input and start index [searchLinear] comes to an end and returns a capture
    array or null.  The work list of [addThread] is emptied within two steps per
    program state, since each state is admitted at most once per position. *)
Theorem searchLinear_terminates prog ct nSlots input startIdx sticky :
  ∃ r, searchLinear prog ct nSlots input startIdx sticky = Ok r.
Proof.
  unfold searchLinear. apply linear_loop_total. rewrite length_replicate.
  unfold n_instrs, prog_len, INSTR_WIDTH. rewrite Z2Nat.id by (apply Z.div_pos; lia).
  apply Z.div_le_mono; lia.
Qed.
