(* ===== verification/ReVm.v ===== *)
(** The backtracking matcher: src/codegen/regex/vm.ts, the interpreter of the
    bytecode with its explicit stack, its step budget and the search loop that
    falls back to the linear matcher. *)

From S2P Require Import Prelude ReBytecode ReLinear.

Definition REGEX_STEP_CAP := 1000000.
Definition REGEX_STEP_CAP_PER_UNIT := 50.
Definition REGEX_STEP_CAP_LEN_SATURATION := 20000000.

Definition regexStepBudget (len : Z) : Z :=
  REGEX_STEP_CAP + REGEX_STEP_CAP_PER_UNIT * Z.min len REGEX_STEP_CAP_LEN_SATURATION.

Record Frame := { f_pc : Z; f_sp : Z; f_caps : list Z }.

(** What one instruction does: go on (with a frame pushed by [SPLIT]), set
    [failed], return the captures, or return null (the [default] case). *)
Inductive outcome :=
  | Go (pc sp : Z) (caps : list Z)
  | Fork (pc : Z) (alternative : Frame)
  | Failed
  | Accept (caps : list Z)
  | Unknown.

Section vm.
Context (prog classTable : list Z) (input : jsstr) (dir : Z).

(** Direction-aware access: forward reads at [sp], backward at [sp - 1]. *)
Definition inBounds (sp : Z) : bool := if 0 <? dir then sp <? len input else 0 <? sp.
Definition unit_at (sp : Z) : Z := charCodeAt input (if 0 <? dir then sp else sp - 1).

(** The code point and the width that [CPCLASS] reads; [None] is a failure. *)
Definition read_code_point (sp : Z) : option (Z * Z) :=
  let codePoint := unit_at sp in
  if 0 <? dir then
    let codePoint := forwardCodePoint input sp in
    if codePoint <? 0 then None
    else Some (codePoint, if 0xffff <? codePoint then 2 else 1)
  else if is_trail codePoint && (1 <? sp) then
    let lead := charCodeAt input (sp - 2) in
    if is_lead lead then Some (pair_code lead codePoint, 2) else Some (codePoint, 1)
  else if is_lead codePoint && (sp <? len input) && is_trail (charCodeAt input sp) then None
  else Some (codePoint, 1).

(** The comparison loop of [BACKREF]. *)
Definition same_units (fold : bool) (gs base blen : Z) : bool :=
  forallb (λ j,
    match js_at input (gs + j), js_at input (base + j) with
    | Some c1, Some c2 => if fold then asciiFold c1 =? asciiFold c2 else c1 =? c2
    | _, _ => false
    end) (seqZ 0 blen).

Definition backref (a b pc sp : Z) (caps : list Z) : result outcome :=
  match js_at caps (2 * a), js_at caps (2 * a + 1) with
  | Some gs, Some ge =>
      Ok (if (gs <? 0) || (ge <? 0) then Go (pc + 1) sp caps
          else
            let blen := ge - gs in
            if (if 0 <? dir then len input <? sp + blen else sp - blen <? 0) then Failed
            else
              let base := if 0 <? dir then sp else sp - blen in
              if same_units (negb (b =? 0)) gs base blen
              then Go (pc + 1) (sp + dir * blen) caps else Failed)
  | _, _ => Err NotModelled
  end.

(** One instruction other than [LOOKAROUND]. *)
Definition exec_op (op a b pc sp : Z) (caps : list Z) : result outcome :=
  if (op =? ReOp.CHAR) || (op =? ReOp.CHARI) || (op =? ReOp.ANY) || (op =? ReOp.CLASS) then
    Ok (if inBounds sp && unitMatches op a b classTable (unit_at sp)
        then Go (pc + 1) (sp + dir) caps else Failed)
  else if op =? ReOp.CPCLASS then
    Ok (if negb (inBounds sp) then Failed
        else match read_code_point sp with
             | None => Failed
             | Some (codePoint, width) =>
                 if classMatch classTable a codePoint (negb (b =? 0))
                 then Go (pc + 1) (sp + dir * width) caps else Failed
             end)
  else if op =? ReOp.SPLIT then Ok (Fork a {| f_pc := b; f_sp := sp; f_caps := caps |})
  else if op =? ReOp.JMP then Ok (Go a sp caps)
  else if op =? ReOp.SAVE then Ok (Go (pc + 1) sp (ta_set caps a sp))
  else if (op =? ReOp.BOL) || (op =? ReOp.EOL) || (op =? ReOp.WBOUND) then
    Ok (if assertionHolds op a input sp then Go (pc + 1) sp caps else Failed)
  else if op =? ReOp.BACKREF then backref a b pc sp caps
  else if op =? ReOp.PROGRESS then
    Ok (if bool_decide (js_at caps a = Some sp) then Failed else Go (pc + 1) sp caps)
  else if op =? ReOp.CLEAR then Ok (Go (pc + 1) sp (clear_slots caps a b))
  else if op =? ReOp.MATCH then Ok (Accept caps)
  else Ok Unknown.

(** The end of [LOOKAROUND], given what the sub-attempt returned. *)
Definition after_lookaround (b pc sp : Z) (caps : list Z) (sub : option (list Z)) : outcome :=
  let negated := negb (b .& 1 =? 0) in
  match sub with
  | Some sub_caps => if negated then Failed else Go (pc + 1) sp sub_caps
  | None => if negated then Go (pc + 1) sp caps else Failed
  end.

Definition lookaround_dir (b : Z) : Z := if negb (b .& 2 =? 0) then -1 else 1.

(** The recursive [runAt] of [LOOKAROUND]: entry, direction, position, captures. *)
Context (sub : Z → Z → Z → list Z → result (option (list Z))).

Definition exec (pc sp : Z) (caps : list Z) : result outcome :=
  match fetch prog pc with
  | None => Ok Unknown
  | Some (op, a, b) =>
      if op =? ReOp.LOOKAROUND then
        r ← sub a (lookaround_dir b) sp caps;
        Ok (after_lookaround b pc sp caps r)
      else exec_op op a b pc sp caps
  end.

(** The [for (;;)] loop; [steps] is what is left of the step budget. *)
Fixpoint run_loop (steps : nat) (pc sp : Z) (caps : list Z) (stack : list Frame)
  : result (option (list Z)) :=
  match steps with
  | O => throw ERangeError (js "regular expression step limit exceeded")
  | S steps' =>
      o ← exec pc sp caps;
      match o with
      | Go pc' sp' caps' => run_loop steps' pc' sp' caps' stack
      | Fork pc' frame => run_loop steps' pc' sp caps (frame :: stack)
      | Failed =>
          match stack with
          | [] => Ok None
          | frame :: stack' => run_loop steps' (f_pc frame) (f_sp frame) (f_caps frame) stack'
          end
      | Accept caps' => Ok (Some caps')
      | Unknown => Ok None
      end
  end.
End vm.

(** [runAt] under a given step budget. [depth] is the call depth that the host
    allows: a deeper recursion overflows its stack, a RangeError. *)
Fixpoint runAt_within (budget depth : nat) (prog classTable : list Z) (nGroups : Z) (input : jsstr)
    (startIdx entryPc dir : Z) (capsIn : option (list Z)) (nScratch : Z)
  : result (option (list Z)) :=
  match depth with
  | O => throw ERangeError (js "Maximum call stack size exceeded")
  | S depth' =>
      let nSlots := 2 * nGroups + nScratch in
      let initCaps := match capsIn with Some caps => caps | None => fresh_caps nSlots end in
      run_loop prog classTable input dir
        (λ a dir' sp caps,
          runAt_within budget depth' prog classTable nGroups input sp a dir' (Some caps) nScratch)
        budget entryPc startIdx initCaps []
  end.

Definition runAt (depth : nat) (prog classTable : list Z) (nGroups : Z) (input : jsstr)
    (startIdx entryPc dir : Z) (capsIn : option (list Z)) (nScratch : Z)
  : result (option (list Z)) :=
  runAt_within (Z.to_nat (regexStepBudget (len input))) depth
    prog classTable nGroups input startIdx entryPc dir capsIn nScratch.

(** The scan of [search]; [n] is the number of start positions left. *)
Fixpoint search_loop (n depth : nat) (prog classTable : list Z) (nGroups : Z) (input : jsstr)
    (i : Z) (sticky : bool) (nScratch : Z) : result (option (list Z)) :=
  match n with
  | O => Ok None
  | S n' =>
      match runAt depth prog classTable nGroups input i 0 1 None nScratch with
      | Err (Throw ERangeError msg) =>
          if isLinearSafe prog
          then searchLinear prog classTable (2 * nGroups + nScratch) input i sticky
          else Err (Throw ERangeError msg)
      | Err e => Err e
      | Ok (Some m) => Ok (Some m)
      | Ok None =>
          if sticky then Ok None
          else search_loop n' depth prog classTable nGroups input (i + 1) sticky nScratch
      end
  end.

Definition search (depth : nat) (prog classTable : list Z) (nGroups : Z) (input : jsstr)
    (startIdx : Z) (sticky : bool) (nScratch : Z) : result (option (list Z)) :=
  let i := Z.max 0 startIdx in
  search_loop (Z.to_nat (len input + 1 - i)) depth prog classTable nGroups input i sticky nScratch.

(** * The budget only decides whether the matcher gives up *)

Definition gives_up {A} (m : result A) : Prop := ∃ msg, m = Err (Throw ERangeError msg).

(** [m] is [m'], or gave up where [m'] went on. *)
Definition within {A} (m m' : result A) : Prop := gives_up m ∨ m = m'.

Lemma within_refl {A} (m : result A) : within m m.
Proof. by right. Qed.

Lemma within_throw {A} msg (m : result A) : within (throw ERangeError msg) m.
Proof. left. by exists msg. Qed.

Lemma within_bind {A B} (m m' : result A) (f f' : A → result B) :
  within m m' → (∀ x, within (f x) (f' x)) → within (m ≫= f) (m' ≫= f').
Proof.
  intros [[msg ->]| ->] Hf; [left; by exists msg|]. destruct m' as [x|e]; [apply Hf|by right].
Qed.

Create HintDb within.
#[export] Hint Resolve within_refl within_throw within_bind : within.

Lemma run_loop_mono prog ct input dir sub sub' n n' pc sp caps stack :
  (∀ a d sp caps, within (sub a d sp caps) (sub' a d sp caps)) → (n ≤ n')%nat →
  within (run_loop prog ct input dir sub n pc sp caps stack)
         (run_loop prog ct input dir sub' n' pc sp caps stack).
Proof.
  intros Hsub. revert n' pc sp caps stack.
  induction n as [|n IH]; intros n' pc sp caps stack Hn; [apply within_throw|].
  destruct n' as [|n']; [lia|]. cbn [run_loop]. apply within_bind.
  - unfold exec. destruct (fetch prog pc) as [[[op a] b]|]; [|apply within_refl].
    destruct (op =? ReOp.LOOKAROUND); [|apply within_refl].
    apply within_bind; [apply Hsub|intros; apply within_refl].
  - intros [pc' sp' caps'|pc' frame| |caps'|].
    + apply IH. lia.
    + apply IH. lia.
    + destruct stack; [apply within_refl|]. apply IH. lia.
    + apply within_refl.
    + apply within_refl.
Qed.

Lemma runAt_within_mono budget budget' depth depth' prog ct nG input start pc dir caps nS :
  (budget ≤ budget')%nat → (depth ≤ depth')%nat →
  within (runAt_within budget depth prog ct nG input start pc dir caps nS)
         (runAt_within budget' depth' prog ct nG input start pc dir caps nS).
Proof.
  intros Hb. revert depth' start pc dir caps.
  induction depth as [|depth IH]; intros depth' start pc dir caps Hd; [apply within_throw|].
  destruct depth' as [|depth']; [lia|]. cbn [runAt_within].
  apply run_loop_mono; [|done]. intros. apply IH. lia.
Qed.

(** * Attempts: the matcher without its stack and its budget *)

Section attempt.
Context (prog classTable : list Z) (input : jsstr).

Definition performs (dir pc sp : Z) (caps : list Z) (o : outcome) : Prop :=
  ∃ op a b, fetch prog pc = Some (op, a, b) ∧ op ≠ ReOp.LOOKAROUND ∧
    exec_op classTable input dir op a b pc sp caps = Ok o.

(** [attempt dir pc sp caps r]: an attempt from [pc] at [sp] ends with the
    captures [r], or fails when [r] is [None]; its alternatives are explored in
    the order in which the stack holds them. *)
Inductive attempt : Z → Z → Z → list Z → option (list Z) → Prop :=
  | att_accept dir pc sp caps caps' :
      performs dir pc sp caps (Accept caps') → attempt dir pc sp caps (Some caps')
  | att_fail dir pc sp caps :
      performs dir pc sp caps Failed → attempt dir pc sp caps None
  | att_go dir pc sp caps pc' sp' caps' r :
      performs dir pc sp caps (Go pc' sp' caps') →
      attempt dir pc' sp' caps' r → attempt dir pc sp caps r
  | att_first dir pc sp caps pc' frame c :
      performs dir pc sp caps (Fork pc' frame) →
      attempt dir pc' sp caps (Some c) → attempt dir pc sp caps (Some c)
  | att_second dir pc sp caps pc' frame r :
      performs dir pc sp caps (Fork pc' frame) →
      attempt dir pc' sp caps None →
      attempt dir (f_pc frame) (f_sp frame) (f_caps frame) r → attempt dir pc sp caps r
  | att_look_fail dir pc sp caps a b sub :
      fetch prog pc = Some (ReOp.LOOKAROUND, a, b) →
      attempt (lookaround_dir b) a sp caps sub →
      after_lookaround b pc sp caps sub = Failed → attempt dir pc sp caps None
  | att_look_go dir pc sp caps a b sub pc' sp' caps' r :
      fetch prog pc = Some (ReOp.LOOKAROUND, a, b) →
      attempt (lookaround_dir b) a sp caps sub →
      after_lookaround b pc sp caps sub = Go pc' sp' caps' →
      attempt dir pc' sp' caps' r → attempt dir pc sp caps r.

Lemma exec_performs dir sub pc sp caps o :
  performs dir pc sp caps o → exec prog classTable input dir sub pc sp caps = Ok o.
Proof.
  intros (op & a & b & Hf & Hne & He). unfold exec. rewrite Hf.
  by rewrite (proj2 (Z.eqb_neq _ _) Hne).
Qed.

Context (nG nS : Z).

Definition sub_run (budget depth : nat) : Z → Z → Z → list Z → result (option (list Z)) :=
  λ a dir sp caps, runAt_within budget depth prog classTable nG input sp a dir (Some caps) nS.

Lemma runAt_within_S budget depth sp pc dir capsIn :
  runAt_within budget (S depth) prog classTable nG input sp pc dir capsIn nS
  = run_loop prog classTable input dir (sub_run budget depth) budget pc sp
      (match capsIn with Some caps => caps | None => fresh_caps (2 * nG + nS) end) [].
Proof. done. Qed.

Lemma sub_run_S budget depth a dir sp caps :
  sub_run budget (S depth) a dir sp caps
  = run_loop prog classTable input dir (sub_run budget depth) budget a sp caps [].
Proof. done. Qed.

(** What the loop does after an attempt that ended with [r]. *)
Definition resume (sub : Z → Z → Z → list Z → result (option (list Z))) (dir : Z)
    (r : option (list Z)) (steps : nat) (stack : list Frame) : result (option (list Z)) :=
  match r, stack with
  | Some c, _ => Ok (Some c)
  | None, [] => Ok None
  | None, f :: stack' =>
      run_loop prog classTable input dir sub steps (f_pc f) (f_sp f) (f_caps f) stack'
  end.

(** The loop needs a fixed number of steps for the attempt, and then goes on
    with the stack it had. *)
Lemma attempt_runs dir pc sp caps r :
  attempt dir pc sp caps r →
  ∃ n k, ∀ budget depth, (k ≤ budget)%nat → (k ≤ depth)%nat → ∀ m stack,
    run_loop prog classTable input dir (sub_run budget depth) (n + m) pc sp caps stack
    = resume (sub_run budget depth) dir r m stack.
Proof.
  induction 1 as [dir pc sp caps caps' Hp|dir pc sp caps Hp
    |dir pc sp caps pc' sp' caps' r Hp _ (n & k & IH)
    |dir pc sp caps pc' frame c Hp _ (n & k & IH)
    |dir pc sp caps pc' frame r Hp _ (n1 & k1 & IH1) _ (n2 & k2 & IH2)
    |dir pc sp caps a b sub Hf _ (n & k & IH) Ha
    |dir pc sp caps a b sub pc' sp' caps' r Hf _ (n1 & k1 & IH1) Ha _ (n2 & k2 & IH2)].
  - exists 1%nat, 0%nat. intros. cbn [run_loop Nat.add]. by erewrite exec_performs by done.
  - exists 1%nat, 0%nat. intros. cbn [run_loop Nat.add]. erewrite exec_performs by done.
    by destruct stack.
  - exists (S n), k. intros. cbn [run_loop Nat.add]. erewrite exec_performs by done. by apply IH.
  - exists (S n), k. intros budget depth Hb Hd m stack. cbn [run_loop Nat.add].
    erewrite exec_performs by done. cbn [mbind result_bind]. by rewrite IH.
  - exists (S (n1 + n2))%nat, (k1 `max` k2)%nat. intros budget depth Hb Hd m stack.
    cbn [run_loop Nat.add]. erewrite exec_performs by done. cbn [mbind result_bind].
    rewrite <- Nat.add_assoc, IH1 by lia. cbn [resume]. apply IH2; lia.
  - exists 1%nat, (S (n `max` k)). intros budget depth Hb Hd m stack. cbn [run_loop Nat.add].
    unfold exec. rewrite Hf, Z.eqb_refl.
    destruct depth as [|depth]; [lia|]. rewrite sub_run_S.
    replace budget with (n + (budget - n))%nat at 2 by lia.
    rewrite (IH budget depth) by lia. unfold resume. destruct sub as [c|];
      cbn [mbind result_bind]; rewrite Ha; by destruct stack.
  - exists (S n2), (S (n1 `max` (k1 `max` k2))). intros budget depth Hb Hd m stack.
    cbn [run_loop Nat.add]. unfold exec. rewrite Hf, Z.eqb_refl.
    destruct depth as [|depth]; [lia|]. rewrite sub_run_S.
    replace budget with (n1 + (budget - n1))%nat at 2 by lia.
    rewrite (IH1 budget depth) by lia. unfold resume at 1. destruct sub as [c|];
      cbn [mbind result_bind]; rewrite Ha; apply IH2; lia.
Qed.

(** An attempt is what the matcher computes, given enough steps and depth. *)
Lemma attempt_runAt dir pc sp caps r capsIn :
  attempt dir pc sp caps r →
  caps = match capsIn with Some c => c | None => fresh_caps (2 * nG + nS) end →
  ∃ k, ∀ budget depth, (k ≤ budget)%nat → (k ≤ depth)%nat →
    runAt_within budget depth prog classTable nG input sp pc dir capsIn nS = Ok r.
Proof.
  intros (n & k & Hn)%attempt_runs ->. exists (S (n `max` k)). intros budget depth Hb Hd.
  destruct depth as [|depth]; [lia|]. rewrite runAt_within_S.
  replace budget with (n + (budget - n))%nat at 2 by lia.
  rewrite (Hn budget depth) by lia. by destruct r.
Qed.

(** Under the budget of the code the matcher agrees with the attempt, or gives
    up with a RangeError. *)
Lemma attempt_within budget depth dir pc sp caps r capsIn :
  attempt dir pc sp caps r →
  caps = match capsIn with Some c => c | None => fresh_caps (2 * nG + nS) end →
  within (runAt_within budget depth prog classTable nG input sp pc dir capsIn nS) (Ok r).
Proof.
  intros Hatt Hc. destruct (attempt_runAt _ _ _ _ _ _ Hatt Hc) as [k Hk].
  rewrite <- (Hk (budget `max` k)%nat (depth `max` k)%nat) by lia.
  apply runAt_within_mono; lia.
Qed.
End attempt.

(** * What a search is for *)

(** The first match from [i] on, among [n] start positions. *)
Fixpoint first_match (match_from : Z → option (list Z)) (n : nat) (i : Z) (sticky : bool)
  : option (list Z) :=
  match n with
  | O => None
  | S n' =>
      match match_from i with
      | Some cs => Some cs
      | None => if sticky then None else first_match match_from n' (i + 1) sticky
      end
  end.

Definition leftmost (match_from : Z → option (list Z)) (input : jsstr) (startIdx : Z) (sticky : bool)
  : option (list Z) :=
  let i := Z.max 0 startIdx in first_match match_from (Z.to_nat (len input + 1 - i)) i sticky.
