(* ===== verification/ReCaseFold.v ===== *)
(** Ranges of code units and legacy case folding: src/codegen/regex/casefold.ts.
    The Unicode tables behind [String.prototype.toUpperCase] are a parameter. *)

From Stdlib Require Import Sorting.Sorted.
From stdpp Require Import sorting.
From S2P Require Import Prelude ReBytecode.

(** * Sorted ranges *)

(** The comparison [x[0] - y[0] || x[1] - y[1]]. *)
Definition range_le (x y : Z * Z) : Prop := x.1 < y.1 ∨ (x.1 = y.1 ∧ x.2 ≤ y.2).

#[global] Instance range_le_dec : RelDecision range_le.
Proof. unfold range_le. intros x y. solve_decision. Defined.
#[global] Instance range_le_trans : Transitive range_le.
Proof. unfold range_le. intros [] [] []. simpl. lia. Qed.
#[global] Instance range_le_total : Total range_le.
Proof. unfold Total, range_le. intros [] []. simpl. lia. Qed.

Definition sort_ranges (rs : list (Z * Z)) : list (Z * Z) := merge_sort range_le rs.

(** The loop body of [coalesce]; [out] is kept with its last element first. *)
Definition coalesce_step (out : list (Z * Z)) (r : Z * Z) : list (Z * Z) :=
  let '(a, b) := r in
  match out with
  | (la, lb) :: out' =>
      if a <=? lb + 1 then (if lb <? b then (la, b) :: out' else out) else (a, b) :: out
  | [] => [(a, b)]
  end.

Definition coalesce (ranges : list (Z * Z)) : list (Z * Z) :=
  let sorted := sort_ranges (filter (λ r, r.1 ≤ r.2) ranges) in
  reverse (foldl coalesce_step [] sorted).

Definition unitsToRanges (units : list Z) : list (Z * Z) :=
  coalesce ((λ u, (u, u)) <$> units).

(** * Legacy case folding *)

Section casefold.
Context (toUpperCase : jsstr → jsstr).

Definition canonicalizeLegacy (ch : Z) : Z :=
  match toUpperCase [ch] with
  | [cu] => if (128 <=? ch) && (cu <? 128) then ch else cu
  | _ => ch
  end.

(** The code units 0x0000..0xFFFF, counted up. *)
Fixpoint count_up (n : nat) (i : Z) : list Z :=
  match n with
  | O => []
  | S n' => i :: count_up n' (i + 1)
  end.

Definition units : list Z := count_up (Z.to_nat 0x10000) 0.

(** [ensureBuilt]: the groups by canonical value, in insertion order ... *)
Definition byCanon : jsmap Z (list Z) :=
  foldl (λ m ch, jm_push m (canonicalizeLegacy ch) ch) [] units.

(** ... the map from a unit to its group, and the units of the groups of more
    than one unit. *)
Definition built : jsmap Z (list Z) * list Z :=
  foldl (λ acc arr,
    if (length arr <=? 1)%nat then acc
    else foldl (λ '(m, cased) u, (jm_set m u arr, cased ++ [u])) acc arr)
    ([], []) (byCanon.*2).

Definition equivMap : jsmap Z (list Z) := built.1.
Definition casedUnits : list Z := merge_sort Z.le built.2.

Definition foldCharUnitsLegacy (code : Z) : list Z :=
  match jm_get equivMap code with Some eq => eq | None => [code] end.

Definition foldClassRangesLegacy (ranges : list (Z * Z)) : list (Z * Z) :=
  let extra := foldl (λ extra u,
    if in_ranges u ranges
    then extra ++ ((λ p, (p, p)) <$> jm_list equivMap u) else extra) [] casedUnits in
  coalesce (ranges ++ extra).
End casefold.

(** * Facts on coalescing *)

(** The invariant of the loop: what is out is separated, from the last entry
    backwards, and the next ranges do not start before the last entry. *)
Inductive separated_rev : list (Z * Z) → Prop :=
  | sepr_nil : separated_rev []
  | sepr_cons lo hi rs :
      lo ≤ hi → Forall (λ r, r.2 + 1 < lo) rs → separated_rev rs →
      separated_rev ((lo, hi) :: rs).

Lemma separated_app rs1 rs2 :
  separated rs1 → separated rs2 →
  (∀ r q, r ∈ rs1 → q ∈ rs2 → r.2 + 1 < q.1) → separated (rs1 ++ rs2).
Proof.
  intros H1 H2. induction H1 as [|lo hi rs Hle Hall H1 IH]; intros Hc; [done|].
  constructor; [done| |].
  - apply Forall_app. split; [done|]. apply list.Forall_forall. intros q Hq.
    apply (Hc (lo, hi) q); [left|done].
  - apply IH. intros r q Hr Hq. apply Hc; [by right|done].
Qed.

Lemma separated_rev_reverse rs : separated_rev rs → separated (reverse rs).
Proof.
  induction 1 as [|lo hi rs Hle Hall Hs IH]; [constructor|].
  rewrite reverse_cons. apply separated_app; [done| |].
  - constructor; [done|constructor|constructor].
  - intros r q Hr ->%list_elem_of_singleton. rewrite elem_of_reverse in Hr.
    rewrite list.Forall_forall in Hall. by apply Hall.
Qed.

Lemma coalesce_step_spec out r :
  separated_rev out → r.1 ≤ r.2 → Forall (λ q, q.1 ≤ r.1) out →
  separated_rev (coalesce_step out r) ∧
  Forall (λ q, q.1 ≤ r.1) (coalesce_step out r) ∧
  ∀ c, in_ranges c (coalesce_step out r) = in_range c r || in_ranges c out.
Proof.
  destruct r as [a b]. intros Hs Hab Hle. simpl in Hab. unfold coalesce_step.
  destruct Hs as [|lo hi out Hlohi Hall Hs].
  - split_and!; [by constructor; [| constructor|constructor]|by repeat constructor|done].
  - apply Forall_cons in Hle as [Hl Hle]. simpl in Hl.
    destruct (Z.leb_spec a (hi + 1)) as [Ha|Ha].
    + destruct (Z.ltb_spec hi b) as [Hb|Hb].
      * split_and!; [constructor; [lia|done|done]|by constructor|].
        intros c. cbn [in_ranges existsb]. rewrite orb_assoc. f_equal.
        unfold in_range; simpl. bool_cases; try done; lia.
      * split_and!; [by constructor|by constructor|].
        intros c. cbn [in_ranges existsb]. rewrite orb_assoc. f_equal.
        unfold in_range; simpl. bool_cases; try done; lia.
    + split_and!; [|constructor; [done|by constructor]|done].
      constructor; [done| |by constructor]. constructor; [simpl; lia|].
      eapply Forall_impl; [exact Hall|]. intros q Hq. simpl in *. lia.
Qed.

Lemma coalesce_loop rs out :
  StronglySorted range_le rs → Forall (λ r, r.1 ≤ r.2) rs →
  separated_rev out → Forall (λ q, Forall (λ r, q.1 ≤ r.1) rs) out →
  separated_rev (foldl coalesce_step out rs) ∧
  ∀ c, in_ranges c (foldl coalesce_step out rs) = in_ranges c rs || in_ranges c out.
Proof.
  revert out. induction rs as [|r rs IH]; intros out Hsort Hle Hs Hbelow; [done|].
  apply StronglySorted_inv in Hsort as [Hsort Hhd]. apply Forall_cons in Hle as [Hr Hle].
  destruct (coalesce_step_spec out r Hs Hr) as (Hs' & Hb' & Hc').
  { eapply Forall_impl; [exact Hbelow|]. intros q [? _]%Forall_cons. done. }
  cbn [foldl]. destruct (IH (coalesce_step out r)) as [H1 H2]; [done..| |].
  - eapply Forall_impl; [exact Hb'|]. intros q Hq. eapply Forall_impl; [exact Hhd|].
    intros q' Hq'. unfold range_le in Hq'. simpl in *. lia.
  - split; [done|]. intros c. rewrite H2, Hc'. cbn [in_ranges existsb].
    rewrite !orb_assoc. f_equal. apply orb_comm.
Qed.

Lemma sort_ranges_sorted rs : StronglySorted range_le (sort_ranges rs).
Proof. apply StronglySorted_merge_sort; apply _. Qed.

Lemma sort_ranges_perm rs : sort_ranges rs ≡ₚ rs.
Proof. apply merge_sort_Permutation. Qed.

Lemma coalesce_sorted rs :
  Forall (λ r, r.1 ≤ r.2) rs →
  separated (reverse (foldl coalesce_step [] (sort_ranges rs))) ∧
  ∀ c, in_ranges c (reverse (foldl coalesce_step [] (sort_ranges rs))) = in_ranges c rs.
Proof.
  intros Hle. destruct (coalesce_loop (sort_ranges rs) []) as [Hs Hc].
  - apply sort_ranges_sorted.
  - by rewrite sort_ranges_perm.
  - constructor.
  - constructor.
  - split; [by apply separated_rev_reverse|]. intros c.
    rewrite (in_ranges_permutation _ _ (foldl coalesce_step [] (sort_ranges rs)))
      by apply reverse_Permutation.
    rewrite Hc, orb_false_r. apply in_ranges_permutation, sort_ranges_perm.
Qed.

Lemma coalesce_separated rs : separated (coalesce rs).
Proof. apply coalesce_sorted. apply list.Forall_forall. intros r [? _]%list_elem_of_filter. done. Qed.

Lemma coalesce_ranges rs c : in_ranges c (coalesce rs) = in_ranges c rs.
Proof.
  unfold coalesce. rewrite (proj2 (coalesce_sorted (filter (λ r, r.1 ≤ r.2) rs) ltac:(
    apply list.Forall_forall; intros r [? _]%list_elem_of_filter; done))).
  apply eq_true_iff_eq. rewrite !in_ranges_elem. setoid_rewrite list_elem_of_filter.
  split; [naive_solver|]. intros (r & Hr & Hc). exists r. split; [split; [lia|done]|done].
Qed.

Lemma in_ranges_units c us : in_ranges c ((λ u, (u, u)) <$> us) = true ↔ c ∈ us.
Proof.
  rewrite in_ranges_elem. setoid_rewrite list_elem_of_fmap. split.
  - intros (r & (u & -> & Hu) & Hc). simpl in Hc. by replace c with u by lia.
  - intros Hc. exists (c, c). split; [by exists c|simpl; lia].
Qed.

Lemma unitsToRanges_ranges us c : in_ranges c (unitsToRanges us) = true ↔ c ∈ us.
Proof. unfold unitsToRanges. rewrite coalesce_ranges. apply in_ranges_units. Qed.

(** * Facts on the equivalence classes *)

Section casefold_facts.
Context (toUpperCase : jsstr → jsstr).
Abbreviation canon := (canonicalizeLegacy toUpperCase).

Lemma elem_of_units u : u ∈ units ↔ 0 ≤ u ≤ 0xffff.
Proof.
  assert (∀ n i, u ∈ count_up n i ↔ i ≤ u < i + Z.of_nat n) as H.
  { intros n. induction n as [|n IH]; intros i; cbn [count_up].
    - split; [by intros ?%not_elem_of_nil|lia].
    - rewrite elem_of_cons, IH. lia. }
  unfold units. rewrite H. lia.
Qed.

#[global] Opaque units.

Lemma byCanon_collect :
  byCanon toUpperCase = jm_collect (λ ch, Some (canon ch, ch)) units [].
Proof. done. Qed.

(** The group of a canonical value, in ascending order. *)
Definition group (v : Z) : list Z :=
  jm_matches (λ ch, Some (canon ch, ch)) units v.

Lemma elem_of_group v u : u ∈ group v ↔ 0 ≤ u ≤ 0xffff ∧ canon u = v.
Proof.
  unfold group. rewrite jm_elem_matches, <- elem_of_units. naive_solver.
Qed.

Lemma byCanon_entry v l : (v, l) ∈ byCanon toUpperCase → l = group v.
Proof. rewrite byCanon_collect. apply jm_collect_entry. Qed.

Lemma byCanon_groups arr :
  arr ∈ (byCanon toUpperCase).*2 → ∃ v, arr = group v.
Proof.
  rewrite list_elem_of_fmap. intros ([v l] & -> & Hin). exists v. by apply byCanon_entry.
Qed.

Lemma byCanon_has u : 0 ≤ u ≤ 0xffff → group (canon u) ∈ (byCanon toUpperCase).*2.
Proof.
  intros Hu. apply list_elem_of_fmap. exists (canon u, group (canon u)). split; [done|].
  rewrite byCanon_collect. apply jm_collect_entry_ex. intros Hn.
  assert (u ∈ group (canon u)) as Hin by (by apply elem_of_group).
  unfold group in Hin. rewrite Hn in Hin. by apply not_elem_of_nil in Hin.
Qed.

Lemma set_group_get us (arr : list Z) (m : jsmap Z (list Z)) (cased : list Z) k :
  let st := foldl (λ '(m, cased) u, (jm_set m u arr, cased ++ [u])) (m, cased) us in
  jm_get st.1 k = (if decide (k ∈ us) then Some arr else jm_get m k) ∧
  st.2 = cased ++ us.
Proof.
  revert m cased. induction us as [|u us IH]; intros m cased.
  - cbn. rewrite decide_False by apply not_elem_of_nil. by rewrite app_nil_r.
  - cbn [foldl]. destruct (IH (jm_set m u arr) (cased ++ [u])) as [H1 H2]. split.
    + simpl in H1. rewrite H1, jm_get_set.
      destruct (decide (k ∈ us)) as [Hk|Hk]; [by rewrite decide_True by (by right)|].
      destruct (decide (u = k)) as [->|Hne]; [by rewrite decide_True by left|].
      rewrite decide_False; [done|]. intros [->|?]%elem_of_cons; done.
    + simpl in H2. by rewrite H2, <- app_assoc.
Qed.

(** What the loop over the groups builds. *)
Definition build_step (acc : jsmap Z (list Z) * list Z) (arr : list Z) :=
  if (length arr <=? 1)%nat then acc
  else foldl (λ '(m, cased) u, (jm_set m u arr, cased ++ [u])) acc arr.

Lemma build_spec arrs acc :
  (∀ arr arr' u, arr ∈ arrs → arr' ∈ arrs → u ∈ arr → u ∈ arr' → arr = arr') →
  (∀ u, is_Some (jm_get acc.1 u) ↔ u ∈ acc.2) →
  let st := foldl build_step acc arrs in
  (∀ u arr, arr ∈ arrs → u ∈ arr → (1 < length arr)%nat → jm_get st.1 u = Some arr) ∧
  (∀ u, (∀ arr, arr ∈ arrs → u ∈ arr → (length arr ≤ 1)%nat) →
        jm_get st.1 u = jm_get acc.1 u) ∧
  (∀ u, is_Some (jm_get st.1 u) ↔ u ∈ st.2).
Proof.
  revert acc. induction arrs as [|a arrs IH]; intros acc Huniq Hcased.
  { split_and!; [|done|done]. by intros u arr ?%not_elem_of_nil. }
  cbn [foldl].
  assert (∀ u, jm_get (build_step acc a).1 u
          = if decide (u ∈ a ∧ (1 < length a)%nat) then Some a else jm_get acc.1 u) as Hget.
  { intros u. unfold build_step. destruct (Nat.leb_spec (length a) 1).
    - rewrite decide_False by lia. done.
    - destruct acc as [m cased]. rewrite (proj1 (set_group_get a a m cased u)).
      simpl. destruct (decide (u ∈ a)); [by rewrite decide_True|].
      by rewrite decide_False by naive_solver. }
  destruct (IH (build_step acc a)) as (H1 & H2 & H3).
  { intros arr arr' u Ha Ha'. apply Huniq; by right. }
  { intros u. rewrite Hget. unfold build_step. destruct (Nat.leb_spec (length a) 1).
    - rewrite decide_False by lia. apply Hcased.
    - destruct acc as [m cased]. rewrite (proj2 (set_group_get a a m cased 0)).
      rewrite elem_of_app, <- (Hcased u). simpl.
      destruct (decide (u ∈ a)) as [Hu|Hu].
      + rewrite decide_True by done. split; [by right|by eexists].
      + rewrite decide_False by naive_solver. naive_solver. }
  split_and!; [| |done].
  - intros u arr Harr Hu Hlen. destruct (decide (arr ∈ arrs)) as [Hin|Hnin]; [by apply H1|].
    assert (arr = a) as -> by (by apply elem_of_cons in Harr as [?|?]).
    rewrite H2, Hget by (intros arr Harr' Hu'; exfalso; apply Hnin;
      rewrite (Huniq a arr u); [done|left|by right|done|done]).
    by rewrite decide_True.
  - intros u Hu. rewrite H2, Hget by (intros arr ? ?; apply Hu; [by right|done]).
    rewrite decide_False; [done|]. intros [Hin Hlen].
    specialize (Hu a). pose proof (Hu ltac:(left) Hin). lia.
Qed.

Lemma built_spec :
  (∀ u, 0 ≤ u ≤ 0xffff → (1 < length (group (canon u)))%nat →
        jm_get (equivMap toUpperCase) u = Some (group (canon u))) ∧
  (∀ u, ¬ (0 ≤ u ≤ 0xffff ∧ (1 < length (group (canon u)))%nat) →
        jm_get (equivMap toUpperCase) u = None) ∧
  (∀ u, is_Some (jm_get (equivMap toUpperCase) u) ↔ u ∈ casedUnits toUpperCase).
Proof.
  destruct (build_spec ((byCanon toUpperCase).*2) ([], [])) as (H1 & H2 & H3).
  - intros arr arr' u [v ->]%byCanon_groups [v' ->]%byCanon_groups
      [_ <-]%elem_of_group [_ <-]%elem_of_group. done.
  - intros u. simpl. split; [by intros []|by intros ?%not_elem_of_nil].
  - split_and!.
    + intros u Hu Hl. apply H1; [by apply byCanon_has|by apply elem_of_group|done].
    + intros u Hu. apply H2. intros arr [v ->]%byCanon_groups [Hr <-]%elem_of_group.
      destruct (decide (length (group (canon u)) ≤ 1)%nat); [done|]. exfalso. apply Hu.
      split; [done|lia].
    + intros u. unfold casedUnits. rewrite merge_sort_Permutation. apply H3.
Qed.

#[global] Opaque equivMap casedUnits.

Lemma equiv_list u :
  jm_list (equivMap toUpperCase) u
  = if decide (0 ≤ u ≤ 0xffff ∧ (1 < length (group (canon u)))%nat)
    then group (canon u) else [].
Proof.
  destruct built_spec as (H1 & H2 & _). unfold jm_list.
  destruct (decide _) as [[Hu Hl]|Hn]; [by rewrite H1|by rewrite H2].
Qed.

(** A group of at most one unit holds nothing but its unit. *)
Lemma group_small u v :
  0 ≤ u ≤ 0xffff → (length (group (canon u)) ≤ 1)%nat → v ∈ group (canon u) → v = u.
Proof.
  intros Hu Hl Hv. assert (u ∈ group (canon u)) as Hin by (by apply elem_of_group).
  destruct (decide (v = u)) as [|Hne]; [done|].
  pose proof (two_elems _ _ _ Hv Hin Hne). lia.
Qed.

Lemma elem_of_fold_char code u :
  0 ≤ code ≤ 0xffff →
  u ∈ foldCharUnitsLegacy toUpperCase code ↔ 0 ≤ u ≤ 0xffff ∧ canon u = canon code.
Proof.
  intros Hcode. rewrite <- elem_of_group. unfold foldCharUnitsLegacy.
  destruct built_spec as (H1 & H2 & _).
  destruct (decide (length (group (canon code)) ≤ 1)%nat) as [Hl|Hl].
  - rewrite H2 by lia. rewrite list_elem_of_singleton. split.
    + intros ->. by apply elem_of_group.
    + by apply group_small.
  - rewrite H1 by (done || lia). done.
Qed.

Lemma foldl_extra (f : Z → list (Z * Z)) (p : Z → bool) us acc :
  foldl (λ extra u, if p u then extra ++ f u else extra) acc us
  = acc ++ (us ≫= λ u, if p u then f u else []).
Proof.
  revert acc. induction us as [|u us IH]; intros acc; [by rewrite app_nil_r|].
  cbn [foldl]. rewrite bind_cons, IH. destruct (p u); [by rewrite app_assoc|done].
Qed.

(** The fold of a class adds exactly the case partners of its members. *)
Lemma fold_class_ranges ranges c :
  0 ≤ c ≤ 0xffff →
  in_ranges c (foldClassRangesLegacy toUpperCase ranges) = true ↔
  ∃ u, 0 ≤ u ≤ 0xffff ∧ in_ranges u ranges = true ∧ canon u = canon c.
Proof.
  intros Hc. unfold foldClassRangesLegacy. rewrite coalesce_ranges, foldl_extra.
  rewrite in_ranges_app, orb_true_iff. cbn [app].
  destruct built_spec as (H1 & H2 & H3). split.
  - intros [Hin|Hin]; [by exists c|]. apply in_ranges_elem in Hin as ([lo hi] & Hr & Hcr).
    apply list_elem_of_bind in Hr as (u & Hr & Hu).
    destruct (in_ranges u ranges) eqn:Eu; [|by apply not_elem_of_nil in Hr].
    apply list_elem_of_fmap in Hr as (p & [= -> ->] & Hp).
    assert (c = p) as -> by (simpl in Hcr; lia).
    rewrite equiv_list in Hp. destruct (decide _) as [[Hru Hl]|Hn];
      [|by apply not_elem_of_nil in Hp].
    apply elem_of_group in Hp as [_ Hp]. by exists u.
  - intros (u & Hu & Hin & Heq).
    destruct (decide (length (group (canon u)) ≤ 1)%nat) as [Hl|Hl].
    + left. rewrite (group_small u c); [done|done|done|]. by apply elem_of_group.
    + right. apply in_ranges_elem. exists (c, c). split; [|simpl; lia].
      apply list_elem_of_bind. exists u. rewrite Hin. split.
      * apply list_elem_of_fmap. exists c. split; [done|].
        rewrite equiv_list, decide_True by (split; [done|lia]). by apply elem_of_group.
      * apply H3. rewrite H1 by (done || lia). by eexists.
Qed.

(** C27: Legacy case folding is exact.  The equivalence set of a code unit, that
    a literal under the i flag compiles to, holds the code units of the same
    canonical value and no other; a class folded by [foldClassRangesLegacy]
    matches a code unit exactly when the class has a member of the same
    canonical value. *)
Theorem legacy_folding_exact :
  (∀ code c, 0 ≤ code ≤ 0xffff →
     in_ranges c (unitsToRanges (foldCharUnitsLegacy toUpperCase code)) = true ↔
     0 ≤ c ≤ 0xffff ∧ canon c = canon code) ∧
  (∀ ranges c, 0 ≤ c ≤ 0xffff →
     in_ranges c (foldClassRangesLegacy toUpperCase ranges) = true ↔
     ∃ u, 0 ≤ u ≤ 0xffff ∧ in_ranges u ranges = true ∧ canon u = canon c).
Proof.
  split; [|apply fold_class_ranges]. intros code c Hc.
  rewrite unitsToRanges_ranges. by apply elem_of_fold_char.
Qed.
End casefold_facts.
