(* ===== verification/ReUnicode.v ===== *)
(** Code-point classes of u/v mode: src/codegen/regex/unicode.ts.  The host's
    RegExp engine enumerates a class; the result is cached per source and flags. *)

From stdpp Require Import sorting.
From S2P Require Import Prelude ReBytecode ReCaseFold.
From S2P Require InterpCode.

Abbreviation CpRanges := (list (Z * Z)).

Definition ellipsis : jsstr := [0x2026].
Definition emdash : jsstr := [0x2014].

(** * Strings *)

(** [s.startsWith(p)] and [s.includes(p)] *)
Fixpoint starts_with (p s : jsstr) : bool :=
  match p, s with
  | [], _ => true
  | x :: p', y :: s' => (x =? y) && starts_with p' s'
  | _ :: _, [] => false
  end.

Fixpoint includes (p s : jsstr) : bool :=
  starts_with p s || match s with [] => false | _ :: s' => includes p s' end.

Definition is_digit (c : Z) : bool := (0x30 <=? c) && (c <=? 0x39).

Definition hex_value (c : Z) : option Z :=
  if is_digit c then Some (c - 0x30)
  else if (0x41 <=? c) && (c <=? 0x46) then Some (c - 0x37)
  else if (0x61 <=? c) && (c <=? 0x66) then Some (c - 0x57)
  else None.

Definition is_hex (c : Z) : bool := match hex_value c with Some _ => true | None => false end.

(** [parseInt(s, 16)] of hexadecimal digits. *)
Definition parse_hex (s : jsstr) : Z :=
  foldl (λ v c, 16 * v + match hex_value c with Some d => d | None => 0 end) 0 s.

(** The value of [n] hexadecimal digits, if [s] is that: the test of
    [/^[0-9a-fA-F]{n}$/] and the [parseInt] that follows it. *)
Definition hex_exactly (n : nat) (s : jsstr) : option Z :=
  if bool_decide (length s = n) && forallb is_hex s then Some (parse_hex s) else None.

(** [/^[0-9a-fA-F]+$/] *)
Definition all_hex (s : jsstr) : bool := negb (bool_decide (s = [])) && forallb is_hex s.

(** [cp.toString(base)] of a non-negative integer. *)
Definition digit_char (d : Z) : Z := if d <? 10 then 0x30 + d else 0x57 + d.

Fixpoint to_base (fuel : nat) (base z : Z) (acc : jsstr) : jsstr :=
  match fuel with
  | O => acc
  | S fuel' =>
      let acc := digit_char (z mod base) :: acc in
      if z <? base then acc else to_base fuel' base (z / base) acc
  end.

Definition to_string_base (base z : Z) : jsstr :=
  to_base (Z.to_nat (Z.log2_up (z + 1)) + 1) base z [].

(** [s.codePointAt(i)] *)
Definition codePointAt (s : jsstr) (i : Z) : option Z :=
  match js_at s i with
  | None => None
  | Some u =>
      match js_at s (i + 1) with
      | Some v => Some (if is_lead u && is_trail v then pair_code u v else u)
      | None => Some u
      end
  end.

(** * The host engine *)

(** A host regular expression: the matched texts that [matchAll] yields, and
    [test]. *)
Record HostRe := { re_matchAll : jsstr → list jsstr; re_test : jsstr → bool }.

(** [new RegExp(source, flags)]: the expression, or the message of the
    SyntaxError. *)
Class HostRegExp := host_RegExp : jsstr → jsstr → jsstr + HostRe.

(** * Enumeration *)

(** [getAllCodePointsString]: every code point but the surrogates, in order. *)
Definition code_point_strings : list jsstr :=
  from_code_point <$>
    filter (λ cp, ¬ 0xd800 ≤ cp ≤ 0xdfff) (count_up (Z.to_nat 0x110000) 0).

Definition getAllCodePointsString : jsstr := concat code_point_strings.

#[global] Opaque code_point_strings getAllCodePointsString.

(** [toRanges] and the loop body; [out] is kept with its last element first. *)
Definition range_step (out : CpRanges) (cp : Z) : CpRanges :=
  match out with
  | (lo, hi) :: out' => if cp =? hi + 1 then (lo, cp) :: out' else (cp, cp) :: out
  | [] => [(cp, cp)]
  end.

Definition toRanges (sorted : list Z) : CpRanges := reverse (foldl range_step [] sorted).

Definition string_message (source : jsstr) : jsstr :=
  js "class source " ++ InterpCode.json_string source ++ js " matched a multi-code-point string".

(** One match of the scan. *)
Definition scan_match (source m : jsstr) (matched : list Z) : result (list Z) :=
  match codePointAt m 0 with
  | None => throw EUnsupported (string_message source)
  | Some cp =>
      if negb (Z.of_nat (length m) =? (if 0xffff <? cp then 2 else 1))
      then throw EUnsupported (string_message source)
      else Ok (matched ++ [cp])
  end.

Definition surrogates : list Z := count_up 2048 0xd800.

Abbreviation EnumCache := (jsmap jsstr CpRanges).

Section enumerate.
Context `{HostRegExp}.

(** [enumerateClassRanges] without its cache. *)
Definition enumerate (source flagStr : jsstr) : result CpRanges :=
  if includes (js "\q{") source then
    throw EUnsupported (js "\q{" ++ ellipsis ++ js "} string disjunction " ++ emdash
                        ++ js " matches strings, not code points")
  else
    let rejected (e : jsstr) :=
      throw EUnsupported (js "host rejected class source " ++ InterpCode.json_string source
                          ++ js ": " ++ e) in
    match host_RegExp source (js "g" ++ flagStr) with
    | inl e => rejected e
    | inr scanRe =>
        match host_RegExp (js "^(?:" ++ source ++ js ")$") flagStr with
        | inl e => rejected e
        | inr probeRe =>
            matched ← for_each (re_matchAll scanRe getAllCodePointsString) (scan_match source) [];
            let lone := filter (λ cp, re_test probeRe [cp]) surrogates in
            Ok (toRanges (merge_sort Z.le (matched ++ lone)))
        end
    end.

(** The key of the cache [enumCache]: source and flags with a NUL between. *)
Definition cache_key (source flagStr : jsstr) : jsstr := source ++ [0] ++ flagStr.

Definition enumerateClassRanges (source flagStr : jsstr) (enumCache : EnumCache)
  : result CpRanges * EnumCache :=
  let key := cache_key source flagStr in
  match jm_get enumCache key with
  | Some cached => (Ok cached, enumCache)
  | None =>
      match enumerate source flagStr with
      | Ok ranges => (Ok ranges, jm_set enumCache key ranges)
      | Err e => (Err e, enumCache)
      end
  end.
End enumerate.

(** * String disjunctions *)

Definition bail {A} (msg : jsstr) : result A :=
  throw EUnsupported (js "\q{" ++ ellipsis ++ js "} string disjunction: " ++ msg).

(** The code points up to the first [c], and what follows from there. *)
Fixpoint span_until (c : Z) (s : list Z) : list Z * list Z :=
  match s with
  | [] => ([], [])
  | x :: s' => if x =? c then ([], s) else let (a, b) := span_until c s' in (x :: a, b)
  end.

Definition is_letter (l : Z) : bool :=
  ((0x41 <=? l) && (l <=? 0x5a)) || ((0x61 <=? l) && (l <=? 0x7a)).

(** [\u] and four digits, and the trail surrogate that may follow a lead one;
    [rest] follows the [u]. *)
Definition disjunction_four (rest : list Z) : result (Z * list Z) :=
  match hex_exactly 4 (take 4 rest) with
  | None => bail (js "bad \u escape")
  | Some cp =>
      let rest := drop 4 rest in
      let tail := drop 2 rest in
      if is_lead cp && bool_decide (take 2 rest = [0x5c; 0x75]) && negb (bool_decide (head tail = Some 0x7b))
      then match hex_exactly 4 (take 4 tail) with
           | Some trail =>
               if is_trail trail then Ok (pair_code cp trail, drop 4 tail) else Ok (cp, rest)
           | None => Ok (cp, rest)
           end
      else Ok (cp, rest)
  end.

(** The [\u] escape of a disjunction: [rest] follows the [u]. *)
Definition disjunction_u (rest : list Z) : result (Z * list Z) :=
  if bool_decide (head rest = Some 0x7b) then
    let (hex, tail) := span_until 0x7d (drop 1 rest) in
    match tail with
    | _ :: tail' =>
        if negb (all_hex hex) then bail (js "bad \u{" ++ ellipsis ++ js "} escape")
        else if 0x10ffff <? parse_hex hex then bail (js "\u{" ++ ellipsis ++ js "} out of range")
        else Ok (parse_hex hex, tail')
    | [] => bail (js "bad \u{" ++ ellipsis ++ js "} escape")
    end
  else disjunction_four rest.

(** One escape; [e] follows the backslash and [rest] follows [e]. *)
Definition disjunction_escape (e : Z) (rest : list Z) : result (Z * list Z) :=
  if e =? 0x6e then Ok (0x0a, rest)
  else if e =? 0x72 then Ok (0x0d, rest)
  else if e =? 0x74 then Ok (0x09, rest)
  else if e =? 0x66 then Ok (0x0c, rest)
  else if e =? 0x76 then Ok (0x0b, rest)
  else if e =? 0x62 then Ok (0x08, rest)
  else if e =? 0x30 then
    match rest with
    | d :: _ => if is_digit d then bail (js "legacy octal escape") else Ok (0x00, rest)
    | [] => Ok (0x00, rest)
    end
  else if e =? 0x78 then
    match hex_exactly 2 (take 2 rest) with
    | Some v => Ok (v, drop 2 rest)
    | None => bail (js "bad \x escape")
    end
  else if e =? 0x75 then disjunction_u rest
  else if e =? 0x63 then
    match rest with
    | l :: rest' => if is_letter l then Ok (l mod 32, rest') else bail (js "\c without a control letter")
    | [] => bail (js "\c without a control letter")
    end
  else Ok (e, rest).

(** The loop of [parseStringDisjunction] over what is left of the body. *)
Fixpoint disjunction_loop (fuel : nat) (cps : list Z) (operands : list (list Z)) (cur : list Z)
  : result (list (list Z)) :=
  match fuel with
  | O => Err OutOfFuel
  | S fuel' =>
      match cps with
      | [] => Ok (operands ++ [cur])
      | ch :: rest =>
          if ch =? 0x7c then disjunction_loop fuel' rest (operands ++ [cur]) []
          else if ch =? 0x5c then
            match rest with
            | [] => bail (js "trailing escape")
            | e :: rest =>
                r ← disjunction_escape e rest;
                disjunction_loop fuel' r.2 operands (cur ++ [r.1])
            end
          else if ch =? 0x7d then bail (js "unexpected '}' in disjunction body")
          else disjunction_loop fuel' rest operands (cur ++ [ch])
      end
  end.

Definition parseStringDisjunction (qBody : jsstr) : result (list (list Z)) :=
  let cps := code_points qBody in disjunction_loop (S (length cps)) cps [] [].

(** [codePointSource] *)
Definition codePointSource (cp : Z) : jsstr := js "\u{" ++ to_string_base 16 cp ++ js "}".

(** * The enumeration is exact, and the cache does not show *)

(** What the code relies on: [matchAll] yields parts of the text it scans. *)
Class HostRegExpOk `{HostRegExp} : Prop :=
  matchAll_part source flagStr re s m :
    host_RegExp source flagStr = inr re → m ∈ re_matchAll re s → ∃ a b, s = a ++ m ++ b.

Lemma elem_of_count_up n i z : z ∈ count_up n i ↔ i ≤ z < i + Z.of_nat n.
Proof.
  revert i. induction n as [|n IH]; intros i; cbn [count_up].
  - rewrite elem_of_nil. lia.
  - rewrite elem_of_cons, IH. lia.
Qed.

Lemma in_ranges_cons c r rs :
  in_ranges c (r :: rs) = true ↔ r.1 ≤ c ≤ r.2 ∨ in_ranges c rs = true.
Proof. cbn. rewrite orb_true_iff. unfold in_range. by rewrite andb_true_iff, !Z.leb_le. Qed.

(** Ranges of code points. *)
Definition cp_ranges (rs : CpRanges) : Prop := Forall (λ r, 0 ≤ r.1 ≤ r.2 ∧ r.2 ≤ 0x10ffff) rs.

Lemma range_step_spec out cp :
  cp_ranges out → 0 ≤ cp ≤ 0x10ffff →
  cp_ranges (range_step out cp) ∧
  ∀ c, in_ranges c (range_step out cp) = true ↔ c = cp ∨ in_ranges c out = true.
Proof.
  intros Hout Hcp. unfold range_step. destruct out as [|[lo hi] out].
  - split; [apply Forall_singleton; simpl; lia|]. intros c. rewrite in_ranges_cons. cbn [fst snd].
    generalize (in_ranges c [] = true) as P. intros P. split; (intros [?|?]; [left; lia|by right]).
  - apply Forall_cons in Hout as [Hr Hout]. simpl in Hr. destruct (Z.eqb_spec cp (hi + 1)) as [->|].
    + split; [apply Forall_cons; split; [simpl; lia|done]|]. intros c. rewrite !in_ranges_cons. cbn [fst snd].
      assert (lo ≤ c ≤ hi + 1 ↔ c = hi + 1 ∨ lo ≤ c ≤ hi) as -> by lia. tauto.
    + split; [do 2 (apply Forall_cons; split; [simpl; lia|]); done|]. intros c. rewrite (in_ranges_cons c (cp, cp)). cbn [fst snd].
      split; (intros [?|?]; [left; lia|by right]).
Qed.

Lemma toRanges_spec cps :
  Forall (λ cp, 0 ≤ cp ≤ 0x10ffff) cps →
  cp_ranges (toRanges cps) ∧ ∀ c, in_ranges c (toRanges cps) = true ↔ c ∈ cps.
Proof.
  intros Hcps. unfold toRanges.
  assert (∀ out, cp_ranges out → cp_ranges (foldl range_step out cps) ∧
    ∀ c, in_ranges c (foldl range_step out cps) = true ↔ c ∈ cps ∨ in_ranges c out = true)
    as Hloop.
  { induction Hcps as [|cp cps Hcp _ IH]; intros out Hout.
    - split; [done|]. intros c. rewrite elem_of_nil. tauto.
    - destruct (range_step_spec out cp Hout Hcp) as [Hok Hin]. cbn [foldl].
      destruct (IH _ Hok) as [Hok' Hin']. split; [done|]. intros c.
      rewrite Hin', Hin, elem_of_cons. tauto. }
  destruct (Hloop []) as [Hok Hin]; [constructor|]. split.
  - unfold cp_ranges. by apply Forall_reverse.
  - intros c. rewrite (in_ranges_permutation c _ _ (reverse_Permutation _)), Hin.
    split; [by intros [?|?]|by left].
Qed.

Lemma code_point_bound u v :
  is_lead u = true → is_trail v = true → 0x10000 ≤ pair_code u v ≤ 0x10ffff.
Proof.
  unfold is_lead, is_trail, pair_code. rewrite !andb_true_iff, !Z.leb_le. intros Hu Hv.
  rewrite js_shl_spec, to_int32_small by lia. lia.
Qed.

Definition is_unit (u : Z) : Prop := 0 ≤ u ≤ 0xffff.
Definition is_cp (cp : Z) : Prop := 0 ≤ cp ≤ 0x10ffff.

Lemma js_units s : Forall is_unit (js s).
Proof.
  unfold js. apply Forall_fmap, list.Forall_forall. intros a _. unfold compose, is_unit.
  pose proof (Ascii.N_ascii_bounded a). lia.
Qed.

Lemma code_points_range s : Forall is_unit s → Forall is_cp (code_points s).
Proof.
  induction s as [s IH] using (induction_ltof1 _ length). unfold ltof in IH. intros Hs.
  destruct s as [|u [|v s]]; [constructor| |].
  - apply Forall_cons in Hs as [Hu _]. apply Forall_singleton. unfold is_unit, is_cp in *. lia.
  - change (code_points (u :: v :: s)) with
      (if is_lead u && is_trail v then pair_code u v :: code_points s else u :: code_points (v :: s)).
    pose proof Hs as [Hu [Hv Hs']%Forall_cons]%Forall_cons.
    destruct (is_lead u && is_trail v) eqn:E; apply Forall_cons; split.
    + apply andb_true_iff in E as [E1 E2]. pose proof (code_point_bound u v E1 E2). unfold is_cp. lia.
    + apply IH; [simpl; lia|done].
    + unfold is_unit, is_cp in *. lia.
    + apply IH; [simpl; lia|by apply Forall_cons].
Qed.

Lemma hex_value_range c d : hex_value c = Some d → 0 ≤ d < 16.
Proof.
  unfold hex_value, is_digit.
  destruct ((0x30 <=? c) && (c <=? 0x39)) eqn:E1; [intros [= <-]|
    destruct ((0x41 <=? c) && (c <=? 0x46)) eqn:E2; [intros [= <-]|
    destruct ((0x61 <=? c) && (c <=? 0x66)) eqn:E3; [intros [= <-]|done]]];
    repeat match goal with H : _ && _ = true |- _ => apply andb_true_iff in H as [?%Z.leb_le ?%Z.leb_le] end;
    lia.
Qed.

Lemma parse_hex_acc s v :
  forallb is_hex s = true → 0 ≤ v →
  0 ≤ foldl (λ v c, 16 * v + match hex_value c with Some d => d | None => 0 end) v s
    < (v + 1) * 16 ^ Z.of_nat (length s).
Proof.
  revert v. induction s as [|c s IH]; intros v Hs Hv; [simpl; lia|].
  cbn [forallb] in Hs. apply andb_true_iff in Hs as [Hc Hs]. cbn [foldl].
  assert (0 ≤ match hex_value c with Some d => d | None => 0 end < 16) as Hd.
  { destruct (hex_value c) as [d|] eqn:E; [by apply hex_value_range in E|lia]. }
  set (d := match hex_value c with Some d => d | None => 0 end) in *. clearbody d.
  specialize (IH (16 * v + d) Hs ltac:(lia)). cbn [length].
  rewrite Nat2Z.inj_succ, Z.pow_succ_r by lia. nia.
Qed.

Lemma parse_hex_bound s : forallb is_hex s = true → 0 ≤ parse_hex s < 16 ^ Z.of_nat (length s).
Proof. intros Hs. pose proof (parse_hex_acc s 0 Hs ltac:(lia)). unfold parse_hex. lia. Qed.

Lemma hex_exactly_bound n s v : hex_exactly n s = Some v → length s = n ∧ 0 ≤ v < 16 ^ Z.of_nat n.
Proof.
  unfold hex_exactly. destruct (_ && _) eqn:E; [|done]. intros [= <-].
  apply andb_true_iff in E as [El%bool_decide_eq_true_1 Eh]. split; [done|].
  rewrite <- El. by apply parse_hex_bound.
Qed.

Lemma codePointAt_range s i cp :
  Forall (λ u, 0 ≤ u ≤ 0xffff) s → codePointAt s i = Some cp → 0 ≤ cp ≤ 0x10ffff.
Proof.
  intros Hs. unfold codePointAt. destruct (js_at s i) as [u|] eqn:Eu; [|done].
  apply js_at_Some in Eu as [_ Eu]. pose proof (Forall_lookup_1 _ _ _ _ Hs Eu) as Hu.
  destruct (js_at s (i + 1)) as [v|]; [|intros [= <-]; simpl in Hu; lia].
  destruct (is_lead u && is_trail v) eqn:E; intros [= <-]; [|simpl in Hu; lia].
  apply andb_true_iff in E as [E1 E2]. pose proof (code_point_bound u v E1 E2). lia.
Qed.

Lemma from_code_point_units cp :
  0 ≤ cp ≤ 0x10ffff → Forall (λ u, 0 ≤ u ≤ 0xffff) (from_code_point cp).
Proof.
  intros Hcp. unfold from_code_point. destruct (Z.leb_spec cp 0xffff); [apply Forall_singleton; lia|].
  pose proof (js_and_range (cp - 0x10000) 10 ltac:(lia)) as Hand.
  change (2 ^ 10 - 1) with 0x3ff in Hand. change (2 ^ 10) with 1024 in Hand.
  rewrite js_shr_spec by lia. change (2 ^ 10) with 1024.
  assert (0 ≤ (cp - 0x10000) / 1024) by (apply Z.div_pos; lia).
  assert ((cp - 0x10000) / 1024 < 1024) by (apply Z.div_lt_upper_bound; lia).
  apply Forall_cons. split; [lia|]. apply Forall_singleton. lia.
Qed.

#[local] Transparent code_point_strings getAllCodePointsString.
Lemma all_code_points_units : Forall (λ u, 0 ≤ u ≤ 0xffff) getAllCodePointsString.
Proof.
  unfold getAllCodePointsString, code_point_strings. apply Forall_concat, Forall_fmap.
  apply list.Forall_forall. intros cp [_ Hcp]%list_elem_of_filter.
  apply elem_of_count_up in Hcp. unfold compose. apply from_code_point_units. lia.
Qed.
#[local] Opaque code_point_strings getAllCodePointsString.

Section enumeration.
Context `{HostRegExpOk}.

(** A code point that the host's class matches. *)
Definition host_matches (source flagStr : jsstr) (cp : Z) : Prop :=
  ∃ scanRe probeRe, host_RegExp source (js "g" ++ flagStr) = inr scanRe ∧
    host_RegExp (js "^(?:" ++ source ++ js ")$") flagStr = inr probeRe ∧
    ((∃ m, m ∈ re_matchAll scanRe getAllCodePointsString ∧ codePointAt m 0 = Some cp) ∨
     (0xd800 ≤ cp ≤ 0xdfff ∧ re_test probeRe [cp] = true)).

Lemma scan_matches source ms matched matched' :
  for_each ms (scan_match source) matched = Ok matched' →
  ∀ cp, cp ∈ matched' ↔ cp ∈ matched ∨ ∃ m, m ∈ ms ∧ codePointAt m 0 = Some cp.
Proof.
  revert matched. induction ms as [|m ms IH]; intros matched Hs cp.
  { injection Hs as <-. split; [by left|]. intros [?|(m & Hm & _)]; [done|by apply not_elem_of_nil in Hm]. }
  cbn [for_each] in Hs. destruct (scan_match source m matched) as [matched1|] eqn:E1; [|done].
  cbn [mbind result_bind] in Hs. unfold scan_match in E1.
  destruct (codePointAt m 0) as [c|] eqn:Ec; [|done].
  destruct (negb _); [done|]. injection E1 as <-. rewrite (IH _ Hs).
  rewrite elem_of_app, list_elem_of_singleton. split.
  - intros [[?| ->]|(m' & Hm & Hc)]; [by left|right; exists m; split; [left|done]|].
    right. exists m'. split; [by right|done].
  - intros [?|(m' & [-> |Hm]%elem_of_cons & Hc)]; [tauto| |right; by exists m'].
    left. right. congruence.
Qed.

Lemma enumerate_spec source flagStr rs :
  enumerate source flagStr = Ok rs →
  cp_ranges rs ∧ ∀ cp, in_ranges cp rs = true ↔ host_matches source flagStr cp.
Proof.
  unfold enumerate. destruct (includes _ _); [done|].
  destruct (host_RegExp source _) as [|scanRe] eqn:Es; [done|].
  destruct (host_RegExp (js "^(?:" ++ _) _) as [|probeRe] eqn:Ep; [done|].
  destruct (for_each _ _ _) as [matched|] eqn:Em; [|done]. cbn [mbind result_bind].
  intros [= <-]. pose proof (scan_matches _ _ _ _ Em) as Hin.
  set (lone := filter _ surrogates).
  assert (∀ cp, cp ∈ lone ↔ 0xd800 ≤ cp ≤ 0xdfff ∧ re_test probeRe [cp] = true) as Hlone.
  { intros cp. unfold lone, surrogates. rewrite list_elem_of_filter, elem_of_count_up, Is_true_true.
    assert (0xd800 ≤ cp < 0xd800 + Z.of_nat 2048 ↔ 0xd800 ≤ cp ≤ 0xdfff) by lia. tauto. }
  destruct (toRanges_spec (merge_sort Z.le (matched ++ lone))) as [Hok Hranges].
  { rewrite merge_sort_Permutation. apply Forall_app. split; apply list.Forall_forall; intros cp Hcp.
    - apply Hin in Hcp as [?%not_elem_of_nil|(m & Hm & Hc)]; [done|].
      destruct (matchAll_part _ _ _ _ _ Es Hm) as (a & b & Hab).
      eapply codePointAt_range; [|exact Hc]. pose proof all_code_points_units as Hall.
      rewrite Hab in Hall. apply Forall_app in Hall as [_ [Hall _]%Forall_app]. exact Hall.
    - apply Hlone in Hcp. lia. }
  split; [done|]. intros cp. rewrite Hranges, merge_sort_Permutation, elem_of_app, Hlone, Hin.
  unfold host_matches. rewrite elem_of_nil. split.
  - intros [[[]|Hm]|Hl]; exists scanRe, probeRe; auto.
  - intros (re1 & re2 & E1 & E2 & Hor). rewrite Es in E1. rewrite Ep in E2.
    injection E1 as <-. injection E2 as <-. destruct Hor; auto.
Qed.

(** Every cached entry is what the enumeration gives. *)
Definition cache_ok (enumCache : EnumCache) : Prop :=
  ∀ source flagStr rs, 0 ∉ flagStr →
    jm_get enumCache (cache_key source flagStr) = Some rs → enumerate source flagStr = Ok rs.

Lemma cache_key_inj s f s' f' : 0 ∉ f → 0 ∉ f' → cache_key s f = cache_key s' f' → s = s' ∧ f = f'.
Proof.
  unfold cache_key. revert s'. induction s as [|x s IH]; intros [|y s'] Hf Hf'; simpl; intros Heq.
  - by injection Heq as ->.
  - injection Heq as <- ->. exfalso. apply Hf. apply elem_of_app. right. left.
  - injection Heq as -> <-. exfalso. apply Hf'. apply elem_of_app. right. left.
  - injection Heq as -> Heq. by destruct (IH s' Hf Hf' Heq) as [-> ->].
Qed.

End enumeration.

(** A host that knows one class: the lead surrogates. *)
#[local] Instance lead_host : HostRegExp := λ source _,
  if includes (js "[") source
  then inr {| re_matchAll := λ _, []; re_test := λ s, forallb is_lead s |}
  else inl (js "Invalid regular expression").

