(* ===== verification/ReCompile.v ===== *)
(** The regular-expression compiler: src/codegen/regex/compile.ts, from the
    syntax tree of src/codegen/regex/parse.ts (the type [ReNode]) to the
    bytecode, and [dotCpRanges] of src/codegen/regex/unicode.ts. *)

From S2P Require Import Prelude ReBytecode ReCaseFold.

(** * The syntax tree (parse.ts) *)

#[warnings="-register-all"]
Inductive ReNode :=
  | NChar (code : Z)
  | NAny
  | NClass (ranges : list (Z * Z)) (negated : bool)
  | NCpClass (ranges : list (Z * Z)) (negated : bool)
  | NBol
  | NEol
  | NWordBoundary (negated : bool)
  | NBackref (index : Z)
  | NLookaround (node : ReNode) (negated behind : bool)
  | NModGroup (add remove : Z) (node : ReNode)
  | NUdot
  | NConcat (parts : list ReNode)
  | NAlt (options : list ReNode)
  | NStar (node : ReNode) (greedy : bool)
  | NPlus (node : ReNode) (greedy : bool)
  | NOpt (node : ReNode) (greedy : bool)
  | NRepeat (node : ReNode) (min max : Z) (greedy : bool)
  | NGroup (node : ReNode) (capIndex : Z) (name : option jsstr).

Record ParsedRegex := {
  root : ReNode;
  numCaptures : Z;
  p_groupNames : jsmap jsstr Z }.

Section ReNode_ind'.
Context (P : ReNode → Prop).
Hypotheses (HChar : ∀ c, P (NChar c)) (HAny : P NAny)
  (HClass : ∀ r n, P (NClass r n)) (HCp : ∀ r n, P (NCpClass r n))
  (HBol : P NBol) (HEol : P NEol) (HWb : ∀ n, P (NWordBoundary n))
  (HBackref : ∀ i, P (NBackref i))
  (HLook : ∀ n neg b, P n → P (NLookaround n neg b))
  (HMod : ∀ a r n, P n → P (NModGroup a r n)) (HUdot : P NUdot)
  (HConcat : ∀ ps, Forall P ps → P (NConcat ps))
  (HAlt : ∀ os, Forall P os → P (NAlt os))
  (HStar : ∀ n g, P n → P (NStar n g)) (HPlus : ∀ n g, P n → P (NPlus n g))
  (HOpt : ∀ n g, P n → P (NOpt n g))
  (HRepeat : ∀ n lo hi g, P n → P (NRepeat n lo hi g))
  (HGroup : ∀ n i s, P n → P (NGroup n i s)).

(** Induction that reaches the nodes inside the lists. *)
Fixpoint ReNode_ind' (n : ReNode) : P n :=
  let go := fix go (l : list ReNode) : Forall P l :=
    match l with
    | [] => @List.Forall_nil _ P
    | x :: l' => @List.Forall_cons _ P x l' (ReNode_ind' x) (go l')
    end in
  match n with
  | NChar c => HChar c
  | NAny => HAny
  | NClass r n => HClass r n
  | NCpClass r n => HCp r n
  | NBol => HBol
  | NEol => HEol
  | NWordBoundary n => HWb n
  | NBackref i => HBackref i
  | NLookaround n neg b => HLook n neg b (ReNode_ind' n)
  | NModGroup a r n => HMod a r n (ReNode_ind' n)
  | NUdot => HUdot
  | NConcat ps => HConcat ps (go ps)
  | NAlt os => HAlt os (go os)
  | NStar n g => HStar n g (ReNode_ind' n)
  | NPlus n g => HPlus n g (ReNode_ind' n)
  | NOpt n g => HOpt n g (ReNode_ind' n)
  | NRepeat n lo hi g => HRepeat n lo hi g (ReNode_ind' n)
  | NGroup n i s => HGroup n i s (ReNode_ind' n)
  end.
End ReNode_ind'.

(** * Analyses of the tree *)

Fixpoint canMatchEmpty (node : ReNode) : bool :=
  match node with
  | NChar _ | NAny | NUdot | NClass _ _ | NCpClass _ _ => false
  | NBackref _ => true
  | NBol | NEol | NWordBoundary _ | NLookaround _ _ _ => true
  | NStar _ _ | NOpt _ _ => true
  | NPlus n _ => canMatchEmpty n
  | NRepeat n min _ _ => (min =? 0) || canMatchEmpty n
  | NGroup n _ _ | NModGroup _ _ n => canMatchEmpty n
  | NConcat parts => forallb canMatchEmpty parts
  | NAlt options => existsb canMatchEmpty options
  end.

(** [lo] and [hi] of [captureSpan]; [None] while they are infinite. *)
Definition widen (i : Z) (span : option (Z * Z)) : option (Z * Z) :=
  match span with
  | None => Some (i, i)
  | Some (lo, hi) => Some (if i <? lo then i else lo, if hi <? i then i else hi)
  end.

Fixpoint visit (n : ReNode) (span : option (Z * Z)) : option (Z * Z) :=
  match n with
  | NGroup n capIndex _ => visit n (if 0 <=? capIndex then widen capIndex span else span)
  | NConcat parts => foldl (λ span p, visit p span) span parts
  | NAlt options => foldl (λ span o, visit o span) span options
  | NStar n _ | NPlus n _ | NOpt n _ | NModGroup _ _ n | NRepeat n _ _ _ => visit n span
  | _ => span
  end.

Definition captureSpan (node : ReNode) : option (Z * Z) := visit node None.

(** Mapping and reversing a list commute, so [reverseNode] maps first. *)
Fixpoint reverseNode (node : ReNode) : ReNode :=
  match node with
  | NConcat parts => NConcat (reverse (map reverseNode parts))
  | NAlt options => NAlt (map reverseNode options)
  | NStar n greedy => NStar (reverseNode n) greedy
  | NPlus n greedy => NPlus (reverseNode n) greedy
  | NOpt n greedy => NOpt (reverseNode n) greedy
  | NRepeat n min max greedy => NRepeat (reverseNode n) min max greedy
  | NGroup n capIndex name => NGroup (reverseNode n) capIndex name
  | NModGroup add remove n => NModGroup add remove (reverseNode n)
  | _ => node
  end.

Definition foldClassRangesAscii (ranges : list (Z * Z)) : list (Z * Z) :=
  foldl (λ out '(lo, hi),
    let out := out ++ [(lo, hi)] in
    let uLo := Z.max lo 0x41 in
    let uHi := Z.min hi 0x5a in
    let out := if uLo <=? uHi then out ++ [(uLo + 0x20, uHi + 0x20)] else out in
    let lLo := Z.max lo 0x61 in
    let lHi := Z.min hi 0x7a in
    if lLo <=? lHi then out ++ [(lLo - 0x20, lHi - 0x20)] else out) [] ranges.

(** unicode.ts *)
Definition dotCpRanges (dotAll : bool) : list (Z * Z) :=
  if dotAll then [(0, 0x10ffff)]
  else [(0, 0x09); (0x0b, 0x0c); (0x0e, 0x2027); (0x202a, 0x10ffff)].

(** * The emitter *)

Definition MAX_REPEAT_EXPANSION := 1000.

Record PendingSub := {
  ps_node : ReNode;
  patchPc : Z;
  ps_reversed : bool;
  ps_caseInsensitive : bool;
  ps_dotAll : bool;
  ps_multiline : bool }.

Record Emitter := {
  instrs : list (Z * Z * Z);
  e_classTable : list Z;
  caseInsensitive : bool;
  dotAll : bool;
  multiline : bool;
  unicode : bool;
  reversed : bool;
  pendingSubs : list PendingSub;
  scratchCount : Z;
  scratchBase : Z }.

Definition new_Emitter (caseInsensitive dotAll multiline unicode : bool) : Emitter :=
  {| instrs := []; e_classTable := []; caseInsensitive := caseInsensitive; dotAll := dotAll;
     multiline := multiline; unicode := unicode; reversed := false; pendingSubs := [];
     scratchCount := 0; scratchBase := 0 |}.

Definition set_instrs (il : list (Z * Z * Z)) (e : Emitter) : Emitter :=
  {| instrs := il; e_classTable := e_classTable e; caseInsensitive := caseInsensitive e;
     dotAll := dotAll e; multiline := multiline e; unicode := unicode e; reversed := reversed e;
     pendingSubs := pendingSubs e; scratchCount := scratchCount e; scratchBase := scratchBase e |}.

Definition set_modes (ci da ml rev : bool) (e : Emitter) : Emitter :=
  {| instrs := instrs e; e_classTable := e_classTable e; caseInsensitive := ci;
     dotAll := da; multiline := ml; unicode := unicode e; reversed := rev;
     pendingSubs := pendingSubs e; scratchCount := scratchCount e; scratchBase := scratchBase e |}.

Definition set_classTable (ct : list Z) (e : Emitter) : Emitter :=
  {| instrs := instrs e; e_classTable := ct; caseInsensitive := caseInsensitive e;
     dotAll := dotAll e; multiline := multiline e; unicode := unicode e; reversed := reversed e;
     pendingSubs := pendingSubs e; scratchCount := scratchCount e; scratchBase := scratchBase e |}.

Definition set_pendingSubs (ps : list PendingSub) (e : Emitter) : Emitter :=
  {| instrs := instrs e; e_classTable := e_classTable e; caseInsensitive := caseInsensitive e;
     dotAll := dotAll e; multiline := multiline e; unicode := unicode e; reversed := reversed e;
     pendingSubs := ps; scratchCount := scratchCount e; scratchBase := scratchBase e |}.

Definition set_scratch (count base : Z) (e : Emitter) : Emitter :=
  {| instrs := instrs e; e_classTable := e_classTable e; caseInsensitive := caseInsensitive e;
     dotAll := dotAll e; multiline := multiline e; unicode := unicode e; reversed := reversed e;
     pendingSubs := pendingSubs e; scratchCount := count; scratchBase := base |}.

(** [here], and [emit]: the pc that [emit] returns is [here] before it. *)
Definition here (e : Emitter) : Z := Z.of_nat (length (instrs e)).

Definition emit (op a b : Z) (e : Emitter) : Emitter :=
  set_instrs (instrs e ++ [(op, a, b)]) e.

Definition patchA (pc a : Z) (e : Emitter) : Emitter :=
  set_instrs (alter (λ '(op, _, b), (op, a, b)) (Z.to_nat pc) (instrs e)) e.

Definition patchB (pc b : Z) (e : Emitter) : Emitter :=
  set_instrs (alter (λ '(op, a, _), (op, a, b)) (Z.to_nat pc) (instrs e)) e.

Definition setScratchBase (base : Z) (e : Emitter) : Emitter :=
  set_scratch (scratchCount e) base e.

Definition allocScratch (e : Emitter) : Z * Emitter :=
  (scratchBase e + scratchCount e, set_scratch (scratchCount e + 1) (scratchBase e) e).

Definition emitClearForBody (body : ReNode) (e : Emitter) : Emitter :=
  match captureSpan body with
  | None => e
  | Some (lo, hi) => emit ReOp.CLEAR (2 * lo) (2 * hi + 1) e
  end.

(** The loop of [addClass]; [normalized] is kept with its last element first. *)
Definition normalize_step (normalized : list (Z * Z)) (r : Z * Z) : list (Z * Z) :=
  let '(lo, hi) := r in
  match normalized with
  | (llo, lhi) :: rest =>
      if lo <=? lhi + 1 then (llo, Z.max lhi hi) :: rest else (lo, hi) :: normalized
  | [] => [(lo, hi)]
  end.

Definition normalize (ranges : list (Z * Z)) : list (Z * Z) :=
  reverse (foldl normalize_step [] (sort_ranges ranges)).

Definition addClass (ranges : list (Z * Z)) (e : Emitter) : Z * Emitter :=
  (Z.of_nat (length (e_classTable e)),
   set_classTable (e_classTable e ++ class_entry (normalize ranges)) e).

(** * Alternatives *)

(** The loop that an alternation and the literal trie share: every body but the
    last is wrapped in [SPLIT body,next; body; JMP end]; [jmpEnds] collects the
    jumps to patch. *)
Fixpoint emit_alternatives (bodies : list (Emitter → result Emitter)) (jmpEnds : list Z)
    (e : Emitter) : result (Emitter * list Z) :=
  match bodies with
  | [] => Ok (e, jmpEnds)
  | body :: bodies' =>
      match bodies' with
      | [] => e ← body e; Ok (e, jmpEnds)
      | _ =>
          let split := here e in
          let e := emit ReOp.SPLIT 0 0 e in
          let e := patchA split (here e) e in
          e ← body e;
          let jmp := here e in
          let e := emit ReOp.JMP 0 0 e in
          let e := patchB split (here e) e in
          emit_alternatives bodies' (jmpEnds ++ [jmp]) e
      end
  end.

Definition emit_choice (bodies : list (Emitter → result Emitter)) (e : Emitter) : result Emitter :=
  r ← emit_alternatives bodies [] e;
  let '(e, jmpEnds) := r in
  let end_ := here e in
  Ok (foldl (λ e j, patchA j end_ e) e jmpEnds).

(** Bodies emitted one after the other. *)
Definition emit_seq (bodies : list (Emitter → result Emitter)) (e : Emitter) : result Emitter :=
  for_each bodies (λ body e, body e) e.

(** * Literal alternations *)

Fixpoint char_codes (parts : list ReNode) : option (list Z) :=
  match parts with
  | [] => Some []
  | NChar code :: parts' => codes ← char_codes parts'; Some (code :: codes)
  | _ => None
  end.

Definition literalCodes (node : ReNode) : option (list Z) :=
  match node with
  | NChar code => Some [code]
  | NConcat parts => char_codes parts
  | _ => None
  end.

Inductive Branch :=
  | BEps
  | BChar (c : Z) (suffixes : list (list Z)).

(** One literal of the grouping loop. *)
Definition add_literal (st : list Branch * jsmap Z Z) (l : list Z) : list Branch * jsmap Z Z :=
  let '(branches, idxByChar) := st in
  match l with
  | [] => (branches ++ [BEps], [])
  | c :: rest =>
      match jm_get idxByChar c with
      | Some gi =>
          (alter (λ b, match b with
                       | BChar c suffixes => BChar c (suffixes ++ [rest])
                       | BEps => BEps
                       end) (Z.to_nat gi) branches, idxByChar)
      | None =>
          (branches ++ [BChar c [rest]], jm_set idxByChar c (Z.of_nat (length branches)))
      end
  end.

Definition group_literals (lits : list (list Z)) : list Branch :=
  (foldl add_literal ([], []) lits).1.

Definition emit_codes (codes : list Z) (e : Emitter) : Emitter :=
  foldl (λ e code, emit ReOp.CHAR code 0 e) e codes.

Fixpoint emitLitAltGrouped (fuel : nat) (lits : list (list Z)) (e : Emitter) : result Emitter :=
  match fuel with
  | O => Err OutOfFuel
  | S fuel' =>
      emit_choice
        (map (λ b e,
          match b with
          | BEps => Ok e
          | BChar c suffixes =>
              let e := emit ReOp.CHAR c 0 e in
              match suffixes with
              | [s] => Ok (emit_codes s e)
              | _ => emitLitAltGrouped fuel' suffixes e
              end
          end) (group_literals lits)) e
  end.

(** Each level strips one code unit off every literal. *)
Definition trie_fuel (lits : list (list Z)) : nat := S (max_list (length <$> lits)).

Fixpoint literal_options (options : list ReNode) : option (list (list Z)) :=
  match options with
  | [] => Some []
  | o :: options' =>
      match literalCodes o with
      | Some (c :: codes) => lits ← literal_options options'; Some ((c :: codes) :: lits)
      | _ => None
      end
  end.

(** [None] when the trie does not apply ([false] in the code). *)
Definition tryEmitLiteralAltTrie (options : list ReNode) (e : Emitter) : option (result Emitter) :=
  if caseInsensitive e then None
  else if (length options <? 4)%nat then None
  else lits ← literal_options options; Some (emitLitAltGrouped (trie_fuel lits) lits e).

(** * Quantifiers, given the emission of the body *)

Definition patch_split (greedy : bool) (split body exit : Z) (e : Emitter) : Emitter :=
  if greedy then patchB split exit (patchA split body e)
  else patchB split body (patchA split exit e).

Definition alloc_guard (body : ReNode) (e : Emitter) : Z * Emitter :=
  if canMatchEmpty body then allocScratch e else (-1, e).

Definition compile_star (node : ReNode) (greedy : bool) (body : Emitter → result Emitter)
    (e : Emitter) : result Emitter :=
  let (guard, e) := alloc_guard node e in
  let e := if 0 <=? guard then emit ReOp.SAVE guard 0 e else e in
  let l1 := here e in
  let e := emit ReOp.SPLIT 0 0 e in
  let bodyStart := here e in
  let e := emitClearForBody node e in
  e ← body e;
  let e := if 0 <=? guard then emit ReOp.PROGRESS guard 0 e else e in
  let e := emit ReOp.JMP (if 0 <=? guard then l1 - 1 else l1) 0 e in
  let exit := here e in
  Ok (patch_split greedy l1 bodyStart exit e).

(** In the nullable case the code claims a scratch slot that it does not use. *)
Definition compile_plus (node : ReNode) (greedy : bool) (body : Emitter → result Emitter)
    (e : Emitter) : result Emitter :=
  let (guard, e) := alloc_guard node e in
  if guard <? 0 then
    let l1 := here e in
    let e := emitClearForBody node e in
    e ← body e;
    let split := here e in
    let e := emit ReOp.SPLIT 0 0 e in
    let exit := here e in
    Ok (patch_split greedy split l1 exit e)
  else
    let e := emitClearForBody node e in
    e ← body e;
    compile_star node greedy body e.

Definition compile_opt (greedy : bool) (body : Emitter → result Emitter)
    (e : Emitter) : result Emitter :=
  let split := here e in
  let e := emit ReOp.SPLIT 0 0 e in
  let bodyStart := here e in
  e ← body e;
  let exit := here e in
  Ok (patch_split greedy split bodyStart exit e).

Definition compileRepeat (node : ReNode) (min max : Z) (greedy : bool)
    (body : Emitter → result Emitter) (e : Emitter) : result Emitter :=
  if negb (max =? -1) && ((MAX_REPEAT_EXPANSION <? max) || (MAX_REPEAT_EXPANSION <? min)) then
    throw ETooLarge (js "{" ++ js_num min ++ js "," ++ (if max =? -1 then [] else js_num max)
                     ++ js "} exceeds expansion cap")
  else
    e ← for_n (Z.to_nat min) 0 (λ _, body) e;
    if max =? -1 then compile_star node greedy body e
    else for_n (Z.to_nat (max - min)) min (λ _, compile_opt greedy body) e.

(** * compileNode *)

Section compile.
Context (toUpperCase : jsstr → jsstr).

Definition compile_char (code : Z) (e : Emitter) : Emitter :=
  if negb (caseInsensitive e) then emit ReOp.CHAR code 0 e
  else if unicode e then emit ReOp.CHARI (asciiFold code) 0 e
  else match foldCharUnitsLegacy toUpperCase code with
       | [u] => emit ReOp.CHAR u 0 e
       | us => let (offset, e) := addClass (unitsToRanges us) e in emit ReOp.CLASS offset 0 e
       end.

Definition compile_class (ranges : list (Z * Z)) (negated : bool) (e : Emitter) : Emitter :=
  let ranges :=
    if caseInsensitive e
    then if unicode e then foldClassRangesAscii ranges else foldClassRangesLegacy toUpperCase ranges
    else ranges in
  let (offset, e) := addClass ranges e in
  emit ReOp.CLASS offset (if negated then 1 else 0) e.

Definition compile_cpclass (ranges : list (Z * Z)) (negated : bool) (e : Emitter) : Emitter :=
  let (offset, e) := addClass ranges e in
  emit ReOp.CPCLASS offset (if negated then 1 else 0) e.

Definition compile_lookaround (node : ReNode) (negated behind : bool) (e : Emitter) : Emitter :=
  let flags := (if negated then 1 else 0) .| (if behind then 2 else 0) in
  let pc := here e in
  let e := emit ReOp.LOOKAROUND 0 flags e in
  set_pendingSubs (pendingSubs e ++
    [{| ps_node := if behind then reverseNode node else node;
        patchPc := pc; ps_reversed := behind;
        ps_caseInsensitive := caseInsensitive e;
        ps_dotAll := dotAll e; ps_multiline := multiline e |}]) e.

(** The flags inside a modifier group. *)
Definition scoped (add remove bit : Z) (outer : bool) : bool :=
  let inner := if negb (add .& bit =? 0) then true else outer in
  if negb (remove .& bit =? 0) then false else inner.

Definition compile_modGroup (add remove : Z) (body : Emitter → result Emitter) (e : Emitter)
  : result Emitter :=
  let ci := caseInsensitive e in
  let da := dotAll e in
  let ml := multiline e in
  e ← body (set_modes (scoped add remove RE_FLAG_I ci) (scoped add remove RE_FLAG_S da)
                      (scoped add remove RE_FLAG_M ml) (reversed e) e);
  Ok (set_modes ci da ml (reversed e) e).

Definition compile_group (capIndex : Z) (body : Emitter → result Emitter) (e : Emitter)
  : result Emitter :=
  if capIndex <? 0 then body e
  else
    let first := if reversed e then 2 * capIndex + 1 else 2 * capIndex in
    let second := if reversed e then 2 * capIndex else 2 * capIndex + 1 in
    e ← body (emit ReOp.SAVE first 0 e);
    Ok (emit ReOp.SAVE second 0 e).

Definition bit (b : bool) : Z := if b then 1 else 0.

Fixpoint compileNode (node : ReNode) (e : Emitter) : result Emitter :=
  match node with
  | NChar code => Ok (compile_char code e)
  | NAny => Ok (emit ReOp.ANY (bit (dotAll e)) 0 e)
  | NUdot => Ok (compile_cpclass (dotCpRanges (dotAll e)) false e)
  | NClass ranges negated => Ok (compile_class ranges negated e)
  | NCpClass ranges negated => Ok (compile_cpclass ranges negated e)
  | NBol => Ok (emit ReOp.BOL (bit (multiline e)) 0 e)
  | NEol => Ok (emit ReOp.EOL (bit (multiline e)) 0 e)
  | NWordBoundary negated => Ok (emit ReOp.WBOUND (bit negated) 0 e)
  | NBackref index => Ok (emit ReOp.BACKREF index (bit (caseInsensitive e)) e)
  | NLookaround n negated behind => Ok (compile_lookaround n negated behind e)
  | NModGroup add remove n => compile_modGroup add remove (compileNode n) e
  | NConcat parts => emit_seq (map compileNode parts) e
  | NAlt options =>
      match tryEmitLiteralAltTrie options e with
      | Some r => r
      | None => emit_choice (map compileNode options) e
      end
  | NStar n greedy => compile_star n greedy (compileNode n) e
  | NPlus n greedy => compile_plus n greedy (compileNode n) e
  | NOpt n greedy => compile_opt greedy (compileNode n) e
  | NRepeat n min max greedy => compileRepeat n min max greedy (compileNode n) e
  | NGroup n capIndex _ => compile_group capIndex (compileNode n) e
  end.

(** * Sub-programs and whole programs *)

Definition drain_one (sub : PendingSub) (rest : list PendingSub) (e : Emitter) : result Emitter :=
  let e := set_pendingSubs rest e in
  let e := patchA (patchPc sub) (here e) e in
  let ci := caseInsensitive e in
  let da := dotAll e in
  let ml := multiline e in
  let rev := reversed e in
  e ← compileNode (ps_node sub)
        (set_modes (ps_caseInsensitive sub) (ps_dotAll sub) (ps_multiline sub) (ps_reversed sub) e);
  Ok (set_modes ci da ml rev (emit ReOp.MATCH 0 0 e)).

Fixpoint drainPendingSubs (fuel : nat) (e : Emitter) : result Emitter :=
  match pendingSubs e with
  | [] => Ok e
  | sub :: rest =>
      match fuel with
      | O => Err OutOfFuel
      | S fuel' => e ← drain_one sub rest e; drainPendingSubs fuel' e
      end
  end.

Definition finish (e : Emitter) : list Z :=
  foldl (λ prog '(op, a, b), prog ++ [op; a; b]) [] (instrs e).

(** The number of sub-programs a tree can queue, those of its sub-programs
    included: the fuel of the drain loop. *)
Fixpoint lookarounds (node : ReNode) : nat :=
  match node with
  | NLookaround n _ _ => S (lookarounds n)
  | NModGroup _ _ n | NGroup n _ _ | NOpt n _ | NStar n _ => lookarounds n
  | NPlus n _ => 2 * lookarounds n
  | NRepeat n min max _ =>
      (Z.to_nat min + (if (max =? -1)%Z then 1 else Z.to_nat (max - min))) * lookarounds n
  | NConcat ns | NAlt ns => sum_list_with lookarounds ns
  | _ => 0
  end.

Definition compileParsed (parsed : ParsedRegex) (flags : Z) : result CompiledRegex :=
  let nGroups := numCaptures parsed + 1 in
  let e := new_Emitter (negb (flags .& RE_FLAG_I =? 0)) (negb (flags .& RE_FLAG_S =? 0))
             (negb (flags .& RE_FLAG_M =? 0)) (negb (flags .& (RE_FLAG_U .| RE_FLAG_V) =? 0)) in
  let e := setScratchBase (2 * nGroups) e in
  let e := emit ReOp.SAVE 0 0 e in
  e ← compileNode (root parsed) e;
  let e := emit ReOp.SAVE 1 0 e in
  let e := emit ReOp.MATCH 0 0 e in
  e ← drainPendingSubs (lookarounds (root parsed)) e;
  Ok {| prog := finish e; classTable := e_classTable e; nGroups := nGroups;
        nScratch := scratchCount e; flags := flags; groupNames := p_groupNames parsed |}.
End compile.

(** * The normalised ranges of [addClass] *)

Lemma normalize_step_coalesce out r : normalize_step out r = coalesce_step out r.
Proof.
  destruct r as [lo hi], out as [|[llo lhi] out]; simpl; [done|].
  destruct (Z.leb_spec lo (lhi + 1)); [|done].
  destruct (Z.ltb_spec lhi hi); repeat f_equal; lia.
Qed.

Lemma normalize_loop l out : foldl normalize_step out l = foldl coalesce_step out l.
Proof.
  revert out. induction l as [|r l IH]; intros out; [done|]. cbn [foldl].
  by rewrite normalize_step_coalesce, IH.
Qed.

Lemma normalize_spec rs :
  Forall (λ r, r.1 ≤ r.2) rs →
  separated (normalize rs) ∧ ∀ c, in_ranges c (normalize rs) = in_ranges c rs.
Proof. intros H. unfold normalize. rewrite normalize_loop. by apply coalesce_sorted. Qed.

Lemma separated_valid rs : separated rs → Forall (λ r, r.1 ≤ r.2) rs.
Proof. induction 1; by constructor. Qed.
