(* ===== verification/ReStringSet.v ===== *)
(** Finite sets of strings for v mode: src/codegen/regex/unicode-string-properties.ts.
    The decoded property tables are generated data and enter as a parameter; the
    enumeration of code-point classes enters through its interface. *)

From stdpp Require Import sorting.
From S2P Require Import Prelude ReBytecode ReCaseFold ReUnicode ReCompile.
From S2P Require InterpCode.

(** * What the parser needs of unicode.ts *)

Class RangeEnumerator := enum_ranges : jsstr → jsstr → result CpRanges.

Class RangeEnumeratorOk `{RangeEnumerator} : Prop := {
  enum_ranges_ok source flagStr rs : enum_ranges source flagStr = Ok rs → cp_ranges rs;
  enum_ranges_terminates source flagStr : settles (enum_ranges source flagStr) }.

(** [UNICODE_STRING_PROPERTY_DATA[name]] *)
Class StringPropertyData := property_data : jsstr → jsstr.

(** * Sets *)

Record UnicodeStringSet := {
  us_ranges : CpRanges;
  us_strings : jsmap jsstr (list Z) }.

Definition PROPERTY_NAMES : list jsstr :=
  [js "Basic_Emoji"; js "Emoji_Keycap_Sequence"; js "RGI_Emoji"; js "RGI_Emoji_Flag_Sequence";
   js "RGI_Emoji_Modifier_Sequence"; js "RGI_Emoji_Tag_Sequence"; js "RGI_Emoji_ZWJ_Sequence"].

Definition sequenceKey (sequence : list Z) : jsstr := join_with (js ",") (js_num <$> sequence).

(** The loop body of [singletonRanges]; [ranges] is kept with its last first. *)
Definition singleton_step (ranges : CpRanges) (cp : Z) : CpRanges :=
  match ranges with
  | (lo, hi) :: rest =>
      if cp <=? hi + 1 then (lo, Z.max hi cp) :: rest else (cp, cp) :: ranges
  | [] => [(cp, cp)]
  end.

Definition singletonRanges (codePoints : list Z) : CpRanges :=
  reverse (foldl singleton_step [] (merge_sort Z.le codePoints)).

Definition add_sequence (st : list Z * jsmap jsstr (list Z)) (sequence : list Z)
  : list Z * jsmap jsstr (list Z) :=
  let '(singles, strings) := st in
  match sequence with
  | [c] => (singles ++ [c], strings)
  | _ => (singles, jm_set strings (sequenceKey sequence) sequence)
  end.

Definition fromSequences (sequences : list (list Z)) : UnicodeStringSet :=
  let '(singles, strings) := foldl add_sequence ([], []) sequences in
  {| us_ranges := singletonRanges singles; us_strings := strings |}.

Definition unionRanges (left right : CpRanges) : CpRanges := normalize (left ++ right).

(** The two-pointer loop of [intersectRanges] over what is left of both lists. *)
Fixpoint intersect_loop (fuel : nat) (left right : CpRanges) : CpRanges :=
  match fuel with
  | O => []
  | S fuel' =>
      match left, right with
      | (leftLo, leftHi) :: left', (rightLo, rightHi) :: right' =>
          let lo := Z.max leftLo rightLo in
          let hi := Z.min leftHi rightHi in
          (if lo <=? hi then [(lo, hi)] else []) ++
          (if leftHi <? rightHi then intersect_loop fuel' left' right
           else intersect_loop fuel' left right')
      | _, _ => []
      end
  end.

Definition intersectRanges (left right : CpRanges) : CpRanges :=
  intersect_loop (length left + length right) left right.

(** [subtractRanges]: what is left of [right] when the scan of a range starts ... *)
Fixpoint skip_before (cursor : Z) (right : CpRanges) : CpRanges :=
  match right with
  | (lo, hi) :: right' => if hi <? cursor then skip_before cursor right' else right
  | [] => []
  end.

(** ... and the scan itself: the pieces, and the cursor that remains. *)
Fixpoint scan_range (leftHi cursor : Z) (right : CpRanges) : CpRanges * Z :=
  match right with
  | (rightLo, rightHi) :: right' =>
      if rightLo <=? leftHi then
        let piece := if cursor <? rightLo then [(cursor, Z.min leftHi (rightLo - 1))] else [] in
        let cursor := Z.max cursor (rightHi + 1) in
        if leftHi <? cursor then (piece, cursor)
        else let (pieces, cursor) := scan_range leftHi cursor right' in (piece ++ pieces, cursor)
      else ([], cursor)
  | [] => ([], cursor)
  end.

Fixpoint subtractRanges (left right : CpRanges) : CpRanges :=
  match left with
  | [] => []
  | (leftLo, leftHi) :: left' =>
      let right := skip_before leftLo right in
      let (pieces, cursor) := scan_range leftHi leftLo right in
      pieces ++ (if cursor <=? leftHi then [(cursor, leftHi)] else []) ++ subtractRanges left' right
  end.

(** [map.delete(key)] *)
Definition jm_delete {V} (m : jsmap jsstr V) (k : jsstr) : jsmap jsstr V :=
  filter (λ e, e.1 ≠ k) m.

Definition union_strings (left right : jsmap jsstr (list Z)) : jsmap jsstr (list Z) :=
  foldl (λ m e, jm_set m e.1 e.2) [] (left ++ right).

Definition set_union (left right : UnicodeStringSet) : UnicodeStringSet :=
  {| us_ranges := unionRanges (us_ranges left) (us_ranges right);
     us_strings := union_strings (us_strings left) (us_strings right) |}.

Definition set_intersect (left right : UnicodeStringSet) : UnicodeStringSet :=
  {| us_ranges := intersectRanges (us_ranges left) (us_ranges right);
     us_strings := foldl (λ m e, if jm_has (us_strings right) e.1 then jm_set m e.1 e.2 else m) []
                     (us_strings left) |}.

Definition set_subtract (left right : UnicodeStringSet) : UnicodeStringSet :=
  {| us_ranges := subtractRanges (us_ranges left) (us_ranges right);
     us_strings := foldl jm_delete (us_strings left) (us_strings right).*1 |}.

(** * Properties of strings *)

(** [Number.parseInt(cp, 36)] of a text of digits; the generated table holds
    nothing else. *)
Definition digit36 (c : Z) : option Z :=
  if is_digit c then Some (c - 0x30)
  else if (0x61 <=? c) && (c <=? 0x7a) then Some (c - 0x57)
  else if (0x41 <=? c) && (c <=? 0x5a) then Some (c - 0x37)
  else None.

Definition parse36 (s : jsstr) : result Z :=
  if bool_decide (s = []) then Err NotModelled
  else for_each s (λ c v, match digit36 c with
                          | Some d => Ok (36 * v + d)
                          | None => Err NotModelled
                          end) 0.

(** [list.map(f)] where [f] may throw. *)
Fixpoint map_result {A B} (f : A → result B) (l : list A) : result (list B) :=
  match l with
  | [] => Ok []
  | x :: l' => y ← f x; ys ← map_result f l'; Ok (y :: ys)
  end.

Section properties.
Context `{StringPropertyData}.

Definition decodeProperty (name : jsstr) : result UnicodeStringSet :=
  sequences ← map_result (λ item, map_result parse36 (split_on 0x2e item))
                (split_on 0x2c (property_data name));
  Ok (fromSequences sequences).

Definition isUnicodeStringPropertyName (name : jsstr) : bool := bool_decide (name ∈ PROPERTY_NAMES).

(** [unicodeStringProperty]; the cache of decoded properties only saves work. *)
Definition unicodeStringProperty (name : jsstr) : result UnicodeStringSet :=
  if bool_decide (name = js "RGI_Emoji") then
    sets ← map_result decodeProperty (filter (λ part, part ≠ js "RGI_Emoji") PROPERTY_NAMES);
    match sets with
    | [] => throw ETypeError (js "Reduce of empty array with no initial value")
    | s :: sets => Ok (foldl set_union s sets)
    end
  else decodeProperty name.

Definition hasUnicodeStringSetSyntax (source : jsstr) : bool :=
  includes (js "\q{") source
  || existsb (λ name, includes (js "\p{" ++ name ++ js "}") source) PROPERTY_NAMES.

(** [unicodeStringPropertyEscape]: the text [\p{name}] and nothing else. *)
Definition unicodeStringPropertyEscape (source : jsstr) : result (option UnicodeStringSet) :=
  match bool_decide (take 3 source = js "\p{"), span_until 0x7d (drop 3 source) with
  | true, (name, [_]) =>
      if negb (bool_decide (name = [])) && isUnicodeStringPropertyName name
      then set ← unicodeStringProperty name; Ok (Some set) else Ok None
  | _, _ => Ok None
  end.

(** * Scanning a v-mode class *)

(** [source.indexOf("}", start)], for [0 ≤ start]; [None] is -1. *)
Fixpoint index_from (c : Z) (s : jsstr) (i start : Z) : option Z :=
  match s with
  | [] => None
  | x :: s' => if (start <=? i) && (x =? c) then Some i else index_from c s' (i + 1) start
  end.

Definition indexOf (c : Z) (s : jsstr) (start : Z) : option Z := index_from c s 0 start.

Definition unit_is (s : jsstr) (i c : Z) : bool := bool_decide (js_at s i = Some c).

(** The inner [while] that looks for a closing brace. *)
Fixpoint brace_end (fuel : nat) (source : jsstr) (index : Z) : Z :=
  match fuel with
  | O => index
  | S fuel' =>
      if (index <? len source) && negb (unit_is source index 0x7d)
      then brace_end fuel' source (index + 1) else index
  end.

Fixpoint closing_brace_loop (fuel : nat) (source : jsstr) (index : Z) : result Z :=
  match fuel with
  | O => Err OutOfFuel
  | S fuel' =>
      if len source <=? index then
        throw EUnsupported (js "unterminated \q{" ++ ellipsis ++ js "} string disjunction")
      else if negb (unit_is source index 0x5c) then
        if unit_is source index 0x7d then Ok index else closing_brace_loop fuel' source (index + 1)
      else if unit_is source (index + 1) 0x75 && unit_is source (index + 2) 0x7b then
        closing_brace_loop fuel' source (brace_end (length source) source (index + 3) + 1)
      else closing_brace_loop fuel' source (index + 2)
  end.

Definition findClosingBrace (source : jsstr) (start : Z) : result Z :=
  closing_brace_loop (S (length source)) source start.

Fixpoint closing_class_loop (fuel : nat) (source : jsstr) (index depth : Z) : result Z :=
  match fuel with
  | O => Err OutOfFuel
  | S fuel' =>
      if len source <=? index then throw EUnsupported (js "unterminated nested v-mode class")
      else if unit_is source index 0x5c then
        if unit_is source (index + 1) 0x71 && unit_is source (index + 2) 0x7b then
          i ← findClosingBrace source (index + 3);
          closing_class_loop fuel' source (i + 1) depth
        else closing_class_loop fuel' source (index + 2) depth
      else if unit_is source index 0x5b then closing_class_loop fuel' source (index + 1) (depth + 1)
      else if unit_is source index 0x5d then
        if depth - 1 =? 0 then Ok index
        else closing_class_loop fuel' source (index + 1) (depth - 1)
      else closing_class_loop fuel' source (index + 1) depth
  end.

Definition findClosingClass (source : jsstr) (start : Z) : result Z :=
  closing_class_loop (S (length source)) source (start + 1) 1.

(** [source.slice(a, b)] for [0 ≤ a ≤ b]. *)
Definition js_slice (s : jsstr) (a b : Z) : jsstr := take (Z.to_nat (b - a)) (drop (Z.to_nat a) s).

(** [source.startsWith(p, index)] *)
Definition starts_at (p s : jsstr) (index : Z) : bool := starts_with p (drop (Z.to_nat index) s).

(** The loop of [splitTopLevel]: the parts, the start of the next one, and
    whether an operator was found. *)
Fixpoint split_loop (fuel : nat) (source operator : jsstr) (index start : Z) (parts : list jsstr)
    (found : bool) : result (option (list jsstr)) :=
  match fuel with
  | O => Err OutOfFuel
  | S fuel' =>
      let go i := split_loop fuel' source operator i start parts found in
      if len source <=? index then
        Ok (if found then Some (parts ++ [drop (Z.to_nat start) source]) else None)
      else if unit_is source index 0x5c then
        if unit_is source (index + 1) 0x71 && unit_is source (index + 2) 0x7b then
          i ← findClosingBrace source (index + 3); go (i + 1)
        else if (unit_is source (index + 1) 0x70 || unit_is source (index + 1) 0x50)
                && unit_is source (index + 2) 0x7b then
          match indexOf 0x7d source (index + 3) with
          | None => throw EUnsupported (js "unterminated Unicode property escape")
          | Some i => go (i + 1)
          end
        else go (index + 2)
      else if unit_is source index 0x5b then i ← findClosingClass source index; go (i + 1)
      else if starts_at operator source index then
        split_loop fuel' source operator (index + 2) (index + len operator)
          (parts ++ [js_slice source start index]) true
      else go (index + 1)
  end.

Definition splitTopLevel (source operator : jsstr) : result (option (list jsstr)) :=
  split_loop (S (length source)) source operator 0 0 [] false.

(** * Evaluation *)

Context `{RangeEnumerator}.

(** [flushOrdinary]: adds the pending code-point members. *)
Definition flushOrdinary (flagStr : jsstr) (set : UnicodeStringSet) (ordinary : jsstr)
  : result UnicodeStringSet :=
  if bool_decide (ordinary = []) then Ok set
  else
    ranges ← enum_ranges (js "[" ++ ordinary ++ js "]") flagStr;
    Ok (set_union set {| us_ranges := ranges; us_strings := [] |}).

(** The loop of [evalUnionBody]; [nested] evaluates a nested class. *)
Fixpoint union_body_loop (nested : jsstr → result UnicodeStringSet) (fuel : nat)
    (source flagStr : jsstr) (index : Z) (set : UnicodeStringSet) (ordinary : jsstr)
  : result UnicodeStringSet :=
  match fuel with
  | O => Err OutOfFuel
  | S fuel' =>
      let go := union_body_loop nested fuel' source flagStr in
      let property := starts_at (js "\p{") source index || starts_at (js "\P{") source index in
      if len source <=? index then flushOrdinary flagStr set ordinary
      else if unit_is source index 0x5b then
        set ← flushOrdinary flagStr set ordinary;
        e ← findClosingClass source index;
        inner ← nested (js_slice source index (e + 1));
        go (e + 1) (set_union set inner) []
      else if starts_at (js "\q{") source index then
        set ← flushOrdinary flagStr set ordinary;
        e ← findClosingBrace source (index + 3);
        operands ← parseStringDisjunction (js_slice source (index + 3) e);
        go (e + 1) (set_union set (fromSequences operands)) []
      else match (if property then indexOf 0x7d source (index + 3) else None) with
      | Some e =>
          let propertySource := js_slice source index (e + 1) in
          escape ← unicodeStringPropertyEscape propertySource;
          match escape with
          | Some p =>
              set ← flushOrdinary flagStr set ordinary;
              go (e + 1) (set_union set p) []
          | None => go (e + 1) set (ordinary ++ propertySource)
          end
      | None =>
          if unit_is source index 0x5c then
            go (index + 2) set (ordinary ++ js_slice source index (index + 2))
          else match codePointAt source index with
          | Some cp => go (index + (if 0xffff <? cp then 2 else 1)) set (ordinary ++ from_code_point cp)
          | None => Err NotModelled
          end
      end
  end.

Definition empty_set : UnicodeStringSet := {| us_ranges := []; us_strings := [] |}.

(** [parts.map(...).reduce(op)] *)
Definition reduce_parts (op : UnicodeStringSet → UnicodeStringSet → UnicodeStringSet)
    (eval : jsstr → result UnicodeStringSet) (parts : list jsstr) : result UnicodeStringSet :=
  sets ← map_result eval parts;
  match sets with
  | [] => throw ETypeError (js "Reduce of empty array with no initial value")
  | s :: sets => Ok (foldl op s sets)
  end.

(** [evaluateUnicodeStringClass]; [depth] bounds the nesting of classes. *)
Fixpoint evaluate (depth : nat) (source flagStr : jsstr) : result UnicodeStringSet :=
  match depth with
  | O => Err OutOfFuel
  | S depth' =>
      let body := js_slice source 1 (len source - 1) in
      let evalUnionBody part :=
        union_body_loop (λ s, evaluate depth' s flagStr) (S (length part)) part flagStr 0
          empty_set [] in
      if negb (bool_decide (head source = Some 0x5b) && bool_decide (last source = Some 0x5d)) then
        throw EUnsupported (js "expected a complete v-mode class, got "
                            ++ InterpCode.json_string source)
      else if bool_decide (head body = Some 0x5e) then
        throw EUnsupported (js "negated v-mode class may not contain strings")
      else
        intersections ← splitTopLevel body (js "&&");
        match intersections with
        | Some parts => reduce_parts set_intersect evalUnionBody parts
        | None =>
            differences ← splitTopLevel body (js "--");
            match differences with
            | Some parts => reduce_parts set_subtract evalUnionBody parts
            | None => evalUnionBody body
            end
        end
  end.

Definition evaluateUnicodeStringClass (source flagStr : jsstr) : result UnicodeStringSet :=
  evaluate (S (length source)) source flagStr.
End properties.

(** * The range operations are set operations *)

Lemma separated_cons r rs :
  separated (r :: rs) ↔ r.1 ≤ r.2 ∧ Forall (λ q, r.2 + 1 < q.1) rs ∧ separated rs.
Proof.
  destruct r as [lo hi]. split; [by inversion 1|]. intros (? & ? & ?). by constructor.
Qed.

(** Beyond the end of every range. *)
Lemma in_ranges_above c b rs : Forall (λ q, b < q.1) rs → c ≤ b → in_ranges c rs = false.
Proof.
  intros Hall Hc. apply not_true_is_false. intros (r & Hr & Hin)%in_ranges_elem.
  rewrite list.Forall_forall in Hall. apply Hall in Hr. lia.
Qed.

Lemma intersect_loop_spec fuel left right :
  separated left → separated right → (length left + length right ≤ fuel)%nat →
  separated (intersect_loop fuel left right) ∧
  Forall (λ q, ∃ a b, a ∈ left ∧ b ∈ right ∧ q = (Z.max a.1 b.1, Z.min a.2 b.2))
    (intersect_loop fuel left right) ∧
  ∀ c, in_ranges c (intersect_loop fuel left right) = true ↔
    in_ranges c left = true ∧ in_ranges c right = true.
Proof.
  revert left right. induction fuel as [|fuel IH]; intros left right Hl Hr Hf.
  { destruct left; [|simpl in Hf; lia]. split_and!; [constructor..|]. intros c. by split; [|intros []]. }
  cbn [intersect_loop].
  destruct left as [|[a0 a1] left']; [split_and!; [constructor..|]; intros c; by split; [|intros []]|].
  destruct right as [|[b0 b1] right']; [split_and!; [constructor..|]; intros c; by split; [|intros []]|].
  pose proof Hl as (Ha & Hla & Hl')%separated_cons. pose proof Hr as (Hb & Hrb & Hr')%separated_cons.
  cbn [fst snd] in *. simpl in Hf.
  (* the part after the head *)
  set (rest := if a1 <? b1 then _ else _).
  assert (separated rest ∧
    Forall (λ q, (∃ a b, a ∈ (a0, a1) :: left' ∧ b ∈ (b0, b1) :: right' ∧
                         q = (Z.max a.1 b.1, Z.min a.2 b.2)) ∧ Z.min a1 b1 + 1 < q.1) rest ∧
    ∀ c, in_ranges c ((a0, a1) :: left') = true ∧ in_ranges c ((b0, b1) :: right') = true ↔
      (Z.max a0 b0 ≤ c ≤ Z.min a1 b1) ∨ in_ranges c rest = true) as (Hs & Hq & Hin).
  { unfold rest. destruct (Z.ltb_spec a1 b1) as [Hlt|Hge].
    - destruct (IH left' ((b0, b1) :: right') Hl' Hr) as (Hs & Hq & Hin); [simpl; lia|].
      split_and!; [done| |].
      + eapply Forall_impl; [exact Hq|]. intros q (a & b & Hal & Hbr & ->). split.
        * exists a, b. split_and!; [by right|done|done].
        * rewrite list.Forall_forall in Hla. apply Hla in Hal. cbn [fst]. lia.
      + intros c. rewrite Hin, !in_ranges_cons. cbn [fst snd].
        assert (c ≤ a1 → in_ranges c right' = false) as Hno
          by (intros; eapply in_ranges_above; [exact Hrb|lia]).
        destruct (decide (c ≤ a1)) as [Hc|Hc]; [rewrite Hno by done|]; intuition (try lia; try done).
    - destruct (IH ((a0, a1) :: left') right' Hl Hr') as (Hs & Hq & Hin); [simpl; lia|].
      split_and!; [done| |].
      + eapply Forall_impl; [exact Hq|]. intros q (a & b & Hal & Hbr & ->). split.
        * exists a, b. split_and!; [done|by right|done].
        * rewrite list.Forall_forall in Hrb. apply Hrb in Hbr. cbn [fst]. lia.
      + intros c. rewrite Hin, !in_ranges_cons. cbn [fst snd].
        assert (c ≤ b1 → in_ranges c left' = false) as Hno
          by (intros; eapply in_ranges_above; [exact Hla|lia]).
        destruct (decide (c ≤ b1)) as [Hc|Hc]; [rewrite Hno by done|]; intuition (try lia; try done). }
  clearbody rest. destruct (Z.leb_spec (Z.max a0 b0) (Z.min a1 b1)) as [Hle|Hgt]; cbn [app].
  - split_and!.
    + apply separated_cons. split_and!; [done| |done].
      eapply Forall_impl; [exact Hq|]. by intros q [_ ?].
    + constructor; [|eapply Forall_impl; [exact Hq|]; by intros q [? _]].
      exists (a0, a1), (b0, b1). split_and!; [left|left|done].
    + intros c. rewrite Hin, in_ranges_cons. done.
  - split_and!; [done|eapply Forall_impl; [exact Hq|]; by intros q [? _]|].
    intros c. rewrite Hin. split; [by right|]. intros [?|?]; [lia|done].
Qed.

Lemma intersectRanges_spec left right :
  separated left → separated right →
  separated (intersectRanges left right) ∧
  ∀ c, in_ranges c (intersectRanges left right) = true ↔
    in_ranges c left = true ∧ in_ranges c right = true.
Proof.
  intros Hl Hr. destruct (intersect_loop_spec (length left + length right) left right Hl Hr)
    as (Hs & _ & Hin); [lia|]. by split.
Qed.

Lemma skip_before_spec cursor right :
  separated right → separated (skip_before cursor right) ∧
  ∀ c, cursor ≤ c → in_ranges c (skip_before cursor right) = in_ranges c right.
Proof.
  induction right as [|[lo hi] right IH]; intros Hs; [done|]. cbn [skip_before].
  destruct (Z.ltb_spec hi cursor) as [Hlt|]; [|done].
  apply separated_cons in Hs as (_ & _ & Hs). destruct (IH Hs) as [Hs' Hin]. split; [done|].
  intros c Hc. rewrite Hin by done. cbn. unfold in_range at 1. cbn [fst snd].
  rewrite (proj2 (Z.leb_gt c hi)) by lia. by rewrite andb_false_r.
Qed.

(** The pieces that a scan leaves lie between the cursor it had and the cursor
    that remains, and are what [right] does not cover there. *)
Lemma scan_range_spec leftHi cursor right pieces cursor' :
  separated right → cursor ≤ leftHi → scan_range leftHi cursor right = (pieces, cursor') →
  separated pieces ∧ cursor ≤ cursor' ∧
  Forall (λ q, cursor ≤ q.1 ∧ q.2 ≤ leftHi ∧ q.2 + 1 < cursor') pieces ∧
  ∀ c, cursor ≤ c ≤ leftHi →
    (in_ranges c pieces = true ∨ cursor' ≤ c ↔ in_ranges c right = false).
Proof.
  revert cursor pieces cursor'.
  induction right as [|[lo hi] right IH]; intros cursor pieces cursor' Hs Hle; cbn [scan_range].
  { intros [= <- <-]. split_and!; [constructor|done|constructor|]. intros c Hc.
    split; [done|right; lia]. }
  pose proof Hs as (Hlh & Hall & Hs')%separated_cons. cbn [fst snd] in *.
  destruct (Z.leb_spec lo leftHi) as [Hlo|Hlo].
  2:{ intros [= <- <-]. split_and!; [constructor|done|constructor|]. intros c Hc.
      split; [|right; lia]. intros _. apply (in_ranges_above c leftHi); [|lia].
      constructor; [done|]. eapply Forall_impl; [exact Hall|]. simpl. lia. }
  set (piece := if cursor <? lo then _ else _).
  assert (separated piece ∧ Forall (λ q, cursor ≤ q.1 ∧ q.2 ≤ leftHi ∧ q.2 + 1 = lo ∧ q.2 < hi) piece ∧
    ∀ c, in_ranges c piece = true ↔ cursor ≤ c < lo) as (Hps & Hpq & Hpin).
  { unfold piece. destruct (Z.ltb_spec cursor lo) as [Hlt|Hge].
    - replace (Z.min leftHi (lo - 1)) with (lo - 1) by lia. split_and!.
      + apply separated_cons. cbn [fst snd]. split_and!; [lia|constructor|constructor].
      + apply Forall_singleton. cbn [fst snd]. lia.
      + intros c. rewrite in_ranges_cons. cbn [fst snd in_ranges existsb]. intuition (try lia; done).
    - split_and!; [constructor..|]. intros c. split; [done|lia]. }
  clearbody piece. destruct (Z.ltb_spec leftHi (Z.max cursor (hi + 1))) as [Hend|Hgo].
  - intros [= <- <-]. split_and!; [done|lia| |].
    + eapply Forall_impl; [exact Hpq|]. simpl. lia.
    + intros c Hc. rewrite Hpin. split.
      * intros [?|?]; [|lia]. apply (in_ranges_above c (lo - 1)); [|lia].
        constructor; [simpl; lia|]. eapply Forall_impl; [exact Hall|]. simpl. lia.
      * intros Hno. left. apply not_true_iff_false in Hno.
        destruct (decide (c < lo)); [lia|]. exfalso. apply Hno, in_ranges_cons. left. simpl. lia.
  - destruct (scan_range _ _ right) as [rest cur] eqn:Er. intros [= <- <-].
    destruct (IH _ _ _ Hs' Hgo Er) as (Hrs & Hcur & Hrq & Hrin). split_and!.
    + apply separated_app; [done..|]. intros r q Hr Hq.
      rewrite list.Forall_forall in Hpq, Hrq. apply Hpq in Hr. apply Hrq in Hq. lia.
    + lia.
    + apply Forall_app. split; (eapply Forall_impl; [eassumption|]); simpl; lia.
    + intros c Hc. rewrite in_ranges_app, orb_true_iff, Hpin.
      destruct (decide (Z.max cursor (hi + 1) ≤ c)) as [Hbig|Hsmall].
      * specialize (Hrin c ltac:(lia)). cbn. unfold in_range at 1. cbn [fst snd].
        rewrite (proj2 (Z.leb_gt c hi)) by lia. rewrite andb_false_r. cbn [orb].
        change (existsb (in_range c) right) with (in_ranges c right). intuition lia.
      * assert (in_ranges c rest = false) as Hno.
        { apply not_true_is_false. intros (r & Hr & Hin)%in_ranges_elem.
          rewrite list.Forall_forall in Hrq. apply Hrq in Hr. lia. }
        rewrite Hno. split.
        -- intros [[?|?]|?]; [|done|lia]. apply (in_ranges_above c (lo - 1)); [|lia].
           constructor; [simpl; lia|]. eapply Forall_impl; [exact Hall|]. simpl. lia.
        -- intros Hr%not_true_iff_false. left. left.
           destruct (decide (c < lo)); [lia|]. exfalso. apply Hr, in_ranges_cons. left. simpl. lia.
Qed.

Lemma subtractRanges_spec left right :
  separated left → separated right →
  separated (subtractRanges left right) ∧
  Forall (λ q, ∃ a, a ∈ left ∧ a.1 ≤ q.1 ∧ q.2 ≤ a.2) (subtractRanges left right) ∧
  ∀ c, in_ranges c (subtractRanges left right) = true ↔
    in_ranges c left = true ∧ in_ranges c right = false.
Proof.
  revert right. induction left as [|[a0 a1] left IH]; intros right Hl Hr.
  { split_and!; [constructor..|]. intros c. by split; [|intros []]. }
  cbn [subtractRanges]. apply separated_cons in Hl as (Ha & Hall & Hl). cbn [fst snd] in *.
  destruct (skip_before_spec a0 right Hr) as [Hsk Hskin].
  destruct (scan_range a1 a0 (skip_before a0 right)) as [pieces cursor] eqn:Es.
  destruct (scan_range_spec _ _ _ _ _ Hsk Ha Es) as (Hps & Hcur & Hpq & Hpin).
  destruct (IH _ Hl Hsk) as (Hrs & Hrq & Hrin).
  set (rest := subtractRanges left _) in *. clearbody rest.
  rewrite app_assoc. set (here := pieces ++ _).
  assert (separated here ∧ Forall (λ q, a0 ≤ q.1 ∧ q.2 ≤ a1) here ∧
    ∀ c, in_ranges c here = true ↔ a0 ≤ c ≤ a1 ∧ in_ranges c right = false) as (Hhs & Hhq & Hhin).
  { assert (∀ c, in_ranges c here = true ↔ in_ranges c pieces = true ∨ cursor ≤ c ≤ a1) as Hh.
    { intros c. unfold here. rewrite in_ranges_app, orb_true_iff.
      destruct (Z.leb_spec cursor a1); [rewrite in_ranges_cons|]; cbn [fst snd in_ranges existsb];
        intuition (try lia; try done). }
    assert (Forall (λ q, a0 ≤ q.1 ∧ q.2 ≤ a1) here) as Hq.
    { apply Forall_app. split; [eapply Forall_impl; [exact Hpq|]; simpl; lia|].
      destruct (cursor <=? a1); [apply Forall_singleton; simpl; lia|constructor]. }
    split_and!; [|done|].
    - apply separated_app; [done| |].
      + destruct (Z.leb_spec cursor a1); [|constructor].
        apply separated_cons. split_and!; [done|constructor|constructor].
      + intros r q Hr' Hq'. rewrite list.Forall_forall in Hpq. apply Hpq in Hr'.
        destruct (cursor <=? a1); [|by apply not_elem_of_nil in Hq'].
        apply list_elem_of_singleton in Hq' as ->. simpl. lia.
    - intros c. rewrite Hh. split.
      + intros Hor. assert (a0 ≤ c ≤ a1) as Hc.
        { destruct Hor as [(r & Hr' & Hin)%in_ranges_elem|?]; [|lia].
          rewrite list.Forall_forall in Hpq. apply Hpq in Hr'. lia. }
        split; [done|]. rewrite <- Hskin by lia. apply Hpin; [done|]. destruct Hor; [by left|right; lia].
      + intros [Hc Hno]. rewrite <- Hskin in Hno by lia. apply Hpin in Hno; [|done].
        destruct Hno; [by left|right; lia]. }
  clearbody here. split_and!.
  - apply separated_app; [done..|]. intros r q Hr' Hq.
    rewrite list.Forall_forall in Hhq, Hrq, Hall. apply Hhq in Hr'.
    apply Hrq in Hq as (a & Hal & ? & ?). apply Hall in Hal. lia.
  - apply Forall_app. split.
    + eapply Forall_impl; [exact Hhq|]. intros q Hq. exists (a0, a1). split; [left|done].
    + eapply Forall_impl; [exact Hrq|]. intros q (a & ? & Hq). exists a. split; [by right|done].
  - intros c. rewrite in_ranges_app, orb_true_iff, Hhin, Hrin, in_ranges_cons. cbn [fst snd].
    assert (in_ranges c left = true → a0 ≤ c) as Hlow.
    { intros (r & Hr' & Hin)%in_ranges_elem. rewrite list.Forall_forall in Hall. apply Hall in Hr'. lia. }
    destruct (decide (a0 ≤ c)) as [Hc|Hc]; [rewrite (Hskin c Hc)|]; intuition lia.
Qed.

Lemma unionRanges_spec left right :
  Forall (λ r, r.1 ≤ r.2) left → Forall (λ r, r.1 ≤ r.2) right →
  separated (unionRanges left right) ∧
  ∀ c, in_ranges c (unionRanges left right) = true ↔
    in_ranges c left = true ∨ in_ranges c right = true.
Proof.
  intros Hl Hr. destruct (normalize_spec (left ++ right)) as [Hs Hin]; [by apply Forall_app|].
  split; [done|]. intros c. unfold unionRanges. by rewrite Hin, in_ranges_app, orb_true_iff.
Qed.

(** * Sets of strings *)

Lemma sequenceKey_split q : q ≠ [] → split_on 44 (sequenceKey q) = js_num <$> q.
Proof.
  intros Hq. unfold sequenceKey. apply split_join; [by destruct q|].
  apply Forall_fmap, list.Forall_forall. intros z _ Hin. pose proof (js_num_units z) as Hz.
  rewrite list.Forall_forall in Hz. apply Hz in Hin. unfold num_unit in Hin. lia.
Qed.

Lemma join_js_num_ne x q : sequenceKey (x :: q) ≠ sequenceKey [].
Proof.
  intros H. apply (f_equal (split_on 44)) in H. rewrite sequenceKey_split in H by done.
  injection H as H _. by apply (js_num_ne x).
Qed.

Lemma sequenceKey_inj q q' : sequenceKey q = sequenceKey q' → q = q'.
Proof.
  destruct q as [|x q], q' as [|y q']; [done|intros H..].
  - symmetry in H. by apply join_js_num_ne in H.
  - by apply join_js_num_ne in H.
  - apply (f_equal (split_on 44)) in H. rewrite !sequenceKey_split in H by done.
    by apply (inj (fmap js_num)) in H.
Qed.

(** The strings of a set: each under its own key, and none a single code point. *)
Definition strings_ok (m : jsmap jsstr (list Z)) : Prop :=
  NoDup m.*1 ∧ Forall (λ e, e.1 = sequenceKey e.2 ∧ length e.2 ≠ 1%nat) m.

Definition set_ok (s : UnicodeStringSet) : Prop :=
  separated (us_ranges s) ∧ strings_ok (us_strings s).

(** The sequences of code points that a set holds. *)
Definition member (q : list Z) (s : UnicodeStringSet) : Prop :=
  match q with
  | [c] => in_ranges c (us_ranges s) = true
  | _ => q ∈ (us_strings s).*2
  end.

Lemma strings_ok_elem m k q : strings_ok m → (k, q) ∈ m → k = sequenceKey q ∧ length q ≠ 1%nat.
Proof. intros [_ Hall] Hin. rewrite list.Forall_forall in Hall. by apply Hall in Hin. Qed.

Lemma strings_ok_get m q : strings_ok m → q ∈ m.*2 ↔ jm_get m (sequenceKey q) = Some q.
Proof.
  intros Hm. rewrite list_elem_of_fmap. split.
  - intros ([k q'] & -> & Hin). cbn [snd]. apply jm_elem_get; [apply Hm|].
    by destruct (strings_ok_elem _ _ _ Hm Hin) as [<- _].
  - intros Hget%jm_get_elem. by exists (sequenceKey q, q).
Qed.

Lemma strings_ok_intro m :
  NoDup m.*1 → (∀ k q, jm_get m k = Some q → k = sequenceKey q ∧ length q ≠ 1%nat) → strings_ok m.
Proof.
  intros Hnd Hall. split; [done|]. apply list.Forall_forall. intros [k q] Hin. cbn [fst snd].
  apply Hall. by apply jm_elem_get.
Qed.

(** What a key can lead to. *)
Lemma strings_ok_key m k q : strings_ok m → jm_get m k = Some q → k = sequenceKey q ∧ length q ≠ 1%nat.
Proof. intros Hm Hget%jm_get_elem. by apply strings_ok_elem in Hget. Qed.

Lemma strings_set m q :
  strings_ok m → length q ≠ 1%nat →
  strings_ok (jm_set m (sequenceKey q) q) ∧
  ∀ q', q' ∈ (jm_set m (sequenceKey q) q).*2 ↔ q' = q ∨ q' ∈ m.*2.
Proof.
  intros Hm Hq. assert (strings_ok (jm_set m (sequenceKey q) q)) as Hok.
  { apply strings_ok_intro; [apply jm_set_nodup, Hm|]. intros k q'. rewrite jm_get_set.
    case_decide as Hk; [intros [= <-]; by subst|]. by apply strings_ok_key. }
  split; [done|]. intros q'. rewrite (strings_ok_get _ _ Hok), (strings_ok_get _ _ Hm), jm_get_set.
  case_decide as Hk.
  - apply sequenceKey_inj in Hk as ->. by split; [left|].
  - split; [by right|]. intros [-> |?]; done.
Qed.

Lemma ex_elem_cons {A} (Q : A → Prop) x l :
  (∃ e, e ∈ x :: l ∧ Q e) ↔ Q x ∨ ∃ e, e ∈ l ∧ Q e.
Proof.
  setoid_rewrite elem_of_cons. split.
  - intros (e & [-> |?] & ?); [by left|right; by exists e].
  - intros [?|(e & ? & ?)]; [exists x; auto|exists e; auto].
Qed.

(** Adding, one by one, the entries that pass a test. *)
Lemma strings_add (P : jsstr * list Z → bool) es m :
  strings_ok m → Forall (λ e, e.1 = sequenceKey e.2 ∧ length e.2 ≠ 1%nat) es →
  let m' := foldl (λ m e, if P e then jm_set m e.1 e.2 else m) m es in
  strings_ok m' ∧ ∀ q, q ∈ m'.*2 ↔ q ∈ m.*2 ∨ ∃ e, e ∈ es ∧ P e = true ∧ e.2 = q.
Proof.
  intros Hm Hes. revert m Hm. induction Hes as [|e es [Hk Hlen] _ IH]; intros m Hm; cbv zeta.
  { split; [done|]. intros q. split; [by left|]. intros [?|(e & He & _)]; [done|].
    by apply not_elem_of_nil in He. }
  cbn [foldl]. destruct (P e) eqn:EP.
  - destruct (strings_set m e.2 Hm Hlen) as [Hok Hin]. rewrite Hk.
    destruct (IH _ Hok) as [Hok' Hin']. split; [done|]. intros q.
    rewrite Hin', Hin, (ex_elem_cons (λ e, P e = true ∧ e.2 = q)), EP.
    split; [intros [[-> |?]|?]; auto|]. intros [?|[[_ <-]|?]]; auto.
  - destruct (IH _ Hm) as [Hok' Hin']. split; [done|]. intros q.
    rewrite Hin', (ex_elem_cons (λ e, P e = true ∧ e.2 = q)), EP.
    split; [intros [?|?]; auto|]. intros [?|[[? _]|?]]; auto; done.
Qed.

Lemma jm_get_delete {V} (m : jsmap jsstr V) k k' :
  jm_get (jm_delete m k) k' = if decide (k = k') then None else jm_get m k'.
Proof.
  unfold jm_delete. induction m as [|[k0 v] m IH]; [by case_decide|].
  rewrite filter_cons. cbn [fst]. destruct (decide (k0 ≠ k)) as [Hne|Heq]; cbn [jm_get]; rewrite IH.
  - repeat case_decide; congruence.
  - apply dec_stable in Heq as ->. repeat case_decide; congruence.
Qed.

Lemma jm_delete_nodup {V} (m : jsmap jsstr V) k : NoDup m.*1 → NoDup (jm_delete m k).*1.
Proof.
  unfold jm_delete. induction m as [|[k0 v] m IH]; [done|]. csimpl.
  intros [Hk Hnd]%NoDup_cons. rewrite filter_cons. case_decide; csimpl; [|by apply IH].
  apply NoDup_cons. split; [|by apply IH]. intros (e & He & Hin)%list_elem_of_fmap.
  apply Hk. apply list_elem_of_filter in Hin as [_ Hin]. apply list_elem_of_fmap. by exists e.
Qed.

(** Deleting keys one by one. *)
Lemma strings_delete ks m :
  strings_ok m →
  let m' := foldl jm_delete m ks in
  strings_ok m' ∧ ∀ q, q ∈ m'.*2 ↔ q ∈ m.*2 ∧ sequenceKey q ∉ ks.
Proof.
  revert m. induction ks as [|k ks IH]; intros m Hm; cbv zeta.
  { split; [done|]. intros q. split; [intros ?; split; [done|apply not_elem_of_nil]|by intros [? _]]. }
  assert (strings_ok (jm_delete m k)) as Hok.
  { apply strings_ok_intro; [apply jm_delete_nodup, Hm|]. intros k' q. rewrite jm_get_delete.
    case_decide; [done|]. by apply strings_ok_key. }
  cbn [foldl]. destruct (IH _ Hok) as [Hok' Hin]. split; [done|]. intros q.
  rewrite Hin, (strings_ok_get _ _ Hok), (strings_ok_get _ _ Hm), jm_get_delete, not_elem_of_cons.
  case_decide; [split; [by intros [? _]|naive_solver]|naive_solver].
Qed.

Lemma member_strings q s : length q ≠ 1%nat → member q s ↔ q ∈ (us_strings s).*2.
Proof. by destruct q as [|? [|]]. Qed.

(** A property of the members of a set, case by case. *)
Lemma member_cases (P : list Z → Prop) :
  (∀ c, P [c]) → (∀ q, length q ≠ 1%nat → P q) → ∀ q, P q.
Proof. intros H1 H2 [|c [|]]; [by apply H2|apply H1|by apply H2]. Qed.

Lemma set_union_spec left right :
  set_ok left → set_ok right →
  set_ok (set_union left right) ∧ ∀ q, member q (set_union left right) ↔ member q left ∨ member q right.
Proof.
  intros [Hl Hlm] [Hr Hrm].
  destruct (unionRanges_spec _ _ (separated_valid _ Hl) (separated_valid _ Hr)) as [Hs Hin].
  destruct (strings_add (λ _, true) (us_strings left ++ us_strings right) []) as [Hok Hm].
  { split; constructor. } { apply Forall_app. split; [apply Hlm|apply Hrm]. }
  split; [by split|]. apply member_cases; [exact Hin|]. intros q Hq.
  rewrite !member_strings by done. cbn [set_union us_strings]. unfold union_strings. rewrite Hm.
  rewrite !list_elem_of_fmap. setoid_rewrite elem_of_app. split.
  - intros [(? & _ & ?%not_elem_of_nil)|(e & [?|?] & _ & <-)]; [done|left; by exists e|right; by exists e].
  - intros [(e & -> & ?)|(e & -> & ?)]; right; exists e; auto.
Qed.

Lemma set_intersect_spec left right :
  set_ok left → set_ok right →
  set_ok (set_intersect left right) ∧
  ∀ q, member q (set_intersect left right) ↔ member q left ∧ member q right.
Proof.
  intros [Hl Hlm] [Hr Hrm]. destruct (intersectRanges_spec _ _ Hl Hr) as [Hs Hin].
  destruct (strings_add (λ e, jm_has (us_strings right) e.1) (us_strings left) []) as [Hok Hm].
  { split; constructor. } { apply Hlm. }
  split; [by split|]. apply member_cases; [exact Hin|]. intros q Hq.
  rewrite !member_strings by done. cbn [set_intersect us_strings]. rewrite Hm, (strings_ok_get _ q Hrm).
  unfold jm_has. split.
  - intros [?%not_elem_of_nil|([k q'] & Hel & Hhas & [= ->])]; [done|]. cbn [fst] in Hhas.
    destruct (strings_ok_elem _ _ _ Hlm Hel) as [-> _].
    destruct (jm_get (us_strings right) _) as [q'|] eqn:Eg; [|done].
    destruct (strings_ok_key _ _ _ Hrm Eg) as [->%sequenceKey_inj _].
    split; [|done]. apply list_elem_of_fmap. by exists (sequenceKey q', q').
  - intros [([k q'] & -> & Hel)%list_elem_of_fmap Hget]. right. exists (k, q'). split_and!; [done| |done].
    cbn [fst snd] in *. destruct (strings_ok_elem _ _ _ Hlm Hel) as [-> _]. by rewrite Hget.
Qed.

Lemma set_subtract_spec left right :
  set_ok left → set_ok right →
  set_ok (set_subtract left right) ∧
  ∀ q, member q (set_subtract left right) ↔ member q left ∧ ¬ member q right.
Proof.
  intros [Hl Hlm] [Hr Hrm]. destruct (subtractRanges_spec _ _ Hl Hr) as (Hs & _ & Hin).
  destruct (strings_delete (us_strings right).*1 (us_strings left) Hlm) as [Hok Hm].
  split; [by split|]. apply member_cases.
  - intros c. cbn [member set_subtract us_ranges]. by rewrite Hin, not_true_iff_false.
  - intros q Hq. rewrite !member_strings by done. cbn [set_subtract us_strings]. rewrite Hm.
    rewrite (strings_ok_get _ q Hrm). rewrite <- jm_get_None.
    split; (intros [? H]; split; [done|]).
    + by rewrite H.
    + destruct (jm_get (us_strings right) _) as [q'|] eqn:Eg; [|done].
      destruct (strings_ok_key _ _ _ Hrm Eg) as [->%sequenceKey_inj _]. done.
Qed.

Lemma separated_snoc_inv rs r :
  separated (rs ++ [r]) → separated rs ∧ r.1 ≤ r.2 ∧ ∀ q, q ∈ rs → q.2 + 1 < r.1.
Proof.
  induction rs as [|q rs IH]; cbn [app]; intros (Hle & Hall & Hs)%separated_cons.
  - split_and!; [constructor|done|]. intros q Hq. by apply not_elem_of_nil in Hq.
  - destruct (IH Hs) as (Hrs & Hr & Hlt). apply Forall_app in Hall as [Hall Hq].
    apply Forall_cons in Hq as [Hq _]. split_and!; [by apply separated_cons|done|].
    intros q' [-> |?]%elem_of_cons; [exact Hq|by apply Hlt].
Qed.

Lemma singleton_step_spec out cp :
  (∀ r, r ∈ out → r.2 ≤ cp) → separated (reverse out) →
  separated (reverse (singleton_step out cp)) ∧
  (∀ r, r ∈ singleton_step out cp → r.2 ≤ cp) ∧
  ∀ c, in_ranges c (singleton_step out cp) = true ↔ c = cp ∨ in_ranges c out = true.
Proof.
  intros Hle Hs. unfold singleton_step. destruct out as [|[lo hi] out].
  - split_and!.
    + constructor; [simpl; lia|constructor..].
    + intros r ->%list_elem_of_singleton. simpl. lia.
    + intros c. rewrite in_ranges_cons. cbn [fst snd].
      assert (cp ≤ c ≤ cp ↔ c = cp) as -> by lia. tauto.
  - assert (hi ≤ cp) as Hhi by (apply (Hle (lo, hi)); left).
    assert (∀ r, r ∈ out → r.2 + 1 < lo ∧ lo ≤ hi) as Hout.
    { intros r Hr. rewrite reverse_cons in Hs. apply separated_snoc_inv in Hs as (_ & ? & Hall).
      split; [|done]. apply Hall. by apply elem_of_reverse. }
    rewrite reverse_cons in Hs. apply separated_snoc_inv in Hs as (Hs & Hlh & Hall). cbn [fst snd] in Hlh.
    destruct (Z.leb_spec cp (hi + 1)) as [Hc|Hc].
    + split_and!.
      * rewrite reverse_cons. apply separated_app; [done|constructor; [simpl; lia|constructor..]|].
        intros r q Hr ->%list_elem_of_singleton. by apply Hall.
      * intros r [-> |Hr]%elem_of_cons; [simpl; lia|]. apply Hle. by right.
      * intros c. rewrite !in_ranges_cons. cbn [fst snd].
        assert (lo ≤ c ≤ Z.max hi cp ↔ c = cp ∨ lo ≤ c ≤ hi) as -> by lia. tauto.
    + split_and!.
      * rewrite reverse_cons. apply separated_app; [|constructor; [simpl; lia|constructor..]|].
        -- rewrite reverse_cons. apply separated_app; [done|constructor; [simpl; lia|constructor..]|].
           intros r q Hr ->%list_elem_of_singleton. by apply Hall.
        -- intros r q Hr ->%list_elem_of_singleton. cbn [fst].
           rewrite elem_of_reverse in Hr. apply elem_of_cons in Hr as [-> |Hr]; [simpl; lia|].
           apply Hout in Hr. lia.
      * intros r [-> |Hr]%elem_of_cons; [simpl; lia|]. by apply Hle.
      * intros c. rewrite (in_ranges_cons c (cp, cp)). cbn [fst snd].
        assert (cp ≤ c ≤ cp ↔ c = cp) as -> by lia. tauto.
Qed.

Lemma singletonRanges_spec cps :
  separated (singletonRanges cps) ∧ ∀ c, in_ranges c (singletonRanges cps) = true ↔ c ∈ cps.
Proof.
  unfold singletonRanges.
  assert (∀ l out, StronglySorted Z.le l → (∀ r x, r ∈ out → x ∈ l → r.2 ≤ x) →
    separated (reverse out) →
    separated (reverse (foldl singleton_step out l)) ∧
    ∀ c, in_ranges c (foldl singleton_step out l) = true ↔ c ∈ l ∨ in_ranges c out = true) as Hloop.
  { induction l as [|x l IH]; intros out Hl Hout Hs.
    { split; [done|]. intros c. rewrite elem_of_nil. tauto. }
    apply StronglySorted_inv in Hl as [Hl Hx]. rewrite list.Forall_forall in Hx.
    destruct (singleton_step_spec out x) as (Hs' & Hle & Hin); [|done|].
    { intros r Hr. apply (Hout r x Hr). left. }
    cbn [foldl]. destruct (IH (singleton_step out x)) as [Hok Hmem]; [done| |done|].
    { intros r y Hr Hy. apply Hle in Hr. apply Hx in Hy. lia. }
    split; [done|]. intros c. rewrite Hmem, Hin, elem_of_cons. tauto. }
  destruct (Hloop (merge_sort Z.le cps) []) as [Hok Hmem].
  { apply StronglySorted_merge_sort; [apply _..]. }
  { intros r x Hr. by apply not_elem_of_nil in Hr. } { constructor. }
  split; [done|]. intros c.
  rewrite (in_ranges_permutation c _ _ (reverse_Permutation _)), Hmem, merge_sort_Permutation.
  by split; [intros [?|?]|left].
Qed.

Lemma add_sequence_spec seqs singles strings :
  strings_ok strings →
  let st := foldl add_sequence (singles, strings) seqs in
  strings_ok st.2 ∧
  (∀ c, c ∈ st.1 ↔ c ∈ singles ∨ [c] ∈ seqs) ∧
  (∀ q, length q ≠ 1%nat → q ∈ st.2.*2 ↔ q ∈ strings.*2 ∨ q ∈ seqs).
Proof.
  revert singles strings. induction seqs as [|q seqs IH]; intros singles strings Hok; cbv zeta.
  { split_and!; [done|intros c|intros q Hq]; rewrite elem_of_nil; tauto. }
  cbn [foldl]. destruct (decide (length q = 1%nat)) as [Hq|Hq].
  - destruct q as [|c [|]]; [done| |done]. cbn [add_sequence].
    destruct (IH (singles ++ [c]) strings Hok) as (Hok' & Hs & Hm). split_and!; [done| |].
    + intros c'. rewrite Hs, elem_of_app, list_elem_of_singleton, elem_of_cons.
      assert ([c'] = [c] ↔ c' = c) as -> by (split; congruence). tauto.
    + intros q' Hq'. rewrite Hm, elem_of_cons by done.
      assert (q' = [c] ↔ False) as -> by (split; [by intros ->|done]). tauto.
  - destruct (strings_set strings q Hok Hq) as [Hok1 Hset].
    assert (add_sequence (singles, strings) q = (singles, jm_set strings (sequenceKey q) q)) as ->
      by (by destruct q as [|? [|]]).
    destruct (IH singles _ Hok1) as (Hok' & Hs & Hm). split_and!; [done| |].
    + intros c. rewrite Hs, elem_of_cons.
      assert ([c] = q ↔ False) as -> by (split; [by intros <-|done]). tauto.
    + intros q' Hq'. rewrite Hm, Hset, elem_of_cons by done. tauto.
Qed.

Lemma fromSequences_spec seqs :
  set_ok (fromSequences seqs) ∧ ∀ q, member q (fromSequences seqs) ↔ q ∈ seqs.
Proof.
  unfold fromSequences. destruct (foldl add_sequence ([], []) seqs) as [singles strings] eqn:E.
  destruct (add_sequence_spec seqs [] []) as (Hok & Hs & Hm); [by split; constructor|].
  rewrite E in *. cbn [fst snd] in *. destruct (singletonRanges_spec singles) as [Hsep Hin].
  split; [by split|]. apply member_cases.
  - intros c. cbn [member us_ranges]. rewrite Hin, Hs, elem_of_nil. tauto.
  - intros q Hq. rewrite member_strings by done. cbn [us_strings]. rewrite Hm by done.
    csimpl. rewrite elem_of_nil. tauto.
Qed.

(** C34: The sets of strings of v mode are an exact set algebra.  A set built from
    a list of sequences holds exactly those sequences; union, intersection and
    subtraction hold exactly the sequences the set operation of that name says,
    single code points (kept as ranges) and strings (kept under a textual key)
    alike; and every result is again well formed: its ranges sorted, disjoint
    and coalesced, its strings each under its own key. *)
Theorem string_set_algebra left right (Hl : set_ok left) (Hr : set_ok right) seqs :
  (set_ok (fromSequences seqs) ∧ ∀ q, member q (fromSequences seqs) ↔ q ∈ seqs) ∧
  (set_ok (set_union left right) ∧
     ∀ q, member q (set_union left right) ↔ member q left ∨ member q right) ∧
  (set_ok (set_intersect left right) ∧
     ∀ q, member q (set_intersect left right) ↔ member q left ∧ member q right) ∧
  (set_ok (set_subtract left right) ∧
     ∀ q, member q (set_subtract left right) ↔ member q left ∧ ¬ member q right).
Proof.
  split_and!.
  - apply fromSequences_spec.
  - apply fromSequences_spec.
  - by apply set_union_spec.
  - by apply set_union_spec.
  - by apply set_intersect_spec.
  - by apply set_intersect_spec.
  - by apply set_subtract_spec.
  - by apply set_subtract_spec.
Qed.

Lemma string_set_algebra_witness :
  let left := fromSequences [[0x61]; [0x62]; [0x63]; [0x31; 0x20e3]] in
  let right := fromSequences [[0x62]; [0x31; 0x20e3]; []] in
  us_ranges (set_subtract left right) = [(0x61, 0x61); (0x63, 0x63)] ∧
  us_strings (set_subtract left right) = [] ∧
  member [0x31; 0x20e3] (set_intersect left right) ∧ member [] (set_union left right).
Proof.
  cbv zeta. split; [vm_compute; reflexivity|]. split; [vm_compute; reflexivity|].
  assert (set_ok (fromSequences [[0x61]; [0x62]; [0x63]; [0x31; 0x20e3]])) as Hl
    by apply fromSequences_spec.
  assert (set_ok (fromSequences [[0x62]; [0x31; 0x20e3]; []])) as Hr by apply fromSequences_spec.
  destruct (string_set_algebra _ _ Hl Hr [[]]) as (_ & [_ Hu] & [_ Hi] & _).
  split; [apply Hi; split; vm_compute|apply Hu; right; vm_compute];
    repeat first [apply list_elem_of_here | apply list_elem_of_further].
Defined.

(** * Evaluation yields a well-formed set *)

(** What the generated table holds: code points, in base 36. *)
Class StringPropertyDataOk `{StringPropertyData} : Prop :=
  property_data_points name item cp :
    name ∈ PROPERTY_NAMES → name ≠ js "RGI_Emoji" → item ∈ split_on 0x2c (property_data name) →
    cp ∈ split_on 0x2e item → yields is_cp (parse36 cp).

(** A well-formed set of sequences of code points. *)
Definition good_set (s : UnicodeStringSet) : Prop := set_ok s ∧ ∀ q, member q s → Forall is_cp q.

(** A part of a class text: code units, and no longer than the text. *)
Definition part_of (n : nat) (p : jsstr) : Prop := (length p ≤ n)%nat ∧ Forall is_unit p.

Lemma map_result_yields {A B} (P : B → Prop) (f : A → result B) l :
  (∀ x, x ∈ l → yields P (f x)) →
  yields (λ ys, Forall P ys ∧ length ys = length l) (map_result f l).
Proof.
  induction l as [|x l IH]; intros Hf; cbn [map_result]; [by split|].
  ybind (apply Hf; left). intros y Hy.
  ybind (apply IH; intros; apply Hf; by right). intros ys [Hys Hl].
  split; [by constructor|simpl; by rewrite Hl].
Qed.

Lemma reduce_parts_yields op eval parts :
  parts ≠ [] → (∀ p, p ∈ parts → yields good_set (eval p)) →
  (∀ a b, good_set a → good_set b → good_set (op a b)) → yields good_set (reduce_parts op eval parts).
Proof.
  intros Hne Heval Hop. unfold reduce_parts.
  ybind (by apply map_result_yields). intros [|s sets] [Hs Hl]; [done|].
  apply Forall_cons in Hs as [Hs Hsets]. cbn [yields]. clear Hl. revert s Hs.
  induction Hsets as [|s' sets Hs' _ IH]; intros s Hs; [done|]. apply IH. by apply Hop.
Qed.

Lemma set_union_good a b : good_set a → good_set b → good_set (set_union a b).
Proof.
  intros [Ha Hpa] [Hb Hpb]. destruct (set_union_spec _ _ Ha Hb) as [Hok Hm].
  split; [done|]. intros q [?|?]%Hm; auto.
Qed.

Lemma set_intersect_good a b : good_set a → good_set b → good_set (set_intersect a b).
Proof.
  intros [Ha Hpa] [Hb Hpb]. destruct (set_intersect_spec _ _ Ha Hb) as [Hok Hm].
  split; [done|]. intros q [? _]%Hm; auto.
Qed.

Lemma set_subtract_good a b : good_set a → good_set b → good_set (set_subtract a b).
Proof.
  intros [Ha Hpa] [Hb Hpb]. destruct (set_subtract_spec _ _ Ha Hb) as [Hok Hm].
  split; [done|]. intros q [? _]%Hm; auto.
Qed.

Lemma fromSequences_good seqs : Forall (Forall is_cp) seqs → good_set (fromSequences seqs).
Proof.
  intros Hs. destruct (fromSequences_spec seqs) as [Hok Hm]. split; [done|].
  intros q Hq%Hm. rewrite list.Forall_forall in Hs. by apply Hs.
Qed.

Lemma empty_set_good : good_set empty_set.
Proof.
  split; [split; constructor; constructor|]. intros [|c [|]]; [by intros ?%not_elem_of_nil|done|].
  by intros ?%not_elem_of_nil.
Qed.

Lemma js_slice_part s a b : Forall is_unit s → part_of (length s) (js_slice s a b).
Proof.
  intros Hs. split; [unfold js_slice; rewrite length_take, length_drop; lia|].
  unfold js_slice. by apply Forall_take, Forall_drop.
Qed.

Lemma drop_part s n : Forall is_unit s → part_of (length s) (drop n s).
Proof. intros Hs. split; [rewrite length_drop; lia|by apply Forall_drop]. Qed.

Lemma part_of_le n m p : (n ≤ m)%nat → part_of n p → part_of m p.
Proof. intros Hle [Hl Hu]. split; [lia|done]. Qed.

Section evaluation.
Context `{StringPropertyDataOk, RangeEnumeratorOk}.

Lemma decodeProperty_yields name :
  name ∈ PROPERTY_NAMES → name ≠ js "RGI_Emoji" → yields good_set (decodeProperty name).
Proof.
  intros Hname Hne. unfold decodeProperty.
  eapply yields_bind; [apply (map_result_yields (Forall is_cp))|
    intros seqs [Hseqs _]; by apply fromSequences_good]. intros item Hitem.
  eapply yields_mono; [apply map_result_yields|by intros ? [? _]]. intros cp Hcp.
  by apply (property_data_points name item).
Qed.

Lemma unicodeStringProperty_yields name :
  name ∈ PROPERTY_NAMES → yields good_set (unicodeStringProperty name).
Proof.
  intros Hname. unfold unicodeStringProperty. case_bool_decide as Hr; [|by apply decodeProperty_yields].
  apply (reduce_parts_yields set_union decodeProperty); [done| |apply set_union_good].
  intros p [Hp Hin]%list_elem_of_filter. by apply decodeProperty_yields.
Qed.

Lemma unicodeStringPropertyEscape_yields source :
  yields (λ o, ∀ s, o = Some s → good_set s) (unicodeStringPropertyEscape source).
Proof.
  unfold unicodeStringPropertyEscape. destruct (bool_decide _); [|done].
  destruct (span_until _ _) as [name [|? [|]]]; [done| |done].
  destruct (negb _ && _) eqn:E; [|done]. apply andb_true_iff in E as [_ E%bool_decide_eq_true_1].
  eapply yields_bind; [by apply unicodeStringProperty_yields|]. by intros s Hs ? [= <-].
Qed.

Lemma brace_end_le fuel source index : index ≤ brace_end fuel source index.
Proof.
  revert index. induction fuel as [|fuel IH]; intros index; cbn [brace_end]; [done|].
  destruct (_ && _); [|done]. specialize (IH (index + 1)). lia.
Qed.

Lemma closing_brace_yields source start fuel index :
  start ≤ index → Z.max 0 (len source - index) < Z.of_nat fuel →
  yields (λ i, start ≤ i < len source) (closing_brace_loop fuel source index).
Proof.
  revert index. induction fuel as [|fuel IH]; intros index Hs Hf; [lia|]. cbn [closing_brace_loop].
  destruct (Z.leb_spec (len source) index) as [|Hlt]; [done|].
  destruct (negb _).
  - destruct (unit_is _ _ _); [simpl; lia|]. apply IH; lia.
  - pose proof (brace_end_le (length source) source (index + 3)).
    destruct (_ && _); apply IH; lia.
Qed.

Lemma findClosingBrace_yields source start :
  0 ≤ start → yields (λ i, start ≤ i < len source) (findClosingBrace source start).
Proof. intros Hs. apply closing_brace_yields; unfold len in *; lia. Qed.

Lemma closing_class_yields source start fuel index depth :
  0 ≤ start ≤ index → Z.max 0 (len source - index) < Z.of_nat fuel →
  yields (λ i, start ≤ i < len source) (closing_class_loop fuel source index depth).
Proof.
  revert index depth. induction fuel as [|fuel IH]; intros index depth Hs Hf; [lia|].
  cbn [closing_class_loop]. destruct (Z.leb_spec (len source) index) as [|Hlt]; [done|].
  destruct (unit_is source index 0x5c).
  - destruct (_ && _); [|apply IH; lia].
    ybind (apply findClosingBrace_yields; lia). intros i Hi. apply IH; lia.
  - destruct (unit_is source index 0x5b); [apply IH; lia|].
    destruct (unit_is source index 0x5d); [|apply IH; lia].
    destruct (depth - 1 =? 0); [simpl; lia|apply IH; lia].
Qed.

Lemma findClosingClass_yields source start :
  0 ≤ start → yields (λ i, start < i < len source) (findClosingClass source start).
Proof.
  intros Hs. eapply yields_mono; [apply (closing_class_yields source (start + 1)); unfold len; lia|].
  simpl. lia.
Qed.

Lemma index_from_le c s i start j : index_from c s i start = Some j → i ≤ j ∧ start ≤ j < i + len s.
Proof.
  revert i. induction s as [|x s IH]; intros i; cbn [index_from]; [done|]. unfold len in *. simpl.
  destruct (Z.leb_spec start i); cbn [andb].
  - destruct (x =? c); [intros [= <-]; lia|]. intros Hj%IH. lia.
  - intros Hj%IH. lia.
Qed.

Lemma indexOf_le c s start j : indexOf c s start = Some j → start ≤ j < len s.
Proof. intros Hj%index_from_le. lia. Qed.

Lemma length_js_slice (s : jsstr) a b :
  Z.of_nat (length (js_slice s a b)) ≤ Z.max 0 (b - a) ∧ (length (js_slice s a b) ≤ length s)%nat.
Proof. unfold js_slice. rewrite length_take, length_drop. lia. Qed.

Lemma split_loop_yields source operator fuel index start parts found :
  0 ≤ start → 0 ≤ index → Z.max 0 (len source - index) < Z.of_nat fuel →
  Forall is_unit source → Forall (part_of (length source)) parts →
  yields (λ o, ∀ ps, o = Some ps → ps ≠ [] ∧ Forall (part_of (length source)) ps)
    (split_loop fuel source operator index start parts found).
Proof.
  revert index start parts found.
  induction fuel as [|fuel IH]; intros index start parts found Hs Hi Hf Hu Hp; [lia|].
  cbn [split_loop]. destruct (Z.leb_spec (len source) index) as [|Hlt].
  { destruct found; [|done]. intros ? [= <-]. split; [by destruct parts|].
    apply Forall_app. split; [done|]. apply Forall_singleton. by apply drop_part. }
  destruct (unit_is source index 0x5c).
  { destruct (_ && _).
    { ybind (apply findClosingBrace_yields; lia). intros i Hi'. apply IH; [lia..|done|done]. }
    destruct (_ && _); [|apply IH; [lia..|done|done]].
    destruct (indexOf _ _ _) as [i|] eqn:Ei; [|done]. apply indexOf_le in Ei. apply IH; [lia..|done|done]. }
  destruct (unit_is source index 0x5b).
  { ybind (apply findClosingClass_yields; lia). intros i Hi'. apply IH; [lia..|done|done]. }
  destruct (starts_at _ _ _); [|apply IH; [lia..|done|done]].
  apply IH; [unfold len; lia|lia..|done|]. apply Forall_app. split; [done|].
  apply Forall_singleton. by apply js_slice_part.
Qed.

Lemma splitTopLevel_yields source operator :
  Forall is_unit source →
  yields (λ o, ∀ ps, o = Some ps → ps ≠ [] ∧ Forall (part_of (length source)) ps)
    (splitTopLevel source operator).
Proof. intros Hu. apply split_loop_yields; [lia..|unfold len; lia|done|constructor]. Qed.

Lemma flushOrdinary_yields flagStr set ordinary :
  good_set set → yields good_set (flushOrdinary flagStr set ordinary).
Proof.
  intros Hs. unfold flushOrdinary. destruct (bool_decide _); [done|].
  eapply yields_bind; [apply settles_yields; [apply enum_ranges_terminates|apply enum_ranges_ok]|].
  intros ranges Hr. destruct Hs as [[Hs Hm] Hp].
  assert (Forall (λ r, r.1 ≤ r.2) ranges) as Hv by (eapply Forall_impl; [exact Hr|]; simpl; lia).
  destruct (unionRanges_spec _ _ (separated_valid _ Hs) Hv) as [Hsep Hin].
  destruct (strings_add (λ _, true) (us_strings set ++ []) []) as [Hok Hmem];
    [split; constructor|rewrite app_nil_r; apply Hm|].
  split; [by split|]. apply (member_cases (λ q, member q _ → Forall is_cp q)).
  - intros c [Hc|(r & Hel & Hc)%in_ranges_elem]%Hin; [by apply (Hp [c])|]. apply Forall_singleton.
    unfold cp_ranges in Hr. rewrite list.Forall_forall in Hr. apply Hr in Hel. unfold is_cp. lia.
  - intros q Hq. rewrite !member_strings by done. cbn [set_union us_strings].
    unfold union_strings. intros [?%not_elem_of_nil|(e & He & _ & <-)]%Hmem; [done|].
    apply Hp. rewrite member_strings by done. rewrite app_nil_r in He.
    apply list_elem_of_fmap. by exists e.
Qed.

Lemma span_until_length c s : (length (span_until c s).2 ≤ length s)%nat.
Proof.
  induction s as [|x s IH]; [done|]. cbn [span_until]. destruct (x =? c); [done|].
  destruct (span_until c s). simpl in *. lia.
Qed.

Lemma Forall_span_until (P : Z → Prop) c s : Forall P s → Forall P (span_until c s).2.
Proof.
  induction 1 as [|x s Hx Hs IH]; [done|]. cbn [span_until].
  destruct (x =? c); [by constructor|]. by destruct (span_until c s).
Qed.

(** What one escape leaves: a code point, and a shorter rest of code points. *)
Definition escape_ok (rest : list Z) (r : Z * list Z) : Prop :=
  is_cp r.1 ∧ (length r.2 ≤ length rest)%nat ∧ Forall is_cp r.2.

Lemma escape_drop rest n cp : Forall is_cp rest → is_cp cp → escape_ok rest (cp, drop n rest).
Proof. intros Hr Hcp. split_and!; [done|simpl; rewrite length_drop; lia|by apply Forall_drop]. Qed.

Lemma disjunction_four_yields rest :
  Forall is_cp rest → yields (escape_ok rest) (disjunction_four rest).
Proof.
  intros Hr. unfold disjunction_four. destruct (hex_exactly 4 _) as [cp|] eqn:Ecp; [|done].
  apply hex_exactly_bound in Ecp as [_ Hcp]. simpl in Hcp.
  assert (is_cp cp) as Hc by (unfold is_cp; lia). cbv zeta.
  destruct (is_lead cp) eqn:El; cbn [andb]; [|by apply escape_drop].
  destruct (_ && _); [|by apply escape_drop].
  destruct (hex_exactly 4 _) as [trail|]; [|by apply escape_drop].
  destruct (is_trail trail) eqn:Et; [|by apply escape_drop].
  rewrite !drop_drop. apply escape_drop; [done|].
  pose proof (code_point_bound _ _ El Et). unfold is_cp. lia.
Qed.

Lemma disjunction_u_yields rest :
  Forall is_cp rest → yields (escape_ok rest) (disjunction_u rest).
Proof.
  intros Hr. unfold disjunction_u. destruct (bool_decide _); [|by apply disjunction_four_yields].
  pose proof (span_until_length 0x7d (drop 1 rest)) as Hl. rewrite length_drop in Hl.
  pose proof (Forall_span_until is_cp 0x7d (drop 1 rest) (Forall_drop _ _ _ Hr)) as Ht.
  destruct (span_until 0x7d _) as [hex [|y tail]]; [done|]. cbn [snd length] in *.
  unfold all_hex. destruct (negb (negb _ && _)) eqn:Eh; [done|].
  apply negb_false_iff, andb_true_iff in Eh as [_ Eh].
  pose proof (parse_hex_bound _ Eh). destruct (Z.ltb_spec 0x10ffff (parse_hex hex)); [done|].
  apply Forall_cons in Ht as [_ Ht]. split_and!; [unfold is_cp; simpl; lia|simpl; lia|done].
Qed.

Lemma disjunction_escape_yields e rest :
  is_cp e → Forall is_cp rest → yields (escape_ok rest) (disjunction_escape e rest).
Proof.
  intros He Hr. unfold disjunction_escape.
  repeat match goal with |- context [if e =? ?n then _ else _] => destruct (e =? n) end;
    try (split; [done|split; [done|done]]).
  - destruct rest as [|d rest]; [done|]. destruct (is_digit d); [done|]. split; [done|]. by split.
  - destruct (hex_exactly _ _) eqn:E; [|done]. apply hex_exactly_bound in E as [_ E]. simpl in E.
    apply escape_drop; [done|unfold is_cp; lia].
  - by apply disjunction_u_yields.
  - destruct rest as [|l rest]; [done|]. destruct (is_letter l); [|done].
    apply (escape_drop (l :: rest) 1); [done|]. unfold is_cp. pose proof (Z.mod_pos_bound l 32). lia.
Qed.

Lemma disjunction_loop_yields fuel cps operands cur :
  (length cps < fuel)%nat → Forall is_cp cps → Forall (Forall is_cp) operands → Forall is_cp cur →
  yields (Forall (Forall is_cp)) (disjunction_loop fuel cps operands cur).
Proof.
  revert cps operands cur. induction fuel as [|fuel IH]; intros cps operands cur Hf Hcps Hops Hcur; [lia|].
  cbn [disjunction_loop]. destruct cps as [|ch rest].
  { apply Forall_app. split; [done|by apply Forall_singleton]. }
  simpl in Hf. apply Forall_cons in Hcps as [Hch Hrest].
  destruct (ch =? 0x7c).
  { apply IH; [lia|done| |constructor]. apply Forall_app. split; [done|by apply Forall_singleton]. }
  destruct (ch =? 0x5c).
  - destruct rest as [|e rest]; [done|]. simpl in Hf. apply Forall_cons in Hrest as [He Hrest].
    ybind (by apply disjunction_escape_yields). intros r (Hcp & Hl & Hr).
    apply IH; [lia|done..|]. apply Forall_app. split; [done|by apply Forall_singleton].
  - destruct (ch =? 0x7d); [done|]. apply IH; [lia|done..|].
    apply Forall_app. split; [done|by apply Forall_singleton].
Qed.

Lemma parseStringDisjunction_yields s :
  Forall is_unit s → yields (Forall (Forall is_cp)) (parseStringDisjunction s).
Proof.
  intros Hs. apply disjunction_loop_yields; [lia|by apply code_points_range|constructor..].
Qed.

Lemma union_body_yields nested fuel source flagStr index set ordinary :
  (∀ s, part_of (length source) s → yields good_set (nested s)) → Forall is_unit source →
  0 ≤ index → Z.max 0 (len source - index) < Z.of_nat fuel → good_set set →
  yields good_set (union_body_loop nested fuel source flagStr index set ordinary).
Proof.
  intros Hnested Hu. revert index set ordinary.
  induction fuel as [|fuel IH]; intros index set ordinary Hi Hf Hs; [lia|].
  cbn [union_body_loop]. destruct (Z.leb_spec (len source) index) as [|Hlt].
  { by apply flushOrdinary_yields. }
  destruct (unit_is source index 0x5b).
  { ybind (by apply flushOrdinary_yields). intros set' Hs'.
    ybind (apply findClosingClass_yields; lia). intros e He.
    ybind (by apply Hnested, js_slice_part). intros inner Hin.
    apply IH; [lia..|by apply set_union_good]. }
  destruct (starts_at (js "\q{") source index).
  { ybind (by apply flushOrdinary_yields). intros set' Hs'.
    ybind (apply findClosingBrace_yields; lia). intros e He.
    ybind (by apply parseStringDisjunction_yields, js_slice_part). intros operands Hops.
    apply IH; [lia..|]. apply set_union_good; [done|by apply fromSequences_good]. }
  destruct (if _ || _ then _ else _) as [e|] eqn:Ee.
  { assert (index + 3 ≤ e < len source) as He.
    { destruct (_ || _); [|done]. by apply indexOf_le in Ee. }
    ybind (apply unicodeStringPropertyEscape_yields). intros [p|] Hp.
    - ybind (by apply flushOrdinary_yields). intros set' Hs'.
      apply IH; [lia..|]. apply set_union_good; [done|by apply Hp].
    - apply IH; [lia..|done]. }
  destruct (unit_is source index 0x5c); [apply IH; [lia..|done]|].
  destruct (codePointAt source index) as [cp|] eqn:Ec.
  - apply IH; [destruct (0xffff <? cp); lia..|done].
  - exfalso. unfold codePointAt in Ec. destruct (js_at source index) as [u|] eqn:Eu.
    + by destruct (js_at source (index + 1)).
    + assert (is_Some (js_at source index)) as [? ?] by (apply js_at_is_Some; unfold len in Hlt; lia).
      congruence.
Qed.

Lemma evaluate_yields depth source flagStr :
  (length source < depth)%nat → Forall is_unit source → yields good_set (evaluate depth source flagStr).
Proof.
  revert source. induction depth as [|depth IH]; intros source Hd Hu; [lia|].
  cbn [evaluate]. destruct (negb _) eqn:Ebr; [done|].
  apply negb_false_iff, andb_true_iff in Ebr as [Ebr _]. apply bool_decide_eq_true_1 in Ebr.
  pose proof (js_slice_part source 1 (len source - 1) Hu) as [_ Hbu].
  set (body := js_slice source 1 _) in *.
  assert (length body < depth)%nat as Hbody.
  { pose proof (proj1 (length_js_slice source 1 (len source - 1))) as Hl. fold body in Hl.
    unfold len in Hl. destruct source; [done|]. cbn [length] in *. lia. }
  assert (∀ p, part_of (length body) p → yields good_set
    (union_body_loop (λ s, evaluate depth s flagStr) (S (length p)) p flagStr 0 empty_set [])) as Hpart.
  { intros p [Hp Hpu]. apply union_body_yields; [|done|lia|unfold len; lia|apply empty_set_good].
    intros s [Hs Hsu]. apply IH; [lia|done]. }
  assert (∀ op ps, (∀ a b, good_set a → good_set b → good_set (op a b)) →
    ps ≠ [] ∧ Forall (part_of (length body)) ps → yields good_set (reduce_parts op (λ p,
      union_body_loop (λ s, evaluate depth s flagStr) (S (length p)) p flagStr 0 empty_set []) ps))
    as Hreduce.
  { intros op ps Hop [Hne Hall]. apply reduce_parts_yields; [done| |done].
    intros p Hp. apply Hpart. rewrite list.Forall_forall in Hall. by apply Hall. }
  destruct (bool_decide _); [done|].
  ybind (by apply splitTopLevel_yields). intros [parts|] Hparts.
  - apply Hreduce; [apply set_intersect_good|by apply Hparts].
  - ybind (by apply splitTopLevel_yields). intros [ps|] Hps.
    + apply Hreduce; [apply set_subtract_good|by apply Hps].
    + by apply Hpart.
Qed.

(** Evaluating a v-mode class always comes to an end, whatever the text: it
    gives a set that is well formed and holds sequences of code points, or throws.
    Nesting, [\q{...}] disjunctions, properties of strings, and the [&&] and [--]
    operators included; no fuel bound of the scans is ever reached. *)
Theorem evaluate_class_ok source flagStr (Hunits : Forall is_unit source) :
  match evaluateUnicodeStringClass source flagStr with
  | Ok s => set_ok s ∧ ∀ q, member q s → Forall is_cp q
  | Err f => thrown f
  end.
Proof. apply evaluate_yields; [lia|done]. Qed.
End evaluation.

(** The enumeration of unicode.ts is the one the parser uses. *)
#[export] Instance host_enumerator `{HostRegExp} : RangeEnumerator := enumerate.

#[export] Instance host_enumerator_ok `{HostRegExpOk} : RangeEnumeratorOk.
Proof.
  split.
  - intros source flagStr rs Hrs. by destruct (enumerate_spec source flagStr rs Hrs).
  - intros source flagStr. unfold enum_ranges, host_enumerator, enumerate.
    destruct (includes _ _); [done|]. destruct (host_RegExp _ _) as [|scan]; [done|].
    destruct (host_RegExp _ _) as [|probe]; [done|].
    apply (yields_settles (λ _, True)).
    eapply yields_bind; [apply (for_each_yields (λ _, True)); [done|]|done]. intros m matched _ _.
    unfold scan_match. destruct (codePointAt m 0); [|done]. by destruct (negb _).
Qed.

(** A table with one number in each property, and a host that gives no ranges. *)
#[local] Instance small_table : StringPropertyData := λ _, js "4p.1e6n,4u.1e6n".
#[local] Instance no_ranges : RangeEnumerator := λ _ _, Ok [].

Lemma evaluate_class_ok_witness :
  let r := evaluateUnicodeStringClass (js "[\q{ab|c}[\q{ab}]--\q{c}]") (js "v") in
  r = Ok {| us_ranges := []; us_strings := [(js "97,98", js "ab")] |} ∧
  match r with Ok s => set_ok s ∧ ∀ q, member q s → Forall is_cp q | Err f => thrown f end.
Proof.
  assert (StringPropertyDataOk) as Ht.
  { intros name item cp _ _. unfold property_data, small_table.
    replace (split_on 0x2c (js "4p.1e6n,4u.1e6n")) with [js "4p.1e6n"; js "4u.1e6n"] by reflexivity.
    intros Hi Hc. assert (cp ∈ [js "4p"; js "1e6n"; js "4u"; js "1e6n"]) as Hcp.
    { apply elem_of_cons in Hi as [-> | ->%list_elem_of_singleton].
      - change (split_on _ _) with [js "4p"; js "1e6n"] in Hc. set_solver.
      - change (split_on _ _) with [js "4u"; js "1e6n"] in Hc. set_solver. }
    assert (Forall (λ cp, yields is_cp (parse36 cp)) [js "4p"; js "1e6n"; js "4u"; js "1e6n"]) as Hall
      by (repeat (apply Forall_cons; split); try apply Forall_nil_2; vm_compute; split; discriminate).
    rewrite list.Forall_forall in Hall. by apply Hall. }
  assert (RangeEnumeratorOk) as He by (split; [intros ? ? ? [= <-]; constructor|done]).
  cbv zeta. split; [vm_compute; reflexivity|]. apply (evaluate_class_ok _ _).
  apply js_units.
Defined.
