(* ===== verification/ReParse.v ===== *)
(** The pattern parser: src/codegen/regex/parse.ts, and compilePattern of
    src/codegen/regex/compile.ts.  The parser is a state monad over its cursor,
    its group counter and the [i] state of the current position; the pattern and
    what the pre-scan found are fixed.  Recursion into groups is bounded by a depth,
    loops over the pattern by a fuel, both one more than the pattern's length. *)

From Stdlib Require Import Ascii.
From stdpp Require Import sorting.
From S2P Require Import Prelude ReBytecode ReCaseFold ReUnicode ReCompile ReStringSet.

(** The code unit of an ASCII character. *)
Definition ch (a : ascii) : Z := Z.of_N (N_of_ascii a).
#[global] Arguments ch a%_char_scope.

(** [s[i] === "a"] *)
Definition at_is (s : jsstr) (i : Z) (a : ascii) : bool := bool_decide (js_at s i = Some (ch a)).
#[global] Arguments at_is s i%_Z a%_char_scope.

(** [c === "a" || ...] of a unit that may be [undefined]. *)
Definition one_of (c : option Z) (cs : jsstr) : bool :=
  match c with Some c => bool_decide (c ∈ cs) | None => false end.

Definition is_ch (c : option Z) (a : ascii) : bool := bool_decide (c = Some (ch a)).
#[global] Arguments is_ch c a%_char_scope.

(** * Finite string sets as tries *)

Inductive Trie := TNode (terminal : bool) (children : list (Z * Trie)).

Definition newUnicodeStringTrieNode : Trie := TNode false [].

(** The loop of [insertUnicodeString] walks down one path; the nodes of a trie
    are not shared. *)
Fixpoint insertUnicodeString (root : Trie) (sequence : list Z) : Trie :=
  let 'TNode terminal children := root in
  match sequence with
  | [] => TNode true children
  | cp :: sequence' =>
      let child := match jm_get children cp with
                   | Some child => child
                   | None => newUnicodeStringTrieNode
                   end in
      TNode terminal (jm_set children cp (insertUnicodeString child sequence'))
  end.

(** The order in which [sort()] puts strings. *)
Fixpoint str_leb (s t : jsstr) : bool :=
  match s, t with
  | [], _ => true
  | _ :: _, [] => false
  | x :: s', y :: t' => (x <? y) || ((x =? y) && str_leb s' t')
  end.

Fixpoint unicodeStringTrieSignature (node : Trie) : jsstr :=
  let 'TNode terminal children := node in
  let children :=
    stable_sort str_leb
      (map (λ '(cp, child), to_string_base 36 cp ++ js ":" ++ unicodeStringTrieSignature child)
           children) in
  (if terminal then js "1" else js "0") ++ js "[" ++ join_with (js ",") children ++ js "]".

Definition codePointRanges (codePoints : list Z) : CpRanges :=
  reverse (foldl singleton_step [] (merge_sort Z.le codePoints)).

(** * Shorthand classes *)

Definition DIGIT : list (Z * Z) := [(0x30, 0x39)].
Definition WORD : list (Z * Z) := [(0x30, 0x39); (0x41, 0x5a); (0x5f, 0x5f); (0x61, 0x7a)].
Definition SPACE : list (Z * Z) :=
  [(0x09, 0x0d); (0x20, 0x20); (0xa0, 0xa0); (0x1680, 0x1680); (0x2000, 0x200a); (0x2028, 0x2029);
   (0x202f, 0x202f); (0x205f, 0x205f); (0x3000, 0x3000); (0xfeff, 0xfeff)].

(** The loop body of [complementRanges]; the state is [out] and [next]. *)
Definition complement_step (st : list (Z * Z) * Z) (r : Z * Z) : list (Z * Z) * Z :=
  let '(out, next) := st in
  let '(lo, hi) := r in
  (if next <? lo then out ++ [(next, lo - 1)] else out, Z.max next (hi + 1)).

Definition complementRanges (ranges : list (Z * Z)) : list (Z * Z) :=
  let sorted := stable_sort (λ a b, a.1 <=? b.1) ranges in
  let '(out, next) := foldl complement_step ([], 0) sorted in
  if next <=? 0xffff then out ++ [(next, 0xffff)] else out.

Definition NOT_DIGIT := complementRanges DIGIT.
Definition NOT_WORD := complementRanges WORD.
Definition NOT_SPACE := complementRanges SPACE.

(** [PROPERTY_OF_STRINGS_RE.test(s)] *)
Definition PROPERTY_OF_STRINGS_RE (s : jsstr) : bool :=
  existsb (λ name, includes (js "\p{" ++ name ++ js "}") s || includes (js "\P{" ++ name ++ js "}") s)
    PROPERTY_NAMES.

(** * Group names *)

(** The loop of [decodeGroupName] over what is left of the name. *)
Fixpoint decode_loop (fuel : nat) (raw s out : jsstr) : result jsstr :=
  match fuel with
  | O => Err OutOfFuel
  | S fuel' =>
      let invalid := throw EUnsupported (js "invalid Unicode escape in group name '" ++ raw ++ js "'") in
      match s with
      | [] => Ok out
      | c :: s' =>
          if negb (c =? ch "\") then decode_loop fuel' raw s' (out ++ [c])
          else if negb (is_ch (head s') "u") then
            throw EUnsupported (js "invalid escape in group name '" ++ raw ++ js "'")
          else if is_ch (head (drop 1 s')) "{" then
            let (digits, tail) := span_until (ch "}") (drop 2 s') in
            match tail with
            | [] => throw EUnsupported (js "unterminated Unicode escape in group name '" ++ raw ++ js "'")
            | _ :: tail' =>
                if negb (all_hex digits) then invalid
                else if 0x10ffff <? parse_hex digits then
                  throw EUnsupported (js "group-name code point out of range in '" ++ raw ++ js "'")
                else decode_loop fuel' raw tail' (out ++ from_code_point (parse_hex digits))
            end
          else match hex_exactly 4 (take 4 (drop 1 s')) with
               | None => invalid
               | Some unit => decode_loop fuel' raw (drop 5 s') (out ++ [unit])
               end
      end
  end.

Definition decodeGroupName (raw : jsstr) : result jsstr := decode_loop (S (length raw)) raw raw [].

(** The loop of [scanGroups] over what is left of the pattern. *)
Fixpoint scan_loop (fuel : nat) (s : jsstr) (inClass : bool) (count : Z) (names : jsmap jsstr Z)
  : result (Z * jsmap jsstr Z) :=
  match fuel with
  | O => Err OutOfFuel
  | S fuel' =>
      match s with
      | [] => Ok (count, names)
      | c :: s' =>
          if c =? ch "\" then scan_loop fuel' (drop 1 s') inClass count names
          else if inClass then scan_loop fuel' s' (negb (c =? ch "]")) count names
          else if c =? ch "[" then scan_loop fuel' s' true count names
          else if c =? ch "(" then
            if is_ch (head s') "?" then
              if is_ch (s' !! 1%nat) "<" && negb (is_ch (s' !! 2%nat) "=") && negb (is_ch (s' !! 2%nat) "!")
              then
                let rawName := (span_until (ch ">") (drop 2 s')).1 in
                name ← decodeGroupName rawName;
                let count := count + 1 in
                scan_loop fuel' s' false count
                  (if jm_has names name then names else jm_set names name count)
              else scan_loop fuel' s' false count names
            else scan_loop fuel' s' false (count + 1) names
          else scan_loop fuel' s' false count names
      end
  end.

Definition scanGroups (src : jsstr) : result (Z * jsmap jsstr Z) :=
  scan_loop (S (length src)) src false 0 [].

(** * Code-point atoms *)

Definition cpClass (ranges : CpRanges) : ReNode := NCpClass ranges false.

Definition is_surrogate (cp : Z) : bool := (0xd800 <=? cp) && (cp <=? 0xdfff).

Section unicode_atoms.
Context `{RangeEnumerator} (vMode : bool).

Definition enumFlags (iState : bool) : jsstr :=
  (if vMode then js "v" else js "u") ++ (if iState then js "i" else []).

(** The class of a source fragment under the current flags: [uEnum]. *)
Definition uEnum (iState : bool) (source : jsstr) : result ReNode :=
  ranges ← enum_ranges source (enumFlags iState); Ok (cpClass ranges).

Definition uChar (iState : bool) (cp : Z) : result ReNode :=
  if iState then uEnum iState (codePointSource cp)
  else if 0xffff <? cp then
    let lead := 0xd800 + ((cp - 0x10000) .>> 10) in
    let trail := 0xdc00 + ((cp - 0x10000) .& 0x3ff) in
    Ok (NConcat [NChar lead; NChar trail])
  else if is_surrogate cp then Ok (cpClass [(cp, cp)])
  else Ok (NChar cp).

(** * The nodes of a trie *)

Definition uStringTrieHead (iState : bool) (codePoints : list Z) : result ReNode :=
  match codePoints with
  | [cp] => uChar iState cp
  | _ =>
      if iState then
        uEnum iState (js "[" ++ concat (map codePointSource codePoints) ++ js "]")
      else Ok (cpClass (codePointRanges codePoints))
  end.

(** One child in the grouping loop; a group keeps its first child, here what
    that child lowers to. *)
Definition add_branch (groups : jsmap jsstr (list Z * result ReNode))
    (branch : Z * (jsstr * result ReNode)) : jsmap jsstr (list Z * result ReNode) :=
  let '(cp, (signature, tail)) := branch in
  match jm_get groups signature with
  | None => jm_set groups signature ([cp], tail)
  | Some (codePoints, tail) => jm_set groups signature (codePoints ++ [cp], tail)
  end.

(** [head] before what [tail] lowered to. *)
Definition join_branch (head tail : ReNode) : ReNode :=
  match tail with
  | NConcat [] => head
  | NConcat parts => NConcat (head :: parts)
  | _ => NConcat [head; tail]
  end.

(** The second loop of [uStringTrieBranches]. *)
Definition group_branches (iState : bool) (children : list (Z * (jsstr * result ReNode)))
  : result (list ReNode) :=
  map_result (λ '(_, (codePoints, tail)),
    head ← uStringTrieHead iState codePoints;
    tail ← tail;
    Ok (join_branch head tail)) (foldl add_branch [] children).

(** The options of a trie or set, made one node. *)
Definition options_node (options : list ReNode) : ReNode :=
  match options with
  | [] => cpClass []
  | [option] => option
  | _ => NAlt options
  end.

Fixpoint uStringTrieNode (iState : bool) (node : Trie) : result ReNode :=
  let 'TNode terminal children := node in
  options ← group_branches iState
    (map (λ '(cp, child), (cp, (unicodeStringTrieSignature child, uStringTrieNode iState child)))
         children);
  Ok (options_node (options ++ (if terminal then [NConcat []] else []))).

Definition uStringTrieBranches (iState : bool) (node : Trie) : result (list ReNode) :=
  let 'TNode _ children := node in
  group_branches iState
    (map (λ '(cp, child), (cp, (unicodeStringTrieSignature child, uStringTrieNode iState child)))
         children).

Definition terminal (node : Trie) : bool := let 'TNode terminal _ := node in terminal.

Definition uStringSet (iState : bool) (set : UnicodeStringSet) : result ReNode :=
  let root := foldl insertUnicodeString newUnicodeStringTrieNode (us_strings set).*2 in
  options ← uStringTrieBranches iState root;
  Ok (options_node (options ++ (if bool_decide (us_ranges set = []) then [] else [cpClass (us_ranges set)])
                    ++ (if terminal root then [NConcat []] else []))).

(** * Classes with string disjunctions *)

Record QSpan := { bodyStart : Z; bodyEnd : Z; fullStart : Z; fullEnd : Z }.

(** The inner [while] that looks for the end of a [\q{]. *)
Fixpoint q_end (fuel : nat) (body : jsstr) (j : Z) : result Z :=
  match fuel with
  | O => Err OutOfFuel
  | S fuel' =>
      if negb (j <? len body) || at_is body j "}" then Ok j
      else if at_is body j "\" then
        if at_is body (j + 1) "u" && at_is body (j + 2) "{"
        then q_end fuel' body (brace_end (length body) body (j + 3) + 1)
        else q_end fuel' body (j + 2)
      else q_end fuel' body (j + 1)
  end.

(** The scan of the class body. *)
Fixpoint q_scan (fuel : nat) (body : jsstr) (i depth : Z) (qSpans : list QSpan)
  : result (list QSpan) :=
  match fuel with
  | O => Err OutOfFuel
  | S fuel' =>
      if negb (i <? len body) then Ok qSpans
      else if at_is body i "\" then
        if at_is body (i + 1) "q" && at_is body (i + 2) "{" then
          j ← q_end (S (length body)) body (i + 3);
          if negb (at_is body j "}") then throw EUnsupported (js "unterminated \q{" ++ ellipsis ++ js "}")
          else
            q_scan fuel' body (j + 1) depth
              (if depth =? 0
               then qSpans ++ [{| bodyStart := i + 3; bodyEnd := j; fullStart := i; fullEnd := j + 1 |}]
               else qSpans)
        else q_scan fuel' body (i + 2) depth qSpans
      else if at_is body i "[" then q_scan fuel' body (i + 1) (depth + 1) qSpans
      else if at_is body i "]" then q_scan fuel' body (i + 1) (depth - 1) qSpans
      else if (depth =? 0) && (starts_at (js "&&") body i || starts_at (js "--") body i) then
        throw EUnsupported (js "\q{" ++ ellipsis
          ++ js "} string disjunction inside a v-mode set operation (&&/--) " ++ emdash
          ++ js " #2591 residual")
      else q_scan fuel' body (i + 1) depth qSpans
  end.

(** One operand of a disjunction, as an arm with its length. *)
Definition operand_arm (iState : bool) (cps : list Z) : result (Z * ReNode) :=
  match cps with
  | [] => Ok (0, NConcat [])
  | _ =>
      parts ← map_result (λ cp, if iState then uEnum iState (codePointSource cp) else uChar iState cp) cps;
      Ok (Z.of_nat (length cps), match parts with [part] => part | _ => NConcat parts end)
  end.

(** The arms of one span. *)
Definition span_arms (iState : bool) (body : jsstr) (span : QSpan) (arms : list (Z * ReNode))
  : result (list (Z * ReNode)) :=
  operands ← parseStringDisjunction (js_slice body (bodyStart span) (bodyEnd span));
  new ← map_result (operand_arm iState) operands;
  Ok (arms ++ new).

(** The body without its spans. *)
Definition residual_of (body : jsstr) (qSpans : list QSpan) : jsstr :=
  let '(residual, prev) :=
    foldl (λ '(residual, prev) span, (residual ++ js_slice body prev (fullStart span), fullEnd span))
      ([], 0) qSpans in
  residual ++ drop (Z.to_nat prev) body.

Definition residual_arms (iState : bool) (residual : jsstr) (arms : list (Z * ReNode))
  : result (list (Z * ReNode)) :=
  if bool_decide (residual = []) then Ok arms
  else
    ranges ← enum_ranges (js "[" ++ residual ++ js "]") (enumFlags iState);
    if negb (bool_decide (ranges = [])) then Ok (arms ++ [(1, cpClass ranges)])
    else if PROPERTY_OF_STRINGS_RE residual then
      throw EUnsupported (js "v-mode class mixes \q{" ++ ellipsis
        ++ js "} with a property-of-strings (\p{" ++ ellipsis ++ js "}) member " ++ emdash
        ++ js " #2591 residual")
    else Ok arms.

Definition uEnumClassWithStrings (iState : bool) (source : jsstr) : result ReNode :=
  let body := js_slice source 1 (len source - 1) in
  if is_ch (head body) "^" then
    throw EUnsupported (js "negated v-mode class with \q{" ++ ellipsis ++ js "} strings")
  else
    qSpans ← q_scan (S (length body)) body 0 0 [];
    if bool_decide (length qSpans = 0%nat) then uEnum iState source
    else
      arms ← for_each qSpans (span_arms iState body) [];
      arms ← residual_arms iState (residual_of body qSpans) arms;
      Ok (options_node (stable_sort (λ a b, b.1 <=? a.1) arms).*2).
End unicode_atoms.

(** [parseInt(digits, 10)]: the nearest double, ties to even; [Infinity] is kept
    as [2 ^ 1024], which compares like it with every double. *)
Definition round_double (z : Z) : Z :=
  if z <? 2 ^ 53 then z
  else
    let e := Z.log2 z - 52 in
    let q := z / 2 ^ e in
    let r := z mod 2 ^ e in
    let half := 2 ^ (e - 1) in
    let q := if (r <? half) || ((r =? half) && Z.even q) then q else q + 1 in
    Z.min (q * 2 ^ e) (2 ^ 1024).

Definition parseInt10 (digits : jsstr) : Z := round_double (foldl (λ v c, 10 * v + (c - 0x30)) 0 digits).

(** * The parser's state *)

Record PState := { pos : Z; p_captures : Z; p_iState : bool }.

Definition set_pos (i : Z) (st : PState) : PState :=
  {| pos := i; p_captures := p_captures st; p_iState := p_iState st |}.
Definition set_captures (n : Z) (st : PState) : PState :=
  {| pos := pos st; p_captures := n; p_iState := p_iState st |}.
Definition set_iState (i : bool) (st : PState) : PState :=
  {| pos := pos st; p_captures := p_captures st; p_iState := i |}.

Definition parser (A : Type) := PState → result (A * PState).

#[global] Instance parser_ret : MRet parser := λ A a st, Ok (a, st).
#[global] Instance parser_bind : MBind parser := λ A B f m st,
  match m st with Ok (a, st') => f a st' | Err e => Err e end.

Definition refuse {A} (msg : jsstr) : parser A := λ _, throw EUnsupported msg.
Definition out_of_fuel {A} : parser A := λ _, Err OutOfFuel.
Definition get : parser PState := λ st, Ok (st, st).
Definition modify (f : PState → PState) : parser unit := λ st, Ok (tt, f st).

(** A computation that may throw and reads the [i] state. *)
Definition with_iState {A} (f : bool → result A) : parser A := λ st,
  a ← f (p_iState st); Ok (a, st).

(** Whether a quantifier cannot follow a node. *)
Definition isAssertion (atom : ReNode) : bool :=
  match atom with NBol | NEol | NWordBoundary _ => true | _ => false end.

Definition isLookaround (atom : ReNode) : bool :=
  match atom with NLookaround _ _ _ => true | _ => false end.

Inductive ClassMember :=
  | MChar (code : Z)
  | MShorthand (ranges : list (Z * Z)).

Definition is_octal (c : Z) : bool := (ch "0" <=? c) && (c <=? ch "7").

Section parser.
Context `{RangeEnumerator, StringPropertyData}.
Context (src : jsstr) (totalCaptures : Z) (groupNames : jsmap jsstr Z) (unicode vMode : bool).

Definition peek : parser (option Z) := λ st, Ok (js_at src (pos st), st).

Definition next : parser Z := λ st,
  match js_at src (pos st) with
  | None => throw EUnsupported (js "unexpected end of pattern")
  | Some c => Ok (c, set_pos (pos st + 1) st)
  end.

Definition eof : parser bool := λ st, Ok (len src <=? pos st, st).

(** [while (this.peek() !== undefined && p(this.peek()!)) text += this.next();] *)
Fixpoint span_of (p : Z → bool) (s : jsstr) : jsstr :=
  match s with
  | [] => []
  | c :: s' => if p c then c :: span_of p s' else []
  end.

Definition read_while (p : Z → bool) : parser jsstr := λ st,
  let text := span_of p (drop (Z.to_nat (pos st)) src) in
  Ok (text, set_pos (pos st + len text) st).

Definition not_ch (a : ascii) (c : Z) : bool := negb (c =? ch a).

(** * Atoms of escapes *)

Definition backrefNode (index : Z) : parser ReNode :=
  st ← get;
  if unicode && p_iState st then
    refuse (js "backreference under u+i Canonicalize folding " ++ emdash ++ js " #1911 Slice B residual")
  else mret (NBackref index).

Definition extractPropertyEscapeSource : parser jsstr :=
  letter ← next;
  c ← peek;
  if negb (is_ch c "{") then
    refuse (js "\" ++ [letter] ++ js " must be followed by {" ++ ellipsis ++ js "} in u/v mode")
  else
    _ ← next;
    body ← read_while (not_ch "}");
    c ← peek;
    if negb (is_ch c "}") then refuse (js "unterminated \" ++ [letter] ++ js "{" ++ ellipsis ++ js "}")
    else _ ← next; mret (js "\" ++ [letter] ++ js "{" ++ body ++ js "}").

Fixpoint octal_loop (n : nat) (v : Z) : parser Z :=
  match n with
  | O => mret v
  | S n' =>
      c ← peek;
      match c with
      | Some c =>
          if is_octal c then
            let nv := v * 8 + (c - 0x30) in
            if 0xff <? nv then mret v else _ ← next; octal_loop n' nv
          else mret v
      | None => mret v
      end
  end.

Definition parseLegacyOctal : parser Z := octal_loop 3 0.

(** [/^[0-9a-fA-F]{n}$/.test(this.src.slice(this.pos, this.pos + n))] *)
Definition hex_ahead (n : nat) (st : PState) : option Z :=
  hex_exactly n (take n (drop (Z.to_nat (pos st)) src)).

(** The tail of an escape of [n] hexadecimal digits. *)
Definition hex_escape (n : nat) (literal : Z) (bad : jsstr) : parser Z :=
  st ← get;
  match hex_ahead n st with
  | Some code => _ ← modify (set_pos (pos st + Z.of_nat n)); mret code
  | None => if negb unicode then mret literal else refuse bad
  end.

Definition parseEscapedCodeUnit (inClass : bool) : parser Z :=
  e ← next;
  if e =? ch "n" then mret 0x0a
  else if e =? ch "r" then mret 0x0d
  else if e =? ch "t" then mret 0x09
  else if e =? ch "f" then mret 0x0c
  else if e =? ch "v" then mret 0x0b
  else if is_octal e then
    st ← get; _ ← modify (set_pos (pos st - 1)); parseLegacyOctal
  else if (e =? ch "8") || (e =? ch "9") then mret e
  else if e =? ch "c" then
    l ← peek;
    match l with
    | Some l =>
        if is_letter l || (inClass && negb unicode && (is_digit l || (l =? ch "_")))
        then _ ← next; mret (l mod 32)
        else if negb unicode then st ← get; _ ← modify (set_pos (pos st - 1)); mret 0x5c
        else refuse (js "\c without a control letter")
    | None =>
        if negb unicode then st ← get; _ ← modify (set_pos (pos st - 1)); mret 0x5c
        else refuse (js "\c without a control letter")
    end
  else if e =? ch "x" then hex_escape 2 0x78 (js "bad \x escape")
  else if e =? ch "u" then
    c ← peek;
    if is_ch c "{" then
      refuse (js "\u{" ++ ellipsis ++ js "} code-point escape " ++ emdash ++ js " #1539 Phase 2c/2d")
    else hex_escape 4 0x75 (js "bad \u escape")
  else mret e.

Definition readHex4 : parser Z :=
  a ← next; b ← next; c ← next; d ← next;
  match hex_exactly 4 [a; b; c; d] with
  | Some code => mret code
  | None => refuse (js "bad \u escape")
  end.

Definition p_uChar (cp : Z) : parser ReNode := with_iState (λ i, uChar vMode i cp).

(** The body of the [try] after a lead surrogate's escape: [None] when the second
    escape is not a trail surrogate. *)
Definition trail_escape (lead : Z) : parser (option ReNode) :=
  st ← get;
  _ ← modify (set_pos (pos st + 2));
  trail ← readHex4;
  if is_trail trail then node ← p_uChar (pair_code lead trail); mret (Some node) else mret None.

(** [try { ... } catch {}], and the cursor back where it was unless the body
    returned. *)
Definition try_trail (lead : Z) : parser ReNode := λ st,
  match trail_escape lead st with
  | Ok (Some node, st') => Ok (node, st')
  | Ok (None, _) | Err (Throw _ _) => p_uChar lead st
  | Err f => Err f
  end.

Definition parseUnicodeEscapeTail : parser ReNode :=
  c ← peek;
  if is_ch c "u" then
    _ ← next;
    c ← peek;
    if is_ch c "{" then
      _ ← next;
      hex ← read_while (not_ch "}");
      c ← peek;
      if negb (is_ch c "}") || negb (all_hex hex) then
        refuse (js "bad \u{" ++ ellipsis ++ js "} escape")
      else
        _ ← next;
        let cp := parse_hex hex in
        if 0x10ffff <? cp then refuse (js "\u{" ++ ellipsis ++ js "} out of code-point range")
        else p_uChar cp
    else
      lead ← readHex4;
      st ← get;
      if is_lead lead && starts_at (js "\u") src (pos st) then try_trail lead
      else p_uChar lead
  else code ← parseEscapedCodeUnit false; p_uChar code.

Definition shorthand_node (e : Z) : ReNode :=
  if e =? ch "d" then NClass DIGIT false
  else if e =? ch "D" then NClass DIGIT true
  else if e =? ch "w" then NClass WORD false
  else if e =? ch "W" then NClass WORD true
  else if e =? ch "s" then NClass SPACE false
  else NClass SPACE true.

(** The decimal escapes; the cursor is on the first digit [e]. *)
Definition decimal_escape (e : Z) : parser ReNode :=
  st ← get;
  digits ← read_while is_digit;
  let value := parseInt10 digits in
  if (1 <=? value) && (value <=? totalCaptures) then backrefNode value
  else if unicode then refuse (js "invalid decimal escape \" ++ digits ++ js " in u/v mode")
  else
    _ ← modify (set_pos (pos st));
    if ch "8" <=? e then _ ← next; mret (NChar e)
    else code ← parseLegacyOctal; mret (NChar code).

(** [\k<name>]; the cursor is on the [k]. *)
Definition named_escape : parser ReNode :=
  if bool_decide (groupNames = []) then
    if unicode then refuse (js "\k without a named group in u/v mode")
    else _ ← next; mret (NChar 0x6b)
  else
    _ ← next;
    c ← peek;
    if negb (is_ch c "<") then refuse (js "\k must be followed by <name>")
    else
      _ ← next;
      rawName ← read_while (not_ch ">");
      c ← peek;
      if negb (is_ch c ">") then refuse (js "unterminated \k<name>")
      else
        _ ← next;
        name ← with_iState (λ _, decodeGroupName rawName);
        match jm_get groupNames name with
        | None => refuse (js "\k<" ++ name ++ js "> references an undeclared group")
        | Some idx => backrefNode idx
        end.

Definition property_escape : parser ReNode :=
  source ← extractPropertyEscapeSource;
  stringSet ← with_iState (λ _, if vMode then unicodeStringPropertyEscape source else Ok None);
  match stringSet with
  | None => with_iState (λ i, uEnum vMode i source)
  | Some set => with_iState (λ i, uStringSet vMode i set)
  end.

Definition parseEscapeAtom : parser ReNode :=
  _ ← next;
  e ← peek;
  match e with
  | None => refuse (js "trailing escape")
  | Some e =>
      if one_of (Some e) (js "dDwWsS") then
        _ ← next;
        if unicode then with_iState (λ i, uEnum vMode i (js "\" ++ [e]))
        else mret (shorthand_node e)
      else if (e =? ch "b") || (e =? ch "B") then
        st ← get;
        if unicode && p_iState st then
          refuse (js "\" ++ [e] ++ js " with the u+i Unicode word characters " ++ emdash
                  ++ js " #1911 Slice B residual")
        else _ ← next; mret (NWordBoundary (e =? ch "B"))
      else if (ch "1" <=? e) && (e <=? ch "9") then decimal_escape e
      else if e =? ch "k" then named_escape
      else if ((e =? ch "p") || (e =? ch "P")) && unicode then property_escape
      else if unicode then parseUnicodeEscapeTail
      else code ← parseEscapedCodeUnit false; mret (NChar code)
  end.

(** * Classes *)

(** The loop of [extractClassSource]: the position behind the class. *)
Fixpoint extract_loop (fuel : nat) (i depth : Z) : result Z :=
  match fuel with
  | O => Err OutOfFuel
  | S fuel' =>
      if negb (i <? len src) then throw EUnsupported (js "unterminated character class")
      else if at_is src i "\" then extract_loop fuel' (i + 2) depth
      else
        let depth := if vMode && at_is src i "[" then depth + 1 else depth in
        if at_is src i "]" then
          let depth := depth - 1 in
          if negb vMode || (depth =? 0) then Ok (i + 1) else extract_loop fuel' (i + 1) depth
        else extract_loop fuel' (i + 1) depth
  end.

Definition extractClassSource : parser jsstr := λ st,
  e ← extract_loop (S (length src)) (pos st + 1) 1;
  Ok (js_slice src (pos st) e, set_pos e st).

Definition class_shorthand (e : Z) : option (list (Z * Z)) :=
  if e =? ch "d" then Some DIGIT
  else if e =? ch "w" then Some WORD
  else if e =? ch "s" then Some SPACE
  else if e =? ch "D" then Some NOT_DIGIT
  else if e =? ch "W" then Some NOT_WORD
  else if e =? ch "S" then Some NOT_SPACE
  else None.

Definition parseClassMember : parser ClassMember :=
  c ← peek;
  if is_ch c "\" then
    _ ← next;
    e ← peek;
    match e ≫= class_shorthand with
    | Some ranges => _ ← next; mret (MShorthand ranges)
    | None =>
        if is_ch e "b" then _ ← next; mret (MChar 0x08)
        else code ← parseEscapedCodeUnit true; mret (MChar code)
    end
  else code ← next; mret (MChar code).

(** [peek() === "-"], with something behind it that does not close the class. *)
Definition dash_ahead : parser bool := λ st,
  Ok (at_is src (pos st) "-" && negb (at_is src (pos st + 1) "]")
      && bool_decide (is_Some (js_at src (pos st + 1))), st).

(** One round of the member loop. *)
Definition class_round (ranges : list (Z * Z)) : parser (list (Z * Z)) :=
  member ← parseClassMember;
  match member with
  | MShorthand rs =>
      dash ← dash_ahead;
      if dash : bool then _ ← next; mret (ranges ++ rs ++ [(0x2d, 0x2d)])
      else mret (ranges ++ rs)
  | MChar lo =>
      dash ← dash_ahead;
      if dash : bool then
        _ ← next;
        hiMember ← parseClassMember;
        match hiMember with
        | MShorthand rs => mret (ranges ++ [(lo, lo); (0x2d, 0x2d)] ++ rs)
        | MChar hi =>
            if hi <? lo then refuse (js "class range out of order") else mret (ranges ++ [(lo, hi)])
        end
      else mret (ranges ++ [(lo, lo)])
  end.

Fixpoint member_loop (fuel : nat) (ranges : list (Z * Z)) : parser (list (Z * Z)) :=
  match fuel with
  | O => out_of_fuel
  | S fuel' =>
      c ← peek;
      match c with
      | Some c =>
          if c =? ch "]" then mret ranges else ranges ← class_round ranges; member_loop fuel' ranges
      | None => mret ranges
      end
  end.

Definition parseClass : parser ReNode :=
  _ ← next;
  c ← peek;
  let negated := is_ch c "^" in
  _ ← (if negated then _ ← next; mret tt else mret tt);
  ranges ← member_loop (S (length src)) [];
  c ← peek;
  if negb (is_ch c "]") then refuse (js "unterminated character class")
  else _ ← next; mret (NClass ranges negated).

(** A class in u or v mode. *)
Definition unicode_class : parser ReNode :=
  classSrc ← extractClassSource;
  if vMode && hasUnicodeStringSetSyntax classSrc then
    if includes (js "\q{") classSrc && negb (includes (js "\p{") classSrc)
       && negb (includes (js "&&") classSrc) && negb (includes (js "--") classSrc)
    then with_iState (λ i, uEnumClassWithStrings vMode i classSrc)
    else with_iState (λ i,
           set ← evaluateUnicodeStringClass classSrc (enumFlags vMode i); uStringSet vMode i set)
  else with_iState (λ i, uEnum vMode i classSrc).

(** * Quantifiers *)

Definition consumeLazy : parser bool :=
  c ← peek;
  if is_ch c "?" then _ ← next; mret false else mret true.

(** [None] is [null]; the cursor may have moved then. *)
Definition tryParseBraceQuantifier : parser (option (Z * Z)) :=
  c ← peek;
  if negb (is_ch c "{") then mret None
  else
    _ ← next;
    minStr ← read_while is_digit;
    if bool_decide (minStr = []) then mret None
    else
      let min := parseInt10 minStr in
      c ← peek;
      max ← (if is_ch c "," then
               _ ← next;
               maxStr ← read_while is_digit;
               mret (if bool_decide (maxStr = []) then -1 else parseInt10 maxStr)
             else mret min);
      c ← peek;
      if negb (is_ch c "}") then mret None
      else
        _ ← next;
        if negb (max =? -1) && (max <? min) then refuse (js "quantifier max < min")
        else mret (Some (min, max)).

Definition nothing_to_repeat {A} (index : Z) : parser A :=
  refuse (js "nothing to repeat at index " ++ js_num index).

(** * Modifier groups *)

Definition flagBit (letter : Z) : result Z :=
  if letter =? ch "i" then Ok RE_FLAG_I
  else if letter =? ch "m" then Ok RE_FLAG_M
  else if letter =? ch "s" then Ok RE_FLAG_S
  else throw EUnsupported (js "invalid regexp modifier '" ++ [letter] ++ js "'").

(** Both loops of [parseModifiers]: letters up to a [:] (or a [-], when [dash]),
    none of them in [seen] or twice. *)
Fixpoint modifier_loop (fuel : nat) (dash : bool) (seen mask : Z) : parser Z :=
  match fuel with
  | O => out_of_fuel
  | S fuel' =>
      c ← peek;
      match c with
      | None => mret mask
      | Some c =>
          if (c =? ch ":") || (dash && (c =? ch "-")) then mret mask
          else
            letter ← next;
            bit ← with_iState (λ _, flagBit letter);
            if negb ((seen .| mask) .& bit =? 0) then refuse (js "duplicate regexp modifier")
            else modifier_loop fuel' dash seen (mask .| bit)
      end
  end.

Definition parseModifiers : parser (Z * Z) :=
  add ← modifier_loop (S (length src)) true 0 0;
  c ← peek;
  remove ← (if is_ch c "-" then _ ← next; modifier_loop (S (length src)) false add 0 else mret 0);
  c ← peek;
  if negb (is_ch c ":") then refuse (js "unterminated regexp modifier group")
  else
    _ ← next;
    if (add =? 0) && (remove =? 0) then refuse (js "empty regexp modifier group")
    else mret (add, remove).

(** * Groups *)

(** What the head of a group declares. *)
Inductive GroupHead :=
  | GCapture (capIndex : Z) (name : option jsstr)
  | GNonCapture
  | GLookaround (negated behind : bool)
  | GModifiers (add remove : Z).

(** [++this.numCaptures] *)
Definition new_capture : parser Z := λ st,
  Ok (p_captures st + 1, set_captures (p_captures st + 1) st).

Definition named_capture : parser GroupHead :=
  rawName ← read_while (not_ch ">");
  c ← peek;
  if negb (is_ch c ">") then refuse (js "unterminated group name")
  else
    _ ← next;
    name ← with_iState (λ _, decodeGroupName rawName);
    capIndex ← new_capture;
    if negb (bool_decide (jm_get groupNames name = Some capIndex))
    then refuse (js "duplicate capture group name '" ++ name ++ js "'")
    else mret (GCapture capIndex (Some name)).

(** [parseGroup] up to the group's body. *)
Definition group_head : parser GroupHead :=
  _ ← next;
  c ← peek;
  if is_ch c "?" then
    _ ← next;
    t ← peek;
    if is_ch t ":" then _ ← next; mret GNonCapture
    else if is_ch t "<" then
      _ ← next;
      after ← peek;
      if is_ch after "=" || is_ch after "!" then
        _ ← next; mret (GLookaround (is_ch after "!") true)
      else named_capture
    else if is_ch t "=" || is_ch t "!" then _ ← next; mret (GLookaround (is_ch t "!") false)
    else if one_of t (js "-ims") then
      m ← parseModifiers; mret (GModifiers m.1 m.2)
    else refuse (js "unsupported group form '(?" ++ match t with Some t => [t] | None => [] end
                 ++ js "' " ++ emdash ++ js " #1539 Phase 2d")
  else capIndex ← new_capture; mret (GCapture capIndex None).

(** The [i] state inside the group. *)
Definition scoped_i (h : GroupHead) (i : bool) : bool :=
  match h with
  | GModifiers add remove =>
      let i := if negb (add .& RE_FLAG_I =? 0) then true else i in
      if negb (remove .& RE_FLAG_I =? 0) then false else i
  | _ => i
  end.

Definition group_node (h : GroupHead) (inner : ReNode) : ReNode :=
  match h with
  | GCapture capIndex name => NGroup inner capIndex name
  | GNonCapture => NGroup inner (-1) None
  | GLookaround negated behind => NLookaround inner negated behind
  | GModifiers add remove => NModGroup add remove inner
  end.

Section descent.
(** The parse of the group's alternation, one level down. *)
Context (parseAlternation : parser ReNode).

Definition parseGroup : parser ReNode :=
  h ← group_head;
  st ← get;
  _ ← modify (set_iState (scoped_i h (p_iState st)));
  inner ← parseAlternation;
  _ ← modify (set_iState (p_iState st));
  c ← peek;
  if negb (is_ch c ")") then refuse (js "unterminated group")
  else _ ← next; mret (group_node h inner).

(** An ordinary literal: in u/v mode a whole code point. *)
Definition literal_atom : parser ReNode :=
  if unicode then
    st ← get;
    match codePointAt src (pos st) with
    | Some cp => _ ← modify (set_pos (pos st + (if 0xffff <? cp then 2 else 1))); p_uChar cp
    | None => λ _, Err NotModelled
    end
  else c ← next; mret (NChar c).

Definition parseAtom : parser ReNode :=
  c ← peek;
  match c with
  | None => refuse (js "unexpected end of pattern")
  | Some c =>
      if c =? ch "(" then parseGroup
      else if c =? ch "[" then if unicode then unicode_class else parseClass
      else if c =? ch "." then _ ← next; mret (if unicode then NUdot else NAny)
      else if c =? ch "^" then _ ← next; mret NBol
      else if c =? ch "$" then _ ← next; mret NEol
      else if c =? ch "\" then parseEscapeAtom
      else if one_of (Some c) (js "*+?") then st ← get; nothing_to_repeat (pos st)
      else literal_atom
  end.

(** The quantifiers [*], [+] and [?]; [c] is the one at the cursor. *)
Definition simple_quantifier (atom : ReNode) (c : Z) : parser ReNode :=
  _ ← next;
  greedy ← consumeLazy;
  mret
    (if isLookaround atom then if c =? ch "+" then atom else NOpt atom greedy
     else if c =? ch "*" then NStar atom greedy
     else if c =? ch "+" then NPlus atom greedy
     else NOpt atom greedy).

Definition brace_quantifier (atom : ReNode) : parser ReNode :=
  st ← get;
  bounds ← tryParseBraceQuantifier;
  match bounds with
  | Some (min, max) =>
      if isAssertion atom then nothing_to_repeat (pos st)
      else
        greedy ← consumeLazy;
        mret
          (if isLookaround atom then
             if max =? 0 then NConcat [] else if 1 <=? min then atom else NOpt atom greedy
           else NRepeat atom min max greedy)
  | None => _ ← modify (set_pos (pos st)); mret atom
  end.

Definition parseQuantified : parser ReNode :=
  atom ← parseAtom;
  c ← peek;
  match c with
  | Some c =>
      if one_of (Some c) (js "*+?") then
        if isAssertion atom then st ← get; nothing_to_repeat (pos st)
        else simple_quantifier atom c
      else if c =? ch "{" then brace_quantifier atom
      else mret atom
  | None => mret atom
  end.

Fixpoint concat_loop (fuel : nat) (parts : list ReNode) : parser (list ReNode) :=
  match fuel with
  | O => out_of_fuel
  | S fuel' =>
      c ← peek;
      match c with
      | Some c =>
          if (c =? ch "|") || (c =? ch ")") then mret parts
          else part ← parseQuantified; concat_loop fuel' (parts ++ [part])
      | None => mret parts
      end
  end.

Definition parseConcat : parser ReNode :=
  parts ← concat_loop (S (length src)) [];
  mret match parts with [part] => part | _ => NConcat parts end.

Fixpoint alt_loop (fuel : nat) (options : list ReNode) : parser (list ReNode) :=
  match fuel with
  | O => out_of_fuel
  | S fuel' =>
      c ← peek;
      if is_ch c "|" then
        _ ← next; option ← parseConcat; alt_loop fuel' (options ++ [option])
      else mret options
  end.

Definition alternation : parser ReNode :=
  option ← parseConcat;
  options ← alt_loop (S (length src)) [option];
  mret match options with [option] => option | _ => NAlt options end.
End descent.

Fixpoint parseAlternation (depth : nat) : parser ReNode :=
  match depth with
  | O => out_of_fuel
  | S depth' => alternation (parseAlternation depth')
  end.

Definition parse : parser ReNode :=
  node ← parseAlternation (S (length src));
  st ← get;
  match js_at src (pos st) with
  | Some c => refuse (js "unexpected '" ++ [c] ++ js "' at index " ++ js_num (pos st))
  | None => mret node
  end.
End parser.

Section pattern.
Context `{RangeEnumerator, StringPropertyData}.

Definition parsePattern (pattern : jsstr) (flags : Z) : result ParsedRegex :=
  scan ← scanGroups pattern;
  let unicode := negb (flags .& (RE_FLAG_U .| RE_FLAG_V) =? 0) in
  let vMode := negb (flags .& RE_FLAG_V =? 0) in
  let iState := negb (flags .& RE_FLAG_I =? 0) in
  r ← parse pattern scan.1 scan.2 unicode vMode
        {| pos := 0; p_captures := 0; p_iState := iState |};
  Ok {| root := r.1; numCaptures := p_captures r.2; p_groupNames := scan.2 |}.

Definition compilePattern (toUpperCase : jsstr → jsstr) (pattern : jsstr) (flags : Z)
  : result CompiledRegex :=
  parsed ← parsePattern pattern flags; compileParsed toUpperCase parsed flags.
End pattern.
