(* ===== verification/ReParseOk.v ===== *)
(** The pattern parser of ReParse.v always comes to an end, and what it returns
    is a tree the compiler can take: the type theorem of
    src/codegen/regex/parse.ts. *)

From Stdlib Require Import Ascii.
From stdpp Require Import sorting.
From S2P Require Import Prelude ReBytecode ReCaseFold ReUnicode ReCompile ReStringSet.
From S2P Require Import ReParse.

(** * Well-formed trees *)

(** The group indices of a tree, in the order of the pattern. *)
Fixpoint group_indices (n : ReNode) : list Z :=
  match n with
  | NLookaround n _ _ | NModGroup _ _ n | NStar n _ | NPlus n _ | NOpt n _ | NRepeat n _ _ _ =>
      group_indices n
  | NGroup n capIndex _ => (if capIndex <? 0 then [] else [capIndex]) ++ group_indices n
  | NConcat ns | NAlt ns => concat (map group_indices ns)
  | _ => []
  end.

(** [l] increases strictly, above [lo] and up to [hi]. *)
Fixpoint between (lo hi : Z) (l : list Z) : Prop :=
  match l with
  | [] => lo ≤ hi
  | x :: l' => lo < x ∧ between x hi l'
  end.

Definition valid_ranges (rs : list (Z * Z)) : bool := forallb (λ r, r.1 <=? r.2) rs.

(** What the parser makes of each node: kinds that the mode has, code units,
    ordered ranges, bounds in order, backreferences to groups of the pattern,
    alternations with a choice. *)
Fixpoint shaped (unicode : bool) (total : Z) (n : ReNode) : bool :=
  match n with
  | NChar code => (0 <=? code) && (code <=? 0xffff)
  | NAny => negb unicode
  | NUdot => unicode
  | NClass ranges _ => negb unicode && valid_ranges ranges
  | NCpClass ranges negated => unicode && valid_ranges ranges && negb negated
  | NBackref index => (1 <=? index) && (index <=? total)
  | NLookaround n _ _ | NModGroup _ _ n | NGroup n _ _ => shaped unicode total n
  | NStar n _ | NPlus n _ | NOpt n _ => negb (isAssertion n) && shaped unicode total n
  | NRepeat n min max _ =>
      negb (isAssertion n) && (0 <=? min) && ((max =? -1) || (min <=? max)) && shaped unicode total n
  | NConcat ns => forallb (shaped unicode total) ns
  | NAlt ns => (1 <? length ns)%nat && forallb (shaped unicode total) ns
  | NBol | NEol | NWordBoundary _ => true
  end.

Lemma between_le lo hi l : between lo hi l → lo ≤ hi.
Proof. revert lo. induction l as [|x l IH]; intros lo; [done|]. intros [? ?%IH]. lia. Qed.

Lemma between_app lo mid hi l1 l2 :
  between lo mid l1 → between mid hi l2 → between lo hi (l1 ++ l2).
Proof.
  revert lo. induction l1 as [|x l1 IH]; intros lo; simpl.
  - intros Hle H2. destruct l2 as [|y l2]; simpl in *; [lia|]. destruct H2. split; [lia|done].
  - intros [Hx H1] H2. split; [done|]. by apply IH.
Qed.

Lemma between_bounds lo hi l : between lo hi l → Forall (λ x, lo < x ≤ hi) l.
Proof.
  revert lo. induction l as [|x l IH]; intros lo; [constructor|]. intros [Hx Hl].
  apply Forall_cons. split; [by apply between_le in Hl|].
  eapply Forall_impl; [by apply IH|]. simpl. lia.
Qed.

(** * Running a parser *)

(** [m] from [st] gives a result and a state that satisfy [Q], or throws. *)
Definition wp {A} (m : parser A) (st : PState) (Q : A → PState → Prop) : Prop :=
  yields (λ r, Q r.1 r.2) (m st).

Lemma wp_bind {A B} (m : parser A) (f : A → parser B) st Q :
  wp m st (λ a st', wp (f a) st' Q) → wp (m ≫= f) st Q.
Proof.
  unfold wp, mbind, parser_bind. destruct (m st) as [[a st']|e]; [|done]. done.
Qed.

Lemma wp_mono {A} (m : parser A) st (Q Q' : A → PState → Prop) :
  wp m st Q → (∀ a st', Q a st' → Q' a st') → wp m st Q'.
Proof. intros Hm HQ. eapply yields_mono; [exact Hm|]. intros [a st'] Ha. by apply HQ. Qed.

Lemma wp_ret {A} (a : A) st (Q : A → PState → Prop) : Q a st → wp (mret a) st Q.
Proof. done. Qed.

Lemma wp_refuse {A} msg st (Q : A → PState → Prop) : wp (refuse msg) st Q.
Proof. done. Qed.

Lemma wp_if {A} (b : bool) (m1 m2 : parser A) st Q :
  (b = true → wp m1 st Q) → (b = false → wp m2 st Q) → wp (if b then m1 else m2) st Q.
Proof. destruct b; auto. Qed.

Lemma wp_get st (Q : PState → PState → Prop) : Q st st → wp get st Q.
Proof. done. Qed.

Lemma wp_modify f st (Q : unit → PState → Prop) : Q tt (f st) → wp (modify f) st Q.
Proof. done. Qed.

Lemma wp_with_iState {A} (f : bool → result A) st (P : A → Prop) (Q : A → PState → Prop) :
  yields P (f (p_iState st)) → (∀ a, P a → Q a st) → wp (with_iState f) st Q.
Proof.
  intros Hf HQ. unfold wp, with_iState. eapply yields_bind; [exact Hf|].
  intros a Ha. by apply HQ.
Qed.

(** Through the primitives at the head of a computation. *)
Ltac wp_step :=
  lazymatch goal with
  | |- wp (mbind _ _) _ _ => apply wp_bind
  | |- wp (mret _) _ _ => apply wp_ret
  | |- wp (refuse _) _ _ => apply wp_refuse
  | |- wp (nothing_to_repeat _) _ _ => apply wp_refuse
  | |- wp get _ _ => apply wp_get
  | |- wp (modify _) _ _ => apply wp_modify
  end; cbv beta.
Ltac wp_steps := repeat wp_step.

(** * The nodes of u/v mode *)

(** A node of u/v mode without groups or backreferences. *)
Definition uleaf (n : ReNode) : Prop := (∀ total, shaped true total n = true) ∧ group_indices n = [].

Lemma cp_ranges_valid rs : cp_ranges rs → valid_ranges rs = true.
Proof.
  intros Hr. apply forallb_forall. intros r Hin%list_elem_of_In. unfold cp_ranges in Hr.
  rewrite list.Forall_forall in Hr. apply Hr in Hin. apply Z.leb_le. lia.
Qed.

Lemma separated_valid_ranges rs : separated rs → valid_ranges rs = true.
Proof.
  intros Hr%separated_valid. apply forallb_forall. intros r Hin%list_elem_of_In.
  rewrite list.Forall_forall in Hr. by apply Z.leb_le, Hr.
Qed.

Lemma uleaf_class rs : valid_ranges rs = true → uleaf (cpClass rs).
Proof. intros Hr. split; [|done]. intros total. cbn [cpClass shaped]. by rewrite Hr. Qed.

Lemma uleaf_char u : is_unit u → uleaf (NChar u).
Proof.
  intros Hu. split; [|done]. intros total. cbn. unfold is_unit in Hu.
  rewrite andb_true_iff, !Z.leb_le. done.
Qed.

Lemma uleaf_list ns :
  Forall uleaf ns → (∀ total, forallb (shaped true total) ns = true) ∧ concat (map group_indices ns) = [].
Proof.
  intros Hns. split.
  - intros total. apply forallb_forall. intros n Hn%list_elem_of_In.
    rewrite list.Forall_forall in Hns. by apply Hns.
  - induction Hns as [|n ns [_ Hn] _ IH]; [done|]. cbn [map concat]. by rewrite Hn.
Qed.

Lemma uleaf_concat ns : Forall uleaf ns → uleaf (NConcat ns).
Proof. intros Hns. by destruct (uleaf_list ns Hns). Qed.

Lemma uleaf_options ns : Forall uleaf ns → uleaf (options_node ns).
Proof.
  intros Hns. destruct (uleaf_list ns Hns) as [Hs Hg]. destruct Hns as [|n1 ns Hn1 Hns].
  { by apply uleaf_class. }
  destruct Hns as [|n2 ns Hn2 Hns]; [done|]. by split.
Qed.

Lemma uleaf_join head tail : uleaf head → uleaf tail → uleaf (join_branch head tail).
Proof.
  intros Hh Ht. assert (uleaf (NConcat [head; tail])) as H2 by 
    by (apply uleaf_concat, Forall_cons; split; [done|by apply Forall_singleton]).
  destruct tail; try exact H2. destruct parts as [|part parts]; [done|].
  destruct Ht as [Hs Hg]. destruct Hh as [Hhs Hhg]. split.
  - intros total. specialize (Hs total). cbn [join_branch shaped forallb] in *. by rewrite Hhs.
  - cbn [join_branch group_indices map concat] in *. by rewrite Hhg.
Qed.

Section Trie_ind'.
Context (P : Trie → Prop) (HP : ∀ t children, Forall (λ e, P e.2) children → P (TNode t children)).

(** Induction that reaches the nodes inside the lists of children. *)
Fixpoint Trie_ind' (t : Trie) : P t :=
  match t with
  | TNode terminal children =>
      HP terminal children
        ((fix go (l : list (Z * Trie)) : Forall (λ e, P e.2) l :=
            match l with
            | [] => Forall_nil_2 _
            | e :: l' => Forall_cons_2 _ _ _ (Trie_ind' e.2) (go l')
            end) children)
  end.
End Trie_ind'.

(** A trie whose edges are code points. *)
Inductive trie_ok : Trie → Prop :=
  | trie_ok_node t children :
      Forall (λ e, is_cp e.1 ∧ trie_ok e.2) children → trie_ok (TNode t children).

Lemma insert_trie_ok t sequence :
  trie_ok t → Forall is_cp sequence → trie_ok (insertUnicodeString t sequence).
Proof.
  intros Ht Hs. revert t Ht. induction Hs as [|cp sequence Hcp _ IH]; intros [term children] Ht;
    inversion_clear Ht as [? ? Hch]; cbn [insertUnicodeString]; constructor; [done|].
  apply jm_set_Forall; [done|]. split; [done|]. cbn [snd]. apply IH.
  destruct (jm_get children cp) as [child|] eqn:E; [|by repeat constructor].
  apply jm_get_elem in E. rewrite list.Forall_forall in Hch. by apply Hch in E as [_ ?].
Qed.

Section unicode_atoms_ok.
Context `{RangeEnumeratorOk} (vMode : bool).

Lemma enum_ranges_yields source flagStr : yields cp_ranges (enum_ranges source flagStr).
Proof. apply settles_yields; [apply enum_ranges_terminates|apply enum_ranges_ok]. Qed.

Lemma uEnum_yields i source : yields uleaf (uEnum vMode i source).
Proof.
  unfold uEnum. ybind (apply enum_ranges_yields). intros rs Hrs.
  by apply uleaf_class, cp_ranges_valid.
Qed.

Lemma uChar_yields i cp : is_cp cp → yields uleaf (uChar vMode i cp).
Proof.
  intros Hcp. unfold uChar. destruct i; [apply uEnum_yields|].
  destruct (Z.ltb_spec 0xffff cp) as [Hbig|Hsmall].
  - pose proof (from_code_point_units cp Hcp) as Hu. unfold from_code_point in Hu.
    rewrite (proj2 (Z.leb_gt _ _)) in Hu by done.
    apply Forall_cons in Hu as [Hl [Ht _]%Forall_cons].
    apply uleaf_concat, Forall_cons. split; [|apply Forall_singleton]; by apply uleaf_char.
  - destruct (is_surrogate cp); [apply uleaf_class; cbn; by rewrite Z.leb_refl|].
    apply uleaf_char. unfold is_cp, is_unit in *. lia.
Qed.

Lemma uStringTrieHead_yields i cps :
  Forall is_cp cps → yields uleaf (uStringTrieHead vMode i cps).
Proof.
  intros Hcps. assert (yields uleaf (if i then uEnum vMode i
    (js "[" ++ concat (map codePointSource cps) ++ js "]") else Ok (cpClass (codePointRanges cps)))) as Hc.
  { destruct i; [apply uEnum_yields|]. apply uleaf_class, separated_valid_ranges.
    apply (singletonRanges_spec cps). }
  unfold uStringTrieHead. destruct Hcps as [|cp cps Hcp Hcps]; [exact Hc|].
  destruct Hcps; [by apply uChar_yields|exact Hc].
Qed.

Lemma group_branches_yields i children :
  Forall (λ c, is_cp c.1 ∧ yields uleaf c.2.2) children →
  yields (Forall uleaf) (group_branches vMode i children).
Proof.
  intros Hch. unfold group_branches.
  assert (∀ groups, Forall (λ g, Forall is_cp g.2.1 ∧ yields uleaf g.2.2) groups →
    Forall (λ g, Forall is_cp g.2.1 ∧ yields uleaf g.2.2) (foldl add_branch groups children)) as Hgroups.
  { induction Hch as [|[cp [sig tail]] children [Hcp Ht] _ IH]; intros groups Hg; [done|].
    apply IH. cbn [add_branch fst snd] in *. destruct (jm_get groups sig) as [[cps tail']|] eqn:E.
    - apply jm_get_elem in E. pose proof Hg as Hg'. rewrite list.Forall_forall in Hg'.
      apply Hg' in E as [Hcps Htail]. apply jm_set_Forall; [done|]. split; [|done].
      apply Forall_app. split; [done|by apply Forall_singleton].
    - apply jm_set_Forall; [done|]. split; [by apply Forall_singleton|done]. }
  specialize (Hgroups [] (Forall_nil_2 _)). rewrite list.Forall_forall in Hgroups.
  eapply yields_mono; [apply (map_result_yields uleaf)|by intros ? [? _]].
  intros [sig [cps tail]] Hin. apply Hgroups in Hin as [Hcps Ht]. cbn [fst snd] in *.
  ybind (by apply uStringTrieHead_yields). intros head Hhead.
  ybind (exact Ht). intros tail' Htail. by apply uleaf_join.
Qed.

Lemma uStringTrieNode_yields i t : trie_ok t → yields uleaf (uStringTrieNode vMode i t).
Proof.
  induction t as [term children IH] using Trie_ind'. intros Ht. inversion_clear Ht as [? ? Hch].
  cbn [uStringTrieNode]. eapply yields_bind.
  - apply group_branches_yields. apply Forall_fmap. rewrite list.Forall_forall in IH, Hch |- *.
    intros [cp child] Hin. pose proof (Hch _ Hin) as [Hcp Hok]. split; [done|]. by apply (IH _ Hin).
  - intros options Hopt. apply uleaf_options, Forall_app. split; [done|].
    destruct term; [|constructor]. apply Forall_singleton, uleaf_concat. constructor.
Qed.

Lemma uStringSet_yields i set : good_set set → yields uleaf (uStringSet vMode i set).
Proof.
  intros [[Hsep Hstr] Hp]. unfold uStringSet.
  assert (trie_ok (foldl insertUnicodeString newUnicodeStringTrieNode (us_strings set).*2)) as Ht.
  { assert (Forall (Forall is_cp) (us_strings set).*2) as Hcps.
    { apply list.Forall_forall. intros q Hq. apply Hp. rewrite member_strings; [done|].
      apply list_elem_of_fmap in Hq as ([k q'] & -> & Hin). by apply (strings_ok_elem _ k _ Hstr). }
    assert (trie_ok newUnicodeStringTrieNode) as Hnew by (repeat constructor).
    revert Hnew. generalize newUnicodeStringTrieNode.
    induction Hcps as [|q qs Hq _ IH]; intros t Ht; [done|]. by apply IH, insert_trie_ok. }
  destruct (foldl _ _ _) as [term children]. inversion_clear Ht as [? ? Hch].
  cbn [uStringTrieBranches]. eapply yields_bind.
  - apply group_branches_yields. apply Forall_fmap. rewrite list.Forall_forall in Hch |- *.
    intros [cp child] Hin. pose proof (Hch _ Hin) as [Hcp Hok]. split; [done|].
    by apply uStringTrieNode_yields.
  - intros options Hopt. apply uleaf_options. rewrite !Forall_app. split_and!; [done| |].
    + destruct (bool_decide _); [constructor|]. by apply Forall_singleton, uleaf_class, separated_valid_ranges.
    + destruct (terminal _); [|constructor]. apply Forall_singleton, uleaf_concat. constructor.
Qed.

Lemma q_end_yields body fuel j :
  0 ≤ j → Z.max 0 (len body - j) < Z.of_nat fuel → yields (λ e, j ≤ e) (q_end fuel body j).
Proof.
  revert j. induction fuel as [|fuel IH]; intros j Hj Hf; [lia|]. cbn [q_end].
  destruct (Z.ltb_spec j (len body)) as [Hlt|]; cbn [negb orb]; [|simpl; lia].
  destruct (at_is body j "}"); [simpl; lia|].
  pose proof (brace_end_le (length body) body (j + 3)).
  destruct (at_is body j "\"); [destruct (_ && _)|];
    (eapply yields_mono; [apply IH; lia|]; simpl; lia).
Qed.

Lemma q_scan_yields body fuel k depth qSpans :
  0 ≤ k → Z.max 0 (len body - k) < Z.of_nat fuel → yields (λ _, True) (q_scan fuel body k depth qSpans).
Proof.
  revert k depth qSpans. induction fuel as [|fuel IH]; intros k depth qSpans Hk Hf; [lia|].
  cbn [q_scan]. destruct (Z.ltb_spec k (len body)) as [Hlt|]; cbn [negb]; [|done].
  destruct (at_is body k "\").
  - destruct (_ && _); [|apply IH; lia].
    ybind (apply q_end_yields; [lia|unfold len in *; lia]). intros e He.
    destruct (negb _); [done|]. apply IH; lia.
  - destruct (at_is body k "["); [apply IH; lia|]. destruct (at_is body k "]"); [apply IH; lia|].
    destruct (_ && _); [done|]. apply IH; lia.
Qed.

Lemma operand_arm_yields i cps :
  Forall is_cp cps → yields (λ a, uleaf a.2) (operand_arm vMode i cps).
Proof.
  intros Hcps. unfold operand_arm. destruct cps as [|cp cps].
  { apply uleaf_concat. constructor. }
  eapply yields_bind; [apply (map_result_yields uleaf)|].
  - intros x Hx. destruct i; [apply uEnum_yields|]. rewrite list.Forall_forall in Hcps.
    by apply uChar_yields, Hcps.
  - intros parts [Hparts _]. cbn [yields snd]. pose proof (uleaf_concat _ Hparts).
    destruct Hparts as [|n ns Hn Hns]; [done|]. by destruct Hns.
Qed.

Lemma span_arms_yields i body span arms :
  Forall is_unit body → Forall (λ a, uleaf a.2) arms →
  yields (Forall (λ a, uleaf a.2)) (span_arms vMode i body span arms).
Proof.
  intros Hb Ha. unfold span_arms.
  ybind (by apply parseStringDisjunction_yields, js_slice_part). intros operands Hops.
  eapply yields_bind; [apply (map_result_yields (λ a, uleaf a.2))|].
  - intros cps Hcps. rewrite list.Forall_forall in Hops. by apply operand_arm_yields, Hops.
  - intros new [Hnew _]. by apply Forall_app.
Qed.

Lemma residual_arms_yields i residual arms :
  Forall (λ a, uleaf a.2) arms → yields (Forall (λ a, uleaf a.2)) (residual_arms vMode i residual arms).
Proof.
  intros Ha. unfold residual_arms. destruct (bool_decide _); [done|].
  ybind (apply enum_ranges_yields). intros rs Hrs.
  destruct (negb _); [|by destruct (PROPERTY_OF_STRINGS_RE _)].
  apply Forall_app. split; [done|]. by apply Forall_singleton, uleaf_class, cp_ranges_valid.
Qed.

Lemma uEnumClassWithStrings_yields i source :
  Forall is_unit source → yields uleaf (uEnumClassWithStrings vMode i source).
Proof.
  intros Hs. unfold uEnumClassWithStrings. destruct (is_ch _ _); [done|].
  pose proof (js_slice_part source 1 (len source - 1) Hs) as [_ Hb].
  ybind (apply q_scan_yields; [done|unfold len; lia]). intros qSpans _.
  destruct (bool_decide _); [apply uEnum_yields|].
  ybind (apply (for_each_yields (Forall (λ a, uleaf a.2)));
    [constructor|intros; by apply span_arms_yields]). intros arms Ha.
  ybind (by apply residual_arms_yields). intros arms' Ha'.
  apply uleaf_options, Forall_fmap. by rewrite stable_sort_perm.
Qed.
End unicode_atoms_ok.

Section parser_ok.
Context `{StringPropertyDataOk, RangeEnumeratorOk}.
Context (src : jsstr) (Hsrc : Forall is_unit src).
Context (totalCaptures : Z) (groupNames : jsmap jsstr Z) (unicode vMode : bool).
Context (Hnames : ∀ name idx, jm_get groupNames name = Some idx → 1 ≤ idx ≤ totalCaptures).

(** A cursor inside the pattern, and a number of groups. *)
Definition inside (st : PState) : Prop := 0 ≤ pos st ≤ len src ∧ 0 ≤ p_captures st.

(** [st'] is at least [k] further, with the same groups and flags. *)
Definition ahead (k : Z) (st st' : PState) : Prop :=
  pos st + k ≤ pos st' ≤ len src ∧ p_captures st' = p_captures st ∧ p_iState st' = p_iState st.

Lemma ahead_refl st : inside st → ahead 0 st st.
Proof. unfold inside, ahead. intros. split_and!; [lia..|done|done]. Qed.

Lemma ahead_trans j k st st1 st2 :
  ahead j st st1 → ahead k st1 st2 → ahead (j + k) st st2.
Proof. unfold ahead. intros (? & ? & ?) (? & ? & ?). split_and!; [lia..|congruence|congruence]. Qed.

Lemma ahead_weaken j k st st' : ahead j st st' → k ≤ j → ahead k st st'.
Proof. unfold ahead. intros (? & ? & ?) Hk. split_and!; [lia..|done|done]. Qed.

Lemma ahead_inside k st st' : ahead k st st' → 0 ≤ k → inside st → inside st'.
Proof. unfold ahead, inside. lia. Qed.

Lemma wp_peek st (Q : option Z → PState → Prop) : Q (js_at src (pos st)) st → wp (peek src) st Q.
Proof. done. Qed.

Lemma src_unit i c : js_at src i = Some c → is_unit c.
Proof. intros Hc%js_at_Some. destruct Hc as [_ Hc]. by apply (Forall_lookup_1 _ _ _ _ Hsrc Hc). Qed.

Lemma wp_next st (Q : Z → PState → Prop) :
  inside st → (∀ c, js_at src (pos st) = Some c → is_unit c → ahead 1 st (set_pos (pos st + 1) st) →
    Q c (set_pos (pos st + 1) st)) → wp (next src) st Q.
Proof.
  intros Hi HQ. unfold wp, next. destruct (js_at src (pos st)) as [c|] eqn:Ec; [|done].
  apply HQ; [done|by eapply src_unit|]. apply js_at_lt in Ec.
  unfold ahead, len. simpl. split_and!; [lia..|done|done].
Qed.

(** Cursor arithmetic. *)
Ltac st_solve :=
  repeat match goal with x := _ : PState |- _ => subst x end;
  unfold ahead, inside, len in *;
  cbn [pos p_captures p_iState set_pos set_captures set_iState] in *;
  destruct_and?; split_and?; first [lia | congruence | done].

Lemma span_of_prefix p s : ∃ t, s = span_of p s ++ t.
Proof.
  induction s as [|c s [t IH]]; [by exists []|]. cbn [span_of].
  destruct (p c); [exists t; cbn [app]; by rewrite <- IH|by exists (c :: s)].
Qed.

Lemma wp_read_while p st (Q : jsstr → PState → Prop) :
  inside st →
  (∀ text, Forall is_unit text → Forall (λ c, p c = true) text →
    ahead 0 st (set_pos (pos st + len text) st) → Q text (set_pos (pos st + len text) st)) →
  wp (read_while src p) st Q.
Proof.
  intros Hi HQ. unfold wp, read_while. cbn [yields fst snd].
  destruct (span_of_prefix p (drop (Z.to_nat (pos st)) src)) as [t Ht].
  assert (len (span_of p (drop (Z.to_nat (pos st)) src)) + pos st ≤ len src) as Hle.
  { apply (f_equal length) in Ht. rewrite length_app, length_drop in Ht. unfold inside, len in *. lia. }
  apply HQ.
  - pose proof (Forall_drop is_unit (Z.to_nat (pos st)) _ Hsrc) as Hd. rewrite Ht in Hd.
    by apply Forall_app in Hd as [? _].
  - clear. generalize (drop (Z.to_nat (pos st)) src) as s. induction s as [|c s IH]; [constructor|].
    cbn [span_of]. destruct (p c) eqn:E; by constructor.
  - assert (0 ≤ len (span_of p (drop (Z.to_nat (pos st)) src))) by (unfold len; lia). st_solve.
Qed.

Lemma wp_eof_peek st c : js_at src (pos st) = Some c → inside st → pos st < len src.
Proof. intros Hc%js_at_lt _. unfold len. lia. Qed.

(** Use a proved specification. *)
Ltac wp_use L := eapply wp_mono; [apply L; first [eassumption | st_solve | idtac]|cbv beta].

Lemma backrefNode_wp st index (Q : ReNode → PState → Prop) :
  1 ≤ index ≤ totalCaptures → (∀ n, shaped unicode totalCaptures n = true → group_indices n = [] → Q n st) →
  wp (backrefNode unicode index) st Q.
Proof.
  intros Hi HQ. unfold backrefNode. wp_steps. destruct (_ && _); wp_steps. apply HQ; [|done].
  cbn. rewrite andb_true_iff, !Z.leb_le. done.
Qed.

(** A specification of a node without groups. *)
Definition leaf_spec (k : Z) (m : parser ReNode) : Prop :=
  ∀ st, inside st →
  wp m st (λ n st', ahead k st st' ∧ shaped unicode totalCaptures n = true ∧ group_indices n = []).

(** A specification of a code unit. *)
Definition unit_spec (k : Z) (m : parser Z) : Prop :=
  ∀ st, inside st → wp m st (λ u st', ahead k st st' ∧ is_unit u).

Lemma uleaf_wp st (f : bool → result ReNode) (Q : ReNode → PState → Prop) :
  unicode = true → yields uleaf (f (p_iState st)) →
  (∀ n, shaped unicode totalCaptures n = true → group_indices n = [] → Q n st) →
  wp (with_iState f) st Q.
Proof.
  intros Hu Hf HQ. eapply wp_with_iState; [exact Hf|]. intros n [Hs Hg]. apply HQ; [|done].
  rewrite Hu. apply Hs.
Qed.

Lemma octal_loop_ok n v st :
  inside st → is_unit v → wp (octal_loop src n v) st (λ u st', ahead 0 st st' ∧ is_unit u).
Proof.
  revert v st. induction n as [|n IH]; intros v st Hi Hu; cbn [octal_loop].
  { apply wp_ret. split; [by apply ahead_refl|done]. }
  apply wp_bind, wp_peek. destruct (js_at src (pos st)) as [c|] eqn:Ec;
    [|apply wp_ret; split; [by apply ahead_refl|done]].
  destruct (is_octal c) eqn:Eo; [|apply wp_ret; split; [by apply ahead_refl|done]].
  destruct (Z.ltb_spec 0xff (v * 8 + (c - 0x30))); [apply wp_ret; split; [by apply ahead_refl|done]|].
  apply wp_bind, wp_next; [done|]. intros _ _ _ Ha. eapply wp_mono; [apply IH|cbv beta].
  - st_solve.
  - unfold is_octal, ch in Eo. apply andb_true_iff in Eo as [E1%Z.leb_le E2%Z.leb_le].
    simpl in E1, E2. unfold is_unit in *. lia.
  - intros u st' [Ha' Hu']. split; [st_solve|done].
Qed.

Lemma parseLegacyOctal_ok : unit_spec 0 (parseLegacyOctal src).
Proof. intros st Hi. apply octal_loop_ok; [done|unfold is_unit; lia]. Qed.

Lemma hex_escape_ok n literal bad :
  (n ≤ 4)%nat → is_unit literal → unit_spec 0 (hex_escape src unicode n literal bad).
Proof.
  intros Hn Hl st Hi. unfold hex_escape. wp_steps. unfold hex_ahead.
  destruct (hex_exactly _ _) as [code|] eqn:E.
  - apply hex_exactly_bound in E as [El E]. wp_steps. split.
    + rewrite length_take, length_drop in El. unfold len in *. unfold ahead, inside, len in *.
      cbn [pos p_captures p_iState set_pos]. split_and!; [lia..|done|done].
    + unfold is_unit. assert (16 ^ Z.of_nat n ≤ 16 ^ 4) by (apply Z.pow_le_mono_r; lia). lia.
  - destruct (negb unicode); wp_steps. split; [by apply ahead_refl|done].
Qed.

Lemma ch_unit a : is_unit (ch a).
Proof. unfold is_unit, ch. pose proof (N_ascii_bounded a). lia. Qed.

Lemma mod32_unit l : is_unit (l mod 32).
Proof. unfold is_unit. pose proof (Z.mod_pos_bound l 32). lia. Qed.

Lemma parseEscapedCodeUnit_ok inClass : unit_spec 0 (parseEscapedCodeUnit src unicode inClass).
Proof.
  intros st Hi. unfold parseEscapedCodeUnit. apply wp_bind, wp_next; [done|]. intros e He Hu Ha.
  set (st1 := set_pos (pos st + 1) st) in *.
  assert (inside st1) as Hi1 by (st_solve).
  assert (∀ u, is_unit u → ahead 0 st st1 ∧ is_unit u) as Hret by (intros; split; [st_solve|done]).
  repeat match goal with
  | |- wp (if e =? ?x then mret _ else _) _ _ =>
      destruct (e =? x); [apply wp_ret, Hret; unfold is_unit; lia|]
  end.
  destruct (is_octal e).
  { wp_steps. eapply wp_mono; [apply parseLegacyOctal_ok|cbv beta].
    - st_solve.
    - intros u st' [Ha' Hu']. split; [st_solve|done]. }
  destruct (_ || _); [by apply wp_ret, Hret|].
  assert (wp (if negb unicode then st ← get; _ ← modify (set_pos (pos st - 1)); mret 0x5c
              else refuse (js "\c without a control letter")) st1
            (λ u st', ahead 0 st st' ∧ is_unit u)) as Hback.
  { destruct (negb unicode); wp_steps. split; [st_solve|unfold is_unit; lia]. }
  destruct (e =? ch "c").
  { apply wp_bind, wp_peek. destruct (js_at src (pos st1)) as [l|] eqn:El; [|exact Hback].
    destruct (_ || _); [|exact Hback]. apply wp_bind, wp_next; [done|]. intros _ _ _ Ha1. wp_steps.
    split; [st_solve|apply mod32_unit]. }
  assert (∀ n lit bad, (n ≤ 4)%nat → is_unit lit →
    wp (hex_escape src unicode n lit bad) st1 (λ u st', ahead 0 st st' ∧ is_unit u)) as Hhex.
  { intros n lit bad Hn Hl. eapply wp_mono; [by apply hex_escape_ok|cbv beta]. intros u st' [? ?].
    split; [st_solve|done]. }
  destruct (e =? ch "x"); [apply Hhex; [lia|unfold is_unit; lia]|].
  destruct (e =? ch "u"); [|by apply wp_ret, Hret].
  apply wp_bind, wp_peek. destruct (is_ch _ _); [done|]. apply Hhex; [lia|unfold is_unit; lia].
Qed.

Lemma readHex4_ok : unit_spec 4 (readHex4 src).
Proof.
  intros st Hi. unfold readHex4.
  apply wp_bind, wp_next; [done|]. intros a _ _ Ha.
  apply wp_bind, wp_next; [st_solve|]. intros b _ _ Hb.
  apply wp_bind, wp_next; [st_solve|]. intros c _ _ Hc.
  apply wp_bind, wp_next; [st_solve|]. intros d _ _ Hd.
  destruct (hex_exactly 4 _) as [code|] eqn:E; wp_steps. apply hex_exactly_bound in E as [_ E].
  split; [st_solve|unfold is_unit; simpl in E; lia].
Qed.

Lemma p_uChar_ok cp : unicode = true → is_cp cp → leaf_spec 0 (p_uChar vMode cp).
Proof.
  intros Hu Hcp st Hi. unfold p_uChar. apply uleaf_wp; [done|by apply uChar_yields|].
  intros n Hs Hg. split; [by apply ahead_refl|done].
Qed.

Lemma unit_cp u : is_unit u → is_cp u.
Proof. unfold is_unit, is_cp. lia. Qed.

Lemma starts_with_length p s : starts_with p s = true → (length p ≤ length s)%nat.
Proof.
  revert s. induction p as [|x p IH]; intros [|y s]; simpl; try done; [lia|].
  intros [_ Hl%IH]%andb_true_iff. lia.
Qed.

Lemma try_trail_ok lead :
  unicode = true → is_unit lead → is_lead lead = true →
  ∀ st, inside st → starts_at (js "\u") src (pos st) = true →
  wp (try_trail src vMode lead) st
    (λ n st', ahead 0 st st' ∧ shaped unicode totalCaptures n = true ∧ group_indices n = []).
Proof.
  intros Hu Hl Hlead st Hi Hst. unfold wp, try_trail.
  pose proof (p_uChar_ok lead Hu (unit_cp _ Hl) st Hi) as Hback. unfold wp in Hback.
  assert (wp (trail_escape src vMode lead) st (λ o st', match o with
    | Some n => ahead 0 st st' ∧ shaped unicode totalCaptures n = true ∧ group_indices n = []
    | None => True end)) as Htry.
  { apply starts_with_length in Hst. rewrite length_drop in Hst.
    change (length (js "\u")) with 2%nat in Hst.
    unfold trail_escape. wp_steps. eapply wp_mono; [apply readHex4_ok; st_solve|cbv beta].
    intros trail st1 [Ha Ht]. destruct (is_trail trail) eqn:Et; wp_steps; [|done].
    eapply wp_mono; [apply p_uChar_ok; [done| |st_solve]|cbv beta].
    - pose proof (code_point_bound _ _ Hlead Et). unfold is_cp. lia.
    - intros n st' (Ha' & Hn). wp_steps. split; [st_solve|done]. }
  unfold wp in Htry. destruct (trail_escape src vMode lead st) as [[[n|] st']|[]]; done.
Qed.

Lemma parseUnicodeEscapeTail_ok : unicode = true → leaf_spec 0 (parseUnicodeEscapeTail src unicode vMode).
Proof.
  intros Hu st Hi. unfold parseUnicodeEscapeTail. apply wp_bind, wp_peek.
  destruct (is_ch _ "u").
  - apply wp_bind, wp_next; [done|]. intros _ _ _ Ha. apply wp_bind, wp_peek. destruct (is_ch _ "{").
    + apply wp_bind, wp_next; [st_solve|]. intros _ _ _ Ha1.
      apply wp_bind, wp_read_while; [st_solve|]. intros hex _ _ Ha2.
      apply wp_bind, wp_peek. destruct (_ || _) eqn:Eh; [done|].
      apply orb_false_iff in Eh as [_ Eh%negb_false_iff]. unfold all_hex in Eh.
      apply andb_true_iff in Eh as [_ Eh]. pose proof (parse_hex_bound _ Eh) as Hhex.
      apply wp_bind, wp_next; [st_solve|]. intros _ _ _ Ha3. cbv zeta.
      destruct (Z.ltb_spec 0x10ffff (parse_hex hex)); [done|].
      eapply wp_mono; [apply p_uChar_ok; [done|unfold is_cp; lia|st_solve]|cbv beta].
      intros n st' (Ha' & Hn). split; [st_solve|done].
    + apply wp_bind. eapply wp_mono; [apply readHex4_ok; st_solve|cbv beta]. intros lead st1 [Ha1 Hlu].
      wp_steps. destruct (_ && _) eqn:E.
      * apply andb_true_iff in E as [El Es]. eapply wp_mono; [apply try_trail_ok; [done..|st_solve|done]|cbv beta].
        intros n st' (Ha' & Hn). split; [st_solve|done].
      * eapply wp_mono; [apply p_uChar_ok; [done|by apply unit_cp|st_solve]|cbv beta].
        intros n st' (Ha' & Hn). split; [st_solve|done].
  - apply wp_bind. eapply wp_mono; [by apply parseEscapedCodeUnit_ok|cbv beta]. intros u st1 [Ha1 Hlu].
    eapply wp_mono; [apply p_uChar_ok; [done|by apply unit_cp|st_solve]|cbv beta].
    intros n st' (Ha' & Hn). split; [st_solve|done].
Qed.

Lemma leaf_char uni u :
  is_unit u → shaped uni totalCaptures (NChar u) = true ∧ group_indices (NChar u) = [].
Proof. intros Hu. unfold is_unit in Hu. cbn. rewrite andb_true_iff, !Z.leb_le. done. Qed.

Lemma decimal_escape_ok e :
  is_unit e → leaf_spec 0 (decimal_escape src totalCaptures unicode e).
Proof.
  intros He st Hi. unfold decimal_escape. wp_steps. apply wp_read_while; [done|].
  intros digits _ _ Ha. cbv zeta. destruct (_ && _) eqn:E.
  - apply andb_true_iff in E as [E1%Z.leb_le E2%Z.leb_le]. apply backrefNode_wp; [lia|].
    intros n Hs Hg. by split.
  - destruct unicode eqn:Eu; [done|]. wp_steps. destruct (ch "8" <=? e).
    + apply wp_bind, wp_next; [st_solve|]. intros _ _ _ Ha1. wp_steps.
      split; [st_solve|by apply leaf_char].
    + apply wp_bind. eapply wp_mono; [apply parseLegacyOctal_ok; st_solve|cbv beta]. intros u st1 [Ha1 Hlu].
      wp_steps. split; [st_solve|by apply leaf_char].
Qed.

Lemma decode_loop_yields fuel raw s out :
  (length s < fuel)%nat → yields (λ _, True) (decode_loop fuel raw s out).
Proof.
  revert s out. induction fuel as [|fuel IH]; intros s out Hf; [lia|]. cbn [decode_loop].
  destruct s as [|c s]; [done|]. simpl in Hf. destruct (negb _); [apply IH; lia|].
  destruct (negb _); [done|]. destruct (is_ch _ _).
  - pose proof (span_until_length (ch "}") (drop 2 s)) as Hl. rewrite length_drop in Hl.
    destruct (span_until _ _) as [digits [|y tail]]; [done|]. simpl in Hl.
    destruct (negb _); [done|]. destruct (_ <? _); [done|]. apply IH. lia.
  - destruct (hex_exactly _ _); [|done]. apply IH. rewrite length_drop. lia.
Qed.

Lemma decodeGroupName_yields raw : yields (λ _, True) (decodeGroupName raw).
Proof. apply decode_loop_yields. lia. Qed.

Lemma named_escape_ok : leaf_spec 0 (named_escape src groupNames unicode).
Proof.
  intros st Hi. unfold named_escape. destruct (bool_decide _).
  - destruct unicode eqn:Eu; [done|]. apply wp_bind, wp_next; [done|]. intros _ _ _ Ha.
    wp_steps. split; [st_solve|done].
  - apply wp_bind, wp_next; [done|]. intros _ _ _ Ha. apply wp_bind, wp_peek.
    destruct (negb _); [done|]. apply wp_bind, wp_next; [st_solve|]. intros _ _ _ Ha1.
    apply wp_bind, wp_read_while; [st_solve|]. intros rawName _ _ Ha2. apply wp_bind, wp_peek.
    destruct (negb _); [done|]. apply wp_bind, wp_next; [st_solve|]. intros _ _ _ Ha3.
    apply wp_bind. eapply wp_with_iState; [apply decodeGroupName_yields|]. intros name _.
    destruct (jm_get groupNames name) as [idx|] eqn:E; [|done].
    apply backrefNode_wp; [by eapply Hnames|]. intros n Hs Hg. split; [st_solve|done].
Qed.

Lemma extractPropertyEscapeSource_ok st :
  inside st → wp (extractPropertyEscapeSource src) st (λ s st', ahead 0 st st' ∧ Forall is_unit s).
Proof.
  intros Hi. unfold extractPropertyEscapeSource. apply wp_bind, wp_next; [done|].
  intros letter _ Hl Ha. apply wp_bind, wp_peek. destruct (negb _); [done|].
  apply wp_bind, wp_next; [st_solve|]. intros _ _ _ Ha1.
  apply wp_bind, wp_read_while; [st_solve|]. intros body Hb _ Ha2. apply wp_bind, wp_peek.
  destruct (negb _); [done|]. apply wp_bind, wp_next; [st_solve|]. intros _ _ _ Ha3. wp_steps.
  split; [st_solve|]. rewrite !Forall_app. split_and!; try apply js_units; [|done].
  by apply Forall_singleton.
Qed.

Lemma property_escape_ok : unicode = true → leaf_spec 0 (property_escape src vMode).
Proof.
  intros Hu st Hi. unfold property_escape. apply wp_bind.
  eapply wp_mono; [by apply extractPropertyEscapeSource_ok|cbv beta]. intros source st1 [Ha Hs].
  apply wp_bind. eapply (wp_with_iState _ _ (λ o, ∀ s, o = Some s → good_set s)).
  { destruct vMode; [apply unicodeStringPropertyEscape_yields|done]. }
  intros [set|] Hset.
  - apply uleaf_wp; [done|by apply uStringSet_yields, Hset|]. intros n Hn Hg. split; [st_solve|done].
  - apply uleaf_wp; [done|apply uEnum_yields|]. intros n Hn Hg. split; [st_solve|done].
Qed.

Lemma parseEscapeAtom_ok : leaf_spec 1 (parseEscapeAtom src totalCaptures groupNames unicode vMode).
Proof.
  intros st Hi. unfold parseEscapeAtom. apply wp_bind, wp_next; [done|]. intros _ _ _ Ha.
  set (st1 := set_pos (pos st + 1) st) in *. assert (inside st1) as Hi1 by st_solve.
  assert (∀ m, leaf_spec 0 m → wp m st1 (λ n st',
    ahead 1 st st' ∧ shaped unicode totalCaptures n = true ∧ group_indices n = [])) as Hleaf.
  { intros m Hm. eapply wp_mono; [by apply Hm|cbv beta]. intros n st' [Ha' Hn]. split; [st_solve|done]. }
  apply wp_bind, wp_peek. destruct (js_at src (pos st1)) as [e|] eqn:Ee; [|done].
  assert (is_unit e) as Hue by (by eapply src_unit).
  destruct (one_of _ _).
  { apply wp_bind, wp_next; [done|]. intros _ _ _ Ha1. apply wp_if; intros Eu.
    - apply uleaf_wp; [done|apply uEnum_yields|]. intros n Hn Hg. split; [st_solve|done].
    - wp_steps. split; [st_solve|]. rewrite Eu. unfold shorthand_node. by repeat case_match. }
  destruct (_ || _).
  { wp_steps. destruct (_ && _); [done|]. apply wp_bind, wp_next; [done|]. intros _ _ _ Ha1. wp_steps.
    split; [st_solve|done]. }
  destruct (_ && _); [by apply Hleaf, decimal_escape_ok|].
  destruct (e =? ch "k"); [apply Hleaf, named_escape_ok|].
  destruct (_ && _) eqn:Ep.
  { apply andb_true_iff in Ep as [_ Hu]. by apply Hleaf, property_escape_ok. }
  apply wp_if; intros Eu; [by apply Hleaf, parseUnicodeEscapeTail_ok|].
  apply wp_bind. eapply wp_mono; [by apply parseEscapedCodeUnit_ok|cbv beta]. intros u st' [Ha' Hun]. wp_steps.
  split; [st_solve|by apply leaf_char].
Qed.

(** * Classes *)

Lemma extract_loop_yields fuel i depth :
  0 ≤ i → Z.max 0 (len src - i) < Z.of_nat fuel →
  yields (λ e, i < e ≤ len src) (extract_loop src vMode fuel i depth).
Proof.
  revert i depth. induction fuel as [|fuel IH]; intros i depth Hi Hf; [lia|]. cbn [extract_loop].
  destruct (Z.ltb_spec i (len src)) as [Hlt|]; cbn [negb]; [|done].
  destruct (at_is src i "\").
  { eapply yields_mono; [apply IH; lia|]. simpl. lia. }
  cbv zeta. destruct (at_is src i "]"); [destruct (_ || _); [simpl; lia|]|];
    (eapply yields_mono; [apply IH; lia|]; simpl; lia).
Qed.

Lemma extractClassSource_ok st :
  inside st → wp (extractClassSource src vMode) st (λ s st', ahead 1 st st' ∧ Forall is_unit s).
Proof.
  intros Hi. unfold wp, extractClassSource.
  ybind (apply extract_loop_yields; [st_solve|unfold inside, len in *; lia]). intros e He.
  cbn [yields fst snd]. split; [st_solve|]. by apply js_slice_part.
Qed.

Lemma unicode_class_ok : unicode = true → leaf_spec 1 (unicode_class src vMode).
Proof.
  intros Hu st Hi. unfold unicode_class. apply wp_bind.
  eapply wp_mono; [by apply extractClassSource_ok|cbv beta]. intros classSrc st1 [Ha Hs].
  destruct (_ && _); [destruct (_ && _)|]; apply uleaf_wp; try done; try (intros n Hn Hg; by split).
  - by apply uEnumClassWithStrings_yields.
  - ybind (apply evaluate_yields; [lia|done]). intros set Hset. by apply uStringSet_yields.
  - apply uEnum_yields.
Qed.

Lemma parseClassMember_ok st :
  inside st → wp (parseClassMember src unicode) st (λ m st', ahead 1 st st' ∧
    match m with MChar _ => True | MShorthand rs => valid_ranges rs = true end).
Proof.
  intros Hi. unfold parseClassMember. apply wp_bind, wp_peek. destruct (is_ch _ _).
  - apply wp_bind, wp_next; [done|]. intros _ _ _ Ha. apply wp_bind, wp_peek.
    destruct (_ ≫= class_shorthand) as [rs|] eqn:Er.
    + apply wp_bind, wp_next; [st_solve|]. intros _ _ _ Ha1. wp_steps. split; [st_solve|].
      destruct (js_at _ _) as [e|]; [|done]. simpl in Er. unfold class_shorthand in Er.
      repeat case_match; simplify_eq; done.
    + destruct (is_ch _ _).
      * apply wp_bind, wp_next; [st_solve|]. intros _ _ _ Ha1. wp_steps. split; [st_solve|done].
      * apply wp_bind. eapply wp_mono; [apply parseEscapedCodeUnit_ok; st_solve|cbv beta].
        intros u st' [Ha' _]. wp_steps. split; [st_solve|done].
  - apply wp_bind, wp_next; [done|]. intros c _ _ Ha. wp_steps. split; [st_solve|done].
Qed.

Lemma valid_ranges_app rs rs' :
  valid_ranges rs = true → valid_ranges rs' = true → valid_ranges (rs ++ rs') = true.
Proof. intros H1' H2'. unfold valid_ranges in *. by rewrite forallb_app, H1', H2'. Qed.

Lemma valid_ranges_one lo hi : lo ≤ hi → valid_ranges [(lo, hi)] = true.
Proof. intros Hle. cbn. rewrite andb_true_r. by apply Z.leb_le. Qed.

Lemma class_round_ok ranges st :
  inside st → valid_ranges ranges = true →
  wp (class_round src unicode ranges) st (λ rs st', ahead 1 st st' ∧ valid_ranges rs = true).
Proof.
  intros Hi Hr. unfold class_round. apply wp_bind.
  eapply wp_mono; [by apply parseClassMember_ok|cbv beta]. intros m st1 [Ha Hm].
  destruct m as [lo|rs]; apply wp_bind; unfold wp at 1, dash_ahead; cbn [yields fst snd].
  - destruct (_ && _).
    + apply wp_bind, wp_next; [st_solve|]. intros _ _ _ Ha1. apply wp_bind.
      eapply wp_mono; [apply parseClassMember_ok; st_solve|cbv beta]. intros m2 st2 [Ha2 Hm2].
      destruct m2 as [hi|rs].
      * destruct (Z.ltb_spec hi lo); [done|]. wp_steps. split; [st_solve|].
        by apply valid_ranges_app, valid_ranges_one.
      * wp_steps. split; [st_solve|]. apply valid_ranges_app; [done|].
        apply (valid_ranges_app [(lo, lo); (0x2d, 0x2d)]); [|done].
        apply (valid_ranges_app [(lo, lo)]); [by apply valid_ranges_one|done].
    + wp_steps. split; [st_solve|]. by apply valid_ranges_app, valid_ranges_one.
  - destruct (_ && _).
    + apply wp_bind, wp_next; [st_solve|]. intros _ _ _ Ha1. wp_steps. split; [st_solve|].
      by repeat apply valid_ranges_app.
    + wp_steps. split; [st_solve|]. by apply valid_ranges_app.
Qed.

Lemma member_loop_ok fuel ranges st :
  inside st → len src - pos st < Z.of_nat fuel → valid_ranges ranges = true →
  wp (member_loop src unicode fuel ranges) st (λ rs st', ahead 0 st st' ∧ valid_ranges rs = true).
Proof.
  revert ranges st. induction fuel as [|fuel IH]; intros ranges st Hi Hf Hr; [st_solve|].
  cbn [member_loop]. apply wp_bind, wp_peek.
  destruct (js_at src (pos st)) as [c|]; [|apply wp_ret; split; [by apply ahead_refl|done]].
  destruct (c =? ch "]"); [apply wp_ret; split; [by apply ahead_refl|done]|].
  apply wp_bind. eapply wp_mono; [by apply class_round_ok|cbv beta]. intros rs st1 [Ha Hrs].
  eapply wp_mono; [apply IH; [st_solve..|done]|cbv beta]. intros rs' st' [Ha' Hrs']. split; [st_solve|done].
Qed.

Lemma parseClass_ok : unicode = false → leaf_spec 1 (parseClass src unicode).
Proof.
  intros Hu st Hi. unfold parseClass. apply wp_bind, wp_next; [done|]. intros _ _ _ Ha.
  apply wp_bind, wp_peek. cbv zeta. apply wp_bind.
  set (st1 := set_pos (pos st + 1) st) in *. set (negated := is_ch _ _).
  assert (wp (if negated then _ ← next src; mret tt else mret tt) st1 (λ _ st', ahead 1 st st')) as Hneg.
  { destruct negated; [|by apply wp_ret]. apply wp_bind, wp_next; [st_solve|]. intros. wp_steps. st_solve. }
  eapply wp_mono; [exact Hneg|cbv beta]. intros ? st2 Ha2. apply wp_bind.
  eapply wp_mono; [apply member_loop_ok; [st_solve|st_solve|done]|cbv beta]. intros rs st3 [Ha3 Hrs].
  apply wp_bind, wp_peek. destruct (negb _); [done|]. apply wp_bind, wp_next; [st_solve|].
  intros _ _ _ Ha4. wp_steps. split; [st_solve|]. cbn. by rewrite Hu, Hrs.
Qed.

(** * Quantifiers and groups *)

Lemma round_double_nonneg z : 0 ≤ z → 0 ≤ round_double z.
Proof.
  intros Hz. unfold round_double. destruct (z <? 2 ^ 53); [done|]. cbv zeta.
  assert (0 ≤ z / 2 ^ (Z.log2 z - 52)) as Hq.
  { destruct (decide (0 < 2 ^ (Z.log2 z - 52))) as [Hp|Hp]; [by apply Z.div_pos|].
    pose proof (Z.pow_nonneg 2 (Z.log2 z - 52) ltac:(lia)).
    replace (2 ^ (Z.log2 z - 52)) with 0 by lia. by rewrite Z.div_0_r. }
  pose proof (Z.pow_nonneg 2 (Z.log2 z - 52) ltac:(lia)).
  apply Z.min_glb; [|by apply Z.pow_nonneg]. destruct (_ || _); nia.
Qed.

Lemma parseInt10_nonneg digits : Forall (λ c, is_digit c = true) digits → 0 ≤ parseInt10 digits.
Proof.
  intros Hd. apply round_double_nonneg. assert (0 ≤ 0) as H0' by done. revert H0'. generalize 0 at 2 4.
  induction Hd as [|c digits Hc _ IH]; intros v Hv'; [done|]. cbn [foldl]. apply IH.
  unfold is_digit in Hc. apply andb_true_iff in Hc as [?%Z.leb_le ?%Z.leb_le]. lia.
Qed.

Lemma consumeLazy_ok st : inside st → wp (consumeLazy src) st (λ _ st', ahead 0 st st').
Proof.
  intros Hi. unfold consumeLazy. apply wp_bind, wp_peek. destruct (is_ch _ _).
  - apply wp_bind, wp_next; [done|]. intros _ _ _ Ha. wp_steps. st_solve.
  - wp_steps. by apply ahead_refl.
Qed.

Lemma tryParseBraceQuantifier_ok st :
  inside st → wp (tryParseBraceQuantifier src) st (λ o st', ahead 0 st st' ∧
    ∀ min max, o = Some (min, max) → 0 ≤ min ∧ (max = -1 ∨ min ≤ max)).
Proof.
  intros Hi. unfold tryParseBraceQuantifier. apply wp_bind, wp_peek.
  destruct (negb _); [wp_steps; split; [by apply ahead_refl|done]|].
  apply wp_bind, wp_next; [done|]. intros _ _ _ Ha.
  apply wp_bind, wp_read_while; [st_solve|]. intros minStr _ Hmin%parseInt10_nonneg Ha1.
  set (st1 := set_pos (pos (set_pos (pos st + 1) st) + len minStr) (set_pos (pos st + 1) st)) in *.
  destruct (bool_decide _); [wp_steps; split; [st_solve|done]|]. cbv zeta.
  apply wp_bind, wp_peek. apply wp_bind. eapply (wp_mono _ _ (λ _ st', ahead 0 st st')).
  - destruct (is_ch _ _); [|wp_steps; st_solve]. apply wp_bind, wp_next; [st_solve|]. intros _ _ _ Ha2.
    apply wp_bind, wp_read_while; [st_solve|]. intros maxStr _ _ Ha3. wp_steps. st_solve.
  - intros max st2 Ha2. apply wp_bind, wp_peek. destruct (negb _); [wp_steps; split; [st_solve|done]|].
    apply wp_bind, wp_next; [st_solve|]. intros _ _ _ Ha3.
    destruct (Z.eqb_spec max (-1)) as [->|Hne]; cbn [negb andb].
    + wp_steps. split; [st_solve|]. intros ? ? [= <- <-]. split; [done|by left].
    + destruct (Z.ltb_spec max (parseInt10 minStr)); [done|]. wp_steps. split; [st_solve|].
      intros ? ? [= <- <-]. split; [done|by right].
Qed.

Lemma modifier_loop_ok fuel dash seen mask st :
  inside st → len src - pos st < Z.of_nat fuel →
  wp (modifier_loop src fuel dash seen mask) st (λ _ st', ahead 0 st st').
Proof.
  revert mask st. induction fuel as [|fuel IH]; intros mask st Hi Hf; [st_solve|].
  cbn [modifier_loop]. apply wp_bind, wp_peek.
  destruct (js_at src (pos st)) as [c|]; [|by apply wp_ret, ahead_refl].
  destruct (_ || _); [by apply wp_ret, ahead_refl|]. apply wp_bind, wp_next; [done|].
  intros letter _ _ Ha. apply wp_bind. eapply (wp_with_iState _ _ (λ _, True)).
  { unfold flagBit. by repeat case_match. }
  intros bit _. destruct (negb _); [done|]. eapply wp_mono; [apply IH; st_solve|cbv beta].
  intros ? st' Ha'. st_solve.
Qed.

Lemma parseModifiers_ok st : inside st → wp (parseModifiers src) st (λ _ st', ahead 0 st st').
Proof.
  intros Hi. unfold parseModifiers. apply wp_bind.
  eapply wp_mono; [apply modifier_loop_ok; st_solve|cbv beta]. intros add st1 Ha1. apply wp_bind, wp_peek.
  apply wp_bind. eapply (wp_mono _ _ (λ _ st', ahead 0 st st')).
  - destruct (is_ch _ _); [|wp_steps; st_solve]. apply wp_bind, wp_next; [st_solve|]. intros _ _ _ Ha2.
    eapply wp_mono; [apply modifier_loop_ok; st_solve|cbv beta]. intros ? st' Ha'. st_solve.
  - intros remove st2 Ha2. apply wp_bind, wp_peek. destruct (negb _); [done|].
    apply wp_bind, wp_next; [st_solve|]. intros _ _ _ Ha3. destruct (_ && _); [done|]. wp_steps. st_solve.
Qed.

(** The groups a head opens. *)
Definition head_captures (h : GroupHead) : list Z :=
  match h with GCapture capIndex _ => [capIndex] | _ => [] end.

(** [st'] is at least [k] further, with the same flags; [l] are the groups
    opened on the way. *)
Definition opened (k : Z) (l : list Z) (st st' : PState) : Prop :=
  pos st + k ≤ pos st' ≤ len src ∧ between (p_captures st) (p_captures st') l ∧
  p_iState st' = p_iState st.

Lemma ahead_opened k st st' : ahead k st st' → opened k [] st st'.
Proof. intros (? & Hc & ?). unfold opened. rewrite Hc. simpl. split_and!; [lia..|done]. Qed.

Lemma opened_inside k l st st' : opened k l st st' → 0 ≤ k → inside st → inside st'.
Proof. unfold opened, inside. intros (? & Hb%between_le & ?). lia. Qed.

Lemma opened_ahead j k l st st1 st2 : opened j l st st1 → ahead k st1 st2 → opened (j + k) l st st2.
Proof.
  unfold opened, ahead. intros (? & Hb & ?) (? & Hc & ?). rewrite Hc.
  split_and!; [lia..|done|congruence].
Qed.

Lemma opened_app j k l l' st st1 st2 :
  opened j l st st1 → opened k l' st1 st2 → opened (j + k) (l ++ l') st st2.
Proof.
  unfold opened. intros (? & Hb & ?) (? & Hc & ?).
  split_and!; [lia..|by eapply between_app|congruence].
Qed.

Lemma opened_weaken j k l st st' : opened j l st st' → k ≤ j → opened k l st st'.
Proof. unfold opened. intros (? & ? & ?) Hk. split_and!; [lia..|done|done]. Qed.

Lemma named_capture_ok st :
  inside st →
  wp (named_capture src groupNames) st (λ h st', opened 0 (head_captures h) st st').
Proof.
  intros Hi. unfold named_capture. apply wp_bind, wp_read_while; [done|]. intros rawName _ _ Ha.
  apply wp_bind, wp_peek. destruct (negb _); [done|].
  apply wp_bind, wp_next; [st_solve|]. intros _ _ _ Ha1.
  apply wp_bind. eapply wp_with_iState; [apply decodeGroupName_yields|]. intros name _.
  apply wp_bind. unfold wp, new_capture. cbn [yields fst snd].
  destruct (negb _); [done|]. unfold opened. cbn. split_and!; [st_solve..|done].
Qed.

Lemma group_head_ok st :
  inside st → wp (group_head src groupNames) st (λ h st', opened 1 (head_captures h) st st').
Proof.
  intros Hi. unfold group_head. apply wp_bind, wp_next; [done|]. intros _ _ _ Ha.
  assert (∀ h st', ahead 1 st st' → head_captures h = [] → opened 1 (head_captures h) st st') as Hnone.
  { intros h st' Ha' ->. by apply ahead_opened. }
  apply wp_bind, wp_peek. destruct (is_ch _ "?").
  - apply wp_bind, wp_next; [st_solve|]. intros _ _ _ Ha1. apply wp_bind, wp_peek.
    set (t := js_at _ _). destruct (is_ch t ":").
    { apply wp_bind, wp_next; [st_solve|]. intros _ _ _ Ha2. wp_steps. apply Hnone; [st_solve|done]. }
    destruct (is_ch t "<").
    { apply wp_bind, wp_next; [st_solve|]. intros _ _ _ Ha2. apply wp_bind, wp_peek. destruct (_ || _).
      - apply wp_bind, wp_next; [st_solve|]. intros _ _ _ Ha3. wp_steps. apply Hnone; [st_solve|done].
      - eapply wp_mono; [apply named_capture_ok; st_solve|cbv beta]. intros h st' Ho.
        unfold opened in *. cbn in Ho. destruct Ho as (? & ? & ?). split_and!; [lia..|done|done]. }
    destruct (_ || _).
    { apply wp_bind, wp_next; [st_solve|]. intros _ _ _ Ha2. wp_steps. apply Hnone; [st_solve|done]. }
    destruct (one_of _ _); [|done]. apply wp_bind.
    eapply wp_mono; [apply parseModifiers_ok; st_solve|cbv beta]. intros m st' Ha'. wp_steps.
    apply Hnone; [st_solve|done].
  - apply wp_bind. unfold wp, new_capture. cbn [yields fst snd]. unfold opened. cbn.
    split_and!; [st_solve..|done].
Qed.

(** The specification of a node's parser, for what is left of the pattern up
    to [d]: it moves [k] further, and gives a tree of the mode whose groups are
    numbered on from where they stood. *)
Definition node_spec (d k : Z) (m : parser ReNode) : Prop :=
  ∀ st, inside st → len src - pos st < d →
  wp m st (λ n st', opened k (group_indices n) st st' ∧ shaped unicode totalCaptures n = true).

Lemma leaf_node d k m : leaf_spec k m → node_spec d k m.
Proof.
  intros Hm st Hi _. eapply wp_mono; [by apply Hm|cbv beta]. intros n st' (Ha & Hn & ->).
  split; [by apply ahead_opened|done].
Qed.

Section descent_ok.
Context (d : Z) (inner : parser ReNode) (Hinner : node_spec d 0 inner).

Lemma parseGroup_ok : node_spec (d + 1) 1 (parseGroup src groupNames inner).
Proof.
  intros st Hi Hd. unfold parseGroup. apply wp_bind. eapply wp_mono; [by apply group_head_ok|cbv beta].
  intros h st1 Hh. wp_steps. pose proof (opened_inside _ _ _ _ Hh ltac:(lia) Hi) as Hi1.
  eapply wp_mono; [apply Hinner; unfold opened, inside in *; cbn; lia|cbv beta]. intros n st2 [Ho Hs].
  wp_steps. set (st3 := set_iState _ st2).
  assert (opened 1 (head_captures h ++ group_indices n) st st3) as Ho3.
  { assert (opened 0 (group_indices n) st1 st3) as Ho'.
    { unfold opened in *. cbn in *. destruct Ho as (? & ? & ?). split_and!; [lia..|done|done]. }
    eapply opened_weaken; [by eapply opened_app|lia]. }
  pose proof (opened_inside _ _ _ _ Ho3 ltac:(lia) Hi) as Hi3.
  apply wp_peek. destruct (negb _); [done|]. apply wp_bind, wp_next; [done|]. intros _ _ _ Ha. wp_steps.
  split.
  - assert (group_indices (group_node h n) = head_captures h ++ group_indices n) as ->.
    { destruct h as [capIndex name| | |]; [|done..]. cbn.
      destruct (Z.ltb_spec capIndex 0); [|done]. exfalso.
      destruct Hh as (_ & [Hb _] & _). unfold inside in Hi. lia. }
    eapply opened_weaken; [by eapply opened_ahead|lia].
  - by destruct h.
Qed.

Lemma codePointAt_src i c :
  js_at src i = Some c →
  ∃ cp, codePointAt src i = Some cp ∧ is_cp cp ∧ i + (if 0xffff <? cp then 2 else 1) ≤ len src.
Proof.
  intros Hc. pose proof (src_unit _ _ Hc) as Hu. pose proof (js_at_lt _ _ _ Hc) as Hlt.
  assert (∃ cp, codePointAt src i = Some cp ∧ (cp ≤ 0xffff ∨ i + 2 ≤ len src)) as (cp & Hcp & Hor).
  { unfold codePointAt. rewrite Hc. destruct (js_at src (i + 1)) as [v|] eqn:Ev.
    - apply js_at_lt in Ev. exists (if is_lead c && is_trail v then pair_code c v else c).
      split; [done|]. right. unfold len. lia.
    - exists c. split; [done|]. left. apply Hu. }
  exists cp. split_and!; [done|unfold is_cp; by eapply codePointAt_range|].
  destruct (Z.ltb_spec 0xffff cp); unfold len in *; lia.
Qed.

Lemma literal_atom_ok st c :
  inside st → js_at src (pos st) = Some c →
  wp (literal_atom src unicode vMode) st (λ n st', opened 1 (group_indices n) st st' ∧
    shaped unicode totalCaptures n = true).
Proof.
  intros Hi Hc. unfold literal_atom. apply wp_if; intros Hu.
  - wp_steps. destruct (codePointAt_src _ _ Hc) as (cp & -> & Hcp & Hle). wp_steps.
    eapply wp_mono; [apply p_uChar_ok; [done..|destruct (0xffff <? cp); st_solve]|cbv beta].
    intros n st' (Ha & Hn & ->). split; [|done]. apply ahead_opened. destruct (0xffff <? cp); st_solve.
  - apply wp_bind, wp_next; [done|]. intros u _ Hun Ha. wp_steps.
    destruct (leaf_char unicode u Hun) as [Hs Hg]. rewrite Hg. split; [by apply ahead_opened|done].
Qed.

Lemma parseAtom_ok :
  node_spec (d + 1) 1 (parseAtom src totalCaptures groupNames unicode vMode inner).
Proof.
  intros st Hi Hd. unfold parseAtom. apply wp_bind, wp_peek.
  destruct (js_at src (pos st)) as [c|] eqn:Ec; [|done].
  destruct (c =? ch "("); [by apply parseGroup_ok|].
  destruct (c =? ch "[").
  { apply wp_if; intros Hu.
    - by apply (leaf_node (d + 1)); [apply unicode_class_ok|..].
    - by apply (leaf_node (d + 1)); [apply parseClass_ok|..]. }
  assert (∀ n, shaped unicode totalCaptures n = true → group_indices n = [] →
    wp (_ ← next src; mret n) st (λ n st', opened 1 (group_indices n) st st' ∧
      shaped unicode totalCaptures n = true)) as Hone.
  { intros n Hs Hg. apply wp_bind, wp_next; [done|]. intros _ _ _ Ha. wp_steps.
    split; [rewrite Hg; by apply ahead_opened|done]. }
  destruct (c =? ch "."); [by apply Hone; destruct unicode|].
  destruct (c =? ch "^"); [by apply Hone|]. destruct (c =? ch "$"); [by apply Hone|].
  destruct (c =? ch "\"); [by apply (leaf_node (d + 1)); [apply parseEscapeAtom_ok|..]|].
  destruct (one_of _ _); [done|]. by eapply literal_atom_ok.
Qed.

(** A quantifier behind an atom. *)
Lemma simple_quantifier_ok atom c st :
  inside st → shaped unicode totalCaptures atom = true → isAssertion atom = false →
  wp (simple_quantifier src atom c) st (λ n st', ahead 0 st st' ∧
    group_indices n = group_indices atom ∧ shaped unicode totalCaptures n = true).
Proof.
  intros Hi Hs Ha. unfold simple_quantifier. apply wp_bind, wp_next; [done|]. intros _ _ _ Ha1.
  apply wp_bind. eapply wp_mono; [apply consumeLazy_ok; st_solve|cbv beta]. intros greedy st' Ha2. wp_steps.
  split; [st_solve|]. repeat case_match; cbn [group_indices shaped]; rewrite ?Ha; done.
Qed.

Lemma brace_quantifier_ok atom st st0 :
  inside st → shaped unicode totalCaptures atom = true →
  opened 1 (group_indices atom) st0 st →
  wp (brace_quantifier src atom) st (λ n st', opened 1 (group_indices n) st0 st' ∧
    shaped unicode totalCaptures n = true).
Proof.
  intros Hi Hs Ho. unfold brace_quantifier. wp_steps.
  eapply wp_mono; [by apply tryParseBraceQuantifier_ok|cbv beta]. intros [[min max]|] st1 [Ha Hb].
  - destruct (Hb _ _ eq_refl) as [Hmin Hmax]. destruct (isAssertion atom) eqn:Eas; [done|].
    apply wp_bind. eapply wp_mono; [apply consumeLazy_ok; st_solve|cbv beta]. intros greedy st2 Ha2. wp_steps.
    assert (opened 1 (group_indices atom) st0 st2) as Ho2.
    { eapply opened_weaken; [eapply opened_ahead; [exact Ho|eapply ahead_trans; [exact Ha|exact Ha2]]|lia]. }
    destruct (isLookaround atom).
    + destruct (max =? 0).
      * split; [|done]. unfold opened in *. cbn. destruct Ho2 as (? & ?%between_le & ?). split_and!; [lia..|done].
      * destruct (1 <=? min); [by split|]. split; [done|]. cbn. by rewrite Eas.
    + split; [done|]. cbn. rewrite Eas, Hs, (proj2 (Z.leb_le 0 min)) by done. cbn. rewrite andb_true_r.
      destruct Hmax as [-> |Hmax]; [done|]. rewrite (proj2 (Z.leb_le _ _)) by done. apply orb_true_r.
  - wp_steps. split; [|done]. unfold opened, ahead in *. cbn. destruct Ha as (? & -> & ->).
    destruct Ho as (? & ? & ?). split_and!; [lia..|done|done].
Qed.

Lemma parseQuantified_ok :
  node_spec (d + 1) 1 (parseQuantified src totalCaptures groupNames unicode vMode inner).
Proof.
  intros st Hi Hd. unfold parseQuantified. apply wp_bind.
  eapply wp_mono; [by apply parseAtom_ok|cbv beta]. intros atom st1 [Ho Hs].
  pose proof (opened_inside _ _ _ _ Ho ltac:(lia) Hi) as Hi1.
  apply wp_bind, wp_peek. destruct (js_at src (pos st1)) as [c|]; [|by wp_steps].
  destruct (one_of _ _).
  - destruct (isAssertion atom) eqn:Eas; [done|].
    eapply wp_mono; [by apply simple_quantifier_ok|cbv beta]. intros n st' (Ha & -> & Hn).
    split; [|done]. eapply opened_weaken; [by eapply opened_ahead|lia].
  - destruct (c =? ch "{"); [|by wp_steps]. by apply brace_quantifier_ok.
Qed.

Lemma concat_loop_ok fuel parts st st0 :
  inside st → len src - pos st < Z.of_nat fuel → len src - pos st < d + 1 →
  opened 0 (concat (map group_indices parts)) st0 st →
  forallb (shaped unicode totalCaptures) parts = true →
  wp (concat_loop src totalCaptures groupNames unicode vMode inner fuel parts) st (λ ns st',
    opened 0 (concat (map group_indices ns)) st0 st' ∧ pos st ≤ pos st' ∧
    forallb (shaped unicode totalCaptures) ns = true).
Proof.
  revert parts st. induction fuel as [|fuel IH]; intros parts st Hi Hf Hd Ho Hs; [st_solve|].
  cbn [concat_loop]. apply wp_bind, wp_peek.
  destruct (js_at src (pos st)) as [c|]; [|by wp_steps]. destruct (_ || _); [by wp_steps|].
  apply wp_bind. eapply wp_mono; [by apply parseQuantified_ok|cbv beta]. intros part st1 [Ho1 Hs1].
  pose proof (opened_inside _ _ _ _ Ho1 ltac:(lia) Hi) as Hi1.
  eapply wp_mono; [apply IH|cbv beta].
  - done.
  - unfold opened in Ho1. lia.
  - unfold opened in Ho1. lia.
  - rewrite map_app, concat_app. cbn [map concat]. rewrite app_nil_r.
    eapply opened_weaken; [by eapply opened_app|lia].
  - rewrite forallb_app. cbn. by rewrite Hs, Hs1.
  - intros ns st' (Ho' & Hp & Hns). split_and!; [done| |done]. unfold opened in Ho1. lia.
Qed.

Lemma parseConcat_ok :
  node_spec (d + 1) 0 (parseConcat src totalCaptures groupNames unicode vMode inner).
Proof.
  intros st Hi Hd. unfold parseConcat. apply wp_bind. eapply wp_mono; [apply (concat_loop_ok _ _ _ st)|cbv beta].
  - done.
  - unfold inside, len in *. lia.
  - done.
  - by apply ahead_opened, ahead_refl.
  - done.
  - intros ns st' (Ho & _ & Hs). wp_steps. destruct ns as [|n [|n2 ns]]; [by split| |by split].
    cbn in Ho, Hs. rewrite app_nil_r in Ho. rewrite andb_true_r in Hs. by split.
Qed.

Lemma alt_loop_ok fuel options st st0 :
  inside st → len src - pos st < Z.of_nat fuel → len src - pos st < d + 1 → options ≠ [] →
  opened 0 (concat (map group_indices options)) st0 st →
  forallb (shaped unicode totalCaptures) options = true →
  wp (alt_loop src totalCaptures groupNames unicode vMode inner fuel options) st (λ ns st',
    opened 0 (concat (map group_indices ns)) st0 st' ∧ ns ≠ [] ∧
    forallb (shaped unicode totalCaptures) ns = true).
Proof.
  revert options st. induction fuel as [|fuel IH]; intros options st Hi Hf Hd Hne Ho Hs; [st_solve|].
  cbn [alt_loop]. apply wp_bind, wp_peek. destruct (is_ch _ _); [|by wp_steps].
  apply wp_bind, wp_next; [done|]. intros _ _ _ Ha. set (st1 := set_pos (pos st + 1) st) in *.
  assert (inside st1) as Hi1 by st_solve.
  apply wp_bind. eapply wp_mono; [apply parseConcat_ok; [done|st_solve]|cbv beta]. intros option st2 [Ho2 Hs2].
  pose proof (opened_inside _ _ _ _ Ho2 ltac:(lia) Hi1) as Hi2.
  apply IH.
  - done.
  - unfold opened in Ho2. st_solve.
  - unfold opened in Ho2. st_solve.
  - by destruct options.
  - rewrite map_app, concat_app. cbn [map concat]. rewrite app_nil_r.
    pose proof (opened_ahead _ _ _ _ _ _ Ho Ha) as Ho1.
    eapply opened_weaken; [by eapply opened_app|lia].
  - rewrite forallb_app. cbn. by rewrite Hs, Hs2.
Qed.

Lemma alternation_ok :
  node_spec (d + 1) 0 (alternation src totalCaptures groupNames unicode vMode inner).
Proof.
  intros st Hi Hd. unfold alternation. apply wp_bind.
  eapply wp_mono; [by apply parseConcat_ok|cbv beta]. intros option st1 [Ho Hs].
  pose proof (opened_inside _ _ _ _ Ho ltac:(lia) Hi) as Hi1.
  apply wp_bind. eapply wp_mono; [apply (alt_loop_ok _ _ _ st)|cbv beta].
  - done.
  - unfold inside, len in *. lia.
  - unfold opened in Ho. lia.
  - done.
  - cbn. by rewrite app_nil_r.
  - cbn. by rewrite Hs.
  - intros ns st' (Ho' & Hne & Hs'). wp_steps. destruct ns as [|n [|n2 ns]]; [done| |by split].
    cbn in Ho', Hs'. rewrite app_nil_r in Ho'. rewrite andb_true_r in Hs'. by split.
Qed.
End descent_ok.

Lemma parseAlternation_ok depth :
  node_spec (Z.of_nat depth) 0 (parseAlternation src totalCaptures groupNames unicode vMode depth).
Proof.
  induction depth as [|depth IH]; [intros st Hi Hd; unfold inside in Hi; lia|].
  cbn [parseAlternation]. rewrite Nat2Z.inj_succ. by apply alternation_ok.
Qed.

Lemma parse_ok : node_spec (len src + 1) 0 (parse src totalCaptures groupNames unicode vMode).
Proof.
  intros st Hi Hd. unfold parse. apply wp_bind.
  eapply wp_mono; [apply parseAlternation_ok; [done|unfold len in *; lia]|cbv beta]. intros n st' Hn.
  wp_steps. by destruct (js_at src (pos st')).
Qed.
End parser_ok.

(** * The pre-scan *)

(** Every name of the table has the index of a group that was counted. *)
Definition names_ok (count : Z) (names : jsmap jsstr Z) : Prop :=
  Forall (λ e, 1 ≤ e.2 ≤ count) names.

Lemma names_ok_le count count' names : names_ok count names → count ≤ count' → names_ok count' names.
Proof. intros Hn Hle. eapply Forall_impl; [exact Hn|]. simpl. lia. Qed.

Lemma scan_loop_yields fuel s inClass count names :
  (length s < fuel)%nat → 0 ≤ count → names_ok count names →
  yields (λ r, 0 ≤ r.1 ∧ names_ok r.1 r.2) (scan_loop fuel s inClass count names).
Proof.
  revert s inClass count names.
  induction fuel as [|fuel IH]; intros s inClass count names Hf Hc Hn; [lia|]. cbn [scan_loop].
  destruct s as [|c s]; [done|]. simpl in Hf.
  destruct (c =? ch "\"); [apply IH; [rewrite length_drop; lia|done..]|].
  destruct inClass; [apply IH; [lia|done..]|]. destruct (c =? ch "["); [apply IH; [lia|done..]|].
  destruct (c =? ch "("); [|apply IH; [lia|done..]].
  assert (names_ok (count + 1) names) as Hn' by (apply (names_ok_le count); [done|lia]).
  destruct (is_ch _ "?"); [|apply IH; [lia|lia|done]]. destruct (_ && _); [|apply IH; [lia|done..]].
  ybind (apply decodeGroupName_yields). intros name _. cbv zeta. apply IH; [lia|lia|].
  destruct (jm_has names name); [done|]. apply jm_set_Forall; [done|]. simpl. lia.
Qed.

Lemma scanGroups_yields src : yields (λ r, 0 ≤ r.1 ∧ names_ok r.1 r.2) (scanGroups src).
Proof. apply scan_loop_yields; [lia|lia|constructor]. Qed.

(** * The type theorem *)

Section pattern_ok.
Context `{StringPropertyDataOk, RangeEnumeratorOk}.

Definition unicode_flags (flags : Z) : bool := negb (flags .& (RE_FLAG_U .| RE_FLAG_V) =? 0).

(** What the parser promises of its result: [total] groups were counted ahead. *)
Record parsed_ok (flags total : Z) (parsed : ParsedRegex) : Prop := {
  po_tree : shaped (unicode_flags flags) total (root parsed) = true;
  po_groups : between 0 (numCaptures parsed) (group_indices (root parsed));
  po_names : names_ok total (p_groupNames parsed) }.

Lemma parsePattern_yields pattern flags :
  Forall is_unit pattern →
  yields (λ parsed, ∃ names, ∃ total, scanGroups pattern = Ok (total, names) ∧
    p_groupNames parsed = names ∧ parsed_ok flags total parsed) (parsePattern pattern flags).
Proof.
  intros Hu. unfold parsePattern. pose proof (scanGroups_yields pattern) as Hscan.
  destruct (scanGroups pattern) as [[total names]|e]; [|done]. destruct Hscan as [Ht Hn].
  cbn [mbind result_bind fst snd] in *. fold (unicode_flags flags).
  assert (∀ name idx, jm_get names name = Some idx → 1 ≤ idx ≤ total) as Hnames.
  { intros name idx Hg%jm_get_elem. unfold names_ok in Hn. rewrite list.Forall_forall in Hn.
    by apply Hn in Hg. }
  set (st := Build_PState _ _ _).
  assert (inside pattern st) as Hi by (unfold inside, len; simpl; lia).
  pose proof (parse_ok pattern Hu total names (unicode_flags flags) (negb (flags .& RE_FLAG_V =? 0))
    Hnames st Hi ltac:(simpl; lia)) as Hp.
  unfold wp in Hp. ybind (exact Hp). intros [n st'] [(_ & Hb & _) Hs]. cbn [yields fst snd] in *.
  exists names, total. split_and!; [done..|]. by split.
Qed.

(** C22: The parser always comes to an end, and it is type-correct.  On every
    pattern and flags it returns a tree or throws a refusal - no loop or descent
    runs out of fuel - and the tree has only the node kinds of its mode, code
    units in range, ordered ranges, bounds in order, alternations with at least
    two options, no quantified assertion, and backreferences only to groups that
    the pre-scan counted; its groups are numbered in the order of the pattern, each
    index used once and none above the reported number of captures. *)
Theorem parsePattern_ok pattern flags (Hunits : Forall is_unit pattern) :
  match parsePattern pattern flags with
  | Ok parsed => ∃ total, (∃ names, scanGroups pattern = Ok (total, names)) ∧ parsed_ok flags total parsed
  | Err f => thrown f
  end.
Proof.
  pose proof (parsePattern_yields pattern flags Hunits) as Hy.
  destruct (parsePattern pattern flags) as [parsed|f]; [|done].
  destruct Hy as (names & total & Hs & _ & Hok). exists total. split; [by exists names|done].
Qed.
End pattern_ok.

#[local] Instance no_table : StringPropertyData := λ _, js "4p".
#[local] Instance no_ranges : RangeEnumerator := λ _ _, Ok [].

Lemma parsePattern_ok_witness :
  let r := parsePattern (js "(?<x>a|[^c-e])*?\k<x>{2,3}(?=(z))") 0 in
  r = Ok {| root := NConcat [NStar (NGroup (NAlt [NChar 97; NClass [(99, 101)] true]) 1 (Some (js "x"))) false;
                             NRepeat (NBackref 1) 2 3 true;
                             NLookaround (NGroup (NChar 122) 2 None) false false];
            numCaptures := 2; p_groupNames := [(js "x", 1)] |} ∧
  match r with
  | Ok parsed => ∃ total, (∃ names, scanGroups (js "(?<x>a|[^c-e])*?\k<x>{2,3}(?=(z))") = Ok (total, names))
                 ∧ parsed_ok 0 total parsed
  | Err f => thrown f
  end.
Proof.
  assert (StringPropertyDataOk) as Ht.
  { intros name item cp _ _. change (split_on 0x2c (property_data name)) with [js "4p"].
    intros ->%list_elem_of_singleton Hc. change (split_on 0x2e (js "4p")) with [js "4p"] in Hc.
    apply list_elem_of_singleton in Hc as ->. vm_compute. by split. }
  assert (RangeEnumeratorOk) as He by (split; [intros ? ? ? [= <-]; constructor|done]).
  cbv zeta. split; [vm_compute; reflexivity|]. apply (parsePattern_ok _ 0). apply js_units.
Defined.
