(* ===== verification/RePrint.v ===== *)
(** Patterns and their trees: a printer for the trees that the parser builds
    without u/v mode, and the theorem that parsing what it prints gives the tree
    back.  The printer is the specification of the grammar that
    src/codegen/regex/parse.ts implements. *)

From Stdlib Require Import Ascii.
From S2P Require Import Prelude ReBytecode ReCaseFold ReUnicode ReCompile ReStringSet.
From S2P Require Import ReParse ReParseOk.

(** * The printer *)

(** Four hexadecimal digits. *)
Definition hex4 (u : Z) : jsstr :=
  [digit_char (u / 4096); digit_char (u / 256 mod 16); digit_char (u / 16 mod 16); digit_char (u mod 16)].

Definition print_unit (u : Z) : jsstr := [ch "\"; ch "u"] ++ hex4 u.

Definition print_range (r : Z * Z) : jsstr := print_unit r.1 ++ [ch "-"] ++ print_unit r.2.

Definition print_lazy (greedy : bool) : jsstr := if greedy then [] else [ch "?"].

(** The letters of a modifier mask. *)
Definition print_mask (mask : Z) : jsstr :=
  (if mask .& RE_FLAG_I =? 0 then [] else [ch "i"]) ++
  (if mask .& RE_FLAG_M =? 0 then [] else [ch "m"]) ++
  (if mask .& RE_FLAG_S =? 0 then [] else [ch "s"]).

Definition print_modifiers (add remove : Z) : jsstr :=
  print_mask add ++ (if remove =? 0 then [] else ch "-" :: print_mask remove) ++ [ch ":"].

Definition print_bounds (min max : Z) : jsstr :=
  [ch "{"] ++ js_num min ++
  (if max =? min then [] else ch "," :: (if max =? -1 then [] else js_num max)) ++ [ch "}"].

Definition look_head (negated behind : bool) : jsstr :=
  [ch "?"] ++ (if behind then [ch "<"] else []) ++ [if negated then ch "!" else ch "="].

Fixpoint print (n : ReNode) : jsstr :=
  match n with
  | NChar code => print_unit code
  | NAny => [ch "."]
  | NClass ranges negated =>
      [ch "["] ++ (if negated then [ch "^"] else []) ++ concat (map print_range ranges) ++ [ch "]"]
  | NBol => [ch "^"]
  | NEol => [ch "$"]
  | NWordBoundary negated => [ch "\"; if negated then ch "B" else ch "b"]
  | NBackref index => ch "\" :: js_num index
  | NLookaround n negated behind => [ch "("] ++ look_head negated behind ++ print n ++ [ch ")"]
  | NModGroup add remove n =>
      [ch "("; ch "?"] ++ print_modifiers add remove ++ print n ++ [ch ")"]
  | NGroup n capIndex _ =>
      [ch "("] ++ (if capIndex <? 0 then [ch "?"; ch ":"] else []) ++ print n ++ [ch ")"]
  | NConcat ns => concat (map print ns)
  | NAlt ns => join_with [ch "|"] (map print ns)
  | NStar n greedy => print n ++ [ch "*"] ++ print_lazy greedy
  | NPlus n greedy => print n ++ [ch "+"] ++ print_lazy greedy
  | NOpt n greedy => print n ++ [ch "?"] ++ print_lazy greedy
  | NRepeat n min max greedy => print n ++ print_bounds min max ++ print_lazy greedy
  | NCpClass _ _ | NUdot => []
  end.

(** * The trees that have a pattern *)

Definition unit_b (u : Z) : bool := (0 <=? u) && (u <=? 0xffff).

(** The masks of a modifier group. *)
Definition masks_ok (add remove : Z) : bool :=
  bool_decide (add ∈ [0; 2; 4; 6; 8; 10; 12; 14]) && bool_decide (remove ∈ [0; 2; 4; 6; 8; 10; 12; 14])
  && (Z.land add remove =? 0) && negb ((add =? 0) && (remove =? 0)).

(** A node that one atom of the grammar gives. *)
Definition is_atom (n : ReNode) : bool :=
  match n with
  | NConcat _ | NAlt _ | NStar _ _ | NPlus _ _ | NOpt _ _ | NRepeat _ _ _ _ | NCpClass _ _ | NUdot => false
  | _ => true
  end.

(** A node that a term, that is an atom with its quantifier, gives. *)
Definition is_term (n : ReNode) : bool :=
  match n with NConcat _ | NAlt _ => false | _ => true end.

Definition is_option (n : ReNode) : bool := match n with NAlt _ => false | _ => true end.

(** An atom that [*], [+] or a bound can follow. *)
Definition quantifiable (n : ReNode) : bool :=
  is_atom n && negb (isAssertion n) && negb (isLookaround n).

(** Trees in the form that the parser gives them, with backreferences up to [total]. *)
Fixpoint printable (total : Z) (n : ReNode) : bool :=
  match n with
  | NChar code => unit_b code
  | NAny | NBol | NEol | NWordBoundary _ => true
  | NClass ranges _ => forallb (λ r, unit_b r.1 && unit_b r.2 && (r.1 <=? r.2)) ranges
  | NBackref index => (1 <=? index) && (index <=? total) && (index <? 2 ^ 53)
  | NLookaround n _ _ => printable total n
  | NModGroup add remove n => masks_ok add remove && printable total n
  | NGroup n capIndex name => bool_decide (name = None) && negb (capIndex =? 0) && (-1 <=? capIndex) && printable total n
  | NConcat ns => negb (length ns =? 1)%nat && forallb is_term ns && forallb (printable total) ns
  | NAlt ns => (1 <? length ns)%nat && forallb is_option ns && forallb (printable total) ns
  | NStar n _ | NPlus n _ => quantifiable n && printable total n
  | NOpt n _ => is_atom n && negb (isAssertion n) && printable total n
  | NRepeat n min max _ =>
      quantifiable n && (0 <=? min) && (min <? 2 ^ 53) && (max <? 2 ^ 53)
      && ((max =? -1) || (min <=? max)) && printable total n
  | NCpClass _ _ | NUdot => false
  end.

(** How deep groups nest. *)
Fixpoint nesting (n : ReNode) : nat :=
  match n with
  | NLookaround n _ _ | NModGroup _ _ n | NGroup n _ _ => S (nesting n)
  | NStar n _ | NPlus n _ | NOpt n _ | NRepeat n _ _ _ => nesting n
  | NConcat ns | NAlt ns => max_list (map nesting ns)
  | _ => 0
  end.

(** Membership in a concrete list, by evaluation. *)
Ltac member := apply (bool_decide_eq_true_1 _); vm_compute; reflexivity.

(** * Texts and numbers *)

Lemma digit_char_hex d : 0 ≤ d < 16 → hex_value (digit_char d) = Some d.
Proof.
  intros Hd. assert (d ∈ seqZ 0 16) as Hin by (apply elem_of_seqZ; lia).
  assert (Forall (λ d, hex_value (digit_char d) = Some d) (seqZ 0 16)) as Hall
    by (cbv; repeat constructor).
  rewrite list.Forall_forall in Hall. by apply Hall.
Qed.

Lemma hex4_value u : is_unit u → hex_exactly 4 (hex4 u) = Some u.
Proof.
  unfold is_unit. intros Hu. unfold hex_exactly, hex4. rewrite bool_decide_true by done.
  assert (0 ≤ u / 4096 < 16) as H3 by (split; [apply Z.div_pos|apply Z.div_lt_upper_bound]; lia).
  pose proof (Z.mod_pos_bound (u / 256) 16 ltac:(lia)) as H2.
  pose proof (Z.mod_pos_bound (u / 16) 16 ltac:(lia)) as H1.
  pose proof (Z.mod_pos_bound u 16 ltac:(lia)) as H0.
  unfold is_hex, parse_hex. cbn [forallb foldl]. rewrite !digit_char_hex by done. cbn [andb].
  f_equal. pose proof (Z.div_mod u 16 ltac:(lia)). pose proof (Z.div_mod (u / 16) 16 ltac:(lia)).
  pose proof (Z.div_mod (u / 256) 16 ltac:(lia)).
  rewrite Z.div_div in * by lia. change (16 * 16) with 256 in *. change (256 * 16) with 4096 in *. lia.
Qed.

Definition decimal (v : Z) (s : jsstr) : Z := foldl (λ v c, 10 * v + (c - 0x30)) v s.

Lemma pretty_N_char_digit d :
  (d < 10)%N → Z.of_N (N_of_ascii (pretty_N_char d)) = 0x30 + Z.of_N d.
Proof.
  intros Hd. assert (d ∈ (N.of_nat <$> seq 0 10)) as Hin.
  { apply list_elem_of_fmap. exists (N.to_nat d). split; [lia|apply elem_of_seq; lia]. }
  assert (Forall (λ d, Z.of_N (N_of_ascii (pretty_N_char d)) = 0x30 + Z.of_N d) (N.of_nat <$> seq 0 10))
    as Hall by (cbv; repeat constructor).
  rewrite list.Forall_forall in Hall. by apply Hall.
Qed.

(** The digits that printing puts in front of [s]. *)
Lemma pretty_N_go_digits x s :
  (0 < x)%N → Forall (λ c, is_digit c = true) (js s) →
  decimal 0 (js (pretty_N_go x s)) = decimal (Z.of_N x) (js s) ∧
  Forall (λ c, is_digit c = true) (js (pretty_N_go x s)) ∧
  ∃ d t, js (pretty_N_go x s) = d :: t ∧ 49 ≤ d ≤ 57.
Proof.
  revert s. induction (N.lt_wf_0 x) as [x _ IH]; intros s Hx Hs.
  pose proof (N.mod_lt x 10 ltac:(done)) as Hmod. pose proof (pretty_N_char_digit _ Hmod) as Hch.
  rewrite pretty_N_go_step by lia. set (s' := String _ s).
  assert (js s' = 0x30 + Z.of_N (x mod 10) :: js s) as Ejs by (unfold s', js; csimpl; by rewrite Hch).
  assert (Forall (λ c, is_digit c = true) (js s')) as Hs'.
  { rewrite Ejs. apply Forall_cons. split; [|done].
    unfold is_digit. apply andb_true_iff. rewrite !Z.leb_le. generalize dependent (x mod 10)%N. lia. }
  destruct (decide (x / 10 = 0)%N) as [Hz|Hz].
  - rewrite Hz, pretty_N_go_0, Ejs. rewrite Ejs in Hs'. unfold decimal. cbn [foldl].
    pose proof (N.div_mod x 10 ltac:(done)) as Hdm. rewrite Hz in Hdm.
    split_and!; [f_equal; lia|done|]. eexists _, _. split; [done|]. lia.
  - destruct (IH (x / 10)%N) with (s := s') as (Hd & Hall & Hhead); [apply N.div_lt; lia|by apply N.neq_0_lt_0|done|].
    split_and!; [|done..]. rewrite Hd, Ejs. unfold decimal. cbn [foldl].
    pose proof (N.div_mod x 10 ltac:(done)). f_equal. lia.
Qed.

Lemma js_num_digits z :
  0 ≤ z → decimal 0 (js_num z) = z ∧ Forall (λ c, is_digit c = true) (js_num z) ∧
  (0 < z → ∃ d t, js_num z = d :: t ∧ 49 ≤ d ≤ 57).
Proof.
  intros Hz. destruct z as [|p|p]; [|clear Hz|lia].
  - split_and!; [done| |lia]. by apply Forall_singleton.
  - unfold js_num. change (pretty (Z.pos p)) with (pretty (N.pos p)). unfold pretty, pretty_N.
    rewrite decide_False by done.
    destruct (pretty_N_go_digits (N.pos p) EmptyString) as (Hd & Hall & Hhead); [lia|constructor|].
    by split_and!.
Qed.

Lemma parseInt10_num z : 0 ≤ z < 2 ^ 53 → parseInt10 (js_num z) = z.
Proof.
  intros Hz. destruct (js_num_digits z) as (Hd & _); [lia|]. unfold parseInt10.
  fold (decimal 0 (js_num z)). rewrite Hd. unfold round_double.
  by rewrite (proj2 (Z.ltb_lt _ _)) by lia.
Qed.

(** * Reading a text *)

Section reads.
Context `{StringPropertyData, RangeEnumerator}.
Context (src : jsstr) (total : Z).

(** The cursor stands before [s]. *)
Definition before (st : PState) (s : jsstr) : Prop :=
  0 ≤ pos st ∧ drop (Z.to_nat (pos st)) src = s.

(** From [c] groups and before [s], [m] gives [a], and stops before [s'] with
    [c'] groups. *)
Definition reads {A} (c : Z) (m : parser A) (s : jsstr) (c' : Z) (s' : jsstr) (a : A) : Prop :=
  ∀ st, before st s → p_captures st = c →
  ∃ st', m st = Ok (a, st') ∧ before st' s' ∧ p_captures st' = c' ∧ p_iState st' = p_iState st.

Lemma parses_bind {A B} c c1 c2 (m : parser A) (f : A → parser B) s s1 s2 a b :
  reads c m s c1 s1 a → reads c1 (f a) s1 c2 s2 b → reads c (m ≫= f) s c2 s2 b.
Proof.
  intros Hm Hf st Hs Hc. destruct (Hm st Hs Hc) as (st1 & E1 & Hs1 & Hc1 & Hi1).
  destruct (Hf st1 Hs1 Hc1) as (st2 & E2 & Hs2 & Hc2 & Hi2). exists st2.
  unfold mbind, parser_bind. rewrite E1. split_and!; [done..|congruence].
Qed.

Lemma parses_ret {A} c s (a : A) : reads c (mret a) s c s a.
Proof. intros st Hs Hc. by exists st. Qed.

Lemma reads_get {A} c c' (f : PState → parser A) s s' a :
  (∀ st, before st s → p_captures st = c → reads c (f st) s c' s' a) → reads c (get ≫= f) s c' s' a.
Proof.
  intros Hf st Hs Hc. destruct (Hf st Hs Hc st Hs Hc) as (st' & E & ?). by exists st'.
Qed.

Lemma before_at st s i : before st s → 0 ≤ i → js_at src (pos st + i) = s !! Z.to_nat i.
Proof.
  intros [Hp <-] Hi. unfold js_at. rewrite (proj2 (Z.ltb_ge _ _)) by lia.
  rewrite lookup_drop. f_equal. lia.
Qed.

Lemma before_head st s : before st s → js_at src (pos st) = head s.
Proof.
  intros Hs. pose proof (before_at st s 0 Hs ltac:(lia)) as E. rewrite Z.add_0_r in E.
  rewrite E. by destruct s.
Qed.

Lemma before_skip st t s : before st (t ++ s) → before (set_pos (pos st + len t) st) s.
Proof.
  intros [Hp Hs]. unfold before, len. cbn. split; [lia|].
  replace (Z.to_nat (pos st + Z.of_nat (length t))) with (Z.to_nat (pos st) + length t)%nat by lia.
  rewrite <- drop_drop, Hs. apply drop_app_length.
Qed.

Lemma reads_peek {A} c c' (f : option Z → parser A) s s' a :
  reads c (f (head s)) s c' s' a → reads c (peek src ≫= f) s c' s' a.
Proof.
  intros Hf. eapply parses_bind; [|exact Hf]. intros st Hs Hc. exists st.
  unfold peek. by rewrite (before_head _ _ Hs).
Qed.

Lemma reads_next {A} c c' (f : Z → parser A) x s s' a :
  reads c (f x) s c' s' a → reads c (next src ≫= f) (x :: s) c' s' a.
Proof.
  intros Hf. eapply parses_bind; [|exact Hf]. intros st Hs Hc. exists (set_pos (pos st + 1) st).
  unfold next. rewrite (before_head _ _ Hs). split; [done|]. split; [|done].
  by apply (before_skip st [x]).
Qed.

Lemma reads_while {A} c c' p (f : jsstr → parser A) t s s' a :
  Forall (λ x, p x = true) t → (∀ x, head s = Some x → p x = false) →
  reads c (f t) s c' s' a → reads c (read_while src p ≫= f) (t ++ s) c' s' a.
Proof.
  intros Ht Hs Hf. eapply parses_bind; [|exact Hf]. intros st Hst Hc.
  exists (set_pos (pos st + len t) st). unfold read_while. destruct Hst as [Hp E]. rewrite E.
  assert (span_of p (t ++ s) = t) as ->.
  { clear E Hf. induction Ht as [|x t Hx Ht IH]; cbn [app span_of].
    - destruct s as [|x s]; [done|]. cbn [span_of]. by rewrite (Hs x).
    - by rewrite Hx, IH. }
  split; [done|]. split; [|done]. by apply before_skip.
Qed.

(** * Units, classes and numbers *)

(** The parser without u/v mode and without names. *)
Abbreviation atom' inner := (parseAtom src total [] false false inner).
Abbreviation quantified' inner := (parseQuantified src total [] false false inner).
Abbreviation concat' inner := (parseConcat src total [] false false inner).
Abbreviation alternation' depth := (parseAlternation src total [] false false depth).

Lemma before_hex st u s :
  is_unit u → before st (hex4 u ++ s) → hex_ahead src 4 st = Some u.
Proof.
  intros Hu [_ Hs]. unfold hex_ahead. rewrite Hs. change (take 4 (hex4 u ++ s)) with (hex4 u).
  by apply hex4_value.
Qed.

(** What follows a digit of a printed unit is no brace. *)
Lemma hex4_head u s : is_unit u → is_ch (head (hex4 u ++ s)) "{" = false.
Proof.
  intros Hu. unfold is_ch. apply bool_decide_eq_false_2. cbn. intros [= E].
  assert (0 ≤ u / 4096 < 16) as Hd
    by (unfold is_unit in Hu; split; [apply Z.div_pos|apply Z.div_lt_upper_bound]; lia).
  apply digit_char_hex in Hd. rewrite E in Hd. discriminate Hd.
Qed.

Lemma reads_hex_escape c u literal bad s :
  is_unit u → reads c (hex_escape src false 4 literal bad) (hex4 u ++ s) c s u.
Proof.
  intros Hu st Hst Hc. exists (set_pos (pos st + 4) st).
  unfold hex_escape, mbind, parser_bind, get. rewrite (before_hex _ _ _ Hu Hst).
  split; [done|]. split; [|done]. by apply (before_skip st (hex4 u)).
Qed.

(** The escape of a unit, behind its backslash. *)
Lemma reads_escaped_unit c inClass u s :
  is_unit u → reads c (parseEscapedCodeUnit src false inClass) (ch "u" :: hex4 u ++ s) c s u.
Proof.
  intros Hu. unfold parseEscapedCodeUnit. apply reads_next.
  change (reads c (c0 ← peek src; if is_ch c0 "{" then
      refuse (js "\u{" ++ ellipsis ++ js "} code-point escape " ++ emdash ++ js " #1539 Phase 2c/2d")
    else hex_escape src false 4 0x75 (js "bad \u escape")) (hex4 u ++ s) c s u).
  apply reads_peek. rewrite hex4_head by done. by apply reads_hex_escape.
Qed.

Lemma reads_char c inner u s :
  is_unit u → reads c (atom' inner) (print_unit u ++ s) c s (NChar u).
Proof.
  intros Hu. unfold parseAtom. apply reads_peek.
  change (reads c (parseEscapeAtom src total [] false false) (ch "\" :: ch "u" :: hex4 u ++ s) c s (NChar u)).
  unfold parseEscapeAtom. apply reads_next, reads_peek.
  change (reads c (code ← parseEscapedCodeUnit src false false; mret (NChar code))
    (ch "u" :: hex4 u ++ s) c s (NChar u)).
  eapply parses_bind; [by apply reads_escaped_unit|apply parses_ret].
Qed.

Lemma reads_member c u s :
  is_unit u → reads c (parseClassMember src false) (print_unit u ++ s) c s (MChar u).
Proof.
  intros Hu. unfold parseClassMember. apply reads_peek.
  change (reads c (_ ← next src; e ← peek src; match e ≫= class_shorthand with
    | Some ranges => _ ← next src; mret (MShorthand ranges)
    | None =>
        if is_ch e "b" then _ ← next src; mret (MChar 0x08)
        else code ← parseEscapedCodeUnit src false true; mret (MChar code)
    end) (ch "\" :: ch "u" :: hex4 u ++ s) c s (MChar u)).
  apply reads_next, reads_peek.
  change (reads c (code ← parseEscapedCodeUnit src false true; mret (MChar code))
    (ch "u" :: hex4 u ++ s) c s (MChar u)).
  eapply parses_bind; [by apply reads_escaped_unit|apply parses_ret].
Qed.

Lemma reads_dash {A} c c' (f : bool → parser A) u s s' a :
  reads c (f true) (ch "-" :: print_unit u ++ s) c' s' a →
  reads c (dash_ahead src ≫= f) (ch "-" :: print_unit u ++ s) c' s' a.
Proof.
  intros Hf. eapply parses_bind; [|exact Hf]. intros st Hs Hc. exists st. split; [|done].
  unfold dash_ahead, at_is. rewrite (before_head _ _ Hs), (before_at _ _ 1 Hs) by done. done.
Qed.

Lemma reads_range c rs r s :
  is_unit r.1 → is_unit r.2 → r.1 ≤ r.2 →
  reads c (class_round src false rs) (print_range r ++ s) c s (rs ++ [r]).
Proof.
  destruct r as [lo hi]. cbn [fst snd]. intros Hlo Hhi Hle. unfold print_range. cbn [fst snd].
  rewrite <- app_assoc. unfold class_round. eapply parses_bind; [by apply reads_member|].
  cbn [app]. apply reads_dash, reads_next. eapply parses_bind; [by apply reads_member|].
  change (reads c (if hi <? lo then refuse (js "class range out of order") else mret (rs ++ [(lo, hi)]))
    s c s (rs ++ [(lo, hi)])).
  rewrite (proj2 (Z.ltb_ge _ _)) by done. apply parses_ret.
Qed.

Definition range_ok (r : Z * Z) : bool := unit_b r.1 && unit_b r.2 && (r.1 <=? r.2).

Lemma range_ok_spec r : range_ok r = true ↔ is_unit r.1 ∧ is_unit r.2 ∧ r.1 ≤ r.2.
Proof. unfold range_ok, unit_b, is_unit. rewrite !andb_true_iff, !Z.leb_le. tauto. Qed.

Lemma reads_ranges c fuel rs0 rs s :
  (length rs < fuel)%nat → forallb range_ok rs = true →
  reads c (member_loop src false fuel rs0) (concat (map print_range rs) ++ ch "]" :: s)
    c (ch "]" :: s) (rs0 ++ rs).
Proof.
  revert fuel rs0. induction rs as [|r rs IH]; intros fuel rs0 Hf Hrs;
    (destruct fuel as [|fuel]; [simpl in Hf; lia|]); cbn [member_loop map concat].
  - apply reads_peek. rewrite app_nil_r. apply parses_ret.
  - cbn [forallb] in Hrs. apply andb_true_iff in Hrs as [(Hlo & Hhi & Hle)%range_ok_spec Hrs].
    rewrite <- app_assoc. apply reads_peek.
    change (reads c (ranges ← class_round src false rs0; member_loop src false fuel ranges)
      (print_range r ++ concat (map print_range rs) ++ ch "]" :: s) c (ch "]" :: s) (rs0 ++ r :: rs)).
    eapply parses_bind; [by apply reads_range|].
    rewrite (cons_middle r rs0 rs), app_assoc. apply IH; [simpl in Hf; lia|done].
Qed.

Lemma before_length st s : before st s → (length s ≤ length src)%nat.
Proof. intros [_ <-]. rewrite length_drop. lia. Qed.

(** A list is shorter than what it prints, if each element prints something. *)
Lemma length_printed {B} (p : B → jsstr) l :
  (∀ x, x ∈ l → p x ≠ []) → (length l ≤ length (concat (map p l)))%nat.
Proof.
  induction l as [|x l IH]; intros Hp; [done|]. cbn [map concat length]. rewrite length_app.
  pose proof (IH ltac:(intros; apply Hp; by right)) as Hl.
  assert (p x ≠ []) as Hx by (apply Hp; left). destruct (p x); [done|]. simpl. lia.
Qed.

Lemma reads_class c rs (negated : bool) s :
  forallb range_ok rs = true →
  reads c (parseClass src false) (print (NClass rs negated) ++ s) c s (NClass rs negated).
Proof.
  intros Hrs. cbn [print]. unfold parseClass. rewrite <- !app_assoc. apply reads_next, reads_peek.
  assert (is_ch (head ((if negated then [ch "^"] else []) ++ concat (map print_range rs) ++ [ch "]"] ++ s)) "^"
    = negated) as ->.
  { destruct negated; [done|]. cbn [app]. by destruct rs as [|r rs]. }
  cbv zeta. set (t := concat (map print_range rs) ++ [ch "]"] ++ s).
  apply (parses_bind c c _ _ _ _ t _ tt).
  { destruct negated; [|apply parses_ret]. apply reads_next, parses_ret. }
  apply (parses_bind c c c _ _ t (ch "]" :: s) s rs);
    [|apply reads_peek; exact (reads_next c c (λ _, mret (NClass rs negated)) (ch "]") s s _ (parses_ret c s _))].
  intros st Hst Hc. apply (reads_ranges c (S (length src)) [] rs s); [|done..].
  apply before_length in Hst. unfold t in Hst. rewrite length_app in Hst.
  pose proof (length_printed print_range rs ltac:(done)). lia.
Qed.

(** [s] does not begin with a digit. *)
Definition no_digit (s : jsstr) : Prop := ∀ x, head s = Some x → is_digit x = false.

Lemma reads_backref c inner i s :
  1 ≤ i ≤ total → i < 2 ^ 53 → no_digit s → reads c (atom' inner) (print (NBackref i) ++ s) c s (NBackref i).
Proof.
  intros Hi Hb Hs. destruct (js_num_digits i) as (_ & Hall & Hd); [lia|].
  destruct Hd as (d & t & Ed & Hd); [lia|]. cbn [print]. unfold parseAtom. apply reads_peek.
  change (reads c (parseEscapeAtom src total [] false false) (ch "\" :: js_num i ++ s) c s (NBackref i)).
  unfold parseEscapeAtom. apply reads_next, reads_peek. rewrite Ed. cbn [app head].
  assert (one_of (Some d) (js "dDwWsS") = false) as ->.
  { apply bool_decide_eq_false_2. intros Hin. change (js "dDwWsS") with [100; 68; 119; 87; 115; 83] in Hin.
    rewrite !elem_of_cons, elem_of_nil in Hin. lia. }
  change (ch "b") with 98. change (ch "B") with 66. change (ch "1") with 49. change (ch "9") with 57.
  rewrite !(proj2 (Z.eqb_neq _ _)), !(proj2 (Z.leb_le _ _)) by lia. cbn [orb andb].
  unfold decimal_escape. apply reads_get. intros st _ _.
  rewrite (app_comm_cons t s d), <- Ed. apply reads_while; [done|exact Hs|]. cbv zeta.
  rewrite parseInt10_num by lia. rewrite !(proj2 (Z.leb_le _ _)) by lia. cbn [andb].
  unfold backrefNode. apply reads_get. intros st' _ _. apply parses_ret.
Qed.

(** * Quantifiers *)

Lemma reads_lazy {A} c c' (f : bool → parser A) greedy s s' a :
  head s ≠ Some (ch "?") →
  reads c (f greedy) s c' s' a → reads c (consumeLazy src ≫= f) (print_lazy greedy ++ s) c' s' a.
Proof.
  intros Hs Hf. eapply parses_bind; [|exact Hf]. unfold consumeLazy. destruct greedy; cbn [print_lazy app].
  - apply reads_peek. unfold is_ch. rewrite bool_decide_false by done. apply parses_ret.
  - apply reads_peek, reads_next, parses_ret.
Qed.

Lemma no_digit_cons x s : is_digit x = false → no_digit (x :: s).
Proof. intros Hx y. cbn. by intros [= <-]. Qed.

Lemma reads_bounds c min max s :
  0 ≤ min < 2 ^ 53 → max < 2 ^ 53 → max = -1 ∨ min ≤ max →
  reads c (tryParseBraceQuantifier src) (print_bounds min max ++ s) c s (Some (min, max)).
Proof.
  intros Hmin Hmax Hor. unfold print_bounds. rewrite <- !app_assoc.
  destruct (js_num_digits min) as (_ & Hdmin & _); [lia|].
  unfold tryParseBraceQuantifier. apply reads_peek. apply reads_next.
  set (tail := (if max =? min then [] else _) ++ [ch "}"] ++ s).
  assert (no_digit tail) as Htail by (unfold tail; destruct (max =? min); by apply no_digit_cons).
  apply reads_while; [done|exact Htail|]. rewrite bool_decide_false by apply js_num_ne. cbv zeta.
  rewrite parseInt10_num by lia.
  assert (∀ m', reads c (_ ← next src; if negb (m' =? -1) && (m' <? min) then refuse (js "quantifier max < min")
      else mret (Some (min, m'))) (ch "}" :: s) c s (Some (min, m')) ∨ ¬ (m' = -1 ∨ min ≤ m')) as Hend.
  { intros m'. destruct (decide (m' = -1 ∨ min ≤ m')) as [Hm|Hm]; [left|by right]. apply reads_next.
    assert (negb (m' =? -1) && (m' <? min) = false) as ->; [|apply parses_ret].
    destruct Hm as [-> |Hm]; [done|]. rewrite (proj2 (Z.ltb_ge _ _)) by done. apply andb_false_r. }
  apply reads_peek. apply (parses_bind c c c _ _ tail (ch "}" :: s) s max).
  - unfold tail. destruct (Z.eqb_spec max min) as [->|Hne]; [apply parses_ret|]. cbn [app].
    apply reads_next. destruct (Z.eqb_spec max (-1)) as [->|Hne1].
    + apply (reads_while c c is_digit (λ t, mret (if bool_decide (t = []) then -1 else parseInt10 t)) []);
        [constructor|by apply no_digit_cons|apply parses_ret].
    + destruct Hor as [?|Hle]; [done|]. destruct (js_num_digits max) as (_ & Hdmax & _); [lia|].
      apply reads_while; [done|by apply no_digit_cons|].
      rewrite bool_decide_false by apply js_num_ne. rewrite parseInt10_num by lia. apply parses_ret.
  - apply reads_peek. by destruct (Hend max) as [H'|H'].
Qed.

(** * Groups *)

Lemma reads_with {A} c s (f : bool → result A) a : (∀ i, f i = Ok a) → reads c (with_iState f) s c s a.
Proof. intros Hf st Hs Hc. exists st. unfold with_iState. by rewrite Hf. Qed.

Lemma reads_letter c fuel (dash : bool) seen mask l b s s' r :
  flagBit l = Ok b → (seen .| mask) .& b = 0 → (l =? ch ":") || (dash && (l =? ch "-")) = false →
  reads c (modifier_loop src fuel dash seen (mask .| b)) s c s' r →
  reads c (modifier_loop src (S fuel) dash seen mask) (l :: s) c s' r.
Proof.
  intros Hl Hb Hstop Hr. cbn [modifier_loop]. apply reads_peek. cbn [head]. rewrite Hstop.
  apply reads_next. eapply parses_bind; [by apply reads_with|]. rewrite Hb. exact Hr.
Qed.

Lemma reads_stop c fuel (dash : bool) seen mask x s :
  (x =? ch ":") || (dash && (x =? ch "-")) = true →
  reads c (modifier_loop src (S fuel) dash seen mask) (x :: s) c (x :: s) mask.
Proof. intros Hx. cbn [modifier_loop]. apply reads_peek. cbn [head]. rewrite Hx. apply parses_ret. Qed.

Definition masks : list Z := [0; 2; 4; 6; 8; 10; 12; 14].

Lemma reads_mask c fuel (dash : bool) seen mask x s :
  (3 < fuel)%nat → seen ∈ masks → mask ∈ masks → Z.land seen mask = 0 →
  (x =? ch ":") || (dash && (x =? ch "-")) = true →
  reads c (modifier_loop src fuel dash seen 0) (print_mask mask ++ x :: s) c (x :: s) mask.
Proof.
  intros Hf Hseen Hmask Hland Hx. do 4 (destruct fuel as [|fuel]; [lia|]). clear Hf.
  assert (∀ l, l ∈ [ch "i"; ch "m"; ch "s"] → (l =? ch ":") || (dash && (l =? ch "-")) = false) as Hgo.
  { intros l Hl. rewrite !elem_of_cons, elem_of_nil in Hl.
    by destruct Hl as [-> |[-> |[-> |[]]]], dash. }
  unfold masks in *. rewrite !elem_of_cons, elem_of_nil in Hseen, Hmask.
  destruct Hmask as [-> |[-> |[-> |[-> |[-> |[-> |[-> |[-> |[]]]]]]]]];
  destruct Hseen as [-> |[-> |[-> |[-> |[-> |[-> |[-> |[-> |[]]]]]]]]]; try discriminate Hland;
  repeat first
    [ exact (reads_stop _ _ _ _ _ _ _ Hx)
    | eapply reads_letter; [reflexivity|reflexivity|apply Hgo; set_solver|] ].
Qed.

Lemma reads_modifiers c add remove s :
  (3 ≤ length src)%nat → masks_ok add remove = true →
  reads c (parseModifiers src) (print_modifiers add remove ++ s) c s (add, remove).
Proof.
  intros Hlen Hok. unfold masks_ok in Hok. rewrite !andb_true_iff in Hok.
  destruct Hok as [[[Ha%bool_decide_eq_true_1 Hr%bool_decide_eq_true_1] Hl%Z.eqb_eq] Hz%negb_true_iff].
  unfold parseModifiers, print_modifiers. rewrite <- !app_assoc.
  assert (0 ∈ masks) as H0' by set_solver.
  apply (parses_bind c c c _ _ _ ((if remove =? 0 then [] else ch "-" :: print_mask remove) ++ [ch ":"] ++ s) s add).
  { destruct (remove =? 0); (apply reads_mask; [lia|done|done|apply Z.land_0_l|done]). }
  apply reads_peek. apply (parses_bind c c c _ _ _ ([ch ":"] ++ s) s remove).
  - destruct (Z.eqb_spec remove 0) as [->|Hne]; [apply parses_ret|]. cbn [app].
    apply reads_next. apply reads_mask; [lia|done..].
  - apply reads_peek, reads_next. rewrite Hz. apply parses_ret.
Qed.

Lemma reads_group c h t s1 c1 inner n c2 s :
  reads c (group_head src []) t c1 s1 h → reads c1 inner s1 c2 (ch ")" :: s) n →
  reads c (parseGroup src [] inner) t c2 s (group_node h n).
Proof.
  intros Hh Hn. unfold parseGroup. eapply parses_bind; [exact Hh|].
  intros st Hst Hc. unfold mbind at 1, parser_bind at 1, get, modify.
  set (st1 := set_iState (scoped_i h (p_iState st)) st).
  destruct (Hn st1 Hst Hc) as (st2 & E & Hst2 & Hc2 & Hi2).
  set (st3 := set_iState (p_iState st) st2).
  assert (reads c2 (c ← peek src; if negb (is_ch c ")") then refuse (js "unterminated group")
    else _ ← next src; mret (group_node h n)) (ch ")" :: s) c2 s (group_node h n)) as Hend
    by apply reads_peek, reads_next, parses_ret.
  destruct (Hend st3 Hst2 Hc2) as (st' & E' & Hst' & Hc' & Hi'). exists st'.
  unfold mbind, parser_bind in *. fold st1. rewrite E. fold st3. split; [exact E'|]. split_and!; [done..|].
  by rewrite Hi'.
Qed.

(** The groups of each kind, from the parse of their body. *)
Section group_kinds.
Context (c c1 : Z) (inner : parser ReNode) (n : ReNode) (s : jsstr).

Lemma reads_look (negated behind : bool) :
  reads c inner (print n ++ ch ")" :: s) c1 (ch ")" :: s) n →
  reads c (atom' inner) (print (NLookaround n negated behind) ++ s) c1 s (NLookaround n negated behind).
Proof.
  intros Hn. cbn [print]. rewrite <- !app_assoc. unfold parseAtom. apply reads_peek.
  apply (reads_group c (GLookaround negated behind) _ (print n ++ ch ")" :: s) c); [|exact Hn].
  unfold group_head. apply reads_next, reads_peek.
  destruct behind, negated; cbn [look_head app];
    apply reads_next, reads_peek, reads_next; [apply reads_peek, reads_next|apply reads_peek, reads_next|..];
    apply parses_ret.
Qed.

Lemma reads_mod add remove :
  (3 ≤ length src)%nat → masks_ok add remove = true →
  reads c inner (print n ++ ch ")" :: s) c1 (ch ")" :: s) n →
  reads c (atom' inner) (print (NModGroup add remove n) ++ s) c1 s (NModGroup add remove n).
Proof.
  intros Hlen Hok Hn. cbn [print]. rewrite <- !app_assoc. unfold parseAtom. apply reads_peek.
  apply (reads_group c (GModifiers add remove) _ (print n ++ ch ")" :: s) c); [|exact Hn].
  unfold group_head. cbn [app]. apply reads_next, reads_peek, reads_next, reads_peek.
  set (t := print_modifiers add remove ++ print n ++ ch ")" :: s).
  assert (∃ x, head t = Some x ∧ x ∈ js "-ims") as (x & Hx & Hin).
  { unfold t, print_modifiers, masks_ok in *. rewrite !andb_true_iff in Hok.
    destruct Hok as [[[Ha%bool_decide_eq_true_1 Hr%bool_decide_eq_true_1] _] Hz%negb_true_iff].
    rewrite !elem_of_cons, elem_of_nil in Ha, Hr. change (js "-ims") with [45; 105; 109; 115].
    destruct Ha as [-> |[-> |[-> |[-> |[-> |[-> |[-> |[-> |[]]]]]]]]];
      try (eexists; split; [reflexivity|set_solver]).
    destruct (Z.eqb_spec remove 0); [done|]. eexists. split; [reflexivity|set_solver]. }
  rewrite Hx. change (js "-ims") with [45; 105; 109; 115] in Hin.
  rewrite !elem_of_cons, elem_of_nil in Hin.
  assert (reads c (m ← parseModifiers src; mret (GModifiers m.1 m.2)) t c
    (print n ++ ch ")" :: s) (GModifiers add remove)) as Hm.
  { eapply parses_bind; [by apply reads_modifiers|apply parses_ret]. }
  by destruct Hin as [-> |[-> |[-> |[-> |[]]]]].
Qed.

Lemma reads_capture :
  reads (c + 1) inner (print n ++ ch ")" :: s) c1 (ch ")" :: s) n →
  head (print n ++ ch ")" :: s) ≠ Some (ch "?") → 0 ≤ c →
  reads c (atom' inner) (print (NGroup n (c + 1) None) ++ s) c1 s (NGroup n (c + 1) None).
Proof.
  intros Hn Hhead Hc0. cbn [print]. rewrite (proj2 (Z.ltb_ge _ _)) by lia. rewrite <- !app_assoc.
  unfold parseAtom. apply reads_peek.
  apply (reads_group c (GCapture (c + 1) None) _ (print n ++ ch ")" :: s) (c + 1)); [|exact Hn].
  unfold group_head. cbn [app]. apply reads_next, reads_peek.
  unfold is_ch at 1. rewrite bool_decide_false by done.
  eapply parses_bind; [|apply parses_ret]. intros st Hst Hc. exists (set_captures (c + 1) st).
  unfold new_capture. by rewrite Hc.
Qed.

Lemma reads_plain :
  reads c inner (print n ++ ch ")" :: s) c1 (ch ")" :: s) n →
  reads c (atom' inner) (print (NGroup n (-1) None) ++ s) c1 s (NGroup n (-1) None).
Proof.
  intros Hn. cbn [print]. rewrite <- !app_assoc. unfold parseAtom. apply reads_peek.
  apply (reads_group c GNonCapture _ (print n ++ ch ")" :: s) c); [|exact Hn].
  unfold group_head. cbn [Z.ltb app]. apply reads_next, reads_peek, reads_next, reads_peek, reads_next, parses_ret.
Qed.
End group_kinds.

(** * Terms, options and alternations *)

Definition starters : jsstr := js "\.[^$(".

(** What may follow a term, and an option, in the texts that the printer makes. *)
Definition follows_term (s : jsstr) : Prop :=
  ∀ x, head s = Some x → is_digit x = false ∧ x ∉ js "*+?{".
Definition follows_option (s : jsstr) : Prop := ∀ x, head s = Some x → x = ch "|" ∨ x = ch ")".
Definition follows_all (s : jsstr) : Prop := ∀ x, head s = Some x → x = ch ")".

Lemma starter_cases x :
  x ∈ starters → x = ch "\" ∨ x = ch "." ∨ x = ch "[" ∨ x = ch "^" ∨ x = ch "$" ∨ x = ch "(".
Proof. unfold starters. change (js "\.[^$(") with [92; 46; 91; 94; 36; 40]. set_solver. Qed.

Lemma atom_term n : is_atom n = true → is_term n = true.
Proof. by destruct n. Qed.

Lemma print_starts n :
  is_term n = true → printable total n = true → ∃ x t, print n = x :: t ∧ x ∈ starters.
Proof.
  induction n using ReNode_ind'; cbn [is_term printable print]; intros Ht Hp; try done;
    try (eexists _, _; split; [reflexivity|member]).
  all: assert (is_term n = true ∧ printable total n = true) as [Ht' Hp']
    by (unfold quantifiable in Hp; rewrite !andb_true_iff in Hp; split; [apply atom_term|]; tauto).
  all: destruct (IHn Ht' Hp') as (x & t & -> & Hx); cbn [app]; by eexists _, _.
Qed.

Lemma follows_starter n s :
  is_term n = true → printable total n = true → follows_term (print n ++ s).
Proof.
  intros Ht Hp. destruct (print_starts n Ht Hp) as (x & t & -> & Hx). intros y. cbn. intros [= <-].
  destruct (starter_cases x Hx) as [-> |[-> |[-> |[-> |[-> | ->]]]]]; (split; [done|member]).
Qed.

Lemma follows_option_term s : follows_option s → follows_term s.
Proof.
  intros Hs x Hx. change (js "*+?{") with [42; 43; 63; 123].
  destruct (Hs x Hx) as [-> | ->]; (split; [done|member]).
Qed.

Lemma follows_all_option s : follows_all s → follows_option s.
Proof. intros Hs x Hx. right. by apply Hs. Qed.

Section levels.
Context (inner : parser ReNode).

Lemma one_of_quantifiers x : x ∉ js "*+?{" → one_of (Some x) (js "*+?") = false ∧ (x =? ch "{") = false.
Proof.
  change (js "*+?{") with [42; 43; 63; 123]. change (js "*+?") with [42; 43; 63]. intros Hx. split.
  - apply bool_decide_eq_false_2. set_solver.
  - apply Z.eqb_neq. intros ->. apply Hx. change (ch "{") with 123. set_solver.
Qed.

(** A term that is an atom. *)
Lemma reads_bare c c1 n s :
  follows_term s → reads c (atom' inner) (print n ++ s) c1 s n →
  reads c (quantified' inner) (print n ++ s) c1 s n.
Proof.
  intros Hs Hn. unfold parseQuantified. eapply parses_bind; [exact Hn|]. apply reads_peek.
  destruct (head s) as [x|] eqn:Ex; [|apply parses_ret]. destruct (Hs x Ex) as [_ Hx].
  destruct (one_of_quantifiers x Hx) as [-> ->]. apply parses_ret.
Qed.

(** An atom with a quantifier of one letter. *)
Lemma reads_simple c c1 n q (greedy : bool) s r :
  q ∈ js "*+?" → isAssertion n = false → follows_term s →
  r = (if isLookaround n then if q =? ch "+" then n else NOpt n greedy
       else if q =? ch "*" then NStar n greedy
       else if q =? ch "+" then NPlus n greedy
       else NOpt n greedy) →
  reads c (atom' inner) (print n ++ [q] ++ print_lazy greedy ++ s) c1 ([q] ++ print_lazy greedy ++ s) n →
  reads c (quantified' inner) (print n ++ [q] ++ print_lazy greedy ++ s) c1 s r.
Proof.
  intros Hq Ha Hs -> Hn. unfold parseQuantified. eapply parses_bind; [exact Hn|]. apply reads_peek.
  cbn [app head]. unfold one_of. rewrite bool_decide_true by done. rewrite Ha.
  unfold simple_quantifier. apply reads_next, reads_lazy; [|apply parses_ret].
  intros Hx. apply Hs in Hx as [_ Hx]. apply Hx. change (js "*+?{") with [42; 43; 63; 123].
  change (ch "?") with 63. set_solver.
Qed.

(** An atom with a bound. *)
Lemma reads_brace c c1 n min max (greedy : bool) s :
  isAssertion n = false → isLookaround n = false → follows_term s →
  0 ≤ min < 2 ^ 53 → max < 2 ^ 53 → max = -1 ∨ min ≤ max →
  reads c (atom' inner) (print n ++ print_bounds min max ++ print_lazy greedy ++ s) c1
    (print_bounds min max ++ print_lazy greedy ++ s) n →
  reads c (quantified' inner) (print n ++ print_bounds min max ++ print_lazy greedy ++ s) c1 s
    (NRepeat n min max greedy).
Proof.
  intros Ha Hl Hs Hmin Hmax Hor Hn. unfold parseQuantified. eapply parses_bind; [exact Hn|]. apply reads_peek.
  change (reads c1 (brace_quantifier src n) (print_bounds min max ++ print_lazy greedy ++ s) c1 s
    (NRepeat n min max greedy)).
  unfold brace_quantifier. apply reads_get. intros st _ _.
  eapply parses_bind; [by apply reads_bounds|]. rewrite Ha. apply reads_lazy; [|rewrite Hl; apply parses_ret].
  intros Hx. apply Hs in Hx as [_ Hx]. apply Hx. change (js "*+?{") with [42; 43; 63; 123].
  change (ch "?") with 63. set_solver.
Qed.

(** The terms of a concatenation, one after the other, before [s]. *)
Fixpoint readable (c : Z) (ns : list ReNode) (s : jsstr) (c' : Z) : Prop :=
  match ns with
  | [] => c = c'
  | n :: ns' => ∃ c1, reads c (quantified' inner) (print n ++ concat (map print ns') ++ s) c1
                        (concat (map print ns') ++ s) n ∧ readable c1 ns' s c'
  end.

Lemma reads_concat_loop fuel parts c ns s c' :
  (length ns < fuel)%nat → follows_option s →
  forallb is_term ns = true → forallb (printable total) ns = true → readable c ns s c' →
  reads c (concat_loop src total [] false false inner fuel parts) (concat (map print ns) ++ s) c' s
    (parts ++ ns).
Proof.
  revert fuel parts c. induction ns as [|n ns IH]; intros fuel parts c Hf Hs Ht Hp Hr;
    (destruct fuel as [|fuel]; [simpl in Hf; lia|]); cbn [concat_loop]; apply reads_peek.
  - cbn in Hr |- *. subst c'. rewrite app_nil_r.
    destruct (head s) as [x|] eqn:Ex; [|apply parses_ret]. by destruct (Hs x Ex) as [-> | ->]; apply parses_ret.
  - cbn [forallb] in Ht, Hp. apply andb_true_iff in Ht as [Ht1 Ht]. apply andb_true_iff in Hp as [Hp1 Hp].
    destruct Hr as (c1 & Hn & Hr). cbn [map concat]. rewrite <- app_assoc.
    assert (∃ x, head (print n ++ concat (map print ns) ++ s) = Some x ∧
      (x =? ch "|") || (x =? ch ")") = false) as (x & -> & ->).
    { destruct (print_starts n Ht1 Hp1) as (x & t & -> & Hx). exists x. split; [done|].
      by destruct (starter_cases x Hx) as [-> |[-> |[-> |[-> |[-> | ->]]]]]. }
    eapply parses_bind; [exact Hn|]. rewrite (cons_middle n parts ns), app_assoc.
    apply IH; [simpl in Hf; lia|done..].
Qed.

Lemma reads_concat c ns s c' :
  follows_option s → forallb is_term ns = true → forallb (printable total) ns = true →
  readable c ns s c' →
  reads c (concat' inner) (concat (map print ns) ++ s) c' s
    match ns with [n] => n | _ => NConcat ns end.
Proof.
  intros Hs Ht Hp Hr st Hst Hc. revert st Hst Hc.
  assert (∀ st, before st (concat (map print ns) ++ s) → (length ns < S (length src))%nat) as Hl.
  { intros st Hst%before_length. rewrite length_app in Hst.
    assert (length ns ≤ length (concat (map print ns)))%nat; [|lia].
    apply length_printed. intros n Hn. rewrite forallb_forall in Ht, Hp.
    apply list_elem_of_In in Hn. destruct (print_starts n) as (x & t & -> & _); auto. }
  intros st Hst Hc. specialize (Hl st Hst).
  pose proof (reads_concat_loop (S (length src)) [] c ns s c' Hl Hs Ht Hp Hr st Hst Hc)
    as (st' & E & Hst' & Hc' & Hi').
  exists st'. unfold parseConcat, mbind, parser_bind. rewrite E. done.
Qed.

(** The further options of an alternation, each behind its bar. *)
Fixpoint choices (c : Z) (ns : list ReNode) (s : jsstr) (c' : Z) : Prop :=
  match ns with
  | [] => c = c'
  | n :: ns' => ∃ c1, reads c (concat' inner)
                        (print n ++ concat (map (λ n, ch "|" :: print n) ns') ++ s) c1
                        (concat (map (λ n, ch "|" :: print n) ns') ++ s) n ∧ choices c1 ns' s c'
  end.

Lemma reads_alt_loop fuel options c ns s c' :
  (length ns < fuel)%nat → follows_all s → choices c ns s c' →
  reads c (alt_loop src total [] false false inner fuel options)
    (concat (map (λ n, ch "|" :: print n) ns) ++ s) c' s (options ++ ns).
Proof.
  revert fuel options c. induction ns as [|n ns IH]; intros fuel options c Hf Hs Hr;
    (destruct fuel as [|fuel]; [simpl in Hf; lia|]); cbn [alt_loop]; apply reads_peek.
  - cbn in Hr |- *. subst c'. rewrite app_nil_r. unfold is_ch. rewrite bool_decide_false; [apply parses_ret|].
    intros Hx. by apply Hs in Hx.
  - destruct Hr as (c1 & Hn & Hr). cbn [map concat]. rewrite <- app_assoc.
    apply reads_next. eapply parses_bind; [exact Hn|]. rewrite (cons_middle n options ns), app_assoc.
    apply IH; [simpl in Hf; lia|done..].
Qed.

Lemma reads_alternation c n ns s c' :
  follows_all s → choices c (n :: ns) s c' →
  reads c (alternation src total [] false false inner)
    (print n ++ concat (map (λ n, ch "|" :: print n) ns) ++ s) c' s
    match ns with [] => n | _ => NAlt (n :: ns) end.
Proof.
  intros Hs (c1 & Hn & Hr). unfold alternation. eapply parses_bind; [exact Hn|].
  intros st Hst Hc.
  assert (length ns < S (length src))%nat as Hl.
  { apply before_length in Hst. rewrite length_app in Hst.
    pose proof (length_printed (λ n, ch "|" :: print n) ns ltac:(done)). lia. }
  pose proof (reads_alt_loop (S (length src)) [n] c1 ns s c' Hl Hs Hr st Hst Hc)
    as (st' & E & Hst' & Hc' & Hi').
  exists st'. unfold mbind, parser_bind. rewrite E. by destruct ns.
Qed.
End levels.

(** * Every printable tree *)

(** The groups of a tree are numbered on from [c]. *)
Definition numbered (c : Z) (l : list Z) : Prop := l = seqZ (c + 1) (len l).

Lemma numbered_app c l1 l2 : numbered c (l1 ++ l2) → numbered c l1 ∧ numbered (c + len l1) l2.
Proof.
  unfold numbered, len. rewrite length_app. intros Heq.
  rewrite Nat2Z.inj_add, seqZ_app in Heq by lia.
  apply app_inj_1 in Heq as [H1' H2']; [|by rewrite length_seqZ, Nat2Z.id].
  split; [done|]. rewrite H2' at 1. f_equal. lia.
Qed.

Lemma numbered_cons c x l : numbered c (x :: l) → x = c + 1 ∧ numbered (c + 1) l.
Proof.
  intros Hn. apply (numbered_app c [x] l) in Hn as [Hx Hl]. split; [|done].
  unfold numbered, len in Hx. simpl in Hx. change (Z.of_nat 1) with 1 in Hx. by injection Hx.
Qed.

(** What the parser does with the text of a tree, at each level of the grammar. *)
Record parses_back (n : ReNode) (d : nat) (c : Z) (s : jsstr) : Prop := {
  pb_atom : is_atom n = true → no_digit s →
    reads c (atom' (alternation' d)) (print n ++ s) (c + len (group_indices n)) s n;
  pb_term : is_term n = true → follows_term s →
    reads c (quantified' (alternation' d)) (print n ++ s) (c + len (group_indices n)) s n;
  pb_option : is_option n = true → follows_option s →
    reads c (concat' (alternation' d)) (print n ++ s) (c + len (group_indices n)) s n;
  pb_all : follows_all s →
    reads c (alternation' (S d)) (print n ++ s) (c + len (group_indices n)) s n }.

Lemma option_all n d c c' s :
  follows_all s → reads c (concat' (alternation' d)) (print n ++ s) c' s n →
  reads c (alternation' (S d)) (print n ++ s) c' s n.
Proof.
  intros Hs Hn. cbn [parseAlternation].
  pose proof (reads_alternation (alternation' d) c n [] s c' Hs) as Ha.
  cbn [map concat app choices] in Ha. apply Ha. by exists c'.
Qed.

(** From a term to the levels above it. *)
Lemma term_back n d c s :
  is_term n = true → printable total n = true → is_option n = true →
  (is_atom n = true → no_digit s →
   reads c (atom' (alternation' d)) (print n ++ s) (c + len (group_indices n)) s n) →
  (follows_term s →
   reads c (quantified' (alternation' d)) (print n ++ s) (c + len (group_indices n)) s n) →
  parses_back n d c s.
Proof.
  intros Ht Hp Ho Hatom Hterm.
  assert (follows_option s →
    reads c (concat' (alternation' d)) (print n ++ s) (c + len (group_indices n)) s n) as Hopt.
  { intros Hs. pose proof (reads_concat (alternation' d) c [n] s (c + len (group_indices n)) Hs) as Hc.
    cbn [forallb map concat readable] in Hc. rewrite Ht, Hp, app_nil_r in Hc. apply Hc; [done..|].
    eexists. split; [|done]. by apply Hterm, follows_option_term. }
  split; [done..| |].
  - intros _. done.
  - intros Hs. by apply option_all, Hopt, follows_all_option.
Qed.

Lemma atom_back n d c s :
  is_atom n = true → printable total n = true →
  (no_digit s → reads c (atom' (alternation' d)) (print n ++ s) (c + len (group_indices n)) s n) →
  parses_back n d c s.
Proof.
  intros Ha Hp Hatom. apply term_back; [by apply atom_term|done|by destruct n|done|].
  intros Hs. apply reads_bare; [done|]. apply Hatom. intros x Hx. by apply Hs.
Qed.

Lemma follows_term_digit s : follows_term s → no_digit s.
Proof. intros Hs x Hx. by apply Hs. Qed.

Lemma leaf_len c : c + len [] = c.
Proof. unfold len. simpl. lia. Qed.

Lemma readable_all d ns c s :
  follows_option s → forallb is_term ns = true → forallb (printable total) ns = true →
  (∀ n, n ∈ ns → ∀ c s, numbered c (group_indices n) → 0 ≤ c → parses_back n d c s) →
  0 ≤ c → numbered c (concat (map group_indices ns)) →
  readable (alternation' d) c ns s (c + len (concat (map group_indices ns))).
Proof.
  intros Hs. revert c. induction ns as [|n ns IH]; intros c Ht Hp Hn Hc Hnum.
  { cbn. unfold len. simpl. lia. }
  cbn [forallb map concat] in *. apply andb_true_iff in Ht as [Ht1 Ht]. apply andb_true_iff in Hp as [Hp1 Hp].
  apply numbered_app in Hnum as [Hnum1 Hnum]. exists (c + len (group_indices n)). split.
  - apply (Hn n); [left|done|done|done|]. destruct ns as [|n2 ns]; [by apply follows_option_term|].
    cbn [forallb map concat] in *. apply andb_true_iff in Ht as [Ht2 _]. apply andb_true_iff in Hp as [Hp2 _].
    rewrite <- app_assoc. by apply follows_starter.
  - replace (c + len (group_indices n ++ concat (map group_indices ns)))
      with (c + len (group_indices n) + len (concat (map group_indices ns)))
      by (unfold len; rewrite length_app; lia).
    apply IH; [done|done|intros; apply Hn; [by right|done..]|unfold len; lia|done].
Qed.

Lemma choices_all d ns c s :
  follows_all s → forallb is_option ns = true →
  (∀ n, n ∈ ns → ∀ c s, numbered c (group_indices n) → 0 ≤ c → parses_back n d c s) →
  0 ≤ c → numbered c (concat (map group_indices ns)) →
  choices (alternation' d) c ns s (c + len (concat (map group_indices ns))).
Proof.
  intros Hs. revert c. induction ns as [|n ns IH]; intros c Ho Hn Hc Hnum.
  { cbn. unfold len. simpl. lia. }
  cbn [forallb map concat] in *. apply andb_true_iff in Ho as [Ho1 Ho].
  apply numbered_app in Hnum as [Hnum1 Hnum]. exists (c + len (group_indices n)). split.
  - apply (Hn n); [left|done|done|done|]. destruct ns as [|n2 ns]; [by apply follows_all_option|].
    intros x. cbn. intros [= <-]. by left.
  - replace (c + len (group_indices n ++ concat (map group_indices ns)))
      with (c + len (group_indices n) + len (concat (map group_indices ns)))
      by (unfold len; rewrite length_app; lia).
    apply IH; [done|intros; apply Hn; [by right|done..]|unfold len; lia|done].
Qed.

Lemma join_with_bars n ns :
  join_with [ch "|"] (map print (n :: ns)) = print n ++ concat (map (λ n, ch "|" :: print n) ns).
Proof.
  revert n. induction ns as [|n2 ns IH]; intros n; [by rewrite app_nil_r|].
  change (join_with [ch "|"] (map print (n :: n2 :: ns)))
    with (print n ++ [ch "|"] ++ join_with [ch "|"] (map print (n2 :: ns))).
  by rewrite IH.
Qed.

Lemma reads_plain_atom c inner x n s :
  x ∈ js ".^$" →
  n = (if x =? ch "." then NAny else if x =? ch "^" then NBol else NEol) →
  reads c (atom' inner) (x :: s) c s n.
Proof.
  intros Hx ->. change (js ".^$") with [ch "."; ch "^"; ch "$"] in Hx.
  rewrite !elem_of_cons, elem_of_nil in Hx. unfold parseAtom. apply reads_peek.
  destruct Hx as [-> |[-> |[-> |[]]]]; apply reads_next, parses_ret.
Qed.

Lemma reads_boundary c inner (negated : bool) s :
  reads c (atom' inner) (print (NWordBoundary negated) ++ s) c s (NWordBoundary negated).
Proof.
  cbn [print app]. unfold parseAtom. apply reads_peek.
  change (reads c (parseEscapeAtom src total [] false false)
    (ch "\" :: (if negated then ch "B" else ch "b") :: s) c s (NWordBoundary negated)).
  unfold parseEscapeAtom. apply reads_next, reads_peek.
  destruct negated; (apply reads_get; intros st _ _; apply reads_next, parses_ret).
Qed.

Lemma reads_class_atom c inner rs (negated : bool) s :
  forallb range_ok rs = true →
  reads c (atom' inner) (print (NClass rs negated) ++ s) c s (NClass rs negated).
Proof. intros Hrs. unfold parseAtom. apply reads_peek. by apply reads_class. Qed.

Lemma reads_mod_any c c1 inner n add remove s :
  masks_ok add remove = true →
  reads c inner (print n ++ ch ")" :: s) c1 (ch ")" :: s) n →
  reads c (atom' inner) (print (NModGroup add remove n) ++ s) c1 s (NModGroup add remove n).
Proof.
  intros Hok Hn st Hst. assert (3 ≤ length src)%nat as Hl.
  { apply before_length in Hst. cbn [print] in Hst. unfold print_modifiers in Hst.
    rewrite !length_app in Hst. cbn [length] in Hst. lia. }
  by apply (reads_mod c c1 inner n s add remove Hl Hok Hn).
Qed.

(** The three kinds of tree with a quantifier of one letter. *)
Lemma simple_back n q (greedy : bool) r d c s :
  q ∈ js "*+?" → is_atom n = true → isAssertion n = false →
  r = (if isLookaround n then if q =? ch "+" then n else NOpt n greedy
       else if q =? ch "*" then NStar n greedy
       else if q =? ch "+" then NPlus n greedy
       else NOpt n greedy) →
  is_atom r = false → is_term r = true → printable total r = true → group_indices r = group_indices n →
  print r = print n ++ [q] ++ print_lazy greedy →
  (∀ s, parses_back n d c s) → parses_back r d c s.
Proof.
  intros Hq Ha Has Hr Hra Hrt Hrp Hg Ept Hn. apply term_back; [done|done|by destruct r|by rewrite Hra|].
  intros Hs. rewrite Hg, Ept, <- !app_assoc. eapply reads_simple; [done..|].
  apply (Hn ([q] ++ print_lazy greedy ++ s)); [done|]. apply no_digit_cons.
  change (js "*+?") with [ch "*"; ch "+"; ch "?"] in Hq. rewrite !elem_of_cons, elem_of_nil in Hq.
  by destruct Hq as [-> |[-> |[-> |[]]]].
Qed.

Lemma term_no_question n t :
  is_term n = true → printable total n = true → head (print n ++ t) ≠ Some (ch "?").
Proof.
  intros Ht Hp. destruct (print_starts n Ht Hp) as (x & u & -> & Hx). cbn [app head].
  intros [= ->]. revert Hx. apply (bool_decide_eq_true_1 (_ ∉ _)). vm_compute. reflexivity.
Qed.

(** No text of a tree begins with the mark of a special group. *)
Lemma print_no_question n t :
  printable total n = true → head t ≠ Some (ch "?") → head (print n ++ t) ≠ Some (ch "?").
Proof.
  revert t. induction n using ReNode_ind'; intros t Hp Ht; try (by apply term_no_question).
  - cbn in Hp. rewrite !andb_true_iff in Hp. destruct Hp as [_ Hp]. cbn [print]. revert t Ht.
    induction H1 as [|p ps Hhd _ IH]; intros t Ht; [done|]. cbn [forallb map concat] in *.
    apply andb_true_iff in Hp as [Hp1 Hp]. rewrite <- app_assoc. apply Hhd; [done|]. by apply IH.
  - cbn in Hp. rewrite !andb_true_iff in Hp. destruct Hp as [[Hlen _] Hp].
    destruct H1 as [|o os Ho Hos]; [done|]. cbn [forallb] in Hp. apply andb_true_iff in Hp as [Hp1 _].
    cbn [print]. rewrite join_with_bars, <- app_assoc. apply Ho; [done|]. by destruct os.
Qed.

Lemma nesting_list n ns : n ∈ ns → (nesting n ≤ max_list (map nesting ns))%nat.
Proof.
  induction ns as [|n' ns IH]; [by intros ?%not_elem_of_nil|].
  cbn [map max_list]. intros [-> |Hin%IH]%elem_of_cons; [apply Nat.le_max_l|].
  etrans; [exact Hin|apply Nat.le_max_r].
Qed.

Lemma print_back n d c s :
  printable total n = true → (nesting n ≤ d)%nat → numbered c (group_indices n) → 0 ≤ c →
  parses_back n d c s.
Proof.
  revert d c s. induction n using ReNode_ind'; intros d c0 t Hp Hd Hnum Hc; try done;
    cbn [nesting group_indices] in *.
  - (* char *) apply atom_back; [done..|]. intros _. rewrite leaf_len. apply reads_char.
    cbn in Hp. unfold unit_b in Hp. by rewrite andb_true_iff, !Z.leb_le in Hp.
  - apply atom_back; [done..|]. intros _. rewrite leaf_len. by apply reads_plain_atom; [member|].
  - apply atom_back; [done..|]. intros _. rewrite leaf_len. by apply reads_class_atom.
  - apply atom_back; [done..|]. intros _. rewrite leaf_len. by apply reads_plain_atom; [member|].
  - apply atom_back; [done..|]. intros _. rewrite leaf_len. by apply reads_plain_atom; [member|].
  - apply atom_back; [done..|]. intros _. rewrite leaf_len. apply reads_boundary.
  - apply atom_back; [done..|]. intros Hs. rewrite leaf_len. cbn in Hp.
    rewrite !andb_true_iff, !Z.leb_le, Z.ltb_lt in Hp. by apply reads_backref; [lia|lia|].
  - (* lookaround *) apply atom_back; [done..|]. intros _. destruct d as [|d]; [lia|].
    apply reads_look. by apply IHn; [done|lia|done|done|intros x; cbn; intros [= <-]].
  - (* modifiers *) apply atom_back; [done..|]. intros _. destruct d as [|d]; [lia|].
    cbn in Hp. apply andb_true_iff in Hp as [Hm Hp]. apply reads_mod_any; [done|].
    by apply IHn; [done|lia|done|done|intros x; cbn; intros [= <-]].
  - (* concatenation *) cbn in Hp. rewrite !andb_true_iff in Hp. destruct Hp as [[Hlen Ht] Hps].
    assert (∀ n, n ∈ ps → ∀ c s, numbered c (group_indices n) → 0 ≤ c → parses_back n d c s) as Hn.
    { intros n Hin c s' Hnum' Hc'. rewrite list.Forall_forall in H1. apply H1; [done| | |done|done].
      - rewrite forallb_forall in Hps. by apply Hps, list_elem_of_In.
      - pose proof (nesting_list n _ Hin). lia. }
    assert (follows_option t → reads c0 (concat' (alternation' d)) (print (NConcat ps) ++ t)
      (c0 + len (concat (map group_indices ps))) t (NConcat ps)) as Hopt.
    { intros Hs. pose proof (reads_concat (alternation' d) c0 ps t _ Hs Ht Hps
        (readable_all d ps c0 t Hs Ht Hps Hn Hc Hnum)) as Hr.
      destruct ps as [|p1 [|p2 ps]]; [exact Hr|done|exact Hr]. }
    split; [done|done|done|]. intros Hs. by apply option_all, Hopt, follows_all_option.
  - (* alternation *) cbn in Hp. rewrite !andb_true_iff in Hp. destruct Hp as [[Hlen Ho] Hps].
    assert (∀ n, n ∈ os → ∀ c s, numbered c (group_indices n) → 0 ≤ c → parses_back n d c s) as Hn.
    { intros n Hin c s' Hnum' Hc'. rewrite list.Forall_forall in H1. apply H1; [done| | |done|done].
      - rewrite forallb_forall in Hps. by apply Hps, list_elem_of_In.
      - pose proof (nesting_list n _ Hin). lia. }
    split; [done..|]. intros Hs. pose proof (choices_all d os c0 t Hs Ho Hn Hc Hnum) as Hch.
    destruct os as [|o1 [|o2 os]]; [done|done|]. cbn [parseAlternation print group_indices].
    rewrite join_with_bars, <- app_assoc. by apply (reads_alternation (alternation' d) c0 o1 (o2 :: os)).
  - (* star *) cbn in Hp. unfold quantifiable in Hp. rewrite !andb_true_iff, !negb_true_iff in Hp.
    destruct Hp as [[[Ha Has] Hl] Hp]. eapply (simple_back n (ch "*") g);
      [member|done|done|by rewrite Hl|done|done| |done|done|intros; by apply IHn].
    cbn. unfold quantifiable. by rewrite Ha, Has, Hl.
  - (* plus *) cbn in Hp. unfold quantifiable in Hp. rewrite !andb_true_iff, !negb_true_iff in Hp.
    destruct Hp as [[[Ha Has] Hl] Hp]. eapply (simple_back n (ch "+") g);
      [member|done|done|by rewrite Hl|done|done| |done|done|intros; by apply IHn].
    cbn. unfold quantifiable. by rewrite Ha, Has, Hl.
  - (* option *) cbn in Hp. rewrite !andb_true_iff, !negb_true_iff in Hp.
    destruct Hp as [[Ha Has] Hp]. eapply (simple_back n (ch "?") g);
      [member|done|done|by destruct (isLookaround n)|done|done| |done|done|intros; by apply IHn].
    cbn. by rewrite Ha, Has.
  - (* repetition *) pose proof Hp as Hpr. cbn in Hp. unfold quantifiable in Hp.
    rewrite !andb_true_iff, !negb_true_iff, Z.leb_le, !Z.ltb_lt, orb_true_iff, Z.eqb_eq, Z.leb_le in Hp.
    destruct Hp as [[[[[[[Ha Has] Hl] Hmin] Hmin2] Hmax] Hor] Hp].
    apply term_back; [done|done|done|done|]. intros Hs. cbn [print group_indices].
    rewrite <- !app_assoc. apply reads_brace; [done..|].
    by apply IHn; [done|lia|done|done|done|apply no_digit_cons].
  - (* group *) pose proof Hp as Hpr. cbn in Hp. rewrite !andb_true_iff, negb_true_iff, Z.eqb_neq, Z.leb_le in Hp.
    destruct Hp as [[[->%bool_decide_eq_true_1 Hi] Hlo] Hp].
    apply atom_back; [done..|]. intros _. destruct d as [|d]; [lia|]. cbn [group_indices] in *.
    destruct (Z.ltb_spec i 0) as [Hneg|Hpos]; cbn [app] in *.
    + replace i with (-1) by lia. apply reads_plain.
      by apply IHn; [done|lia|done|done|intros x; cbn; intros [= <-]].
    + apply numbered_cons in Hnum as [-> Hnum]. apply reads_capture; [| |done].
      * replace (c0 + len (c0 + 1 :: group_indices n)) with (c0 + 1 + len (group_indices n))
          by (unfold len; simpl; lia).
        by apply IHn; [done|lia|done|lia|intros x; cbn; intros [= <-]].
      * by apply print_no_question.
Qed.
End reads.

(** * The pre-scan of a printed text *)

Lemma scan_fuel f f' s inClass count names :
  (length s < f)%nat → (length s < f')%nat →
  scan_loop f s inClass count names = scan_loop f' s inClass count names.
Proof.
  revert f' s inClass count names. induction f as [|f IH]; intros f' s inClass count names Hf Hf'; [lia|].
  destruct f' as [|f']; [lia|]. cbn [scan_loop]. destruct s as [|c s]; [done|]. simpl in Hf, Hf'.
  assert (∀ t ic n nm, (length t ≤ length s)%nat → scan_loop f t ic n nm = scan_loop f' t ic n nm) as Hrec
    by (intros; apply IH; lia).
  repeat first [ apply Hrec; rewrite ?length_drop; lia | case_match; try done ].
  destruct (decodeGroupName _) as [name|]; [|done]. apply Hrec. done.
Qed.

Definition scan (s : jsstr) (inClass : bool) (count : Z) : result (Z * jsmap jsstr Z) :=
  scan_loop (S (length s)) s inClass count [].

(** A unit that the scan passes over, outside a class. *)
Definition plain (x : Z) : Prop := x ≠ ch "\" ∧ x ≠ ch "[" ∧ x ≠ ch "(".

Lemma scan_plain t s count : Forall plain t → scan (t ++ s) false count = scan s false count.
Proof.
  induction 1 as [|x t (H1 & H2 & H3) _ IH]; [done|]. rewrite <- IH. cbn [app]. unfold scan.
  cbn [scan_loop length]. rewrite !(proj2 (Z.eqb_neq _ _)) by done. done.
Qed.

Lemma scan_one x s count : plain x → scan (x :: s) false count = scan s false count.
Proof. intros Hx. apply (scan_plain [x]). by apply Forall_singleton. Qed.

Lemma scan_escape x s inClass count : scan (ch "\" :: x :: s) inClass count = scan s inClass count.
Proof.
  change (scan_loop (S (S (length s))) s inClass count [] = scan s inClass count).
  apply scan_fuel; lia.
Qed.

Lemma scan_class_plain x s count :
  x ≠ ch "\" → scan (x :: s) true count = scan s (negb (x =? ch "]")) count.
Proof. intros Hx. unfold scan. cbn [scan_loop length]. by rewrite (proj2 (Z.eqb_neq _ _)) by done. Qed.

Lemma digit_char_plain d : 0 ≤ d < 16 → plain (digit_char d) ∧ digit_char d ≠ ch "]".
Proof.
  intros Hd. assert (d ∈ seqZ 0 16) as Hin by (apply elem_of_seqZ; lia).
  assert (Forall (λ d, plain (digit_char d) ∧ digit_char d ≠ ch "]") (seqZ 0 16)) as Hall
    by (cbv; repeat constructor; discriminate).
  rewrite list.Forall_forall in Hall. by apply Hall.
Qed.

Lemma hex4_plain u : is_unit u → Forall (λ x, plain x ∧ x ≠ ch "]") (hex4 u).
Proof.
  unfold is_unit. intros Hu.
  assert (0 ≤ u / 4096 < 16) as Hd by (split; [apply Z.div_pos|apply Z.div_lt_upper_bound]; lia).
  repeat (apply Forall_cons; split); try apply Forall_nil_2; apply digit_char_plain; try done;
    by apply Z.mod_pos_bound.
Qed.

Lemma scan_unit u s inClass count :
  is_unit u → scan (print_unit u ++ s) inClass count = scan s inClass count.
Proof.
  intros Hu. unfold print_unit. cbn [app]. rewrite scan_escape.
  pose proof (hex4_plain u Hu) as Hp. generalize dependent (hex4 u). intros t Ht. destruct inClass.
  - induction Ht as [|x t [(Hx & _) Hx'] _ IH]; [done|]. cbn [app].
    rewrite scan_class_plain by done. by rewrite (proj2 (Z.eqb_neq _ _)) by done.
  - apply scan_plain. eapply Forall_impl; [exact Ht|]. by intros x [? _].
Qed.

Lemma scan_class rs (negated : bool) s count :
  forallb range_ok rs = true → scan (print (NClass rs negated) ++ s) false count = scan s false count.
Proof.
  intros Hrs. cbn [print]. rewrite <- !app_assoc. cbn [app].
  change (scan (ch "[" :: ?t) false count) with (scan t true count).
  assert (∀ t, scan ((if negated then [ch "^"] else []) ++ t) true count = scan t true count) as ->
    by (intros t; by destruct negated).
  induction rs as [|[lo hi] rs IH]; [done|]. cbn [forallb map concat] in *.
  apply andb_true_iff in Hrs as [(Hlo & Hhi & _)%range_ok_spec Hrs]. cbn [fst snd] in *.
  unfold print_range. cbn [fst snd]. rewrite <- !app_assoc. rewrite scan_unit by done. cbn [app].
  rewrite scan_class_plain by done. change (negb (ch "-" =? ch "]")) with true.
  rewrite scan_unit by done. by apply IH.
Qed.

Lemma digits_plain z : 0 ≤ z → Forall plain (js_num z).
Proof.
  intros Hz. destruct (js_num_digits z Hz) as (_ & Hd & _). eapply Forall_impl; [exact Hd|].
  intros x Hx. unfold is_digit in Hx. rewrite andb_true_iff, !Z.leb_le in Hx. unfold plain.
  change (ch "\") with 92. change (ch "[") with 91. change (ch "(") with 40. lia.
Qed.

(** The parenthesis of a capturing group, and of the others. *)
Lemma scan_capture s count :
  head s ≠ Some (ch "?") → scan (ch "(" :: s) false count = scan s false (count + 1).
Proof.
  intros Hs. unfold scan. cbn [scan_loop length].
  change (ch "(" =? ch "\") with false. change (ch "(" =? ch "[") with false. cbv iota.
  change (ch "(" =? ch "(") with true. cbv iota. unfold is_ch at 1. by rewrite bool_decide_false by done.
Qed.

Lemma scan_special x s count :
  x ∈ js ":-ims=!" → scan (ch "(" :: ch "?" :: x :: s) false count = scan s false count.
Proof.
  change (js ":-ims=!") with [ch ":"; ch "-"; ch "i"; ch "m"; ch "s"; ch "="; ch "!"].
  rewrite !elem_of_cons, elem_of_nil.
  by intros [-> |[-> |[-> |[-> |[-> |[-> |[-> |[]]]]]]]].
Qed.

Lemma scan_lookbehind (negated : bool) s count :
  scan (ch "(" :: ch "?" :: ch "<" :: (if negated then ch "!" else ch "=") :: s) false count
  = scan s false count.
Proof. by destruct negated. Qed.

Lemma mask_plain mask : Forall plain (print_mask mask).
Proof.
  unfold print_mask. rewrite !Forall_app.
  split_and!; (case_match; [constructor|]; apply Forall_singleton; done).
Qed.

Lemma modifiers_scan add remove s count :
  masks_ok add remove = true →
  scan (ch "(" :: ch "?" :: print_modifiers add remove ++ s) false count = scan s false count.
Proof.
  intros Hok. unfold print_modifiers, masks_ok in *. rewrite !andb_true_iff in Hok.
  destruct Hok as [[[Ha%bool_decide_eq_true_1 Hr%bool_decide_eq_true_1] _] Hz%negb_true_iff].
  rewrite <- !app_assoc. rewrite !elem_of_cons, elem_of_nil in Ha, Hr.
  destruct Ha as [-> |[-> |[-> |[-> |[-> |[-> |[-> |[-> |[]]]]]]]]];
  destruct Hr as [-> |[-> |[-> |[-> |[-> |[-> |[-> |[-> |[]]]]]]]]]; try discriminate Hz;
  reflexivity.
Qed.

Lemma plain_lazy (greedy : bool) : Forall plain (print_lazy greedy).
Proof. destruct greedy; [constructor|]. by apply Forall_singleton. Qed.

Lemma plain_bounds min max :
  0 ≤ min → max = -1 ∨ min ≤ max → Forall plain (print_bounds min max).
Proof.
  intros Hmin Hor. unfold print_bounds. rewrite !Forall_app.
  split_and!; [by apply Forall_singleton|by apply digits_plain| |by apply Forall_singleton].
  destruct (max =? min); [constructor|]. apply Forall_cons. split; [done|].
  destruct (Z.eqb_spec max (-1)); [constructor|]. apply digits_plain. lia.
Qed.

(** The scan counts the groups of the text of a tree and passes over the rest. *)
Lemma scan_print total n s count :
  printable total n = true →
  scan (print n ++ s) false count = scan s false (count + len (group_indices n)).
Proof.
  revert s count. induction n using ReNode_ind'; intros t count Hp; try done; cbn [group_indices];
    rewrite ?leaf_len.
  - apply scan_unit. cbn in Hp. unfold unit_b in Hp. by rewrite andb_true_iff, !Z.leb_le in Hp.
  - by apply scan_one.
  - by apply scan_class.
  - by apply scan_one.
  - by apply scan_one.
  - apply scan_escape.
  - cbn in Hp. rewrite !andb_true_iff, !Z.leb_le, Z.ltb_lt in Hp.
    destruct (js_num_digits i) as (_ & _ & d & u & Ed & _); [lia|lia|]. cbn [print].
    pose proof (digits_plain i ltac:(lia)) as Hpl. rewrite Ed in Hpl |- *. cbn [app].
    rewrite scan_escape. apply scan_plain. by apply Forall_cons in Hpl as [_ ?].
  - cbn [print]. rewrite <- !app_assoc. destruct b; cbn [look_head app].
    + rewrite scan_lookbehind, IHn by done. by apply scan_one.
    + rewrite scan_special by (destruct neg; member). rewrite IHn by done.
      by apply scan_one.
  - cbn in Hp. apply andb_true_iff in Hp as [Hm Hp]. cbn [print]. rewrite <- !app_assoc. cbn [app].
    rewrite modifiers_scan, IHn by done. by apply scan_one.
  - cbn in Hp. rewrite !andb_true_iff in Hp. destruct Hp as [_ Hp]. cbn [print].
    revert t count. induction H as [|p ps Hhd _ IH]; intros t count.
    { cbn. by rewrite leaf_len. }
    cbn [forallb map concat] in *. apply andb_true_iff in Hp as [Hp1 Hp].
    rewrite <- app_assoc, Hhd, IH by done. f_equal. unfold len. rewrite length_app. lia.
  - cbn in Hp. rewrite !andb_true_iff in Hp. destruct Hp as [[Hlen _] Hp]. cbn [print].
    destruct H as [|o os Ho Hos]; [done|]. rewrite join_with_bars, <- app_assoc.
    cbn [forallb map concat] in *. apply andb_true_iff in Hp as [Hp1 Hp]. rewrite Ho by done.
    clear Hlen Ho Hp1. unfold len. rewrite length_app, Nat2Z.inj_add, Z.add_assoc.
    fold (len (group_indices o)). generalize (count + len (group_indices o)) as k. clear count.
    induction Hos as [|o2 os Ho2 _ IH]; intros k; [cbn; by rewrite Z.add_0_r|].
    cbn [forallb map concat] in *. apply andb_true_iff in Hp as [Hp2 Hp]. rewrite <- app_assoc. cbn [app].
    rewrite scan_one by done.
    rewrite Ho2, IH by done. f_equal. unfold len. rewrite length_app. lia.
  - cbn in Hp. unfold quantifiable in Hp. rewrite !andb_true_iff in Hp. cbn [print]. rewrite <- !app_assoc.
    rewrite IHn by tauto. rewrite app_assoc. apply scan_plain, Forall_cons.
    split; [done|apply plain_lazy].
  - cbn in Hp. unfold quantifiable in Hp. rewrite !andb_true_iff in Hp. cbn [print]. rewrite <- !app_assoc.
    rewrite IHn by tauto. rewrite app_assoc. apply scan_plain, Forall_cons.
    split; [done|apply plain_lazy].
  - cbn in Hp. rewrite !andb_true_iff in Hp. cbn [print]. rewrite <- !app_assoc.
    rewrite IHn by tauto. rewrite app_assoc. apply scan_plain, Forall_cons.
    split; [done|apply plain_lazy].
  - cbn in Hp. rewrite !andb_true_iff, !Z.leb_le, orb_true_iff, Z.eqb_eq, Z.leb_le in Hp.
    cbn [print]. rewrite <- !app_assoc. rewrite IHn by tauto. rewrite app_assoc. apply scan_plain, Forall_app.
    split; [apply plain_bounds; tauto|apply plain_lazy].
  - cbn in Hp. rewrite !andb_true_iff, negb_true_iff, Z.eqb_neq in Hp. destruct Hp as [[[_ Hi] _] Hp].
    cbn [print]. rewrite <- !app_assoc. destruct (Z.ltb_spec i 0) as [Hneg|Hpos]; cbn [app].
    + rewrite scan_special by member. rewrite IHn by done.
      by apply scan_one.
    + rewrite scan_capture by (eapply print_no_question; [exact Hp|done]). rewrite IHn by done.
      cbn [app]. rewrite scan_one by done. f_equal. unfold len. simpl. lia.
Qed.

Lemma print_length total n : printable total n = true → (nesting n ≤ length (print n))%nat.
Proof.
  induction n using ReNode_ind'; intros Hp; cbn [nesting print]; try lia.
  - rewrite !length_app. cbn [length]. specialize (IHn Hp). lia.
  - cbn in Hp. apply andb_true_iff in Hp as [_ Hp]. rewrite !length_app. cbn [length].
    specialize (IHn Hp). lia.
  - cbn in Hp. rewrite !andb_true_iff in Hp. destruct Hp as [_ Hp].
    induction H as [|p ps Hhd _ IH]; [done|]. cbn [forallb map concat max_list] in *.
    apply andb_true_iff in Hp as [Hp1 Hp]. rewrite length_app. specialize (Hhd Hp1). specialize (IH Hp).
    apply Nat.max_lub; [unfold id; lia|etrans; [exact IH|lia]].
  - cbn in Hp. rewrite !andb_true_iff in Hp. destruct Hp as [_ Hp].
    destruct H as [|o os Ho Hos]; [done|]. rewrite join_with_bars, length_app.
    cbn [forallb map max_list] in *. apply andb_true_iff in Hp as [Hp1 Hp]. specialize (Ho Hp1).
    assert (max_list (map nesting os) ≤ length (concat (map (λ n, ch "|" :: print n) os)))%nat.
    2:{ apply Nat.max_lub; [unfold id; lia|etrans; [eassumption|lia]]. }
    clear Ho. induction Hos as [|o2 os Ho2 _ IH]; [done|]. cbn [forallb map concat max_list] in *.
    apply andb_true_iff in Hp as [Hp2 Hp]. cbn [app length]. rewrite length_app.
    specialize (Ho2 Hp2). specialize (IH Hp).
    apply Nat.max_lub; [unfold id; lia|etrans; [exact IH|lia]].
  - cbn in Hp. rewrite !andb_true_iff in Hp. rewrite length_app. destruct Hp as [_ Hp]. specialize (IHn Hp). lia.
  - cbn in Hp. rewrite !andb_true_iff in Hp. rewrite length_app. destruct Hp as [_ Hp]. specialize (IHn Hp). lia.
  - cbn in Hp. rewrite !andb_true_iff in Hp. rewrite length_app. destruct Hp as [_ Hp]. specialize (IHn Hp). lia.
  - cbn in Hp. rewrite !andb_true_iff in Hp. rewrite length_app. destruct Hp as [_ Hp]. specialize (IHn Hp). lia.
  - cbn in Hp. rewrite !andb_true_iff in Hp. rewrite !length_app. cbn [length]. destruct Hp as [_ Hp]. specialize (IHn Hp). lia.
Qed.

Lemma v_implies_unicode flags :
  unicode_flags flags = false → negb (flags .& RE_FLAG_V =? 0) = false.
Proof.
  unfold unicode_flags. rewrite !negb_false_iff, !Z.eqb_eq. intros Hf.
  change (RE_FLAG_U .| RE_FLAG_V) with (Z.lor RE_FLAG_U RE_FLAG_V) in Hf. unfold js_and in *.
  change (to_int32 (Z.lor RE_FLAG_U RE_FLAG_V)) with (Z.lor (to_int32 RE_FLAG_U) (to_int32 RE_FLAG_V)) in Hf.
  rewrite Z.land_lor_distr_r in Hf. by apply Z.lor_eq_0_iff in Hf as [_ Hf].
Qed.

(** C5: Parsing inverts printing.  For every tree that the grammar without u/v
    mode can denote - units, classes, assertions, lookarounds in all four forms,
    modifier groups, capturing and plain groups nested to any depth, greedy and
    lazy quantifiers and bounds, concatenations and alternations, and backreferences,
    forward ones included - the parser applied to the text of the tree returns
    exactly that tree, with the number of its groups. *)
Theorem parse_print `{RangeEnumerator, StringPropertyData} n flags k
    (Hp : printable k n = true) (Hk : group_indices n = seqZ 1 k) (Hk0 : 0 ≤ k)
    (Hflags : unicode_flags flags = false) :
  parsePattern (print n) flags = Ok {| root := n; numCaptures := k; p_groupNames := [] |}.
Proof.
  assert (len (group_indices n) = k) as Hlen by (rewrite Hk; unfold len; rewrite length_seqZ; lia).
  unfold parsePattern. fold (unicode_flags flags). rewrite Hflags.
  assert (scanGroups (print n) = Ok (k, [])) as ->.
  { change (scanGroups (print n)) with (scan (print n) false 0). rewrite <- (app_nil_r (print n)).
    rewrite (scan_print k) by done. by rewrite Hlen. }
  cbn [mbind result_bind fst snd].
  assert (negb (flags .& RE_FLAG_V =? 0) = false) as ->.
  { apply v_implies_unicode. done. }
  set (st := Build_PState _ _ _).
  destruct (pb_all _ _ _ _ _ _ (print_back (print n) k n (length (print n)) 0 [] Hp
    (print_length k n Hp) ltac:(unfold numbered; by rewrite Hlen) ltac:(lia)) ltac:(done) st)
    as (st' & E & Hst' & Hc' & _); [by split; [|rewrite app_nil_r]|done|].
  assert (parse (print n) k [] false false st = Ok (n, st')) as ->.
  { unfold parse, mbind, parser_bind, get. rewrite E. by rewrite (before_head _ _ _ Hst'). }
  cbn. by rewrite Hc', Hlen.
Qed.

#[local] Instance no_ranges : RangeEnumerator := λ _ _, Ok [].
#[local] Instance no_table : StringPropertyData := λ _, js "4p".

(** [/(?:(a|[^b-d])*?)\1{2,3}(?<!x)(?i-s:.)?$/] *)
Definition printed_tree : ReNode :=
  NConcat [NGroup (NStar (NGroup (NAlt [NChar 97; NClass [(98, 100)] true]) 1 None) false) (-1) None;
           NRepeat (NBackref 1) 2 3 true; NLookaround (NChar 120) true true;
           NOpt (NModGroup RE_FLAG_I RE_FLAG_S NAny) true; NEol].

Lemma parse_print_witness :
  print printed_tree = js "(?:(\u0061|[^\u0062-\u0064])*?)\1{2,3}(?<!\u0078)(?i-s:.)?$" ∧
  parsePattern (print printed_tree) RE_FLAG_G
    = Ok {| root := printed_tree; numCaptures := 1; p_groupNames := [] |}.
Proof. split; [vm_compute; reflexivity|]. by apply (parse_print printed_tree RE_FLAG_G 1). Defined.
