(* ===== verification/ReSpec.v ===== *)
(** What a pattern means: a matcher on the syntax tree in continuation-passing
    style, the way ECMAScript defines matching (section 22.2.2), independent of
    the bytecode.

    [Ecma] is the specification: its quantifiers are the RepeatMatcher of the standard.
    [Lowered] differs in the bounded quantifiers alone: it reads them as the copies
    that the compiler expands them to, and so says what the machines run, not what a
    pattern means; ReExact.v says where the two agree. *)

From S2P Require Import Prelude ReBytecode ReCaseFold ReCompile ReVm.

(** A continuation: what is left to match at a position, with the captures. *)
Abbreviation cont := (Z → list Z → option (list Z)).

Record modes := Modes { m_ignoreCase : bool; m_dotAll : bool; m_multiline : bool }.

(** How bounded quantifiers are read: as compiled, or as the standard has them. *)
Inductive semantics := Lowered | Ecma.

Definition or_else {A} (x y : option A) : option A :=
  match x with Some a => Some a | None => y end.

(** The lookbehind body is compiled reversed and run backwards. *)
Definition orient (rev : bool) (n : ReNode) : ReNode := if rev then reverseNode n else n.
Definition dir_of (rev : bool) : Z := if rev then -1 else 1.

Section spec.
Context (toUpperCase : jsstr → jsstr) (uni : bool) (input : jsstr) (sem : semantics).
Abbreviation canon := (canonicalizeLegacy toUpperCase).

(** A literal and a class against a code unit [c] (CharacterSetMatcher). *)
Definition char_ok (fl : modes) (code c : Z) : bool :=
  if negb (m_ignoreCase fl) then c =? code
  else if uni then asciiFold c =? asciiFold code
  else canon c =? canon code.

Definition swap_case (c : Z) : Z :=
  if (0x41 <=? c) && (c <=? 0x5a) then c + 0x20
  else if (0x61 <=? c) && (c <=? 0x7a) then c - 0x20 else c.

Definition class_ok (fl : modes) (ranges : list (Z * Z)) (negated : bool) (c : Z) : bool :=
  xorb negated
    (if negb (m_ignoreCase fl) then in_ranges c ranges
     else if uni then in_ranges c ranges || in_ranges (swap_case c) ranges
     else existsb (λ u, in_ranges u ranges && (canon u =? canon c)) units).

(** Consume one unit; consume one code point. *)
Definition m_unit (dir : Z) (p : Z → bool) (k : cont) : cont := λ sp cs,
  if inBounds input dir sp && p (unit_at input dir sp) then k (sp + dir) cs else None.

Definition m_code_point (dir : Z) (p : Z → bool) (k : cont) : cont := λ sp cs,
  if inBounds input dir sp then
    match read_code_point input dir sp with
    | Some (cp, width) => if p cp then k (sp + dir * width) cs else None
    | None => None
    end
  else None.

Definition m_assert (op a : Z) (k : cont) : cont := λ sp cs,
  if assertionHolds op a input sp then k sp cs else None.

Definition m_backref (dir : Z) (index : Z) (fold : bool) (k : cont) : cont := λ sp cs,
  match js_at cs (2 * index), js_at cs (2 * index + 1) with
  | Some gs, Some ge =>
      if (gs <? 0) || (ge <? 0) then k sp cs
      else
        let blen := ge - gs in
        if (if 0 <? dir then len input <? sp + blen else sp - blen <? 0) then None
        else if same_units input fold gs (if 0 <? dir then sp else sp - blen) blen
        then k (sp + dir * blen) cs else None
  | _, _ => None
  end.

(** Sequence and choice. *)
Definition m_seq (ms : list (cont → cont)) (k : cont) : cont := foldr (λ m k, m k) k ms.
Definition m_choice (ms : list (cont → cont)) (k : cont) : cont := λ sp cs,
  foldr (λ m r, or_else (m k sp cs) r) None ms.

(** The captures of a quantified subtree are reset on each iteration. *)
Definition reset (span : option (Z * Z)) (cs : list Z) : list Z :=
  match span with Some (lo, hi) => clear_slots cs (2 * lo) (2 * hi + 1) | None => cs end.

Definition prefer (greedy : bool) (more exit : option (list Z)) : option (list Z) :=
  if greedy then or_else more exit else or_else exit more.

(** RepeatMatcher with min = 0: an iteration that consumes nothing fails.  At
    most [n] iterations; a star needs no more than the length of the input. *)
Fixpoint m_upto (n : nat) (greedy : bool) (span : option (Z * Z)) (m : cont → cont) (k : cont)
  : cont := λ sp cs,
  match n with
  | O => k sp cs
  | S n' =>
      prefer greedy
        (m (λ sp' cs', if sp' =? sp then None else m_upto n' greedy span m k sp' cs')
           sp (reset span cs))
        (k sp cs)
  end.

Definition m_star := m_upto (S (length input)).

Definition m_opt (greedy : bool) (m : cont → cont) (k : cont) : cont := λ sp cs,
  prefer greedy (m k sp cs) (k sp cs).

(** A mandatory iteration. *)
Definition m_once (span : option (Z * Z)) (m : cont → cont) (k : cont) : cont := λ sp cs,
  m k sp (reset span cs).

Definition m_group (dir capIndex : Z) (m : cont → cont) (k : cont) : cont :=
  if capIndex <? 0 then m k
  else
    let first := if dir <? 0 then 2 * capIndex + 1 else 2 * capIndex in
    let second := if dir <? 0 then 2 * capIndex else 2 * capIndex + 1 in
    λ sp cs, m (λ sp' cs', k sp' (ta_set cs' second sp')) sp (ta_set cs first sp).

Definition m_look (negated : bool) (m : cont → cont) (k : cont) : cont := λ sp cs,
  match m (λ _ cs', Some cs') sp cs with
  | Some cs' => if negated then None else k sp cs'
  | None => if negated then k sp cs else None
  end.

Definition inner_modes (add remove : Z) (fl : modes) : modes :=
  Modes (scoped add remove RE_FLAG_I (m_ignoreCase fl)) (scoped add remove RE_FLAG_S (m_dotAll fl))
        (scoped add remove RE_FLAG_M (m_multiline fl)).

(** RepeatMatcher of the standard: every iteration resets the captures of the body,
    and an optional one that consumes nothing fails. *)
Definition m_repeat (min max : Z) (greedy : bool) (span : option (Z * Z)) (m : cont → cont)
    (k : cont) : cont :=
  m_seq (replicate (Z.to_nat min) (m_once span m))
    (if max =? -1 then m_star greedy span m k
     else m_upto (Z.to_nat (max - min)) greedy span m k).

(** What compileRepeat emits instead: bare copies of the body, then a star or bare
    optional copies.  This is no specification, but the reading that the compiled
    program has. *)
Definition m_copies (min max : Z) (greedy : bool) (span : option (Z * Z)) (m : cont → cont)
    (k : cont) : cont :=
  m_seq (replicate (Z.to_nat min) m)
    (if max =? -1 then m_star greedy span m k
     else m_seq (replicate (Z.to_nat (max - min)) (m_opt greedy m)) k).

Fixpoint matcher (fl : modes) (dir : Z) (n : ReNode) : cont → cont :=
  match n with
  | NChar code => m_unit dir (char_ok fl code)
  | NAny => m_unit dir (λ c, m_dotAll fl || negb (isLineTerminator c))
  | NUdot => m_code_point dir (λ c, in_ranges c (dotCpRanges (m_dotAll fl)))
  | NClass ranges negated => m_unit dir (class_ok fl ranges negated)
  | NCpClass ranges negated => m_code_point dir (λ c, xorb negated (in_ranges c ranges))
  | NBol => m_assert ReOp.BOL (bit (m_multiline fl))
  | NEol => m_assert ReOp.EOL (bit (m_multiline fl))
  | NWordBoundary negated => m_assert ReOp.WBOUND (bit negated)
  | NBackref index => m_backref dir index (m_ignoreCase fl)
  | NLookaround n negated behind => m_look negated (matcher fl (dir_of behind) n)
  | NModGroup add remove n => matcher (inner_modes add remove fl) dir n
  | NConcat parts =>
      let ms := map (matcher fl dir) parts in m_seq (if dir <? 0 then reverse ms else ms)
  | NAlt options => m_choice (map (matcher fl dir) options)
  | NStar n greedy => m_star greedy (captureSpan n) (matcher fl dir n)
  | NPlus n greedy => λ k, m_once (captureSpan n) (matcher fl dir n)
                             (m_star greedy (captureSpan n) (matcher fl dir n) k)
  | NOpt n greedy =>
      match sem with
      | Lowered => m_opt greedy (matcher fl dir n)
      | Ecma => m_upto 1 greedy (captureSpan n) (matcher fl dir n)
      end
  | NRepeat n min max greedy =>
      match sem with
      | Lowered => m_copies min max greedy (captureSpan n) (matcher fl dir n)
      | Ecma => m_repeat min max greedy (captureSpan n) (matcher fl dir n)
      end
  | NGroup n capIndex _ => m_group dir capIndex (matcher fl dir n)
  end.

(** An anchored match of a whole pattern at [start]: all groups unset, and the
    span of the match in slots 0 and 1. *)
Definition match_at (fl : modes) (parsed : ParsedRegex) (start : Z) : option (list Z) :=
  matcher fl 1 (root parsed) (λ sp cs, Some (ta_set cs 1 sp)) start
    (ta_set (fresh_caps (2 * (numCaptures parsed + 1))) 0 start).
End spec.

(** * Matchers and their continuations *)

(** Relations on results that matching respects. *)
Class ResultRel (R : option (list Z) → option (list Z) → Prop) : Prop := {
  rel_none : R None None;
  rel_or_else x x' y y' : R x x' → R y y' → R (or_else x y) (or_else x' y') }.

#[global] Instance eq_result_rel : ResultRel eq.
Proof. constructor; [reflexivity|]. by intros x x' y y' -> ->. Qed.

(** Whatever fails on the left fails on the right. *)
Definition fails_le (x y : option (list Z)) : Prop := x = None → y = None.

#[global] Instance fails_le_result_rel : ResultRel fails_le.
Proof.
  split; [done|]. unfold fails_le. intros x x' y y' Hx Hy. destruct x; [done|].
  intros H. simpl in *. rewrite Hx by done. by apply Hy.
Qed.

#[export] Hint Resolve eq_result_rel fails_le_result_rel : core.

#[global] Instance fails_le_refl : Reflexive fails_le.
Proof. intros x H. exact H. Qed.

Section related.
Context (input : jsstr).

Definition valid (sp : Z) : Prop := 0 ≤ sp ≤ len input.

(** The positions at which a matcher of direction [dir] that started at [sp]
    may call its continuation. *)
Definition after (strict : bool) (dir sp sp' : Z) : Prop :=
  valid sp' ∧ 0 ≤ dir * (sp' - sp) ∧ (strict = true → sp' ≠ sp).

Definition related (R : option (list Z) → option (list Z) → Prop) (strict : bool) (dir : Z)
    (m m' : cont → cont) : Prop :=
  ∀ k k' sp cs, valid sp → (∀ sp' cs', after strict dir sp sp' → R (k sp' cs') (k' sp' cs')) →
    R (m k sp cs) (m' k' sp cs).

Lemma after_refl dir sp : valid sp → after false dir sp sp.
Proof. intros. split; [done|]. split; [lia|done]. Qed.

Lemma after_weaken (s s' : bool) dir sp sp' :
  (s' = true → s = true) → after s dir sp sp' → after s' dir sp sp'.
Proof. intros Hs (H1 & H2 & H3). split_and!; auto. Qed.

Lemma after_trans (s1 s2 : bool) dir sp sp1 sp2 :
  dir = 1 ∨ dir = -1 →
  after s1 dir sp sp1 → after s2 dir sp1 sp2 → after (s1 || s2) dir sp sp2.
Proof.
  intros Hd (H1 & H2 & H3) (H4 & H5 & H6). split; [done|].
  split; [lia|]. intros Hs ->. apply orb_true_iff in Hs as [Hs|Hs];
    [apply (H3 Hs)|apply (H6 Hs)]; destruct Hd; lia.
Qed.

Lemma related_weaken R (s s' : bool) dir m m' :
  (s' = true → s = true) → related R s dir m m' → related R s' dir m m'.
Proof.
  intros Hs Hm k k' sp cs Hsp Hk. apply Hm; [done|]. intros sp' cs' Ha. apply Hk.
  by eapply after_weaken.
Qed.

(** The remaining length of the input in a direction. *)
Definition remaining (dir sp : Z) : nat :=
  Z.to_nat (if 0 <? dir then len input - sp else sp).

Lemma remaining_after dir sp sp' :
  dir = 1 ∨ dir = -1 → after true dir sp sp' → (remaining dir sp' < remaining dir sp)%nat.
Proof.
  unfold remaining. intros Hd ((? & ?) & ? & Hne). specialize (Hne eq_refl).
  destruct Hd as [-> | ->]; simpl; lia.
Qed.

Lemma remaining_bound dir sp : valid sp → (remaining dir sp < S (length input))%nat.
Proof. unfold remaining, valid, len. intros. destruct (0 <? dir); lia. Qed.

Lemma in_bounds_after dir sp :
  dir = 1 ∨ dir = -1 → valid sp → inBounds input dir sp = true → after true dir sp (sp + dir).
Proof.
  unfold inBounds, after, valid. intros [-> | ->] Hsp; simpl; intros ?%Z.ltb_lt; lia.
Qed.

Context (Hunits : Forall (λ c, 0 ≤ c ≤ 0xffff) input).

Lemma charCodeAt_bound sp : charCodeAt input sp ≤ 0xffff.
Proof.
  unfold charCodeAt. destruct (js_at input sp) as [c|] eqn:E; [|lia].
  apply js_at_Some in E as [_ E]. eapply Forall_lookup_1 in Hunits; [|exact E]. simpl in *. lia.
Qed.

Lemma unit_at_range dir sp : dir = 1 ∨ dir = -1 → valid sp → inBounds input dir sp = true →
  0 ≤ unit_at input dir sp ≤ 0xffff.
Proof.
  unfold unit_at, inBounds, valid, charCodeAt. intros Hd Hsp Hb.
  destruct (js_at input (if 0 <? dir then sp else sp - 1)) as [c|] eqn:E.
  - apply js_at_Some in E as [_ E]. eapply Forall_lookup_1 in Hunits; [|exact E]. done.
  - exfalso. assert (¬ is_Some (js_at input (if 0 <? dir then sp else sp - 1))) as Hn
      by (rewrite E; by intros [? ?]).
    apply Hn, js_at_is_Some. unfold len in *.
    destruct Hd as [-> | ->]; simpl in *; apply Z.ltb_lt in Hb; lia.
Qed.

Lemma forward_pair sp : 0xffff < forwardCodePoint input sp → sp + 1 < len input.
Proof.
  unfold forwardCodePoint. pose proof (charCodeAt_bound sp).
  destruct (is_lead (charCodeAt input sp) && (sp + 1 <? len input)) eqn:E.
  - intros _. apply andb_true_iff in E as [_ E]. by apply Z.ltb_lt.
  - destruct (_ && _ && _); lia.
Qed.

Lemma code_point_after dir sp cp width :
  dir = 1 ∨ dir = -1 → valid sp → inBounds input dir sp = true →
  read_code_point input dir sp = Some (cp, width) → after true dir sp (sp + dir * width).
Proof.
  unfold read_code_point, inBounds, after, valid. intros [-> | ->] Hsp; simpl.
  - intros Hb%Z.ltb_lt. destruct (Z.ltb_spec (forwardCodePoint input sp) 0); [done|].
    intros [= <- <-]. destruct (Z.ltb_spec 0xffff (forwardCodePoint input sp)) as [Hp|Hp]; [|lia].
    apply forward_pair in Hp. lia.
  - intros Hb%Z.ltb_lt. destruct (is_trail _ && _) eqn:E.
    + apply andb_true_iff in E as [_ E%Z.ltb_lt]. destruct (is_lead _); intros [= <- <-]; lia.
    + destruct (_ && _ && _); [done|]. intros [= <- <-]. lia.
Qed.

(** * The combinators respect related continuations *)

Section combinators.
Context (R : option (list Z) → option (list Z) → Prop) `{!ResultRel R} (dir : Z).
Context (Hdir : dir = 1 ∨ dir = -1).

Lemma unit_related p : related R true dir (m_unit input dir p) (m_unit input dir p).
Proof.
  intros k k' sp cs Hsp Hk. unfold m_unit.
  destruct (inBounds input dir sp) eqn:E; simpl; [|apply rel_none].
  destruct (p _); [|apply rel_none]. apply Hk. by apply in_bounds_after.
Qed.

Lemma code_point_related p :
  related R true dir (m_code_point input dir p) (m_code_point input dir p).
Proof.
  intros k k' sp cs Hsp Hk. unfold m_code_point.
  destruct (inBounds input dir sp) eqn:E; [|apply rel_none].
  destruct (read_code_point input dir sp) as [[cp width]|] eqn:Er; [|apply rel_none].
  destruct (p cp); [|apply rel_none]. apply Hk. by eapply code_point_after.
Qed.

Lemma assert_related op a : related R false dir (m_assert input op a) (m_assert input op a).
Proof.
  intros k k' sp cs Hsp Hk. unfold m_assert. destruct (assertionHolds op a input sp);
    [apply Hk, after_refl; done|apply rel_none].
Qed.

Lemma prefer_related greedy x x' y y' :
  R x x' → R y y' → R (prefer greedy x y) (prefer greedy x' y').
Proof. intros. destruct greedy; by apply rel_or_else. Qed.

Lemma seq_related ss ms ms' :
  Forall3 (λ s m m', related R s dir m m') ss ms ms' →
  related R (existsb id ss) dir (m_seq ms) (m_seq ms').
Proof.
  induction 1 as [|s m m' ss ms ms' Hm _ IH]; intros k k' sp cs Hsp Hk.
  - apply Hk. by apply after_refl.
  - cbn [m_seq foldr]. apply Hm; [done|]. intros sp1 cs1 Ha1.
    apply IH; [apply Ha1|]. intros sp2 cs2 Ha2. apply Hk. simpl. by eapply after_trans.
Qed.

Lemma choice_related s ms ms' :
  Forall2 (related R s dir) ms ms' → related R s dir (m_choice ms) (m_choice ms').
Proof.
  intros Hms k k' sp cs Hsp Hk. unfold m_choice.
  induction Hms as [|m m' ms ms' Hm _ IH]; [apply rel_none|].
  apply rel_or_else; [by apply Hm|apply IH].
Qed.

Lemma upto_related n greedy span s m m' :
  related R s dir m m' → related R false dir (m_upto n greedy span m) (m_upto n greedy span m').
Proof.
  intros Hm. induction n as [|n IH]; intros k k' sp cs Hsp Hk; cbn [m_upto].
  - by apply Hk, after_refl.
  - apply prefer_related; [|by apply Hk, after_refl]. apply Hm; [done|]. intros sp1 cs1 Ha1.
    destruct (sp1 =? sp); [apply rel_none|]. apply IH; [apply Ha1|].
    intros sp2 cs2 Ha2. apply Hk. eapply (after_weaken (s || false)); [done|].
    by eapply after_trans.
Qed.

Lemma once_related span s m m' :
  related R s dir m m' → related R s dir (m_once span m) (m_once span m').
Proof. intros Hm k k' sp cs Hsp Hk. by apply Hm. Qed.

Lemma group_related i s m m' :
  related R s dir m m' → related R s dir (m_group dir i m) (m_group dir i m').
Proof.
  intros Hm. unfold m_group. destruct (i <? 0); [done|]. intros k k' sp cs Hsp Hk.
  apply Hm; [done|]. intros. by apply Hk.
Qed.

Lemma look_related negated s dir' m m' :
  related eq s dir' m m' → related R false dir (m_look negated m) (m_look negated m').
Proof.
  intros Hm k k' sp cs Hsp Hk. unfold m_look.
  rewrite (Hm (λ _ cs', Some cs') (λ _ cs', Some cs')) by done.
  destruct (m' _ sp cs), negated; try apply rel_none; apply Hk, after_refl; done.
Qed.

Lemma opt_related greedy s m m' :
  related R s dir m m' → related R false dir (m_opt greedy m) (m_opt greedy m').
Proof.
  intros Hm k k' sp cs Hsp Hk. apply prefer_related; [|by apply Hk, after_refl].
  apply Hm; [done|]. intros sp1 cs1 Ha1. apply Hk. by apply (after_weaken s).
Qed.
End combinators.
End related.

(** * Trees the theorems cover *)

(** What the parser guarantees of its trees - group indices below the number of
    groups [nG], ordered ranges, code units, alternations with an option, bounds that are not
    negative - and
    no backreference. *)
Fixpoint well_formed (nG : Z) (n : ReNode) : bool :=
  match n with
  | NChar code => (0 <=? code) && (code <=? 0xffff)
  | NClass ranges _ | NCpClass ranges _ => forallb (λ r, r.1 <=? r.2) ranges
  | NBackref _ => false
  | NLookaround n _ _ | NModGroup _ _ n | NStar n _ | NPlus n _ | NOpt n _ => well_formed nG n
  | NRepeat n min max _ => (0 <=? min) && well_formed nG n
  | NGroup n capIndex _ => (capIndex <? nG) && well_formed nG n
  | NConcat ns => forallb (well_formed nG) ns
  | NAlt ns => (0 <? length ns)%nat && forallb (well_formed nG) ns
  | _ => true
  end.

Lemma reverseNode_reverse n : reverseNode (reverseNode n) = n.
Proof.
  induction n using ReNode_ind'; cbn [reverseNode]; try congruence; f_equal.
  - change (map reverseNode (reverse (map reverseNode ps)))
      with (reverseNode <$> reverse (map reverseNode ps)).
    rewrite fmap_reverse, reverse_involutive. by induction H as [|p ps Hp _ IH]; simpl; f_equal.
  - by induction H as [|p ps Hp _ IH]; simpl; f_equal.
Qed.

Lemma well_formed_reverse nG n : well_formed nG (reverseNode n) = well_formed nG n.
Proof.
  induction n using ReNode_ind'; cbn [reverseNode well_formed]; try done; try congruence.
  - apply eq_true_iff_eq. rewrite !forallb_forall. setoid_rewrite <- list_elem_of_In.
    rewrite list.Forall_forall in H. setoid_rewrite elem_of_reverse.
    setoid_rewrite (list_elem_of_fmap reverseNode ps). split.
    + intros Hall p Hp. rewrite <- H by done. apply Hall. by exists p.
    + intros Hall q (p & -> & Hp). rewrite H by done. by apply Hall.
  - rewrite length_map. f_equal. by induction H as [|p ps Hp _ IH]; simpl; f_equal.
Qed.

Section matcher_facts.
Context (toUpperCase : jsstr → jsstr) (uni : bool) (input : jsstr).
Context (Hunits : Forall (λ c, 0 ≤ c ≤ 0xffff) input).
Abbreviation matcher' sem := (matcher toUpperCase uni input sem).

Lemma m_seq_app ms t k : m_seq (ms ++ [t]) k = m_seq ms (t k).
Proof. unfold m_seq. by rewrite foldr_app. Qed.

Lemma Forall3_map {A B C D} (P : B → C → D → Prop) (f : A → B) (g : A → C) (h : A → D) l :
  Forall (λ x, P (f x) (g x) (h x)) l → Forall3 P (map f l) (map g l) (map h l).
Proof. induction 1; simpl; by constructor. Qed.

Lemma Forall3_reverse {B C D} (P : B → C → D → Prop) l1 l2 l3 :
  Forall3 P l1 l2 l3 → Forall3 P (reverse l1) (reverse l2) (reverse l3).
Proof.
  induction 1 as [|x y z l1 l2 l3 Hp _ IH]; [constructor|].
  rewrite !reverse_cons. apply Forall3_app; [done|]. by repeat constructor.
Qed.

Lemma existsb_reverse (l : list bool) : existsb id (reverse l) = existsb id l.
Proof.
  induction l as [|b l IH]; [done|]. rewrite reverse_cons, existsb_app. simpl.
  rewrite IH, orb_false_r. apply orb_comm.
Qed.

Lemma strict_concat ns : existsb id (map (λ n, negb (canMatchEmpty n)) ns)
  = negb (forallb canMatchEmpty ns).
Proof. induction ns as [|n ns IH]; [done|]. simpl. rewrite IH, negb_andb. done. Qed.

Lemma existsb_replicate n s : existsb id (replicate n s) = (0 <? Z.of_nat n) && s.
Proof.
  induction n as [|n IH]; [done|]. cbn [replicate existsb]. rewrite IH. unfold id.
  destruct s; [done|]. by rewrite !andb_false_r.
Qed.

Lemma Forall3_replicate {A B C} (P : A → B → C → Prop) n x y z :
  P x y z → Forall3 P (replicate n x) (replicate n y) (replicate n z).
Proof. intros. induction n; simpl; by constructor. Qed.

Lemma Forall_forallb_impl {A} (P Q : A → Prop) (f : A → bool) l :
  Forall P l → forallb f l = true → (∀ x, P x → f x = true → Q x) → Forall Q l.
Proof.
  intros HP Hf HPQ. induction HP as [|x l Hx _ IH]; [constructor|]. simpl in Hf.
  apply andb_true_iff in Hf as [Hfx Hf]. constructor; auto.
Qed.

Lemma Forall_forallb_and {A} (P : A → Prop) (f : A → bool) l :
  Forall P l → forallb f l = true → Forall (λ x, P x ∧ f x = true) l.
Proof. intros HP Hf. by apply (Forall_forallb_impl _ _ _ _ HP Hf). Qed.

Section rel.
Context (R : option (list Z) → option (list Z) → Prop) `{!ResultRel R} (dir : Z).
Context (Hdir : dir = 1 ∨ dir = -1).

(** Concatenation, given the parts in order or in reverse. *)
Lemma concat_related ns (f g : ReNode → cont → cont) :
  Forall (λ n, related input R (negb (canMatchEmpty n)) dir (f n) (g n)) ns →
  related input R (negb (forallb canMatchEmpty ns)) dir
    (m_seq (if dir <? 0 then reverse (map f ns) else map f ns))
    (m_seq (if dir <? 0 then reverse (map g ns) else map g ns)).
Proof.
  intros Hns. apply (Forall3_map (λ s m m', related input R s dir m m')
    (λ n, negb (canMatchEmpty n)) f g) in Hns.
  rewrite <- strict_concat. destruct (dir <? 0); [|by apply seq_related].
  rewrite <- existsb_reverse. apply seq_related; [done..|]. by apply Forall3_reverse.
Qed.

Lemma alt_related ns (f g : ReNode → cont → cont) :
  Forall (λ n, related input R (negb (canMatchEmpty n)) dir (f n) (g n)) ns →
  related input R (negb (existsb canMatchEmpty ns)) dir
    (m_choice (map f ns)) (m_choice (map g ns)).
Proof.
  intros Hns. apply choice_related; [done..|].
  assert (∀ s : bool, (s = true → negb (existsb canMatchEmpty ns) = true) →
    Forall2 (related input R s dir) (map f ns) (map g ns)) as H; [|by apply H].
  induction Hns as [|n ns Hn _ IH]; intros s Hs; simpl; constructor.
  - apply (related_weaken _ _ (negb (canMatchEmpty n))); [|done].
    intros H. apply Hs in H. simpl in H. rewrite negb_orb in H. by apply andb_true_iff in H as [??].
  - apply IH. intros H. apply Hs in H. simpl in H. rewrite negb_orb in H.
    by apply andb_true_iff in H as [??].
Qed.

(** Mandatory copies followed by an optional tail. *)
Lemma copies_related (n : nat) s m m' t t' :
  related input R s dir m m' → related input R false dir t t' →
  related input R ((0 <? Z.of_nat n) && s) dir
    (λ k, m_seq (replicate n m) (t k)) (λ k, m_seq (replicate n m') (t' k)).
Proof.
  intros Hm Ht. assert (related input R (existsb id (replicate n s ++ [false])) dir
    (m_seq (replicate n m ++ [t])) (m_seq (replicate n m' ++ [t']))) as H.
  { apply seq_related; [done..|]. apply Forall3_app; [by apply Forall3_replicate|].
    by repeat constructor. }
  rewrite existsb_app, existsb_replicate in H. simpl in H. rewrite orb_false_r in H.
  intros k k' sp cs Hsp Hk. rewrite <- !m_seq_app. by apply H.
Qed.

Lemma opts_related (n : nat) greedy s m m' :
  related input R s dir m m' →
  related input R false dir (m_seq (replicate n (m_opt greedy m)))
    (m_seq (replicate n (m_opt greedy m'))).
Proof.
  intros Hm. apply (related_weaken _ _ (existsb id (replicate n false))); [done|].
  apply seq_related; [done..|]. apply Forall3_replicate. by eapply opt_related.
Qed.

Lemma plus_related greedy span s m m' :
  related input R s dir m m' →
  related input R s dir (λ k, m_once span m (m_star input greedy span m k))
    (λ k, m_once span m' (m_star input greedy span m' k)).
Proof.
  intros Hm k k' sp cs Hsp Hk. apply Hm; [done|]. intros sp1 cs1 Ha1.
  pose proof (upto_related input R dir Hdir (S (length input)) greedy span s m m' Hm) as Hs.
  apply Hs; [apply Ha1|]. intros sp2 cs2 Ha2. apply Hk.
  rewrite <- (orb_false_r s). by eapply after_trans.
Qed.

Lemma repeat_strict min (s : bool) :
  0 ≤ min → negb ((min =? 0) || negb s) = (0 <? Z.of_nat (Z.to_nat min)) && s.
Proof.
  intros Hmin. rewrite negb_orb, negb_involutive, Z2Nat.id by done.
  by destruct (Z.eqb_spec min 0), (Z.ltb_spec 0 min); simpl; try done; lia.
Qed.

Lemma repeat_related min max greedy span s m m' :
  0 ≤ min → related input R s dir m m' →
  related input R (negb ((min =? 0) || negb s)) dir
    (m_repeat input min max greedy span m) (m_repeat input min max greedy span m').
Proof.
  intros Hmin Hm. rewrite repeat_strict by done.
  apply copies_related; [by apply once_related|]. destruct (max =? -1); by eapply upto_related.
Qed.

Lemma expansion_related min max greedy span s m m' :
  0 ≤ min → related input R s dir m m' →
  related input R (negb ((min =? 0) || negb s)) dir
    (m_copies input min max greedy span m) (m_copies input min max greedy span m').
Proof.
  intros Hmin Hm. rewrite repeat_strict by done. apply copies_related; [done|].
  destruct (max =? -1); [by eapply upto_related|by eapply opts_related].
Qed.
End rel.

(** Every matcher respects related continuations; one that cannot match empty
    calls its continuation only after it has moved. *)
Lemma matcher_related nG sem n :
  well_formed nG n = true → ∀ R, ResultRel R → ∀ fl dir, dir = 1 ∨ dir = -1 →
  related input R (negb (canMatchEmpty n)) dir (matcher' sem fl dir n) (matcher' sem fl dir n).
Proof.
  induction n using ReNode_ind'; cbn [well_formed canMatchEmpty matcher negb];
    intros Hwf R HR fl dir Hdir.
  - by apply unit_related.
  - by apply unit_related.
  - by apply unit_related.
  - by apply code_point_related.
  - by apply assert_related.
  - by apply assert_related.
  - by apply assert_related.
  - done.
  - eapply look_related; [done..|]. apply IHn; [done|apply _|by destruct b; [right|left]].
  - by apply IHn.
  - by apply code_point_related.
  - apply concat_related; [done..|]. apply (Forall_forallb_impl _ _ _ _ H Hwf).
    intros n Hn Hwfn. by apply Hn.
  - apply andb_true_iff in Hwf as [_ Hwf]. apply alt_related; [done..|]. apply (Forall_forallb_impl _ _ _ _ H Hwf).
    intros n Hn Hwfn. by apply Hn.
  - by eapply upto_related, IHn.
  - by apply plus_related, IHn.
  - destruct sem; [by eapply opt_related, IHn|by eapply upto_related, IHn].
  - apply andb_true_iff in Hwf as [Hmin%Z.leb_le Hwf].
    rewrite <- (negb_involutive (canMatchEmpty n)).
    destruct sem; [apply expansion_related|apply repeat_related]; try done; by apply IHn.
  - apply andb_true_iff in Hwf as [_ Hwf]. apply group_related. by apply IHn.
Qed.
End matcher_facts.
