(* ===== verification/ReExact.v ===== *)
(** Where the compiler's reading of bounded quantifiers is that of the standard.

    compileRepeat of src/codegen/regex/compile.ts expands [x{n,m}] into copies that do
    not reset the captures of [x], and [x?] has no check for an empty iteration.  The
    difference is not observable where every iteration sets all the slots that the
    standard resets ([overwritten]) and, for the optional part, [x] consumes and is
    tried greedily or at most once ([exact]). *)

From S2P Require Import Prelude ReBytecode ReCaseFold ReCompile ReVm ReSpec.

(** * Slots that every match of a tree writes *)

Fixpoint writes (i : Z) (n : ReNode) : bool :=
  match n with
  | NGroup n capIndex _ =>
      ((0 <=? capIndex) && ((i =? 2 * capIndex) || (i =? 2 * capIndex + 1))) || writes i n
  | NConcat ns => existsb (writes i) ns
  | NAlt ns => forallb (writes i) ns
  | NPlus n _ | NModGroup _ _ n => writes i n
  | NRepeat n min _ _ => (0 <? min) && writes i n
  | NLookaround n negated _ => negb negated && writes i n
  | _ => false
  end.

(** All the slots that a RepeatMatcher over the tree resets. *)
Definition overwritten (n : ReNode) : bool :=
  match captureSpan n with
  | Some (lo, hi) => forallb (λ i, writes i n) (seqZ (2 * lo) (2 * hi + 1 - 2 * lo + 1))
  | None => true
  end.

(** Where the lowering of a bounded quantifier is the quantifier of the standard: the
    body writes what the standard resets; where an iteration is optional the body
    consumes; and where more than one is, the quantifier is greedy. *)
Fixpoint exact (n : ReNode) : bool :=
  match n with
  | NLookaround n _ _ | NModGroup _ _ n | NStar n _ | NPlus n _ | NGroup n _ _ => exact n
  | NOpt n _ => overwritten n && negb (canMatchEmpty n) && exact n
  | NRepeat n min max greedy =>
      overwritten n
      && ((max =? -1) || (max <=? min)
          || (negb (canMatchEmpty n) && (greedy || (max - min =? 1))))
      && exact n
  | NConcat ns | NAlt ns => forallb exact ns
  | _ => true
  end.

(** * Captures that agree but for some slots *)

(** The slots of [A] may differ. *)
Definition agree (A : Z → Prop) (cs cs' : list Z) : Prop :=
  length cs = length cs' ∧ ∀ i, ¬ A i → js_at cs i = js_at cs' i.

Lemma agree_weaken (A B : Z → Prop) cs cs' : (∀ i, A i → B i) → agree A cs cs' → agree B cs cs'.
Proof. intros H [Hl Ha]. split; [done|]. auto. Qed.

Lemma agree_refl A cs : agree A cs cs.
Proof. done. Qed.

Lemma agree_eq (A : Z → Prop) cs cs' : (∀ i, ¬ A i) → agree A cs cs' → cs = cs'.
Proof.
  intros HA [Hl Ha]. apply list_eq. intros i. specialize (Ha (Z.of_nat i) (HA _)). by rewrite !js_at_nat in Ha.
Qed.

(** A slot written on both sides agrees. *)
Lemma agree_set A cs cs' j v : agree A cs cs' → agree (λ i, A i ∧ i ≠ j) (ta_set cs j v) (ta_set cs' j v).
Proof.
  intros [Hl Ha]. split; [by rewrite !length_ta_set|]. intros i Hi. rewrite !js_at_ta_set, Hl.
  case_decide as Hd; [done|]. destruct (decide (i = j)) as [->|Hne]; [|apply Ha; tauto].
  assert (∀ l : list Z, length l = length cs' → js_at l j = None) as Hn; [|by rewrite !Hn].
  intros l Hll. apply eq_None_not_Some. rewrite js_at_is_Some. lia.
Qed.

Lemma agree_write A cs cs' j v : agree A cs cs' → agree A (ta_set cs j v) (ta_set cs' j v).
Proof. intros H. eapply agree_weaken; [|by apply agree_set]. simpl. tauto. Qed.

Lemma agree_reset A span cs cs' : agree A cs cs' → agree A (reset span cs) (reset span cs').
Proof.
  destruct span as [[lo hi]|]; [|done]. cbn [reset]. unfold clear_slots.
  generalize (seqZ (2 * lo) (2 * hi + 1 - 2 * lo + 1)). intros l. revert cs cs'.
  induction l as [|i l IH]; intros cs cs' H; [done|]. cbn [foldl]. by apply IH, agree_write.
Qed.

(** Resetting changes the slots of the span alone. *)
Definition in_span (span : option (Z * Z)) (i : Z) : Prop :=
  match span with Some (lo, hi) => 2 * lo ≤ i ≤ 2 * hi + 1 | None => False end.

Lemma agree_span span cs : agree (in_span span) (reset span cs) cs.
Proof.
  destruct span as [[lo hi]|]; [|done]. cbn [reset in_span].
  assert (∀ l cs, Forall (λ i, 2 * lo ≤ i ≤ 2 * hi + 1) l →
    agree (λ i, 2 * lo ≤ i ≤ 2 * hi + 1) (foldl (λ c i, ta_set c i (-1)) cs l) cs) as H.
  { clear cs. intros l. induction l as [|i l IH]; intros cs Hl; [done|]. apply Forall_cons in Hl as [Hi Hl].
    destruct (IH (ta_set cs i (-1)) Hl) as [Hlen Ha]. cbn [foldl]. split; [by rewrite Hlen, length_ta_set|].
    intros j Hj. rewrite Ha by done. rewrite js_at_ta_set. case_decide as Hd; [lia|done]. }
  apply H, list.Forall_forall. intros i Hi%elem_of_seqZ. lia.
Qed.

(** Results that agree. *)
Definition alike (A : Z → Prop) (x y : option (list Z)) : Prop :=
  match x, y with
  | Some cs, Some cs' => agree A cs cs'
  | None, None => True
  | _, _ => False
  end.

#[global] Instance alike_result_rel A : ResultRel (alike A).
Proof. split; [done|]. intros [x|] [x'|] y y'; simpl; try done. Qed.

(** * Matchers do not read captures *)

(** The matcher does the same on captures that agree but for the slots of [A]; when it
    calls its continuation, the slots of [S] agree as well. *)
Definition blind (R : option (list Z) → option (list Z) → Prop) (W : Z → bool) (m : cont → cont) : Prop :=
  ∀ A k k' sp cs cs', agree A cs cs' →
    (∀ sp' ds ds', agree (λ i, A i ∧ W i = false) ds ds' → R (k sp' ds) (k' sp' ds')) →
    R (m k sp cs) (m k' sp cs').

Lemma blind_weaken R (W W' : Z → bool) m : (∀ i, W' i = true → W i = true) → blind R W m → blind R W' m.
Proof.
  intros HW Hm A k k' sp cs cs' Ha Hk. apply (Hm A); [done|]. intros sp' ds ds' Hd. apply Hk.
  eapply agree_weaken; [|exact Hd]. intros i [Hi Hw]. split; [done|]. destruct (W' i) eqn:E; [|done].
  by rewrite HW in Hw.
Qed.

Abbreviation none := (λ _ : Z, false).

Section blind.
Context (R : option (list Z) → option (list Z) → Prop) `{!ResultRel R}.

Lemma blind_skip : blind R none (λ k, k).
Proof. intros A k k' sp cs cs' Ha Hk. apply Hk. by eapply agree_weaken; [|exact Ha]. Qed.

Lemma blind_then (W W' : Z → bool) m m' :
  blind R W m → blind R W' m' → blind R (λ i, W i || W' i) (λ k, m (m' k)).
Proof.
  intros Hm Hm' A k k' sp cs cs' Ha Hk. apply (Hm A); [done|]. intros sp1 ds ds' Hd.
  apply (Hm' _ k k' _ _ _ Hd). intros sp2 es es' He. apply Hk. eapply agree_weaken; [|exact He].
  simpl. intros i [[Hi Hw] Hw']. by rewrite Hw, Hw'.
Qed.

Lemma blind_seq Ws ms : Forall2 (blind R) Ws ms → blind R (λ i, existsb (λ W, W i) Ws) (m_seq ms).
Proof.
  induction 1 as [|W m Ws ms Hm _ IH]; [apply blind_skip|]. exact (blind_then W _ m (m_seq ms) Hm IH).
Qed.

Lemma blind_once span W m : blind R W m → blind R W (m_once span m).
Proof. intros Hm A k k' sp cs cs' Ha Hk. apply (Hm A); [by apply agree_reset|done]. Qed.

Lemma blind_upto n greedy span W m : blind R W m → blind R none (m_upto n greedy span m).
Proof.
  intros Hm. induction n as [|n IH]; [apply blind_skip|]. intros A k k' sp cs cs' Ha Hk. cbn [m_upto].
  apply prefer_related; [done|..].
  - apply (Hm A); [by apply agree_reset|]. intros sp1 ds ds' Hd. destruct (sp1 =? sp); [apply rel_none|].
    eapply IH; [exact Hd|]. intros sp2 es es' He. apply Hk. eapply agree_weaken; [|exact He]. simpl. tauto.
  - apply Hk. by eapply agree_weaken; [|exact Ha].
Qed.

Lemma blind_choice Ws ms : Forall2 (blind R) Ws ms → blind R (λ i, forallb (λ W, W i) Ws) (m_choice ms).
Proof.
  intros Hms A k k' sp cs cs' Ha Hk. unfold m_choice.
  assert (∀ V : Z → bool, (∀ i, V i = true → forallb (λ W, W i) Ws = true) →
    (∀ sp' ds ds', agree (λ i, A i ∧ V i = false) ds ds' → R (k sp' ds) (k' sp' ds')) →
    R (foldr (λ m r, or_else (m k sp cs) r) None ms) (foldr (λ m r, or_else (m k' sp cs') r) None ms)) as H
    by (clear Hk; induction Hms as [|W m Ws ms Hm _ IH]; intros V HV Hk; [apply rel_none|]; cbn [foldr];
      apply rel_or_else;
      [ apply (blind_weaken R W V m) in Hm; [by apply (Hm A)|]; intros i Hi; apply HV, andb_true_iff in Hi; tauto
      | apply (IH V); [|done]; intros i Hi; apply HV, andb_true_iff in Hi; tauto ]).
  by apply (H (λ i, forallb (λ W, W i) Ws)).
Qed.

Lemma blind_group dir capIndex W m : blind R W m →
  blind R (λ i, ((0 <=? capIndex) && ((i =? 2 * capIndex) || (i =? 2 * capIndex + 1))) || W i) (m_group dir capIndex m).
Proof.
  intros Hm. unfold m_group. destruct (Z.ltb_spec capIndex 0) as [Hc|Hc].
  { rewrite (proj2 (Z.leb_gt 0 capIndex)) by lia. exact Hm. }
  rewrite (proj2 (Z.leb_le 0 capIndex)) by lia. intros A k k' sp cs cs' Ha Hk.
  apply (Hm (λ i, A i ∧ i ≠ if dir <? 0 then 2 * capIndex + 1 else 2 * capIndex)); [by apply agree_set|].
  intros sp1 ds ds' Hd. apply Hk.
  apply (agree_set _ _ _ (if dir <? 0 then 2 * capIndex else 2 * capIndex + 1) sp1) in Hd.
  eapply agree_weaken; [|exact Hd]. simpl. intros i [[[Hi H1] Hw] H2]. split; [done|]. rewrite Hw, orb_false_r.
  destruct (dir <? 0); apply orb_false_iff; rewrite !Z.eqb_neq; lia.
Qed.

Lemma blind_look negated W m :
  (∀ A, blind (alike A) W m) → blind R (λ i, negb negated && W i) (m_look negated m).
Proof.
  intros Hm A k k' sp cs cs' Ha Hk. unfold m_look.
  pose proof (Hm (λ i, A i ∧ W i = false) A (λ _ cs, Some cs) (λ _ cs, Some cs) sp cs cs' Ha (λ _ _ _ H, H)) as Hr.
  destruct (m _ sp cs) as [ds|], (m _ sp cs') as [ds'|]; try done; destruct negated; try apply rel_none.
  - apply Hk. done.
  - apply Hk. eapply agree_weaken; [|exact Ha]. done.
Qed.

Lemma blind_concat (dir : Z) Ws ms : Forall2 (blind R) Ws ms →
  blind R (λ i, existsb (λ W, W i) Ws) (m_seq (if dir <? 0 then reverse ms else ms)).
Proof.
  intros Hms. destruct (dir <? 0); [|by apply blind_seq]. apply Forall2_reverse, blind_seq in Hms.
  eapply blind_weaken; [|exact Hms]. intros i. rewrite !existsb_exists. setoid_rewrite <- list_elem_of_In.
  setoid_rewrite elem_of_reverse. done.
Qed.

Lemma blind_copies n span W m t : blind R W m → blind R none t →
  blind R (λ i, (0 <? Z.of_nat n) && W i) (λ k, m_seq (replicate n (m_once span m)) (t k)).
Proof.
  intros Hm Ht. eapply blind_weaken.
  2: { apply (blind_then (λ i, existsb (λ W, W i) (replicate n W)) none _ t); [|exact Ht].
       apply blind_seq. induction n; simpl; constructor; [by apply blind_once|done]. }
  intros i. destruct n as [|n]; [done|]. simpl. by intros ->.
Qed.

(** Steps that look at the input alone. *)
Lemma blind_unit input dir p : blind R none (m_unit input dir p).
Proof.
  intros A k k' sp cs cs' Ha Hk. unfold m_unit. destruct (_ && _); [|apply rel_none].
  apply Hk. by eapply agree_weaken; [|exact Ha].
Qed.

Lemma blind_code_point input dir p : blind R none (m_code_point input dir p).
Proof.
  intros A k k' sp cs cs' Ha Hk. unfold m_code_point. destruct (inBounds _ _ _); [|apply rel_none].
  destruct (read_code_point _ _ _) as [[cp width]|]; [|apply rel_none]. destruct (p cp); [|apply rel_none].
  apply Hk. by eapply agree_weaken; [|exact Ha].
Qed.

Lemma blind_assert input op a : blind R none (m_assert input op a).
Proof.
  intros A k k' sp cs cs' Ha Hk. unfold m_assert. destruct (assertionHolds _ _ _ _); [|apply rel_none].
  apply Hk. by eapply agree_weaken; [|exact Ha].
Qed.
End blind.

(** * The lowering *)

Section matcher_facts.
Context (toUpperCase : jsstr → jsstr) (uni : bool) (input : jsstr).
Context (Hunits : Forall (λ c, 0 ≤ c ≤ 0xffff) input).
Abbreviation matcher' sem := (matcher toUpperCase uni input sem).

Lemma existsb_map {A B} (f : A → B) p l : existsb p (map f l) = existsb (p ∘ f) l.
Proof. induction l as [|x l IH]; [done|]. simpl. by rewrite IH. Qed.

Lemma forallb_map {A B} (f : A → B) p l : forallb p (map f l) = forallb (p ∘ f) l.
Proof. induction l as [|x l IH]; [done|]. simpl. by rewrite IH. Qed.

(** A list of trees, each with the slots it writes. *)
Lemma blind_list R fl dir ns :
  Forall (λ n, blind R (λ i, writes i n) (matcher' Ecma fl dir n)) ns →
  Forall2 (blind R) (map (λ n i, writes i n) ns) (map (matcher' Ecma fl dir) ns).
Proof. induction 1; simpl; by constructor. Qed.

Lemma blind_matcher nG n : well_formed nG n = true → ∀ R, ResultRel R → ∀ fl dir,
  blind R (λ i, writes i n) (matcher' Ecma fl dir n).
Proof.
  induction n using ReNode_ind'; cbn [well_formed writes matcher]; intros Hwf R HR fl dir.
  - by apply blind_unit.
  - by apply blind_unit.
  - by apply blind_unit.
  - by apply blind_code_point.
  - by apply blind_assert.
  - by apply blind_assert.
  - by apply blind_assert.
  - done.
  - apply blind_look; [done|]. intros A. apply IHn; [done|apply _].
  - by apply IHn.
  - by apply blind_code_point.
  - assert (Forall (λ n, blind R (λ i, writes i n) (matcher' Ecma fl dir n)) ps) as Hl
      by (apply (Forall_forallb_impl _ _ _ _ H Hwf); intros n Hn Hwfn; by apply Hn).
    eapply blind_weaken; [|by apply blind_concat, blind_list, Hl]. intros i. cbv beta. by rewrite existsb_map.
  - apply andb_true_iff in Hwf as [_ Hwf].
    assert (Forall (λ n, blind R (λ i, writes i n) (matcher' Ecma fl dir n)) os) as Hl
      by (apply (Forall_forallb_impl _ _ _ _ H Hwf); intros n Hn Hwfn; by apply Hn).
    eapply blind_weaken; [|by apply blind_choice, blind_list, Hl]. intros i. cbv beta. by rewrite forallb_map.
  - by eapply blind_upto, IHn.
  - eapply blind_weaken; [|eapply (blind_copies R 1 _ _ _ (m_star input g (captureSpan n) (matcher' Ecma fl dir n)));
      [by apply IHn|by eapply blind_upto, IHn]]. done.
  - by eapply blind_upto, IHn.
  - apply andb_true_iff in Hwf as [_ Hwf]. eapply blind_weaken; [|eapply blind_copies; [by apply IHn|]].
    + intros i. rewrite !andb_true_iff, !Z.ltb_lt. intros [Hmin Hw]. split; [lia|exact Hw].
    + destruct (hi =? -1); by eapply blind_upto, IHn.
  - apply andb_true_iff in Hwf as [_ Hwf]. by apply blind_group, IHn.
Qed.

(** A reset of what the body overwrites is not observable. *)
Lemma overwritten_reset nG n fl dir : well_formed nG n = true → overwritten n = true →
  ∀ k sp cs, matcher' Ecma fl dir n k sp (reset (captureSpan n) cs) = matcher' Ecma fl dir n k sp cs.
Proof.
  intros Hwf Ho k sp cs. apply (blind_matcher nG n Hwf eq _ fl dir (in_span (captureSpan n))); [apply agree_span|].
  intros sp' ds ds' Hd. f_equal. revert Hd. apply agree_eq. intros i [Hi Hw]. unfold overwritten in Ho.
  destruct (captureSpan n) as [[lo hi]|]; [|done]. rewrite forallb_forall in Ho. cbn [in_span] in Hi.
  rewrite Ho in Hw; [done|]. apply list_elem_of_In, elem_of_seqZ. lia.
Qed.

Section lowering.
Context (dir : Z) (Hdir : dir = 1 ∨ dir = -1) (m m' : cont → cont).
Context (Hm : related input eq true dir m m') (Hfails : related input fails_le true dir m m).
Context (span : option (Z * Z)) (Hreset : ∀ k sp cs, m k sp (reset span cs) = m k sp cs).

(** A body that consumes never trips the check for an empty iteration. *)
Lemma opt_lowering greedy :
  related input eq false dir (m_upto 1 greedy span m) (m_opt greedy m').
Proof.
  intros k k' sp cs Hsp Hk. cbn [m_upto]. rewrite Hreset. unfold m_opt.
  rewrite (Hk sp cs) by (by apply after_refl). f_equal. apply Hm; [done|].
  intros sp1 cs1 Ha. destruct (Z.eqb_spec sp1 sp) as [->|Hne]; [|by apply Hk, (after_weaken _ true)].
  by destruct Ha as (_ & _ & Ha); destruct Ha.
Qed.

Abbreviation next n k sp :=
  (λ sp' cs', if sp' =? sp then None else m_upto n true span m k sp' cs').

Lemma upto_S n k sp cs :
  m_upto (S n) true span m k sp cs = or_else (m (next n k sp) sp cs) (k sp cs).
Proof. cbn [m_upto prefer]. by rewrite Hreset. Qed.

Lemma next_fails n k sp cs :
  valid input sp →
  (∀ sp' cs', valid input sp' →
     m_upto (S n) true span m k sp' cs' = None → m_upto n true span m k sp' cs' = None) →
  m (next (S n) k sp) sp cs = None → m (next n k sp) sp cs = None.
Proof.
  intros Hsp Hn. apply Hfails; [done|]. intros sp1 cs1 Ha.
  destruct (sp1 =? sp); [done|]. exact (Hn sp1 cs1 (proj1 Ha)).
Qed.

Lemma upto_fails n k sp cs :
  valid input sp → m_upto (S n) true span m k sp cs = None → m_upto n true span m k sp cs = None.
Proof.
  revert sp cs. induction n as [|n IH]; intros sp cs Hsp; rewrite upto_S.
  - by destruct (m _ sp cs).
  - intros H. destruct (m (next (S n) k sp) sp cs) eqn:E; [done|].
    rewrite upto_S, (next_fails n k sp cs); [done..|exact IH|done].
Qed.

(** Greedy optional copies one after the other are nested iterations: the
    branches that differ repeat attempts that have failed already. *)
Lemma greedy_lowering n :
  related input eq false dir (m_upto n true span m) (m_seq (replicate n (m_opt true m'))).
Proof.
  induction n as [|n IH]; intros k k' sp cs Hsp Hk; [by apply Hk, after_refl|].
  cbn [replicate m_seq foldr]. change (foldr (λ m k, m k) k' (replicate n (m_opt true m')))
    with (m_seq (replicate n (m_opt true m')) k').
  rewrite upto_S. unfold m_opt at 1. cbn [prefer].
  assert (∀ sp1 cs1, after input false dir sp sp1 →
    m_upto n true span m k sp1 cs1 = m_seq (replicate n (m_opt true m')) k' sp1 cs1) as Hn.
  { intros sp1 cs1 Ha. apply IH; [apply Ha|]. intros sp2 cs2 Ha2. apply Hk.
    by apply (after_trans _ false false dir sp sp1 sp2). }
  rewrite <- (Hm (next n k sp) (m_seq (replicate n (m_opt true m')) k') sp cs Hsp).
  2: { intros sp1 cs1 Ha. destruct (Z.eqb_spec sp1 sp) as [->|Hne];
         [by destruct Ha as (_ & _ & Ha); destruct Ha|]. by apply Hn, (after_weaken _ true). }
  destruct (m (next n k sp) sp cs) as [|] eqn:E; [done|]. cbn [or_else].
  rewrite <- Hn by (by apply after_refl). destruct n as [|n]; [done|].
  rewrite upto_S, (next_fails n k sp cs); [done..| |done].
  intros sp1 cs1 Hsp1. by apply upto_fails.
Qed.
End lowering.

(** Copies without a reset, and the star or the optional copies behind them. *)
Lemma repeat_lowering dir min max greedy span s m m' :
  dir = 1 ∨ dir = -1 → 0 ≤ min →
  related input eq s dir m m' → related input fails_le s dir m m →
  (∀ k sp cs, m k sp (reset span cs) = m k sp cs) →
  (max = -1 ∨ max ≤ min ∨ (s = true ∧ (greedy = true ∨ max - min = 1))) →
  related input eq (negb ((min =? 0) || negb s)) dir
    (m_repeat input min max greedy span m) (m_copies input min max greedy span m').
Proof.
  intros Hdir Hmin Hm Hf Hreset Hcase. rewrite repeat_strict by done.
  assert (related input eq s dir (m_once span m) m') as Honce
    by (intros k k' sp cs Hsp Hk; unfold m_once; rewrite Hreset; by apply Hm).
  apply copies_related; [done..|].
  destruct (Z.eqb_spec max (-1)) as [_|Hne]; [by apply (upto_related input eq dir Hdir _ _ _ s)|].
  destruct Hcase as [?|[Hle|[-> [-> |H1]]]]; [done| | |].
  - replace (Z.to_nat (max - min)) with 0%nat by lia. intros k k' sp cs Hsp Hk.
    by apply Hk, after_refl.
  - by apply greedy_lowering.
  - rewrite H1. by apply opt_lowering.
Qed.

Lemma exact_related nG n :
  well_formed nG n = true → exact n = true → ∀ fl dir, dir = 1 ∨ dir = -1 →
  related input eq (negb (canMatchEmpty n)) dir (matcher' Ecma fl dir n) (matcher' Lowered fl dir n).
Proof.
  induction n using ReNode_ind'; intros Hwf Hex fl dir Hdir;
    cbn [well_formed exact canMatchEmpty matcher negb] in *.
  - by apply unit_related.
  - by apply unit_related.
  - by apply unit_related.
  - by apply code_point_related.
  - by apply assert_related.
  - by apply assert_related.
  - by apply assert_related.
  - done.
  - eapply look_related; [done..|]. apply IHn; [done..|by destruct b; [right|left]].
  - by apply IHn.
  - by apply code_point_related.
  - apply concat_related; [done..|].
    apply (Forall_forallb_impl _ _ _ _ (Forall_forallb_and _ _ _ H Hwf) Hex).
    intros n [Hn Hwfn] Hexn. by apply Hn.
  - apply andb_true_iff in Hwf as [_ Hwf]. apply alt_related; [done..|].
    apply (Forall_forallb_impl _ _ _ _ (Forall_forallb_and _ _ _ H Hwf) Hex).
    intros n [Hn Hwfn] Hexn. by apply Hn.
  - eapply upto_related; [done..|by apply IHn].
  - apply plus_related; [done..|by apply IHn].
  - apply andb_true_iff in Hex as [[Ho Hne]%andb_true_iff Hex].
    apply negb_true_iff in Hne. specialize (IHn Hwf Hex fl dir Hdir).
    rewrite Hne in IHn. apply opt_lowering; [done..|by eapply overwritten_reset].
  - apply andb_true_iff in Hwf as [Hmin%Z.leb_le Hwf].
    apply andb_true_iff in Hex as [[Ho Hcase]%andb_true_iff Hex].
    rewrite <- (negb_involutive (canMatchEmpty n)). apply repeat_lowering; [done..| | | |].
    + by apply IHn.
    + by eapply (matcher_related toUpperCase uni input Hunits nG Ecma); [|apply _|].
    + by eapply overwritten_reset.
    + rewrite !orb_true_iff, andb_true_iff, orb_true_iff, !Z.eqb_eq, Z.leb_le in Hcase. tauto.
  - apply andb_true_iff in Hwf as [_ Hwf]. by apply group_related, IHn.
Qed.

End matcher_facts.
