(* ===== verification/RePike.v ===== *)
(** The linear matcher of src/codegen/regex/linear.ts finds what backtracking
    finds.  The work of a thread is an ordered evaluation [evals] whose size does
    not depend on its captures; that is why the admission stamps may drop a
    thread whose state was seen at the same position. *)

From S2P Require Import Prelude ReBytecode ReLinear ReVm ReSpec.

Section pike.
Context (prog classTable : list Z) (input : jsstr).

Abbreviation n := (n_instrs prog).
Abbreviation closure_at := (closure_of prog input).

(** * Evaluation of a list of threads *)

(** What a waiting thread does with the code unit at [sp]. *)
Inductive move := Matches | Dies | Into (state : Z).

Definition advance (state sp : Z) : move :=
  if n <=? state then Into (state - n + 1)
  else match fetch prog state with
  | None => Dies
  | Some (op, a, b) =>
      if op =? ReOp.MATCH then Matches
      else if len input <=? sp then Dies
      else if op =? ReOp.CPCLASS then
        let cp := forwardCodePoint input sp in
        if (cp <? 0) || negb (classMatch classTable a cp (negb (b =? 0))) then Dies
        else if 0xffff <? cp then Into (n + state) else Into (state + 1)
      else if unitMatches op a b classTable (charCodeAt input sp) then Into (state + 1)
      else Dies
  end.

Lemma step_advance t sp seen next :
  step prog classTable input t sp seen next =
  match advance (t_state t) sp with
  | Matches => Ok (true, (seen, next))
  | Dies => Ok (false, (seen, next))
  | Into st => r ← addThread prog input seen next st (t_caps t) (sp + 1); Ok (false, r)
  end.
Proof. unfold step, advance. repeat case_match; simplify_eq; done. Qed.

(** [evals k ts sp r]: the threads [ts] at [sp], tried in order, end with the
    captures of the first that matches, or with [None]; [k] counts the work. *)
Inductive evals : nat → list Thread → Z → option (list Z) → Prop :=
  | ev_nil sp : evals 0 [] sp None
  | ev_push k t us ts sp r :
      closure_at sp t = Push us → evals k (us ++ ts) sp r → evals (S k) (t :: ts) sp r
  | ev_match t ts sp :
      closure_at sp t = Wait → advance (t_state t) sp = Matches →
      evals 1 (t :: ts) sp (Some (t_caps t))
  | ev_dies k t ts sp r :
      closure_at sp t = Wait → advance (t_state t) sp = Dies →
      evals k ts sp r → evals (S k) (t :: ts) sp r
  | ev_into k t st ts sp c :
      closure_at sp t = Wait → advance (t_state t) sp = Into st → sp < len input →
      evals k [{| t_state := st; t_caps := t_caps t |}] (sp + 1) (Some c) →
      evals (S k) (t :: ts) sp (Some c)
  | ev_into_fails k j t st ts sp r :
      closure_at sp t = Wait → advance (t_state t) sp = Into st → sp < len input →
      evals k [{| t_state := st; t_caps := t_caps t |}] (sp + 1) None →
      evals j ts sp r → evals (S (k + j)) (t :: ts) sp r.

Lemma evals_some_app k us ts sp c : evals k us sp (Some c) → evals k (us ++ ts) sp (Some c).
Proof.
  remember (Some c) as r eqn:Hr. intros H. revert Hr.
  induction H; intros; simplify_eq/=; try (by econstructor; eauto).
  eapply ev_push; [done|]. rewrite app_assoc. auto.
Qed.

Lemma evals_none_app j k us ts sp r :
  evals j us sp None → evals k ts sp r → evals (j + k) (us ++ ts) sp r.
Proof.
  remember None as o eqn:Ho. intros H. revert Ho.
  induction H; intros; simplify_eq/=; try done; eauto using ev_dies.
  - eapply ev_push; [done|]. rewrite app_assoc. auto.
  - rewrite <- Nat.add_assoc. eapply ev_into_fails; eauto.
Qed.

(** An evaluation ends in the first part of the list, or goes through it. *)
Lemma evals_app_inv k us ts sp r :
  evals k (us ++ ts) sp r →
  (∃ c, r = Some c ∧ evals k us sp (Some c)) ∨
  (∃ i j, k = (i + j)%nat ∧ evals i us sp None ∧ evals j ts sp r).
Proof.
  remember (us ++ ts) as l eqn:Hl. intros H. revert us Hl.
  induction H as [sp|k t vs l sp r Hc H IH|t l sp Hc Ha|k t l sp r Hc Ha H IH
    |k t st l sp c Hc Ha Hsp H _|k j t st l sp r Hc Ha Hsp H _ H' IH]; intros us Hl.
  - right. symmetry in Hl. apply app_eq_nil in Hl as [-> ->]. exists 0%nat, 0%nat.
    split_and!; [done|constructor|constructor].
  - destruct us as [|u us]; simplify_eq/=.
    { right. exists 0%nat, (S k). split_and!; [done|constructor|by eapply ev_push]. }
    destruct (IH (vs ++ us)) as [(c & -> & Hv)|(i & j & -> & Hv & Ht)]; [by rewrite app_assoc|..].
    + left. exists c. split; [done|]. by eapply ev_push.
    + right. exists (S i), j. split_and!; [done|by eapply ev_push|done].
  - destruct us as [|u us]; simplify_eq/=; [right|left].
    + exists 0%nat, 1%nat. split_and!; [done|constructor|by constructor].
    + exists (t_caps u). split; [done|]. by constructor.
  - destruct us as [|u us]; simplify_eq/=.
    { right. exists 0%nat, (S k). split_and!; [done|constructor|by apply ev_dies]. }
    destruct (IH us eq_refl) as [(c & -> & Hv)|(i & j & -> & Hv & Ht)].
    + left. exists c. split; [done|]. by apply ev_dies.
    + right. exists (S i), j. split_and!; [done|by apply ev_dies|done].
  - destruct us as [|u us]; simplify_eq/=; [right|left].
    + exists 0%nat, (S k). split_and!; [done|constructor|by eapply ev_into].
    + exists c. split; [done|]. by eapply ev_into.
  - destruct us as [|u us]; simplify_eq/=.
    { right. exists 0%nat, (S (k + j)). split_and!; [done|constructor|by eapply ev_into_fails]. }
    destruct (IH us eq_refl) as [(c & -> & Hv)|(i' & j' & -> & Hv & Ht)].
    + left. exists c. split; [done|]. by eapply ev_into_fails.
    + right. exists (S (k + i')), j'. split_and!; [lia|by eapply ev_into_fails|done].
Qed.

(** * The captures decide nothing *)

Lemma closure_states sp t t' :
  t_state t = t_state t' →
  match closure_at sp t, closure_at sp t' with
  | Push us, Push us' => t_state <$> us = t_state <$> us'
  | Wait, Wait => True
  | _, _ => False
  end.
Proof. intros Hs. unfold closure_of. rewrite Hs. repeat case_match; simplify_eq; done. Qed.

Lemma evals_unique k ts sp r :
  evals k ts sp r → ∀ k' ts' r', t_state <$> ts = t_state <$> ts' → evals k' ts' sp r' →
  k = k' ∧ (r = None ↔ r' = None).
Proof.
  induction 1 as [sp|k t us ts sp r Hc H IH|t ts sp Hc Ha|k t ts sp r Hc Ha H IH
    |k t st ts sp c Hc Ha Hsp H IH|k j t st ts sp r Hc Ha Hsp H IH H' IH'];
    intros k' ts' r' Hts Hev.
  { destruct ts'; [|done]. by inversion Hev. }
  all: destruct ts' as [|t' ts']; [done|]; csimpl in Hts; injection Hts as Hs Hts;
    pose proof (closure_states sp t t' Hs) as Hcs; rewrite Hc in Hcs; rewrite ?Hs in *;
    inversion Hev; subst;
    repeat match goal with H : closure_at _ _ = _ |- _ => rewrite H in Hcs end; try done;
    simplify_eq; try congruence;
    try match goal with
    | H : advance _ _ = Into ?a, H' : advance _ _ = Into ?b |- _ =>
        assert (a = b) as <- by congruence
    end.
  - match goal with H : evals _ (_ ++ ts') _ _ |- _ => apply IH in H as [-> Hr] end; [done|].
    rewrite !fmap_app. congruence.
  - match goal with H : evals _ ts' _ _ |- _ => apply IH in H as [-> Hr] end; done.
  - match goal with H : evals _ [_] _ (Some _) |- _ => apply IH in H as [-> Hr] end; done.
  - match goal with H : evals _ [_] _ None |- _ => apply IH in H as [-> Hr] end; [|done].
    exfalso. by destruct Hr as [_ Hr]; specialize (Hr eq_refl).
  - match goal with H : evals _ [_] _ (Some _) |- _ => apply IH in H as [-> Hr] end; [|done].
    exfalso. by destruct Hr as [Hr _]; specialize (Hr eq_refl).
  - match goal with H : evals _ [_] _ None |- _ => apply IH in H as [-> _] end; [|done].
    by match goal with H : evals _ ts' _ _ |- _ => apply IH' in H as [-> Hr] end.
Qed.

(** * The epsilon closure *)

Abbreviation waits sp := (λ t, closure_at sp t = Wait).

(** The loop only appends waiting threads, and writes only its own stamp. *)
Lemma loop_appends fuel sp seen list stack seen' list' :
  addThread_loop fuel prog input sp seen list stack = Ok (seen', list') →
  (∃ M, threads list' = threads list ++ M ∧ Forall (waits sp) M) ∧ stamp list' = stamp list ∧
  (∀ b, stamp list ≤ b → Forall (λ x, x ≤ b) seen → Forall (λ x, x ≤ b) seen').
Proof.
  revert seen list stack. induction fuel as [|fuel IH]; intros seen list stack H; [done|].
  cbn [addThread_loop] in H. destruct stack as [|t stack].
  { injection H as <- <-. split_and!; [|done|done]. exists []. by rewrite app_nil_r. }
  assert (∀ b, stamp list ≤ b → Forall (λ x, x ≤ b) seen →
    Forall (λ x, x ≤ b) (admit_state seen list (t_state t)).2) as Hadmit.
  { intros b Hb Hs. unfold admit_state. case_bool_decide; [done|]. simpl. unfold ta_set.
    destruct (t_state t <? 0); [done|]. by apply Forall_insert. }
  destruct (admit_state seen list (t_state t)) as [[] s] eqn:Ha; simpl in H, Hadmit.
  - destruct (closure_at sp t) as [us|] eqn:Hc.
    + apply IH in H as (HM & Hst & Hb). split_and!; [done|done|auto].
    + apply IH in H as ((M & HM & HW) & Hst & Hb). simpl in *. split_and!; [|done|auto].
      exists (t :: M). split; [|by constructor]. by rewrite HM, <- app_assoc.
  - apply IH in H as (HM & Hst & Hb). split_and!; [done|done|auto].
Qed.

(** A state that failed, whatever its captures. *)
Definition fails (sp v : Z) : Prop :=
  ∃ k caps, evals k [{| t_state := v; t_caps := caps |}] sp None.

Definition stamped (seen : list Z) (st v : Z) : Prop := js_at seen v = Some st.

(** Every stamped state failed, or is being explored and needs more work than [k]. *)
Definition explored (k : nat) (sp : Z) (seen : list Z) (st : Z) : Prop :=
  ∀ v, stamped seen st v → fails sp v ∨
    ∃ j r caps, evals j [{| t_state := v; t_caps := caps |}] sp r ∧ (k < j)%nat.

Lemma explored_weaken j k sp seen st :
  (j ≤ k)%nat → explored k sp seen st → explored j sp seen st.
Proof.
  intros Hj H v Hv. destruct (H v Hv) as [Hf|(i & r & caps & He & Hi)]; [by left|right].
  exists i, r, caps. split; [done|lia].
Qed.

(** A stamped thread that is tried again can only fail. *)
Lemma stamped_fails k sp seen st t r :
  explored k sp seen st → stamped seen st (t_state t) → evals k [t] sp r → r = None.
Proof.
  intros Hex Hs He. destruct (Hex _ Hs) as [(j & caps & H)|(j & r' & caps & H & Hj)].
  - destruct (evals_unique _ _ _ _ H k [t] r eq_refl He) as [_ [Hn _]]. by apply Hn.
  - destruct (evals_unique _ _ _ _ H k [t] r eq_refl He) as [-> _]. lia.
Qed.

Lemma evals_pos k t ts sp r : evals k (t :: ts) sp r → (0 < k)%nat.
Proof. inversion 1; lia. Qed.

(** What the loop has done with [us] when their evaluation ends with [r]. *)
Definition closed (sp : Z) (seen : list Z) (list : ThreadList) (stack : Datatypes.list Thread)
    (fin : Datatypes.list Z * ThreadList) (r : option (Datatypes.list Z)) : Prop :=
  match r with
  | Some c => ∃ M k, threads fin.2 = threads list ++ M ∧ evals k M sp (Some c)
  | None => ∃ fuel' seen' list' M k,
      addThread_loop fuel' prog input sp seen' list' stack = Ok fin ∧
      threads list' = threads list ++ M ∧ stamp list' = stamp list ∧ evals k M sp None ∧
      ∀ v, stamped seen' (stamp list) v → stamped seen (stamp list) v ∨ fails sp v
  end.

Lemma explored_none k sp seen seen' st :
  explored k sp seen st → (∀ v, stamped seen' st v → stamped seen st v ∨ fails sp v) →
  explored k sp seen' st.
Proof. intros Hex H v Hv. destruct (H v Hv) as [Hs|Hf]; [by apply Hex|by left]. Qed.

(** Going on with the rest after a part that failed. *)
Lemma closed_trans sp seen list stack fin r seen1 list1 M k fuel us :
  (∀ fin, addThread_loop fuel prog input sp seen1 list1 (us ++ stack) = Ok fin →
    closed sp seen1 list1 stack fin r) →
  addThread_loop fuel prog input sp seen1 list1 (us ++ stack) = Ok fin →
  threads list1 = threads list ++ M → stamp list1 = stamp list → evals k M sp None →
  (∀ v, stamped seen1 (stamp list) v → stamped seen (stamp list) v ∨ fails sp v) →
  closed sp seen list stack fin r.
Proof.
  intros Hus Hl HM Hst He Hs. specialize (Hus fin Hl). destruct r as [c|]; simpl in *.
  - destruct Hus as (M' & k' & Ht & He'). exists (M ++ M'), (k + k')%nat.
    rewrite Ht, HM, <- app_assoc. split; [done|by apply evals_none_app].
  - destruct Hus as (fuel' & seen' & list' & M' & k' & Hl' & Ht & Hst' & He' & Hs').
    exists fuel', seen', list', (M ++ M'), (k + k')%nat. rewrite Hst in Hst', Hs'.
    split_and!; [done|by rewrite Ht, HM, <- app_assoc|done|by apply evals_none_app|].
    intros v Hv. destruct (Hs' v Hv); auto.
Qed.

Lemma admit_stamped seen list s b seen' :
  admit_state seen list s = (b, seen') →
  if b then ∀ v, stamped seen' (stamp list) v → stamped seen (stamp list) v ∨ v = s
  else seen' = seen ∧ stamped seen (stamp list) s.
Proof.
  unfold admit_state. case_bool_decide; intros [= <- <-]; [done|].
  intros v Hv. unfold stamped in *. rewrite js_at_ta_set in Hv.
  destruct (decide _) as [[-> _]|_]; auto.
Qed.

(** The closure of threads keeps the result of their evaluation. *)
Lemma loop_evals k us sp r :
  evals k us sp r → ∀ fuel seen list stack fin, explored k sp seen (stamp list) →
  addThread_loop fuel prog input sp seen list (us ++ stack) = Ok fin →
  closed sp seen list stack fin r.
Proof.
  revert us r. induction (lt_wf k) as [k _ IH]. intros us r He fuel seen list stack fin Hex Hl.
  destruct us as [|t us].
  { inversion He; subst. simpl in Hl. exists fuel, seen, list, [], 0%nat.
    rewrite app_nil_r. split_and!; [done..|constructor|by left]. }
  destruct fuel as [|fuel]; [done|]. cbn [addThread_loop app] in Hl.
  destruct (admit_state seen list (t_state t)) as [b seen1] eqn:Ha.
  pose proof (admit_stamped _ _ _ _ _ Ha) as Hadm.
  (* the rest, once [t] has failed *)
  assert (∀ i j, k = (i + j)%nat → evals i [t] sp None → evals j us sp r →
    ∀ fuel seen1 list1 M k1, addThread_loop fuel prog input sp seen1 list1 (us ++ stack) = Ok fin →
      threads list1 = threads list ++ M → stamp list1 = stamp list → evals k1 M sp None →
      (∀ v, stamped seen1 (stamp list) v → stamped seen (stamp list) v ∨ fails sp v) →
      closed sp seen list stack fin r) as Hrest.
  { intros i j -> Hi Hj fuel' seen' list' M k1 Hl' HM Hst HeM Hs.
    pose proof (evals_pos _ _ _ _ _ Hi). eapply closed_trans; [|done..].
    intros fin'. apply (IH j); [lia|done|]. rewrite Hst.
    apply (explored_weaken _ (i + j)); [lia|]. by eapply explored_none. }
  destruct (evals_app_inv k [t] us sp r He) as [(c & -> & Ht)|(i & j & -> & Ht & Hus)].
  - (* [t] succeeds *)
    destruct b; simpl in Hl.
    2:{ destruct Hadm as [-> Hs]. by pose proof (stamped_fails _ _ _ _ _ _ Hex Hs Ht). }
    destruct (closure_at sp t) as [ws|] eqn:Hc.
    + inversion Ht as [|k' ? us' ? ? ? Hc' Hws| | | |]; simplify_eq; try congruence.
      assert (us' = ws) as -> by congruence. rewrite app_nil_r in Hws.
      eapply (IH k' ltac:(lia) ws (Some c) Hws fuel seen1 list (us ++ stack) fin) in Hl; [done|].
      intros v Hv. destruct (Hadm v Hv) as [Hs| ->].
      * by eapply (explored_weaken k' (S k')); [lia|exact Hex|].
      * right. exists (S k'), (Some c), (t_caps t). split; [by destruct t|lia].
    + destruct fin as [seenF listF]. apply loop_appends in Hl as ((M & HM & _) & _). simpl in HM.
      exists (t :: M), k. simpl. rewrite HM, <- app_assoc. split; [done|].
      by apply (evals_some_app k [t] M).
  - (* [t] fails *)
    destruct b; simpl in Hl.
    2:{ destruct Hadm as [-> Hs]. eapply (Hrest i j); [done..|exact Hl| |done|constructor|].
        - by rewrite app_nil_r.
        - by left. }
    assert (fails sp (t_state t)) as Hfail by (exists i, (t_caps t); by destruct t).
    destruct (closure_at sp t) as [ws|] eqn:Hc.
    + inversion Ht as [|k' ? us' ? ? ? Hc' Hws| | | |]; simplify_eq; try congruence.
      assert (us' = ws) as -> by congruence. rewrite app_nil_r in Hws.
      eapply (IH k' ltac:(lia) ws None Hws fuel seen1 list (us ++ stack) fin) in Hl.
      * destruct Hl as (f' & s' & l' & M & k1 & Hl & HM & Hst & HeM & Hs).
        eapply (Hrest (S k') j); [done..|exact Hl|exact HM|done|exact HeM|].
        intros v Hv. destruct (Hs v Hv) as [Hv'|]; [|by right].
        destruct (Hadm v Hv') as [| ->]; auto.
      * intros v Hv. destruct (Hadm v Hv) as [Hs| ->]; [|by left].
        by eapply (explored_weaken k' (S k' + j)); [lia|exact Hex|].
    + eapply (Hrest i j); [done..|exact Hl|reflexivity|done|exact Ht|].
      intros v Hv. destruct (Hadm v Hv) as [| ->]; auto.
Qed.

(** * One position *)

Definition all_fail (sp : Z) (seen : list Z) (st : Z) : Prop :=
  ∀ v, stamped seen st v → fails sp v.

Definition fresh_stamps (b : Z) (seen : list Z) : Prop := Forall (λ x, x ≤ b) seen.

Lemma fresh_all_fail sp seen st b : fresh_stamps b seen → b < st → all_fail sp seen st.
Proof.
  intros Hf Hb v [_ Hv]%js_at_Some. apply list_elem_of_lookup_2 in Hv.
  apply (proj1 (list.Forall_forall _ _) Hf) in Hv. lia.
Qed.

Lemma all_fail_explored k sp seen st : all_fail sp seen st → explored k sp seen st.
Proof. intros H v Hv. left. by apply H. Qed.

(** Adding one thread to a list that fails. *)
Lemma addThread_evals k k0 state caps sp r seen list seen' list' :
  addThread prog input seen list state caps sp = Ok (seen', list') →
  evals k [{| t_state := state; t_caps := caps |}] sp r →
  evals k0 (threads list) sp None → all_fail sp seen (stamp list) →
  (∃ k', evals k' (threads list') sp r) ∧ (r = None → all_fail sp seen' (stamp list')).
Proof.
  intros Hadd He H0 Hall. unfold addThread in Hadd.
  pose proof (loop_appends _ _ _ _ _ _ _ Hadd) as (_ & Hst & _).
  pose proof (loop_evals k _ sp r He _ seen list [] (seen', list')
    (all_fail_explored _ _ _ _ Hall) Hadd) as Hcl.
  destruct r as [c|]; simpl in Hcl.
  - destruct Hcl as (M & k' & -> & HM). split; [|done]. exists (k0 + k')%nat. by apply evals_none_app.
  - destruct Hcl as (fuel & s & l & M & k' & Hfin & HM & Hst' & HeM & Hs).
    destruct fuel as [|fuel]; [done|]. cbn [addThread_loop] in Hfin. injection Hfin as <- <-.
    split; [exists (k0 + k')%nat; rewrite HM; by apply evals_none_app|].
    intros _ v Hv. rewrite Hst' in Hv. destruct (Hs v Hv); auto.
Qed.

Lemma addThread_appends seen list state caps sp seen' list' :
  addThread prog input seen list state caps sp = Ok (seen', list') →
  (∃ M, threads list' = threads list ++ M ∧ Forall (waits sp) M) ∧ stamp list' = stamp list ∧
  (∀ b, stamp list ≤ b → fresh_stamps b seen → fresh_stamps b seen').
Proof. apply loop_appends. Qed.

Lemma step_all_appends ts sp seen next matched seen' next' matched' :
  step_all prog classTable input ts sp seen next matched = Ok (seen', next', matched') →
  (∃ M, threads next' = threads next ++ M ∧ Forall (waits (sp + 1)) M) ∧
  stamp next' = stamp next ∧
  (∀ b, stamp next ≤ b → fresh_stamps b seen → fresh_stamps b seen').
Proof.
  revert seen next. induction ts as [|t ts IH]; intros seen next H.
  { injection H as <- <- <-. split_and!; [|done|done]. exists []. by rewrite app_nil_r. }
  cbn [step_all] in H. rewrite step_advance in H.
  destruct (advance (t_state t) sp) as [| |st]; cbn [mbind result_bind] in H.
  - injection H as <- <- <-. split_and!; [|done|done]. exists []. by rewrite app_nil_r.
  - by apply IH.
  - destruct (addThread _ _ _ _ _ _ _) as [[s l]|] eqn:Ha; [|done]. cbn [mbind result_bind] in H.
    apply addThread_appends in Ha as ((M & HM & HW) & Hst & Hb).
    apply IH in H as ((M' & HM' & HW') & Hst' & Hb').
    rewrite HM', HM, <- app_assoc, Hst', Hst. split_and!; [|done|].
    + exists (M ++ M'). split; [done|]. by apply Forall_app.
    + intros b Hle Hs. apply Hb'; [congruence|auto].
Qed.

(** The threads of a position, and the list that they leave for the next one. *)
Lemma step_all_evals k ts sp r seen next matched seen' next' matched' k0 :
  step_all prog classTable input ts sp seen next matched = Ok (seen', next', matched') →
  evals k ts sp r → Forall (waits sp) ts →
  evals k0 (threads next) (sp + 1) None → all_fail (sp + 1) seen (stamp next) →
  match r with
  | None => matched' = matched ∧ (∃ k', evals k' (threads next') (sp + 1) None) ∧
            all_fail (sp + 1) seen' (stamp next')
  | Some c => (sp < len input ∧ ∃ k', evals k' (threads next') (sp + 1) (Some c)) ∨
              (matched' = Some c ∧ ∃ k', evals k' (threads next') (sp + 1) None)
  end.
Proof.
  revert k k0 seen next. induction ts as [|t ts IH]; intros k k0 seen next H He Hw H0 Hall.
  { inversion He; subst. injection H as <- <- <-. eauto. }
  apply Forall_cons in Hw as [Ht Hw]. cbn [step_all] in H. rewrite step_advance in H.
  inversion He; subst; try congruence;
    match goal with Ha : advance _ _ = _ |- _ => rewrite Ha in H end; cbn [mbind result_bind] in H.
  - injection H as <- <- <-. right. eauto.
  - by eapply IH.
  - destruct (addThread _ _ _ _ _ _ _) as [[s l]|] eqn:Ha; [|done]. cbn [mbind result_bind] in H.
    edestruct addThread_evals as [[k' Hl] _]; [exact Ha|done..|].
    apply step_all_appends in H as ((M & HM & _) & _). left. split; [done|].
    exists k'. rewrite HM. by apply evals_some_app.
  - destruct (addThread _ _ _ _ _ _ _) as [[s l]|] eqn:Ha; [|done]. cbn [mbind result_bind] in H.
    edestruct addThread_evals as [[k' Hl] Hs]; [exact Ha|done..|].
    eapply IH; [done..|]. by apply Hs.
Qed.

(** * The positions in turn *)

Context (nSlots start : Z) (sticky : bool).

Abbreviation loop := (λ m, linear_loop m prog classTable nSlots input start sticky).

Lemma Ok_inj {A} (x y : A) : Ok x = Ok y → x = y.
Proof. by intros [= ->]. Qed.

(** Once every live thread fails, an earlier match stays. *)
Lemma loop_matched m sp seen current c k out :
  loop m sp seen current (Some c) = Ok out →
  evals k (threads current) sp None → Forall (waits sp) (threads current) →
  stamp current = sp + 1 → fresh_stamps (sp + 1) seen → out = Some c.
Proof.
  revert sp seen current k. induction m as [|m IH]; intros sp seen current k H He Hw Hst Hf.
  { by apply Ok_inj in H. }
  cbn [linear_loop] in H. rewrite (bool_decide_false (Some c = None)) in H by done. cbn [andb mbind result_bind] in H.
  destruct (_ && _); [by apply Ok_inj in H|].
  destruct (step_all _ _ _ _ _ _ _ _) as [[[s l] m']|] eqn:Hs; [|done]. cbn [mbind result_bind] in H.
  pose proof (step_all_appends _ _ _ _ _ _ _ _ Hs) as ((M & HM & HW) & Hst' & Hb).
  destruct (step_all_evals _ _ _ None _ _ _ _ _ _ 0 Hs He Hw) as (-> & [k' He'] & _);
    [constructor|eapply fresh_all_fail; [exact Hf|simpl; lia]|].
  eapply IH; [exact H|exact He'| | |]; simpl in *.
  - by rewrite HM.
  - rewrite Hst'. lia.
  - apply Hb; [lia|]. eapply Forall_impl; [exact Hf|simpl; lia].
Qed.

(** A live thread that matches decides the search. *)
Lemma loop_live m sp seen current matched c k out :
  loop m sp seen current matched = Ok out → sp + Z.of_nat m = len input + 1 → sp ≤ len input →
  evals k (threads current) sp (Some c) → Forall (waits sp) (threads current) →
  stamp current = sp + 1 → fresh_stamps (sp + 1) seen → out = Some c.
Proof.
  revert sp seen current matched k.
  induction m as [|m IH]; intros sp seen current matched k H Hm Hsp He Hw Hst Hf; [lia|].
  cbn [linear_loop] in H.
  (* a later start cannot matter *)
  assert (∃ seen1 list1, (if bool_decide (matched = None) && (negb sticky || (sp =? start))
      then addThread prog input seen current 0 (fresh_caps nSlots) sp
      else Ok (seen, current)) = Ok (seen1, list1) ∧ evals k (threads list1) sp (Some c) ∧
      Forall (waits sp) (threads list1) ∧ stamp list1 = sp + 1 ∧ fresh_stamps (sp + 1) seen1)
    as (seen1 & list1 & Hadd & He1 & Hw1 & Hst1 & Hf1).
  { destruct (_ && _); [|by exists seen, current].
    destruct (addThread _ _ _ _ _ _ _) as [[s l]|] eqn:Ha; [|done]. exists s, l.
    apply addThread_appends in Ha as ((M & HM & HW) & Hst' & Hb). rewrite HM. split_and!.
    - done.
    - by apply evals_some_app.
    - by apply Forall_app.
    - congruence.
    - apply Hb; [lia|done]. }
  rewrite Hadd in H. cbn [mbind result_bind] in H.
  rewrite (bool_decide_false (length (threads list1) = 0%nat)) in H
    by (intros E; apply nil_length_inv in E; rewrite E in He1; inversion He1).
  cbn [andb] in H.
  destruct (step_all _ _ _ _ _ _ _ _) as [[[s l] m']|] eqn:Hs; [|done]. cbn [mbind result_bind] in H.
  pose proof (step_all_appends _ _ _ _ _ _ _ _ Hs) as ((M & HM & HW) & Hst' & Hb).
  assert (fresh_stamps (sp + 1 + 1) s) as Hfs.
  { apply Hb; [simpl; lia|]. eapply Forall_impl; [exact Hf1|simpl; lia]. }
  assert (Forall (waits (sp + 1)) (threads l)) as Hwl by (by rewrite HM).
  destruct (step_all_evals _ _ _ (Some c) _ _ _ _ _ _ 0 Hs He1 Hw1) as [[Hlt [k' He']]|[-> [k' He']]];
    [constructor|eapply fresh_all_fail; [exact Hf1|simpl; lia]|..].
  - eapply IH; [exact H|lia|lia|exact He'|done| |done]. simpl in Hst'. lia.
  - eapply loop_matched; [exact H|exact He'|done| |done]. simpl in Hst'. lia.
Qed.

(** One position at which every live thread fails and nothing matched. *)
Lemma loop_dead m sp seen current k out :
  (if bool_decide (length (threads current) = 0%nat) && (bool_decide (@None (list Z) ≠ None) || sticky)
   then Ok None
   else r ← step_all prog classTable input (threads current) sp seen
              {| threads := []; stamp := sp + 2 |} None;
        let '(seen, next, matched) := r in loop m (sp + 1) seen next matched) = Ok out →
  evals k (threads current) sp None → Forall (waits sp) (threads current) →
  fresh_stamps (sp + 1) seen →
  (sticky = true ∧ out = None) ∨
  ∃ seen' next k', loop m (sp + 1) seen' next None = Ok out ∧
    evals k' (threads next) (sp + 1) None ∧ Forall (waits (sp + 1)) (threads next) ∧
    stamp next = sp + 2 ∧ fresh_stamps (sp + 2) seen' ∧ all_fail (sp + 1) seen' (sp + 2).
Proof.
  intros H He Hw Hf. destruct (_ && _) eqn:Hstop.
  { left. apply Ok_inj in H. apply andb_prop in Hstop as [_ Hs].
    rewrite bool_decide_false in Hs by tauto. by destruct sticky. }
  right. destruct (step_all _ _ _ _ _ _ _ _) as [[[s l] m']|] eqn:Hs; [|done].
  cbn [mbind result_bind] in H.
  pose proof (step_all_appends _ _ _ _ _ _ _ _ Hs) as ((M & HM & HW) & Hst' & Hb).
  destruct (step_all_evals _ _ _ None _ _ _ _ _ _ 0 Hs He Hw) as (-> & [k' He'] & Hall);
    [constructor|eapply fresh_all_fail; [exact Hf|simpl; lia]|].
  simpl in *. exists s, l, k'. rewrite <- Hst'. split_and!; try done.
  - by rewrite HM.
  - rewrite Hst'. apply Hb; [lia|]. eapply Forall_impl; [exact Hf|simpl; lia].
Qed.

Lemma loop_sticky m sp seen current k out :
  sticky = true → start < sp → loop m sp seen current None = Ok out →
  evals k (threads current) sp None → Forall (waits sp) (threads current) →
  fresh_stamps (sp + 1) seen → out = None.
Proof.
  intros Hst. revert sp seen current k.
  induction m as [|m IH]; intros sp seen current k Hsp H He Hw Hf; [by apply Ok_inj in H|].
  cbn [linear_loop] in H. rewrite Hst in H. cbn [negb orb] in H.
  rewrite (proj2 (Z.eqb_neq sp start)), andb_false_r in H by lia. cbn [mbind result_bind] in H.
  rewrite <- Hst in H.
  apply loop_dead with (k := k) in H as [[_ ->]|(s & l & k' & H & He' & Hw' & _ & Hf' & _)]; try done.
  eapply IH; [|exact H|done..|]; [lia|]. by replace (sp + 1 + 1) with (sp + 2) by lia.
Qed.

(** The search, position by position, against the results of the attempts. *)
Lemma loop_searches (f : Z → option (list Z)) m sp seen current k out :
  (∀ i, sp ≤ i ≤ len input →
    ∃ j, evals j [{| t_state := 0; t_caps := fresh_caps nSlots |}] i (f i)) →
  loop m sp seen current None = Ok out → sp + Z.of_nat m = len input + 1 →
  evals k (threads current) sp None → Forall (waits sp) (threads current) →
  stamp current = sp + 1 → fresh_stamps (sp + 1) seen → all_fail sp seen (sp + 1) →
  (sticky = true → sp = start) → out = first_match f m sp sticky.
Proof.
  revert sp seen current k.
  induction m as [|m IH]; intros sp seen current k Hatt H Hm He Hw Hst Hf Hall Hsp;
    [by apply Ok_inj in H|].
  cbn [linear_loop first_match] in H |- *.
  rewrite (bool_decide_true (@None (list Z) = None)) in H by done.
  replace (negb sticky || (sp =? start)) with true in H
    by (destruct sticky; [rewrite Hsp by done; by rewrite Z.eqb_refl|done]). cbn [andb] in H.
  destruct (addThread _ _ _ _ _ _ _) as [[s l]|] eqn:Ha; [|done]. cbn [mbind result_bind] in H.
  destruct (Hatt sp ltac:(lia)) as [j Hj]. rewrite <- Hst in Hall.
  destruct (addThread_evals _ _ _ _ _ _ _ _ _ _ Ha Hj He Hall) as [[k' Hl] _].
  apply addThread_appends in Ha as ((M & HM & HW) & Hst' & Hb).
  assert (Forall (waits sp) (threads l)) as Hwl by (rewrite HM; by apply Forall_app).
  assert (fresh_stamps (sp + 1) s) as Hfs by (apply Hb; [lia|done]).
  destruct (f sp) as [c|].
  - destruct (_ && _) eqn:Hstop.
    { apply andb_prop in Hstop as [Hnil%bool_decide_eq_true _]. apply nil_length_inv in Hnil.
      rewrite Hnil in Hl. inversion Hl. }
    destruct (step_all _ _ _ _ _ _ _ _) as [[[s' l'] m']|] eqn:Hs; [|done].
    cbn [mbind result_bind] in H.
    pose proof (step_all_appends _ _ _ _ _ _ _ _ Hs) as ((M' & HM' & HW') & Hst1 & Hb').
    assert (fresh_stamps (sp + 1 + 1) s') as Hfs'.
    { apply Hb'; [simpl; lia|]. eapply Forall_impl; [exact Hfs|simpl; lia]. }
    assert (Forall (waits (sp + 1)) (threads l')) as Hwl' by (by rewrite HM').
    simpl in Hst1.
    destruct (step_all_evals _ _ _ (Some c) _ _ _ _ _ _ 0 Hs Hl Hwl) as [[Hlt [k1 He1]]|[-> [k1 He1]]];
      [constructor|eapply fresh_all_fail; [exact Hfs|simpl; lia]|..].
    + eapply loop_live; [exact H|lia|lia|exact He1|done|lia|done].
    + eapply loop_matched; [exact H|exact He1|done|lia|done].
  - apply loop_dead with (k := k') in H as [[-> ->]|(s' & l' & k1 & H & He1 & Hw1 & Hst1 & Hf1 & Hall1)];
      try done.
    replace (sp + 2) with (sp + 1 + 1) in * by lia.
    destruct (decide (sticky = true)) as [Hs|Hs%not_true_is_false].
    + transitivity (@None (list Z)); [|by rewrite Hs]. specialize (Hsp Hs).
      eapply loop_sticky; [done| |exact H|done..]. lia.
    + assert (∀ o : option (list Z), (if sticky then None else o) = o) as -> by (by rewrite Hs).
      eapply IH; [|exact H|lia|exact He1|done|done|done|done|by rewrite Hs].
      intros i Hi. apply Hatt. lia.
Qed.

End pike.

(** * Backtracking attempts are evaluations *)

Section attempts.
Context (prog classTable : list Z) (input : jsstr).
Context (Hsafe : isLinearSafe prog = true) (Hunits : Forall (λ c, 0 ≤ c ≤ 0xffff) input).

Lemma linear_safe_op pc op a b : fetch prog pc = Some (op, a, b) → op ∈ LINEAR_OPS.
Proof using Hsafe.
  intros Hf. pose proof (fetch_range _ _ _ Hf) as Hr. unfold fetch in Hf.
  destruct (js_at prog (pc * 3)) as [o|] eqn:E; [|done].
  assert (o = op) as -> by (by repeat case_match; simplify_eq).
  unfold isLinearSafe in Hsafe. rewrite forallb_forall in Hsafe.
  specialize (Hsafe pc). unfold INSTR_WIDTH in Hsafe. rewrite E in Hsafe.
  apply (bool_decide_eq_true_1 _), Hsafe, list_elem_of_In, elem_of_seqZ.
  apply js_at_lt in E. split; [lia|]. apply (Z.lt_le_trans _ (pc + 1)); [lia|].
  apply Z.div_le_lower_bound; unfold prog_len; lia.
Qed.

Abbreviation th pc caps := {| t_state := pc; t_caps := caps |}.

(** How the two machines agree on one instruction. *)
Definition same_step (pc sp : Z) (caps : list Z) (o : outcome) : Prop :=
  let clo := closure_of prog input sp (th pc caps) in
  let adv := advance prog classTable input pc sp in
  match o with
  | Accept c => clo = Wait ∧ adv = Matches ∧ c = caps
  | Failed => clo = Push [] ∨ (clo = Wait ∧ adv = Dies)
  | Go pc' sp' caps' =>
      (clo = Push [th pc' caps'] ∧ sp' = sp) ∨
      (clo = Wait ∧ adv = Into pc' ∧ sp' = sp + 1 ∧ caps' = caps ∧ sp < len input) ∨
      (clo = Wait ∧ adv = Into (n_instrs prog + pc) ∧ 0 ≤ pc ∧ pc' = pc + 1 ∧ sp' = sp + 2 ∧
       caps' = caps ∧ sp + 1 < len input)
  | Fork pc' frame =>
      clo = Push [th pc' caps; th (f_pc frame) (f_caps frame)] ∧ f_sp frame = sp
  | Unknown => True
  end.

Lemma performs_same_step pc sp caps o :
  performs prog classTable input 1 pc sp caps o → same_step pc sp caps o.
Proof using Hsafe Hunits.
  intros (op & a & b & Hf & _ & He). pose proof (linear_safe_op _ _ _ _ Hf) as Hop.
  pose proof (fetch_range _ _ _ Hf) as [Hpos Hn%Z.leb_gt].
  unfold same_step, closure_of, advance. cbn [t_state t_caps]. rewrite Hn, Hf.
  unfold exec_op, inBounds, unit_at, read_code_point in He. cbn [Z.ltb Z.compare] in He.
  unfold LINEAR_OPS in Hop. rewrite !elem_of_cons, elem_of_nil in Hop.
  destruct (Z.leb_spec (len input) sp) as [Hend|Hend];
    [rewrite (proj2 (Z.ltb_ge sp (len input))) in He by done
    |rewrite (proj2 (Z.ltb_lt sp (len input))) in He by done];
  repeat destruct Hop as [-> |Hop]; try done; simpl in He |- *; injection He as <-; auto.
  all: try match goal with
    | |- context [assertionHolds ?op ?a ?i ?p] => destruct (assertionHolds op a i p); by auto
    | |- context [unitMatches ?op ?a ?b ?t ?c] =>
        destruct (unitMatches op a b t c); [right; left|right]; split_and!; done
    end.
  - destruct (forwardCodePoint input sp <? 0) eqn:Hneg; [by right|]. simpl.
    destruct (classMatch _ _ _ _); simpl; [|by right].
    destruct (0xffff <? forwardCodePoint input sp) eqn:Hw; [right; right|right; left].
    + apply Z.ltb_lt, (forward_pair input Hunits) in Hw. split_and!; try done; lia.
    + split_and!; try done; lia.
Qed.

Abbreviation eval := (evals prog classTable input).

Lemma closure_beyond state sp caps :
  n_instrs prog ≤ state → closure_of prog input sp (th state caps) = Wait.
Proof. intros H%Z.leb_le. unfold closure_of. cbn [t_state]. by rewrite H. Qed.

(** One step of the backtracking machine, then the rest of its evaluation. *)
Lemma eval_go pc sp caps pc' sp' caps' r k :
  same_step pc sp caps (Go pc' sp' caps') → eval k [th pc' caps'] sp' r →
  ∃ j, eval j [th pc caps] sp r.
Proof using Hunits.
  intros [[Hc ->]|[(Hc & Ha & -> & -> & Hsp)|(Hc & Ha & Hpc & -> & -> & -> & Hsp)]] He.
  - exists (S k). by eapply ev_push.
  - destruct r; eexists; [by eapply ev_into|eapply ev_into_fails; [done..|constructor]].
  - (* the trail unit of a pair *)
    assert (∃ j, eval j [th (n_instrs prog + pc) caps] (sp + 1) r) as [j Hj].
    { assert (advance prog classTable input (n_instrs prog + pc) (sp + 1) = Into (pc + 1)) as Ha'.
      { unfold advance. rewrite (proj2 (Z.leb_le _ _)) by lia. f_equal. lia. }
      pose proof (closure_beyond (n_instrs prog + pc) (sp + 1) caps ltac:(lia)) as Hc'.
      replace (sp + 2) with (sp + 1 + 1) in He by lia.
      destruct r; eexists; [by eapply ev_into|eapply ev_into_fails; [done..|constructor]]. }
    destruct r; eexists;
      [eapply ev_into; [done..|lia|done]|eapply ev_into_fails; [done..|lia|done|constructor]].
Qed.

Lemma attempt_evals dir pc sp caps r :
  attempt prog classTable input dir pc sp caps r → dir = 1 → ∃ k, eval k [th pc caps] sp r.
Proof using Hsafe Hunits.
  induction 1 as [dir pc sp caps caps' Hp|dir pc sp caps Hp|dir pc sp caps pc' sp' caps' r Hp _ IH
    |dir pc sp caps pc' frame c Hp _ IH|dir pc sp caps pc' frame r Hp _ IH1 _ IH2
    |dir pc sp caps a b sub Hf|dir pc sp caps a b sub pc' sp' caps' r Hf]; intros ->;
    try (apply performs_same_step in Hp).
  - destruct Hp as (Hc & Ha & ->). exists 1%nat. by apply (ev_match _ _ _ (th pc caps)).
  - destruct Hp as [Hc|[Hc Ha]]; [exists 1%nat; by eapply ev_push; [done|constructor]|].
    exists 1%nat. apply ev_dies; [done..|constructor].
  - destruct (IH eq_refl) as [k Hk]. by eapply eval_go.
  - destruct (IH eq_refl) as [k Hk], Hp as [Hc _]. exists (S k). eapply ev_push; [done|].
    by apply (evals_some_app _ _ _ _ [_] [_]).
  - destruct (IH1 eq_refl) as [k Hk], (IH2 eq_refl) as [j Hj], Hp as [Hc Hs].
    exists (S (k + j)). eapply ev_push; [done|]. rewrite Hs in Hj.
    by apply (evals_none_app _ _ _ _ _ [_] [_]).
  - by apply linear_safe_op in Hf; vm_compute in Hf; set_solver.
  - by apply linear_safe_op in Hf; vm_compute in Hf; set_solver.
Qed.

(** The linear search gives what the backtracking attempts give in turn. *)
Lemma searchLinear_attempts (f : Z → option (list Z)) nSlots startIdx sticky :
  (∀ i, Z.max 0 startIdx ≤ i ≤ len input →
    attempt prog classTable input 1 0 i (fresh_caps nSlots) (f i)) →
  searchLinear prog classTable nSlots input startIdx sticky = Ok (leftmost f input startIdx sticky).
Proof using Hsafe Hunits.
  intros Hatt. destruct (searchLinear_terminates prog classTable nSlots input startIdx sticky)
    as [out Hout]. rewrite Hout. f_equal. unfold searchLinear in Hout. unfold leftmost.
  set (start := Z.max 0 startIdx) in *.
  destruct (decide (start ≤ len input)) as [Hle|Hgt].
  - eapply loop_searches; [|exact Hout|lia|constructor|done|done| | |done].
    + intros i Hi. by eapply attempt_evals; [apply Hatt|].
    + apply Forall_replicate. lia.
    + eapply (fresh_all_fail _ _ _ _ _ _ 0); [by apply Forall_replicate|simpl; lia].
  - replace (Z.to_nat (len input + 1 - start)) with 0%nat in * by lia.
    simpl in Hout. by injection Hout as <-.
Qed.

(** So does the hybrid search, whatever the budget and the stack allow. *)
Lemma search_attempts (f : Z → option (list Z)) nG nS startIdx sticky depth :
  (∀ i, Z.max 0 startIdx ≤ i ≤ len input →
    attempt prog classTable input 1 0 i (fresh_caps (2 * nG + nS)) (f i)) →
  search depth prog classTable nG input startIdx sticky nS = Ok (leftmost f input startIdx sticky).
Proof using Hsafe Hunits.
  intros Hatt. unfold search, leftmost. set (start := Z.max 0 startIdx) in *.
  assert (∀ m i, start ≤ i → i + Z.of_nat m = len input + 1 →
    search_loop m depth prog classTable nG input i sticky nS = Ok (first_match f m i sticky))
    as Hloop.
  { induction m as [|m IH]; intros i Hi Hm; [done|]. cbn [search_loop first_match].
    assert (start ≤ i ≤ len input) as Hr by lia.
    destruct (attempt_within prog classTable input nG nS (Z.to_nat (regexStepBudget (len input)))
      depth _ _ _ _ _ None (Hatt i Hr) eq_refl) as [[msg H]|H]; unfold runAt; rewrite H.
    - rewrite Hsafe, (searchLinear_attempts f).
      + unfold leftmost. replace (Z.max 0 i) with i by lia.
        by replace (Z.to_nat (len input + 1 - i)) with (S m) by lia.
      + intros j Hj. apply Hatt. lia.
    - destruct (f i); [done|]. destruct sticky; [done|]. apply IH; lia. }
  destruct (decide (start ≤ len input)); [apply Hloop; lia|].
  by replace (Z.to_nat (len input + 1 - start)) with 0%nat by lia.
Qed.
End attempts.

(** * Searching with a projection of the captures *)

Lemma first_match_map (h : list Z → list Z) f g m i sticky :
  (∀ j, i ≤ j < i + Z.of_nat m → option_map h (f j) = g j) →
  option_map h (first_match f m i sticky) = first_match g m i sticky.
Proof.
  revert i. induction m as [|m IH]; intros i H; [done|]. cbn [first_match].
  rewrite <- (H i) by lia. destruct (f i); [done|]. simpl.
  destruct sticky; [done|]. apply IH. intros j Hj. apply H. lia.
Qed.

(** A choice of results for finitely many positions. *)
Lemma finite_choice {A} (P : Z → A → Prop) (x : A) lo m :
  (∀ i, lo ≤ i < lo + Z.of_nat m → ∃ y, P i y) →
  ∃ f, ∀ i, lo ≤ i < lo + Z.of_nat m → P i (f i).
Proof.
  induction m as [|m IH]; intros H; [by exists (λ _, x); lia|].
  destruct IH as [f Hf]; [intros i Hi; apply H; lia|].
  destruct (H (lo + Z.of_nat m)) as [y Hy]; [lia|].
  exists (λ i, if decide (i = lo + Z.of_nat m) then y else f i). intros i Hi.
  destruct (decide _) as [-> |]; [done|]. apply Hf. lia.
Qed.
