(* ===== verification/ReImpl.v ===== *)
(** When a piece of bytecode implements a matcher of ReSpec: the code between
    two program counters takes every continuation that the code after it
    implements to the matcher applied to that continuation. *)

From S2P Require Import Prelude ReBytecode ReCaseFold ReCompile ReVm ReSpec.

Section implements.
Context (prog classTable : list Z) (input : jsstr).
Context (Hunits : Forall (λ c, 0 ≤ c ≤ 0xffff) input).
(** The capture slots, and all slots of the capture array with the scratch. *)
Context (nCaps nSlots : Z) (HnCaps : 0 ≤ nCaps).

(** [cs] is the captures of the matcher, [cv] the array of the machine. *)
Definition captures (cs cv : list Z) : Prop :=
  Z.of_nat (length cv) = nSlots ∧ cs = take (Z.to_nat nCaps) cv.

(** The scratch slots below [lo] are kept. *)
Definition keeps (lo : Z) (cv cv' : list Z) : Prop :=
  ∀ j, nCaps ≤ j < lo → js_at cv' j = js_at cv j.

(** An attempt from [pc] ends as [o] says; its captures satisfy [Q]. *)
Definition run_ok (Q : list Z → Prop) (dir pc sp : Z) (cv : list Z) (o : option (list Z)) : Prop :=
  ∃ r, attempt prog classTable input dir pc sp cv r ∧
    match o, r with
    | None, None => True
    | Some cs, Some cv' => captures cs cv' ∧ Q cv'
    | _, _ => False
    end.

Definition implements (strict : bool) (dir : Z) (m : cont → cont) (lo pc pc' : Z) : Prop :=
  ∀ Q sp cs cv k, valid input sp → captures cs cv →
    (∀ sp' cs' cv', after input strict dir sp sp' → captures cs' cv' → keeps lo cv cv' →
       run_ok Q dir pc' sp' cv' (k sp' cs')) →
    run_ok Q dir pc sp cv (m k sp cs).

(** * Steps *)

Lemma keeps_refl lo cv : keeps lo cv cv.
Proof. by intros j. Qed.

Lemma keeps_trans lo cv1 cv2 cv3 : keeps lo cv1 cv2 → keeps lo cv2 cv3 → keeps lo cv1 cv3.
Proof. intros H1 H2 j Hj. by rewrite H2, H1. Qed.

Lemma keeps_le lo lo' cv cv' : lo' ≤ lo → keeps lo cv cv' → keeps lo' cv cv'.
Proof. intros Hle H j Hj. apply H. lia. Qed.

Lemma take_ta_set {A} n (l : list A) i v : take n (ta_set l i v) = ta_set (take n l) i v.
Proof.
  unfold ta_set. destruct (i <? 0); [done|]. rewrite take_insert. case_decide; [done|].
  rewrite list_insert_ge; [done|]. rewrite length_take. lia.
Qed.

Lemma captures_set cs cv i v : captures cs cv → captures (ta_set cs i v) (ta_set cv i v).
Proof. intros [H ->]. split; [by rewrite length_ta_set|]. by rewrite take_ta_set. Qed.

Lemma captures_scratch cs cv i v : captures cs cv → nCaps ≤ i → captures cs (ta_set cv i v).
Proof.
  intros [H ->] Hi. split; [by rewrite length_ta_set|]. unfold ta_set.
  destruct (i <? 0); [done|]. by rewrite take_insert, decide_False by lia.
Qed.

Lemma clear_slots_take n cv a b : take n (clear_slots cv a b) = clear_slots (take n cv) a b.
Proof.
  unfold clear_slots. generalize (seqZ a (b - a + 1)). intros l. revert cv.
  induction l as [|i l IH]; intros cv; [done|]. cbn [foldl]. by rewrite IH, take_ta_set.
Qed.

Lemma captures_clear cs cv a b : captures cs cv → captures (clear_slots cs a b) (clear_slots cv a b).
Proof. intros [H ->]. split; [by rewrite length_clear_slots|]. by rewrite clear_slots_take. Qed.

Lemma keeps_set lo cv i v : i < nCaps ∨ lo ≤ i → keeps lo cv (ta_set cv i v).
Proof. intros Hi j Hj. rewrite js_at_ta_set. by rewrite decide_False by lia. Qed.

Lemma keeps_clear lo cv a b : b < nCaps → keeps lo cv (clear_slots cv a b).
Proof.
  intros Hb. unfold clear_slots.
  assert (∀ i, i ∈ seqZ a (b - a + 1) → i < nCaps) as Hl by (intros i ?%elem_of_seqZ; lia).
  revert Hl. generalize (seqZ a (b - a + 1)). intros l Hl. revert cv.
  induction l as [|i l IH]; intros cv; [apply keeps_refl|]. cbn [foldl].
  apply (keeps_trans _ _ (ta_set cv i (-1))).
  - apply keeps_set. left. apply Hl. left.
  - apply IH. intros j Hj. apply Hl. by right.
Qed.

Lemma run_go Q dir pc sp cv pc' sp' cv' o :
  performs prog classTable input dir pc sp cv (Go pc' sp' cv') →
  run_ok Q dir pc' sp' cv' o → run_ok Q dir pc sp cv o.
Proof. intros Hp (r & Hr & Ho). exists r. split; [by eapply att_go|done]. Qed.

Lemma run_fail Q dir pc sp cv :
  performs prog classTable input dir pc sp cv Failed → run_ok Q dir pc sp cv None.
Proof. intros Hp. exists None. split; [by apply att_fail|done]. Qed.

Lemma run_accept Q dir pc sp cs cv :
  performs prog classTable input dir pc sp cv (Accept cv) →
  captures cs cv → Q cv → run_ok Q dir pc sp cv (Some cs).
Proof. intros Hp Hc HQ. exists (Some cv). split; [by apply att_accept|done]. Qed.

Lemma run_fork Q dir pc sp cv a b o1 o2 :
  performs prog classTable input dir pc sp cv
    (Fork a {| f_pc := b; f_sp := sp; f_caps := cv |}) →
  run_ok Q dir a sp cv o1 → run_ok Q dir b sp cv o2 → run_ok Q dir pc sp cv (or_else o1 o2).
Proof.
  intros Hp (r1 & Hr1 & Ho1) (r2 & Hr2 & Ho2). destruct o1 as [c1|], r1 as [v1|]; try done.
  - exists (Some v1). split; [by eapply att_first|done].
  - exists r2. split; [by eapply att_second|done].
Qed.

Lemma fetch_performs op a b dir pc sp cv o :
  fetch prog pc = Some (op, a, b) → op ≠ ReOp.LOOKAROUND →
  exec_op classTable input dir op a b pc sp cv = Ok o →
  performs prog classTable input dir pc sp cv o.
Proof. intros. by exists op, a, b. Qed.

(** * Single instructions *)

Section instructions.
Context (dir : Z) (Hdir : dir = 1 ∨ dir = -1) (lo : Z).

Lemma implements_unit pc op a b p :
  fetch prog pc = Some (op, a, b) →
  op = ReOp.CHAR ∨ op = ReOp.CHARI ∨ op = ReOp.ANY ∨ op = ReOp.CLASS →
  (∀ c, 0 ≤ c ≤ 0xffff → unitMatches op a b classTable c = p c) →
  implements true dir (m_unit input dir p) lo pc (pc + 1).
Proof.
  intros Hf Hop Hp Q sp cs cv k Hsp Hcs Hk. unfold m_unit.
  assert (op ≠ ReOp.LOOKAROUND) as Hne by (by destruct Hop as [->|[->|[->| ->]]]).
  assert (exec_op classTable input dir op a b pc sp cv
    = Ok (if inBounds input dir sp && unitMatches op a b classTable (unit_at input dir sp)
          then Go (pc + 1) (sp + dir) cv else Failed)) as He
    by (by destruct Hop as [->|[->|[->| ->]]]).
  destruct (inBounds input dir sp) eqn:Eb; cbn [andb] in *.
  - rewrite Hp in He by (by apply unit_at_range).
    destruct (p (unit_at input dir sp)); [|eapply run_fail, fetch_performs; done].
    eapply run_go; [by eapply fetch_performs|]. apply Hk; [by apply in_bounds_after|done|].
    apply keeps_refl.
  - eapply run_fail, fetch_performs; done.
Qed.

Lemma implements_code_point pc a b p :
  fetch prog pc = Some (ReOp.CPCLASS, a, b) →
  (∀ c, classMatch classTable a c (negb (b =? 0)) = p c) →
  implements true dir (m_code_point input dir p) lo pc (pc + 1).
Proof.
  intros Hf Hp Q sp cs cv k Hsp Hcs Hk. unfold m_code_point.
  assert (∀ o, exec_op classTable input dir ReOp.CPCLASS a b pc sp cv = Ok o →
    performs prog classTable input dir pc sp cv o) as Hperf by (intros; by eapply fetch_performs).
  change (exec_op classTable input dir ReOp.CPCLASS a b pc sp cv) with
    (Ok (if negb (inBounds input dir sp) then Failed
         else match read_code_point input dir sp with
              | None => Failed
              | Some (codePoint, width) =>
                  if classMatch classTable a codePoint (negb (b =? 0))
                  then Go (pc + 1) (sp + dir * width) cv else Failed
              end)) in Hperf.
  destruct (inBounds input dir sp) eqn:Eb; cbn [negb] in Hperf; [|by apply run_fail, Hperf].
  destruct (read_code_point input dir sp) as [[cp w]|] eqn:Er; [|by apply run_fail, Hperf].
  rewrite Hp in Hperf. destruct (p cp); [|by apply run_fail, Hperf].
  eapply run_go; [by apply Hperf|]. apply Hk; [by eapply code_point_after|done|].
  apply keeps_refl.
Qed.

Lemma implements_assert pc op a :
  fetch prog pc = Some (op, a, 0) → op = ReOp.BOL ∨ op = ReOp.EOL ∨ op = ReOp.WBOUND →
  implements false dir (m_assert input op a) lo pc (pc + 1).
Proof.
  intros Hf Hop Q sp cs cv k Hsp Hcs Hk. unfold m_assert.
  assert (op ≠ ReOp.LOOKAROUND) as Hne by (by destruct Hop as [->|[->| ->]]).
  assert (exec_op classTable input dir op a 0 pc sp cv
    = Ok (if assertionHolds op a input sp then Go (pc + 1) sp cv else Failed)) as He
    by (by destruct Hop as [->|[->| ->]]).
  destruct (assertionHolds op a input sp); [|eapply run_fail, fetch_performs; done].
  eapply run_go; [by eapply fetch_performs|].
  apply Hk; [by apply after_refl|done|apply keeps_refl].
Qed.

Lemma run_jmp Q pc sp cv a o :
  fetch prog pc = Some (ReOp.JMP, a, 0) → run_ok Q dir a sp cv o → run_ok Q dir pc sp cv o.
Proof. intros Hf. by eapply run_go, fetch_performs. Qed.

Lemma run_save Q pc sp cv i o :
  fetch prog pc = Some (ReOp.SAVE, i, 0) →
  run_ok Q dir (pc + 1) sp (ta_set cv i sp) o → run_ok Q dir pc sp cv o.
Proof. intros Hf. by eapply run_go, fetch_performs. Qed.

Lemma run_split Q pc sp cv a b o1 o2 :
  fetch prog pc = Some (ReOp.SPLIT, a, b) →
  run_ok Q dir a sp cv o1 → run_ok Q dir b sp cv o2 → run_ok Q dir pc sp cv (or_else o1 o2).
Proof. intros Hf. by eapply run_fork, fetch_performs. Qed.

(** The two orders of [patch_split]. *)
Lemma run_prefer Q (greedy : bool) pc sp cv body exit o1 o2 :
  fetch prog pc = Some (ReOp.SPLIT, if greedy then body else exit, if greedy then exit else body) →
  run_ok Q dir body sp cv o1 → run_ok Q dir exit sp cv o2 →
  run_ok Q dir pc sp cv (prefer greedy o1 o2).
Proof. intros Hf H1 H2. destruct greedy; by eapply run_split. Qed.

Lemma run_progress Q pc sp sp0 cv i o :
  fetch prog pc = Some (ReOp.PROGRESS, i, 0) → js_at cv i = Some sp0 →
  (sp ≠ sp0 → run_ok Q dir (pc + 1) sp cv o) →
  run_ok Q dir pc sp cv (if sp =? sp0 then None else o).
Proof.
  intros Hf Hi Ho. destruct (Z.eqb_spec sp sp0) as [->|Hne].
  - eapply run_fail, fetch_performs; [done..|]. unfold exec_op. simpl.
    by rewrite bool_decide_true.
  - eapply run_go; [|by apply Ho]. eapply fetch_performs; [done..|]. unfold exec_op. simpl.
    rewrite bool_decide_false; [done|congruence].
Qed.

(** * Composition *)

Lemma implements_weaken (s s' : bool) m lo' pc pc' :
  (s' = true → s = true) → lo' ≤ lo →
  implements s dir m lo pc pc' → implements s' dir m lo' pc pc'.
Proof.
  intros Hs Hlo Hm Q sp cs cv k Hsp Hcs Hk. apply Hm; [done..|]. intros sp' cs' cv' Ha Hc Hkeep.
  apply Hk; [by eapply after_weaken|done|by eapply keeps_le].
Qed.

Lemma implements_nil pc : implements false dir (m_seq []) lo pc pc.
Proof. intros Q sp cs cv k Hsp Hcs Hk. apply Hk; [by apply after_refl|done|apply keeps_refl]. Qed.

Lemma implements_comp (s1 s2 : bool) m1 m2 lo1 pc pc1 pc2 :
  lo ≤ lo1 → implements s1 dir m1 lo pc pc1 → implements s2 dir m2 lo1 pc1 pc2 →
  implements (s1 || s2) dir (λ k, m1 (m2 k)) lo pc pc2.
Proof.
  intros Hlo H1 H2 Q sp cs cv k Hsp Hcs Hk. apply H1; [done..|]. intros sp1 cs1 cv1 Ha1 Hc1 Hk1.
  apply H2; [apply Ha1|done|]. intros sp2 cs2 cv2 Ha2 Hc2 Hk2. apply Hk; [by eapply after_trans|done|].
  eapply keeps_trans; [done|by eapply keeps_le].
Qed.

Lemma implements_once span s m pc pc' :
  match span with
  | Some (a, b) => ∃ pc1, fetch prog pc = Some (ReOp.CLEAR, 2 * a, 2 * b + 1) ∧ pc1 = pc + 1 ∧
                     2 * b + 1 < nCaps ∧ implements s dir m lo pc1 pc'
  | None => implements s dir m lo pc pc'
  end → implements s dir (m_once span m) lo pc pc'.
Proof.
  destruct span as [[a b]|]; [|done]. intros (pc1 & Hf & -> & Hb & Hm) Q sp cs cv k Hsp Hcs Hk.
  eapply run_go; [by eapply fetch_performs|]. unfold m_once, reset.
  apply Hm; [done|by apply captures_clear|]. intros sp1 cs1 cv1 Ha Hc Hkeep.
  apply Hk; [done..|]. eapply keeps_trans; [by apply keeps_clear|done].
Qed.

Lemma implements_opt (greedy : bool) s m pc body pc' :
  fetch prog pc = Some (ReOp.SPLIT, if greedy then body else pc', if greedy then pc' else body) →
  implements s dir m lo body pc' → implements false dir (m_opt greedy m) lo pc pc'.
Proof.
  intros Hf Hm Q sp cs cv k Hsp Hcs Hk. eapply run_prefer; [done| |].
  - apply Hm; [done..|]. intros sp' cs' cv' Ha. apply Hk. by apply (after_weaken _ s).
  - apply Hk; [by apply after_refl|done|apply keeps_refl].
Qed.

Lemma implements_group i s m pc pc1 first second :
  first = (if dir <? 0 then 2 * i + 1 else 2 * i) →
  second = (if dir <? 0 then 2 * i else 2 * i + 1) →
  0 ≤ i → 2 * i + 1 < nCaps →
  fetch prog pc = Some (ReOp.SAVE, first, 0) → fetch prog pc1 = Some (ReOp.SAVE, second, 0) →
  implements s dir m lo (pc + 1) pc1 → implements s dir (m_group dir i m) lo pc (pc1 + 1).
Proof.
  intros H1 H2 Hi Hn Hf1 Hf2 Hm Q sp cs cv k Hsp Hcs Hk. unfold m_group.
  destruct (Z.ltb_spec i 0); [lia|]. rewrite <- H1, <- H2.
  eapply run_save; [done|]. apply Hm; [done|by apply captures_set|].
  intros sp' cs' cv' Ha Hc Hkeep. eapply run_save; [done|].
  apply Hk; [done|by apply captures_set|].
  apply (keeps_trans _ _ (ta_set cv first sp));
    [|eapply keeps_trans; [done|]]; apply keeps_set; left; destruct (dir <? 0); lia.
Qed.
End instructions.

(** * Loops, choices and lookarounds *)

Section loops.
Context (dir : Z) (Hdir : dir = 1 ∨ dir = -1).

Lemma after_false s sp sp' : after input s dir sp sp' → after input false dir sp sp'.
Proof. by apply after_weaken. Qed.

Lemma after_step s sp sp1 sp2 :
  after input s dir sp sp1 → after input false dir sp1 sp2 → after input false dir sp sp2.
Proof.
  intros H1 H2. apply after_false in H1. by apply (after_trans _ false false dir sp sp1).
Qed.

Lemma after_moved s sp sp' : after input s dir sp sp' → sp' ≠ sp → after input true dir sp sp'.
Proof. intros (H1 & H2 & _) Hne. by split_and!. Qed.

(** A loop whose head [pc] offers an iteration or the exit, for every fuel that
    exceeds the remaining length. *)
Lemma run_star Q greedy span m lo pc exit k :
  (∀ n sp cs cv, valid input sp → captures cs cv →
     (∀ sp' cs' cv', after input true dir sp sp' → captures cs' cv' → keeps lo cv cv' →
        run_ok Q dir pc sp' cv' (m_upto n greedy span m k sp' cs')) →
     (∀ cv', captures cs cv' → keeps lo cv cv' → run_ok Q dir exit sp cv' (k sp cs)) →
     run_ok Q dir pc sp cv (m_upto (S n) greedy span m k sp cs)) →
  ∀ n sp cs cv, (remaining input dir sp < n)%nat → valid input sp → captures cs cv →
    (∀ sp' cs' cv', after input false dir sp sp' → captures cs' cv' → keeps lo cv cv' →
       run_ok Q dir exit sp' cv' (k sp' cs')) →
    run_ok Q dir pc sp cv (m_upto n greedy span m k sp cs).
Proof.
  intros Hstep n. induction n as [|n IH]; intros sp cs cv Hn Hsp Hcs Hk; [lia|].
  apply Hstep; [done..| |intros cv' ??; apply Hk; [by apply after_refl|done..]].
  intros sp1 cs1 cv1 Ha Hc1 Hkeep1. apply IH; [|apply Ha|done|].
  - pose proof (remaining_after input dir sp sp1 Hdir Ha). lia.
  - intros sp2 cs2 cv2 Ha2 Hc2 Hkeep2. apply Hk; [by eapply after_step|done|].
    by eapply keeps_trans.
Qed.

Lemma implements_star_guarded (greedy : bool) span s m pc pcb g :
  nCaps ≤ g < nSlots →
  fetch prog pc = Some (ReOp.SAVE, g, 0) →
  fetch prog (pc + 1) = Some (ReOp.SPLIT, if greedy then pc + 2 else pcb + 2,
                                          if greedy then pcb + 2 else pc + 2) →
  implements s dir (m_once span m) (g + 1) (pc + 2) pcb →
  fetch prog pcb = Some (ReOp.PROGRESS, g, 0) →
  fetch prog (pcb + 1) = Some (ReOp.JMP, pc, 0) →
  implements false dir (m_star input greedy span m) g pc (pcb + 2).
Proof.
  intros Hg Hsave Hsplit Hm Hprog Hjmp Q sp cs cv k Hsp Hcs Hk.
  apply (run_star Q greedy span m g pc (pcb + 2)); [|by apply remaining_bound|done..].
  clear sp cs cv Hsp Hcs Hk. intros n sp cs cv Hsp Hcs Hiter Hexit.
  assert (js_at (ta_set cv g sp) g = Some sp) as Hguard.
  { rewrite js_at_ta_set, decide_True; [done|]. destruct Hcs as [-> _]. lia. }
  assert (captures cs (ta_set cv g sp)) as Hcs1 by (apply captures_scratch; [done|lia]).
  assert (keeps g cv (ta_set cv g sp)) as Hkeep1 by (apply keeps_set; lia).
  eapply run_save; [done|]. cbn [m_upto]. eapply run_prefer; [done| |by apply Hexit].
  apply Hm; [done..|]. intros sp1 cs1 cv1 Ha Hc1 Hkeep2.
  eapply run_progress; [done| |].
  - rewrite Hkeep2 by lia. exact Hguard.
  - intros Hne. eapply run_jmp; [done|]. apply Hiter; [by eapply after_moved|done|].
    eapply keeps_trans; [done|]. eapply keeps_le; [|done]. lia.
Qed.

Lemma implements_star (greedy : bool) span m lo pc pcb :
  fetch prog pc = Some (ReOp.SPLIT, if greedy then pc + 1 else pcb + 1,
                                    if greedy then pcb + 1 else pc + 1) →
  implements true dir (m_once span m) lo (pc + 1) pcb →
  fetch prog pcb = Some (ReOp.JMP, pc, 0) →
  implements false dir (m_star input greedy span m) lo pc (pcb + 1).
Proof.
  intros Hsplit Hm Hjmp Q sp cs cv k Hsp Hcs Hk.
  apply (run_star Q greedy span m lo pc (pcb + 1)); [|by apply remaining_bound|done..].
  clear sp cs cv Hsp Hcs Hk. intros n sp cs cv Hsp Hcs Hiter Hexit.
  cbn [m_upto]. eapply run_prefer; [done| |by apply Hexit, keeps_refl].
  apply Hm; [done..|]. intros sp1 cs1 cv1 Ha Hc1 Hkeep.
  destruct (Z.eqb_spec sp1 sp) as [->|Hne]; [by destruct Ha as (_ & _ & Ha); destruct Ha|].
  eapply run_jmp; [done|]. by apply Hiter.
Qed.

Lemma implements_plus (greedy : bool) span m lo pc pcb :
  implements true dir (m_once span m) lo pc pcb →
  fetch prog pcb = Some (ReOp.SPLIT, if greedy then pc else pcb + 1,
                                     if greedy then pcb + 1 else pc) →
  implements true dir (λ k, m_once span m (m_star input greedy span m k)) lo pc (pcb + 1).
Proof.
  intros Hm Hsplit Q sp cs cv k Hsp Hcs Hk. apply Hm; [done..|]. intros sp1 cs1 cv1 Ha1 Hc1 Hkeep1.
  apply (run_star Q greedy span m lo pcb (pcb + 1));
    [|apply remaining_bound, Ha1|apply Ha1|done|].
  - clear sp cs cv Hsp Hcs Hk sp1 cs1 cv1 Ha1 Hc1 Hkeep1.
    intros n sp cs cv Hsp Hcs Hiter Hexit.
    cbn [m_upto]. eapply run_prefer; [done| |by apply Hexit, keeps_refl].
    apply Hm; [done..|]. intros sp1 cs1 cv1 Ha Hc1 Hkeep.
    destruct (Z.eqb_spec sp1 sp) as [->|Hne]; [by destruct Ha as (_ & _ & Ha); destruct Ha|].
    by apply Hiter.
  - intros sp2 cs2 cv2 Ha2 Hc2 Hkeep2. apply Hk; [|done|by eapply keeps_trans].
    by apply (after_trans _ true false dir sp sp1).
Qed.

(** The code of a choice: each alternative but the last behind a [SPLIT]. *)
Fixpoint alternatives (s : bool) (lo : Z) (ms : list (cont → cont)) (pc exit : Z) : Prop :=
  match ms with
  | [] => False
  | m :: ms' =>
      match ms' with
      | [] => implements s dir m lo pc exit
      | _ => ∃ pcb, fetch prog pc = Some (ReOp.SPLIT, pc + 1, pcb + 1) ∧
               implements s dir m lo (pc + 1) pcb ∧ fetch prog pcb = Some (ReOp.JMP, exit, 0) ∧
               alternatives s lo ms' (pcb + 1) exit
      end
  end.

Lemma or_else_none {A} (x : option A) : or_else x None = x.
Proof. by destruct x. Qed.

Lemma implements_choice s lo ms pc exit :
  alternatives s lo ms pc exit → implements s dir (m_choice ms) lo pc exit.
Proof.
  revert pc. induction ms as [|m ms IH]; intros pc Halt; [done|].
  intros Q sp cs cv k Hsp Hcs Hk. change (m_choice (m :: ms) k sp cs)
    with (or_else (m k sp cs) (m_choice ms k sp cs)). destruct ms as [|m2 ms].
  - unfold m_choice at 1. cbn [foldr]. rewrite or_else_none. by apply Halt.
  - destruct Halt as (pcb & Hsplit & Hm & Hjmp & Halt). eapply run_split; [done| |by apply IH].
    apply Hm; [done..|]. intros sp' cs' cv' Ha Hc Hkeep. eapply run_jmp; [done|]. by apply Hk.
Qed.

(** A lookaround runs its sub-program and keeps its captures, or drops them. *)
Lemma implements_look (negated behind : bool) m lo pc a b :
  fetch prog pc = Some (ReOp.LOOKAROUND, a, b) →
  b = ((if negated then 1 else 0) .| (if behind then 2 else 0)) →
  (∀ sp cs cv, valid input sp → captures cs cv →
     run_ok (keeps lo cv) (dir_of behind) a sp cv (m (λ _ cs', Some cs') sp cs)) →
  implements false dir (m_look negated m) lo pc (pc + 1).
Proof.
  intros Hf Hb Hsub Q sp cs cv k Hsp Hcs Hk.
  assert (lookaround_dir b = dir_of behind) as Hd by (subst b; by destruct negated, behind).
  assert (negb (b .& 1 =? 0) = negated) as Hn by (subst b; by destruct negated, behind).
  destruct (Hsub sp cs cv Hsp Hcs) as (r & Hr & Ho). rewrite <- Hd in Hr.
  assert (∀ cs' cv', captures cs' cv' → keeps lo cv cv' → run_ok Q dir (pc + 1) sp cv' (k sp cs'))
    as Hgo by (intros; apply Hk; [by apply after_refl|done..]).
  assert (∀ cv' o, after_lookaround b pc sp cv r = Go (pc + 1) sp cv' →
    run_ok Q dir (pc + 1) sp cv' o → run_ok Q dir pc sp cv o) as Hstep.
  { intros cv' o Ha (r' & Hr' & Ho'). exists r'. split; [by eapply att_look_go|done]. }
  assert (after_lookaround b pc sp cv r = Failed → run_ok Q dir pc sp cv None) as Hfail.
  { intros Ha. exists None. split; [by eapply att_look_fail|done]. }
  unfold after_lookaround in Hstep, Hfail. rewrite Hn in Hstep, Hfail. unfold m_look.
  destruct (m _ sp cs) as [cs'|], r as [cv'|]; try done.
  - destruct Ho as [Hc Hkeep]. destruct negated; [by apply Hfail|].
    eapply Hstep; [done|]. by apply Hgo.
  - destruct negated; [|by apply Hfail]. eapply Hstep; [done|]. apply Hgo; [done|apply keeps_refl].
Qed.
End loops.
End implements.
