(* ===== verification/ReEmit.v ===== *)
(** What the emitter leaves alone: every step of the compiler appends to the
    instructions, the class table and the queue of sub-programs, and patches
    only what it appended itself. *)

From S2P Require Import Prelude ReBytecode ReCaseFold ReCompile.

Definition instr_at (e : Emitter) (pc : Z) : option (Z * Z * Z) := js_at (instrs e) pc.

(** The instruction at [pc] is a [LOOKAROUND] (whatever its operands). *)
Definition look_at (e : Emitter) (pc : Z) : Prop :=
  ∃ a b, instr_at e pc = Some (ReOp.LOOKAROUND, a, b).

Definition next_slot (e : Emitter) : Z := scratchBase e + scratchCount e.

Record core (e e' : Emitter) : Prop := {
  c_instrs : instrs e `prefix_of` instrs e';
  c_classes : e_classTable e `prefix_of` e_classTable e';
  c_unicode : unicode e' = unicode e;
  c_base : scratchBase e' = scratchBase e;
  c_count : scratchCount e ≤ scratchCount e';
  c_subs : ∃ new, pendingSubs e' = pendingSubs e ++ new
    ∧ Forall (λ p, here e ≤ patchPc p < here e' ∧ look_at e' (patchPc p)) new
    ∧ NoDup (patchPc <$> new) }.

Record same_modes (e e' : Emitter) : Prop := {
  sm_ci : caseInsensitive e' = caseInsensitive e;
  sm_da : dotAll e' = dotAll e;
  sm_ml : multiline e' = multiline e;
  sm_rev : reversed e' = reversed e }.

Definition frame (e e' : Emitter) : Prop := core e e' ∧ same_modes e e'.

(** * Facts *)

Lemma here_pos e : 0 ≤ here e.
Proof. unfold here. lia. Qed.

Lemma here_emit op a b e : here (emit op a b e) = here e + 1.
Proof. unfold here, emit. simpl. rewrite length_app. simpl. lia. Qed.

Lemma here_patchA pc a e : here (patchA pc a e) = here e.
Proof. unfold here, patchA. simpl. by rewrite length_alter. Qed.

Lemma here_patchB pc b e : here (patchB pc b e) = here e.
Proof. unfold here, patchB. simpl. by rewrite length_alter. Qed.

Lemma here_addClass rs e : here (addClass rs e).2 = here e.
Proof. done. Qed.

Lemma here_core e e' : core e e' → here e ≤ here e'.
Proof. intros [Hp _ _ _ _ _]. apply prefix_length in Hp. unfold here. lia. Qed.

Lemma instr_lt e pc i : instr_at e pc = Some i → 0 ≤ pc < here e.
Proof. apply js_at_lt. Qed.

Lemma instr_emit op a b e : instr_at (emit op a b e) (here e) = Some (op, a, b).
Proof. unfold instr_at, here, emit. simpl. by rewrite js_at_nat, lookup_app_r, Nat.sub_diag by lia. Qed.

Lemma instr_prefix e e' pc i :
  instrs e `prefix_of` instrs e' → instr_at e pc = Some i → instr_at e' pc = Some i.
Proof.
  unfold instr_at. rewrite !js_at_Some. intros Hp [Hpc Hi]. split; [done|].
  by eapply prefix_lookup_Some.
Qed.

Lemma instr_core e e' pc i : core e e' → instr_at e pc = Some i → instr_at e' pc = Some i.
Proof. intros [Hp _ _ _ _ _]. by apply instr_prefix. Qed.

Lemma instr_patchA pc a e pc' :
  0 ≤ pc → instr_at (patchA pc a e) pc' =
  if decide (pc = pc') then (λ '(op, _, b), (op, a, b)) <$> instr_at e pc' else instr_at e pc'.
Proof.
  intros Hpc. unfold instr_at, js_at, patchA. simpl. destruct (Z.ltb_spec pc' 0).
  - by rewrite decide_False by lia.
  - case_decide as Hd; [subst; by rewrite list_lookup_alter_eq|].
    by rewrite list_lookup_alter_ne by lia.
Qed.

Lemma instr_patchB pc b e pc' :
  0 ≤ pc → instr_at (patchB pc b e) pc' =
  if decide (pc = pc') then (λ '(op, a, _), (op, a, b)) <$> instr_at e pc' else instr_at e pc'.
Proof.
  intros Hpc. unfold instr_at, js_at, patchB. simpl. destruct (Z.ltb_spec pc' 0).
  - by rewrite decide_False by lia.
  - case_decide as Hd; [subst; by rewrite list_lookup_alter_eq|].
    by rewrite list_lookup_alter_ne by lia.
Qed.

Lemma look_patchA pc a e pc' : 0 ≤ pc → look_at e pc' → look_at (patchA pc a e) pc'.
Proof.
  intros Hpc (x & b & Hi). unfold look_at. rewrite instr_patchA, Hi by done.
  case_decide; simpl; by eexists _, _.
Qed.

Lemma look_patchB pc b e pc' : 0 ≤ pc → look_at e pc' → look_at (patchB pc b e) pc'.
Proof.
  intros Hpc (a & x & Hi). unfold look_at. rewrite instr_patchB, Hi by done.
  case_decide; simpl; by eexists _, _.
Qed.

Lemma look_core e e' pc : core e e' → look_at e pc → look_at e' pc.
Proof. intros Hc (a & b & Hi). exists a, b. by eapply instr_core. Qed.

(** A step that queues no sub-program. *)
Lemma core_plain e e' :
  instrs e `prefix_of` instrs e' → e_classTable e `prefix_of` e_classTable e' →
  unicode e' = unicode e → scratchBase e' = scratchBase e → scratchCount e ≤ scratchCount e' →
  pendingSubs e' = pendingSubs e → core e e'.
Proof.
  intros. split; [done..|]. exists []. rewrite app_nil_r.
  split_and!; [done|constructor|constructor].
Qed.

Lemma core_refl e : core e e.
Proof. by apply core_plain. Qed.

Lemma core_trans e1 e2 e3 : core e1 e2 → core e2 e3 → core e1 e3.
Proof.
  intros H12 H23. pose proof (here_core _ _ H12). pose proof (here_core _ _ H23).
  pose proof (λ pc, look_core _ _ pc H23) as Hlook.
  destruct H12 as [A1 A2 A3 A4 A5 (n1 & A6 & A7 & A8)], H23 as [B1 B2 B3 B4 B5 (n2 & B6 & B7 & B8)].
  split; [by etrans|by etrans|congruence|congruence|lia|].
  exists (n1 ++ n2). split_and!.
  - by rewrite B6, A6, app_assoc.
  - apply Forall_app. split.
    + eapply Forall_impl; [exact A7|]. intros p [Hp Hl]. simpl. split; [lia|by apply Hlook].
    + eapply Forall_impl; [exact B7|]. intros p [Hp Hl]. simpl. split; [lia|done].
  - rewrite fmap_app. apply list.NoDup_app. split_and!; [done| |done].
    intros pc (p & -> & Hp)%list_elem_of_fmap (q & Hpq & Hq)%list_elem_of_fmap.
    rewrite list.Forall_forall in A7, B7. apply A7 in Hp as [Hp _]. apply B7 in Hq as [Hq _]. lia.
Qed.

Lemma same_modes_refl e : same_modes e e.
Proof. done. Qed.

Lemma same_modes_trans e1 e2 e3 : same_modes e1 e2 → same_modes e2 e3 → same_modes e1 e3.
Proof. intros [] []. split; congruence. Qed.

#[global] Instance frame_preorder : PreOrder frame.
Proof.
  split.
  - intros e. split; [apply core_refl|done].
  - intros e1 e2 e3 [] []. split; [by eapply core_trans|by eapply same_modes_trans].
Qed.

Lemma frame_core e e' : frame e e' → core e e'.
Proof. by intros []. Qed.

Lemma frame_emit op a b e : frame e (emit op a b e).
Proof. split; [|done]. apply core_plain; try done. by eexists. Qed.

Lemma frame_alloc e : frame e (allocScratch e).2.
Proof. split; [|done]. apply core_plain; simpl; try done. lia. Qed.

Lemma frame_addClass rs e : frame e (addClass rs e).2.
Proof. split; [|done]. apply core_plain; try done. by eexists. Qed.

(** Patching an instruction that was appended since [e]. *)
Lemma prefix_alter {A} (f : A → A) (l l' : list A) i :
  l `prefix_of` l' → (length l ≤ i)%nat → l `prefix_of` alter f i l'.
Proof. intros [k ->] Hi. rewrite alter_app_r_alt by done. by eexists. Qed.

Lemma core_patched e e1 e2 :
  core e e1 → instrs e `prefix_of` instrs e2 → here e2 = here e1 →
  (∀ pc, look_at e1 pc → look_at e2 pc) →
  e_classTable e2 = e_classTable e1 → unicode e2 = unicode e1 → scratchBase e2 = scratchBase e1 →
  scratchCount e2 = scratchCount e1 → pendingSubs e2 = pendingSubs e1 → core e e2.
Proof.
  intros [A1 A2 A3 A4 A5 (n & A6 & A7 & A8)] Hp Hh Hl Hct Hu Hb Hcnt Hs.
  split; [done|by rewrite Hct|congruence|congruence|by rewrite Hcnt|].
  exists n. rewrite Hs. split_and!; [done| |done].
  rewrite Hh. eapply Forall_impl; [exact A7|]. intros p []. split; auto.
Qed.

Lemma frame_patchA e e1 pc a : frame e e1 → here e ≤ pc → frame e (patchA pc a e1).
Proof.
  intros [Hc Hm] Hpc. pose proof (here_pos e). split; [|by destruct Hm].
  eapply core_patched; [done| |apply here_patchA|intros; apply look_patchA; [lia|done]|done..].
  apply prefix_alter; [apply Hc|]. unfold here in Hpc. lia.
Qed.

Lemma frame_patchB e e1 pc b : frame e e1 → here e ≤ pc → frame e (patchB pc b e1).
Proof.
  intros [Hc Hm] Hpc. pose proof (here_pos e). split; [|by destruct Hm].
  eapply core_patched; [done| |apply here_patchB|intros; apply look_patchB; [lia|done]|done..].
  apply prefix_alter; [apply Hc|]. unfold here in Hpc. lia.
Qed.

Lemma frame_trans e1 e2 e3 : frame e1 e2 → frame e2 e3 → frame e1 e3.
Proof. apply transitivity. Qed.

Lemma frame_then_emit e e1 op a b : frame e e1 → frame e (emit op a b e1).
Proof. intros H. eapply frame_trans; [done|apply frame_emit]. Qed.

Lemma frame_clear e body : frame e (emitClearForBody body e).
Proof. unfold emitClearForBody. destruct (captureSpan body) as [[]|]; [apply frame_emit|done]. Qed.

Lemma frame_patch_split e e1 greedy split body exit :
  frame e e1 → here e ≤ split → frame e (patch_split greedy split body exit e1).
Proof.
  intros. unfold patch_split. destruct greedy; by repeat (apply frame_patchA || apply frame_patchB).
Qed.

Lemma frame_guard e body : frame e (alloc_guard body e).2.
Proof. unfold alloc_guard. destruct (canMatchEmpty body); [apply frame_alloc|done]. Qed.

Create HintDb frame.
#[export] Hint Resolve frame_emit frame_alloc frame_addClass frame_clear frame_patch_split
  frame_guard frame_patchA frame_patchB : frame.

(** * Every operation of the compiler extends the emitter *)

Definition framed (body : Emitter → result Emitter) : Prop :=
  ∀ e e', body e = Ok e' → frame e e'.

Lemma frame_here e e' : frame e e' → here e ≤ here e'.
Proof. intros [H _]. by apply here_core. Qed.

Lemma emit_alternatives_framed bodies jmps e e' jmps' :
  Forall framed bodies → emit_alternatives bodies jmps e = Ok (e', jmps') →
  frame e e' ∧ ∃ new, jmps' = jmps ++ new ∧ Forall (λ j, here e ≤ j < here e') new.
Proof.
  intros Hb. revert jmps e. induction Hb as [|body bodies Hbody Hb IH]; intros jmps e He; simpl in He.
  - injection He as <- <-. split; [done|]. exists []. by rewrite app_nil_r.
  - destruct bodies as [|body2 bodies].
    + inv_bind He. injection He as <- <-. split; [by apply Hbody|].
      exists []. by rewrite app_nil_r.
    + inv_bind He. rename a into e1. apply Hbody in E.
      assert (frame e e1) as H1.
      { eapply frame_trans; [|exact E]. apply frame_patchA; [apply frame_emit|done]. }
      pose proof (frame_here _ _ E) as Hh. rewrite here_patchA, here_emit in Hh.
      assert (frame e (patchB (here e) (here (emit ReOp.JMP 0 0 e1)) (emit ReOp.JMP 0 0 e1))) as H2
        by (apply frame_patchB; [by apply frame_then_emit|done]).
      apply IH in He as [H3 (new & -> & Hnew)]. pose proof (frame_here _ _ H3) as Hh3.
      rewrite here_patchB, here_emit in Hh3.
      split; [by eapply frame_trans|]. exists (here e1 :: new). split; [by rewrite <- app_assoc|].
      constructor; [lia|]. eapply Forall_impl; [exact Hnew|]. simpl.
      intros j. rewrite here_patchB, here_emit. lia.
Qed.

Lemma frame_patch_all e e1 end_ js :
  frame e e1 → Forall (λ j, here e ≤ j) js → frame e (foldl (λ e j, patchA j end_ e) e1 js).
Proof.
  intros H1 Hjs. revert e1 H1. induction Hjs as [|j js Hj _ IH]; intros e1 H1; [done|].
  cbn [foldl]. apply IH. by apply frame_patchA.
Qed.

Lemma emit_choice_framed bodies : Forall framed bodies → framed (emit_choice bodies).
Proof.
  intros Hb e e' He. unfold emit_choice in He. inv_bind He. destruct a as [e1 jmps].
  injection He as <-. destruct (emit_alternatives_framed _ _ _ _ _ Hb E) as [H1 (new & -> & Hn)].
  apply frame_patch_all; [done|]. eapply Forall_impl; [exact Hn|]. simpl. lia.
Qed.

Lemma emit_seq_framed bodies : Forall framed bodies → framed (emit_seq bodies).
Proof.
  intros Hb. induction Hb as [|body bodies Hbody _ IH]; intros e e' He; unfold emit_seq in *;
    simpl in He; [by injection He as <-|].
  inv_bind He. eapply frame_trans; [by apply Hbody|]. by apply IH.
Qed.

Lemma emit_codes_framed codes e : frame e (emit_codes codes e).
Proof.
  unfold emit_codes. assert (∀ e1, frame e e1 →
    frame e (foldl (λ e code, emit ReOp.CHAR code 0 e) e1 codes)) as H; [|by apply H].
  induction codes as [|c codes IH]; intros e1 H1; [done|]. cbn [foldl]. apply IH.
  by apply frame_then_emit.
Qed.

Lemma emit_trie_framed fuel lits : framed (emitLitAltGrouped fuel lits).
Proof.
  revert lits. induction fuel as [|fuel IH]; intros lits; [done|]. cbn [emitLitAltGrouped].
  apply emit_choice_framed. apply list.Forall_forall. intros body (b & <- & _)%list_elem_of_In%in_map_iff.
  intros e e' He. destruct b as [|c suffixes]; [by injection He as <-|].
  eapply frame_trans; [apply (frame_emit ReOp.CHAR c 0)|].
  destruct suffixes as [|s [|s2 suffixes]]; [by eapply IH| |by eapply IH].
  injection He as <-. apply emit_codes_framed.
Qed.

Lemma star_framed node greedy body : framed body → framed (compile_star node greedy body).
Proof.
  intros Hb e e' He. unfold compile_star in He. destruct (alloc_guard node e) as [g e1] eqn:Eg.
  assert (frame e e1) as H1 by (pose proof (frame_guard e node) as H; by rewrite Eg in H).
  inv_bind He. apply Hb in E. injection He as <-.
  set (e2 := if 0 <=? g then emit ReOp.SAVE g 0 e1 else e1) in *.
  assert (frame e e2) as H2 by (subst e2; destruct (0 <=? g); [by apply frame_then_emit|done]).
  apply frame_patch_split; [|by apply frame_here].
  apply frame_then_emit. assert (frame e a) as H3.
  { eapply frame_trans; [|exact E]. eapply frame_trans; [|apply frame_clear].
    by apply frame_then_emit. }
  destruct (0 <=? g); [by apply frame_then_emit|done].
Qed.

Lemma plus_framed node greedy body : framed body → framed (compile_plus node greedy body).
Proof.
  intros Hb e e' He. unfold compile_plus in He. destruct (alloc_guard node e) as [g e1] eqn:Eg.
  assert (frame e e1) as H1 by (pose proof (frame_guard e node) as H; by rewrite Eg in H).
  destruct (g <? 0); inv_bind He; apply Hb in E.
  - injection He as <-. assert (frame e a) as H3
      by (eapply frame_trans; [|exact E]; eapply frame_trans; [exact H1|apply frame_clear]).
    apply frame_patch_split; [by apply frame_then_emit|by apply frame_here].
  - apply star_framed in He; [|done]. eapply frame_trans; [exact H1|].
    eapply frame_trans; [apply frame_clear|]. by eapply frame_trans.
Qed.

Lemma opt_framed greedy body : framed body → framed (compile_opt greedy body).
Proof.
  intros Hb e e' He. unfold compile_opt in He. inv_bind He. apply Hb in E. injection He as <-.
  apply frame_patch_split; [|done]. eapply frame_trans; [apply frame_emit|exact E].
Qed.

Lemma for_n_framed n i body : framed body → framed (for_n n i (λ _, body)).
Proof.
  intros Hb. revert i. induction n as [|n IH]; intros i e e' He; simpl in He; [by injection He as <-|].
  inv_bind He. eapply frame_trans; [by apply Hb|by eapply IH].
Qed.

Lemma repeat_framed node min max greedy body :
  framed body → framed (compileRepeat node min max greedy body).
Proof.
  intros Hb e e' He. unfold compileRepeat in He. destruct (_ && _); [done|].
  inv_bind He. eapply frame_trans; [by eapply for_n_framed|]. destruct (max =? -1).
  - by eapply star_framed.
  - eapply for_n_framed; [|done]. by apply opt_framed.
Qed.

Section node.
Context (toUpperCase : jsstr → jsstr).
Abbreviation compileNode := (compileNode toUpperCase).

Lemma char_frame code e : frame e (compile_char toUpperCase code e).
Proof.
  unfold compile_char. destruct (negb _); [apply frame_emit|]. destruct (unicode e); [apply frame_emit|].
  assert (∀ us, frame e (emit ReOp.CLASS (addClass us e).1 0 (addClass us e).2)) as H
    by (intros; apply frame_then_emit, frame_addClass).
  destruct (foldCharUnitsLegacy toUpperCase code) as [|u [|u2 us]]; [apply H|apply frame_emit|apply H].
Qed.

Lemma class_frame op ranges negated e :
  frame e (emit op (addClass ranges e).1 (if negated : bool then 1 else 0) (addClass ranges e).2).
Proof. apply frame_then_emit, frame_addClass. Qed.

Lemma look_frame n negated behind e : frame e (compile_lookaround n negated behind e).
Proof.
  unfold compile_lookaround. set (fl := _ .| _). split; [|done]. split; try done.
  - by eexists.
  - eexists. split; [done|]. split; [|by apply NoDup_singleton].
    constructor; [|constructor]. cbn [patchPc]. pose proof (here_emit ReOp.LOOKAROUND 0 fl e).
    unfold here in *. simpl in *. split; [lia|]. exists 0, fl.
    apply (instr_emit ReOp.LOOKAROUND 0 fl e).
Qed.

Lemma core_set_modes_l e e' ci da ml rev : core (set_modes ci da ml rev e) e' → core e e'.
Proof. by intros [A1 A2 A3 A4 A5 A6]. Qed.

Lemma core_set_modes_r e e' ci da ml rev : core e e' → core e (set_modes ci da ml rev e').
Proof. by intros [A1 A2 A3 A4 A5 A6]. Qed.

Lemma modGroup_framed add remove body : framed body → framed (compile_modGroup add remove body).
Proof.
  intros Hb e e' He. unfold compile_modGroup in He. inv_bind He. injection He as <-.
  apply Hb in E as [Hc Hm]. split.
  - by eapply core_set_modes_r, core_set_modes_l.
  - destruct Hm as [_ _ _ Hr]. by split.
Qed.

Lemma group_framed i body : framed body → framed (compile_group i body).
Proof.
  intros Hb e e' He. unfold compile_group in He. destruct (i <? 0); [by apply Hb|].
  inv_bind He. injection He as <-. apply frame_then_emit. eapply frame_trans; [apply frame_emit|].
  by apply Hb.
Qed.

Lemma alt_framed options bodies :
  Forall framed bodies →
  framed (λ e, match tryEmitLiteralAltTrie options e with
               | Some r => r
               | None => emit_choice bodies e
               end).
Proof.
  intros Hb e e' He. destruct (tryEmitLiteralAltTrie options e) as [r|] eqn:E;
    [|by eapply emit_choice_framed].
  unfold tryEmitLiteralAltTrie in E. destruct (caseInsensitive e); [done|].
  destruct (_ <? _)%nat; [done|]. destruct (literal_options options) as [lits|]; [|done].
  change (Some (emitLitAltGrouped (trie_fuel lits) lits e) = Some r) in E.
  apply (inj Some) in E. subst r. by eapply emit_trie_framed.
Qed.

Lemma compileNode_framed n : framed (compileNode n).
Proof.
  induction n using ReNode_ind'; cbn [ReCompile.compileNode];
    try (intros e e' [= <-]); try apply frame_emit.
  - apply char_frame.
  - apply (class_frame ReOp.CLASS).
  - apply (class_frame ReOp.CPCLASS).
  - apply look_frame.
  - by apply modGroup_framed.
  - apply (class_frame ReOp.CPCLASS _ false).
  - apply emit_seq_framed. by apply Forall_fmap.
  - apply alt_framed. by apply Forall_fmap.
  - by apply star_framed.
  - by apply plus_framed.
  - by apply opt_framed.
  - by apply repeat_framed.
  - by apply group_framed.
Qed.
End node.
