(* ===== verification/ReQueue.v ===== *)
(** The queue of sub-programs: what a node adds to it, why the drain loop of the
    compiler comes to an end, and that compilation never runs out of fuel. *)

From S2P Require Import Prelude ReBytecode ReCaseFold ReCompile ReSpec ReEmit.

(** Sub-programs that a queue still stands for, nested ones included. *)
Definition load (ps : list PendingSub) : nat :=
  sum_list_with (λ p, S (lookarounds (ps_node p))) ps.

Lemma load_app ps qs : load (ps ++ qs) = (load ps + load qs)%nat.
Proof. apply sum_list_with_app. Qed.

Lemma lookarounds_list_reverse ns :
  sum_list_with lookarounds (reverse ns) = sum_list_with lookarounds ns.
Proof. apply sum_list_with_reverse. Qed.

Lemma lookarounds_reverse n : lookarounds (reverseNode n) = lookarounds n.
Proof.
  assert (∀ ns, Forall (λ n, lookarounds (reverseNode n) = lookarounds n) ns →
    sum_list_with lookarounds (map reverseNode ns) = sum_list_with lookarounds ns) as Hmap.
  { intros ns H. induction H as [|m ns Hm _ IH]; [done|]. simpl. by rewrite Hm, IH. }
  induction n using ReNode_ind'; cbn [reverseNode lookarounds]; try done; try congruence.
  - rewrite lookarounds_list_reverse. by apply Hmap.
  - by apply Hmap.
Qed.

(** A property of trees that their subtrees and their reverses share. *)
Class Hereditary (ok : ReNode → bool) : Prop := {
  h_reverse n : ok (reverseNode n) = ok n;
  h_look n neg b : ok (NLookaround n neg b) = true → ok n = true;
  h_mod a r n : ok (NModGroup a r n) = true → ok n = true;
  h_concat ns : ok (NConcat ns) = true → forallb ok ns = true;
  h_alt ns : ok (NAlt ns) = true → forallb ok ns = true;
  h_star n g : ok (NStar n g) = true → ok n = true;
  h_plus n g : ok (NPlus n g) = true → ok n = true;
  h_opt n g : ok (NOpt n g) = true → ok n = true;
  h_repeat n lo hi g : ok (NRepeat n lo hi g) = true → ok n = true;
  h_group n i s : ok (NGroup n i s) = true → ok n = true }.

#[export] Instance well_formed_hereditary nG : Hereditary (well_formed nG).
Proof.
  split; intros; cbn [well_formed] in *; try done;
    try (match goal with H : _ && _ = true |- _ => by apply andb_true_iff in H as [_ ?] end).
  apply well_formed_reverse.
Qed.

#[export] Instance any_hereditary : Hereditary (λ _, true).
Proof. split; try done; intros; by apply forallb_forall. Qed.

Section queue.
Context (ok : ReNode → bool) `{!Hereditary ok}.

(** [body] queues sub-programs of load at most [c], with trees that are [ok]. *)
Definition queues (c : nat) (body : Emitter → result Emitter) : Prop :=
  ∀ e e', body e = Ok e' → ∃ new, pendingSubs e' = pendingSubs e ++ new ∧
    (load new ≤ c)%nat ∧ Forall (λ p, ok (ps_node p) = true) new.

Lemma queues_none (body : Emitter → result Emitter) :
  (∀ e e', body e = Ok e' → pendingSubs e' = pendingSubs e) → queues 0 body.
Proof.
  intros H e e' He. exists []. rewrite app_nil_r. split_and!; [by apply H|done|constructor].
Qed.

Lemma queues_le c c' body : (c ≤ c')%nat → queues c body → queues c' body.
Proof.
  intros Hle H e e' He. destruct (H e e' He) as (new & ? & ? & ?). exists new. split_and!; [done|lia|done].
Qed.

Lemma queues_bind c1 c2 body1 body2 :
  queues c1 body1 → queues c2 body2 → queues (c1 + c2) (λ e, e ← body1 e; body2 e).
Proof.
  intros H1 H2 e e' He. inv_bind He. destruct (H1 _ _ E) as (n1 & Hn1 & Hl1 & Hw1).
  destruct (H2 _ _ He) as (n2 & Hn2 & Hl2 & Hw2). exists (n1 ++ n2).
  rewrite Hn2, Hn1, <- app_assoc, load_app. split_and!; [done|lia|]. by apply Forall_app.
Qed.

(** Steps before and after that leave the queue alone. *)
Lemma queues_frame c body (f : Emitter → Emitter) (g : Emitter → Emitter → Emitter) :
  (∀ e, pendingSubs (f e) = pendingSubs e) → (∀ e e1, pendingSubs (g e e1) = pendingSubs e1) →
  queues c body → queues c (λ e, e1 ← body (f e); Ok (g e e1)).
Proof.
  intros Hf Hg H e e' He. inv_bind He. injection He as <-. destruct (H _ _ E) as (new & Hn & ?).
  exists new. by rewrite Hg, Hn, Hf.
Qed.

Lemma queues_seq (cs : list nat) bodies :
  Forall2 queues cs bodies → queues (sum_list cs) (emit_seq bodies).
Proof.
  induction 1 as [|c body cs bodies Hb _ IH]; [apply queues_none; by intros e e' [= <-]|].
  apply (queues_bind _ _ _ _ Hb IH).
Qed.

Lemma queues_for_n c body n i : queues c body → queues (n * c) (for_n n i (λ _, body)).
Proof.
  intros Hb. revert i. induction n as [|n IH]; intros i.
  - apply queues_none. by intros e e' [= <-].
  - apply (queues_bind _ _ _ _ Hb (IH (i + 1))).
Qed.

Lemma queues_alternatives (cs : list nat) bodies jmps e e' jmps' :
  Forall2 queues cs bodies → emit_alternatives bodies jmps e = Ok (e', jmps') →
  ∃ new, pendingSubs e' = pendingSubs e ++ new ∧ (load new ≤ sum_list cs)%nat ∧
    Forall (λ p, ok (ps_node p) = true) new.
Proof.
  intros Hb. revert jmps e. induction Hb as [|c body cs bodies Hc Hb IH]; intros jmps e He; simpl in He.
  - injection He as <- <-. exists []. rewrite app_nil_r. split_and!; [done..|constructor].
  - destruct bodies as [|body2 bodies].
    + inv_bind He. injection He as <- <-. destruct (Hc _ _ E) as (new & ? & ? & ?).
      exists new. simpl. split_and!; [done|lia|done].
    + inv_bind He. destruct (Hc _ _ E) as (n1 & Hn1 & Hl1 & Hw1).
      destruct (IH _ _ He) as (n2 & Hn2 & Hl2 & Hw2). exists (n1 ++ n2).
      simpl in Hn1, Hn2. rewrite Hn2, Hn1, <- app_assoc, load_app. simpl.
      split_and!; [done|simpl in Hl2; lia|]. by apply Forall_app.
Qed.

Lemma pending_patch_all end_ js e :
  pendingSubs (foldl (λ e j, patchA j end_ e) e js) = pendingSubs e.
Proof. revert e. induction js as [|j js IH]; intros e; [done|]. cbn [foldl]. by rewrite IH. Qed.

Lemma queues_choice (cs : list nat) bodies :
  Forall2 queues cs bodies → queues (sum_list cs) (emit_choice bodies).
Proof.
  intros Hb e e' He. unfold emit_choice in He. inv_bind He. destruct a as [e1 jmps].
  injection He as <-. rewrite pending_patch_all. by eapply queues_alternatives.
Qed.

Lemma pending_codes codes e : pendingSubs (emit_codes codes e) = pendingSubs e.
Proof.
  unfold emit_codes. revert e. induction codes as [|c codes IH]; intros e; [done|].
  cbn [foldl]. by rewrite IH.
Qed.

Lemma queues_trie fuel lits : queues 0 (emitLitAltGrouped fuel lits).
Proof.
  revert lits. induction fuel as [|fuel IH]; intros lits; [done|]. cbn [emitLitAltGrouped].
  apply (queues_le (sum_list (replicate (length (group_literals lits)) 0%nat))).
  { induction (length (group_literals lits)); simpl; lia. }
  apply queues_choice. induction (group_literals lits) as [|b bs IHb]; simpl; constructor; [|done].
  destruct b as [|c suf]; [apply queues_none; by intros e e' [= <-]|].
  intros e e' He. change (pendingSubs e) with (pendingSubs (emit ReOp.CHAR c 0 e)).
  destruct suf as [|s [|s2 suf]]; [by eapply IH| |by eapply IH].
  injection He as <-. exists []. rewrite app_nil_r, pending_codes.
  split_and!; [done..|constructor].
Qed.

Lemma pending_split greedy a b c e : pendingSubs (patch_split greedy a b c e) = pendingSubs e.
Proof. by destruct greedy. Qed.

Lemma pending_clear n e : pendingSubs (emitClearForBody n e) = pendingSubs e.
Proof. unfold emitClearForBody. by destruct (captureSpan n) as [[]|]. Qed.

Lemma queues_star c n greedy body : queues c body → queues c (compile_star n greedy body).
Proof.
  intros Hb e e' He. unfold compile_star in He. destruct (alloc_guard n e) as [g e1] eqn:Eg.
  assert (pendingSubs e1 = pendingSubs e) as H1.
  { unfold alloc_guard in Eg. destruct (canMatchEmpty n); by injection Eg as <- <-. }
  inv_bind He. injection He as <-. destruct (Hb _ _ E) as (new & Hn & ?). exists new.
  rewrite pending_split. destruct (0 <=? g); simpl; rewrite Hn, pending_clear; simpl; by rewrite H1.
Qed.

Lemma queues_plus c n greedy body : queues c body → queues (2 * c) (compile_plus n greedy body).
Proof.
  intros Hb e e' He. unfold compile_plus in He. destruct (alloc_guard n e) as [g e1] eqn:Eg.
  assert (pendingSubs e1 = pendingSubs e) as H1.
  { unfold alloc_guard in Eg. destruct (canMatchEmpty n); by injection Eg as <- <-. }
  rewrite <- H1, <- (pending_clear n e1). destruct (g <? 0).
  - inv_bind He. injection He as <-. rewrite pending_split. simpl.
    destruct (Hb _ _ E) as (new & Hn & Hl & Hw). exists new. split_and!; [done|lia|done].
  - replace (2 * c)%nat with (c + c)%nat by lia.
    eapply (queues_bind c c body (compile_star n greedy body)); [done|by apply queues_star|exact He].
Qed.

Lemma queues_opt c greedy body : queues c body → queues c (compile_opt greedy body).
Proof.
  intros Hb e e' He. unfold compile_opt in He. inv_bind He. injection He as <-.
  rewrite pending_split. by apply Hb in E.
Qed.

Lemma queues_repeat c n min max greedy body :
  queues c body →
  queues ((Z.to_nat min + (if (max =? -1)%Z then 1 else Z.to_nat (max - min))) * c)
    (compileRepeat n min max greedy body).
Proof.
  intros Hb e e' He. unfold compileRepeat in He. destruct (_ && _); [done|]. revert He.
  rewrite Nat.mul_add_distr_r. apply queues_bind; [by apply queues_for_n|].
  destruct (max =? -1); [rewrite Nat.mul_1_l; by apply queues_star|by apply queues_for_n, queues_opt].
Qed.

Context (toUpperCase : jsstr → jsstr).
Abbreviation compileNode := (compileNode toUpperCase).

Lemma pending_char code e : pendingSubs (compile_char toUpperCase code e) = pendingSubs e.
Proof.
  unfold compile_char. destruct (negb _); [done|]. destruct (unicode e); [done|].
  by destruct (foldCharUnitsLegacy toUpperCase code) as [|u [|u2 us]].
Qed.

Lemma Forall2_queues ns :
  Forall (λ n, ok n = true → queues (lookarounds n) (compileNode n)) ns →
  forallb ok ns = true →
  Forall2 queues (map lookarounds ns) (map compileNode ns).
Proof.
  intros H Hwf. pose proof (Forall_forallb_and _ _ _ H Hwf) as Hn. clear H Hwf.
  induction Hn as [|n ns [Hn Hw] _ IH]; simpl; constructor; auto.
Qed.

Lemma sum_list_map (f : ReNode → nat) ns : sum_list (map f ns) = sum_list_with f ns.
Proof. induction ns as [|n ns IH]; [done|]. simpl. by rewrite IH. Qed.

Lemma compileNode_queues n : ok n = true → queues (lookarounds n) (compileNode n).
Proof.
  induction n using ReNode_ind'; cbn [lookarounds ReCompile.compileNode]; intros Hwf;
    try (apply queues_none; by intros e e' [= <-]).
  - apply queues_none. intros e e' [= <-]. apply pending_char.
  - intros e e' [= <-]. eexists. split; [reflexivity|]. split.
    + unfold load. simpl. destruct b; rewrite ?lookarounds_reverse; lia.
    + constructor; [|constructor]. simpl. apply h_look in Hwf.
      destruct b; [|done]. by rewrite h_reverse.
  - apply (queues_frame _ _ (λ e, set_modes _ _ _ _ e) (λ e e1, set_modes _ _ _ _ e1)); [done..|].
    by eapply IHn, h_mod.
  - rewrite <- sum_list_map. apply queues_seq. by apply Forall2_queues, h_concat.
  - apply h_alt in Hwf. intros e e' He.
    destruct (tryEmitLiteralAltTrie os e) as [r|] eqn:Etry.
    + unfold tryEmitLiteralAltTrie in Etry. destruct (caseInsensitive e); [done|].
      destruct (_ <? _)%nat; [done|]. destruct (literal_options os) as [lits|]; [|done].
      change (Some (emitLitAltGrouped (trie_fuel lits) lits e) = Some r) in Etry.
      apply (inj Some) in Etry. subst r. eapply queues_le; [|by apply queues_trie|exact He]. lia.
    + revert He. rewrite <- sum_list_map. apply queues_choice. by apply Forall2_queues.
  - by eapply queues_star, IHn, h_star.
  - by eapply queues_plus, IHn, h_plus.
  - by eapply queues_opt, IHn, h_opt.
  - by eapply queues_repeat, IHn, h_repeat.
  - apply h_group in Hwf. intros e e' He. unfold compile_group in He.
    destruct (i <? 0); [by eapply IHn|]. inv_bind He. injection He as <-.
    by apply (IHn Hwf) in E.
Qed.
End queue.

(** * Compilation never runs out of fuel *)

Definition total (body : Emitter → result Emitter) : Prop := ∀ e, terminates (body e).

Lemma terminates_bind {A B} (m : result A) (f : A → result B) :
  terminates m → (∀ x, terminates (f x)) → terminates (x ← m; f x).
Proof. unfold terminates. intros Hm Hf. destruct m as [x|[]]; simpl; [apply Hf|done..]. Qed.

Lemma terminates_ok {A} (x : A) : terminates (Ok x).
Proof. done. Qed.

Lemma emit_alternatives_total bodies jmps e :
  Forall total bodies → terminates (emit_alternatives bodies jmps e).
Proof.
  intros Hb. revert jmps e. induction Hb as [|body bodies Hbody Hb IH]; intros jmps e; [done|].
  simpl. destruct bodies as [|body2 bodies].
  - apply terminates_bind; [apply Hbody|done].
  - apply terminates_bind; [apply Hbody|]. intros e1. apply IH.
Qed.

Lemma emit_choice_total bodies : Forall total bodies → total (emit_choice bodies).
Proof.
  intros Hb e. unfold emit_choice. apply terminates_bind; [by apply emit_alternatives_total|].
  by intros [].
Qed.

Lemma emit_seq_total bodies : Forall total bodies → total (emit_seq bodies).
Proof.
  intros Hb. induction Hb as [|body bodies Hbody _ IH]; intros e; [done|].
  apply terminates_bind; [apply Hbody|]. intros e1. apply IH.
Qed.

Lemma for_n_total n i body : total body → total (for_n n i (λ _, body)).
Proof.
  intros Hb. revert i. induction n as [|n IH]; intros i e; [done|].
  apply terminates_bind; [apply Hb|]. intros e1. apply IH.
Qed.

(** A branch has suffixes, and they are shorter than some literal. *)
Definition shorter (lits : list (list Z)) (bs : list Branch) : Prop :=
  ∀ c suf, BChar c suf ∈ bs →
    suf ≠ [] ∧ ∀ s, s ∈ suf → ∃ l, l ∈ lits ∧ length l = S (length s).

Lemma add_literal_shorter lits st l :
  shorter lits st.1 → shorter (lits ++ [l]) (add_literal st l).1.
Proof.
  intros H. destruct st as [bs idx]. unfold add_literal.
  assert (shorter (lits ++ [l]) bs) as Hold.
  { intros c suf Hb. destruct (H c suf Hb) as [Hne Hs]. split; [done|]. intros s Hin.
    destruct (Hs s Hin) as (l' & Hl & ?). exists l'. split; [apply elem_of_app; by left|done]. }
  assert (l ∈ lits ++ [l]) as Hl by (apply elem_of_app; right; by left).
  destruct l as [|c0 rest]; [|destruct (jm_get idx c0) as [gi|]]; cbn [fst]; intros c suf Hb.
  - apply elem_of_app in Hb as [Hb|Hb%list_elem_of_singleton]; [by apply Hold in Hb|done].
  - apply list_elem_of_lookup in Hb as [i Hi]. destruct (decide (i = Z.to_nat gi)) as [->|Hne].
    + rewrite list_lookup_alter_eq in Hi. destruct (bs !! Z.to_nat gi) as [[|c1 suf1]|] eqn:Eb;
        try done. injection Hi as <- <-. apply list_elem_of_lookup_2, Hold in Eb as [_ Hs].
      split; [by destruct suf1|]. intros s [Hin|Hin%list_elem_of_singleton]%elem_of_app; [by apply Hs|].
      subst s. by eexists.
    + rewrite list_lookup_alter_ne in Hi by done. by eapply Hold, list_elem_of_lookup_2.
  - apply elem_of_app in Hb as [Hb|Hb%list_elem_of_singleton]; [by apply Hold in Hb|].
    injection Hb as -> ->. split; [done|]. intros s ->%list_elem_of_singleton. by eexists.
Qed.

Lemma group_literals_shorter lits : shorter lits (group_literals lits).
Proof.
  unfold group_literals. induction lits as [|l lits IH] using rev_ind.
  - by intros c suf ?%not_elem_of_nil.
  - rewrite foldl_app. by apply add_literal_shorter.
Qed.

Lemma trie_total fuel lits :
  Forall (λ l, (length l < fuel)%nat) lits → (0 < fuel)%nat → total (emitLitAltGrouped fuel lits).
Proof.
  revert lits. induction fuel as [|fuel IH]; intros lits Hl Hpos e; [lia|].
  cbn [emitLitAltGrouped]. apply emit_choice_total. apply list.Forall_forall.
  intros body (b & <- & Hb%list_elem_of_In)%list_elem_of_In%in_map_iff e1.
  destruct b as [|c suf]; [done|].
  destruct (group_literals_shorter lits c suf Hb) as [Hne Hsuf].
  assert (Forall (λ s, (length s < fuel)%nat) suf) as Hs.
  { apply list.Forall_forall. intros s (l & Hin & Hlen)%Hsuf.
    rewrite list.Forall_forall in Hl. apply Hl in Hin. lia. }
  destruct suf as [|s [|s2 suf]]; [done..|]. apply IH; [done|].
  apply Forall_cons in Hs as [Hs _]. lia.
Qed.

Lemma trie_fuel_enough lits e : terminates (emitLitAltGrouped (trie_fuel lits) lits e).
Proof.
  unfold trie_fuel. apply trie_total; [|lia]. apply list.Forall_forall. intros l Hl.
  assert (length l ≤ max_list (length <$> lits))%nat; [|lia].
  apply max_list_elem_of_le, list_elem_of_fmap. by exists l.
Qed.

Lemma compile_star_total n greedy body : total body → total (compile_star n greedy body).
Proof.
  intros Hb e. unfold compile_star. destruct (alloc_guard n e). by apply terminates_bind; [apply Hb|].
Qed.

Lemma compile_opt_total greedy body : total body → total (compile_opt greedy body).
Proof. intros Hb e. by apply terminates_bind; [apply Hb|]. Qed.

Lemma compileNode_total up n : total (compileNode up n).
Proof.
  assert (∀ ns, Forall (λ n, total (compileNode up n)) ns → Forall total (map (compileNode up) ns))
    as Hmap by (intros ns H; by apply Forall_fmap).
  induction n using ReNode_ind'; cbn [compileNode]; try done; intros e.
  - apply terminates_bind; [apply IHn|done].
  - by apply emit_seq_total, Hmap.
  - destruct (tryEmitLiteralAltTrie os e) as [r|] eqn:E; [|by apply emit_choice_total, Hmap].
    unfold tryEmitLiteralAltTrie in E. destruct (caseInsensitive e); [done|].
    destruct (_ <? _)%nat; [done|]. destruct (literal_options os) as [lits|]; [|done].
    change (Some (emitLitAltGrouped (trie_fuel lits) lits e) = Some r) in E.
    apply (inj Some) in E. subst r. apply trie_fuel_enough.
  - by apply compile_star_total.
  - unfold compile_plus. destruct (alloc_guard n e). destruct (_ <? 0); apply terminates_bind;
      try apply IHn; [done|]. intros e1. by apply compile_star_total.
  - by apply compile_opt_total.
  - unfold compileRepeat. destruct (_ && _); [done|]. apply terminates_bind; [by apply for_n_total|].
    intros e1. destruct (hi =? -1); [by apply compile_star_total|].
    by apply for_n_total, compile_opt_total.
  - unfold compile_group. destruct (i <? 0); [apply IHn|]. by apply terminates_bind; [apply IHn|].
Qed.

(** Draining a sub-program uses up its share of the load. *)
Lemma drain_total up fuel e :
  (load (pendingSubs e) ≤ fuel)%nat → terminates (drainPendingSubs up fuel e).
Proof.
  revert e. induction fuel as [|fuel IH]; intros e Hl; cbn [drainPendingSubs];
    destruct (pendingSubs e) as [|sub rest] eqn:Hp; try done; [unfold load in Hl; simpl in Hl; lia|].
  unfold drain_one. set (e_b := set_modes _ _ _ _ _) at 1.
  destruct (compileNode up (ps_node sub) e_b) as [e_c|err] eqn:E; simpl.
  - apply IH. simpl. destruct (compileNode_queues (λ _, true) up _ eq_refl _ _ E) as (new & Hn & Hload & _).
    rewrite Hn. simpl. rewrite load_app. unfold load in Hl at 1. simpl in Hl. fold (load rest) in Hl. lia.
  - pose proof (compileNode_total up (ps_node sub) e_b) as Ht. rewrite E in Ht.
    intros H. apply Ht. injection H as ->. done.
Qed.

Lemma compileParsed_total (toUpperCase : jsstr → jsstr) (parsed : ParsedRegex) (flags : Z) :
  terminates (compileParsed toUpperCase parsed flags).
Proof.
  unfold compileParsed. set (e := emit _ _ _ _).
  destruct (compileNode toUpperCase (root parsed) e) as [e1|err] eqn:E; simpl.
  - apply terminates_bind; [|done]. apply drain_total. simpl.
    destruct (compileNode_queues (λ _, true) toUpperCase _ eq_refl _ _ E) as (new & Hn & Hload & _).
    by rewrite Hn.
  - pose proof (compileNode_total toUpperCase (root parsed) e) as Ht. rewrite E in Ht.
    intros H. apply Ht. injection H as ->. done.
Qed.

(** Compilation always comes to an end: for every pattern and every flags
    [compileParsed] returns a program or throws; the trie of literals, whose
    recursion strips one code unit per level, and the queue of lookaround
    sub-programs, to which each sub-program may add those nested in it, never
    run out of the fuel that the model gives them. *)
Theorem compileParsed_terminates (toUpperCase : jsstr → jsstr) (parsed : ParsedRegex) (flags : Z) :
  terminates (compileParsed toUpperCase parsed flags).
Proof. apply compileParsed_total. Qed.
