(* ===== verification/ReCorrect.v ===== *)
(** The compiler is correct: the code it emits for a node implements the matcher
    of the node, and a whole compiled pattern run by the machine gives the
    match of the pattern. *)

From S2P Require Import Prelude ReBytecode ReCaseFold ReCompile ReLinear ReVm ReSpec ReImpl ReEmit ReQueue.

Lemma orient_orient rev n : orient rev (orient rev n) = n.
Proof. destruct rev; [apply reverseNode_reverse|done]. Qed.

Lemma canMatchEmpty_reverse n : canMatchEmpty (reverseNode n) = canMatchEmpty n.
Proof.
  induction n using ReNode_ind'; cbn [reverseNode canMatchEmpty]; try done; try congruence.
  - apply eq_true_iff_eq. rewrite !forallb_forall. setoid_rewrite <- list_elem_of_In.
    rewrite list.Forall_forall in H. setoid_rewrite elem_of_reverse.
    setoid_rewrite (list_elem_of_fmap reverseNode ps). split.
    + intros Hall p Hp. rewrite <- H by done. apply Hall. by exists p.
    + intros Hall q (p & -> & Hp). rewrite H by done. by apply Hall.
  - by induction H as [|p ps Hp _ IH]; simpl; f_equal.
Qed.

(** The span only grows, and does not depend on the order of the visits. *)
Definition join (s t : option (Z * Z)) : option (Z * Z) :=
  match s, t with
  | Some (lo, hi), Some (lo', hi') => Some (Z.min lo lo', Z.max hi hi')
  | Some x, None => Some x
  | None, t => t
  end.

Lemma join_assoc s t u : join s (join t u) = join (join s t) u.
Proof. destruct s as [[]|], t as [[]|], u as [[]|]; simpl; try done. f_equal; f_equal; lia. Qed.

Lemma join_comm s t : join s t = join t s.
Proof. destruct s as [[]|], t as [[]|]; simpl; try done. f_equal; f_equal; lia. Qed.

Lemma join_none s : join s None = s.
Proof. by destruct s as [[]|]. Qed.

Lemma widen_join i s : widen i s = join s (Some (i, i)).
Proof.
  destruct s as [[lo hi]|]; [|done]. simpl.
  destruct (Z.ltb_spec i lo), (Z.ltb_spec hi i); f_equal; f_equal; lia.
Qed.

Lemma visit_join n s : visit n s = join s (captureSpan n).
Proof.
  unfold captureSpan. revert s.
  assert (∀ ps, Forall (λ p, ∀ s, visit p s = join s (visit p None)) ps → ∀ s,
    foldl (λ span p, visit p span) s ps = join s (foldl (λ span p, visit p span) None ps)) as Hlist.
  { intros ps H. induction H as [|p ps Hp _ IH]; intros s; cbn [foldl]; [by rewrite join_none|].
    rewrite IH, Hp, (IH (visit p None)). by rewrite join_assoc. }
  induction n using ReNode_ind'; intros s0; cbn [visit]; try (by rewrite join_none); auto.
  rewrite IHn, (IHn (if 0 <=? i then _ else _)).
  destruct (0 <=? i); [by rewrite widen_join, join_assoc|done].
Qed.

Lemma captureSpan_list ps s :
  foldl (λ span p, visit p span) s ps = foldr (λ p t, join (captureSpan p) t) s ps.
Proof.
  revert s. induction ps as [|p ps IH]; intros s; [done|]. cbn [foldl foldr].
  rewrite IH, visit_join, <- IH. rewrite IH. clear IH.
  induction ps as [|q ps IH]; cbn [foldr]; [apply join_comm|].
  rewrite IH, !join_assoc. by rewrite (join_comm (captureSpan q)).
Qed.

Lemma foldr_join_perm ps qs s : ps ≡ₚ qs →
  foldr (λ p t, join (captureSpan p) t) s ps = foldr (λ p t, join (captureSpan p) t) s qs.
Proof.
  induction 1 as [|p ps qs _ IH|p q ps|ps qs rs _ IH1 _ IH2]; simpl; try congruence.
  rewrite !join_assoc. by rewrite (join_comm (captureSpan q)).
Qed.

Lemma captureSpan_reverse n : captureSpan (reverseNode n) = captureSpan n.
Proof.
  assert (∀ ps s, Forall (λ n, captureSpan (reverseNode n) = captureSpan n) ps →
    foldr (λ p t, join (captureSpan p) t) s (map reverseNode ps)
    = foldr (λ p t, join (captureSpan p) t) s ps) as Hmap.
  { intros ps s H. induction H as [|p ps Hp _ IH]; [done|]. simpl. by rewrite Hp, IH. }
  induction n using ReNode_ind'; cbn [reverseNode]; try done; unfold captureSpan in *; cbn [visit]; try done.
  - rewrite !captureSpan_list, (foldr_join_perm _ (map reverseNode ps)) by apply reverse_Permutation.
    by apply Hmap.
  - rewrite !captureSpan_list. by apply Hmap.
  - rewrite !visit_join. unfold captureSpan. by rewrite IHn.
Qed.

Lemma captureSpan_orient rev n : captureSpan (orient rev n) = captureSpan n.
Proof. destruct rev; [apply captureSpan_reverse|done]. Qed.
Lemma canMatchEmpty_orient rev n : canMatchEmpty (orient rev n) = canMatchEmpty n.
Proof. destruct rev; [apply canMatchEmpty_reverse|done]. Qed.

(** The groups of a well-formed tree have indices below [nG]. *)
Lemma captureSpan_bound nG n lo hi :
  well_formed nG n = true → captureSpan n = Some (lo, hi) → 0 ≤ lo ≤ hi ∧ hi < nG.
Proof.
  assert (∀ ps, Forall (λ n, ∀ lo hi, captureSpan n = Some (lo, hi) → 0 ≤ lo ≤ hi ∧ hi < nG) ps →
    ∀ lo hi, foldl (λ span p, visit p span) None ps = Some (lo, hi) → 0 ≤ lo ≤ hi ∧ hi < nG) as Hlist.
  { intros ps H. setoid_rewrite captureSpan_list.
    induction H as [|p ps Hp _ IH]; intros lo' hi' Hs; [done|]. simpl in Hs.
    destruct (captureSpan p) as [[l1 h1]|] eqn:E1;
      [|simpl in Hs; by apply IH]. specialize (Hp _ _ eq_refl).
    destruct (foldr _ _ ps) as [[l2 h2]|] eqn:E2; simpl in Hs; injection Hs as <- <-; [|lia].
    specialize (IH _ _ eq_refl). lia. }
  revert lo hi. induction n using ReNode_ind'; intros lo' hi' Hwf Hs; unfold captureSpan in Hs;
    cbn [visit well_formed] in *; try done; try (by apply IHn).
  - eapply Hlist; [|exact Hs]. apply (Forall_forallb_impl _ _ _ _ H Hwf).
    intros p Hp Hwfp lo1 hi1 Hs1. by apply Hp.
  - apply andb_true_iff in Hwf as [_ Hwf]. eapply Hlist; [|exact Hs].
    apply (Forall_forallb_impl _ _ _ _ H Hwf).
    intros p Hp Hwfp lo1 hi1 Hs1. by apply Hp.
  - apply andb_true_iff in Hwf as [_ Hwf]. by apply IHn.
  - apply andb_true_iff in Hwf as [Hi%Z.ltb_lt Hwf]. rewrite visit_join in Hs.
    destruct (captureSpan n) as [[l1 h1]|] eqn:E1; [specialize (IHn _ _ Hwf eq_refl)|];
      destruct (Z.leb_spec 0 i); simpl in Hs; simplify_eq/=; lia.
Qed.

(** * Classes *)

Lemma length_class_entry rs : length (class_entry rs) = S (2 * length rs).
Proof. unfold class_entry. cbn [length]. by rewrite length_flat_ranges. Qed.

(** The class that [addClass] stored, in any table that extends its own. *)
Lemma addClass_match rs e ct c negated :
  Forall (λ r, r.1 ≤ r.2) rs → e_classTable (addClass rs e).2 `prefix_of` ct →
  Z.of_nat (length ct) < 2 ^ 31 →
  classMatch ct (addClass rs e).1 c negated = xorb negated (in_ranges c rs).
Proof.
  intros Hle [suf ->] Hlen. destruct (normalize_spec rs Hle) as [Hsep Hin].
  rewrite <- Hin. apply classMatch_ranges; [|done|].
  - exists (e_classTable e), suf. simpl. by rewrite <- app_assoc.
  - change (e_classTable (addClass rs e).2)
      with (e_classTable e ++ class_entry (normalize rs)) in Hlen.
    rewrite !length_app, length_class_entry in Hlen. lia.
Qed.

(** ASCII folding adds the other case of every letter. *)
Definition ascii_variants (r : Z * Z) : list (Z * Z) :=
  let '(lo, hi) := r in
  [(lo, hi)]
  ++ (if Z.max lo 0x41 <=? Z.min hi 0x5a then [(Z.max lo 0x41 + 0x20, Z.min hi 0x5a + 0x20)] else [])
  ++ (if Z.max lo 0x61 <=? Z.min hi 0x7a then [(Z.max lo 0x61 - 0x20, Z.min hi 0x7a - 0x20)] else []).

Lemma foldClassRangesAscii_bind rs : foldClassRangesAscii rs = rs ≫= ascii_variants.
Proof.
  unfold foldClassRangesAscii.
  assert (∀ acc, foldl (λ out '(lo, hi),
    let out := out ++ [(lo, hi)] in
    let uLo := Z.max lo 0x41 in
    let uHi := Z.min hi 0x5a in
    let out := if uLo <=? uHi then out ++ [(uLo + 0x20, uHi + 0x20)] else out in
    let lLo := Z.max lo 0x61 in
    let lHi := Z.min hi 0x7a in
    if lLo <=? lHi then out ++ [(lLo - 0x20, lHi - 0x20)] else out) acc rs
    = acc ++ (rs ≫= ascii_variants)) as H; [|apply H].
  induction rs as [|[lo hi] rs IH]; intros acc; [by rewrite app_nil_r|].
  cbn [foldl]. rewrite bind_cons, IH. unfold ascii_variants.
  destruct (_ <=? Z.min hi 0x5a), (_ <=? Z.min hi 0x7a); by rewrite <- ?app_assoc.
Qed.

Lemma ascii_variants_match c r :
  in_ranges c (ascii_variants r) = in_range c r || in_range (swap_case c) r.
Proof.
  destruct r as [lo hi]. unfold ascii_variants. rewrite !in_ranges_app.
  cbn [in_ranges existsb]. rewrite orb_false_r. unfold swap_case.
  destruct (Z.leb_spec (Z.max lo 0x41) (Z.min hi 0x5a)), (Z.leb_spec (Z.max lo 0x61) (Z.min hi 0x7a));
    cbn [in_ranges existsb]; unfold in_range; simpl; apply eq_true_iff_eq;
    rewrite ?orb_true_iff, ?andb_true_iff, ?Z.leb_le; 
    bool_cases; lia.
Qed.

Lemma fold_ascii_match c rs :
  in_ranges c (foldClassRangesAscii rs) = in_ranges c rs || in_ranges (swap_case c) rs.
Proof.
  rewrite foldClassRangesAscii_bind. induction rs as [|r rs IH]; [done|].
  rewrite bind_cons, in_ranges_app, IH, ascii_variants_match. cbn [in_ranges existsb].
  fold (in_ranges c rs) (in_ranges (swap_case c) rs).
  by destruct (in_range c r), (in_range (swap_case c) r), (in_ranges c rs).
Qed.

Lemma fold_ascii_valid rs :
  Forall (λ r, r.1 ≤ r.2) rs → Forall (λ r, r.1 ≤ r.2) (foldClassRangesAscii rs).
Proof.
  rewrite foldClassRangesAscii_bind. intros H. induction H as [|[lo hi] rs Hr _ IH]; [constructor|].
  rewrite bind_cons. apply Forall_app. split; [|done]. unfold ascii_variants.
  simpl in Hr. apply Forall_app. split; [by repeat constructor|]. apply Forall_app.
  split; case_match eqn:E; try constructor; try apply Z.leb_le in E; simpl; try lia; constructor.
Qed.

(** * Code in the final program *)

Section correct.
Context (toUpperCase : jsstr → jsstr) (uni : bool) (input : jsstr).
Context (Hunits : Forall (λ c, 0 ≤ c ≤ 0xffff) input).
Context (prog ct : list Z) (Hct : Z.of_nat (length ct) < 2 ^ 31).
Context (nG nSlots : Z) (HnG : 0 ≤ nG).

Abbreviation nCaps := (2 * nG).
Abbreviation matcher' := (matcher toUpperCase uni input Lowered).
Abbreviation implements' := (implements prog ct input nCaps nSlots).
Abbreviation compileNode' := (compileNode toUpperCase).

(** The modes in which an emitter compiles. *)
Record in_mode (rev : bool) (fl : modes) (e : Emitter) : Prop := {
  im_ci : caseInsensitive e = m_ignoreCase fl;
  im_da : dotAll e = m_dotAll fl;
  im_ml : multiline e = m_multiline fl;
  im_rev : reversed e = rev;
  im_uni : unicode e = uni;
  im_base : scratchBase e = nCaps;
  im_count : 0 ≤ scratchCount e }.

Lemma in_mode_frame rev fl e e' : frame e e' → in_mode rev fl e → in_mode rev fl e'.
Proof. intros [[] []] []. split; try congruence. lia. Qed.

Definition sub_modes (p : PendingSub) : modes :=
  Modes (ps_caseInsensitive p) (ps_dotAll p) (ps_multiline p).

(** The sub-program of a queued lookaround is in place, and keeps the scratch
    slots below [slot]. *)
Definition linked (slot : Z) (p : PendingSub) : Prop :=
  ∃ a b, fetch prog (patchPc p) = Some (ReOp.LOOKAROUND, a, b) ∧
    ∀ sp cs cv, valid input sp → captures nCaps nSlots cs cv →
      run_ok prog ct input nCaps nSlots (keeps nCaps slot cv) (dir_of (ps_reversed p)) a sp cv
        (matcher' (sub_modes p) (dir_of (ps_reversed p))
           (orient (ps_reversed p) (ps_node p)) (λ _ cs', Some cs') sp cs).

(** The final program extends what [e] has emitted between [lo] and [hi]. *)
Record fits (lo hi : Z) (e : Emitter) : Prop := {
  f_code : ∀ pc op a b, lo ≤ pc < hi → instr_at e pc = Some (op, a, b) →
    ∃ a', fetch prog pc = Some (op, a', b) ∧ (op ≠ ReOp.LOOKAROUND → a' = a);
  f_classes : e_classTable e `prefix_of` ct;
  f_subs : ∀ p, p ∈ pendingSubs e → linked (next_slot e) p;
  f_slots : next_slot e ≤ nSlots }.

(** [e'] is a later state that left the code of [e] between [lo] and [hi]. *)
Record later (lo hi : Z) (e e' : Emitter) : Prop := {
  l_code : ∀ pc, lo ≤ pc < hi → instr_at e' pc = instr_at e pc;
  l_classes : e_classTable e `prefix_of` e_classTable e';
  l_subs : ∀ p, p ∈ pendingSubs e → p ∈ pendingSubs e';
  l_slots : next_slot e ≤ next_slot e' }.

Lemma linked_le slot slot' p : slot ≤ slot' → linked slot' p → linked slot p.
Proof.
  intros Hle (a & b & Hf & Hrun). exists a, b. split; [done|]. intros sp cs cv Hsp Hcs.
  destruct (Hrun sp cs cv Hsp Hcs) as (r & Hr & Ho). exists r. split; [done|].
  destruct (matcher' _ _ _ _ sp cs), r; try done. destruct Ho as [? ?].
  split; [done|by eapply keeps_le].
Qed.

Lemma fits_later lo hi lo' hi' e e' :
  fits lo hi e' → later lo' hi' e e' → lo ≤ lo' → hi' ≤ hi → fits lo' hi' e.
Proof.
  intros [A1 A2 A3 A4] [B1 B2 B3 B4] Hlo Hhi. split.
  - intros pc op a b Hpc Hi. apply A1; [lia|]. by rewrite B1.
  - by etrans.
  - intros p Hp. eapply linked_le; [exact B4|]. by apply A3, B3.
  - lia.
Qed.

Lemma fits_fetch lo hi e pc op a b :
  fits lo hi e → lo ≤ pc < hi → instr_at e pc = Some (op, a, b) → op ≠ ReOp.LOOKAROUND →
  fetch prog pc = Some (op, a, b).
Proof.
  intros [A1 _ _ _] Hpc Hi Hop. destruct (A1 _ _ _ _ Hpc Hi) as (a' & Hf & Ha).
  by rewrite <- (Ha Hop).
Qed.

Lemma later_frame lo e e' : frame e e' → later lo (here e) e e'.
Proof.
  intros [[A1 A2 A3 A4 A5 (new & A6 & _ & _)] _]. split; [|done| |].
  - intros pc Hpc. unfold instr_at, js_at. destruct (Z.ltb_spec pc 0); [done|].
    destruct A1 as [l ->]. rewrite lookup_app_l; [done|]. unfold here in Hpc. lia.
  - intros p Hp. rewrite A6. apply elem_of_app. by left.
  - unfold next_slot. rewrite A4. lia.
Qed.

Lemma later_trans lo hi e1 e2 e3 : later lo hi e1 e2 → later lo hi e2 e3 → later lo hi e1 e3.
Proof.
  intros [A1 A2 A3 A4] [B1 B2 B3 B4]. split; [|by etrans|auto|lia].
  intros pc Hpc. by rewrite B1, A1.
Qed.

Lemma later_narrow lo hi lo' hi' e e' :
  lo ≤ lo' → hi' ≤ hi → later lo hi e e' → later lo' hi' e e'.
Proof. intros ?? [A1 A2 A3 A4]. split; [|done..]. intros pc Hpc. apply A1. lia. Qed.

Lemma later_patchA lo hi e e' pc a :
  later lo hi e e' → 0 ≤ pc → pc < lo ∨ hi ≤ pc → later lo hi e (patchA pc a e').
Proof.
  intros [A1 A2 A3 A4] Hpc Hout. split; [|done..]. intros pc' Hpc'.
  rewrite instr_patchA, decide_False by lia. by apply A1.
Qed.

Lemma later_patchB lo hi e e' pc b :
  later lo hi e e' → 0 ≤ pc → pc < lo ∨ hi ≤ pc → later lo hi e (patchB pc b e').
Proof.
  intros [A1 A2 A3 A4] Hpc Hout. split; [|done..]. intros pc' Hpc'.
  rewrite instr_patchB, decide_False by lia. by apply A1.
Qed.

Lemma later_patch_split lo hi e e' greedy split body exit :
  later lo hi e e' → 0 ≤ split → split < lo ∨ hi ≤ split →
  later lo hi e (patch_split greedy split body exit e').
Proof.
  intros. unfold patch_split. destruct greedy; by repeat (apply later_patchA || apply later_patchB).
Qed.

Lemma here_patch_split greedy split body exit e : here (patch_split greedy split body exit e) = here e.
Proof. unfold patch_split. destruct greedy; by rewrite here_patchB, here_patchA. Qed.

Lemma instr_patch_split (greedy : bool) split body exit e op a b :
  0 ≤ split → instr_at e split = Some (op, a, b) →
  instr_at (patch_split greedy split body exit e) split
  = Some (op, if greedy then body else exit, if greedy then exit else body).
Proof.
  intros Hs Hi. unfold patch_split. destruct greedy;
    by rewrite instr_patchB, decide_True, instr_patchA, decide_True, Hi by done.
Qed.

Lemma instr_patch_split_ne greedy split body exit e pc :
  0 ≤ split → pc ≠ split → instr_at (patch_split greedy split body exit e) pc = instr_at e pc.
Proof.
  intros Hs Hne. unfold patch_split. destruct greedy;
    by rewrite instr_patchB, decide_False, instr_patchA, decide_False by done.
Qed.

(** [body] compiles to code that implements [m]. *)
Definition compiles (rev : bool) (fl : modes) (s : bool) (m : cont → cont)
    (body : Emitter → result Emitter) : Prop :=
  framed body ∧
  ∀ e e', in_mode rev fl e → body e = Ok e' → fits (here e) (here e') e' →
    implements' s (dir_of rev) m (next_slot e) (here e) (here e').

Lemma dir_of_cases rev : dir_of rev = 1 ∨ dir_of rev = -1.
Proof. destruct rev; [by right|by left]. Qed.
Lemma nCaps_pos : 0 ≤ nCaps.
Proof. lia. Qed.
#[local] Hint Resolve dir_of_cases nCaps_pos : core.

(** The implementation of a part, from the emitter that [later] kept. *)
Lemma compiles_at rev fl s m body e1 e2 e' lo hi slot :
  compiles rev fl s m body → in_mode rev fl e1 → body e1 = Ok e2 →
  later (here e1) (here e2) e2 e' → fits lo hi e' → lo ≤ here e1 → here e2 ≤ hi →
  slot ≤ next_slot e1 →
  implements' s (dir_of rev) m slot (here e1) (here e2).
Proof.
  intros [_ Hm] Hmode Hbody Hlater Hfits Hlo Hhi Hslot.
  eapply implements_weaken; [| |apply (Hm e1 e2); [done..|by eapply fits_later]]; done.
Qed.

Lemma compiles_weaken rev fl (s s' : bool) m body :
  (s' = true → s = true) → compiles rev fl s m body → compiles rev fl s' m body.
Proof.
  intros Hs [Hf Hm]. split; [done|]. intros e e' Hmode He Hfits.
  eapply implements_weaken; [exact Hs|reflexivity|by apply Hm].
Qed.

(** * Sequences, options, groups *)

Lemma compiles_nil rev fl : compiles rev fl false (m_seq []) (emit_seq []).
Proof.
  split; [by apply emit_seq_framed|]. intros e e' Hmode [= <-] Hfits. apply implements_nil.
Qed.

Lemma compiles_comp rev fl s1 s2 m1 m2 body1 body2 :
  compiles rev fl s1 m1 body1 → compiles rev fl s2 m2 body2 →
  compiles rev fl (s1 || s2) (λ k, m1 (m2 k)) (λ e, e ← body1 e; body2 e).
Proof.
  intros H1 H2. pose proof (proj1 H1) as F1. pose proof (proj1 H2) as F2. split.
  { intros e e' He. inv_bind He. eapply frame_trans; [by apply F1|by apply F2]. }
  intros e e' Hmode He Hfits. inv_bind He. rename a into e1, E into E1.
  pose proof (F1 _ _ E1) as Hf1. pose proof (F2 _ _ He) as Hf2.
  pose proof (frame_here _ _ Hf1). pose proof (frame_here _ _ Hf2).
  assert (next_slot e ≤ next_slot e1) as Hslot by apply (later_frame 0 _ _ Hf1).
  eapply implements_comp; [done|exact Hslot| |].
  - eapply (compiles_at _ _ _ _ _ e e1 e'); [exact H1|done|done| |done|done|done|done].
    by apply later_frame.
  - eapply (compiles_at _ _ _ _ _ e1 e' e'); [exact H2|by eapply in_mode_frame|done| |exact Hfits|done..].
    by apply later_frame.
Qed.

Lemma compiles_seq rev fl ss ms bodies :
  Forall3 (λ s m body, compiles rev fl s m body) ss ms bodies →
  compiles rev fl (existsb id ss) (m_seq ms) (emit_seq bodies).
Proof.
  induction 1 as [|s m body ss ms bodies Hb _ IH]; [apply compiles_nil|].
  apply (compiles_comp _ _ _ _ _ _ _ _ Hb IH).
Qed.

Lemma compiles_for_n rev fl s m body n i :
  compiles rev fl s m body →
  compiles rev fl ((0 <? Z.of_nat n) && s) (m_seq (replicate n m)) (for_n n i (λ _, body)).
Proof.
  intros Hb. revert i. induction n as [|n IH]; intros i; [apply compiles_nil|].
  apply (compiles_weaken _ _ (s || ((0 <? Z.of_nat n) && s))).
  { intros H. simpl in H. by rewrite H. }
  apply (compiles_comp _ _ _ _ _ _ _ _ Hb (IH (i + 1))).
Qed.

Lemma compiles_once rev fl s m n body :
  well_formed nG n = true → compiles rev fl s m body →
  compiles rev fl s (m_once (captureSpan n) m) (λ e, body (emitClearForBody n e)).
Proof.
  intros Hwf Hb. split.
  { intros e e' He. eapply frame_trans; [apply frame_clear|by apply Hb]. }
  intros e e' Hmode He Hfits. apply implements_once; [done..|]. unfold emitClearForBody in He.
  destruct (captureSpan n) as [[lo hi]|] eqn:Espan; [|by apply Hb].
  destruct (captureSpan_bound _ _ _ _ Hwf Espan) as [Hlo Hhi].
  pose proof (proj1 Hb _ _ He) as Hf. pose proof (frame_here _ _ Hf) as Hh. rewrite here_emit in Hh.
  exists (here e + 1). split_and!; [|done|lia|].
  - eapply fits_fetch; [exact Hfits|lia| |done]. eapply instr_core; [by apply frame_core|].
    apply instr_emit.
  - rewrite <- (here_emit ReOp.CLEAR (2 * lo) (2 * hi + 1)).
    eapply (compiles_at _ _ _ _ _ _ e' e'); [exact Hb| |done| |exact Hfits| |done|done].
    + eapply in_mode_frame; [apply frame_emit|done].
    + by apply later_frame.
    + rewrite here_emit. lia.
Qed.

Lemma compiles_opt rev fl s m body greedy :
  compiles rev fl s m body → compiles rev fl false (m_opt greedy m) (compile_opt greedy body).
Proof.
  intros Hb. split; [by apply opt_framed, Hb|]. intros e e' Hmode He Hfits.
  unfold compile_opt in He. inv_bind He. rename a into e2. injection He as <-.
  pose proof (here_pos e). pose proof (proj1 Hb _ _ E) as Hf. pose proof (frame_here _ _ Hf) as Hh.
  rewrite here_emit in Hh, Hfits. rewrite here_patch_split in *.
  eapply (implements_opt _ _ _ _ _ _ _ greedy s m _ (here e + 1)).
  - eapply fits_fetch; [exact Hfits|lia| |done]. eapply instr_patch_split; [done|].
    eapply instr_core; [by apply frame_core|apply instr_emit].
  - rewrite <- (here_emit ReOp.SPLIT 0 0).
    eapply (compiles_at _ _ _ _ _ _ e2); [exact Hb| |exact E| |exact Hfits| |done|done].
    + eapply in_mode_frame; [apply frame_emit|done].
    + apply later_patch_split; [by apply later_frame|done|left; rewrite here_emit; lia].
    + rewrite here_emit. lia.
Qed.

Lemma compiles_group rev fl s m body i :
  i < nG → compiles rev fl s m body →
  compiles rev fl s (m_group (dir_of rev) i m) (compile_group i body).
Proof.
  intros Hi Hb. split; [by apply group_framed, Hb|]. intros e e' Hmode He Hfits.
  unfold compile_group in He. destruct (Z.ltb_spec i 0) as [Hneg|Hpos].
  { unfold m_group. rewrite (proj2 (Z.ltb_lt _ _) Hneg). by apply Hb. }
  rewrite (im_rev _ _ _ Hmode) in He. inv_bind He. rename a into e2. injection He as <-.
  pose proof (proj1 Hb _ _ E) as Hf. pose proof (frame_here _ _ Hf) as Hh.
  rewrite here_emit in Hh. rewrite here_emit in *.
  assert ((dir_of rev <? 0) = rev) as Hdir by by destruct rev.
  eapply (implements_group _ _ _ _ _ _ _ i s m (here e) (here e2)); try reflexivity;
    rewrite ?Hdir; [lia|lia| | |].
  - eapply fits_fetch; [exact Hfits|lia| |done]. eapply instr_core; [apply frame_core, frame_emit|].
    eapply instr_core; [by apply frame_core|apply instr_emit].
  - eapply fits_fetch; [exact Hfits|lia|apply instr_emit|done].
  - erewrite <- here_emit.
    eapply (compiles_at _ _ _ _ _ _ e2); [exact Hb| |exact E| |exact Hfits| |lia|done].
    + eapply in_mode_frame; [apply frame_emit|done].
    + apply later_frame, frame_emit.
    + rewrite here_emit. lia.
Qed.

(** * Loops *)

Lemma in_mode_emit rev fl op a b e : in_mode rev fl e → in_mode rev fl (emit op a b e).
Proof. apply in_mode_frame, frame_emit. Qed.

Lemma star_guarded rev fl m n greedy body e e' :
  well_formed nG n = true → canMatchEmpty n = true → compiles rev fl false m body →
  in_mode rev fl e → compile_star n greedy body e = Ok e' → fits (here e) (here e') e' →
  implements' false (dir_of rev) (m_star input greedy (captureSpan n) m)
    (next_slot e) (here e) (here e').
Proof.
  intros Hwf Hempty Hb Hmode He Hfits. unfold compile_star, alloc_guard in He.
  rewrite Hempty in He. cbn [allocScratch] in He. fold (next_slot e) in He.
  pose proof (im_base _ _ _ Hmode). pose proof (im_count _ _ _ Hmode).
  assert (nCaps ≤ next_slot e) as Hslot by (unfold next_slot; lia).
  rewrite (proj2 (Z.leb_le 0 (next_slot e))) in He by lia.
  set (e1 := set_scratch _ _ e) in He. set (e2 := emit ReOp.SAVE _ 0 e1) in He.
  set (e3 := emit ReOp.SPLIT 0 0 e2) in He. inv_bind He. rename a into e5. injection He as <-.
  assert (here e2 = here e + 1) as H2 by apply (here_emit ReOp.SAVE (next_slot e) 0 e1).
  assert (here e3 = here e + 2) as H3 by (unfold e3; rewrite here_emit; lia).
  rewrite H2, H3 in Hfits. rewrite here_patch_split, !here_emit in *.
  replace (here e + 1 - 1) with (here e) in Hfits by lia.
  replace (here e5 + 1 + 1) with (here e5 + 2) in * by lia.
  pose proof (compiles_once _ _ _ _ n _ Hwf Hb) as Honce.
  pose proof (proj1 Honce _ _ E) as Hf. pose proof (frame_here _ _ Hf) as Hh. rewrite H3 in Hh.
  set (e6 := emit ReOp.PROGRESS (next_slot e) 0 e5) in *.
  set (e7 := emit ReOp.JMP (here e) 0 e6) in *.
  assert (frame e3 e7) as Hf7 by (eapply frame_trans; [exact Hf|apply frame_then_emit, frame_emit]).
  pose proof (here_pos e).
  assert (∀ pc op a b, here e ≤ pc < here e5 + 2 → pc ≠ here e + 1 → op ≠ ReOp.LOOKAROUND →
    instr_at e7 pc = Some (op, a, b) → fetch prog pc = Some (op, a, b)) as Hfetch.
  { intros pc op a b Hpc Hne Hop Hi. eapply fits_fetch; [exact Hfits|exact Hpc| |done].
    by rewrite instr_patch_split_ne by lia. }
  assert (in_mode rev fl e3) as Hm3.
  { eapply in_mode_emit, in_mode_emit. by eapply in_mode_frame; [apply frame_alloc|]. }
  apply implements_star_guarded with (s := false); auto.
  - split; [done|]. pose proof (f_slots _ _ _ Hfits) as Hs.
    pose proof (l_slots _ _ _ _ (later_frame 0 _ _ Hf7)) as Hs7.
    unfold next_slot, patch_split in *. destruct greedy; simpl in *; lia.
  - apply Hfetch; [lia|lia|done|]. eapply instr_core; [by apply frame_core|].
    eapply instr_core; [apply frame_core, frame_emit|]. apply (instr_emit _ _ _ e1).
  - eapply fits_fetch; [exact Hfits|lia| |done]. apply instr_patch_split with (a := 0) (b := 0); [lia|].
    eapply instr_core; [by apply frame_core|]. rewrite <- H2. apply instr_emit.
  - rewrite <- H3. eapply compiles_at; [exact Honce|exact Hm3|exact E| |exact Hfits|lia|lia|].
    + apply later_patch_split; [|lia|left; lia]. apply later_frame. apply frame_then_emit, frame_emit.
    + unfold next_slot. simpl. lia.
  - apply Hfetch; [lia|lia|done|]. eapply instr_core; [apply frame_core, frame_emit|]. apply instr_emit.
  - apply Hfetch; [lia|lia|done|]. replace (here e5 + 1) with (here e6) by apply here_emit.
    apply instr_emit.
Qed.

Lemma star_unguarded rev fl m n greedy body e e' :
  well_formed nG n = true → canMatchEmpty n = false → compiles rev fl true m body →
  in_mode rev fl e → compile_star n greedy body e = Ok e' → fits (here e) (here e') e' →
  implements' false (dir_of rev) (m_star input greedy (captureSpan n) m)
    (next_slot e) (here e) (here e').
Proof.
  intros Hwf Hempty Hb Hmode He Hfits. unfold compile_star, alloc_guard in He.
  rewrite Hempty in He. cbn [Z.leb Z.compare] in He.
  set (e3 := emit ReOp.SPLIT 0 0 e) in He. inv_bind He. rename a into e5. injection He as <-.
  assert (here e3 = here e + 1) as H3 by apply here_emit.
  rewrite H3 in Hfits. rewrite here_patch_split, here_emit in *.
  pose proof (compiles_once _ _ _ _ n _ Hwf Hb) as Honce.
  pose proof (proj1 Honce _ _ E) as Hf. pose proof (frame_here _ _ Hf) as Hh. rewrite H3 in Hh.
  pose proof (here_pos e).
  apply implements_star; auto.
  - eapply fits_fetch; [exact Hfits|lia| |done]. apply instr_patch_split with (a := 0) (b := 0); [lia|].
    eapply instr_core; [by apply frame_core, frame_then_emit|]. apply instr_emit.
  - rewrite <- H3. eapply compiles_at; [exact Honce|by apply in_mode_emit|exact E| |exact Hfits|lia|lia|done].
    apply later_patch_split; [|lia|left; lia]. apply later_frame, frame_emit.
  - eapply fits_fetch; [exact Hfits|lia| |done]. rewrite instr_patch_split_ne by lia. apply instr_emit.
Qed.

Lemma compiles_star rev fl m n greedy body :
  well_formed nG n = true → compiles rev fl (negb (canMatchEmpty n)) m body →
  compiles rev fl false (m_star input greedy (captureSpan n) m) (compile_star n greedy body).
Proof.
  intros Hwf Hb. split; [by apply star_framed, Hb|]. intros e e' Hmode He Hfits.
  destruct (canMatchEmpty n) eqn:Hempty; [by eapply star_guarded|by eapply star_unguarded].
Qed.

Lemma compiles_plus rev fl m n greedy body :
  well_formed nG n = true → compiles rev fl (negb (canMatchEmpty n)) m body →
  compiles rev fl (negb (canMatchEmpty n))
    (λ k, m_once (captureSpan n) m (m_star input greedy (captureSpan n) m k))
    (compile_plus n greedy body).
Proof.
  intros Hwf Hb. split; [by apply plus_framed, Hb|]. intros e e' Hmode He Hfits.
  pose proof (compiles_once _ _ _ _ n _ Hwf Hb) as Honce. unfold compile_plus, alloc_guard in He.
  destruct (canMatchEmpty n) eqn:Hempty.
  - cbn [allocScratch] in He. fold (next_slot e) in He.
    pose proof (im_base _ _ _ Hmode). pose proof (im_count _ _ _ Hmode).
    rewrite (proj2 (Z.ltb_ge (next_slot e) 0)) in He by (unfold next_slot; lia).
    set (e1 := set_scratch _ _ e) in He.
    assert (compiles rev fl (false || false)
      (λ k, m_once (captureSpan n) m (m_star input greedy (captureSpan n) m k))
      (λ e, e ← body (emitClearForBody n e); compile_star n greedy body e)) as Hplus.
    { apply (compiles_comp _ _ _ _ _ _ _ _ Honce). apply compiles_star; [done|].
      by rewrite Hempty. }
    change (here e) with (here e1). eapply compiles_at; [exact Hplus| |exact He| |exact Hfits|done|done|].
    + by eapply in_mode_frame; [apply frame_alloc|].
    + by apply later_frame.
    + unfold next_slot. simpl. lia.
  - cbn [Z.ltb Z.compare] in He. inv_bind He. rename a into e2. injection He as <-.
    pose proof (proj1 Honce _ _ E) as Hf. pose proof (frame_here _ _ Hf).
    pose proof (here_pos e). rewrite here_emit in Hfits. rewrite here_patch_split, here_emit in *.
    apply implements_plus; auto.
    + eapply compiles_at; [exact Honce|done|exact E| |exact Hfits|done|lia|done].
      apply later_patch_split; [|lia|right; lia]. apply later_frame, frame_emit.
    + eapply fits_fetch; [exact Hfits|lia| |done].
      apply instr_patch_split with (a := 0) (b := 0); [lia|]. apply instr_emit.
Qed.

Lemma compiles_opts rev fl s m body greedy n i :
  compiles rev fl s m body →
  compiles rev fl false (m_seq (replicate n (m_opt greedy m)))
    (for_n n i (λ _, compile_opt greedy body)).
Proof.
  intros Hb. apply (compiles_weaken _ _ ((0 <? Z.of_nat n) && false)); [done|].
  by eapply compiles_for_n, compiles_opt.
Qed.

Lemma compiles_repeat rev fl m n min max greedy body :
  well_formed nG n = true → 0 ≤ min → compiles rev fl (negb (canMatchEmpty n)) m body →
  compiles rev fl (negb ((min =? 0) || canMatchEmpty n))
    (m_copies input min max greedy (captureSpan n) m)
    (compileRepeat n min max greedy body).
Proof.
  intros Hwf Hmin Hb.
  apply (compiles_weaken _ _ (((0 <? Z.of_nat (Z.to_nat min)) && negb (canMatchEmpty n)) || false)).
  { rewrite negb_orb, Z2Nat.id, orb_false_r by done.
    destruct (Z.eqb_spec min 0), (Z.ltb_spec 0 min); simpl; try done; lia. }
  assert (compiles rev fl false
    (if max =? -1 then m_star input greedy (captureSpan n) m
     else m_seq (replicate (Z.to_nat (max - min)) (m_opt greedy m)))
    (λ e, if max =? -1 then compile_star n greedy body e
          else for_n (Z.to_nat (max - min)) min (λ _, compile_opt greedy body) e)) as Htail.
  { destruct (max =? -1); [by apply compiles_star|by eapply compiles_opts]. }
  pose proof (compiles_comp _ _ _ _ _ _ _ _ (compiles_for_n _ _ _ _ _ (Z.to_nat min) 0 Hb) Htail)
    as [Hf Hm].
  split; [by apply repeat_framed, Hb|]. intros e e' Hmode He Hfits.
  unfold compileRepeat in He. destruct (negb _ && _); [done|].
  pose proof (Hm e e' Hmode He Hfits) as H. unfold m_copies.
  by destruct (max =? -1).
Qed.

(** * Choices *)

(** [e'] is [e1] with the jumps in [js] patched to [end_]. *)
Definition patched (js : list Z) (end_ : Z) (e1 e' : Emitter) : Prop :=
  ∀ pc, instr_at e' pc = if decide (pc ∈ js) then (λ '(op, _, b), (op, end_, b)) <$> instr_at e1 pc
                         else instr_at e1 pc.

Lemma patch_all_spec end_ js e1 :
  Forall (λ j, 0 ≤ j) js → patched js end_ e1 (foldl (λ e j, patchA j end_ e) e1 js).
Proof.
  intros Hjs. revert e1. induction Hjs as [|j js Hj _ IH]; intros e1 pc.
  - rewrite decide_False by apply not_elem_of_nil. done.
  - cbn [foldl]. rewrite (IH (patchA j end_ e1) pc), instr_patchA by done.
    destruct (decide (j = pc)) as [->|Hne].
    + rewrite (decide_True (P := pc ∈ pc :: js)) by left.
      destruct (decide (pc ∈ js)); [|done]. by destruct (instr_at e1 pc) as [[[op a] b]|].
    + destruct (decide (pc ∈ js)) as [Hin|Hin].
      * by rewrite decide_True by (by right).
      * rewrite decide_False; [done|]. intros [?|?]%elem_of_cons; congruence.
Qed.

Lemma patch_all_later end_ js e1 lo hi e :
  later lo hi e e1 → Forall (λ j, 0 ≤ j ∧ (j < lo ∨ hi ≤ j)) js →
  later lo hi e (foldl (λ e j, patchA j end_ e) e1 js).
Proof.
  intros H Hjs. revert e1 H. induction Hjs as [|j js [Hj Hout] _ IH]; intros e1 H; [done|].
  cbn [foldl]. apply IH. by apply later_patchA.
Qed.

Lemma compiles_framed rev fl s ms bodies :
  Forall2 (λ m body, compiles rev fl s m body) ms bodies → Forall framed bodies.
Proof. induction 1 as [|m body ms bodies [Hf _] _ IH]; by constructor. Qed.

Lemma alternatives_code rev fl s ms bodies e jmps e1 jmps1 lo hi slot :
  Forall2 (λ m body, compiles rev fl s m body) ms bodies → ms ≠ [] →
  in_mode rev fl e → Forall (λ j, 0 ≤ j < here e) jmps →
  emit_alternatives bodies jmps e = Ok (e1, jmps1) →
  fits lo hi (foldl (λ e j, patchA j (here e1) e) e1 jmps1) →
  lo ≤ here e → here e1 ≤ hi → slot ≤ next_slot e →
  alternatives prog ct input nCaps nSlots (dir_of rev) s slot ms (here e) (here e1).
Proof.
  intros Hms. revert e jmps. induction Hms as [|m body ms bodies Hb Hms IH]; [done|].
  intros e jmps _ Hmode Hjmps He Hfits Hlo Hhi Hslot. cbn [emit_alternatives] in He.
  destruct Hms as [|m2 body2 ms bodies Hb2 Hms].
  - inv_bind He. injection He as -> ->. cbn [alternatives].
    eapply compiles_at; [exact Hb|done|exact E| |exact Hfits|done..].
    apply patch_all_later; [by apply later_frame|].
    eapply Forall_impl; [exact Hjmps|]. simpl. lia.
  - inv_bind He. rename a into eB.
    set (eA := patchA (here e) (here (emit ReOp.SPLIT 0 0 e)) (emit ReOp.SPLIT 0 0 e)) in *.
    set (eC := emit ReOp.JMP 0 0 eB) in *. set (eD := patchB (here e) (here eC) eC) in *.
    pose proof (here_pos e).
    assert (here eA = here e + 1) as HA by (unfold eA; by rewrite here_patchA, here_emit).
    assert (here eD = here eB + 1) as HD by (unfold eD, eC; by rewrite here_patchB, here_emit).
    assert (here eC = here eB + 1) as HC by apply here_emit.
    pose proof (proj1 Hb _ _ E) as HfB. pose proof (frame_here _ _ HfB) as HhB.
    assert (Forall framed (body2 :: bodies)) as Hframed.
    { constructor; [apply Hb2|by eapply compiles_framed]. }
    destruct (emit_alternatives_framed _ _ _ _ _ Hframed He) as [HfD (new & Hnew & Hrange)].
    pose proof (frame_here _ _ HfD) as HhD.
    assert (Forall (λ j, 0 ≤ j ∧ j ≠ here e ∧ (j < here eA ∨ here eB ≤ j)) jmps1) as Hout.
    { rewrite Hnew. apply Forall_app. split; [apply Forall_app; split|].
      - eapply Forall_impl; [exact Hjmps|]. simpl. lia.
      - constructor; [lia|constructor].
      - eapply Forall_impl; [exact Hrange|]. simpl. lia. }
    set (e' := foldl _ e1 jmps1) in *.
    assert (patched jmps1 (here e1) e1 e') as Hpatched.
    { apply patch_all_spec. eapply Forall_impl; [exact Hout|]. simpl. lia. }
    exists (here eB). split_and!.
    + eapply fits_fetch; [exact Hfits|lia| |done]. rewrite Hpatched, decide_False.
      2: { intros Hin. rewrite list.Forall_forall in Hout. apply Hout in Hin. lia. }
      eapply instr_core; [by apply frame_core|]. unfold eD.
      rewrite instr_patchB, decide_True by done.
      erewrite (instr_core eA eC); [|apply frame_core, frame_then_emit, HfB|].
      2: { unfold eA. rewrite instr_patchA, decide_True, instr_emit by done. reflexivity. }
      rewrite here_emit, HC. reflexivity.
    + rewrite <- HA. eapply compiles_at; [exact Hb| |exact E| |exact Hfits|lia|lia|exact Hslot].
      * eapply in_mode_frame; [|exact Hmode]. unfold eA. apply frame_patchA; [apply frame_emit|done].
      * apply patch_all_later; [|eapply Forall_impl; [exact Hout|]; simpl; lia].
        eapply later_trans; [|eapply (later_narrow 0 (here eD)); [lia|lia|by apply later_frame]].
        apply later_patchB; [apply later_frame, frame_emit|done|lia].
    + eapply fits_fetch; [exact Hfits|lia| |done]. rewrite Hpatched, decide_True.
      2: { rewrite Hnew. apply elem_of_app. left. apply elem_of_app. right. by left. }
      assert (instr_at e1 (here eB) = Some (ReOp.JMP, 0, 0)) as ->; [|reflexivity].
      eapply instr_core; [by apply frame_core|].
      unfold eD. rewrite instr_patchB, decide_False by lia. apply instr_emit.
    + rewrite <- HD. eapply IH; [done| | |exact He|exact Hfits|lia|lia|].
      * eapply in_mode_frame; [|exact Hmode]. unfold eD, eC.
        apply frame_patchB; [|done]. apply frame_then_emit.
        eapply frame_trans; [|exact HfB]. apply frame_patchA; [apply frame_emit|done].
      * apply Forall_app. split; [eapply Forall_impl; [exact Hjmps|]; simpl; lia|].
        constructor; [lia|constructor].
      * pose proof (l_slots _ _ _ _ (later_frame 0 _ _ HfB)) as H1. unfold next_slot in *.
        simpl in *. lia.
Qed.

Lemma here_patch_all end_ js e1 : here (foldl (λ e j, patchA j end_ e) e1 js) = here e1.
Proof.
  revert e1. induction js as [|j js IH]; intros e1; [done|]. cbn [foldl].
  by rewrite IH, here_patchA.
Qed.

Lemma compiles_choice rev fl s ms bodies :
  Forall2 (λ m body, compiles rev fl s m body) ms bodies → ms ≠ [] →
  compiles rev fl s (m_choice ms) (emit_choice bodies).
Proof.
  intros Hms Hne. split; [by eapply emit_choice_framed, compiles_framed|].
  intros e e' Hmode He Hfits. unfold emit_choice in He. inv_bind He. destruct a as [e1 jmps1].
  injection He as <-.
  assert (here (foldl (λ e j, patchA j (here e1) e) e1 jmps1) = here e1) as Hh.
  { apply here_patch_all. }
  rewrite Hh in *. apply implements_choice; auto.
  eapply alternatives_code; [exact Hms|done|exact Hmode|constructor|exact E|exact Hfits|done..].
Qed.

(** * The literal trie *)

Definition m_code (dir c : Z) : cont → cont := m_unit input dir (λ u, u =? c).
Definition m_lit (dir : Z) (l : list Z) : cont → cont := m_seq (map (m_code dir) l).

Definition m_branch (dir : Z) (b : Branch) : cont → cont :=
  match b with
  | BEps => m_seq []
  | BChar c suffixes => λ k, m_code dir c (m_choice (map (m_lit dir) suffixes) k)
  end.

Lemma or_else_assoc {A} (x y z : option A) : or_else x (or_else y z) = or_else (or_else x y) z.
Proof. by destruct x. Qed.

Lemma m_choice_app ms1 ms2 k sp cs :
  m_choice (ms1 ++ ms2) k sp cs = or_else (m_choice ms1 k sp cs) (m_choice ms2 k sp cs).
Proof.
  unfold m_choice. induction ms1 as [|m ms1 IH]; [done|]. cbn [foldr app].
  by rewrite IH, or_else_assoc.
Qed.

Lemma m_choice_cons m ms k sp cs :
  m_choice (m :: ms) k sp cs = or_else (m k sp cs) (m_choice ms k sp cs).
Proof. done. Qed.

Lemma m_choice_one m k sp cs : m_choice [m] k sp cs = m k sp cs.
Proof. apply or_else_none. Qed.

Lemma m_lit_cons dir c l k : m_lit dir (c :: l) k = m_code dir c (m_lit dir l k).
Proof. done. Qed.

(** Branches on other code units fail where [c] is next. *)
Lemma other_branches dir c post k sp cs :
  Forall (λ b, ∃ c' suffixes, b = BChar c' suffixes ∧ c' ≠ c) post →
  inBounds input dir sp = true → unit_at input dir sp = c →
  m_choice (map (m_branch dir) post) k sp cs = None.
Proof.
  intros Hpost Hb Hu. induction Hpost as [|b post (c' & suf & -> & Hne) _ IH]; [done|].
  change (or_else (m_branch dir (BChar c' suf) k sp cs)
    (m_choice (map (m_branch dir) post) k sp cs) = None). rewrite IH, or_else_none.
  simpl. unfold m_code, m_unit. rewrite Hb, Hu. simpl.
  by rewrite (proj2 (Z.eqb_neq _ _)).
Qed.

(** What the grouping loop maintains. *)
Record grouped (dir : Z) (lits : list (list Z)) (st : list Branch * jsmap Z Z) : Prop := {
  g_sem : ∀ k sp cs, m_choice (map (m_branch dir) st.1) k sp cs
                     = m_choice (map (m_lit dir) lits) k sp cs;
  g_index : ∀ c gi, jm_get st.2 c = Some gi → ∃ pre suffixes post,
    st.1 = pre ++ BChar c suffixes :: post ∧ gi = Z.of_nat (length pre) ∧
    Forall (λ b, ∃ c' suffixes, b = BChar c' suffixes ∧ c' ≠ c) post;
  g_suffixes : ∀ c suffixes, BChar c suffixes ∈ st.1 → suffixes ≠ [];
  g_eps : BEps ∈ st.1 → [] ∈ lits;
  g_some : lits ≠ [] → st.1 ≠ [] }.

Lemma grouped_eps dir lits st : grouped dir lits st → grouped dir (lits ++ [[]]) (st.1 ++ [BEps], []).
Proof.
  intros [A1 A2 A3 A4 A5]. split; cbn [fst snd].
  - intros k sp cs. rewrite !map_app, !m_choice_app, A1. done.
  - done.
  - intros c suf [Hin|Hin%list_elem_of_singleton]%elem_of_app; [by eapply A3|done].
  - intros _. apply elem_of_app. right. by left.
  - intros _. by destruct st.1.
Qed.

Lemma grouped_new dir lits st c rest :
  grouped dir lits st → jm_get st.2 c = None →
  grouped dir (lits ++ [c :: rest])
    (st.1 ++ [BChar c [rest]], jm_set st.2 c (Z.of_nat (length st.1))).
Proof.
  intros [A1 A2 A3 A4 A5] Hnone. split; cbn [fst snd].
  - intros k sp cs. rewrite !map_app, !m_choice_app, A1. f_equal. cbn [map].
    rewrite !m_choice_one, m_lit_cons. cbn [m_branch map]. unfold m_code, m_unit.
    destruct (_ && _); [apply m_choice_one|done].
  - intros c' gi. rewrite jm_get_set. destruct (decide (c = c')) as [<-|Hne].
    + intros [= <-]. by exists st.1, [rest], [].
    + intros Hget. destruct (A2 _ _ Hget) as (pre & suf & post & Hst & -> & Hpost).
      exists pre, suf, (post ++ [BChar c [rest]]). split_and!; [|done|].
      * by rewrite Hst, <- app_assoc.
      * apply Forall_app. split; [done|]. constructor; [by eexists _, _|constructor].
  - intros c' suf [Hin|Hin%list_elem_of_singleton]%elem_of_app; [by eapply A3|]. by simplify_eq.
  - intros [Hin|Hin%list_elem_of_singleton]%elem_of_app; [|done]. apply elem_of_app. left. by apply A4.
  - intros _. by destruct st.1.
Qed.

(** Adding a suffix to a branch keeps where the other branches are. *)
Definition add_suffix (rest : list Z) (b : Branch) : Branch :=
  match b with BChar c suffixes => BChar c (suffixes ++ [rest]) | BEps => BEps end.

Lemma alter_split rest i pre c suf post :
  Forall (λ b, ∃ c' suffixes, b = BChar c' suffixes ∧ c' ≠ c) post →
  ∃ pre' suf' post',
    alter (add_suffix rest) i (pre ++ BChar c suf :: post) = pre' ++ BChar c suf' :: post' ∧
    Z.of_nat (length pre) = Z.of_nat (length pre') ∧
    Forall (λ b, ∃ c' suffixes, b = BChar c' suffixes ∧ c' ≠ c) post'.
Proof.
  intros Hpost. destruct (decide (i < length pre)%nat) as [Hlt|Hge].
  - exists (alter (add_suffix rest) i pre), suf, post. rewrite alter_app_l, length_alter by done.
    done.
  - replace i with (length pre + (i - length pre))%nat by lia. rewrite alter_app_r.
    destruct (i - length pre)%nat as [|j]; [by exists pre, (suf ++ [rest]), post|].
    exists pre, suf, (alter (add_suffix rest) j post). split_and!; [done..|].
    apply list.Forall_alter; [done|]. intros b _ (c' & s & -> & Hne). by exists c', (s ++ [rest]).
Qed.

Lemma grouped_old dir lits st c rest gi :
  grouped dir lits st → jm_get st.2 c = Some gi →
  grouped dir (lits ++ [c :: rest])
    (alter (add_suffix rest) (Z.to_nat gi) st.1, st.2).
Proof.
  intros [A1 A2 A3 A4 A5] Hget. destruct (A2 _ _ Hget) as (pre & suf & post & Hst & -> & Hpost).
  rewrite Nat2Z.id.
  assert (alter (add_suffix rest) (length pre) st.1 = pre ++ BChar c (suf ++ [rest]) :: post) as Halter.
  { rewrite Hst. replace (length pre) with (length pre + 0)%nat by lia. by rewrite alter_app_r. }
  assert (∀ b, b ∈ alter (add_suffix rest) (length pre) st.1 → b ∈ st.1 ∨ b = BChar c (suf ++ [rest])) as Hin.
  { intros b. rewrite Halter, Hst, !elem_of_app, !elem_of_cons. tauto. }
  split; cbn [fst snd].
  - intros k sp cs. rewrite map_app, m_choice_app, <- A1, Halter, Hst. cbn [map].
    rewrite m_choice_one, !map_app, !m_choice_app, <- or_else_assoc. f_equal. cbn [map].
    rewrite !m_choice_cons, m_lit_cons. cbn [m_branch]. unfold m_code, m_unit.
    destruct (inBounds input dir sp && (unit_at input dir sp =? c)) eqn:Ec.
    + apply andb_true_iff in Ec as [Hb Hu%Z.eqb_eq].
      rewrite (other_branches dir c post k sp cs Hpost Hb Hu), !or_else_none.
      rewrite map_app, m_choice_app. cbn [map]. by rewrite m_choice_one.
    + cbn [or_else]. by rewrite or_else_none.
  - intros c' gi Hg. destruct (A2 _ _ Hg) as (pre' & suf' & post' & Hst' & -> & Hpost').
    rewrite Hst'. exact (alter_split _ _ _ _ _ _ Hpost').
  - intros c' suf' [Hb|[= -> ->]]%Hin; [by eapply A3|]. by destruct suf.
  - intros [Hb|Hb]%Hin; [|done]. apply elem_of_app. left. by apply A4.
  - intros _. rewrite Halter. by destruct pre.
Qed.

Lemma add_literal_grouped dir lits st l :
  grouped dir lits st → grouped dir (lits ++ [l]) (add_literal st l).
Proof.
  intros Hg. destruct st as [branches idx]. destruct l as [|c rest]; simpl.
  - apply (grouped_eps _ _ _ Hg).
  - destruct (jm_get idx c) as [gi|] eqn:E;
      [apply (grouped_old _ _ _ c rest gi Hg E)|apply (grouped_new _ _ _ c rest Hg E)].
Qed.

Lemma group_literals_grouped dir lits :
  grouped dir lits (foldl add_literal ([], []) lits).
Proof.
  induction lits as [|l lits IH] using rev_ind.
  - split; simpl; try done; [by intros c suf ?%not_elem_of_nil|by intros ?%not_elem_of_nil].
  - rewrite foldl_app. by apply add_literal_grouped.
Qed.

Lemma compiles_ext rev fl s m m' body :
  (∀ k sp cs, m' k sp cs = m k sp cs) → compiles rev fl s m body → compiles rev fl s m' body.
Proof.
  intros Heq [Hf Hm]. split; [done|]. intros e e' Hmode He Hfits Q sp cs cv k Hsp Hcs Hk.
  rewrite Heq. by eapply Hm.
Qed.

Lemma compiles_code rev fl c : compiles rev fl true (m_code (dir_of rev) c) (λ e, Ok (emit ReOp.CHAR c 0 e)).
Proof.
  split; [intros e e' [= <-]; apply frame_emit|]. intros e e' Hmode [= <-] Hfits. rewrite here_emit.
  eapply (implements_unit _ _ _ _ _ _ _ _ _ _ ReOp.CHAR c 0); auto.
  eapply fits_fetch; [exact Hfits|rewrite here_emit; lia|apply instr_emit|done].
  Unshelve. all: auto.
Qed.

Lemma compiles_codes rev fl codes :
  compiles rev fl false (m_lit (dir_of rev) codes) (λ e, Ok (emit_codes codes e)).
Proof.
  induction codes as [|c codes IH]; [apply compiles_nil|].
  apply (compiles_weaken _ _ (true || false)); [done|].
  apply (compiles_comp _ _ _ _ _ _ _ _ (compiles_code rev fl c) IH).
Qed.

(** The trie implements the choice between its literals. *)
Lemma compiles_trie rev fl fuel lits :
  lits ≠ [] →
  compiles rev fl (bool_decide ([] ∉ lits)) (m_choice (map (m_lit (dir_of rev)) lits))
    (emitLitAltGrouped fuel lits).
Proof.
  revert lits. induction fuel as [|fuel IH]; intros lits Hne; [by split|].
  destruct (group_literals_grouped (dir_of rev) lits) as [A1 _ A3 A4 A5].
  apply (compiles_ext _ _ _ (m_choice (map (m_branch (dir_of rev)) (group_literals lits)))).
  { intros k sp cs. by rewrite <- A1. }
  cbn [emitLitAltGrouped]. apply compiles_choice.
  2: { intros Hnil. apply (A5 Hne). unfold group_literals in Hnil.
       by destruct (foldl add_literal ([], []) lits).1. }
  unfold group_literals.
  assert (∀ b, b ∈ (foldl add_literal ([], []) lits).1 →
    compiles rev fl (bool_decide ([] ∉ lits)) (m_branch (dir_of rev) b)
      (λ e, match b with
            | BEps => Ok e
            | BChar c [s] => Ok (emit_codes s (emit ReOp.CHAR c 0 e))
            | BChar c suffixes => emitLitAltGrouped fuel suffixes (emit ReOp.CHAR c 0 e)
            end)) as Hbranch.
  { intros b Hb. destruct b as [|c suffixes].
    - apply A4 in Hb. rewrite bool_decide_false by tauto. apply compiles_nil.
    - apply (compiles_weaken _ _ (true || false)); [done|].
      pose proof (A3 _ _ Hb) as Hsuf.
      assert (compiles rev fl false (m_choice (map (m_lit (dir_of rev)) suffixes))
        (λ e, match suffixes with
              | [s] => Ok (emit_codes s e)
              | _ => emitLitAltGrouped fuel suffixes e
              end)) as Htail.
      { destruct suffixes as [|s [|s2 suffixes]]; [done| |].
        - eapply compiles_ext; [|apply compiles_codes]. intros. apply m_choice_one.
        - eapply compiles_weaken; [|by apply IH]. done. }
      pose proof (compiles_comp _ _ _ _ _ _ _ _ (compiles_code rev fl c) Htail) as Hc.
      destruct suffixes as [|s [|s2 suffixes]]; [done|exact Hc|exact Hc]. }
  clear -Hbranch. revert Hbranch. generalize (foldl add_literal ([], []) lits).1. intros bs Hbranch.
  induction bs as [|b bs IHbs]; constructor.
  - pose proof (Hbranch b ltac:(left)) as H. by destruct b as [|c [|s [|s2 suffixes]]].
  - apply IHbs. intros b' Hb'. apply Hbranch. by right.
Qed.

Lemma char_codes_map qs codes : char_codes qs = Some codes → qs = map NChar codes.
Proof.
  revert codes. induction qs as [|q qs IH]; intros codes H; simpl in H; [by injection H as <-|].
  destruct q; try done. destruct (char_codes qs) as [cs|]; [|done]. injection H as <-.
  simpl. f_equal. by apply IH.
Qed.

(** A literal option means its code units in the order of the match. *)
Lemma literal_matcher rev fl o codes :
  m_ignoreCase fl = false → literalCodes (orient rev o) = Some codes →
  matcher' fl (dir_of rev) o = m_lit (dir_of rev) codes.
Proof.
  intros Hci Hl.
  assert (∀ c, matcher' fl (dir_of rev) (NChar c) = m_code (dir_of rev) c) as Hchar.
  { intros c. cbn [matcher]. unfold char_ok. by rewrite Hci. }
  assert (∀ cs, m_seq (map (matcher' fl (dir_of rev)) (map NChar cs)) = m_lit (dir_of rev) cs) as Hseq.
  { intros cs. unfold m_lit. f_equal. rewrite map_map. apply map_ext. apply Hchar. }
  destruct o; try (by destruct rev).
  - assert (codes = [code]) as -> by (destruct rev; by injection Hl as <-). apply (Hseq [code]).
  - destruct rev; cbn [orient reverseNode literalCodes] in Hl; apply char_codes_map in Hl.
    + assert (map (matcher' fl (dir_of true)) parts
        = reverse (map (matcher' fl (dir_of true)) (map NChar codes))) as Heq.
      { apply (f_equal reverse) in Hl. rewrite reverse_involutive in Hl.
        apply (f_equal (map reverseNode)) in Hl. rewrite map_map in Hl.
        rewrite (map_ext _ (λ n, n) reverseNode_reverse), map_id in Hl. rewrite Hl.
        change (map ?f ?l) with (f <$> l). rewrite !fmap_reverse. f_equal.
        by rewrite <- !list_fmap_compose. }
      cbn [matcher]. rewrite Heq. change (dir_of true <? 0) with true. cbn [m_seq].
      rewrite reverse_involutive. apply Hseq.
    + subst parts. apply Hseq.
Qed.

Lemma literal_options_spec rev fl os lits :
  m_ignoreCase fl = false → literal_options (map (orient rev) os) = Some lits →
  map (matcher' fl (dir_of rev)) os = map (m_lit (dir_of rev)) lits ∧ ([] ∉ lits) ∧
  (length lits = length os).
Proof.
  intros Hci. revert lits. induction os as [|o os IH]; intros lits Hl; simpl in Hl.
  - injection Hl as <-. split_and!; [done|apply not_elem_of_nil|done].
  - destruct (literalCodes (orient rev o)) as [[|c codes]|] eqn:E; try done.
    destruct (literal_options (map (orient rev) os)) as [lits'|]; [|done]. injection Hl as <-.
    destruct (IH _ eq_refl) as (H1 & H2 & H3). split_and!.
    + cbn [map]. rewrite H1. f_equal. by apply literal_matcher.
    + rewrite not_elem_of_cons. done.
    + simpl. by rewrite H3.
Qed.

Lemma compiles_alt rev fl os :
  os ≠ [] → Forall (λ o, compiles rev fl (negb (canMatchEmpty o)) (matcher' fl (dir_of rev) o)
                           (compileNode' (orient rev o))) os →
  compiles rev fl (negb (existsb canMatchEmpty os)) (m_choice (map (matcher' fl (dir_of rev)) os))
    (λ e, match tryEmitLiteralAltTrie (map (orient rev) os) e with
          | Some r => r
          | None => emit_choice (map compileNode' (map (orient rev) os)) e
          end).
Proof.
  intros Hne Hos.
  assert (compiles rev fl (negb (existsb canMatchEmpty os)) (m_choice (map (matcher' fl (dir_of rev)) os))
    (emit_choice (map compileNode' (map (orient rev) os)))) as Hchain.
  { apply compiles_choice; [|by destruct os].
    assert (∀ s : bool, (s = true → negb (existsb canMatchEmpty os) = true) →
      Forall2 (λ m body, compiles rev fl s m body) (map (matcher' fl (dir_of rev)) os)
        (map compileNode' (map (orient rev) os))) as H; [|by apply H].
    clear Hne. induction Hos as [|o os Ho _ IH]; intros s Hs; simpl; constructor.
    - eapply compiles_weaken; [|exact Ho]. intros H. apply Hs in H. simpl in H.
      rewrite negb_orb in H. by apply andb_true_iff in H as [??].
    - apply IH. intros H. apply Hs in H. simpl in H. rewrite negb_orb in H.
      by apply andb_true_iff in H as [??]. }
  split.
  { apply alt_framed. apply list.Forall_forall. intros body Hin.
    apply list_elem_of_In, in_map_iff in Hin as (n & <- & _). apply compileNode_framed. }
  intros e e' Hmode He Hfits. destruct (tryEmitLiteralAltTrie _ e) as [r|] eqn:Etry; [|by apply Hchain].
  unfold tryEmitLiteralAltTrie in Etry. rewrite (im_ci _ _ _ Hmode) in Etry.
  destruct (m_ignoreCase fl) eqn:Hci; [done|]. destruct (_ <? 4)%nat; [done|].
  destruct (literal_options (map (orient rev) os)) as [lits|] eqn:El; [|done].
  change (Some (emitLitAltGrouped (trie_fuel lits) lits e) = Some r) in Etry.
  apply (inj Some) in Etry. subst r.
  destruct (literal_options_spec _ _ _ _ Hci El) as (Hms & Hnil & Hlen). rewrite Hms.
  assert (lits ≠ []) as Hlits by (intros ->; by destruct os).
  pose proof (compiles_trie rev fl (trie_fuel lits) lits Hlits) as Htrie.
  rewrite bool_decide_true in Htrie by done.
  eapply compiles_weaken; [|exact Htrie|exact Hmode|exact He|exact Hfits]. done.
Qed.

(** * Single instructions *)

Lemma compiles_unit rev fl p (f : Emitter → Emitter) :
  (∀ e, frame e (f e) ∧ here (f e) = here e + 1) →
  (∀ e, in_mode rev fl e → e_classTable (f e) `prefix_of` ct →
     ∃ op a b, instr_at (f e) (here e) = Some (op, a, b) ∧
       (op = ReOp.CHAR ∨ op = ReOp.CHARI ∨ op = ReOp.ANY ∨ op = ReOp.CLASS) ∧
       ∀ c, 0 ≤ c ≤ 0xffff → unitMatches op a b ct c = p c) →
  compiles rev fl true (m_unit input (dir_of rev) p) (λ e, Ok (f e)).
Proof.
  intros Hf Hp. split; [intros e e' [= <-]; apply Hf|]. intros e e' Hmode [= <-] Hfits.
  destruct (Hf e) as [_ Hh]. rewrite Hh in *.
  destruct (Hp e Hmode (f_classes _ _ _ Hfits)) as (op' & a & b & Hi & Hop & Hm).
  eapply (implements_unit _ _ _ Hunits _ _ _ (dir_of_cases rev) _ _ op' a b); [|done|done].
  eapply fits_fetch; [exact Hfits|lia|exact Hi|]. by destruct Hop as [->|[->|[->| ->]]].
Qed.

Lemma addClass_table_prefix rs op a b e :
  e_classTable (emit op a b (addClass rs e).2) = e_classTable (addClass rs e).2.
Proof. done. Qed.

Lemma char_match fl code e :
  0 ≤ code ≤ 0xffff → in_mode false fl e ∨ in_mode true fl e →
  e_classTable (compile_char toUpperCase code e) `prefix_of` ct →
  ∃ op a b, instr_at (compile_char toUpperCase code e) (here e) = Some (op, a, b) ∧
    (op = ReOp.CHAR ∨ op = ReOp.CHARI ∨ op = ReOp.ANY ∨ op = ReOp.CLASS) ∧
    ∀ c, 0 ≤ c ≤ 0xffff → unitMatches op a b ct c = char_ok toUpperCase uni fl code c.
Proof.
  intros Hcode Hmode. unfold compile_char, char_ok.
  assert (caseInsensitive e = m_ignoreCase fl ∧ unicode e = uni) as [-> ->]
    by (destruct Hmode as [[] | []]; done).
  destruct (m_ignoreCase fl); cbn [negb];
    [|intros _; exists ReOp.CHAR, code, 0; split_and!; [apply instr_emit|by left|done]].
  destruct uni; [intros _; exists ReOp.CHARI, (asciiFold code), 0;
    split_and!; [apply instr_emit|by right; left|done]|].
  pose proof (elem_of_fold_char toUpperCase code) as Hfold.
  destruct (foldCharUnitsLegacy toUpperCase code) as [|u [|u2 us]] eqn:Eus.
  - exfalso. assert (code ∈ ([] : list Z)) as Hin
      by exact (proj2 (Hfold code Hcode) (conj Hcode eq_refl)).
    by apply not_elem_of_nil in Hin.
  - intros _. exists ReOp.CHAR, u, 0. split_and!; [apply instr_emit|by left|]. intros c Hc.
    change (unitMatches ReOp.CHAR u 0 ct c) with (c =? u).
    apply eq_true_iff_eq. rewrite !Z.eqb_eq. specialize (Hfold c Hcode).
    rewrite list_elem_of_singleton in Hfold. rewrite Hfold. tauto.
  - intros Hct'. exists ReOp.CLASS, (addClass (unitsToRanges (u :: u2 :: us)) e).1, 0.
    split_and!; [apply (instr_emit _ _ _ (addClass _ e).2)|by right; right; right|]. intros c Hc.
    change (classMatch ct (addClass (unitsToRanges (u :: u2 :: us)) e).1 c false
      = (canonicalizeLegacy toUpperCase c =? canonicalizeLegacy toUpperCase code)).
    rewrite addClass_match; [|apply separated_valid, coalesce_separated|exact Hct'|done].
    rewrite xorb_false_l. apply eq_true_iff_eq. rewrite unitsToRanges_ranges, Hfold by done.
    rewrite Z.eqb_eq. tauto.
Qed.

Lemma class_match fl ranges negated e :
  forallb (λ r, r.1 <=? r.2) ranges = true → in_mode false fl e ∨ in_mode true fl e →
  e_classTable (compile_class toUpperCase ranges negated e) `prefix_of` ct →
  ∃ op a b, instr_at (compile_class toUpperCase ranges negated e) (here e) = Some (op, a, b) ∧
    (op = ReOp.CHAR ∨ op = ReOp.CHARI ∨ op = ReOp.ANY ∨ op = ReOp.CLASS) ∧
    ∀ c, 0 ≤ c ≤ 0xffff →
      unitMatches op a b ct c = class_ok toUpperCase uni fl ranges negated c.
Proof.
  intros Hvalid Hmode. unfold compile_class, class_ok.
  assert (caseInsensitive e = m_ignoreCase fl ∧ unicode e = uni) as [-> ->]
    by (destruct Hmode as [[] | []]; done).
  assert (Forall (λ r, r.1 ≤ r.2) ranges) as Hle.
  { apply list.Forall_forall. intros r Hr. rewrite forallb_forall in Hvalid.
    apply Z.leb_le, Hvalid. by apply list_elem_of_In. }
  set (rs := if m_ignoreCase fl then _ else ranges).
  assert (Forall (λ r, r.1 ≤ r.2) rs) as Hrs.
  { unfold rs. destruct (m_ignoreCase fl); [|done]. destruct uni; [by apply fold_ascii_valid|].
    apply separated_valid, coalesce_separated. }
  intros Hct'. exists ReOp.CLASS, (addClass rs e).1, (if negated then 1 else 0).
  split_and!; [apply (instr_emit _ _ _ (addClass _ e).2)|by right; right; right|]. intros c Hc.
  assert (unitMatches ReOp.CLASS (addClass rs e).1 (if negated then 1 else 0) ct c
    = classMatch ct (addClass rs e).1 c negated) as -> by by destruct negated.
  rewrite addClass_match by done. f_equal. unfold rs.
  destruct (m_ignoreCase fl); [|done]. destruct uni; cbn [negb]; [apply fold_ascii_match|].
  apply eq_true_iff_eq. rewrite fold_class_ranges by done. rewrite existsb_exists.
  setoid_rewrite andb_true_iff. setoid_rewrite Z.eqb_eq. setoid_rewrite <- list_elem_of_In.
  setoid_rewrite elem_of_units. naive_solver.
Qed.

Lemma here_char code e : here (compile_char toUpperCase code e) = here e + 1.
Proof.
  unfold compile_char. destruct (negb _); [apply here_emit|]. destruct (unicode e); [apply here_emit|].
  destruct (foldCharUnitsLegacy toUpperCase code) as [|u [|u2 us]]; try apply here_emit;
    apply (here_emit _ _ _ (addClass _ e).2).
Qed.

Lemma compiles_assert rev fl op (a : modes → Z) (a' : Emitter → Z) :
  op = ReOp.BOL ∨ op = ReOp.EOL ∨ op = ReOp.WBOUND →
  (∀ e, in_mode rev fl e → a' e = a fl) →
  compiles rev fl false (m_assert input op (a fl)) (λ e, Ok (emit op (a' e) 0 e)).
Proof.
  intros Hop Ha. split; [intros e e' [= <-]; apply frame_emit|]. intros e e' Hmode [= <-] Hfits.
  rewrite here_emit in *. rewrite (Ha e Hmode) in Hfits. apply implements_assert; auto.
  eapply fits_fetch; [exact Hfits|lia|apply instr_emit|]. by destruct Hop as [->|[->| ->]].
Qed.

Lemma compiles_cpclass rev fl (rs : Emitter → list (Z * Z)) rs' negated :
  (∀ e, in_mode rev fl e → rs e = rs') → Forall (λ r, r.1 ≤ r.2) rs' →
  compiles rev fl true (m_code_point input (dir_of rev) (λ c, xorb negated (in_ranges c rs')))
    (λ e, Ok (compile_cpclass (rs e) negated e)).
Proof.
  intros Hrs Hle. split; [intros e e' [= <-]; apply (class_frame ReOp.CPCLASS)|].
  intros e e' Hmode [= <-] Hfits. rewrite (Hrs e Hmode) in *.
  assert (here (compile_cpclass rs' negated e) = here e + 1) as Hh
    by apply (here_emit _ _ _ (addClass _ e).2).
  rewrite Hh in *. pose proof (f_classes _ _ _ Hfits) as Hct'.
  eapply (implements_code_point _ _ _ Hunits _ _ _ (dir_of_cases rev) _ _
    (addClass rs' e).1 (if negated then 1 else 0)).
  - eapply fits_fetch; [exact Hfits|lia|apply (instr_emit _ _ _ (addClass _ e).2)|done].
  - intros c. rewrite <- (addClass_match rs' e ct c negated) by done. by destruct negated.
Qed.

Lemma compiles_look rev fl n negated behind :
  compiles rev fl false (m_look negated (matcher' fl (dir_of behind) n))
    (λ e, Ok (compile_lookaround n negated behind e)).
Proof.
  split; [intros e e' [= <-]; apply look_frame|]. intros e e' Hmode [= <-] Hfits.
  set (flags := (if negated then 1 else 0) .| (if behind then 2 else 0)).
  assert (here (compile_lookaround n negated behind e) = here e + 1) as Hh
    by apply (here_emit ReOp.LOOKAROUND 0 flags e).
  rewrite Hh in *. set (p := {| ps_node := if behind then reverseNode n else n; patchPc := here e;
    ps_reversed := behind; ps_caseInsensitive := caseInsensitive e; ps_dotAll := dotAll e;
    ps_multiline := multiline e |}).
  destruct (f_subs _ _ _ Hfits p) as (a & b & Hf & Hrun).
  { unfold compile_lookaround. simpl. apply elem_of_app. right. by left. }
  destruct (f_code _ _ _ Hfits (here e) ReOp.LOOKAROUND 0 flags) as (a' & Hf' & _).
  { lia. }
  { apply (instr_emit ReOp.LOOKAROUND 0 flags e). }
  simpl in Hf. rewrite Hf in Hf'. injection Hf' as -> ->.
  assert (sub_modes p = fl) as Hfl.
  { destruct Hmode as [H1 H2 H3 _ _ _ _]. unfold sub_modes. simpl. rewrite H1, H2, H3. by destruct fl. }
  assert (orient (ps_reversed p) (ps_node p) = n) as Hn by apply (orient_orient behind n).
  rewrite Hfl, Hn in Hrun. eapply implements_look; [exact Hf|done|]. exact Hrun.
Qed.

Lemma compiles_modGroup rev fl s m body add remove :
  compiles rev (inner_modes add remove fl) s m body →
  compiles rev fl s m (compile_modGroup add remove body).
Proof.
  intros Hb. split; [by apply modGroup_framed, Hb|]. intros e e' Hmode He Hfits.
  unfold compile_modGroup in He. inv_bind He. rename a into e2. injection He as <-.
  set (e1 := set_modes _ _ _ _ e) in E. change (here (set_modes ?a ?b ?c ?d e2)) with (here e2) in *.
  assert (in_mode rev (inner_modes add remove fl) e1) as Hm1.
  { destruct Hmode as [H1 H2 H3 H4 H5 H6 H7]. split; unfold e1; simpl; congruence || done. }
  change (here e) with (here e1) in *. change (next_slot e) with (next_slot e1).
  eapply compiles_at; [exact Hb|exact Hm1|exact E| |exact Hfits|done..]. by split.
Qed.

Lemma orient_concat rev ps :
  orient rev (NConcat ps)
  = NConcat (if dir_of rev <? 0 then reverse (map (orient rev) ps) else map (orient rev) ps).
Proof. destruct rev; [done|]. cbn. f_equal. symmetry. apply map_id. Qed.

Lemma orient_alt rev os : orient rev (NAlt os) = NAlt (map (orient rev) os).
Proof. destruct rev; [done|]. cbn. f_equal. symmetry. apply map_id. Qed.

Lemma compiles_concat rev fl ps :
  Forall (λ p, compiles rev fl (negb (canMatchEmpty p)) (matcher' fl (dir_of rev) p)
                 (compileNode' (orient rev p))) ps →
  compiles rev fl (negb (forallb canMatchEmpty ps)) (matcher' fl (dir_of rev) (NConcat ps))
    (compileNode' (NConcat (if dir_of rev <? 0 then reverse (map (orient rev) ps)
                            else map (orient rev) ps))).
Proof.
  intros Hps. apply (Forall3_map (λ s m body, compiles rev fl s m body)
    (λ p, negb (canMatchEmpty p)) (matcher' fl (dir_of rev)) (λ p, compileNode' (orient rev p))) in Hps.
  rewrite <- (map_map (orient rev) compileNode') in Hps.
  cbn [ReCompile.compileNode matcher]. rewrite <- strict_concat.
  destruct (dir_of rev <? 0); [|by apply compiles_seq].
  rewrite <- existsb_reverse. apply compiles_seq.
  change (map compileNode' (reverse ?l)) with (compileNode' <$> reverse l). rewrite fmap_reverse.
  by apply Forall3_reverse.
Qed.

(** Every node compiles to code that implements its matcher. *)
Lemma compileNode_compiles n :
  well_formed nG n = true → ∀ rev fl,
  compiles rev fl (negb (canMatchEmpty n)) (matcher' fl (dir_of rev) n) (compileNode' (orient rev n)).
Proof.
  assert (∀ n rev, well_formed nG n = true → well_formed nG (orient rev n) = true) as Hwfr.
  { intros n' [] ?; [by rewrite well_formed_reverse|done]. }
  induction n using ReNode_ind'; intros Hwf rev fl.
  - cbn [well_formed] in Hwf. apply andb_true_iff in Hwf as [H1%Z.leb_le H2%Z.leb_le].
    assert (orient rev (NChar c) = NChar c) as -> by by destruct rev.
    apply compiles_unit; [intros e; split; [apply char_frame|apply here_char]|].
    intros e Hmode. apply char_match; [done|]. destruct rev; [by right|by left].
  - assert (orient rev NAny = NAny) as -> by by destruct rev.
    apply compiles_unit; [intros e; split; [apply frame_emit|apply here_emit]|].
    intros e Hmode _. exists ReOp.ANY, (bit (dotAll e)), 0.
    split_and!; [apply instr_emit|by right; right; left|]. intros c Hc.
    rewrite (im_da _ _ _ Hmode). by destruct (m_dotAll fl).
  - cbn [well_formed] in Hwf. assert (orient rev (NClass r n) = NClass r n) as -> by by destruct rev.
    apply compiles_unit; [intros e; split; [apply (class_frame ReOp.CLASS)|]|].
    + apply (here_emit _ _ _ (addClass _ e).2).
    + intros e Hmode. apply class_match; [done|]. destruct rev; [by right|by left].
  - cbn [well_formed] in Hwf. assert (orient rev (NCpClass r n) = NCpClass r n) as -> by by destruct rev.
    apply compiles_cpclass; [done|]. apply list.Forall_forall. intros q Hq.
    rewrite forallb_forall in Hwf. apply Z.leb_le, Hwf. by apply list_elem_of_In.
  - assert (orient rev NBol = NBol) as -> by by destruct rev.
    apply (compiles_assert _ _ _ (λ fl, bit (m_multiline fl)) (λ e, bit (multiline e))); [by left|].
    intros e Hmode. by rewrite (im_ml _ _ _ Hmode).
  - assert (orient rev NEol = NEol) as -> by by destruct rev.
    apply (compiles_assert _ _ _ (λ fl, bit (m_multiline fl)) (λ e, bit (multiline e)));
      [by right; left|]. intros e Hmode. by rewrite (im_ml _ _ _ Hmode).
  - assert (orient rev (NWordBoundary n) = NWordBoundary n) as -> by by destruct rev.
    apply (compiles_assert _ _ _ (λ _, bit n) (λ _, bit n)); [by right; right|done].
  - done.
  - assert (orient rev (NLookaround n neg b) = NLookaround n neg b) as -> by by destruct rev.
    apply compiles_look.
  - assert (orient rev (NModGroup a r n) = NModGroup a r (orient rev n)) as -> by by destruct rev.
    apply compiles_modGroup, IHn, Hwf.
  - assert (orient rev NUdot = NUdot) as -> by by destruct rev.
    assert (∀ e, in_mode rev fl e → dotCpRanges (dotAll e) = dotCpRanges (m_dotAll fl)) as Hdot
      by (intros e Hmode; by rewrite (im_da _ _ _ Hmode)).
    eapply compiles_ext; [|apply (compiles_cpclass _ _ _ _ false Hdot)].
    + intros k sp cs. cbn [matcher]. unfold m_code_point.
      destruct (inBounds _ _ _); [|done]. destruct (read_code_point _ _ _) as [[]|]; [|done].
      by rewrite xorb_false_l.
    + destruct (m_dotAll fl); repeat constructor; simpl; lia.
  - cbn [well_formed] in Hwf. rewrite orient_concat. cbn [canMatchEmpty].
    apply (compiles_concat rev fl ps). apply (Forall_forallb_impl _ _ _ _ H Hwf).
    intros p Hp Hwfp. by apply Hp.
  - cbn [well_formed] in Hwf. apply andb_true_iff in Hwf as [Hlen%Nat.ltb_lt Hwf].
    rewrite orient_alt. apply compiles_alt; [by intros ->; simpl in Hlen; lia|].
    apply (Forall_forallb_impl _ _ _ _ H Hwf). intros p Hp Hwfp. by apply Hp.
  - assert (orient rev (NStar n g) = NStar (orient rev n) g) as -> by by destruct rev.
    cbn [matcher canMatchEmpty ReCompile.compileNode]. rewrite <- (captureSpan_orient rev n).
    apply compiles_star; [by apply Hwfr|]. rewrite canMatchEmpty_orient. by apply IHn.
  - assert (orient rev (NPlus n g) = NPlus (orient rev n) g) as -> by by destruct rev.
    cbn [matcher canMatchEmpty ReCompile.compileNode].
    rewrite <- (captureSpan_orient rev n), <- (canMatchEmpty_orient rev n).
    apply compiles_plus; [by apply Hwfr|]. rewrite canMatchEmpty_orient. by apply IHn.
  - assert (orient rev (NOpt n g) = NOpt (orient rev n) g) as -> by by destruct rev.
    by eapply compiles_opt, IHn.
  - cbn [well_formed] in Hwf. apply andb_true_iff in Hwf as [Hmin%Z.leb_le Hwf].
    assert (orient rev (NRepeat n lo hi g) = NRepeat (orient rev n) lo hi g) as -> by by destruct rev.
    cbn [matcher canMatchEmpty ReCompile.compileNode].
    rewrite <- (captureSpan_orient rev n), <- (canMatchEmpty_orient rev n).
    apply compiles_repeat; [by apply Hwfr|done|]. rewrite canMatchEmpty_orient. by apply IHn.
  - cbn [well_formed] in Hwf. apply andb_true_iff in Hwf as [Hi%Z.ltb_lt Hwf].
    assert (orient rev (NGroup n i s) = NGroup (orient rev n) i s) as -> by by destruct rev.
    cbn [matcher canMatchEmpty ReCompile.compileNode]. by apply compiles_group, IHn.
Qed.
(** * Sub-programs *)

(** The emitters of the drain loop: every queued sub-program has its own
    [LOOKAROUND] instruction, to be patched, and a well-formed tree. *)
Record queue_ok (e : Emitter) : Prop := {
  q_unicode : unicode e = uni;
  q_base : scratchBase e = nCaps;
  q_count : 0 ≤ scratchCount e;
  q_distinct : NoDup (patchPc <$> pendingSubs e);
  q_looks : Forall (λ p, look_at e (patchPc p)) (pendingSubs e);
  q_trees : Forall (λ p, well_formed nG (ps_node p) = true) (pendingSubs e) }.

(** What the rest of the compilation leaves of the code of [e]. *)
Record extends (e e5 : Emitter) : Prop := {
  x_code : ∀ pc op a b, instr_at e pc = Some (op, a, b) →
    ∃ a', instr_at e5 pc = Some (op, a', b) ∧ (op ≠ ReOp.LOOKAROUND → a' = a);
  x_keep : ∀ pc i, instr_at e pc = Some i → pc ∉ (patchPc <$> pendingSubs e) →
    instr_at e5 pc = Some i;
  x_classes : e_classTable e `prefix_of` e_classTable e5;
  x_slots : next_slot e ≤ next_slot e5;
  x_base : scratchBase e5 = scratchBase e }.

Lemma extends_refl e : extends e e.
Proof. split; [by eauto|done|done|done|done]. Qed.

(** One round of the loop, from [e] with [sub] at the head of the queue. *)
Section round.
Context (sub : PendingSub) (rest : list PendingSub) (e e_c : Emitter).
Context (Hpend : pendingSubs e = sub :: rest) (Hq : queue_ok e).
Context (Hc : compileNode' (ps_node sub)
  (set_modes (ps_caseInsensitive sub) (ps_dotAll sub) (ps_multiline sub) (ps_reversed sub)
    (patchA (patchPc sub) (here (set_pendingSubs rest e)) (set_pendingSubs rest e))) = Ok e_c).

Abbreviation e_b := (set_modes (ps_caseInsensitive sub) (ps_dotAll sub) (ps_multiline sub)
  (ps_reversed sub) (patchA (patchPc sub) (here (set_pendingSubs rest e)) (set_pendingSubs rest e))).
Abbreviation e' := (set_modes (caseInsensitive e) (dotAll e) (multiline e) (reversed e)
  (emit ReOp.MATCH 0 0 e_c)).

Lemma sub_look : look_at e (patchPc sub).
Proof. pose proof (q_looks _ Hq) as H. rewrite Hpend in H. by apply Forall_cons in H as [? _]. Qed.

Lemma sub_pc : 0 ≤ patchPc sub < here e.
Proof. destruct sub_look as (a & b & H). by eapply instr_lt. Qed.

Lemma here_e_b : here e_b = here e.
Proof. apply (here_patchA (patchPc sub) (here e) (set_pendingSubs rest e)). Qed.

Lemma instr_e_b pc : instr_at e_b pc =
  if decide (patchPc sub = pc) then (λ '(op, _, b), (op, here e, b)) <$> instr_at e pc
  else instr_at e pc.
Proof. apply (instr_patchA (patchPc sub) (here e) (set_pendingSubs rest e)). apply sub_pc. Qed.

Lemma round_frame : frame e_b e_c.
Proof. by eapply compileNode_framed. Qed.

Lemma instr_e_c pc i : instr_at e_b pc = Some i → instr_at e' pc = Some i.
Proof.
  intros Hi. apply (instr_core e_b (emit ReOp.MATCH 0 0 e_c)); [|done].
  apply frame_core, frame_then_emit, round_frame.
Qed.

Lemma round_pending : ∃ new, pendingSubs e' = rest ++ new
  ∧ Forall (λ p, here e ≤ patchPc p ∧ look_at e' (patchPc p) ∧ well_formed nG (ps_node p) = true) new
  ∧ NoDup (patchPc <$> new).
Proof.
  pose proof (q_trees _ Hq) as Ht. rewrite Hpend in Ht. apply Forall_cons in Ht as [Ht _].
  destruct round_frame as [[_ _ _ _ _ (new & Hnew & Hrange & Hnd)] _].
  destruct (compileNode_queues (well_formed nG) toUpperCase _ Ht _ _ Hc) as (new' & Hnew' & _ & Hwf).
  assert (new' = new) as -> by (rewrite Hnew in Hnew'; by apply app_inv_head in Hnew').
  exists new. split_and!; [exact Hnew| |done].
  apply list.Forall_forall. intros p Hp. rewrite list.Forall_forall in Hrange, Hwf.
  destruct (Hrange p Hp) as [Hr Hl]. rewrite here_e_b in Hr. split_and!; [lia| |by apply Hwf].
  by apply (look_core e_c (emit ReOp.MATCH 0 0 e_c)); [apply frame_core, frame_emit|].
Qed.

Lemma round_ok : queue_ok e'.
Proof.
  destruct round_pending as (new & Hnew & Hall & Hnd). destruct Hq as [Q1 Q2 Q3 Q4 Q5 Q6].
  rewrite Hpend in Q4, Q5, Q6. apply NoDup_cons in Q4 as [_ Q4].
  apply Forall_cons in Q5 as [_ Q5]. apply Forall_cons in Q6 as [_ Q6].
  destruct round_frame as [[_ _ F1 F2 F3 _] _]. split.
  - etrans; [exact F1|exact Q1].
  - etrans; [exact F2|exact Q2].
  - simpl in *. lia.
  - rewrite Hnew, fmap_app. apply list.NoDup_app. split_and!; [done| |done].
    intros pc (p & -> & Hp)%list_elem_of_fmap (q & Heq & Hq')%list_elem_of_fmap.
    rewrite list.Forall_forall in Q5, Hall. destruct (Q5 p Hp) as (a & b & Hi%instr_lt).
    destruct (Hall q Hq') as [? _]. lia.
  - rewrite Hnew. apply Forall_app. split.
    + eapply Forall_impl; [exact Q5|]. intros p (a & b & Hi).
      destruct (decide (patchPc sub = patchPc p)) as [Heq|Hne].
      * exists (here e), b. apply instr_e_c. rewrite instr_e_b, decide_True, Hi by done. done.
      * exists a, b. apply instr_e_c. by rewrite instr_e_b, decide_False.
    + eapply Forall_impl; [exact Hall|]. by intros p (_ & ? & _).
  - rewrite Hnew. apply Forall_app. split; [done|].
    eapply Forall_impl; [exact Hall|]. by intros p (_ & _ & ?).
Qed.

Lemma round_extends e5 : extends e' e5 → extends e e5.
Proof.
  intros [X1 X2 X3 X4 X5]. destruct round_pending as (new & Hnew & Hall & _).
  destruct round_frame as [[_ F0 _ F2 F3 _] _]. destruct sub_look as (sa & sb & Hsub).
  split.
  - intros pc op a b Hi. destruct (decide (patchPc sub = pc)) as [<-|Hne].
    + rewrite Hsub in Hi. injection Hi as <- <- <-.
      destruct (X1 (patchPc sub) ReOp.LOOKAROUND (here e) sb) as (a' & Ha & _).
      { apply instr_e_c. by rewrite instr_e_b, decide_True, Hsub. }
      by exists a'.
    + apply X1, instr_e_c. by rewrite instr_e_b, decide_False.
  - intros pc i Hi Hout. rewrite Hpend in Hout. cbn [fmap list_fmap] in Hout.
    apply not_elem_of_cons in Hout as [Hne Hout].
    apply X2; [apply instr_e_c; by rewrite instr_e_b, decide_False|].
    rewrite Hnew, fmap_app, not_elem_of_app. split; [done|].
    intros (p & -> & Hp)%list_elem_of_fmap. rewrite list.Forall_forall in Hall.
    destruct (Hall p Hp) as [? _]. apply instr_lt in Hi. lia.
  - etrans; [exact F0|exact X3].
  - unfold next_slot in *. simpl in *. lia.
  - etrans; [exact X5|exact F2].
Qed.

Lemma round_linked e5 :
  extends e' e5 → (∀ pc, fetch prog pc = instr_at e5 pc) → e_classTable e5 `prefix_of` ct →
  next_slot e5 ≤ nSlots → (∀ p, p ∈ pendingSubs e' → linked (next_slot e') p) →
  linked (next_slot e) sub.
Proof.
  intros Hx Hprog Hct' Hslots Hlinked. destruct sub_look as (sa & sb & Hsub).
  destruct round_pending as (new & Hnew & Hall & _). pose proof sub_pc as Hpc.
  pose proof (q_distinct _ Hq) as Hnd. rewrite Hpend in Hnd. apply NoDup_cons in Hnd as [Hnin _].
  exists (here e), sb. split.
  - rewrite Hprog. apply (x_keep _ _ Hx); [apply instr_e_c; by rewrite instr_e_b, decide_True, Hsub|].
    rewrite Hnew, fmap_app, not_elem_of_app. split; [exact Hnin|].
    intros (p & Heq & Hp)%list_elem_of_fmap. rewrite list.Forall_forall in Hall.
    destruct (Hall p Hp) as [? _]. lia.
  - intros sp cs cv Hsp Hcs. pose proof (q_trees _ Hq) as Ht. rewrite Hpend in Ht.
    apply Forall_cons in Ht as [Ht _].
    assert (well_formed nG (orient (ps_reversed sub) (ps_node sub)) = true) as Ht'
      by (destruct (ps_reversed sub); [by rewrite well_formed_reverse|done]).
    pose proof (compileNode_compiles _ Ht' (ps_reversed sub) (sub_modes sub)) as [_ Hcomp].
    rewrite orient_orient in Hcomp.
    assert (in_mode (ps_reversed sub) (sub_modes sub) e_b) as Hmode.
    { destruct Hq as [Q1 Q2 Q3 _ _ _]. by split. }
    specialize (Hcomp e_b e_c Hmode Hc). rewrite here_e_b in Hcomp.
    assert (here e ≤ here e_c) as Hh by (rewrite <- here_e_b; apply frame_here, round_frame).
    eapply (Hcomp _ (keeps nCaps (next_slot e) cv) sp cs cv); [done|done|].
    intros sp' cs' cv' _ Hc' Hkeep. eapply run_accept; [|done|exact Hkeep].
    eapply (fetch_performs _ _ _ ReOp.MATCH 0 0); [|done|done].
    rewrite Hprog. destruct (x_code _ _ Hx (here e_c) ReOp.MATCH 0 0) as (a' & -> & Ha).
    { apply (instr_emit ReOp.MATCH 0 0 e_c). }
    by rewrite Ha.
    Unshelve. split.
    + intros pc op a b Hr Hi. rewrite Hprog. apply (x_code _ _ Hx).
      apply (instr_core e_c (emit ReOp.MATCH 0 0 e_c)); [apply frame_core, frame_emit|done].
    + etrans; [|exact Hct']. apply (x_classes _ _ Hx).
    + exact Hlinked.
    + etrans; [|exact Hslots]. apply (x_slots _ _ Hx).
Qed.
End round.

(** The loop links every queued sub-program. *)
Lemma drain_links fuel e e5 :
  drainPendingSubs toUpperCase fuel e = Ok e5 → queue_ok e →
  (∀ pc, fetch prog pc = instr_at e5 pc) → e_classTable e5 `prefix_of` ct → next_slot e5 ≤ nSlots →
  extends e e5 ∧ ∀ p, p ∈ pendingSubs e → linked (next_slot e) p.
Proof.
  intros Hd Hq Hprog Hct' Hslots. revert e Hd Hq.
  induction fuel as [|fuel IH]; intros e Hd Hq; cbn [drainPendingSubs] in Hd;
    destruct (pendingSubs e) as [|sub rest] eqn:Hpend; try done.
  - injection Hd as <-. split; [apply extends_refl|]. by intros p ?%not_elem_of_nil.
  - injection Hd as <-. split; [apply extends_refl|]. by intros p ?%not_elem_of_nil.
  - inv_bind Hd. rename a into e2. unfold drain_one in E. inv_bind E. rename a into e_c.
    injection E as <-.
    destruct (IH _ Hd (round_ok sub rest e e_c Hpend Hq E0)) as [Hx Hl].
    split; [by eapply round_extends|].
    intros p [->|Hp]%elem_of_cons; [by eapply round_linked|].
    destruct (round_pending sub rest e e_c Hpend Hq E0) as (new & Hnew & _).
    eapply linked_le; [|apply Hl]; [|rewrite Hnew; apply elem_of_app; by left].
    pose proof (round_frame sub rest e e_c E0) as [[_ _ _ F2 F3 _] _].
    unfold next_slot in *. simpl in *. lia.
Qed.
End correct.
