(* ===== verification/ReMain.v ===== *)
(** The properties of the regular-expression engine: a compiled pattern run by
    the machine gives the match that ECMAScript defines, where the compiler
    lowers the quantifiers of the standard, and where it does not. *)

From S2P Require Import Prelude ReBytecode ReCaseFold ReCompile ReLinear ReVm ReSpec ReExact.
From S2P Require Import RePike ReImpl ReEmit ReQueue ReCorrect.

(** * The flat program *)

Lemma finish_bind e : finish e = instrs e ≫= λ '(op, a, b), [op; a; b].
Proof.
  unfold finish. assert (∀ acc, foldl (λ prog '(op, a, b), prog ++ [op; a; b]) acc (instrs e)
    = acc ++ (instrs e ≫= λ '(op, a, b), [op; a; b])) as H; [|apply H].
  induction (instrs e) as [|[[op a] b] l IH]; intros acc; [by rewrite app_nil_r|].
  cbn [foldl]. by rewrite bind_cons, IH, <- app_assoc.
Qed.

Lemma finish_fetch e pc : fetch (finish e) pc = instr_at e pc.
Proof.
  rewrite finish_bind. unfold fetch, instr_at, js_at. generalize (instrs e) as l. intros l.
  destruct (Z.ltb_spec pc 0) as [Hneg|Hpos].
  { by rewrite (proj2 (Z.ltb_lt (pc * 3) 0)) by lia. }
  rewrite !(proj2 (Z.ltb_ge _ _)) by lia.
  rewrite <- (Z2Nat.id pc) by done. generalize (Z.to_nat pc) as i. clear pc Hpos. intros i.
  rewrite Nat2Z.id. replace (Z.to_nat (Z.of_nat i * 3)) with (3 * i)%nat by lia.
  replace (Z.to_nat (Z.of_nat i * 3 + 1)) with (3 * i + 1)%nat by lia.
  replace (Z.to_nat (Z.of_nat i * 3 + 2)) with (3 * i + 2)%nat by lia.
  revert i. induction l as [|[[op a] b] l IH]; intros i; [by destruct i|].
  rewrite bind_cons. destruct i as [|i]; [done|].
  replace (3 * S i)%nat with (S (S (S (3 * i)))) by lia. cbn [app lookup list_lookup Nat.add].
  rewrite <- IH. done.
Qed.

(** * Whole patterns *)

Definition flag_modes (flags : Z) : modes :=
  Modes (negb (flags .& RE_FLAG_I =? 0)) (negb (flags .& RE_FLAG_S =? 0))
        (negb (flags .& RE_FLAG_M =? 0)).

Definition flag_unicode (flags : Z) : bool := negb (flags .& (RE_FLAG_U .| RE_FLAG_V) =? 0).

(** The match that a pattern and its flags mean, and its capture slots. *)
Definition meaning (toUpperCase : jsstr → jsstr) (sem : semantics) (parsed : ParsedRegex)
    (flags : Z) (input : jsstr) (start : Z) : option (list Z) :=
  match_at toUpperCase (flag_unicode flags) input sem (flag_modes flags) parsed start.

(** What the theorems ask of a pattern, its program and its input. *)
Record covered (parsed : ParsedRegex) (c : CompiledRegex) (input : jsstr) : Prop := {
  cov_groups : 0 ≤ numCaptures parsed;
  cov_tree : well_formed (numCaptures parsed + 1) (root parsed) = true;
  cov_table : Z.of_nat (length (classTable c)) < 2 ^ 31;
  cov_input : Forall (λ u, 0 ≤ u ≤ 0xffff) input }.

(** The reported captures: the slots before the scratch slots. *)
Definition reported (c : CompiledRegex) (caps : list Z) : list Z :=
  take (Z.to_nat (2 * nGroups c)) caps.

Section pattern.
Context (toUpperCase : jsstr → jsstr) (parsed : ParsedRegex) (flags : Z) (c : CompiledRegex)
  (input : jsstr).
Context (Hc : compileParsed toUpperCase parsed flags = Ok c) (Hcov : covered parsed c input).

Abbreviation nCaps := (2 * (numCaptures parsed + 1)).

Lemma compiled_groups : nGroups c = numCaptures parsed + 1.
Proof.
  pose proof Hc as H. unfold compileParsed in H. inv_bind H. inv_bind H. by injection H as <-.
Qed.

(** An attempt on the program ends with the meaning of the pattern. *)
Lemma compiled_attempt start :
  0 ≤ start ≤ len input →
  run_ok (prog c) (classTable c) input nCaps (nCaps + nScratch c) (λ _, True) 1 0 start
    (fresh_caps (nCaps + nScratch c)) (meaning toUpperCase Lowered parsed flags input start).
Proof.
  intros Hstart. destruct Hcov as [Hgroups Htree Htable Hunits].
  pose proof Hc as H. unfold compileParsed in H.
  set (e0 := setScratchBase _ _) in H. set (e1 := emit ReOp.SAVE 0 0 e0) in H.
  inv_bind H. rename a into e2. set (e3 := emit ReOp.SAVE 1 0 e2) in H.
  set (e4 := emit ReOp.MATCH 0 0 e3) in H. inv_bind H. rename a into e5.
  injection H as <-. cbn [prog classTable nScratch] in *. rename E0 into Hdrain.
  set (nG := numCaptures parsed + 1) in *. assert (0 ≤ nG) as HnG by lia.
  set (uni := flag_unicode flags). set (nSlots := 2 * nG + scratchCount e5).
  pose proof (compileNode_framed toUpperCase (root parsed) e1 e2 E) as Hframe.
  destruct Hframe as [[F1 F2 F3 F4 F5 F6] Hmodes].
  assert (queue_ok uni nG e4) as Hq.
  { destruct (compileNode_queues (well_formed nG) toUpperCase _ Htree _ _ E) as (new & Hn & _ & Hw).
    destruct F6 as (new' & Hn' & Hr & Hnd). rewrite Hn in Hn'. apply app_inv_head in Hn' as <-.
    simpl in Hn. split; simpl; rewrite ?Hn; try done; try lia.
    eapply Forall_impl; [exact Hr|]. intros p [_ Hl]. eapply look_core; [|exact Hl].
    apply frame_core, frame_then_emit, frame_emit. }
  destruct (drain_links toUpperCase uni input Hunits (finish e5) (e_classTable e5) Htable nG
    (next_slot e5) HnG _ _ _ Hdrain Hq (finish_fetch e5)) as [Hx Hl]; [done..|].
  assert (scratchBase e5 = 2 * nG) as Hbase by (rewrite (x_base _ _ Hx); simpl; by rewrite F4).
  assert (next_slot e5 = nSlots) as Hnext by (unfold next_slot; by rewrite Hbase).
  rewrite Hnext in Hl.
  assert (in_mode uni nG false (flag_modes flags) e1) as Hmode by done.
  assert (frame e2 e4) as Hf24 by apply frame_then_emit, frame_emit.
  assert (∀ pc op a b, instr_at e4 pc = Some (op, a, b) → op ≠ ReOp.LOOKAROUND →
    fetch (finish e5) pc = Some (op, a, b)) as Hfetch.
  { intros pc op a b Hi Hop. rewrite finish_fetch.
    destruct (x_code _ _ Hx _ _ _ _ Hi) as (a' & -> & Ha). by rewrite Ha. }
  assert (fits toUpperCase uni input (finish e5) (e_classTable e5) nG nSlots (here e1) (here e2) e2)
    as Hfits.
  { split.
    - intros pc op a b _ Hi. rewrite finish_fetch. apply (x_code _ _ Hx).
      by eapply instr_core; [apply frame_core, Hf24|].
    - apply (x_classes _ _ Hx).
    - exact Hl.
    - rewrite <- Hnext. apply (x_slots _ _ Hx). }
  destruct (compileNode_compiles toUpperCase uni input Hunits (finish e5) (e_classTable e5) Htable nG
    nSlots HnG _ Htree false (flag_modes flags)) as [_ Hm].
  specialize (Hm e1 e2 Hmode E Hfits).
  assert (0 ≤ scratchCount e5) as Hcount by (pose proof (x_slots _ _ Hx); unfold next_slot in *; simpl in *; lia).
  assert (captures (2 * nG) nSlots (fresh_caps (2 * nG)) (fresh_caps nSlots)) as Hfresh.
  { unfold captures, fresh_caps. rewrite length_replicate, take_replicate. split; [unfold nSlots; lia|].
    f_equal. unfold nSlots. lia. }
  eapply run_save.
  { apply Hfetch; [|done]. eapply instr_core; [apply frame_core, Hf24|].
    eapply instr_prefix; [exact F1|]. apply (instr_emit ReOp.SAVE 0 0 e0). }
  apply Hm; [done|by apply captures_set|]. intros sp' cs' cv' _ Hcs' _.
  eapply run_save.
  { apply Hfetch; [|done]. eapply instr_core; [apply frame_core, (frame_emit ReOp.MATCH 0 0 e3)|].
    apply (instr_emit ReOp.SAVE 1 0 e2). }
  eapply run_accept; [|by apply captures_set|done].
  eapply (fetch_performs _ _ _ ReOp.MATCH 0 0); [|done|done].
  replace (here e2 + 1) with (here e3) by apply here_emit.
  apply Hfetch; [|done]. apply (instr_emit ReOp.MATCH 0 0 e3).
Qed.
End pattern.

(** * The compiled program against the meaning of the pattern *)

Lemma run_ok_meaning prog ct input nCaps nSlots Q pc sp cv o :
  run_ok prog ct input nCaps nSlots Q 1 pc sp cv o →
  ∃ r, attempt prog ct input 1 pc sp cv r ∧ option_map (take (Z.to_nat nCaps)) r = o.
Proof.
  intros (r & Hr & Ho). exists r. split; [done|].
  destruct o as [cs|], r as [cv'|]; try done. simpl. by destruct Ho as [[_ ->] _].
Qed.

Definition sample_pattern : ParsedRegex :=
  {| root := NConcat [NStar (NGroup (NAlt [NChar 97; NChar 98]) 1 None) true;
                      NLookaround (NChar 98) false true; NChar 99];
     numCaptures := 1; p_groupNames := [] |}.

(** [/(ab|a){1,3}(c?)*/]: copies of a capturing body, and a star over one that may be empty. *)
Definition exact_pattern : ParsedRegex :=
  {| root := NConcat [NRepeat (NGroup (NAlt [NConcat [NChar 97; NChar 98]; NChar 97]) 1 None) 1 3 true;
                      NStar (NGroup (NOpt (NChar 99) true) 2 None) true];
     numCaptures := 2; p_groupNames := [] |}.

Definition no_program : CompiledRegex :=
  {| prog := []; classTable := []; nGroups := 0; nScratch := 0; flags := 0; groupNames := [] |}.

Definition compiled (parsed : ParsedRegex) : CompiledRegex :=
  match compileParsed id parsed 0 with Ok c => c | Err _ => no_program end.

(** The two halves of what an anchored attempt on the program returns. *)
Lemma compiled_runs toUpperCase parsed flags c input start depth
    (Hc : compileParsed toUpperCase parsed flags = Ok c)
    (Hcov : covered parsed c input) (Hstart : 0 ≤ start ≤ len input) :
  match runAt depth (prog c) (classTable c) (nGroups c) input start 0 1 None (nScratch c) with
  | Ok caps => option_map (reported c) caps = meaning toUpperCase Lowered parsed flags input start
  | Err (Throw ERangeError _) => True
  | Err _ => False
  end ∧
  ∃ k, ∀ budget d, (k ≤ budget)%nat → (k ≤ d)%nat → ∃ caps,
    runAt_within budget d (prog c) (classTable c) (nGroups c) input start 0 1 None (nScratch c)
      = Ok caps ∧
    option_map (reported c) caps = meaning toUpperCase Lowered parsed flags input start.
Proof.
  destruct (run_ok_meaning _ _ _ _ _ _ _ _ _ _
    (compiled_attempt toUpperCase parsed flags c input Hc Hcov start Hstart)) as (r & Hr & Ho).
  unfold reported. rewrite (compiled_groups toUpperCase parsed flags c input Hc Hcov). split.
  - destruct (attempt_within (prog c) (classTable c) input (numCaptures parsed + 1) (nScratch c)
      (Z.to_nat (regexStepBudget (len input))) depth _ _ _ _ _ None Hr eq_refl) as [[msg H]|H];
      unfold runAt; by rewrite H.
  - destruct (attempt_runAt (prog c) (classTable c) input (numCaptures parsed + 1) (nScratch c)
      _ _ _ _ _ None Hr eq_refl) as [k Hk].
    exists k. intros budget d Hb Hd. exists r. split; [by apply Hk|done].
Qed.

Lemma exact_meaning toUpperCase parsed flags c input start :
  covered parsed c input → exact (root parsed) = true → 0 ≤ start ≤ len input →
  meaning toUpperCase Ecma parsed flags input start
  = meaning toUpperCase Lowered parsed flags input start.
Proof.
  intros [_ Htree _ Hunits] Hexact Hstart. unfold meaning, match_at.
  eapply (exact_related toUpperCase (flag_unicode flags) input Hunits); [done|done|by left|done|done].
Qed.


Lemma sample_covered : covered sample_pattern (compiled sample_pattern) (js "abbc").
Proof. split; [done|reflexivity|reflexivity|]. repeat constructor; intros H; discriminate H. Defined.


(** * Searching *)

Lemma search_loop_correct toUpperCase parsed flags c input depth sticky n i :
  compileParsed toUpperCase parsed flags = Ok c → covered parsed c input →
  0 ≤ i → i + Z.of_nat n ≤ len input + 1 →
  let r := search_loop n depth (prog c) (classTable c) (nGroups c) input i sticky (nScratch c) in
  let want := first_match (meaning toUpperCase Lowered parsed flags input) n i sticky in
  ((∀ j, 0 ≤ j ≤ len input →
      ¬ gives_up (runAt depth (prog c) (classTable c) (nGroups c) input j 0 1 None (nScratch c))) →
   ∃ caps, r = Ok caps ∧ option_map (reported c) caps = want) ∧
  (isLinearSafe (prog c) = false →
   match r with
   | Ok caps => option_map (reported c) caps = want
   | Err (Throw ERangeError _) => True
   | Err _ => False
   end).
Proof.
  intros Hc Hcov. revert i. induction n as [|n IH]; intros i Hi Hn; [by split; [eexists|]|].
  cbn [search_loop first_match].
  assert (0 ≤ i ≤ len input) as Hrange by lia.
  assert (match runAt depth (prog c) (classTable c) (nGroups c) input i 0 1 None (nScratch c) with
    | Ok caps => option_map (reported c) caps = meaning toUpperCase Lowered parsed flags input i
    | Err (Throw ERangeError _) => True
    | Err _ => False
    end) as Hrun.
  { destruct (run_ok_meaning _ _ _ _ _ _ _ _ _ _
      (compiled_attempt toUpperCase parsed flags c input Hc Hcov i Hrange)) as (r & Hr & Ho).
    unfold reported, runAt. rewrite (compiled_groups toUpperCase parsed flags c input Hc Hcov).
    destruct (attempt_within (prog c) (classTable c) input (numCaptures parsed + 1) (nScratch c)
      (Z.to_nat (regexStepBudget (len input))) depth _ _ _ _ _ None Hr eq_refl) as [[msg H]|H];
      by rewrite H. }
  destruct (IH (i + 1) ltac:(lia) ltac:(lia)) as [IH1 IH2].
  destruct (runAt depth _ _ _ _ i _ _ _ _) as [[m|]|[[] msg| |]] eqn:E; try done; simpl in Hrun.
  - rewrite <- Hrun. split; [intros _; by exists (Some m)|done].
  - rewrite <- Hrun. destruct sticky; [by split; [eexists|]|]. by split.
  - split.
    + intros Hno. exfalso. apply (Hno i Hrange). rewrite E. by eexists.
    + by intros ->.
Qed.

(** Where the quantifiers are exact, the search is for the matches of the standard. *)
Lemma exact_leftmost toUpperCase parsed flags c input startIdx sticky :
  covered parsed c input → exact (root parsed) = true →
  leftmost (meaning toUpperCase Lowered parsed flags input) input startIdx sticky
  = leftmost (meaning toUpperCase Ecma parsed flags input) input startIdx sticky.
Proof.
  intros Hcov He. unfold leftmost.
  assert (∀ o : option (list Z), option_map id o = o) as Hid by (by intros []).
  rewrite <- (Hid (first_match (meaning toUpperCase Lowered parsed flags input) _ _ _)).
  apply first_match_map. intros i Hi. rewrite Hid. symmetry.
  apply (exact_meaning toUpperCase parsed flags c input i Hcov He). lia.
Qed.


(** An attempt that ends within 1000 steps does not give up. *)
Lemma small_run depth prog ct nG input start nS r :
  runAt_within 1000 depth prog ct nG input start 0 1 None nS = Ok r →
  ¬ gives_up (runAt depth prog ct nG input start 0 1 None nS).
Proof.
  intros Hr [msg H]. unfold runAt in H.
  assert (1000 ≤ Z.to_nat (regexStepBudget (len input)))%nat as Hb.
  { unfold regexStepBudget, REGEX_STEP_CAP, REGEX_STEP_CAP_PER_UNIT,
      REGEX_STEP_CAP_LEN_SATURATION, len. lia. }
  destruct (runAt_within_mono 1000 _ depth depth prog ct nG input start 0 1 None nS Hb (le_n _))
    as [[msg' H']|H']; congruence.
Qed.


(** * The linear matcher *)

(** A class of letters, repeated, then an alternative: no guard, no lookaround. *)
Definition linear_pattern : ParsedRegex :=
  {| root := NConcat [NStar (NGroup (NAlt [NChar 97; NConcat [NChar 97; NChar 98]]) 1 None) true;
                      NOpt (NChar 99) false; NEol];
     numCaptures := 1; p_groupNames := [] |}.



(** * Where bounded quantifiers are not those of the standard *)

(** [/(?:(a)|b){2}/], an optional group around a starred [a], and
    [/(?:a|aaa){0,2}?(ab|b)/]. *)
Definition stale_pattern : ParsedRegex :=
  {| root := NRepeat (NAlt [NGroup (NChar 97) 1 None; NChar 98]) 2 2 true;
     numCaptures := 1; p_groupNames := [] |}.
Definition empty_option_pattern : ParsedRegex :=
  {| root := NOpt (NGroup (NStar (NChar 97) true) 1 None) true;
     numCaptures := 1; p_groupNames := [] |}.
Definition lazy_pattern : ParsedRegex :=
  {| root := NConcat
       [NRepeat (NAlt [NChar 97; NConcat [NChar 97; NChar 97; NChar 97]]) 0 2 false;
        NGroup (NAlt [NConcat [NChar 97; NChar 98]; NChar 98]) 1 None];
     numCaptures := 1; p_groupNames := [] |}.

Definition run_pattern (parsed : ParsedRegex) (input : jsstr) : result (option (list Z)) :=
  let c := compiled parsed in
  match runAt_within 1000 5 (prog c) (classTable c) (nGroups c) input 0 0 1 None (nScratch c) with
  | Ok caps => Ok (option_map (reported c) caps)
  | Err e => Err e
  end.

(** Bounded quantifiers deviate from the standard.  The engine reports group
    1 of [/(?:(a)|b){2}/] on "ab" as "a" where the standard leaves it undefined
    (the copies of a repetition do not reset captures), an optional group around
    a starred "a" on "b" as the empty string where the standard leaves it
    undefined (an optional body has no check for an empty iteration), and group 1 of
    [/(?:a|aaa){0,2}?(ab|b)/] on "aaab" as "b" where the standard gives "ab"
    (lazy optional copies are tried in another order than nested iterations). *)
Theorem bounded_quantifiers_deviate :
  (run_pattern stale_pattern (js "ab") = Ok (Some [0; 2; 0; 1]) ∧
   meaning id Ecma stale_pattern 0 (js "ab") 0 = Some [0; 2; -1; -1]) ∧
  (run_pattern empty_option_pattern (js "b") = Ok (Some [0; 0; 0; 0]) ∧
   meaning id Ecma empty_option_pattern 0 (js "b") 0 = Some [0; 0; -1; -1]) ∧
  (run_pattern lazy_pattern (js "aaab") = Ok (Some [0; 4; 3; 4]) ∧
   meaning id Ecma lazy_pattern 0 (js "aaab") 0 = Some [0; 4; 2; 4]).
Proof. split; [|split]; split; vm_compute; reflexivity. Qed.

(** * The analyses of the compiler *)

(** [canMatchEmpty] is sound: a tree that it declares non-nullable never
    calls its continuation where it started, in either direction, so the loops
    that the compiler emits without an empty-iteration guard make progress. *)
Theorem canMatchEmpty_sound toUpperCase uni input sem nG n fl dir k k' sp cs
    (Hwf : well_formed nG n = true) (Hempty : canMatchEmpty n = false)
    (Hunits : Forall (λ u, 0 ≤ u ≤ 0xffff) input)
    (Hdir : dir = 1 ∨ dir = -1) (Hsp : 0 ≤ sp ≤ len input)
    (Hk : ∀ sp' cs', 0 ≤ sp' ≤ len input → 0 < dir * (sp' - sp) → k sp' cs' = k' sp' cs') :
  matcher toUpperCase uni input sem fl dir n k sp cs
  = matcher toUpperCase uni input sem fl dir n k' sp cs.
Proof.
  pose proof (matcher_related toUpperCase uni input Hunits nG sem n Hwf eq _ fl dir Hdir) as H.
  rewrite Hempty in H. apply H; [done|]. intros sp' cs' (Hv & Hd & Hne). apply Hk; [done|].
  specialize (Hne eq_refl). destruct Hdir as [-> | ->]; lia.
Qed.

Lemma canMatchEmpty_sound_witness :
  canMatchEmpty (NPlus (NChar 97) true) = false ∧
  matcher id false (js "aa") Lowered (Modes false false false) 1 (NPlus (NChar 97) true)
    (λ sp _, if sp =? 0 then None else Some [sp]) 0 [] = Some [2] ∧
  matcher id false (js "aa") Lowered (Modes false false false) 1 (NPlus (NChar 97) true)
    (λ sp _, Some [sp]) 0 [] = Some [2].
Proof.
  split; [reflexivity|]. split; [vm_compute; reflexivity|].
  rewrite <- (canMatchEmpty_sound id false (js "aa") Lowered 1 (NPlus (NChar 97) true)
    (Modes false false false) 1 (λ sp _, if sp =? 0 then None else Some [sp]) (λ sp _, Some [sp]) 0 []).
  - vm_compute. reflexivity.
  - reflexivity.
  - reflexivity.
  - repeat constructor; intros H; discriminate H.
  - left. reflexivity.
  - split; intros H; discriminate H.
  - intros sp' cs' Hsp' Hlt. destruct (Z.eqb_spec sp' 0); [lia|reflexivity].
Defined.

(** The capturing groups of a tree, those inside lookarounds excepted. *)
Fixpoint groups (n : ReNode) : list Z :=
  match n with
  | NGroup n i _ => (if 0 <=? i then [i] else []) ++ groups n
  | NConcat ns | NAlt ns => ns ≫= groups
  | NStar n _ | NPlus n _ | NOpt n _ | NModGroup _ _ n | NRepeat n _ _ _ => groups n
  | _ => []
  end.

(** A span is the least interval around a list of indices. *)
Definition spans (span : option (Z * Z)) (l : list Z) : Prop :=
  match span with
  | None => l = []
  | Some (lo, hi) => lo ∈ l ∧ hi ∈ l ∧ Forall (λ i, lo ≤ i ≤ hi) l
  end.

Lemma spans_join s t l k : spans s l → spans t k → spans (join s t) (l ++ k).
Proof.
  destruct s as [[lo hi]|], t as [[lo' hi']|]; simpl.
  - intros (H1 & H2 & H3) (K1 & K2 & K3). rewrite !elem_of_app. split_and!.
    + destruct (Z.min_spec lo lo') as [[_ ->]|[_ ->]]; [by left|by right].
    + destruct (Z.max_spec hi hi') as [[_ ->]|[_ ->]]; [by right|by left].
    + apply Forall_app. split; eapply Forall_impl; [exact H3| |exact K3|]; simpl; lia.
  - intros H ->. by rewrite app_nil_r.
  - by intros -> H.
  - by intros -> ->.
Qed.

Lemma captureSpan_spans n : spans (captureSpan n) (groups n).
Proof.
  assert (∀ ns, Forall (λ n, spans (captureSpan n) (groups n)) ns →
    spans (foldl (λ span p, visit p span) None ns) (ns ≫= groups)) as Hlist.
  { intros ns H. rewrite captureSpan_list. induction H as [|x ns Hx _ IH]; [done|].
    rewrite bind_cons. cbn [foldr]. by apply spans_join. }
  induction n using ReNode_ind'; unfold captureSpan in *; cbn [visit groups]; try done; auto.
  rewrite visit_join. apply spans_join; [|done]. destruct (0 <=? i); [|done].
  simpl. split_and!; [by left|by left|by repeat constructor].
Qed.

(** [captureSpan] is the least interval that contains the indices of the
    capturing groups of a tree - both its bounds are such indices, and [null]
    means there is none - so the range that a [CLEAR] resets starts and ends at
    groups of the quantified body; reversing a tree for a lookbehind changes
    neither the span nor the nullability, and reversing it twice gives it back. *)
Theorem captureSpan_least (n : ReNode) :
  spans (captureSpan n) (groups n) ∧
  captureSpan (reverseNode n) = captureSpan n ∧
  canMatchEmpty (reverseNode n) = canMatchEmpty n ∧
  reverseNode (reverseNode n) = n.
Proof.
  split; [apply captureSpan_spans|]. split; [apply captureSpan_reverse|].
  split; [apply canMatchEmpty_reverse|apply reverseNode_reverse].
Qed.

(** Class tables are right.  For ordered ranges in any order, overlapping or
    adjacent, the entry that [addClass] appends is sorted and disjoint, and the
    binary search at the returned offset - in that table and in any table that
    extends it - decides membership in the given ranges, negated or not. *)
Theorem addClass_correct (ranges : list (Z * Z)) (e : Emitter) (ct : list Z) (c : Z) (negated : bool)
    (Hle : Forall (λ r, r.1 ≤ r.2) ranges)
    (Hct : e_classTable (addClass ranges e).2 `prefix_of` ct) (Hlen : Z.of_nat (length ct) < 2 ^ 31) :
  separated (normalize ranges) ∧
  classMatch ct (addClass ranges e).1 c negated = xorb negated (in_ranges c ranges).
Proof. split; [by apply normalize_spec|by apply addClass_match]. Qed.

Lemma addClass_correct_witness :
  let e := (addClass [(48, 57)] (new_Emitter false false false false)).2 in
  let rs := [(97, 122); (65, 70); (71, 90); (100, 110)] in
  e_classTable (addClass rs e).2 = [1; 48; 57; 2; 65; 90; 97; 122] ∧
  classMatch [1; 48; 57; 2; 65; 90; 97; 122] 3 105 false = true ∧
  classMatch [1; 48; 57; 2; 65; 90; 97; 122] 3 95 true = true.
Proof.
  split; [vm_compute; reflexivity|]. split.
  - apply (addClass_correct [(97, 122); (65, 70); (71, 90); (100, 110)]
      (addClass [(48, 57)] (new_Emitter false false false false)).2
      [1; 48; 57; 2; 65; 90; 97; 122] 105 false);
      [repeat constructor; intros H; discriminate H|vm_compute; exists []; reflexivity|reflexivity].
  - apply (addClass_correct [(97, 122); (65, 70); (71, 90); (100, 110)]
      (addClass [(48, 57)] (new_Emitter false false false false)).2
      [1; 48; 57; 2; 65; 90; 97; 122] 95 true);
      [repeat constructor; intros H; discriminate H|vm_compute; exists []; reflexivity|reflexivity].
Defined.

(** The step budget and the host's stack only decide whether the matcher
    gives up.  On any program and input, valid or not, an attempt that ends
    without a RangeError ends in the same way under every larger budget and
    deeper stack, so raising the budget with the length of the input never
    changes an answer. *)
Theorem runAt_budget_stable budget budget' depth depth' prog ct nG input start pc dir caps nS
    (Hb : (budget ≤ budget')%nat) (Hd : (depth ≤ depth')%nat) :
  match runAt_within budget depth prog ct nG input start pc dir caps nS with
  | Err (Throw ERangeError _) => True
  | r => runAt_within budget' depth' prog ct nG input start pc dir caps nS = r
  end.
Proof.
  destruct (runAt_within_mono budget budget' depth depth' prog ct nG input start pc dir caps nS Hb Hd)
    as [[msg ->]| ->]; [done|].
  by destruct (runAt_within budget' depth' prog ct nG input start pc dir caps nS) as [|[[]| |]].
Qed.

Lemma runAt_budget_stable_witness :
  runAt_within 3 1 [ReOp.CHAR; 97; 0; ReOp.JMP; 0; 0] [] 1 (js "aa") 0 0 1 None 0
    = throw ERangeError (js "regular expression step limit exceeded") ∧
  runAt_within 9 1 [ReOp.CHAR; 97; 0; ReOp.JMP; 0; 0] [] 1 (js "aa") 0 0 1 None 0 = Ok None ∧
  runAt_within 1000 2 [ReOp.CHAR; 97; 0; ReOp.JMP; 0; 0] [] 1 (js "aa") 0 0 1 None 0 = Ok None.
Proof.
  split; [vm_compute; reflexivity|]. split; [vm_compute; reflexivity|].
  exact (runAt_budget_stable 9 1000 1 2 [ReOp.CHAR; 97; 0; ReOp.JMP; 0; 0] [] 1 (js "aa") 0 0 1 None 0
    ltac:(lia) ltac:(lia)).
Defined.
