(* ===== verification/RePattern.v ===== *)
(** From the text of a pattern to its matches: parser, compiler and machine
    composed (parsePattern of src/codegen/regex/parse.ts, compilePattern of
    compile.ts, runAt and search of vm.ts). *)

From Stdlib Require Import Ascii.
From S2P Require Import Prelude ReBytecode ReCaseFold ReUnicode ReCompile ReStringSet.
From S2P Require Import ReParse ReParseOk ReLinear ReVm ReSpec RePike ReImpl ReEmit ReQueue ReCorrect ReExact ReMain.

(** * What the parser gives is what the compiler's theorems ask for *)

(** A tree without backreferences. *)
Fixpoint no_backref (n : ReNode) : bool :=
  match n with
  | NBackref _ => false
  | NLookaround n _ _ | NModGroup _ _ n | NStar n _ | NPlus n _ | NOpt n _ | NRepeat n _ _ _
  | NGroup n _ _ => no_backref n
  | NConcat ns | NAlt ns => forallb no_backref ns
  | _ => true
  end.

Lemma shaped_well_formed unicode total nG n :
  shaped unicode total n = true → no_backref n = true → Forall (λ i, i < nG) (group_indices n) → 0 ≤ nG →
  well_formed nG n = true.
Proof.
  intros Hs Hb Hg HnG. induction n using ReNode_ind'; cbn [shaped no_backref group_indices well_formed] in *;
    rewrite ?andb_true_iff in *; try done; try (by apply IHn); try tauto.
  - (* concatenation *) induction H as [|p ps Hp _ IH]; [done|]. cbn [forallb map concat] in *.
    rewrite !andb_true_iff in *. apply Forall_app in Hg as [Hg1 Hg]. split; [apply Hp|apply IH]; tauto.
  - (* alternation *) destruct Hs as [Hlen Hs]. split.
    { apply Nat.ltb_lt in Hlen. apply Nat.ltb_lt. lia. }
    clear Hlen. induction H as [|p ps Hp _ IH]; [done|]. cbn [forallb map concat] in *.
    rewrite !andb_true_iff in *. apply Forall_app in Hg as [Hg1 Hg]. split; [apply Hp|apply IH]; tauto.
  - (* group *) apply Forall_app in Hg as [Hi Hg]. split; [|by apply IHn].
    apply Z.ltb_lt. destruct (Z.ltb_spec i 0); [lia|]. by apply Forall_cons in Hi as [Hi _].
Qed.

Section pattern.
Context `{StringPropertyDataOk, RangeEnumeratorOk}.

Lemma parsed_covered pattern flags parsed toUpperCase c input :
  Forall is_unit pattern → parsePattern pattern flags = Ok parsed →
  compileParsed toUpperCase parsed flags = Ok c →
  no_backref (root parsed) = true → Z.of_nat (length (classTable c)) < 2 ^ 31 →
  Forall is_unit input → covered parsed c input.
Proof.
  intros Hu Hp Hc Hb Ht Hi. pose proof (parsePattern_yields pattern flags Hu) as Hy.
  rewrite Hp in Hy. destruct Hy as (names & total & _ & _ & [Hs Hg _]).
  pose proof (between_le _ _ _ Hg) as Hn.
  split; [done| |done|exact Hi].
  eapply shaped_well_formed; [exact Hs|done| |lia].
  eapply Forall_impl; [by apply between_bounds|]. simpl. lia.
Qed.

End pattern.

(** * Witnesses and deviations *)

(** A host that knows the two cases of the ASCII letters. *)
Definition letters : list Z := count_up 26 0x61.

Definition letter_cases (source : jsstr) (cp : Z) : list (Z * Z) :=
  if bool_decide (source = codePointSource cp ∨ source = codePointSource (cp - 32))
  then [(cp - 32, cp - 32); (cp, cp)] else [].

Lemma letter_cases_ok source letters : Forall (λ cp, 0x61 ≤ cp ≤ 0x7a) letters →
  cp_ranges (letters ≫= letter_cases source).
Proof.
  intros Hl. apply list.Forall_forall. intros r (cp & Hr & Hcp)%list_elem_of_bind.
  rewrite list.Forall_forall in Hl. specialize (Hl cp Hcp).
  unfold letter_cases in Hr. destruct (bool_decide _) in Hr; [|by apply not_elem_of_nil in Hr].
  apply elem_of_cons in Hr as [-> | ->%list_elem_of_singleton]; simpl; lia.
Qed.

#[local] Instance letter_host : RangeEnumerator := λ source _, Ok (letters ≫= letter_cases source).
#[local] Instance one_property : StringPropertyData := λ _, js "4p".

#[local] Instance one_property_ok : StringPropertyDataOk.
Proof.
  intros name item cp _ _. change (split_on 0x2c (property_data name)) with [js "4p"].
  intros ->%list_elem_of_singleton Hc. change (split_on 0x2e (js "4p")) with [js "4p"] in Hc.
  apply list_elem_of_singleton in Hc as ->. vm_compute. by split.
Qed.

#[local] Instance letter_host_ok : RangeEnumeratorOk.
Proof.
  split; [|done]. intros source flagStr rs [= <-]. apply (letter_cases_ok source letters).
  apply (bool_decide_unpack _). vm_compute. done.
Qed.

Definition run_source (pattern : string) (flags : Z) (input : string) : result (option (list Z)) :=
  c ← compilePattern id (js pattern) flags;
  match runAt_within 1000 5 (prog c) (classTable c) (nGroups c) (js input) 0 0 1 None (nScratch c) with
  | Ok caps => Ok (option_map (reported c) caps)
  | Err e => Err e
  end.

Definition compiled_source (pattern : string) (flags : Z) : CompiledRegex :=
  match compilePattern id (js pattern) flags with Ok c => c | Err _ => no_program end.


(** Finite string sets under [vi] are not folded.  Subtracting an unrelated
    string changes what a class matches: [[\q{Ab|abc}]] takes "abc" whole, but
    [[\q{Ab|abc}--\q{z}]], which denotes the same set, stops after "ab"; and
    [[\q{AB}--\q{ab}]] still matches "ab".  Strings are compared by their exact
    code points, and the branches of the trie, which ignore case, may then overlap,
    so the longer member no longer wins. *)
Theorem string_sets_ignore_case :
  run_source "[\q{Ab|abc}]" (RE_FLAG_V + RE_FLAG_I) "abc" = Ok (Some [0; 3]) ∧
  run_source "[\q{Ab|abc}--\q{z}]" (RE_FLAG_V + RE_FLAG_I) "abc" = Ok (Some [0; 2]) ∧
  run_source "[\q{AB}--\q{ab}]" (RE_FLAG_V + RE_FLAG_I) "ab" = Ok (Some [0; 2]).
Proof. split_and!; vm_compute; reflexivity. Qed.
