(* ===== verification/IrCfg.v ===== *)
(** The block graph of the middle-end IR and the block-merging pass: the blocks
    and terminators of src/ir/core/nodes.ts, blockSuccessors and
    rawPredecessorCounts of src/ir/analysis/dominance.ts, and
    src/ir/passes/simplify-cfg.ts.  None of this looks inside an instruction or a
    type, which are type arguments here. *)

From S2P Require Import Prelude.

(** * Blocks *)

Record IrBranch := { target : Z; branch_args : list Z }.

#[global] Instance IrBranch_eq_dec : EqDecision IrBranch.
Proof. solve_decision. Defined.

(** Each terminator ends with its source site. *)
Inductive IrTerminator (Site : Type) :=
  | TReturn (values : list Z) (site : option Site)
  | TBr (branch : IrBranch) (site : option Site)
  | TBrIf (condition : Z) (ifTrue ifFalse : IrBranch) (site : option Site)
  | TUnreachable (site : option Site).
Arguments TReturn {Site} values site.
Arguments TBr {Site} branch site.
Arguments TBrIf {Site} condition ifTrue ifFalse site.
Arguments TUnreachable {Site} site.

Record IrBlock (Instr Ty Site : Type) := {
  block_id : Z;
  blockArgs : list Z;
  blockArgTypes : list Ty;
  instrs : list Instr;
  terminator : IrTerminator Site }.
Arguments Build_IrBlock {Instr Ty Site} block_id blockArgs blockArgTypes instrs terminator.
Arguments block_id {Instr Ty Site} i.
Arguments blockArgs {Instr Ty Site} i.
Arguments blockArgTypes {Instr Ty Site} i.
Arguments instrs {Instr Ty Site} i.
Arguments terminator {Instr Ty Site} i.

(** A function: its name, its blocks (the entry is the first), and [Rest], the
    fields that the passes here copy with a spread. *)
Record IrFunction (Instr Ty Site Rest : Type) := {
  fn_name : jsstr;
  fn_rest : Rest;
  blocks : list (IrBlock Instr Ty Site) }.
Arguments Build_IrFunction {Instr Ty Site Rest} fn_name fn_rest blocks.
Arguments fn_name {Instr Ty Site Rest} i.
Arguments fn_rest {Instr Ty Site Rest} i.
Arguments blocks {Instr Ty Site Rest} i.

Section cfg.
Context {Instr Ty Site Rest : Type}.
Implicit Types (fn : IrFunction Instr Ty Site Rest) (t : IrTerminator Site) (block : IrBlock Instr Ty Site).

Definition blockSuccessors block : list Z :=
  match terminator block with
  | TBr branch _ => [target branch]
  | TBrIf _ ifTrue ifFalse _ =>
      let a := target ifTrue in
      let b := target ifFalse in
      if a =? b then [a] else [a; b]
  | TReturn _ _ | TUnreachable _ => []
  end.

(** [if (s >= 0 && s < n) count[s]++] *)
Definition count_edge (count : list Z) (s : Z) : list Z :=
  match js_at count s with Some c => ta_set count s (c + 1) | None => count end.

Definition count_block (count : list Z) block : list Z :=
  match terminator block with
  | TBr branch _ => count_edge count (target branch)
  | TBrIf _ ifTrue ifFalse _ => count_edge (count_edge count (target ifTrue)) (target ifFalse)
  | TReturn _ _ | TUnreachable _ => count
  end.

Definition rawPredecessorCounts fn : list Z :=
  foldl count_block (replicate (length (blocks fn)) 0) (blocks fn).

(** * Merging *)

Definition rewriteBranch (br : IrBranch) (oldToNew : jsmap Z Z) (funcName : jsstr) : result IrBranch :=
  match jm_get oldToNew (target br) with
  | None => throw EError (js "ir/passes/simplify-cfg: branch to missing block " ++ js_num (target br)
                          ++ js " in " ++ funcName)
  | Some next => Ok {| target := next; branch_args := branch_args br |}
  end.

Definition rewriteTerminatorTargets t (oldToNew : jsmap Z Z) (funcName : jsstr)
  : result (IrTerminator Site) :=
  match t with
  | TReturn _ _ | TUnreachable _ => Ok t
  | TBr branch site =>
      branch ← rewriteBranch branch oldToNew funcName;
      Ok (TBr branch site)
  | TBrIf condition ifTrue ifFalse site =>
      ifTrue ← rewriteBranch ifTrue oldToNew funcName;
      ifFalse ← rewriteBranch ifFalse oldToNew funcName;
      Ok (TBrIf condition ifTrue ifFalse site)
  end.

(** The indices [0 .. n-1] without [targetId], each with its new index. *)
Definition number_block (targetId : Z) (st : jsmap Z Z * Z) (j : Z) : jsmap Z Z * Z :=
  let '(oldToNew, newIdx) := st in
  if j =? targetId then st else (jm_set oldToNew j newIdx, newIdx + 1).

Definition old_to_new (n : nat) (targetId : Z) : jsmap Z Z :=
  (foldl (number_block targetId) ([], 0) (seqZ 0 (Z.of_nat n))).1.

(** One round of the loop that rebuilds the blocks. *)
Definition rebuild fn (mergedSource : IrBlock Instr Ty Site) (sourceId targetId : Z)
    (oldToNew : jsmap Z Z) (j : Z) (newBlocks : list (IrBlock Instr Ty Site))
  : result (list (IrBlock Instr Ty Site)) :=
  if j =? targetId then Ok newBlocks
  else
    match (if j =? sourceId then Some mergedSource else js_at (blocks fn) j), jm_get oldToNew j with
    | Some block, Some rewriteId =>
        terminator ← rewriteTerminatorTargets (terminator block) oldToNew (fn_name fn);
        Ok (newBlocks ++ [{| block_id := rewriteId; blockArgs := blockArgs block;
                             blockArgTypes := blockArgTypes block; instrs := instrs block;
                             terminator := terminator |}])
    | _, _ => throw ETypeError []
    end.

Definition mergeAt fn (sourceId targetId : Z) : result (IrFunction Instr Ty Site Rest) :=
  match js_at (blocks fn) sourceId, js_at (blocks fn) targetId with
  | Some source, Some tgt =>
      let mergedSource :=
        {| block_id := block_id source; blockArgs := blockArgs source;
           blockArgTypes := blockArgTypes source; instrs := instrs source ++ instrs tgt;
           terminator := terminator tgt |} in
      let n := length (blocks fn) in
      newBlocks ← for_n n 0 (rebuild fn mergedSource sourceId targetId (old_to_new n targetId)) [];
      Ok {| fn_name := fn_name fn; fn_rest := fn_rest fn; blocks := newBlocks |}
  | _, _ => throw ETypeError []
  end.

(** Whether block [i] may absorb the block it ends with: the target's index. *)
Definition mergeable fn (predCount : list Z) (i : Z) block : option Z :=
  match terminator block with
  | TBr branch _ =>
      let targetId := target branch in
      if targetId =? i then None
      else if targetId =? 0 then None
      else if negb (bool_decide (js_at predCount targetId = Some 1)) then None
      else match js_at (blocks fn) targetId with
           | None => None
           | Some tgt =>
               if bool_decide (blockArgs tgt ≠ []) then None
               else if bool_decide (branch_args branch ≠ []) then None
               else Some targetId
           end
  | _ => None
  end.

(** The first eligible merge. *)
Fixpoint find_merge fn (predCount : list Z) (i : Z) (bs : list (IrBlock Instr Ty Site))
  : option (Z * Z) :=
  match bs with
  | [] => None
  | block :: bs' =>
      match mergeable fn predCount i block with
      | Some targetId => Some (i, targetId)
      | None => find_merge fn predCount (i + 1) bs'
      end
  end.

Definition simplifyCFG fn : result (IrFunction Instr Ty Site Rest) :=
  match find_merge fn (rawPredecessorCounts fn) 0 (blocks fn) with
  | Some (i, targetId) => mergeAt fn i targetId
  | None => Ok fn
  end.
End cfg.

(** * Behaviour *)

(** What the passes of this file need of the meaning of instructions: executing
    one changes the values and the world, or ends the function (an exception, a
    trap); [V] are values, [W] the rest of the world, [R] the ways to end. *)
Class InstrSem (Instr V W R : Type) := {
  exec_instr : Instr → (Z → V) * W → ((Z → V) * W) + R;
  is_true : V → bool;
  returned : list V → W → R;
  trapped : W → R }.

Section semantics.
Context {Instr Ty Site Rest V W R : Type} `{InstrSem Instr V W R}.
Implicit Types (fn : IrFunction Instr Ty Site Rest) (st : (Z → V) * W).

Fixpoint exec_all (code : list Instr) st : ((Z → V) * W) + R :=
  match code with
  | [] => inl st
  | i :: code' => match exec_instr i st with inl st' => exec_all code' st' | inr r => inr r end
  end.

(** Entering a block binds its arguments, all at once. *)
Definition bind_args (params : list Z) (vs : list V) (ρ : Z → V) : Z → V :=
  foldl (λ ρ xv y, if decide (xv.1 = y) then xv.2 else ρ y) ρ (zip params vs).

Definition enter fn (br : IrBranch) st : (Z → V) * W :=
  match js_at (blocks fn) (target br) with
  | Some block => (bind_args (blockArgs block) (st.1 <$> branch_args br) st.1, st.2)
  | None => st
  end.

(** What the end of a block does: end the function, or take a branch. *)
Definition leave (t : IrTerminator Site) st : IrBranch + R :=
  match t with
  | TReturn values _ => inr (returned (st.1 <$> values) st.2)
  | TBr branch _ => inl branch
  | TBrIf condition ifTrue ifFalse _ => inl (if is_true (st.1 condition) then ifTrue else ifFalse)
  | TUnreachable _ => inr (trapped st.2)
  end.

(** The first [fuel] blocks of a run from the start of block [b]. *)
Fixpoint run fn (fuel : nat) (b : Z) st : option R :=
  match fuel with
  | O => None
  | S fuel' =>
      match js_at (blocks fn) b with
      | None => Some (trapped st.2)
      | Some block =>
          match exec_all (instrs block) st with
          | inr r => Some r
          | inl st' =>
              match leave (terminator block) st' with
              | inr r => Some r
              | inl br => run fn fuel' (target br) (enter fn br st')
              end
          end
      end
  end.

(** The function, called in state [st], ends with [r]; it diverges when there is
    no such [r]. *)
Definition behaves fn st (r : R) : Prop := ∃ fuel, run fn fuel 0 st = Some r.
End semantics.

(** * Well-formed functions *)

Section wf.
Context {Instr Ty Site Rest : Type}.
Implicit Types (fn : IrFunction Instr Ty Site Rest) (t : IrTerminator Site) (block : IrBlock Instr Ty Site).

(** The targets of a terminator, one per edge. *)
Definition targets t : list Z :=
  match t with
  | TBr branch _ => [target branch]
  | TBrIf _ ifTrue ifFalse _ => [target ifTrue; target ifFalse]
  | TReturn _ _ | TUnreachable _ => []
  end.

(** Block [i] has id [i], and every branch goes to a block. *)
Definition well_formed_fn fn : Prop :=
  (∀ i block, js_at (blocks fn) i = Some block → block_id block = i) ∧
  ∀ block, block ∈ blocks fn → Forall (λ s, 0 ≤ s < Z.of_nat (length (blocks fn))) (targets (terminator block)).

Lemma leave_targets `{InstrSem Instr V W R} t st br : leave t st = inl br → target br ∈ targets t.
Proof.
  destruct t as [|branch|c a b|]; simpl; try done.
  - intros [= <-]. by apply list_elem_of_singleton.
  - intros [= <-]. destruct (is_true _); set_solver.
Qed.

(** * Predecessor counts *)

Lemma length_count_edge count s : length (count_edge count s) = length count.
Proof. unfold count_edge. destruct (js_at count s); [apply length_ta_set|done]. Qed.

Lemma count_edge_at count s i c :
  js_at count i = Some c →
  js_at (count_edge count s) i = Some (c + (if decide (s = i) then 1 else 0)).
Proof.
  intros Hc. unfold count_edge. destruct (js_at count s) as [d|] eqn:E.
  - rewrite js_at_ta_set. pose proof (js_at_lt _ _ _ E). pose proof (js_at_lt _ _ _ Hc).
    destruct (decide (s = i)) as [->|]; [rewrite decide_True by lia; congruence|].
    rewrite decide_False by tauto. rewrite Hc. f_equal. lia.
  - destruct (decide (s = i)) as [->|]; [congruence|]. rewrite Hc. f_equal. lia.
Qed.

(** The number of edges from a block to [i]. *)
Definition edges_to (i : Z) block : nat := length (filter (λ s, s = i) (targets (terminator block))).

Lemma count_block_at count block i c :
  js_at count i = Some c → js_at (count_block count block) i = Some (c + Z.of_nat (edges_to i block)).
Proof.
  intros Hc. unfold count_block, edges_to. destruct (terminator block) as [|br|k a b|]; simpl.
  - by rewrite Z.add_0_r.
  - rewrite (count_edge_at _ _ _ _ Hc). rewrite filter_cons, filter_nil. by case_decide.
  - rewrite (count_edge_at _ _ _ _ (count_edge_at _ _ _ _ Hc)). rewrite !filter_cons, filter_nil.
    do 2 case_decide; f_equal; simpl; lia.
  - by rewrite Z.add_0_r.
Qed.

Lemma foldl_count_at bs count i c :
  js_at count i = Some c →
  js_at (foldl count_block count bs) i = Some (c + Z.of_nat (sum_list_with (edges_to i) bs)).
Proof.
  revert count c. induction bs as [|block bs IH]; intros count c Hc; simpl; [by rewrite Z.add_0_r|].
  rewrite (IH _ _ (count_block_at _ _ _ _ Hc)). f_equal. lia.
Qed.

Lemma rawPredecessorCounts_at fn i :
  0 ≤ i < Z.of_nat (length (blocks fn)) →
  js_at (rawPredecessorCounts fn) i = Some (Z.of_nat (sum_list_with (edges_to i) (blocks fn))).
Proof.
  intros Hi. apply (foldl_count_at _ _ _ 0). apply js_at_Some. split; [lia|].
  apply lookup_replicate. split; [done|lia].
Qed.

Lemma length_foldl_count bs count : length (foldl (@count_block Instr Ty Site) count bs) = length count.
Proof.
  revert count. induction bs as [|block bs IH]; intros count; simpl; [done|]. rewrite IH.
  unfold count_block. destruct (terminator block); rewrite ?length_count_edge; done.
Qed.

(** A single edge to [i] comes from one block only. *)
Lemma single_edge fn i j block j' block' :
  js_at (rawPredecessorCounts fn) i = Some 1 →
  js_at (blocks fn) j = Some block → i ∈ targets (terminator block) →
  js_at (blocks fn) j' = Some block' → i ∈ targets (terminator block') → j = j'.
Proof.
  intros Hc Hj Hi Hj' Hi'.
  assert (0 ≤ i < Z.of_nat (length (blocks fn))) as Hr.
  { apply js_at_lt in Hc. unfold rawPredecessorCounts in Hc. by rewrite length_foldl_count, length_replicate in Hc. }
  rewrite rawPredecessorCounts_at in Hc by done. injection Hc as Hc.
  assert (∀ b : IrBlock Instr Ty Site, i ∈ targets (terminator b) → (1 ≤ edges_to i b)%nat) as Hpos.
  { intros b Hb. unfold edges_to. destruct (filter _ _) eqn:E; simpl; [|lia].
    assert (i ∈ filter (λ s, s = i) (targets (terminator b))) as Hin by (by apply list_elem_of_filter).
    rewrite E in Hin. by apply not_elem_of_nil in Hin. }
  apply js_at_Some in Hj as [Hj0 Hj]. apply js_at_Some in Hj' as [Hj0' Hj'].
  destruct (decide (j = j')) as [|Hne]; [done|exfalso].
  assert (2 ≤ sum_list_with (edges_to i) (blocks fn))%nat; [|lia].
  apply Hpos in Hi, Hi'. clear Hpos Hc Hr.
  assert (Z.to_nat j ≠ Z.to_nat j') as Hne' by lia. clear Hne Hj0 Hj0'.
  revert Hj Hj' Hne'. generalize (Z.to_nat j) (Z.to_nat j'). intros k k'.
  revert k k'. induction (blocks fn) as [|b bs IH]; intros k k' Hk Hk' Hne; [done|].
  assert (∀ k block, bs !! k = Some block → (edges_to i block ≤ sum_list_with (edges_to i) bs)%nat) as Hle.
  { intros n b' Hb. clear -Hb. revert n Hb. induction bs as [|x bs IH]; intros [|n] Hb; simplify_eq/=; [lia|].
    apply IH in Hb. lia. }
  destruct k as [|k], k' as [|k']; simplify_eq/=; try lia.
  - apply Hle in Hk'. lia.
  - apply Hle in Hk. lia.
  - specialize (IH k k' Hk Hk' ltac:(lia)). lia.
Qed.
End wf.

(** * The merge, block by block *)

Section merge.
Context {Instr Ty Site Rest : Type}.
Implicit Types (fn : IrFunction Instr Ty Site Rest) (t : IrTerminator Site).

(** The new index of block [j] when block [removed] goes. *)
Definition renumber (removed j : Z) : Z := if j <? removed then j else j - 1.

Definition rename_branch (removed : Z) (br : IrBranch) : IrBranch :=
  {| target := renumber removed (target br); branch_args := branch_args br |}.

Definition rename_terminator (removed : Z) t : IrTerminator Site :=
  match t with
  | TBr br site => TBr (rename_branch removed br) site
  | TBrIf c a b site => TBrIf c (rename_branch removed a) (rename_branch removed b) site
  | _ => t
  end.

Lemma renumber_inj removed i j : i ≠ removed → j ≠ removed → renumber removed i = renumber removed j → i = j.
Proof. unfold renumber. destruct (Z.ltb_spec i removed), (Z.ltb_spec j removed); lia. Qed.

Lemma old_to_new_fold removed k i m new :
  (∀ j, jm_get m j = if bool_decide (0 ≤ j < i ∧ j ≠ removed) then Some (renumber removed j) else None) →
  0 ≤ i → new = (if removed <? i then i - 1 else i) →
  let m' := (foldl (number_block removed) (m, new) (seqZ i (Z.of_nat k))).1 in
  ∀ j, jm_get m' j = if bool_decide (0 ≤ j < i + Z.of_nat k ∧ j ≠ removed) then Some (renumber removed j) else None.
Proof.
  revert i m new. induction k as [|k IH]; intros i m new Hm Hi Hnew; cbv zeta.
  { intros j. simpl. rewrite Hm. by rewrite Z.add_0_r. }
  rewrite seqZ_cons by lia. cbn [foldl number_block].
  replace (Z.pred (Z.of_nat (S k))) with (Z.of_nat k) by lia.
  replace (i + Z.of_nat (S k)) with (Z.succ i + Z.of_nat k) by lia.
  destruct (Z.eqb_spec i removed) as [->|Hne].
  - apply IH; [|lia|].
    + intros j. rewrite Hm. do 2 case_bool_decide; try done; lia.
    + subst new. destruct (Z.ltb_spec removed removed), (Z.ltb_spec removed (Z.succ removed)); lia.
  - apply IH; [|lia|].
    + intros j. rewrite jm_get_set. case_decide as Hd; [subst j|].
      * rewrite bool_decide_true by lia. subst new. f_equal. unfold renumber.
        destruct (Z.ltb_spec removed i), (Z.ltb_spec i removed); lia.
      * rewrite Hm. do 2 case_bool_decide; try done; lia.
    + subst new. destruct (Z.ltb_spec removed i), (Z.ltb_spec removed (Z.succ i)); lia.
Qed.

Lemma old_to_new_get n removed j :
  0 ≤ removed →
  jm_get (old_to_new n removed) j
  = if bool_decide (0 ≤ j < Z.of_nat n ∧ j ≠ removed) then Some (renumber removed j) else None.
Proof.
  intros Hr. unfold old_to_new. apply (old_to_new_fold removed n 0 [] 0); [|lia|destruct (Z.ltb_spec removed 0); lia].
  intros i. rewrite bool_decide_false by lia. done.
Qed.

Definition avoids (n : nat) (removed : Z) t : Prop :=
  Forall (λ s, 0 ≤ s < Z.of_nat n ∧ s ≠ removed) (targets t).

Lemma rewriteBranch_ok n removed br name :
  0 ≤ removed → 0 ≤ target br < Z.of_nat n → target br ≠ removed →
  rewriteBranch br (old_to_new n removed) name = Ok (rename_branch removed br).
Proof.
  intros H0 Hr Hne. unfold rewriteBranch. rewrite old_to_new_get by done. by rewrite bool_decide_true by done.
Qed.

Lemma rewriteTerminator_ok n removed t name :
  0 ≤ removed → avoids n removed t →
  rewriteTerminatorTargets t (old_to_new n removed) name = Ok (rename_terminator removed t).
Proof.
  unfold avoids. intros H0. destruct t as [|br|c a b|]; cbn [targets rewriteTerminatorTargets]; intros Ht; try done.
  - apply Forall_cons in Ht as [[Hr Hne] _]. by rewrite rewriteBranch_ok.
  - apply Forall_cons in Ht as [[Hr Hne] Ht]. apply Forall_cons in Ht as [[Hr' Hne'] _].
    by rewrite !rewriteBranch_ok.
Qed.

(** The block that ends up at the new index of [j]. *)
Definition new_block (removed j : Z) (block : IrBlock Instr Ty Site) : IrBlock Instr Ty Site :=
  {| block_id := renumber removed j; blockArgs := blockArgs block; blockArgTypes := blockArgTypes block;
     instrs := instrs block; terminator := rename_terminator removed (terminator block) |}.

Definition kept (removed : Z) (l : list (Z * IrBlock Instr Ty Site)) : list (IrBlock Instr Ty Site) :=
  l ≫= λ jb, if jb.1 =? removed then [] else [new_block removed jb.1 jb.2].

Lemma rebuild_loop fn merged src removed k i acc bs :
  let n := length (blocks fn) in
  0 ≤ removed → length bs = k → 0 ≤ i → i + Z.of_nat k = Z.of_nat n →
  (∀ j, (if i + Z.of_nat j =? src then Some merged else js_at (blocks fn) (i + Z.of_nat j))
        = bs !! j ∨ (k ≤ j)%nat) →
  (∀ j b, bs !! j = Some b → i + Z.of_nat j ≠ removed → avoids n removed (terminator b)) →
  for_n k i (rebuild fn merged src removed (old_to_new n removed)) acc
  = Ok (acc ++ kept removed (zip (seqZ i (Z.of_nat k)) bs)).
Proof.
  cbv zeta. intros H0. revert i acc bs. induction k as [|k IH]; intros i acc bs Hlen Hi Hn Hbs Hav.
  { destruct bs; [|done]. simpl. by rewrite app_nil_r. }
  destruct bs as [|b bs]; [done|]. injection Hlen as Hlen.
  rewrite seqZ_cons by lia. replace (Z.pred (Z.of_nat (S k))) with (Z.of_nat k) by lia.
  cbn [for_n zip zip_with].
  assert (∀ acc', for_n k (i + 1) (rebuild fn merged src removed (old_to_new (length (blocks fn)) removed)) acc'
                  = Ok (acc' ++ kept removed (zip (seqZ (Z.succ i) (Z.of_nat k)) bs))) as Hrest.
  { intros acc'. apply (IH (i + 1)); [done|lia|lia| |].
    - intros j. destruct (Hbs (S j)) as [Hj|Hj]; [left|right; lia].
      cbn in Hj. replace (i + 1 + Z.of_nat j) with (i + Z.of_nat (S j)) by lia. exact Hj.
    - intros j b' Hj Hne. apply (Hav (S j)); [exact Hj|lia]. }
  destruct (Hbs O) as [Hb|]; [|lia]. rewrite Z.add_0_r in Hb. cbn in Hb.
  unfold kept. cbn [mbind list_bind]. fold (kept removed (zip (seqZ (Z.succ i) (Z.of_nat k)) bs)). cbn [fst snd].
  assert (rebuild fn merged src removed (old_to_new (length (blocks fn)) removed) i acc
          = Ok (acc ++ (if i =? removed then [] else [new_block removed i b]))) as ->.
  { unfold rebuild. destruct (Z.eqb_spec i removed) as [->|Hne]; [by rewrite app_nil_r|].
    rewrite Hb, old_to_new_get by done. rewrite bool_decide_true by lia.
    by rewrite rewriteTerminator_ok by (done || (apply (Hav O); [done|lia])). }
  cbn [mbind result_bind]. rewrite Hrest. by rewrite <- app_assoc.
Qed.

Lemma kept_lookup removed bs i j b :
  bs !! j = Some b → i + Z.of_nat j ≠ removed →
  kept removed (zip (seqZ i (Z.of_nat (length bs))) bs)
    !! Z.to_nat (renumber removed (i + Z.of_nat j) - (if removed <? i then i - 1 else i))
  = Some (new_block removed (i + Z.of_nat j) b).
Proof.
  revert i j. induction bs as [|x bs IH]; intros i j Hj Hne; [done|].
  cbn [length]. rewrite seqZ_cons by lia. replace (Z.pred (Z.of_nat (S (length bs)))) with (Z.of_nat (length bs)) by lia.
  cbn [zip zip_with]. unfold kept. cbn [mbind list_bind].
  fold (kept removed (zip (seqZ (Z.succ i) (Z.of_nat (length bs))) bs)). cbn [fst snd].
  unfold renumber in *. destruct j as [|j].
  - injection Hj as ->. rewrite Z.add_0_r in *. destruct (Z.eqb_spec i removed); [done|].
    replace (Z.to_nat _) with O; [done|]. destruct (Z.ltb_spec i removed), (Z.ltb_spec removed i); lia.
  - specialize (IH (Z.succ i) j Hj ltac:(lia)).
    replace (Z.succ i + Z.of_nat j) with (i + Z.of_nat (S j)) in IH by lia. rewrite <- IH.
    destruct (Z.eqb_spec i removed) as [->|Hi]; cbn [app].
    2: rewrite lookup_cons_ne_0.
    all: try f_equal; repeat match goal with |- context [?x <? ?y] => destruct (Z.ltb_spec x y) end; lia.
Qed.

Lemma length_kept removed bs i :
  length (kept removed (zip (seqZ i (Z.of_nat (length bs))) bs))
  = (length bs - (if bool_decide (i ≤ removed < i + Z.of_nat (length bs))%Z then 1 else 0))%nat.
Proof.
  revert i. induction bs as [|x bs IH]; intros i.
  { simpl. rewrite bool_decide_false by lia. done. }
  cbn [length]. rewrite seqZ_cons by lia. replace (Z.pred (Z.of_nat (S (length bs)))) with (Z.of_nat (length bs)) by lia.
  cbn [zip zip_with]. unfold kept. cbn [mbind list_bind].
  fold (kept removed (zip (seqZ (Z.succ i) (Z.of_nat (length bs))) bs)). cbn [fst snd].
  rewrite length_app, IH. destruct (Z.eqb_spec i removed) as [->|Hne]; cbn [length].
  - rewrite bool_decide_false by lia. rewrite bool_decide_true by lia. lia.
  - destruct (decide (Z.succ i ≤ removed < Z.succ i + Z.of_nat (length bs))).
    + rewrite !bool_decide_true by lia. lia.
    + rewrite !bool_decide_false by lia. lia.
Qed.

(** The rebuilt list is the old one without [removed], renumbered. *)
Lemma rebuilt_blocks fn merged src removed bs :
  bs = (if 0 <=? src then <[Z.to_nat src := merged]> (blocks fn) else blocks fn) →
  0 ≤ removed →
  (∀ j b, bs !! j = Some b → Z.of_nat j ≠ removed → avoids (length (blocks fn)) removed (terminator b)) →
  for_n (length (blocks fn)) 0 (rebuild fn merged src removed (old_to_new (length (blocks fn)) removed)) []
  = Ok (kept removed (zip (seqZ 0 (Z.of_nat (length bs))) bs)).
Proof.
  intros Hbs H0 Hav.
  assert (length bs = length (blocks fn)) as Hlen by (subst bs; destruct (0 <=? src); by rewrite ?length_insert).
  rewrite (rebuild_loop fn merged src removed (length (blocks fn)) 0 [] bs); try done; try lia.
  - by rewrite Hlen.
  - intros j. destruct (decide (length (blocks fn) ≤ j)%nat) as [|Hj]; [by right|left].
    rewrite Z.add_0_l, js_at_nat. destruct (Z.eqb_spec (Z.of_nat j) src) as [<-|Hne]; subst bs.
    + destruct (Z.leb_spec 0 (Z.of_nat j)); [|lia]. rewrite Nat2Z.id. rewrite list_lookup_insert_eq; [done|lia].
    + destruct (Z.leb_spec 0 src); [|done]. rewrite list_lookup_insert_ne; [done|lia].
Qed.
End merge.

(** * The merged function behaves the same *)

Section preservation.
Context {Instr Ty Site Rest V W R : Type} `{InstrSem Instr V W R}.
Implicit Types (fn : IrFunction Instr Ty Site Rest) (st : (Z → V) * W).

(** One block of a run: the next block and its state, or the end. *)
Definition one_block fn (b : Z) st : (Z * ((Z → V) * W)) + R :=
  match js_at (blocks fn) b with
  | None => inr (trapped st.2)
  | Some block =>
      match exec_all (instrs block) st with
      | inr r => inr r
      | inl st' =>
          match leave (terminator block) st' with
          | inr r => inr r
          | inl br => inl (target br, enter fn br st')
          end
      end
  end.

Lemma run_S fn fuel b st :
  run fn (S fuel) b st
  = match one_block fn b st with inr r => Some r | inl (b', st') => run fn fuel b' st' end.
Proof.
  cbn [run]. unfold one_block. destruct (js_at _ b); [|done]. destruct (exec_all _ st); [|done].
  by destruct (leave _ _).
Qed.

Lemma exec_all_app c1 c2 st :
  exec_all (c1 ++ c2) st = match exec_all c1 st with inl st' => exec_all c2 st' | inr r => inr r end.
Proof. revert st. induction c1 as [|i c1 IH]; intros st; simpl; [done|]. destruct (exec_instr i st); [apply IH|done]. Qed.

Lemma leave_rename removed (t : IrTerminator Site) st :
  leave (rename_terminator removed t) st
  = match leave t st with inl br => inl (rename_branch removed br) | inr r => inr r end.
Proof. destruct t; simpl; try done. by destruct (is_true _). Qed.

(** Block [i] ends with a branch to [t], which nothing else branches to. *)
Context fn (i t : Z) (A B : IrBlock Instr Ty Site) (br : IrBranch) (site : option Site).
Hypothesis Hwf : well_formed_fn fn.
Hypothesis HA : js_at (blocks fn) i = Some A.
Hypothesis HB : js_at (blocks fn) t = Some B.
Hypothesis Hbr : terminator A = TBr br site.
Hypothesis Htarget : target br = t.
Hypothesis Hargs : branch_args br = [].
Hypothesis Hparams : blockArgs B = [].
Hypothesis Hne : t ≠ i.
Hypothesis Hentry : t ≠ 0.
Hypothesis Hone : js_at (rawPredecessorCounts fn) t = Some 1.

Definition merged : IrBlock Instr Ty Site :=
  {| block_id := block_id A; blockArgs := blockArgs A; blockArgTypes := blockArgTypes A;
     instrs := instrs A ++ instrs B; terminator := terminator B |}.

Definition with_merged : list (IrBlock Instr Ty Site) := <[Z.to_nat i := merged]> (blocks fn).

Definition fn' : IrFunction Instr Ty Site Rest :=
  {| fn_name := fn_name fn; fn_rest := fn_rest fn;
     blocks := kept t (zip (seqZ 0 (Z.of_nat (length with_merged))) with_merged) |}.

Lemma i_range : 0 ≤ i < Z.of_nat (length (blocks fn)). Proof. by apply js_at_lt in HA. Qed.
Lemma t_range : 0 ≤ t < Z.of_nat (length (blocks fn)). Proof. by apply js_at_lt in HB. Qed.

Lemma no_edge j block : js_at (blocks fn) j = Some block → j ≠ i → t ∉ targets (terminator block).
Proof.
  intros Hj Hji Ht. apply Hji. symmetry. eapply (single_edge fn t i A j block); try done.
  rewrite Hbr. simpl. rewrite Htarget. by apply list_elem_of_singleton.
Qed.

Lemma target_kept j block s :
  js_at (blocks fn) j = Some block → j ≠ i → s ∈ targets (terminator block) →
  0 ≤ s < Z.of_nat (length (blocks fn)) ∧ s ≠ t.
Proof.
  intros Hj Hji Hs. split; [|intros ->; by apply (no_edge j block)].
  destruct Hwf as [_ Hin]. apply js_at_Some in Hj as [_ Hj]. apply list_elem_of_lookup_2 in Hj.
  specialize (Hin block Hj). rewrite list.Forall_forall in Hin. by apply Hin.
Qed.

Lemma with_merged_at j : js_at with_merged j = if j =? i then Some merged else js_at (blocks fn) j.
Proof.
  pose proof i_range. change with_merged with (ta_set (blocks fn) i merged) ||
  (assert (with_merged = ta_set (blocks fn) i merged) as -> by (unfold with_merged, ta_set; destruct (Z.ltb_spec i 0); [lia|done])).
  rewrite js_at_ta_set. destruct (Z.eqb_spec j i) as [->|Hji].
  - by rewrite decide_True by lia.
  - by rewrite decide_False by lia.
Qed.

Lemma merge_ok : mergeAt fn i t = Ok fn'.
Proof.
  unfold mergeAt. rewrite HA, HB. fold merged. pose proof i_range. pose proof t_range.
  rewrite (rebuilt_blocks fn merged i t with_merged); [done| |lia|].
  - unfold with_merged. destruct (Z.leb_spec 0 i); [done|lia].
  - intros j b Hj Hjt. rewrite <- js_at_nat, with_merged_at in Hj. unfold avoids. apply list.Forall_forall. intros s Hs.
    destruct (Z.eqb_spec (Z.of_nat j) i) as [Hji|Hji].
    + injection Hj as <-. by apply (target_kept t B).
    + by apply (target_kept (Z.of_nat j) b).
Qed.

Lemma fn'_at j :
  j ≠ t → 0 ≤ j < Z.of_nat (length (blocks fn)) →
  ∃ b, js_at with_merged j = Some b ∧ js_at (blocks fn') (renumber t j) = Some (new_block t j b).
Proof.
  intros Hjt Hj. pose proof t_range.
  assert (is_Some (js_at with_merged j)) as [b Hb].
  { apply js_at_is_Some. unfold with_merged. by rewrite length_insert. }
  exists b. split; [done|]. apply js_at_Some in Hb as [_ Hb].
  pose proof (kept_lookup t with_merged 0 (Z.to_nat j) b Hb) as Hk.
  rewrite Z.add_0_l, Z2Nat.id in Hk by lia. specialize (Hk Hjt).
  destruct (Z.ltb_spec t 0); [lia|]. rewrite Z.sub_0_r in Hk.
  apply js_at_Some. split; [|exact Hk]. unfold renumber. destruct (Z.ltb_spec j t); lia.
Qed.

Lemma enter_rename (b : IrBranch) st :
  target b ≠ t → 0 ≤ target b < Z.of_nat (length (blocks fn)) →
  enter fn' (rename_branch t b) st = enter fn b st.
Proof.
  intros Hbt Hb. destruct (fn'_at (target b) Hbt Hb) as (blk & Hm & Hk). unfold enter.
  cbn [rename_branch target branch_args]. rewrite Hk. cbn [new_block blockArgs].
  rewrite with_merged_at in Hm. destruct (Z.eqb_spec (target b) i) as [->|]; [|by rewrite Hm].
  injection Hm as <-. by rewrite HA.
Qed.

Lemma leave_enter j (block : IrBlock Instr Ty Site) st :
  js_at (blocks fn) j = Some block → j ≠ i →
  match leave (rename_terminator t (terminator block)) st with
  | inr r => inr r
  | inl b => inl (target b, enter fn' b st)
  end = match leave (terminator block) st with
        | inr r => inr r
        | inl b => inl (renumber t (target b), enter fn b st)
        end.
Proof.
  intros Hj Hji. rewrite leave_rename. destruct (leave (terminator block) st) as [b|r] eqn:E; [|done].
  apply leave_targets in E. destruct (target_kept j block _ Hj Hji E) as [Hr Hbt].
  by rewrite enter_rename.
Qed.

(** One block of the merged function is one block of the old one, or the two
    that were merged. *)
Lemma one_block_merged b st :
  b ≠ t → 0 ≤ b < Z.of_nat (length (blocks fn)) →
  one_block fn' (renumber t b) st
  = match (if b =? i then match one_block fn b st with
                         | inl (b', st') => one_block fn b' st'
                         | inr r => inr r
                         end
           else one_block fn b st) with
    | inl (b', st') => inl (renumber t b', st')
    | inr r => inr r
    end.
Proof.
  intros Hbt Hb. destruct (fn'_at b Hbt Hb) as (blk & Hm & Hk). rewrite with_merged_at in Hm.
  unfold one_block at 1. rewrite Hk. cbn [new_block instrs terminator].
  destruct (Z.eqb_spec b i) as [->|Hbi].
  - injection Hm as <-. cbn [merged instrs terminator]. unfold one_block. rewrite HA, exec_all_app.
    destruct (exec_all (instrs A) st) as [st'|r]; [|done]. rewrite Hbr. cbn [leave].
    rewrite Htarget, HB. unfold enter at 2. rewrite Htarget, HB, Hargs, Hparams.
    change (bind_args [] ((st'.1) <$> []) st'.1, st'.2) with (st'.1, st'.2). rewrite <- surjective_pairing.
    destruct (exec_all (instrs B) st') as [st''|r]; [|done].
    rewrite (leave_enter t B st'' HB Hne). by destruct (leave _ _).
  - unfold one_block. rewrite Hm. destruct (exec_all (instrs blk) st) as [st'|r]; [|done].
    rewrite (leave_enter b blk st' Hm Hbi). by destruct (leave _ _).
Qed.

Lemma one_block_target b st b' st' :
  b ≠ i → one_block fn b st = inl (b', st') → 0 ≤ b' < Z.of_nat (length (blocks fn)) ∧ b' ≠ t.
Proof.
  unfold one_block. intros Hbi. destruct (js_at (blocks fn) b) as [block|] eqn:Hb; [|done].
  destruct (exec_all _ st); [|done]. destruct (leave _ _) as [c|] eqn:E; [|done].
  intros [= <- _]. apply leave_targets in E. by apply (target_kept b block).
Qed.

Lemma one_block_source st b' st' : one_block fn i st = inl (b', st') → b' = t.
Proof.
  unfold one_block. rewrite HA, Hbr. destruct (exec_all _ st); [|done]. cbn [leave].
  intros [= <- _]. done.
Qed.

Lemma merged_forward fuel b st r :
  b ≠ t → 0 ≤ b < Z.of_nat (length (blocks fn)) →
  run fn fuel b st = Some r → ∃ fuel', run fn' fuel' (renumber t b) st = Some r.
Proof.
  revert b st. induction (lt_wf fuel) as [fuel _ IH]. intros b st Hbt Hb Hr.
  destruct fuel as [|fuel]; [done|]. rewrite run_S in Hr.
  pose proof (one_block_merged b st Hbt Hb) as Hone'.
  destruct (one_block fn b st) as [[b' st']|r'] eqn:E.
  2: { injection Hr as ->. exists 1%nat. rewrite run_S, Hone'. by destruct (b =? i). }
  destruct (Z.eqb_spec b i) as [->|Hbi].
  - apply one_block_source in E as ->. destruct fuel as [|fuel]; [done|]. rewrite run_S in Hr.
    destruct (one_block fn t st') as [[b'' st'']|r'] eqn:E'.
    2: { injection Hr as ->. exists 1%nat. by rewrite run_S, Hone'. }
    destruct (one_block_target t st' b'' st'' Hne E') as [Hb'' Hbt''].
    destruct (IH fuel ltac:(lia) b'' st'' Hbt'' Hb'' Hr) as [fuel' Hf].
    exists (S fuel'). by rewrite run_S, Hone'.
  - destruct (one_block_target b st b' st' Hbi E) as [Hb' Hbt'].
    destruct (IH fuel ltac:(lia) b' st' Hbt' Hb' Hr) as [fuel' Hf].
    exists (S fuel'). by rewrite run_S, Hone'.
Qed.

Lemma merged_backward fuel b st r :
  b ≠ t → 0 ≤ b < Z.of_nat (length (blocks fn)) →
  run fn' fuel (renumber t b) st = Some r → ∃ fuel', run fn fuel' b st = Some r.
Proof.
  revert b st. induction fuel as [|fuel IH]; intros b st Hbt Hb Hr; [done|].
  rewrite run_S, (one_block_merged b st Hbt Hb) in Hr.
  destruct (one_block fn b st) as [[b' st']|r'] eqn:E.
  2: { destruct (b =? i); injection Hr as ->; exists 1%nat; by rewrite run_S, E. }
  destruct (Z.eqb_spec b i) as [->|Hbi].
  - pose proof (one_block_source _ _ _ E) as ->.
    destruct (one_block fn t st') as [[b'' st'']|r'] eqn:E'.
    2: { injection Hr as ->. exists 2%nat. by rewrite run_S, E, run_S, E'. }
    destruct (one_block_target t st' b'' st'' Hne E') as [Hb'' Hbt''].
    destruct (IH b'' st'' Hbt'' Hb'' Hr) as [fuel' Hf]. exists (S (S fuel')). by rewrite run_S, E, run_S, E'.
  - destruct (one_block_target b st b' st' Hbi E) as [Hb' Hbt'].
    destruct (IH b' st' Hbt' Hb' Hr) as [fuel' Hf]. exists (S fuel'). by rewrite run_S, E.
Qed.

Lemma merged_behaves st r : behaves fn st r ↔ behaves fn' st r.
Proof.
  assert (0 ≠ t) as H0 by done. pose proof i_range. assert (renumber t 0 = 0) as E0.
  { pose proof t_range. unfold renumber. destruct (Z.ltb_spec 0 t); lia. }
  split; intros [fuel Hr].
  - destruct (merged_forward fuel 0 st r H0 ltac:(lia) Hr) as [f Hf]. exists f. by rewrite <- E0.
  - apply (merged_backward fuel 0 st r H0); [lia|by rewrite E0].
Qed.
Lemma length_fn' : S (length (blocks fn')) = length (blocks fn).
Proof.
  pose proof t_range. cbn [fn' blocks]. rewrite length_kept. unfold with_merged. rewrite length_insert.
  rewrite bool_decide_true by lia. lia.
Qed.

Lemma fn'_blocks k blk :
  js_at (blocks fn') k = Some blk →
  ∃ j b, j ≠ t ∧ js_at with_merged j = Some b ∧ k = renumber t j ∧ blk = new_block t j b.
Proof.
  intros Hk. pose proof (js_at_lt _ _ _ Hk) as Hlt. pose proof length_fn'. pose proof t_range.
  set (j := if k <? t then k else k + 1).
  assert (j ≠ t ∧ 0 ≤ j < Z.of_nat (length (blocks fn)) ∧ renumber t j = k) as (Hj & Hr & Ek).
  { unfold j, renumber. destruct (Z.ltb_spec k t).
    - destruct (Z.ltb_spec k t); lia.
    - destruct (Z.ltb_spec (k + 1) t); lia. }
  destruct (fn'_at j Hj Hr) as (b & Hm & Hb). rewrite Ek, Hk in Hb. injection Hb as ->. by exists j, b.
Qed.

Lemma targets_rename (u : IrTerminator Site) : targets (rename_terminator t u) = renumber t <$> targets u.
Proof. by destruct u. Qed.

Lemma merged_well_formed : well_formed_fn fn'.
Proof.
  split.
  - intros k blk Hk. destruct (fn'_blocks k blk Hk) as (j & b & _ & _ & -> & ->). done.
  - intros blk [k Hk]%list_elem_of_lookup. rewrite <- js_at_nat in Hk.
    destruct (fn'_blocks _ _ Hk) as (j & b & Hj & Hm & _ & ->). cbn [new_block terminator].
    rewrite targets_rename. apply list.Forall_forall. intros s (u & -> & Hu)%list_elem_of_fmap.
    assert (0 ≤ u < Z.of_nat (length (blocks fn)) ∧ u ≠ t) as [Hr Hut].
    { rewrite with_merged_at in Hm. destruct (Z.eqb_spec j i) as [->|Hji].
      - injection Hm as <-. by apply (target_kept t B).
      - by apply (target_kept j b). }
    pose proof length_fn'. pose proof t_range. unfold renumber. destruct (Z.ltb_spec u t); lia.
Qed.
End preservation.

Section simplify.
Context {Instr Ty Site Rest : Type}.
Implicit Types (fn : IrFunction Instr Ty Site Rest).

Lemma mergeable_spec fn i A t :
  mergeable fn (rawPredecessorCounts fn) i A = Some t →
  ∃ br site B, terminator A = TBr br site ∧ target br = t ∧ branch_args br = [] ∧
    js_at (blocks fn) t = Some B ∧ blockArgs B = [] ∧ t ≠ i ∧ t ≠ 0 ∧
    js_at (rawPredecessorCounts fn) t = Some 1.
Proof.
  unfold mergeable. destruct (terminator A) as [|br site|c a b|] eqn:HA; try done.
  destruct (Z.eqb_spec (target br) i); [done|]. destruct (Z.eqb_spec (target br) 0); [done|].
  case_bool_decide as Hc; [|done]. cbn [negb]. destruct (js_at (blocks fn) (target br)) as [B|] eqn:HB; [|done].
  case_bool_decide as Hp; [done|]. case_bool_decide as Ha; [done|]. intros [= <-].
  exists br, site, B. by split_and!.
Qed.

Lemma find_merge_spec fn pc k bs i t :
  find_merge fn pc k bs = Some (i, t) →
  ∃ j A, i = k + Z.of_nat j ∧ bs !! j = Some A ∧ mergeable fn pc i A = Some t.
Proof.
  revert k. induction bs as [|b bs IH]; intros k; simpl; [done|].
  destruct (mergeable fn pc k b) as [t'|] eqn:Hm.
  - intros [= <- <-]. exists O, b. split_and!; [lia|done|done].
  - intros (j & A & -> & HA & Ht)%IH. exists (S j), A. split_and!; [lia|done|done].
Qed.

(** C18: Merging blocks preserves every behaviour.  On a well-formed function
    [simplifyCFG] never throws; it returns a well-formed function with the same
    name and other fields that, whatever the instructions mean and from every
    state, ends just the ways the old one ends (and so diverges when that does);
    and it either leaves the function alone, or the function has one block less. *)
Theorem simplifyCFG_correct fn (Hwf : well_formed_fn fn) :
  ∃ fn', simplifyCFG fn = Ok fn' ∧ well_formed_fn fn' ∧
    fn_name fn' = fn_name fn ∧ fn_rest fn' = fn_rest fn ∧
    (∀ V W R (sem : InstrSem Instr V W R) st r, behaves fn st r ↔ behaves fn' st r) ∧
    (fn' = fn ∨ S (length (blocks fn')) = length (blocks fn)).
Proof.
  unfold simplifyCFG. destruct (find_merge _ _ 0 (blocks fn)) as [[i t]|] eqn:E.
  2: { exists fn. by split_and!; auto. }
  apply find_merge_spec in E as (j & A & -> & Hj & Hm). rewrite Z.add_0_l in *.
  rewrite <- js_at_nat in Hj.
  apply mergeable_spec in Hm as (br & site & B & Hbr & Ht & Hargs & HB & Hp & Hne & H0 & Hc).
  exists (fn' fn (Z.of_nat j) t A B). split_and!; try done.
  - by eapply merge_ok.
  - by eapply merged_well_formed.
  - intros V W R sem st r. by eapply merged_behaves.
  - right. by eapply length_fn'.
Qed.
End simplify.

(** A loop whose body is split over two blocks. *)
Definition split_loop : IrFunction Z unit unit unit :=
  let go b := {| target := b; branch_args := [] |} in
  {| fn_name := js "f"; fn_rest := tt;
     blocks := [ {| block_id := 0; blockArgs := []; blockArgTypes := []; instrs := [0]; terminator := TBr (go 1) None |};
                 {| block_id := 1; blockArgs := []; blockArgTypes := []; instrs := [1];
                    terminator := TBrIf 7 (go 3) (go 2) None |};
                 {| block_id := 2; blockArgs := []; blockArgTypes := []; instrs := [2]; terminator := TReturn [7] None |};
                 {| block_id := 3; blockArgs := []; blockArgTypes := []; instrs := [3]; terminator := TBr (go 4) None |};
                 {| block_id := 4; blockArgs := []; blockArgTypes := []; instrs := [4]; terminator := TBr (go 1) None |} ] |}.

Lemma simplifyCFG_correct_witness :
  well_formed_fn split_loop ∧
  ∃ fn', simplifyCFG split_loop = Ok fn' ∧ well_formed_fn fn' ∧ length (blocks fn') = 4%nat ∧
    block_id <$> blocks fn' = [0; 1; 2; 3] ∧ instrs <$> blocks fn' = [[0]; [1]; [2]; [3; 4]] ∧
    ∀ V W R (sem : InstrSem Z V W R) st r, behaves split_loop st r ↔ behaves fn' st r.
Proof.
  assert (well_formed_fn split_loop) as Hwf.
  { split.
    - intros i block Hi. pose proof (js_at_lt _ _ _ Hi) as Hr. cbn in Hr.
      assert (i = 0 ∨ i = 1 ∨ i = 2 ∨ i = 3 ∨ i = 4) as Hc by lia.
      destruct Hc as [-> |[-> |[-> |[-> | ->]]]]; by injection Hi as <-.
    - intros block Hb. repeat (apply elem_of_cons in Hb as [-> |Hb]; [cbn; repeat constructor; lia|]).
      by apply not_elem_of_nil in Hb. }
  split; [exact Hwf|].
  destruct (simplifyCFG_correct split_loop Hwf) as (fn' & E & Hwf' & _ & _ & Hb & _).
  exists fn'. split; [exact E|]. split; [exact Hwf'|].
  vm_compute in E. injection E as E. split; [|split; [|split; [|exact Hb]]]; rewrite <- E; vm_compute; reflexivity.
Defined.
