(* ===== verification/IrDominance.v ===== *)
(** Dominance over the block graph of the middle-end IR:
    src/ir/analysis/dominance.ts.  The analysis works on the block indices and
    their successors only; those are the arguments [n] and [succs] here, which
    [computeDominance] takes from the function.  Every array read is checked: one
    that would leave its array ends the model with [NotModelled].  [while] loops
    take fuel. *)

From S2P Require Import Prelude IrCfg.

(** [a[i]] of an index that is in range. *)
Definition rd {A} (a : list A) (i : Z) : result A :=
  match js_at a i with Some v => Ok v | None => Err NotModelled end.

(** * The analysis *)

Section analysis.
Context (n : Z) (succs : Z → list Z).

(** [s >= 0 && s < n && !reachable[s]] *)
Definition unvisited (reachable : list bool) (s : Z) : bool := bool_decide (js_at reachable s = Some false).

(** The depth-first search: the stack of frames, its top first. *)
Fixpoint dfs (fuel : nat) (stack : list (Z * nat)) (reachable : list bool) (postorder : list Z)
  : result (list bool * list Z) :=
  match fuel with
  | O => Err OutOfFuel
  | S fuel' =>
      match stack with
      | [] => Ok (reachable, postorder)
      | (b, i) :: rest =>
          match succs b !! i with
          | Some s =>
              if unvisited reachable s
              then dfs fuel' ((s, O) :: (b, S i) :: rest) (ta_set reachable s true) postorder
              else dfs fuel' ((b, S i) :: rest) reachable postorder
          | None => dfs fuel' rest reachable (postorder ++ [b])
          end
      end
  end.

(** [for (let i = 0; i < rpo.length; i++) rpoNum[rpo[i]] = i] *)
Definition rpo_numbers (rpo : list Z) : list Z :=
  (foldl (λ '(rpoNum, i) b, (ta_set rpoNum b i, i + 1)) (replicate (Z.to_nat n) (-1), 0) rpo).1.

(** * Predecessors *)

Definition add_pred (reachable : list bool) (b : Z) (preds : list (list Z)) (s : Z) : list (list Z) :=
  match js_at reachable s, js_at preds s with
  | Some true, Some ps => if bool_decide (b ∈ ps) then preds else ta_set preds s (ps ++ [b])
  | _, _ => preds
  end.

Definition all_preds (reachable : list bool) (rpo : list Z) : list (list Z) :=
  foldl (λ preds b, foldl (add_pred reachable b) preds (succs b)) (replicate (Z.to_nat n) []) rpo.

(** * Immediate dominators *)

(** [while (rpoNum[x] > rpoNum[y]) x = idom[x];] *)
Fixpoint climb (fuel : nat) (rpoNum idom : list Z) (x y : Z) : result Z :=
  match fuel with
  | O => Err OutOfFuel
  | S fuel' =>
      nx ← rd rpoNum x;
      ny ← rd rpoNum y;
      if ny <? nx then x ← rd idom x; climb fuel' rpoNum idom x y else Ok x
  end.

Fixpoint intersect (fuel : nat) (rpoNum idom : list Z) (x y : Z) : result Z :=
  match fuel with
  | O => Err OutOfFuel
  | S fuel' =>
      if x =? y then Ok x
      else
        x ← climb (S (Z.to_nat n)) rpoNum idom x y;
        y ← climb (S (Z.to_nat n)) rpoNum idom y x;
        intersect fuel' rpoNum idom x y
  end.

(** One predecessor in the search for [newIdom]. *)
Definition merge_pred (rpoNum idom : list Z) (p newIdom : Z) : result Z :=
  ip ← rd idom p;
  if ip =? -1 then Ok newIdom
  else if newIdom =? -1 then Ok p
  else intersect (S (Z.to_nat n)) rpoNum idom newIdom p.

(** One block of a round; the state is [idom] and [changed]. *)
Definition update_block (rpoNum : list Z) (preds : list (list Z)) (b : Z) (st : list Z * bool)
  : result (list Z * bool) :=
  if b =? 0 then Ok st
  else
    let idom := st.1 in
    ps ← rd preds b;
    newIdom ← for_each ps (merge_pred rpoNum idom) (-1);
    old ← rd idom b;
    if negb (newIdom =? -1) && negb (old =? newIdom)
    then Ok (ta_set idom b newIdom, true) else Ok st.

Fixpoint idom_loop (fuel : nat) (rpo rpoNum : list Z) (preds : list (list Z)) (idom : list Z)
  : result (list Z) :=
  match fuel with
  | O => Err OutOfFuel
  | S fuel' =>
      st ← for_each rpo (update_block rpoNum preds) (idom, false);
      if st.2 : bool then idom_loop fuel' rpo rpoNum preds st.1 else Ok st.1
  end.

(** * The dominator tree *)

Definition add_child (idom : list Z) (b : Z) (children : list (list Z)) : result (list (list Z)) :=
  ib ← rd idom b;
  if negb (b =? 0) && negb (ib =? -1)
  then cs ← rd children ib; Ok (ta_set children ib (cs ++ [b]))
  else Ok children.

(** The walk that numbers the tree; the stack's top is first. *)
Fixpoint number_tree (fuel : nat) (children : list (list Z)) (stack : list (Z * nat))
    (treeIn treeOut : list Z) (clock : Z) : result (list Z * list Z) :=
  match fuel with
  | O => Err OutOfFuel
  | S fuel' =>
      match stack with
      | [] => Ok (treeIn, treeOut)
      | (b, i) :: rest =>
          kids ← rd children b;
          match kids !! i with
          | Some c =>
              number_tree fuel' children ((c, O) :: (b, S i) :: rest) (ta_set treeIn c clock) treeOut (clock + 1)
          | None => number_tree fuel' children rest treeIn (ta_set treeOut b clock) (clock + 1)
          end
      end
  end.

(** * Frontiers *)

(** [while (runner !== stop) { ...; runner = idom[runner]; }] *)
Fixpoint run_up (fuel : nat) (idom : list Z) (stop b runner : Z) (frontier : list (list Z))
  : result (list (list Z)) :=
  match fuel with
  | O => Err OutOfFuel
  | S fuel' =>
      if runner =? stop then Ok frontier
      else
        fr ← rd frontier runner;
        runner' ← rd idom runner;
        run_up fuel' idom stop b runner'
          (if bool_decide (b ∈ fr) then frontier else ta_set frontier runner (fr ++ [b]))
  end.

Definition block_frontier (preds : list (list Z)) (idom : list Z) (b : Z) (frontier : list (list Z))
  : result (list (list Z)) :=
  ps ← rd preds b;
  stop ← rd idom b;
  for_each ps (run_up (S (Z.to_nat n)) idom stop b) frontier.

Definition frontiers (rpo : list Z) (preds : list (list Z)) (idom : list Z) : result (list (list Z)) :=
  frontier ← for_each rpo (block_frontier preds idom) (replicate (Z.to_nat n) []);
  p0 ← rd preds 0;
  if bool_decide (p0 = []) then Ok frontier
  else f0 ← rd frontier 0; Ok (ta_set frontier 0 (f0 ++ [0])).

Definition tree_dominates (reachable : list bool) (treeIn treeOut : list Z) (a b : Z) : bool :=
  if (a <? 0) || (b <? 0) || (n <=? a) || (n <=? b) then false
  else match js_at reachable a, js_at reachable b with
       | Some true, Some true =>
           match js_at treeIn a, js_at treeIn b, js_at treeOut a, js_at treeOut b with
           | Some ia, Some ib, Some oa, Some ob => (ia <=? ib) && (ob <=? oa)
           | _, _, _, _ => false
           end
       | _, _ => false
       end.
End analysis.

Record DominanceInfo := {
  reachable : list bool;
  rpo : list Z;
  idom : list Z;
  children : list (list Z);
  preds : list (list Z);
  frontier : list (list Z);
  dominates : Z → Z → bool }.

(** The fuel of the loops: three steps per block for the search, two for the walk
    of the tree; each round of the idom loop but the first and the last lowers the
    sum of the reverse-postorder numbers of the idoms. *)
Definition graph_dominance (n : Z) (succs : Z → list Z) (edges : nat) : result DominanceInfo :=
  let N := Z.to_nat n in
  search ← dfs succs (S (N + N + edges)) [(0, O)] (ta_set (replicate N false) 0 true) [];
  let '(reachable, postorder) := search in
  let rpo := reverse postorder in
  let rpoNum := rpo_numbers n rpo in
  let preds := all_preds n succs reachable rpo in
  idom ← idom_loop n (N * N + 3) rpo rpoNum preds (ta_set (replicate N (-1)) 0 0);
  children ← for_each rpo (add_child idom) (replicate N []);
  tree ← number_tree (2 * N + 1) children [(0, O)] (ta_set (replicate N (-1)) 0 0) (replicate N (-1)) 1;
  let '(treeIn, treeOut) := tree in
  frontier ← frontiers n rpo preds idom;
  Ok {| reachable := reachable; rpo := rpo; idom := idom; children := children; preds := preds;
        frontier := frontier; dominates := tree_dominates n reachable treeIn treeOut |}.

(** * On functions *)

Section functions.
Context {Instr Ty Site Rest : Type}.
Implicit Types (fn : IrFunction Instr Ty Site Rest).

(** [blockSuccessors(fn.blocks[b])]; the analysis asks for blocks only. *)
Definition successors_of fn (b : Z) : list Z :=
  match js_at (blocks fn) b with Some block => blockSuccessors block | None => [] end.

(** The first index whose block has another id. *)
Fixpoint bad_id (bs : list (IrBlock Instr Ty Site)) (i : Z) : option (Z * Z) :=
  match bs with
  | [] => None
  | block :: bs' => if negb (block_id block =? i) then Some (i, block_id block) else bad_id bs' (i + 1)
  end.

Definition computeDominance fn : result DominanceInfo :=
  let n := Z.of_nat (length (blocks fn)) in
  match bad_id (blocks fn) 0 with
  | Some (i, id) =>
      throw EError (js "dominance: block ids not contiguous (blocks[" ++ js_num i ++ js "].id === "
                    ++ js_num id ++ js ")")
  | None =>
      if n =? 0 then
        Ok {| reachable := []; rpo := []; idom := []; children := []; preds := []; frontier := [];
              dominates := λ _ _, false |}
      else graph_dominance n (successors_of fn) (2 * length (blocks fn))
  end.
(** * The naive reference *)

(** One successor of the walk that leaves out [removed]; the state is [seen] and
    the stack, its top first. *)
Definition see_succ (removed : Z) (st : list bool * list Z) (s : Z) : list bool * list Z :=
  if negb (s =? removed) && unvisited st.1 s then (ta_set st.1 s true, s :: st.2) else st.

Fixpoint walk (fuel : nat) fn (removed : Z) (seen : list bool) (stack : list Z) : result (list bool) :=
  match fuel with
  | O => Err OutOfFuel
  | S fuel' =>
      match stack with
      | [] => Ok seen
      | b :: rest =>
          match js_at (blocks fn) b with
          | None => throw ETypeError (js "Cannot read properties of undefined (reading 'terminator')")
          | Some block =>
              let st := foldl (see_succ removed) (seen, rest) (blockSuccessors block) in
              walk fuel' fn removed st.1 st.2
          end
      end
  end.

Definition reachableWithout fn (removed : Z) : result (list bool) :=
  let n := length (blocks fn) in
  let seen := replicate n false in
  if removed =? 0 then Ok seen else walk (S n) fn removed (ta_set seen 0 true) [0].

(** [set.add(x)] *)
Definition add_to (x : Z) (set : list Z) : list Z := if bool_decide (x ∈ set) then set else set ++ [x].

Definition naive_entry (baseline seen : list bool) (a b : Z) (dom : list (list Z)) : result (list (list Z)) :=
  rb ← rd baseline b;
  ra ← rd baseline a;
  if negb rb || negb ra then Ok dom
  else
    s ← rd seen b;
    if (b =? a) || negb s then d ← rd dom b; Ok (ta_set dom b (add_to a d)) else Ok dom.

Definition naive_row fn (baseline : list bool) (a : Z) (dom : list (list Z)) : result (list (list Z)) :=
  seen ← reachableWithout fn a;
  for_n (length (blocks fn)) 0 (naive_entry baseline seen a) dom.

Definition computeDominanceNaive fn : result (list (list Z)) :=
  let n := length (blocks fn) in
  baseline ← reachableWithout fn (-1);
  for_n n 0 (naive_row fn baseline) (replicate n []).

(** * The cross-check *)

Definition js_bool (b : bool) : jsstr := if b then js "true" else js "false".

Definition check_pair fn (info : DominanceInfo) (naive : list (list Z)) (a b : Z) (errors : list jsstr)
  : result (list jsstr) :=
  let fast := dominates info a b in
  ra ← rd (reachable info) a;
  rb ← rd (reachable info) b;
  ref ← (if ra && rb : bool then nb ← rd naive b; Ok (bool_decide (a ∈ nb)) else Ok false);
  if eqb fast ref then Ok errors
  else Ok (errors ++ [js "dominates(" ++ js_num a ++ js ", " ++ js_num b ++ js "): fast=" ++ js_bool fast
                      ++ js " naive=" ++ js_bool ref ++ js " in " ++ fn_name fn]).

Definition check_row fn info naive (a : Z) (errors : list jsstr) : result (list jsstr) :=
  for_n (length (blocks fn)) 0 (check_pair fn info naive a) errors.

(** The frontier of [a] from its definition. *)
Definition expect_block (info : DominanceInfo) (a b : Z) (expected : list Z) : result (list Z) :=
  rb ← rd (reachable info) b;
  if negb rb then Ok expected
  else
    let strictly := negb (a =? b) && dominates info a b in
    if strictly then Ok expected
    else
      ps ← rd (preds info) b;
      if existsb (dominates info a) ps then Ok (add_to b expected) else Ok expected.

(** [for (const b of set) if (!other.has(b)) errors.push(...)] *)
Definition report (set other : list Z) (msg : Z → jsstr) (errors : list jsstr) : list jsstr :=
  foldl (λ errors b, if bool_decide (b ∈ other) then errors else errors ++ [msg b]) errors set.

Definition check_frontier fn info (a : Z) (errors : list jsstr) : result (list jsstr) :=
  ra ← rd (reachable info) a;
  if negb ra then Ok errors
  else
    expected ← for_n (length (blocks fn)) 0 (expect_block info a) [];
    fs ← rd (frontier info) a;
    let got := foldl (λ set b, add_to b set) [] fs in
    let msg what b := js "frontier[" ++ js_num a ++ js "] " ++ js what ++ js " " ++ js_num b
                      ++ js " in " ++ fn_name fn in
    Ok (report got expected (msg "extra"%string) (report expected got (msg "missing"%string) errors)).

Definition crossCheckDominance fn info : result (list jsstr) :=
  let n := length (blocks fn) in
  naive ← computeDominanceNaive fn;
  errors ← for_n n 0 (check_row fn info naive) [];
  for_n n 0 (check_frontier fn info) errors.
End functions.
