(* ===== verification/IrDomGraph.v ===== *)
(** Paths and dominators of a block graph, the depth-first search of
    src/ir/analysis/dominance.ts and the reverse postorder it gives. *)

From S2P Require Import Prelude IrCfg IrDominance.

(** * Graphs *)

Section graph.
Context (n : Z) (succs : Z → list Z).

Definition edge (a b : Z) : Prop := b ∈ succs a ∧ 0 ≤ b < n.

(** Reachable from the entry. *)
Inductive reach : Z → Prop :=
  | reach_entry : 0 < n → reach 0
  | reach_edge a b : reach a → edge a b → reach b.

(** A path from the entry, its last block first. *)
Inductive path : list Z → Z → Prop :=
  | path_entry : 0 < n → path [0] 0
  | path_edge l a b : path l a → edge a b → path (b :: l) b.

(** Every path from the entry to [b] goes through [a]. *)
Definition dom (a b : Z) : Prop := ∀ l, path l b → a ∈ l.

Lemma reach_range b : reach b → 0 ≤ b < n.
Proof. intros [|? ? ? [_ ?]]; lia. Qed.

Lemma reach_path b : reach b ↔ ∃ l, path l b.
Proof.
  split.
  - induction 1 as [|a b _ [l Hl] He]; [exists [0]; by constructor|]. exists (b :: l). by econstructor.
  - intros [l Hl]. induction Hl; [by constructor|by econstructor].
Qed.

Lemma path_here l b : path l b → b ∈ l.
Proof. intros []; left. Qed.

Lemma dom_refl b : dom b b.
Proof. intros l. apply path_here. Qed.

Lemma dom_entry a : 0 < n → dom a 0 → a = 0.
Proof. intros Hn Hd. specialize (Hd [0] (path_entry Hn)). by apply list_elem_of_singleton in Hd. Qed.

Lemma dom_pred a p b : edge p b → dom a b → a ≠ b → dom a p.
Proof.
  intros He Hd Hne l Hl. specialize (Hd (b :: l) (path_edge l p b Hl He)).
  apply elem_of_cons in Hd as [|]; done.
Qed.

(** A path splits where it meets a block. *)
Lemma path_split l b a : path l b → a ∈ l → ∃ l', path l' a ∧ l' `suffix_of` l.
Proof.
  induction 1 as [|l p b Hl IH He]; intros Ha.
  - apply list_elem_of_singleton in Ha as ->. exists [0]. split; [by constructor|done].
  - apply elem_of_cons in Ha as [->|Ha].
    + exists (b :: l). split; [by econstructor|done].
    + destruct (IH Ha) as (l' & Hl' & Hs). exists l'. split; [done|]. by apply suffix_cons_r.
Qed.

Lemma dom_trans a b c : dom a b → dom b c → dom a c.
Proof.
  intros Hab Hbc l Hl. destruct (path_split l c b Hl (Hbc l Hl)) as (l' & Hl' & [k ->]).
  apply elem_of_app. right. by apply Hab.
Qed.

Lemma dom_reach a b : reach b → dom a b → reach a.
Proof.
  intros [l Hl]%reach_path Hd. destruct (path_split l b a Hl (Hd l Hl)) as (l' & Hl' & _).
  apply reach_path. by exists l'.
Qed.

(** * The search *)

Definition is_reached (r : list bool) (v : Z) : Prop := js_at r v = Some true.

(** Neighbours on the stack are joined by edges, and its bottom is the entry. *)
Inductive linked : list Z → Prop :=
  | linked_nil : linked []
  | linked_entry : linked [0]
  | linked_edge c p l : linked (p :: l) → edge p c → linked (c :: p :: l).

(** [a] comes before [b]. *)
Definition before (l : list Z) (a b : Z) : Prop := ∃ l1 l2, l = l1 ++ a :: l2 ∧ b ∈ l2.

Record searching (stack : list (Z * nat)) (r : list bool) (post : list Z) : Prop := {
  se_length : Z.of_nat (length r) = n;
  se_reached v : is_reached r v ↔ v ∈ stack.*1 ∨ v ∈ post;
  se_nodup : NoDup (stack.*1 ++ post);
  se_reach v : is_reached r v → reach v;
  se_entry : is_reached r 0;
  se_linked : linked stack.*1;
  se_last : stack = [] → last post = Some 0;
  se_parent v : v ∈ post → v ≠ 0 → ∃ p, edge p v ∧ (p ∈ stack.*1 ∨ before post v p);
  se_post v s : v ∈ post → edge v s → is_reached r s;
  se_frame v i j s : (v, i) ∈ stack → (j < i)%nat → succs v !! j = Some s → 0 ≤ s < n → is_reached r s }.

Lemma before_snoc l a b x : before l a b → before (l ++ [x]) a b.
Proof.
  intros (l1 & l2 & -> & Hb). exists l1, (l2 ++ [x]). split; [by rewrite <- app_assoc|].
  apply elem_of_app. by left.
Qed.

Lemma before_end l a x : a ∈ l → before (l ++ [x]) a x.
Proof.
  intros (l1 & l2 & ->)%list_elem_of_split. exists l1, (l2 ++ [x]).
  split; [by rewrite <- app_assoc|]. apply elem_of_app. right. left.
Qed.

Lemma is_reached_set r s v :
  0 ≤ s < Z.of_nat (length r) → is_reached (ta_set r s true) v ↔ v = s ∨ is_reached r v.
Proof.
  clear succs. intros Hs. unfold is_reached. rewrite js_at_ta_set. case_decide as Hd; naive_solver.
Qed.

Lemma unvisited_spec r s : unvisited r s = true ↔ 0 ≤ s < Z.of_nat (length r) ∧ ¬ is_reached r s.
Proof.
  unfold unvisited, is_reached. rewrite bool_decide_eq_true. split.
  - intros E. split; [by eapply js_at_lt|congruence].
  - intros [[x Hx]%js_at_is_Some Hn]. destruct x; congruence.
Qed.

Lemma search_push b i rest r post s :
  searching ((b, i) :: rest) r post → succs b !! i = Some s → unvisited r s = true →
  searching ((s, O) :: (b, S i) :: rest) (ta_set r s true) post.
Proof.
  intros Hse Hs [Hr Hv]%unvisited_spec. pose proof (se_length _ _ _ Hse) as Hlen.
  assert (edge b s) as He by (split; [by apply list_elem_of_lookup_2 in Hs|lia]).
  assert (∀ v, v ∈ ((s, O) :: (b, S i) :: rest).*1 ↔ v = s ∨ v ∈ ((b, i) :: rest).*1) as Hst.
  { intros v. csimpl. by rewrite !elem_of_cons. }
  split.
  - by rewrite length_ta_set.
  - intros v. rewrite is_reached_set, (se_reached _ _ _ Hse), Hst by done. tauto.
  - csimpl. apply NoDup_cons. split; [|exact (se_nodup _ _ _ Hse)].
    intros Hin. apply Hv. apply (se_reached _ _ _ Hse). csimpl. set_solver.
  - intros v. rewrite is_reached_set by done. intros [->|Hr']; [|by apply (se_reach _ _ _ Hse)].
    eapply reach_edge; [|exact He]. apply (se_reach _ _ _ Hse), (se_reached _ _ _ Hse). left. left.
  - rewrite is_reached_set by done. right. exact (se_entry _ _ _ Hse).
  - csimpl. constructor; [exact (se_linked _ _ _ Hse)|done].
  - done.
  - intros v Hp Hne. destruct (se_parent _ _ _ Hse v Hp Hne) as (p & Hep & [Hp'|Hp']); exists p; split; auto.
    left. apply Hst. by right.
  - intros v s' Hp He'. rewrite is_reached_set by done. right. by eapply (se_post _ _ _ Hse).
  - intros v k j s' Hin Hj Hs' Hr'. rewrite is_reached_set by done.
    apply elem_of_cons in Hin as [[= -> ->]|Hin]; [lia|]. apply elem_of_cons in Hin as [[= -> ->]|Hin].
    + destruct (decide (j = i)) as [->|]; [left; congruence|].
      right. eapply (se_frame _ _ _ Hse b i j); [left|lia|done|done].
    + right. eapply (se_frame _ _ _ Hse v k j); [by right|done..].
Qed.

Lemma search_skip b i rest r post s :
  searching ((b, i) :: rest) r post → succs b !! i = Some s → unvisited r s = false →
  searching ((b, S i) :: rest) r post.
Proof.
  intros Hse Hs Hu. destruct (id Hse). split; try done.
  - intros v k j s' Hin Hj Hs' Hr'. apply elem_of_cons in Hin as [[= -> ->]|Hin].
    + destruct (decide (j = i)) as [->|].
      * assert (s' = s) as -> by congruence. destruct (js_at r s) as [[|]|] eqn:E; [done| |].
        -- unfold unvisited in Hu. by rewrite E in Hu.
        -- assert (is_Some (js_at r s)) as [? ?]; [|congruence].
           apply js_at_is_Some. pose proof (se_length _ _ _ Hse). lia.
      * eapply (se_frame _ _ _ Hse b i j); [left|lia|done|done].
    + eapply (se_frame _ _ _ Hse v k j); [by right|done..].
Qed.

Lemma search_pop b i rest r post :
  searching ((b, i) :: rest) r post → succs b !! i = None → searching rest r (post ++ [b]).
Proof.
  intros Hse Hs. pose proof (se_linked _ _ _ Hse) as Hl. csimpl in Hl. split.
  - exact (se_length _ _ _ Hse).
  - intros v. rewrite (se_reached _ _ _ Hse). csimpl. rewrite elem_of_cons, elem_of_app, list_elem_of_singleton. tauto.
  - pose proof (se_nodup _ _ _ Hse) as Hn. csimpl in Hn. revert Hn. apply NoDup_Permutation_proper. by rewrite app_assoc, <- Permutation_cons_append.
  - exact (se_reach _ _ _ Hse).
  - exact (se_entry _ _ _ Hse).
  - inversion Hl; subst; [by constructor|done].
  - intros ->. rewrite last_snoc. csimpl in Hl. by inversion Hl.
  - intros v Hv Hne. apply elem_of_app in Hv as [Hv|Hv%list_elem_of_singleton].
    + destruct (se_parent _ _ _ Hse v Hv Hne) as (p & He & [Hp|Hp]); exists p; split; try done.
      * csimpl in Hp. apply elem_of_cons in Hp as [->|Hp]; [|by left]. right. by apply before_end.
      * right. by apply before_snoc.
    + subst v. inversion Hl as [| |c p l Hl' He]; [congruence|].
      exists p. split; [done|left; left].
  - intros v s Hv He. apply elem_of_app in Hv as [Hv|Hv%list_elem_of_singleton]; [by eapply (se_post _ _ _ Hse)|].
    subst v. destruct He as [[j Hj]%list_elem_of_lookup Hr].
    eapply (se_frame _ _ _ Hse b i j); [left| |done|done].
    apply lookup_ge_None in Hs. apply lookup_lt_Some in Hj. lia.
  - intros v k j s Hin. apply (se_frame _ _ _ Hse v k j). by right.
Qed.
(** Steps that the search may still take. *)
Definition cost (r : list bool) (v : Z) : nat := if unvisited r v then length (succs v) + 2 else 0.

Definition search_work (stack : list (Z * nat)) (r : list bool) : nat :=
  sum_list_with (cost r) (seqZ 0 n) + sum_list_with (λ f, S (length (succs f.1) - f.2)) stack.

Lemma sum_list_change {A} (f g : A → nat) l x d :
  NoDup l → x ∈ l → (f x = g x + d)%nat → (∀ y, y ≠ x → f y = g y) →
  sum_list_with f l = (sum_list_with g l + d)%nat.
Proof.
  intros Hn Hx Hd Hf. induction Hn as [|y l Hy Hn IH]; [by apply not_elem_of_nil in Hx|].
  cbn [sum_list_with]. apply elem_of_cons in Hx as [->|Hx].
  - rewrite Hd. assert (sum_list_with f l = sum_list_with g l) as ->; [|lia].
    clear -Hy Hf. induction l as [|z l IH]; [done|]. cbn [sum_list_with].
    apply not_elem_of_cons in Hy as [Hz Hy]. rewrite IH by done. by rewrite Hf.
  - rewrite (IH Hx), Hf by (intros ->; done). lia.
Qed.

Lemma work_push b i rest r post s :
  searching ((b, i) :: rest) r post → succs b !! i = Some s → unvisited r s = true →
  (search_work ((s, O) :: (b, S i) :: rest) (ta_set r s true) < search_work ((b, i) :: rest) r)%nat.
Proof.
  intros Hse Hs Hu. pose proof (proj1 (unvisited_spec r s) Hu) as [Hr _]. pose proof (se_length _ _ _ Hse).
  unfold search_work. cbn [sum_list_with fst snd].
  rewrite (sum_list_change (cost r) (cost (ta_set r s true)) (seqZ 0 n) s (length (succs s) + 2)).
  - apply lookup_lt_Some in Hs. lia.
  - apply NoDup_seqZ.
  - apply elem_of_seqZ. lia.
  - unfold cost. rewrite Hu. destruct (unvisited (ta_set r s true) s) eqn:E; [|lia].
    apply unvisited_spec in E as [_ E]. exfalso. apply E. apply is_reached_set; [done|by left].
  - intros y Hy. unfold cost, unvisited. rewrite js_at_ta_set. rewrite decide_False by (intros [-> _]; done). done.
Qed.

Definition found (r : list bool) (post : list Z) : Prop :=
  Z.of_nat (length r) = n ∧ NoDup post ∧ last post = Some 0 ∧
  (∀ v, is_reached r v ↔ v ∈ post) ∧ (∀ v, v ∈ post ↔ reach v) ∧
  ∀ v, v ∈ post → v ≠ 0 → ∃ p, edge p v ∧ before post v p.

Lemma search_end r post : searching [] r post → found r post.
Proof.
  intros Hse. assert (∀ v, is_reached r v ↔ v ∈ post) as Hv.
  { intros v. rewrite (se_reached _ _ _ Hse). csimpl. rewrite elem_of_nil. tauto. }
  split_and!; [apply Hse|apply Hse|by apply (se_last _ _ _ Hse)|done| |].
  - intros v. split; [intros Hp; by apply (se_reach _ _ _ Hse), Hv|].
    induction 1 as [|a b _ IH He]; apply Hv; [exact (se_entry _ _ _ Hse)|by apply (se_post _ _ _ Hse a)].
  - intros v Hp Hne. destruct (se_parent _ _ _ Hse v Hp Hne) as (p & He & [Hs|Hb]); [|by exists p].
    csimpl in Hs. by apply not_elem_of_nil in Hs.
Qed.

Lemma dfs_spec fuel stack r post :
  searching stack r post → (search_work stack r < fuel)%nat →
  ∃ r' post', dfs succs fuel stack r post = Ok (r', post') ∧ found r' post'.
Proof.
  revert stack r post. induction fuel as [|fuel IH]; intros stack r post Hse Hw; [lia|].
  cbn [dfs]. destruct stack as [|[b i] rest]; [exists r, post; split; [done|by apply search_end]|].
  destruct (succs b !! i) as [s|] eqn:Hs.
  - destruct (unvisited r s) eqn:Hu.
    + apply IH; [by eapply search_push|]. pose proof (work_push b i rest r post s Hse Hs Hu). lia.
    + apply IH; [by eapply search_skip|]. unfold search_work in *. cbn [sum_list_with fst snd] in *.
      apply lookup_lt_Some in Hs. lia.
  - apply IH; [by eapply search_pop|]. unfold search_work in *. cbn [sum_list_with fst snd] in *.
    apply lookup_ge_None in Hs. lia.
Qed.

Lemma search_start : 0 < n → searching [(0, O)] (ta_set (replicate (Z.to_nat n) false) 0 true) [].
Proof.
  intros Hn. assert (∀ v, is_reached (ta_set (replicate (Z.to_nat n) false) 0 true) v ↔ v = 0) as Hr.
  { intros v. rewrite is_reached_set by (rewrite length_replicate; lia). unfold is_reached.
    split; [|by left]. intros [|Hv]; [done|]. apply js_at_Some in Hv as [_ Hv].
    by apply lookup_replicate in Hv as [? _]. }
  split; csimpl; try done.
  - rewrite length_ta_set, length_replicate. lia.
  - intros v. rewrite Hr, list_elem_of_singleton, elem_of_nil. tauto.
  - apply NoDup_singleton.
  - intros v ->%Hr. by constructor.
  - by apply Hr.
  - constructor.
  - by intros v ?%not_elem_of_nil.
  - by intros v s ?%not_elem_of_nil.
  - intros v i j s Hin. apply list_elem_of_singleton in Hin as [= -> ->]. lia.
Qed.

Lemma search_ok edges :
  0 < n → (sum_list_with (λ v, length (succs v)) (seqZ 0 n) ≤ edges)%nat →
  ∃ r post,
    dfs succs (S (Z.to_nat n + Z.to_nat n + edges)) [(0, O)] (ta_set (replicate (Z.to_nat n) false) 0 true) []
    = Ok (r, post) ∧ found r post.
Proof.
  intros Hn He. apply dfs_spec; [by apply search_start|]. unfold search_work. cbn [sum_list_with fst snd].
  set (r := ta_set _ 0 true).
  assert (sum_list_with (cost r) (seqZ 0 n) + (length (succs 0) + 2)
          ≤ sum_list_with (λ v, length (succs v)) (seqZ 0 n) + 2 * Z.to_nat n)%nat; [|lia].
  assert (∀ l, NoDup l → (∀ v, v ∈ l → 0 ≤ v < n) →
    (sum_list_with (cost r) l + (if bool_decide (0%Z ∈ l) then length (succs 0) + 2 else 0)
     ≤ sum_list_with (λ v, length (succs v)) l + 2 * length l)%nat) as Hall.
  { intros l. induction l as [|v l IH]; intros Hd Hin; [simpl; lia|]. apply NoDup_cons in Hd as [Hv Hd].
    specialize (IH Hd ltac:(intros; apply Hin; by right)). cbn [sum_list_with length].
    destruct (decide (v = 0)) as [->|Hv0].
    - rewrite bool_decide_true by left. rewrite bool_decide_false in IH by done.
      assert (cost r 0 = 0%nat) as ->; [|lia]. unfold cost. destruct (unvisited r 0) eqn:E; [|done].
      apply unvisited_spec in E as [_ E]. exfalso. apply E. apply is_reached_set; [|by left].
      rewrite length_replicate. lia.
    - assert (bool_decide (0 ∈ v :: l) = bool_decide (0 ∈ l)) as ->.
      { apply bool_decide_ext. rewrite elem_of_cons. naive_solver. }
      assert (cost r v ≤ length (succs v) + 2)%nat; [|lia]. unfold cost. destruct (unvisited r v); lia. }
  specialize (Hall (seqZ 0 n) (NoDup_seqZ _ _) ltac:(intros v Hv; apply elem_of_seqZ in Hv; lia)).
  rewrite bool_decide_true in Hall by (apply elem_of_seqZ; lia). rewrite length_seqZ in Hall. lia.
Qed.
End graph.

(** * Reverse postorder *)

Lemma foldl_numbers l r i :
  NoDup l → (∀ b, b ∈ l → 0 ≤ b < Z.of_nat (length r)) →
  let r' := (foldl (λ '(rpoNum, i) b, (ta_set rpoNum b i, i + 1)) (r, i) l).1 in
  length r' = length r ∧
  (∀ k b, l !! k = Some b → js_at r' b = Some (i + Z.of_nat k)) ∧
  (∀ b, b ∉ l → js_at r' b = js_at r b).
Proof.
  revert r i. induction l as [|x l IH]; intros r i Hd Hr; cbv zeta; [by split_and!|].
  apply NoDup_cons in Hd as [Hx Hd]. cbn [foldl].
  destruct (IH (ta_set r x i) (i + 1) Hd) as (Hlen & Hk & Hn).
  { intros b Hb. rewrite length_ta_set. apply Hr. by right. }
  split_and!.
  - by rewrite Hlen, length_ta_set.
  - intros [|k] b Hb.
    + injection Hb as <-. rewrite Hn by done. rewrite js_at_ta_set, decide_True by (split; [done|apply Hr; left]).
      f_equal. lia.
    + rewrite (Hk k b Hb). f_equal. lia.
  - intros b [Hbx Hb]%not_elem_of_cons. rewrite Hn by done. rewrite js_at_ta_set, decide_False; [done|naive_solver].
Qed.

(** What the rest of the analysis uses of the order. *)
Record ordered (n : Z) (succs : Z → list Z) (rpo : list Z) (num : Z → Z) : Prop := {
  or_range b : reach n succs b → 0 ≤ num b < n;
  or_rpo k b : rpo !! k = Some b ↔ reach n succs b ∧ num b = Z.of_nat k;
  or_entry : num 0 = 0;
  or_parent b : reach n succs b → b ≠ 0 → ∃ p, reach n succs p ∧ edge n succs p b ∧ num p < num b }.

Lemma found_ordered n succs r post :
  found n succs r post →
  ∃ num, ordered n succs (reverse post) num ∧
    Z.of_nat (length (rpo_numbers n (reverse post))) = n ∧
    ∀ b, reach n succs b → js_at (rpo_numbers n (reverse post)) b = Some (num b).
Proof.
  intros (Hlen & Hd & Hlast & Hr & Hreach & Hp).
  assert (NoDup (reverse post)) as Hd' by (by rewrite reverse_Permutation).
  destruct (foldl_numbers (reverse post) (replicate (Z.to_nat n) (-1)) 0 Hd') as (Hl & Hk & _).
  { intros b Hb. rewrite elem_of_reverse in Hb. rewrite length_replicate. apply Hreach, reach_range in Hb. lia. }
  fold (rpo_numbers n (reverse post)) in Hl, Hk. rewrite length_replicate in Hl.
  set (num b := match js_at (rpo_numbers n (reverse post)) b with Some k => k | None => -1 end).
  assert (∀ b, reach n succs b → ∃ k, reverse post !! k = Some b ∧ js_at (rpo_numbers n (reverse post)) b = Some (num b)
                                      ∧ num b = Z.of_nat k) as Hnum.
  { intros b Hb. apply Hreach in Hb. rewrite <- elem_of_reverse in Hb. apply list_elem_of_lookup in Hb as [k Hb]. exists k. split; [done|].
    unfold num. rewrite (Hk k b Hb). split; [done|lia]. }
  assert (0 < n) as Hn.
  { apply last_Some in Hlast as [l ->]. assert (0 ∈ l ++ [0]) as H0 by set_solver.
    apply Hreach, reach_range in H0. lia. }
  exists num. split; [split|split].
  - intros b Hb. destruct (Hnum b Hb) as (k & Hkb & _ & ->). apply lookup_lt_Some in Hkb.
    assert (reverse post ⊆+ seqZ 0 n) as Hsub.
    { apply NoDup_submseteq; [done|]. intros x Hx. rewrite elem_of_reverse in Hx.
      apply Hreach, reach_range in Hx. apply elem_of_seqZ. lia. }
    apply submseteq_length in Hsub. rewrite length_seqZ in Hsub. lia.
  - intros k b. split.
    + intros Hb. assert (reach n succs b) as Hb' by (apply Hreach; rewrite <- elem_of_reverse; by eapply list_elem_of_lookup_2).
      split; [done|]. destruct (Hnum b Hb') as (k' & Hk' & _ & ->). by rewrite (NoDup_lookup _ _ _ _ Hd' Hb Hk').
    + intros [Hb E]. destruct (Hnum b Hb) as (k' & Hk' & _ & E'). by assert (k = k') as -> by lia.
  - assert (reverse post !! O = Some 0) as H0.
    { apply last_Some in Hlast as [l ->]. by rewrite reverse_snoc. }
    unfold num. rewrite (Hk _ _ H0). done.
  - intros b Hb Hne. destruct (Hp b ltac:(by apply Hreach) Hne) as (p & He & (l1 & l2 & -> & Hp2)).
    assert (reach n succs p) as Hpr by (apply Hreach, elem_of_app; right; by right).
    exists p. split_and!; [done|done|].
    destruct (Hnum b Hb) as (kb & Hkb & _ & ->). destruct (Hnum p Hpr) as (kp & Hkp & _ & ->).
    rewrite reverse_app, reverse_cons in Hkb, Hkp, Hd'. rewrite <- app_assoc in Hkb, Hkp, Hd'.
    rewrite <- elem_of_reverse in Hp2. apply list_elem_of_lookup in Hp2 as [j Hj].
    assert (kp = j) as ->.
    { eapply (NoDup_lookup _ _ _ _ Hd' Hkp). by apply lookup_app_l_Some. }
    assert (kb = length (reverse l2)) as ->.
    { eapply (NoDup_lookup _ _ _ _ Hd' Hkb). rewrite lookup_app_r by lia. by rewrite Nat.sub_diag. }
    apply lookup_lt_Some in Hj. lia.
  - lia.
  - intros b Hb. by destruct (Hnum b Hb) as (k & _ & E & _).
Qed.

(** * Arrays indexed by blocks *)

Definition holds {A} (n : Z) (l : list A) (f : Z → A) : Prop :=
  Z.of_nat (length l) = n ∧ ∀ b, 0 ≤ b < n → js_at l b = Some (f b).

Definition upd {A} (f : Z → A) (b : Z) (v : A) : Z → A := λ x, if decide (x = b) then v else f x.

Lemma upd_same {A} (f : Z → A) b v : upd f b v b = v.
Proof. unfold upd. by rewrite decide_True. Qed.

Lemma upd_other {A} (f : Z → A) b v x : x ≠ b → upd f b v x = f x.
Proof. intros Hx. unfold upd. by rewrite decide_False. Qed.

Lemma holds_upd {A} n (l : list A) f b v : holds n l f → 0 ≤ b < n → holds n (ta_set l b v) (upd f b v).
Proof.
  intros [Hlen Hl] Hb. split; [by rewrite length_ta_set|]. intros x Hx. rewrite js_at_ta_set. unfold upd.
  case_decide as Hd; case_decide as Hd'; try done.
  - destruct Hd. congruence.
  - subst x. exfalso. apply Hd. split; [done|lia].
  - by apply Hl.
Qed.

Lemma holds_replicate {A} n (v : A) : 0 ≤ n → holds n (replicate (Z.to_nat n) v) (λ _, v).
Proof.
  intros Hn. split; [rewrite length_replicate; lia|]. intros b Hb. apply js_at_Some.
  split; [lia|]. apply lookup_replicate. split; [done|lia].
Qed.

Lemma rd_holds {A} n (l : list A) f b : holds n l f → 0 ≤ b < n → rd l b = Ok (f b).
Proof. intros [_ Hl] Hb. unfold rd. by rewrite Hl. Qed.
