(* ===== verification/IrDomOk.v ===== *)
(** The idoms of src/ir/analysis/dominance.ts: each round of the loop keeps the
    parents a tree that holds all dominators, and the last round leaves the tree of
    the dominators; the rounds come to an end. *)

From S2P Require Import Prelude IrCfg IrDominance IrDomGraph.

(** * Trees of idoms *)

(** [a] is [b] or above it in the tree of parents [T]. *)
Inductive anc (T : Z → Z) (a : Z) : Z → Prop :=
  | anc_refl : anc T a a
  | anc_up b : b ≠ 0 → anc T a (T b) → anc T a b.

Section trees.
Context (n : Z) (succs : Z → list Z) (rpo : list Z) (num : Z → Z).
Context (Hord : ordered n succs rpo num).

(** The parents that a round has set so far; [-1] is a block without one. *)
Record tree (T : Z → Z) : Prop := {
  tr_reach b : T b ≠ -1 → reach n succs b;
  tr_entry : T 0 = 0;
  tr_up b : T b ≠ -1 → b ≠ 0 → T (T b) ≠ -1 ∧ num (T b) < num b }.

Lemma num_inj a b : reach n succs a → reach n succs b → num a = num b → a = b.
Proof.
  intros Ha Hb E. pose proof (or_range _ _ _ _ Hord a Ha) as Hr.
  assert (rpo !! Z.to_nat (num a) = Some a) as Ea by (apply (or_rpo _ _ _ _ Hord); split; [done|lia]).
  assert (rpo !! Z.to_nat (num a) = Some b) as Eb by (apply (or_rpo _ _ _ _ Hord); split; [done|lia]).
  congruence.
Qed.

(** Induction on the order. *)
Lemma num_ind (P : Z → Prop) :
  (∀ b, reach n succs b → (∀ a, reach n succs a → num a < num b → P a) → P b) → ∀ b, reach n succs b → P b.
Proof.
  intros Hstep b Hb. pose proof (or_range _ _ _ _ Hord b Hb) as Hr.
  remember (Z.to_nat (num b)) as k eqn:Ek. revert b Hb Hr Ek. induction (lt_wf k) as [k _ IH].
  intros b Hb Hr Ek. apply Hstep; [done|]. intros a Ha Hlt. pose proof (or_range _ _ _ _ Hord a Ha).
  apply (IH (Z.to_nat (num a))); try done. lia.
Qed.

Lemma tree_ind T (P : Z → Prop) :
  tree T → P 0 → (∀ b, T b ≠ -1 → b ≠ 0 → P (T b) → P b) → ∀ b, T b ≠ -1 → P b.
Proof.
  intros HT H0 Hstep b Hb. pose proof (tr_reach _ HT b Hb) as Hr. revert b Hr Hb.
  apply (num_ind (λ b, T b ≠ -1 → P b)). intros b Hr IH Hb.
  destruct (decide (b = 0)) as [->|Hne]; [done|]. destruct (tr_up _ HT b Hb Hne) as [Hp Hlt].
  apply Hstep; [done..|]. apply IH; [by apply (tr_reach _ HT)|done|done].
Qed.

Lemma anc_trans T a b c : anc T a b → anc T b c → anc T a c.
Proof. intros Hab. induction 1; [done|by constructor]. Qed.

Lemma anc_cases T a b : anc T a b ↔ a = b ∨ b ≠ 0 ∧ anc T a (T b).
Proof. split; [intros []; auto|]. intros [->|[? ?]]; by constructor. Qed.

Lemma anc_num T a b : tree T → T b ≠ -1 → anc T a b → T a ≠ -1 ∧ (a = b ∨ num a < num b).
Proof.
  intros HT Hb Ha. induction Ha as [|b Hne Ha IH]; [by auto|]. destruct (tr_up _ HT b Hb Hne) as [Hp Hlt].
  destruct (IH Hp) as [Hta [->|Hlt']]; split; try done; right; lia.
Qed.

Lemma anc_root T b : tree T → T b ≠ -1 → anc T 0 b.
Proof. intros HT. apply (tree_ind T); [done|constructor|]. intros c _ Hne H. by constructor. Qed.

Lemma anc_antisym T a b : tree T → T a ≠ -1 → T b ≠ -1 → anc T a b → anc T b a → a = b.
Proof.
  intros HT Ha Hb Hab Hba. apply anc_num in Hab as [_ [|]]; [done| |done|done].
  apply anc_num in Hba as [_ [|]]; [done|lia|done|done].
Qed.

Lemma anc_linear T a b c : anc T a c → anc T b c → anc T a b ∨ anc T b a.
Proof.
  intros Ha. induction Ha as [|c Hne Ha IH]; intros Hb; [by right|].
  apply anc_cases in Hb as [->|[_ Hb]]; [left; by constructor|auto].
Qed.

(** Trees that agree below [c] agree on what is above it. *)
Lemma anc_agree T T' a b :
  tree T → T b ≠ -1 → (∀ c, T c ≠ -1 → num c ≤ num b → T' c = T c) → anc T a b ↔ anc T' a b.
Proof.
  intros HT Hb. revert b Hb. apply (tree_ind T (λ b, (∀ c, T c ≠ -1 → num c ≤ num b → T' c = T c) → anc T a b ↔ anc T' a b) HT).
  - intros _. rewrite (anc_cases T a), (anc_cases T' a). split; (intros [->|[? _]]; [by left|done]).
  - intros b Hb Hne IH Hag. rewrite (anc_cases T a), (anc_cases T' a). rewrite (Hag b Hb) by lia. rewrite IH; [done|].
    intros c Hc Hlt. apply Hag; [done|]. destruct (tr_up _ HT b Hb Hne). lia.
Qed.

(** * Meeting in the tree *)

Context (rpoNum : list Z) (Hnum : ∀ b, reach n succs b → js_at rpoNum b = Some (num b)).

Lemma rd_num b : reach n succs b → rd rpoNum b = Ok (num b).
Proof. intros Hb. unfold rd. by rewrite Hnum. Qed.

Lemma climb_spec l T fuel x y :
  holds n l T → tree T → T x ≠ -1 → reach n succs y → num x < Z.of_nat fuel →
  ∃ x', climb fuel rpoNum l x y = Ok x' ∧ T x' ≠ -1 ∧ num x' ≤ num x ∧ num x' ≤ num y ∧
    ∀ a, anc T a x → (num a ≤ num y ∧ anc T a x' ∨ num y < num a) ∧ anc T x' x.
Proof.
  intros Hl HT Hx Hy. revert x Hx. induction fuel as [|fuel IH]; intros x Hx Hf.
  { apply (tr_reach _ HT) in Hx. pose proof (or_range _ _ _ _ Hord x Hx). lia. }
  pose proof (tr_reach _ HT x Hx) as Hxr. pose proof (or_range _ _ _ _ Hord y Hy).
  cbn [climb]. rewrite !rd_num by done. cbn [mbind result_bind].
  destruct (Z.ltb_spec (num y) (num x)) as [Hlt|Hle].
  - assert (x ≠ 0) as Hne by (intros ->; rewrite (or_entry _ _ _ _ Hord) in Hlt; lia).
    destruct (tr_up _ HT x Hx Hne) as [Hp Hpn].
    rewrite (rd_holds n l T x Hl) by (by apply reach_range in Hxr). cbn [mbind result_bind].
    destruct (IH (T x) Hp ltac:(lia)) as (x' & -> & Hx' & Hle & Hle' & Ha).
    exists x'. split_and!; [done|done|lia|done|]. intros a Hax. apply anc_cases in Hax as [->|[_ Hax]].
    + split; [right; lia|]. constructor; [done|]. by apply (Ha (T x)); constructor.
    + destruct (Ha a Hax) as [H1 H2]. split; [done|]. by constructor.
  - exists x. split_and!; try done; try lia. intros a Hax. split; [|constructor].
    left. split; [|done]. apply anc_num in Hax as [_ [->|]]; [done|lia|done|done].
Qed.

Lemma climb_meet l T fuel x y :
  holds n l T → tree T → T x ≠ -1 → T y ≠ -1 → num x < Z.of_nat fuel →
  ∃ x', climb fuel rpoNum l x y = Ok x' ∧ T x' ≠ -1 ∧ num x' ≤ num x ∧ num x' ≤ num y ∧
    ∀ a, anc T a x' ∧ anc T a y ↔ anc T a x ∧ anc T a y.
Proof.
  intros Hl HT Hx Hy Hf.
  destruct (climb_spec l T fuel x y Hl HT Hx (tr_reach _ HT y Hy) Hf) as (x' & E & Hx' & H1 & H2 & Ha).
  exists x'. split_and!; [done..|]. intros a. split; intros [Hax Hay]; split; try done.
  - eapply anc_trans; [exact Hax|]. by apply (Ha x); constructor.
  - destruct (Ha a Hax) as [[[_ ?]|Hlt] _]; [done|]. apply anc_num in Hay as [_ [->|]]; [lia|lia|done|done].
Qed.

Lemma intersect_spec l T fuel x y :
  holds n l T → tree T → T x ≠ -1 → T y ≠ -1 → Z.max (num x) (num y) < Z.of_nat fuel →
  ∃ z, intersect n fuel rpoNum l x y = Ok z ∧ T z ≠ -1 ∧ ∀ a, anc T a z ↔ anc T a x ∧ anc T a y.
Proof.
  intros Hl HT. revert x y. induction fuel as [|fuel IH]; intros x y Hx Hy Hf;
    pose proof (or_range _ _ _ _ Hord x (tr_reach _ HT x Hx)) as Hxr;
    pose proof (or_range _ _ _ _ Hord y (tr_reach _ HT y Hy)) as Hyr; [lia|].
  cbn [intersect]. destruct (Z.eqb_spec x y) as [->|Hne].
  { exists y. split_and!; [done..|]. tauto. }
  assert (num x ≠ num y) as Hnn by (intros E; apply Hne; apply num_inj; try done; by apply (tr_reach _ HT)).
  destruct (climb_meet l T (S (Z.to_nat n)) x y) as (x' & -> & Hx' & Hle1 & Hle2 & Ha); try done; [lia|].
  cbn [mbind result_bind].
  destruct (climb_meet l T (S (Z.to_nat n)) y x') as (y' & -> & Hy' & Hle3 & Hle4 & Hb); try done; [lia|].
  cbn [mbind result_bind].
  destruct (IH x' y' Hx' Hy' ltac:(lia)) as (z & -> & Hz & Hc).
  exists z. split_and!; [done..|]. intros a. rewrite Hc. specialize (Ha a). specialize (Hb a). tauto.
Qed.
(** * Rounds *)

Definition pred (p b : Z) : Prop := reach n succs p ∧ edge n succs p b.

Context (preds : list (list Z)).
Context (Hpreds : ∀ b, reach n succs b → ∃ ps, js_at preds b = Some ps ∧ ∀ p, p ∈ ps ↔ pred p b).

Lemma pred_reach p b : pred p b → reach n succs b.
Proof. intros [Hp He]. by eapply reach_edge. Qed.

Lemma merge_preds l T ps z0 :
  holds n l T → tree T → (z0 = -1 ∨ T z0 ≠ -1) → (∀ p, p ∈ ps → reach n succs p) →
  ∃ z, for_each ps (merge_pred n rpoNum l) z0 = Ok z ∧
    ((z = -1 ∧ z0 = -1 ∧ ∀ p, p ∈ ps → T p = -1) ∨
     (T z ≠ -1 ∧ ∀ a, anc T a z ↔ (z0 = -1 ∨ anc T a z0) ∧ ∀ p, p ∈ ps → T p ≠ -1 → anc T a p)).
Proof.
  intros Hl HT. revert z0. induction ps as [|p ps IH]; intros z0 Hz0 Hps.
  { exists z0. split; [done|]. destruct (decide (z0 = -1)) as [->|Hne].
    - left. split_and!; try done. by intros p ?%not_elem_of_nil.
    - right. destruct Hz0 as [|Hz0]; [done|]. split; [done|]. intros a. split.
      + intros Ha. split; [by right|]. by intros p ?%not_elem_of_nil.
      + intros [[|Ha] _]; done. }
  assert (reach n succs p) as Hp by (apply Hps; left).
  assert (∀ q, q ∈ ps → reach n succs q) as Hps' by (intros q Hq; apply Hps; by right).
  cbn [for_each].
  assert (merge_pred n rpoNum l p z0 = if T p =? -1 then Ok z0 else if z0 =? -1 then Ok p
          else intersect n (S (Z.to_nat n)) rpoNum l z0 p) as ->.
  { unfold merge_pred. by rewrite (rd_holds n l T p Hl) by (by eapply reach_range). }
  destruct (Z.eqb_spec (T p) (-1)) as [Hun|Hpr].
  { cbn [mbind result_bind]. destruct (IH z0 Hz0 Hps') as (z & -> & [(? & ? & Hall)|(Hz & Ha)]); exists z; (split; [done|]).
    - left. split_and!; try done. intros q [->|Hq]%elem_of_cons; [done|by apply Hall].
    - right. split; [done|]. intros a. rewrite Ha. split; intros [H1 H2]; (split; [done|]).
      + intros q [->|Hq]%elem_of_cons; [done|by apply H2].
      + intros q Hq. apply H2. by right. }
  destruct (Z.eqb_spec z0 (-1)) as [->|Hz0'].
  { cbn [mbind result_bind]. destruct (IH p ltac:(by right) Hps') as (z & -> & [(-> & -> & _)|(Hz & Ha)]).
    - apply reach_range in Hp. lia.
    - exists z. split; [done|]. right. split; [done|]. intros a. rewrite Ha. split.
      + intros [[-> |H1] H2]; [apply reach_range in Hp; lia|]. split; [by left|].
        intros q [->|Hq]%elem_of_cons; [done|by apply H2].
      + intros [_ H2]. split; [right; apply H2; [left|done]|]. intros q Hq. apply H2. by right. }
  destruct Hz0 as [|Hz0]; [done|].
  destruct (intersect_spec l T (S (Z.to_nat n)) z0 p Hl HT Hz0 Hpr) as (w & -> & Hw & Hwa).
  { pose proof (or_range _ _ _ _ Hord _ (tr_reach _ HT _ Hz0)). pose proof (or_range _ _ _ _ Hord _ Hp). lia. }
  cbn [mbind result_bind]. destruct (IH w ltac:(by right) Hps') as (z & -> & [(-> & -> & _)|(Hz & Ha)]).
  - apply (tr_reach _ HT), reach_range in Hw. lia.
  - exists z. split; [done|]. right. split; [done|]. intros a. rewrite Ha, Hwa. split.
    + intros [[-> |[H1 H2]] H3]; [apply (tr_reach _ HT), reach_range in Hw; lia|].
      split; [by right|]. intros q [->|Hq]%elem_of_cons; [done|by apply H3].
    + intros [[|H1] H2]; [done|]. split; [right; split; [done|apply H2; [left|done]]|]. intros q Hq. apply H2. by right.
Qed.

(** The meet of the parents that have been seen. *)
Definition meets (T : Z → Z) (b q : Z) : Prop :=
  ∀ a, anc T a q ↔ ∀ p, pred p b → T p ≠ -1 → anc T a p.

Lemma update_spec l T ch b :
  holds n l T → tree T → reach n succs b → b ≠ 0 →
  (∃ p, pred p b ∧ T p ≠ -1 ∧ num p < num b) →
  ∃ q l', T q ≠ -1 ∧ num q < num b ∧ meets T b q ∧ holds n l' (upd T b q) ∧
    update_block n rpoNum preds b (l, ch) = Ok (l', if decide (T b = q) then ch else true).
Proof.
  intros Hl HT Hb Hne (p0 & Hp0 & Hp0T & Hlt). unfold update_block. cbn [fst snd].
  destruct (Z.eqb_spec b 0); [done|]. destruct (Hpreds b Hb) as (ps & Hps & Hin).
  assert (rd preds b = Ok ps) as -> by (unfold rd; by rewrite Hps). cbn [mbind result_bind].
  destruct (merge_preds l T ps (-1) Hl HT ltac:(by left)) as (q & -> & [(-> & _ & Hall)|(Hq & Ha)]).
  { intros p Hp. by apply Hin in Hp as [? _]. }
  { exfalso. apply Hp0T, Hall. by apply Hin. }
  cbn [mbind result_bind]. assert (meets T b q) as Hm.
  { intros a. rewrite Ha. split.
    - intros [_ H2] p Hp. apply H2. by apply Hin.
    - intros H2. split; [by left|]. intros p Hp. apply H2. by apply Hin. }
  assert (num q < num b) as Hqb.
  { assert (anc T q p0) as Hqp by (apply Hm; [constructor|done..]).
    apply anc_num in Hqp as [_ [->|]]; [done|lia|done|done]. }
  pose proof (reach_range _ _ _ Hb) as Hr. rewrite (rd_holds n l T b Hl Hr). cbn [mbind result_bind].
  assert (q ≠ -1) as Hq1 by (apply (tr_reach _ HT), reach_range in Hq; lia).
  destruct (Z.eqb_spec q (-1)); [done|]. cbn [negb andb].
  destruct (decide (T b = q)) as [E|E].
  - exists q, l. split_and!; try done.
    + split; [apply Hl|]. intros x Hx. unfold upd. case_decide; [subst x|]; rewrite (proj2 Hl) by done; congruence.
    + rewrite decide_True by done. by destruct (Z.eqb_spec (T b) q).
  - exists q, (ta_set l b q). split_and!; try done; [by apply holds_upd|].
    rewrite decide_False by done. by destruct (Z.eqb_spec (T b) q).
Qed.

Record good (T : Z → Z) : Prop := {
  go_tree : tree T;
  go_forward b p : T b ≠ -1 → b ≠ 0 → pred p b → num p < num b → T p ≠ -1 ∧ anc T (T b) p;
  go_dom b d : T b ≠ -1 → dom n succs d b → anc T d b }.

Lemma forward_pred b : reach n succs b → b ≠ 0 → ∃ t, pred t b ∧ reach n succs t ∧ num t < num b.
Proof. intros Hb Hne. destruct (or_parent _ _ _ _ Hord b Hb Hne) as (t & Ht & He & Hlt). by exists t. Qed.

(** A dominator that is above [u] dominates it. *)
Lemma dom_descent T u d x :
  good T → T x ≠ -1 → anc T u x → dom n succs d x → anc T d u → dom n succs d u.
Proof.
  intros HG Hx. pose proof (go_tree _ HG) as HT. pose proof (tr_reach _ HT _ Hx) as Hr. revert x Hr Hx.
  apply (num_ind (λ x, T x ≠ -1 → anc T u x → dom n succs d x → anc T d u → dom n succs d u)).
  intros x Hr IH Hx Hux Hdx Hdu. pose proof Hux as Hux'. apply anc_cases in Hux as [->|[Hne Hux]]; [done|].
  destruct (forward_pred x Hr Hne) as (t & Ht & Htr & Hlt).
  destruct (go_forward _ HG x t Hx Hne Ht Hlt) as [Htp Hat].
  apply (IH t Htr Hlt Htp); [eapply anc_trans; [exact Hux|exact Hat]| |done].
  eapply dom_pred; [apply Ht|exact Hdx|]. intros ->.
  destruct (tr_up _ HT x Hx Hne) as [Hp Hpl]. destruct (anc_num T u (T x) HT Hp Hux) as [Hu Hle].
  destruct (anc_num T x u HT Hu Hdu) as [_ Hle'].
  assert (num u ≤ num (T x)) by (destruct Hle as [E|]; [by rewrite E|lia]).
  assert (num x ≤ num u) by (destruct Hle' as [E|]; [by rewrite E|lia]). lia.
Qed.

(** What is above [s] now was above each block that was above [s] before. *)
Lemma anc_descent P T a w s :
  good P → good T → P s ≠ -1 → T s ≠ -1 → anc P w s → anc T a s → anc P a w → anc T a w.
Proof.
  intros HP HT Hs. pose proof (tr_reach _ (go_tree _ HP) _ Hs) as Hr. revert s Hr Hs.
  apply (num_ind (λ s, P s ≠ -1 → T s ≠ -1 → anc P w s → anc T a s → anc P a w → anc T a w)).
  intros s Hr IH HPs HTs Hw Ha Haw. apply anc_cases in Hw as [->|[Hne Hw]]; [done|].
  destruct (forward_pred s Hr Hne) as (t & Ht & Htr & Hlt).
  destruct (go_forward _ HP s t HPs Hne Ht Hlt) as [HPt HPat].
  destruct (go_forward _ HT s t HTs Hne Ht Hlt) as [HTt HTat].
  apply (IH t Htr Hlt HPt HTt); [eapply anc_trans; [exact Hw|exact HPat]| |done].
  apply anc_cases in Ha as [->|[_ Ha]]; [|eapply anc_trans; [exact Ha|exact HTat]]. exfalso.
  destruct (tr_up _ (go_tree _ HP) s HPs Hne) as [Hp Hpl].
  destruct (anc_num P w (P s) (go_tree _ HP) Hp Hw) as [Hwp Hle].
  destruct (anc_num P s w (go_tree _ HP) Hwp Haw) as [_ Hle'].
  assert (num w ≤ num (P s)) by (destruct Hle as [E|]; [by rewrite E|lia]).
  assert (num s ≤ num w) by (destruct Hle' as [E|]; [by rewrite E|lia]). lia.
Qed.

(** The tree in the middle of a round: [F] below [m], [T] from there on. *)
Definition mix (F T : Z → Z) (m : Z) : Z → Z := λ x, if num x <? m then F x else T x.

Lemma anc_ext T T' a b : (∀ x, T x = T' x) → anc T a b ↔ anc T' a b.
Proof.
  intros He. split; induction 1 as [|b Hne _ IH]; try (by constructor); constructor; try done;
    [by rewrite <- He|by rewrite He].
Qed.

Definition full (T : Z → Z) : Prop := ∀ b, reach n succs b → T b ≠ -1.

(** Round [T] followed round [P]. *)
Record history (P T : Z → Z) : Prop := {
  hi_old : good P;
  hi_new : good T;
  hi_full : full T;
  hi_mono a b : P b ≠ -1 → anc T a b → anc P a b;
  hi_meet a b : reach n succs b → b ≠ 0 →
    (∀ p, pred p b → P p ≠ -1 ∨ num p < num b → anc (mix T P (num b)) a p) → anc T a (T b) }.

(** Nothing but the entry has a parent. *)
Definition start_tree : Z → Z := λ b, if decide (b = 0) then 0 else -1.

Definition prior (T : Z → Z) : Prop := (∀ b, T b = start_tree b) ∨ ∃ P, history P T.

Record midway (T F : Z → Z) (m : Z) : Prop := {
  mi_tree : tree F;
  mi_agree b : reach n succs b → m ≤ num b → F b = T b;
  mi_done b : reach n succs b → num b < m → F b ≠ -1;
  mi_meet b : reach n succs b → b ≠ 0 → num b < m →
    ∀ a, anc F a (F b) ↔ ∀ p, pred p b → T p ≠ -1 ∨ num p < num b → anc (mix F T (num b)) a p;
  mi_dom b d : reach n succs b → num b < m → dom n succs d b → anc F d b;
  mi_mono a b : T b ≠ -1 → num b < m → anc F a b → anc T a b }.
Lemma mix_now T F m x : tree T → midway T F m → mix F T m x = F x.
Proof.
  intros HT HM. unfold mix. destruct (Z.ltb_spec (num x) m); [done|].
  destruct (decide (F x = -1)) as [E|E]; [destruct (decide (T x = -1)) as [E'|E']; [congruence|]|].
  - symmetry. apply (mi_agree _ _ _ HM); [by apply (tr_reach _ HT)|done].
  - symmetry. apply (mi_agree _ _ _ HM); [by apply (tr_reach _ (mi_tree _ _ _ HM))|done].
Qed.

Lemma seen_now T F m p : midway T F m → reach n succs p → F p ≠ -1 ↔ T p ≠ -1 ∨ num p < m.
Proof.
  intros HM Hp. destruct (decide (num p < m)) as [Hlt|Hge].
  - split; [by right|]. intros _. by apply (mi_done _ _ _ HM).
  - rewrite (mi_agree _ _ _ HM p Hp) by lia. split; [by left|]. by intros [|].
Qed.

Lemma midway_mono T F m a p : tree T → midway T F m → F p ≠ -1 → T p ≠ -1 → anc F a p → anc T a p.
Proof.
  intros HT HM Hp. pose proof (mi_tree _ _ _ HM) as HF. revert p Hp.
  apply (tree_ind F (λ p, T p ≠ -1 → anc F a p → anc T a p) HF).
  - intros _ Ha. apply anc_cases in Ha as [->|[? _]]; [constructor|done].
  - intros p Hp Hne IH HTp Ha. destruct (decide (num p < m)) as [Hlt|Hge]; [by apply (mi_mono _ _ _ HM)|].
    assert (F p = T p) as E by (apply (mi_agree _ _ _ HM); [by apply (tr_reach _ HF)|lia]).
    apply anc_cases in Ha as [->|[_ Ha]]; [constructor|]. constructor; [done|]. rewrite <- E.
    apply IH; [|done]. rewrite E. by apply (tr_up _ HT).
Qed.

Lemma midway_dom T F m d p : good T → midway T F m → F p ≠ -1 → dom n succs d p → anc F d p.
Proof.
  intros HG HM Hp. pose proof (mi_tree _ _ _ HM) as HF. revert p Hp.
  apply (tree_ind F (λ p, dom n succs d p → anc F d p) HF).
  - intros Hd. apply (dom_entry n succs) in Hd as ->; [constructor|].
    pose proof (tr_entry _ HF) as H0. assert (F 0 ≠ -1) as Hr by lia. apply (tr_reach _ HF), reach_range in Hr. lia.
  - intros p Hp Hne IH Hd. pose proof (tr_reach _ HF _ Hp) as Hr.
    destruct (decide (num p < m)) as [Hlt|Hge]; [by apply (mi_dom _ _ _ HM)|].
    assert (F p = T p) as E by (apply (mi_agree _ _ _ HM); [done|lia]).
    assert (T p ≠ -1) as HTp by congruence.
    pose proof (go_dom _ HG p d HTp Hd) as Ha. apply anc_cases in Ha as [->|[_ Ha]]; [constructor|].
    constructor; [done|]. apply IH. rewrite E.
    apply (dom_descent T (T p) d p HG HTp); [by repeat constructor|done|done].
Qed.

Lemma mix_above P T m a p :
  history P T → P p ≠ -1 → anc T a p → anc P a p → anc (mix T P m) a p.
Proof.
  intros HH Hp. pose proof (go_tree _ (hi_old _ _ HH)) as HP. pose proof (go_tree _ (hi_new _ _ HH)) as HT. revert p Hp.
  apply (tree_ind P (λ p, anc T a p → anc P a p → anc (mix T P m) a p) HP).
  - intros _ Ha. apply anc_cases in Ha as [->|[? _]]; [constructor|done].
  - intros p Hp Hne IH HaT HaP. pose proof (tr_reach _ HP _ Hp) as Hr.
    assert (T p ≠ -1) as HTp by (by apply (hi_full _ _ HH)).
    destruct (decide (num p < m)) as [Hlt|Hge].
    + apply (anc_agree T (mix T P m) a p HT HTp); [|done]. intros c _ Hc. unfold mix. destruct (Z.ltb_spec (num c) m); [done|lia].
    + apply anc_cases in HaP as [->|[_ HaP]]; [constructor|]. constructor; [done|].
      assert (mix T P m p = P p) as -> by (unfold mix; destruct (Z.ltb_spec (num p) m); [lia|done]).
      apply IH; [|done]. apply (anc_descent P T a (P p) p); try done; try by apply HH. by repeat constructor.
Qed.

(** One step of a round. *)
Section step.
Context (T F : Z → Z) (c q : Z).
Hypothesis HG : good T.
Hypothesis HH : prior T.
Hypothesis Hc : reach n succs c.
Hypothesis Hc0 : c ≠ 0.
Hypothesis HM : midway T F (num c).
Hypothesis Hq : F q ≠ -1.
Hypothesis Hqc : num q < num c.
Hypothesis Hmeet : meets F c q.

Let F' := upd F c q.

Lemma step_other x : x ≠ c → F' x = F x.
Proof. intros Hx. by apply upd_other. Qed.

Lemma step_here : F' c = q.
Proof. by apply upd_same. Qed.

Lemma step_below a x : F x ≠ -1 → num x < num c → anc F a x ↔ anc F' a x.
Proof.
  intros Hx Hlt. apply anc_agree; [exact (mi_tree _ _ _ HM)|done|].
  intros y _ Hy. apply step_other. intros ->. lia.
Qed.

Lemma step_tree : tree F'.
Proof.
  pose proof (mi_tree _ _ _ HM) as HF. split.
  - intros b Hb. destruct (decide (b = c)) as [->|Hne]; [done|]. rewrite step_other in Hb by done. by apply (tr_reach _ HF).
  - rewrite step_other by done. apply HF.
  - intros b Hb Hb0. destruct (decide (b = c)) as [->|Hne].
    + rewrite step_here. split; [|done]. rewrite step_other; [done|]. intros ->. lia.
    + rewrite step_other in Hb by done. rewrite (step_other b) by done. destruct (tr_up _ HF b Hb Hb0) as [Hp Hlt].
      split; [|done]. destruct (decide (F b = c)) as [E|E]; [|by rewrite step_other].
      rewrite E, step_here. apply (tr_reach _ HF), reach_range in Hq. lia.
Qed.

Lemma step_mix a k x : k ≤ num c → anc (mix F T k) a x ↔ anc (mix F' T k) a x.
Proof.
  intros Hk. apply anc_ext. intros y. unfold mix. destruct (Z.ltb_spec (num y) k); [|done].
  rewrite step_other; [done|]. intros ->. lia.
Qed.

Lemma step_meet a :
  anc F' a q ↔ ∀ p, pred p c → T p ≠ -1 ∨ num p < num c → anc (mix F' T (num c)) a p.
Proof.
  rewrite <- step_below by done. rewrite (Hmeet a). split; intros Hall p Hp Hs.
  - rewrite <- step_mix by lia. apply (anc_ext (mix F T (num c)) F a p); [by intros; apply mix_now; [apply HG|]|].
    apply Hall; [done|]. by apply (seen_now T F (num c) p HM (proj1 Hp)).
  - apply (anc_ext (mix F T (num c)) F a p); [by intros; apply mix_now; [apply HG|]|].
    apply step_mix; [lia|]. apply Hall; [done|]. by apply (seen_now T F (num c) p HM (proj1 Hp)).
Qed.

Lemma step_dom d : dom n succs d c → anc F' d c.
Proof.
  intros Hd. apply anc_cases. destruct (decide (d = c)) as [->|Hne]; [by left|right]. split; [done|].
  rewrite step_here. apply step_below; [done|done|]. apply Hmeet. intros p Hp Hs.
  apply (midway_dom T F (num c)); try done. by eapply dom_pred; [apply Hp| |].
Qed.

Lemma step_mono a : T c ≠ -1 → anc F' a c → anc T a c.
Proof.
  intros HTc Ha. apply anc_cases in Ha as [->|[_ Ha]]; [constructor|]. rewrite step_here in Ha.
  apply step_below in Ha; [|done..]. destruct HH as [Hstart|[P HP]].
  { exfalso. rewrite Hstart in HTc. unfold start_tree in HTc. by rewrite decide_False in HTc. }
  constructor; [done|]. apply (hi_meet _ _ HP); [done..|]. intros p Hp Hs.
  pose proof (hi_full _ _ HP p (proj1 Hp)) as HTp.
  assert (F p ≠ -1) as HFp by (apply (seen_now T F (num c) p HM (proj1 Hp)); by left).
  assert (anc F a p) as HaF by (by apply (Hmeet a)).
  pose proof (midway_mono T F (num c) a p (go_tree _ HG) HM HFp HTp HaF) as HaT.
  destruct Hs as [Hs|Hs].
  - apply mix_above; [done|done|done|]. by apply (hi_mono _ _ HP).
  - apply (anc_agree T (mix T P (num c)) a p (go_tree _ HG) HTp); [|done].
    intros y _ Hy. unfold mix. destruct (Z.ltb_spec (num y) (num c)); [done|lia].
Qed.

Lemma step_midway : midway T F' (num c + 1).
Proof.
  assert (∀ b, reach n succs b → num b < num c + 1 → b = c ∨ num b < num c) as Hcase.
  { intros b Hb Hlt. destruct (decide (num b = num c)) as [E|]; [left; by apply num_inj|right; lia]. }
  split.
  - exact step_tree.
  - intros b Hb Hm. rewrite step_other by (intros ->; lia). apply (mi_agree _ _ _ HM); [done|lia].
  - intros b Hb Hm. destruct (Hcase b Hb Hm) as [->|Hlt].
    + rewrite step_here. apply (tr_reach _ (mi_tree _ _ _ HM)), reach_range in Hq. lia.
    + rewrite step_other by (intros ->; lia). by apply (mi_done _ _ _ HM).
  - intros b Hb Hb0 Hm. destruct (Hcase b Hb Hm) as [->|Hlt].
    + intros a. rewrite step_here. apply step_meet.
    + intros a. rewrite (step_other b) by (intros ->; lia).
      pose proof (mi_done _ _ _ HM b Hb Hlt) as HFb. destruct (tr_up _ (mi_tree _ _ _ HM) b HFb Hb0) as [Hp Hpl].
      rewrite <- step_below by (done || lia). rewrite (mi_meet _ _ _ HM b Hb Hb0 Hlt a).
      split; intros Hall p Hp' Hs; apply step_mix; try lia; by apply Hall.
  - intros b d Hb Hm Hd. destruct (Hcase b Hb Hm) as [->|Hlt]; [by apply step_dom|].
    apply step_below; [by apply (mi_done _ _ _ HM)|done|]. by apply (mi_dom _ _ _ HM).
  - intros a b HTb Hlt Ha. pose proof (tr_reach _ (go_tree _ HG) _ HTb) as Hb.
    destruct (Hcase b Hb Hlt) as [->|Hlt']; [by apply step_mono|].
    apply (mi_mono _ _ _ HM); [done..|]. apply step_below; [by apply (mi_done _ _ _ HM)|done|done].
Qed.
End step.
(** * A whole round, and the loop *)

(** The [changed] flag, against the tree [T] at the start of the round. *)
Definition flagged (T F : Z → Z) (m : Z) (ch : bool) : Prop :=
  if ch then ∃ b, reach n succs b ∧ num b < m ∧ F b ≠ T b else ∀ b, F b = T b.

Lemma midway_start T : good T → midway T T 0.
Proof.
  intros HG. split; [exact (go_tree _ HG)|done| | | |done].
  - intros b Hb Hlt. pose proof (or_range _ _ _ _ Hord b Hb). lia.
  - intros b Hb _ Hlt. pose proof (or_range _ _ _ _ Hord b Hb). lia.
  - intros b d Hb Hlt. pose proof (or_range _ _ _ _ Hord b Hb). lia.
Qed.

(** The entry keeps its parent. *)
Lemma midway_entry T : good T → reach n succs 0 → midway T T 1.
Proof.
  intros HG H0. pose proof (tr_entry _ (go_tree _ HG)) as HT0.
  assert (∀ b, reach n succs b → num b < 1 → b = 0) as Hz.
  { intros b Hb Hlt. pose proof (or_range _ _ _ _ Hord b Hb). apply num_inj; try done.
    rewrite (or_entry _ _ _ _ Hord). lia. }
  split; [exact (go_tree _ HG)|done| | | |done].
  - intros b Hb Hlt. rewrite (Hz b Hb Hlt). lia.
  - intros b Hb Hne Hlt. by apply Hz in Hlt.
  - intros b d Hb Hlt. apply (go_dom _ HG). rewrite (Hz b Hb Hlt). lia.
Qed.

Lemma rpo_num l1 b l2 : rpo = l1 ++ b :: l2 → reach n succs b ∧ num b = Z.of_nat (length l1).
Proof. intros ->. apply (or_rpo _ _ _ _ Hord). by rewrite lookup_app_r, Nat.sub_diag by lia. Qed.

Lemma round_from T l1 l2 l F ch :
  good T → prior T → rpo = l1 ++ l2 → holds n l F → midway T F (Z.of_nat (length l1)) →
  flagged T F (Z.of_nat (length l1)) ch →
  ∃ l' F' ch', for_each l2 (update_block n rpoNum preds) (l, ch) = Ok (l', ch') ∧
    holds n l' F' ∧ midway T F' (Z.of_nat (length rpo)) ∧ flagged T F' (Z.of_nat (length rpo)) ch'.
Proof.
  intros HG HP. revert l1 l F ch. induction l2 as [|c l2 IH]; intros l1 l F ch Hrpo Hl HM Hf.
  { rewrite app_nil_r in Hrpo. subst l1. by exists l, F, ch. }
  destruct (rpo_num l1 c l2 Hrpo) as [Hc Hcn]. cbn [for_each].
  assert (Z.of_nat (length (l1 ++ [c])) = num c + 1) as Hlen by (rewrite length_app; simpl; lia).
  rewrite <- Hcn in *. destruct (decide (c = 0)) as [->|Hne].
  - assert (update_block n rpoNum preds 0 (l, ch) = Ok (l, ch)) as -> by done. cbn [mbind result_bind].
    apply (IH (l1 ++ [0]) l F ch); [by rewrite <- app_assoc|done| |]; rewrite Hlen, (or_entry _ _ _ _ Hord) in *.
    + assert (∀ b, F b = T b) as HFT.
      { intros b. rewrite <- (mix_now T F 0 b (go_tree _ HG) HM). unfold mix.
        destruct (Z.ltb_spec (num b) 0); [|done].
        destruct (decide (F b = -1)) as [E|E]; [destruct (decide (T b = -1)) as [E'|E']; [congruence|]|].
        - apply (tr_reach _ (go_tree _ HG)) in E'. pose proof (or_range _ _ _ _ Hord b E'). lia.
        - apply (tr_reach _ (mi_tree _ _ _ HM)) in E. pose proof (or_range _ _ _ _ Hord b E). lia. }
      pose proof (midway_entry T HG Hc) as HM1.
      split; [exact (mi_tree _ _ _ HM)|by intros; rewrite HFT| | | |].
      * intros b Hb Hlt. rewrite HFT. by apply (mi_done _ _ _ HM1).
      * intros b Hb Hb0 Hlt. exfalso. apply Hb0. apply num_inj; try done. rewrite (or_entry _ _ _ _ Hord).
        pose proof (or_range _ _ _ _ Hord b Hb). lia.
      * intros b d Hb Hlt Hd. apply (anc_ext F T d b HFT). by apply (mi_dom _ _ _ HM1).
      * intros a b HTb Hlt Ha. by apply (anc_ext F T a b HFT).
    + destruct ch; [|done]. destruct Hf as (b & Hb & Hlt & Hd). exists b. split_and!; [done|lia|done].
  - destruct (forward_pred c Hc Hne) as (t & Ht & Htr & Hlt).
    destruct (update_spec l F ch c Hl (mi_tree _ _ _ HM) Hc Hne) as (q & l' & Hq & Hqc & Hm & Hl' & ->).
    { exists t. split_and!; [done|by apply (mi_done _ _ _ HM)|done]. }
    cbn [mbind result_bind].
    apply (IH (l1 ++ [c]) l' (upd F c q)); [by rewrite <- app_assoc|exact Hl'| |]; rewrite Hlen.
    + by apply step_midway.
    + assert (F c = T c) as Hag by (by apply (mi_agree _ _ _ HM)). case_decide as Hd.
      * destruct ch.
        -- destruct Hf as (b & Hb & Hbl & Hbd). exists b. split_and!; [done|lia|].
           rewrite upd_other by (intros ->; lia). done.
        -- intros b. unfold upd. case_decide; [congruence|apply Hf].
      * exists c. split_and!; [done|lia|]. rewrite upd_same. congruence.
Qed.

(** After a round without a change the tree fits every edge. *)
Definition fits (T : Z → Z) : Prop := ∀ b p, reach n succs b → b ≠ 0 → pred p b → anc T (T b) p.

Lemma round_ends T F :
  good T → midway T F (Z.of_nat (length rpo)) →
  history T F ∧ ((∀ b, F b = T b) → fits F).
Proof.
  intros HG HM. pose proof (mi_tree _ _ _ HM) as HF.
  assert (∀ b, reach n succs b → num b < Z.of_nat (length rpo)) as Hall.
  { intros b Hb. pose proof (or_range _ _ _ _ Hord b Hb).
    assert (rpo !! Z.to_nat (num b) = Some b) as Hk by (apply (or_rpo _ _ _ _ Hord); split; [done|lia]).
    apply lookup_lt_Some in Hk. lia. }
  assert (full F) as Hfull by (intros b Hb; apply (mi_done _ _ _ HM); auto).
  assert (∀ a b, reach n succs b → b ≠ 0 → _) as Hmeet by
    (intros a b Hb Hb0; exact (mi_meet _ _ _ HM b Hb Hb0 (Hall b Hb) a)).
  split.
  - split; [done| |done| |].
    + split; [done| |].
      * intros b p Hb Hb0 Hp Hlt. split; [by apply Hfull, Hp|]. pose proof (tr_reach _ HF _ Hb) as Hr.
        apply (anc_agree F (mix F T (num b)) (F b) p HF); [by apply Hfull, Hp| |].
        { intros c _ Hc. unfold mix. destruct (Z.ltb_spec (num c) (num b)); [done|lia]. }
        apply (proj1 (Hmeet (F b) b Hr Hb0)); [constructor|done|by right].
      * intros b d Hb Hd. pose proof (tr_reach _ HF _ Hb) as Hr. by apply (mi_dom _ _ _ HM); auto.
    + intros a b HTb Ha. apply (mi_mono _ _ _ HM); try done. by apply Hall, (tr_reach _ (go_tree _ HG)).
    + intros a b Hb Hb0 Hp. by apply (Hmeet a b Hb Hb0).
  - intros HFT b p Hb Hb0 Hp.
    apply (anc_ext (mix F T (num b)) F (F b) p); [intros x; unfold mix; destruct (_ <? _); by rewrite ?HFT|].
    apply (proj1 (Hmeet (F b) b Hb Hb0)); [constructor|done|].
    left. rewrite <- HFT. by apply Hfull, Hp.
Qed.

Definition weight (T : Z → Z) : nat := sum_list_with (λ b, Z.to_nat (num (T b))) rpo.

Lemma sum_list_lt {A} (f g : A → nat) l x :
  (∀ y, y ∈ l → (f y ≤ g y)%nat) → x ∈ l → (f x < g x)%nat → (sum_list_with f l < sum_list_with g l)%nat.
Proof.
  intros Hle Hx Hlt. induction l as [|y l IH]; [by apply not_elem_of_nil in Hx|].
  assert (sum_list_with f l ≤ sum_list_with g l)%nat as Hl.
  { clear IH Hx. assert (∀ z, z ∈ l → (f z ≤ g z)%nat) as Hle' by (intros; apply Hle; by right). clear Hle.
    induction l as [|z l IH]; [done|]. cbn [sum_list_with]. specialize (Hle' z ltac:(left)) as Hz.
    specialize (IH ltac:(intros; apply Hle'; by right)). lia. }
  cbn [sum_list_with]. pose proof (Hle y ltac:(left)). apply elem_of_cons in Hx as [->|Hx]; [lia|].
  specialize (IH ltac:(intros; apply Hle; by right) Hx). lia.
Qed.

Lemma rpo_elem b : b ∈ rpo ↔ reach n succs b.
Proof.
  rewrite list_elem_of_lookup. split; [intros [k Hk]; by apply (or_rpo _ _ _ _ Hord) in Hk as [? _]|].
  intros Hb. pose proof (or_range _ _ _ _ Hord b Hb). exists (Z.to_nat (num b)).
  apply (or_rpo _ _ _ _ Hord). split; [done|lia].
Qed.

Lemma weight_drops P T b : history P T → full P → reach n succs b → T b ≠ P b → (weight T < weight P)%nat.
Proof.
  intros HH HfP Hb Hd. pose proof (go_tree _ (hi_old _ _ HH)) as HP. pose proof (go_tree _ (hi_new _ _ HH)) as HT.
  assert (∀ c, reach n succs c → 0 ≤ num (T c) ∧ num (T c) ≤ num (P c) ∧ (T c = P c ∨ num (T c) < num (P c))) as Hle.
  { intros c Hc. pose proof (hi_full _ _ HH c Hc) as HTc. pose proof (HfP c Hc) as HPc.
    destruct (decide (c = 0)) as [->|Hne].
    { rewrite (tr_entry _ HP), (tr_entry _ HT), (or_entry _ _ _ _ Hord). split_and!; [lia|lia|by left]. }
    destruct (tr_up _ HT c HTc Hne) as [Hup Hlt]. pose proof (or_range _ _ _ _ Hord _ (tr_reach _ HT _ Hup)).
    assert (anc P (T c) c) as Ha by (apply (hi_mono _ _ HH); [done|by repeat constructor]).
    apply anc_cases in Ha as [E|[_ Ha]]; [rewrite E in Hlt; lia|].
    destruct (tr_up _ HP c HPc Hne) as [HupP _]. destruct (anc_num P _ _ HP HupP Ha) as [_ [E|?]].
    - rewrite E in *. split_and!; [lia|lia|by left].
    - split_and!; [lia|lia|by right]. }
  apply (sum_list_lt _ _ _ b).
  - intros c Hc%rpo_elem. specialize (Hle c Hc). lia.
  - by apply rpo_elem.
  - destruct (Hle b Hb) as (? & ? & [|]); [done|lia].
Qed.

Lemma loop_spec fuel l T :
  good T → prior T → holds n l T → reach n succs 0 →
  ((∃ P, history P T ∧ (weight T < fuel)%nat) ∨
   (∀ F, history T F → (weight F < fuel - 1)%nat) ∧ (0 < fuel)%nat) →
  ∃ l' T', idom_loop n fuel rpo rpoNum preds l = Ok l' ∧ holds n l' T' ∧ good T' ∧ full T' ∧ fits T'.
Proof.
  revert l T. induction fuel as [|fuel IH]; intros l T HG HP Hl H0 Hw; [destruct Hw as [(? & ? & ?)|[_ ?]]; lia|].
  cbn [idom_loop].
  destruct (round_from T [] rpo l T false HG HP eq_refl Hl) as (l' & F & ch & E & Hl' & HM & Hf).
  { by apply midway_start. }
  { done. }
  rewrite E. cbn [mbind result_bind fst snd]. destruct (round_ends T F HG HM) as [HH Hfit].
  destruct ch.
  - apply (IH l' F); [apply HH|by right; exists T|done|done|left]. exists T. split; [done|].
    destruct Hw as [(P & HPT & Hw)|[Hw _]].
    + destruct Hf as (b & Hb & _ & Hd). pose proof (weight_drops T F b HH (hi_full _ _ HPT) Hb Hd). lia.
    + specialize (Hw F HH). lia.
  - exists l', F. split_and!; [done|done|apply HH|apply HH|by apply Hfit].
Qed.
End trees.
