(* ===== verification/IrDomTree.v ===== *)
(** The rest of src/ir/analysis/dominance.ts: the loop from its start to the tree
    of immediate dominators, the lists of predecessors, the children and the
    numbers of the tree, and the frontiers. *)

From S2P Require Import Prelude IrCfg IrDominance IrDomGraph IrDomOk.

(** * The tree of the dominators *)

Section idoms.
Context (n : Z) (succs : Z → list Z) (rpo : list Z) (num : Z → Z).
Context (Hord : ordered n succs rpo num).

Lemma start_good : 0 < n → good n succs num start_tree.
Proof.
  intros Hn. assert (∀ b, start_tree b ≠ -1 → b = 0) as Hs.
  { intros b. unfold start_tree. case_decide; done. }
  split; [split|..].
  - intros b ->%Hs. by constructor.
  - done.
  - intros b Hb Hne. by apply Hs in Hb.
  - intros b p Hb Hne. by apply Hs in Hb.
  - intros b d ->%Hs ->%dom_entry; [constructor|done].
Qed.

(** The loop ends with a tree that fits every edge. *)
Lemma idom_loop_spec rpoNum preds l :
  0 < n → (∀ b, reach n succs b → js_at rpoNum b = Some (num b)) →
  (∀ b, reach n succs b → ∃ ps, js_at preds b = Some ps ∧ ∀ p, p ∈ ps ↔ pred n succs p b) →
  holds n l start_tree →
  ∃ l' T, idom_loop n (Z.to_nat n * Z.to_nat n + 3) rpo rpoNum preds l = Ok l' ∧
    holds n l' T ∧ good n succs num T ∧ full n succs T ∧ fits n succs T.
Proof.
  intros Hn Hnum Hpreds Hl.
  apply (loop_spec n succs rpo num Hord rpoNum Hnum preds Hpreds _ _ start_tree); try done.
  - by apply start_good.
  - by left.
  - by constructor.
  - right. split; [|lia]. intros F HF.
    assert (length rpo ≤ Z.to_nat n)%nat as Hlen.
    { destruct (decide (length rpo ≤ Z.to_nat n)%nat) as [|Hgt]; [done|exfalso].
      destruct (lookup_lt_is_Some_2 rpo (Z.to_nat n)) as [b Hb]; [lia|].
      apply (or_rpo _ _ _ _ Hord) in Hb as [Hb E]. pose proof (or_range _ _ _ _ Hord b Hb). lia. }
    assert (∀ l, (∀ b, b ∈ l → reach n succs b) →
      (sum_list_with (λ b, Z.to_nat (num (F b))) l ≤ length l * Z.to_nat n)%nat) as Hsum.
    { induction l0 as [|b l0 IH]; intros Hin; [done|]. cbn [sum_list_with length].
      specialize (IH ltac:(intros; apply Hin; by right)). specialize (Hin b ltac:(left)).
      pose proof (hi_new _ _ _ _ _ HF) as HG. pose proof (go_tree _ _ _ _ HG) as HT.
      pose proof (hi_full _ _ _ _ _ HF b Hin) as Hb. assert (reach n succs (F b)) as HFb.
      { destruct (decide (b = 0)) as [->|Hne]; [by rewrite (tr_entry _ _ _ _ HT)|].
        apply (tr_reach _ _ _ _ HT). by apply (tr_up _ _ _ _ HT). }
      pose proof (or_range _ _ _ _ Hord _ HFb). lia. }
    specialize (Hsum rpo ltac:(intros; by apply (rpo_elem n succs rpo num Hord))). unfold weight. nia.
Qed.

Section answer.
Context (T : Z → Z) (HG : good n succs num T) (Hfull : full n succs T) (Hfits : fits n succs T).

Lemma anc_dom a b : reach n succs b → anc T a b ↔ dom n succs a b.
Proof.
  intros Hb. split; [|intros Hd; apply (go_dom _ _ _ _ HG); [by apply Hfull|done]].
  intros Ha l Hl. clear Hb. revert a Ha. induction Hl as [|l p b Hl IH He]; intros a Ha.
  - apply anc_cases in Ha as [->|[? _]]; [left|done].
  - apply anc_cases in Ha as [->|[Hne Ha]]; [left|]. right. apply IH.
    assert (reach n succs p) as Hp by (apply reach_path; by exists l).
    eapply anc_trans; [exact Ha|]. apply Hfits; [by eapply reach_edge|done|done].
Qed.

Lemma parent_reach b : reach n succs b → reach n succs (T b).
Proof.
  intros Hb. destruct (decide (b = 0)) as [->|Hne]; [by rewrite (tr_entry _ _ _ _ (go_tree _ _ _ _ HG))|].
  apply (tr_reach _ _ _ _ (go_tree _ _ _ _ HG)). apply (tr_up _ _ _ _ (go_tree _ _ _ _ HG)); [by apply Hfull|done].
Qed.

Lemma parent_num b : reach n succs b → b ≠ 0 → num (T b) < num b.
Proof. intros Hb Hne. apply (tr_up _ _ _ _ (go_tree _ _ _ _ HG)); [by apply Hfull|done]. Qed.

(** The parent is the immediate dominator. *)
Lemma parent_idom b :
  reach n succs b → b ≠ 0 →
  T b ≠ b ∧ dom n succs (T b) b ∧ ∀ a, dom n succs a b → a ≠ b → dom n succs a (T b).
Proof.
  intros Hb Hne. split_and!.
  - intros E. pose proof (parent_num b Hb Hne). rewrite E in *. lia.
  - apply anc_dom; [done|]. by repeat constructor.
  - intros a Ha Hab. apply anc_dom; [by apply parent_reach|]. apply anc_dom in Ha; [|done].
    by apply anc_cases in Ha as [->|[_ ?]].
Qed.

Lemma dom_earlier a b : reach n succs b → dom n succs a b → a = b ∨ num a < num b.
Proof.
  intros Hb Hd. apply anc_dom in Hd; [|done].
  by destruct (anc_num n succs num T a b (go_tree _ _ _ _ HG) (Hfull b Hb) Hd).
Qed.

(** A block that dominates [p] but not properly [b], for an edge from [p] to [b]. *)
Definition at_frontier (a b : Z) : Prop :=
  reach n succs a ∧ (∃ p, pred n succs p b ∧ dom n succs a p) ∧ ¬ (dom n succs a b ∧ a ≠ b).

Lemma frontier_anc a b :
  reach n succs b → (a ≠ 0 ∨ b ≠ 0) →
  at_frontier a b ↔ ∃ p, pred n succs p b ∧ anc T a p ∧ anc T (T b) a ∧ a ≠ T b.
Proof.
  intros Hb H0. pose proof (go_tree _ _ _ _ HG) as HT.
  assert (∀ p, pred n succs p b → anc T (T b) p) as Hstop.
  { intros p Hp. destruct (decide (b = 0)) as [->|Hne].
    - rewrite (tr_entry _ _ _ _ HT). apply (anc_root n succs rpo num Hord); [done|]. apply Hfull, Hp.
    - by apply Hfits. }
  split.
  - intros (Ha & (p & Hp & Hd) & Hns). exists p. rewrite <- anc_dom in Hd by apply Hp.
    assert (¬ anc T a (T b)) as Hno.
    { intros Hanc. destruct (decide (b = 0)) as [->|Hne].
      - rewrite (tr_entry _ _ _ _ HT) in Hanc. apply anc_cases in Hanc as [->|[? _]]; [|done]. by destruct H0.
      - apply Hns. split; [apply anc_dom; [done|by constructor]|].
        intros ->. destruct (anc_num n succs num T b (T b) HT) as [_ [E|Hlt]].
        + by apply Hfull, parent_reach.
        + done.
        + by apply (parent_idom b).
        + pose proof (parent_num b Hb Hne). lia. }
    split_and!; [done|done| |].
    + destruct (anc_linear T (T b) a p (Hstop p Hp) Hd); done.
    + intros ->. apply Hno. constructor.
  - intros (p & Hp & Ha & Hup & Hne). assert (reach n succs a) as Hra.
    { apply (tr_reach _ _ _ _ HT). apply (anc_num n succs num T a p); [done|apply Hfull, Hp|done]. }
    split_and!; [done|exists p; split; [done|]; apply anc_dom; [apply Hp|done]|].
    intros [Hd Hab]. apply anc_dom in Hd; [|done]. apply anc_cases in Hd as [->|[Hb0 Hd]]; [done|].
    apply Hne. apply (anc_antisym n succs num T); try done; apply Hfull; [done|by apply parent_reach].
Qed.

Lemma frontier_entry : 0 < n → at_frontier 0 0 ↔ ∃ p, pred n succs p 0.
Proof.
  intros Hn. split; [intros (_ & (p & Hp & _) & _); by exists p|]. intros [p Hp]. split_and!.
  - by constructor.
  - exists p. split; [done|]. apply anc_dom; [apply Hp|].
    apply (anc_root n succs rpo num Hord); [apply HG|apply Hfull, Hp].
  - by intros [_ ?].
Qed.
End answer.
End idoms.

(** * Predecessors *)

Section predecessors.
Context (n : Z) (succs : Z → list Z) (r : list bool).
Context (Hr : ∀ v, is_reached r v ↔ reach n succs v).

Lemma add_pred_spec preds G b s :
  holds n preds G → (∀ x, NoDup (G x)) →
  ∃ G', holds n (add_pred r b preds s) G' ∧ (∀ x, NoDup (G' x)) ∧
    ∀ x p, p ∈ G' x ↔ p ∈ G x ∨ p = b ∧ x = s ∧ reach n succs s.
Proof.
  intros HG Hd. unfold add_pred.
  assert (is_reached r s ∨ ¬ is_reached r s) as [Hs|Hs].
  { unfold is_reached. destruct (js_at r s) as [[|]|]; auto. }
  - pose proof Hs as ->%(id (A := _ = _)). apply Hr in Hs. pose proof (reach_range _ _ _ Hs) as Hsn.
    rewrite (proj2 HG s Hsn). case_bool_decide as Hin.
    + exists G. split_and!; [done|done|]. intros x p. split; [by left|]. intros [?|(-> & -> & _)]; done.
    + exists (upd G s (G s ++ [b])). split_and!; [by apply holds_upd| |]; intros x; unfold upd; case_decide as Hx.
      * apply NoDup_app. split_and!; [done| |apply NoDup_singleton]. by intros y Hy ->%list_elem_of_singleton.
      * done.
      * intros p. subst x. rewrite elem_of_app, list_elem_of_singleton. naive_solver.
      * intros p. naive_solver.
  - exists G. assert (match js_at r s, js_at preds s with
                     | Some true, Some ps => if bool_decide (b ∈ ps) then preds else ta_set preds s (ps ++ [b])
                     | _, _ => preds end = preds) as ->.
    { unfold is_reached in Hs. by destruct (js_at r s) as [[|]|]. }
    split_and!; [done|done|]. intros x p. split; [by left|].
    intros [?|(_ & _ & Hrs)]; [done|]. by apply Hr in Hrs.
Qed.

Lemma add_preds_spec ss preds G b :
  holds n preds G → (∀ x, NoDup (G x)) →
  ∃ G', holds n (foldl (add_pred r b) preds ss) G' ∧ (∀ x, NoDup (G' x)) ∧
    ∀ x p, p ∈ G' x ↔ p ∈ G x ∨ p = b ∧ x ∈ ss ∧ reach n succs x.
Proof.
  revert preds G. induction ss as [|s ss IH]; intros preds G HG Hd; cbn [foldl].
  - exists G. split_and!; [done|done|]. intros x p. rewrite elem_of_nil. tauto.
  - destruct (add_pred_spec preds G b s HG Hd) as (G1 & HG1 & Hd1 & Hin1).
    destruct (IH _ G1 HG1 Hd1) as (G2 & HG2 & Hd2 & Hin2). exists G2. split_and!; [done|done|].
    intros x p. rewrite Hin2, Hin1, elem_of_cons. naive_solver.
Qed.

Lemma all_preds_spec rpo :
  0 ≤ n → (∀ b, b ∈ rpo ↔ reach n succs b) →
  ∃ G, holds n (all_preds n succs r rpo) G ∧ (∀ x, NoDup (G x)) ∧ ∀ x p, p ∈ G x ↔ pred n succs p x.
Proof.
  intros Hn Hrpo. unfold all_preds.
  assert (∀ bs preds G, holds n preds G → (∀ x, NoDup (G x)) →
    ∃ G', holds n (foldl (λ preds b, foldl (add_pred r b) preds (succs b)) preds bs) G' ∧ (∀ x, NoDup (G' x)) ∧
      ∀ x p, p ∈ G' x ↔ p ∈ G x ∨ p ∈ bs ∧ x ∈ succs p ∧ reach n succs x) as Hall.
  { induction bs as [|b bs IH]; intros preds G HG Hd; cbn [foldl].
    - exists G. split_and!; [done|done|]. intros x p. rewrite elem_of_nil. tauto.
    - destruct (add_preds_spec (succs b) preds G b HG Hd) as (G1 & HG1 & Hd1 & Hin1).
      destruct (IH _ G1 HG1 Hd1) as (G2 & HG2 & Hd2 & Hin2). exists G2. split_and!; [done|done|].
      intros x p. rewrite Hin2, Hin1, elem_of_cons. naive_solver. }
  destruct (Hall rpo _ (λ _, []) (holds_replicate n [] Hn) ltac:(intros; apply NoDup_nil_2)) as (G & HG & Hd & Hin).
  exists G. split_and!; [done|done|]. intros x p. rewrite Hin, elem_of_nil, Hrpo. unfold pred, edge. split.
  - intros [[]|(Hp & He & Hx)]. split; [done|]. split; [done|]. by apply (reach_range n succs).
  - intros (Hp & He & Hx). right. split_and!; [done|done|]. eapply reach_edge; [exact Hp|done].
Qed.
End predecessors.

(** * Children *)

Definition child_of (T : Z → Z) (a x : Z) : bool := bool_decide (x ≠ 0 ∧ T x = a).

Lemma children_spec n T idom bs children C :
  holds n idom T → holds n children C → (∀ b, b ∈ bs → 0 ≤ b < n ∧ 0 ≤ T b < n) →
  ∃ children', for_each bs (add_child idom) children = Ok children' ∧
    holds n children' (λ a, C a ++ filter (child_of T a) bs).
Proof.
  intros HT. revert children C. induction bs as [|b bs IH]; intros children C HC Hbs.
  { exists children. split; [done|]. split; [apply HC|]. intros a Ha. rewrite app_nil_r. by apply HC. }
  cbn [for_each]. destruct (Hbs b ltac:(left)) as [Hb HTb].
  assert (∃ c1, add_child idom b children = Ok c1 ∧ holds n c1 (λ a, C a ++ filter (child_of T a) [b])) as (c1 & -> & Hc1).
  { unfold add_child. rewrite (rd_holds n idom T b HT Hb). cbn [mbind result_bind].
    destruct (Z.eqb_spec b 0) as [->|Hne]; cbn [negb andb].
    - exists children. split; [done|]. split; [apply HC|]. intros a Ha. rewrite (proj2 HC a Ha). f_equal.
      cbn [filter list_filter]. by rewrite app_nil_r.
    - destruct (Z.eqb_spec (T b) (-1)) as [E|_]; [lia|]. cbn [negb].
      rewrite (rd_holds n children C (T b) HC HTb). cbn [mbind result_bind]. eexists. split; [done|].
      pose proof (holds_upd n children C (T b) (C (T b) ++ [b]) HC HTb) as [Hl Hu]. split; [done|].
      intros a Ha. rewrite (Hu a Ha). f_equal. unfold upd. rewrite filter_cons, filter_nil. unfold child_of.
      case_decide as Hd; case_decide as Hd'; try done.
      + by subst a.
      + exfalso. apply Hd'. apply bool_decide_spec. by subst a.
      + exfalso. apply bool_decide_spec in Hd' as [_ ?]. by subst a.
      + by rewrite app_nil_r. }
  cbn [mbind result_bind]. destruct (IH c1 _ Hc1) as (c2 & E & Hc2); [intros; apply Hbs; by right|].
  exists c2. split; [done|]. split; [apply Hc2|]. intros a Ha. rewrite (proj2 Hc2 a Ha). f_equal.
  rewrite <- app_assoc. f_equal. by rewrite <- filter_app.
Qed.

(** * Numbering the tree *)

Section numbering.
Context (n : Z) (succs : Z → list Z) (rpo : list Z) (num : Z → Z).
Context (Hord : ordered n succs rpo num).
Context (T : Z → Z) (HT : tree n succs num T) (Hfull : full n succs T).
Context (children : list (list Z)) (C : Z → list Z).
Context (HC : holds n children C) (HCd : ∀ b, NoDup (C b)).
Context (HCin : ∀ b c, reach n succs b → c ∈ C b ↔ reach n succs c ∧ c ≠ 0 ∧ T c = b).

(** Each block on the stack is a child of the one under it. *)
Inductive descending : list Z → Prop :=
  | descending_nil : descending []
  | descending_root : descending [0]
  | descending_child c l : descending (T c :: l) → c ≠ 0 → descending (c :: T c :: l).

Record numbering (stack : list (Z * nat)) (tin tout : Z → Z) (clock : Z) : Prop := {
  nu_clock : 0 ≤ clock;
  nu_stack : descending stack.*1;
  nu_reach x : tin x ≠ -1 → reach n succs x;
  nu_entry : tin 0 ≠ -1;
  nu_open x : x ∈ stack.*1 ↔ tin x ≠ -1 ∧ tout x = -1;
  nu_kids b i j c : (b, i) ∈ stack → C b !! j = Some c → tin c ≠ -1 ↔ (j < i)%nat;
  nu_in x : tin x ≠ -1 → 0 ≤ tin x < clock;
  nu_out x : tout x ≠ -1 → tin x ≠ -1 ∧ tin x < tout x < clock;
  nu_parent x : tin x ≠ -1 → x ≠ 0 → tin (T x) ≠ -1 ∧ tin (T x) < tin x;
  nu_done x : reach n succs x → x ≠ 0 → tout (T x) ≠ -1 → tout x ≠ -1 ∧ tout x < tout (T x);
  nu_anc_open x y : x ∈ stack.*1 → tin y ≠ -1 → tin x ≤ tin y → anc T x y;
  nu_anc_done x y : tout x ≠ -1 → tin y ≠ -1 → tin x ≤ tin y < tout x → anc T x y }.

Lemma descending_anc l c x : descending (c :: l) → x ∈ c :: l → anc T x c.
Proof.
  remember (c :: l) as s eqn:Es. intros Hd. revert c l Es. induction Hd as [| |c l Hd IH Hne]; intros c' l' [= <- <-] Hx.
  - apply list_elem_of_singleton in Hx as ->. constructor.
  - apply elem_of_cons in Hx as [->|Hx]; [constructor|]. constructor; [done|]. by eapply IH.
Qed.

Lemma descending_tail c l : descending (c :: l) → descending l.
Proof. inversion 1; [constructor|done]. Qed.

Lemma descending_nodup l : descending l → (∀ x, x ∈ l → reach n succs x) → NoDup l.
Proof.
  induction 1 as [| |c l Hd IH Hne]; intros Hr; [constructor|apply NoDup_singleton|].
  apply NoDup_cons. split; [|apply IH; intros; apply Hr; by right]. intros Hin.
  assert (reach n succs c) as Hc by (apply Hr; left).
  pose proof (descending_anc l (T c) c Hd Hin) as Ha.
  destruct (tr_up _ _ _ _ HT c (Hfull c Hc) Hne) as [Hp Hlt].
  destruct (anc_num n succs num T c (T c) HT Hp Ha) as [_ [E|?]]; [|lia]. rewrite <- E in Hlt. lia.
Qed.

Lemma number_push b i rest tin tout clock c :
  numbering ((b, i) :: rest) tin tout clock → C b !! i = Some c →
  numbering ((c, O) :: (b, S i) :: rest) (upd tin c clock) tout (clock + 1) ∧ tin c = -1.
Proof.
  intros Hn Hc. pose proof (nu_clock _ _ _ _ Hn) as Hclk.
  assert (tin b ≠ -1) as Hb by (apply (nu_open _ _ _ _ Hn); left).
  pose proof (nu_reach _ _ _ _ Hn b Hb) as Hbr.
  pose proof (proj1 (HCin b c Hbr) ltac:(by eapply list_elem_of_lookup_2)) as (Hcr & Hc0 & HTc).
  assert (tin c = -1) as Hfresh.
  { destruct (decide (tin c = -1)) as [|Hne]; [done|].
    apply (nu_kids _ _ _ _ Hn b i i c) in Hne; [lia|left|done]. }
  assert (tout c = -1) as Hout.
  { destruct (decide (tout c = -1)) as [|Hne]; [done|]. by destruct (nu_out _ _ _ _ Hn c Hne). }
  assert (∀ x, upd tin c clock x ≠ -1 ↔ x = c ∨ tin x ≠ -1) as Hup.
  { intros x. unfold upd. case_decide; subst; [split; [by left|lia]|naive_solver]. }
  assert (∀ x, x ∈ ((c, O) :: (b, S i) :: rest).*1 ↔ x = c ∨ x ∈ ((b, i) :: rest).*1) as Hst.
  { intros x. csimpl. by rewrite !elem_of_cons. }
  split; [split|done].
  - lia.
  - csimpl. rewrite <- HTc. constructor; [|done]. rewrite HTc. exact (nu_stack _ _ _ _ Hn).
  - intros x [->|Hx]%Hup; [done|]. by apply (nu_reach _ _ _ _ Hn).
  - apply Hup. right. apply (nu_entry _ _ _ _ Hn).
  - intros x. rewrite Hst, Hup, (nu_open _ _ _ _ Hn). naive_solver.
  - intros x k j d Hin Hd. rewrite Hup. apply elem_of_cons in Hin as [[= -> ->]|Hin].
    { split; [|lia]. pose proof (proj1 (HCin c d Hcr) ltac:(by eapply list_elem_of_lookup_2)) as (Hdr & Hd0 & HTd).
      intros [->|Hd']; exfalso.
      - destruct (tr_up _ _ _ _ HT c (Hfull c Hcr) Hc0) as [_ Hlt]. rewrite HTd in Hlt. lia.
      - apply (nu_parent _ _ _ _ Hn) in Hd' as [Hd' _]; [|done]. by rewrite HTd in Hd'. }
    apply elem_of_cons in Hin as [[= -> ->]|Hin].
    { rewrite (nu_kids _ _ _ _ Hn b i j d ltac:(left) Hd). split; [|].
      - intros [->|?]; [|lia]. rewrite (NoDup_lookup _ _ _ _ (HCd b) Hd Hc). lia.
      - intros Hj. destruct (decide (j = i)) as [->|]; [left; congruence|right; lia]. }
    rewrite (nu_kids _ _ _ _ Hn x k j d ltac:(by right) Hd). split; [|by right]. intros [->|?]; [exfalso|done].
    assert (tin x ≠ -1) as Hx.
    { apply (nu_open _ _ _ _ Hn). csimpl. right. apply list_elem_of_fmap. by exists (x, k). }
    pose proof (proj1 (HCin x c (nu_reach _ _ _ _ Hn x Hx)) ltac:(by eapply list_elem_of_lookup_2)) as (_ & _ & E).
    pose proof (descending_nodup _ (nu_stack _ _ _ _ Hn)) as Hnd. csimpl in Hnd.
    rewrite NoDup_cons in Hnd. destruct Hnd as [Hnb _].
    { intros y Hy. apply (nu_reach _ _ _ _ Hn). apply (nu_open _ _ _ _ Hn). exact Hy. }
    apply Hnb. apply list_elem_of_fmap. exists (x, k). split; [cbn; congruence|done].
  - intros x [->|Hx]%Hup; [rewrite upd_same; lia|]. rewrite upd_other by congruence.
    pose proof (nu_in _ _ _ _ Hn x Hx). lia.
  - intros x Hx. destruct (nu_out _ _ _ _ Hn x Hx) as [Hi Ho]. split; [apply Hup; by right|].
    rewrite upd_other by congruence. lia.
  - intros x [->|Hx]%Hup Hx0.
    + rewrite upd_same, HTc, Hup. split; [by right|]. rewrite upd_other by congruence. apply (nu_in _ _ _ _ Hn b Hb).
    + destruct (nu_parent _ _ _ _ Hn x Hx Hx0) as [Hp Hlt]. rewrite Hup. split; [by right|].
      rewrite !upd_other by congruence. done.
  - exact (nu_done _ _ _ _ Hn).
  - intros x y Hx%Hst Hy%Hup Hle. destruct Hx as [->|Hx].
    + destruct Hy as [->|Hy]; [constructor|]. rewrite upd_same, upd_other in Hle by congruence.
      pose proof (nu_in _ _ _ _ Hn y Hy). lia.
    + destruct Hy as [->|Hy].
      * constructor; [done|]. rewrite HTc. apply (descending_anc rest.*1); [exact (nu_stack _ _ _ _ Hn)|done].
      * pose proof (proj1 (nu_open _ _ _ _ Hn x) Hx) as [Hx' _].
        rewrite !upd_other in Hle by congruence. by apply (nu_anc_open _ _ _ _ Hn).
  - intros x y Hx Hy%Hup Hle. destruct (nu_out _ _ _ _ Hn x Hx) as [Hi Ho].
    rewrite (upd_other tin c clock x) in Hle by congruence. destruct Hy as [->|Hy].
    + rewrite upd_same in Hle. lia.
    + rewrite upd_other in Hle by congruence. by apply (nu_anc_done _ _ _ _ Hn).
Qed.

Lemma number_pop b i rest tin tout clock :
  numbering ((b, i) :: rest) tin tout clock → C b !! i = None →
  numbering rest tin (upd tout b clock) (clock + 1).
Proof.
  intros Hn Hi. pose proof (nu_clock _ _ _ _ Hn) as Hclk. pose proof (nu_stack _ _ _ _ Hn) as Hd.
  assert (tin b ≠ -1 ∧ tout b = -1) as [Hb Hbo] by (apply (nu_open _ _ _ _ Hn); left).
  pose proof (nu_reach _ _ _ _ Hn b Hb) as Hbr.
  assert (b ∉ rest.*1) as Hnb.
  { assert (NoDup (b :: rest.*1)) as Hnd; [|by apply NoDup_cons in Hnd as [? _]].
    apply (descending_nodup _ Hd). intros y Hy. apply (nu_reach _ _ _ _ Hn). by apply (nu_open _ _ _ _ Hn). }
  assert (∀ x, upd tout b clock x ≠ -1 ↔ x = b ∨ tout x ≠ -1) as Hup.
  { intros x. unfold upd. case_decide; subst; [split; [by left|lia]|naive_solver]. }
  split.
  - lia.
  - by apply (descending_tail b).
  - exact (nu_reach _ _ _ _ Hn).
  - exact (nu_entry _ _ _ _ Hn).
  - intros x. pose proof (nu_open _ _ _ _ Hn x) as Ho. csimpl in Ho. rewrite elem_of_cons in Ho.
    unfold upd. case_decide as Hx; [subst x; split; [done|lia]|]. rewrite <- Ho. naive_solver.
  - intros x k j c Hin. apply (nu_kids _ _ _ _ Hn). by right.
  - intros x Hx. pose proof (nu_in _ _ _ _ Hn x Hx). lia.
  - intros x [->|Hx]%Hup.
    + rewrite upd_same. pose proof (nu_in _ _ _ _ Hn b Hb). split; [done|lia].
    + destruct (nu_out _ _ _ _ Hn x Hx). rewrite upd_other by congruence. split; [done|lia].
  - exact (nu_parent _ _ _ _ Hn).
  - intros x Hx Hx0 [E|Ho]%Hup.
    + assert (x ≠ b) as Hxb.
      { intros ->. destruct (tr_up _ _ _ _ HT b (Hfull b Hx) Hx0) as [_ Hlt]. rewrite E in Hlt. lia. }
      pose proof (proj2 (HCin b x Hbr) (conj Hx (conj Hx0 E))) as [j Hj]%list_elem_of_lookup.
      assert (tin x ≠ -1) as Hxi.
      { apply (nu_kids _ _ _ _ Hn b i j x); [left|done|].
        apply lookup_ge_None in Hi. apply lookup_lt_Some in Hj. lia. }
      assert (tout x ≠ -1) as Hxo.
      { intros Eo. pose proof (proj2 (nu_open _ _ _ _ Hn x) (conj Hxi Eo)) as Hin.
        pose proof (descending_anc _ _ _ Hd Hin) as Ha.
        destruct (tr_up _ _ _ _ HT x (Hfull x Hx) Hx0) as [_ Hlt]. rewrite E in Hlt.
        destruct (anc_num n succs num T x b HT (Hfull b Hbr) Ha) as [_ [|]]; [done|lia]. }
      rewrite upd_other by done. rewrite E, upd_same. split; [done|].
      apply (nu_out _ _ _ _ Hn x Hxo).
    + destruct (nu_done _ _ _ _ Hn x Hx Hx0 Ho) as [Hxo Hlt]. rewrite !upd_other by congruence. done.
  - intros x y Hx. apply (nu_anc_open _ _ _ _ Hn). csimpl. by right.
  - intros x y [->|Hx]%Hup Hy Hle.
    + rewrite upd_same in Hle. apply (nu_anc_open _ _ _ _ Hn); [left|done|lia].
    + rewrite upd_other in Hle by congruence. by apply (nu_anc_done _ _ _ _ Hn).
Qed.

Definition unnumbered (tin : Z → Z) (x : Z) : nat := if tin x =? -1 then 2 else 0.

Lemma number_tree_spec fuel stack lin lout tin tout clock :
  numbering stack tin tout clock → holds n lin tin → holds n lout tout →
  (sum_list_with (unnumbered tin) (seqZ 0 n) + length stack < fuel)%nat →
  ∃ lin' lout' tin' tout' clock', number_tree fuel children stack lin lout clock = Ok (lin', lout') ∧
    holds n lin' tin' ∧ holds n lout' tout' ∧ numbering [] tin' tout' clock'.
Proof.
  revert stack lin lout tin tout clock. induction fuel as [|fuel IH];
    intros stack lin lout tin tout clock Hn Hi Ho Hf; [lia|].
  cbn [number_tree]. destruct stack as [|[b i] rest]; [by exists lin, lout, tin, tout, clock|].
  assert (tin b ≠ -1) as Hb by (apply (nu_open _ _ _ _ Hn); left).
  pose proof (reach_range _ _ _ (nu_reach _ _ _ _ Hn b Hb)) as Hbn.
  rewrite (rd_holds n children C b HC Hbn). cbn [mbind result_bind].
  destruct (C b !! i) as [c|] eqn:Hc.
  - destruct (number_push _ _ _ _ _ _ _ Hn Hc) as [Hn' Hfresh].
    assert (0 ≤ c < n) as Hcn.
    { apply (reach_range n succs). apply (nu_reach _ _ _ _ Hn'). rewrite upd_same.
      pose proof (nu_clock _ _ _ _ Hn). lia. }
    eapply IH; [exact Hn'|by apply holds_upd|done|]. revert Hf.
    rewrite (sum_list_change (unnumbered tin) (unnumbered (upd tin c clock)) (seqZ 0 n) c 2).
    + simpl. lia.
    + apply NoDup_seqZ.
    + apply elem_of_seqZ. lia.
    + unfold unnumbered. rewrite Hfresh, upd_same. pose proof (nu_clock _ _ _ _ Hn).
      destruct (Z.eqb_spec clock (-1)); [lia|done].
    + intros y Hy. unfold unnumbered. by rewrite upd_other.
  - eapply IH; [by apply (number_pop b i)|done|by apply holds_upd|]. simpl in Hf. lia.
Qed.

Lemma number_start : reach n succs 0 → numbering [(0, O)] (upd (λ _, -1) 0 0) (λ _, -1) 1.
Proof.
  intros H0. assert (∀ x, upd (λ _, -1) 0 0 x ≠ -1 ↔ x = 0) as Hup.
  { intros x. unfold upd. case_decide; [subst; split; [done|lia]|done]. }
  split; try done.
  - constructor.
  - by intros x ->%Hup.
  - intros x. rewrite Hup. csimpl. rewrite list_elem_of_singleton. tauto.
  - intros b i j c Hin Hc. apply list_elem_of_singleton in Hin as [= -> ->]. split; [|lia].
    intros ->%Hup. apply list_elem_of_lookup_2 in Hc. by apply (HCin 0 0 H0) in Hc as (_ & ? & _).
  - intros x ->%Hup. rewrite upd_same. lia.
  - by intros x ->%Hup.
  - intros x y Hx ->%Hup _. csimpl in Hx. apply list_elem_of_singleton in Hx as ->. constructor.
Qed.

Lemma unnumbered_start :
  0 < n → (sum_list_with (unnumbered (upd (λ _, -1) 0 0)%Z) (seqZ 0 n) + 2 = 2 * Z.to_nat n)%nat.
Proof.
  intros Hn. rewrite <- (sum_list_change (λ _, 2%nat) (unnumbered (upd (λ _, -1) 0 0)) (seqZ 0 n) 0).
  - rewrite <- (length_seqZ 0 n). generalize (seqZ 0 n). induction l as [|x l IH]; [done|]. simpl in *. lia.
  - apply NoDup_seqZ.
  - apply elem_of_seqZ. lia.
  - done.
  - intros y Hy. unfold unnumbered. by rewrite upd_other.
Qed.

(** The numbers nest as the tree does. *)
Lemma numbers_nest tin tout clock a b :
  numbering [] tin tout clock → reach n succs a → reach n succs b →
  anc T a b ↔ tin a ≤ tin b ∧ tout b ≤ tout a.
Proof.
  intros Hn Ha Hb.
  assert (∀ x, tin x ≠ -1 → tout x ≠ -1) as Hdone.
  { intros x Hx E. pose proof (proj2 (nu_open _ _ _ _ Hn x) (conj Hx E)) as Hin. by apply not_elem_of_nil in Hin. }
  assert (∀ x, reach n succs x → tout x ≠ -1) as Hall.
  { intros x Hx. apply (num_ind n succs rpo num Hord (λ x, tout x ≠ -1)); [|done].
    intros y Hy IH. destruct (decide (y = 0)) as [->|Hne]; [apply Hdone, (nu_entry _ _ _ _ Hn)|].
    destruct (tr_up _ _ _ _ HT y (Hfull y Hy) Hne) as [Hp Hlt].
    apply (nu_done _ _ _ _ Hn y Hy Hne). by apply IH; [apply (tr_reach _ _ _ _ HT)|]. }
  split.
  - intros Hanc. clear Ha. induction Hanc as [|b Hne Hanc IH]; [lia|].
    destruct (tr_up _ _ _ _ HT b (Hfull b Hb) Hne) as [Hp _]. apply (tr_reach _ _ _ _ HT) in Hp.
    destruct (IH Hp). destruct (nu_done _ _ _ _ Hn b Hb Hne (Hall _ Hp)).
    destruct (nu_out _ _ _ _ Hn b (Hall _ Hb)) as [Hi _]. destruct (nu_parent _ _ _ _ Hn b Hi Hne). lia.
  - intros [Hi Ho]. destruct (nu_out _ _ _ _ Hn b (Hall _ Hb)) as [Hbi ?].
    apply (nu_anc_done _ _ _ _ Hn); [by apply Hall|done|lia].
Qed.
End numbering.

(** * Frontiers *)

Section frontier.
Context (n : Z) (succs : Z → list Z) (rpo : list Z) (num : Z → Z).
Context (Hord : ordered n succs rpo num).
Context (T : Z → Z) (HG : good n succs num T) (Hfull : full n succs T) (Hfits : fits n succs T).
Context (idom : list Z) (Hidom : holds n idom T).

(** The blocks a walk from [p] up to [stop] meets before [stop]. *)
Definition between (stop p a : Z) : Prop := anc T a p ∧ anc T stop a ∧ a ≠ stop.

Lemma between_up stop p a :
  reach n succs p → anc T stop p → p ≠ stop → between stop p a ↔ a = p ∨ p ≠ 0 ∧ between stop (T p) a.
Proof.
  intros Hp Hs Hne. unfold between. split.
  - intros (Ha & Hsa & Has). apply anc_cases in Ha as [->|[? ?]]; [by left|by right].
  - intros [->|(Hp0 & Ha & Hsa & Has)]; [by split_and!; [apply anc_refl|..]|].
    split_and!; [by apply anc_up|done..].
Qed.

Lemma run_up_spec fuel stop b p fr F :
  holds n fr F → (∀ x, NoDup (F x)) → reach n succs p → anc T stop p → num p < Z.of_nat fuel →
  ∃ fr' F', run_up fuel idom stop b p fr = Ok fr' ∧ holds n fr' F' ∧ (∀ x, NoDup (F' x)) ∧
    ∀ a x, x ∈ F' a ↔ x ∈ F a ∨ x = b ∧ between stop p a.
Proof.
  revert p fr F. induction fuel as [|fuel IH]; intros p fr F HF Hd Hp Hs Hf.
  { pose proof (or_range _ _ _ _ Hord p Hp). lia. }
  cbn [run_up]. destruct (Z.eqb_spec p stop) as [->|Hne].
  - exists fr, F. split_and!; [done..|]. intros a x. split; [by left|]. intros [?|(_ & Ha & Hsa & Has)]; [done|].
    exfalso. apply Has. by apply (anc_antisym n succs num T);
      [apply HG|apply Hfull, (tr_reach _ _ _ _ (go_tree _ _ _ _ HG)), (anc_num n succs num T a stop (go_tree _ _ _ _ HG) (Hfull _ Hp) Ha)|apply Hfull| |].
  - pose proof (reach_range _ _ _ Hp) as Hpn. apply anc_cases in Hs as Hs'. destruct Hs' as [|[Hp0 Hs']]; [congruence|].
    rewrite (rd_holds n fr F p HF Hpn), (rd_holds n idom T p Hidom Hpn). cbn [mbind result_bind].
    assert (∃ F1, holds n (if bool_decide (b ∈ F p) then fr else ta_set fr p (F p ++ [b])) F1 ∧
              (∀ x, NoDup (F1 x)) ∧ ∀ a x, x ∈ F1 a ↔ x ∈ F a ∨ x = b ∧ a = p) as (F1 & HF1 & Hd1 & Hin1).
    { case_bool_decide as Hin.
      - exists F. split_and!; [done..|]. intros a x. split; [by left|]. intros [?|[-> ->]]; done.
      - exists (upd F p (F p ++ [b])). split_and!; [by apply holds_upd| |]; intros a; unfold upd; case_decide as Ha.
        + apply NoDup_app. split_and!; [done| |apply NoDup_singleton]. by intros y Hy ->%list_elem_of_singleton.
        + done.
        + intros x. subst a. rewrite elem_of_app, list_elem_of_singleton. naive_solver.
        + intros x. naive_solver. }
    destruct (IH (T p) _ F1 HF1 Hd1) as (fr' & F' & -> & HF' & Hd' & Hin').
    { by apply (parent_reach n succs num T HG Hfull). }
    { done. }
    { pose proof (parent_num n succs num T HG Hfull p Hp Hp0). lia. }
    exists fr', F'. split_and!; [done..|]. intros a x. rewrite Hin', Hin1, (between_up stop p a Hp Hs Hne). tauto.
Qed.

Lemma run_preds_spec ps stop b fr F :
  holds n fr F → (∀ x, NoDup (F x)) → (∀ p, p ∈ ps → reach n succs p ∧ anc T stop p) →
  ∃ fr' F', for_each ps (run_up (S (Z.to_nat n)) idom stop b) fr = Ok fr' ∧ holds n fr' F' ∧ (∀ x, NoDup (F' x)) ∧
    ∀ a x, x ∈ F' a ↔ x ∈ F a ∨ x = b ∧ ∃ p, p ∈ ps ∧ between stop p a.
Proof.
  revert fr F. induction ps as [|p ps IH]; intros fr F HF Hd Hps.
  { exists fr, F. split_and!; [done..|]. intros a x. split; [by left|].
    intros [?|(_ & p & Hp & _)]; [done|by apply not_elem_of_nil in Hp]. }
  cbn [for_each]. destruct (Hps p ltac:(left)) as [Hp Hs].
  destruct (run_up_spec (S (Z.to_nat n)) stop b p fr F HF Hd Hp Hs) as (f1 & F1 & -> & HF1 & Hd1 & Hin1).
  { pose proof (or_range _ _ _ _ Hord p Hp). lia. }
  cbn [mbind result_bind]. destruct (IH f1 F1 HF1 Hd1) as (f2 & F2 & -> & HF2 & Hd2 & Hin2).
  { intros q Hq. apply Hps. by right. }
  exists f2, F2. split_and!; [done..|]. intros a x. rewrite Hin2, Hin1. split.
  - intros [[?|[-> Hb]]|(-> & q & Hq & Hb)]; [by left| |]; right; (split; [done|]).
    + exists p. split; [left|done].
    + exists q. split; [by right|done].
  - intros [?|(-> & q & [->|Hq]%elem_of_cons & Hb)]; [by left; left|by left; right|].
    right. split; [done|]. by exists q.
Qed.

Context (preds : list (list Z)) (G : Z → list Z).
Context (Hpreds : holds n preds G) (Hin : ∀ x p, p ∈ G x ↔ pred n succs p x).

Lemma stop_above b p : reach n succs b → pred n succs p b → anc T (T b) p.
Proof.
  intros Hb Hp. destruct (decide (b = 0)) as [->|Hne]; [|by apply Hfits].
  rewrite (tr_entry _ _ _ _ (go_tree _ _ _ _ HG)).
  apply (anc_root n succs rpo num Hord); [apply HG|apply Hfull, Hp].
Qed.

Lemma blocks_frontier bs fr F :
  holds n fr F → (∀ x, NoDup (F x)) → (∀ b, b ∈ bs → reach n succs b) →
  ∃ fr' F', for_each bs (block_frontier n preds idom) fr = Ok fr' ∧ holds n fr' F' ∧ (∀ x, NoDup (F' x)) ∧
    ∀ a x, x ∈ F' a ↔ x ∈ F a ∨ x ∈ bs ∧ ∃ p, pred n succs p x ∧ between (T x) p a.
Proof.
  revert fr F. induction bs as [|b bs IH]; intros fr F HF Hd Hbs.
  { exists fr, F. split_and!; [done..|]. intros a x. rewrite elem_of_nil. tauto. }
  cbn [for_each]. assert (reach n succs b) as Hb by (apply Hbs; left). pose proof (reach_range _ _ _ Hb) as Hbn.
  assert (block_frontier n preds idom b fr = for_each (G b) (run_up (S (Z.to_nat n)) idom (T b) b) fr) as ->.
  { unfold block_frontier. by rewrite (rd_holds n preds G b Hpreds Hbn), (rd_holds n idom T b Hidom Hbn). }
  destruct (run_preds_spec (G b) (T b) b fr F HF Hd) as (f1 & F1 & -> & HF1 & Hd1 & Hin1).
  { intros p Hp%Hin. split; [apply Hp|by apply stop_above]. }
  cbn [mbind result_bind]. destruct (IH f1 F1 HF1 Hd1) as (f2 & F2 & -> & HF2 & Hd2 & Hin2).
  { intros q Hq. apply Hbs. by right. }
  exists f2, F2. split_and!; [done..|]. intros a x. rewrite Hin2, Hin1, elem_of_cons. split.
  - intros [[?|(-> & p & Hp%Hin & Hb')]|[Hx Hex]]; [by left| |]; right; (split; [tauto|]); [by exists p|done].
  - intros [?|([->|Hx] & p & Hp & Hb')]; [by left; left| |].
    + left. right. split; [done|]. exists p. split; [by apply Hin|done].
    + right. split; [done|]. by exists p.
Qed.

Lemma frontiers_spec :
  0 < n →
  ∃ fr F, frontiers n rpo preds idom = Ok fr ∧ holds n fr F ∧ (∀ x, NoDup (F x)) ∧
    ∀ a b, b ∈ F a ↔ at_frontier n succs a b.
Proof.
  intros Hn. unfold frontiers.
  destruct (blocks_frontier rpo _ (λ _, []) (holds_replicate n [] ltac:(lia))) as (f1 & F1 & -> & HF1 & Hd1 & Hin1).
  { intros x. apply NoDup_nil_2. }
  { intros b. apply (rpo_elem n succs rpo num Hord). }
  cbn [mbind result_bind]. rewrite (rd_holds n preds G 0 Hpreds) by lia. cbn [mbind result_bind].
  assert (∀ a b, (a ≠ 0 ∨ b ≠ 0) → b ∈ F1 a ↔ at_frontier n succs a b) as Hmain.
  { intros a b H0. rewrite Hin1, elem_of_nil, (rpo_elem n succs rpo num Hord). split.
    - intros [[]|[Hb Hex]]. by apply (frontier_anc n succs rpo num Hord T HG Hfull Hfits).
    - intros Hf. assert (reach n succs b) as Hb.
      { destruct Hf as (_ & (p & Hp & _) & _). by eapply pred_reach. }
      right. split; [done|]. by apply (frontier_anc n succs rpo num Hord T HG Hfull Hfits) in Hf. }
  assert (0 ∉ F1 0) as H00.
  { rewrite Hin1, elem_of_nil. rewrite (tr_entry _ _ _ _ (go_tree _ _ _ _ HG)).
    intros [[]|(_ & p & _ & _ & _ & ?)]. done. }
  pose proof (frontier_entry n succs rpo num Hord T HG Hfull Hfits Hn) as He.
  assert (G 0 = [] ↔ ¬ at_frontier n succs 0 0) as HG0.
  { rewrite He. setoid_rewrite <- Hin. destruct (G 0) as [|p ps]; [|split; [done|]].
    - split; [|done]. intros _ [p Hp]. by apply not_elem_of_nil in Hp.
    - intros Hno. exfalso. apply Hno. exists p. left. }
  case_bool_decide as Hp0.
  - exists f1, F1. split_and!; [done..|]. intros a b.
    destruct (decide (a = 0)) as [->|Ha]; [destruct (decide (b = 0)) as [->|Hb]|]; [|apply Hmain; tauto..].
    apply HG0 in Hp0. tauto.
  - rewrite (rd_holds n f1 F1 0 HF1) by lia. cbn [mbind result_bind].
    exists (ta_set f1 0 (F1 0 ++ [0])), (upd F1 0 (F1 0 ++ [0])). split_and!; [done|by apply holds_upd; [|lia]| |].
    + intros x. unfold upd. case_decide; [|done]. apply NoDup_app.
      split_and!; [done| |apply NoDup_singleton]. by intros y Hy ->%list_elem_of_singleton.
    + intros a b. unfold upd. case_decide as Ha; [subst a|by apply Hmain; left].
      rewrite elem_of_app, list_elem_of_singleton. destruct (decide (b = 0)) as [->|Hb].
      * split; [|by right]. intros _. destruct (decide (G 0 = [])) as [|Hne]; [done|].
        apply He. destruct (G 0) as [|p ps] eqn:E; [done|]. exists p. apply Hin. rewrite E. left.
      * rewrite Hmain by tauto. naive_solver.
Qed.
End frontier.
