(* ===== verification/IrDomMain.v ===== *)
(** Dominance is right: what [computeDominance] of src/ir/analysis/dominance.ts
    returns are the reachable blocks, a reverse postorder, the dominators of the
    graph, their tree and their frontiers, all loops end, and the naive check finds
    nothing to report. *)

From S2P Require Import Prelude IrCfg IrDominance IrDomGraph IrDomOk IrDomTree.

(** The answers, told by paths through the graph. *)
Record dominance_of_graph (n : Z) (succs : Z → list Z) (info : DominanceInfo) : Prop := {
  dg_length : Z.of_nat (length (reachable info)) = n;
  dg_reachable b : js_at (reachable info) b = Some true ↔ reach n succs b;
  dg_rpo_once : NoDup (rpo info);
  dg_rpo b : b ∈ rpo info ↔ reach n succs b;
  dg_rpo_entry : 0 < n → js_at (rpo info) 0 = Some 0;
  dg_rpo_order a b : reach n succs b → dom n succs a b → a ≠ b → before (rpo info) a b;
  dg_idom b : 0 ≤ b < n → ∃ i, js_at (idom info) b = Some i ∧
    (b = 0 → i = 0) ∧ (¬ reach n succs b → i = -1) ∧
    (reach n succs b → b ≠ 0 →
      i ≠ b ∧ dom n succs i b ∧ ∀ a, dom n succs a b → a ≠ b → dom n succs a i);
  dg_children a : reach n succs a → ∃ cs, js_at (children info) a = Some cs ∧ NoDup cs ∧
    ∀ c, c ∈ cs ↔ reach n succs c ∧ c ≠ 0 ∧ js_at (idom info) c = Some a;
  dg_preds b : 0 ≤ b < n → ∃ ps, js_at (preds info) b = Some ps ∧ NoDup ps ∧
    ∀ p, p ∈ ps ↔ reach n succs p ∧ edge n succs p b;
  dg_frontier a : 0 ≤ a < n → ∃ fs, js_at (frontier info) a = Some fs ∧ NoDup fs ∧
    ∀ b, b ∈ fs ↔ reach n succs a ∧
      (∃ p, (reach n succs p ∧ edge n succs p b) ∧ dom n succs a p) ∧ ¬ (dom n succs a b ∧ a ≠ b);
  dg_dominates a b : dominates info a b = true ↔ reach n succs a ∧ reach n succs b ∧ dom n succs a b }.

Lemma ordered_before n succs rpo num a b :
  ordered n succs rpo num → reach n succs a → reach n succs b → num a < num b → before rpo a b.
Proof.
  intros Ho Ha Hb Hlt. pose proof (or_range _ _ _ _ Ho a Ha).
  assert (rpo !! Z.to_nat (num a) = Some a) as Hka by (apply (or_rpo _ _ _ _ Ho); split; [done|lia]).
  assert (rpo !! Z.to_nat (num b) = Some b) as Hkb by (apply (or_rpo _ _ _ _ Ho); split; [done|lia]).
  exists (take (Z.to_nat (num a)) rpo), (drop (S (Z.to_nat (num a))) rpo). split; [by rewrite take_drop_middle|].
  apply list_elem_of_lookup. exists (Z.to_nat (num b) - S (Z.to_nat (num a)))%nat.
  rewrite lookup_drop. rewrite <- Hkb. f_equal. lia.
Qed.

Lemma tree_dominates_spec n succs r lin lout tin tout a b :
  (∀ v, js_at r v = Some true ↔ reach n succs v) → holds n lin tin → holds n lout tout →
  (∀ a b, reach n succs a → reach n succs b → tin a ≤ tin b ∧ tout b ≤ tout a ↔ dom n succs a b) →
  tree_dominates n r lin lout a b = true ↔ reach n succs a ∧ reach n succs b ∧ dom n succs a b.
Proof.
  intros Hr Hi Ho Hn. unfold tree_dominates. split.
  - destruct (_ || _) eqn:Hrange; [done|]. assert (0 ≤ a < n ∧ 0 ≤ b < n) as [Ha Hb] by (rewrite !orb_false_iff in Hrange; lia).
    destruct (js_at r a) as [[|]|] eqn:Ea; [|done..]. destruct (js_at r b) as [[|]|] eqn:Eb; [|done..].
    apply Hr in Ea, Eb. rewrite (proj2 Hi a Ha), (proj2 Hi b Hb), (proj2 Ho a Ha), (proj2 Ho b Hb).
    intros ?. split_and!; [done|done|]. apply Hn; [done|done|lia].
  - intros (Ha & Hb & Hd). pose proof (reach_range _ _ _ Ha) as Han. pose proof (reach_range _ _ _ Hb) as Hbn.
    assert ((a <? 0) || (b <? 0) || (n <=? a) || (n <=? b) = false) as -> by lia.
    apply Hn in Hd; [|done..]. apply Hr in Ha, Hb. rewrite Ha, Hb.
    rewrite (proj2 Hi a Han), (proj2 Hi b Hbn), (proj2 Ho a Han), (proj2 Ho b Hbn). lia.
Qed.

Lemma graph_dominance_spec n succs edges :
  0 < n → (sum_list_with (λ v, length (succs v)) (seqZ 0 n) ≤ edges)%nat →
  ∃ info, graph_dominance n succs edges = Ok info ∧ dominance_of_graph n succs info.
Proof.
  intros Hn He. unfold graph_dominance. assert (reach n succs 0) as H0 by by constructor.
  destruct (search_ok n succs edges Hn He) as (r & post & -> & Hf). cbn [mbind result_bind].
  pose proof Hf as (Hlen & Hnd & Hlast & Hrp & Hpr & _).
  destruct (found_ordered n succs r post Hf) as (num & Hord & _ & Hnum).
  set (order := reverse post) in *. set (rpoNum := rpo_numbers n order) in *.
  pose proof (rpo_elem n succs order num Hord) as Hel.
  assert (∀ v, is_reached r v ↔ reach n succs v) as Hr by (intros; by rewrite Hrp, Hpr).
  destruct (all_preds_spec n succs r Hr order ltac:(lia) Hel) as (G & HG & HGd & HGin).
  set (ps := all_preds n succs r order) in *.
  assert (holds n (ta_set (replicate (Z.to_nat n) (-1)) 0 0) start_tree) as Hstart.
  { exact (holds_upd n _ _ 0 0 (holds_replicate n (-1) ltac:(lia)) ltac:(lia)). }
  assert (∀ b, reach n succs b → ∃ l, js_at ps b = Some l ∧ ∀ p, p ∈ l ↔ pred n succs p b) as Hps.
  { intros b Hb. exists (G b). split; [apply HG; by eapply reach_range|apply HGin]. }
  destruct (idom_loop_spec n succs order num Hord rpoNum ps _ Hn Hnum Hps Hstart) as (id & T & -> & Hid & HT & Hfull & Hfits).
  cbn [mbind result_bind]. pose proof (parent_reach n succs num T HT Hfull) as Hup.
  destruct (children_spec n T id order _ (λ _, []) Hid (holds_replicate n [] ltac:(lia))) as (ch & -> & Hch).
  { intros b Hb%Hel. split; [by eapply reach_range|]. by eapply reach_range, Hup. }
  cbn [mbind result_bind app] in *. set (C a := filter (child_of T a) order) in *.
  assert (∀ b, NoDup (C b)) as HCd.
  { intros b. apply NoDup_filter. subst order. by rewrite reverse_Permutation. }
  assert (∀ b c, reach n succs b → c ∈ C b ↔ reach n succs c ∧ c ≠ 0 ∧ T c = b) as HCin.
  { intros b c _. unfold C, child_of. rewrite list_elem_of_filter, bool_decide_spec, Hel. tauto. }
  destruct (number_tree_spec n succs num T (go_tree _ _ _ _ HT) Hfull ch C Hch HCd HCin (2 * Z.to_nat n + 1)
              _ _ _ _ _ _ (number_start n succs T C HCin H0)
              (holds_upd n _ _ 0 0 (holds_replicate n (-1) ltac:(lia)) ltac:(lia))
              (holds_replicate n (-1) ltac:(lia))) as (lin & lout & tin & tout & clock & -> & Hlin & Hlout & Hnu).
  { pose proof (unnumbered_start n Hn). cbn [length]. lia. }
  cbn [mbind result_bind].
  destruct (frontiers_spec n succs order num Hord T HT Hfull Hfits id Hid ps G HG HGin Hn) as (fr & F & -> & HF & HFd & HFin).
  cbn [mbind result_bind]. eexists. split; [reflexivity|].
  split; cbn [reachable rpo idom children preds frontier dominates].
  - done.
  - exact Hr.
  - subst order. by rewrite reverse_Permutation.
  - exact Hel.
  - intros _. apply js_at_Some. split; [done|]. apply (proj2 (or_rpo _ _ _ _ Hord _ _)). split; [done|apply (or_entry _ _ _ _ Hord)].
  - intros a b Hb Hd Hab. apply (ordered_before n succs order num); [done|by eapply dom_reach|done|].
    by destruct (dom_earlier n succs num T HT Hfull Hfits a b Hb Hd).
  - intros b Hb. exists (T b). split_and!; [by apply Hid| | |].
    + intros ->. by apply HT.
    + intros Hu. destruct (decide (T b = -1)) as [|Hne]; [done|]. by apply (tr_reach _ _ _ _ (go_tree _ _ _ _ HT)) in Hne.
    + by apply (parent_idom n succs num T HT Hfull Hfits).
  - intros a Ha. pose proof (reach_range _ _ _ Ha). exists (C a). split_and!; [by apply Hch|done|].
    intros c. rewrite HCin by done. split; intros (Hc & Hc0 & E); (split_and!; [done|done|]);
      rewrite (proj2 Hid c) in * by (by eapply reach_range); congruence.
  - intros b Hb. exists (G b). split_and!; [by apply HG|done|]. apply HGin.
  - intros a Ha. exists (F a). split_and!; [by apply HF|done|]. apply HFin.
  - intros a b. apply (tree_dominates_spec n succs r lin lout tin tout); try done.
    intros a' b' Ha' Hb'. rewrite <- (numbers_nest n succs order num Hord T (go_tree _ _ _ _ HT) Hfull C tin tout clock) by done.
    by apply (anc_dom n succs num T HT Hfull Hfits).
Qed.

(** * On functions *)

Section functions.
Context {Instr Ty Site Rest : Type}.
Implicit Types (fn : IrFunction Instr Ty Site Rest).

(** [fn.blocks[i].id === i] *)
Definition contiguous fn : Prop := ∀ i block, js_at (blocks fn) i = Some block → block_id block = i.

Lemma bad_id_spec (bs : list (IrBlock Instr Ty Site)) k :
  match bad_id bs k with
  | Some (i, id) => ∃ j block, i = k + Z.of_nat j ∧ bs !! j = Some block ∧ block_id block = id ∧ id ≠ i
  | None => ∀ j block, bs !! j = Some block → block_id block = k + Z.of_nat j
  end.
Proof.
  revert k. induction bs as [|b bs IH]; intros k; cbn [bad_id]; [done|].
  destruct (Z.eqb_spec (block_id b) k) as [E|Hne]; cbn [negb].
  - specialize (IH (k + 1)). destruct (bad_id bs (k + 1)) as [[i id]|].
    + destruct IH as (j & block & -> & Hj & Hid & Hd). exists (S j), block. split_and!; [lia|done|done|lia].
    + intros [|j] block Hj; [injection Hj as <-; lia|]. rewrite (IH j block Hj). lia.
  - exists O, b. split_and!; [lia|done|done|lia].
Qed.

Lemma bad_id_contiguous fn : bad_id (blocks fn) 0 = None ↔ contiguous fn.
Proof.
  pose proof (bad_id_spec (blocks fn) 0) as Hs. split.
  - intros E. rewrite E in Hs. intros i block Hi. apply js_at_Some in Hi as [Hi Hj]. rewrite (Hs _ _ Hj). lia.
  - intros Hc. destruct (bad_id (blocks fn) 0) as [[i id]|]; [|done].
    destruct Hs as (j & block & -> & Hj & Hid & Hne). exfalso. apply Hne.
    rewrite <- js_at_nat in Hj. rewrite <- Hid, (Hc _ _ Hj). lia.
Qed.

Lemma edges_bound fn (l : list Z) : (sum_list_with (λ v, length (successors_of fn v)) l ≤ 2 * length l)%nat.
Proof.
  induction l as [|v l IH]; [done|]. cbn [sum_list_with length].
  assert (length (successors_of fn v) ≤ 2)%nat; [|lia]. unfold successors_of, blockSuccessors.
  destruct (js_at (blocks fn) v) as [[? ? ? ? []]|]; simpl; try lia. destruct (_ =? _); simpl; lia.
Qed.

(** C17: The dominance analysis is right.  On a function whose block ids are their
    indices [computeDominance] ends and returns the reachable blocks, a reverse
    postorder of them that has each dominator before what it dominates, each
    block's immediate dominator and predecessors, the dominator tree's children,
    the dominance frontiers, and a [dominates] that says exactly whether every path
    from the entry to [b] goes through [a]; on any other function it throws. *)
Theorem computeDominance_correct fn :
  (contiguous fn → ∃ info, computeDominance fn = Ok info ∧
     dominance_of_graph (Z.of_nat (length (blocks fn))) (successors_of fn) info) ∧
  (¬ contiguous fn → ∃ msg, computeDominance fn = throw EError msg).
Proof.
  unfold computeDominance. split.
  - intros Hc. apply bad_id_contiguous in Hc as ->. destruct (Z.eqb_spec (Z.of_nat (length (blocks fn))) 0) as [E|Hne].
    + eexists. split; [reflexivity|]. rewrite E.
      assert (∀ b, ¬ reach 0 (successors_of fn) b) as Hno by (intros b Hb%reach_range; lia).
      split; cbn; try done; try (intros; lia).
      * intros b. split; [|by intros ?%Hno]. rewrite js_at_Some. by intros [_ ?].
      * constructor.
      * intros b. rewrite elem_of_nil. split; [done|by intros ?%Hno].
      * by intros a b ?%Hno.
      * by intros a ?%Hno.
      * intros a b. split; [done|by intros [?%Hno _]].
    + apply graph_dominance_spec; [lia|].
      pose proof (edges_bound fn (seqZ 0 (Z.of_nat (length (blocks fn))))) as He. rewrite length_seqZ in He. lia.
  - intros Hc. destruct (bad_id (blocks fn) 0) as [[i id]|] eqn:E; [|by apply bad_id_contiguous in E].
    eexists. reflexivity.
Qed.
End functions.

(** Two ways to a join in a loop, and a block that nothing reaches. *)
Definition joined : IrFunction Z unit unit unit :=
  let go b := {| target := b; branch_args := [] |} in
  let blk i t := {| block_id := i; blockArgs := []; blockArgTypes := []; instrs := []; terminator := t |} in
  {| fn_name := js "f"; fn_rest := tt;
     blocks := [blk 0 (TBrIf 0 (go 1) (go 2) None); blk 1 (TBr (go 3) None); blk 2 (TBr (go 3) None);
                blk 3 (TBrIf 1 (go 1) (go 4) None); blk 4 (TReturn [] None); blk 5 (TBr (go 3) None)] |}.

Lemma joined_contiguous : contiguous joined.
Proof. apply bad_id_contiguous. reflexivity. Qed.

Lemma computeDominance_correct_witness :
  contiguous joined ∧
  ∃ info, computeDominance joined = Ok info ∧ idom info = [0; 0; 0; 0; 3; -1] ∧
    frontier info = [[]; [3]; [3]; [1]; []; []] ∧ dominates info 3 4 = true ∧ dominates info 1 3 = false ∧
    dominance_of_graph 6 (successors_of joined) info.
Proof.
  split; [exact joined_contiguous|].
  destruct (proj1 (computeDominance_correct joined) joined_contiguous) as (info & E & Hg).
  exists info. split; [exact E|]. vm_compute in E. injection E as E.
  split; [|split; [|split; [|split; [|exact Hg]]]]; rewrite <- E; vm_compute; reflexivity.
Defined.
