(* ===== verification/IrDomNaive.v ===== *)
(** The naive reference of src/ir/analysis/dominance.ts and its cross-check: the
    walk that leaves a block out finds what can be reached without it, so the
    reference sets are the dominators, and the cross-check of what
    [computeDominance] returns reports nothing. *)

From S2P Require Import Prelude IrCfg IrDominance IrDomGraph IrDomOk IrDomTree IrDomMain.

(** A counted loop keeps an invariant of its index. *)
Lemma for_n_invariant {S} (P : Z → S → Prop) (m : nat) i body (s : S) :
  P i s → (∀ j s, i ≤ j < i + Z.of_nat m → P j s → ∃ s', body j s = Ok s' ∧ P (j + 1) s') →
  ∃ s', for_n m i body s = Ok s' ∧ P (i + Z.of_nat m) s'.
Proof.
  revert i s. induction m as [|m IH]; intros i s Hs Hstep; cbn [for_n].
  { exists s. split; [done|]. by rewrite Z.add_0_r. }
  destruct (Hstep i s ltac:(lia) Hs) as (s1 & -> & Hs1). cbn [mbind result_bind].
  destruct (IH (i + 1) s1 Hs1) as (s2 & -> & Hs2); [intros j s' Hj; apply Hstep; lia|].
  exists s2. split; [done|]. by replace (i + Z.of_nat (Datatypes.S m)) with (i + 1 + Z.of_nat m) by lia.
Qed.

Section naive.
Context {Instr Ty Site Rest : Type} (fn : IrFunction Instr Ty Site Rest).

Let n := Z.of_nat (length (blocks fn)).
Let succs := successors_of fn.

Definition avoiding (removed b : Z) : Prop := ∃ l, path n succs l b ∧ removed ∉ l.

Record walking (removed : Z) (seen : list bool) (stack : list Z) : Prop := {
  wa_length : Z.of_nat (length seen) = n;
  wa_seen v : is_reached seen v → avoiding removed v;
  wa_entry : is_reached seen 0;
  wa_stack v : v ∈ stack → is_reached seen v;
  wa_edges v s : is_reached seen v → v ∉ stack → edge n succs v s → s ≠ removed → is_reached seen s }.

Definition unseen (seen : list bool) (v : Z) : nat := if unvisited seen v then 1 else 0.

(** The walk over the successors of [b], which is off the stack already. *)
Record stepping (removed b : Z) (todo : list Z) (st : list bool * list Z) : Prop := {
  st_length : Z.of_nat (length st.1) = n;
  st_seen v : is_reached st.1 v → avoiding removed v;
  st_entry : is_reached st.1 0;
  st_here : is_reached st.1 b;
  st_stack v : v ∈ st.2 → is_reached st.1 v;
  st_edges v s : is_reached st.1 v → v ∉ st.2 → v ≠ b → edge n succs v s → s ≠ removed → is_reached st.1 s;
  st_done s : edge n succs b s → s ∉ todo → s ≠ removed → is_reached st.1 s }.

Definition walk_work (st : list bool * list Z) : nat := sum_list_with (unseen st.1) (seqZ 0 n) + length st.2.

Lemma see_succ_step removed b s todo st :
  stepping removed b (s :: todo) st → s ∈ succs b →
  stepping removed b todo (see_succ removed st s) ∧ walk_work (see_succ removed st s) = walk_work st.
Proof.
  intros Hst Hs. unfold see_succ. destruct (Z.eqb_spec s removed) as [->|Hne]; cbn [negb andb].
  { split; [|done]. destruct (id Hst). split; try done. intros s He Hn Hsr. apply (st_done _ _ _ _ Hst); [done| |done].
    by apply not_elem_of_cons. }
  destruct (unvisited st.1 s) eqn:Hu.
  - pose proof (proj1 (unvisited_spec _ _) Hu) as [Hr Hv]. pose proof (st_length _ _ _ _ Hst) as Hlen.
    assert (edge n succs b s) as He by (split; [done|lia]).
    assert (∀ v, is_reached (ta_set st.1 s true) v ↔ v = s ∨ is_reached st.1 v) as Hset by (intros; by apply is_reached_set).
    split; [split; cbn [fst snd]|].
    + by rewrite length_ta_set.
    + intros v [->|Hv']%Hset; [|by apply (st_seen _ _ _ _ Hst)].
      destruct (st_seen _ _ _ _ Hst b (st_here _ _ _ _ Hst)) as (l & Hl & Ha).
      exists (s :: l). split; [by econstructor|]. by apply not_elem_of_cons.
    + apply Hset. right. apply (st_entry _ _ _ _ Hst).
    + apply Hset. right. apply (st_here _ _ _ _ Hst).
    + intros v Hin. apply Hset. apply elem_of_cons in Hin as [->|Hin]; [by left|right].
      by apply (st_stack _ _ _ _ Hst).
    + intros v s' [->|Hv']%Hset Hn; [by apply not_elem_of_cons in Hn as [? _]|].
      apply not_elem_of_cons in Hn as [_ Hn]. intros Hvb He' Hs'. apply Hset. right.
      by apply (st_edges _ _ _ _ Hst v s').
    + intros s' He' Hn Hs'. apply Hset. destruct (decide (s' = s)) as [->|Hss]; [by left|right].
      apply (st_done _ _ _ _ Hst); [done|by apply not_elem_of_cons|done].
    + unfold walk_work. cbn [fst snd length].
      rewrite (sum_list_change (unseen st.1) (unseen (ta_set st.1 s true)) (seqZ 0 n) s 1); [lia|apply NoDup_seqZ|apply elem_of_seqZ; lia| |].
      * unfold unseen. rewrite Hu. destruct (unvisited (ta_set st.1 s true) s) eqn:E; [|done].
        apply unvisited_spec in E as [_ E]. exfalso. apply E. apply Hset. by left.
      * intros y Hy. unfold unseen, unvisited. rewrite js_at_ta_set. rewrite decide_False by (intros [-> _]; done). done.
  - split; [|done]. destruct (id Hst). split; try done. intros s' He Hn Hsr.
    destruct (decide (s' = s)) as [->|Hss]; [|apply (st_done _ _ _ _ Hst); [done|by apply not_elem_of_cons|done]].
    destruct (js_at st.1 s) as [[|]|] eqn:E; [done| |].
    + unfold unvisited in Hu. by rewrite E in Hu.
    + destruct He as [_ Hr]. assert (is_Some (js_at st.1 s)) as [? ?]; [|congruence].
      apply js_at_is_Some. pose proof (st_length _ _ _ _ Hst). lia.
Qed.

Lemma see_succs removed b todo st :
  stepping removed b todo st → (∀ s, s ∈ todo → s ∈ succs b) →
  stepping removed b [] (foldl (see_succ removed) st todo) ∧ walk_work (foldl (see_succ removed) st todo) = walk_work st.
Proof.
  revert st. induction todo as [|s todo IH]; intros st Hst Hin; [done|]. cbn [foldl].
  destruct (see_succ_step removed b s todo st Hst (Hin s ltac:(left))) as [Hst' <-].
  apply IH; [done|]. intros; apply Hin; by right.
Qed.

Lemma walk_spec fuel removed seen stack :
  walking removed seen stack → (walk_work (seen, stack) < fuel)%nat →
  ∃ seen', walk fuel fn removed seen stack = Ok seen' ∧ walking removed seen' [].
Proof.
  revert seen stack. induction fuel as [|fuel IH]; intros seen stack Hw Hf; [lia|]. cbn [walk].
  destruct stack as [|b rest]; [by exists seen|].
  assert (is_reached seen b) as Hb by (apply (wa_stack _ _ _ Hw); left).
  assert (∃ block, js_at (blocks fn) b = Some block) as [block Hblock].
  { apply js_at_is_Some. apply (wa_seen _ _ _ Hw) in Hb as (l & Hl & _).
    apply (reach_range n succs). apply reach_path. by exists l. }
  rewrite Hblock. assert (blockSuccessors block = succs b) as -> by (unfold succs, successors_of; by rewrite Hblock).
  assert (stepping removed b (succs b) (seen, rest)) as Hst.
  { split; cbn [fst snd].
    - exact (wa_length _ _ _ Hw).
    - exact (wa_seen _ _ _ Hw).
    - exact (wa_entry _ _ _ Hw).
    - done.
    - intros v Hv. apply (wa_stack _ _ _ Hw). by right.
    - intros v s Hv Hn Hvb. apply (wa_edges _ _ _ Hw v s Hv). by apply not_elem_of_cons.
    - intros s [He _] Hn. done. }
  destruct (see_succs removed b (succs b) (seen, rest) Hst ltac:(done)) as [Hst' Hwork].
  destruct (foldl (see_succ removed) (seen, rest) (succs b)) as [seen' stack'] eqn:Ef. cbn [fst snd].
  apply IH.
  - split; cbn [fst snd].
    + exact (st_length _ _ _ _ Hst').
    + exact (st_seen _ _ _ _ Hst').
    + exact (st_entry _ _ _ _ Hst').
    + exact (st_stack _ _ _ _ Hst').
    + intros v s Hv Hn He Hs. destruct (decide (v = b)) as [->|Hvb].
      * apply (st_done _ _ _ _ Hst'); [done|apply not_elem_of_nil|done].
      * by apply (st_edges _ _ _ _ Hst' v s).
  - rewrite Hwork. unfold walk_work in *. simpl in *. lia.
Qed.

Context (Hn : 0 < n).

Lemma walking_start removed :
  removed ≠ 0 → walking removed (ta_set (replicate (length (blocks fn)) false) 0 true) [0].
Proof.
  intros H0. assert (∀ v, is_reached (ta_set (replicate (length (blocks fn)) false) 0 true) v ↔ v = 0) as Hr.
  { intros v. rewrite is_reached_set by (rewrite length_replicate; lia). unfold is_reached.
    split; [|by left]. intros [|Hv]; [done|]. apply js_at_Some in Hv as [_ Hv].
    by apply lookup_replicate in Hv as [? _]. }
  split.
  - by rewrite length_ta_set, length_replicate.
  - intros v ->%Hr. exists [0]. split; [by constructor|]. by rewrite list_elem_of_singleton.
  - by apply Hr.
  - intros v ->%list_elem_of_singleton. by apply Hr.
  - intros v s ->%Hr Hv. exfalso. apply Hv. left.
Qed.

Lemma reachableWithout_spec removed :
  ∃ seen, reachableWithout fn removed = Ok seen ∧ Z.of_nat (length seen) = n ∧
    ∀ v, is_reached seen v ↔ avoiding removed v.
Proof.
  unfold reachableWithout. destruct (Z.eqb_spec removed 0) as [->|H0].
  - eexists. split; [reflexivity|]. split; [by rewrite length_replicate|]. intros v. unfold is_reached. split.
    + intros [_ Hv]%js_at_Some. by apply lookup_replicate in Hv as [? _].
    + intros (l & Hl & Ha). exfalso. apply Ha. clear Ha. induction Hl as [|l p b Hl IH He]; [left|by right].
  - destruct (walk_spec (S (length (blocks fn))) removed _ _ (walking_start removed H0)) as (seen & E & Hw).
    { unfold walk_work. cbn [fst snd length]. set (seen := ta_set _ 0 true).
      assert (sum_list_with (unseen seen) (seqZ 0 n) < length (blocks fn))%nat; [|lia].
      assert (∀ l : list Z, sum_list_with (λ _, 1%nat) l = length l) as Hone.
      { induction l as [|? l IH]; [done|]. cbn [sum_list_with length]. by rewrite IH. }
      assert (length (blocks fn) = length (seqZ 0 n)) as -> by (rewrite length_seqZ; lia). rewrite <- Hone.
      apply (sum_list_lt _ _ _ 0).
      - intros y _. unfold unseen. destruct (unvisited seen y); lia.
      - apply elem_of_seqZ. lia.
      - unfold unseen. destruct (unvisited seen 0) eqn:Eu; [|lia]. apply unvisited_spec in Eu as [_ Eu].
        exfalso. apply Eu. apply (wa_entry _ _ _ (walking_start removed H0)). }
    exists seen. split; [done|]. split; [apply Hw|]. intros v. split; [apply Hw|].
    intros (l & Hl & Ha). induction Hl as [|l p b Hl IH He]; [apply Hw|].
    apply not_elem_of_cons in Ha as [Hb Ha]. apply (wa_edges _ _ _ Hw p b); [by apply IH|apply not_elem_of_nil|done|done].
Qed.

Lemma avoiding_reach removed b : removed < 0 → avoiding removed b ↔ reach n succs b.
Proof.
  intros Hr. rewrite reach_path. split; [intros (l & Hl & _); by exists l|]. intros [l Hl]. exists l. split; [done|].
  intros Hin. destruct (path_split n succs l b removed Hl Hin) as (l' & Hl' & _).
  assert (reach n succs removed) as Hrr by (apply reach_path; by exists l'). apply reach_range in Hrr. lia.
Qed.

Lemma not_avoiding a b : ¬ avoiding a b ↔ dom n succs a b.
Proof.
  split.
  - intros Hna l Hl. destruct (decide (a ∈ l)) as [|Hni]; [done|]. exfalso. apply Hna. by exists l.
  - intros Hd (l & Hl & Ha). by apply Ha, Hd.
Qed.

Lemma rd_reached (r : list bool) v (P : Z → Prop) :
  Z.of_nat (length r) = n → (∀ v, is_reached r v ↔ P v) → 0 ≤ v < n → ∃ x : bool, rd r v = Ok x ∧ (x = true ↔ P v).
Proof.
  intros Hl HP Hv. assert (is_Some (js_at r v)) as [x Hx] by (apply js_at_is_Some; lia).
  exists x. unfold rd. rewrite Hx. split; [done|]. rewrite <- HP. unfold is_reached. rewrite Hx. naive_solver.
Qed.

Lemma elem_add_to x y set : x ∈ add_to y set ↔ x ∈ set ∨ x = y.
Proof.
  unfold add_to. case_bool_decide; [|by rewrite elem_of_app, list_elem_of_singleton].
  split; [by left|]. by intros [?| ->].
Qed.

(** What the naive sets say. *)
Definition dominating (a b : Z) : Prop := reach n succs a ∧ reach n succs b ∧ dom n succs a b.

Lemma naive_entry_spec baseline seen a b D G :
  Z.of_nat (length baseline) = n → (∀ v, is_reached baseline v ↔ reach n succs v) →
  Z.of_nat (length seen) = n → (∀ v, is_reached seen v ↔ avoiding a v) →
  0 ≤ a < n → 0 ≤ b < n → holds n D G →
  ∃ D' G', naive_entry baseline seen a b D = Ok D' ∧ holds n D' G' ∧
    ∀ y x, x ∈ G' y ↔ x ∈ G y ∨ x = a ∧ y = b ∧ dominating x y.
Proof.
  intros Hbl Hb Hsl Hs Ha Hbn HD. unfold naive_entry.
  destruct (rd_reached baseline b _ Hbl Hb Hbn) as (rb & -> & Hrb). cbn [mbind result_bind].
  destruct (rd_reached baseline a _ Hbl Hb Ha) as (ra & -> & Hra). cbn [mbind result_bind].
  destruct (negb rb || negb ra) eqn:E.
  { exists D, G. split_and!; [done|done|]. intros y x. split; [by left|]. intros [?|(-> & -> & Hx & Hy & _)]; [done|].
    apply Hrb in Hy. apply Hra in Hx. by rewrite Hx, Hy in E. }
  assert (rb = true ∧ ra = true) as [Hb' Ha'] by (by destruct rb, ra). apply Hrb in Hb'. apply Hra in Ha'.
  destruct (rd_reached seen b _ Hsl Hs Hbn) as (s & -> & Hsv). cbn [mbind result_bind].
  assert ((b =? a) || negb s = true ↔ dom n succs a b) as Hd.
  { rewrite orb_true_iff, Z.eqb_eq, negb_true_iff, <- not_avoiding, <- Hsv, not_true_iff_false. split; [|by right].
    intros [->|?]; [|done]. apply not_true_iff_false. rewrite Hsv, not_avoiding. apply dom_refl. }
  destruct ((b =? a) || negb s) eqn:Ed.
  - assert (dominating a b) as Hdm by (split_and!; [done|done|by apply Hd]).
    rewrite (rd_holds n D G b HD Hbn). cbn [mbind result_bind].
    exists (ta_set D b (add_to a (G b))), (upd G b (add_to a (G b))). split_and!; [done|by apply holds_upd|].
    intros y x. unfold upd. case_decide as Hy; [subst y; rewrite elem_add_to|split; [by left|by intros [?|(_ & -> & _)]]].
    split; [by intros [?| ->]; [left|right]|]. by intros [?|(-> & _)]; [left|right].
  - exists D, G. split_and!; [done|done|]. intros y x. split; [by left|]. intros [?|(-> & -> & _ & _ & Hdom)]; [done|].
    by apply Hd in Hdom.
Qed.

Lemma naive_spec : ∃ D G, computeDominanceNaive fn = Ok D ∧ holds n D G ∧ ∀ b a, a ∈ G b ↔ dominating a b.
Proof.
  unfold computeDominanceNaive. destruct (reachableWithout_spec (-1)) as (baseline & -> & Hbl & Hb).
  cbn [mbind result_bind]. assert (∀ v, is_reached baseline v ↔ reach n succs v) as Hb'.
  { intros v. rewrite Hb. by apply avoiding_reach. }
  destruct (for_n_invariant (λ i D, ∃ G, holds n D G ∧ ∀ y x, x ∈ G y ↔ 0 ≤ x < i ∧ dominating x y)
              (length (blocks fn)) 0 (naive_row fn baseline) (replicate (length (blocks fn)) []))
    as (D & -> & G & HG & Hin).
  - exists (λ _, []). split.
    { assert (length (blocks fn) = Z.to_nat n) as -> by lia. apply holds_replicate. lia. }
    intros y x. rewrite elem_of_nil. split; [done|lia].
  - intros a D Ha (G & HG & Hin). unfold naive_row.
    destruct (reachableWithout_spec a) as (seen & -> & Hsl & Hs). cbn [mbind result_bind].
    destruct (for_n_invariant (λ i D, ∃ G', holds n D G' ∧ ∀ y x, x ∈ G' y ↔ x ∈ G y ∨ x = a ∧ 0 ≤ y < i ∧ dominating x y)
                (length (blocks fn)) 0 (naive_entry baseline seen a) D) as (D' & -> & G' & HG' & Hin').
    + exists G. split; [done|]. intros y x. split; [by left|]. intros [?|(_ & ? & _)]; [done|lia].
    + intros b D1 Hbn (G1 & HG1 & Hin1).
      destruct (naive_entry_spec baseline seen a b D1 G1) as (D2 & G2 & -> & HG2 & Hin2); try done; try lia.
      exists D2. split; [done|]. exists G2. split; [done|]. intros y x. rewrite Hin2, Hin1.
      assert (0 ≤ y < b + 1 ↔ 0 ≤ y < b ∨ y = b) as -> by lia. naive_solver.
    + exists D'. split; [done|]. exists G'. split; [done|]. intros y x. rewrite Hin', Hin.
      assert (0 ≤ x < a + 1 ↔ 0 ≤ x < a ∨ x = a) as -> by lia.
      assert (dominating x y → 0 ≤ y < 0 + Z.of_nat (length (blocks fn))) as Hy.
      { intros (_ & Hy%reach_range & _). lia. }
      naive_solver.
  - exists D, G. split_and!; [done|done|]. intros b a. rewrite Hin. split; [by intros [_ ?]|].
    intros Hd. split; [|done]. destruct Hd as (Ha%reach_range & _). lia.
Qed.

(** * The cross-check *)

Lemma report_none set other msg errors : (∀ b, b ∈ set → b ∈ other) → report set other msg errors = errors.
Proof.
  unfold report. revert errors. induction set as [|b set IH]; intros errors Hin; [done|]. cbn [foldl].
  rewrite bool_decide_true by (apply Hin; left). apply IH. intros; apply Hin; by right.
Qed.

Lemma elem_set_of (fs set : list Z) x : x ∈ foldl (λ set b, add_to b set) set fs ↔ x ∈ set ∨ x ∈ fs.
Proof.
  revert set. induction fs as [|b fs IH]; intros set; cbn [foldl]; [rewrite elem_of_nil; tauto|].
  rewrite IH, elem_add_to, elem_of_cons. tauto.
Qed.

Section checked.
Context (info : DominanceInfo) (Hg : dominance_of_graph n succs info).

Lemma check_pair_agrees D G a b errors :
  holds n D G → (∀ b a, a ∈ G b ↔ dominating a b) → 0 ≤ a < n → 0 ≤ b < n →
  check_pair fn info D a b errors = Ok errors.
Proof.
  intros HD Hin Ha Hb. unfold check_pair.
  destruct (rd_reached (reachable info) a _ (dg_length _ _ _ Hg) (dg_reachable _ _ _ Hg) Ha) as (ra & -> & Hra).
  destruct (rd_reached (reachable info) b _ (dg_length _ _ _ Hg) (dg_reachable _ _ _ Hg) Hb) as (rb & -> & Hrb).
  cbn [mbind result_bind]. pose proof (dg_dominates _ _ _ Hg a b) as Hd.
  destruct (ra && rb) eqn:E.
  - rewrite (rd_holds n D G b HD Hb). cbn [mbind result_bind].
    assert (dominates info a b = bool_decide (a ∈ G b)) as ->; [|by rewrite eqb_reflx].
    apply eq_true_iff_eq. by rewrite bool_decide_eq_true, Hin.
  - cbn [mbind result_bind]. assert (dominates info a b = false) as ->; [|done].
    apply not_true_iff_false. rewrite Hd, <- Hra, <- Hrb. intros (-> & -> & _). done.
Qed.

Lemma expect_block_spec a b expected :
  reach n succs a → 0 ≤ b < n →
  ∃ e', expect_block info a b expected = Ok e' ∧ ∀ x, x ∈ e' ↔ x ∈ expected ∨ x = b ∧ at_frontier n succs a x.
Proof.
  intros Ha Hb. unfold expect_block.
  destruct (rd_reached (reachable info) b _ (dg_length _ _ _ Hg) (dg_reachable _ _ _ Hg) Hb) as (rb & -> & Hrb).
  cbn [mbind result_bind]. destruct rb; cbn [negb].
  2: { exists expected. split; [done|]. intros x. split; [by left|]. intros [?|(-> & _ & (p & [Hp He] & _) & _)]; [done|].
       assert (reach n succs b) as Hr by (by eapply reach_edge). by apply Hrb in Hr. }
  assert (reach n succs b) as Hbr by (by apply Hrb).
  assert (negb (a =? b) && dominates info a b = true ↔ dom n succs a b ∧ a ≠ b) as Hs.
  { rewrite andb_true_iff, negb_true_iff, Z.eqb_neq, (dg_dominates _ _ _ Hg). tauto. }
  destruct (negb (a =? b) && dominates info a b) eqn:E.
  { exists expected. split; [done|]. intros x. split; [by left|]. intros [?|(-> & _ & _ & Hno)]; [done|].
    exfalso. by apply Hno, Hs. }
  destruct (dg_preds _ _ _ Hg b Hb) as (ps & Eps & _ & Hps). assert (rd (preds info) b = Ok ps) as -> by (unfold rd; by rewrite Eps).
  cbn [mbind result_bind].
  assert (existsb (dominates info a) ps = true ↔ at_frontier n succs a b) as Hf.
  { rewrite existsb_exists. unfold at_frontier, pred. setoid_rewrite (dg_dominates _ _ _ Hg). split.
    - intros (p & Hp%list_elem_of_In & (_ & _ & Hd)). split_and!; [done|exists p; split; [by apply Hps|done]|].
      intros Hno%Hs. done.
    - intros (_ & (p & Hp & Hd) & _). exists p. split; [apply list_elem_of_In; by apply Hps|]. split_and!; [done|apply Hp|done]. }
  destruct (existsb (dominates info a) ps).
  - exists (add_to b expected). split; [done|]. intros x. rewrite elem_add_to. split.
    + intros [?| ->]; [by left|right; split; [done|by apply Hf]].
    + by intros [?|[-> _]]; [left|right].
  - exists expected. split; [done|]. intros x. split; [by left|]. intros [?|[-> Hx]]; [done|]. by apply Hf in Hx.
Qed.

Lemma check_frontier_agrees a errors : 0 ≤ a < n → check_frontier fn info a errors = Ok errors.
Proof.
  intros Ha. unfold check_frontier.
  destruct (rd_reached (reachable info) a _ (dg_length _ _ _ Hg) (dg_reachable _ _ _ Hg) Ha) as (ra & -> & Hra).
  cbn [mbind result_bind]. destruct ra; [|done]. cbn [negb]. assert (reach n succs a) as Har by (by apply Hra).
  destruct (for_n_invariant (λ i e, ∀ x, x ∈ e ↔ 0 ≤ x < i ∧ at_frontier n succs a x)
              (length (blocks fn)) 0 (expect_block info a) []) as (e & -> & He).
  { intros x. rewrite elem_of_nil. split; [done|lia]. }
  { intros b e Hb He. destruct (expect_block_spec a b e Har) as (e' & E & Hin); [lia|].
    exists e'. split; [done|]. intros x. rewrite Hin, He.
    assert (0 ≤ x < b + 1 ↔ 0 ≤ x < b ∨ x = b) as -> by lia. tauto. }
  cbn [mbind result_bind]. destruct (dg_frontier _ _ _ Hg a Ha) as (fs & Efs & _ & Hfs).
  assert (rd (frontier info) a = Ok fs) as -> by (unfold rd; by rewrite Efs). cbn [mbind result_bind].
  assert (∀ x, x ∈ e ↔ x ∈ fs) as Hsame.
  { intros x. rewrite He, Hfs. split; [by intros [_ ?]|]. intros Hx. split; [|done].
    destruct Hx as (_ & (p & [_ [_ Hr]] & _) & _). lia. }
  rewrite !report_none; [done| |]; intros b; rewrite elem_set_of, elem_of_nil, Hsame; tauto.
Qed.

Lemma cross_check_agrees : crossCheckDominance fn info = Ok [].
Proof.
  unfold crossCheckDominance. destruct naive_spec as (D & G & -> & HD & Hin). cbn [mbind result_bind].
  destruct (for_n_invariant (λ _ e, e = []) (length (blocks fn)) 0 (check_row fn info D) []) as (e & -> & ->); [done| |].
  { intros a e Ha ->. exists []. split; [|done]. unfold check_row.
    destruct (for_n_invariant (λ _ e, e = []) (length (blocks fn)) 0 (check_pair fn info D a) []) as (e & -> & ->); try done.
    intros b e Hb ->. exists []. split; [|done]. apply (check_pair_agrees D G); try done; lia. }
  cbn [mbind result_bind].
  destruct (for_n_invariant (λ _ e, e = []) (length (blocks fn)) 0 (check_frontier fn info) []) as (e & -> & ->); try done.
  intros a e Ha ->. exists []. split; [|done]. apply check_frontier_agrees. lia.
Qed.
End checked.
End naive.

Section cross.
Context {Instr Ty Site Rest : Type} (fn : IrFunction Instr Ty Site Rest).

(** C40: the fast analysis agrees with the naive reference: on what
    [computeDominance] returns for a function with blocks, [crossCheckDominance]
    ends and reports no disagreement, neither about [dominates] nor about a
    frontier.  For a function without blocks, which [computeDominance] accepts, the
    check throws a TypeError. *)
Theorem crossCheckDominance_agrees info (Hinfo : computeDominance fn = Ok info) :
  match blocks fn with
  | [] => ∃ msg, crossCheckDominance fn info = throw ETypeError msg
  | _ :: _ => crossCheckDominance fn info = Ok []
  end.
Proof.
  destruct (blocks fn) as [|b bs] eqn:Eb.
  - eexists. unfold crossCheckDominance, computeDominanceNaive, reachableWithout. rewrite Eb. cbn. by rewrite Eb.
  - assert (contiguous fn) as Hc.
    { apply bad_id_contiguous. unfold computeDominance in Hinfo. by destruct (bad_id (blocks fn) 0) as [[]|]. }
    destruct (bad_id (blocks fn) 0) as [|] eqn:Ec; [by apply bad_id_contiguous in Hc; rewrite Hc in Ec|].
    destruct (graph_dominance_spec (Z.of_nat (length (blocks fn))) (successors_of fn) (2 * length (blocks fn)))
      as (info' & E & Hg).
    { rewrite Eb. simpl. lia. }
    { pose proof (edges_bound fn (seqZ 0 (Z.of_nat (length (blocks fn))))) as He. rewrite length_seqZ in He. lia. }
    apply cross_check_agrees; [rewrite Eb; simpl; lia|].
    unfold computeDominance in Hinfo. rewrite Ec in Hinfo.
    destruct (Z.eqb_spec (Z.of_nat (length (blocks fn))) 0); [rewrite Eb in *; simpl in *; lia|]. congruence.
Qed.
End cross.

Lemma crossCheckDominance_agrees_witness :
  ∃ info, computeDominance joined = Ok info ∧ crossCheckDominance joined info = Ok [].
Proof.
  destruct (computeDominance joined) as [info|e] eqn:E; [|vm_compute in E; discriminate].
  exists info. split; [reflexivity|]. exact (crossCheckDominance_agrees joined info E).
Defined.
