(* ===== verification/IrNodes.v ===== *)
(** The instructions of the middle-end IR: src/ir/core/nodes.ts with its dialect of
    JavaScript operations (src/ir/core/dialect/js.ts) and its references
    (value-references.ts, capability-provenance.ts, string-types.ts), and the one
    authority on which instructions carry buffers of instructions and which values
    each of them reads.

    A value id, a label, a slot and an allocation site are integers.  A float is a
    [spec_float].  The types of the IR are opaque here ([IrTypes]): the passes copy them.
    Buffers are lists; a function that keeps the identity of an unchanged array or
    instruction returns [None] for it. *)

From Stdlib Require Import SpecFloat.
From S2P Require Import Prelude WasmModel.

(** * Types and references *)

(** Types, class and constructor shapes and source sites: what the passes copy. *)
Class IrTypes := { IrType : Type; IrClassShape : Type; IrFnctorShape : Type; IrSiteId : Type }.

Inductive IrCallableBinding :=
  | CUnit (unitId : jsstr)
  | CImport (module field : jsstr) (capabilityId providerId : option jsstr)
  | CRuntime (symbol : jsstr)
  | CIntrinsic (symbol : jsstr)
  | CSupport (bindingId : jsstr).

Record IrFuncRef := mkFuncRef { fr_name : jsstr; fr_binding : IrCallableBinding }.

(** [dom] is the capability ["dom"] of a source global. *)
Inductive IrGlobalBinding :=
  | GSource (bindingId : jsstr) (dom : bool)
  | GImport (bindingId module field : jsstr)
  | GRuntime (bindingId symbol : jsstr)
  | GSupport (bindingId : jsstr).

Record IrGlobalRef := mkGlobalRef { gr_name : jsstr; gr_binding : IrGlobalBinding }.

Record IrDomCallbackAuthority := { da_ownerUnitId : jsstr; da_liftedOrdinal : Z }.

Inductive IrStringEncoding := Ascii_ | Utf8Guaranteed | Wtf16.
Inductive IrStringConcatMode := Immutable | OwnedAppend.
(** The kinds that a call can have: [static] is excluded in both uses. *)
Inductive IrClassMemberKind := Method | Getter | Setter.

(** * Operators *)

Inductive IrBinop :=
  | F64Add | F64Sub | F64Mul | F64Div | F64Copysign
  | F64Eq | F64Ne | F64Lt | F64Le | F64Gt | F64Ge
  | I32Eq | I32Ne | I32And | I32Or | I64Eq
  | I32Add | I32Sub | I32Mul | I64RemS
  | I32LtS | I32LeS | I32GtS | I32GeS | I32LtU | I32LeU | I32GtU | I32GeU
  | JsBitand | JsBitor | JsBitxor | JsShl | JsShrS | JsShrU.

Inductive IrUnop :=
  | F64Neg | F64ReinterpretI64 | I64ReinterpretF64 | I32Eqz | I32TruncSatF64S | I64TruncF64S
  | F64ConvertI32S | F64ConvertI64S | F64Abs | F64Sqrt | F64Floor | F64Ceil | F64Trunc | RefIsNull.

Inductive IrIntrinsicProvider :=
  | PBackendOp (opcode : string)
  | PBackendSequence (sequence : string)
  | PBackendComposite (operation : string)
  | PCallable (target : IrFuncRef).

Inductive IrOwnTest := HasOwnProperty | PropertyIsEnumerable.
Inductive IrBrMode := MBreak | MContinue.

#[global] Instance IrBrMode_eq_dec : EqDecision IrBrMode.
Proof. solve_decision. Defined.

Section nodes.
Context `{IrTypes}.

Inductive IrConst :=
  | CI32 (value : Z)
  | CI64 (value : Z)
  | CF32 (value : spec_float)
  | CF64 (value : spec_float)
  | CBool (value : bool)
  | CNull (ty : IrType)
  | CUndefined.

Record IrClosureSignature := mkSignature {
  cs_params : list IrType; cs_defaultParamStart : option Z; cs_returnType : option IrType }.

Record IrObjectShape := mkObjectShape { os_fields : list (jsstr * IrType) }.

Inductive IrStringLengthProvider :=
  | LCallable (target : IrFuncRef)
  | LStructField (ownerType : jsstr) (fieldIndex : Z).

(** What every instruction has. *)
Record IrInstrBase := mkBase {
  result_ : option Z; resultType : option IrType; site : option IrSiteId; alloc : option Z }.

(** * Instructions *)

(** The kinds without buffers. *)
Inductive IrLeaf :=
  | IrInstrConst (value : IrConst)
  | IrInstrCall (target : IrFuncRef) (args : list Z)
  | IrInstrIntrinsic (id : string) (version : Z) (args : list Z) (provider : option IrIntrinsicProvider)
  | IrInstrGlobalGet (target : IrGlobalRef)
  | IrInstrGlobalSet (target : IrGlobalRef) (value : Z)
  | IrInstrBinary (op : IrBinop) (lhs rhs : Z)
  | IrInstrUnary (op : IrUnop) (rand : Z)
  | IrInstrSelect (condition whenTrue whenFalse : Z)
  | IrInstrRawWasm (ops : list Instr) (stackDelta : Z)
  | IrInstrBox (value : Z) (toType : IrType)
  | IrInstrUnbox (value : Z) (tag : option ValType) (tagId : option Z)
  | IrInstrTagTest (value : Z) (tag : option ValType) (tagId : option Z)
  | IrInstrDynTruthy (value : Z)
  | IrInstrDynUndefined
  | IrInstrDynTypeof (value : Z)
  | IrInstrDynToString (value : Z)
  | IrInstrDynJsonStringify (value : Z)
  | IrInstrDynObjectTag (value : Z)
  | IrInstrDynConstruct (callee : Z) (args : list Z)
  | IrInstrDynStringCarrier (value : Z)
  | IrInstrDynArgumentsLength (formals : Z)
  | IrInstrDynCurrentThis (strict : bool)
  | IrInstrDynGlobalObject
  | IrInstrDynInstanceOfFunction (value : Z) (target : IrFuncRef)
  | IrInstrDynInstanceOf (value target : Z)
  | IrInstrDynPublishArgc (count : Z)
  | IrInstrDynOwnProperty (receiver key : Z) (test : IrOwnTest)
  | IrInstrDynToNumber (value : Z)
  | IrInstrDynEq (lhs rhs : Z) (loose negate : bool)
  | IrInstrDynMemberGet (recv key : Z)
  | IrInstrDynMemberSet (recv key value : Z) (sloppy : bool)
  | IrInstrStringConst (value : jsstr) (storage : option IrGlobalRef) (materializer : option IrFuncRef)
  | IrInstrStringConcat (lhs rhs : Z) (encodingEvidence : option IrStringEncoding) (concatMode : option IrStringConcatMode) (provider : option IrFuncRef)
  | IrInstrStringRepeat (value count : Z) (encodingEvidence : IrStringEncoding) (provider : option IrFuncRef) (countedStringAppendSite : option jsstr) (tripCount : option Z)
  | IrInstrStringEq (lhs rhs : Z) (negate : bool) (provider : option IrFuncRef)
  | IrInstrStringLen (value : Z) (inputEncoding : option IrStringEncoding) (provider : option IrStringLengthProvider)
  | IrInstrStringCharAt (value index : Z) (inputEncoding encodingEvidence : IrStringEncoding) (provider : option IrFuncRef)
  | IrInstrStringCharCodeAt (value index : Z) (inputEncoding : IrStringEncoding) (provider : option IrFuncRef)
  | IrInstrFnctorNew (shape : IrFnctorShape) (captureArgs args : list Z) (constructorIdentity : option Z)
  | IrInstrFnctorGet (shape : IrFnctorShape) (value : Z) (fieldName : jsstr)
  | IrInstrObjectNew (shape : IrObjectShape) (values : list Z)
  | IrInstrObjectGet (value : Z) (name : jsstr)
  | IrInstrObjectSet (value : Z) (name : jsstr) (newValue : Z)
  | IrInstrClosureNew (liftedFunc : IrFuncRef) (signature : IrClosureSignature) (captureFieldTypes : list IrType) (captures : list Z) (hostOneShot : bool) (domCallbackAuthority : option IrDomCallbackAuthority)
  | IrInstrClosureCap (self index : Z)
  | IrInstrClosureCall (callee : Z) (args : list Z)
  | IrInstrRefCellNew (value : Z)
  | IrInstrRefCellGet (cell : Z)
  | IrInstrRefCellSet (cell value : Z)
  | IrInstrClassNew (shape : IrClassShape) (target : option IrFuncRef) (args : list Z)
  | IrInstrClassGet (value : Z) (fieldName : jsstr)
  | IrInstrClassSet (value : Z) (fieldName : jsstr) (newValue : Z)
  | IrInstrClassCall (receiver : Z) (target : option IrFuncRef) (memberKind : IrClassMemberKind) (methodName : jsstr) (args : list Z)
  | IrInstrClassSuperInit (parentShape : IrClassShape) (target : option IrFuncRef) (self : Z) (args : list Z)
  | IrInstrClassSuperCall (parentShape : IrClassShape) (receiver : Z) (target : option IrFuncRef) (methodName : jsstr) (memberKind : option IrClassMemberKind) (args : list Z)
  | IrInstrClassInstanceOf (value : Z) (targetShape : IrClassShape)
  | IrInstrClassStaticCall (shape : IrClassShape) (target : option IrFuncRef) (methodName : jsstr) (args : list Z)
  | IrInstrSlotRead (slotIndex : Z)
  | IrInstrSlotWrite (slotIndex value : Z)
  | IrInstrVecLen (vec : Z) (integer : bool)
  | IrInstrVecGet (vec index : Z)
  | IrInstrVecSet (vec index newValue : Z)
  | IrInstrVecSetLength (vec length : Z)
  | IrInstrVecNewFixed (elements : list Z) (elementType : IrType) (capacity : option Z)
  | IrInstrCoerceToExternref (value : Z)
  | IrInstrIterNew (iterable : Z) (async : bool)
  | IrInstrIterNext (iter : Z)
  | IrInstrIterDone (resultObj : Z)
  | IrInstrIterValue (resultObj : Z)
  | IrInstrIterReturn (iter : Z)
  | IrInstrGenPush (value : Z) (provider : option IrFuncRef)
  | IrInstrGenEpilogue (provider : option IrFuncRef)
  | IrInstrGenYieldStar (inner : Z) (provider : option IrFuncRef)
  | IrInstrGenSetReturn (value : Z) (provider boxProvider : option IrFuncRef)
  | IrInstrThrow (value : Z)
  | IrInstrEarlyReturn (value : option Z)
  | IrInstrExternNew (className importPrefix : jsstr) (args : list Z) (provider : option IrFuncRef)
  | IrInstrExternCall (className method : jsstr) (receiver : Z) (args : list Z) (provider : option IrFuncRef)
  | IrInstrExternProp (className property : jsstr) (receiver : Z) (provider : option IrFuncRef)
  | IrInstrExternPropSet (className property : jsstr) (receiver value : Z) (provider : option IrFuncRef)
  | IrInstrRegExpLiteral (pattern flags : jsstr)
  | IrInstrBrLabel (label : Z) (mode : IrBrMode)
  | IrInstrAwait (operand : Z)
  | IrInstrAsyncReturn (value : Z)
  | IrInstrAsyncThrow (reason : Z).

(** The header of a for-of loop: what it iterates, and its state slots. *)
Inductive IrForOf :=
  | IrInstrForOfVec (vec : Z) (elementType : IrType) (counterSlot lengthSlot vecSlot dataSlot elementSlot : Z)
  | IrInstrForOfIter (iterable iterSlot resultSlot elementSlot : Z)
  | IrInstrForOfString (str counterSlot lengthSlot strSlot elementSlot : Z) (provider : option IrFuncRef).

(** [loopLabel] is optional.  In a [try] the catch clause is its payload slot and body;
    the tests of a [switch] are its clauses' literals, [None] for the default. *)
Inductive IrInstr :=
  | Leaf (b : IrInstrBase) (leaf : IrLeaf)
  | IrInstrIf (b : IrInstrBase) (cond : Z) (then_ : list IrInstr) (thenValue : Z) (else_ : list IrInstr) (elseValue : Z)
  | ForOf (b : IrInstrBase) (head : IrForOf) (body : list IrInstr) (loopLabel : option Z)
  | IrInstrWhileLoop (b : IrInstrBase) (cond : list IrInstr) (condValue : Z) (body : list IrInstr) (postCond : bool) (loopLabel : option Z)
  | IrInstrForLoop (b : IrInstrBase) (cond : list IrInstr) (condValue : Z) (body update : list IrInstr) (loopLabel : option Z)
  | IrInstrTry (b : IrInstrBase) (body : list IrInstr) (catchClause : option (Z * list IrInstr)) (finallyBody : option (list IrInstr))
  | IrInstrIfStmt (b : IrInstrBase) (cond : Z) (then_ else_ : list IrInstr)
  | IrInstrLabeledBlock (b : IrInstrBase) (label : Z) (body : list IrInstr)
  | IrInstrSwitch (b : IrInstrBase) (disc discSlot : Z) (tests : list (option spec_float)) (bodies : list (list IrInstr)) (breakLabel : Z).

(** The [kind] of an instruction. *)
Definition leaf_kind (l : IrLeaf) : string :=
  match l with
  | IrInstrConst _ => "const"
  | IrInstrCall _ _ => "call"
  | IrInstrIntrinsic _ _ _ _ => "intrinsic"
  | IrInstrGlobalGet _ => "global.get"
  | IrInstrGlobalSet _ _ => "global.set"
  | IrInstrBinary _ _ _ => "binary"
  | IrInstrUnary _ _ => "unary"
  | IrInstrSelect _ _ _ => "select"
  | IrInstrRawWasm _ _ => "raw.wasm"
  | IrInstrBox _ _ => "box"
  | IrInstrUnbox _ _ _ => "unbox"
  | IrInstrTagTest _ _ _ => "tag.test"
  | IrInstrDynTruthy _ => "dyn.truthy"
  | IrInstrDynUndefined => "dyn.undefined"
  | IrInstrDynTypeof _ => "dyn.typeof"
  | IrInstrDynToString _ => "dyn.to_string"
  | IrInstrDynJsonStringify _ => "dyn.json_stringify"
  | IrInstrDynObjectTag _ => "dyn.object_tag"
  | IrInstrDynConstruct _ _ => "dyn.construct"
  | IrInstrDynStringCarrier _ => "dyn.string_carrier"
  | IrInstrDynArgumentsLength _ => "dyn.arguments_length"
  | IrInstrDynCurrentThis _ => "dyn.current_this"
  | IrInstrDynGlobalObject => "dyn.global_object"
  | IrInstrDynInstanceOfFunction _ _ => "dyn.instanceof_fn"
  | IrInstrDynInstanceOf _ _ => "dyn.instanceof"
  | IrInstrDynPublishArgc _ => "dyn.publish_argc"
  | IrInstrDynOwnProperty _ _ _ => "dyn.own_property"
  | IrInstrDynToNumber _ => "dyn.to_number"
  | IrInstrDynEq _ _ _ _ => "dyn.eq"
  | IrInstrDynMemberGet _ _ => "dyn.member_get"
  | IrInstrDynMemberSet _ _ _ _ => "dyn.member_set"
  | IrInstrStringConst _ _ _ => "string.const"
  | IrInstrStringConcat _ _ _ _ _ => "string.concat"
  | IrInstrStringRepeat _ _ _ _ _ _ => "string.repeat"
  | IrInstrStringEq _ _ _ _ => "string.eq"
  | IrInstrStringLen _ _ _ => "string.len"
  | IrInstrStringCharAt _ _ _ _ _ => "string.char_at"
  | IrInstrStringCharCodeAt _ _ _ _ => "string.char_code_at"
  | IrInstrFnctorNew _ _ _ _ => "fnctor.new"
  | IrInstrFnctorGet _ _ _ => "fnctor.get"
  | IrInstrObjectNew _ _ => "object.new"
  | IrInstrObjectGet _ _ => "object.get"
  | IrInstrObjectSet _ _ _ => "object.set"
  | IrInstrClosureNew _ _ _ _ _ _ => "closure.new"
  | IrInstrClosureCap _ _ => "closure.cap"
  | IrInstrClosureCall _ _ => "closure.call"
  | IrInstrRefCellNew _ => "refcell.new"
  | IrInstrRefCellGet _ => "refcell.get"
  | IrInstrRefCellSet _ _ => "refcell.set"
  | IrInstrClassNew _ _ _ => "class.new"
  | IrInstrClassGet _ _ => "class.get"
  | IrInstrClassSet _ _ _ => "class.set"
  | IrInstrClassCall _ _ _ _ _ => "class.call"
  | IrInstrClassSuperInit _ _ _ _ => "class.super_init"
  | IrInstrClassSuperCall _ _ _ _ _ _ => "class.super_call"
  | IrInstrClassInstanceOf _ _ => "class.instanceof"
  | IrInstrClassStaticCall _ _ _ _ => "class.static_call"
  | IrInstrSlotRead _ => "slot.read"
  | IrInstrSlotWrite _ _ => "slot.write"
  | IrInstrVecLen _ _ => "vec.len"
  | IrInstrVecGet _ _ => "vec.get"
  | IrInstrVecSet _ _ _ => "vec.set"
  | IrInstrVecSetLength _ _ => "vec.set_length"
  | IrInstrVecNewFixed _ _ _ => "vec.new_fixed"
  | IrInstrCoerceToExternref _ => "coerce.to_externref"
  | IrInstrIterNew _ _ => "iter.new"
  | IrInstrIterNext _ => "iter.next"
  | IrInstrIterDone _ => "iter.done"
  | IrInstrIterValue _ => "iter.value"
  | IrInstrIterReturn _ => "iter.return"
  | IrInstrGenPush _ _ => "gen.push"
  | IrInstrGenEpilogue _ => "gen.epilogue"
  | IrInstrGenYieldStar _ _ => "gen.yieldStar"
  | IrInstrGenSetReturn _ _ _ => "gen.setReturn"
  | IrInstrThrow _ => "throw"
  | IrInstrEarlyReturn _ => "early.return"
  | IrInstrExternNew _ _ _ _ => "extern.new"
  | IrInstrExternCall _ _ _ _ _ => "extern.call"
  | IrInstrExternProp _ _ _ _ => "extern.prop"
  | IrInstrExternPropSet _ _ _ _ _ => "extern.propSet"
  | IrInstrRegExpLiteral _ _ => "extern.regex"
  | IrInstrBrLabel _ _ => "br.label"
  | IrInstrAwait _ => "await"
  | IrInstrAsyncReturn _ => "async.return"
  | IrInstrAsyncThrow _ => "async.throw"
  end%string.

Definition instr_kind (i : IrInstr) : string :=
  match i with
  | Leaf _ l => leaf_kind l
  | IrInstrIf _ _ _ _ _ _ => "if"
  | ForOf _ (IrInstrForOfVec _ _ _ _ _ _ _) _ _ => "forof.vec"
  | ForOf _ (IrInstrForOfIter _ _ _ _) _ _ => "forof.iter"
  | ForOf _ (IrInstrForOfString _ _ _ _ _ _) _ _ => "forof.string"
  | IrInstrWhileLoop _ _ _ _ _ _ => "while.loop"
  | IrInstrForLoop _ _ _ _ _ _ => "for.loop"
  | IrInstrTry _ _ _ _ => "try"
  | IrInstrIfStmt _ _ _ _ => "if.stmt"
  | IrInstrLabeledBlock _ _ _ => "labeled.block"
  | IrInstrSwitch _ _ _ _ _ _ => "switch"
  end%string.

Definition base (i : IrInstr) : IrInstrBase :=
  match i with
  | Leaf b _ | IrInstrIf b _ _ _ _ _ | ForOf b _ _ _ | IrInstrWhileLoop b _ _ _ _ _ | IrInstrForLoop b _ _ _ _ _
  | IrInstrTry b _ _ _ | IrInstrIfStmt b _ _ _ | IrInstrLabeledBlock b _ _ | IrInstrSwitch b _ _ _ _ _ => b
  end.

Definition instr_result (i : IrInstr) : option Z := result_ (base i).

(** * Buffers *)

(** The buffers that [forEachNestedBuffer] visits, in its order. *)
Definition nested_buffers (i : IrInstr) : list (list IrInstr) :=
  match i with
  | Leaf _ _ => []
  | IrInstrIf _ _ t _ e _ => [t; e]
  | ForOf _ _ body _ => [body]
  | IrInstrWhileLoop _ cond _ body _ _ => [cond; body]
  | IrInstrForLoop _ cond _ body update _ => [cond; body; update]
  | IrInstrTry _ body c f => body :: option_list (snd <$> c) ++ option_list f
  | IrInstrIfStmt _ _ t e => [t; e]
  | IrInstrLabeledBlock _ _ body => [body]
  | IrInstrSwitch _ _ _ _ bodies _ => bodies
  end.

Fixpoint instr_ind' (P : IrInstr → Prop)
    (Hi : ∀ i, Forall (Forall P) (nested_buffers i) → P i) (i : IrInstr) : P i :=
  let all := fix all (l : list IrInstr) : Forall P l :=
    match l with [] => Forall_nil_2 _ | x :: l' => Forall_cons_2 _ _ _ (instr_ind' P Hi x) (all l') end in
  let one l := Forall_cons_2 (Forall P) l [] (all l) (Forall_nil_2 _) in
  let two l k := Forall_cons_2 (Forall P) l [k] (all l) (one k) in
  Hi i
    match i as i return Forall (Forall P) (nested_buffers i) with
    | Leaf _ _ => Forall_nil_2 _
    | IrInstrIf _ _ t _ e _ => two t e
    | ForOf _ _ body _ => one body
    | IrInstrWhileLoop _ cond _ body _ _ => two cond body
    | IrInstrForLoop _ cond _ body update _ => Forall_cons_2 _ _ _ (all cond) (two body update)
    | IrInstrTry _ body c f =>
        Forall_cons_2 _ _ _ (all body)
          match c as c, f as f return Forall (Forall P) (option_list (snd <$> c) ++ option_list f) with
          | None, None => Forall_nil_2 _
          | None, Some k => one k
          | Some (_, l), None => one l
          | Some (_, l), Some k => two l k
          end
    | IrInstrIfStmt _ _ t e => two t e
    | IrInstrLabeledBlock _ _ body => one body
    | IrInstrSwitch _ _ _ _ bodies _ =>
        (fix every (ls : list (list IrInstr)) : Forall (Forall P) ls :=
           match ls with [] => Forall_nil_2 _ | l :: ls' => Forall_cons_2 _ _ _ (all l) (every ls') end) bodies
    end.

(** * Uses *)

Definition leaf_uses (l : IrLeaf) : list Z :=
  match l with
  | IrInstrConst _ | IrInstrGlobalGet _ | IrInstrRawWasm _ _ | IrInstrStringConst _ _ _ | IrInstrSlotRead _
  | IrInstrGenEpilogue _ | IrInstrRegExpLiteral _ _ | IrInstrDynUndefined | IrInstrDynArgumentsLength _
  | IrInstrDynCurrentThis _ | IrInstrDynGlobalObject | IrInstrDynPublishArgc _ | IrInstrBrLabel _ _ => []
  | IrInstrCall _ args | IrInstrIntrinsic _ _ args _ => args
  | IrInstrGlobalSet _ value => [value]
  | IrInstrBinary _ lhs rhs => [lhs; rhs]
  | IrInstrUnary _ rand => [rand]
  | IrInstrSelect condition whenTrue whenFalse => [condition; whenTrue; whenFalse]
  | IrInstrBox value _ | IrInstrUnbox value _ _ | IrInstrTagTest value _ _ | IrInstrDynTruthy value
  | IrInstrDynTypeof value | IrInstrDynToString value | IrInstrDynJsonStringify value | IrInstrDynObjectTag value
  | IrInstrDynStringCarrier value | IrInstrDynToNumber value => [value]
  | IrInstrDynConstruct callee args => callee :: args
  | IrInstrDynInstanceOfFunction value _ => [value]
  | IrInstrDynInstanceOf value target => [value; target]
  | IrInstrDynOwnProperty receiver key _ => [receiver; key]
  | IrInstrDynEq lhs rhs _ _ | IrInstrStringConcat lhs rhs _ _ _ | IrInstrStringEq lhs rhs _ _ => [lhs; rhs]
  | IrInstrStringRepeat value count _ _ _ _ => [value; count]
  | IrInstrDynMemberGet recv key => [recv; key]
  | IrInstrDynMemberSet recv key value _ => [recv; key; value]
  | IrInstrStringLen value _ _ => [value]
  | IrInstrStringCharAt value index _ _ _ | IrInstrStringCharCodeAt value index _ _ => [value; index]
  | IrInstrFnctorNew _ captureArgs args constructorIdentity => captureArgs ++ args ++ option_list constructorIdentity
  | IrInstrFnctorGet _ value _ => [value]
  | IrInstrObjectNew _ values => values
  | IrInstrObjectGet value _ => [value]
  | IrInstrObjectSet value _ newValue => [value; newValue]
  | IrInstrClosureNew _ _ _ captures _ _ => captures
  | IrInstrClosureCap self _ => [self]
  | IrInstrClosureCall callee args => callee :: args
  | IrInstrRefCellNew value => [value]
  | IrInstrRefCellGet cell => [cell]
  | IrInstrRefCellSet cell value => [cell; value]
  | IrInstrClassNew _ _ args => args
  | IrInstrClassGet value _ => [value]
  | IrInstrClassSet value _ newValue => [value; newValue]
  | IrInstrClassCall receiver _ _ _ args => receiver :: args
  | IrInstrClassSuperInit _ _ self args => args ++ [self]
  | IrInstrClassSuperCall _ receiver _ _ _ args => receiver :: args
  | IrInstrClassInstanceOf value _ => [value]
  | IrInstrClassStaticCall _ _ _ args => args
  | IrInstrSlotWrite _ value => [value]
  | IrInstrVecLen vec _ => [vec]
  | IrInstrVecGet vec index => [vec; index]
  | IrInstrVecSet vec index newValue => [vec; index; newValue]
  | IrInstrVecSetLength vec length => [vec; length]
  | IrInstrVecNewFixed elements _ _ => elements
  | IrInstrCoerceToExternref value => [value]
  | IrInstrIterNew iterable _ => [iterable]
  | IrInstrIterNext iter => [iter]
  | IrInstrIterDone resultObj | IrInstrIterValue resultObj => [resultObj]
  | IrInstrIterReturn iter => [iter]
  | IrInstrGenPush value _ => [value]
  | IrInstrGenYieldStar inner _ => [inner]
  | IrInstrGenSetReturn value _ _ => [value]
  | IrInstrThrow value => [value]
  | IrInstrExternNew _ _ args _ => args
  | IrInstrExternCall _ _ receiver args _ => receiver :: args
  | IrInstrExternProp _ _ receiver _ => [receiver]
  | IrInstrExternPropSet _ _ receiver value _ => [receiver; value]
  | IrInstrAwait operand => [operand]
  | IrInstrAsyncReturn value => [value]
  | IrInstrAsyncThrow reason => [reason]
  | IrInstrEarlyReturn value => option_list value
  end.

Definition forof_use (h : IrForOf) : Z :=
  match h with IrInstrForOfVec v _ _ _ _ _ _ | IrInstrForOfIter v _ _ _ | IrInstrForOfString v _ _ _ _ _ => v end.

Definition directUses (i : IrInstr) : list Z :=
  match i with
  | Leaf _ l => leaf_uses l
  | IrInstrIf _ cond _ thenValue _ elseValue => [cond; thenValue; elseValue]
  | ForOf _ h _ _ => [forof_use h]
  | IrInstrTry _ _ _ _ | IrInstrLabeledBlock _ _ _ => []
  | IrInstrIfStmt _ cond _ _ => [cond]
  | IrInstrSwitch _ disc _ _ _ _ => [disc]
  | IrInstrWhileLoop _ _ condValue _ _ _ | IrInstrForLoop _ _ condValue _ _ _ => [condValue]
  end.

(** * Walks *)

(** [forEachInstrDeep]: an instruction and all those inside its buffers, in order. *)
Fixpoint instrs_deep (i : IrInstr) : list IrInstr :=
  let all := fix all (l : list IrInstr) : list IrInstr :=
    match l with [] => [] | x :: l' => instrs_deep x ++ all l' end in
  i :: match i with
       | Leaf _ _ => []
       | IrInstrIf _ _ t _ e _ => all t ++ all e
       | ForOf _ _ body _ => all body
       | IrInstrWhileLoop _ cond _ body _ _ => all cond ++ all body
       | IrInstrForLoop _ cond _ body update _ => all cond ++ all body ++ all update
       | IrInstrTry _ body c f =>
           all body ++ (match c with Some (_, l) => all l | None => [] end) ++ (match f with Some l => all l | None => [] end)
       | IrInstrIfStmt _ _ t e => all t ++ all e
       | IrInstrLabeledBlock _ _ body => all body
       | IrInstrSwitch _ _ _ _ bodies _ =>
           (fix every (ls : list (list IrInstr)) : list IrInstr := match ls with [] => [] | l :: ls' => all l ++ every ls' end) bodies
       end.

(** [collectUses] with [deep]: the uses of the instruction and of all those inside. *)
Definition collectUses (i : IrInstr) : list Z := instrs_deep i ≫= directUses.

Lemma instrs_deep_unfold i : instrs_deep i = i :: (nested_buffers i ≫= λ l, l ≫= instrs_deep).
Proof.
  assert (∀ l, (fix all (l : list IrInstr) : list IrInstr := match l with [] => [] | x :: l' => instrs_deep x ++ all l' end) l = l ≫= instrs_deep) as E.
  { induction l as [|x l IH]; [done|]. csimpl. by rewrite IH. }
  destruct i as [| | | | |b body [[s c]|] [f|]| | |b d s t bodies l]; cbn [instrs_deep nested_buffers]; csimpl; rewrite ?E, ?app_nil_r; try done.
Qed.

(** [mapNestedBuffers]: the buffers replaced, [None] where none of them changed. *)
Section map.
Context (mapBuffer : list IrInstr → option (list IrInstr)).

Definition changed_or (l : list IrInstr) : list IrInstr := default l (mapBuffer l).
Definition same (l : list IrInstr) : bool := match mapBuffer l with None => true | Some _ => false end.

Definition mapNestedBuffers (i : IrInstr) : option IrInstr :=
  match i with
  | Leaf _ _ => None
  | IrInstrIf b cond t tv e ev =>
      if same t && same e then None else Some (IrInstrIf b cond (changed_or t) tv (changed_or e) ev)
  | ForOf b h body l => if same body then None else Some (ForOf b h (changed_or body) l)
  | IrInstrWhileLoop b cond cv body p l =>
      if same cond && same body then None else Some (IrInstrWhileLoop b (changed_or cond) cv (changed_or body) p l)
  | IrInstrForLoop b cond cv body update l =>
      if same cond && same body && same update then None
      else Some (IrInstrForLoop b (changed_or cond) cv (changed_or body) (changed_or update) l)
  | IrInstrTry b body c f =>
      let catchUnchanged := match c with Some (_, l) => same l | None => true end in
      let finallyUnchanged := match f with Some l => same l | None => true end in
      if same body && catchUnchanged && finallyUnchanged then None
      else Some (IrInstrTry b (changed_or body) (prod_map id changed_or <$> c) (changed_or <$> f))
  | IrInstrIfStmt b cond t e => if same t && same e then None else Some (IrInstrIfStmt b cond (changed_or t) (changed_or e))
  | IrInstrLabeledBlock b l body => if same body then None else Some (IrInstrLabeledBlock b l (changed_or body))
  | IrInstrSwitch b d s t bodies l =>
      if forallb same bodies then None else Some (IrInstrSwitch b d s t (changed_or <$> bodies) l)
  end.

(** The same without the test for a change. *)
Definition map_buffers (f : list IrInstr → list IrInstr) (i : IrInstr) : IrInstr :=
  match i with
  | Leaf b l => Leaf b l
  | IrInstrIf b cond t tv e ev => IrInstrIf b cond (f t) tv (f e) ev
  | ForOf b h body l => ForOf b h (f body) l
  | IrInstrWhileLoop b cond cv body p l => IrInstrWhileLoop b (f cond) cv (f body) p l
  | IrInstrForLoop b cond cv body update l => IrInstrForLoop b (f cond) cv (f body) (f update) l
  | IrInstrTry b body c f' => IrInstrTry b (f body) (prod_map id f <$> c) (f <$> f')
  | IrInstrIfStmt b cond t e => IrInstrIfStmt b cond (f t) (f e)
  | IrInstrLabeledBlock b l body => IrInstrLabeledBlock b l (f body)
  | IrInstrSwitch b d s t bodies l => IrInstrSwitch b d s t (f <$> bodies) l
  end.

Lemma same_changed l : same l = true → changed_or l = l.
Proof. unfold same, changed_or. by destruct (mapBuffer l). Qed.

Lemma mapNestedBuffers_default i : default i (mapNestedBuffers i) = map_buffers changed_or i.
Proof.
  assert (∀ a, same a = true → changed_or a = a) as E by apply same_changed.
  destruct i as [| | | | |b body [[s c]|] [f|]| | |b d s t bodies l]; csimpl; try done;
    repeat match goal with |- context [same ?a] => destruct (same a) eqn:?; [rewrite (E a) by done|] end; csimpl; try done.
  destruct (forallb same bodies) eqn:F; [|done]. csimpl. f_equal. rewrite <-(list_fmap_id bodies) at 1.
  apply Forall_fmap_ext_1, list.Forall_forall. intros k Hk. rewrite forallb_forall in F. by rewrite (E k) by (by apply F, list_elem_of_In).
Qed.
End map.
End nodes.

(** * Recursion over an instruction by the results of its buffers *)

Section fold.
Context `{IrTypes} {B : Type} (g : IrInstr → list (list B) → B).

Fixpoint instr_fold (i : IrInstr) : B :=
  let all := fix all (l : list IrInstr) : list B := match l with [] => [] | x :: l' => instr_fold x :: all l' end in
  g i match i with
      | Leaf _ _ => []
      | IrInstrIf _ _ t _ e _ => [all t; all e]
      | ForOf _ _ body _ => [all body]
      | IrInstrWhileLoop _ cond _ body _ _ => [all cond; all body]
      | IrInstrForLoop _ cond _ body update _ => [all cond; all body; all update]
      | IrInstrTry _ body c f =>
          all body :: (match c with Some (_, l) => [all l] | None => [] end) ++ (match f with Some l => [all l] | None => [] end)
      | IrInstrIfStmt _ _ t e => [all t; all e]
      | IrInstrLabeledBlock _ _ body => [all body]
      | IrInstrSwitch _ _ _ _ bodies _ =>
          (fix every (ls : list (list IrInstr)) : list (list B) := match ls with [] => [] | l :: ls' => all l :: every ls' end) bodies
      end.

Lemma instr_fold_unfold i : instr_fold i = g i (map instr_fold <$> nested_buffers i).
Proof. by destruct i as [| | | | |b body [[s c]|] [f|]| | |]. Qed.
End fold.
