(* ===== verification/IrEffects.v ===== *)
(** The effect model of the middle-end IR: src/ir/analysis/effects.ts.  Two tables say
    what an instruction does: [effectsOf], for the scheduler and value numbering, and
    [isSideEffecting], for dead-code elimination.  The cache of effectsOf, which is keyed
    by the identity of instruction objects, is left out.

    The tables are compared: where dead-code
    elimination may drop an instruction that the scheduler takes to write, call or leave;
    and the conflict relation of the scheduler. *)

From S2P Require Import Prelude WasmModel IrNodes.

Record IrEffects := mkEffects {
  readsHeap : bool; writesHeap : bool; control : bool; allSlots : bool; readSlots : gset Z; writeSlots : gset Z }.

#[global] Instance IrEffects_eq_dec : EqDecision IrEffects.
Proof. solve_decision. Defined.

Definition pure_fx : IrEffects := mkEffects false false false false ∅ ∅.
Definition reads_fx : IrEffects := mkEffects true false false false ∅ ∅.
Definition writes_fx : IrEffects := mkEffects false true false false ∅ ∅.
Definition call_fx : IrEffects := mkEffects true true false false ∅ ∅.
Definition control_fx : IrEffects := mkEffects true true true false ∅ ∅.
Definition slots_fx : IrEffects := mkEffects true true false true ∅ ∅.

Definition merge_fx (fx s : IrEffects) : IrEffects :=
  mkEffects (readsHeap fx || readsHeap s) (writesHeap fx || writesHeap s) (control fx || control s)
    (allSlots fx || allSlots s) (readSlots fx ∪ readSlots s) (writeSlots fx ∪ writeSlots s).

Section effects.
Context `{IrTypes}.

Definition leaf_effects (l : IrLeaf) : IrEffects :=
  match l with
  | IrInstrConst _ | IrInstrStringConst _ _ _ | IrInstrIntrinsic _ _ _ _ | IrInstrBinary _ _ _ | IrInstrUnary _ _
  | IrInstrSelect _ _ _ | IrInstrBox _ _ | IrInstrUnbox _ _ _ | IrInstrTagTest _ _ _ | IrInstrDynTruthy _
  | IrInstrDynUndefined | IrInstrDynTypeof _ | IrInstrDynToString _ | IrInstrDynJsonStringify _
  | IrInstrDynObjectTag _ | IrInstrDynStringCarrier _ | IrInstrCoerceToExternref _ | IrInstrStringConcat _ _ _ _ _
  | IrInstrStringEq _ _ _ _ | IrInstrStringLen _ _ _ | IrInstrStringCharAt _ _ _ _ _ | IrInstrStringCharCodeAt _ _ _ _
  | IrInstrObjectNew _ _ | IrInstrVecNewFixed _ _ _ | IrInstrRefCellNew _ | IrInstrClosureNew _ _ _ _ _ _
  | IrInstrRegExpLiteral _ _ => pure_fx
  | IrInstrGlobalGet _ | IrInstrObjectGet _ _ | IrInstrClassGet _ _ | IrInstrClassInstanceOf _ _ | IrInstrVecGet _ _
  | IrInstrVecLen _ _ | IrInstrRefCellGet _ | IrInstrClosureCap _ _ | IrInstrFnctorGet _ _ _ => reads_fx
  | IrInstrGlobalSet _ _ | IrInstrObjectSet _ _ _ | IrInstrClassSet _ _ _ | IrInstrRefCellSet _ _
  | IrInstrVecSet _ _ _ | IrInstrVecSetLength _ _ => writes_fx
  | IrInstrDynEq _ _ loose _ => mkEffects loose loose false false ∅ ∅
  | IrInstrCall _ _ | IrInstrClassCall _ _ _ _ _ | IrInstrClassSuperInit _ _ _ _ | IrInstrClassSuperCall _ _ _ _ _ _
  | IrInstrClassStaticCall _ _ _ _ | IrInstrClosureCall _ _ | IrInstrExternCall _ _ _ _ _ | IrInstrClassNew _ _ _
  | IrInstrFnctorNew _ _ _ _ | IrInstrDynConstruct _ _ | IrInstrDynArgumentsLength _ | IrInstrDynCurrentThis _
  | IrInstrDynGlobalObject | IrInstrDynInstanceOfFunction _ _ | IrInstrDynInstanceOf _ _ | IrInstrDynPublishArgc _
  | IrInstrDynOwnProperty _ _ _ | IrInstrExternNew _ _ _ _ | IrInstrExternProp _ _ _ _ | IrInstrExternPropSet _ _ _ _ _
  | IrInstrDynMemberGet _ _ | IrInstrDynMemberSet _ _ _ _ | IrInstrDynToNumber _ | IrInstrIterNew _ _
  | IrInstrIterNext _ | IrInstrIterDone _ | IrInstrIterValue _ | IrInstrIterReturn _ => call_fx
  | IrInstrThrow _ | IrInstrStringRepeat _ _ _ _ _ _ | IrInstrBrLabel _ _ | IrInstrAwait _ | IrInstrAsyncReturn _
  | IrInstrAsyncThrow _ | IrInstrEarlyReturn _ => control_fx
  | IrInstrGenPush _ _ | IrInstrGenEpilogue _ | IrInstrGenYieldStar _ _ | IrInstrGenSetReturn _ _ _
  | IrInstrRawWasm _ _ => slots_fx
  | IrInstrSlotRead slotIndex => mkEffects false false false false {[slotIndex]} ∅
  | IrInstrSlotWrite slotIndex _ => mkEffects false false false false ∅ {[slotIndex]}
  end.

Definition forof_effects (h : IrForOf) : IrEffects :=
  match h with
  | IrInstrForOfVec _ _ counterSlot lengthSlot vecSlot dataSlot elementSlot =>
      mkEffects true false false false ∅ (list_to_set [counterSlot; lengthSlot; vecSlot; dataSlot; elementSlot])
  | IrInstrForOfIter _ iterSlot resultSlot elementSlot =>
      mkEffects true true false false ∅ (list_to_set [iterSlot; resultSlot; elementSlot])
  | IrInstrForOfString _ counterSlot lengthSlot strSlot elementSlot _ =>
      mkEffects true false false false ∅ (list_to_set [counterSlot; lengthSlot; strSlot; elementSlot])
  end.

Fixpoint effectsOf (i : IrInstr) : IrEffects :=
  let mergeBuffer := fix mergeBuffer (body : list IrInstr) (fx : IrEffects) : IrEffects :=
    match body with [] => fx | sub :: body' => mergeBuffer body' (merge_fx fx (effectsOf sub)) end in
  match i with
  | Leaf _ l => leaf_effects l
  | ForOf _ h body _ => mergeBuffer body (forof_effects h)
  | IrInstrWhileLoop _ cond _ body _ _ => mergeBuffer body (mergeBuffer cond pure_fx)
  | IrInstrForLoop _ cond _ body update _ => mergeBuffer update (mergeBuffer body (mergeBuffer cond pure_fx))
  | IrInstrTry _ body c f =>
      let fx := mergeBuffer body pure_fx in
      let fx := match c with Some (_, l) => mergeBuffer l fx | None => fx end in
      match f with Some l => mergeBuffer l fx | None => fx end
  | IrInstrIf _ _ t _ e _ | IrInstrIfStmt _ _ t e => mergeBuffer e (mergeBuffer t pure_fx)
  | IrInstrLabeledBlock _ _ body => mergeBuffer body pure_fx
  | IrInstrSwitch _ _ _ _ bodies _ =>
      (fix every (ls : list (list IrInstr)) (fx : IrEffects) : IrEffects :=
         match ls with [] => fx | l :: ls' => every ls' (mergeBuffer l fx) end) bodies pure_fx
  end.

Definition effectsArePure (fx : IrEffects) : bool :=
  negb (readsHeap fx) && negb (writesHeap fx) && negb (control fx) && negb (allSlots fx)
  && bool_decide (size (readSlots fx) = 0%nat) && bool_decide (size (writeSlots fx) = 0%nat).

Definition effectsConflict (a b : IrEffects) : bool :=
  if writesHeap a && (readsHeap b || writesHeap b) then true
  else if writesHeap b && readsHeap a then true
  else
    let aTouchesSlots := allSlots a || bool_decide (0 < size (readSlots a))%nat || bool_decide (0 < size (writeSlots a))%nat in
    let bTouchesSlots := allSlots b || bool_decide (0 < size (readSlots b))%nat || bool_decide (0 < size (writeSlots b))%nat in
    if allSlots a && bTouchesSlots then true
    else if allSlots b && aTouchesSlots then true
    else if existsb (λ s, bool_decide (s ∈ readSlots b) || bool_decide (s ∈ writeSlots b)) (elements (writeSlots a)) then true
    else existsb (λ s, bool_decide (s ∈ readSlots a)) (elements (writeSlots b)).

(** * The table of dead-code elimination *)

Definition leaf_side_effecting (l : IrLeaf) : bool :=
  match l with
  | IrInstrRawWasm _ _ | IrInstrCall _ _ | IrInstrGlobalSet _ _ | IrInstrClosureCall _ _ | IrInstrRefCellSet _ _
  | IrInstrObjectSet _ _ _ | IrInstrClassCall _ _ _ _ _ | IrInstrClassSet _ _ _ | IrInstrClassNew _ _ _
  | IrInstrFnctorNew _ _ _ _ | IrInstrDynConstruct _ _ | IrInstrClassSuperInit _ _ _ _ | IrInstrClassSuperCall _ _ _ _ _ _
  | IrInstrClassStaticCall _ _ _ _ | IrInstrSlotWrite _ _ | IrInstrVecSet _ _ _ | IrInstrVecSetLength _ _
  | IrInstrDynMemberSet _ _ _ _ | IrInstrDynToNumber _ => true
  | IrInstrDynEq _ _ loose _ => loose
  | IrInstrIterNew _ _ | IrInstrIterNext _ | IrInstrIterReturn _ | IrInstrGenPush _ _ | IrInstrGenEpilogue _
  | IrInstrGenYieldStar _ _ | IrInstrGenSetReturn _ _ _ | IrInstrThrow _ | IrInstrBrLabel _ _ | IrInstrExternNew _ _ _ _
  | IrInstrExternCall _ _ _ _ _ | IrInstrExternPropSet _ _ _ _ _ | IrInstrExternProp _ _ _ _ | IrInstrRegExpLiteral _ _
  | IrInstrStringRepeat _ _ _ _ _ _ | IrInstrAwait _ | IrInstrAsyncReturn _ | IrInstrAsyncThrow _ | IrInstrEarlyReturn _ => true
  | _ => false
  end.

Definition isSideEffecting (i : IrInstr) : bool :=
  match i with
  | Leaf _ l => leaf_side_effecting l
  | IrInstrIf _ _ _ _ _ _ => false
  | ForOf _ _ _ _ | IrInstrTry _ _ _ _ | IrInstrWhileLoop _ _ _ _ _ _ | IrInstrForLoop _ _ _ _ _ _ | IrInstrIfStmt _ _ _ _
  | IrInstrLabeledBlock _ _ _ | IrInstrSwitch _ _ _ _ _ _ => true
  end.
End effects.

(** The summary says more than reading. *)
Definition acts (fx : IrEffects) : bool := writesHeap fx || control fx || allSlots fx || bool_decide (writeSlots fx ≠ ∅).

Lemma acts_merge a b : acts (merge_fx a b) = acts a || acts b.
Proof.
  destruct a as [a1 a2 a3 a4 a5 a6], b as [b1 b2 b3 b4 b5 b6]. unfold acts, merge_fx. cbn.
  assert (bool_decide (a6 ∪ b6 ≠ ∅) = bool_decide (a6 ≠ ∅) || bool_decide (b6 ≠ ∅)) as ->.
  { apply eq_true_iff_eq. rewrite orb_true_iff, !bool_decide_eq_true. split; [|set_solver].
    intros Hn. destruct (decide (a6 = ∅)) as [->|]; [right; set_solver|by left]. }
  destruct a2, a3, a4, b2, b3, b4, (bool_decide (a6 ≠ ∅)); done.
Qed.

Section tables.
Context `{IrTypes}.

(** [mergeBuffer]. *)
Definition mergeBuffer : list IrInstr → IrEffects → IrEffects :=
  fix mergeBuffer (body : list IrInstr) (fx : IrEffects) : IrEffects :=
    match body with [] => fx | sub :: body' => mergeBuffer body' (merge_fx fx (effectsOf sub)) end.

Lemma mergeBuffer_acts body fx : acts (mergeBuffer body fx) = acts fx || existsb (λ x, acts (effectsOf x)) body.
Proof.
  revert fx. induction body as [|x body IH]; intros fx; cbn; [by rewrite orb_false_r|]. rewrite IH, acts_merge. by rewrite orb_assoc.
Qed.

Lemma if_acts b c t tv e ev : acts (effectsOf (IrInstrIf b c t tv e ev)) = true ↔ ∃ x, x ∈ t ++ e ∧ acts (effectsOf x) = true.
Proof.
  change (effectsOf (IrInstrIf b c t tv e ev)) with (mergeBuffer e (mergeBuffer t pure_fx)). rewrite !mergeBuffer_acts, !orb_true_iff, !existsb_exists.
  setoid_rewrite elem_of_app. setoid_rewrite list_elem_of_In. split; [|naive_solver].
  intros [[Hp|(x & Hx & Hc)]|(x & Hx & Hc)]; [done|exists x; auto..].
Qed.

(** Where the two tables part: a value-producing [if] may be dropped whatever its arms
    do, and so may a read of a dynamic member, which the scheduler takes for a call. *)
Lemma droppable_if b c t tv e ev x : x ∈ t ++ e → acts (effectsOf x) = true →
  acts (effectsOf (IrInstrIf b c t tv e ev)) = true ∧ isSideEffecting (IrInstrIf b c t tv e ev) = false.
Proof. intros Hx Ha. split; [|done]. apply if_acts. by exists x. Qed.

Example droppable_read b x y :
  acts (effectsOf (Leaf b (IrInstrDynMemberGet x y))) = true ∧ isSideEffecting (Leaf b (IrInstrDynMemberGet x y)) = false.
Proof. done. Qed.

(** * Conflicts *)

Definition touches_slots (fx : IrEffects) : Prop := allSlots fx = true ∨ readSlots fx ≠ ∅ ∨ writeSlots fx ≠ ∅.

Lemma size_pos (X : gset Z) : bool_decide (0 < size X)%nat = bool_decide (X ≠ ∅).
Proof.
  apply bool_decide_ext. split.
  - intros Hs ->. rewrite size_empty in Hs. lia.
  - intros Hn. destruct (size X) eqn:E; [|lia]. by apply size_empty_inv, leibniz_equiv in E.
Qed.

(** Two summaries conflict when one writes the heap that the other touches, or a slot. *)
Lemma effectsConflict_spec a b : effectsConflict a b = true ↔
  (writesHeap a = true ∧ (readsHeap b = true ∨ writesHeap b = true)) ∨ (writesHeap b = true ∧ readsHeap a = true) ∨
  (allSlots a = true ∧ touches_slots b) ∨ (allSlots b = true ∧ touches_slots a) ∨
  (∃ s, s ∈ writeSlots a ∧ (s ∈ readSlots b ∨ s ∈ writeSlots b)) ∨ (∃ s, s ∈ writeSlots b ∧ s ∈ readSlots a).
Proof.
  unfold effectsConflict, touches_slots. rewrite !size_pos.
  assert (∀ (X : gset Z) f, existsb f (elements X) = true ↔ ∃ s, s ∈ X ∧ f s = true) as Hex.
  { intros X f. rewrite existsb_exists. setoid_rewrite <-list_elem_of_In. by setoid_rewrite elem_of_elements. }
  assert (∀ c d : bool, (if c then true else d) = c || d) as Hif by (by intros []). cbv zeta. rewrite !Hif, !orb_true_iff, !andb_true_iff, !orb_true_iff, !bool_decide_eq_true, !Hex.
  setoid_rewrite orb_true_iff. setoid_rewrite bool_decide_eq_true. tauto.
Qed.
End tables.
