(* ===== verification/IrSchedule.v ===== *)
(** The check of an emission schedule: verifyEmissionSchedule of
    src/ir/analysis/effects.ts.  An emission index is [None] for Infinity; the operands
    of an instruction are an argument, as in the source. *)

From S2P Require Import Prelude WasmModel IrNodes IrEffects.

Record EmissionScheduleViolation := mkViolation { defIndex : Z; pastIndex : Z; reason : jsstr }.

Section schedule.
Context `{IrTypes}.
Context (instrs : list IrInstr) (emissionIdx : list (option Z)) (isLazyAt : list bool) (usesOf : IrInstr → list Z).

(** [emissionIdx[i]], when it is finite. *)
Definition emitted_at (i : Z) : option Z := match js_at emissionIdx i with Some (Some e) => Some e | _ => None end.

Definition indexed : list (Z * IrInstr) := zip (seqZ 0 (Z.of_nat (length instrs))) instrs.

Definition effectful : list Z :=
  indexed ≫= λ ii, match emitted_at ii.1 with
                   | None => []
                   | Some _ => if negb (effectsArePure (effectsOf ii.2)) then [ii.1] else []
                   end.

Definition defIdxOf : jsmap Z Z :=
  foldl (λ m ii, match instr_result ii.2 with Some r => jm_set m r ii.1 | None => m end) [] indexed.

Definition is_lazy (d : Z) : bool := match js_at isLazyAt d with Some b => b | None => false end.

(** One value read by [cur]: found, or the definition to search. *)
Definition lazy_defs (us : list Z) : list Z :=
  us ≫= λ u, match jm_get defIdxOf u with Some d => if is_lazy d then [d] else [] | None => [] end.

(** The stack has its end first. *)
Fixpoint tree_loop (target : Z) (fuel : nat) (seen : gset Z) (stack : list Z) : result bool :=
  match stack with
  | [] => Ok false
  | cur :: stack' =>
      match fuel with
      | O => Err OutOfFuel
      | S fuel' =>
          if bool_decide (cur ∈ seen) then tree_loop target fuel' seen stack'
          else
            match js_at instrs cur with
            | None => throw ETypeError []
            | Some instr =>
                if bool_decide (target ∈ usesOf instr) then Ok true
                else tree_loop target fuel' ({[cur]} ∪ seen) (rev (lazy_defs (usesOf instr)) ++ stack')
            end
      end
  end.

(** One step for the root and one for each operand. *)
Definition tree_fuel : nat := S (sum_list_with (λ i, length (usesOf i)) instrs).

Definition treeConsumes (k target : Z) : result bool := tree_loop target tree_fuel ∅ [k].

Definition same_tree_reason (ki kk : string) (i k ei : Z) : jsstr :=
  js "conflicting " ++ js ki ++ js "@" ++ js_num i ++ js " and " ++ js kk ++ js "@" ++ js_num k ++ js " emitted in the same "
  ++ js "tree (idx " ++ js_num ei ++ js ") without consumption ordering".

Definition crossing_reason (ki kk : string) (i k ei ek : Z) : jsstr :=
  js "deferred " ++ js ki ++ js "@" ++ js_num i ++ js " (emits at " ++ js_num ei ++ js ") crosses conflicting "
  ++ js kk ++ js "@" ++ js_num k ++ js " (emits at " ++ js_num ek ++ js ")".

(** The body of the loop over pairs of effectful instructions. *)
Definition check_pair (i k : Z) (out : list EmissionScheduleViolation) : result (list EmissionScheduleViolation) :=
  match js_at instrs i, js_at instrs k, emitted_at i, emitted_at k with
  | Some ii, Some ik, Some ei, Some ek =>
      if negb (effectsConflict (effectsOf ii) (effectsOf ik)) then Ok out
      else if ei <? ek then Ok out
      else if ei =? ek then
        consumed ← match instr_result ii with Some r => treeConsumes k r | None => Ok false end;
        if (consumed : bool) then Ok out
        else Ok (out ++ [mkViolation i k (same_tree_reason (instr_kind ii) (instr_kind ik) i k ei)])
      else Ok (out ++ [mkViolation i k (crossing_reason (instr_kind ii) (instr_kind ik) i k ei ek)])
  | _, _, _, _ => throw ETypeError []
  end.

(** [for (a) for (b > a)]. *)
Fixpoint check_pairs (l : list Z) (out : list EmissionScheduleViolation) : result (list EmissionScheduleViolation) :=
  match l with
  | [] => Ok out
  | i :: l' => out' ← for_each l' (check_pair i) out; check_pairs l' out'
  end.

Definition verifyEmissionSchedule : result (list EmissionScheduleViolation) :=
  if Nat.ltb (length effectful) 2 then Ok [] else check_pairs effectful [].

(** * What the check means *)

(** [k] uses the definition of [d], which is emitted where it is used. *)
Definition lazy_use (k d : Z) : Prop := ∃ instr, js_at instrs k = Some instr ∧ d ∈ lazy_defs (usesOf instr).

(** The tree rooted at [k] reads [target]. *)
Definition consumes (k target : Z) : Prop := ∃ c instr, rtc lazy_use k c ∧ js_at instrs c = Some instr ∧ target ∈ usesOf instr.

(** [i], before [k] in the program, also runs before it. *)
Definition ordered (i k : Z) : Prop :=
  ∀ ii ik ei ek, js_at instrs i = Some ii → js_at instrs k = Some ik → emitted_at i = Some ei → emitted_at k = Some ek →
    effectsConflict (effectsOf ii) (effectsOf ik) = true →
    ei < ek ∨ (ei = ek ∧ ∃ r, instr_result ii = Some r ∧ consumes k r).

(** * The search *)

Lemma indexed_elem i instr : (i, instr) ∈ indexed ↔ js_at instrs i = Some instr.
Proof.
  unfold indexed. rewrite list_elem_of_lookup. setoid_rewrite lookup_zip_with_Some. rewrite js_at_Some. split.
  - intros (k & x & y & [= -> ->] & Hx & Hy). apply lookup_seqZ in Hx as [-> Hk]. split; [lia|]. by replace (Z.to_nat (0 + Z.of_nat k)) with k by lia.
  - intros [H0 Hi]. exists (Z.to_nat i), i, instr. split_and!; [done| |done]. apply lookup_seqZ. apply lookup_lt_Some in Hi. lia.
Qed.

Lemma defIdxOf_range u d : jm_get defIdxOf u = Some d → ∃ instr, js_at instrs d = Some instr.
Proof.
  assert (∀ l m, (∀ u d, jm_get m u = Some d → ∃ instr, js_at instrs d = Some instr) → (∀ ii, ii ∈ l → ii ∈ indexed) →
    ∀ u d, jm_get (foldl (λ m ii, match instr_result ii.2 with Some r => jm_set m r ii.1 | None => m end) m l) u = Some d → ∃ instr, js_at instrs d = Some instr) as Hf.
  { induction l as [|ii l IH]; intros m Hm Hl; [done|]. cbn. apply IH; [|intros; apply Hl; by right].
    intros v e He. destruct (instr_result ii.2) as [r|]; [|by eapply Hm]. rewrite jm_get_set in He. case_decide; [|by eapply Hm].
    injection He as <-. exists ii.2. apply indexed_elem. rewrite <-surjective_pairing. apply Hl. left. }
  intros He. by eapply (Hf indexed []).
Qed.

Lemma lazy_defs_range us d : d ∈ lazy_defs us → ∃ instr, js_at instrs d = Some instr.
Proof.
  intros (u & Hd & _)%list_elem_of_bind. destruct (jm_get defIdxOf u) as [e|] eqn:E; [|by apply elem_of_nil in Hd].
  destruct (is_lazy e); [|by apply elem_of_nil in Hd]. apply list_elem_of_singleton in Hd as ->. by eapply defIdxOf_range.
Qed.

Lemma length_lazy_defs us : (length (lazy_defs us) ≤ length us)%nat.
Proof.
  unfold lazy_defs. induction us as [|u us IH]; [done|]. csimpl. rewrite length_app.
  assert (length (match jm_get defIdxOf u with Some d => if is_lazy d then [d] else [] | None => [] end) ≤ 1)%nat; [|lia].
  destruct (jm_get defIdxOf u) as [e|]; [destruct (is_lazy e)|]; cbn; lia.
Qed.

(** The operands of the instructions that the search has not seen. *)
Definition unseen (seen : gset Z) : nat := sum_list_with (λ ii, if bool_decide (ii.1 ∈ seen) then O else length (usesOf ii.2)) indexed.

Lemma unseen_see seen cur instr : js_at instrs cur = Some instr → cur ∉ seen → (unseen ({[cur]} ∪ seen) + length (usesOf instr) ≤ unseen seen)%nat.
Proof.
  intros Hc Hn. apply indexed_elem in Hc. unfold unseen. revert Hc. generalize indexed. intros l. induction l as [|ii l IH]; intros Hin; [by apply elem_of_nil in Hin|].
  assert (∀ k : list (Z * IrInstr), sum_list_with (λ ii, if bool_decide (ii.1 ∈ {[cur]} ∪ seen) then O else length (usesOf ii.2)) k
    ≤ sum_list_with (λ ii, if bool_decide (ii.1 ∈ seen) then O else length (usesOf ii.2)) k)%nat as Hmono.
  { induction k as [|jj k IHk]; [done|]. cbn. destruct (decide (jj.1 ∈ seen)); [rewrite !bool_decide_true by set_solver; lia|].
    rewrite (bool_decide_false (jj.1 ∈ seen)) by done. case_bool_decide; lia. }
  cbn. apply elem_of_cons in Hin as [<-|Hin].
  - cbn. rewrite bool_decide_true by set_solver. rewrite bool_decide_false by done. specialize (Hmono l). lia.
  - specialize (IH Hin). destruct (decide (ii.1 ∈ seen)); [rewrite !bool_decide_true by set_solver; lia|].
    rewrite (bool_decide_false (ii.1 ∈ seen)) by done. case_bool_decide; lia.
Qed.

(** The search of [k]'s tree: what it has seen reads something else, and leads to what it
    has seen or will. *)
Record in_tree (k target : Z) (seen : gset Z) (stack : list Z) : Prop := {
  it_root : k ∈ seen ∨ k ∈ stack;
  it_reached c : c ∈ seen ∨ c ∈ stack → rtc lazy_use k c;
  it_range c : c ∈ stack → ∃ instr, js_at instrs c = Some instr;
  it_seen c instr : c ∈ seen → js_at instrs c = Some instr → target ∉ usesOf instr;
  it_closed c d : c ∈ seen → lazy_use c d → d ∈ seen ∨ d ∈ stack }.

Lemma elem_of_rev_defs d us : d ∈ rev (lazy_defs us) ↔ d ∈ lazy_defs us.
Proof. by rewrite !list_elem_of_In, <-in_rev. Qed.

Lemma search_done k target seen : in_tree k target seen [] → ¬ consumes k target.
Proof.
  intros [H1 _ _ H4 H5] (c & instr & Hr & Hc & Hin). assert (∀ a, rtc lazy_use a c → a ∈ seen → c ∈ seen) as Hall.
  { induction 1 as [|a d c Had _ IHr]; [done|]. intros Ha. apply IHr; [done..|]. destruct (H5 a d Ha Had) as [|Hd]; [done|by apply elem_of_nil in Hd]. }
  assert (c ∈ seen) as Hs by (apply (Hall k Hr); destruct H1 as [|Hk]; [done|by apply elem_of_nil in Hk]). by apply (H4 c instr Hs Hc).
Qed.

Lemma tree_loop_ok k target fuel seen stack : in_tree k target seen stack → (length stack + unseen seen ≤ fuel)%nat →
  ∃ b, tree_loop target fuel seen stack = Ok b ∧ (b = true ↔ consumes k target).
Proof.
  revert seen stack. induction fuel as [|fuel IH]; intros seen [|cur stack] Ht Hf; cbn [tree_loop]; cbn [length] in Hf; [|lia| |].
  1,2: exists false; split; [done|]; split; [done|]; intros Hc; by destruct (search_done k target seen Ht).
  destruct (it_range _ _ _ _ Ht cur ltac:(left)) as [instr Hc]. rewrite Hc. case_bool_decide as Hs.
  { apply IH; [|lia]. destruct Ht as [H1 H2 H3 H4 H5]. split; try done.
    - destruct H1 as [|[->|]%elem_of_cons]; auto.
    - intros c Hin. apply H2. set_solver.
    - intros c Hin. apply H3. by right.
    - intros c d Hin Hcd. destruct (H5 c d Hin Hcd) as [|[->|]%elem_of_cons]; auto. }
  case_bool_decide as Hu.
  { exists true. split; [done|]. split; [|done]. intros _. exists cur, instr. split_and!; [|done|done]. apply (it_reached _ _ _ _ Ht). right. left. }
  apply IH.
  - destruct Ht as [H1 H2 H3 H4 H5]. split.
    + set_solver.
    + intros c Hin. assert (rtc lazy_use k cur) as Hcur by (apply H2; set_solver).
      rewrite elem_of_union, elem_of_singleton, elem_of_app, elem_of_rev_defs in Hin.
      destruct Hin as [[->|Hin]|[Hin|Hin]]; [done|apply H2; by left| |apply H2; right; by right]. eapply rtc_r; [done|]. by exists instr.
    + intros c Hin. rewrite elem_of_app, elem_of_rev_defs in Hin. destruct Hin as [Hin|Hin]; [by eapply lazy_defs_range|apply H3; by right].
    + intros c i [->%elem_of_singleton|Hin]%elem_of_union Hi; [congruence|by eapply H4].
    + intros c d Hin Hcd. rewrite elem_of_app, elem_of_rev_defs, elem_of_union. apply elem_of_union in Hin as [->%elem_of_singleton|Hin].
      * destruct Hcd as (i & Hi & Hd). rewrite Hc in Hi. injection Hi as <-. auto.
      * destruct (H5 c d Hin Hcd) as [|[->|]%elem_of_cons]; [auto|left; set_solver|auto].
  - pose proof (unseen_see seen cur instr Hc Hs). rewrite length_app, length_rev. pose proof (length_lazy_defs (usesOf instr)). lia.
Qed.

Lemma treeConsumes_ok k target instr : js_at instrs k = Some instr → ∃ b, treeConsumes k target = Ok b ∧ (b = true ↔ consumes k target).
Proof.
  intros Hk. apply tree_loop_ok.
  - split.
    + right. left.
    + intros c [Hc| ->%list_elem_of_singleton]; [by apply elem_of_empty in Hc|done].
    + intros c ->%list_elem_of_singleton. by exists instr.
    + intros c i Hc. by apply elem_of_empty in Hc.
    + intros c d Hc. by apply elem_of_empty in Hc.
  - unfold tree_fuel, unseen, indexed. cbn [length]. assert (∀ l s, sum_list_with (λ ii : Z * IrInstr, if bool_decide (ii.1 ∈ (∅ : gset Z)) then O else length (usesOf ii.2)) (zip (seqZ s (Z.of_nat (length l))) l)
      = sum_list_with (λ i, length (usesOf i)) l) as E; [|rewrite E; lia].
    induction l as [|x l IH]; intros s; [done|]. cbn [length]. rewrite seqZ_cons by lia. replace (Z.pred (Z.of_nat (S (length l)))) with (Z.of_nat (length l)) by lia.
    cbn [zip zip_with sum_list_with]. rewrite IH. rewrite bool_decide_false by set_solver. done.
Qed.

(** * The pairs *)

Lemma pure_spec fx : effectsArePure fx = true ↔
  readsHeap fx = false ∧ writesHeap fx = false ∧ control fx = false ∧ allSlots fx = false ∧ readSlots fx = ∅ ∧ writeSlots fx = ∅.
Proof.
  unfold effectsArePure. rewrite !andb_true_iff, !negb_true_iff, !bool_decide_eq_true, !size_empty_iff, !leibniz_equiv_iff. tauto.
Qed.

(** A pure instruction conflicts with nothing. *)
Lemma conflict_effects a b : effectsConflict a b = true → effectsArePure a = false ∧ effectsArePure b = false.
Proof.
  intros Hc. apply effectsConflict_spec in Hc. split; apply not_true_iff_false; intros (E1 & E2 & E3 & E4 & E5 & E6)%pure_spec;
    unfold touches_slots in Hc; rewrite ?E1, ?E2, ?E4, ?E5, ?E6 in Hc; set_solver.
Qed.

Lemma effectful_elem i : i ∈ effectful ↔ ∃ instr e, js_at instrs i = Some instr ∧ emitted_at i = Some e ∧ effectsArePure (effectsOf instr) = false.
Proof.
  unfold effectful. rewrite list_elem_of_bind. split.
  - intros ([j instr] & Hi & Hin). cbn in Hi. apply indexed_elem in Hin. destruct (emitted_at j) as [e|] eqn:E; [|by apply elem_of_nil in Hi].
    destruct (effectsArePure (effectsOf instr)) eqn:Hp; [by apply elem_of_nil in Hi|]. apply list_elem_of_singleton in Hi as ->. by exists instr, e.
  - intros (instr & e & Hi & He & Hp). exists (i, instr). split; [|by apply indexed_elem]. cbn. rewrite He, Hp. by left.
Qed.

Lemma unordered_effectful i k : ¬ ordered i k → i ∈ effectful ∧ k ∈ effectful.
Proof.
  intros Hn. destruct (js_at instrs i) as [ii|] eqn:Ei; [|exfalso; apply Hn; intros ? ? ? ? ?; congruence].
  destruct (js_at instrs k) as [ik|] eqn:Ek; [|exfalso; apply Hn; intros ? ? ? ? ? ?; congruence].
  destruct (emitted_at i) as [ei|] eqn:Hi; [|exfalso; apply Hn; intros ? ? ? ? ? ? ?; congruence].
  destruct (emitted_at k) as [ek|] eqn:Hk; [|exfalso; apply Hn; intros ? ? ? ? ? ? ? ?; congruence].
  destruct (effectsConflict (effectsOf ii) (effectsOf ik)) eqn:Hc; [|exfalso; apply Hn; intros ? ? ? ? ? ? ? ?; congruence].
  apply conflict_effects in Hc as [H1 H2]. split; apply effectful_elem; eauto 7.
Qed.

Definition only (i k : Z) (add : list EmissionScheduleViolation) : Prop :=
  (add = [] ∧ ordered i k) ∨ (∃ r, add = [mkViolation i k r]) ∧ ¬ ordered i k.

Lemma check_pair_ok i k out : i ∈ effectful → k ∈ effectful → ∃ add, check_pair i k out = Ok (out ++ add) ∧ only i k add.
Proof.
  intros (ii & ei & Ei & Hi & _)%effectful_elem (ik & ek & Ek & Hk & _)%effectful_elem. unfold check_pair. rewrite Ei, Ek, Hi, Hk.
  assert (∀ P : Prop, (effectsConflict (effectsOf ii) (effectsOf ik) = true → ei < ek ∨ (ei = ek ∧ ∃ r, instr_result ii = Some r ∧ consumes k r)) ↔ P → (ordered i k ↔ P)) as Hord.
  { intros P <-. unfold ordered. rewrite Ei, Ek, Hi, Hk. split; [intros Ho; by apply Ho|]. by intros Ho ? ? ? ? [= <-] [= <-] [= <-] [= <-]. }
  destruct (effectsConflict _ _) eqn:Hc; cbn [negb]; [|exists []; rewrite app_nil_r; split; [done|]; left; split; [done|]; by apply (Hord True)].
  destruct (Z.ltb_spec ei ek); [exists []; rewrite app_nil_r; split; [done|]; left; split; [done|]; apply (Hord True); tauto|].
  assert (∀ r, ¬ (ei = ek ∧ ∃ r, instr_result ii = Some r ∧ consumes k r) → only i k [mkViolation i k r]) as Hbad.
  { intros r Hn. right. split; [by exists r|]. intros Ho. apply (Hord False) in Ho; [done|]. split; [|done]. intros Hc'. destruct (Hc' eq_refl); [lia|done]. }
  destruct (Z.eqb_spec ei ek) as [->|Hne]; [|eexists; split; [done|]; apply Hbad; tauto].
  destruct (instr_result ii) as [r|] eqn:Hr; cbn [mbind result_bind].
  2: { eexists. split; [done|]. apply Hbad. intros (_ & r & ? & _). done. }
  destruct (treeConsumes_ok k r ik Ek) as (b & -> & Hb). cbn [mbind result_bind]. destruct b.
  - exists []. rewrite app_nil_r. split; [done|]. left. split; [done|]. apply (Hord True); [|done]. split; [done|]. intros _ _. right. split; [done|].
    exists r. split; [done|]. by apply Hb.
  - eexists. split; [done|]. apply Hbad. intros (_ & r' & [= <-] & Hcon). by apply Hb in Hcon.
Qed.

Definition reports (out : list EmissionScheduleViolation) (i k : Z) : Prop := ∃ r, mkViolation i k r ∈ out.

Lemma check_row i l out : i ∈ effectful → (∀ k, k ∈ l → k ∈ effectful) →
  ∃ add, for_each l (check_pair i) out = Ok (out ++ add) ∧ ∀ a k, reports add a k ↔ a = i ∧ k ∈ l ∧ ¬ ordered i k.
Proof.
  intros Hi. revert out. induction l as [|k l IH]; intros out Hl.
  - exists []. rewrite app_nil_r. split; [done|]. intros a k. split; [intros [r Hr]; by apply elem_of_nil in Hr|intros (_ & Hk & _); by apply elem_of_nil in Hk].
  - cbn [for_each]. destruct (check_pair_ok i k out Hi) as (add & -> & Ho); [apply Hl; left|]. cbn [mbind result_bind].
    destruct (IH (out ++ add)) as (add' & -> & Hr); [intros; apply Hl; by right|]. exists (add ++ add'). rewrite app_assoc. split; [done|].
    intros a m. assert (reports (add ++ add') a m ↔ reports add a m ∨ reports add' a m) as ->.
    { unfold reports. setoid_rewrite elem_of_app. split; [intros [r [?|?]]; [left|right]; by exists r|intros [[r ?]|[r ?]]; exists r; auto]. }
    rewrite Hr, elem_of_cons. unfold reports. destruct Ho as [[-> Ho]|[[r ->] Ho]].
    + setoid_rewrite elem_of_nil. split; [intros [[? []]|(-> & ? & ?)]; auto|]. intros (-> & [->|?] & ?); [done|auto].
    + setoid_rewrite list_elem_of_singleton. split; [intros [[r' [= -> ->]]|(-> & ? & ?)]; auto|]. intros (-> & [->|?] & ?); [left; by exists r|auto].
Qed.

(** [i] comes before [k] in the list. *)
Fixpoint precedes (l : list Z) (i k : Z) : Prop := match l with [] => False | x :: l' => (i = x ∧ k ∈ l') ∨ precedes l' i k end.

Lemma check_pairs_ok l out : (∀ k, k ∈ l → k ∈ effectful) →
  ∃ add, check_pairs l out = Ok (out ++ add) ∧ ∀ i k, reports add i k ↔ precedes l i k ∧ ¬ ordered i k.
Proof.
  revert out. induction l as [|x l IH]; intros out Hl; cbn [check_pairs].
  - exists []. rewrite app_nil_r. split; [done|]. intros i k. split; [intros [r Hr]; by apply elem_of_nil in Hr|by intros [[] _]].
  - destruct (check_row x l out) as (add & -> & Ha); [apply Hl; left|intros; apply Hl; by right|]. cbn [mbind result_bind].
    destruct (IH (out ++ add)) as (add' & -> & Hb); [intros; apply Hl; by right|]. exists (add ++ add'). rewrite app_assoc. split; [done|].
    intros i k. assert (reports (add ++ add') i k ↔ reports add i k ∨ reports add' i k) as ->.
    { unfold reports. setoid_rewrite elem_of_app. split; [intros [r [?|?]]; [left|right]; by exists r|intros [[r ?]|[r ?]]; exists r; auto]. }
    rewrite Ha, Hb. cbn [precedes]. split; [intros [(-> & ? & ?)|[? ?]]; auto|]. intros [[[-> ?]|?] ?]; auto.
Qed.

Lemma effectful_sorted : ∀ i k, precedes effectful i k ↔ i ∈ effectful ∧ k ∈ effectful ∧ i < k.
Proof.
  assert (∀ l s, (∀ x, x ∈ zip (seqZ s (Z.of_nat (length l))) l ≫= (λ ii : Z * IrInstr, match emitted_at ii.1 with None => [] | Some _ => if negb (effectsArePure (effectsOf ii.2)) then [ii.1] else [] end) → s ≤ x) ∧
    ∀ i k, precedes (zip (seqZ s (Z.of_nat (length l))) l ≫= (λ ii : Z * IrInstr, match emitted_at ii.1 with None => [] | Some _ => if negb (effectsArePure (effectsOf ii.2)) then [ii.1] else [] end)) i k ↔
      i ∈ zip (seqZ s (Z.of_nat (length l))) l ≫= (λ ii : Z * IrInstr, match emitted_at ii.1 with None => [] | Some _ => if negb (effectsArePure (effectsOf ii.2)) then [ii.1] else [] end) ∧
      k ∈ zip (seqZ s (Z.of_nat (length l))) l ≫= (λ ii : Z * IrInstr, match emitted_at ii.1 with None => [] | Some _ => if negb (effectsArePure (effectsOf ii.2)) then [ii.1] else [] end) ∧ i < k) as Hall.
  { induction l as [|x l IH]; intros s; [split; [intros y Hy; by apply elem_of_nil in Hy|intros i k; split; [done|intros (Hi & _); by apply elem_of_nil in Hi]]|].
    cbn [length]. rewrite seqZ_cons by lia. replace (Z.pred (Z.of_nat (S (length l)))) with (Z.of_nat (length l)) by lia. cbn [zip zip_with].
    destruct (IH (Z.succ s)) as [H1 H2]. csimpl. set (L := zip_with _ _ _ ≫= _) in *.
    destruct (emitted_at s); cbn [app]; [destruct (negb _); cbn [app]|]; (split; [|]).
    - intros y [->|Hy%H1]%elem_of_cons; lia.
    - intros i k. cbn [precedes]. rewrite H2, !elem_of_cons. split.
      + intros [[-> Hk]|(? & ? & ?)]; [specialize (H1 k Hk); split_and!; auto; lia|auto].
      + intros ([->|Hi] & [->|Hk] & ?); [lia|auto|specialize (H1 i Hi); lia|auto].
    - intros y Hy%H1. lia.
    - apply H2.
    - intros y Hy%H1. lia.
    - apply H2. }
  apply Hall.
Qed.

(** C19: the schedule check is exact.  It ends and reports a pair of instructions, the
    earlier first, exactly when the two conflict, both are emitted and the earlier does
    not run first: it is emitted later, or in the same tree without that the later reads
    its result through values that are emitted where they are used. *)
Theorem verifyEmissionSchedule_exact : ∃ out, verifyEmissionSchedule = Ok out ∧ ∀ i k, reports out i k ↔ i < k ∧ ¬ ordered i k.
Proof.
  destruct (check_pairs_ok effectful []) as (add & E & Hr); [done|]. exists add. split.
  - unfold verifyEmissionSchedule. destruct (Nat.ltb_spec (length effectful) 2); [|done]. clear E. f_equal.
    destruct add as [|[i k r] add]; [done|]. exfalso. destruct (proj1 (Hr i k)) as [Hp _]; [exists r; left|].
    destruct effectful as [|x [|y l]]; cbn in *; [done| |lia]. destruct Hp as [[_ Hk]|[]]. by apply elem_of_nil in Hk.
  - intros i k. rewrite Hr, effectful_sorted. split; [tauto|]. intros [Hlt Hn]. destruct (unordered_effectful i k Hn). auto.
Qed.
End schedule.
