(* ===== verification/IrSem.v ===== *)
(** The meaning of the instructions of the middle-end IR: what the lowering of
    src/ir/core/nodes.ts (the comments of its node types) says that structured control
    flow does, over any machine that executes the instructions without buffers.

    Execution reads and binds SSA values (those bound in an arm of a value-producing [if]
    end with it), and threads a world, which holds the slots, the
    heap and what the program can see.  Only loops need a bound, on their iterations.
    [IrSimulation] is what the passes rely on: a relation between worlds that the machine
    keeps, and that instructions without effects leave alone.  It is indexed, so that an
    allocation that only one side makes can be left out of the relation. *)

From Stdlib Require Import SpecFloat.
From S2P Require Import Prelude WasmModel IrCfg IrNodes IrEffects.

(** * Outcomes *)

(** How a call ends; [Spent] is the bound on iterations. *)
Inductive ending (V W : Type) :=
  | Returned (vs : list V) (w : W)
  | Threw (v : V) (w : W)
  | Trapped (w : W)
  | Stuck (w : W)
  | Spent.
Arguments Returned {V W} vs w.
Arguments Threw {V W} v w.
Arguments Trapped {V W} w.
Arguments Stuck {V W} w.
Arguments Spent {V W}.

Inductive leaf_result (V W : Type) :=
  | LNext (v : V) (w : W)
  | LThrow (v : V) (w : W)
  | LStop (e : ending V W).
Arguments LNext {V W} v w.
Arguments LThrow {V W} v w.
Arguments LStop {V W} e.

(** A step of an iteration: there is an element, there is none, an exception, the end. *)
Inductive iter_result (V W : Type) :=
  | IElem (w : W)
  | IDone (w : W)
  | IThrow (v : V) (w : W)
  | IStop (e : ending V W).
Arguments IElem {V W} w.
Arguments IDone {V W} w.
Arguments IThrow {V W} v w.
Arguments IStop {V W} e.

Class IrMachine (V W : Type) `{IrTypes} := {
  leaf_step : option IrType → IrLeaf → list V → W → leaf_result V W;
  truthy : V → bool;
  case_is : V → spec_float → bool;
  get_slot : W → Z → V;
  set_slot : W → Z → V → W;
  iter_start : IrForOf → V → W → iter_result V W;
  iter_next : IrForOf → W → iter_result V W;
  iter_exit : IrForOf → W → iter_result V W }.

Section semantics.
Context {V W : Type} `{M : IrMachine V W}.
Abbreviation state := ((Z → V) * W)%type.

(** A buffer runs to its end, branches to a frame, throws, or ends the call. *)
Inductive outcome :=
  | ONext (st : state)
  | OBranch (label : Z) (mode : IrBrMode) (st : state)
  | OThrow (v : V) (st : state)
  | OStop (e : ending V W).

Definition bind_result (r : option Z) (v : V) (ρ : Z → V) : Z → V :=
  match r with Some x => λ y, if decide (x = y) then v else ρ y | None => ρ end.

Definition exec_leaf (b : IrInstrBase) (l : IrLeaf) (st : state) : outcome :=
  let '(ρ, w) := st in
  match l with
  | IrInstrThrow value => OThrow (ρ value) st
  | IrInstrEarlyReturn value => OStop (Returned (ρ <$> option_list value) w)
  | IrInstrBrLabel label mode => OBranch label mode st
  | IrInstrSlotRead slot => ONext (bind_result (result_ b) (get_slot w slot) ρ, w)
  | IrInstrSlotWrite slot value => ONext (ρ, set_slot w slot (ρ value))
  | _ =>
      match leaf_step (resultType b) l (ρ <$> leaf_uses l) w with
      | LNext v w' => ONext (bind_result (result_ b) v ρ, w')
      | LThrow v w' => OThrow v (ρ, w')
      | LStop e => OStop e
      end
  end.

(** * Loops *)

Inductive turn := Again (st : state) | Exit (o : outcome).

Fixpoint iterate (round : state → turn) (n : nat) (st : state) : outcome :=
  match n with
  | O => OStop Spent
  | S n' => match round st with Again st' => iterate round n' st' | Exit o => o end
  end.

(** How the body of a loop ends its round. *)
Definition own_label (loopLabel : option Z) (label : Z) : bool := bool_decide (loopLabel = Some label).

Definition after_body (loopLabel : option Z) (o : outcome) : turn :=
  match o with
  | ONext st => Again st
  | OBranch label mode st =>
      if own_label loopLabel label then match mode with MContinue => Again st | MBreak => Exit (ONext st) end
      else Exit o
  | _ => Exit o
  end.

Definition then_again (f : state → turn) (t : turn) : turn := match t with Again st => f st | Exit o => Exit o end.

Definition then_run (f : state → outcome) (o : outcome) : outcome := match o with ONext st => f st | _ => o end.

Definition as_turn (o : outcome) : turn := match o with ONext st => Again st | _ => Exit o end.

(** [cond] has run: go on or leave the loop. *)
Definition test_cond (condValue : Z) (f : state → turn) (o : outcome) : turn :=
  match o with
  | ONext st => if truthy (st.1 condValue) then f st else Exit (ONext st)
  | _ => Exit o
  end.

(** A step of the iteration protocol. *)
Definition on_iter (f g : state → turn) (ρ : Z → V) (r : iter_result V W) : turn :=
  match r with
  | IElem w => f (ρ, w)
  | IDone w => g (ρ, w)
  | IThrow v w => Exit (OThrow v (ρ, w))
  | IStop e => Exit (OStop e)
  end.

Definition turn_outcome (t : turn) : outcome := match t with Again st => ONext st | Exit o => o end.

(** An iterator is closed after the last element, on [break], and where a branch leaves
    for a frame outside; not by an exception. *)
Definition leave_iter (h : IrForOf) (st : state) : outcome :=
  turn_outcome (on_iter Again Again st.1 (iter_exit h st.2)).

Definition closing (h : IrForOf) (o : outcome) : outcome :=
  match o with
  | ONext st => leave_iter h st
  | OBranch label mode st => then_run (λ st', OBranch label mode st') (leave_iter h st)
  | _ => o
  end.

(** * Exceptions and frames *)

Definition catching (handler : option (Z * (state → outcome))) (o : outcome) : outcome :=
  match handler, o with
  | Some (payloadSlot, f), OThrow v (ρ, w) => f (ρ, if payloadSlot <? 0 then w else set_slot w payloadSlot v)
  | _, _ => o
  end.

(** The finally buffer runs at every way out of the try that stays in the function. *)
Definition finalizing (final : option (state → outcome)) (o : outcome) : outcome :=
  match final with
  | None => o
  | Some f =>
      match o with
      | ONext st => f st
      | OBranch label mode st => then_run (λ st', OBranch label mode st') (f st)
      | OThrow v st => then_run (λ st', OThrow v st') (f st)
      | OStop e => OStop e
      end
  end.

(** [break] out of a labelled frame. *)
Definition framed (label : Z) (o : outcome) : outcome :=
  match o with
  | OBranch label' MBreak st => if decide (label' = label) then ONext st else o
  | _ => o
  end.

(** The clause that a discriminant selects, or the default, or none. *)
Fixpoint find_clause (v : V) (tests : list (option spec_float)) (k : nat) : option nat :=
  match tests with
  | [] => None
  | Some t :: tests' => if case_is v t then Some k else find_clause v tests' (S k)
  | None :: tests' => find_clause v tests' (S k)
  end.

Fixpoint find_default (tests : list (option spec_float)) (k : nat) : option nat :=
  match tests with
  | [] => None
  | None :: _ => Some k
  | Some _ :: tests' => find_default tests' (S k)
  end.

Definition select_clause (v : V) (tests : list (option spec_float)) : option nat :=
  match find_clause v tests 0 with Some k => Some k | None => find_default tests 0 end.

(** * Instructions *)

Fixpoint exec (n : nat) (i : IrInstr) (st : state) : outcome :=
  let all := fix all (l : list IrInstr) (st : state) : outcome :=
    match l with [] => ONext st | x :: l' => then_run (all l') (exec n x st) end in
  match i with
  | Leaf b l => exec_leaf b l st
  | IrInstrIf b cond t tv e ev =>
      let finish v := then_run (λ st', ONext (bind_result (result_ b) (st'.1 v) st.1, st'.2)) in
      if truthy (st.1 cond) then finish tv (all t st) else finish ev (all e st)
  | IrInstrIfStmt _ cond t e => if truthy (st.1 cond) then all t st else all e st
  | ForOf _ h body l =>
      let round st' := on_iter (λ st'', after_body l (all body st'')) (λ st'', Exit (ONext st'')) st'.1 (iter_next h st'.2) in
      turn_outcome (on_iter (λ st', Exit (closing h (iterate round n st'))) Again st.1 (iter_start h (st.1 (forof_use h)) st.2))
  | IrInstrWhileLoop _ cond cv body postCond l =>
      let round st' :=
        if postCond then then_again (λ st'', test_cond cv Again (all cond st'')) (after_body l (all body st'))
        else test_cond cv (λ st'', after_body l (all body st'')) (all cond st') in
      iterate round n st
  | IrInstrForLoop _ cond cv body update l =>
      let round st' :=
        test_cond cv (λ st'', then_again (λ st3, as_turn (all update st3))
                                (after_body l (all body st''))) (all cond st') in
      iterate round n st
  | IrInstrTry _ body c f =>
      let handler := match c with Some (s, l) => Some (s, all l) | None => None end in
      let final := match f with Some l => Some (all l) | None => None end in
      finalizing final (catching handler (all body st))
  | IrInstrLabeledBlock _ label body => framed label (all body st)
  | IrInstrSwitch _ disc discSlot tests bodies breakLabel =>
      let v := st.1 disc in
      let st' := (st.1, set_slot st.2 discSlot v) in
      let from := fix from (ls : list (list IrInstr)) (k : nat) (st : state) : outcome :=
        match ls with
        | [] => ONext st
        | l :: ls' => match k with O => then_run (from ls' O) (all l st) | S k' => from ls' k' st end
        end in
      match select_clause v tests with
      | None => ONext st'
      | Some k => framed breakLabel (from bodies k st')
      end
  end.

Definition exec_buffer (n : nat) : list IrInstr → state → outcome :=
  fix all (l : list IrInstr) (st : state) : outcome :=
    match l with [] => ONext st | x :: l' => then_run (all l') (exec n x st) end.

(** The buffers of a switch from the [k]th on, each falling into the next. *)
Definition exec_clauses (n : nat) : list (list IrInstr) → nat → state → outcome :=
  fix from (ls : list (list IrInstr)) (k : nat) (st : state) : outcome :=
    match ls with
    | [] => ONext st
    | l :: ls' => match k with O => then_run (from ls' O) (exec_buffer n l st) | S k' => from ls' k' st end
    end.

(** [exec] by the meaning of the buffers. *)
Definition exec_node (n : nat) (i : IrInstr) (st : state) : outcome :=
  match i with
  | Leaf b l => exec_leaf b l st
  | IrInstrIf b cond t tv e ev =>
      let finish v := then_run (λ st', ONext (bind_result (result_ b) (st'.1 v) st.1, st'.2)) in
      if truthy (st.1 cond) then finish tv (exec_buffer n t st) else finish ev (exec_buffer n e st)
  | IrInstrIfStmt _ cond t e => if truthy (st.1 cond) then exec_buffer n t st else exec_buffer n e st
  | ForOf _ h body l =>
      turn_outcome (on_iter (λ st', Exit (closing h (iterate (λ st', on_iter (λ st'', after_body l (exec_buffer n body st''))
                                                                         (λ st'', Exit (ONext st'')) st'.1 (iter_next h st'.2)) n st')))
                      Again st.1 (iter_start h (st.1 (forof_use h)) st.2))
  | IrInstrWhileLoop _ cond cv body postCond l =>
      iterate (λ st', if postCond then then_again (λ st'', test_cond cv Again (exec_buffer n cond st'')) (after_body l (exec_buffer n body st'))
                      else test_cond cv (λ st'', after_body l (exec_buffer n body st'')) (exec_buffer n cond st')) n st
  | IrInstrForLoop _ cond cv body update l =>
      iterate (λ st', test_cond cv (λ st'', then_again (λ st3, as_turn (exec_buffer n update st3))
                                              (after_body l (exec_buffer n body st''))) (exec_buffer n cond st')) n st
  | IrInstrTry _ body c f =>
      finalizing (exec_buffer n <$> f) (catching (prod_map id (exec_buffer n) <$> c) (exec_buffer n body st))
  | IrInstrLabeledBlock _ label body => framed label (exec_buffer n body st)
  | IrInstrSwitch _ disc discSlot tests bodies breakLabel =>
      let st' := (st.1, set_slot st.2 discSlot (st.1 disc)) in
      match select_clause (st.1 disc) tests with
      | None => ONext st'
      | Some k => framed breakLabel (exec_clauses n bodies k st')
      end
  end.

Lemma exec_unfold n i st : exec n i st = exec_node n i st.
Proof. by destruct i as [| | | | |b body [[s c]|] [f|]| | |]. Qed.
End semantics.
Arguments outcome V W : clear implicits.
Arguments turn V W : clear implicits.

(** Where a buffer of a block ends: a branch has no frame there. *)
Definition of_outcome {V W} (o : outcome V W) : ((Z → V) * W) + ending V W :=
  match o with
  | ONext st => inl st
  | OBranch _ _ st => inr (Stuck st.2)
  | OThrow v st => inr (Threw v st.2)
  | OStop e => inr e
  end.

(** The meaning of an instruction in the block graph of [IrCfg]. *)
Definition ir_sem `{M : IrMachine V W} (n : nat) : InstrSem IrInstr V W (ending V W) := {|
  exec_instr i st := of_outcome (exec n i st);
  is_true := truthy;
  returned vs w := Returned vs w;
  trapped w := Trapped w |}.

(** The call of a function in a state, with at most [n] rounds of a loop and [fuel] blocks. *)
Definition run_ir `{M : IrMachine V W} {Rest} (fn : IrFunction IrInstr IrType IrSiteId Rest) (n fuel : nat) (st : (Z → V) * W) : option (ending V W) :=
  @run _ _ _ _ _ _ _ (ir_sem n) fn fuel 0 st.

(** * Simulation *)

(** The relation of two runs: values and worlds at an index that grows. *)
Class IrSimulation `(M : IrMachine V W) := {
  sim_index : Type;
  grows : relation sim_index;
  grows_preorder :: PreOrder grows;
  val_rel : sim_index → relation V;
  world_rel : sim_index → relation W;
  val_rel_grows j j' v v' : grows j j' → val_rel j v v' → val_rel j' v v';
  truthy_rel j v v' : val_rel j v v' → truthy v = truthy v';
  case_is_rel j v v' t : val_rel j v v' → case_is v t = case_is v' t;
  get_slot_rel j w w' s : world_rel j w w' → val_rel j (get_slot w s) (get_slot w' s);
  set_slot_rel j w w' s v v' : world_rel j w w' → val_rel j v v' → world_rel j (set_slot w s v) (set_slot w' s v') }.

Section simulation.
Context {V W : Type} `{M : IrMachine V W} {Sim : IrSimulation M}.
Abbreviation state := ((Z → V) * W)%type.
Implicit Types (j : sim_index) (st : state).

Definition ending_rel j (e e' : ending V W) : Prop :=
  match e, e' with
  | Returned vs w, Returned vs' w' => Forall2 (val_rel j) vs vs' ∧ world_rel j w w'
  | Threw v w, Threw v' w' => val_rel j v v' ∧ world_rel j w w'
  | Trapped w, Trapped w' | Stuck w, Stuck w' => world_rel j w w'
  | Spent, Spent => True
  | _, _ => False
  end.

Definition leaf_rel j (r r' : leaf_result V W) : Prop :=
  match r, r' with
  | LNext v w, LNext v' w' | LThrow v w, LThrow v' w' => val_rel j v v' ∧ world_rel j w w'
  | LStop e, LStop e' => ending_rel j e e'
  | _, _ => False
  end.

Definition iter_rel j (r r' : iter_result V W) : Prop :=
  match r, r' with
  | IElem w, IElem w' | IDone w, IDone w' => world_rel j w w'
  | IThrow v w, IThrow v' w' => val_rel j v v' ∧ world_rel j w w'
  | IStop e, IStop e' => ending_rel j e e'
  | _, _ => False
  end.

(** The machine keeps the relation. *)
Class IrSimulationOk : Prop := {
  leaf_step_rel j t l vs vs' w w' : Forall2 (val_rel j) vs vs' → world_rel j w w' →
    ∃ j', grows j j' ∧ leaf_rel j' (leaf_step t l vs w) (leaf_step t l vs' w');
  iter_start_rel j h v v' w w' : val_rel j v v' → world_rel j w w' → ∃ j', grows j j' ∧ iter_rel j' (iter_start h v w) (iter_start h v' w');
  iter_next_rel j h w w' : world_rel j w w' → ∃ j', grows j j' ∧ iter_rel j' (iter_next h w) (iter_next h w');
  iter_exit_rel j h w w' : world_rel j w w' → ∃ j', grows j j' ∧ iter_rel j' (iter_exit h w) (iter_exit h w') }.

(** The states agree on the values in [live], and on the world. *)
Definition agree (live : Z → Prop) j st st' : Prop := (∀ x, live x → val_rel j (st.1 x) (st'.1 x)) ∧ world_rel j st.2 st'.2.

Definition outcome_rel (live : Z → Prop) j (o o' : outcome V W) : Prop :=
  match o, o' with
  | ONext st, ONext st' => agree live j st st'
  | OBranch l m st, OBranch l' m' st' => l = l' ∧ m = m' ∧ agree live j st st'
  | OThrow v st, OThrow v' st' => val_rel j v v' ∧ agree live j st st'
  | OStop e, OStop e' => ending_rel j e e'
  | _, _ => False
  end.

(** The second run follows the first, unless the first trapped. *)
Definition follows (live : Z → Prop) j (o o' : outcome V W) : Prop :=
  (∃ w, o = OStop (Trapped w)) ∨ ∃ j', grows j j' ∧ outcome_rel live j' o o'.

Definition ends_like j (e e' : ending V W) : Prop := (∃ w, e = Trapped w) ∨ ∃ j', grows j j' ∧ ending_rel j' e e'.
End simulation.
