(* ===== verification/IrSimOk.v ===== *)
(** Simulation of the instructions of the middle-end IR: each way of composing buffers
    keeps [follows], so an instruction follows another that differs in its buffers only,
    when the buffers do and what it reads itself is live.

    Runs of functions of the middle-end IR: when the blocks of one function follow those
    of another, so do its calls.  A pass gives the blocks that correspond. *)

From S2P Require Import Prelude WasmModel IrCfg IrNodes IrEffects IrSem.

Section ok.
Context {V W : Type} `{M : IrMachine V W} {Sim : IrSimulation M} {SimOk : IrSimulationOk}.
Context (live : Z → Prop).
Abbreviation state := ((Z → V) * W)%type.
Implicit Types (j : sim_index) (st : state).

Lemma agree_val j st st' x : agree live j st st' → live x → val_rel j (st.1 x) (st'.1 x).
Proof. intros [Hv _] Hx. by apply Hv. Qed.

Lemma agree_world j st st' : agree live j st st' → world_rel j st.2 st'.2.
Proof. by intros [_ Hw]. Qed.

(** A step of the world keeps the values. *)
Lemma agree_step j j' st st' w w' : agree live j st st' → grows j j' → world_rel j' w w' → agree live j' (st.1, w) (st'.1, w').
Proof. intros [Hv _] Hj Hw. split; [|done]. intros x Hx. eapply val_rel_grows; [done|by apply Hv]. Qed.

Lemma agree_bind j ρ ρ' w w' r v v' : agree live j (ρ, w) (ρ', w') → val_rel j v v' → agree live j (bind_result r v ρ, w) (bind_result r v' ρ', w').
Proof.
  intros [Hv Hw] Hr. split; [|done]. intros x Hx. cbn. destruct r as [y|]; [|by apply Hv].
  cbn. case_decide; [done|by apply Hv].
Qed.

Lemma outcome_stop j e o : outcome_rel live j (OStop e) o → ∃ e', o = OStop e' ∧ ending_rel j e e'.
Proof. destruct o; try done. intros He. by exists e0. Qed.

Lemma follows_now j o o' : outcome_rel live j o o' → follows live j o o'.
Proof. intros Ho. right. by exists j. Qed.

Lemma follows_grows j j' o o' : grows j j' → follows live j' o o' → follows live j o o'.
Proof. intros Hj [Ht|(k & Hk & Ho)]; [by left|]. right. exists k. split; [by transitivity j'|done]. Qed.

Lemma follows_trap j w o : follows live j (OStop (Trapped w)) o.
Proof. left. by exists w. Qed.

Lemma follows_then j o o' f f' : follows live j o o' →
  (∀ j' st st', grows j j' → agree live j' st st' → follows live j' (f st) (f' st')) →
  follows live j (then_run f o) (then_run f' o').
Proof.
  intros [[w ->]|(k & Hk & Ho)] Hf; [apply follows_trap|]. eapply follows_grows; [done|].
  destruct o, o'; try done; [by apply Hf|by apply follows_now..].
Qed.

(** * Loops *)

Definition turn_rel j (t t' : turn V W) : Prop :=
  match t, t' with Again st, Again st' => agree live j st st' | Exit o, Exit o' => outcome_rel live j o o' | _, _ => False end.

Definition turn_follows j (t t' : turn V W) : Prop :=
  (∃ w, t = Exit (OStop (Trapped w))) ∨ ∃ j', grows j j' ∧ turn_rel j' t t'.

Lemma turn_grows j j' t t' : grows j j' → turn_follows j' t t' → turn_follows j t t'.
Proof. intros Hj [Ht|(k & Hk & Ho)]; [by left|]. right. exists k. split; [by transitivity j'|done]. Qed.

Lemma turn_now j t t' : turn_rel j t t' → turn_follows j t t'.
Proof. intros Ht. right. by exists j. Qed.

Lemma turn_exit j o o' : follows live j o o' → turn_follows j (Exit o) (Exit o').
Proof. intros [[w ->]|(k & Hk & Ho)]; [by left; exists w|right; by exists k]. Qed.

Lemma turn_outcome_follows j t t' : turn_follows j t t' → follows live j (turn_outcome t) (turn_outcome t').
Proof.
  intros [[w ->]|(k & Hk & Ht)]; [apply follows_trap|]. right. exists k. split; [done|].
  by destruct t, t'.
Qed.

Lemma after_body_follows j l o o' : follows live j o o' → turn_follows j (after_body l o) (after_body l o').
Proof.
  intros [[w ->]|(k & Hk & Ho)]; [by left; exists w|]. right. exists k. split; [done|].
  destruct o, o'; try done. destruct Ho as (<- & <- & Ha). cbn. destruct (own_label l label); [by destruct mode|done].
Qed.

Lemma then_again_follows j t t' f f' : turn_follows j t t' →
  (∀ j' st st', grows j j' → agree live j' st st' → turn_follows j' (f st) (f' st')) →
  turn_follows j (then_again f t) (then_again f' t').
Proof.
  intros [[w ->]|(k & Hk & Ht)] Hf; [by left; exists w|]. eapply turn_grows; [done|].
  destruct t, t'; try done; [by apply Hf|by apply turn_now].
Qed.

Lemma test_cond_follows j c o o' f f' : live c → follows live j o o' →
  (∀ j' st st', grows j j' → agree live j' st st' → turn_follows j' (f st) (f' st')) →
  turn_follows j (test_cond c f o) (test_cond c f' o').
Proof.
  intros Hc [[w ->]|(k & Hk & Ho)] Hf; [by left; exists w|]. eapply turn_grows; [done|].
  destruct o, o'; try done; try (by apply turn_now). cbn in Ho |- *.
  rewrite <-(truthy_rel k _ _ (agree_val _ _ _ c Ho Hc)). destruct (truthy _); [by apply Hf|by apply turn_now].
Qed.

Lemma update_follows j o o' : follows live j o o' →
  turn_follows j (as_turn o) (as_turn o').
Proof.
  intros [[w ->]|(k & Hk & Ho)]; [by left; exists w|]. right. exists k. split; [done|]. by destruct o, o'.
Qed.

Lemma iterate_follows round round' : (∀ j st st', agree live j st st' → turn_follows j (round st) (round' st')) →
  ∀ n j st st', agree live j st st' → follows live j (iterate round n st) (iterate round' n st').
Proof.
  intros Hr n. induction n as [|n IH]; intros j st st' Ha; [by apply follows_now|]. cbn.
  destruct (Hr j st st' Ha) as [[w E]|(k & Hk & Ht)]; [rewrite E; apply follows_trap|].
  eapply follows_grows; [done|]. destruct (round st), (round' st'); try done; [by apply IH|by apply follows_now].
Qed.

Lemma on_iter_follows j st st' r r' f f' g g' : agree live j st st' →
  (∃ j', grows j j' ∧ iter_rel j' r r') →
  (∀ j' st st', grows j j' → agree live j' st st' → turn_follows j' (f st) (f' st')) →
  (∀ j' st st', grows j j' → agree live j' st st' → turn_follows j' (g st) (g' st')) →
  turn_follows j (on_iter f g st.1 r) (on_iter f' g' st'.1 r').
Proof.
  intros Ha (k & Hk & Hr) Hf Hg. eapply turn_grows; [done|].
  destruct r, r'; try done; cbn in Hr |- *.
  - apply Hf; [done|by eapply agree_step].
  - apply Hg; [done|by eapply agree_step].
  - apply turn_now. destruct Hr as [Hv Hw]. split; [done|by eapply agree_step].
  - by apply turn_now.
Qed.

Lemma leave_iter_follows j h st st' : agree live j st st' → follows live j (leave_iter h st) (leave_iter h st').
Proof.
  intros Ha. apply turn_outcome_follows, on_iter_follows; [done|by apply iter_exit_rel, agree_world|..]; intros; by apply turn_now.
Qed.

Lemma closing_follows j h o o' : follows live j o o' → follows live j (closing h o) (closing h o').
Proof.
  intros [[w ->]|(k & Hk & Ho)]; [apply follows_trap|]. eapply follows_grows; [done|].
  destruct o, o'; try done; cbn in Ho |- *; try (by apply follows_now); [by apply leave_iter_follows|].
  destruct Ho as (<- & <- & Ha). apply follows_then; [by apply leave_iter_follows|]. intros. by apply follows_now.
Qed.

(** * Exceptions and frames *)

Definition runs_follow j (f f' : state → outcome V W) : Prop := ∀ j' st st', grows j j' → agree live j' st st' → follows live j' (f st) (f' st').

Lemma catching_follows j s f f' o o' : runs_follow j f f' → follows live j o o' →
  follows live j (catching (Some (s, f)) o) (catching (Some (s, f')) o').
Proof.
  intros Hf [[w ->]|(k & Hk & Ho)]; [apply follows_trap|]. eapply follows_grows; [done|].
  destruct o as [|?? st1|v [ρ w]|], o' as [|?? st2|v' [ρ' w']|]; try done; try (by apply follows_now). cbn in Ho |- *.
  destruct Ho as [Hv Ha]. apply Hf; [done|]. apply (agree_step k k (ρ, w) (ρ', w')); [done|done|].
  destruct (s <? 0); [exact (agree_world _ _ _ Ha)|]. apply set_slot_rel; [exact (agree_world _ _ _ Ha)|done].
Qed.

Lemma finalizing_follows j f f' o o' : runs_follow j f f' → follows live j o o' →
  follows live j (finalizing (Some f) o) (finalizing (Some f') o').
Proof.
  intros Hf [[w ->]|(k & Hk & Ho)]; [apply follows_trap|]. eapply follows_grows; [done|].
  destruct o, o'; try done; cbn in Ho |- *; try (by apply follows_now).
  - by apply Hf.
  - destruct Ho as (<- & <- & Ha). apply follows_then; [by apply Hf|]. intros. by apply follows_now.
  - destruct Ho as [Hv Ha]. apply follows_then; [by apply Hf|]. intros k' st1 st1' Hk' Ha'. apply follows_now.
    split; [by eapply val_rel_grows|done].
Qed.

Lemma framed_follows j l o o' : follows live j o o' → follows live j (framed l o) (framed l o').
Proof.
  intros [[w ->]|(k & Hk & Ho)]; [apply follows_trap|]. eapply follows_grows; [done|].
  destruct o as [|l1 m1 s1| |], o' as [|l2 m2 s2| |]; try done; cbn in Ho |- *; try (by apply follows_now).
  destruct Ho as (<- & <- & Ha). destruct m1; [case_decide|]; by apply follows_now.
Qed.

Lemma find_clause_rel j v v' tests k : val_rel j v v' → find_clause v tests k = find_clause v' tests k.
Proof.
  intros Hv. revert k. induction tests as [|[t|] tests IH]; intros k; cbn; [done| |by apply IH].
  rewrite <-(case_is_rel j v v' t Hv). by rewrite IH.
Qed.

Lemma select_clause_rel j v v' tests : val_rel j v v' → select_clause v tests = select_clause v' tests.
Proof. intros Hv. unfold select_clause. by rewrite (find_clause_rel j v v'). Qed.

(** * Instructions *)

Definition buffers_follow (n : nat) (l l' : list IrInstr) : Prop :=
  ∀ j st st', agree live j st st' → follows live j (exec_buffer n l st) (exec_buffer n l' st').

Definition instr_follows (n : nat) (i i' : IrInstr) : Prop :=
  ∀ j st st', agree live j st st' → follows live j (exec n i st) (exec n i' st').

Lemma buffer_nil n : buffers_follow n [] [].
Proof. intros j st st' Ha. by apply follows_now. Qed.

Lemma buffer_cons n i i' l l' : instr_follows n i i' → buffers_follow n l l' → buffers_follow n (i :: l) (i' :: l').
Proof. intros Hi Hl j st st' Ha. apply (follows_then j _ _ (exec_buffer n l) (exec_buffer n l')); [by apply Hi|]. intros. by apply Hl. Qed.

Lemma runs_follow_buffer n l l' j : buffers_follow n l l' → runs_follow j (exec_buffer n l) (exec_buffer n l').
Proof. intros Hl j' st st' _ Ha. by apply Hl. Qed.

Lemma exec_clauses_follows n ls ls' : Forall2 (buffers_follow n) ls ls' → ∀ k j st st', agree live j st st' →
  follows live j (exec_clauses n ls k st) (exec_clauses n ls' k st').
Proof.
  induction 1 as [|l l' ls ls' Hl _ IH]; intros k j st st' Ha; [by apply follows_now|]. destruct k as [|k]; [|by apply IH].
  apply (follows_then j _ _ (exec_clauses n ls 0) (exec_clauses n ls' 0)); [by apply Hl|]. intros. by apply IH.
Qed.

Lemma vals_agree j st st' xs : agree live j st st' → Forall live xs → Forall2 (val_rel j) (st.1 <$> xs) (st'.1 <$> xs).
Proof. intros Ha. induction 1 as [|x xs Hx _ IH]; constructor; [by apply agree_val|done]. Qed.

Lemma leaf_follows n b l : Forall live (leaf_uses l) → instr_follows n (Leaf b l) (Leaf b l).
Proof.
  intros Hl j [ρ w] [ρ' w'] Ha. rewrite !exec_unfold.
  assert (follows live j
      match leaf_step (resultType b) l (ρ <$> leaf_uses l) w with LNext v w1 => ONext (bind_result (result_ b) v ρ, w1) | LThrow v w1 => OThrow v (ρ, w1) | LStop e => OStop e end
      match leaf_step (resultType b) l (ρ' <$> leaf_uses l) w' with LNext v w1 => ONext (bind_result (result_ b) v ρ', w1) | LThrow v w1 => OThrow v (ρ', w1) | LStop e => OStop e end) as Hstep.
  { destruct (leaf_step_rel j (resultType b) l (ρ <$> leaf_uses l) (ρ' <$> leaf_uses l) w w') as (k & Hk & Hr); [by apply (vals_agree _ _ _ _ Ha)|exact (agree_world _ _ _ Ha)|].
    right. exists k. split; [done|]. destruct (leaf_step _ _ _ w), (leaf_step _ _ _ w'); try done; cbn in Hr |- *; try destruct Hr as [Hv Hw].
    - apply agree_bind; [|done]. by apply (agree_step _ _ _ _ _ _ Ha).
    - split; [done|]. by apply (agree_step _ _ _ _ _ _ Ha). }
  destruct l; try exact Hstep; cbn [exec_node exec_leaf]; apply follows_now.
  - apply agree_bind; [done|]. apply get_slot_rel. exact (agree_world _ _ _ Ha).
  - apply (agree_step j j _ _ _ _ Ha); [done|]. apply set_slot_rel; [exact (agree_world _ _ _ Ha)|].
    cbn [leaf_uses] in Hl. rewrite Forall_singleton in Hl. exact (agree_val _ _ _ _ Ha Hl).
  - cbn [leaf_uses] in Hl. rewrite Forall_singleton in Hl. split; [exact (agree_val _ _ _ _ Ha Hl)|done].
  - split; [exact (vals_agree _ _ _ _ Ha Hl)|exact (agree_world _ _ _ Ha)].
  - by split_and!.
Qed.

Lemma if_finish_follows j r v st st' o o' : live v → agree live j st st' → follows live j o o' →
  follows live j (then_run (λ s, ONext (bind_result r (s.1 v) st.1, s.2)) o) (then_run (λ s, ONext (bind_result r (s.1 v) st'.1, s.2)) o').
Proof.
  intros Hv Ha Ho. apply follows_then; [done|]. intros k s s' Hk Hs. apply follows_now, agree_bind.
  - apply (agree_step _ _ _ _ _ _ Ha Hk). exact (agree_world _ _ _ Hs).
  - exact (agree_val _ _ _ _ Hs Hv).
Qed.

Lemma truthy_follows j c st st' o1 o1' o2 o2' : agree live j st st' → live c → follows live j o1 o1' → follows live j o2 o2' →
  follows live j (if truthy (st.1 c) then o1 else o2) (if truthy (st'.1 c) then o1' else o2').
Proof. intros Ha Hc H1 H2. rewrite <-(truthy_rel j _ _ (agree_val _ _ _ c Ha Hc)). by destruct (truthy _). Qed.

Lemma forof_follows n b h body body' l : live (forof_use h) → buffers_follow n body body' →
  instr_follows n (ForOf b h body l) (ForOf b h body' l).
Proof.
  intros Hh Hb j st st' Ha. rewrite !exec_unfold. cbn [exec_node]. apply turn_outcome_follows, on_iter_follows; [done| | |].
  - apply iter_start_rel; [by apply (agree_val _ _ _ _ Ha)|exact (agree_world _ _ _ Ha)].
  - intros k s s' Hk Hs. apply turn_exit, closing_follows. revert s s' Hs. generalize n at 2 4. intros m s s' Hs. apply iterate_follows; [|done].
    clear -Hb SimOk. intros j st st' Ha. apply on_iter_follows; [done|by apply iter_next_rel, agree_world|..].
    + intros k s s' _ Hs. apply after_body_follows. by apply Hb.
    + intros k s s' _ Hs. by apply turn_now.
  - intros. by apply turn_now.
Qed.

Lemma while_follows n b cond cond' cv body body' p l : live cv → buffers_follow n cond cond' → buffers_follow n body body' →
  instr_follows n (IrInstrWhileLoop b cond cv body p l) (IrInstrWhileLoop b cond' cv body' p l).
Proof.
  intros Hv Hc Hb j st st' Ha. rewrite !exec_unfold. apply iterate_follows; [|done]. clear -Hv Hc Hb. intros j st st' Ha. destruct p.
  - apply then_again_follows; [apply after_body_follows; by apply Hb|]. intros k s s' _ Hs. apply test_cond_follows; [done|by apply Hc|]. intros. by apply turn_now.
  - apply test_cond_follows; [done|by apply Hc|]. intros k s s' _ Hs. apply after_body_follows. by apply Hb.
Qed.

Lemma for_follows n b cond cond' cv body body' update update' l :
  live cv → buffers_follow n cond cond' → buffers_follow n body body' → buffers_follow n update update' →
  instr_follows n (IrInstrForLoop b cond cv body update l) (IrInstrForLoop b cond' cv body' update' l).
Proof.
  intros Hv Hc Hb Hu j st st' Ha. rewrite !exec_unfold. apply iterate_follows; [|done]. clear -Hv Hc Hb Hu. intros j st st' Ha.
  apply test_cond_follows; [done|by apply Hc|]. intros k s s' _ Hs. apply then_again_follows; [apply after_body_follows; by apply Hb|].
  intros k' t t' _ Ht. apply update_follows. by apply Hu.
Qed.

Lemma try_follows n b body body' (c : option (Z * list IrInstr)) f (g : list IrInstr → list IrInstr) : buffers_follow n body body' →
  Forall (λ l, buffers_follow n l (g l)) (option_list (snd <$> c)) → Forall (λ l, buffers_follow n l (g l)) (option_list f) →
  instr_follows n (IrInstrTry b body c f) (IrInstrTry b body' (prod_map id g <$> c) (g <$> f)).
Proof.
  intros Hb Hc Hf j st st' Ha. rewrite !exec_unfold. cbn [exec_node].
  assert (follows live j (catching (prod_map id (exec_buffer n) <$> c) (exec_buffer n body st))
            (catching (prod_map id (exec_buffer n) <$> (prod_map id g <$> c)) (exec_buffer n body' st'))) as Hcatch.
  { destruct c as [[s l]|]; cbn; [|by apply Hb]. inversion_clear Hc as [|? ? Hl _]. apply catching_follows; [by apply runs_follow_buffer|by apply Hb]. }
  destruct f as [l|]; [|done]. inversion_clear Hf as [|? ? Hl _]. apply finalizing_follows; [by apply runs_follow_buffer|done].
Qed.

Lemma switch_follows n b d s t bodies bodies' l : live d → Forall2 (buffers_follow n) bodies bodies' →
  instr_follows n (IrInstrSwitch b d s t bodies l) (IrInstrSwitch b d s t bodies' l).
Proof.
  intros Hd Hb j st st' Ha. rewrite !exec_unfold. cbn [exec_node]. pose proof (agree_val _ _ _ _ Ha Hd) as Hv.
  rewrite <-(select_clause_rel j _ _ t Hv).
  assert (agree live j (st.1, set_slot st.2 s (st.1 d)) (st'.1, set_slot st'.2 s (st'.1 d))) as Ha'.
  { apply (agree_step _ j _ _ _ _ Ha); [done|]. apply set_slot_rel; [exact (agree_world _ _ _ Ha)|done]. }
  destruct (select_clause _ t) as [k|]; [|by apply follows_now]. apply framed_follows. by apply exec_clauses_follows.
Qed.

(** An instruction with its buffers mapped follows the original. *)
Theorem map_buffers_follows n f i : Forall live (directUses i) → Forall (λ l, buffers_follow n l (f l)) (nested_buffers i) →
  instr_follows n i (map_buffers f i).
Proof.
  destruct i as [b l|b c t tv e ev|b h body l|b cond cv body p l|b cond cv body update l|b body c f'|b c t e|b l body|b d s t bodies l];
    cbn [directUses nested_buffers map_buffers]; rewrite ?Forall_cons, ?Forall_nil; intros Hu Hb.
  - by apply leaf_follows.
  - destruct Hu as (Hc & Ht & He & _), Hb as (Bt & Be & _). intros j st st' Ha. rewrite !exec_unfold. cbn [exec_node].
    apply truthy_follows; [done..| |]; apply if_finish_follows; try done; [by apply Bt|by apply Be].
  - destruct Hu, Hb. by apply forof_follows.
  - destruct Hu, Hb as (? & ? & _). by apply while_follows.
  - destruct Hu, Hb as (? & ? & ? & _). by apply for_follows.
  - destruct Hb as [Hb Hcf]. apply Forall_app in Hcf as [Hc Hf]. by apply try_follows.
  - destruct Hu, Hb as (Bt & Be & _). intros j st st' Ha. rewrite !exec_unfold. cbn [exec_node].
    apply truthy_follows; [done..|by apply Bt|by apply Be].
  - destruct Hb as [Hb _]. intros j st st' Ha. rewrite !exec_unfold. apply framed_follows. by apply Hb.
  - destruct Hu. apply switch_follows; [done|]. by apply Forall2_fmap_r, Forall_Forall2_diag.
Qed.
End ok.

Section run.
Context {V W : Type} `{M : IrMachine V W} {Sim : IrSimulation M} {SimOk : IrSimulationOk} {Rest : Type}.
Context (live : Z → Prop).
Abbreviation IrFn := (IrFunction IrInstr IrType IrSiteId Rest).
Abbreviation Block := (IrBlock IrInstr IrType IrSiteId).
Implicit Types (fn : IrFn) (block : Block) (j : sim_index) (st : (Z → V) * W).

Lemma exec_all_buffer n l st : @exec_all _ _ _ _ (ir_sem n) l st = of_outcome (exec_buffer n l st).
Proof.
  revert st. induction l as [|x l IH]; intros st; [done|]. cbn. destruct (exec n x st); cbn; [apply IH|done..].
Qed.

(** * Corresponding blocks *)

Definition branch_follows (to : Z → Z → Prop) (br br' : IrBranch) : Prop :=
  to (target br) (target br') ∧ branch_args br' = branch_args br ∧ Forall live (branch_args br).

Definition terminator_follows (to : Z → Z → Prop) (t t' : IrTerminator IrSiteId) : Prop :=
  match t, t' with
  | TReturn vs _, TReturn vs' _ => vs' = vs ∧ Forall live vs
  | TBr br _, TBr br' _ => branch_follows to br br'
  | TBrIf c a b _, TBrIf c' a' b' _ => c' = c ∧ live c ∧ branch_follows to a a' ∧ branch_follows to b b'
  | TUnreachable _, TUnreachable _ => True
  | _, _ => False
  end.

Record blocks_follow (n : nat) fn fn' (to : Z → Z → Prop) : Prop := {
  bf_block b b' : to b b' → ∃ block block', js_at (blocks fn) b = Some block ∧ js_at (blocks fn') b' = Some block' ∧
    blockArgs block' = blockArgs block ∧ buffers_follow live n (instrs block) (instrs block') ∧
    terminator_follows to (terminator block) (terminator block') }.

Lemma bind_args_agree j st st' params vs vs' : agree live j st st' → Forall2 (val_rel j) vs vs' →
  agree live j (bind_args params vs st.1, st.2) (bind_args params vs' st'.1, st'.2).
Proof.
  intros [Hv Hw] Hs. split; [|done]. cbn. clear Hw. unfold bind_args. revert vs vs' Hs Hv. generalize (st.1) (st'.1).
  induction params as [|p params IH]; intros ρ ρ' vs vs' Hs Hv; [done|]. destruct Hs as [|v v' vs vs' Hv1 Hs]; [done|]. cbn [zip zip_with foldl].
  apply IH; [done|]. intros x Hx. cbn. case_decide; [done|by apply Hv].
Qed.

Lemma enter_follows n fn fn' to j br br' st st' : blocks_follow n fn fn' to → branch_follows to br br' → agree live j st st' →
  agree live j (enter fn br st) (enter fn' br' st').
Proof.
  intros Hb (Hto & Hargs & Hl) Ha. destruct (bf_block _ _ _ _ Hb _ _ Hto) as (block & block' & E & E' & Eargs & _).
  unfold enter. rewrite E, E', Eargs, Hargs. apply bind_args_agree; [done|]. by apply vals_agree with live.
Qed.

(** * Corresponding runs *)

Definition end_follows j (o o' : option (ending V W)) : Prop :=
  (∃ w, o = Some (Trapped w)) ∨
  match o, o' with Some e, Some e' => ∃ j', grows j j' ∧ ending_rel j' e e' | None, None => True | _, _ => False end.

Lemma end_follows_grows j j' o o' : grows j j' → end_follows j' o o' → end_follows j o o'.
Proof.
  intros Hj [Ht|Ho]; [by left|right]. destruct o, o'; try done. destruct Ho as (k & Hk & He). exists k. split; [by transitivity j'|done].
Qed.

Lemma end_now j e e' : ending_rel j e e' → end_follows j (Some e) (Some e').
Proof. intros He. right. by exists j. Qed.

Lemma run_follows n fn fn' to : blocks_follow n fn fn' to → ∀ fuel b b' j st st', to b b' → agree live j st st' →
  end_follows j (@run _ _ _ _ _ _ _ (ir_sem n) fn fuel b st) (@run _ _ _ _ _ _ _ (ir_sem n) fn' fuel b' st').
Proof.
  intros Hb fuel. induction fuel as [|fuel IH]; intros b b' j st st' Hto Ha; [by right|]. cbn [run].
  destruct (bf_block _ _ _ _ Hb _ _ Hto) as (block & block' & -> & -> & _ & Hi & Ht). rewrite !exec_all_buffer.
  destruct (Hi j st st' Ha) as [[w E]|(k & Hk & Ho)]; [left; rewrite E; by exists w|]. eapply end_follows_grows; [exact Hk|].
  destruct (exec_buffer n (instrs block) st) as [s|? ? s|v s|e], (exec_buffer n (instrs block') st') as [s'|? ? s'|v' s'|e']; try done; cbn in Ho |- *.
  2: by apply end_now; destruct Ho as (_ & _ & _ & Ho). 2: by apply end_now; destruct Ho as (? & _ & ?). 2: by apply end_now.
  assert (∀ br br', branch_follows to br br' → end_follows k
    (@run _ _ _ _ _ _ _ (ir_sem n) fn fuel (target br) (enter fn br s)) (@run _ _ _ _ _ _ _ (ir_sem n) fn' fuel (target br') (enter fn' br' s'))) as Hbr.
  { intros br br' Hf. apply IH; [apply Hf|]. by eapply enter_follows. }
  destruct (terminator block) as [vs site|br site|c a a' site|site], (terminator block') as [vs' site'|br' site'|c' a1 a1' site'|site']; try done; cbn in Ht |- *.
  - destruct Ht as [-> Hl]. apply end_now. split; [exact (vals_agree live _ _ _ _ Ho Hl)|exact (agree_world _ _ _ _ Ho)].
  - by apply Hbr.
  - destruct Ht as (-> & Hc & H1 & H2). rewrite <-(truthy_rel k _ _ (agree_val _ _ _ _ c Ho Hc)). destruct (truthy _); by apply Hbr.
  - apply end_now. apply Ho.
Qed.
End run.

(** * The same function *)

Section same.
Context {V W : Type} `{M : IrMachine V W} {Sim : IrSimulation M} {SimOk : IrSimulationOk} {Rest : Type}.

Lemma map_buffers_id (i : IrInstr) : map_buffers (λ l, l) i = i.
Proof.
  destruct i as [| | | | |b body [[s c]|] [f|]| | |b d s t bodies l]; try done. cbn. f_equal. apply list_fmap_id.
Qed.

Lemma instr_follows_refl n i : instr_follows (λ _, True) n i i.
Proof.
  induction i as [i IH] using instr_ind'. rewrite <-(map_buffers_id i) at 2. apply map_buffers_follows; [by apply list.Forall_forall|].
  apply list.Forall_forall. intros l Hl. rewrite list.Forall_forall in IH. specialize (IH l Hl). clear Hl.
  induction IH as [|x l Hx _ IHl]; [apply buffer_nil|by apply buffer_cons].
Qed.

Lemma buffers_follow_refl n l : buffers_follow (λ _, True) n l l.
Proof. induction l as [|x l IH]; [apply buffer_nil|apply buffer_cons; [apply instr_follows_refl|done]]. Qed.
End same.
