(* ===== verification/AllocRegistry.v ===== *)
(** The allocation-site registry of the middle-end IR: the class AllocSiteRegistry of
    src/ir/analysis/alloc-registry.ts, and the walks over allocation ids of
    src/ir/passes/alloc-discipline.ts.  A registry is the array of provenances and the
    metadata of each site, whose values are a type argument.  Snapshots are left out. *)

From S2P Require Import Prelude WasmModel IrNodes.

Inductive AllocKind := AkObject | AkArray | AkString | AkClosure | AkRefcell | AkBox | AkExtern | AkIterator | AkGenerator.

Section registry.
Context `{IrTypes} {Meta : Type}.

Record AllocSite := mkAllocSite { as_id : Z; as_kind : AllocKind; as_type : IrType; as_origin : option IrSiteId }.

Inductive Provenance :=
  | Live (site : AllocSite)
  | Aliased (to : Z)
  | Retired.

(** [meta] holds the rows that are not undefined. *)
Record AllocSiteRegistry := mkRegistry { sites : list Provenance; meta : gmap Z (jsmap jsstr Meta) }.
Implicit Types reg : AllocSiteRegistry.

Definition empty_registry : AllocSiteRegistry := mkRegistry [] ∅.

Definition fresh reg (kind : AllocKind) (type : IrType) (origin : option IrSiteId) : AllocSiteRegistry * Z :=
  let id := Z.of_nat (length (sites reg)) in
  (mkRegistry (sites reg ++ [Live (mkAllocSite id kind type origin)]) (meta reg), id).

Definition isKnown reg (id : Z) : bool := (0 <=? id) && (id <? Z.of_nat (length (sites reg))).

(** The loop of [resolve] and of [canonicalIndex] over a chain of aliases. *)
Fixpoint follow_aliases (fuel : nat) reg (seen : gset Z) (idx : Z) : result (option Z) :=
  match js_at (sites reg) idx with
  | Some (Aliased to) =>
      match fuel with
      | O => Err OutOfFuel
      | S fuel' => if bool_decide (to ∈ seen) then Ok None else follow_aliases fuel' reg ({[to]} ∪ seen) to
      end
  | Some _ => Ok (Some idx)
  | None => Ok None
  end.

(** One step per site, and one for an id that is not a site. *)
Definition alias_fuel reg : nat := S (length (sites reg)).

Definition canonicalIndex reg (id : Z) : result (option Z) := follow_aliases (alias_fuel reg) reg {[id]} id.

Definition resolve reg (id : Z) : result (option AllocSite) :=
  idx ← follow_aliases (alias_fuel reg) reg {[id]} id;
  Ok (match idx with
      | Some i => match js_at (sites reg) i with Some (Live s) => Some s | _ => None end
      | None => None
      end).

(** Existing keys of the target win. *)
Definition merge_meta (toMeta fromMeta : jsmap jsstr Meta) : jsmap jsstr Meta :=
  foldl (λ m e, if jm_has m e.1 then m else jm_set m e.1 e.2) toMeta fromMeta.

Definition alias reg (from to : Z) : result AllocSiteRegistry :=
  if negb (isKnown reg from) || negb (isKnown reg to) then Ok reg
  else
    toCanon ← canonicalIndex reg to;
    match toCanon with
    | None => Ok reg
    | Some c =>
        let meta' :=
          match meta reg !! from with
          | Some fromMeta => delete from (<[c := merge_meta (default [] (meta reg !! c)) fromMeta]> (meta reg))
          | None => meta reg
          end in
        Ok (mkRegistry (ta_set (sites reg) from (Aliased c)) meta')
    end.

Definition retire reg (id : Z) : AllocSiteRegistry :=
  if negb (isKnown reg id) then reg else mkRegistry (ta_set (sites reg) id Retired) (delete id (meta reg)).

Definition annotate reg (id : Z) (ns : jsstr) (value : Meta) : result AllocSiteRegistry :=
  idx ← canonicalIndex reg id;
  Ok (match idx with
      | Some i =>
          match js_at (sites reg) i with
          | Some (Live _) => mkRegistry (sites reg) (<[i := jm_set (default [] (meta reg !! i)) ns value]> (meta reg))
          | _ => reg
          end
      | None => reg
      end).

Definition read reg (id : Z) (ns : jsstr) : result (option Meta) :=
  idx ← canonicalIndex reg id;
  Ok (match idx with Some i => match meta reg !! i with Some m => jm_get m ns | None => None end | None => None end).

Definition liveSites reg : list AllocSite := sites reg ≫= λ p, match p with Live s => [s] | _ => [] end.

(** * Allocations of an instruction *)

Definition allocIdsIn (i : IrInstr) : list Z := instrs_deep i ≫= λ x, option_list (alloc (base x)).

(** [None] is a pass without a registry. *)
Definition retireAllocsIn (i : IrInstr) (registry : option AllocSiteRegistry) : option AllocSiteRegistry :=
  (λ reg, foldl retire reg (allocIdsIn i)) <$> registry.

Definition set_base (b : IrInstrBase) (i : IrInstr) : IrInstr :=
  match i with
  | Leaf _ l => Leaf b l
  | IrInstrIf _ c t tv e ev => IrInstrIf b c t tv e ev
  | ForOf _ h body l => ForOf b h body l
  | IrInstrWhileLoop _ cond cv body p l => IrInstrWhileLoop b cond cv body p l
  | IrInstrForLoop _ cond cv body update l => IrInstrForLoop b cond cv body update l
  | IrInstrTry _ body c f => IrInstrTry b body c f
  | IrInstrIfStmt _ c t e => IrInstrIfStmt b c t e
  | IrInstrLabeledBlock _ l body => IrInstrLabeledBlock b l body
  | IrInstrSwitch _ d s t bodies l => IrInstrSwitch b d s t bodies l
  end.

Definition forkAllocInInstr (i : IrInstr) (registry : option AllocSiteRegistry) : result (IrInstr * option AllocSiteRegistry) :=
  match registry, alloc (base i) with
  | Some reg, Some a =>
      s ← resolve reg a;
      match s with
      | None => Ok (i, registry)
      | Some s =>
          let '(reg', id) := fresh reg (as_kind s) (as_type s) (as_origin s) in
          let b := base i in
          Ok (set_base (mkBase (result_ b) (resultType b) (site b) (Some id)) i, Some reg')
      end
  | _, _ => Ok (i, registry)
  end.
End registry.
Arguments AllocSiteRegistry {_} Meta.
