(* ===== verification/IrDead.v ===== *)
(** Dead-code elimination on the middle-end IR: src/ir/passes/dead-code.ts.  The pass
    returns [None] where the source returns the same function object; the registry of
    allocation sites is threaded, and may be absent. *)

From stdpp Require Import sorting.
From S2P Require Import Prelude WasmModel IrCfg IrNodes IrEffects AllocRegistry.

Section dead.
Context `{IrTypes} {Rest Meta : Type}.
Abbreviation IrFn := (IrFunction IrInstr IrType IrSiteId Rest).
Abbreviation Block := (IrBlock IrInstr IrType IrSiteId).
Abbreviation Registry := (option (AllocSiteRegistry Meta)).
Implicit Types (fn : IrFn) (live : gset Z) (t : IrTerminator IrSiteId).

(** * Reachability *)

(** In the order in which the source pushes them; the last is popped first. *)
Definition successors t : list Z :=
  match t with
  | TBr branch _ => [target branch]
  | TBrIf _ ifTrue ifFalse _ => [target ifTrue; target ifFalse]
  | TReturn _ _ | TUnreachable _ => []
  end.

(** The queue has its end first. *)
Fixpoint reach_loop fn (fuel : nat) (queue reachable : list Z) : result (list Z) :=
  match queue with
  | [] => Ok reachable
  | id :: queue' =>
      match fuel with
      | O => Err OutOfFuel
      | S fuel' =>
          if bool_decide (id ∈ reachable) then reach_loop fn fuel' queue' reachable
          else
            match js_at (blocks fn) id with
            | None => reach_loop fn fuel' queue' reachable
            | Some block => reach_loop fn fuel' (rev (successors (terminator block)) ++ queue') (reachable ++ [id])
            end
      end
  end.

(** The entry is popped, and two successors per block. *)
Definition reach_fuel fn : nat := S (2 * length (blocks fn)).

Definition computeReachable fn : result (list Z) := reach_loop fn (reach_fuel fn) [0] [].

(** * Liveness *)

Definition collectTerminatorUses t : list Z :=
  match t with
  | TReturn values _ => values
  | TBr branch _ => branch_args branch
  | TBrIf condition ifTrue ifFalse _ => condition :: branch_args ifTrue ++ branch_args ifFalse
  | TUnreachable _ => []
  end.

Definition reachable_blocks fn (reachable : list Z) : list Block := reachable ≫= λ id, option_list (js_at (blocks fn) id).

Definition seed_instr live (i : IrInstr) : gset Z :=
  if isSideEffecting i then live ∪ list_to_set (collectUses i) else live.

Definition seed_block live (block : Block) : gset Z :=
  foldl seed_instr (live ∪ list_to_set (collectTerminatorUses (terminator block))) (instrs block).

(** [if (!live.has(u)) { live.add(u); changed = true; }] *)
Definition add_use (s : gset Z * bool) (u : Z) : gset Z * bool :=
  if bool_decide (u ∈ s.1) then s else ({[u]} ∪ s.1, true).

Definition propagate_instr (s : gset Z * bool) (i : IrInstr) : gset Z * bool :=
  match instr_result i with
  | Some r => if bool_decide (r ∈ s.1) then foldl add_use s (collectUses i) else s
  | None => s
  end.

Definition propagate_round (bs : list Block) live : gset Z * bool :=
  foldl (λ s block, foldl propagate_instr s (instrs block)) (live, false) bs.

Fixpoint live_loop (bs : list Block) (fuel : nat) live : result (gset Z) :=
  match fuel with
  | O => Err OutOfFuel
  | S fuel' => let '(live', changed) := propagate_round bs live in if changed then live_loop bs fuel' live' else Ok live'
  end.

(** One round per use that it can add, and one that adds none. *)
Definition live_fuel (bs : list Block) : nat := S (length (bs ≫= λ block, instrs block ≫= collectUses)).

Definition computeLiveValues fn (reachable : list Z) : result (gset Z) :=
  let bs := reachable_blocks fn reachable in
  live_loop bs (live_fuel bs) (foldl seed_block ∅ bs).

Definition shouldKeep (i : IrInstr) live : bool :=
  if isSideEffecting i then true
  else match instr_result i with None => true | Some r => bool_decide (r ∈ live) end.

(** * Removal *)

Definition removesAnything live : IrInstr → bool :=
  instr_fold (λ i inside, if negb (shouldKeep i live) then true else existsb (existsb id) inside).

Definition retireDead live : IrInstr → Registry → Registry :=
  instr_fold (λ i inside registry,
    if negb (shouldKeep i live) then retireAllocsIn i registry
    else foldl (λ registry buffer, foldl (λ registry f, f registry) registry buffer) registry inside).

(** [filterBuffer] on the way down: whether it changed, and the kept instructions. *)
Fixpoint filter_instr live (i : IrInstr) : option IrInstr :=
  let filter := fix filter (buffer : list IrInstr) : bool * list IrInstr :=
    match buffer with
    | [] => (false, [])
    | x :: buffer' =>
        let '(changed, kept) := filter buffer' in
        if negb (shouldKeep x live) then (true, kept)
        else match filter_instr live x with None => (changed, x :: kept) | Some rebuilt => (true, rebuilt :: kept) end
    end in
  mapNestedBuffers (λ buffer, let '(changed, kept) := filter buffer in if changed then Some kept else None) i.

Definition filter_loop live : list IrInstr → bool * list IrInstr :=
  fix filter (buffer : list IrInstr) : bool * list IrInstr :=
    match buffer with
    | [] => (false, [])
    | x :: buffer' =>
        let '(changed, kept) := filter buffer' in
        if negb (shouldKeep x live) then (true, kept)
        else match filter_instr live x with None => (changed, x :: kept) | Some rebuilt => (true, rebuilt :: kept) end
    end.

Definition filterBuffer live (buffer : list IrInstr) : option (list IrInstr) :=
  let '(changed, kept) := filter_loop live buffer in if changed then Some kept else None.

Definition rewriteBranch (br : IrBranch) (oldToNew : jsmap Z Z) (funcName : jsstr) : result IrBranch :=
  match jm_get oldToNew (target br) with
  | None => throw EError (js "ir/passes/dead-code: branch to unreachable block " ++ js_num (target br) ++ js " in " ++ funcName)
  | Some newTarget => Ok {| target := newTarget; branch_args := branch_args br |}
  end.

Definition rewriteTerminatorTargets t (oldToNew : jsmap Z Z) (funcName : jsstr) : result (IrTerminator IrSiteId) :=
  match t with
  | TReturn _ _ | TUnreachable _ => Ok t
  | TBr branch site => branch ← rewriteBranch branch oldToNew funcName; Ok (TBr branch site)
  | TBrIf condition ifTrue ifFalse site =>
      ifTrue ← rewriteBranch ifTrue oldToNew funcName;
      ifFalse ← rewriteBranch ifFalse oldToNew funcName;
      Ok (TBrIf condition ifTrue ifFalse site)
  end.

(** [oldToNew] of the sorted ids. *)
Definition number_blocks (sortedReachable : list Z) : jsmap Z Z :=
  foldl (λ m oi, jm_set m oi.1 oi.2) [] (zip sortedReachable (seqZ 0 (Z.of_nat (length sortedReachable)))).

Definition rebuild_block fn live (oldToNew : jsmap Z Z) (oldId : Z) : result Block :=
  match js_at (blocks fn) oldId, jm_get oldToNew oldId with
  | Some block, Some newId =>
      t ← rewriteTerminatorTargets (terminator block) oldToNew (fn_name fn);
      Ok {| block_id := newId; blockArgs := blockArgs block; blockArgTypes := blockArgTypes block;
            instrs := default (instrs block) (filterBuffer live (instrs block)); terminator := t |}
  | _, _ => throw ETypeError []
  end.

Definition rebuild_blocks fn live (reachable : list Z) : result (list Block) :=
  let sortedReachable := merge_sort Z.le reachable in
  for_each sortedReachable (λ oldId newBlocks, b ← rebuild_block fn live (number_blocks sortedReachable) oldId; Ok (newBlocks ++ [b])) [].

(** The allocations of the blocks and instructions that go. *)
Definition retire_blocks fn live (reachable : list Z) (registry : Registry) : Registry :=
  foldl (λ registry ib,
           foldl (λ registry i, if bool_decide (ib.1 ∈ reachable) then retireDead live i registry else retireAllocsIn i registry)
             registry (instrs ib.2))
    registry (zip (seqZ 0 (Z.of_nat (length (blocks fn)))) (blocks fn)).

Definition deadCode fn (registry : Registry) : result (option IrFn * Registry) :=
  reachable ← computeReachable fn;
  live ← computeLiveValues fn reachable;
  let willRemoveBlocks := negb (Nat.eqb (length reachable) (length (blocks fn))) in
  let willRemoveInstrs := existsb (λ block, existsb (removesAnything live) (instrs block)) (reachable_blocks fn reachable) in
  if negb willRemoveBlocks && negb willRemoveInstrs then Ok (None, registry)
  else
    let registry := retire_blocks fn live reachable registry in
    newBlocks ← rebuild_blocks fn live reachable;
    Ok (Some {| fn_name := fn_name fn; fn_rest := fn_rest fn; blocks := newBlocks |}, registry).
End dead.
