(* ===== verification/IrDeadOk.v ===== *)
(** What src/ir/passes/dead-code.ts computes before it removes anything: the blocks that
    the terminators reach, and the least set of values that is live.

    And removing instructions keeps the behaviour: the filter of src/ir/passes/dead-code.ts
    as a recursion on buffers, the instructions that have no effect but their result, and
    the simulation of a buffer by what is kept of it. *)

From S2P Require Import Prelude WasmModel IrCfg IrDominance IrDomGraph IrNodes IrEffects IrSem IrSimOk AllocRegistry IrDead.

Section live.
Context `{IrTypes} {Rest : Type}.
Abbreviation IrFn := (IrFunction IrInstr IrType IrSiteId Rest).
Abbreviation Block := (IrBlock IrInstr IrType IrSiteId).
Implicit Types (fn : IrFn) (bs : list Block) (live : gset Z).

(** * Reachability *)

Lemma elem_of_rev {A} (x : A) l : x ∈ rev l ↔ x ∈ l.
Proof. by rewrite !list_elem_of_In, <-in_rev. Qed.

Lemma successors_targets (t : IrTerminator IrSiteId) : successors t = targets t.
Proof. by destruct t. Qed.

Definition block_targets fn (b : Z) : list Z := match js_at (blocks fn) b with Some block => targets (terminator block) | None => [] end.

(** Reachable from the entry by the terminators. *)
Definition runs_to fn : Z → Prop := reach (Z.of_nat (length (blocks fn))) (block_targets fn).

Record searching fn (queue reachable : list Z) : Prop := {
  se_once : NoDup reachable;
  se_sound : ∀ b, b ∈ reachable → runs_to fn b;
  se_queue : ∀ b, b ∈ queue → 0 ≤ b < Z.of_nat (length (blocks fn)) → runs_to fn b;
  se_entry : 0 < Z.of_nat (length (blocks fn)) → 0 ∈ queue ++ reachable;
  se_closed : ∀ a b, a ∈ reachable → edge (Z.of_nat (length (blocks fn))) (block_targets fn) a b → b ∈ queue ++ reachable }.

Lemma searching_start fn : searching fn [0] [].
Proof.
  split; try set_solver.
  - constructor.
  - intros b ->%list_elem_of_singleton Hb. constructor. lia.
Qed.

Lemma searching_skip fn id queue reachable : searching fn (id :: queue) reachable → id ∈ reachable ∨ js_at (blocks fn) id = None → searching fn queue reachable.
Proof.
  intros [H1 H2 H3 H4 H5] Hid. assert (∀ b, 0 ≤ b < Z.of_nat (length (blocks fn)) → b ∈ (id :: queue) ++ reachable → b ∈ queue ++ reachable) as Hskip.
  { intros b Hb Hin. cbn in Hin. apply elem_of_cons in Hin as [->|]; [|done]. destruct Hid as [|Hn]; [set_solver|].
    apply js_at_is_Some in Hb as [? ?]. congruence. }
  split; try done.
  - intros b Hb. by apply H3, list_elem_of_further.
  - intros Hn. apply Hskip; [lia|by apply H4].
  - intros a b Ha He. apply Hskip; [apply He|by eapply H5].
Qed.

Lemma searching_add fn id block queue reachable : searching fn (id :: queue) reachable → id ∉ reachable → js_at (blocks fn) id = Some block →
  searching fn (rev (successors (terminator block)) ++ queue) (reachable ++ [id]).
Proof.
  intros [H1 H2 H3 H4 H5] Hid Hb. pose proof (js_at_lt _ _ _ Hb) as Hr. assert (runs_to fn id) as Hrun by (apply H3; [left|done]).
  assert (block_targets fn id = successors (terminator block)) as Et by (unfold block_targets; rewrite Hb; by destruct (terminator block)).
  assert (∀ b, b ∈ successors (terminator block) → b ∈ rev (successors (terminator block))) as Hrev by (intros b; by rewrite elem_of_rev).
  split.
  - apply NoDup_app. split_and!; [done| |apply NoDup_singleton]. intros x Hx ->%list_elem_of_singleton. done.
  - intros b [?| ->%list_elem_of_singleton]%elem_of_app; [by apply H2|done].
  - intros b [Hin|Hin]%elem_of_app Hb'; [|by apply H3; [right|]]. rewrite elem_of_rev in Hin.
    eapply reach_edge; [exact Hrun|]. split; [by rewrite Et|done].
  - intros Hn. specialize (H4 Hn). set_solver.
  - intros a b Ha He. apply elem_of_app in Ha as [Ha| ->%list_elem_of_singleton].
    + specialize (H5 a b Ha He). set_solver.
    + destruct He as [He _]. rewrite Et in He. rewrite !elem_of_app. left. left. by apply Hrev.
Qed.

Lemma searched_length fn queue reachable : searching fn queue reachable → (length reachable ≤ length (blocks fn))%nat.
Proof.
  intros Hs. assert (reachable ⊆+ seqZ 0 (Z.of_nat (length (blocks fn)))) as Hsub%submseteq_length.
  { apply NoDup_submseteq; [apply Hs|]. intros b Hb. apply elem_of_seqZ. apply (se_sound _ _ _ Hs), reach_range in Hb. lia. }
  rewrite length_seqZ in Hsub. lia.
Qed.

Lemma reach_loop_ok fn fuel queue reachable : searching fn queue reachable →
  (length queue + 2 * (length (blocks fn) - length reachable) ≤ fuel)%nat →
  ∃ r, reach_loop fn fuel queue reachable = Ok r ∧ searching fn [] r.
Proof.
  revert queue reachable. induction fuel as [|fuel IH]; intros [|id queue] reachable Hs Hf; cbn [reach_loop]; try (by exists reachable); cbn [length] in Hf; [lia|].
  case_bool_decide as Hid; [apply IH; [by eapply searching_skip; [|left]|lia]|].
  destruct (js_at (blocks fn) id) as [block|] eqn:Hb; [|apply IH; [by eapply searching_skip; [|right]|lia]].
  pose proof (searching_add _ _ _ _ _ Hs Hid Hb) as Ha. apply IH; [done|].
  apply searched_length in Ha. rewrite !length_app, length_rev, successors_targets in *. cbn [length] in *.
  assert (length (targets (terminator block)) ≤ 2)%nat by (destruct (terminator block); cbn; lia). lia.
Qed.

(** The set of reachable blocks, each once. *)
Lemma computeReachable_ok fn : ∃ r, computeReachable fn = Ok r ∧ NoDup r ∧ ∀ b, b ∈ r ↔ runs_to fn b.
Proof.
  destruct (reach_loop_ok fn (reach_fuel fn) [0] []) as (r & Er & [H1 H2 _ H4 H5]); [apply searching_start|unfold reach_fuel; cbn; lia|].
  exists r. split_and!; [done|done|]. intros b. split; [apply H2|]. induction 1 as [Hn|a b Ha IH He].
  - by apply H4.
  - by eapply H5.
Qed.

(** * Liveness *)

Inductive is_live bs : Z → Prop :=
  | live_end block v : block ∈ bs → v ∈ collectTerminatorUses (terminator block) → is_live bs v
  | live_effect block i v : block ∈ bs → i ∈ instrs block → isSideEffecting i = true → v ∈ collectUses i → is_live bs v
  | live_needed block i r v : block ∈ bs → i ∈ instrs block → instr_result i = Some r → is_live bs r → v ∈ collectUses i → is_live bs v.

Definition all_instrs bs : list IrInstr := bs ≫= instrs.

Lemma elem_of_all_instrs bs i : i ∈ all_instrs bs ↔ ∃ block, block ∈ bs ∧ i ∈ instrs block.
Proof. unfold all_instrs. rewrite list_elem_of_bind. naive_solver. Qed.

(** One step of the propagation, without its flag. *)
Definition next_live live (i : IrInstr) : gset Z :=
  match instr_result i with Some r => if bool_decide (r ∈ live) then live ∪ list_to_set (collectUses i) else live | None => live end.

(** The set grew, and the flag says whether it changed. *)
Definition grown (s s' : gset Z * bool) : Prop := s.1 ⊆ s'.1 ∧ (s'.2 = true ↔ s.2 = true ∨ s.1 ≠ s'.1).

Lemma grown_refl s : grown s s.
Proof. split; [done|tauto]. Qed.

Lemma grown_trans s1 s2 s3 : grown s1 s2 → grown s2 s3 → grown s1 s3.
Proof.
  intros [H1 E1] [H2 E2]. split; [set_solver|]. rewrite E2, E1. split; [|destruct (decide (s1.1 = s2.1)) as [E|E]; [rewrite E; tauto|tauto]].
  intros [[?|Hne]|Hne]; [by left|right..]; contradict Hne; set_solver.
Qed.

Lemma add_use_grown s u : grown s (add_use s u).
Proof.
  unfold add_use. case_bool_decide; [apply grown_refl|]. split; cbn; [set_solver|]. split; [|done]. intros _. right. set_solver.
Qed.

Lemma add_uses s us : grown s (foldl add_use s us) ∧ (foldl add_use s us).1 = s.1 ∪ list_to_set us.
Proof.
  revert s. induction us as [|u us IH]; intros s; cbn; [split; [apply grown_refl|set_solver]|].
  destruct (IH (add_use s u)) as [Hg ->]. split; [eapply grown_trans; [apply add_use_grown|done]|].
  unfold add_use. case_bool_decide; cbn; set_solver.
Qed.

Lemma propagate_instr_grown s i : grown s (propagate_instr s i) ∧ (propagate_instr s i).1 = next_live s.1 i.
Proof.
  unfold propagate_instr, next_live. destruct (instr_result i); [|split; [apply grown_refl|done]].
  case_bool_decide; [apply add_uses|split; [apply grown_refl|done]].
Qed.

Lemma propagate_grown l s : grown s (foldl propagate_instr s l) ∧ (foldl propagate_instr s l).1 = foldl next_live s.1 l.
Proof.
  revert s. induction l as [|i l IH]; intros s; cbn; [split; [apply grown_refl|done]|].
  destruct (propagate_instr_grown s i) as [Hg E]. destruct (IH (propagate_instr s i)) as [Hg' E']. rewrite E', E.
  split; [by eapply grown_trans|done].
Qed.

Lemma propagate_round_flat bs live : propagate_round bs live = foldl propagate_instr (live, false) (all_instrs bs).
Proof.
  unfold propagate_round, all_instrs. generalize (live, false). induction bs as [|b bs IH]; intros s; [done|]. csimpl. by rewrite IH, foldl_app.
Qed.

Lemma next_live_mono l live : live ⊆ foldl next_live live l.
Proof. revert live. induction l as [|i l IH]; intros live; cbn; [done|]. etrans; [|apply IH]. unfold next_live. destruct (instr_result i); [case_bool_decide|]; set_solver. Qed.

(** A round that changes nothing leaves a closed set. *)
Lemma next_live_closed l live : foldl next_live live l = live → ∀ i r, i ∈ l → instr_result i = Some r → r ∈ live → list_to_set (collectUses i) ⊆ live.
Proof.
  induction l as [|x l IH]; cbn; intros E i r Hi Hr Hin; [by apply elem_of_nil in Hi|].
  assert (next_live live x = live) as Ex.
  { apply (anti_symm (⊆)); [rewrite <-E at 2; apply next_live_mono|]. unfold next_live. destruct (instr_result x); [case_bool_decide|]; set_solver. }
  rewrite Ex in E. apply elem_of_cons in Hi as [->|Hi]; [|by eapply IH]. unfold next_live in Ex. rewrite Hr, bool_decide_true in Ex by done. set_solver.
Qed.

Lemma next_live_sound bs l live : (∀ i, i ∈ l → i ∈ all_instrs bs) → (∀ v, v ∈ live → is_live bs v) → ∀ v, v ∈ foldl next_live live l → is_live bs v.
Proof.
  revert live. induction l as [|i l IH]; intros live Hl Hv; cbn; [done|]. apply IH; [by intros; apply Hl; right|].
  intros v Hin. unfold next_live in Hin. destruct (instr_result i) as [r|] eqn:Hr; [|by apply Hv]. case_bool_decide; [|by apply Hv].
  apply elem_of_union in Hin as [Hin|Hin%elem_of_list_to_set]; [by apply Hv|].
  destruct (proj1 (elem_of_all_instrs bs i) (Hl i ltac:(left))) as (block & Hb & Hi). eapply live_needed; [done..| |done]. by apply Hv.
Qed.

Lemma next_live_within l live : foldl next_live live l ⊆ live ∪ list_to_set (l ≫= collectUses).
Proof.
  revert live. induction l as [|i l IH]; intros live; cbn [foldl mbind list_bind]; [set_solver|]. etrans; [apply IH|].
  unfold next_live. rewrite list_to_set_app. destruct (instr_result i); [case_bool_decide|]; set_solver.
Qed.

(** The seeds *)
Definition seed bs : gset Z := foldl seed_block ∅ bs.

Lemma seed_instrs l live v : v ∈ foldl seed_instr live l ↔ v ∈ live ∨ ∃ i, i ∈ l ∧ isSideEffecting i = true ∧ v ∈ collectUses i.
Proof.
  revert live. induction l as [|i l IH]; intros live; cbn; [set_solver|]. rewrite IH. unfold seed_instr.
  destruct (isSideEffecting i) eqn:E; [rewrite elem_of_union, elem_of_list_to_set|]; setoid_rewrite elem_of_cons; naive_solver congruence.
Qed.

Lemma seed_blocks bs live v : v ∈ foldl seed_block live bs ↔
  v ∈ live ∨ ∃ block, block ∈ bs ∧ (v ∈ collectTerminatorUses (terminator block) ∨ ∃ i, i ∈ instrs block ∧ isSideEffecting i = true ∧ v ∈ collectUses i).
Proof.
  revert live. induction bs as [|b bs IH]; intros live; cbn; [set_solver|]. rewrite IH. unfold seed_block.
  rewrite seed_instrs, elem_of_union, elem_of_list_to_set. setoid_rewrite elem_of_cons. naive_solver.
Qed.

Lemma size_grows (U L L' : gset Z) : L ⊆ L' → L ≠ L' → L' ⊆ L ∪ U → ∀ S, (size ((S ∪ U) ∖ L') < size ((S ∪ U) ∖ L))%nat.
Proof.
  intros Hl Hne Hu S. assert (∃ x, x ∈ L' ∧ x ∉ L) as (x & Hx & Hn).
  { destruct (set_choose_or_empty (L' ∖ L)) as [[x Hx]|Hempty]; [exists x; set_solver|]. exfalso. apply Hne, (anti_symm (⊆)); set_solver. }
  apply subset_size. split; [set_solver|]. intros Hsub. specialize (Hsub x). set_solver.
Qed.

Lemma live_loop_ok bs fuel live : seed bs ⊆ live → (∀ v, v ∈ live → is_live bs v) →
  (size ((seed bs ∪ list_to_set (all_instrs bs ≫= collectUses)) ∖ live) < fuel)%nat →
  ∃ live', live_loop bs fuel live = Ok live' ∧ ∀ v, v ∈ live' ↔ is_live bs v.
Proof.
  revert live. induction fuel as [|fuel IH]; intros live Hs Hv Hf; [lia|]. cbn [live_loop].
  rewrite propagate_round_flat. destruct (propagate_grown (all_instrs bs) (live, false)) as [[Hg Hc] E].
  destruct (foldl propagate_instr _ _) as [live' changed]. cbn in *. subst live'. destruct changed.
  - destruct Hc as [Hc _]. specialize (Hc eq_refl). destruct Hc as [|Hne]; [done|].
    pose proof (next_live_within (all_instrs bs) live) as Hw.
    pose proof (next_live_sound bs (all_instrs bs) live (λ i Hi, Hi) Hv) as Hv'.
    apply IH; [by etrans|done|]. eapply Nat.lt_le_trans; [|by apply Nat.lt_succ_r, Hf].
    apply size_grows; done.
  - exists (foldl next_live live (all_instrs bs)). split; [done|]. intros v. split; [by apply next_live_sound|].
    assert (foldl next_live live (all_instrs bs) = live) as E.
    { destruct (decide (live = foldl next_live live (all_instrs bs))) as [|Hne]; [done|]. destruct Hc as [_ Hc]. by specialize (Hc (or_intror Hne)). }
    rewrite E. induction 1 as [block v Hb Hin|block i v Hb Hi He Hin|block i r v Hb Hi Hr _ IHr Hin].
    + apply Hs, seed_blocks. right. exists block. auto.
    + apply Hs, seed_blocks. right. exists block. split; [done|]. right. by exists i.
    + assert (i ∈ all_instrs bs) as Hin' by (apply elem_of_all_instrs; eauto).
      apply (next_live_closed _ _ E i r Hin' Hr IHr). by apply elem_of_list_to_set.
Qed.

Lemma size_of_list (l : list Z) : (size (list_to_set l : gset Z) ≤ length l)%nat.
Proof. unfold size, set_size. apply submseteq_length, NoDup_submseteq; [apply NoDup_elements|]. intros x. by rewrite elem_of_elements, elem_of_list_to_set. Qed.

(** The least set that holds what terminators and effects read, and what live values need. *)
Lemma computeLiveValues_ok fn reachable : ∃ live, computeLiveValues fn reachable = Ok live ∧ ∀ v, v ∈ live ↔ is_live (reachable_blocks fn reachable) v.
Proof.
  unfold computeLiveValues. apply live_loop_ok; [done| |].
  - intros v. unfold seed. rewrite seed_blocks. intros [|(block & Hb & [Hv|(i & Hi & He & Hv)])]; [set_solver|by eapply live_end|by eapply live_effect].
  - unfold live_fuel. apply Nat.lt_succ_r. etrans; [|apply size_of_list]. apply subseteq_size. intros v Hv.
    apply elem_of_difference in Hv as [Hv Hn]. apply elem_of_union in Hv as [Hv|Hv]; [by destruct (Hn Hv)|].
    apply elem_of_list_to_set in Hv. apply elem_of_list_to_set.
    apply list_elem_of_bind in Hv as (i & Hv & Hi). apply list_elem_of_bind in Hi as (block & Hi & Hb).
    apply list_elem_of_bind. exists block. split; [|done]. apply list_elem_of_bind. by exists i.
Qed.
End live.

Section filter.
Context `{IrTypes}.
Implicit Types (live : gset Z) (i x : IrInstr) (l : list IrInstr).

(** * The filter *)

Definition kept_buffer live l : list IrInstr := default l (filterBuffer live l).
Definition kept_instr live : IrInstr → IrInstr := map_buffers (kept_buffer live).

Lemma filter_instr_eq live i : filter_instr live i = mapNestedBuffers (filterBuffer live) i.
Proof. by destruct i. Qed.

Lemma filter_instr_default live i : default i (filter_instr live i) = kept_instr live i.
Proof. by rewrite filter_instr_eq, mapNestedBuffers_default. Qed.

Lemma filter_loop_cons live x l : filter_loop live (x :: l) =
  if shouldKeep x live then
    match filter_instr live x with None => ((filter_loop live l).1, x :: (filter_loop live l).2) | Some r => (true, r :: (filter_loop live l).2) end
  else (true, (filter_loop live l).2).
Proof.
  change (filter_loop live (x :: l)) with
    (let '(changed, kept) := filter_loop live l in
     if negb (shouldKeep x live) then (true, kept)
     else match filter_instr live x with None => (changed, x :: kept) | Some rebuilt => (true, rebuilt :: kept) end).
  destruct (filter_loop live l). by destruct (shouldKeep x live).
Qed.

(** Unchanged means kept as it is. *)
Lemma filter_loop_same live l : (filter_loop live l).1 = false → (filter_loop live l).2 = l.
Proof.
  induction l as [|x l IH]; [done|]. rewrite filter_loop_cons. destruct (shouldKeep x live); [|done].
  destruct (filter_instr live x); [done|]. intros E. cbn in *. by rewrite IH.
Qed.

Lemma kept_buffer_eq live l : kept_buffer live l = (filter_loop live l).2.
Proof. unfold kept_buffer, filterBuffer. pose proof (filter_loop_same live l) as Hs. destruct (filter_loop live l) as [[] k]; cbn in *; [done|]. by rewrite Hs. Qed.

Lemma kept_nil live : kept_buffer live [] = [].
Proof. done. Qed.

Lemma kept_cons live x l : kept_buffer live (x :: l) = if shouldKeep x live then kept_instr live x :: kept_buffer live l else kept_buffer live l.
Proof.
  rewrite !kept_buffer_eq, filter_loop_cons. destruct (shouldKeep x live); [|done]. rewrite <-filter_instr_default.
  by destruct (filter_instr live x).
Qed.

(** * Instructions without effects *)

Definition quiet_leaf (l : IrLeaf) : bool :=
  negb (leaf_side_effecting l) && negb (writesHeap (leaf_effects l)) && negb (control (leaf_effects l))
  && negb (allSlots (leaf_effects l)) && bool_decide (writeSlots (leaf_effects l) = ∅).

(** A value-producing [if] whose arms are quiet is quiet; loops, exceptions and frames are not. *)
Definition quiet : IrInstr → bool :=
  instr_fold (λ i inside,
    match i with
    | Leaf _ l => quiet_leaf l
    | IrInstrIf _ _ _ _ _ _ => forallb (forallb id) inside
    | _ => false
    end).

Lemma quiet_if b c t tv e ev : quiet (IrInstrIf b c t tv e ev) = true → (∀ x, x ∈ t → quiet x = true) ∧ ∀ x, x ∈ e → quiet x = true.
Proof.
  unfold quiet. rewrite instr_fold_unfold. cbn. rewrite andb_true_r, andb_true_iff, !forallb_forall.
  intros [Ht He]. split; intros x Hx; [apply Ht|apply He]; apply in_map; by apply list_elem_of_In.
Qed.
End filter.

(** What a machine does on instructions that the effect table calls free of writes and of
    control: give a value, and a world that relates as the one before, or trap. *)
Class QuietOk `{M : IrMachine V W} {Sim : IrSimulation M} : Prop := {
  quiet_step j t l vs w w' : quiet_leaf l = true → world_rel j w w' →
    match leaf_step t l vs w with LNext _ w1 => world_rel j w1 w' | LStop (Trapped _) => True | _ => False end }.

Section drop.
Context {V W : Type} `{M : IrMachine V W} {Sim : IrSimulation M} {SimOk : IrSimulationOk} {Quiet : QuietOk}.
Abbreviation state := ((Z → V) * W)%type.
Implicit Types (live : gset Z) (i x : IrInstr) (st : state).

(** A quiet instruction traps, or binds its result only. *)
Definition drops (r : option Z) (j : sim_index) st (w' : W) (o : outcome V W) : Prop :=
  (∃ w, o = OStop (Trapped w)) ∨ ∃ v w1, o = ONext (bind_result r v st.1, w1) ∧ world_rel j w1 w'.

Lemma quiet_leaf_drops n b l j st w' : quiet_leaf l = true → world_rel j st.2 w' → drops (result_ b) j st w' (exec n (Leaf b l) st).
Proof.
  destruct st as [ρ w]. intros Hq Hw. rewrite exec_unfold. cbn [exec_node].
  assert (drops (result_ b) j (ρ, w) w'
    match leaf_step (resultType b) l (ρ <$> leaf_uses l) w with LNext v w1 => ONext (bind_result (result_ b) v ρ, w1) | LThrow v w1 => OThrow v (ρ, w1) | LStop e => OStop e end) as Hstep.
  { pose proof (quiet_step j (resultType b) l (ρ <$> leaf_uses l) w w' Hq Hw) as Hs. destruct (leaf_step _ _ _ _) as [v w1|v w1|[]]; try done.
    - right. by exists v, w1.
    - left. by eexists. }
  destruct l; try exact Hstep; cbn [quiet_leaf leaf_side_effecting] in Hq; try done.
  right. by exists (get_slot w slotIndex), w.
Qed.

(** A buffer of quiet instructions keeps the world. *)
Lemma quiet_buffer_drops n l j : (∀ x, x ∈ l → ∀ st w', world_rel j st.2 w' → drops (instr_result x) j st w' (exec n x st)) →
  ∀ st w', world_rel j st.2 w' → (∃ w, exec_buffer n l st = OStop (Trapped w)) ∨ ∃ st', exec_buffer n l st = ONext st' ∧ world_rel j st'.2 w'.
Proof.
  induction l as [|x l IH]; intros Hl st w' Hw; [right; by exists st|].
  cbn. destruct (Hl x ltac:(left) st w' Hw) as [[w ->]|(v & w1 & -> & Hw1)]; [left; by exists w|]. cbn.
  apply IH; [|done]. intros y Hy. apply Hl. by right.
Qed.

Lemma quiet_drops n i : quiet i = true → ∀ j st w', world_rel j st.2 w' → drops (instr_result i) j st w' (exec n i st).
Proof.
  induction i as [i IH] using instr_ind'. intros Hq j st w' Hw. destruct i as [b l|b c t tv e ev| | | | | | |]; try done.
  { apply quiet_leaf_drops; [|done]. unfold quiet in Hq. by rewrite instr_fold_unfold in Hq. }
  apply quiet_if in Hq as [Ht He]. cbn [nested_buffers] in IH. inversion_clear IH as [|? ? IHt IHe']. inversion_clear IHe' as [|? ? IHe _].
  rewrite list.Forall_forall in IHt, IHe. rewrite exec_unfold. cbn [exec_node].
  assert (∀ a v, (∀ x, x ∈ a → quiet x = true) → (∀ x, x ∈ a → quiet x = true → ∀ j st w', world_rel j st.2 w' → drops (instr_result x) j st w' (exec n x st)) →
    drops (result_ b) j st w' (then_run (λ st', ONext (bind_result (result_ b) (st'.1 v) st.1, st'.2)) (exec_buffer n a st))) as Harm.
  { intros a v Ha IHa. destruct (quiet_buffer_drops n a j) with st w' as [[w E]|(st' & E & Hw')]; [by intros x Hx; apply IHa; [|apply Ha]|done|..]; rewrite E.
    - left. by exists w.
    - right. by exists (st'.1 v), st'.2. }
  destruct (truthy _); by apply Harm.
Qed.

(** * Simulation *)

(** What the filter needs of an instruction and of all inside it. *)
Definition removable live i : Prop :=
  (∀ v, v ∈ collectUses i → v ∈ live) ∧
  ∀ x, x ∈ instrs_deep i → isSideEffecting x = false → instr_result x ≠ None → quiet x = true.

Lemma removable_inside live i l x : removable live i → l ∈ nested_buffers i → x ∈ l → removable live x.
Proof.
  intros [Hu Hq] Hl Hx. assert (∀ y, y ∈ instrs_deep x → y ∈ instrs_deep i) as Hin.
  { intros y Hy. rewrite (instrs_deep_unfold i). right. apply list_elem_of_bind. exists l. split; [|done]. apply list_elem_of_bind. by exists x. }
  split; [|by intros y Hy; apply Hq, Hin]. intros v Hv. apply Hu. unfold collectUses in *.
  apply list_elem_of_bind in Hv as (y & Hv & Hy). apply list_elem_of_bind. exists y. auto.
Qed.

Lemma removable_direct live i : removable live i → Forall (.∈ live) (directUses i).
Proof.
  intros [Hu _]. apply list.Forall_forall. intros v Hv. apply Hu. unfold collectUses. apply list_elem_of_bind. exists i.
  split; [done|]. rewrite instrs_deep_unfold. left.
Qed.

(** What it needs of an instruction that it drops. *)
Definition droppable live x : Prop := quiet x = true ∧ ∃ r, instr_result x = Some r ∧ r ∉ live.

Lemma dropped_quiet live x : (isSideEffecting x = false → instr_result x ≠ None → quiet x = true) → shouldKeep x live = false → droppable live x.
Proof.
  intros Hq Hk. unfold shouldKeep in Hk. destruct (isSideEffecting x) eqn:He; [done|].
  destruct (instr_result x) as [r|] eqn:Hr; [|done]. apply bool_decide_eq_false in Hk. split; [by apply Hq|by exists r].
Qed.

Lemma removable_dropped live x : removable live x → shouldKeep x live = false → droppable live x.
Proof. intros [_ Hq]. apply dropped_quiet, Hq. rewrite instrs_deep_unfold. left. Qed.

Lemma buffer_drop n live x l l' : droppable live x →
  buffers_follow (.∈ live) n l l' → buffers_follow (.∈ live) n (x :: l) l'.
Proof.
  intros (Hq & r & Hr & Hn) Hl j st st' Ha. destruct (quiet_drops n x Hq j st st'.2) as [[w E]|(v & w1 & E & Hw)]; [apply Ha|..]; cbn; rewrite E; cbn.
  - apply follows_trap.
  - apply Hl. destruct Ha as [Hv _]. split; [|done]. intros y Hy. rewrite Hr. cbn. rewrite decide_False by (intros ->; done). by apply Hv.
Qed.

Lemma kept_buffer_follows n live l : (∀ x, x ∈ l → shouldKeep x live = false → droppable live x) →
  (∀ x, x ∈ l → shouldKeep x live = true → instr_follows (.∈ live) n x (kept_instr live x)) →
  buffers_follow (.∈ live) n l (kept_buffer live l).
Proof.
  induction l as [|x l IH]; intros Hr Hi; [rewrite kept_nil; apply buffer_nil|]. rewrite kept_cons.
  assert (buffers_follow (.∈ live) n l (kept_buffer live l)) as Hl by (apply IH; intros y Hy; [apply Hr|apply Hi]; by right).
  destruct (shouldKeep x live) eqn:Hk; [apply buffer_cons; [by apply Hi; [left|]|done]|].
  apply buffer_drop; [|done]. apply Hr; [left|done].
Qed.

Lemma kept_instr_follows n live i : removable live i → instr_follows (.∈ live) n i (kept_instr live i).
Proof.
  induction i as [i IH] using instr_ind'. intros Hr. apply map_buffers_follows; [by apply removable_direct|].
  apply list.Forall_forall. intros l Hl. rewrite list.Forall_forall in IH. specialize (IH l Hl). rewrite list.Forall_forall in IH.
  apply kept_buffer_follows; [intros x Hx; apply removable_dropped|intros x Hx _; apply IH; [done|]]; by eapply removable_inside.
Qed.
End drop.
