(* ===== verification/IrDeadMain.v ===== *)
(** A machine for the examples of the middle-end passes: 32-bit integers and cells that
    are allocated and read, a call that prints.  Two runs of it relate by the pairs of
    cells that hold the same, so a cell that one run alone allocates is left out.

    Then dead-code elimination (src/ir/passes/dead-code.ts) as a whole:
    the pass ends, keeps what a function does, and retires the allocations that it
    removes. *)

From Stdlib Require Import SpecFloat.
From stdpp Require Import sorting.
From S2P Require Import Prelude WasmModel IrCfg IrDominance IrDomGraph IrNodes IrEffects IrSem IrSimOk AllocRegistry IrDead IrDeadOk.

Module Sample.
Inductive val := VNum (z : Z) | VCell (a : Z).

#[global] Instance val_eq_dec : EqDecision val.
Proof. solve_decision. Defined.

Record world := mkWorld { cells : list val; printed : list val; slots : gmap Z val }.

Definition unit_types : IrTypes := {| IrType := unit; IrClassShape := unit; IrFnctorShape := unit; IrSiteId := unit |}.
#[global] Existing Instance unit_types.

Definition step (l : IrLeaf) (vs : list val) (w : world) : leaf_result val world :=
  match l, vs with
  | IrInstrConst (CI32 z), _ => LNext (VNum z) w
  | IrInstrBinary I32Add _ _, [VNum a; VNum b] => LNext (VNum (to_int32 (a + b))) w
  | IrInstrRefCellNew _, [v] => LNext (VCell (Z.of_nat (length (cells w)))) (mkWorld (cells w ++ [v]) (printed w) (slots w))
  | IrInstrRefCellGet _, [VCell a] => match js_at (cells w) a with Some v => LNext v w | None => LStop (Trapped w) end
  | IrInstrCall _ _, _ => LNext (VNum 0) (mkWorld (cells w) (printed w ++ vs) (slots w))
  | _, _ => LStop (Trapped w)
  end.

#[global] Instance machine : IrMachine val world := {|
  leaf_step _ := step;
  truthy v := match v with VNum z => negb (z =? 0) | VCell _ => true end;
  case_is _ _ := false;
  get_slot w s := default (VNum 0) (slots w !! s);
  set_slot w s v := mkWorld (cells w) (printed w) (<[s := v]> (slots w));
  iter_start _ _ w := IDone w;
  iter_next _ w := IDone w;
  iter_exit _ w := IDone w |}.

(** * The relation *)

Definition pairs := list (Z * Z).
Definition more (j j' : pairs) : Prop := ∀ p, p ∈ j → p ∈ j'.

Definition vrel (j : pairs) (v v' : val) : Prop :=
  match v, v' with VNum z, VNum z' => z = z' | VCell a, VCell a' => (a, a') ∈ j | _, _ => False end.

Record wrel (j : pairs) (w w' : world) : Prop := {
  wr_printed : Forall2 (vrel j) (printed w) (printed w');
  wr_cells a a' : (a, a') ∈ j → ∃ v v', js_at (cells w) a = Some v ∧ js_at (cells w') a' = Some v' ∧ vrel j v v';
  wr_slots s : vrel j (get_slot w s) (get_slot w' s) }.

Lemma vrel_more j j' v v' : more j j' → vrel j v v' → vrel j' v v'.
Proof. destruct v, v'; cbn; auto. Qed.

#[global] Instance more_preorder : PreOrder more.
Proof. split; [by intros ??|intros ??? H1 H2 p Hp; auto]. Qed.

#[global, refine] Instance sim : IrSimulation machine := {|
  sim_index := pairs; grows := more; val_rel := vrel; world_rel := wrel; val_rel_grows := vrel_more |}.
Proof.
  - intros j v v'. destruct v, v'; cbn; [by intros ->|done..].
  - done.
  - intros j w w' s [_ _ Hs]. apply Hs.
  - intros j w w' s v v' [Hp Hc Hs] Hv. split; [done|done|]. intros t. specialize (Hs t). cbn in *. destruct (decide (s = t)) as [->|].
    + by rewrite !lookup_insert_eq.
    + by rewrite !lookup_insert_ne.
Defined.

Lemma wrel_alloc j w w' v v' : wrel j w w' → vrel j v v' →
  let a := Z.of_nat (length (cells w)) in let a' := Z.of_nat (length (cells w')) in
  wrel ((a, a') :: j) (mkWorld (cells w ++ [v]) (printed w) (slots w)) (mkWorld (cells w' ++ [v']) (printed w') (slots w')).
Proof.
  intros [Hp Hc Hs] Hv a a'. assert (more j ((a, a') :: j)) as Hm by (intros p; apply list_elem_of_further).
  split; cbn.
  - eapply Forall2_impl; [done|]. intros. by eapply vrel_more.
  - intros b b' [[= -> ->]|Hb]%elem_of_cons.
    + exists v, v'. subst a a'. split_and!; [..|by eapply vrel_more]; rewrite js_at_nat; apply list_lookup_middle; done.
    + destruct (Hc b b' Hb) as (u & u' & E & E' & Hu). exists u, u'. split_and!; [..|by eapply vrel_more]; rewrite js_at_app_l; try done; by eapply js_at_lt.
  - intros s. eapply vrel_more; [done|apply Hs].
Qed.

Lemma wrel_alloc_left j w w' v : wrel j w w' → wrel j (mkWorld (cells w ++ [v]) (printed w) (slots w)) w'.
Proof.
  intros [Hp Hc Hs]. split; [done| |done]. intros b b' Hb. destruct (Hc b b' Hb) as (u & u' & E & E' & Hu). exists u, u'.
  split_and!; [|done|done]. cbn. rewrite js_at_app_l; [done|by eapply js_at_lt].
Qed.

Lemma wrel_print j w w' vs vs' : wrel j w w' → Forall2 (vrel j) vs vs' →
  wrel j (mkWorld (cells w) (printed w ++ vs) (slots w)) (mkWorld (cells w') (printed w' ++ vs') (slots w')).
Proof. intros [Hp Hc Hs] Hv. split; [by apply Forall2_app|done|done]. Qed.

#[global] Instance sim_ok : IrSimulationOk.
Proof.
  split; [|by intros; exists j; split..].
  intros j t l vs vs' w w' Hv Hw. assert (∃ j', grows j j' ∧ leaf_rel j' (LStop (Trapped w)) (LStop (Trapped w'))) as Htrap by (by exists j).
  destruct l; try exact Htrap; cbn.
  - destruct value; try exact Htrap. by exists j.
  - exists j. split; [done|]. split; [done|]. by apply wrel_print.
  - destruct op; try exact Htrap. destruct Hv as [|v v' vs vs' Hv Hvs]; [exact Htrap|].
    destruct Hvs as [|u u' vs vs' Hu Hvs]; [by destruct v, v'|]. destruct Hvs; [|by destruct v, v', u, u'].
    destruct v, v', u, u'; try done; cbn in Hv, Hu. subst. by exists j.
  - destruct Hv as [|v v' vs vs' Hv Hvs]; [exact Htrap|]. destruct Hvs; [|exact Htrap].
    eexists. split; [|split; [|by apply wrel_alloc]]; [intros p; apply list_elem_of_further|]. left.
  - destruct Hv as [|v v' vs vs' Hv Hvs]; [exact Htrap|]. destruct Hvs; [|by destruct v, v'].
    destruct v, v'; try done. destruct (wr_cells _ _ _ Hw _ _ Hv) as (u & u' & -> & -> & Hu). by exists j.
Qed.

#[global] Instance quiet_ok : QuietOk.
Proof.
  split. intros j t l vs w w' Hq Hw.
  destruct l; try done; cbn.
  - by destruct value.
  - destruct op; try done. by destruct vs as [|[] [|[] []]].
  - destruct vs as [|v [|]]; try done. by apply wrel_alloc_left.
  - destruct vs as [|[] [|]]; try done. by destruct (js_at _ _).
Qed.
End Sample.

(** * Renumbering *)

Section renumber.
Context `{IrTypes}.

Lemma number_fold (l : list Z) m s : NoDup l → ∀ b,
  jm_get (foldl (λ m oi, jm_set m oi.1 oi.2) m (zip l (seqZ s (Z.of_nat (length l))))) b =
  match list_find (b =.) l with Some (k, _) => Some (s + Z.of_nat k) | None => jm_get m b end.
Proof.
  revert m s. induction l as [|x l IH]; intros m s Hn b; [done|]. inversion_clear Hn as [|? ? Hx Hl]. cbn [length].
  rewrite seqZ_cons by lia. replace (Z.pred (Z.of_nat (S (length l)))) with (Z.of_nat (length l)) by lia. cbn [zip zip_with foldl list_find fst snd].
  rewrite IH by done. case_decide as Hb; [subst x|].
  - destruct (list_find (b =.) l) as [[k y]|] eqn:E; cbn; [exfalso; apply Hx; apply list_find_Some in E as (Hk & -> & _); by eapply list_elem_of_lookup_2|].
    rewrite jm_get_set_eq. f_equal. lia.
  - rewrite jm_get_set_ne by congruence. destruct (list_find (b =.) l) as [[k y]|]; cbn; [f_equal; lia|done].
Qed.

(** The new index of a block is its place in the sorted list. *)
Lemma number_blocks_get (l : list Z) b k : NoDup l → (jm_get (number_blocks l) b = Some k) ↔ js_at l k = Some b.
Proof.
  intros Hn. unfold number_blocks. rewrite number_fold by done. destruct (list_find (b =.) l) as [[i y]|] eqn:E.
  - apply list_find_Some in E as (Hi & -> & _). rewrite Z.add_0_l. split; [intros [= <-]; by rewrite js_at_nat|].
    intros [H0 Hk]%js_at_Some. f_equal. pose proof (NoDup_lookup _ _ _ _ Hn Hi Hk). lia.
  - rewrite list_find_None in E. cbn. split; [done|]. intros [_ Hk]%js_at_Some. apply list_elem_of_lookup_2 in Hk.
    rewrite list.Forall_forall in E. by destruct (E b Hk).
Qed.

Definition new_index (l : list Z) (b : Z) : Z := default (-1) (jm_get (number_blocks l) b).

Lemma new_index_at (l : list Z) b : NoDup l → b ∈ l → jm_get (number_blocks l) b = Some (new_index l b) ∧ js_at l (new_index l b) = Some b.
Proof.
  intros Hn [k Hk]%list_elem_of_lookup_1. rewrite <-js_at_nat in Hk. unfold new_index.
  by rewrite (proj2 (number_blocks_get l b _ Hn) Hk).
Qed.

Definition move_branch (l : list Z) (br : IrBranch) : IrBranch := {| target := new_index l (target br); branch_args := branch_args br |}.

Definition move_terminator (l : list Z) (t : IrTerminator IrSiteId) : IrTerminator IrSiteId :=
  match t with
  | TBr br site => TBr (move_branch l br) site
  | TBrIf c a b site => TBrIf c (move_branch l a) (move_branch l b) site
  | _ => t
  end.

Lemma rewriteBranch_moves l br name : NoDup l → target br ∈ l → IrDead.rewriteBranch br (number_blocks l) name = Ok (move_branch l br).
Proof. intros Hn Ht. unfold IrDead.rewriteBranch. by destruct (new_index_at l _ Hn Ht) as [-> _]. Qed.

Lemma rewriteTerminator_moves l t name : NoDup l → Forall (.∈ l) (targets t) → IrDead.rewriteTerminatorTargets t (number_blocks l) name = Ok (move_terminator l t).
Proof.
  intros Hn. destruct t as [|br|c a b|]; cbn [targets]; rewrite ?Forall_cons; intros Ht; cbn; try done.
  - by rewrite rewriteBranch_moves by (done || apply Ht).
  - by rewrite !rewriteBranch_moves by (done || apply Ht).
Qed.

(** A loop that appends one value for each element. *)
Lemma for_each_map {A B} (f : A → result B) (g : A → B) l acc : (∀ x, x ∈ l → f x = Ok (g x)) →
  for_each l (λ x acc, b ← f x; Ok (acc ++ [b])) acc = Ok (acc ++ (g <$> l)).
Proof.
  revert acc. induction l as [|x l IH]; intros acc Hf; [cbn; by rewrite app_nil_r|]. cbn [for_each]. rewrite Hf by left. cbn [mbind result_bind].
  rewrite IH by (intros y Hy; apply Hf; by right). by rewrite <-app_assoc.
Qed.
End renumber.

(** * The function that is left *)

Section left.
Context `{IrTypes} {Rest : Type}.
Abbreviation IrFn := (IrFunction IrInstr IrType IrSiteId Rest).
Abbreviation Block := (IrBlock IrInstr IrType IrSiteId).
Implicit Types (fn : IrFn) (live : gset Z).

(** Instructions without a result that dead-code elimination does not list read nothing,
    and those that it may drop have no effect: the two tables of effects agree on them. *)
Record eliminable fn : Prop := {
  el_void block i : block ∈ blocks fn → i ∈ instrs block → isSideEffecting i = false → instr_result i = None → collectUses i = [];
  el_quiet block i x : block ∈ blocks fn → i ∈ instrs block → x ∈ instrs_deep i → isSideEffecting x = false → instr_result x ≠ None → quiet x = true }.

Definition kept_block live (l : list Z) (b : Z) (block : Block) : Block :=
  {| block_id := new_index l b; blockArgs := blockArgs block; blockArgTypes := blockArgTypes block;
     instrs := kept_buffer live (instrs block); terminator := move_terminator l (terminator block) |}.

Definition nth_block fn (b : Z) : Block := default {| block_id := 0; blockArgs := []; blockArgTypes := []; instrs := []; terminator := TUnreachable None |} (js_at (blocks fn) b).

Definition left_blocks fn live (l : list Z) : list Block := (λ b, kept_block live l b (nth_block fn b)) <$> l.

Definition left_fn fn live (l : list Z) : IrFn := {| fn_name := fn_name fn; fn_rest := fn_rest fn; blocks := left_blocks fn live l |}.

Lemma targets_run fn b block s : well_formed_fn fn → js_at (blocks fn) b = Some block → runs_to fn b → s ∈ targets (terminator block) → runs_to fn s.
Proof.
  intros [_ Hr] Hb Hrun Hs. eapply reach_edge; [exact Hrun|]. split; [unfold block_targets; by rewrite Hb|].
  assert (block ∈ blocks fn) as Hin by (apply js_at_Some in Hb as [_ Hb]; by eapply list_elem_of_lookup_2).
  specialize (Hr block Hin). rewrite list.Forall_forall in Hr. by apply Hr.
Qed.

Lemma sorted_reachable (r : list Z) : NoDup r → NoDup (merge_sort Z.le r) ∧ ∀ b, b ∈ merge_sort Z.le r ↔ b ∈ r.
Proof. intros Hn. pose proof (merge_sort_Permutation Z.le r) as Hp. split; [by rewrite Hp|intros b; by rewrite Hp]. Qed.

Lemma rebuild_blocks_ok fn live r : well_formed_fn fn → NoDup r → (∀ b, b ∈ r ↔ runs_to fn b) →
  rebuild_blocks fn live r = Ok (left_blocks fn live (merge_sort Z.le r)).
Proof.
  intros Hwf Hn Hr. destruct (sorted_reachable r Hn) as [Hs Hin]. unfold rebuild_blocks, left_blocks.
  apply (for_each_map _ _ _ []). intros b Hb. unfold rebuild_block, nth_block.
  pose proof (reach_range _ _ _ (proj1 (Hr b) (proj1 (Hin b) Hb))) as Hrange. apply js_at_is_Some in Hrange as [block E]. rewrite E.
  destruct (new_index_at _ b Hs Hb) as [-> _]. rewrite rewriteTerminator_moves; [done|done|].
  apply list.Forall_forall. intros s Hs'. apply Hin, Hr. eapply targets_run; [done|exact E|by apply Hr, Hin|done].
Qed.

(** The entry stays first. *)
Lemma entry_first fn r : NoDup r → (∀ b, b ∈ r ↔ runs_to fn b) → blocks fn ≠ [] → js_at (merge_sort Z.le r) 0 = Some 0.
Proof.
  intros Hn Hr Hne. destruct (sorted_reachable r Hn) as [_ Hin].
  assert (0 ∈ merge_sort Z.le r) as H0 by (apply Hin, Hr; constructor; destruct (blocks fn); [done|cbn; lia]).
  pose proof (StronglySorted_merge_sort Z.le r) as Hs. destruct (merge_sort Z.le r) as [|x l] eqn:E; [by apply elem_of_nil in H0|].
  change (Some x = Some 0). f_equal. assert (0 ≤ x) by (pose proof (proj1 (Hr x) (proj1 (Hin x) ltac:(left))) as Hx; apply reach_range in Hx; lia).
  apply elem_of_cons in H0 as [|H0]; [lia|]. inversion_clear Hs as [|? ? _ Hall]. rewrite list.Forall_forall in Hall. specialize (Hall 0 H0). lia.
Qed.

Lemma left_well_formed fn live r : well_formed_fn fn → NoDup r → (∀ b, b ∈ r ↔ runs_to fn b) → well_formed_fn (left_fn fn live (merge_sort Z.le r)).
Proof.
  intros Hwf Hn Hr. destruct (sorted_reachable r Hn) as [Hs Hin]. split.
  - intros i block Hi. cbn in Hi. apply js_at_Some in Hi as [Hi0 Hi]. apply list_lookup_fmap_Some in Hi as (b & -> & Hb). cbn.
    unfold new_index. rewrite (proj2 (number_blocks_get _ b i Hs)); [done|]. apply js_at_Some. done.
  - intros block (b & -> & Hb)%list_elem_of_fmap. cbn. unfold left_blocks. rewrite length_fmap.
    pose proof (proj1 (Hr b) (proj1 (Hin b) Hb)) as Hrun. pose proof (reach_range _ _ _ Hrun) as Hrange. apply js_at_is_Some in Hrange as [block E].
    unfold nth_block. rewrite E. cbn. assert (∀ s, s ∈ targets (terminator block) → 0 ≤ new_index (merge_sort Z.le r) s < Z.of_nat (length (merge_sort Z.le r))) as Ht.
    { intros s Hs'. apply (js_at_lt _ _ s), new_index_at; [done|]. apply Hin, Hr. by eapply targets_run. }
    destruct (terminator block); cbn in Ht |- *; repeat constructor; apply Ht; set_solver.
Qed.
End left.

(** * Allocations *)

Section allocs.
Context `{IrTypes} {Rest Meta : Type}.
Abbreviation IrFn := (IrFunction IrInstr IrType IrSiteId Rest).
Implicit Types (fn : IrFn) (live : gset Z) (registry : option (AllocSiteRegistry Meta)).

Definition fn_allocs fn : list Z := blocks fn ≫= λ block, instrs block ≫= allocIdsIn.

Definition retire_all registry (ids : list Z) : option (AllocSiteRegistry Meta) := (λ reg, foldl retire reg ids) <$> registry.

Lemma retire_all_app registry l k : retire_all (retire_all registry l) k = retire_all registry (l ++ k).
Proof. destruct registry; [|done]. unfold retire_all. csimpl. by rewrite foldl_app. Qed.

Lemma retire_all_nil registry : retire_all registry [] = registry.
Proof. by destruct registry. Qed.

(** The allocations that the filter drops from an instruction. *)
Definition dropped_allocs live : IrInstr → list Z :=
  instr_fold (λ i inside, if shouldKeep i live then inside ≫= λ l, l ≫= id else allocIdsIn i).

Lemma dropped_allocs_eq live i : dropped_allocs live i =
  if shouldKeep i live then nested_buffers i ≫= (λ l, l ≫= dropped_allocs live) else allocIdsIn i.
Proof.
  unfold dropped_allocs at 1. rewrite instr_fold_unfold. destruct (shouldKeep i live); [|done].
  induction (nested_buffers i) as [|l ls IH]; [done|]. csimpl. rewrite IH. f_equal.
  induction l as [|x l IHl]; [done|]. csimpl. by rewrite IHl.
Qed.

Lemma retireDead_eq live i registry : retireDead live i registry = retire_all registry (dropped_allocs live i).
Proof.
  revert registry. induction i as [i IH] using instr_ind'. intros registry. rewrite dropped_allocs_eq. unfold retireDead. rewrite instr_fold_unfold.
  fold (retireDead (Meta := Meta) live). destruct (shouldKeep i live); [|done]. cbn [negb].
  revert registry. induction IH as [|l ls Hl _ IH]; intros registry; [by rewrite retire_all_nil|]. csimpl. rewrite IH, <-retire_all_app. f_equal.
  clear -Hl. revert registry. induction Hl as [|x l Hx _ IH]; intros registry; [by rewrite retire_all_nil|]. csimpl. by rewrite IH, Hx, retire_all_app.
Qed.

Lemma nested_map (f : list IrInstr → list IrInstr) i : nested_buffers (map_buffers f i) = f <$> nested_buffers i.
Proof. by destruct i as [| | | | |b body [[s c]|] [k|]| | |]. Qed.

Lemma base_map (f : list IrInstr → list IrInstr) i : base (map_buffers f i) = base i.
Proof. by destruct i. Qed.

Lemma allocIdsIn_unfold i : allocIdsIn i = option_list (alloc (base i)) ++ (nested_buffers i ≫= λ l, l ≫= allocIdsIn).
Proof.
  unfold allocIdsIn at 1. rewrite instrs_deep_unfold. csimpl. f_equal. induction (nested_buffers i) as [|l ls IH]; [done|]. csimpl.
  rewrite bind_app, IH. f_equal. induction l as [|x l IHl]; [done|]. csimpl. rewrite bind_app, IHl. done.
Qed.

(** What a buffer allocates is what is kept of it and what is dropped. *)
Lemma allocs_buffer live l : (∀ x, x ∈ l → allocIdsIn x ≡ₚ (if shouldKeep x live then allocIdsIn (kept_instr live x) else []) ++ dropped_allocs live x) →
  (l ≫= allocIdsIn) ≡ₚ (kept_buffer live l ≫= allocIdsIn) ++ (l ≫= dropped_allocs live).
Proof.
  induction l as [|x l IH]; intros Hl; [done|]. rewrite kept_cons. csimpl. rewrite (Hl x) by left. rewrite IH by (intros; apply Hl; by right).
  destruct (shouldKeep x live); csimpl; solve_Permutation.
Qed.

Lemma allocs_instr live i : allocIdsIn i ≡ₚ (if shouldKeep i live then allocIdsIn (kept_instr live i) else []) ++ dropped_allocs live i.
Proof.
  induction i as [i IH] using instr_ind'. rewrite dropped_allocs_eq. destruct (shouldKeep i live) eqn:Hk; [|done].
  rewrite !allocIdsIn_unfold. unfold kept_instr. rewrite nested_map, base_map, <-app_assoc. apply Permutation_app_head.
  induction IH as [|l ls Hl _ IH]; [done|]. csimpl. rewrite IH, (allocs_buffer live l) by (by apply list.Forall_forall). solve_Permutation.
Qed.
End allocs.

(** * The whole pass *)

Section pass.
Context `{IrTypes} {Rest Meta : Type}.
Abbreviation IrFn := (IrFunction IrInstr IrType IrSiteId Rest).
Implicit Types (fn : IrFn) (live : gset Z) (registry : option (AllocSiteRegistry Meta)).

Definition block_allocs fn (b : Z) : list Z := instrs (nth_block fn b) ≫= allocIdsIn.

Definition block_dropped fn live (r : list Z) (b : Z) : list Z :=
  if bool_decide (b ∈ r) then instrs (nth_block fn b) ≫= dropped_allocs live else block_allocs fn b.

Definition removed_allocs fn live (r : list Z) : list Z := seqZ 0 (Z.of_nat (length (blocks fn))) ≫= block_dropped fn live r.

Lemma blocks_by_index fn : blocks fn = nth_block fn <$> seqZ 0 (Z.of_nat (length (blocks fn))).
Proof.
  apply list_eq. intros k. rewrite list_lookup_fmap. destruct (decide (k < length (blocks fn))%nat) as [Hk|Hk].
  - rewrite lookup_seqZ_lt by lia. csimpl. unfold nth_block. rewrite Z.add_0_l, js_at_nat. apply lookup_lt_is_Some in Hk as [block ->]. done.
  - rewrite lookup_seqZ_ge by lia. apply lookup_ge_None. lia.
Qed.

Lemma fn_allocs_by_index fn : fn_allocs fn = seqZ 0 (Z.of_nat (length (blocks fn))) ≫= block_allocs fn.
Proof. unfold fn_allocs. rewrite blocks_by_index at 1. generalize (seqZ 0 (Z.of_nat (length (blocks fn)))). intros l. induction l as [|b l IH]; [done|]. csimpl. by rewrite IH. Qed.

Lemma retire_blocks_eq fn live r registry : retire_blocks fn live r registry = retire_all registry (removed_allocs fn live r).
Proof.
  unfold retire_blocks, removed_allocs. set (n := length (blocks fn)).
  assert (zip (seqZ 0 (Z.of_nat n)) (blocks fn) = (λ b, (b, nth_block fn b)) <$> seqZ 0 (Z.of_nat n)) as ->.
  { subst n. rewrite (blocks_by_index fn) at 2. generalize (seqZ 0 (Z.of_nat (length (blocks fn)))). intros l. induction l as [|b l IH]; [done|]. csimpl. by rewrite IH. }
  revert registry. generalize (seqZ 0 (Z.of_nat n)). intros l. induction l as [|b l IH]; intros registry; [by rewrite retire_all_nil|]. csimpl.
  rewrite IH, <-retire_all_app. f_equal. unfold block_dropped, block_allocs. cbn. clear. case_bool_decide.
  - revert registry. induction (instrs (nth_block fn b)) as [|x k IH]; intros registry; [by rewrite retire_all_nil|]. csimpl. by rewrite IH, retireDead_eq, retire_all_app.
  - revert registry. induction (instrs (nth_block fn b)) as [|x k IH]; intros registry; [by rewrite retire_all_nil|]. csimpl.
    rewrite IH, <-retire_all_app. by destruct registry.
Qed.

Lemma bind_perm {A B} (f : A → list B) l k : l ≡ₚ k → (l ≫= f) ≡ₚ (k ≫= f).
Proof. induction 1; csimpl; [done|by f_equiv|solve_Permutation|by etrans]. Qed.

(** What the function allocated is what is left and what was retired. *)
Lemma allocs_left fn live r : NoDup r → (∀ b, b ∈ r ↔ runs_to fn b) →
  fn_allocs fn ≡ₚ fn_allocs (left_fn fn live (merge_sort Z.le r)) ++ removed_allocs fn live r.
Proof.
  intros Hn Hr. destruct (sorted_reachable r Hn) as [Hs Hin]. set (n := Z.of_nat (length (blocks fn))).
  assert (fn_allocs (left_fn fn live (merge_sort Z.le r)) ≡ₚ seqZ 0 n ≫= (λ b, if bool_decide (b ∈ r) then kept_buffer live (instrs (nth_block fn b)) ≫= allocIdsIn else [])) as ->.
  { assert (merge_sort Z.le r ≡ₚ filter (.∈ r) (seqZ 0 n)) as Hp.
    { apply NoDup_Permutation; [done|apply NoDup_filter, NoDup_seqZ|]. intros b. rewrite Hin, list_elem_of_filter, elem_of_seqZ. split; [|tauto].
      intros Hb. split; [done|]. apply Hr, reach_range in Hb. subst n. lia. }
    unfold fn_allocs. cbn [left_fn blocks]. unfold left_blocks. rewrite list_fmap_bind, (bind_perm _ _ _ Hp). clear.
    induction (seqZ 0 n) as [|b l IH]; [done|]. rewrite filter_cons. csimpl. case_decide; [rewrite bool_decide_true by done|rewrite bool_decide_false by done]; csimpl; by rewrite IH. }
  rewrite fn_allocs_by_index. unfold removed_allocs. fold n. clear -H. induction (seqZ 0 n) as [|b l IH]; [done|]. csimpl. rewrite IH.
  unfold block_dropped, block_allocs. case_bool_decide; [|solve_Permutation]. rewrite (allocs_buffer live) by (intros; apply allocs_instr). solve_Permutation.
Qed.
End pass.

Section behaviour.
Context {V W : Type} `{M : IrMachine V W} {Sim : IrSimulation M} {SimOk : IrSimulationOk} {Quiet : QuietOk} {Rest : Type}.
Abbreviation IrFn := (IrFunction IrInstr IrType IrSiteId Rest).
Implicit Types (fn : IrFn) (live : gset Z).

Lemma nth_block_at fn b : 0 ≤ b < Z.of_nat (length (blocks fn)) → js_at (blocks fn) b = Some (nth_block fn b) ∧ nth_block fn b ∈ blocks fn.
Proof.
  intros Hb. apply js_at_is_Some in Hb as [block E]. unfold nth_block. rewrite E. split; [done|].
  apply js_at_Some in E as [_ E]. by eapply list_elem_of_lookup_2.
Qed.

Lemma reachable_block fn r b : (∀ b, b ∈ r ↔ runs_to fn b) → b ∈ r → js_at (blocks fn) b = Some (nth_block fn b) ∧ nth_block fn b ∈ blocks fn ∧ nth_block fn b ∈ reachable_blocks fn r.
Proof.
  intros Hr Hb. destruct (nth_block_at fn b) as [E Hin]; [by apply Hr, reach_range in Hb|]. split_and!; [done|done|].
  unfold reachable_blocks. apply list_elem_of_bind. exists b. rewrite E. split; [by left|done].
Qed.

(** A reachable block and what is left of it. *)
Lemma kept_block_follows n fn live r b : eliminable fn → (∀ b, b ∈ r ↔ runs_to fn b) → (∀ v, v ∈ live ↔ is_live (reachable_blocks fn r) v) → b ∈ r →
  buffers_follow (.∈ live) n (instrs (nth_block fn b)) (kept_buffer live (instrs (nth_block fn b))).
Proof.
  intros [Hvoid Hquiet] Hr Hlive Hb. destruct (reachable_block fn r b Hr Hb) as (_ & Hin & Hrb). apply kept_buffer_follows; intros x Hx.
  - apply dropped_quiet. eapply Hquiet; [exact Hin|exact Hx|]. rewrite instrs_deep_unfold. left.
  - intros Hk. apply kept_instr_follows. split; [|intros y Hy; by eapply Hquiet].
    intros v Hv. apply Hlive. unfold shouldKeep in Hk. destruct (isSideEffecting x) eqn:He; [by eapply live_effect|].
    destruct (instr_result x) as [y|] eqn:Hres.
    + apply bool_decide_eq_true in Hk. eapply live_needed; [done..|by apply Hlive|done].
    + rewrite (Hvoid _ _ Hin Hx He Hres) in Hv. by apply elem_of_nil in Hv.
Qed.

Lemma terminator_live fn live r b : (∀ b, b ∈ r ↔ runs_to fn b) → (∀ v, v ∈ live ↔ is_live (reachable_blocks fn r) v) → b ∈ r →
  Forall (.∈ live) (collectTerminatorUses (terminator (nth_block fn b))).
Proof.
  intros Hr Hlive Hb. destruct (reachable_block fn r b Hr Hb) as (_ & _ & Hrb). apply list.Forall_forall. intros v Hv. apply Hlive. by eapply live_end.
Qed.

Definition moved (l : list Z) (b b' : Z) : Prop := b ∈ l ∧ b' = new_index l b.

Lemma move_terminator_follows live l t : Forall (.∈ l) (targets t) → Forall (.∈ live) (collectTerminatorUses t) →
  terminator_follows (.∈ live) (moved l) t (move_terminator l t).
Proof.
  destruct t as [vs|br|c a b|]; cbn; rewrite ?Forall_cons, ?Forall_app; try done.
  - intros [Ht _] Hl. by split_and!.
  - intros (Ha & Hb & _) (Hc & Hla & Hlb). by split_and!.
Qed.

Lemma left_blocks_follow n fn live r : well_formed_fn fn → eliminable fn → NoDup r → (∀ b, b ∈ r ↔ runs_to fn b) →
  (∀ v, v ∈ live ↔ is_live (reachable_blocks fn r) v) →
  blocks_follow (.∈ live) n fn (left_fn fn live (merge_sort Z.le r)) (moved (merge_sort Z.le r)).
Proof.
  intros Hwf Hel Hn Hr Hlive. destruct (sorted_reachable r Hn) as [Hs Hin]. split. intros b b' [Hb ->].
  destruct (reachable_block fn r b Hr (proj1 (Hin b) Hb)) as (E & _). destruct (new_index_at _ b Hs Hb) as [_ Hat].
  exists (nth_block fn b), (kept_block live (merge_sort Z.le r) b (nth_block fn b)). split_and!; try done.
  - cbn. unfold left_blocks. apply js_at_Some in Hat as [H0 Hat]. apply js_at_Some. split; [done|]. by rewrite list_lookup_fmap, Hat.
  - eapply kept_block_follows; [done..|by apply Hin].
  - apply move_terminator_follows; [|by apply (terminator_live fn live r), Hin]. apply list.Forall_forall. intros s Hs'. apply Hin, Hr.
    eapply targets_run; [done|exact E|by apply Hr, Hin|done].
Qed.

Lemma same_blocks_follow n fn : well_formed_fn fn → blocks_follow (λ _, True) n fn fn (λ b b', b' = b ∧ 0 ≤ b < Z.of_nat (length (blocks fn))).
Proof.
  intros [_ Ht]. split. intros b b' [-> Hb]. destruct (nth_block_at fn b Hb) as [E Hin]. exists (nth_block fn b), (nth_block fn b).
  split_and!; try done; [apply buffers_follow_refl|]. specialize (Ht _ Hin).
  assert (∀ l : list Z, Forall (λ _, True) l) as Hl by (intros l; by apply list.Forall_forall).
  assert (∀ br, 0 ≤ target br < Z.of_nat (length (blocks fn)) →
    branch_follows (λ _, True) (λ b b', b' = b ∧ 0 ≤ b < Z.of_nat (length (blocks fn))) br br) as Hbr by (intros br [Hb0 Hb1]; split; [by repeat split|]; split; [done|apply Hl]).
  destruct (terminator (nth_block fn b)) as [vs|br|c a a'|]; cbn [targets terminator_follows] in Ht |- *; rewrite ?Forall_cons in Ht.
  - split; [done|apply Hl].
  - apply Hbr, Ht.
  - split_and!; [done|done|apply Hbr, Ht|apply Hbr, Ht].
  - done.
Qed.

Lemma end_follows_empty fn fn' n fuel j st st' : blocks fn = [] → end_follows j (run_ir fn n fuel st) (run_ir fn' n fuel st').
Proof.
  intros E. unfold run_ir. destruct fuel as [|fuel]; [by right|]. left. exists st.2. cbn [run]. by rewrite E.
Qed.

(** Calls of what is left follow calls of the function. *)
Lemma left_runs n fn live r fuel j st st' : well_formed_fn fn → eliminable fn → NoDup r → (∀ b, b ∈ r ↔ runs_to fn b) →
  (∀ v, v ∈ live ↔ is_live (reachable_blocks fn r) v) → (∀ x, True → val_rel j (st.1 x) (st'.1 x)) → world_rel j st.2 st'.2 →
  end_follows j (run_ir fn n fuel st) (run_ir (left_fn fn live (merge_sort Z.le r)) n fuel st').
Proof.
  intros Hwf Hel Hn Hr Hlive Hv Hw. destruct (decide (blocks fn = [])) as [E|Hne]; [by apply end_follows_empty|].
  destruct (sorted_reachable r Hn) as [Hs Hin]. pose proof (entry_first fn r Hn Hr Hne) as H0.
  eapply (run_follows (.∈ live)); [by apply left_blocks_follow| |split; [auto|done]]. split.
  - apply js_at_Some in H0 as [_ H0]. by eapply list_elem_of_lookup_2.
  - unfold new_index. by rewrite (proj2 (number_blocks_get _ 0 0 Hs) H0).
Qed.
End behaviour.

Section theorem.
Context `{IrTypes} {Rest Meta : Type}.
Abbreviation IrFn := (IrFunction IrInstr IrType IrSiteId Rest).

Lemma left_reachable (fn : IrFn) live r : well_formed_fn fn → NoDup r → (∀ b, b ∈ r ↔ runs_to fn b) →
  ∀ b, 0 ≤ b < Z.of_nat (length (blocks (left_fn fn live (merge_sort Z.le r)))) → runs_to (left_fn fn live (merge_sort Z.le r)) b.
Proof.
  intros Hwf Hn Hr b Hb. destruct (sorted_reachable r Hn) as [Hs Hin]. cbn in Hb. unfold left_blocks in Hb. rewrite length_fmap in Hb.
  assert (∀ a, runs_to fn a → runs_to (left_fn fn live (merge_sort Z.le r)) (new_index (merge_sort Z.le r) a)) as Hmap.
  { assert (∀ a, runs_to fn a → new_index (merge_sort Z.le r) a < Z.of_nat (length (merge_sort Z.le r)) ∧ 0 ≤ new_index (merge_sort Z.le r) a) as Hrange.
    { intros a Ha. destruct (new_index_at _ a Hs (proj2 (Hin a) (proj2 (Hr a) Ha))) as [_ Hat%js_at_lt]. lia. }
    induction 1 as [Hpos|a c Ha IH [He Hc]].
    - assert (blocks fn ≠ []) as Hne by (destruct (blocks fn); [cbn in Hpos; lia|done]).
      pose proof (entry_first fn r Hn Hr Hne) as H0. apply (number_blocks_get _ _ _ Hs) in H0. unfold new_index. rewrite H0. cbn.
      constructor. cbn. unfold left_blocks. rewrite length_fmap. lia.
    - assert (runs_to fn c) as Hrc by (eapply reach_edge; [exact Ha|by split]). eapply reach_edge; [exact IH|]. split.
      + destruct (new_index_at _ a Hs (proj2 (Hin a) (proj2 (Hr a) Ha))) as [_ Hat]. unfold block_targets in *. cbn [left_fn blocks]. unfold left_blocks.
        apply js_at_Some in Hat as [H0 Hat]. unfold js_at at 1. destruct (Z.ltb_spec (new_index (merge_sort Z.le r) a) 0); [lia|].
        rewrite list_lookup_fmap, Hat. cbn. destruct (js_at (blocks fn) a) as [block|] eqn:E; [|by apply elem_of_nil in He].
        unfold nth_block. rewrite E. cbn. destruct (terminator block); cbn in He |- *; set_solver.
      + cbn. unfold left_blocks. rewrite length_fmap. specialize (Hrange c Hrc). lia. }
  apply js_at_is_Some in Hb as [a Ha]. pose proof Ha as Ha'. apply (number_blocks_get _ _ _ Hs) in Ha'.
  assert (new_index (merge_sort Z.le r) a = b) as <- by (unfold new_index; by rewrite Ha').
  apply Hmap, Hr, Hin. apply js_at_Some in Ha as [_ Ha]. by eapply list_elem_of_lookup_2.
Qed.

(** C12: dead-code elimination is right.  On a well-formed function in whose droppable
    instructions the two effect tables agree, the pass ends.  What it returns is well
    formed, all its blocks are reachable, and the allocations of the function are those
    that are left and those that the registry retired.  For every machine, a call ends as
    it did, with related results, at every bound, or the original call trapped. *)
Theorem deadCode_correct (fn : IrFn) (registry : option (AllocSiteRegistry Meta)) : well_formed_fn fn → eliminable fn →
  ∃ out registry', deadCode fn registry = Ok (out, registry') ∧
    let fn' := default fn out in
    well_formed_fn fn' ∧ (∀ b, 0 ≤ b < Z.of_nat (length (blocks fn')) → runs_to fn' b) ∧
    (∃ removed, registry' = retire_all registry removed ∧ fn_allocs fn ≡ₚ fn_allocs fn' ++ removed) ∧
    ∀ (V W : Type) (M : IrMachine V W) (Sim : IrSimulation M) (SimOk : IrSimulationOk) (Quiet : QuietOk) n fuel j (st st' : (Z → V) * W),
      agree (λ _, True) j st st' → end_follows j (run_ir fn n fuel st) (run_ir fn' n fuel st').
Proof.
  intros Hwf Hel. destruct (computeReachable_ok fn) as (r & Er & Hn & Hr). destruct (computeLiveValues_ok fn r) as (live & El & Hlive).
  unfold deadCode. rewrite Er. cbn [mbind result_bind]. rewrite El. cbn [mbind result_bind].
  destruct (negb (Nat.eqb (length r) (length (blocks fn)))) eqn:Eb; cbn [negb andb].
  2: destruct (existsb _ (reachable_blocks fn r)) eqn:Ei; cbn [negb].
  3: { apply negb_false_iff, Nat.eqb_eq in Eb. exists None, registry. split; [done|]. cbn. split_and!; [done| | |].
    - intros b Hb. apply Hr. assert (seqZ 0 (Z.of_nat (length (blocks fn))) ≡ₚ r) as Hp.
      { symmetry. apply submseteq_length_Permutation; [|rewrite length_seqZ; lia]. apply NoDup_submseteq; [done|]. intros a Ha. apply elem_of_seqZ. apply Hr, reach_range in Ha. lia. }
      rewrite <-Hp. apply elem_of_seqZ. lia.
    - exists []. rewrite retire_all_nil, app_nil_r. done.
    - intros V W M Sim SimOk Quiet n fuel j st st' Ha. destruct (decide (blocks fn = [])) as [E|Hne]; [by apply end_follows_empty|].
      eapply run_follows; [by apply same_blocks_follow| |done]. split; [done|]. destruct (blocks fn); [done|cbn; lia]. }
  all: rewrite rebuild_blocks_ok by done; cbn [mbind result_bind]; eexists _, _; (split; [done|]); cbn [default].
  all: change {| fn_name := fn_name fn; fn_rest := fn_rest fn; blocks := left_blocks fn live (merge_sort Z.le r) |} with (left_fn fn live (merge_sort Z.le r)).
  all: split_and!; [by apply left_well_formed|by apply left_reachable|exists (removed_allocs fn live r); split; [apply retire_blocks_eq|by apply allocs_left]|].
  all: intros V W M Sim SimOk Quiet n fuel j st st' [Ha Hw]; by apply left_runs.
Qed.
End theorem.

(** * Witnesses *)

Module DeadSample.
Import Sample.
Definition at_ (r : Z) (a : option Z) (l : IrLeaf) : IrInstr := Leaf (mkBase (Some r) None None a) l.
Definition print : IrFuncRef := mkFuncRef (js "print") (CRuntime (js "print")).

(** Values 1 and 5 are not needed, and block 1 is not reachable. *)
Definition sample_fn : IrFunction IrInstr IrType IrSiteId unit := {|
  fn_name := js "f"; fn_rest := ();
  blocks := [
    {| block_id := 0; blockArgs := []; blockArgTypes := [];
       instrs := [at_ 0 None (IrInstrConst (CI32 7)); at_ 1 (Some 0) (IrInstrRefCellNew 0); at_ 2 (Some 1) (IrInstrRefCellNew 0);
                  at_ 3 None (IrInstrRefCellGet 2); at_ 4 None (IrInstrCall print [3]);
                  IrInstrIf (mkBase (Some 5) None None None) 0 [at_ 6 (Some 2) (IrInstrRefCellNew 0)] 6 [at_ 8 (Some 3) (IrInstrRefCellNew 3)] 8];
       terminator := TBr {| target := 2; branch_args := [3] |} None |};
    {| block_id := 1; blockArgs := []; blockArgTypes := [];
       instrs := [at_ 9 (Some 4) (IrInstrRefCellNew 0)]; terminator := TReturn [9] None |};
    {| block_id := 2; blockArgs := [7]; blockArgTypes := [()]; instrs := []; terminator := TReturn [7] None |}] |}.

Definition sites5 : AllocSiteRegistry unit :=
  (fresh (fresh (fresh (fresh (fresh empty_registry AkRefcell () None).1 AkRefcell () None).1 AkRefcell () None).1 AkRefcell () None).1 AkRefcell () None).1.

Definition start : (Z → val) * world := (λ _, VNum 0, mkWorld [] [] ∅).

Lemma sample_well_formed : well_formed_fn sample_fn.
Proof.
  split.
  - intros i block Hi. apply js_at_Some in Hi as [H0 Hi]. destruct (Z.to_nat i) as [|[|[|]]] eqn:E; cbn in Hi; try done; injection Hi as <-; cbn; lia.
  - intros block Hb. repeat (apply elem_of_cons in Hb as [->|Hb]; [cbn; repeat constructor; cbn; lia|]). by apply elem_of_nil in Hb.
Defined.

Lemma sample_droppable : eliminable sample_fn.
Proof.
  split.
  - intros block i Hb Hi _ Hr. exfalso. repeat (apply elem_of_cons in Hb as [->|Hb]; [cbn in Hi; repeat (apply elem_of_cons in Hi as [->|Hi]; [done|]); by apply elem_of_nil in Hi|]). by apply elem_of_nil in Hb.
  - intros block i x Hb Hi Hx He _. repeat (apply elem_of_cons in Hb as [->|Hb]; [cbn in Hi; repeat (apply elem_of_cons in Hi as [->|Hi]; [cbn in Hx; repeat (apply elem_of_cons in Hx as [->|Hx]; [done|]); by apply elem_of_nil in Hx|]); by apply elem_of_nil in Hi|]). by apply elem_of_nil in Hb.
Defined.

Lemma start_related : agree (λ _, True) [] start start.
Proof. split; [done|]. split; cbn; [constructor|intros a a' Ha; by apply elem_of_nil in Ha|done]. Defined.

(** Four values of the entry are left, and the second block. *)
Example dead_result : match deadCode sample_fn (Some sites5) with
  | Ok (Some fn', Some reg) =>
      (length (blocks fn') = 2%nat) ∧ ((instr_result <$> (blocks fn' ≫= instrs)) = [Some 0; Some 2; Some 3; Some 4]) ∧
      ((terminator <$> blocks fn') = [TBr {| target := 1; branch_args := [3] |} None; TReturn [7] None]) ∧
      ((isKnown reg <$> [0; 4; 5]) = [true; true; false]) ∧ ((λ p, match p with Live _ => true | _ => false end) <$> sites reg) = [false; true; false; false; false]
  | _ => False
  end.
Proof. vm_compute. by repeat split. Qed.

Example dead_runs : match deadCode (Meta := unit) sample_fn None with
  | Ok (Some fn', _) => match run_ir sample_fn 1 3 start, run_ir fn' 1 3 start with
                        | Some (Returned vs w), Some (Returned vs' w') => vs = [VNum 7] ∧ vs' = vs ∧ printed w = [VNum 7] ∧ printed w' = printed w
                        | _, _ => False
                        end
  | _ => False
  end.
Proof. vm_compute. by repeat split. Qed.
End DeadSample.

Lemma deadCode_correct_witness : ∃ fn' reg, deadCode DeadSample.sample_fn (Some DeadSample.sites5) = Ok (fn', reg) ∧
  end_follows (M := Sample.machine) [] (run_ir DeadSample.sample_fn 1 3 DeadSample.start) (run_ir (default DeadSample.sample_fn fn') 1 3 DeadSample.start).
Proof.
  destruct (deadCode_correct DeadSample.sample_fn (Some DeadSample.sites5) DeadSample.sample_well_formed DeadSample.sample_droppable) as (fn' & reg & E & _ & _ & _ & Hrun).
  exists fn', reg. split; [exact E|].
  exact (Hrun Sample.val Sample.world Sample.machine Sample.sim Sample.sim_ok Sample.quiet_ok 1%nat 3%nat [] _ _ DeadSample.start_related).
Defined.
