(* ===== verification/ConstFold.v ===== *)
(** Constant folding on the middle-end IR: src/ir/passes/constant-fold.ts, its tables and
    the pass, and the tables against the Wasm operations that they compute.

    A number that is not an integer of the program is a [spec_float] of 53 bits.  The
    number of an i32 constant is a [Z], so a negative zero is zero there.  The scopes are
    threaded; a child scope ends with its buffer.  The pass returns [None] where the
    source returns the same function object. *)

From Stdlib Require Import SpecFloat.
From S2P Require Import Prelude WasmModel IrCfg IrNodes AllocRegistry.

(** * Numbers *)

(** The integer part of a number, 0 where there is none. *)
Definition sf_int (v : spec_float) : Z :=
  match v with S754_finite s m e => cond_Zopp s (Z.shiftl (Z.pos m) e) | _ => 0 end.

Definition sf_is_int (v : spec_float) : bool :=
  match v with
  | S754_zero _ => true
  | S754_finite _ m e => (0 <=? e) || (Z.pos m mod 2 ^ (- e) =? 0)
  | _ => false
  end.

(** A number compared with an integer literal. *)
Definition sf_compare_int (v : spec_float) (k : Z) : option comparison :=
  match v with
  | S754_nan => None
  | S754_infinity s => Some (if s then Lt else Gt)
  | S754_zero _ => Some (0 ?= k)
  | S754_finite s m e =>
      Some (if 0 <=? e then cond_Zopp s (Z.pos m * 2 ^ e) ?= k else cond_Zopp s (Z.pos m) ?= k * 2 ^ (- e))
  end.

Definition sf_ge_int (v : spec_float) (k : Z) : bool := match sf_compare_int v k with Some (Gt | Eq) => true | _ => false end.
Definition sf_le_int (v : spec_float) (k : Z) : bool := match sf_compare_int v k with Some (Lt | Eq) => true | _ => false end.

(** The double nearest to an integer: [Number(value)] of a BigInt. *)
Definition number_of (z : Z) : spec_float := binary_normalize 53 1024 z 0 false.

(** The product of two numbers that are 32-bit integers, as a double. *)
Definition js_mul (a b : Z) : Z := sf_int (number_of (a * b)).

Section fold.
Context `{IrTypes}.

(** The carrier of a [val] type. *)
Context (type_val : IrType → option ValType).

(** * The tables *)

Definition toI32 (c : IrConst) : option Z :=
  match c with CI32 value => Some value | CBool value => Some (if value then 1 else 0) | _ => None end.

Definition f64Arith (l r : IrConst) (f : spec_float → spec_float → spec_float) : option IrConst :=
  match l, r with CF64 a, CF64 b => Some (CF64 (f a b)) | _, _ => None end.

Definition f64Cmp (l r : IrConst) (f : spec_float → spec_float → bool) : option IrConst :=
  match l, r with CF64 a, CF64 b => Some (CBool (f a b)) | _, _ => None end.

Definition i32Cmp (l r : IrConst) (f : Z → Z → bool) : option IrConst :=
  match toI32 l, toI32 r with Some la, Some ra => Some (CBool (f la ra)) | _, _ => None end.

Definition i32Bool (l r : IrConst) (f : Z → Z → bool) : option IrConst :=
  match toI32 l, toI32 r with Some la, Some ra => Some (CBool (f la ra)) | _, _ => None end.

Definition i32Arith (l r : IrConst) (f : Z → Z → Z) : option IrConst :=
  match toI32 l, toI32 r with Some la, Some ra => Some (CI32 (f la ra .| 0)) | _, _ => None end.

Definition i32CmpSigned (l r : IrConst) (f : Z → Z → bool) : option IrConst :=
  match toI32 l, toI32 r with Some la, Some ra => Some (CBool (f (la .| 0) (ra .| 0))) | _, _ => None end.

Definition i32CmpUnsigned (l r : IrConst) (f : Z → Z → bool) : option IrConst :=
  match toI32 l, toI32 r with Some la, Some ra => Some (CBool (f (la .>>> 0) (ra .>>> 0))) | _, _ => None end.

(** A numeric constant as the bit operators see it. *)
Definition jsNumericConst (c : IrConst) : option Z :=
  match c with CF64 value => Some (sf_int value) | CI32 value => Some value | CBool value => Some (if value then 1 else 0) | _ => None end.

Definition jsBitwise (l r : IrConst) (resultType : option IrType) (f : Z → Z → Z) : option IrConst :=
  match jsNumericConst l, jsNumericConst r, resultType ≫= type_val with
  | Some a, Some b, Some VF64 => Some (CF64 (number_of (f a b)))
  | Some a, Some b, Some VI32 => Some (CI32 (f a b .| 0))
  | _, _, _ => None
  end.

Definition i64Eq (l r : IrConst) : option IrConst :=
  match l, r with CI64 a, CI64 b => Some (CBool (a =? b)) | _, _ => None end.

Definition i64RemS (l r : IrConst) : option IrConst :=
  match l, r with
  | CI64 a, CI64 b => if b =? 0 then None else if (a =? - 2 ^ 63) && (b =? -1) then None else Some (CI64 (Z.rem a b))
  | _, _ => None
  end.

(** [BINARY_FOLD_TABLE[op](l, r, resultType)]. *)
Definition foldBinary (op : IrBinop) (l r : IrConst) (resultType : option IrType) : option IrConst :=
  match op with
  | F64Add => f64Arith l r (SFadd 53 1024)
  | F64Sub => f64Arith l r (SFsub 53 1024)
  | F64Mul => f64Arith l r (SFmul 53 1024)
  | F64Div => f64Arith l r (SFdiv 53 1024)
  | F64Copysign => None
  | F64Eq => f64Cmp l r SFeqb
  | F64Ne => f64Cmp l r (λ a b, negb (SFeqb a b))
  | F64Lt => f64Cmp l r SFltb
  | F64Le => f64Cmp l r SFleb
  | F64Gt => f64Cmp l r (λ a b, SFltb b a)
  | F64Ge => f64Cmp l r (λ a b, SFleb b a)
  | I32Eq => i32Cmp l r Z.eqb
  | I32Ne => i32Cmp l r (λ a b, negb (a =? b))
  | I32And => i32Bool l r (λ a b, negb (a =? 0) && negb (b =? 0))
  | I32Or => i32Bool l r (λ a b, negb (a =? 0) || negb (b =? 0))
  | I64Eq => i64Eq l r
  | I32Add => i32Arith l r Z.add
  | I32Sub => i32Arith l r Z.sub
  | I32Mul => i32Arith l r js_mul
  | I64RemS => i64RemS l r
  | I32LtS => i32CmpSigned l r Z.ltb
  | I32LeS => i32CmpSigned l r Z.leb
  | I32GtS => i32CmpSigned l r (λ a b, b <? a)
  | I32GeS => i32CmpSigned l r (λ a b, b <=? a)
  | I32LtU => i32CmpUnsigned l r Z.ltb
  | I32LeU => i32CmpUnsigned l r Z.leb
  | I32GtU => i32CmpUnsigned l r (λ a b, b <? a)
  | I32GeU => i32CmpUnsigned l r (λ a b, b <=? a)
  | JsBitand => jsBitwise l r resultType js_and
  | JsBitor => jsBitwise l r resultType js_or
  | JsBitxor => jsBitwise l r resultType (λ a b, Z.lxor (to_int32 a) (to_int32 b))
  | JsShl => jsBitwise l r resultType js_shl
  | JsShrS => jsBitwise l r resultType js_shr
  | JsShrU => jsBitwise l r resultType js_shru
  end.

Definition trunc_sat (v : spec_float) : Z :=
  match v with
  | S754_nan => 0
  | _ => if sf_ge_int v 2147483647 then 2147483647 else if sf_le_int v (-2147483648) then -2147483648 else sf_int v
  end.

Definition foldUnary (op : IrUnop) (rand : IrConst) : option IrConst :=
  match op, rand with
  | F64Neg, CF64 value => Some (CF64 (SFopp value))
  | I32Eqz, _ => match toI32 rand with Some v => Some (CBool (v =? 0)) | None => None end
  | I32TruncSatF64S, CF64 v => Some (CI32 (trunc_sat v))
  | I64TruncF64S, CF64 v =>
      if negb (sf_is_int v) then None
      else if match sf_compare_int v (- 2 ^ 63) with Some Lt => true | _ => false end || sf_ge_int v (2 ^ 63) then None
      else Some (CI64 (sf_int v))
  | F64ConvertI64S, CI64 v => Some (CF64 (number_of v))
  | _, _ => None
  end.

Definition isConstTruthy (c : IrConst) : option bool :=
  match c with CBool value => Some value | CI32 value => Some (negb (value =? 0)) | _ => None end.

(** * Instructions *)

(** The constants and the strings in scope; of the string instruction only its value is
    read. *)
Record Scope := mkScope { constDefs : jsmap Z IrConst; stringDefs : jsmap Z jsstr }.

Definition folded_base (b : IrInstrBase) : IrInstrBase := mkBase (result_ b) (resultType b) (site b) None.

Definition tryFoldBinary (b : IrInstrBase) (op : IrBinop) (lhs rhs : Z) (scope : Scope) : option IrInstr :=
  match jm_get (constDefs scope) lhs, jm_get (constDefs scope) rhs with
  | Some l, Some r => (λ c, Leaf (folded_base b) (IrInstrConst c)) <$> foldBinary op l r (resultType b)
  | _, _ => None
  end.

Definition tryFoldStringConcat (b : IrInstrBase) (lhs rhs : Z) (scope : Scope) : option IrInstr :=
  match jm_get (stringDefs scope) lhs, jm_get (stringDefs scope) rhs with
  | Some l, Some r => Some (Leaf b (IrInstrStringConst (l ++ r) None None))
  | _, _ => None
  end.

Definition tryFoldUnary (b : IrInstrBase) (op : IrUnop) (rand : Z) (scope : Scope) : option IrInstr :=
  match jm_get (constDefs scope) rand with
  | Some o => (λ c, Leaf (folded_base b) (IrInstrConst c)) <$> foldUnary op o
  | None => None
  end.

Definition tryFoldInstr (i : IrInstr) (scope : Scope) : option IrInstr :=
  match i with
  | Leaf b (IrInstrBinary op lhs rhs) => tryFoldBinary b op lhs rhs scope
  | Leaf b (IrInstrUnary op rand) => tryFoldUnary b op rand scope
  | Leaf b (IrInstrStringConcat lhs rhs _ _ _) => tryFoldStringConcat b lhs rhs scope
  | _ => None
  end.

(** Step 0 of [foldInstr]: a constant that is not in scope yet. *)
Definition see_const (i : IrInstr) (scope : Scope) : Scope :=
  match i with
  | Leaf b (IrInstrConst c) =>
      match result_ b with
      | Some r => if jm_has (constDefs scope) r then scope else mkScope (jm_set (constDefs scope) r c) (stringDefs scope)
      | None => scope
      end
  | Leaf b (IrInstrStringConst v _ _) =>
      match result_ b with
      | Some r => if jm_has (stringDefs scope) r then scope else mkScope (constDefs scope) (jm_set (stringDefs scope) r v)
      | None => scope
      end
  | _ => scope
  end.

(** What [foldInstr] records of a rewritten instruction, and the seed of the pass. *)
Definition set_const (i : IrInstr) (scope : Scope) : Scope :=
  match i with
  | Leaf b (IrInstrConst c) =>
      match result_ b with Some r => mkScope (jm_set (constDefs scope) r c) (stringDefs scope) | None => scope end
  | Leaf b (IrInstrStringConst v _ _) =>
      match result_ b with Some r => mkScope (constDefs scope) (jm_set (stringDefs scope) r v) | None => scope end
  | _ => scope
  end.

(** The scope behind an instruction. *)
Definition scope_after (i : IrInstr) (scope : Scope) : Scope :=
  let scope := see_const i scope in
  match tryFoldInstr i scope with Some rewritten => set_const rewritten scope | None => scope end.

(** What tryFoldInstr rewrites to has no buffers. *)
Fixpoint foldInstr (scope : Scope) (i : IrInstr) : option IrInstr :=
  let fold := fix fold (buffer : list IrInstr) (child : Scope) : bool * list IrInstr :=
    match buffer with
    | [] => (false, [])
    | x :: buffer' =>
        let '(changed, out) := fold buffer' (scope_after x child) in
        match foldInstr child x with None => (changed, x :: out) | Some folded => (true, folded :: out) end
    end in
  match tryFoldInstr i (see_const i scope) with
  | Some rewritten => Some rewritten
  | None => mapNestedBuffers (λ buffer, let '(changed, out) := fold buffer (scope_after i scope) in if changed then Some out else None) i
  end.

(** The loop over a buffer or over a block. *)
Definition fold_loop : list IrInstr → Scope → bool * list IrInstr :=
  fix fold (buffer : list IrInstr) (child : Scope) : bool * list IrInstr :=
    match buffer with
    | [] => (false, [])
    | x :: buffer' =>
        let '(changed, out) := fold buffer' (scope_after x child) in
        match foldInstr child x with None => (changed, x :: out) | Some folded => (true, folded :: out) end
    end.

Definition foldBuffer (buffer : list IrInstr) (parent : Scope) : option (list IrInstr) :=
  let '(changed, out) := fold_loop buffer parent in if changed then Some out else None.

Definition scope_behind (buffer : list IrInstr) (scope : Scope) : Scope := foldl (λ s i, scope_after i s) scope buffer.

(** The allocations that folding retires, in order. *)
Definition retired_here (scope : Scope) (i : IrInstr) : list Z :=
  match tryFoldInstr i (see_const i scope) with
  | Some rewritten => match alloc (base i), alloc (base rewritten) with Some _, None => allocIdsIn i | _, _ => [] end
  | None => []
  end.

Definition in_buffer (inside : list (Scope → Scope * list Z)) (scope : Scope) : Scope * list Z :=
  foldl (λ s f, let '(scope', ids) := f s.1 in (scope', s.2 ++ ids)) (scope, []) inside.

Definition retired_in : IrInstr → Scope → Scope * list Z :=
  instr_fold (λ i inside scope,
    let child := scope_after i scope in
    (child, retired_here scope i ++ match tryFoldInstr i (see_const i scope) with Some _ => [] | None => inside ≫= λ l, (in_buffer l child).2 end)).

(** * The pass *)

Context {Rest Meta : Type}.
Abbreviation IrFn := (IrFunction IrInstr IrType IrSiteId Rest).
Abbreviation Block := (IrBlock IrInstr IrType IrSiteId).

Definition tryFoldTerminator (t : IrTerminator IrSiteId) (scope : Scope) : option (IrTerminator IrSiteId) :=
  match t with
  | TBrIf condition ifTrue ifFalse site =>
      match jm_get (constDefs scope) condition with
      | None => None
      | Some cond =>
          match isConstTruthy cond with
          | None => None
          | Some truthy => Some (TBr (if truthy then ifTrue else ifFalse) site)
          end
      end
  | _ => None
  end.

Definition foldBlock (block : Block) (scope : Scope) : option Block :=
  let newInstrs := foldBuffer (instrs block) scope in
  let newTerm := tryFoldTerminator (terminator block) (scope_behind (instrs block) scope) in
  match newInstrs, newTerm with
  | None, None => None
  | _, _ => Some {| block_id := block_id block; blockArgs := blockArgs block; blockArgTypes := blockArgTypes block;
                    instrs := default (instrs block) newInstrs; terminator := default (terminator block) newTerm |}
  end.

Fixpoint fold_blocks (bs : list Block) (scope : Scope) : bool * list Block :=
  match bs with
  | [] => (false, [])
  | block :: bs' =>
      let '(changed, out) := fold_blocks bs' (scope_behind (instrs block) scope) in
      match foldBlock block scope with None => (changed, block :: out) | Some block' => (true, block' :: out) end
  end.

(** Every constant of the blocks, in whatever order they run. *)
Definition seed (bs : list Block) : Scope := foldl (λ s i, set_const i s) (mkScope [] []) (bs ≫= instrs).

Definition constantFold (fn : IrFn) (registry : option (AllocSiteRegistry Meta)) : option IrFn * option (AllocSiteRegistry Meta) :=
  let '(changed, newBlocks) := fold_blocks (blocks fn) (seed (blocks fn)) in
  let retired := (in_buffer (retired_in <$> (blocks fn ≫= instrs)) (seed (blocks fn))).2 in
  let registry := (λ reg, foldl retire reg retired) <$> registry in
  (if changed then Some {| fn_name := fn_name fn; fn_rest := fn_rest fn; blocks := newBlocks |} else None, registry).
End fold.

(** * The Wasm operations *)

(** A Wasm number; [WF64 S754_nan] is a NaN of a sign and a payload that are not told. *)
Inductive WVal := WI32 (z : Z) | WI64 (z : Z) | WF64 (v : spec_float).

(** The result of an operation on doubles, where it is determined: of a NaN, Wasm
    leaves the sign open, or (f64.neg) takes it from an operand whose sign is not told,
    and f64.copysign can read it. *)
Definition f64_result (v : spec_float) : option WVal := match v with S754_nan => None | _ => Some (WF64 v) end.

Definition b2w (b : bool) : WVal := WI32 (Z.b2z b).

(** i32 and i64 in their signed ranges. *)
Definition wasm_compare (op : IrBinop) (a b : Z) : option bool :=
  match op with
  | I32Eq => Some (a =? b) | I32Ne => Some (negb (a =? b))
  | I32LtS => Some (a <? b) | I32LeS => Some (a <=? b) | I32GtS => Some (b <? a) | I32GeS => Some (b <=? a)
  | I32LtU => Some (to_uint32 a <? to_uint32 b) | I32LeU => Some (to_uint32 a <=? to_uint32 b)
  | I32GtU => Some (to_uint32 b <? to_uint32 a) | I32GeU => Some (to_uint32 b <=? to_uint32 a)
  | _ => None
  end.

Definition wasm_f64 (op : IrBinop) (a b : spec_float) : option WVal :=
  match op with
  | F64Add => f64_result (SFadd 53 1024 a b) | F64Sub => f64_result (SFsub 53 1024 a b)
  | F64Mul => f64_result (SFmul 53 1024 a b) | F64Div => f64_result (SFdiv 53 1024 a b)
  | F64Eq => Some (b2w (SFeqb a b)) | F64Ne => Some (b2w (negb (SFeqb a b)))
  | F64Lt => Some (b2w (SFltb a b)) | F64Le => Some (b2w (SFleb a b))
  | F64Gt => Some (b2w (SFltb b a)) | F64Ge => Some (b2w (SFleb b a))
  | _ => None
  end.

(** The operator of ECMAScript on two numbers, as an exact integer. *)
Definition js_bits (op : IrBinop) (a b : Z) : option Z :=
  match op with
  | JsBitand => Some (Z.land (to_int32 a) (to_int32 b))
  | JsBitor => Some (Z.lor (to_int32 a) (to_int32 b))
  | JsBitxor => Some (Z.lxor (to_int32 a) (to_int32 b))
  | JsShl => Some (to_int32 (to_int32 a * 2 ^ (to_uint32 b mod 32)))
  | JsShrS => Some (to_int32 a / 2 ^ (to_uint32 b mod 32))
  | JsShrU => Some (to_uint32 a / 2 ^ (to_uint32 b mod 32))
  | _ => None
  end.

Definition js_operand (w : WVal) : option Z := match w with WI32 z => Some z | WF64 v => Some (sf_int v) | WI64 _ => None end.

(** The meaning of a binary primitive whose result has the carrier [t]; [None] where it
    traps or is not determined. *)
Definition wasm_binary (t : option ValType) (op : IrBinop) (a b : WVal) : option WVal :=
  match op, a, b with
  | I32Add, WI32 a, WI32 b => Some (WI32 (to_int32 (a + b)))
  | I32Sub, WI32 a, WI32 b => Some (WI32 (to_int32 (a - b)))
  | I32Mul, WI32 a, WI32 b => Some (WI32 (to_int32 (a * b)))
  | I32And, WI32 a, WI32 b => Some (WI32 (Z.land a b))
  | I32Or, WI32 a, WI32 b => Some (WI32 (Z.lor a b))
  | I64Eq, WI64 a, WI64 b => Some (b2w (a =? b))
  | I64RemS, WI64 a, WI64 b => if b =? 0 then None else Some (WI64 (Z.rem a b))
  | (JsBitand | JsBitor | JsBitxor | JsShl | JsShrS | JsShrU), _, _ =>
      x ← js_operand a; y ← js_operand b; z ← js_bits op x y;
      match t with Some VF64 => Some (WF64 (number_of z)) | Some VI32 => Some (WI32 (to_int32 z)) | _ => None end
  | _, WI32 a, WI32 b => b2w <$> wasm_compare op a b
  | _, WF64 a, WF64 b => wasm_f64 op a b
  | _, _, _ => None
  end.

Definition clamp32 (z : Z) : Z := Z.max (- 2 ^ 31) (Z.min z (2 ^ 31 - 1)).

Definition wasm_unary (op : IrUnop) (a : WVal) : option WVal :=
  match op, a with
  | F64Neg, WF64 v => f64_result (SFopp v)
  | I32Eqz, WI32 z => Some (b2w (z =? 0))
  | I32TruncSatF64S, WF64 v =>
      Some (WI32 (match v with
                  | S754_nan => 0
                  | S754_infinity s => if s then - 2 ^ 31 else 2 ^ 31 - 1
                  | _ => clamp32 (sf_int v)
                  end))
  | I64TruncF64S, WF64 v =>
      match v with
      | S754_nan | S754_infinity _ => None
      | _ => if (- 2 ^ 63 <=? sf_int v) && (sf_int v <? 2 ^ 63) then Some (WI64 (sf_int v)) else None
      end
  | F64ConvertI64S, WI64 z => Some (WF64 (number_of z))
  | _, _ => None
  end.

Section exact.
Context `{IrTypes} (type_val : IrType → option ValType).
Implicit Types c l r : IrConst.

(** A boolean is an i32. *)
Definition const_value c : option WVal :=
  match c with
  | CI32 z => Some (WI32 z) | CBool b => Some (b2w b) | CI64 z => Some (WI64 z) | CF64 v => Some (WF64 v)
  | _ => None
  end.

Definition valid_const c : Prop :=
  match c with CI32 z => - 2 ^ 31 ≤ z < 2 ^ 31 | CI64 z => - 2 ^ 63 ≤ z < 2 ^ 63 | _ => True end.

(** Where the table is right: products that doubles hold, operands of the logical
    operators that are booleans, and arithmetic on doubles whose result is a number. *)
Definition exact_fold (op : IrBinop) l r : Prop :=
  match op, toI32 l, toI32 r with
  | I32Mul, Some a, Some b => Z.abs (a * b) < 2 ^ 53
  | (I32And | I32Or), Some a, Some b => 0 ≤ a ≤ 1 ∧ 0 ≤ b ≤ 1
  | _, _, _ => True
  end ∧
  match op, l, r with
  | (F64Add | F64Sub | F64Mul | F64Div), CF64 a, CF64 b => wasm_f64 op a b ≠ None
  | _, _, _ => True
  end.

(** The sign of a NaN is lost when its negation is folded. *)
Definition exact_unary (op : IrUnop) o : Prop :=
  match op, o with F64Neg, CF64 v => v ≠ S754_nan | _, _ => True end.

(** ** Numbers *)

Lemma digits2_pos_bound m : 2 ^ (Z.pos (digits2_pos m) - 1) ≤ Z.pos m < 2 ^ Z.pos (digits2_pos m).
Proof.
  induction m as [m IH|m IH|]; [| |done]; cbn [digits2_pos]; rewrite Pos2Z.inj_succ;
    replace (Z.succ (Z.pos (digits2_pos m))) with (Z.pos (digits2_pos m) + 1) by lia; rewrite Z.pow_add_r by lia;
    replace (Z.pos (digits2_pos m) + 1 - 1) with ((Z.pos (digits2_pos m) - 1) + 1) by lia; rewrite Z.pow_add_r by lia; lia.
Qed.

Lemma digits2_pos_le m k : 0 ≤ k → Z.pos m < 2 ^ k → Z.pos (digits2_pos m) ≤ k.
Proof.
  intros Hk Hm. destruct (digits2_pos_bound m) as [Hl _]. destruct (Z_le_gt_dec (Z.pos (digits2_pos m)) k) as [|Hg]; [done|].
  exfalso. assert (2 ^ k ≤ 2 ^ (Z.pos (digits2_pos m) - 1)) by (apply Z.pow_le_mono_r; lia). lia.
Qed.

Lemma digits2_pos_eq m k : 2 ^ (k - 1) ≤ Z.pos m < 2 ^ k → Z.pos (digits2_pos m) = k.
Proof.
  intros [Hl Hu]. assert (0 < k) as Hk by (destruct (Z_le_gt_dec k 0); [|lia]; assert (2 ^ k ≤ 2 ^ 0) by (apply Z.pow_le_mono_r; lia); lia).
  pose proof (digits2_pos_le m k ltac:(lia) Hu). destruct (digits2_pos_bound m) as [_ Hd].
  destruct (Z_le_gt_dec k (Z.pos (digits2_pos m))); [lia|]. exfalso.
  assert (2 ^ Z.pos (digits2_pos m) ≤ 2 ^ (k - 1)) by (apply Z.pow_le_mono_r; lia). lia.
Qed.

Lemma iter_xO m d : Z.pos (Pos.iter xO m d) = Z.pos m * 2 ^ Z.pos d.
Proof.
  induction d as [|d IH] using Pos.peano_ind; [cbn; lia|]. rewrite Pos.iter_succ, Pos2Z.inj_xO, IH, Pos2Z.inj_succ, Z.pow_succ_r by lia. lia.
Qed.

(** A mantissa of 53 digits is not rounded. *)
Lemma round_exact s m e : Z.pos (digits2_pos m) = 53 → -1074 ≤ e ≤ 971 →
  binary_round_aux 53 1024 s (Z.pos m) e loc_Exact = S754_finite s m e.
Proof.
  intros Hd He. assert (shr_fexp 53 1024 (Z.pos m) e loc_Exact = ({| shr_m := Z.pos m; shr_r := false; shr_s := false |}, e)) as E.
  { unfold shr_fexp, fexp. cbn [Zdigits2 shr_record_of_loc]. rewrite Hd. unfold emin. replace (Z.max _ _ - e) with 0 by lia. done. }
  unfold binary_round_aux. rewrite E. cbn [shr_m loc_of_shr_record round_nearest_even]. rewrite E. cbn [shr_m].
  destruct (Z.leb_spec e (1024 - 53)); [done|lia].
Qed.

Lemma round_int s m : Z.pos m < 2 ^ 53 → sf_int (binary_round 53 1024 s m 0) = cond_Zopp s (Z.pos m).
Proof.
  intros Hm. pose proof (digits2_pos_le m 53 ltac:(lia) Hm) as Hd. unfold binary_round, fexp, emin, shl_align.
  replace (Z.max (Z.pos (digits2_pos m) + 0 - 53) (3 - 1024 - 53) - 0) with (Z.pos (digits2_pos m) - 53) by lia.
  replace (Z.max (Z.pos (digits2_pos m) + 0 - 53) (3 - 1024 - 53)) with (Z.pos (digits2_pos m) - 53) by lia.
  destruct (Z.pos (digits2_pos m) - 53) as [|d|d] eqn:E; [|lia|].
  - rewrite round_exact by lia. done.
  - rewrite round_exact; [|rewrite (digits2_pos_eq _ 53); [done|]|lia].
    + cbn [sf_int]. f_equal. rewrite Z.shiftl_div_pow2 by lia. rewrite iter_xO. apply Z.div_mul. cbn [Z.opp]. lia.
    + rewrite iter_xO. destruct (digits2_pos_bound m) as [Hl Hu]. replace 53 with (Z.pos (digits2_pos m) + Z.pos d) at 2 by lia.
      replace (53 - 1) with ((Z.pos (digits2_pos m) - 1) + Z.pos d) by lia. rewrite !Z.pow_add_r by lia. nia.
Qed.

Lemma sf_int_number z : Z.abs z < 2 ^ 53 → sf_int (number_of z) = z.
Proof. destruct z as [|m|m]; intros Hz; [done| |]; unfold number_of; cbn [binary_normalize]; rewrite round_int by lia; done. Qed.

Lemma js_or_zero z : z .| 0 = to_int32 z.
Proof. unfold js_or. apply Z.lor_0_r. Qed.

(** A number compared with an integer tells its integer part. *)
Lemma sf_compare_part s m e k :
  match sf_compare_int (S754_finite s m e) k with
  | Some Lt => (k ≤ 0 → sf_int (S754_finite s m e) ≤ k) ∧ (0 < k → sf_int (S754_finite s m e) < k)
  | Some Eq => sf_int (S754_finite s m e) = k
  | Some Gt => (0 ≤ k → k ≤ sf_int (S754_finite s m e)) ∧ (k < 0 → k < sf_int (S754_finite s m e))
  | None => False
  end.
Proof.
  cbn [sf_compare_int sf_int]. destruct (Z.leb_spec 0 e).
  - rewrite Z.shiftl_mul_pow2 by lia. unfold cond_Zopp. destruct (Z.compare_spec (if s then - (Z.pos m * 2 ^ e) else Z.pos m * 2 ^ e) k); lia.
  - rewrite Z.shiftl_div_pow2 by lia. assert (0 < 2 ^ (- e)) as Hd by (apply Z.pow_pos_nonneg; lia). set (d := 2 ^ (- e)) in *. clearbody d.
    pose proof (Z.div_mod (Z.pos m) d ltac:(lia)) as Hm. pose proof (Z.mod_pos_bound (Z.pos m) d Hd) as Hr.
    assert (0 ≤ Z.pos m / d) as Hq by (apply Z.div_pos; lia). set (q := Z.pos m / d) in *. set (r := Z.pos m mod d) in *. clearbody q r.
    unfold cond_Zopp. destruct s.
    + destruct (Z.compare_spec (- Z.pos m) (k * d)); [nia|split; intros; nia|split; intros; nia].
    + destruct (Z.compare_spec (Z.pos m) (k * d)); [nia|split; intros; nia|split; intros; nia].
Qed.

Lemma trunc_sat_exact v : wasm_unary I32TruncSatF64S (WF64 v) = Some (WI32 (trunc_sat v)).
Proof.
  destruct v as [s|[]| |s m e]; try done. cbn [wasm_unary]. do 2 f_equal. unfold trunc_sat, sf_ge_int, sf_le_int, clamp32.
  pose proof (sf_compare_part s m e 2147483647) as Hhi. pose proof (sf_compare_part s m e (-2147483648)) as Hlo.
  destruct (sf_compare_int _ 2147483647) as [[| |]|]; [lia| |lia|done]. destruct (sf_compare_int _ (-2147483648)) as [[| |]|]; lia.
Qed.

Lemma trunc_sat_range v : - 2 ^ 31 ≤ trunc_sat v < 2 ^ 31.
Proof. pose proof (trunc_sat_exact v) as E. cbn in E. injection E as <-. unfold clamp32. destruct v as [| [] | |]; lia. Qed.

Lemma i64_trunc_exact v : sf_is_int v = true → match sf_compare_int v (- 2 ^ 63) with Some Lt => true | _ => false end || sf_ge_int v (2 ^ 63) = false →
  wasm_unary I64TruncF64S (WF64 v) = Some (WI64 (sf_int v)) ∧ - 2 ^ 63 ≤ sf_int v < 2 ^ 63.
Proof.
  intros Hi Hr. destruct v as [s| | |s m e]; try done. cbn [wasm_unary].
  assert (- 2 ^ 63 ≤ sf_int (S754_finite s m e) < 2 ^ 63) as Hb.
  { pose proof (sf_compare_part s m e (- 2 ^ 63)) as Hlo. pose proof (sf_compare_part s m e (2 ^ 63)) as Hhi. unfold sf_ge_int in Hr.
    destruct (sf_compare_int _ (- 2 ^ 63)) as [[| |]|]; try done; destruct (sf_compare_int _ (2 ^ 63)) as [[| |]|]; try done; lia. }
  split; [|exact Hb]. destruct (Z.leb_spec (- 2 ^ 63) (sf_int (S754_finite s m e))); [|lia]. destruct (Z.ltb_spec (sf_int (S754_finite s m e)) (2 ^ 63)); [done|lia].
Qed.

(** ** Operators *)

Lemma shift_count b : to_uint32 b mod 32 = b mod 32.
Proof. unfold to_uint32. rewrite <-Znumtheory.Zmod_div_mod; [done|lia|lia|]. by exists (2 ^ 27). Qed.

Lemma js_bits_exact op (f : Z → Z → Z) a b :
  (op, f) ∈ [(JsBitand, js_and); (JsBitor, js_or); (JsBitxor, λ a b, Z.lxor (to_int32 a) (to_int32 b)); (JsShl, js_shl); (JsShrS, js_shr); (JsShrU, js_shru)] →
  js_bits op a b = Some (f a b).
Proof.
  assert (0 ≤ b mod 32) by (apply Z.mod_pos_bound; lia).
  intros Hf. repeat (apply elem_of_cons in Hf as [[= -> ->]|Hf]; [cbn [js_bits]; rewrite ?shift_count; f_equal;
    unfold js_shl, js_shr, js_shru; rewrite ?Z.shiftl_mul_pow2, ?Z.shiftr_div_pow2 by done; done|]). by apply elem_of_nil in Hf.
Qed.

Lemma toI32_value c z : toI32 c = Some z → valid_const c → const_value c = Some (WI32 z) ∧ - 2 ^ 31 ≤ z < 2 ^ 31.
Proof. destruct c as [v| | | |[]| |]; intros [= <-] Hv; cbn in *; split; (done || lia). Qed.

Lemma numeric_operand c z : jsNumericConst c = Some z → ∃ w, const_value c = Some w ∧ js_operand w = Some z.
Proof. destruct c as [v| | |v|[]| |]; intros [= <-]; eexists; (split; [reflexivity|done]). Qed.

(** A folded constant is the value of the operation on the constants. *)
Definition folds (t : option IrType) (op : IrBinop) l r c : Prop :=
  ∃ a b v, const_value l = Some a ∧ const_value r = Some b ∧ wasm_binary (t ≫= type_val) op a b = Some v ∧ const_value c = Some v ∧ valid_const c.

Lemma f64Arith_folds t op l r c f : f64Arith l r f = Some c →
  (∀ a b, l = CF64 a → r = CF64 b → wasm_binary (t ≫= type_val) op (WF64 a) (WF64 b) = f64_result (f a b) ∧ f64_result (f a b) ≠ None) →
  folds t op l r c.
Proof.
  destruct l as [| | |a| | |], r as [| | |b| | |]; try done. intros [= <-] Hf. destruct (Hf a b eq_refl eq_refl) as [Hw Hd].
  exists (WF64 a), (WF64 b), (WF64 (f a b)). split_and!; [done|done| |done|done]. rewrite Hw. by destruct (f a b).
Qed.

Lemma f64Cmp_folds t op l r c f : f64Cmp l r f = Some c →
  (∀ a b, wasm_binary (t ≫= type_val) op (WF64 a) (WF64 b) = Some (b2w (f a b))) → folds t op l r c.
Proof. destruct l, r; try done. intros [= <-] Hf. eexists _, _, _. split_and!; [done|done|apply Hf|done|done]. Qed.

Lemma i32_folds t op l r c (g : Z → Z → IrConst) : valid_const l → valid_const r →
  match toI32 l, toI32 r with Some a, Some b => Some (g a b) | _, _ => None end = Some c →
  (∀ a b, toI32 l = Some a → toI32 r = Some b → - 2 ^ 31 ≤ a < 2 ^ 31 → - 2 ^ 31 ≤ b < 2 ^ 31 →
    valid_const (g a b) ∧ wasm_binary (t ≫= type_val) op (WI32 a) (WI32 b) = const_value (g a b) ∧ is_Some (const_value (g a b))) → folds t op l r c.
Proof.
  intros Hl Hr E Hf. destruct (toI32 l) as [a|] eqn:El; [|done]. destruct (toI32 r) as [b|] eqn:Er; [|done]. injection E as <-.
  destruct (toI32_value l a El Hl) as [Vl Ra]. destruct (toI32_value r b Er Hr) as [Vr Rb].
  destruct (Hf a b eq_refl eq_refl Ra Rb) as (Hv & Hw & [v Ev]). exists (WI32 a), (WI32 b), v. split_and!; [done|done|by rewrite Hw|done|done].
Qed.

Lemma jsBitwise_folds t op l r c f : jsBitwise type_val l r t f = Some c → (∀ a b, js_bits op a b = Some (f a b)) → folds t op l r c.
Proof.
  unfold jsBitwise. intros E Hf. destruct (jsNumericConst l) as [a|] eqn:El; [|done]. destruct (jsNumericConst r) as [b|] eqn:Er; [|done].
  destruct (numeric_operand l a El) as (u & Vl & Ou). destruct (numeric_operand r b Er) as (w & Vr & Ow).
  assert (∀ v, match t ≫= type_val with Some VF64 => Some (WF64 (number_of (f a b))) | Some VI32 => Some (WI32 (to_int32 (f a b))) | _ => None end = Some v →
    wasm_binary (t ≫= type_val) op u w = Some v) as Hw.
  { intros v Hv. specialize (Hf a b). destruct op; try done; cbn [wasm_binary]; rewrite Ou, Ow; cbn [mbind option_bind]; rewrite Hf; exact Hv. }
  unfold folds. destruct (t ≫= type_val) as [[]|]; try done; injection E as <-; eexists u, w, _; (split_and!; [done|done|by apply Hw|..]); try done.
  - cbn. by rewrite js_or_zero.
  - rewrite js_or_zero. apply to_int32_range.
Qed.

Ltac fold_cmp := match goal with H : _ = Some ?c |- folds _ _ _ _ ?c => eapply i32_folds; [done|done|exact H|]; intros a b _ _ Ha Hb; split; [done|]; split; [|by eexists]; cbn;
  rewrite ?js_or_zero, ?to_int32_small by lia; done end.

Theorem foldBinary_exact op l r t c : valid_const l → valid_const r → exact_fold op l r → foldBinary type_val op l r t = Some c → folds t op l r c.
Proof.
  intros Hl Hr [He Hd] Hf. destruct op; cbn [foldBinary] in Hf; try done;
    try (by eapply f64Arith_folds; [exact Hf|]; intros a b -> ->; split; [done|exact Hd]); try (by eapply f64Cmp_folds);
    try (eapply jsBitwise_folds; [exact Hf|]; intros a b; apply js_bits_exact; repeat (apply elem_of_cons; (left; reflexivity) || right)); try fold_cmp.
  - eapply i32_folds; [done|done|exact Hf|]. intros a b Ea Eb Ha Hb. split; [done|]. split; [|by eexists]. cbn in *. rewrite Ea, Eb in He.
    assert (a = 0 ∨ a = 1) as [-> | ->] by lia; assert (b = 0 ∨ b = 1) as [-> | ->] by lia; done.
  - eapply i32_folds; [done|done|exact Hf|]. intros a b Ea Eb Ha Hb. split; [done|]. split; [|by eexists]. cbn in *. rewrite Ea, Eb in He.
    assert (a = 0 ∨ a = 1) as [-> | ->] by lia; assert (b = 0 ∨ b = 1) as [-> | ->] by lia; done.
  - destruct l, r; try done. injection Hf as <-. eexists _, _, _. by split_and!.
  - eapply i32_folds; [done|done|exact Hf|]. intros a b _ _ Ha Hb. cbv beta. rewrite js_or_zero. split; [apply to_int32_range|]. split; [done|by eexists].
  - eapply i32_folds; [done|done|exact Hf|]. intros a b _ _ Ha Hb. cbv beta. rewrite js_or_zero. split; [apply to_int32_range|]. split; [done|by eexists].
  - eapply i32_folds; [done|done|exact Hf|]. intros a b Ea Eb Ha Hb. cbv beta. rewrite js_or_zero. split; [apply to_int32_range|]. split; [|by eexists].
    cbn in *. rewrite Ea, Eb in He. unfold js_mul. by rewrite sf_int_number.
  - destruct l as [|a| | | | |], r as [|b| | | | |]; try done. cbn in Hf. destruct (Z.eqb_spec b 0); [done|].
    destruct ((a =? _) && _) eqn:E; [done|]. injection Hf as <-. eexists _, _, _. split_and!; try done.
    + cbn. by destruct (Z.eqb_spec b 0).
    + cbn in *. pose proof (Z.rem_bound_abs a b ltac:(done)) as Hb. destruct (Z_le_gt_dec 0 a) as [Ha|Ha].
      * pose proof (Z.rem_nonneg a b ltac:(done) Ha). pose proof (Z.rem_le a (Z.abs b) Ha ltac:(lia)). rewrite Z.rem_abs_r in * by done. lia.
      * pose proof (Z.rem_nonpos a b ltac:(done) ltac:(lia)). lia.
Qed.

Theorem foldUnary_exact op o c : valid_const o → exact_unary op o → foldUnary op o = Some c →
  ∃ a v, const_value o = Some a ∧ wasm_unary op a = Some v ∧ const_value c = Some v ∧ valid_const c.
Proof.
  intros Ho Hd Hf. destruct op; cbn [foldUnary] in Hf; try done.
  - destruct o as [| | |v| | |]; try done. injection Hf as <-. exists (WF64 v), (WF64 (SFopp v)). split_and!; [done| |done|done]. by destruct v.
  - destruct (toI32 o) as [z|] eqn:E; [|done]. injection Hf as <-. destruct (toI32_value o z E Ho) as [Vo _]. eexists _, _. by split_and!.
  - destruct o as [| | |v| | |]; try done. injection Hf as <-. eexists _, _. split_and!; [done|apply trunc_sat_exact|done|apply trunc_sat_range].
  - destruct o as [| | |v| | |]; try done. destruct (sf_is_int v) eqn:Ei; [|done]. cbn [negb] in Hf. destruct (_ || _) eqn:Er in Hf; [done|]. injection Hf as <-.
    destruct (i64_trunc_exact v Ei Er) as [Hw Hv]. eexists _, _. split_and!; [done|exact Hw|done|exact Hv].
  - destruct o; try done. injection Hf as <-. eexists _, _. by split_and!.
Qed.
End exact.
