(* ===== verification/ConstFoldOk.v ===== *)
(** Constant folding keeps what a function does: in a function in SSA form, whose values
    are used where they are in scope, every call ends as it did at every bound, on every
    machine that computes the primitives as Wasm does. *)

From Stdlib Require Import SpecFloat.
From S2P Require Import Prelude WasmModel IrCfg IrDominance IrDomGraph IrNodes IrEffects IrSem IrSimOk AllocRegistry IrDead IrDeadOk IrDeadMain ConstFold.

(** * Known values *)

Section known.
Context `{IrTypes} (type_val : IrType → option ValType) (code : list IrInstr).

(** The constants that folding gives to a value, and the strings. *)
Inductive known : Z → IrConst → Prop :=
  | known_const b c x : Leaf b (IrInstrConst c) ∈ code → result_ b = Some x → known x c
  | known_binary b op lhs rhs l r c x : Leaf b (IrInstrBinary op lhs rhs) ∈ code → result_ b = Some x →
      known lhs l → known rhs r → foldBinary type_val op l r (resultType b) = Some c → known x c
  | known_unary b op rand o c x : Leaf b (IrInstrUnary op rand) ∈ code → result_ b = Some x →
      known rand o → foldUnary op o = Some c → known x c.

Inductive known_string : Z → jsstr → Prop :=
  | known_literal b v s m x : Leaf b (IrInstrStringConst v s m) ∈ code → result_ b = Some x → known_string x v
  | known_concat b lhs rhs e m p l r x : Leaf b (IrInstrStringConcat lhs rhs e m p) ∈ code → result_ b = Some x →
      known_string lhs l → known_string rhs r → known_string x (l ++ r).

(** One definition per value, constants in the range of their types, no product or
    logical operator that the tables compute otherwise than Wasm, and no operation on
    known constants that gives a NaN, whose sign the constants do not carry. *)
Record foldable : Prop := {
  fo_unique i j x : i ∈ code → j ∈ code → instr_result i = Some x → instr_result j = Some x → i = j;
  fo_valid b c : Leaf b (IrInstrConst c) ∈ code → valid_const c;
  fo_exact b op lhs rhs l r : Leaf b (IrInstrBinary op lhs rhs) ∈ code → known lhs l → known rhs r → exact_fold op l r;
  fo_unary b op rand o : Leaf b (IrInstrUnary op rand) ∈ code → known rand o → exact_unary op o }.

Lemma known_defined x c : known x c → ∃ b l, Leaf b l ∈ code ∧ result_ b = Some x.
Proof. intros []; by eexists _, _. Qed.

Lemma known_string_defined x s : known_string x s → ∃ b l, Leaf b l ∈ code ∧ result_ b = Some x.
Proof. intros []; by eexists _, _. Qed.

Lemma known_valid x c : foldable → known x c → valid_const c.
Proof.
  intros Hf. induction 1 as [b c x Hi|b op lhs rhs l r c x Hi _ Hl IHl Hr IHr E|b op rand o c x Hi _ Ho IH E]; [by eapply fo_valid| |].
  - destruct (foldBinary_exact type_val op l r (resultType b) c) as (_ & _ & _ & _ & _ & _ & _ & Hv); [done|done|by eapply fo_exact|done|done].
  - by destruct (foldUnary_exact op o c IH (fo_unary Hf _ _ _ _ Hi Ho) E) as (_ & _ & _ & _ & _ & Hv).
Qed.

(** * Scopes *)

Record scope_ok (scope : Scope) : Prop := {
  sc_const x c : jm_get (constDefs scope) x = Some c → known x c;
  sc_string x s : jm_get (stringDefs scope) x = Some s → known_string x s }.

Lemma set_const_ok i scope : scope_ok scope →
  (∀ b c x, i = Leaf b (IrInstrConst c) → result_ b = Some x → known x c) →
  (∀ b v s m x, i = Leaf b (IrInstrStringConst v s m) → result_ b = Some x → known_string x v) → scope_ok (set_const i scope).
Proof.
  intros [Hc Hs] Hi Hj. destruct i as [b l| | | | | | | |]; try done. destruct l; try done; cbn; (destruct (result_ b) as [r|] eqn:E; [|done]); split; cbn; intros x y; auto;
    rewrite jm_get_set; case_decide as Hd; auto; intros [= <-]; subst; eauto.
Qed.

Lemma see_const_ok i scope : i ∈ code → scope_ok scope → scope_ok (see_const i scope).
Proof.
  intros Hi Ho. assert (scope_ok (set_const i scope)) as Hs by (apply set_const_ok; [done|intros b c x ->; by apply known_const|intros b v s m x ->; by eapply known_literal]).
  destruct i as [b l| | | | | | | |]; try done. destruct l; try done; cbn in *; (destruct (result_ b); [|done]); by destruct (jm_has _ _).
Qed.

(** What an instruction is rewritten to: a leaf with the same result that is known. *)
Lemma rewritten_known i scope r : i ∈ code → scope_ok scope → tryFoldInstr type_val i scope = Some r →
  (∃ b b' op lhs rhs x y c, i = Leaf b (IrInstrBinary op lhs rhs) ∧ r = Leaf b' (IrInstrConst c) ∧ b' = folded_base b ∧
     known lhs x ∧ known rhs y ∧ foldBinary type_val op x y (resultType b) = Some c) ∨
  (∃ b b' op rand x c, i = Leaf b (IrInstrUnary op rand) ∧ r = Leaf b' (IrInstrConst c) ∧ b' = folded_base b ∧ known rand x ∧ foldUnary op x = Some c) ∨
  (∃ b lhs rhs e m p x y, i = Leaf b (IrInstrStringConcat lhs rhs e m p) ∧ r = Leaf b (IrInstrStringConst (x ++ y) None None) ∧ known_string lhs x ∧ known_string rhs y).
Proof.
  intros Hi [Hc Hs] E. destruct i as [b l| | | | | | | |]; try done. destruct l; try done; cbn in E.
  - unfold tryFoldBinary in E. destruct (jm_get _ lhs) as [x|] eqn:El; [|done]. destruct (jm_get _ rhs) as [y|] eqn:Er; [|done].
    apply fmap_Some in E as (c & E & ->). left. eexists b, _, op, lhs, rhs, x, y, c. split_and!; auto.
  - unfold tryFoldUnary in E. destruct (jm_get _ rand) as [x|] eqn:El; [|done]. apply fmap_Some in E as (c & E & ->).
    right. left. eexists b, _, op, rand, x, c. split_and!; auto.
  - unfold tryFoldStringConcat in E. destruct (jm_get _ lhs) as [x|] eqn:El; [|done]. destruct (jm_get _ rhs) as [y|] eqn:Er; [|done].
    injection E as <-. right. right. eexists b, lhs, rhs, _, _, _, x, y. split_and!; auto.
Qed.

Lemma scope_after_ok i scope : i ∈ code → scope_ok scope → scope_ok (scope_after type_val i scope).
Proof.
  intros Hi Ho. apply (see_const_ok i) in Ho; [|done]. unfold scope_after. destruct (tryFoldInstr type_val i (see_const i scope)) as [r|] eqn:E; [|done].
  destruct (rewritten_known i _ r Hi Ho E) as [(b & b' & op & lhs & rhs & x & y & c & -> & -> & -> & Hl & Hr & Ef)|
    [(b & b' & op & rand & x & c & -> & -> & -> & Hx & Ef)|(b & lhs & rhs & e & m & p & x & y & -> & -> & Hl & Hr)]]; apply set_const_ok; try done.
  - intros ? ? v [= <- <-] Hv. by eapply known_binary.
  - intros ? ? v [= <- <-] Hv. by eapply known_unary.
  - intros ? ? ? ? v [= <- <- <- <-] Hv. by eapply known_concat.
Qed.

Lemma scope_behind_ok l scope : (∀ x, x ∈ l → x ∈ code) → scope_ok scope → scope_ok (scope_behind type_val l scope).
Proof.
  revert scope. induction l as [|x l IH]; intros scope Hl Ho; [done|]. apply IH; [intros; apply Hl; by right|]. apply scope_after_ok; [apply Hl; left|done].
Qed.

Lemma seed_ok l : (∀ x, x ∈ l → x ∈ code) → scope_ok (foldl (λ s i, set_const i s) (mkScope [] []) l).
Proof.
  assert (∀ scope, scope_ok scope → (∀ x, x ∈ l → x ∈ code) → scope_ok (foldl (λ s i, set_const i s) scope l)) as Hall.
  { induction l as [|x l IH]; intros scope Ho Hl; [done|]. apply IH; [|intros; apply Hl; by right].
    assert (x ∈ code) by (apply Hl; left). apply set_const_ok; [done|intros b c v ->; by apply known_const|intros b v s m u ->; by eapply known_literal]. }
  intros Hl. by apply Hall.
Qed.
End known.

(** * The rewriting as a recursion *)

Section folded.
Context `{IrTypes} (type_val : IrType → option ValType).
Implicit Types (scope : Scope) (l : list IrInstr).

Definition folded scope (i : IrInstr) : IrInstr := default i (foldInstr type_val scope i).
Definition folded_buffer scope l : list IrInstr := default l (foldBuffer type_val l scope).

Lemma fold_loop_cons x l scope : fold_loop type_val (x :: l) scope =
  match foldInstr type_val scope x with
  | None => ((fold_loop type_val l (scope_after type_val x scope)).1, x :: (fold_loop type_val l (scope_after type_val x scope)).2)
  | Some r => (true, r :: (fold_loop type_val l (scope_after type_val x scope)).2)
  end.
Proof.
  change (fold_loop type_val (x :: l) scope) with
    (let '(changed, out) := fold_loop type_val l (scope_after type_val x scope) in
     match foldInstr type_val scope x with None => (changed, x :: out) | Some folded => (true, folded :: out) end).
  by destruct (fold_loop _ l _).
Qed.

Lemma fold_loop_same l scope : (fold_loop type_val l scope).1 = false → (fold_loop type_val l scope).2 = l.
Proof.
  revert scope. induction l as [|x l IH]; intros scope; [done|]. rewrite fold_loop_cons. destruct (foldInstr _ _ _); [done|]. intros E. cbn in *. by rewrite IH.
Qed.

Lemma folded_buffer_eq l scope : folded_buffer scope l = (fold_loop type_val l scope).2.
Proof.
  unfold folded_buffer, foldBuffer. pose proof (fold_loop_same l scope) as Hs. destruct (fold_loop type_val l scope) as [[] out]; [done|]. symmetry. by apply Hs.
Qed.

Lemma folded_nil scope : folded_buffer scope [] = [].
Proof. done. Qed.

Lemma folded_cons x l scope : folded_buffer scope (x :: l) = folded scope x :: folded_buffer (scope_after type_val x scope) l.
Proof. rewrite !folded_buffer_eq, fold_loop_cons. unfold folded. by destruct (foldInstr _ _ _). Qed.

Lemma folded_eq scope i : folded scope i =
  match tryFoldInstr type_val i (see_const i scope) with
  | Some r => r
  | None => map_buffers (folded_buffer (scope_after type_val i scope)) i
  end.
Proof.
  assert (foldInstr type_val scope i = match tryFoldInstr type_val i (see_const i scope) with
    | Some r => Some r | None => mapNestedBuffers (λ buffer, foldBuffer type_val buffer (scope_after type_val i scope)) i end) as E by (by destruct i).
  unfold folded. rewrite E. destruct (tryFoldInstr _ _ _); [done|]. cbn [default]. apply mapNestedBuffers_default.
Qed.
End folded.

(** * The machine *)

(** A machine whose constants are the values of Wasm, and that computes the primitives
    as Wasm does; strings are told by their units. *)
Class FoldMachine {V W : Type} `{M : IrMachine V W} (type_val : IrType → option ValType) := {
  const_val : IrConst → V;
  string_val : jsstr → V;
  const_step t c w : leaf_step t (IrInstrConst c) [] w = LNext (const_val c) w;
  binary_step t op lhs rhs l r a b v c w : const_value l = Some a → const_value r = Some b →
    wasm_binary (t ≫= type_val) op a b = Some v → const_value c = Some v →
    leaf_step t (IrInstrBinary op lhs rhs) [const_val l; const_val r] w = LNext (const_val c) w;
  unary_step t op rand o a v c w : const_value o = Some a → wasm_unary op a = Some v → const_value c = Some v →
    leaf_step t (IrInstrUnary op rand) [const_val o] w = LNext (const_val c) w;
  string_step t v s m w : leaf_step t (IrInstrStringConst v s m) [] w = LNext (string_val v) w;
  concat_step t lhs rhs e m p l r w : leaf_step t (IrInstrStringConcat lhs rhs e m p) [string_val l; string_val r] w = LNext (string_val (l ++ r)) w;
  truthy_const c b : isConstTruthy c = Some b → truthy (const_val c) = b }.

(** * Scoped code *)

Section scoped.
Context `{IrTypes}.

Definition with_result (r : option Z) (D : Z → Prop) : Z → Prop := λ x, D x ∨ r = Some x.

(** Each instruction of a buffer, with what it defines. *)
Fixpoint scoped_list (D : Z → Prop) (l : list (option Z * ((Z → Prop) → Prop))) : Prop :=
  match l with [] => True | (r, p) :: l' => p D ∧ scoped_list (with_result r D) l' end.

(** The values that an instruction without buffers reads are in [D], and so on inside
    the buffers of the others; what a buffer defines is seen in that buffer only. *)
Definition scoped_item : IrInstr → option Z * ((Z → Prop) → Prop) :=
  instr_fold (λ i inside, (instr_result i, λ D, match i with Leaf _ l => Forall D (leaf_uses l) | _ => Forall (scoped_list D) inside end)).

Definition scoped (D : Z → Prop) (i : IrInstr) : Prop := (scoped_item i).2 D.
Definition scoped_buffer (D : Z → Prop) (l : list IrInstr) : Prop := scoped_list D (scoped_item <$> l).

Lemma scoped_item_result i : (scoped_item i).1 = instr_result i.
Proof. unfold scoped_item. by rewrite instr_fold_unfold. Qed.

Lemma scoped_buffer_cons D x l : scoped_buffer D (x :: l) ↔ scoped D x ∧ scoped_buffer (with_result (instr_result x) D) l.
Proof. unfold scoped_buffer, scoped. csimpl. rewrite <-scoped_item_result. by destruct (scoped_item x). Qed.

Lemma scoped_leaf D b l : scoped D (Leaf b l) ↔ Forall D (leaf_uses l).
Proof. done. Qed.

Lemma scoped_node D i : (∀ b l, i ≠ Leaf b l) → scoped D i → ∀ l, l ∈ nested_buffers i → scoped_buffer D l.
Proof.
  intros Hn Hs. unfold scoped, scoped_item in Hs. rewrite instr_fold_unfold in Hs. fold scoped_item in Hs. cbn [snd] in Hs.
  assert (Forall (scoped_list D) (map scoped_item <$> nested_buffers i)) as Hf by (destruct i; [by destruct (Hn b leaf)|exact Hs..]).
  intros l Hl. rewrite Forall_fmap, list.Forall_forall in Hf. by apply Hf.
Qed.

Lemma with_result_mono r (D D' : Z → Prop) : (∀ x, D x → D' x) → ∀ x, with_result r D x → with_result r D' x.
Proof. intros Hd x [Hx|Hx]; [left; auto|by right]. Qed.

Lemma scoped_buffer_mono_of D D' l : (∀ x, x ∈ l → ∀ D D' : Z → Prop, (∀ y, D y → D' y) → scoped D x → scoped D' x) →
  (∀ x, D x → D' x) → scoped_buffer D l → scoped_buffer D' l.
Proof.
  revert D D'. induction l as [|x l IH]; intros D D' Hl Hd; [done|]. rewrite !scoped_buffer_cons. intros [Hx Hs].
  split; [by apply (Hl x ltac:(left) D)|]. eapply IH; [intros y Hy; apply Hl; by right| |exact Hs]. by apply with_result_mono.
Qed.

Lemma scoped_mono i : ∀ D D' : Z → Prop, (∀ y, D y → D' y) → scoped D i → scoped D' i.
Proof.
  induction i as [i IH] using instr_ind'. intros D D' Hd Hs.
  assert ((∃ b l, i = Leaf b l) ∨ ∀ b l, i ≠ Leaf b l) as [(b & l & ->)|Hn] by (destruct i; [left; by eexists _, _|by right..]).
  - rewrite scoped_leaf in *. eapply Forall_impl; [exact Hs|done].
  - pose proof (scoped_node D i Hn Hs) as Hb. unfold scoped, scoped_item. rewrite instr_fold_unfold. fold scoped_item. cbn [snd].
    assert (Forall (scoped_list D') (map scoped_item <$> nested_buffers i)) as Hf; [|destruct i; [by destruct (Hn b leaf)|exact Hf..]].
    rewrite Forall_fmap. apply list.Forall_forall. intros l Hl. rewrite list.Forall_forall in IH. specialize (IH l Hl). rewrite list.Forall_forall in IH.
    apply (scoped_buffer_mono_of D D' l); auto.
Qed.

Lemma scoped_buffer_mono (D D' : Z → Prop) l : (∀ x, D x → D' x) → scoped_buffer D l → scoped_buffer D' l.
Proof. apply scoped_buffer_mono_of. intros x _. apply scoped_mono. Qed.
End scoped.

Section exec.
Context {V W : Type} `{M : IrMachine V W} {type_val : IrType → option ValType} {Fold : FoldMachine type_val} (code : list IrInstr) (Hcode : foldable type_val code).
Abbreviation state := ((Z → V) * W)%type.
Abbreviation known := (known type_val code).
Abbreviation known_string := (known_string code).
Implicit Types (D : Z → Prop) (ρ : Z → V) (st : state).

(** The values in [D] that are known hold what is known. *)
Definition sound D ρ : Prop :=
  (∀ x c, D x → known x c → ρ x = const_val c) ∧ (∀ x s, D x → known_string x s → ρ x = string_val s).

Lemma sound_weaken D D' ρ : (∀ x, D' x → D x) → sound D ρ → sound D' ρ.
Proof. intros Hd [Hc Hs]. split; auto. Qed.

Lemma sound_with D r ρ : sound (with_result r D) ρ → sound D ρ.
Proof. apply sound_weaken. by left. Qed.

(** The result of an instruction that nothing is known of. *)
Lemma sound_other D i ρ : i ∈ code → (∀ b l x c, i = Leaf b l → result_ b = Some x → ¬ known x c) → (∀ b l x s, i = Leaf b l → result_ b = Some x → ¬ known_string x s) →
  sound D ρ → sound (with_result (instr_result i) D) ρ.
Proof.
  intros Hi Hk Hs [Sc Ss]. split; intros x y [Hx|Hx] Hy; auto; exfalso.
  - destruct (known_defined _ _ _ _ Hy) as (b & l & Hin & Hr). assert (i = Leaf b l) as Hil by (eapply fo_unique; [exact Hcode|done|done|exact Hx|done]).
    by apply (Hk b l x y).
  - destruct (known_string_defined _ _ _ Hy) as (b & l & Hin & Hr). assert (i = Leaf b l) as Hil by (eapply fo_unique; [exact Hcode|done|done|exact Hx|done]).
    by apply (Hs b l x y).
Qed.

(** Binding a result keeps what is sound, when the value is the known one. *)
Lemma sound_bind D r v ρ : sound D ρ → (∀ x c, r = Some x → known x c → v = const_val c) → (∀ x s, r = Some x → known_string x s → v = string_val s) →
  sound (with_result r D) (bind_result r v ρ).
Proof.
  intros [Sc Ss] Hc Hs. destruct r as [y|]; cbn; [|split; intros x z [?|[=]]; auto].
  split; intros x z Hx Hz; case_decide as E; [subst; eauto| |subst; eauto|]; (destruct Hx as [Hx|[= ->]]; [auto|done]).
Qed.

(** Ends of an instruction that keep what is sound. *)
Definition keeps D D' (o : outcome V W) : Prop :=
  match o with ONext st => sound D' st.1 | OBranch _ _ st | OThrow _ st => sound D st.1 | OStop _ => True end.

Definition turn_keeps D (t : turn V W) : Prop := match t with Again st => sound D st.1 | Exit o => keeps D D o end.

(** The same outcome, and it keeps what is sound. *)
Definition same_end D (o' o : outcome V W) : Prop := o' = o ∧ keeps D D o.
Definition same_turn D (t' t : turn V W) : Prop := t' = t ∧ turn_keeps D t.

Definition same_buffer D n (l' l : list IrInstr) : Prop := ∀ st, sound D st.1 → same_end D (exec_buffer n l' st) (exec_buffer n l st).

Section combine.
Context (D : Z → Prop).

Lemma then_run_same f' f o' o : same_end D o' o → (∀ st, sound D st.1 → same_end D (f' st) (f st)) → same_end D (then_run f' o') (then_run f o).
Proof. intros [-> Hk] Hf. destruct o; try by split. by apply Hf. Qed.

Lemma after_body_same l o' o : same_end D o' o → same_turn D (after_body l o') (after_body l o).
Proof. intros [-> Hk]. split; [done|]. destruct o as [|? m| |]; try done. cbn. destruct (own_label _ _); [|done]. by destruct m. Qed.

Lemma as_turn_same o' o : same_end D o' o → same_turn D (as_turn o') (as_turn o).
Proof. intros [-> Hk]. split; [done|]. by destruct o. Qed.

Lemma then_again_same f' f t' t : same_turn D t' t → (∀ st, sound D st.1 → same_turn D (f' st) (f st)) → same_turn D (then_again f' t') (then_again f t).
Proof. intros [-> Hk] Hf. destruct t; [by apply Hf|by split]. Qed.

Lemma test_cond_same cv f' f o' o : same_end D o' o → (∀ st, sound D st.1 → same_turn D (f' st) (f st)) → same_turn D (test_cond cv f' o') (test_cond cv f o).
Proof. intros [-> Hk] Hf. destruct o; try by split. cbn. destruct (truthy _); [by apply Hf|by split]. Qed.

Lemma on_iter_same f' f g ρ r : sound D ρ → (∀ st, sound D st.1 → same_turn D (f' st) (f st)) → (∀ st, sound D st.1 → turn_keeps D (g st)) →
  same_turn D (on_iter f' g ρ r) (on_iter f g ρ r).
Proof. intros Hs Hf Hg. destruct r; cbn; [by apply Hf|split; [done|by apply Hg]|by split|by split]. Qed.

Lemma iterate_same round' round n st : (∀ st, sound D st.1 → same_turn D (round' st) (round st)) → sound D st.1 →
  same_end D (iterate round' n st) (iterate round n st).
Proof.
  intros Hr. revert st. induction n as [|n IH]; intros st Hs; [by split|]. cbn. destruct (Hr st Hs) as [-> Hk]. destruct (round st); [by apply IH|by split].
Qed.

Lemma turn_outcome_same t' t : same_turn D t' t → same_end D (turn_outcome t') (turn_outcome t).
Proof. intros [-> Hk]. split; [done|]. by destruct t. Qed.

Lemma leave_iter_keeps h st : sound D st.1 → keeps D D (leave_iter h st).
Proof. intros Hs. unfold leave_iter. by destruct (iter_exit h st.2). Qed.

Lemma closing_same h o' o : same_end D o' o → same_end D (closing h o') (closing h o).
Proof.
  intros [-> Hk]. split; [done|]. destruct o as [st|? ? st| |]; try done; cbn in *.
  - by apply leave_iter_keeps.
  - pose proof (leave_iter_keeps h st Hk) as Hl. by destruct (leave_iter h st).
Qed.

Lemma catching_same s f' f o' o : same_end D o' o → (∀ st, sound D st.1 → same_end D (f' st) (f st)) → same_end D (catching (Some (s, f')) o') (catching (Some (s, f)) o).
Proof. intros [-> Hk] Hf. destruct o as [| |v [ρ w]|]; try by split. cbn. by apply Hf. Qed.

Lemma finalizing_same f' f o' o : same_end D o' o → (∀ st, sound D st.1 → same_end D (f' st) (f st)) → same_end D (finalizing (Some f') o') (finalizing (Some f) o).
Proof.
  intros [-> Hk] Hf. destruct o as [st|lb m st|v st|]; cbn in *; [by apply Hf| | |by split];
    destruct (Hf st Hk) as [-> Hk']; (split; [done|]); by destruct (f st).
Qed.

Lemma framed_same label o' o : same_end D o' o → same_end D (framed label o') (framed label o).
Proof. intros [-> Hk]. split; [done|]. destruct o as [|? [] ?| |]; try done. cbn. by case_decide. Qed.

Lemma clauses_same n ls' ls k st : Forall2 (same_buffer D n) ls' ls → sound D st.1 → same_end D (exec_clauses n ls' k st) (exec_clauses n ls k st).
Proof.
  intros Hl. revert k st. induction Hl as [|l' l ls' ls H1 _ IH]; intros k st Hs; [by split|]. cbn. destruct k as [|k]; [|by apply IH].
  apply then_run_same; [by apply H1|]. intros st' Hs'. by apply IH.
Qed.
End combine.

(** * Instructions *)

Definition same_instr D n (i' i : IrInstr) : Prop := ∀ st, sound D st.1 →
  exec n i' st = exec n i st ∧ keeps D (with_result (instr_result i) D) (exec n i st).

(** Nothing is known of the result of an instruction with buffers. *)
Lemma sound_node D i ρ : i ∈ code → (∀ b l, i ≠ Leaf b l) → sound D ρ → sound (with_result (instr_result i) D) ρ.
Proof. intros Hi Hn. apply sound_other; [done|intros b l x c E; by destruct (Hn b l)|intros b l x s E; by destruct (Hn b l)]. Qed.

Lemma keeps_node D i o : i ∈ code → (∀ b l, i ≠ Leaf b l) → keeps D D o → keeps D (with_result (instr_result i) D) o.
Proof. intros Hi Hn. destruct o; try done. cbn. by apply sound_node. Qed.

Lemma plain_node D n i i' : i ∈ code → (∀ b l, i ≠ Leaf b l) →
  (∀ st, sound D st.1 → same_end D (exec n i' st) (exec n i st)) → same_instr D n i' i.
Proof. intros Hi Hn Hs st Hst. destruct (Hs st Hst) as [E Hk]. split; [done|]. by apply keeps_node. Qed.

Lemma same_buffers_of D n (f : list IrInstr → list IrInstr) i : (∀ l, l ∈ nested_buffers i → same_buffer D n (f l) l) →
  Forall (λ l, same_buffer D n (f l) l) (nested_buffers i).
Proof. intros Hl. by apply list.Forall_forall. Qed.

Lemma if_same D n b c t tv e ev f : IrInstrIf b c t tv e ev ∈ code → same_buffer D n (f t) t → same_buffer D n (f e) e →
  same_instr D n (map_buffers f (IrInstrIf b c t tv e ev)) (IrInstrIf b c t tv e ev).
Proof.
  intros Hi Ht He st Hst. cbn [map_buffers]. rewrite !exec_unfold. cbn [exec_node].
  assert (∀ v o' o, same_end D o' o → let finish := then_run (λ st', ONext (bind_result (result_ b) (st'.1 v) st.1, st'.2)) in
    finish o' = finish o ∧ keeps D (with_result (result_ b) D) (finish o)) as Hfin.
  { intros v o' o [-> Hk]. split; [done|]. destruct o; try done. cbn. apply sound_bind; [done| |]; intros x y Hx Hy; exfalso.
    - destruct (known_defined _ _ _ _ Hy) as (b' & l & Hin & Hr). by pose proof (fo_unique _ _ Hcode _ _ x Hi Hin Hx Hr).
    - destruct (known_string_defined _ _ _ Hy) as (b' & l & Hin & Hr). by pose proof (fo_unique _ _ Hcode _ _ x Hi Hin Hx Hr). }
  destruct (truthy (st.1 c)); apply Hfin; [by apply Ht|by apply He].
Qed.

Lemma node_same D n f i : i ∈ code → (∀ b l, i ≠ Leaf b l) → (∀ l, l ∈ nested_buffers i → same_buffer D n (f l) l) → same_instr D n (map_buffers f i) i.
Proof.
  intros Hi Hn Hf%same_buffers_of. destruct i as [b l|b c t tv e ev|b h body l|b cond cv body p l|b cond cv body update l|b body c fin|b c t e|b lb body|b d s ts bodies l];
    cbn [nested_buffers] in Hf; rewrite ?Forall_cons in Hf.
  1: by destruct (Hn b l eq_refl).
  1: apply if_same; [done|apply Hf|apply Hf].
  all: apply plain_node; [done|done|]; intros st Hst; cbn [map_buffers]; rewrite !exec_unfold; cbn [exec_node].
  - destruct Hf as [Hb _]. apply turn_outcome_same. apply on_iter_same; [done| |done]. intros st' Hs'.
    assert (same_end D (closing h (iterate (λ st', on_iter (λ st'', after_body l (exec_buffer n (f body) st'')) (λ st'', Exit (ONext st'')) st'.1 (iter_next h st'.2)) n st'))
      (closing h (iterate (λ st', on_iter (λ st'', after_body l (exec_buffer n body st'')) (λ st'', Exit (ONext st'')) st'.1 (iter_next h st'.2)) n st'))) as [-> Hk]; [|by split].
    apply closing_same, iterate_same; [|done]. intros st2 Hs2. apply on_iter_same; [done| |done]. intros st3 Hs3. by apply after_body_same, Hb.
  - destruct Hf as (Hc & Hb & _). apply iterate_same; [|done]. intros st' Hs'. destruct p.
    + apply then_again_same; [by apply after_body_same, Hb|]. intros st2 Hs2. apply test_cond_same; [by apply Hc|]. by intros.
    + apply test_cond_same; [by apply Hc|]. intros st2 Hs2. by apply after_body_same, Hb.
  - destruct Hf as (Hc & Hb & Hu & _). apply iterate_same; [|done]. intros st' Hs'. apply test_cond_same; [by apply Hc|].
    intros st2 Hs2. apply then_again_same; [by apply after_body_same, Hb|]. intros st3 Hs3. by apply as_turn_same, Hu.
  - destruct Hf as [Hb Hf]. apply Forall_app in Hf as [Hcatch Hfin].
    assert (same_end D (catching (prod_map id (exec_buffer n) <$> (prod_map id f <$> c)) (exec_buffer n (f body) st)) (catching (prod_map id (exec_buffer n) <$> c) (exec_buffer n body st))) as Hend.
    { destruct c as [[s l]|]; cbn in *; [|by apply Hb]. inversion_clear Hcatch as [|? ? Hl _]. apply catching_same; [by apply Hb|]. intros st' Hs'. by apply Hl. }
    destruct fin as [l|]; cbn in *; [|done]. inversion_clear Hfin as [|? ? Hl _]. apply finalizing_same; [done|]. intros st' Hs'. by apply Hl.
  - destruct Hf as (Ht & He & _). destruct (truthy (st.1 c)); [by apply Ht|by apply He].
  - destruct Hf as [Hb _]. by apply framed_same, Hb.
  - destruct (select_clause (st.1 d) ts) as [k|]; [|by split]. apply framed_same, clauses_same; [|done]. by apply Forall2_fmap_l, Forall_Forall2_diag.
Qed.

(** ** Instructions without buffers *)

(** What such an instruction binds is what is known of its result. *)
Lemma leaf_keeps D b l w ρ : Leaf b l ∈ code → Forall D (leaf_uses l) → sound D ρ →
  keeps D (with_result (result_ b) D) (exec_leaf b l (ρ, w)).
Proof.
  intros Hi Hu Hs.
  assert (∀ v w', (∀ x c, result_ b = Some x → known x c → v = const_val c) → (∀ x s, result_ b = Some x → known_string x s → v = string_val s) →
    keeps D (with_result (result_ b) D) (ONext (bind_result (result_ b) v ρ, w'))) as Hbind by (intros; by apply sound_bind).
  assert (∀ x b' l', result_ b = Some x → Leaf b' l' ∈ code → result_ b' = Some x → b' = b ∧ l' = l) as Huniq.
  { intros x b' l' Hx Hin Hr. by injection (fo_unique _ _ Hcode _ _ x Hin Hi Hr Hx). }
  destruct Hs as [Sc Ss]. rewrite list.Forall_forall in Hu.
  assert (∀ v w', leaf_step (resultType b) l (ρ <$> leaf_uses l) w = LNext v w' → keeps D (with_result (result_ b) D) (ONext (bind_result (result_ b) v ρ, w'))) as Hstep.
  { intros v w' E. apply Hbind.
    - intros x c Hx Hk. destruct Hk as [b' c x Hin Hr|b' op lhs rhs xl xr c x Hin Hr Hl Hr' Ef|b' op rand o c x Hin Hr Ho Ef]; destruct (Huniq x b' _ Hx Hin Hr) as [-> <-]; cbn in E.
      + rewrite const_step in E. by injection E.
      + destruct (foldBinary_exact type_val op xl xr (resultType b) c) as (va & vb & v' & E1 & E2 & E3 & E4 & _);
          [by eapply known_valid|by eapply known_valid|by eapply fo_exact|done|].
        rewrite (Sc lhs xl), (Sc rhs xr) in E by (done || apply Hu; cbn; set_solver). by erewrite binary_step in E; [injection E|done..].
      + destruct (foldUnary_exact op o c) as (va & v' & E1 & E2 & E3 & _); [by eapply known_valid|by eapply fo_unary|done|].
        rewrite (Sc rand o) in E by (done || apply Hu; left). by erewrite unary_step in E; [injection E|done..].
    - intros x s Hx Hk. destruct Hk as [b' v' s m x Hin Hr|b' lhs rhs e m p xl xr x Hin Hr Hl Hr']; destruct (Huniq x b' _ Hx Hin Hr) as [-> <-]; cbn in E.
      + rewrite string_step in E. by injection E.
      + rewrite (Ss lhs xl), (Ss rhs xr) in E by (done || apply Hu; cbn; set_solver). rewrite concat_step in E. by injection E. }
  assert (∀ o, match leaf_step (resultType b) l (ρ <$> leaf_uses l) w with LNext v w' => ONext (bind_result (result_ b) v ρ, w') | LThrow v w' => OThrow v (ρ, w') | LStop e => OStop e end = o →
    keeps D (with_result (result_ b) D) o) as Hall.
  { intros o <-. destruct (leaf_step _ _ _ _) as [v w'| |] eqn:E; [by apply Hstep|by split|done]. }
  destruct l; try (by eapply Hall); cbn [exec_leaf].
  - apply Hbind; intros x c Hx Hk; exfalso; destruct Hk; by destruct (Huniq x _ _ Hx ltac:(eassumption) ltac:(eassumption)).
  - apply sound_other with (i := Leaf b (IrInstrSlotWrite slotIndex value)); [done| | |by split];
      intros b' l' x c [= <- <-] Hx Hk; destruct Hk; by destruct (Huniq x _ _ Hx ltac:(eassumption) ltac:(eassumption)).
  - done.
  - done.
  - done.
Qed.

(** A rewritten instruction does the same. *)
Lemma rewritten_same D n scope i r : i ∈ code → scope_ok type_val code scope → scoped D i → tryFoldInstr type_val i scope = Some r → same_instr D n r i.
Proof.
  intros Hi Ho Hd E [ρ w] Hst. cbn [fst] in Hst. pose proof Hst as [Sc Ss].
  destruct (rewritten_known type_val code i scope r Hi Ho E) as [(b & b' & op & lhs & rhs & x & y & c & -> & -> & -> & Hl & Hr & Ef)|
    [(b & b' & op & rand & x & c & -> & -> & -> & Hx & Ef)|(b & lhs & rhs & e & m & p & x & y & -> & -> & Hl & Hr)]];
    rewrite scoped_leaf in Hd; pose proof (leaf_keeps D b _ w ρ Hi Hd Hst) as Hk; rewrite list.Forall_forall in Hd; (split; [|exact Hk]);
    clear Hk; rewrite !exec_unfold; cbn [exec_node exec_leaf folded_base result_ resultType leaf_uses fmap list_fmap] in *.
  - destruct (foldBinary_exact type_val op x y (resultType b) c) as (va & vb & v & E1 & E2 & E3 & E4 & _); [by eapply known_valid|by eapply known_valid|by eapply fo_exact|done|].
    rewrite (Sc lhs x), (Sc rhs y) by (done || apply Hd; set_solver). rewrite const_step. by erewrite binary_step.
  - destruct (foldUnary_exact op x c) as (va & v & E1 & E2 & E3 & _); [by eapply known_valid|by eapply fo_unary|done|].
    rewrite (Sc rand x) by (done || apply Hd; left). rewrite const_step. by erewrite unary_step.
  - rewrite (Ss lhs x), (Ss rhs y) by (done || apply Hd; set_solver). by rewrite string_step, concat_step.
Qed.

(** ** All of them *)

Lemma buffer_same D n scope l : (∀ x, x ∈ l → ∀ D scope, scope_ok type_val code scope → scoped D x → same_instr D n (folded type_val scope x) x) →
  (∀ x, x ∈ l → x ∈ code) → scope_ok type_val code scope → scoped_buffer D l →
  ∀ st, sound D st.1 → exec_buffer n (folded_buffer type_val scope l) st = exec_buffer n l st ∧
    keeps D (λ x, D x ∨ ∃ i, i ∈ l ∧ instr_result i = Some x) (exec_buffer n l st).
Proof.
  revert D scope. induction l as [|x l IH]; intros D scope Hl Hc Ho Hs st Hst.
  - split; [done|]. cbn. eapply sound_weaken; [|exact Hst]. intros y [|(i & Hi & _)]; [done|by apply elem_of_nil in Hi].
  - rewrite folded_cons. apply scoped_buffer_cons in Hs as [Hx Hs]. destruct (Hl x ltac:(left) D scope Ho Hx st Hst) as [E Hk]. cbn [exec_buffer]. rewrite E.
    destruct (exec n x st) as [st'| | |] eqn:Es; try by split. cbn in Hk |- *.
    assert (scope_ok type_val code (scope_after type_val x scope)) as Ho' by (apply scope_after_ok; [apply Hc; left|done]).
    destruct (IH (with_result (instr_result x) D) (scope_after type_val x scope)) with (st := st') as [E' Hk'];
      [intros y Hy; apply Hl; by right|intros y Hy; apply Hc; by right|done|done|done|]. split; [exact E'|].
    destruct (exec_buffer n l st'); try done; cbn in Hk' |- *; [|by eapply sound_with..].
    eapply sound_weaken; [|exact Hk']. intros y [Hy|(i & [->|Hi]%elem_of_cons & Hr)]; [by left; left|by left; right|by right; exists i].
Qed.

Theorem folded_same n i : (∀ x, x ∈ instrs_deep i → x ∈ code) → ∀ D scope, scope_ok type_val code scope → scoped D i → same_instr D n (folded type_val scope i) i.
Proof.
  induction i as [i IH] using instr_ind'. intros Hc D scope Ho Hs. assert (i ∈ code) as Hi by (apply Hc; rewrite instrs_deep_unfold; left).
  rewrite folded_eq. destruct (tryFoldInstr type_val i (see_const i scope)) as [r|] eqn:E; [eapply rewritten_same; [done|by apply see_const_ok|done|done]|].
  assert ((∃ b l, i = Leaf b l) ∨ ¬ ∃ b l, i = Leaf b l) as [(b & l & ->)|Hn] by (destruct i; [left; by eexists _, _|right; by intros (? & ? & ?)..]).
  - intros [ρ w] Hst. split; [done|]. rewrite exec_unfold. by apply leaf_keeps.
  - apply node_same; [done|intros b l ->; apply Hn; by eexists _, _|]. intros l Hl st Hst.
    assert (∀ x, x ∈ l → ∀ y, y ∈ instrs_deep x → y ∈ code) as Hdeep.
    { intros x Hx y Hy. apply Hc. rewrite instrs_deep_unfold. right. apply list_elem_of_bind. exists l. split; [|done]. apply list_elem_of_bind. by exists x. }
    rewrite list.Forall_forall in IH. specialize (IH l Hl). rewrite list.Forall_forall in IH.
    destruct (buffer_same D n (scope_after type_val i scope) l) with (st := st) as [E' Hk]; [|..|done|].
    + intros x Hx D' scope' Ho' Hs'. apply IH; [done|by apply Hdeep|done|done].
    + intros x Hx. apply (Hdeep x Hx). rewrite instrs_deep_unfold. left.
    + by apply scope_after_ok.
    + eapply scoped_node; [|exact Hs|done]. intros b k ->. apply Hn. by eexists _, _.
    + split; [done|]. destruct (exec_buffer n l st); try done. cbn in *. eapply sound_weaken; [|exact Hk]. intros y Hy. by left.
Qed.
End exec.

(** * Functions *)

Section functions.
Context `{IrTypes} (type_val : IrType → option ValType) {Rest : Type}.
Abbreviation IrFn := (IrFunction IrInstr IrType IrSiteId Rest).
Abbreviation Block := (IrBlock IrInstr IrType IrSiteId).
Implicit Types (fn : IrFn) (block : Block) (scope : Scope).

Definition fn_code fn : list IrInstr := blocks fn ≫= λ block, instrs block ≫= instrs_deep.

(** A value that no instruction defines: a parameter or an argument of a block. *)
Definition undefined_value fn (x : Z) : Prop := ∀ i, i ∈ fn_code fn → instr_result i ≠ Some x.

Definition defined_in fn (b x : Z) : Prop := ∃ block i, js_at (blocks fn) b = Some block ∧ i ∈ instrs block ∧ instr_result i = Some x.

(** What is in scope at the start of a block: what the blocks that dominate it define. *)
Definition available fn (b x : Z) : Prop :=
  undefined_value fn x ∨ ∃ a, a ≠ b ∧ dom (Z.of_nat (length (blocks fn))) (block_targets fn) a b ∧ defined_in fn a x.

(** SSA form: every use is in scope, and no argument of a block is defined again. *)
Record in_ssa fn : Prop := {
  ssa_scoped b block : js_at (blocks fn) b = Some block → scoped_buffer (available fn b) (instrs block);
  ssa_condition b block c br1 br2 s : js_at (blocks fn) b = Some block → terminator block = TBrIf c br1 br2 s → available fn b c ∨ defined_in fn b c;
  ssa_args block x : block ∈ blocks fn → x ∈ blockArgs block → undefined_value fn x }.

Definition folded_terminator scope (t : IrTerminator IrSiteId) : IrTerminator IrSiteId := default t (tryFoldTerminator t scope).

Definition folded_block scope block : Block :=
  {| block_id := block_id block; blockArgs := blockArgs block; blockArgTypes := blockArgTypes block;
     instrs := folded_buffer type_val scope (instrs block);
     terminator := folded_terminator (scope_behind type_val (instrs block) scope) (terminator block) |}.

Fixpoint folded_blocks (bs : list Block) scope : list Block :=
  match bs with [] => [] | block :: bs' => folded_block scope block :: folded_blocks bs' (scope_behind type_val (instrs block) scope) end.

Definition folded_fn fn : IrFn := {| fn_name := fn_name fn; fn_rest := fn_rest fn; blocks := folded_blocks (blocks fn) (seed (blocks fn)) |}.

Lemma fold_blocks_eq bs scope : (fold_blocks type_val bs scope).2 = folded_blocks bs scope ∧ ((fold_blocks type_val bs scope).1 = false → folded_blocks bs scope = bs).
Proof.
  revert scope. induction bs as [|block bs IH]; intros scope; [done|]. cbn [fold_blocks folded_blocks].
  destruct (IH (scope_behind type_val (instrs block) scope)) as [E1 E2]. destruct (fold_blocks type_val bs _) as [ch out]. cbn in E1, E2. subst out.
  assert (default block (foldBlock type_val block scope) = folded_block scope block) as Eb.
  { unfold foldBlock, folded_block, folded_terminator, folded_buffer. destruct (foldBuffer _ _ _), (tryFoldTerminator _ _); try done. by destruct block. }
  destruct (foldBlock type_val block scope); cbn in Eb |- *; (split; [by f_equal|]); [done|]. intros Hch. by rewrite E2, <-Eb.
Qed.

Lemma folded_blocks_lookup bs scope k : folded_blocks bs scope !! k =
  (λ block, folded_block (scope_behind type_val (take k bs ≫= instrs) scope) block) <$> bs !! k.
Proof.
  revert scope k. induction bs as [|block bs IH]; intros scope [|k]; try done. cbn. rewrite IH. destruct (bs !! k); [|done]. cbn. do 2 f_equal.
  unfold scope_behind. by rewrite foldl_app.
Qed.

Lemma length_folded_blocks bs scope : length (folded_blocks bs scope) = length bs.
Proof. revert scope. induction bs as [|block bs IH]; intros scope; [done|]. cbn. by rewrite IH. Qed.

Lemma elem_fn_code fn block i x : block ∈ blocks fn → i ∈ instrs block → x ∈ instrs_deep i → x ∈ fn_code fn.
Proof. intros Hb Hi Hx. apply list_elem_of_bind. exists block. split; [|done]. apply list_elem_of_bind. by exists i. Qed.

Lemma top_in_code fn block i : block ∈ blocks fn → i ∈ instrs block → i ∈ fn_code fn.
Proof. intros Hb Hi. eapply elem_fn_code; [done..|]. rewrite instrs_deep_unfold. left. Qed.

(** The folded block at an index, under a scope of known values. *)
Lemma folded_at fn b block : js_at (blocks fn) b = Some block → ∃ scope, scope_ok type_val (fn_code fn) scope ∧
  scope_ok type_val (fn_code fn) (scope_behind type_val (instrs block) scope) ∧ js_at (blocks (folded_fn fn)) b = Some (folded_block scope block).
Proof.
  intros Hb. apply js_at_Some in Hb as [H0 Hb]. assert (block ∈ blocks fn) as Hin by (by eapply list_elem_of_lookup_2).
  exists (scope_behind type_val (take (Z.to_nat b) (blocks fn) ≫= instrs) (seed (blocks fn))).
  assert (scope_ok type_val (fn_code fn) (scope_behind type_val (take (Z.to_nat b) (blocks fn) ≫= instrs) (seed (blocks fn)))) as Ho.
  { apply scope_behind_ok.
    - intros x (blk & Hx & Hk)%list_elem_of_bind. eapply top_in_code; [|done]. by eapply subseteq_take.
    - apply seed_ok. intros x (blk & Hx & Hk)%list_elem_of_bind. by eapply top_in_code. }
  split_and!; [done| |].
  - apply scope_behind_ok; [|done]. intros x Hx. by eapply top_in_code.
  - cbn. apply js_at_Some. split; [done|]. by rewrite folded_blocks_lookup, Hb.
Qed.

Lemma folded_none fn b : js_at (blocks fn) b = None → js_at (blocks (folded_fn fn)) b = None.
Proof.
  intros Hb. destruct (js_at (blocks (folded_fn fn)) b) as [block|] eqn:E; [|done]. exfalso. apply js_at_lt in E. cbn in E. rewrite length_folded_blocks in E.
  apply js_at_is_Some in E. rewrite Hb in E. by destruct E.
Qed.

Lemma folded_targets scope t : ∀ s, s ∈ targets (folded_terminator scope t) → s ∈ targets t.
Proof.
  intros s. unfold folded_terminator. destruct t as [| |c br1 br2 site|]; try done. cbn [tryFoldTerminator]. destruct (jm_get _ c) as [k|]; [|done].
  destruct (isConstTruthy k) as [[]|]; cbn; [..|done]; intros ->%list_elem_of_singleton; [left|right; left].
Qed.

Lemma folded_well_formed fn : well_formed_fn fn → well_formed_fn (folded_fn fn).
Proof.
  intros [Hid Ht]. assert (∀ k block', blocks (folded_fn fn) !! k = Some block' → ∃ scope block, blocks fn !! k = Some block ∧ block' = folded_block scope block) as Hat.
  { intros k block'. cbn. rewrite folded_blocks_lookup. intros (block & E & ->)%fmap_Some. by eexists _, block. }
  split.
  - intros i block' [H0 Hi]%js_at_Some. destruct (Hat _ _ Hi) as (scope & block & E & ->). apply (Hid i block). by apply js_at_Some.
  - intros block' [k Hk]%list_elem_of_lookup_1. destruct (Hat _ _ Hk) as (scope & block & E & ->). cbn [folded_fn blocks folded_block terminator].
    rewrite length_folded_blocks. apply list.Forall_forall. intros s Hs%folded_targets. specialize (Ht block ltac:(by eapply list_elem_of_lookup_2)).
    rewrite list.Forall_forall in Ht. by apply Ht.
Qed.

(** ** Runs *)

Section run.
Context {V W : Type} `{!IrMachine V W} {Fold : FoldMachine type_val} fn (Hwf : well_formed_fn fn) (Hcode : foldable type_val (fn_code fn)) (Hssa : in_ssa fn).
Abbreviation sound := (sound (type_val := type_val) (fn_code fn)).
Abbreviation path := (path (Z.of_nat (length (blocks fn))) (block_targets fn)).

(** What the blocks of a path define, and what nothing defines. *)
Definition visited (l : list Z) (x : Z) : Prop := undefined_value fn x ∨ ∃ a, a ∈ l ∧ defined_in fn a x.

Lemma available_visited l b x : path (b :: l) b → available fn b x → visited l x.
Proof.
  intros Hp [Hu|(a & Hne & Hd & Hx)]; [by left|]. right. exists a. split; [|done]. by destruct (proj1 (elem_of_cons _ _ _) (Hd _ Hp)).
Qed.

Lemma sound_undefined l ρ ρ' : sound (visited l) ρ → (∀ x, ¬ undefined_value fn x → ρ' x = ρ x) → sound (visited l) ρ'.
Proof.
  assert (∀ x c, known type_val (fn_code fn) x c → ¬ undefined_value fn x) as Hk.
  { intros x c Hx Hu. destruct (known_defined _ _ _ _ Hx) as (b & k & Hi & Hr). by apply (Hu _ Hi). }
  assert (∀ x s, known_string (fn_code fn) x s → ¬ undefined_value fn x) as Hs.
  { intros x s Hx Hu. destruct (known_string_defined _ _ _ Hx) as (b & k & Hi & Hr). by apply (Hu _ Hi). }
  intros [Sc Ss] He. split; intros x y Hx Hy; rewrite He by eauto; auto.
Qed.

Lemma sound_enter (l : list Z) br (st : (Z → V) * W) : sound (visited l) st.1 → sound (visited l) (enter fn br st).1.
Proof.
  intros Hs. unfold enter. destruct (js_at (blocks fn) (target br)) as [block|] eqn:E; [|done]. eapply sound_undefined; [exact Hs|].
  assert (block ∈ blocks fn) as Hin by (apply js_at_Some in E as [_ E]; by eapply list_elem_of_lookup_2).
  intros x Hx. cbn. assert (x ∉ blockArgs block) as Hn by (intros Ha; by apply Hx, (ssa_args _ Hssa block)). clear Hx Hs E Hin. unfold bind_args.
  generalize (st.1) (st.1 <$> branch_args br). induction (blockArgs block) as [|p ps IH]; intros ρ vs; [done|]. destruct vs as [|v vs]; [done|]. cbn [zip zip_with foldl].
  rewrite IH by (intros Ha; apply Hn; by right). cbn. case_decide as Hp; [|done]. exfalso. apply Hn. subst. left.
Qed.

(** A branch of the folded function is the branch of the function. *)
Lemma leave_same n scope b block (st : (Z → V) * W) : js_at (blocks fn) b = Some block → scope_ok type_val (fn_code fn) scope → sound (λ x, available fn b x ∨ defined_in fn b x) st.1 →
  @leave _ _ _ _ _ (ir_sem n) (folded_terminator scope (terminator block)) st = @leave _ _ _ _ _ (ir_sem n) (terminator block) st.
Proof.
  intros Hb Ho [Sc _]. unfold folded_terminator. destruct (terminator block) as [| |c br1 br2 site|] eqn:Et; try done. cbn [tryFoldTerminator].
  destruct (jm_get (constDefs scope) c) as [k|] eqn:Ec; [|done]. destruct (isConstTruthy k) as [t|] eqn:Ek; [|done]. cbn.
  rewrite (Sc c k) by (by eapply ssa_condition || by eapply sc_const). by rewrite (truthy_const k t).
Qed.

Lemma run_same n fuel b l (st : (Z → V) * W) : path (b :: l) b → sound (visited l) st.1 →
  @run _ _ _ _ _ _ _ (ir_sem n) (folded_fn fn) fuel b st = @run _ _ _ _ _ _ _ (ir_sem n) fn fuel b st.
Proof.
  revert b l st. induction fuel as [|fuel IH]; intros b l st Hp Hs; [done|]. cbn [run].
  destruct (js_at (blocks fn) b) as [block|] eqn:E; [|by rewrite folded_none]. destruct (folded_at fn b block E) as (scope & Ho & Ho' & ->).
  assert (block ∈ blocks fn) as Hin by (pose proof E as E'; apply js_at_Some in E' as [_ E']; by eapply list_elem_of_lookup_2).
  rewrite !exec_all_buffer. cbn [folded_block instrs terminator].
  destruct (buffer_same (fn_code fn) (visited l) n scope (instrs block)) with (st := st) as [Eq Hk].
  { intros x Hx D s Hs' Hsc. apply folded_same; [done| |done|done]. intros y Hy. by eapply elem_fn_code. }
  { intros x Hx. by eapply top_in_code. }
  { done. }
  { eapply scoped_buffer_mono; [|by apply (ssa_scoped _ Hssa)]. intros x. by apply available_visited. }
  { done. }
  rewrite Eq. destruct (exec_buffer n (instrs block) st) as [st'| | |] eqn:Eb; try done. cbn [of_outcome]. cbn in Hk.
  assert (sound (visited (b :: l)) st'.1) as Hk1.
  { eapply sound_weaken; [|exact Hk]. intros x [Hu|(a & [->|Ha]%elem_of_cons & Hx)]; [left; by left| |left; right; by exists a].
    destruct Hx as (blk & i & E1 & Hi & Hr). rewrite E in E1. injection E1 as <-. right. by exists i. }
  assert (sound (λ x, available fn b x ∨ defined_in fn b x) st'.1) as Hk2.
  { eapply sound_weaken; [|exact Hk1]. intros x [Hx|Hx]; [|right; exists b; split; [left|done]].
    destruct (available_visited l b x Hp Hx) as [|(a & Ha & Hd)]; [by left|right; exists a; split; [by right|done]]. }
  rewrite (leave_same n _ b block) by done. destruct (leave (terminator block) st') as [br|] eqn:El; [|done].
  assert (enter (folded_fn fn) br st' = enter fn br st') as ->.
  { unfold enter. destruct (js_at (blocks fn) (target br)) as [blk|] eqn:E1; [|by rewrite folded_none]. by destruct (folded_at fn _ blk E1) as (? & _ & _ & ->). }
  apply leave_targets in El. apply (IH _ (b :: l)).
  - eapply path_edge; [exact Hp|]. split; [unfold block_targets; by rewrite E|]. destruct Hwf as [_ Ht]. specialize (Ht block Hin). rewrite list.Forall_forall in Ht. by apply Ht.
  - by apply sound_enter.
Qed.
End run.

(** ** Allocations *)

Lemma in_buffer_cons (f : Scope → Scope * list Z) fs scope : in_buffer (f :: fs) scope = ((in_buffer fs (f scope).1).1, (f scope).2 ++ (in_buffer fs (f scope).1).2).
Proof.
  assert (∀ gs s ids, foldl (λ s (g : Scope → Scope * list Z), let '(scope', ids) := g s.1 in (scope', s.2 ++ ids)) (s, ids) gs = ((in_buffer gs s).1, ids ++ (in_buffer gs s).2)) as Hall.
  { unfold in_buffer. induction gs as [|g gs IH]; intros s ids; cbn; [by rewrite app_nil_r|]. destruct (g s) as [s' k]. rewrite (IH s' (ids ++ k)), (IH s' k). cbn.
    by rewrite app_assoc. }
  unfold in_buffer at 1. cbn. destruct (f scope) as [s' ids]. by rewrite Hall.
Qed.

Definition item_drops scope (i : IrInstr) : list Z := (retired_in type_val i scope).2.
Definition buffer_drops scope (l : list IrInstr) : list Z := (in_buffer (retired_in type_val <$> l) scope).2.

Lemma retired_in_eq i scope : retired_in type_val i scope =
  (scope_after type_val i scope, retired_here type_val scope i ++
    match tryFoldInstr type_val i (see_const i scope) with Some _ => [] | None => nested_buffers i ≫= buffer_drops (scope_after type_val i scope) end).
Proof.
  unfold retired_in. rewrite instr_fold_unfold. fold (retired_in type_val). do 2 f_equal. destruct (tryFoldInstr _ _ _); [done|]. by rewrite list_fmap_bind.
Qed.

Lemma buffer_drops_cons x l scope : buffer_drops scope (x :: l) = item_drops scope x ++ buffer_drops (scope_after type_val x scope) l.
Proof. unfold buffer_drops, item_drops. cbn [fmap list_fmap]. rewrite in_buffer_cons. cbn [snd]. by rewrite retired_in_eq. Qed.

Lemma buffer_drops_app l k scope : buffer_drops scope (l ++ k) = buffer_drops scope l ++ buffer_drops (scope_behind type_val l scope) k.
Proof. revert scope. induction l as [|x l IH]; intros scope; [done|]. cbn [app]. rewrite !buffer_drops_cons, IH, <-app_assoc. done. Qed.

Lemma allocs_folded_buffer l scope : (∀ x, x ∈ l → ∀ scope, allocIdsIn x ≡ₚ allocIdsIn (folded type_val scope x) ++ item_drops scope x) →
  (l ≫= allocIdsIn) ≡ₚ (folded_buffer type_val scope l ≫= allocIdsIn) ++ buffer_drops scope l.
Proof.
  revert scope. induction l as [|x l IH]; intros scope Hl; [done|]. rewrite folded_cons, buffer_drops_cons. csimpl.
  rewrite (Hl x) by left. rewrite (IH (scope_after type_val x scope)) by (intros; apply Hl; by right). solve_Permutation.
Qed.

Lemma rewritten_allocs i scope r : tryFoldInstr type_val i scope = Some r →
  allocIdsIn i = option_list (alloc (base i)) ∧ allocIdsIn r = option_list (alloc (base r)) ∧ (alloc (base r) = None ∨ alloc (base r) = alloc (base i)).
Proof.
  destruct i as [b l| | | | | | | |]; try done. destruct l; try done; cbn; intros E.
  - unfold tryFoldBinary in E. destruct (jm_get _ lhs); [|done]. destruct (jm_get _ rhs); [|done]. apply fmap_Some in E as (c & _ & ->).
    rewrite !allocIdsIn_unfold. cbn. rewrite app_nil_r. by split_and!; [| |left].
  - unfold tryFoldUnary in E. destruct (jm_get _ rand); [|done]. apply fmap_Some in E as (c & _ & ->).
    rewrite !allocIdsIn_unfold. cbn. rewrite app_nil_r. by split_and!; [| |left].
  - unfold tryFoldStringConcat in E. destruct (jm_get _ lhs); [|done]. destruct (jm_get _ rhs); [|done]. injection E as <-.
    rewrite !allocIdsIn_unfold. cbn. rewrite !app_nil_r. by split_and!; [| |right].
Qed.

(** What an instruction allocates is what is left of it and what is retired. *)
Lemma allocs_folded i scope : allocIdsIn i ≡ₚ allocIdsIn (folded type_val scope i) ++ item_drops scope i.
Proof.
  revert scope. induction i as [i IH] using instr_ind'. intros scope. unfold item_drops. rewrite retired_in_eq, folded_eq. cbn [snd]. unfold retired_here.
  destruct (tryFoldInstr type_val i (see_const i scope)) as [r|] eqn:E.
  - destruct (rewritten_allocs _ _ _ E) as (-> & -> & [Er|Er]); rewrite Er; destruct (alloc (base i)) as [a|]; cbn; try done; by rewrite ?app_nil_r.
  - rewrite !allocIdsIn_unfold, nested_map, base_map, app_nil_l, <-app_assoc. apply Permutation_app_head.
    induction IH as [|l ls Hl _ IHl]; [done|]. csimpl. rewrite IHl, (allocs_folded_buffer l (scope_after type_val i scope)) by (rewrite list.Forall_forall in Hl; exact Hl). solve_Permutation.
Qed.

Lemma allocs_folded_blocks bs scope : (bs ≫= λ block, instrs block ≫= allocIdsIn) ≡ₚ
  (folded_blocks bs scope ≫= λ block, instrs block ≫= allocIdsIn) ++ buffer_drops scope (bs ≫= instrs).
Proof.
  revert scope. induction bs as [|block bs IH]; intros scope; [done|]. csimpl. rewrite (IH (scope_behind type_val (instrs block) scope)), buffer_drops_app.
  rewrite (allocs_folded_buffer (instrs block) scope) by (intros; apply allocs_folded). cbn. solve_Permutation.
Qed.
End functions.

Section theorem.
Context `{IrTypes} (type_val : IrType → option ValType) {Rest Meta : Type}.
Abbreviation IrFn := (IrFunction IrInstr IrType IrSiteId Rest).

(** C13: constant folding is right where its tables are.  Take a well-formed function in
    SSA form with one definition per value, constants in the range of their types,
    and, on the values that folding knows ([foldable]): i32 products below 2^53,
    operands of the logical operators that are booleans, no arithmetic on doubles that
    gives a NaN, and no f64.neg of a NaN (constants do not carry the sign of a NaN, which
    Wasm's f64.neg flips, leaves open elsewhere, and f64.copysign reads).  Then the result
    is well formed, the allocations of the function are those that are left and those
    that the registry retired, and every call ends as it did, at every bound, on every
    machine that computes the primitives as Wasm does. *)
Theorem constantFold_correct (fn : IrFn) (registry : option (AllocSiteRegistry Meta)) :
  well_formed_fn fn → foldable type_val (fn_code fn) → in_ssa fn →
  let fn' := default fn (constantFold type_val fn registry).1 in
  well_formed_fn fn' ∧
  (∃ removed, (constantFold type_val fn registry).2 = retire_all registry removed ∧ fn_allocs fn ≡ₚ fn_allocs fn' ++ removed) ∧
  ∀ (V W : Type) (M : IrMachine V W) (Fold : FoldMachine type_val) n fuel st, run_ir fn' n fuel st = run_ir fn n fuel st.
Proof.
  intros Hwf Hcode Hssa. assert (default fn (constantFold type_val fn registry).1 = folded_fn type_val fn) as ->.
  { unfold constantFold, folded_fn. destruct (fold_blocks_eq type_val (blocks fn) (seed (blocks fn))) as [E1 E2].
    destruct (fold_blocks type_val (blocks fn) (seed (blocks fn))) as [[] out]; cbn in *; [by rewrite E1|]. rewrite E2 by done. by destruct fn. }
  split; [by apply folded_well_formed|]. split.
  - exists (buffer_drops type_val (seed (blocks fn)) (blocks fn ≫= instrs)). split; [|apply allocs_folded_blocks].
    unfold constantFold. by destruct (fold_blocks _ _ _).
  - intros V W M Fold n fuel st. unfold run_ir. destruct (decide (blocks fn = [])) as [E|Hne].
    { destruct fuel as [|fuel]; [done|]. cbn [run]. assert (js_at (blocks fn) 0 = None) as En by (by rewrite E). by rewrite folded_none, En. }
    apply (run_same type_val fn Hwf Hcode Hssa n fuel 0 []).
    + constructor. destruct (blocks fn); [done|cbn; lia].
    + eapply sound_undefined; [|done]. split; intros x y [Hx|(a & Ha & _)] Hk; try (by apply elem_of_nil in Ha); exfalso.
      * destruct (known_defined _ _ _ _ Hk) as (b & k & Hi & Hr). by apply (Hx _ Hi).
      * destruct (known_string_defined _ _ _ Hk) as (b & k & Hi & Hr). by apply (Hx _ Hi).
Qed.
End theorem.

(** * Witnesses *)

Lemma unique_results `{IrTypes} (code : list IrInstr) : NoDup (omap instr_result code) →
  ∀ i j x, i ∈ code → j ∈ code → instr_result i = Some x → instr_result j = Some x → i = j.
Proof.
  induction code as [|k code IH]; intros Hn i j x Hi Hj Ei Ej; [by apply elem_of_nil in Hi|]. cbn in Hn.
  assert (∀ y, y ∈ code → instr_result y = Some x → instr_result k = Some x → False) as Hk.
  { intros y Hy Ey Ek. rewrite Ek in Hn. inversion_clear Hn as [|? ? Hx _]. apply Hx, list_elem_of_omap. by exists y. }
  apply elem_of_cons in Hi as [->|Hi], Hj as [->|Hj]; [done|by destruct (Hk j)|by destruct (Hk i)|].
  eapply IH; [|done..]. destruct (instr_result k); [by inversion_clear Hn|done].
Qed.

Lemma entry_dominates n (succs : Z → list Z) b : dom n succs 0 b.
Proof. intros l. induction 1 as [|l a b _ IH _]; [left|by right]. Qed.

Module FoldSample.
Inductive val := Num (v : WVal) | Str (s : jsstr) | Other.

Definition val_types : IrTypes := {| IrType := ValType; IrClassShape := unit; IrFnctorShape := unit; IrSiteId := unit |}.
#[export] Existing Instance val_types.

Definition carrier (t : IrType) : option ValType := Some t.

Definition const_of (c : IrConst) : val := match const_value c with Some v => Num v | None => Other end.

(** A call keeps its arguments in the world. *)
Definition step (t : option IrType) (l : IrLeaf) (vs : list val) (w : list val) : leaf_result val (list val) :=
  match l, vs with
  | IrInstrConst c, [] => LNext (const_of c) w
  | IrInstrBinary op _ _, [Num a; Num b] => match wasm_binary (t ≫= carrier) op a b with Some v => LNext (Num v) w | None => LStop (Trapped w) end
  | IrInstrUnary op _, [Num a] => match wasm_unary op a with Some v => LNext (Num v) w | None => LStop (Trapped w) end
  | IrInstrStringConst v _ _, [] => LNext (Str v) w
  | IrInstrStringConcat _ _ _ _ _, [Str a; Str b] => LNext (Str (a ++ b)) w
  | IrInstrCall _ _, _ => LNext Other (w ++ vs)
  | _, _ => LStop (Trapped w)
  end.

#[export] Instance machine : IrMachine val (list val) := {|
  leaf_step := step;
  truthy v := match v with Num (WI32 z) => negb (z =? 0) | _ => true end;
  case_is _ _ := false;
  get_slot _ _ := Other;
  set_slot w _ _ := w;
  iter_start _ _ w := IDone w;
  iter_next _ w := IDone w;
  iter_exit _ w := IDone w |}.

#[export, refine] Instance fold_machine : FoldMachine (M := machine) carrier := {| const_val := const_of; string_val := Str |}.
Proof.
  - done.
  - intros t op lhs rhs l r a b v c w El Er Eb Ec. unfold leaf_step, machine, step, const_of. rewrite El, Er, Ec. by rewrite Eb.
  - intros t op rand o a v c w Eo Eu Ec. unfold leaf_step, machine, step, const_of. rewrite Eo, Ec. by rewrite Eu.
  - done.
  - done.
  - intros [z| | | |[]| |] b [= <-]; done.
Defined.

Definition at_ (r : Z) (t : ValType) (a : option Z) (l : IrLeaf) : IrInstr := Leaf (mkBase (Some r) (Some t) None a) l.
Definition print : IrFuncRef := mkFuncRef (js "print") (CRuntime (js "print")).

Definition choice : IrInstr :=
  IrInstrIfStmt (mkBase None None None None) 1 [at_ 7 VF64 None (IrInstrBinary JsShrU 2 1); at_ 8 VI32 None (IrInstrCall print [7; 6])] [].

(** The comparison is false, so the second block is not entered. *)
Definition sample_fn : IrFunction IrInstr IrType IrSiteId unit := {|
  fn_name := js "f"; fn_rest := ();
  blocks := [
    {| block_id := 0; blockArgs := []; blockArgTypes := [];
       instrs := [at_ 0 VI32 None (IrInstrConst (CI32 2147483647)); at_ 1 VI32 None (IrInstrConst (CI32 5));
                  at_ 2 VI32 (Some 0) (IrInstrBinary I32Add 0 1); at_ 3 VI32 None (IrInstrBinary I32LtU 2 1);
                  at_ 4 VExternref None (IrInstrStringConst (js "a") None None); at_ 5 VExternref (Some 1) (IrInstrStringConcat 4 4 None None None)];
       terminator := TBrIf 3 {| target := 1; branch_args := [] |} {| target := 2; branch_args := [5] |} None |};
    {| block_id := 1; blockArgs := []; blockArgTypes := []; instrs := []; terminator := TReturn [1] None |};
    {| block_id := 2; blockArgs := [6]; blockArgTypes := [VExternref];
       instrs := [choice];
       terminator := TReturn [2] None |}] |}.

Definition sites2 : AllocSiteRegistry unit := (fresh (fresh empty_registry AkBox VI32 None).1 AkString VExternref None).1.

Lemma sample_well_formed_fold : well_formed_fn sample_fn.
Proof.
  split.
  - intros i block Hi. apply js_at_Some in Hi as [H0 Hi]. destruct (Z.to_nat i) as [|[|[|]]] eqn:E; cbn in Hi; try done; injection Hi as <-; cbn; lia.
  - intros block Hb. repeat (apply elem_of_cons in Hb as [->|Hb]; [cbn; repeat constructor; cbn; lia|]). by apply elem_of_nil in Hb.
Defined.

Lemma sample_code : fn_code sample_fn =
  [at_ 0 VI32 None (IrInstrConst (CI32 2147483647)); at_ 1 VI32 None (IrInstrConst (CI32 5));
   at_ 2 VI32 (Some 0) (IrInstrBinary I32Add 0 1); at_ 3 VI32 None (IrInstrBinary I32LtU 2 1);
   at_ 4 VExternref None (IrInstrStringConst (js "a") None None); at_ 5 VExternref (Some 1) (IrInstrStringConcat 4 4 None None None);
   choice; at_ 7 VF64 None (IrInstrBinary JsShrU 2 1); at_ 8 VI32 None (IrInstrCall print [7; 6])].
Proof. reflexivity. Defined.

Lemma sample_foldable : foldable carrier (fn_code sample_fn).
Proof.
  split.
  - intros i j x. apply unique_results. apply (bool_decide_unpack _). by vm_compute.
  - intros b c Hi. rewrite sample_code in Hi. unfold choice, at_ in Hi. repeat (apply elem_of_cons in Hi as [E|Hi]; [(discriminate E || (injection E as -> ->; cbn; lia))|]). by apply elem_of_nil in Hi.
  - intros b op lhs rhs l r Hi _ _. rewrite sample_code in Hi. unfold choice, at_ in Hi. repeat (apply elem_of_cons in Hi as [E|Hi]; [(discriminate E || (injection E; intros; subst; done))|]). by apply elem_of_nil in Hi.
  - intros b op rand o Hi _. rewrite sample_code in Hi. unfold choice, at_ in Hi. repeat (apply elem_of_cons in Hi as [E|Hi]; [discriminate E|]). by apply elem_of_nil in Hi.
Defined.

Lemma sample_entry x : defined_in sample_fn 0 x → available sample_fn 2 x.
Proof. intros Hx. right. exists 0. split_and!; [done|apply entry_dominates|done]. Defined.

Ltac in_scope := repeat first [right; reflexivity | left].

Lemma sample_ssa : in_ssa sample_fn.
Proof.
  split.
  - intros b block [H0 Hb]%js_at_Some. destruct (Z.to_nat b) as [|[|[|]]] eqn:E; cbn in Hb; try done; injection Hb as <-.
    + repeat first [apply conj | apply Forall_cons_2 | apply Forall_nil_2 | exact I]; in_scope.
    + done.
    + replace b with 2 by lia. split; [|done]. apply Forall_cons_2; [|apply Forall_cons_2; [done|apply Forall_nil_2]].
      split; [|split; [|done]]; (apply Forall_cons_2; [|apply Forall_cons_2; [|apply Forall_nil_2]]).
      * apply sample_entry. eexists _, (at_ 2 VI32 (Some 0) (IrInstrBinary I32Add 0 1)). split_and!; [done|cbn; do 2 right; left|done].
      * apply sample_entry. eexists _, (at_ 1 VI32 None (IrInstrConst (CI32 5))). split_and!; [done|cbn; right; left|done].
      * by right.
      * left. left. intros i Hi. rewrite sample_code in Hi. unfold choice, at_ in Hi. repeat (apply elem_of_cons in Hi as [->|Hi]; [done|]). by apply elem_of_nil in Hi.
  - intros b block c br1 br2 s [H0 Hb]%js_at_Some Ht. destruct (Z.to_nat b) as [|[|[|]]] eqn:E; cbn in Hb; try done; injection Hb as <-; try done.
    injection Ht as <- _ _ _. right. replace b with 0 by lia. eexists _, (at_ 3 VI32 None (IrInstrBinary I32LtU 2 1)). split_and!; [done|cbn; do 3 right; left|done].
  - intros block x Hb Hx. repeat (apply elem_of_cons in Hb as [->|Hb]; [cbn in Hx; try by apply elem_of_nil in Hx|]); [|by apply elem_of_nil in Hb].
    apply list_elem_of_singleton in Hx as ->. intros i Hi. rewrite sample_code in Hi. unfold choice, at_ in Hi. repeat (apply elem_of_cons in Hi as [->|Hi]; [done|]). by apply elem_of_nil in Hi.
Defined.

(** The sum wraps, the comparison is unsigned, the shift reads an unsigned integer. *)
Example fold_result : match constantFold carrier sample_fn (Some sites2) with
  | (Some fn', Some reg) =>
      (blocks fn' ≫= instrs) = [at_ 0 VI32 None (IrInstrConst (CI32 2147483647)); at_ 1 VI32 None (IrInstrConst (CI32 5));
        at_ 2 VI32 None (IrInstrConst (CI32 (-2147483644))); at_ 3 VI32 None (IrInstrConst (CBool false));
        at_ 4 VExternref None (IrInstrStringConst (js "a") None None); at_ 5 VExternref (Some 1) (IrInstrStringConst (js "aa") None None);
        IrInstrIfStmt (mkBase None None None None) 1 [at_ 7 VF64 None (IrInstrConst (CF64 (number_of 67108864))); at_ 8 VI32 None (IrInstrCall print [7; 6])] []] ∧
      (terminator <$> blocks fn') = [TBr {| target := 2; branch_args := [5] |} None; TReturn [1] None; TReturn [2] None] ∧
      ((λ p, match p with Live _ => true | _ => false end) <$> sites reg) = [false; true]
  | _ => False
  end.
Proof. vm_compute. by repeat split. Qed.

Example fold_runs : run_ir sample_fn 1 3 (λ _, Other, []) = Some (Returned [Num (WI32 (-2147483644))] [Num (WF64 (number_of 67108864)); Str (js "aa")]).
Proof. by vm_compute. Qed.

(** Where the tables and Wasm part: a product that a double rounds, operands of a
    logical operator that are not booleans, and NaNs, whose sign Wasm flips or leaves
    open. *)
Example product_rounds : foldBinary carrier I32Mul (CI32 2147483647) (CI32 2147483647) (Some VI32) = Some (CI32 0) ∧
  wasm_binary (Some VI32) I32Mul (WI32 2147483647) (WI32 2147483647) = Some (WI32 1).
Proof. by vm_compute. Qed.

Example logical_and : foldBinary carrier I32And (CI32 1) (CI32 2) (Some VI32) = Some (CBool true) ∧ wasm_binary (Some VI32) I32And (WI32 1) (WI32 2) = Some (WI32 0).
Proof. by vm_compute. Qed.

Example nan_sign : foldUnary F64Neg (CF64 S754_nan) = Some (CF64 S754_nan) ∧ wasm_unary F64Neg (WF64 S754_nan) = None ∧
  foldBinary carrier F64Div (CF64 (S754_zero false)) (CF64 (S754_zero false)) None = Some (CF64 S754_nan) ∧
  wasm_binary None F64Div (WF64 (S754_zero false)) (WF64 (S754_zero false)) = None.
Proof. by vm_compute. Qed.
End FoldSample.

Lemma constantFold_correct_witness :
  run_ir (M := FoldSample.machine) (default FoldSample.sample_fn (constantFold FoldSample.carrier FoldSample.sample_fn (Some FoldSample.sites2)).1) 1 3 (λ _, FoldSample.Other, [])
  = run_ir (M := FoldSample.machine) FoldSample.sample_fn 1 3 (λ _, FoldSample.Other, []).
Proof.
  destruct (constantFold_correct FoldSample.carrier FoldSample.sample_fn (Some FoldSample.sites2) FoldSample.sample_well_formed_fold FoldSample.sample_foldable FoldSample.sample_ssa)
    as (_ & _ & Hrun).
  exact (Hrun FoldSample.val (list FoldSample.val) FoldSample.machine FoldSample.fold_machine 1%nat 3%nat _).
Defined.
